(* ===== verification/_CoqProject ===== *)
-Q . S2P
Prelude.v
Numeral.v
Text.v
Double.v
DoubleFacts.v
Json.v
JsonFacts.v
Http.v
Router.v
RouterFacts.v
WebSocket.v
WebSocketFacts.v
Utf8Facts.v
WebSocketServer.v
WebSocketServerFacts.v
Calendar.v
TimeZone.v
Cron.v
CronFacts.v
Queue.v
Worker.v
WorkerFacts.v
Transaction.v
TransactionFacts.v
Dispatcher.v
Lock.v
Scheduler.v
SchedulerFacts.v
Regex.v
Lexer.v
Media.v
MediaFacts.v
Uploads.v
Request.v
Response.v
Wire.v
WireFacts.v
ResponseFacts.v
UploadsFacts.v
SteadyClock.v
RateLimit.v
Cache.v
CacheFacts.v
Environment.v
Config.v
Formats.v
FormatsFacts.v
Attribute.v
Rules.v
Validation.v
ValidationFacts.v
View.v
SpearParser.v
SpearParserFacts.v
Spear.v
SpearFacts.v
SpearEnds.v
Schema.v
SchemaSql.v
SchemaSqlFacts.v
Migrate.v
Orm.v
Mutation.v
OrmFacts.v
ScopeFacts.v
Session.v
Guard.v
SessionFacts.v
GuardFacts.v
Security.v
SecurityFacts.v
Ast.v
Expressions.v
Statements.v
Parser.v
ParserFacts.v
SyntaxTrees.v
ReadFacts.v
CppIr.v
CppIrFacts.v
