(* ===== verification/Prelude.v ===== *)
(** * Gungnir: a verification library

    Gungnir is a web framework in C++23 ([include/gungnir], [src]).  This library
    models the parts of it that carry its own logic as executable functions and
    proves what makes them correct.  It is a shallow embedding: a C++ function
    becomes a Rocq function, a class its state as a record with one function per
    member function, an exception a value of [result], an interface a type class,
    a loop that is not structural a function with fuel, and a machine integer an
    integer whose wrap-around or overflow is written out.

    ** The program and the files

    A request enters through the event loop of [src/http/server.cpp]; ordinary
    requests are dispatched by the router to handlers, upgraded connections speak
    WebSocket frames; handlers exchange JSON, push jobs to queues whose workers run
    in the background, and a scheduler starts tasks at the times of cron expressions.

    - [Prelude]: outcomes ([result], [exn]), bytes, machine integers, cutting text at
      separators, bit fields as arithmetic, tactics.
    - [Numeral], [Double], [DoubleFacts]: what [std::from_chars], [std::to_string] and
      stream output do with integers and IEEE doubles, as far as the JSON code uses
      them: a double is a dyadic number, printing uses 17 significant digits, and
      reading back what was printed gives the same double.
    - [Json], [JsonFacts]: [include/gungnir/http/json.hpp] and [src/http/json.cpp], the
      value type, the printer and the recursive-descent parser.
    - [Text]: what [std::string_view] offers: prefixes, suffixes, first occurrences.
    - [Http]: the request methods, the header rules of [src/security/security.cpp] and the
      header lookup the other files share.
    - [Wire], [WireFacts], [ResponseFacts]: [src/http/message.cpp] and the framing of
      [src/http/server.cpp] ([request_size], [request_content_length]): requests from the
      bytes of a connection, responses and chunks to bytes.
    - [Request], [Response]: [src/http/request.cpp], [src/http/response.cpp] and
      [src/http/cookie.cpp]: headers, query, cookies, body input and its cache, cookies to set.
    - [Media], [MediaFacts], [Uploads], [UploadsFacts]: [src/http/uploads.cpp]: recognition
      of media types, and multipart form data.
    - [Router], [RouterFacts]: [src/routing/router.cpp] and
      [include/gungnir/http/middleware_registry.hpp]: route table, names, constraints,
      percent-encoding, matching, URL building, middleware pipeline, route groups.
    - [WebSocket], [WebSocketFacts], [Utf8Facts]: [src/http/websocket.cpp]: SHA-1, base64,
      handshake, frame parser and serialiser, UTF-8 and close-code checks.
    - [WebSocketServer], [WebSocketServerFacts]: the WebSocket handlers of
      [src/http/server.cpp] ([process_websocket_buffer], [dispatch_websocket_message],
      [websocket_fail], [complete_ready_websocket], the write and shutdown paths) as
      functions on the state of one connection, and the event loop as a step relation.
    - [Calendar]: the proleptic Gregorian calendar of [<chrono>] (days from civil and
      back), which the time zones call.
    - [TimeZone]: [include/gungnir/scheduler/timezone.hpp]; the virtual
      class is the type class [TimeZone], with the laws [LawfulZone] its three
      implementations satisfy.
    - [Cron], [CronFacts]: [include/gungnir/scheduler/cron.hpp]: parser, matching, search.
    - [Queue]: [include/gungnir/queue/job.hpp], [driver.hpp] and
      [memory_driver.hpp]; the virtual class is the type class [Driver], its contract
      [LawfulDriver], and [Memory] the in-memory driver that keeps it.
    - [Worker], [WorkerFacts]: [include/gungnir/queue/worker.hpp], proved against
      [LawfulDriver] for any driver.
    - [Transaction], [TransactionFacts]: [src/database/connection.cpp] (scopes, savepoints,
      commit callbacks), [src/database/transaction.cpp] and [transaction.hpp]; the driver
      is the type class [Database].
    - [Dispatcher]: [include/gungnir/queue/dispatcher.hpp] and
      [service.hpp]: jobs published at once or when a transaction commits.
    - [Lock]: [include/gungnir/scheduler/lock.hpp]; the virtual class is the
      type class [LockStore].
    - [Scheduler], [SchedulerFacts]: [include/gungnir/scheduler/task.hpp] and
      [scheduler.hpp]: due times, execution under locks, the run loop.
    - [Regex], [Lexer]: the lexer of the Gungnir language
      ([src/language/lexer.cpp]); [Regex] is [std::regex_match] for the two expressions it
      uses.
    - [SteadyClock]: lifetimes on the steady clock, shared by the next two.
    - [RateLimit]: [include/gungnir/http/rate_limit.hpp].
    - [Cache], [CacheFacts]: [include/gungnir/cache]: the type class [Store] with its
      contract [LawfulStore], the in-memory store, lock handles over [LockStore], the
      repository and its JSON values.
    - [Environment], [Config]: [src/config/environment.cpp] and
      [src/config/repository.cpp].
    - [Formats], [Rules], [Validation] with [FormatsFacts], [ValidationFacts]:
      [src/validation/validator.cpp] and [include/gungnir/validation]: text formats, the
      rule language, the application of rules to a JSON object.
    - [View], [SpearParser], [Spear] with [SpearParserFacts], [SpearFacts], [SpearEnds]:
      [src/view]: values, the template parser, the renderer and its budgets.
    - [Attribute]: [include/gungnir/model/value.hpp] and [decimal.hpp].
    - [Schema], [SchemaSql], [SchemaSqlFacts]: the builders of
      [include/gungnir/migration] and the compiler of [src/database/compiler.cpp] for the
      SQL dialects and MongoDB.
    - [Migrate]: [src/migration/runner.cpp] over the class [MigrationConnection] and the
      [Transaction] objects of [Transaction], with the contract [LawfulMigrations].
    - [Orm], [Mutation] with [OrmFacts], [ScopeFacts]: [src/orm/compiler.cpp],
      [mutation.cpp] and [advanced_mutation.cpp]: query plans to text and bindings.
    - [Session], [Guard] with [SessionFacts], [GuardFacts]: [include/gungnir/session],
      [src/session/middleware.cpp], [include/gungnir/auth], [src/auth]: sessions and their
      middleware, passwords, login, remember tokens, authorization.
    - [Security], [SecurityFacts]: the middleware of [src/http/security.cpp].
    - [Ast], [Expressions], [Statements], [Parser] with [ParserFacts], [SyntaxTrees],
      [ReadFacts]: [include/gungnir/language/ast.hpp] and [src/language/parser.cpp], the
      parser over the tokens of [Lexer].
    - [CppIr], [CppIrFacts]: [include/gungnir/language/cpp_ir.hpp],
      [src/language/cpp_ir_verifier.cpp] and [src/language/emitter.cpp]: the intermediate
      representation, its verifier and the printer of C++.

    A file whose name ends in Facts holds theorems about the file it is named after; small
    components have both in one file.  Classes separate a component from what it calls:
    [TimeZone], [Driver], [Database], [LockStore], [Store], [MigrationConnection] have one
    operation per virtual function, and [LawfulZone], [LawfulDriver], [LawfulStore],
    [LawfulMigrations] state what their clients rely on.

    ** What the theorems show

    - JSON: printing and parsing are inverse, up to the alternative that holds an
      unsigned integer which a signed one can hold ([json_roundtrip]); whatever is accepted
      survives printing ([json_reparse]); the parser is total ([json_parse_total]); the
      printed text has no control characters ([json_dump_printable]).
    - Routing: a URL built by name matches its own route and gives the values back
      ([named_url_matches]); names stay unique through every sequence of operations
      ([route_names_unique]); dispatch takes the first match and nests the middleware
      ([dispatch_first_match], [dispatch_no_match]); bound parameters are safe
      ([match_parameters_safe]); registries order middleware by rank
      ([resolve_group_sorted], [priority_ranks]); [url] fails only as documented
      ([url_total]).
    - WebSocket frames: the parser accepts exactly the RFC 6455 encodings
      ([parse_client_frame_exact]), waits on every proper prefix
      ([parse_client_frame_prefix]), never changes its mind on an error
      ([parse_client_frame_rejects]), and reads back what the serialiser writes
      ([server_frame_roundtrip]); the handshake answers as the RFC asks
      ([handshake_nonce]); [valid_utf8] accepts exactly the encodings of scalar values
      ([valid_utf8_spec]).
    - WebSocket connections: messages are reassembled however they are cut into reads
      ([message_reassembled]); sessions only see valid messages within the limit and
      buffers stay bounded in every run ([websocket_run_safe]); the loop terminates
      ([process_buffer_total]).
    - Scheduling: local times denote their instants ([local_time_exact]); transition days
      exist in every year ([transition_days_exist]); a cron field means its entries
      ([cron_field_meaning]) and its parser is total ([cron_parse_total]); [next_after]
      is the first occurrence ([next_after_first]) and, in zones with a constant offset,
      its horizon suffices ([next_after_found]).
    - Queue: first in first out ([memory_fifo]); delayed jobs exactly when due
      ([delayed_job_timing]); failed jobs ([failed_jobs_managed]); a worker's run is a
      history of an abstract queue that loses and duplicates no job ([worker_accounts])
      and runs none too often ([worker_attempts_bounded]); backoff
      ([retry_after_backoff]); stopping ([run_stops]) and limits ([run_limits]).
    - HTTP/1: the event loop and the parser agree on where a request ends
      ([framing_agrees]); requests arrive however they are cut into reads
      ([requests_received]); a response has one head and the body it counts
      ([response_not_split]); chunks decode ([chunks_decode]); cookies that are set come
      back ([cookies_come_back]).
    - Uploads: every body is decided ([multipart_total]) and printed forms are read back
      ([multipart_roundtrip]); recognition stays within the bytes
      ([media_detection_safe]), and its text test is UTF-8 without controls
      ([text_is_clean_utf8]).
    - Transactions: nested scopes are atomic over a database with savepoints
      ([transaction_atomic]); tokens are accepted innermost first ([scopes_in_order]); jobs
      dispatched inside a transaction share its fate ([dispatched_with_commit]).
    - Scheduler: a lease of the in-memory store excludes others ([lock_exclusive]);
      [next_due] is the first due instant ([next_due_exact]); the runner does not oversleep
      ([runner_never_oversleeps]); a task for one server runs once per occurrence
      ([one_server_once]); a date that never occurs stops the runner
      ([impossible_date_stops_runner]).
    - Lexer: total, lossless and with exact positions ([lexer_lossless]); diagnostics
      point into tokens ([lexer_diagnostics]).
    - Rate limits: windows hold their limit ([rate_limit_enforced]) and [retry_after] can be
      relied on ([retry_after_honest]).
    - Cache: values live exactly their lifetime ([values_kept]); a value computed under
      a lock is computed by a caller that acquired its lease, and stored only if the
      lease is in force when the factory returns ([single_flight]).
    - Configuration: environment files are read back with the documented precedence
      ([environment_read]).
    - Validation: what is returned is part of the input, at declared paths only and of
      containers only what is declared in them ([validated_declared]), unchanged
      ([validated_kept]) and of the type ([validated_typed]) and size ([validated_bounds])
      the rules say; sizes are compared as exact decimals ([compare_exact]); [check]
      refuses a wrong configuration before it runs a rule, and else returns
      ([check_returns]).
    - Views: data cannot leave its place in the page ([rendered_woven],
      [escape_roundtrip]); compiling and rendering end ([compile_ends], [render_ends]) and
      output is bounded ([output_bounded]).
    - Schema and migrations: a statement compiled from regular operations is one statement
      with the names and texts of its plan ([compiled_statements]), for MongoDB one
      document ([mongo_commands]); [migrate] and [rollback] leave schema and records in
      step, also when a migration fails where schema statements are rolled back
      ([migrate_complete], [migrate_rollback]); [reset] ends ([reset_ends]).
    - Queries of SQL databases: identifiers and values cannot change the statement and
      placeholders match bindings ([queries_sound]); conditions a model adds hold of every row whatever the
      user joins with OR ([scopes_hold]).
    - Sessions and login: a session comes back as it was saved ([session_roundtrip]); login
      moves it to a new identifier ([login_moves_session]); remember tokens work once
      ([remember_once]); a password verifies against its own hash only
      ([password_verifies]).
    - Security middleware: forged requests do not reach handlers ([csrf_enforced]);
      addresses behind trusted proxies cannot be chosen by clients
      ([proxies_unspoofable]); the cross-origin policy ([cors_policy]) and host lists
      ([hosts_validated]) are kept.
    - Parser: it ends on all tokens ([parse_total]) and reads an expression tree whose
      operands do not start with a stray sign back from its spelling ([expression_read]).
    - C++ IR: the verifier ends and accepts exactly the well-formed projects
      ([verifier_exact]); those and no others are printed ([verified_emits]).

    ** Fuel and bounds

    [NoFuel] marks a bounded recursion that was given too little fuel.  The JSON parser
    gets two units per input byte and two more ([json_parse_total] shows it is enough);
    the lexer, the loops over header lines, delimiters, parts and media containers one
    unit per byte and one more ([lexer_lossless], [framing_agrees], [multipart_total],
    [media_detection_safe]); the frame loop one unit per buffered byte
    ([process_buffer_total]); the UTF-8 and SHA-1 loops one per byte, with their
    specifications as the proof that it is enough; the cron range loop as many units as
    the field has values; the cron search exactly the source's bound of 8 * 366 days of
    minutes; the template parser and the renderer the nesting and composition limits of
    the source ([compile_ends], [render_ends]); the parser of the language a unit per
    token and a few more for every scan ([parse_total]); the verifier of the IR and the
    emitter a unit per node and one more ([verifier_exact], [verified_emits]).
    The loops of [Worker.run] and [Scheduler.run] read their surroundings from
    a list of ticks; [NoFuel] there means that they are still running when the list
    ends, and [run_stops] shows when that cannot be.
    Signed overflow, which C++ leaves undefined, is the exception [undefined] where the
    modelled code does arithmetic on its input; the time points of the cron search and of
    the clocks, nanoseconds in 64 bits, are integers without bounds.

    ** What is not modelled

    Sockets, TLS and HTTP/2, the drivers over client libraries (databases, Redis, SMTP,
    S3) and operating-system time zones: that code calls libraries whose behaviour is not
    in the repository.  Threads and coroutines: a component's mutex makes its operations
    single steps, and [WebSocketServer] interleaves the handlers of one connection; pools,
    executors and supervisors, which are nothing but threads, are left out.  Spans,
    metrics and logs have no influence on results.  The regular expressions of route
    constraints, the application's handlers, template files, scrypt and SHA-256 are
    arguments.  Of the language, semantic analysis and lowering, which stand between
    [Parser] and [CppIr] and are larger than either side, and the language server; of the
    models, the templates over the query compiler. *)

From Stdlib Require Export ZArith Lia.
From Stdlib Require Strings.Byte.
From Stdlib Require Export Init.Byte.
From stdpp Require Export prelude list strings gmap.

#[global] Open Scope Z_scope.

(** ** Outcomes of C++ code

    A C++ function either returns, or throws.  The exception types are the ones
    of the standard library that the modelled code raises, and those of the view engine
    with the place they report; the message is kept
    because callers and tests observe it; [undefined] is undefined behaviour, an
    outcome no correct program has.  [NoFuel] is not an outcome of the
    program: it marks a bounded recursion that was given too little fuel, and
    every function that can produce it has a theorem that it does not. *)
Inductive exn : Type :=
| invalid_argument (what : string)
| length_error (what : string)
| out_of_range (what : string)
| logic_error (what : string)
| runtime_error (what : string)
| http_exception (status : Z) (what : string)
| view_syntax_error (what name : list byte) (line column : Z)
| view_not_found (name : list byte)
| view_invalid_path (name : list byte)
| undefined (what : string).

#[export] Instance byte_eq_dec : EqDecision byte := Byte.byte_eq_dec.

#[export] Instance exn_eq_dec : EqDecision exn.
Proof. solve_decision. Defined.

Inductive result (A : Type) : Type :=
| Ok (a : A)
| Throw (e : exn)
| NoFuel.
Arguments Ok {A} a.
Arguments Throw {A} e.
Arguments NoFuel {A}.

#[export] Instance result_eq_dec `{EqDecision A} : EqDecision (result A).
Proof. solve_decision. Defined.

#[export] Instance result_ret : MRet result := fun A a => Ok a.
#[export] Instance result_bind : MBind result := fun A B f m =>
  match m with
  | Ok a => f a
  | Throw e => Throw e
  | NoFuel => NoFuel
  end.
#[export] Instance result_fmap : FMap result := fun A B f m =>
  match m with
  | Ok a => Ok (f a)
  | Throw e => Throw e
  | NoFuel => NoFuel
  end.

Definition is_ok {A} (r : result A) : bool :=
  match r with Ok _ => true | _ => false end.

Lemma Ok_inj {A} (a b : A) : Ok a = Ok b -> a = b.
Proof. congruence. Qed.

(** [terminates r]: the fuel was enough. *)
Definition terminates {A} (r : result A) : Prop :=
  match r with NoFuel => False | _ => True end.

Lemma bind_Ok {A B} (m : result A) (f : A -> result B) b :
  m ≫= f = Ok b <-> exists a, m = Ok a /\ f a = Ok b.
Proof.
  destruct m; cbn; split; [by eauto | | done | | done |].
  all: intros (? & [=] & ?); by subst.
Qed.

Lemma mapM_Ok {A B} (f : A -> result B) (l : list A) (k : list B) :
  mapM f l = Ok k -> Forall2 (fun a b => f a = Ok b) l k.
Proof.
  revert k. induction l as [|a l IH]; intros k H.
  - injection H as <-. constructor.
  - cbn in H. apply bind_Ok in H as (b & Hb & H). apply bind_Ok in H as (k' & Hk & H).
    injection H as <-. constructor; [done|]. by apply IH.
Qed.

(** Computations that do not run out of fuel. *)
Lemma mapM_ends {A B} (f : A -> result B) l : (forall a, f a <> NoFuel) -> mapM f l <> NoFuel.
Proof.
  intros Hf. induction l as [|a l IH]; cbn; [done|]. specialize (Hf a). destruct (f a); cbn; [|done..]. by destruct (mapM f l).
Qed.

Lemma bind_ends {A B} (m : result A) (f : A -> result B) : m <> NoFuel -> (forall a, f a <> NoFuel) -> m ≫= f <> NoFuel.
Proof. intros Hm Hf. destruct m; cbn; [apply Hf|done..]. Qed.

(** Exceptions are caught; undefined behaviour is not an exception. *)
Definition catchable (e : exn) : bool :=
  match e with undefined _ => false | _ => true end.

(** [raises_only P r]: [r] is a value or an exception that satisfies [P]; in
    particular the fuel was enough. *)
Definition raises_only (P : exn -> bool) {A} (r : result A) : Prop :=
  match r with Ok _ => True | Throw e => P e = true | NoFuel => False end.

Definition is_invalid_argument (e : exn) : bool :=
  match e with invalid_argument _ => true | _ => false end.

(** The code under test only ever raises [std::invalid_argument]. *)
Abbreviation only_invalid := (raises_only is_invalid_argument).

Lemma raises_only_terminates P {A} (r : result A) : raises_only P r -> terminates r.
Proof. by destruct r. Qed.

Lemma raises_only_bind P {A B} (m : result A) (f : A -> result B) :
  raises_only P m -> (forall a, m = Ok a -> raises_only P (f a)) -> raises_only P (m ≫= f).
Proof. destruct m as [a|e|]; cbn; intros H Hf; [by apply Hf|done|done]. Qed.

(** [returns P r]: [r] is a value that satisfies [P]. *)
Definition returns {A} (P : A -> Prop) (r : result A) : Prop :=
  match r with Ok a => P a | _ => False end.

Lemma returns_bind {A B} (P : A -> Prop) (Q : B -> Prop) (m : result A) (f : A -> result B) :
  returns P m -> (forall a, P a -> returns Q (f a)) -> returns Q (m ≫= f).
Proof. destruct m as [a|e|]; cbn; intros H Hf; [by apply Hf|done|done]. Qed.

Lemma returns_Ok {A} (P : A -> Prop) r : returns P r -> exists a, r = Ok a /\ P a.
Proof. destruct r as [a|e|]; [|done..]. by exists a. Qed.

Lemma returns_impl {A} (P Q : A -> Prop) r : (forall a, P a -> Q a) -> returns P r -> returns Q r.
Proof. destruct r; cbn; auto. Qed.

(** [approx r r']: [r'] is what more fuel makes of [r]. *)
Definition approx {A} (r r' : result A) : Prop := r = NoFuel \/ r = r'.

Lemma approx_refl {A} (r : result A) : approx r r.
Proof. by right. Qed.

Lemma approx_bind {A B} (m m' : result A) (f f' : A -> result B) :
  approx m m' -> (forall a, approx (f a) (f' a)) -> approx (m ≫= f) (m' ≫= f').
Proof. intros [->| ->] Hf; [by left|]. destruct m'; cbn; [apply Hf|by right..]. Qed.

Lemma approx_Ok {A} (r r' : result A) a : approx r r' -> r = Ok a -> r' = Ok a.
Proof. intros [->|<-]; congruence. Qed.

Lemma approx_terminates {A} (r r' : result A) : approx r r' -> terminates r -> r = r'.
Proof. intros [->|]; [done|congruence]. Qed.

#[export] Hint Resolve approx_refl : core.

(** ** Stateful code

    A computation that changes a state of type [S] and may throw; the state changes
    made before a throw stay. *)
Definition eff (S A : Type) : Type := S -> result A * S.

#[export] Instance eff_ret {S} : MRet (eff S) := fun A a st => (Ok a, st).
#[export] Instance eff_bind {S} : MBind (eff S) := fun A B f m st =>
  match m st with
  | (Ok a, st) => f a st
  | (Throw e, st) => (Throw e, st)
  | (NoFuel, st) => (NoFuel, st)
  end.

Definition throw {S A} (e : exn) : eff S A := fun st => (Throw e, st).
Definition get {S} : eff S S := fun st => (Ok st, st).
Definition modify {S} (f : S -> S) : eff S unit := fun st => (Ok (), f st).

(** [try { m } catch (...) { handler }]. *)
Definition try_catch {S A} (m : eff S A) (handler : exn -> eff S A) : eff S A := fun st =>
  match m st with
  | (Throw e, st) => if catchable e then handler e st else (Throw e, st)
  | r => r
  end.

Lemma eff_bind_Ok {S A B} (m : eff S A) (f : A -> eff S B) st a st' :
  m st = (Ok a, st') -> (m ≫= f) st = f a st'.
Proof. intros E. unfold mbind, eff_bind. by rewrite E. Qed.

Lemma eff_bind_Throw {S A B} (m : eff S A) (f : A -> eff S B) st e st' :
  m st = (Throw e, st') -> (m ≫= f) st = (Throw e, st').
Proof. intros E. unfold mbind, eff_bind. by rewrite E. Qed.

Lemma eff_bind_inv {S A B} (m : eff S A) (f : A -> eff S B) st b st' :
  (m ≫= f) st = (Ok b, st') -> exists a st1, m st = (Ok a, st1) /\ f a st1 = (Ok b, st').
Proof.
  unfold mbind, eff_bind. destruct (m st) as [[a|e|] st1]; [|done..]. by eauto.
Qed.

(** ** Bytes

    [std::string] and [std::string_view] are sequences of bytes.  [uc b] is
    [static_cast<unsigned char>(b)]; [chr z] is the narrowing conversion
    [static_cast<char>(z)], which keeps the low eight bits. *)
Abbreviation bytes := (list byte).

Definition uc (b : byte) : Z := Z.of_N (Byte.to_N b).

Definition chr (z : Z) : byte :=
  default x00 (Byte.of_N (Z.to_N (z mod 256))).

(** A string literal of the source. *)
Definition lit (s : string) : bytes := String.list_byte_of_string s.

(** A message that ends with a string of the program. *)
Definition message (s : string) (b : bytes) : string :=
  String.append s (String.string_of_list_byte b).

#[export] Program Instance byte_countable : Countable byte :=
  inj_countable Byte.to_N Byte.of_N _.
Next Obligation. intros b. apply Byte.of_to_N. Qed.

Definition byte_eqb (a b : byte) : bool := bool_decide (a = b).
Infix "=b?" := byte_eqb (at level 70).

(** [between lo hi b] is the source's [b >= lo && b <= hi] on characters.  Both
    bounds are ASCII in the source, so the signedness of [char] is immaterial. *)
Definition between (lo hi b : byte) : bool :=
  (uc lo <=? uc b) && (uc b <=? uc hi).

Definition is_digit : byte -> bool := between "0" "9".

(** The character classes of [<cctype>] in the C locale. *)
Definition isspace (c : byte) : bool := (c =b? " ") || between x09 x0d c.
Definition isalpha (c : byte) : bool := between "a" "z" c || between "A" "Z" c.
Definition isalnum (c : byte) : bool := isalpha c || is_digit c.

Definition all_bytes : list byte :=
  omap (fun n => Byte.of_N (N.of_nat n)) (seq 0 256).

Lemma elem_of_all_bytes b : b ∈ all_bytes.
Proof.
  apply list_elem_of_omap. exists (N.to_nat (Byte.to_N b)).
  rewrite N2Nat.id, Byte.of_to_N. split; [|done].
  apply elem_of_seq. pose proof (Byte.to_N_bounded b). lia.
Qed.

(** Exhaustion over the 256 bytes, decided by evaluation. *)
Lemma byte_forall (P : byte -> bool) :
  forallb P all_bytes = true -> forall b, P b = true.
Proof.
  intros H b. rewrite forallb_forall in H.
  apply H, list_elem_of_In, elem_of_all_bytes.
Qed.

Lemma uc_range b : 0 <= uc b < 256.
Proof.
  unfold uc. pose proof (Byte.to_N_bounded b). lia.
Qed.

Lemma chr_uc b : chr (uc b) = b.
Proof.
  unfold chr, uc. pose proof (Byte.to_N_bounded b).
  rewrite Z.mod_small by lia. by rewrite N2Z.id, Byte.of_to_N.
Qed.

Lemma uc_chr z : uc (chr z) = z mod 256.
Proof.
  unfold chr, uc. pose proof (Z.mod_pos_bound z 256 ltac:(lia)).
  destruct (Byte.of_N (Z.to_N (z mod 256))) as [b|] eqn:E; simpl.
  - apply Byte.to_of_N in E. rewrite E. lia.
  - apply Byte.of_N_None_iff in E. lia.
Qed.

Lemma uc_chr_small z : 0 <= z < 256 -> uc (chr z) = z.
Proof. intros. rewrite uc_chr. apply Z.mod_small. lia. Qed.

#[export] Instance uc_inj : Inj (=) (=) uc.
Proof. intros a b H. rewrite <-(chr_uc a), <-(chr_uc b). congruence. Qed.

Lemma byte_eqb_true a b : (a =b? b) = true <-> a = b.
Proof. apply bool_decide_eq_true. Qed.

Lemma byte_eqb_refl a : (a =b? a) = true.
Proof. by apply byte_eqb_true. Qed.

Lemma byte_eqb_false a b : (a =b? b) = false <-> a <> b.
Proof. apply bool_decide_eq_false. Qed.

(** ** Machine integers *)
Definition u8 (z : Z) : Z := z mod 2 ^ 8.
Definition u32 (z : Z) : Z := z mod 2 ^ 32.
Definition u64 (z : Z) : Z := z mod 2 ^ 64.

Definition INT_MIN : Z := - 2 ^ 31.
Definition INT_MAX : Z := 2 ^ 31 - 1.
Definition INT64_MIN : Z := - 2 ^ 63.
Definition INT64_MAX : Z := 2 ^ 63 - 1.
Definition UINT64_MAX : Z := 2 ^ 64 - 1.

(** [time_point + milliseconds] on a clock that counts nanoseconds in [int64_t]: the
    conversion of the duration and the sum may overflow. *)
Definition plus_ms (start delay : Z) : result Z :=
  if (INT64_MAX <? delay * 1000000) || (INT64_MAX <? start + delay * 1000000)
  then Throw (undefined "signed overflow in time_point + duration")
  else Ok (start + delay * 1000000).

(** ** Tactics *)

(** Case analysis on the first [match] or [if] of the goal or of a hypothesis. *)
Ltac case_goal :=
  match goal with
  | |- context [match ?e with _ => _ end] => destruct e eqn:?
  end.

Ltac case_hyp H :=
  match type of H with
  | context [match ?e with _ => _ end] => destruct e eqn:?
  end.

(** Turn boolean tests of the source into propositions. *)
Ltac reflect_bools :=
  repeat match goal with
  | H : (_ && _) = true |- _ => apply andb_prop in H as [? ?]
  | H : (_ || _) = false |- _ => apply orb_false_elim in H as [? ?]
  | H : negb _ = true |- _ => apply negb_true_iff in H
  | H : negb _ = false |- _ => apply negb_false_iff in H
  | H : (_ =b? _) = true |- _ => apply byte_eqb_true in H; subst
  | H : (_ =b? _) = false |- _ => apply byte_eqb_false in H
  | H : (_ <=? _) = true |- _ => apply Z.leb_le in H
  | H : (_ <=? _) = false |- _ => apply Z.leb_gt in H
  | H : (_ <? _) = true |- _ => apply Z.ltb_lt in H
  | H : (_ <? _) = false |- _ => apply Z.ltb_ge in H
  | H : (_ =? _) = true |- _ => apply Z.eqb_eq in H
  | H : (_ =? _) = false |- _ => apply Z.eqb_neq in H
  | H : bool_decide _ = true |- _ => apply bool_decide_eq_true in H
  | H : bool_decide _ = false |- _ => apply bool_decide_eq_false in H
  end.

(** A boolean statement [f b = true] about one byte, proved by evaluating it on
    all 256 of them. *)
Ltac by_bytes :=
  match goal with
  | b : byte |- @eq bool ?f true =>
      revert b; refine (byte_forall _ _); vm_compute; reflexivity
  end.

(** Evaluate the closed boolean tests on characters that the goal contains. *)
Ltac eval_bool t :=
  let r := eval vm_compute in t in
  lazymatch r with
  | true => change t with true
  | false => change t with false
  end.

Ltac eval_tests :=
  repeat match goal with
  | |- context [?a =b? ?b] => eval_bool (a =b? b)
  end; cbn [negb andb orb].

(** A closed decidable statement, decided by evaluation; only a boolean is
    normalised, not the values it compares. *)
Ltac by_decide := apply (bool_decide_eq_true_1 _); vm_compute; reflexivity.

(** ** Text cut at a separator *)

(** [s.find(stop)]: the text before the first [stop], and what follows it; [None]
    when there is none. *)
Fixpoint until (stop : byte) (s : bytes) : bytes * option bytes :=
  match s with
  | [] => ([], None)
  | c :: s' =>
      if c =b? stop then ([], Some s')
      else let '(l, r) := until stop s' in (c :: l, r)
  end.

(** The pieces between separators: what a loop that cuts at [find(stop, cursor)]
    visits, one more piece than there are separators. *)
Fixpoint fields (stop : byte) (s : bytes) : list bytes :=
  match s with
  | [] => [[]]
  | c :: s' =>
      if c =b? stop then [] :: fields stop s'
      else match fields stop s' with
           | piece :: rest => (c :: piece) :: rest
           | [] => [[c]]
           end
  end.

Lemma until_app stop l rest :
  stop ∉ l -> until stop (l ++ stop :: rest) = (l, Some rest).
Proof.
  induction l as [|c l IH]; cbn; intros H; [by rewrite byte_eqb_refl|].
  apply not_elem_of_cons in H as [Hne H]. rewrite IH by done.
  destruct (c =b? stop) eqn:E; [|done]. by reflect_bools.
Qed.

Lemma until_none stop l : stop ∉ l -> until stop l = (l, None).
Proof.
  induction l as [|c l IH]; cbn; intros H; [done|].
  apply not_elem_of_cons in H as [Hne H]. rewrite IH by done.
  destruct (c =b? stop) eqn:E; [|done]. by reflect_bools.
Qed.

Lemma until_inv stop s l r :
  until stop s = (l, r) ->
  (stop ∉ l) /\ s = l ++ match r with Some rest => stop :: rest | None => [] end.
Proof.
  revert l r. induction s as [|c s IH]; cbn; intros l r H.
  - injection H as <- <-. split; [apply not_elem_of_nil|done].
  - destruct (c =b? stop) eqn:E; reflect_bools.
    + injection H as <- <-. split; [apply not_elem_of_nil|done].
    + destruct (until stop s) as [l' r'] eqn:Hu. injection H as <- <-.
      destruct (IH l' r' eq_refl) as [Hn ->]. split; [|done].
      apply not_elem_of_cons. by split.
Qed.

Lemma until_split stop l rest :
  stop ∉ l -> until stop (l ++ rest) = (l ++ (until stop rest).1, (until stop rest).2).
Proof.
  induction l as [|c l IH]; cbn; intros H; [by destruct (until stop rest)|].
  apply not_elem_of_cons in H as [Hne H]. rewrite IH by done.
  destruct (c =b? stop) eqn:E; [|done]. by reflect_bools.
Qed.

Lemma fields_until stop s :
  fields stop s =
  match until stop s with
  | (piece, None) => [piece]
  | (piece, Some rest) => piece :: fields stop rest
  end.
Proof.
  induction s as [|c s IH]; cbn; [done|]. destruct (c =b? stop); [done|]. rewrite IH.
  by destruct (until stop s) as [l [r|]].
Qed.

(** ** Bit fields as arithmetic *)

Lemma lor_shiftl x y k :
  0 <= k -> 0 <= y < 2 ^ k -> Z.lor (Z.shiftl x k) y = x * 2 ^ k + y.
Proof.
  intros Hk Hy. rewrite <-Z.shiftl_mul_pow2 by done.
  destruct (Z.eq_dec y 0) as [->|Hy0]; [by rewrite Z.lor_0_r, Z.add_0_r|].
  assert (Z.land (Z.shiftl x k) y = 0) as E.
  { apply Z.bits_inj'. intros i Hi. rewrite Z.land_spec, Z.bits_0.
    destruct (Z.ltb_spec i k); [by rewrite Z.shiftl_spec_low|].
    rewrite (Z.bits_above_log2 y i), andb_false_r; [done|lia|].
    apply Z.log2_lt_pow2; [lia|]. pose proof (Z.pow_le_mono_r 2 k i). lia. }
  by rewrite <-Z.lxor_lor, <-Z.add_nocarry_lxor.
Qed.

(** [x << k | y] when [x << k] fits in the type. *)
Lemma lor_multiple a x y k :
  0 <= k -> a = x * 2 ^ k -> 0 <= y < 2 ^ k -> Z.lor a y = a + y.
Proof. intros Hk -> Hy. by rewrite <-Z.shiftl_mul_pow2, lor_shiftl, Z.shiftl_mul_pow2. Qed.

Lemma land_mask x m k : 0 <= k -> m = 2 ^ k - 1 -> Z.land x m = x mod 2 ^ k.
Proof. intros Hk ->. rewrite <-Z.land_ones by done. by rewrite Z.ones_equiv, <-Z.sub_1_r. Qed.

Lemma u8_small z : 0 <= z < 2 ^ 8 -> u8 z = z.
Proof. apply Z.mod_small. Qed.

Lemma u32_small z : 0 <= z < 2 ^ 32 -> u32 z = z.
Proof. apply Z.mod_small. Qed.

Lemma u64_idem z : u64 (u64 z) = u64 z.
Proof. unfold u64. by rewrite Zmod_mod. Qed.

Lemma u64_small z : 0 <= z < 2 ^ 64 -> u64 z = z.
Proof. apply Z.mod_small. Qed.

(** Shifts and masks by constants become multiplication, division and remainder. *)
Ltac arith_masks :=
  rewrite ?(land_mask _ 63 6), ?(land_mask _ 255 8), ?(land_mask _ 127 7), ?(land_mask _ 15 4),
    ?(land_mask _ 31 5), ?(land_mask _ 7 3) by (lia || reflexivity);
  rewrite ?Z.shiftr_div_pow2, ?Z.shiftl_mul_pow2 by lia.

(** Linear arithmetic with division and remainder by constants. *)
Ltac div_lia := Z.to_euclidean_division_equations; lia.
