(* ===== verification/Numeral.v ===== *)
(** * Decimal numerals: [std::to_string] and [std::from_chars] on integers

    The two standard-library conversions the framework uses everywhere:
    [std::to_string] ([to_string]) prints an integer in base ten without
    padding, and [std::from_chars] ([from_chars]) reads the longest prefix of
    digits, reporting an error for no digits at all and for a value outside the
    target type.  The callers compare the returned pointer with the end of the
    token, which is [from_chars_all]. *)

From S2P Require Import Prelude.

Definition digit (d : Z) : byte := chr (48 + d).

Definition digit_value (b : byte) : Z := uc b - 48.

Fixpoint to_digits (fuel : nat) (n : Z) : bytes :=
  match fuel with
  | O => []
  | S f =>
      if n <? 10 then [digit n]
      else to_digits f (n / 10) ++ [digit (n mod 10)]
  end.

(** [std::to_string] of a non-negative value; [log2 n + 1] digits are enough. *)
Definition to_string_u (n : Z) : bytes :=
  to_digits (S (Z.to_nat (Z.log2 n))) n.

(** [std::to_string] of a signed value. *)
Definition to_string (z : Z) : bytes :=
  if z <? 0 then "-"%byte :: to_string_u (- z) else to_string_u z.

Definition digits_value (s : bytes) : Z :=
  fold_left (fun acc b => acc * 10 + digit_value b) s 0.

(** The longest prefix on which [p] holds, and what is left. *)
Fixpoint span (p : byte -> bool) (s : bytes) : bytes * bytes :=
  match s with
  | [] => ([], [])
  | b :: s' =>
      if p b then let '(l, r) := span p s' in (b :: l, r) else ([], s)
  end.

(** [std::from_chars] for an integer type with range [lo, hi]; a minus sign is
    read only by the signed types ([lo < 0]).  [None] is [ec != std::errc{}]. *)
Definition from_chars (lo hi : Z) (s : bytes) : option (Z * bytes) :=
  let '(neg, s1) :=
    match s with
    | b :: s' => if (lo <? 0) && (b =b? "-") then (true, s') else (false, s)
    | [] => (false, [])
    end in
  let '(ds, rest) := span is_digit s1 in
  match ds with
  | [] => None
  | _ =>
      let v := if neg then - digits_value ds else digits_value ds in
      if (lo <=? v) && (v <=? hi) then Some (v, rest) else None
  end.

(** [ec == std::errc{} && ptr == end]. *)
Definition from_chars_all (lo hi : Z) (s : bytes) : option Z :=
  match from_chars lo hi s with
  | Some (v, []) => Some v
  | _ => None
  end.

Definition from_chars_int := from_chars_all INT_MIN INT_MAX.
Definition from_chars_int64 := from_chars_all INT64_MIN INT64_MAX.
Definition from_chars_uint64 := from_chars_all 0 UINT64_MAX.

(** ** Facts *)

Lemma span_app p s l r : span p s = (l, r) -> s = l ++ r.
Proof.
  revert l r. induction s as [|b s IH]; cbn; intros l r H; [by simplify_eq|].
  destruct (p b); [|by simplify_eq].
  destruct (span p s) as [l' r'] eqn:E. simplify_eq/=. f_equal. by apply IH.
Qed.

Lemma span_Forall p s l r : span p s = (l, r) -> Forall (fun b => p b = true) l.
Proof.
  revert l r. induction s as [|b s IH]; cbn; intros l r H; [by simplify_eq|].
  destruct (p b) eqn:Hb; [|by simplify_eq].
  destruct (span p s) as [l' r'] eqn:E. simplify_eq/=. constructor; [done|]. by eapply IH.
Qed.

(** [rest] does not continue a run of [p]. *)
Definition stops (p : byte -> bool) (rest : bytes) : Prop :=
  match rest with [] => True | b :: _ => p b = false end.

Lemma span_stop p l r :
  Forall (fun b => p b = true) l -> stops p r -> span p (l ++ r) = (l, r).
Proof.
  intros Hl Hr. induction Hl as [|b l Hb Hl IH]; cbn.
  - destruct r; [done|]. cbn in *. by rewrite Hr.
  - by rewrite Hb, IH.
Qed.

Lemma span_length p s l r : span p s = (l, r) -> (length r <= length s)%nat.
Proof. intros ->%span_app. rewrite length_app. lia. Qed.

Lemma is_digit_range b : is_digit b = true <-> 48 <= uc b <= 57.
Proof.
  unfold is_digit, between. change (uc "0") with 48. change (uc "9") with 57.
  rewrite andb_true_iff, !Z.leb_le. done.
Qed.

Lemma uc_digit d : 0 <= d < 10 -> uc (digit d) = 48 + d.
Proof. intros. apply uc_chr_small. lia. Qed.

Lemma is_digit_digit d : 0 <= d < 10 -> is_digit (digit d) = true.
Proof. intros. apply is_digit_range. rewrite uc_digit; lia. Qed.

Lemma digit_value_digit d : 0 <= d < 10 -> digit_value (digit d) = d.
Proof. intros. unfold digit_value. rewrite uc_digit; lia. Qed.

Lemma digits_value_snoc s b : digits_value (s ++ [b]) = digits_value s * 10 + digit_value b.
Proof. unfold digits_value. by rewrite fold_left_app. Qed.

Lemma to_digits_value f n :
  0 <= n < 10 ^ Z.of_nat f -> digits_value (to_digits f n) = n.
Proof.
  revert n. induction f as [|f IH]; intros n Hn; cbn [to_digits].
  { change (10 ^ Z.of_nat 0) with 1 in Hn. unfold digits_value. simpl. lia. }
  rewrite Nat2Z.inj_succ, Z.pow_succ_r in Hn by lia.
  destruct (n <? 10) eqn:E; reflect_bools.
  - unfold digits_value; simpl. rewrite digit_value_digit; lia.
  - rewrite digits_value_snoc, IH, digit_value_digit.
    + pose proof (Z.div_mod n 10). lia.
    + apply Z.mod_pos_bound; lia.
    + split; [apply Z.div_pos; lia|]. apply Z.div_lt_upper_bound; lia.
Qed.

Lemma to_digits_digits f n :
  0 <= n -> Forall (fun b => is_digit b = true) (to_digits f n).
Proof.
  revert n. induction f as [|f IH]; intros n Hn; cbn [to_digits]; [constructor|].
  destruct (n <? 10) eqn:E; reflect_bools.
  - repeat constructor. apply is_digit_digit. lia.
  - apply Forall_app; split; [apply IH, Z.div_pos; lia|].
    repeat constructor. apply is_digit_digit, Z.mod_pos_bound; lia.
Qed.

(** The printed number starts with a non-zero digit, unless it is "0". *)
Lemma to_digits_head f n :
  0 < n < 10 ^ Z.of_nat f ->
  exists b s, to_digits f n = b :: s /\ 49 <= uc b <= 57.
Proof.
  revert n. induction f as [|f IH]; intros n Hn; cbn [to_digits].
  { change (10 ^ Z.of_nat 0) with 1 in Hn. lia. }
  rewrite Nat2Z.inj_succ, Z.pow_succ_r in Hn by lia.
  destruct (n <? 10) eqn:E; reflect_bools.
  - exists (digit n), []. rewrite uc_digit by lia. split; [done|lia].
  - destruct (IH (n / 10)) as (b & s & -> & Hb).
    { split; [apply Z.div_str_pos; lia|]. apply Z.div_lt_upper_bound; lia. }
    exists b, (s ++ [digit (n mod 10)]). done.
Qed.

Lemma log2_digits n : 0 <= n -> n < 10 ^ Z.of_nat (S (Z.to_nat (Z.log2 n))).
Proof.
  intros Hn. rewrite Nat2Z.inj_succ, Z2Nat.id by apply Z.log2_nonneg.
  destruct (Z.eq_dec n 0) as [->|]; [done|].
  apply Z.lt_le_trans with (2 ^ Z.succ (Z.log2 n)); [apply Z.log2_spec; lia|].
  apply Z.pow_le_mono_l. lia.
Qed.

Lemma to_string_u_value n : 0 <= n -> digits_value (to_string_u n) = n.
Proof. intros. apply to_digits_value. split; [done|by apply log2_digits]. Qed.

Lemma to_string_u_digits n :
  0 <= n -> Forall (fun b => is_digit b = true) (to_string_u n).
Proof. apply to_digits_digits. Qed.

Lemma to_string_u_head n :
  0 < n -> exists b s, to_string_u n = b :: s /\ 49 <= uc b <= 57.
Proof. intros. apply to_digits_head. split; [done|]. apply log2_digits; lia. Qed.

Lemma to_string_u_nonempty n : 0 <= n -> to_string_u n <> [].
Proof.
  intros Hn. destruct (Z.eq_dec n 0) as [->|]; [done|].
  destruct (to_string_u_head n) as (b & s & -> & _); [lia|done].
Qed.

Lemma digit_not_minus b : is_digit b = true -> (b =b? "-") = false.
Proof.
  intros H%is_digit_range. apply byte_eqb_false. intros ->.
  change (uc "-") with 45 in H. lia.
Qed.

(** Reading back what [std::to_string] printed. *)
Lemma from_chars_to_string lo hi z rest :
  lo <= z <= hi -> lo < 0 \/ 0 <= z -> stops is_digit rest ->
  from_chars lo hi (to_string z ++ rest) = Some (z, rest).
Proof.
  intros Hz Hs Hrest. unfold from_chars, to_string.
  destruct (z <? 0) eqn:E; reflect_bools.
  - assert ((lo <? 0) = true) as -> by (apply Z.ltb_lt; lia). cbn [app andb].
    rewrite byte_eqb_refl, span_stop by (done || apply to_string_u_digits; lia).
    pose proof (to_string_u_nonempty (- z) ltac:(lia)).
    rewrite to_string_u_value by lia.
    destruct (to_string_u (- z)); [done|].
    replace (- - z) with z by lia.
    by replace ((lo <=? z) && (z <=? hi)) with true by lia.
  - pose proof (to_string_u_nonempty z ltac:(lia)) as Hne.
    pose proof (to_string_u_digits z ltac:(lia)) as Hds.
    destruct (to_string_u z) as [|b s] eqn:Hs'; [done|].
    inversion Hds as [|? ? Hb Hs'']; subst. cbn [app].
    rewrite (digit_not_minus b) by done. rewrite andb_false_r.
    change (b :: s ++ rest) with ((b :: s) ++ rest).
    rewrite span_stop by done. rewrite <-Hs', to_string_u_value by lia.
    by replace ((lo <=? z) && (z <=? hi)) with true by lia.
Qed.

Lemma from_chars_all_to_string lo hi z :
  lo <= z <= hi -> lo < 0 \/ 0 <= z -> from_chars_all lo hi (to_string z) = Some z.
Proof.
  intros. unfold from_chars_all.
  rewrite <-(app_nil_r (to_string z)), from_chars_to_string by (done || exact I). done.
Qed.

(** What an accepted token denotes. *)
Lemma from_chars_range lo hi s v rest :
  from_chars lo hi s = Some (v, rest) -> lo <= v <= hi.
Proof.
  unfold from_chars. intros H. destruct (match s with [] => _ | _ => _ end) as [neg s1].
  destruct (span is_digit s1) as [[|d ds] r]; [done|].
  case_match eqn:E; [|done]. reflect_bools. simplify_eq. lia.
Qed.

Lemma from_chars_all_range lo hi s v :
  from_chars_all lo hi s = Some v -> lo <= v <= hi.
Proof.
  unfold from_chars_all. intros H.
  destruct (from_chars lo hi s) as [[v' [|]]|] eqn:E; simplify_eq.
  by eapply from_chars_range.
Qed.
