(* ===== verification/Text.v ===== *)
(** * Searching text

    [std::string_view::starts_with] and [find] as functions that return the pieces
    they cut, with the facts that the parsers share. *)

From S2P Require Import Prelude.

(** [starts_with(prefix)]: what follows the prefix. *)
Fixpoint strip (prefix s : bytes) : option bytes :=
  match prefix, s with
  | [], _ => Some s
  | a :: prefix', b :: s' => if a =b? b then strip prefix' s' else None
  | _, [] => None
  end.

(** [find(pat)]: the text before the first occurrence and the text after it. *)
Fixpoint find (pat s : bytes) : option (bytes * bytes) :=
  match strip pat s with
  | Some rest => Some ([], rest)
  | None =>
      match s with
      | [] => None
      | c :: s' =>
          match find pat s' with
          | Some (l, r) => Some (c :: l, r)
          | None => None
          end
      end
  end.

Definition starts_with (prefix s : bytes) : bool :=
  match strip prefix s with Some _ => true | None => false end.

Definition ends_with (suffix s : bytes) : bool := starts_with (rev suffix) (rev s).

Definition contains (pat s : bytes) : bool :=
  match find pat s with Some _ => true | None => false end.

(** ** Prefixes *)

Lemma strip_app prefix rest : strip prefix (prefix ++ rest) = Some rest.
Proof. induction prefix as [|a prefix IH]; cbn; [by destruct rest|]. by rewrite byte_eqb_refl. Qed.

Lemma strip_inv prefix s rest : strip prefix s = Some rest -> s = prefix ++ rest.
Proof.
  revert s. induction prefix as [|a prefix IH]; intros s; [by destruct s; intros [= <-]|].
  destruct s as [|b s]; [done|]. cbn. destruct (a =b? b) eqn:E; [|done]. reflect_bools. intros H.
  f_equal. by apply IH.
Qed.

Lemma strip_None prefix s : strip prefix s = None <-> forall rest, s <> prefix ++ rest.
Proof.
  split; [intros E rest ->; by rewrite strip_app in E|].
  intros H. destruct (strip prefix s) eqn:E; [|done]. by apply strip_inv, H in E.
Qed.

Lemma strip_grow prefix s rest t : strip prefix s = Some rest -> strip prefix (s ++ t) = Some (rest ++ t).
Proof. intros ->%strip_inv. by rewrite <-app_assoc, strip_app. Qed.

Lemma starts_with_app prefix rest : starts_with prefix (prefix ++ rest) = true.
Proof. unfold starts_with. by rewrite strip_app. Qed.

Lemma starts_with_inv prefix s : starts_with prefix s = true -> exists rest, s = prefix ++ rest.
Proof.
  unfold starts_with. destruct (strip prefix s) as [rest|] eqn:E; [|done]. apply strip_inv in E. eauto.
Qed.

(** ** Occurrences *)

Lemma find_cons pat c s : strip pat (c :: s) = None ->
  find pat (c :: s) = (fun '(l, r) => (c :: l, r)) <$> find pat s.
Proof. intros E. cbn [find]. rewrite E. by destruct (find pat s) as [[l r]|]. Qed.

Lemma find_inv pat s l r : find pat s = Some (l, r) -> s = l ++ pat ++ r.
Proof.
  revert l. induction s as [|c s IH]; intros l; cbn [find];
    destruct (strip pat _) as [rest|] eqn:E; try (by intros [= <- <-]; apply strip_inv in E).
  destruct (find pat s) as [[l' r']|] eqn:E'; [|done]. intros [= <- <-]. cbn. f_equal. by apply IH.
Qed.

(** The occurrence is the first one. *)
Lemma find_least pat s l r l' r' :
  find pat s = Some (l, r) -> s = l' ++ pat ++ r' -> (length l <= length l')%nat.
Proof.
  revert l l'. induction s as [|c s IH]; intros l l'; cbn [find];
    destruct (strip pat _) as [rest|] eqn:E; try (intros [= <- <-] _; cbn; lia).
  destruct (find pat s) as [[l1 r1]|] eqn:E'; [|done]. intros [= <- <-] Es.
  destruct l' as [|d l']; [by apply (strip_None pat (c :: s)) with r' in E|].
  injection Es as -> Es. cbn. specialize (IH l1 l' eq_refl Es). lia.
Qed.

Lemma find_None pat s : find pat s = None <-> forall l r, s <> l ++ pat ++ r.
Proof.
  split.
  - induction s as [|c s IH]; cbn [find]; destruct (strip pat _) as [rest|] eqn:E; try done.
    + intros _ l r Es. destruct l as [|d l]; [|done].
      by apply (strip_None pat []) with r in E.
    + destruct (find pat s) as [[l r]|]; [done|]. intros _ l r Es.
      destruct l as [|d l]; [by apply (strip_None pat (c :: s)) with r in E|].
      injection Es as -> Es. by apply (IH eq_refl) in Es.
  - intros H. destruct (find pat s) as [[l r]|] eqn:E; [|done]. by apply find_inv, H in E.
Qed.

Lemma find_Some pat s l r :
  s = l ++ pat ++ r -> (forall l' r', s = l' ++ pat ++ r' -> (length l <= length l')%nat) ->
  find pat s = Some (l, r).
Proof.
  intros Es Hl. destruct (find pat s) as [[l1 r1]|] eqn:E.
  - pose proof (find_inv _ _ _ _ E) as E1. pose proof (find_least _ _ _ _ _ _ E Es).
    specialize (Hl _ _ E1). rewrite Es in E1. apply app_inj_1 in E1 as [<- E1]; [|lia].
    by apply app_inv_head in E1 as ->.
  - by apply (proj1 (find_None pat s)) in Es.
Qed.

Lemma find_here pat s : find pat (pat ++ s) = Some ([], s).
Proof. apply find_Some; [done|]. cbn. lia. Qed.

(** More text does not move the first occurrence. *)
Lemma find_grow pat s l r t : find pat s = Some (l, r) -> find pat (s ++ t) = Some (l, r ++ t).
Proof.
  revert l. induction s as [|c s IH]; intros l; cbn [find];
    destruct (strip pat _) as [rest|] eqn:E; try done.
  - intros [= <- <-]. apply (strip_grow _ _ _ t) in E. cbn in E.
    destruct t; cbn; by rewrite E.
  - intros [= <- <-]. apply (strip_grow _ _ _ t) in E. cbn in E |- *. by rewrite E.
  - destruct (find pat s) as [[l1 r1]|] eqn:E'; [|done]. intros [= <- <-].
    specialize (IH l1 eq_refl). cbn. rewrite IH.
    destruct (strip pat (c :: s ++ t)) as [rest|] eqn:E2; [|done]. exfalso.
    apply strip_inv in E2. apply find_inv in E' as Es.
    assert (length pat <= length (c :: s))%nat as Hlen by (rewrite Es; cbn; rewrite !length_app; lia).
    apply (proj1 (strip_None pat (c :: s)) E (drop (length pat) (c :: s))).
    apply (f_equal (take (length pat))) in E2. rewrite take_app_length in E2.
    change (c :: s ++ t) with ((c :: s) ++ t) in E2. rewrite take_app_le in E2 by done.
    rewrite <-(take_drop (length pat) (c :: s)) at 1. by rewrite E2.
Qed.

(** A prefix that ends before the end of the occurrence has none. *)
Lemma find_take pat s l r n :
  find pat s = Some (l, r) -> (n < length l + length pat)%nat -> find pat (take n s) = None.
Proof.
  intros E Hn. apply find_None. intros l' r' Et.
  assert (s = l' ++ pat ++ (r' ++ drop n s)) as Es.
  { rewrite <-(take_drop n s) at 1. rewrite Et. by rewrite <-!app_assoc. }
  pose proof (find_least _ _ _ _ _ _ E Es). apply (f_equal length) in Et.
  rewrite length_take, !length_app in Et. lia.
Qed.

(** A pattern does not start inside text that avoids its first character. *)
Lemma find_skip a pat l s : a ∉ l ->
  find (a :: pat) (l ++ s) = (fun '(l', r) => (l ++ l', r)) <$> find (a :: pat) s.
Proof.
  induction l as [|c l IH]; intros Ha; [by destruct (find (a :: pat) s) as [[? ?]|] eqn:E; cbn; rewrite E|].
  apply not_elem_of_cons in Ha as [Hne Ha]. cbn [app find strip].
  destruct (a =b? c) eqn:E; [by reflect_bools|]. rewrite (IH Ha).
  by destruct (find (a :: pat) s) as [[? ?]|].
Qed.

Lemma find_free a pat l : a ∉ l -> find (a :: pat) l = None.
Proof.
  intros Ha. rewrite <-(app_nil_r l), find_skip by done. done.
Qed.

(** In particular it is found where such text ends. *)
Lemma find_at a pat l r : a ∉ l -> find (a :: pat) (l ++ (a :: pat) ++ r) = Some (l, r).
Proof.
  intros Ha. rewrite find_skip, find_here by done. cbn. by rewrite app_nil_r.
Qed.
