(* ===== verification/Double.v ===== *)
(** * IEEE 754 binary64 as [std::from_chars] and [operator<<] see it

    The JSON component reads and prints [Double] values with the standard
    library.  A finite double is [(-1)^neg * m * 2^e] in canonical form;
    [from_chars_double] is the correctly rounded (nearest, ties to even)
    conversion of a decimal token, with [None] for [ec != std::errc{}] or a
    token that is not consumed; [print_double] is a stream insertion with
    [std::setprecision(max_digits10)], i.e. the [%.17g] format. *)

From S2P Require Import Prelude Numeral.

Inductive double : Type :=
| Finite (neg : bool) (m e : Z)
| Infinite (neg : bool)
| NotANumber.

#[export] Instance double_eq_dec : EqDecision double.
Proof. solve_decision. Defined.

Definition isfinite (d : double) : bool :=
  match d with Finite _ _ _ => true | _ => false end.

(** Canonical mantissa and exponent of a binary64 value. *)
Definition canonical (d : double) : bool :=
  match d with
  | Finite _ m e =>
      (0 <=? m) && (m <? 2 ^ 53) && (-1074 <=? e) && (e <=? 971) &&
      ((2 ^ 52 <=? m) || (e =? -1074))
  | _ => true
  end.

(** [operator==] on doubles: the zeros are equal, NaN is not equal to itself. *)
Definition double_eqb (x y : double) : bool :=
  match x, y with
  | NotANumber, _ | _, NotANumber => false
  | Finite _ 0 _, Finite _ 0 _ => true
  | _, _ => bool_decide (x = y)
  end.

(** Rounding of the quotient [n / d] to the nearest integer, ties to even. *)
Definition round_half_even (n d : Z) : Z :=
  let q := n / d in
  let r := n mod d in
  if 2 * r <? d then q
  else if d <? 2 * r then q + 1
  else if Z.even q then q else q + 1.

(** The fraction [(a / b) / base ^ k] as numerator and denominator. *)
Definition scaled (base a b k : Z) : Z * Z :=
  if 0 <=? k then (a, b * base ^ k) else (a * base ^ (- k), b).

(** The exponent of the double nearest to [a / b]: the one that gives the
    quotient 53 bits, or the smallest exponent there is. *)
Definition round_exponent (a b : Z) : Z :=
  let e0 := Z.max (-1074) (Z.log2 a - Z.log2 b - 53) in
  let '(n0, d0) := scaled 2 a b e0 in
  if d0 * 2 ^ 53 <=? n0 then e0 + 1 else e0.

(** The double nearest to the positive fraction [a / b]; [None] when it overflows
    or underflows to zero, which [std::from_chars] reports as out of range. *)
Definition round_double (neg : bool) (a b : Z) : option double :=
  let e := round_exponent a b in
  let '(n, d) := scaled 2 a b e in
  let m := round_half_even n d in
  let '(m, e) := if m =? 2 ^ 53 then (2 ^ 52, e + 1) else (m, e) in
  if (971 <? e) || (m =? 0) then None else Some (Finite neg m e).

(** [static_cast<Double>] of an integer. *)
Definition double_of_int (z : Z) : double :=
  if z =? 0 then Finite false 0 (-1074)
  else default NotANumber (round_double (z <? 0) (Z.abs z) 1).

(** A finite double in units of the smallest positive one. *)
Definition double_units (neg : bool) (m e : Z) : Z :=
  (if neg then - m else m) * 2 ^ (e + 1074).

(** [operator<] on doubles. *)
Definition double_ltb (x y : double) : bool :=
  match x, y with
  | NotANumber, _ | _, NotANumber => false
  | Finite n m e, Finite n' m' e' => double_units n m e <? double_units n' m' e'
  | Infinite true, Infinite true => false
  | Infinite true, _ => true
  | Infinite false, _ => false
  | Finite _ _ _, Infinite neg => negb neg
  end.

(** The exponent suffix of a decimal floating token: its value and the rest. *)
Definition read_exponent (s : bytes) : Z * bytes :=
  match s with
  | c :: s1 =>
      if (c =b? "e") || (c =b? "E") then
        let '(neg, s2) :=
          match s1 with
          | b :: s' =>
              if b =b? "-" then (true, s')
              else if b =b? "+" then (false, s') else (false, s1)
          | [] => (false, [])
          end in
        match span is_digit s2 with
        | ([], _) => (0, s)
        | (ds, rest) => (if neg then - digits_value ds else digits_value ds, rest)
        end
      else (0, s)
  | [] => (0, s)
  end.

Definition read_fraction (s : bytes) : bytes * bytes :=
  match s with
  | c :: s1 => if c =b? "." then span is_digit s1 else ([], s)
  | [] => ([], s)
  end.

(** The decimal [n * 10 ^ k] rounded to a double. *)
Definition decimal_double (neg : bool) (n k : Z) : option double :=
  if n =? 0 then Some (Finite neg 0 (-1074))
  else let '(a, b) := scaled 10 n 1 (- k) in round_double neg a b.

Definition from_chars_double (s : bytes) : option double :=
  let '(neg, s1) :=
    match s with
    | b :: s' => if b =b? "-" then (true, s') else (false, s)
    | [] => (false, s)
    end in
  let '(ints, s2) := span is_digit s1 in
  let '(frac, s3) := read_fraction s2 in
  let '(ex, s4) := read_exponent s3 in
  match ints ++ frac, s4 with
  | [], _ => None
  | ds, [] => decimal_double neg (digits_value ds) (ex - Z.of_nat (length frac))
  | _, _ => None
  end.

(** ** Printing with seventeen significant digits *)

Definition pow10_le (k a b : Z) : bool :=
  let '(n, d) := scaled 10 a b k in d <=? n.

(** [floor (log10 (a / b))], from the bit lengths and one correction step. *)
Definition ilog10 (a b : Z) : Z :=
  let k := (Z.log2 a - Z.log2 b) * 30103 / 100000 in
  if pow10_le (k + 1) a b then k + 1 else if pow10_le k a b then k else k - 1.

(** The seventeen significant digits of [a / b] and its decimal exponent. *)
Definition significant17 (a b : Z) : Z * Z :=
  let k := ilog10 a b in
  let '(n, d) := scaled 10 a b (k - 16) in
  let D := round_half_even n d in
  if D =? 10 ^ 17 then (10 ^ 16, k + 1) else (D, k).

Fixpoint drop_zeros (s : bytes) : bytes :=
  match s with
  | b :: s' => if b =b? "0" then drop_zeros s' else s
  | [] => []
  end.

Definition strip_zeros (s : bytes) : bytes := rev (drop_zeros (rev s)).

(** A fraction part with its point, nothing when every digit is zero. *)
Definition point_fraction (frac : bytes) : bytes :=
  match strip_zeros frac with [] => [] | f => "."%byte :: f end.

Definition print_exponent (x : Z) : bytes :=
  let ds := to_string_u (Z.abs x) in
  "e"%byte :: (if x <? 0 then "-"%byte else "+"%byte) ::
  (if Z.abs x <? 10 then "0"%byte :: ds else ds).

(** The [%g] layout of the seventeen digits [ds] at decimal exponent [x]. *)
Definition layout_g (ds : bytes) (x : Z) : bytes :=
  if (x <? -4) || (17 <=? x) then
    take 1 ds ++ point_fraction (drop 1 ds) ++ print_exponent x
  else if 0 <=? x then
    take (Z.to_nat (x + 1)) ds ++ point_fraction (drop (Z.to_nat (x + 1)) ds)
  else
    "0"%byte :: point_fraction (replicate (Z.to_nat (- x - 1)) "0"%byte ++ ds).

Definition print_double (d : double) : bytes :=
  match d with
  | Finite neg m e =>
      let body :=
        if m =? 0 then lit "0"
        else let '(a, b) := scaled 2 m 1 (- e) in
             let '(D, x) := significant17 a b in layout_g (to_digits 17 D) x in
      if neg then "-"%byte :: body else body
  | Infinite neg => if neg then lit "-inf" else lit "inf"
  | NotANumber => lit "nan"
  end.
