(* ===== verification/DoubleFacts.v ===== *)
(** * Seventeen significant digits determine a double

    The conversion read by the JSON parser is the inverse of the one used by the
    printer on every finite double, and only yields canonical doubles.

    The argument compares fractions after multiplying by a common factor that
    makes them integers: [2 ^ 1074] for binary exponents and [10 ^ 340] for
    decimal ones. *)

From S2P Require Import Prelude Numeral Double.

(** ** Rounding *)

Lemma round_half_even_near n d : 0 < d -> 2 * Z.abs (n - round_half_even n d * d) <= d.
Proof.
  intros Hd. unfold round_half_even.
  pose proof (Z.div_mod n d ltac:(lia)). pose proof (Z.mod_pos_bound n d Hd).
  set (q := n / d) in *. set (r := n mod d) in *.
  repeat case_match; reflect_bools; replace n with (d * q + r) at 1 by lia; nia.
Qed.

Lemma round_half_even_unique n d q :
  0 < d -> 2 * Z.abs (n - q * d) < d -> round_half_even n d = q.
Proof.
  intros Hd Hq. pose proof (round_half_even_near n d Hd) as Hr.
  set (r := round_half_even n d) in *.
  destruct (Z.lt_trichotomy r q) as [H|[H|H]]; [|done|]; exfalso; nia.
Qed.

Lemma round_half_even_ge n d q : 0 < d -> q * d <= n -> q <= round_half_even n d.
Proof. intros Hd Hq. pose proof (round_half_even_near n d Hd). nia. Qed.

Lemma round_half_even_le n d q : 0 < d -> n <= q * d -> round_half_even n d <= q.
Proof. intros Hd Hq. pose proof (round_half_even_near n d Hd). nia. Qed.

(** ** Scaled fractions *)

Lemma scaled_pos base a b k n d :
  0 < base -> 0 < a -> 0 < b -> scaled base a b k = (n, d) -> 0 < n /\ 0 < d.
Proof.
  intros Hbase Ha Hb. unfold scaled. case_match; intros; simplify_eq; reflect_bools.
  - split; [done|]. apply Z.mul_pos_pos; [done|]. apply Z.pow_pos_nonneg; lia.
  - split; [|done]. apply Z.mul_pos_pos; [done|]. apply Z.pow_pos_nonneg; lia.
Qed.

(** [n / d = (a / b) / base ^ k], after multiplying by [base ^ s * c]. *)
Lemma scaled_rel base a b k n d s c Y :
  0 < base -> 0 <= s -> 0 <= k + s -> scaled base a b k = (n, d) ->
  a * (base ^ s * c) = b * Y -> n * (base ^ (k + s) * c) = d * Y.
Proof.
  intros Hbase Hs Hks Hsc HY. revert Hsc. unfold scaled. case_match; intros; simplify_eq; reflect_bools.
  - rewrite Z.pow_add_r by lia. nia.
  - rewrite <-HY. replace s with (- k + (k + s)) at 2 by lia.
    rewrite (Z.pow_add_r base (- k)) by lia. ring.
Qed.

Lemma compare_scaled n d U Y q :
  0 < d -> 0 < U -> n * U = d * Y -> (d * q <= n <-> q * U <= Y).
Proof. intros Hd HU H. split; intros; nia. Qed.

(** [unit e] is [2 ^ e] in units of [2 ^ -1074 / c]. *)
Definition unit (c e : Z) : Z := 2 ^ (e + 1074) * c.

Lemma unit_pos c e : 0 < c -> -1074 <= e -> 0 < unit c e.
Proof. intros. unfold unit. apply Z.mul_pos_pos; [apply Z.pow_pos_nonneg; lia|done]. Qed.

Lemma unit_shift c e j : 0 <= j -> -1074 <= e -> unit c (e + j) = 2 ^ j * unit c e.
Proof.
  intros. unfold unit. replace (e + j + 1074) with (j + (e + 1074)) by lia.
  rewrite Z.pow_add_r by lia. ring.
Qed.

(** The bit lengths bracket the quotient. *)
Lemma log2_bracket a b c Y e0 :
  0 < a -> 0 < b -> 0 < c -> a * (2 ^ 1074 * c) = b * Y ->
  e0 = Z.max (-1074) (Z.log2 a - Z.log2 b - 53) ->
  Y < 2 ^ 54 * unit c e0 /\ (e0 = -1074 \/ 2 ^ 52 * unit c e0 <= Y).
Proof.
  intros Ha Hb Hc HY He0.
  destruct (Z.log2_spec a Ha) as [Hla Hua]. destruct (Z.log2_spec b Hb) as [Hlb Hub].
  pose proof (Z.log2_nonneg a). pose proof (Z.log2_nonneg b).
  unfold unit. split.
  - apply (Z.mul_lt_mono_pos_l b); [done|]. rewrite <-HY.
    replace (b * (2 ^ 54 * (2 ^ (e0 + 1074) * c))) with (b * (2 ^ (54 + (e0 + 1074)) * c))
      by (rewrite (Z.pow_add_r 2 54) by lia; ring).
    rewrite !(Z.mul_assoc _ _ c). apply Z.mul_lt_mono_pos_r; [done|].
    apply Z.lt_le_trans with (2 ^ (Z.succ (Z.log2 a) + 1074)).
    + rewrite Z.pow_add_r by lia. apply Z.mul_lt_mono_pos_r; [|done]. apply Z.pow_pos_nonneg; lia.
    + apply Z.le_trans with (2 ^ (Z.log2 b + (54 + (e0 + 1074)))).
      * apply Z.pow_le_mono_r; lia.
      * rewrite Z.pow_add_r by lia. apply Z.mul_le_mono_nonneg_r; [|done]. apply Z.pow_nonneg; lia.
  - destruct (Z.eq_dec e0 (-1074)) as [|Hne]; [by left|right].
    apply (Z.mul_le_mono_pos_l _ _ b); [done|]. rewrite <-HY.
    replace (b * (2 ^ 52 * (2 ^ (e0 + 1074) * c))) with (b * (2 ^ (52 + (e0 + 1074)) * c))
      by (rewrite (Z.pow_add_r 2 52) by lia; ring).
    rewrite !(Z.mul_assoc _ _ c). apply Z.mul_le_mono_nonneg_r; [lia|].
    apply Z.le_trans with (2 ^ (Z.succ (Z.log2 b) + (52 + (e0 + 1074)))).
    + rewrite (Z.pow_add_r 2 (Z.succ _)) by lia. apply Z.mul_le_mono_nonneg_r; [|lia]. apply Z.pow_nonneg; lia.
    + apply Z.le_trans with (2 ^ (Z.log2 a + 1074)); [apply Z.pow_le_mono_r; lia|].
      rewrite Z.pow_add_r by lia. apply Z.mul_le_mono_nonneg_r; [|done]. apply Z.pow_nonneg; lia.
Qed.

(** [round_exponent] gives the quotient 53 bits, unless it is subnormal. *)
Lemma round_exponent_spec a b c Y :
  0 < a -> 0 < b -> 0 < c -> a * (2 ^ 1074 * c) = b * Y ->
  -1074 <= round_exponent a b /\
  Y < 2 ^ 53 * unit c (round_exponent a b) /\
  (round_exponent a b = -1074 \/ 2 ^ 52 * unit c (round_exponent a b) <= Y).
Proof.
  intros Ha Hb Hc HY. unfold round_exponent.
  set (e0 := Z.max _ _). destruct (log2_bracket a b c Y e0 Ha Hb Hc HY eq_refl) as [Hhi Hlo].
  assert (-1074 <= e0) by lia. pose proof (unit_pos c e0 Hc ltac:(lia)) as HU.
  destruct (scaled 2 a b e0) as [n0 d0] eqn:Hsc.
  destruct (scaled_pos 2 a b e0 n0 d0 ltac:(lia) Ha Hb Hsc) as [_ Hd0].
  pose proof (scaled_rel 2 a b e0 n0 d0 1074 c Y ltac:(lia) ltac:(lia) ltac:(lia) Hsc HY) as Hrel.
  fold (unit c e0) in Hrel.
  pose proof (compare_scaled n0 d0 (unit c e0) Y (2 ^ 53) Hd0 HU Hrel) as Hcmp.
  destruct (d0 * 2 ^ 53 <=? n0) eqn:E; reflect_bools.
  - apply Hcmp in E. rewrite (unit_shift c e0 1) by lia. split; [lia|]. split; [lia|right; lia].
  - split; [lia|]. split; [|done]. apply Z.nle_gt. intros H'. apply Hcmp in H'. lia.
Qed.

(** There is only one such exponent. *)
Lemma exponent_unique c Y e e' :
  0 < c -> -1074 <= e -> -1074 <= e' ->
  Y < 2 ^ 53 * unit c e -> (e = -1074 \/ 2 ^ 52 * unit c e <= Y) ->
  Y < 2 ^ 53 * unit c e' -> (e' = -1074 \/ 2 ^ 52 * unit c e' <= Y) -> e = e'.
Proof.
  assert (forall e e', 0 < c -> -1074 <= e -> e < e' ->
    Y < 2 ^ 53 * unit c e -> (e' = -1074 \/ 2 ^ 52 * unit c e' <= Y) -> False) as Hlt.
  { intros x y Hc Hx Hxy H1 [->|H2]; [lia|].
    replace y with (x + (y - x)) in H2 by lia. rewrite unit_shift in H2 by lia.
    pose proof (Z.pow_le_mono_r 2 1 (y - x) ltac:(lia) ltac:(lia)).
    pose proof (unit_pos c x Hc Hx). nia. }
  intros. destruct (Z.lt_trichotomy e e') as [|[|]]; [|done|]; exfalso; eauto.
Qed.

(** ** Conversions yield canonical doubles *)

Lemma round_double_canonical neg a b d :
  0 < a -> 0 < b -> round_double neg a b = Some d -> isfinite d = true /\ canonical d = true.
Proof.
  intros Ha Hb. unfold round_double.
  destruct (round_exponent_spec a b b (a * 2 ^ 1074) Ha Hb Hb ltac:(ring)) as (He & Hhi & Hlo).
  set (e := round_exponent a b) in *.
  destruct (scaled 2 a b e) as [n dd] eqn:Hsc.
  destruct (scaled_pos 2 a b e n dd ltac:(lia) Ha Hb Hsc) as [Hn Hd].
  pose proof (scaled_rel 2 a b e n dd 1074 b (a * 2 ^ 1074)
    ltac:(lia) ltac:(lia) ltac:(lia) Hsc ltac:(ring)) as Hrel.
  fold (unit b e) in Hrel. pose proof (unit_pos b e Hb He) as HU.
  assert (round_half_even n dd <= 2 ^ 53) as Hm1
    by (apply round_half_even_le; [done|]; apply Z.lt_le_incl, Z.nle_gt; intros ?; nia).
  assert (0 <= round_half_even n dd) as Hm0 by (apply round_half_even_ge; lia).
  assert (e = -1074 \/ 2 ^ 52 <= round_half_even n dd) as Hm2.
  { destruct Hlo as [|Hlo]; [by left|right]. apply round_half_even_ge; [done|]. nia. }
  clear Hhi Hlo Hrel HU. set (m := round_half_even n dd) in *.
  destruct (m =? 2 ^ 53) eqn:E1; destruct (971 <? _) eqn:E2; cbn [orb]; try done;
    destruct (_ =? 0) eqn:E3; try done; intros; simplify_eq; reflect_bools;
    (split; [done|]); cbn [canonical]; lia.
Qed.

Lemma decimal_double_canonical neg n k d :
  0 <= n -> decimal_double neg n k = Some d -> isfinite d = true /\ canonical d = true.
Proof.
  intros Hn. unfold decimal_double. destruct (n =? 0) eqn:E; reflect_bools.
  - intros. by simplify_eq.
  - destruct (scaled 10 n 1 (- k)) as [a b] eqn:Hsc.
    destruct (scaled_pos 10 n 1 (- k) a b ltac:(lia) ltac:(lia) ltac:(lia) Hsc).
    by apply round_double_canonical.
Qed.

Lemma digits_value_nonneg s : Forall (fun b => is_digit b = true) s -> 0 <= digits_value s.
Proof.
  induction s as [|b s IH] using rev_ind; [done|].
  rewrite Forall_app, Forall_singleton, digits_value_snoc. intros [Hs Hb%is_digit_range].
  unfold digit_value. specialize (IH Hs). lia.
Qed.

Lemma from_chars_double_canonical s d :
  from_chars_double s = Some d -> isfinite d = true /\ canonical d = true.
Proof.
  unfold from_chars_double. intros H.
  destruct (match s with [] => _ | _ => _ end) as [neg s1].
  destruct (span is_digit s1) as [ints s2] eqn:Hi.
  destruct (read_fraction s2) as [frac s3] eqn:Hf. destruct (read_exponent s3) as [ex s4].
  destruct (ints ++ frac) as [|c ds] eqn:Heq; [done|]. destruct s4; [|done].
  eapply decimal_double_canonical; [|done]. rewrite <-Heq. apply digits_value_nonneg, Forall_app.
  split; [by eapply span_Forall|]. unfold read_fraction in Hf.
  repeat case_match; simplify_eq; [constructor|by eapply span_Forall|constructor].
Qed.

(** ** Rounding back to a double from a close value *)

Lemma round_double_near neg a b c Y m e :
  0 < a -> 0 < b -> 0 < c -> a * (2 ^ 1074 * c) = b * Y ->
  canonical (Finite neg m e) = true -> 0 < m ->
  2 * Z.abs (Y - m * unit c e) < unit c e ->
  (m = 2 ^ 52 -> 4 * Z.abs (Y - m * unit c e) < unit c e) ->
  round_double neg a b = Some (Finite neg m e).
Proof.
  intros Ha Hb Hc HY Hcan Hm Hnear Hnear2. cbn [canonical] in Hcan. reflect_bools.
  assert (2 ^ 52 <= m \/ e = -1074) as Hcan2 by lia.
  pose proof (unit_pos c e Hc ltac:(lia)) as HU.
  assert (m * unit c e <= (2 ^ 53 - 1) * unit c e) as Htop by (apply Z.mul_le_mono_nonneg_r; lia).
  assert (exists e', round_exponent a b = e' /\ -1074 <= e' /\
            ((e' = e) \/ (e' = e - 1 /\ m = 2 ^ 52))) as (e' & He' & Hge & Hcase).
  { destruct (round_exponent_spec a b c Y Ha Hb Hc HY) as (G1 & G2 & G3).
    eexists. split; [done|]. split; [done|].
    destruct (Z_lt_dec Y (2 ^ 52 * unit c e)) as [Hlow|Hlow]; cycle 1.
    { left. apply (exponent_unique c Y); try done; [lia|right; lia]. }
    destruct (Z.eq_dec e (-1074)) as [->|Hne].
    { left. apply (exponent_unique c Y); try done; [lia|by left]. }
    assert (m = 2 ^ 52) as ->.
    { assert (m < 2 ^ 52 + 1); [|lia]. apply (Z.mul_lt_mono_pos_r (unit c e)); [done|]. lia. }
    right. split; [|done]. specialize (Hnear2 eq_refl).
    assert (unit c e = 2 * unit c (e - 1)) as Hhalf
      by (replace e with (e - 1 + 1) at 1 by lia; rewrite unit_shift by lia; lia).
    apply (exponent_unique c Y); try done; [lia|lia|right; lia]. }
  unfold round_double. rewrite He'.
  destruct (scaled 2 a b e') as [n d] eqn:Hsc.
  destruct (scaled_pos 2 a b e' n d ltac:(lia) Ha Hb Hsc) as [Hn Hd].
  pose proof (scaled_rel 2 a b e' n d 1074 c Y ltac:(lia) ltac:(lia) ltac:(lia) Hsc HY) as Hrel.
  fold (unit c e') in Hrel. pose proof (unit_pos c e' Hc Hge) as HU'.
  assert (forall q, 2 * Z.abs (Y - q * unit c e') < unit c e' -> round_half_even n d = q) as Hround.
  { intros q Hq. apply round_half_even_unique; [done|].
    apply (Z.mul_lt_mono_pos_r (unit c e')); [done|].
    assert (Z.abs (n - q * d) * unit c e' = d * Z.abs (Y - q * unit c e')) as Habs.
    { transitivity (Z.abs ((n - q * d) * unit c e')).
      - by rewrite Z.abs_mul, (Z.abs_eq (unit c e')) by lia.
      - transitivity (Z.abs (d * (Y - q * unit c e'))); [|by rewrite Z.abs_mul, (Z.abs_eq d) by lia].
        f_equal. rewrite Z.mul_sub_distr_l, <-Hrel. ring. }
    rewrite <-Z.mul_assoc, Habs. nia. }
  destruct Hcase as [->|[-> ->]].
  - rewrite (Hround m Hnear). replace (m =? 2 ^ 53) with false by lia.
    by replace ((971 <? e) || (m =? 0)) with false by lia.
  - specialize (Hnear2 eq_refl).
    assert (unit c e = 2 * unit c (e - 1)) as Hhalf
      by (replace e with (e - 1 + 1) at 1 by lia; rewrite unit_shift by lia; lia).
    rewrite (Hround (2 ^ 53)) by lia. rewrite Z.eqb_refl.
    replace (e - 1 + 1) with e by lia.
    by replace ((971 <? e) || (2 ^ 52 =? 0)) with false by lia.
Qed.

(** ** The digits that are printed *)

(** [ten j] is [10 ^ j] in the same units as [unit (10 ^ 340)]. *)
Definition ten (j : Z) : Z := 10 ^ (j + 340) * 2 ^ 1074.

Abbreviation unit10 := (unit (10 ^ 340)).

Lemma ten_pos j : -340 <= j -> 0 < ten j.
Proof. intros. unfold ten. apply Z.mul_pos_pos; apply Z.pow_pos_nonneg; lia. Qed.

Lemma ten_succ j i : 0 <= i -> -340 <= j -> ten (j + i) = 10 ^ i * ten j.
Proof.
  intros. unfold ten. replace (j + i + 340) with (i + (j + 340)) by lia.
  rewrite Z.pow_add_r by lia. ring.
Qed.

Lemma ten_mono i j : -340 <= i -> i <= j -> ten i <= ten j.
Proof.
  intros. unfold ten. apply Z.mul_le_mono_nonneg_r; [apply Z.pow_nonneg; lia|].
  apply Z.pow_le_mono_r; lia.
Qed.

Lemma scaled_value base n k a b s :
  0 < base -> 0 <= s -> 0 <= k + s -> scaled base n 1 (- k) = (a, b) ->
  a * base ^ s = b * (n * base ^ (k + s)).
Proof.
  intros Hbase Hs Hks. unfold scaled. case_match; intros; simplify_eq; reflect_bools.
  - replace s with (- k + (k + s)) at 1 by lia. rewrite (Z.pow_add_r base (- k)) by lia. ring.
  - rewrite Z.opp_involutive, Z.pow_add_r by lia. ring.
Qed.

(** The estimate of the decimal exponent is off by at most one, for every binary
    exponent a double has. *)
Definition estimate_ok (d : Z) : bool :=
  let k := d * 30103 / 100000 in
  (-339 <=? k) && (ten (k - 1) <=? unit10 d) && (unit10 (d + 1) <=? ten (k + 2)).

(** The same test on a precomputed table of the powers of ten. *)
Fixpoint powers (base p : Z) (n : nat) : list Z :=
  match n with O => [] | S n' => p :: powers base (p * base) n' end.

Lemma powers_nth base p n j :
  (j < n)%nat -> nth j (powers base p n) 0 = p * base ^ Z.of_nat j.
Proof.
  revert p j. induction n as [|n IH]; intros p [|j] Hj; try lia; cbn [powers nth].
  - rewrite Z.pow_0_r. ring.
  - rewrite IH by lia. rewrite Nat2Z.inj_succ, Z.pow_succ_r by lia. ring.
Qed.

Definition estimate_fast (tens : list Z) (d : Z) : bool :=
  let k := d * 30103 / 100000 in
  let ten_at j := nth (Z.to_nat (j + 340)) tens 0 in
  (-339 <=? k) && (k <=? 350) &&
  (Z.shiftl (ten_at (k - 1)) 1074 <=? Z.shiftl (ten_at 0) (d + 1074)) &&
  (Z.shiftl (ten_at 0) (d + 1075) <=? Z.shiftl (ten_at (k + 2)) 1074).

Lemma estimate_fast_ok d :
  -1074 <= d -> estimate_fast (powers 10 1 700) d = true -> estimate_ok d = true.
Proof.
  intros Hd H. unfold estimate_fast in H. unfold estimate_ok.
  set (k := d * 30103 / 100000) in *. reflect_bools.
  rewrite !powers_nth, !Z.mul_1_l, !Z2Nat.id in * by lia.
  rewrite !Z.shiftl_mul_pow2 in * by lia.
  unfold ten, unit. replace (d + 1 + 1074) with (d + 1075) by lia.
  change (0 + 340) with 340 in *.
  rewrite (Z.mul_comm (2 ^ (d + 1074))), (Z.mul_comm (2 ^ (d + 1075))).
  rewrite !andb_true_iff, !Z.leb_le. done.
Qed.

Definition estimate_all (tens : list Z) : bool :=
  forallb (fun i => estimate_fast tens (Z.of_nat i - 1074)) (seq 0 2098).

Lemma estimate_all_spec tens :
  estimate_all tens = true -> forall d, -1074 <= d <= 1023 -> estimate_fast tens d = true.
Proof.
  unfold estimate_all. intros H d Hd. rewrite forallb_forall in H.
  specialize (H (Z.to_nat (d + 1074))).
  replace (Z.of_nat (Z.to_nat (d + 1074)) - 1074) with d in H by lia.
  apply H, in_seq. lia.
Qed.

Lemma estimate_all_ok : estimate_all (powers 10 1 700) = true.
Proof. vm_compute. reflexivity. Qed.

Lemma estimate_table d : -1074 <= d <= 1023 -> estimate_ok d = true.
Proof.
  intros Hd. apply estimate_fast_ok; [lia|]. by apply (estimate_all_spec _ estimate_all_ok).
Qed.

Section print.
Context (neg : bool) (m e a b : Z).
Hypothesis Hcan : canonical (Finite neg m e) = true.
Hypothesis Hm : 0 < m.
Hypothesis Hab : scaled 2 m 1 (- e) = (a, b).

Let X := m * unit10 e.

Local Lemma print_bounds : -1074 <= e <= 971 /\ m <= 2 ^ 53 - 1 /\ (2 ^ 52 <= m \/ e = -1074).
Proof. cbn [canonical] in Hcan. reflect_bools. lia. Qed.

Local Lemma print_pos : 0 < a /\ 0 < b.
Proof. apply (scaled_pos 2 m 1 (- e)); try lia. done. Qed.

Local Lemma print_fraction : a * (2 ^ 1074 * 10 ^ 340) = b * X.
Proof.
  pose proof print_bounds. pose proof (scaled_value 2 m e a b 1074 ltac:(lia) ltac:(lia) ltac:(lia) Hab).
  unfold X, unit. rewrite Z.mul_assoc, H0. ring.
Qed.

Local Lemma print_log2 : Z.log2 a - Z.log2 b = Z.log2 m + e.
Proof.
  revert Hab. unfold scaled. case_match; intros; simplify_eq; reflect_bools.
  - rewrite Z.mul_1_l, Z.log2_pow2 by lia. lia.
  - rewrite Z.opp_involutive, Z.log2_mul_pow2 by lia. change (Z.log2 1) with 0. lia.
Qed.

Local Lemma print_pow10_le j : -340 <= j -> pow10_le j a b = true <-> ten j <= X.
Proof.
  intros Hj. destruct print_pos as [Ha Hb]. unfold pow10_le.
  destruct (scaled 10 a b j) as [n d] eqn:Hsc.
  destruct (scaled_pos 10 a b j n d ltac:(lia) Ha Hb Hsc) as [Hn Hd].
  pose proof (scaled_rel 10 a b j n d 340 (2 ^ 1074) X ltac:(lia) ltac:(lia) ltac:(lia) Hsc) as Hrel.
  fold (ten j) in Hrel. rewrite (Z.mul_comm (10 ^ 340)) in Hrel. specialize (Hrel print_fraction).
  pose proof (compare_scaled n d (ten j) X 1 Hd (ten_pos j Hj) Hrel) as Hc.
  rewrite Z.mul_1_r, Z.mul_1_l in Hc. rewrite Z.leb_le. done.
Qed.

Local Lemma print_ilog10 :
  -324 <= ilog10 a b /\ ten (ilog10 a b) <= X < ten (ilog10 a b + 1).
Proof.
  destruct print_bounds as (He & Hm1 & _).
  unfold ilog10. rewrite print_log2.
  assert (0 <= Z.log2 m <= 52) as Hl.
  { split; [apply Z.log2_nonneg|]. apply Z.lt_succ_r. change (Z.succ 52) with 53.
    apply Z.log2_lt_pow2; lia. }
  pose proof (estimate_table (Z.log2 m + e) ltac:(lia)) as Htab. unfold estimate_ok in Htab.
  set (k := (Z.log2 m + e) * 30103 / 100000) in *. reflect_bools.
  destruct (Z.log2_spec m Hm) as [Hlo Hhi].
  assert (unit10 (Z.log2 m + e) <= X) as HX1.
  { rewrite Z.add_comm, unit_shift by lia. unfold X.
    apply Z.mul_le_mono_nonneg_r; [apply Z.lt_le_incl, unit_pos; lia|done]. }
  assert (X < unit10 (Z.log2 m + e + 1)) as HX2.
  { replace (Z.log2 m + e + 1) with (e + Z.succ (Z.log2 m)) by lia. rewrite unit_shift by lia.
    unfold X. apply Z.mul_lt_mono_pos_r; [apply unit_pos; lia|done]. }
  assert (forall j, X < ten (j + 1) -> -324 <= j) as Hlow.
  { intros j Hj. destruct (Z_lt_le_dec j (-324)) as [Hlt|]; [exfalso|done].
    assert (ten (-324) <= unit10 (-1074)) by (vm_compute; discriminate).
    assert (unit10 (-1074) <= X).
    { unfold X. replace e with (-1074 + (e + 1074)) by lia. rewrite unit_shift by lia.
      pose proof (Z.pow_pos_nonneg 2 (e + 1074) ltac:(lia) ltac:(lia)).
      pose proof (unit_pos (10 ^ 340) (-1074) ltac:(lia) ltac:(lia)) as Hu.
      set (u := unit10 (-1074)) in *. set (p := 2 ^ (e + 1074)) in *.
      assert (1 * u <= m * p * u) by (apply Z.mul_le_mono_nonneg_r; nia). lia. }
    destruct (Z_le_dec (-340) (j + 1)) as [Hj2|Hj2].
    - pose proof (ten_mono (j + 1) (-324) Hj2 ltac:(lia)). lia.
    - unfold ten in Hj. rewrite Z.pow_neg_r in Hj by lia.
      pose proof (ten_pos (-324) ltac:(lia)). lia. }
  destruct (pow10_le (k + 1) a b) eqn:E1; [|destruct (pow10_le k a b) eqn:E2].
  - apply print_pow10_le in E1; [|lia]. replace (k + 1 + 1) with (k + 2) by lia.
    assert (X < ten (k + 1 + 1)) by (replace (k + 1 + 1) with (k + 2) by lia; lia).
    split; [by apply Hlow|lia].
  - apply print_pow10_le in E2; [|lia].
    assert (X < ten (k + 1)).
    { apply Z.nle_gt. intros ?%print_pow10_le; [congruence|lia]. }
    split; [by apply Hlow|lia].
  - assert (X < ten (k - 1 + 1)).
    { replace (k - 1 + 1) with k by lia. apply Z.nle_gt. intros ?%print_pow10_le; [congruence|lia]. }
    split; [by apply Hlow|lia].
Qed.

(** Seventeen digits, at a distance of at most half a unit of the last one. *)
Lemma significant17_spec D x :
  significant17 a b = (D, x) ->
  10 ^ 16 <= D < 10 ^ 17 /\ -324 <= x /\
  exists W, 2 * Z.abs (X - D * ten (x - 16)) <= W /\ 10 ^ 16 * W <= X.
Proof.
  destruct print_ilog10 as (Hk & Hlo & Hhi). destruct print_pos as [Ha Hb].
  unfold significant17. set (k := ilog10 a b) in *. clearbody k.
  destruct (scaled 10 a b (k - 16)) as [n d] eqn:Hsc.
  destruct (scaled_pos 10 a b (k - 16) n d ltac:(lia) Ha Hb Hsc) as [Hn Hd].
  pose proof (scaled_rel 10 a b (k - 16) n d 340 (2 ^ 1074) X ltac:(lia) ltac:(lia) ltac:(lia) Hsc) as Hrel.
  fold (ten (k - 16)) in Hrel. rewrite (Z.mul_comm (10 ^ 340)) in Hrel. specialize (Hrel print_fraction).
  pose proof (ten_pos (k - 16) ltac:(lia)) as HT.
  replace k with (k - 16 + 16) in Hlo by lia. rewrite ten_succ in Hlo by lia.
  replace (k + 1) with (k - 16 + 17) in Hhi by lia. rewrite ten_succ in Hhi by lia.
  assert (10 ^ 16 * d <= n) as Hn1 by (rewrite Z.mul_comm; apply (compare_scaled n d (ten (k - 16)) X); done).
  assert (n <= 10 ^ 17 * d) as Hn2.
  { apply Z.lt_le_incl, Z.nle_gt. rewrite Z.mul_comm.
    intros ?%(compare_scaled n d (ten (k - 16)) X); [lia|done..]. }
  pose proof (round_half_even_ge n d _ Hd Hn1). pose proof (round_half_even_le n d _ Hd Hn2).
  pose proof (round_half_even_near n d Hd) as Hnear.
  set (R := round_half_even n d) in *. clearbody R.
  assert (2 * Z.abs (X - R * ten (k - 16)) <= ten (k - 16)) as HW.
  { apply (Z.mul_le_mono_pos_l _ _ d); [done|].
    replace (d * (2 * Z.abs (X - R * ten (k - 16)))) with (2 * Z.abs (n - R * d) * ten (k - 16)); [nia|].
    rewrite <-Z.mul_assoc, (Z.mul_comm d), <-Z.mul_assoc. f_equal.
    rewrite <-(Z.abs_eq (ten (k - 16))) at 1 by lia. rewrite <-(Z.abs_eq d) at 2 by lia.
    rewrite <-!Z.abs_mul. f_equal. rewrite Z.mul_sub_distr_r, Hrel. ring. }
  destruct (R =? 10 ^ 17) eqn:E; intros [= <- <-]; reflect_bools.
  - split; [lia|]. split; [lia|]. exists (ten (k - 16)). split; [|lia].
    replace (k + 1 - 16) with (k - 16 + 1) by lia. rewrite ten_succ by lia.
    by replace (10 ^ 16 * (10 ^ 1 * ten (k - 16))) with (R * ten (k - 16)) by (rewrite E; ring).
  - split; [lia|]. split; [lia|]. exists (ten (k - 16)). split; [done|lia].
Qed.

(** A decimal with the printed value rounds to the double it was printed from. *)
Lemma decimal_double_printed D x N E :
  significant17 a b = (D, x) -> 0 <= E + 340 ->
  N * 10 ^ (E + 340) = D * 10 ^ (x - 16 + 340) ->
  decimal_double neg N E = Some (Finite neg m e).
Proof.
  intros Hsig HE HN. destruct (significant17_spec D x Hsig) as (HD & Hx & W & HW1 & HW2).
  destruct print_bounds as (He & Hm1 & Hm2).
  pose proof (Z.pow_pos_nonneg 10 (E + 340) ltac:(lia) HE).
  pose proof (Z.pow_pos_nonneg 10 (x - 16 + 340) ltac:(lia) ltac:(lia)).
  assert (0 < N) by nia. unfold decimal_double. replace (N =? 0) with false by lia.
  destruct (scaled 10 N 1 (- E)) as [a' b'] eqn:Hsc.
  destruct (scaled_pos 10 N 1 (- E) a' b' ltac:(lia) ltac:(lia) ltac:(lia) Hsc) as [Ha' Hb'].
  pose proof (scaled_value 10 N E a' b' 340 ltac:(lia) ltac:(lia) HE Hsc) as Hval.
  pose proof (unit_pos (10 ^ 340) e ltac:(lia) ltac:(lia)) as HU.
  assert (X <= (2 ^ 53 - 1) * unit10 e) by (apply Z.mul_le_mono_nonneg_r; lia).
  apply (round_double_near neg a' b' (10 ^ 340) (D * ten (x - 16))); try done.
  - unfold ten. rewrite (Z.mul_assoc D), <-HN.
    transitivity (a' * 10 ^ 340 * 2 ^ 1074); [ring|]. rewrite Hval. ring.
  - fold X. rewrite <-Z.abs_opp. replace (- (D * ten (x - 16) - X)) with (X - D * ten (x - 16)) by ring. lia.
  - intros ->. fold X in HW1. rewrite <-Z.abs_opp.
    replace (- (D * ten (x - 16) - 2 ^ 52 * unit10 e)) with (X - D * ten (x - 16)) by (unfold X; ring).
    unfold X in *. lia.
Qed.
End print.

(** ** Decimal tokens *)

Definition digits (s : bytes) : Prop := Forall (fun b => is_digit b = true) s.

(** "0", or digits that do not start with zero. *)
Definition int_part (s : bytes) : Prop :=
  s = lit "0" \/ exists b ds, s = b :: ds /\ 49 <= uc b <= 57 /\ digits ds.

Definition frac_part (s : bytes) : Prop :=
  s = [] \/ exists ds, s = "."%byte :: ds /\ ds <> [] /\ digits ds.

Definition exp_part (s : bytes) : Prop :=
  s = [] \/ exists sgn ds, s = "e"%byte :: sgn :: ds /\ (sgn = "+"%byte \/ sgn = "-"%byte) /\
                           ds <> [] /\ digits ds.

Definition sign_text (neg : bool) : bytes := if neg then ["-"%byte] else [].
Definition point (frac : bytes) : bytes := match frac with [] => [] | f => "."%byte :: f end.
Definition exponent_text (x : option Z) : bytes :=
  match x with Some x => print_exponent x | None => [] end.

Lemma digits_to_string_u n : 0 <= n -> digits (to_string_u n).
Proof. apply to_string_u_digits. Qed.

Lemma int_part_digits i : int_part i -> digits i /\ i <> [].
Proof.
  intros [->|(b & ds & -> & Hb & Hds)]; [by repeat constructor|].
  split; [|done]. constructor; [apply is_digit_range; lia|done].
Qed.

Lemma point_part frac : digits frac -> frac_part (point frac).
Proof. destruct frac as [|b f]; [by left|]. right. by exists (b :: f). Qed.

Lemma print_exponent_body x :
  exists ds, (if Z.abs x <? 10 then "0"%byte :: to_string_u (Z.abs x) else to_string_u (Z.abs x)) = ds
    /\ ds <> [] /\ digits ds /\ digits_value ds = Z.abs x.
Proof.
  pose proof (digits_to_string_u (Z.abs x) ltac:(lia)).
  pose proof (to_string_u_nonempty (Z.abs x) ltac:(lia)).
  pose proof (to_string_u_value (Z.abs x) ltac:(lia)).
  eexists. split; [done|]. case_match; repeat split; try done. by constructor.
Qed.

Lemma exponent_part x : exp_part (exponent_text x).
Proof.
  destruct x as [x|]; [|by left]. right. cbn. unfold print_exponent.
  destruct (print_exponent_body x) as (ds & -> & Hne & Hds & _).
  exists (if x <? 0 then "-"%byte else "+"%byte), ds. split; [by case_match|].
  split; [case_match; auto|done].
Qed.

Lemma read_exponent_text x : read_exponent (exponent_text x) = (default 0 x, []).
Proof.
  destruct x as [x|]; [|done]. cbn [exponent_text default]. unfold print_exponent, read_exponent.
  eval_tests. destruct (print_exponent_body x) as (ds & -> & Hne & Hds & Hv).
  assert (span is_digit ds = (ds, [])) as Hsp.
  { rewrite <-(app_nil_r ds) at 1. by apply span_stop. }
  destruct (x <? 0) eqn:E; reflect_bools; eval_tests; rewrite Hsp;
    (destruct ds as [|b ds]; [done|]); rewrite Hv; cbn [default].
  all: unfold id; f_equal; lia.
Qed.

(** Reading a token whose parts are known. *)
Lemma from_chars_token neg i frac x :
  int_part i -> digits frac ->
  from_chars_double (sign_text neg ++ i ++ point frac ++ exponent_text x) =
  decimal_double neg (digits_value (i ++ frac)) (default 0 x - Z.of_nat (length frac)).
Proof.
  intros Hi Hf. unfold from_chars_double. destruct (int_part_digits i Hi) as [Hds Hne].
  assert (match sign_text neg ++ i ++ point frac ++ exponent_text x with
          | [] => (false, sign_text neg ++ i ++ point frac ++ exponent_text x)
          | b :: s' => if b =b? "-" then (true, s')
                       else (false, sign_text neg ++ i ++ point frac ++ exponent_text x)
          end = (neg, i ++ point frac ++ exponent_text x)) as ->.
  { destruct neg; [done|]. destruct i as [|b i]; [done|]. inversion Hds; subst.
    cbn. by rewrite digit_not_minus. }
  assert (stops is_digit (exponent_text x)) as Hstop by (by destruct x).
  rewrite span_stop; [|done|by destruct frac].
  assert (read_fraction (point frac ++ exponent_text x) = (frac, exponent_text x)) as ->.
  { destruct frac as [|b frac]; cbn [point app].
    - destruct x; [|done]. cbn. by eval_tests.
    - cbn [read_fraction]. eval_tests. by apply (span_stop is_digit (b :: frac)). }
  rewrite read_exponent_text. destruct (i ++ frac) eqn:E; [|done].
  apply app_eq_nil in E as [-> _]. done.
Qed.

(** ** The layout of the digits *)

Lemma to_digits_length f n :
  10 ^ (Z.of_nat f - 1) <= n < 10 ^ Z.of_nat f -> (1 <= f)%nat -> length (to_digits f n) = f.
Proof.
  revert n. induction f as [|f IH]; intros n Hn Hf; [lia|]. cbn [to_digits].
  rewrite Nat2Z.inj_succ, Z.pow_succ_r in Hn by lia.
  replace (Z.succ (Z.of_nat f) - 1) with (Z.of_nat f) in Hn by lia.
  destruct f as [|f].
  - change (10 ^ Z.of_nat 0) with 1 in Hn. by replace (n <? 10) with true by lia.
  - rewrite Nat2Z.inj_succ, Z.pow_succ_r in Hn by lia.
    pose proof (Z.pow_pos_nonneg 10 (Z.of_nat f) ltac:(lia) ltac:(lia)).
    replace (n <? 10) with false by lia. rewrite length_app, IH; [cbn; lia| |lia].
    rewrite Nat2Z.inj_succ, Z.pow_succ_r by lia.
    replace (Z.succ (Z.of_nat f) - 1) with (Z.of_nat f) by lia.
    split; [apply Z.div_le_lower_bound; lia|apply Z.div_lt_upper_bound; lia].
Qed.

Lemma digits_value_zeros_l n s : digits_value (replicate n "0"%byte ++ s) = digits_value s.
Proof. unfold digits_value. rewrite fold_left_app. f_equal. by induction n. Qed.

Lemma digits_value_zeros_r s n :
  digits_value (s ++ replicate n "0"%byte) = digits_value s * 10 ^ Z.of_nat n.
Proof.
  induction n as [|n IH]; [rewrite app_nil_r; change (10 ^ Z.of_nat 0) with 1; lia|].
  rewrite replicate_S_end, (assoc_L (++)), digits_value_snoc, IH.
  rewrite Nat2Z.inj_succ, Z.pow_succ_r by lia. change (digit_value "0") with 0. ring.
Qed.

Lemma drop_zeros_spec s : exists n, s = replicate n "0"%byte ++ drop_zeros s.
Proof.
  induction s as [|b s [n IH]]; [by exists 0%nat|]. cbn [drop_zeros].
  destruct (b =b? "0") eqn:E; [|by exists 0%nat]. reflect_bools. exists (S n). cbn. by f_equal.
Qed.

Lemma strip_zeros_spec s : exists n, s = strip_zeros s ++ replicate n "0"%byte.
Proof.
  destruct (drop_zeros_spec (rev s)) as [n Hn]. exists n. unfold strip_zeros.
  apply (f_equal (@rev byte)) in Hn. rewrite rev_involutive, rev_app_distr in Hn.
  rewrite Hn at 1. f_equal. rewrite rev_alt. apply (reverse_replicate n).
Qed.

(** A layout whose digits, before trailing zeros are dropped, denote [D]. *)
Lemma layout_value D x i frac ex :
  digits_value (i ++ frac) = D -> default 0 ex - Z.of_nat (length frac) = x - 16 ->
  -324 <= x ->
  let E := default 0 ex - Z.of_nat (length (strip_zeros frac)) in
  0 <= E + 340 /\
  digits_value (i ++ strip_zeros frac) * 10 ^ (E + 340) = D * 10 ^ (x - 16 + 340).
Proof.
  intros HD Hx Hx0 E. destruct (strip_zeros_spec frac) as [n Hn].
  assert (length frac = length (strip_zeros frac) + n)%nat as Hlen
    by (rewrite Hn at 1; by rewrite length_app, length_replicate).
  assert (digits_value (i ++ strip_zeros frac) * 10 ^ Z.of_nat n = D) as Hval.
  { rewrite <-HD. rewrite Hn at 2. by rewrite (assoc_L (++)), digits_value_zeros_r. }
  subst E. split; [lia|]. rewrite <-Hval.
  replace (default 0 ex - Z.of_nat (length (strip_zeros frac)) + 340)
    with (Z.of_nat n + (x - 16 + 340)) by lia.
  rewrite Z.pow_add_r by lia. ring.
Qed.

Lemma strip_zeros_digits s : digits s -> digits (strip_zeros s).
Proof.
  destruct (strip_zeros_spec s) as [n Hn]. intros H. rewrite Hn in H. by apply Forall_app in H as [? _].
Qed.

Lemma point_fraction_strip s : point_fraction s = point (strip_zeros s).
Proof. unfold point_fraction, point. by destruct (strip_zeros s). Qed.

Lemma layout_shape D x :
  10 ^ 16 <= D < 10 ^ 17 -> -324 <= x ->
  exists i frac ex,
    layout_g (to_digits 17 D) x = i ++ point frac ++ exponent_text ex /\
    int_part i /\ digits frac /\
    0 <= default 0 ex - Z.of_nat (length frac) + 340 /\
    digits_value (i ++ frac) * 10 ^ (default 0 ex - Z.of_nat (length frac) + 340)
      = D * 10 ^ (x - 16 + 340).
Proof.
  intros HD Hx. pose proof (to_digits_length 17 D ltac:(cbn; lia) ltac:(lia)) as Hlen.
  pose proof (to_digits_value 17 D ltac:(cbn; lia)) as Hval.
  pose proof (to_digits_digits 17 D ltac:(lia)) as Hds. fold (digits (to_digits 17 D)) in Hds.
  destruct (to_digits_head 17 D ltac:(cbn; lia)) as (b & ds & Hhead & Hb).
  set (s := to_digits 17 D) in *. clearbody s.
  assert (forall n, digits (take n s) /\ digits (drop n s)) as Hsplit.
  { intros n. apply Forall_app. by rewrite take_drop. }
  assert (forall n, int_part (take (S n) s)) as Hint.
  { intros n. right. rewrite Hhead. cbn. eexists _, _. split; [done|]. split; [done|].
    destruct (Hsplit (S n)) as [H _]. rewrite Hhead in H. cbn in H. by inversion H. }
  unfold layout_g. rewrite !point_fraction_strip. destruct ((x <? -4) || (17 <=? x)) eqn:Esci; [|destruct (0 <=? x) eqn:Efix]; reflect_bools.
  - exists (take 1 s), (strip_zeros (drop 1 s)), (Some x).
    split; [reflexivity|]. split; [apply Hint|]. split; [apply strip_zeros_digits, Hsplit|].
    apply layout_value; [by rewrite take_drop| |done]. cbn [default]; unfold id. rewrite length_drop, Hlen. lia.
  - exists (take (Z.to_nat (x + 1)) s), (strip_zeros (drop (Z.to_nat (x + 1)) s)), None.
    replace (Z.to_nat (x + 1)) with (S (Z.to_nat x)) by lia.
    split; [cbn [exponent_text]; by rewrite app_nil_r|]. split; [apply Hint|]. split; [apply strip_zeros_digits, Hsplit|].
    apply layout_value; [by rewrite take_drop| |done]. cbn [default]; unfold id. rewrite length_drop, Hlen. lia.
  - exists (lit "0"), (strip_zeros (replicate (Z.to_nat (- x - 1)) "0"%byte ++ s)), None.
    split; [cbn [exponent_text]; by rewrite app_nil_r|]. split; [by left|]. split.
    { apply strip_zeros_digits, Forall_app. split; [by apply Forall_replicate|done]. }
    apply layout_value; [|cbn [default]; rewrite length_app, length_replicate, Hlen; lia|done].
    change (lit "0") with (replicate 1 "0"%byte). rewrite digits_value_zeros_l.
    by rewrite digits_value_zeros_l.
Qed.

(** ** What is printed, and that it reads back *)

(** A token with integer part [i], fraction [frac] and exponent [ex] that denotes
    the finite double [neg, m, e] exactly enough to read back as it. *)
Definition denotes (neg : bool) (m e : Z) (i frac : bytes) (ex : option Z) : Prop :=
  int_part i /\ digits frac /\
  decimal_double neg (digits_value (i ++ frac)) (default 0 ex - Z.of_nat (length frac))
    = Some (Finite neg m e).

(** The printed token, and the same token with a zero fraction appended when it
    has neither fraction nor exponent. *)
Lemma print_double_shape neg m e :
  canonical (Finite neg m e) = true ->
  exists i frac ex,
    print_double (Finite neg m e) = sign_text neg ++ i ++ point frac ++ exponent_text ex /\
    denotes neg m e i frac ex /\
    (frac = [] -> ex = None -> denotes neg m e i (lit "0") None).
Proof.
  intros Hcan. cbn [print_double]. destruct (m =? 0) eqn:E; reflect_bools.
  - subst m. cbn [canonical] in Hcan. assert (e = -1074) as -> by lia.
    exists (lit "0"), [], None. split; [by destruct neg|].
    split; [|intros _ _]; (split; [by left|]); (split; [by repeat constructor|done]).
  - assert (0 < m) as Hm by (cbn [canonical] in Hcan; lia).
    destruct (scaled 2 m 1 (- e)) as [a b] eqn:Hab.
    destruct (significant17 a b) as [D x] eqn:Hsig.
    destruct (significant17_spec neg m e a b Hcan Hm Hab D x Hsig) as (HD & Hx & _).
    destruct (layout_shape D x HD Hx) as (i & frac & ex & Hlay & Hi & Hf & HE & Hval).
    exists i, frac, ex. rewrite Hlay. split; [by destruct neg|].
    pose proof (decimal_double_printed neg m e a b Hcan Hm Hab D x) as Hread.
    split; [split; [done|]; split; [done|]; by eapply Hread|].
    intros -> ->. split; [done|]. split; [by repeat constructor|].
    apply Hread; [done|cbn; lia|]. rewrite <-Hval, app_nil_r.
    change (lit "0") with (replicate 1 "0"%byte). rewrite digits_value_zeros_r.
    change (default 0 None - Z.of_nat (length (replicate 1 "0"%byte)) + 340) with 339.
    change (default 0 None - Z.of_nat (length []) + 340) with (1 + 339).
    rewrite (Z.pow_add_r 10 1 339) by lia. change (Z.of_nat 1) with 1. ring.
Qed.
