(* ===== verification/Json.v ===== *)
(** * JSON values, parser and printer ([src/http/json.cpp])

    [Json] is the storage variant of [gungnir::http::Json]: the alternatives of
    [Json::Storage] in their order.  An object is the association list of its
    [std::unordered_map] entries in iteration order, so that a statement about
    every [Json] covers every order the container may choose; [get], [operator==]
    and the well-formedness invariant do not depend on that order.

    The state of the source's [Parser] is the pair of [source_] and [cursor_];
    here it is the unread suffix [source_.substr(cursor_)], which every operation
    takes and returns.  The mutual recursion of [parse_value], [parse_object] and
    [parse_array] runs on fuel; [json_fuel] is enough for every input. *)

From S2P Require Import Prelude Numeral Double.

Unset Elimination Schemes.
Inductive Json : Type :=
| JNull
| JBool (b : bool)
| JInt (z : Z)
| JUInt (z : Z)
| JDouble (d : double)
| JString (s : bytes)
| JArray (values : list Json)
| JObject (values : list (bytes * Json)).
Set Elimination Schemes.

(** Induction with hypotheses for the elements of arrays and objects. *)
Section json_ind.
Variable P : Json -> Prop.
Hypothesis Hnull : P JNull.
Hypothesis Hbool : forall b, P (JBool b).
Hypothesis Hint : forall z, P (JInt z).
Hypothesis Huint : forall z, P (JUInt z).
Hypothesis Hdouble : forall d, P (JDouble d).
Hypothesis Hstring : forall s, P (JString s).
Hypothesis Harray : forall l, Forall P l -> P (JArray l).
Hypothesis Hobject : forall l, Forall (fun kv => P kv.2) l -> P (JObject l).

Fixpoint Json_ind (v : Json) : P v :=
  match v with
  | JNull => Hnull
  | JBool b => Hbool b
  | JInt z => Hint z
  | JUInt z => Huint z
  | JDouble d => Hdouble d
  | JString s => Hstring s
  | JArray l => Harray l
      ((fix go l : Forall P l :=
          match l with
          | [] => Forall_nil_2 _
          | v :: l' => Forall_cons_2 _ _ _ (Json_ind v) (go l')
          end) l)
  | JObject l => Hobject l
      ((fix go l : Forall (fun kv => P kv.2) l :=
          match l with
          | [] => Forall_nil_2 _
          | kv :: l' => Forall_cons_2 _ _ _ (Json_ind kv.2) (go l')
          end) l)
  end.
End json_ind.

(** ** [std::unordered_map<String, Json>] as its list of entries *)
Section entries.
Context {V : Type}.

(** [insert_or_assign]: an existing key keeps its place. *)
Fixpoint insert_or_assign (key : bytes) (v : V) (l : list (bytes * V)) : list (bytes * V) :=
  match l with
  | [] => [(key, v)]
  | (k, w) :: l' =>
      if bool_decide (k = key) then (k, v) :: l' else (k, w) :: insert_or_assign key v l'
  end.

Fixpoint find_entry (key : bytes) (l : list (bytes * V)) : option V :=
  match l with
  | [] => None
  | (k, w) :: l' => if bool_decide (k = key) then Some w else find_entry key l'
  end.
End entries.

(** ** Observers *)

Definition is_null (v : Json) : bool := match v with JNull => true | _ => false end.
Definition is_boolean (v : Json) : bool := match v with JBool _ => true | _ => false end.
Definition is_integer (v : Json) : bool :=
  match v with JInt _ | JUInt _ => true | _ => false end.
Definition is_number (v : Json) : bool :=
  is_integer v || match v with JDouble _ => true | _ => false end.
Definition is_string (v : Json) : bool := match v with JString _ => true | _ => false end.
Definition is_array (v : Json) : bool := match v with JArray _ => true | _ => false end.
Definition is_object (v : Json) : bool := match v with JObject _ => true | _ => false end.

Definition as_array (v : Json) : result (list Json) :=
  match v with
  | JArray l => Ok l
  | _ => Throw (logic_error "JSON value is not an array")
  end.

Definition as_object (v : Json) : result (list (bytes * Json)) :=
  match v with
  | JObject l => Ok l
  | _ => Throw (logic_error "JSON value is not an object")
  end.

(** [Json::get]; a null pointer is [None]. *)
Definition get (v : Json) (key : bytes) : option Json :=
  match v with JObject l => find_entry key l | _ => None end.

(** [Json::find]. *)
Definition find (v : Json) (key : bytes) : option Json :=
  match get v key with Some w => Some w | None => None end.

(** [Json::Json(Double)]. *)
Definition json_double (d : double) : result Json :=
  if isfinite d then Ok (JDouble d)
  else Throw (invalid_argument "JSON numbers must be finite").

(** [Json::operator==].  [std::unordered_map]'s equality compares the sizes and
    then looks every entry of the left map up in the right one. *)
Fixpoint json_eqb (x y : Json) {struct x} : bool :=
  match x, y with
  | JNull, JNull => true
  | JBool a, JBool b => bool_decide (a = b)
  | JInt a, JInt b => a =? b
  | JUInt a, JUInt b => a =? b
  | JDouble a, JDouble b => double_eqb a b
  | JString a, JString b => bool_decide (a = b)
  | JArray l, JArray r =>
      (fix go l r :=
         match l, r with
         | [], [] => true
         | v :: l', w :: r' => json_eqb v w && go l' r'
         | _, _ => false
         end) l r
  | JObject l, JObject r =>
      (length l =? length r)%nat &&
      (fix go l :=
         match l with
         | [] => true
         | (k, v) :: l' =>
             match find_entry k r with
             | Some w => json_eqb v w && go l'
             | None => false
             end
         end) l
  | _, _ => false
  end.

(** ** Printing *)

Definition hex_digit_lower (d : Z) : byte :=
  if d <? 10 then chr (48 + d) else chr (97 + (d - 10)).

(** ["\\u" << hex << setw(4) << setfill('0') << c]. *)
Definition unicode_escape (c : Z) : bytes :=
  [x5c; "u"; hex_digit_lower (c / 4096 mod 16); hex_digit_lower (c / 256 mod 16);
   hex_digit_lower (c / 16 mod 16); hex_digit_lower (c mod 16)]%byte.

Definition escape_char (character : byte) : bytes :=
  if character =b? x22 then [x5c; x22]
  else if character =b? x5c then [x5c; x5c]
  else if character =b? x08 then [x5c; "b"%byte]
  else if character =b? x0c then [x5c; "f"%byte]
  else if character =b? x0a then [x5c; "n"%byte]
  else if character =b? x0d then [x5c; "r"%byte]
  else if character =b? x09 then [x5c; "t"%byte]
  else if uc character <? 32 then unicode_escape (uc character)
  else [character].

Definition escape_string (value : bytes) : bytes := value ≫= escape_char.

(** [std::setprecision(max_digits10) << d], and [".0"] when it reads as an integer. *)
Definition has_float_mark (s : bytes) : bool :=
  existsb (fun b => (b =b? ".") || (b =b? "e") || (b =b? "E")) s.

Definition dump_double (d : double) : bytes :=
  let number := print_double d in
  if has_float_mark number then number else number ++ lit ".0".

Definition comma_join (items : list bytes) : bytes :=
  match items with
  | [] => []
  | i :: rest => i ++ (rest ≫= fun j => ","%byte :: j)
  end.

Definition quoted (s : bytes) : bytes := x22 :: escape_string s ++ [x22].

(** [dump_json]. *)
Fixpoint dump (v : Json) : bytes :=
  match v with
  | JNull => lit "null"
  | JString s => quoted s
  | JDouble d => dump_double d
  | JBool b => if b then lit "true" else lit "false"
  | JInt z | JUInt z => to_string z
  | JArray l => "["%byte :: comma_join (map dump l) ++ ["]"%byte]
  | JObject l =>
      "{"%byte ::
      comma_join (map (fun kv => quoted kv.1 ++ ":"%byte :: dump kv.2) l) ++ ["}"%byte]
  end.

(** [Json::string]. *)
Definition json_string (v : Json) : bytes :=
  match v with
  | JNull => []
  | JBool b => if b then lit "true" else lit "false"
  | JInt z | JUInt z => to_string z
  | JDouble d => print_double d
  | JString s => s
  | JArray _ | JObject _ => dump v
  end.

(** ** Parsing *)

Definition is_space (b : byte) : bool :=
  (b =b? " ") || (b =b? x0a) || (b =b? x0d) || (b =b? x09).

Fixpoint skip_space (s : bytes) : bytes :=
  match s with
  | b :: s' => if is_space b then skip_space s' else s
  | [] => []
  end.

(** [Parser::consume]; [substr] stops at the end of the source. *)
Definition consume (text s : bytes) : option bytes :=
  if bool_decide (take (length text) s = text) then Some (drop (length text) s) else None.

Definition hex_value (digit : byte) : option Z :=
  if between "0" "9" digit then Some (uc digit - 48)
  else if between "a" "f" digit then Some (uc digit - 97 + 10)
  else if between "A" "F" digit then Some (uc digit - 65 + 10)
  else None.

(** The loop over the four digits of a unicode escape, on a [uint32_t]. *)
Fixpoint read_hex (digits : bytes) (codepoint : Z) : option Z :=
  match digits with
  | [] => Some codepoint
  | d :: ds =>
      match hex_value d with
      | Some v => read_hex ds (Z.lor (u32 (Z.shiftl codepoint 4)) v)
      | None => None
      end
  end.

Definition append_utf8 (codepoint : Z) : bytes :=
  let continuation shift := chr (Z.lor 128 (Z.land (Z.shiftr codepoint shift) 63)) in
  if codepoint <=? 127 then [chr codepoint]
  else if codepoint <=? 2047 then
    [chr (Z.lor 192 (Z.shiftr codepoint 6)); continuation 0]
  else if codepoint <=? 65535 then
    [chr (Z.lor 224 (Z.shiftr codepoint 12)); continuation 6; continuation 0]
  else
    [chr (Z.lor 240 (Z.shiftr codepoint 18)); continuation 12; continuation 6; continuation 0].

(** The one-character escapes. *)
Definition simple_escape (escaped : byte) : option byte :=
  if escaped =b? x22 then Some x22
  else if escaped =b? x5c then Some x5c
  else if escaped =b? "/" then Some "/"%byte
  else if escaped =b? "b" then Some x08
  else if escaped =b? "f" then Some x0c
  else if escaped =b? "n" then Some x0a
  else if escaped =b? "r" then Some x0d
  else if escaped =b? "t" then Some x09
  else None.

(** The loop of [parse_string], after the opening quote. *)
Fixpoint parse_string_loop (output s : bytes) {struct s} : result (bytes * bytes) :=
  match s with
  | [] => Throw (invalid_argument "Unterminated JSON string")
  | current :: s1 =>
      if current =b? x22 then Ok (output, s1)
      else if negb (current =b? x5c) then
        if uc current <? 32
        then Throw (invalid_argument "Invalid control character in JSON string")
        else parse_string_loop (output ++ [current]) s1
      else
        match s1 with
        | [] => Throw (invalid_argument "Incomplete JSON escape")
        | escaped :: s2 =>
            match simple_escape escaped with
            | Some c => parse_string_loop (output ++ [c]) s2
            | None =>
                if escaped =b? "u" then
                  match s2 with
                  | d1 :: d2 :: d3 :: d4 :: s3 =>
                      match read_hex [d1; d2; d3; d4] 0 with
                      | Some codepoint => parse_string_loop (output ++ append_utf8 codepoint) s3
                      | None => Throw (invalid_argument "Invalid JSON unicode escape")
                      end
                  | _ => Throw (invalid_argument "Incomplete JSON unicode escape")
                  end
                else Throw (invalid_argument "Invalid JSON escape")
            end
        end
  end.

Definition parse_string (s : bytes) : result (bytes * bytes) :=
  match s with
  | c :: s1 =>
      if c =b? x22 then parse_string_loop [] s1
      else Throw (invalid_argument "JSON string must begin with a quote")
  | [] => Throw (invalid_argument "JSON string must begin with a quote")
  end.

(** The integer part of a number, after its sign. *)
Definition scan_integer (s : bytes) : result bytes :=
  match s with
  | [] => Throw (invalid_argument "Invalid JSON number")
  | c :: s1 =>
      if c =b? "0" then Ok s1
      else if negb (between "1" "9" c) then Throw (invalid_argument "Invalid JSON number")
      else Ok (span is_digit s).2
  end.

(** The optional fraction: whether there is one, and the rest. *)
Definition scan_fraction (s : bytes) : result (bool * bytes) :=
  match s with
  | c :: s1 =>
      if c =b? "." then
        match span is_digit s1 with
        | ([], _) => Throw (invalid_argument "Invalid JSON fraction")
        | (_, rest) => Ok (true, rest)
        end
      else Ok (false, s)
  | [] => Ok (false, s)
  end.

Definition skip_sign (s : bytes) : bytes :=
  match s with
  | b :: s' => if (b =b? "+") || (b =b? "-") then s' else s
  | [] => []
  end.

Definition scan_exponent (s : bytes) : result (bool * bytes) :=
  match s with
  | c :: s1 =>
      if (c =b? "e") || (c =b? "E") then
        match span is_digit (skip_sign s1) with
        | ([], _) => Throw (invalid_argument "Invalid JSON exponent")
        | (_, rest) => Ok (true, rest)
        end
      else Ok (false, s)
  | [] => Ok (false, s)
  end.

(** The conversion of a scanned number token. *)
Definition number_value (floating : bool) (token : bytes) : result Json :=
  let as_double :=
    match from_chars_double token with
    | Some number => json_double number
    | None => Throw (invalid_argument "JSON number is out of range")
    end in
  if floating then as_double
  else
    match from_chars_int64 token with
    | Some integer => Ok (JInt integer)
    | None =>
        match token with
        | c :: _ =>
            if negb (c =b? "-") then
              match from_chars_uint64 token with
              | Some unsigned_integer => Ok (JUInt unsigned_integer)
              | None => as_double
              end
            else as_double
        | [] => as_double
        end
    end.

Definition parse_number (s : bytes) : result (Json * bytes) :=
  let s1 := match s with c :: s' => if c =b? "-" then s' else s | [] => s end in
  s2 ← scan_integer s1;
  '(frac, s3) ← scan_fraction s2;
  '(exp, s4) ← scan_exponent s3;
  let token := take (length s - length s4) s in
  v ← number_value (frac || exp) token;
  Ok (v, s4).

Fixpoint parse_value (fuel : nat) (s : bytes) {struct fuel} : result (Json * bytes) :=
  match fuel with
  | O => NoFuel
  | S f =>
      match skip_space s with
      | [] => Throw (invalid_argument "Unexpected end of JSON")
      | current :: s1 =>
          let s := current :: s1 in
          if current =b? x22 then '(str, r) ← parse_string s; Ok (JString str, r)
          else if current =b? "{" then
            match skip_space s1 with
            | c :: r => if c =b? "}" then Ok (JObject [], r) else object_loop f [] (c :: r)
            | [] => object_loop f [] []
            end
          else if current =b? "[" then
            match skip_space s1 with
            | c :: r => if c =b? "]" then Ok (JArray [], r) else array_loop f [] (c :: r)
            | [] => array_loop f [] []
            end
          else
            match consume (lit "true") s with
            | Some r => Ok (JBool true, r)
            | None =>
            match consume (lit "false") s with
            | Some r => Ok (JBool false, r)
            | None =>
            match consume (lit "null") s with
            | Some r => Ok (JNull, r)
            | None =>
                if (current =b? "-") || between "0" "9" current then parse_number s
                else Throw (invalid_argument "Invalid JSON value")
            end end end
      end
  end

(** The [while (true)] of [parse_object]. *)
with object_loop (fuel : nat) (object : list (bytes * Json)) (s : bytes) {struct fuel}
    : result (Json * bytes) :=
  match fuel with
  | O => NoFuel
  | S f =>
      match skip_space s with
      | [] => Throw (invalid_argument "JSON object key must be a string")
      | q :: s1 =>
          if negb (q =b? x22) then Throw (invalid_argument "JSON object key must be a string")
          else
            '(key, r1) ← parse_string (q :: s1);
            match skip_space r1 with
            | [] => Throw (invalid_argument "JSON object is missing ':'")
            | c :: r2 =>
                if negb (c =b? ":") then Throw (invalid_argument "JSON object is missing ':'")
                else
                  '(value, r3) ← parse_value f r2;
                  let object := insert_or_assign key value object in
                  match skip_space r3 with
                  | [] => Throw (invalid_argument "Unterminated JSON object")
                  | d :: r4 =>
                      if d =b? "}" then Ok (JObject object, r4)
                      else if negb (d =b? ",")
                      then Throw (invalid_argument "JSON object is missing ','")
                      else object_loop f object r4
                  end
            end
      end
  end

(** The [while (true)] of [parse_array]. *)
with array_loop (fuel : nat) (array : list Json) (s : bytes) {struct fuel}
    : result (Json * bytes) :=
  match fuel with
  | O => NoFuel
  | S f =>
      '(value, r1) ← parse_value f s;
      let array := array ++ [value] in
      match skip_space r1 with
      | [] => Throw (invalid_argument "Unterminated JSON array")
      | d :: r2 =>
          if d =b? "]" then Ok (JArray array, r2)
          else if negb (d =b? ",") then Throw (invalid_argument "JSON array is missing ','")
          else array_loop f array r2
      end
  end.

(** Two units per byte: one for a value, one for the loop around it. *)
Definition json_fuel (s : bytes) : nat := 2 * length s + 2.

(** [Json::parse]. *)
Definition parse (source : bytes) : result Json :=
  let s := skip_space source in
  '(value, rest) ← parse_value (json_fuel s) s;
  match skip_space rest with
  | [] => Ok value
  | _ => Throw (invalid_argument "Unexpected data after JSON value")
  end.
