(* ===== verification/JsonFacts.v ===== *)
(** * The JSON component: correctness of the parser and the printer *)

From S2P Require Import Prelude Numeral Double DoubleFacts Json.

(** ** Strings *)

Lemma parse_escape_char c output tl :
  parse_string_loop output (escape_char c ++ tl) = parse_string_loop (output ++ [c]) tl.
Proof. destruct c; reflexivity. Qed.

Lemma parse_escape_string s output tl :
  parse_string_loop output (escape_string s ++ x22 :: tl) = Ok (output ++ s, tl).
Proof.
  revert output. induction s as [|c s IH]; intros output.
  - by rewrite app_nil_r.
  - cbn. rewrite <-(assoc_L (++)), parse_escape_char. fold (escape_string s).
    rewrite IH. by rewrite <-(assoc_L (++)).
Qed.

(** Reading back a quoted string gives the string, whatever its bytes. *)
Lemma parse_string_quoted s tl : parse_string (quoted s ++ tl) = Ok (s, tl).
Proof.
  unfold quoted. cbn [parse_string app]. rewrite byte_eqb_refl.
  rewrite <-(assoc_L (++)). apply (parse_escape_string s []).
Qed.

(** ** Numbers: the tokens the grammar admits *)

(** A number token; [floating] says whether it has a fraction or an exponent. *)
Inductive number_token : bool -> bytes -> Prop :=
| number_token_intro neg i f e :
    int_part i -> frac_part f -> exp_part e ->
    number_token (negb (bool_decide (f = [])) || negb (bool_decide (e = [])))
      (sign_text neg ++ i ++ f ++ e).

(** What may follow a number so that scanning stops there. *)
Definition continues_number (b : byte) : bool :=
  is_digit b || (b =b? ".") || (b =b? "e") || (b =b? "E").

Abbreviation number_stop := (stops continues_number).

Lemma number_stop_digit rest : number_stop rest -> stops is_digit rest.
Proof. destruct rest; [done|]. cbn. unfold continues_number. intros. by reflect_bools. Qed.

Lemma scan_exponent_part e rest :
  exp_part e -> number_stop rest ->
  scan_exponent (e ++ rest) = Ok (negb (bool_decide (e = [])), rest).
Proof.
  intros [->|(sgn & ds & -> & Hsgn & Hne & Hds)] Hrest.
  - destruct rest as [|b rest]; [done|]. cbn in *. unfold continues_number in Hrest.
    apply orb_false_elim in Hrest as [[[_ _]%orb_false_elim ->]%orb_false_elim ->]. done.
  - cbn -[skip_sign]. assert (skip_sign (sgn :: ds ++ rest) = ds ++ rest) as -> by (by destruct Hsgn as [-> | ->]).
    rewrite span_stop by (done || by apply number_stop_digit). by destruct ds.
Qed.

Lemma exp_part_head e rest : exp_part e -> number_stop rest ->
  stops (fun b => is_digit b || (b =b? ".")) (e ++ rest).
Proof.
  intros [->|(sgn & ds & -> & _)] Hrest; [|done]. destruct rest as [|b rest]; [done|].
  cbn in *. by apply orb_false_elim in Hrest as [[? _]%orb_false_elim _].
Qed.

Lemma scan_fraction_part f e rest :
  frac_part f -> exp_part e -> number_stop rest ->
  scan_fraction (f ++ e ++ rest) = Ok (negb (bool_decide (f = [])), e ++ rest).
Proof.
  intros [->|(ds & -> & Hne & Hds)] He Hrest; pose proof (exp_part_head e rest He Hrest) as Hst.
  - cbn. destruct (e ++ rest) as [|b r]; [done|]. cbn in *. by apply orb_false_elim in Hst as [_ ->].
  - cbn. rewrite span_stop; [by destruct ds|done|].
    destruct (e ++ rest) as [|b r]; [done|]. cbn in *. by apply orb_false_elim in Hst as [-> _].
Qed.

Lemma frac_part_head f e rest :
  frac_part f -> exp_part e -> number_stop rest -> stops is_digit (f ++ e ++ rest).
Proof.
  intros [->|(ds & -> & _)] He Hrest; [|done].
  pose proof (exp_part_head e rest He Hrest) as Hst. cbn.
  destruct (e ++ rest) as [|b r]; [done|]. cbn in *. by apply orb_false_elim in Hst as [-> _].
Qed.

Lemma scan_integer_part i rest :
  int_part i -> stops is_digit rest -> scan_integer (i ++ rest) = Ok rest.
Proof.
  intros [->|(b & ds & -> & Hb & Hds)] Hrest; [done|]. cbn.
  assert (is_digit b = true) as Hd by (apply is_digit_range; lia).
  destruct (b =b? "0") eqn:E0; [by reflect_bools; change (uc "0") with 48 in Hb; lia|].
  assert (between "1" "9" b = true) as ->.
  { unfold between. change (uc "1") with 49. change (uc "9") with 57. lia. }
  cbn [negb]. rewrite Hd, span_stop by done. done.
Qed.

Lemma int_part_head i : int_part i -> exists b s, i = b :: s /\ is_digit b = true.
Proof.
  intros [->|(b & ds & -> & Hb & _)]; [by eexists _, _|].
  exists b, ds. split; [done|]. apply is_digit_range. lia.
Qed.

(** Scanning consumes exactly the token. *)
Lemma parse_number_token floating s rest :
  number_token floating s -> number_stop rest ->
  parse_number (s ++ rest) = (v ← number_value floating s; Ok (v, rest)).
Proof.
  intros [neg i f e Hi Hf He] Hrest. unfold parse_number.
  set (tok := sign_text neg ++ i ++ f ++ e).
  assert (match tok ++ rest with c :: s' => if c =b? "-" then s' else tok ++ rest | [] => tok ++ rest end
          = i ++ f ++ e ++ rest) as ->.
  { subst tok. destruct neg; cbn; rewrite <-!(assoc_L (++)); [done|].
    destruct (int_part_head i Hi) as (b & i' & -> & Hb). cbn. by rewrite digit_not_minus. }
  rewrite scan_integer_part by (done || by apply frac_part_head). cbn -[take].
  rewrite scan_fraction_part by done. cbn -[take].
  rewrite scan_exponent_part by done. cbn -[take].
  rewrite length_app, Nat.add_sub, take_app_length. done.
Qed.

(** A finite double prints as a floating token that reads back as it. *)
Lemma has_float_mark_app s t : has_float_mark (s ++ t) = has_float_mark s || has_float_mark t.
Proof. apply existsb_app. Qed.

Lemma digits_no_mark s : digits s -> has_float_mark s = false.
Proof.
  unfold has_float_mark. induction 1 as [|b s Hb _ IH]; [done|]. cbn [existsb]. rewrite IH, orb_false_r.
  apply is_digit_range in Hb.
  assert (forall c, uc c < 48 \/ 57 < uc c -> (b =b? c) = false) as Hne
    by (intros c Hc; apply byte_eqb_false; intros ->; lia).
  rewrite !Hne; [done|..]; [right|right|left]; reflexivity.
Qed.

Lemma dump_double_token d :
  isfinite d = true -> canonical d = true ->
  number_token true (dump_double d) /\ from_chars_double (dump_double d) = Some d.
Proof.
  destruct d as [neg m e| |]; try done. intros _ Hcan.
  destruct (print_double_shape neg m e Hcan) as (i & frac & ex & Heq & Hden & Hzero).
  assert (exists frac' ex', dump_double (Finite neg m e) = sign_text neg ++ i ++ point frac' ++ exponent_text ex'
            /\ denotes neg m e i frac' ex' /\ ~ (frac' = [] /\ ex' = None)) as (frac' & ex' & -> & Hden' & Hfl).
  { unfold dump_double. rewrite Heq, !has_float_mark_app.
    pose proof Hden as (Hi & Hf & _). rewrite (digits_no_mark i) by (by apply int_part_digits).
    assert (has_float_mark (sign_text neg) = false) as -> by (by destruct neg).
    destruct frac as [|c frac]; [destruct ex as [x|]|].
    - exists [], (Some x). split; [by cbn; rewrite ?orb_true_r|]. split; [done|]. by intros [_ ?].
    - exists (lit "0"), None. cbn [point app exponent_text has_float_mark existsb orb].
      rewrite !app_nil_r, <-(assoc_L (++)). split; [done|]. split; [by apply Hzero|]. by intros [? _].
    - exists (c :: frac), ex. split; [by cbn; rewrite ?orb_true_r|].
      split; [apply Hden|]. by intros [? _]. }
  destruct Hden' as (Hi & Hf & Hread). split; [|by rewrite from_chars_token].
  replace true with (negb (bool_decide (point frac' = [])) || negb (bool_decide (exponent_text ex' = []))).
  { constructor; [done|by apply point_part|apply exponent_part]. }
  destruct frac' as [|c frac']; [|done]. destruct ex'; [done|]. by destruct Hfl.
Qed.

(** ** Well-formed values

    The ranges of the storage alternatives, finite doubles, and objects whose
    entries have distinct keys. *)
Fixpoint wf (v : Json) : Prop :=
  match v with
  | JNull | JBool _ | JString _ => True
  | JInt z => INT64_MIN <= z <= INT64_MAX
  | JUInt z => 0 <= z <= UINT64_MAX
  | JDouble d => isfinite d = true /\ canonical d = true
  | JArray l => foldr (fun w acc => wf w /\ acc) True l
  | JObject l => NoDup l.*1 /\ foldr (fun kv acc => wf kv.2 /\ acc) True l
  end.

Lemma foldr_and_Forall {A} (P : A -> Prop) l :
  foldr (fun x acc => P x /\ acc) True l <-> Forall P l.
Proof. induction l as [|x l IH]; cbn; [done|]. by rewrite Forall_cons, IH. Qed.

Lemma wf_array l : wf (JArray l) <-> Forall wf l.
Proof. apply foldr_and_Forall. Qed.

Lemma wf_object l : wf (JObject l) <-> NoDup l.*1 /\ Forall (fun kv => wf kv.2) l.
Proof. cbn. by rewrite (foldr_and_Forall (fun kv : bytes * Json => wf kv.2)). Qed.

(** What a printed value reads back as: an unsigned integer that fits [Int64]
    comes back in the signed alternative. *)
Fixpoint normalize (v : Json) : Json :=
  match v with
  | JUInt z => if z <=? INT64_MAX then JInt z else JUInt z
  | JArray l => JArray (map normalize l)
  | JObject l => JObject (map (fun kv => (kv.1, normalize kv.2)) l)
  | _ => v
  end.

Lemma insert_or_assign_fresh {V} k (v : V) l :
  k ∉ l.*1 -> insert_or_assign k v l = l ++ [(k, v)].
Proof.
  induction l as [|[k' w] l IH]; cbn; intros Hk; [done|].
  apply not_elem_of_cons in Hk as [Hne Hk].
  rewrite bool_decide_eq_false_2 by done. by rewrite IH.
Qed.

Lemma skip_space_start s : stops is_space s -> skip_space s = s.
Proof. destruct s; [done|]. cbn. by intros ->. Qed.

(** ** One step of [parse_value] on each kind of printed value *)

Lemma consume_other c text b s : c <> b -> consume (c :: text) (b :: s) = None.
Proof. intros. unfold consume. cbn. rewrite bool_decide_eq_false_2; congruence. Qed.

Definition number_start (b : byte) : bool := (b =b? "-") || is_digit b.

Lemma number_start_other b :
  implb (number_start b)
    (negb (is_space b || (b =b? x22) || (b =b? "{") || (b =b? "[") || (b =b? "t") ||
           (b =b? "f") || (b =b? "n") || (b =b? "]") || (b =b? "}"))) = true.
Proof. by_bytes. Qed.

Lemma number_start_neq b : number_start b = true ->
  is_space b = false /\ (b =b? x22) = false /\ (b =b? "{") = false /\ (b =b? "[") = false /\
  "t"%byte <> b /\ "f"%byte <> b /\ "n"%byte <> b /\ (b =b? "]") = false /\ (b =b? "}") = false.
Proof.
  intros Hb. pose proof (number_start_other b) as H. rewrite Hb in H. cbn in H.
  rewrite negb_true_iff, !orb_false_iff in H. destruct_and! H.
  rewrite !(byte_eqb_false b) in *. repeat split_and; try done; try by apply byte_eqb_false.
  all: by intros <-.
Qed.

Lemma parse_value_number f b s :
  number_start b = true -> parse_value (S f) (b :: s) = parse_number (b :: s).
Proof.
  intros Hb. destruct (number_start_neq b Hb) as (Hs & Hq & Ho & Ha & Ht & Hf & Hn & _).
  cbn [parse_value]. rewrite skip_space_start, Hq, Ho, Ha by done.
  unfold lit. cbn [String.list_byte_of_string String.list_ascii_of_string map Ascii.byte_of_ascii].
  rewrite !consume_other by done. unfold number_start in Hb. unfold is_digit in Hb. by rewrite Hb.
Qed.

(** [reads v f]: with [f] or more units of fuel, [parse_value] reads the printed
    form of [v] back, whatever follows it. *)
Definition reads (v : Json) (f : nat) : Prop :=
  forall f' rest, (f <= f')%nat -> number_stop rest ->
    parse_value f' (dump v ++ rest) = Ok (normalize v, rest).

Lemma reads_mono v f g : (f <= g)%nat -> reads v f -> reads v g.
Proof. intros Hfg H f' rest Hf. apply H. lia. Qed.

Lemma reads_all {A} (p : A -> Json) (l : list A) :
  Forall (fun x => exists f, reads (p x) f) l -> exists f, Forall (fun x => reads (p x) f) l.
Proof.
  induction 1 as [|x l [f Hf] _ [g Hg]]; [by exists 0%nat|].
  exists (f `max` g)%nat. constructor; [by eapply reads_mono; [|done]; lia|].
  eapply Forall_impl; [done|]. intros y. apply reads_mono. lia.
Qed.

Lemma token_start floating s :
  number_token floating s -> exists b r, s = b :: r /\ number_start b = true.
Proof.
  intros [neg i f e Hi _ _]. destruct neg; [by eexists _, _|].
  destruct (int_part_head i Hi) as (b & i' & -> & Hb).
  exists b, (i' ++ f ++ e). split; [done|]. unfold number_start. by rewrite Hb, orb_true_r.
Qed.

(** A number reads back as the value of its token. *)
Lemma reads_number v floating :
  number_token floating (dump v) -> number_value floating (dump v) = Ok (normalize v) ->
  reads v 1.
Proof.
  intros Htok Hval f' rest Hf Hrest. destruct f' as [|f']; [lia|].
  destruct (token_start _ _ Htok) as (b & r & Heq & Hb).
  rewrite Heq at 1. cbn [app]. rewrite parse_value_number by done.
  change (b :: r ++ rest) with ((b :: r) ++ rest). rewrite <-Heq.
  rewrite (parse_number_token floating) by done. by rewrite Hval.
Qed.

Lemma to_string_token z : number_token false (to_string z).
Proof.
  assert (forall n, 0 <= n -> int_part (to_string_u n)) as Hint.
  { intros n Hn. destruct (Z.eq_dec n 0) as [->|]; [by left|]. right.
    destruct (to_string_u_head n) as (b & s & Heq & Hb); [lia|].
    pose proof (to_string_u_digits n Hn) as Hds. rewrite Heq in Hds.
    inversion Hds; subst. by exists b, s. }
  unfold to_string. destruct (z <? 0) eqn:E; reflect_bools.
  - pose proof (number_token_intro true (to_string_u (- z)) [] []) as H. cbn in H.
    rewrite !app_nil_r in H. apply H; [apply Hint; lia|by left..].
  - pose proof (number_token_intro false (to_string_u z) [] []) as H. cbn in H.
    rewrite !app_nil_r in H. apply H; [apply Hint; lia|by left..].
Qed.

Lemma reads_int z : INT64_MIN <= z <= INT64_MAX -> reads (JInt z) 1.
Proof.
  intros Hz. apply (reads_number _ false); [apply to_string_token|].
  unfold number_value. cbn [dump]. unfold from_chars_int64.
  by rewrite from_chars_all_to_string by (done || left; done).
Qed.

Lemma from_chars_too_big lo hi z :
  hi < z -> 0 <= z -> lo < 0 -> from_chars_all lo hi (to_string z) = None.
Proof.
  intros Hz Hz0 Hlo. destruct (from_chars_all lo hi (to_string z)) as [v|] eqn:E; [|done].
  pose proof (from_chars_all_range _ _ _ _ E) as Hv.
  assert (from_chars_all lo z (to_string z) = Some z) as E'
    by (apply from_chars_all_to_string; lia).
  exfalso. revert E E'. unfold from_chars_all, from_chars.
  destruct (match to_string z with [] => _ | _ => _ end) as [neg s1].
  destruct (span is_digit s1) as [[|d ds] r]; [done|].
  repeat case_match; intros; simplify_eq; lia.
Qed.

Lemma reads_uint z : 0 <= z <= UINT64_MAX -> reads (JUInt z) 1.
Proof.
  intros Hz. apply (reads_number _ false); [apply to_string_token|].
  unfold number_value. cbn [dump normalize]. unfold from_chars_int64.
  destruct (z <=? INT64_MAX) eqn:E; reflect_bools.
  - rewrite from_chars_all_to_string; [done|unfold INT64_MIN; lia|by left].
  - rewrite from_chars_too_big by (done || lia).
    unfold INT64_MAX in E. destruct (to_string_u_head z) as (b & s & Heq & Hb); [lia|].
    assert (to_string z = b :: s) as Heq'.
    { unfold to_string. by replace (z <? 0) with false by lia. }
    rewrite Heq', digit_not_minus by (apply is_digit_range; lia). cbn [negb].
    rewrite <-Heq'. unfold from_chars_uint64.
    by rewrite from_chars_all_to_string by (lia || right; lia).
Qed.

Lemma reads_double d : isfinite d = true -> canonical d = true -> reads (JDouble d) 1.
Proof.
  intros Hfin Hcan. destruct (dump_double_token d Hfin Hcan) as [Htok Hread]. apply (reads_number _ true); [done|].
  unfold number_value. cbn [dump normalize]. rewrite Hread. unfold json_double. by rewrite Hfin.
Qed.

(** ** Arrays and objects *)

Lemma comma_join_cons2 i j l :
  comma_join (i :: j :: l) = i ++ ","%byte :: comma_join (j :: l).
Proof. done. Qed.

Lemma dump_start v :
  wf v -> exists b s, dump v = b :: s /\ is_space b = false /\ (b =b? "]") = false.
Proof.
  assert (forall fl s, number_token fl s ->
            exists b r, s = b :: r /\ is_space b = false /\ (b =b? "]") = false) as Htok.
  { intros fl s (b & r & -> & Hb)%token_start. exists b, r.
    destruct (number_start_neq b Hb) as (? & _ & _ & _ & _ & _ & _ & ? & _). done. }
  destruct v as [|[]|z|z|d|s|l|l]; intros Hwf; try by eexists _, _.
  - apply (Htok false), to_string_token.
  - apply (Htok false), to_string_token.
  - destruct Hwf as [Hfin Hcan]. by apply (Htok true), dump_double_token.
Qed.

(** Evaluate the parser's tests on known characters. *)
Ltac eval_json :=
  repeat match goal with
  | |- context [is_space ?b] => eval_bool (is_space b)
  end; cbn [skip_space]; cbv iota; eval_tests.

Lemma array_loop_reads F v l acc rest f :
  Forall (fun w => reads w F) (v :: l) -> (F + length l < f)%nat ->
  array_loop f acc (comma_join (map dump (v :: l)) ++ "]"%byte :: rest)
  = Ok (JArray (acc ++ map normalize (v :: l)), rest).
Proof.
  revert v acc f. induction l as [|w l IH]; intros v acc f Hall Hf;
    (destruct f as [|f]; [cbn in Hf; lia|]); inversion Hall as [|? ? Hv Hl]; subst.
  - cbn [map comma_join]. cbn. rewrite app_nil_r.
    rewrite Hv by (done || lia). done.
  - cbn [map]. rewrite comma_join_cons2, <-(assoc_L (++)). cbn [array_loop app].
    rewrite Hv by (done || cbn in Hf; lia). cbn -[comma_join map]. eval_json.
    change (dump w :: map dump l) with (map dump (w :: l)).
    rewrite IH by (done || cbn in Hf; lia).
    by rewrite <-(assoc_L (++)).
Qed.

Lemma reads_array l :
  Forall wf l -> Forall (fun v => exists f, reads v f) l -> exists f, reads (JArray l) f.
Proof.
  intros Hwf [F HF]%(reads_all id). exists (F + length l + 2)%nat.
  intros f rest Hf _. destruct f as [|f]; [lia|].
  cbn [dump normalize app]. rewrite <-(assoc_L (++)). cbn -[comma_join map]. eval_json.
  destruct l as [|v l]; [done|]. inversion Hwf as [|? ? Hv _]; subst.
  destruct (dump_start v Hv) as (b & s & Heq & Hsp & Hb).
  assert (exists s', comma_join (map dump (v :: l)) ++ "]"%byte :: rest = b :: s') as [s' Hs'].
  { cbn [map comma_join]. rewrite Heq. by eexists. }
  rewrite Hs', skip_space_start, Hb by done. rewrite <-Hs'.
  rewrite (array_loop_reads F) by (done || cbn in Hf; lia). done.
Qed.

Definition dump_entry (kv : bytes * Json) : bytes := quoted kv.1 ++ ":"%byte :: dump kv.2.

(** The loop head: a quoted key and a colon lead to the value. *)
Lemma object_loop_entry f acc k r :
  object_loop (S f) acc (quoted k ++ ":"%byte :: r) =
  '(value, r3) ← parse_value f r;
  match skip_space r3 with
  | [] => Throw (invalid_argument "Unterminated JSON object")
  | d :: r4 =>
      if d =b? "}" then Ok (JObject (insert_or_assign k value acc), r4)
      else if negb (d =b? ",") then Throw (invalid_argument "JSON object is missing ','")
      else object_loop f (insert_or_assign k value acc) r4
  end.
Proof.
  cbn [object_loop]. rewrite skip_space_start by done.
  replace (quoted k ++ ":"%byte :: r) with (x22 :: (escape_string k ++ [x22]) ++ ":"%byte :: r) by done.
  cbv iota beta. eval_json.
  replace (x22 :: (escape_string k ++ [x22]) ++ ":"%byte :: r) with (quoted k ++ ":"%byte :: r) by done.
  rewrite parse_string_quoted. cbn [mbind result_bind skip_space]. by eval_json.
Qed.

Lemma object_loop_reads F kv l acc rest f :
  Forall (fun w => reads w.2 F) (kv :: l) -> (F + length l < f)%nat ->
  NoDup (acc.*1 ++ (kv :: l).*1) ->
  object_loop f acc (comma_join (map dump_entry (kv :: l)) ++ "}"%byte :: rest)
  = Ok (JObject (acc ++ map (fun kv => (kv.1, normalize kv.2)) (kv :: l)), rest).
Proof.
  revert kv acc f. induction l as [|kw l IH]; intros [k v] acc f Hall Hf Hnd;
    (destruct f as [|f]; [cbn in Hf; lia|]); inversion Hall as [|? ? Hv Hl]; subst.
  all: assert (k ∉ acc.*1) as Hk
    by (apply NoDup_app in Hnd as (_ & Hdisj & _); intros Hin; apply (Hdisj k Hin); left).
  - cbn [map comma_join mbind list_bind app]. rewrite app_nil_r. unfold dump_entry. cbn [fst snd].
    rewrite <-(assoc_L (++)). cbn [app]. rewrite object_loop_entry.
    rewrite Hv by (done || lia). cbn. by rewrite insert_or_assign_fresh.
  - cbn [map]. rewrite comma_join_cons2, <-(assoc_L (++)). unfold dump_entry at 1. cbn [fst snd].
    rewrite <-(assoc_L (++)). cbn [app]. rewrite object_loop_entry.
    rewrite Hv by (done || cbn in Hf; lia). cbn -[comma_join map dump_entry]. eval_json.
    rewrite insert_or_assign_fresh by done.
    change (dump_entry kw :: map dump_entry l) with (map dump_entry (kw :: l)).
    rewrite IH; [by rewrite <-(assoc_L (++))|done|cbn in Hf; lia|].
    rewrite fmap_app, <-(assoc_L (++)). exact Hnd.
Qed.

Lemma reads_object l :
  NoDup l.*1 -> Forall (fun kv => exists f, reads kv.2 f) l -> exists f, reads (JObject l) f.
Proof.
  intros Hnd [F HF]%(reads_all snd). exists (F + length l + 2)%nat.
  intros f rest Hf _. destruct f as [|f]; [lia|].
  cbn [dump normalize app]. rewrite <-(assoc_L (++)). cbn -[comma_join map]. eval_json.
  destruct l as [|kv l]; [done|].
  change (comma_join _ ++ _) with (comma_join (map dump_entry (kv :: l)) ++ "}"%byte :: rest).
  assert (exists s', comma_join (map dump_entry (kv :: l)) ++ "}"%byte :: rest = x22 :: s') as [s' Hs'].
  { cbn [map comma_join]. by eexists. }
  rewrite Hs', skip_space_start by done. eval_json. rewrite <-Hs'.
  rewrite (object_loop_reads F) by (done || cbn in Hf; lia). done.
Qed.

Lemma wf_reads v : wf v -> exists f, reads v f.
Proof.
  induction v as [|[]|z|z|d|s|l IH|l IH] using Json_ind; intros Hwf.
  all: try (exists 1%nat; intros [|f] rest Hf Hrest; [lia|]; reflexivity).
  - exists 1%nat. by apply reads_int.
  - exists 1%nat. by apply reads_uint.
  - exists 1%nat. destruct Hwf. by apply reads_double.
  - exists 1%nat. intros [|f] rest Hf Hrest; [lia|]. cbn [dump normalize parse_value].
    rewrite skip_space_start by done.
    replace (quoted s ++ rest) with (x22 :: (escape_string s ++ [x22]) ++ rest) by done.
    cbv iota beta. eval_json.
    replace (x22 :: (escape_string s ++ [x22]) ++ rest) with (quoted s ++ rest) by done.
    by rewrite parse_string_quoted.
  - apply wf_array in Hwf as Hl. apply reads_array; [done|].
    rewrite Forall_forall in *. eauto.
  - apply wf_object in Hwf as [Hnd Hl]. apply reads_object; [done|].
    rewrite Forall_forall in *. eauto.
Qed.

(** ** Fuel *)

Lemma parse_fuel_mono f f' :
  (f <= f')%nat ->
  (forall s, approx (parse_value f s) (parse_value f' s)) /\
  (forall o s, approx (object_loop f o s) (object_loop f' o s)) /\
  (forall a s, approx (array_loop f a s) (array_loop f' a s)).
Proof.
  revert f'. induction f as [|f IH]; intros [|f'] Hf; try (repeat split; intros; by (left + lia)).
  destruct (IH f') as (IHv & IHo & IHa); [lia|]. clear IH. repeat split; intros.
  - cbn [parse_value]. repeat case_match; auto.
  - cbn [object_loop]. repeat case_match; auto.
    apply approx_bind; [done|]. intros [key r1]. repeat case_match; auto.
    apply approx_bind; [done|]. intros [v r3]. repeat case_match; auto.
  - cbn [array_loop]. apply approx_bind; [done|]. intros [v r1]. repeat case_match; auto.
Qed.

(** Every operation of the parser consumes input. *)
Lemma skip_space_length s : (length (skip_space s) <= length s)%nat.
Proof. induction s as [|b s IH]; cbn; [done|]. case_match; cbn; lia. Qed.

Lemma parse_string_loop_length s output str r :
  parse_string_loop output s = Ok (str, r) -> (length r < length s)%nat.
Proof.
  remember (length s) as n eqn:Hn. revert s output Hn.
  induction (lt_wf n) as [n _ IH]. intros s output ->.
  destruct s as [|c s]; [done|]. cbn [parse_string_loop length]. intros H.
  repeat case_match; simplify_eq; cbn in *; try lia.
  all: match goal with H : parse_string_loop _ ?t = _ |- _ =>
         apply (IH (length t)) in H; [lia|cbn; lia|done] end.
Qed.

Lemma parse_string_length s str r :
  parse_string s = Ok (str, r) -> (length r < length s)%nat.
Proof.
  destruct s as [|c s]; [done|]. cbn. intros H. case_match; [|done].
  apply parse_string_loop_length in H. lia.
Qed.

Lemma scan_integer_length s r : scan_integer s = Ok r -> (length r < length s)%nat.
Proof.
  destruct s as [|c s]; [done|]. cbn [scan_integer]. intros H.
  repeat case_match; simplify_eq; cbn; [lia|].
  assert (is_digit c = true) as ->.
  { apply negb_false_iff in H1. unfold between in H1. apply is_digit_range.
    change (uc "1") with 49 in H1. change (uc "9") with 57 in H1. lia. }
  destruct (span is_digit s) as [l r] eqn:E. apply span_length in E. cbn. lia.
Qed.

Lemma scan_fraction_length s b r : scan_fraction s = Ok (b, r) -> (length r <= length s)%nat.
Proof.
  destruct s as [|c s]; cbn; intros H; [by simplify_eq|].
  repeat case_match; simplify_eq; cbn; [|lia].
  match goal with E : span _ _ = _ |- _ => apply span_length in E end. lia.
Qed.

Lemma scan_exponent_length s b r : scan_exponent s = Ok (b, r) -> (length r <= length s)%nat.
Proof.
  destruct s as [|c s]; cbn -[skip_sign]; intros H; [by simplify_eq|].
  assert (length (skip_sign s) <= length s)%nat
    by (unfold skip_sign; repeat case_match; cbn; lia).
  repeat case_match; simplify_eq; cbn; [|lia].
  match goal with E : span _ _ = _ |- _ => apply span_length in E end. lia.
Qed.

Lemma parse_number_length s v r : parse_number s = Ok (v, r) -> (length r < length s)%nat.
Proof.
  unfold parse_number.
  set (s1 := match s with c :: s' => _ | [] => s end).
  assert (length s1 <= length s)%nat by (subst s1; destruct s; [done|case_match; cbn; lia]).
  rewrite bind_Ok. intros (s2 & H2%scan_integer_length & H').
  apply bind_Ok in H' as ([fr s3] & H3%scan_fraction_length & H').
  apply bind_Ok in H' as ([ex s4] & H4%scan_exponent_length & H').
  apply bind_Ok in H' as (w & _ & [=]). subst. lia.
Qed.

Lemma consume_length text s r : consume text s = Some r -> (length r <= length s)%nat.
Proof. unfold consume. case_bool_decide; intros; simplify_eq. rewrite length_drop. lia. Qed.

(** ** The values the parser returns *)

(** Parsed values: the ranges of the alternatives, an unsigned integer only where
    the signed one does not fit, canonical finite doubles, distinct keys. *)
Fixpoint parsed (v : Json) : Prop :=
  match v with
  | JNull | JBool _ | JString _ => True
  | JInt z => INT64_MIN <= z <= INT64_MAX
  | JUInt z => INT64_MAX < z <= UINT64_MAX
  | JDouble d => isfinite d = true /\ canonical d = true
  | JArray l => foldr (fun w acc => parsed w /\ acc) True l
  | JObject l => NoDup l.*1 /\ foldr (fun kv acc => parsed kv.2 /\ acc) True l
  end.

Lemma parsed_array l : parsed (JArray l) <-> Forall parsed l.
Proof. apply foldr_and_Forall. Qed.

Lemma parsed_object l :
  parsed (JObject l) <-> NoDup l.*1 /\ Forall (fun kv => parsed kv.2) l.
Proof. cbn. by rewrite (foldr_and_Forall (fun kv : bytes * Json => parsed kv.2)). Qed.

Lemma elem_of_insert_or_assign {V} k (v : V) l x :
  x ∈ insert_or_assign k v l -> x = (k, v) \/ x ∈ l.
Proof.
  induction l as [|[k' w] l IH]; cbn; [rewrite list_elem_of_singleton; auto|].
  case_bool_decide; subst; rewrite !elem_of_cons; intros [->|Hx]; auto.
  destruct (IH Hx); auto.
Qed.

Lemma insert_or_assign_keys {V} k (v : V) l :
  (insert_or_assign k v l).*1 = if decide (k ∈ l.*1) then l.*1 else l.*1 ++ [k].
Proof.
  induction l as [|[k' w] l IH]; cbn; [done|]. case_bool_decide as Hk; subst; cbn.
  - rewrite decide_True by (by left). done.
  - rewrite IH. destruct (decide (k ∈ l.*1)).
    + rewrite decide_True by (by right). done.
    + rewrite decide_False; [done|]. by rewrite not_elem_of_cons.
Qed.

Lemma parsed_insert k v l :
  parsed v -> parsed (JObject l) -> parsed (JObject (insert_or_assign k v l)).
Proof.
  rewrite !parsed_object. intros Hv [Hnd Hl]. split.
  - rewrite insert_or_assign_keys. case_decide; [done|].
    apply NoDup_app. repeat split; [done| |apply NoDup_singleton].
    intros x Hx ->%list_elem_of_singleton. done.
  - rewrite Forall_forall in *. intros x [->|Hx]%elem_of_insert_or_assign; auto.
Qed.


(** ** What the parser returns is well formed and shorter *)

Lemma json_double_parsed d v : canonical d = true -> json_double d = Ok v -> parsed v.
Proof. unfold json_double. intros. case_match; simplify_eq. done. Qed.

Lemma number_value_parsed floating token v : number_value floating token = Ok v -> parsed v.
Proof.
  unfold number_value.
  assert (match from_chars_double token with
          | Some number => json_double number
          | None => Throw (invalid_argument "JSON number is out of range")
          end = Ok v -> parsed v) as Hd.
  { destruct (from_chars_double token) as [d|] eqn:E; [|done].
    apply from_chars_double_canonical in E as [_ Hcan]. by apply json_double_parsed. }
  destruct floating; [done|]. destruct (from_chars_int64 token) as [z|] eqn:Ei.
  { intros. simplify_eq. by apply from_chars_all_range in Ei. }
  destruct token as [|c token]; [done|]. destruct (negb (c =b? "-")) eqn:Ec; [|done].
  destruct (from_chars_uint64 (c :: token)) as [z|] eqn:Eu; [|done]. intros. simplify_eq. cbn.
  apply from_chars_all_range in Eu as Hr. split; [|apply Hr]. apply Z.nle_gt. intros Hle.
  clear Hd. revert Ei Eu. unfold from_chars_int64, from_chars_uint64, from_chars_all, from_chars.
  change (0 <? 0) with false. change (INT64_MIN <? 0) with true. reflect_bools.
  assert ((c =b? "-") = false) as -> by (by apply byte_eqb_false). cbn [andb].
  destruct (span is_digit (c :: token)) as [[|d ds] [|]]; try done;
    repeat case_match; intros; simplify_eq; try done.
  unfold INT64_MIN in *. lia.
Qed.

Lemma parse_number_parsed s v r : parse_number s = Ok (v, r) -> parsed v.
Proof.
  unfold parse_number. intros (s2 & _ & H)%bind_Ok.
  apply bind_Ok in H as ([fr s3] & _ & H). apply bind_Ok in H as ([ex s4] & _ & H).
  apply bind_Ok in H as (w & Hw & [=]). subst. by eapply number_value_parsed.
Qed.

(** The post-condition of a parsing step that started at [s]. *)
Definition step_ok (s : bytes) (out : result (Json * bytes)) : Prop :=
  forall v r, out = Ok (v, r) -> (length r < length s)%nat /\ parsed v.

Lemma step_ok_throw s e : step_ok s (Throw e).
Proof. done. Qed.

Lemma step_ok_ok s v r : (length r < length s)%nat -> parsed v -> step_ok s (Ok (v, r)).
Proof. intros Hl Hv v' r' [= <- <-]. done. Qed.

Lemma step_ok_longer s t out : (length t <= length s)%nat -> step_ok t out -> step_ok s out.
Proof. intros Hl H v r [? ?]%H. split; [lia|done]. Qed.

Create HintDb json discriminated.
#[export] Hint Resolve step_ok_throw step_ok_ok : json.

Lemma scalar_step_ok s :
  step_ok s (parse_number s) /\ step_ok s ('(str, r) ← parse_string s; Ok (JString str, r)).
Proof.
  split; intros v r H.
  - split; [by eapply parse_number_length|by eapply parse_number_parsed].
  - apply bind_Ok in H as ([str r'] & H%parse_string_length & [=]). by subst.
Qed.

Lemma parsed_empty : parsed (JObject []) /\ parsed (JArray []).
Proof. repeat split; constructor. Qed.

Lemma parse_step_ok f :
  (forall s, step_ok s (parse_value f s)) /\
  (forall o s, parsed (JObject o) -> step_ok s (object_loop f o s)) /\
  (forall a s, parsed (JArray a) -> step_ok s (array_loop f a s)).
Proof.
  destruct parsed_empty as [Hobj Harr].
  induction f as [|f (IHv & IHo & IHa)]; [done|]. split; [|split].
  - intros s. cbn [parse_value]. pose proof (skip_space_length s) as Hs.
    destruct (skip_space s) as [|c s1]; [done|].
    eapply step_ok_longer; [exact Hs|]. destruct (scalar_step_ok (c :: s1)) as [Hnum Hstr].
    pose proof (skip_space_length s1) as Hs1.
    repeat case_match; try done; try (apply step_ok_ok; [cbn in *; lia|done]).
    all: try (by eapply step_ok_longer; [|by apply IHo + apply IHa]; cbn in *; lia).
    all: match goal with E : consume _ _ = Some _ |- _ => unfold consume in E end;
      case_bool_decide; simplify_eq; apply step_ok_ok; [cbn in *; rewrite ?length_drop; cbn; lia|done].
  - intros o s Ho. cbn [object_loop]. pose proof (skip_space_length s) as Hs.
    destruct (skip_space s) as [|q s1]; [done|]. case_match; [done|].
    eapply step_ok_longer; [exact Hs|]. intros v r ([key r1] & Hk%parse_string_length & H')%bind_Ok.
    pose proof (skip_space_length r1). destruct (skip_space r1) as [|c r2]; [done|].
    case_match; [done|]. apply bind_Ok in H' as ([value r3] & [? Hv]%IHv & H').
    pose proof (skip_space_length r3). destruct (skip_space r3) as [|d r4]; [done|].
    assert (parsed (JObject (insert_or_assign key value o))) by (by apply parsed_insert).
    cbn [length] in *. destruct (d =b? "}"); [injection H' as <- <-; split; [lia|done]|].
    destruct (negb (d =b? ",")); [done|]. apply IHo in H' as [? ?]; [|done]. split; [lia|done].
  - intros a s Ha v r ([value r1] & [? Hv]%IHv & H')%bind_Ok. 
    pose proof (skip_space_length r1). destruct (skip_space r1) as [|d r2]; [done|].
    assert (parsed (JArray (a ++ [value]))).
    { apply parsed_array, Forall_app. rewrite parsed_array in Ha. by repeat constructor. }
    cbn [length] in *. destruct (d =b? "]"); [injection H' as <- <-; split; [lia|done]|].
    destruct (negb (d =b? ",")); [done|]. apply IHa in H' as [? ?]; [|done]. split; [lia|done].
Qed.

(** ** Termination and errors: [json_fuel] is enough, and the only exception is
    [std::invalid_argument] *)

Lemma parse_string_loop_raises s output : only_invalid (parse_string_loop output s).
Proof.
  remember (length s) as n eqn:Hn. revert s output Hn.
  induction (lt_wf n) as [n _ IH]. intros s output ->.
  destruct s as [|c s]; [done|]. cbn [parse_string_loop].
  repeat case_match; try done; by eapply IH; [|done]; subst; cbn; lia.
Qed.

Lemma parse_string_raises s : only_invalid (parse_string s).
Proof. destruct s; [done|]. cbn. case_match; [apply parse_string_loop_raises|done]. Qed.

Lemma number_value_raises floating token : only_invalid (number_value floating token).
Proof. unfold number_value, json_double. by repeat case_match. Qed.

Lemma parse_number_raises s : only_invalid (parse_number s).
Proof.
  unfold parse_number. apply raises_only_bind; [unfold scan_integer; by repeat case_match|].
  intros s2 _. apply raises_only_bind; [unfold scan_fraction; by repeat case_match|].
  intros [fr s3] _. apply raises_only_bind; [unfold scan_exponent; by repeat case_match|].
  intros [ex s4] _. apply raises_only_bind; [apply number_value_raises|done].
Qed.

Lemma parse_fuel_enough f :
  (forall s, (2 * length s + 1 <= f)%nat -> only_invalid (parse_value f s)) /\
  (forall o s, (2 * length s + 2 <= f)%nat -> only_invalid (object_loop f o s)) /\
  (forall a s, (2 * length s + 2 <= f)%nat -> only_invalid (array_loop f a s)).
Proof.
  induction f as [|f (IHv & IHo & IHa)]; [split_and!; intros; lia|]. split; [|split].
  - intros s Hf. cbn [parse_value]. pose proof (skip_space_length s) as Hs.
    destruct (skip_space s) as [|c s1]; [done|]. pose proof (skip_space_length s1) as Hs1.
    cbn [length] in Hs. destruct (c =b? x22).
    { apply raises_only_bind; [apply parse_string_raises|by intros []]. }
    repeat case_match; try done; try apply parse_number_raises.
    all: (apply IHo || apply IHa); cbn [length] in *; lia.
  - intros o s Hf. cbn [object_loop]. pose proof (skip_space_length s) as Hs.
    destruct (skip_space s) as [|q s1]; [done|]. case_match; [done|].
    apply raises_only_bind; [apply parse_string_raises|]. intros [key r1] Hk%parse_string_length.
    pose proof (skip_space_length r1). destruct (skip_space r1) as [|c r2]; [done|].
    case_match; [done|]. cbn [length] in *.
    apply raises_only_bind; [apply IHv; lia|]. intros [value r3] Hv.
    apply parse_step_ok in Hv as [Hv _].
    pose proof (skip_space_length r3). destruct (skip_space r3) as [|d r4]; [done|].
    repeat case_match; try done. apply IHo. cbn [length] in *. lia.
  - intros a s Hf. cbn [array_loop]. apply raises_only_bind; [apply IHv; lia|].
    intros [value r1] [Hv _]%parse_step_ok.
    pose proof (skip_space_length r1). destruct (skip_space r1) as [|d r2]; [done|].
    repeat case_match; try done. apply IHa. cbn [length] in *. lia.
Qed.

Lemma parse_value_json_fuel s : only_invalid (parse_value (json_fuel s) s).
Proof. apply parse_fuel_enough. unfold json_fuel. lia. Qed.

(** The fuel of [parse] is not observable: any larger fuel gives the same result. *)
Lemma parse_value_enough s f v r :
  parse_value f s = Ok (v, r) -> parse_value (json_fuel s) s = Ok (v, r).
Proof.
  intros Hf. set (g := (f `max` json_fuel s)%nat).
  destruct (parse_fuel_mono f g) as (Hm & _); [lia|].
  destruct (parse_fuel_mono (json_fuel s) g) as (Hm' & _); [lia|].
  rewrite (approx_terminates _ _ (Hm' s) (raises_only_terminates _ _ (parse_value_json_fuel s))).
  by apply (approx_Ok _ _ _ (Hm s)).
Qed.

Lemma skip_space_dump v rest : wf v -> skip_space (dump v ++ rest) = dump v ++ rest.
Proof. intros (b & s & -> & Hb & _)%dump_start. by apply skip_space_start. Qed.

Lemma parsed_wf v : parsed v -> wf v.
Proof.
  induction v as [|b|z|z|d|s|l IH|l IH] using Json_ind; try done.
  - cbn. unfold INT64_MAX. lia.
  - rewrite parsed_array, wf_array. rewrite !Forall_forall in *. eauto.
  - rewrite parsed_object, wf_object. rewrite !Forall_forall in *. intros [? ?]. split; eauto.
Qed.

Lemma parsed_normal v : parsed v -> normalize v = v.
Proof.
  induction v as [|b|z|z|d|s|l IH|l IH] using Json_ind; try done.
  - cbn. intros ?. by replace (z <=? INT64_MAX) with false by lia.
  - rewrite parsed_array. intros Hl. cbn [normalize]. f_equal.
    rewrite Forall_forall in *. rewrite <-(map_id l) at 2. apply map_ext_in.
    intros w Hw%list_elem_of_In. auto.
  - rewrite parsed_object. intros [_ Hl]. cbn [normalize]. f_equal.
    rewrite Forall_forall in *. rewrite <-(map_id l) at 2. apply map_ext_in.
    intros [k w] Hw%list_elem_of_In. cbn. f_equal. apply (IH (k, w)); [done|]. by apply (Hl (k, w)).
Qed.

Lemma parse_dump v : wf v -> parse (dump v) = Ok (normalize v).
Proof.
  intros Hwf. destruct (wf_reads v Hwf) as [f Hf]. unfold parse.
  pose proof (skip_space_dump v [] Hwf) as Hs. rewrite !app_nil_r in Hs. rewrite Hs.
  specialize (Hf f [] ltac:(done) I). rewrite app_nil_r in Hf.
  by rewrite (parse_value_enough _ _ _ _ Hf).
Qed.

Lemma parse_parsed s v : parse s = Ok v -> parsed v.
Proof.
  unfold parse. intros ([w r] & Hw & H)%bind_Ok. apply parse_step_ok in Hw as [_ Hw].
  destruct (skip_space r); [|done]. by injection H as <-.
Qed.

Lemma parse_raises s : only_invalid (parse s).
Proof.
  unfold parse. apply raises_only_bind; [apply parse_value_json_fuel|].
  intros [v r] _. by case_match.
Qed.

(** ** Printed text has no control characters *)

Definition printable (b : byte) : bool := 32 <=? uc b.

Lemma Forall_byte (P : byte -> bool) s :
  forallb P s = true <-> Forall (fun b => P b = true) s.
Proof. rewrite forallb_forall, Forall_forall. by setoid_rewrite list_elem_of_In. Qed.

Lemma escape_char_printable c : forallb printable (escape_char c) = true.
Proof. by_bytes. Qed.

Lemma forallb_bind {A} (P : byte -> bool) (f : A -> bytes) l :
  (forall x, x ∈ l -> forallb P (f x) = true) -> forallb P (l ≫= f) = true.
Proof.
  induction l as [|x l IH]; intros H; [done|]. cbn. rewrite forallb_app.
  rewrite (H x) by left. apply IH. intros y Hy. apply H. by right.
Qed.

Lemma quoted_printable s : forallb printable (quoted s) = true.
Proof.
  unfold quoted. cbn. rewrite forallb_app, andb_true_r. 
  apply forallb_bind. intros c _. apply escape_char_printable.
Qed.

Lemma comma_join_printable l :
  (forall i, i ∈ l -> forallb printable i = true) -> forallb printable (comma_join l) = true.
Proof.
  destruct l as [|i l]; intros H; [done|]. cbn. rewrite forallb_app, (H i) by left. cbn.
  apply forallb_bind. intros j Hj. cbn. apply H. by right.
Qed.

Lemma digits_printable s : digits s -> forallb printable s = true.
Proof.
  intros H. apply Forall_byte. eapply Forall_impl; [done|]. cbn. unfold printable.
  intros b Hb%is_digit_range. lia.
Qed.

Lemma token_printable floating s : number_token floating s -> forallb printable s = true.
Proof.
  intros [neg i f e Hi Hf He]. rewrite !forallb_app.
  assert (forallb printable (sign_text neg) = true) as -> by (by destruct neg).
  rewrite (digits_printable i) by (by apply int_part_digits).
  assert (forallb printable f = true) as ->.
  { destruct Hf as [->|(ds & -> & _ & Hds)]; [done|]. by cbn; rewrite digits_printable. }
  destruct He as [->|(sgn & ds & -> & Hsgn & _ & Hds)]; [done|]. cbn.
  rewrite digits_printable, andb_true_r by done. by destruct Hsgn as [-> | ->].
Qed.

Lemma dump_printable v : wf v -> forallb printable (dump v) = true.
Proof.
  induction v as [|[]|z|z|d|s|l IH|l IH] using Json_ind; intros Hwf; try done.
  - apply (token_printable false), to_string_token.
  - apply (token_printable false), to_string_token.
  - destruct Hwf. by apply (token_printable true), dump_double_token.
  - apply quoted_printable.
  - apply wf_array in Hwf. rewrite Forall_forall in *. cbn [dump]. cbn.
    rewrite forallb_app, andb_true_r. apply comma_join_printable.
    intros i (w & -> & Hw)%list_elem_of_fmap. auto.
  - apply wf_object in Hwf as [_ Hwf]. rewrite Forall_forall in *. cbn [dump]. cbn -[quoted].
    rewrite forallb_app, andb_true_r. apply comma_join_printable.
    intros i ([k w] & -> & Hw)%list_elem_of_fmap. cbn [fst snd].
    rewrite forallb_app, quoted_printable. cbn. apply (IH (k, w) Hw). by apply (Hwf (k, w)).
Qed.

(** ** Properties *)

(** No unsigned integer of the value fits [Int64]. *)
Fixpoint wide (v : Json) : bool :=
  match v with
  | JUInt z => INT64_MAX <? z
  | JArray l => forallb wide l
  | JObject l => forallb (fun kv => wide kv.2) l
  | _ => true
  end.

Lemma map_fixed {A} (f : A -> A) l : map f l = l <-> Forall (fun x => f x = x) l.
Proof.
  induction l as [|x l IH]; cbn [map]; [by split|]. rewrite Forall_cons, <-IH. split; [by intros [= ? ?]|].
  intros [-> ->]. done.
Qed.

Lemma normalize_wide v : normalize v = v <-> wide v = true.
Proof.
  induction v as [|b|z|z|d|s|l IH|l IH] using Json_ind; try done; cbn [normalize wide].
  - destruct (Z.leb_spec z INT64_MAX), (Z.ltb_spec INT64_MAX z); (done || lia).
  - transitivity (map normalize l = l); [split; congruence|]. rewrite map_fixed, forallb_forall, Forall_forall.
    rewrite Forall_forall in IH. setoid_rewrite <-list_elem_of_In. split; intros H x Hx; by apply IH; auto.
  - transitivity (map (fun kv => (kv.1, normalize kv.2)) l = l); [split; congruence|].
    rewrite map_fixed, forallb_forall, Forall_forall. rewrite Forall_forall in IH. setoid_rewrite <-list_elem_of_In.
    split; intros H [k x] Hx; specialize (IH _ Hx); specialize (H _ Hx); cbn [fst snd] in *.
    + apply IH. congruence.
    + f_equal. by apply IH.
Qed.

(** C1. JSON round trip: printing any well-formed value and parsing the text gives the
    value back, with every string byte for byte, every finite double bit for bit and
    every object entry, whatever the order of the container, except that an unsigned
    integer which fits [Int64] comes back as the signed integer of the same value
    ([operator==] tells the two apart); so the very same value comes back exactly when
    it has no such unsigned integer. *)
Theorem json_roundtrip (v : Json) :
  wf v -> parse (dump v) = Ok (normalize v) /\ (normalize v = v <-> wide v = true).
Proof. intros Hv. split; [by apply parse_dump|apply normalize_wide]. Qed.

Definition sample_json : Json :=
  JObject [(lit "id", JInt (-7)); (lit "big", JUInt 18446744073709551615);
           (lit "ratio", JDouble (Finite true 7205759403792794 (-56)));
           ([x22; x0a; xff], JArray [JNull; JBool true; JString [x00; x5c]; JUInt 5])].

Lemma json_roundtrip_witness :
  wf sample_json /\ parse (dump sample_json) = Ok (normalize sample_json) /\
  (normalize sample_json = sample_json <-> wide sample_json = true).
Proof.
  assert (wf sample_json) as H.
  { unfold sample_json. apply wf_object. split; [vm_compute; apply (bool_decide_unpack _); vm_compute; exact I|].
    repeat first [apply Forall_cons_2 | apply Forall_nil_2]; cbn [snd wf foldr]; repeat split.
    all: unfold INT64_MIN, INT64_MAX, UINT64_MAX; lia. }
  split; [exact H|]. exact (json_roundtrip sample_json H).
Defined.

(** Whatever text the parser accepts, printing the value it returned and
    parsing again returns exactly that value. *)
Theorem json_reparse (source : bytes) (v : Json) : parse source = Ok v -> parse (dump v) = Ok v.
Proof.
  intros H%parse_parsed. rewrite parse_dump by (by apply parsed_wf). by rewrite parsed_normal.
Qed.

Lemma json_reparse_witness :
  exists v, parse (lit "[1, 2.50e-3 ,true]") = Ok v /\ parse (dump v) = Ok v.
Proof.
  eexists. split; [vm_compute; reflexivity|]. apply (json_reparse (lit "[1, 2.50e-3 ,true]")).
  vm_compute. reflexivity.
Defined.

(** [Json::parse] is total: on every input it either returns a value whose
    numbers are in range, whose doubles are finite and whose objects have distinct
    keys, or it throws [std::invalid_argument]; the recursion never runs out. *)
Theorem json_parse_total (source : bytes) :
  (exists v, parse source = Ok v /\ parsed v) \/
  (exists what, parse source = Throw (invalid_argument what)).
Proof.
  pose proof (parse_raises source) as H. destruct (parse source) as [v|[]|] eqn:E; try done; [left|right].
  - exists v. split; [done|]. by apply parse_parsed in E.
  - by eexists.
Qed.

(** Printed JSON contains no control character, so it is a single line of text
    whatever bytes the strings hold. *)
Theorem json_dump_printable (v : Json) : wf v -> Forall (fun b => 32 <= uc b) (dump v).
Proof.
  intros H%dump_printable%Forall_byte. eapply Forall_impl; [exact H|].
  unfold printable. intros b Hb. by apply Z.leb_le.
Qed.

Lemma json_dump_printable_witness :
  wf (JString [x0a; x00]) /\ Forall (fun b => 32 <= uc b) (dump (JString [x0a; x00])).
Proof. split; [exact I|]. apply (json_dump_printable (JString [x0a; x00])). exact I. Defined.
