(* ===== verification/Http.v ===== *)
(** * Methods and headers ([include/gungnir/http/method.hpp],
    [src/http/request.cpp], [src/security/security.cpp])

    What the HTTP components share: the method, the header map, whose keys are
    stored in lower case, and the characters that header names and values may have. *)

From S2P Require Import Prelude.

(** [http::Method]. *)
Inductive Method : Type := get | post | put | patch | delete_ | options | head.

#[export] Instance Method_eq_dec : EqDecision Method.
Proof. solve_decision. Defined.

Definition method_text (method : Method) : bytes :=
  match method with
  | get => lit "GET" | post => lit "POST" | put => lit "PUT" | patch => lit "PATCH"
  | delete_ => lit "DELETE" | options => lit "OPTIONS" | head => lit "HEAD"
  end.

Definition ascii_lower (value : byte) : byte :=
  if between "A" "Z" value then chr (uc value - 65 + 97) else value.

Definition blank (c : byte) : bool := (c =b? " ") || (c =b? x09).

Fixpoint trim_front (value : bytes) : bytes :=
  match value with
  | c :: value' => if blank c then trim_front value' else value
  | [] => []
  end.

(** [trim]: spaces and tabs off the front, then off the back. *)
Definition trim (value : bytes) : bytes := rev (trim_front (rev (trim_front value))).

Definition Headers : Type := gmap bytes bytes.

(** [std::tolower] in the "C" locale, on every character. *)
Definition normalize_header_name (name : bytes) : bytes := map ascii_lower name.

(** [Request::header]; an absent header reads as empty. *)
Definition header (headers : Headers) (name : bytes) : bytes :=
  default [] (headers !! normalize_header_name name).

(** ** Valid headers ([security::valid_header_name], [security::valid_header_value]) *)

Definition header_separators : bytes :=
  lit "()<>@,;:" ++ [x5c; x22] ++ lit "/[]?={} " ++ [x09].

Definition name_char (c : byte) : bool :=
  negb ((uc c <=? 0x20) || (0x7f <=? uc c) || bool_decide (c ∈ header_separators)).

Definition valid_header_name (value : bytes) : bool :=
  match value with [] => false | _ => forallb name_char value end.

Definition value_char (c : byte) : bool :=
  negb ((c =b? x0d) || (c =b? x0a) || (uc c =? 0) || (uc c =? 0x7f) || ((uc c <? 0x20) && negb (c =b? x09))).

Definition valid_header_value (value : bytes) : bool := forallb value_char value.
