(* ===== verification/Router.v ===== *)
(** * Routes, named URLs and dispatch ([src/routing/router.cpp])

    The router keeps the registered routes in order, the global middleware, an
    optional middleware registry and an optional fallback ([Router::Impl]).
    Handlers and middleware are application code: they are functions of the
    request that return or throw.  A compiled [std::regex] is the predicate that
    [std::regex_match] decides; compiling a pattern text is the argument
    [compile_regex] of [set_constraint]. *)

From S2P Require Import Prelude Http.

Abbreviation regex := (bytes -> bool).

(** ** Path segments and parameters *)

Fixpoint skip_slashes (s : bytes) : bytes :=
  match s with
  | c :: s' => if c =b? "/" then skip_slashes s' else s
  | [] => []
  end.

(** The loop of [split], one segment per unit of fuel. *)
Fixpoint split_loop (fuel : nat) (path : bytes) : list bytes :=
  match fuel with
  | O => []
  | S f =>
      match skip_slashes path with
      | [] => []
      | s =>
          match until "/" s with
          | (segment, None) => [segment]
          | (segment, Some rest) => segment :: split_loop f rest
          end
      end
  end.

Definition split (path : bytes) : list bytes := split_loop (S (length path)) path.

Definition hex_nibble (c : byte) : Z :=
  if between "0" "9" c then uc c - 48
  else if between "a" "f" c then uc c - 97 + 10
  else if between "A" "F" c then uc c - 65 + 10
  else -1.

Definition is_control (c : Z) : bool := (c <? 32) || (c =? 127).

(** Append one decoded character; control characters make the whole value fail. *)
Definition decoded (c : Z) (rest : option bytes) : option bytes :=
  if is_control c then None
  else match rest with Some r => Some (chr c :: r) | None => None end.

Fixpoint decode_parameter (value : bytes) : option bytes :=
  match value with
  | [] => Some []
  | c :: s =>
      if c =b? "%" then
        match s with
        | h :: l :: s' =>
            let high := hex_nibble h in
            let low := hex_nibble l in
            if (high <? 0) || (low <? 0) then None
            else decoded (Z.lor (Z.shiftl high 4) low) (decode_parameter s')
        | _ => None
        end
      else decoded (uc c) (decode_parameter s)
  end.

Definition unreserved (c : byte) : bool :=
  between "a" "z" c || between "A" "Z" c || between "0" "9" c ||
  (c =b? "-") || (c =b? ".") || (c =b? "_") || (c =b? "~").

Definition hex_upper (d : Z) : byte := if d <? 10 then chr (48 + d) else chr (65 + (d - 10)).

Definition encode_char (c : byte) : bytes :=
  if unreserved c then [c]
  else ["%"%byte; hex_upper (Z.shiftr (uc c) 4); hex_upper (Z.land (uc c) 15)].

Definition encode_parameter (value : bytes) : result bytes :=
  match value with
  | [] => Throw (invalid_argument "Named route parameters cannot be empty")
  | _ =>
      if existsb (fun c => is_control (uc c)) value
      then Throw (invalid_argument "Named route parameters cannot contain control characters")
      else Ok (value ≫= encode_char)
  end.

(** [segment.size() >= 3 && front == '{' && back == '}'], with the name between. *)
Definition parameter_name (segment : bytes) : option bytes :=
  if (3 <=? length segment)%nat && bool_decide (hd_error segment = Some "{"%byte)
     && bool_decide (last segment = Some "}"%byte)
  then Some (take (length segment - 2) (drop 1 segment))
  else None.

Definition join (prefix path : bytes) : bytes :=
  match prefix, path with
  | [], _ => path
  | _, [] => prefix
  | _, c :: _ =>
      prefix ++
      (if bool_decide (last prefix = Some "/"%byte) || (c =b? "/") then [] else ["/"%byte]) ++ path
  end.

Section Router.
Context {Response X : Type}.

(** The part of [http::Request] the router uses; [content] is the rest of it. *)
Record Request := mkRequest {
  req_method : Method;
  req_path : bytes;
  req_parameters : gmap bytes bytes;
  req_content : X
}.

(** Handlers and middleware take the request by reference: what they return or
    throw comes with the request as they left it. *)
Definition Handler : Type := Request -> result Response * Request.
Definition Middleware : Type := Request -> Handler -> result Response * Request.

Record RouteEntry := mkRoute {
  r_method : Method;
  r_path : bytes;
  r_handler : Handler;
  r_middleware : list Middleware;
  r_name : bytes;
  r_constraints : gmap bytes regex
}.

(** The segment loop of [match]. *)
Fixpoint match_segments (constraints : gmap bytes regex) (expected found : list bytes)
    (parameters : gmap bytes bytes) : option (gmap bytes bytes) :=
  match expected, found with
  | [], [] => Some parameters
  | segment :: expected', actual :: found' =>
      match parameter_name segment with
      | Some [] => None
      | Some name =>
          match decode_parameter actual with
          | None => None
          | Some value =>
              let allowed :=
                match constraints !! name with
                | Some constraint => constraint value
                | None => true
                end in
              if negb allowed then None
              else match_segments constraints expected' found' (<[name := value]> parameters)
          end
      | None =>
          if bool_decide (segment = actual)
          then match_segments constraints expected' found' parameters
          else None
      end
  | _, _ => None
  end.

Definition match_route (route : RouteEntry) (actual : bytes) : option (gmap bytes bytes) :=
  let expected := split (r_path route) in
  let found := split actual in
  if (length expected =? length found)%nat
  then match_segments (r_constraints route) expected found ∅
  else None.

(** Middleware around the terminal handler, first to last. *)
Fixpoint pipeline (middleware : list Middleware) (terminal : Handler) : Handler :=
  match middleware with
  | [] => terminal
  | m :: ms => fun request => m request (pipeline ms terminal)
  end.

(** ** The middleware registry ([http::MiddlewareRegistry]) *)

Record MiddlewareRegistry := mkRegistry {
  aliases_ : gmap bytes Middleware;
  groups_ : gmap bytes (list bytes);
  priority_ : gmap bytes nat
}.

Definition registry_alias (name : bytes) (handler : Middleware) (g : MiddlewareRegistry)
    : result MiddlewareRegistry :=
  match name with
  | [] => Throw (invalid_argument "Middleware alias requires a name and handler")
  | _ => Ok (mkRegistry (<[name := handler]> (aliases_ g)) (groups_ g) (priority_ g))
  end.

Definition registry_group (name : bytes) (aliases : list bytes) (g : MiddlewareRegistry)
    : result MiddlewareRegistry :=
  match name with
  | [] => Throw (invalid_argument "Middleware group requires a name")
  | _ => Ok (mkRegistry (aliases_ g) (<[name := aliases]> (groups_ g)) (priority_ g))
  end.

(** [priority]: later duplicates overwrite the index of earlier ones. *)
Definition registry_priority (aliases : list bytes) (g : MiddlewareRegistry)
    : MiddlewareRegistry :=
  mkRegistry (aliases_ g) (groups_ g)
    (foldl (fun m '(i, a) => <[a := i]> m) ∅ (imap pair aliases)).

Definition rank (g : MiddlewareRegistry) (name : bytes) : nat :=
  default (size (priority_ g)) (priority_ g !! name).

Definition resolve (g : MiddlewareRegistry) (name : bytes) : result Middleware :=
  match aliases_ g !! name with
  | Some m => Ok m
  | None => Throw (out_of_range "Unknown middleware alias")
  end.

(** [std::stable_sort] by rank, as insertion into a sorted list. *)
Fixpoint insert_by (key : bytes -> nat) (x : bytes) (l : list bytes) : list bytes :=
  match l with
  | [] => [x]
  | y :: l' => if (key x <=? key y)%nat then x :: l else y :: insert_by key x l'
  end.

Definition stable_sort (key : bytes -> nat) (l : list bytes) : list bytes :=
  foldr (insert_by key) [] l.

Fixpoint resolve_all (g : MiddlewareRegistry) (names : list bytes) : result (list Middleware) :=
  match names with
  | [] => Ok []
  | a :: names' => m ← resolve g a; ms ← resolve_all g names'; Ok (m :: ms)
  end.

Definition resolve_group (g : MiddlewareRegistry) (name : bytes) : result (list Middleware) :=
  match groups_ g !! name with
  | None => Throw (out_of_range "Unknown middleware group")
  | Some names => resolve_all g (stable_sort (rank g) names)
  end.

(** ** The router *)

Record Router := mkRouter {
  routes : list RouteEntry;
  middleware : list Middleware;
  middleware_registry : option MiddlewareRegistry;
  fallback : option Handler;
  render : Request -> exn -> Response
}.

Definition with_routes (rs : list RouteEntry) (r : Router) : Router :=
  mkRouter rs (middleware r) (middleware_registry r) (fallback r) (render r).

(** [Router::add]: the registration names the index of the new route. *)
Definition add (method : Method) (path : bytes) (handler : Handler) (r : Router)
    : Router * nat :=
  (with_routes (routes r ++ [mkRoute method path handler [] [] ∅]) r, length (routes r)).

Definition use (m : Middleware) (r : Router) : Router :=
  mkRouter (routes r) (middleware r ++ [m]) (middleware_registry r) (fallback r) (render r).

Definition set_registry (g : MiddlewareRegistry) (r : Router) : Router :=
  mkRouter (routes r) (middleware r) (Some g) (fallback r) (render r).

Definition set_fallback (h : Handler) (r : Router) : Router :=
  mkRouter (routes r) (middleware r) (middleware_registry r) (Some h) (render r).

(** [Router::has], [Router::route_count]. *)
Definition has (name : bytes) (r : Router) : bool :=
  existsb (fun route => bool_decide (r_name route = name)) (routes r).

Definition route_count (r : Router) : nat := length (routes r).

(** [impl_->routes[i]] updated in place, after the bounds check. *)
Definition update_route (i : nat) (f : RouteEntry -> RouteEntry) (r : Router) : result Router :=
  match routes r !! i with
  | None => Throw (out_of_range "Invalid route")
  | Some route => Ok (with_routes (<[i := f route]> (routes r)) r)
  end.

Definition add_middleware (i : nat) (m : Middleware) (r : Router) : result Router :=
  update_route i (fun e => mkRoute (r_method e) (r_path e) (r_handler e)
                             (r_middleware e ++ [m]) (r_name e) (r_constraints e)) r.

Definition add_middleware_alias (i : nat) (alias : bytes) (r : Router) : result Router :=
  match middleware_registry r with
  | None => Throw (logic_error "Middleware registry is not attached")
  | Some g => m ← resolve g alias; add_middleware i m r
  end.

(** Another route already has the non-empty name [n]. *)
Definition name_taken (i : nat) (n : bytes) (rs : list RouteEntry) : bool :=
  negb (bool_decide (n = [])) &&
  existsb (fun '(x, e) => negb (x =? i)%nat && bool_decide (r_name e = n)) (imap pair rs).

Definition set_name (i : nat) (n : bytes) (r : Router) : result Router :=
  match routes r !! i with
  | None => Throw (out_of_range "Invalid route")
  | Some _ =>
      if name_taken i n (routes r) then Throw (invalid_argument "Duplicate named route")
      else update_route i (fun e => mkRoute (r_method e) (r_path e) (r_handler e)
                                      (r_middleware e) n (r_constraints e)) r
  end.

(** [compile_regex] is the constructor of [std::regex]; [None] is [std::regex_error]. *)
Definition set_constraint (compile_regex : bytes -> option regex) (i : nat)
    (parameter expression : bytes) (r : Router) : result Router :=
  match routes r !! i with
  | None => Throw (out_of_range "Invalid route")
  | Some _ =>
      match compile_regex expression with
      | None => Throw (runtime_error "regex_error")
      | Some re =>
          update_route i (fun e => mkRoute (r_method e) (r_path e) (r_handler e)
                                     (r_middleware e) (r_name e)
                                     (<[parameter := re]> (r_constraints e))) r
      end
  end.

(** The substitution loop of [Router::url], one placeholder per unit of fuel. *)
Fixpoint url_loop (fuel : nat) (path : bytes) (parameters : gmap bytes bytes) : result bytes :=
  match fuel with
  | O => NoFuel
  | S f =>
      match path with
      | [] => Ok []
      | _ =>
          match until "{" path with
          | (text, None) => Ok text
          | (text, Some rest) =>
              match until "}" rest with
              | (_, None) => Throw (invalid_argument "Invalid named route parameter")
              | (key, Some rest') =>
                  match parameters !! key with
                  | None => Throw (invalid_argument "Missing named route parameter")
                  | Some value =>
                      encoded ← encode_parameter value;
                      tail ← url_loop f rest' parameters;
                      Ok (text ++ encoded ++ tail)
                  end
              end
          end
      end
  end.

Definition route_url (path : bytes) (parameters : gmap bytes bytes) : result bytes :=
  url_loop (S (length path)) path parameters.

Fixpoint find_named (name : bytes) (rs : list RouteEntry) : option RouteEntry :=
  match rs with
  | [] => None
  | e :: rs' => if bool_decide (r_name e = name) then Some e else find_named name rs'
  end.

Definition url (name : bytes) (parameters : gmap bytes bytes) (r : Router) : result bytes :=
  match find_named name (routes r) with
  | Some route => route_url (r_path route) parameters
  | None => Throw (out_of_range "Unknown named route")
  end.

(** The selection loop of [Router::dispatch]. *)
Fixpoint select (rs : list RouteEntry) (method : Method) (path : bytes)
    : option (RouteEntry * gmap bytes bytes) :=
  match rs with
  | [] => None
  | route :: rs' =>
      if bool_decide (r_method route = method) then
        match match_route route path with
        | Some params => Some (route, params)
        | None => select rs' method path
        end
      else select rs' method path
  end.

Definition not_found : Handler :=
  fun request => (Throw (http_exception 404 "Not Found"), request).

Definition with_parameters (params : gmap bytes bytes) (request : Request) : Request :=
  mkRequest (req_method request) (req_path request) params (req_content request).

Definition dispatch (r : Router) (request : Request) : result Response :=
  let '(chain, terminal, params) :=
    match select (routes r) (req_method request) (req_path request) with
    | Some (route, params) => (middleware r ++ r_middleware route, r_handler route, params)
    | None => (middleware r, default not_found (fallback r), ∅)
    end in
  match pipeline chain terminal (with_parameters params request) with
  | (Ok response, _) => Ok response
  | (Throw e, request') => Ok (render r request' e)
  | (NoFuel, _) => NoFuel
  end.

(** ** Route groups *)

Record RouteGroup := mkGroup {
  g_prefix : bytes;
  g_middleware : list Middleware;
  g_aliases : list bytes;
  g_groups : list bytes
}.

(** A registration call that throws leaves the router as the calls before it
    made it: the outcome comes with the router. *)
Definition attempt (call : Router -> result Router) (r : Router) : result unit * Router :=
  match call r with
  | Ok r' => (Ok tt, r')
  | Throw e => (Throw e, r)
  | NoFuel => (NoFuel, r)
  end.

(** [for (x : xs) call(x)], stopped by the first exception. *)
Fixpoint each {A} (call : A -> Router -> result unit * Router) (xs : list A) (r : Router)
    : result unit * Router :=
  match xs with
  | [] => (Ok tt, r)
  | x :: xs' =>
      match call x r with
      | (Ok _, r') => each call xs' r'
      | failed => failed
      end
  end.

Definition add_group (i : nat) (name : bytes) (r : Router) : result unit * Router :=
  match middleware_registry r with
  | None => (Throw (logic_error "Middleware registry is not attached"), r)
  | Some g =>
      match resolve_group g name with
      | Ok ms => each (fun m => attempt (add_middleware i m)) ms r
      | Throw e => (Throw e, r)
      | NoFuel => (NoFuel, r)
      end
  end.

(** [RouteGroup::apply] on the registration of route [i]. *)
Definition apply_group (g : RouteGroup) (i : nat) (r : Router) : result unit * Router :=
  match each (fun m => attempt (add_middleware i m)) (g_middleware g) r with
  | (Ok _, r1) =>
      match each (fun a => attempt (add_middleware_alias i a)) (g_aliases g) r1 with
      | (Ok _, r2) => each (add_group i) (g_groups g) r2
      | failed => failed
      end
  | failed => failed
  end.

(** [RouteGroup::get] and its siblings: the route is registered first, then
    [apply] runs on it. *)
Definition group_add (g : RouteGroup) (method : Method) (path : bytes) (handler : Handler)
    (r : Router) : result nat * Router :=
  let '(r1, i) := add method (join (g_prefix g) path) handler r in
  match apply_group g i r1 with
  | (Ok _, r2) => (Ok i, r2)
  | (Throw e, r2) => (Throw e, r2)
  | (NoFuel, r2) => (NoFuel, r2)
  end.
End Router.
