(* ===== verification/RouterFacts.v ===== *)
(** * The router: named URLs, matching and dispatch *)

From Stdlib Require Import Sorting.Sorted.
From S2P Require Import Prelude Http Router.

(** ** Percent-encoding of parameters *)

Lemma decode_encode_char c rest :
  is_control (uc c) = false ->
  decode_parameter (encode_char c ++ rest) = decoded (uc c) (decode_parameter rest).
Proof. intros H. destruct c; first [discriminate H | reflexivity]. Qed.

Lemma decoded_plain c r : is_control (uc c) = false -> decoded (uc c) (Some r) = Some (c :: r).
Proof. unfold decoded. intros ->. by rewrite chr_uc. Qed.

Definition plain (v : bytes) : Prop := Forall (fun c => is_control (uc c) = false) v.

Lemma decode_encode_chars v : plain v -> decode_parameter (v ≫= encode_char) = Some v.
Proof.
  induction 1 as [|c v Hc _ IH]; [done|]. cbn [mbind list_bind].
  rewrite decode_encode_char, IH by done. by apply decoded_plain.
Qed.

Lemma existsb_control v : existsb (fun c => is_control (uc c)) v = false <-> plain v.
Proof.
  unfold plain. induction v as [|c v IH]; cbn; [by split; constructor|].
  rewrite orb_false_iff, Forall_cons, IH. done.
Qed.

Lemma encode_parameter_ok v :
  v <> [] -> plain v -> encode_parameter v = Ok (v ≫= encode_char).
Proof.
  intros Hne Hv. destruct v as [|c v]; [done|]. unfold encode_parameter.
  apply existsb_control in Hv. by rewrite Hv.
Qed.

Lemma encode_parameter_inv v e :
  encode_parameter v = Ok e -> v <> [] /\ plain v /\ e = v ≫= encode_char.
Proof.
  destruct v as [|c v]; [done|]. unfold encode_parameter.
  destruct (existsb _ _) eqn:E; [done|]. apply existsb_control in E. intros [= <-]. done.
Qed.

Lemma encode_char_no_slash c : forallb (fun b => negb (b =b? "/")) (encode_char c) = true.
Proof. by_bytes. Qed.

Lemma encode_char_nonempty c : encode_char c <> [].
Proof. unfold encode_char. by case_match. Qed.

(** ** Splitting a path *)

Lemma skip_slashes_length s : (length (skip_slashes s) <= length s)%nat.
Proof. induction s as [|c s IH]; cbn; [done|]. case_match; cbn; lia. Qed.

(** A path segment: not empty, no slash. *)
Definition segment_ok (s : bytes) : Prop := s <> [] /\ "/"%byte ∉ s.

Lemma skip_slashes_segment s rest : segment_ok s -> skip_slashes (s ++ rest) = s ++ rest.
Proof.
  intros [Hne Hs]. destruct s as [|c s]; [done|]. cbn.
  destruct (c =b? "/") eqn:E; [|done]. reflect_bools. by destruct Hs; left.
Qed.

Definition rooted (l : list bytes) : bytes := l ≫= fun s => "/"%byte :: s.

(** Trailing slashes are ignored. *)
Definition slashes (k : nat) : bytes := replicate k "/"%byte.

Lemma skip_slashes_all k : skip_slashes (slashes k) = [].
Proof. induction k; cbn; [done|]. by eval_tests. Qed.

Lemma skip_slashes_cons s : skip_slashes ("/"%byte :: s) = skip_slashes s.
Proof. cbn. by eval_tests. Qed.

Lemma split_loop_S f path :
  split_loop (S f) path =
  match skip_slashes path with
  | [] => []
  | s => match until "/" s with
         | (segment, None) => [segment]
         | (segment, Some rest) => segment :: split_loop f rest
         end
  end.
Proof. done. Qed.

Lemma split_loop_slash f s : split_loop f ("/"%byte :: s) = split_loop f s.
Proof. destruct f; [done|]. by rewrite !split_loop_S, skip_slashes_cons. Qed.

Lemma split_loop_segment f s rest :
  segment_ok s ->
  split_loop (S f) (s ++ "/"%byte :: rest) = s :: split_loop f rest.
Proof.
  intros Hs. rewrite split_loop_S, skip_slashes_segment by done.
  destruct Hs as [Hne Hs]. destruct s as [|c s]; [done|]. cbn [app].
  change (c :: s ++ ?x) with ((c :: s) ++ x). by rewrite until_app.
Qed.

Lemma split_loop_last f s : segment_ok s -> split_loop (S f) s = [s].
Proof.
  intros Hs. rewrite split_loop_S, <-(app_nil_r s), skip_slashes_segment by done.
  rewrite app_nil_r. destruct Hs as [Hne Hs]. destruct s as [|c s]; [done|].
  by rewrite until_none.
Qed.

Lemma split_loop_rooted l k f :
  Forall segment_ok l -> (length l < f)%nat -> split_loop f (rooted l ++ slashes k) = l.
Proof.
  intros Hl. revert f. induction Hl as [|s l Hs Hl IH]; intros [|f] Hf; cbn in Hf; try lia.
  { rewrite split_loop_S. cbn [rooted mbind list_bind app]. by rewrite skip_slashes_all. }
  cbn [rooted mbind list_bind app]. fold (rooted l). rewrite split_loop_slash, <-app_assoc.
  destruct l as [|s' l].
  - cbn [rooted mbind list_bind app]. destruct k as [|k]; cbn [slashes replicate].
    + rewrite app_nil_r. by apply split_loop_last.
    + fold (slashes k). rewrite split_loop_segment by done. f_equal.
      destruct f as [|f]; [done|]. by rewrite split_loop_S, skip_slashes_all.
  - specialize (IH f ltac:(lia)). revert IH. cbn [rooted mbind list_bind app].
    rewrite split_loop_slash. intros IH. by rewrite split_loop_segment, IH.
Qed.

Lemma rooted_length l : (length l <= length (rooted l))%nat.
Proof. induction l as [|s l IH]; cbn; [done|]. rewrite length_app. fold (rooted l). lia. Qed.

Lemma split_rooted l k : Forall segment_ok l -> split (rooted l ++ slashes k) = l.
Proof.
  intros Hl. apply split_loop_rooted; [done|]. rewrite length_app.
  pose proof (rooted_length l). lia.
Qed.

(** ** Named URLs

    A route template is a list of literal segments and [{name}] placeholders. *)
Inductive piece : Type := Literal (text : bytes) | Placeholder (name : bytes).

Definition piece_text (p : piece) : bytes :=
  match p with
  | Literal s => s
  | Placeholder n => "{"%byte :: n ++ ["}"%byte]
  end.

Definition piece_ok (p : piece) : Prop :=
  match p with
  | Literal s => segment_ok s /\ "{"%byte ∉ s
  | Placeholder n => n <> [] /\ ("/"%byte ∉ n) /\ "}"%byte ∉ n
  end.

(** The template's path, with any number of trailing slashes. *)
Definition template_path (t : list piece) (k : nat) : bytes :=
  rooted (piece_text <$> t) ++ slashes k.

Definition placeholders (t : list piece) : list bytes :=
  omap (fun p => match p with Literal _ => None | Placeholder n => Some n end) t.

(** What a placeholder may be bound to: present, not empty, no control
    characters, and accepted by the route's constraint. *)
Definition bindable (cs : gmap bytes regex) (params : gmap bytes bytes) (n : bytes) : Prop :=
  exists v, params !! n = Some v /\ v <> [] /\ plain v /\
            forall re, cs !! n = Some re -> re v = true.

Definition piece_value (params : gmap bytes bytes) (p : piece) : bytes :=
  match p with
  | Literal s => s
  | Placeholder n => default [] (params !! n) ≫= encode_char
  end.

Definition only (names : list bytes) (params : gmap bytes bytes) : gmap bytes bytes :=
  filter (fun kv => kv.1 ∈ names) params.

Lemma parameter_name_literal s : segment_ok s -> "{"%byte ∉ s -> parameter_name s = None.
Proof.
  intros [Hne _] Hs. unfold parameter_name. destruct s as [|c s]; [done|].
  rewrite (bool_decide_false (hd_error _ = _)); [by rewrite andb_false_r|].
  cbn. intros [= ->]. apply Hs. by left.
Qed.

Lemma parameter_name_placeholder n :
  n <> [] -> parameter_name (piece_text (Placeholder n)) = Some n.
Proof.
  intros Hn. unfold parameter_name. cbn [piece_text hd_error drop].
  rewrite app_comm_cons, last_snoc. cbn [app length drop]. rewrite length_app. cbn [length].
  replace (3 <=? _)%nat with true
    by (symmetry; apply Nat.leb_le; destruct n; [done|cbn; lia]).
  rewrite !bool_decide_true by done. cbn [andb]. f_equal.
  replace (S (length n + 1) - 2)%nat with (length n) by lia. apply take_app_length.
Qed.

Lemma segment_encoded v : v <> [] -> segment_ok (v ≫= encode_char).
Proof.
  intros Hv. split.
  - destruct v as [|c v]; [done|]. cbn. intros [H _]%app_eq_nil.
    by apply encode_char_nonempty in H.
  - intros (c & Hin & _)%list_elem_of_bind.
    pose proof (encode_char_no_slash c) as H. rewrite forallb_forall in H.
    apply list_elem_of_In, H in Hin. by rewrite byte_eqb_refl in Hin.
Qed.

Lemma segment_text p : piece_ok p -> segment_ok (piece_text p).
Proof.
  destruct p as [s|n]; cbn; [by intros [? _]|]. intros (Hn & Hs & _). split; [done|].
  rewrite not_elem_of_cons, not_elem_of_app, list_elem_of_singleton. by split.
Qed.

Lemma segment_value cs params p :
  piece_ok p -> (forall n, p = Placeholder n -> bindable cs params n) ->
  segment_ok (piece_value params p).
Proof.
  destruct p as [s|n]; cbn; [by intros [? _]|]. intros _ H.
  destruct (H n eq_refl) as (v & -> & Hv & _). by apply segment_encoded.
Qed.

Lemma slashes_no_brace k : "{"%byte ∉ slashes k.
Proof. intros H%elem_of_replicate_inv. done. Qed.

Lemma url_loop_text f l params :
  "{"%byte ∉ l -> url_loop (S f) l params = Ok l.
Proof. intros H. cbn. destruct l as [|c l]; [done|]. by rewrite until_none. Qed.

Lemma url_loop_placeholder f l n rest v params :
  "{"%byte ∉ l -> "}"%byte ∉ n -> params !! n = Some v -> v <> [] -> plain v ->
  url_loop (S f) (l ++ piece_text (Placeholder n) ++ rest) params =
  (fun tail => l ++ (v ≫= encode_char) ++ tail) <$> url_loop f rest params.
Proof.
  intros Hl Hn Hv Hne Hp. cbn [piece_text app]. rewrite <-app_assoc. cbn [app url_loop].
  rewrite until_app by done. destruct (l ++ _) eqn:E; [by destruct l|].
  rewrite until_app, Hv by done. rewrite encode_parameter_ok by done. cbn.
  by destruct (url_loop f rest params).
Qed.

(** The URL of a template: every placeholder replaced by its encoded value. *)
Lemma url_loop_template cs params t k l f :
  Forall piece_ok t -> Forall (bindable cs params) (placeholders t) ->
  "{"%byte ∉ l -> (length t < f)%nat ->
  url_loop f (l ++ template_path t k) params =
  Ok (l ++ rooted (piece_value params <$> t) ++ slashes k).
Proof.
  intros Ht. revert l f. unfold template_path.
  induction Ht as [|p t Hp _ IH]; intros l [|f] Hb Hl Hf; cbn in Hf; try lia.
  { cbn [fmap list_fmap rooted mbind list_bind app]. apply url_loop_text.
    apply not_elem_of_app. split; [done|]. apply slashes_no_brace. }
  cbn [fmap list_fmap rooted mbind list_bind]. fold (rooted (piece_text <$> t)).
  fold (rooted (piece_value params <$> t)). rewrite <-!app_comm_cons, <-!app_assoc.
  destruct p as [s|n]; cbn [piece_ok placeholders omap list_omap] in *.
  - rewrite (cons_middle _ l). rewrite (app_assoc _ s), (app_assoc l).
    cbn [piece_text piece_value].
    rewrite IH by first [done | lia | destruct Hp as [[_ _] ?]; set_solver].
    rewrite (cons_middle _ l). by rewrite <-!app_assoc.
  - apply Forall_cons in Hb as [(v & Hv & Hne & Hpl & _) Hb].
    destruct Hp as (_ & _ & Hn). rewrite cons_middle, app_assoc.
    rewrite (url_loop_placeholder _ _ n _ v) by first [done | set_solver].
    specialize (IH [] f Hb (not_elem_of_nil _) ltac:(lia)). cbn [app] in IH. rewrite IH.
    cbn [fmap result_fmap piece_value app]. rewrite Hv. cbn [default]. by rewrite <-app_assoc.
Qed.

Lemma only_nil params : only [] params = ∅.
Proof. apply map_empty. intros i. apply map_lookup_filter_None. right. intros x _.
  apply not_elem_of_nil. Qed.

Lemma only_cons n names params acc v :
  params !! n = Some v -> only names params ∪ <[n := v]> acc = only (n :: names) params ∪ acc.
Proof.
  intros Hv. apply map_eq. intros k. rewrite !lookup_union. unfold only.
  rewrite !map_lookup_filter. destruct (decide (k = n)) as [->|Hk].
  - rewrite lookup_insert_eq, Hv. cbn. rewrite (option_guard_True (n ∈ n :: names)) by by left.
    destruct (acc !! n); destruct (decide (n ∈ names));
      by rewrite ?option_guard_True, ?option_guard_False by done.
  - rewrite lookup_insert_ne by done. f_equal. destruct (params !! k); [|done]. cbn.
    destruct (decide (k ∈ names)).
    + by rewrite !option_guard_True by first [done | by right].
    + rewrite !option_guard_False; [done|set_solver|done].
Qed.

Lemma match_segments_template cs params t acc :
  Forall piece_ok t -> Forall (bindable cs params) (placeholders t) ->
  match_segments cs (piece_text <$> t) (piece_value params <$> t) acc =
  Some (only (placeholders t) params ∪ acc).
Proof.
  intros Ht. revert acc. induction Ht as [|p t Hp _ IH]; intros acc Hb.
  { cbn. by rewrite only_nil, map_empty_union. }
  cbn [fmap list_fmap match_segments]. destruct p as [s|n]; cbn [piece_ok] in Hp.
  - cbn [piece_text piece_value]. destruct Hp as [Hs Hb0].
    rewrite parameter_name_literal, bool_decide_true by done. by apply IH.
  - cbn [placeholders omap list_omap] in *. fold (placeholders t) in *.
    apply Forall_cons in Hb as [(v & Hv & Hne & Hpl & Hc) Hb]. destruct Hp as (Hn & _ & _).
    rewrite parameter_name_placeholder by done. cbn [piece_value]. rewrite Hv. cbn [default].
    rewrite decode_encode_chars by done. destruct n as [|c n]; [done|].
    destruct (cs !! (c :: n)) as [re|] eqn:Hre.
    + rewrite Hc by done. cbn [negb]. rewrite IH by done. by rewrite (only_cons _ _ _ _ v).
    + cbn [negb]. rewrite IH by done. by rewrite (only_cons _ _ _ _ v).
Qed.

Lemma template_length t k : (length t <= length (template_path t k))%nat.
Proof.
  unfold template_path. rewrite length_app.
  pose proof (rooted_length (piece_text <$> t)) as H. rewrite length_fmap in H. lia.
Qed.

Lemma placeholders_elem t n : Placeholder n ∈ t -> n ∈ placeholders t.
Proof. intros H. apply list_elem_of_omap. by exists (Placeholder n). Qed.

Lemma values_ok cs params t :
  Forall piece_ok t -> Forall (bindable cs params) (placeholders t) ->
  Forall segment_ok (piece_value params <$> t).
Proof.
  intros Ht Hb. rewrite Forall_fmap. apply Forall_forall. intros p Hp.
  apply (segment_value cs); [by eapply Forall_forall in Ht|].
  intros n ->. eapply Forall_forall; [exact Hb|by apply placeholders_elem].
Qed.

Lemma texts_ok t : Forall piece_ok t -> Forall segment_ok (piece_text <$> t).
Proof. intros H. rewrite Forall_fmap. eapply Forall_impl; [exact H|]. apply segment_text. Qed.

(** [Router::url] never runs out of fuel: the loop advances past a placeholder
    each time round. *)
Lemma url_loop_raises f path params :
  (length path < f)%nat -> only_invalid (url_loop f path params).
Proof.
  revert path. induction f as [|f IH]; intros path Hf; [lia|]. cbn [url_loop].
  destruct path as [|c path]; [done|]. destruct (until "{" (c :: path)) as [text [rest|]] eqn:E;
    [|done].
  apply until_inv in E as [_ E]. destruct (until "}" rest) as [key [rest'|]] eqn:E'; [|done].
  apply until_inv in E' as [_ E']. destruct (params !! key) as [v|]; [|done].
  apply raises_only_bind.
  - unfold encode_parameter. destruct v; [done|]. by case_match.
  - intros e _. apply raises_only_bind; [|done]. apply IH. rewrite E, E' in Hf.
    rewrite !length_app in Hf. cbn in Hf. rewrite length_app in Hf. cbn in Hf. lia.
Qed.

(** ** Matching *)

Lemma decoded_is_plain c r v :
  0 <= c < 256 -> (forall w, r = Some w -> plain w) -> decoded c r = Some v -> plain v.
Proof.
  unfold decoded. intros Hc Hr H. destruct (is_control c) eqn:Ec; [done|].
  destruct r as [r'|]; [|done]. injection H as <-. constructor; [|by apply Hr].
  by rewrite uc_chr_small.
Qed.

Lemma hex_nibble_range c : hex_nibble c < 16.
Proof.
  enough ((hex_nibble c <? 16) = true) by by apply Z.ltb_lt. by_bytes.
Qed.

Lemma nibbles_range h l : 0 <= h < 16 -> 0 <= l < 16 -> 0 <= Z.lor (Z.shiftl h 4) l < 256.
Proof.
  intros Hh Hl. rewrite lor_shiftl by lia. lia.
Qed.

Lemma decode_plain s v : decode_parameter s = Some v -> plain v.
Proof.
  remember (length s) as n eqn:Hn. revert s v Hn.
  induction n as [n IH] using (well_founded_induction lt_wf). intros [|c s] v Hn H.
  { injection H as <-. constructor. }
  cbn [decode_parameter] in H. cbn in Hn. destruct (c =b? "%").
  - destruct s as [|h [|l s]]; try done. cbn in Hn.
    destruct (_ || _) eqn:E; [done|]. reflect_bools. revert H. apply decoded_is_plain.
    + pose proof (hex_nibble_range h). pose proof (hex_nibble_range l).
      by apply nibbles_range.
    + intros w. apply (IH (length s)); lia.
  - revert H. apply decoded_is_plain; [apply uc_range|]. intros w. apply (IH (length s)); lia.
Qed.

(** Every parameter a match binds comes from a placeholder of the route, holds no
    control character and satisfies the route's constraint for it. *)
Definition acceptable (cs : gmap bytes regex) (segments : list bytes) (n v : bytes) : Prop :=
  (exists s, s ∈ segments /\ parameter_name s = Some n) /\ plain v /\
  forall re, cs !! n = Some re -> re v = true.

Lemma match_segments_bound cs expected found acc ps :
  match_segments cs expected found acc = Some ps ->
  length expected = length found /\
  forall n v, ps !! n = Some v -> acceptable cs expected n v \/ acc !! n = Some v.
Proof.
  revert found acc. induction expected as [|segment expected IH]; intros [|actual found] acc H;
    cbn [match_segments] in H; try done.
  { injection H as <-. by auto. }
  assert (forall n v, acceptable cs expected n v -> acceptable cs (segment :: expected) n v)
    as Hweak by (intros n v ((s & ? & ?) & ?); split; [exists s; split; [by right|]|]; done).
  destruct (parameter_name segment) as [name|] eqn:Hseg.
  - destruct name as [|c name]; [done|].
    destruct (decode_parameter actual) as [value|] eqn:Hd; [|done].
    destruct (negb _) eqn:Ha in H; [done|]. apply negb_false_iff in Ha. apply IH in H as [Hlen H].
    split; [cbn; lia|]. intros n v Hv. destruct (H n v Hv) as [|Hins]; [by left; auto|].
    apply lookup_insert_Some in Hins as [[<- <-]|[]]; [|by right].
    left. split; [exists segment; split; [by left|done]|]. split; [by eapply decode_plain|].
    intros re Hre. by rewrite Hre in Ha.
  - case_bool_decide; [|done]. apply IH in H as [Hlen H]. split; [cbn; lia|].
    intros n v Hv. destruct (H n v Hv); [left; auto|by right].
Qed.

(** ** Route selection *)

Section Selection.
Context {Response X : Type}.
Implicit Types (r : @Router Response X) (e : @RouteEntry Response X).
Implicit Types (rs : list (@RouteEntry Response X)).

(** Route [e] answers requests with this method and path, binding [ps]. *)
Definition answers e (m : Method) (path : bytes) (ps : gmap bytes bytes) : Prop :=
  r_method e = m /\ match_route e path = Some ps.

Lemma answers_dec e m path : {ps | answers e m path ps} + {forall ps, ~ answers e m path ps}.
Proof.
  unfold answers. destruct (decide (r_method e = m)); [|by right; intros ? []].
  destruct (match_route e path) as [ps|] eqn:E; [left; by exists ps|right; by intros ? []].
Defined.

Lemma select_cons_yes e rs m path ps :
  answers e m path ps -> select (e :: rs) m path = Some (e, ps).
Proof. intros [Hm Hp]. cbn. by rewrite bool_decide_true, Hp. Qed.

Lemma select_cons_no e rs m path :
  (forall ps, ~ answers e m path ps) -> select (e :: rs) m path = select rs m path.
Proof.
  intros H. cbn. case_bool_decide; [|done].
  destruct (match_route e path) as [ps|] eqn:E; [|done]. by destruct (H ps).
Qed.

Lemma select_spec rs m path e ps :
  select rs m path = Some (e, ps) <->
  exists before after, rs = before ++ e :: after /\ answers e m path ps /\
    Forall (fun e' => forall ps', ~ answers e' m path ps') before.
Proof.
  induction rs as [|e0 rs IH].
  { split; [done|]. by intros ([]&?&?&?). }
  destruct (answers_dec e0 m path) as [[ps0 Hyes]|Hno].
  - rewrite (select_cons_yes _ _ _ _ ps0) by done. split.
    + intros [= <- <-]. by exists [], rs.
    + intros ([|e1 before] & after & [= <- ->] & Ha & Hb).
      * destruct Hyes as [? H1], Ha as [? H2]. congruence.
      * apply Forall_cons in Hb as [Hb _]. by destruct (Hb ps0).
  - rewrite select_cons_no, IH by done. split.
    + intros (before & after & -> & Ha & Hb). exists (e0 :: before), after.
      split; [done|]. split; [done|]. by constructor.
    + intros ([|e1 before] & after & [= <- ->] & Ha & Hb); [by destruct (Hno ps)|].
      apply Forall_cons in Hb as [_ Hb]. by exists before, after.
Qed.

Lemma select_none rs m path :
  select rs m path = None <-> Forall (fun e => forall ps, ~ answers e m path ps) rs.
Proof.
  induction rs as [|e rs IH]; [by split|].
  destruct (answers_dec e m path) as [[ps Hyes]|Hno].
  - rewrite (select_cons_yes _ _ _ _ ps) by done. split; [done|].
    intros [H _]%Forall_cons. by destruct (H ps).
  - rewrite select_cons_no, IH, Forall_cons by done. naive_solver.
Qed.

Lemma pipeline_app (a b : list (@Middleware Response X)) t :
  pipeline (a ++ b) t = pipeline a (pipeline b t).
Proof. induction a as [|m a IH]; cbn; [done|]. by rewrite IH. Qed.

(** What the [try]/[catch] of [dispatch] makes of an outcome. *)
Definition rendered r (o : result Response * @Request X) : result Response :=
  match o with
  | (Ok response, _) => Ok response
  | (Throw e, request) => Ok (render r request e)
  | (NoFuel, _) => NoFuel
  end.
End Selection.

(** ** Route names

    Non-empty names stay distinct whatever is called on the router, so that a
    name identifies one route. *)
Section Names.
Context {Response X : Type}.
Implicit Types (r : @Router Response X) (e : @RouteEntry Response X).
Implicit Types (m : @Middleware Response X) (h : @Handler Response X).

Definition route_names r : list bytes := r_name <$> routes r.

Definition distinct_names (ns : list bytes) : Prop :=
  forall i j n, ns !! i = Some n -> ns !! j = Some n -> n <> [] -> i = j.

(** Every call that changes the router; a call that throws leaves what the model's
    second component says. *)
Inductive step : relation (@Router Response X) :=
| step_add method path h r : step r (add method path h r).1
| step_use m r : step r (use m r)
| step_registry g r : step r (set_registry g r)
| step_fallback h r : step r (set_fallback h r)
| step_middleware i m r r' : add_middleware i m r = Ok r' -> step r r'
| step_alias i a r r' : add_middleware_alias i a r = Ok r' -> step r r'
| step_name i n r r' : set_name i n r = Ok r' -> step r r'
| step_constraint compile i p x r r' : set_constraint compile i p x r = Ok r' -> step r r'
| step_group g method path h r : step r (group_add g method path h r).2.

(** The routers a program can build from a fresh one. *)
Definition fresh (render : @Request X -> exn -> Response) : @Router Response X :=
  mkRouter [] [] None None render.

Definition reachable r : Prop := exists render, rtc step (fresh render) r.

Definition same_names r r' : Prop := route_names r' = route_names r.

Lemma same_names_refl r : same_names r r.
Proof. done. Qed.

Lemma same_names_trans r1 r2 r3 : same_names r1 r2 -> same_names r2 r3 -> same_names r1 r3.
Proof. unfold same_names. congruence. Qed.

Lemma update_route_inv i f r r' :
  update_route i f r = Ok r' ->
  exists e, routes r !! i = Some e /\ r' = with_routes (<[i := f e]> (routes r)) r.
Proof. unfold update_route. destruct (routes r !! i) as [e|]; [|done]. intros [= <-]. eauto. Qed.

Lemma update_route_names i f r r' :
  (forall e, r_name (f e) = r_name e) -> update_route i f r = Ok r' -> same_names r r'.
Proof.
  intros Hf (e & He & ->)%update_route_inv. unfold same_names, route_names. cbn.
  rewrite list_fmap_insert, Hf. apply list_insert_id. by rewrite list_lookup_fmap, He.
Qed.

Lemma add_middleware_names i m r r' : add_middleware i m r = Ok r' -> same_names r r'.
Proof. by apply update_route_names. Qed.

Lemma add_alias_names i a r r' : add_middleware_alias i a r = Ok r' -> same_names r r'.
Proof.
  unfold add_middleware_alias. destruct (middleware_registry r) as [g|]; [|done].
  intros (m & _ & H)%bind_Ok. by eapply add_middleware_names.
Qed.

Lemma set_constraint_names compile i p x r r' :
  set_constraint compile i p x r = Ok r' -> same_names r r'.
Proof.
  unfold set_constraint. destruct (routes r !! i); [|done]. destruct (compile x); [|done].
  by apply update_route_names.
Qed.

Lemma attempt_names call r :
  (forall r', call r = Ok r' -> same_names r r') -> same_names r (attempt call r).2.
Proof. unfold attempt. intros H. destruct (call r); cbn; eauto using same_names_refl. Qed.

Lemma each_names {A} (call : A -> @Router Response X -> result unit * Router) xs r :
  (forall x r, same_names r (call x r).2) -> same_names r (each call xs r).2.
Proof.
  intros H. revert r. induction xs as [|x xs IH]; intros r; cbn; [apply same_names_refl|].
  specialize (H x r). destruct (call x r) as [[] r']; cbn in *; try done.
  by eapply same_names_trans.
Qed.

Lemma each_middleware_names i ms r :
  same_names r (each (fun m => attempt (add_middleware i m)) ms r).2.
Proof. apply each_names. intros m r'. apply attempt_names. apply add_middleware_names. Qed.

Lemma apply_group_names g i r : same_names r (apply_group g i r).2.
Proof.
  unfold apply_group. pose proof (each_middleware_names i (g_middleware g) r) as H1.
  destruct (each _ (g_middleware g) r) as [[] r1]; cbn in *; try done.
  assert (same_names r1 (each (fun a => attempt (add_middleware_alias i a)) (g_aliases g) r1).2)
    as H2 by (apply each_names; intros; apply attempt_names; apply add_alias_names).
  destruct (each _ (g_aliases g) r1) as [[] r2]; cbn in *; try by eapply same_names_trans.
  eapply same_names_trans; [done|]. eapply same_names_trans; [done|].
  apply each_names. intros name r3. unfold add_group.
  destruct (middleware_registry r3) as [reg|]; [|done].
  destruct (resolve_group reg name); [|done|done]. apply each_middleware_names.
Qed.

Lemma group_add_names g method path h r :
  route_names (group_add g method path h r).2 = route_names r ++ [[]].
Proof.
  unfold group_add. cbn [add].
  pose proof (apply_group_names g (length (routes r))
                (add method (join (g_prefix g) path) h r).1) as H.
  cbn [add fst] in H. destruct (apply_group _ _ _) as [[] r2]; cbn in *; rewrite H;
    unfold route_names; cbn; by rewrite fmap_app.
Qed.

Lemma distinct_snoc_nil ns : distinct_names ns -> distinct_names (ns ++ [[]]).
Proof.
  intros H i j n Hi Hj Hn.
  apply lookup_app_Some in Hi as [Hi|[_ Hi]]; apply lookup_app_Some in Hj as [Hj|[_ Hj]].
  - by eapply H.
  - apply list_lookup_singleton_Some in Hj as [_ <-]. done.
  - apply list_lookup_singleton_Some in Hi as [_ <-]. done.
  - apply list_lookup_singleton_Some in Hi as [_ <-]. done.
Qed.

Lemma name_taken_false i n (rs : list (@RouteEntry Response X)) :
  n <> [] -> name_taken i n rs = false ->
  forall j, (r_name <$> rs) !! j = Some n -> j = i.
Proof.
  intros Hn. unfold name_taken. rewrite bool_decide_false by done. cbn [negb andb].
  intros H j Hj. apply list_lookup_fmap_Some in Hj as (e & -> & He).
  destruct (decide (j = i)) as [|Hne]; [done|]. exfalso.
  apply not_true_iff_false in H. apply H. apply existsb_exists. exists (j, e). split.
  - apply list_elem_of_In, (list_elem_of_lookup_2 _ j). rewrite list_lookup_imap, He. done.
  - rewrite bool_decide_true by done. apply Nat.eqb_neq in Hne. by rewrite Hne.
Qed.

Lemma set_name_inv i n r r' :
  set_name i n r = Ok r' ->
  name_taken i n (routes r) = false /\ (i < length (routes r))%nat /\
  route_names r' = <[i := n]> (route_names r).
Proof.
  unfold set_name. destruct (routes r !! i) as [e|] eqn:He; [|done].
  destruct (name_taken i n (routes r)) eqn:Ht; [done|].
  intros (e' & He' & ->)%update_route_inv. split; [done|]. split; [by eapply lookup_lt_Some|].
  unfold route_names. cbn. by rewrite list_fmap_insert.
Qed.

Lemma set_name_distinct i n r r' :
  distinct_names (route_names r) -> set_name i n r = Ok r' -> distinct_names (route_names r').
Proof.
  intros H (Ht & Hlt & ->)%set_name_inv a b x Ha Hb Hx.
  apply list_lookup_insert_Some in Ha as [(<- & <- & _)|[Hia Ha]];
    apply list_lookup_insert_Some in Hb as [(Hib & Hnb & _)|[Hib Hb]]; subst; try done.
  - symmetry. by eapply (name_taken_false i).
  - by eapply (name_taken_false b).
  - by eapply H.
Qed.

Lemma step_distinct r r' :
  step r r' -> distinct_names (route_names r) -> distinct_names (route_names r').
Proof.
  destruct 1 as [method path h r|m r|g r|h r|i m r r' E|i a r r' E|i n r r' E|c i p x r r' E|
                 g method path h r]; intros H; try done.
  - unfold route_names. cbn. rewrite fmap_app. by apply distinct_snoc_nil.
  - by rewrite (add_middleware_names _ _ _ _ E).
  - by rewrite (add_alias_names _ _ _ _ E).
  - by eapply set_name_distinct.
  - by rewrite (set_constraint_names _ _ _ _ _ _ E).
  - rewrite group_add_names. by apply distinct_snoc_nil.
Qed.

Lemma reachable_distinct r : reachable r -> distinct_names (route_names r).
Proof.
  intros [render H]. remember (fresh render) as r0 eqn:E.
  assert (distinct_names (route_names r0)) as H0 by (subst; by intros i j n ?).
  clear E. induction H as [|? ? ? Hs _ IH]; [done|]. eauto using step_distinct.
Qed.

Lemma find_named_distinct rs i n e :
  distinct_names (r_name <$> rs) -> rs !! i = Some e -> r_name e = n -> n <> [] ->
  find_named n rs = Some e.
Proof.
  revert i. induction rs as [|e0 rs IH]; intros i Hd He Hn Hne; [done|]. cbn.
  case_bool_decide as E.
  - assert (i = 0)%nat as ->; [|by injection He].
    apply (Hd i 0%nat n); [|by cbn; rewrite E|done]. by rewrite list_lookup_fmap, He, <-Hn.
  - destruct i as [|i]; [by injection He as ->|]. apply (IH i); [|done..].
    intros a b x Ha Hb Hx. specialize (Hd (S a) (S b) x Ha Hb Hx). lia.
Qed.
End Names.

(** ** Middleware groups: a stable sort by priority *)

Section StableSort.
Context (key : bytes -> nat).

Lemma insert_by_perm x l : insert_by key x l ≡ₚ x :: l.
Proof.
  induction l as [|y l IH]; cbn; [done|]. case_match; [done|]. rewrite IH. constructor.
Qed.

Lemma stable_sort_perm l : stable_sort key l ≡ₚ l.
Proof. induction l as [|x l IH]; cbn; [done|]. by rewrite insert_by_perm, IH. Qed.

Definition ordered : list bytes -> Prop := StronglySorted (fun x y => (key x <= key y)%nat).

Lemma insert_by_ordered x l : ordered l -> ordered (insert_by key x l).
Proof.
  unfold ordered. induction 1 as [|y l Hl IH Hy]; cbn; [by repeat constructor|].
  destruct (Nat.leb_spec (key x) (key y)).
  - constructor; [by constructor|]. constructor; [done|].
    eapply Forall_impl; [exact Hy|]. cbn. intros; lia.
  - constructor; [done|]. rewrite insert_by_perm. constructor; [lia|done].
Qed.

Lemma stable_sort_ordered l : ordered (stable_sort key l).
Proof. induction l as [|x l IH]; cbn; [constructor|]. by apply insert_by_ordered. Qed.

(** Names of equal rank keep their order. *)
Definition of_rank (k : nat) (l : list bytes) : list bytes := filter (fun x => key x = k) l.

Lemma insert_by_stable k x l : ordered l -> of_rank k (insert_by key x l) = of_rank k (x :: l).
Proof.
  unfold of_rank. induction 1 as [|y l Hl IH Hy]; cbn [insert_by]; [done|].
  destruct (Nat.leb_spec (key x) (key y)) as [|Hlt]; [done|].
  rewrite (filter_cons _ y), IH, !filter_cons.
  repeat case_decide; try done; lia.
Qed.

Lemma stable_sort_stable k l : of_rank k (stable_sort key l) = of_rank k l.
Proof.
  induction l as [|x l IH]; [done|]. cbn [stable_sort foldr]. fold (stable_sort key l).
  rewrite insert_by_stable by apply stable_sort_ordered. unfold of_rank in *.
  rewrite !filter_cons. by rewrite IH.
Qed.
End StableSort.

Lemma resolve_all_spec {Response X} (g : @MiddlewareRegistry Response X) names ms :
  resolve_all g names = Ok ms <-> Forall2 (fun n m => aliases_ g !! n = Some m) names ms.
Proof.
  revert ms. induction names as [|n names IH]; intros ms; cbn.
  { split; [intros [= <-]; constructor|]. by inversion 1. }
  unfold resolve. split.
  - intros (m & Hm & (ms' & Hms & [= <-])%bind_Ok)%bind_Ok. constructor; [|by apply IH].
    destruct (aliases_ g !! n); [|done]. by injection Hm as ->.
  - inversion 1 as [|? m ? ms' Hm Hms]; subst. rewrite Hm. cbn. apply IH in Hms. by rewrite Hms.
Qed.

(** [priority] on a list without duplicates: ranks are positions, and an alias
    that is not listed ranks after every listed one. *)
Section Priority.
Context {Response X : Type} (g : @MiddlewareRegistry Response X).

Lemma priority_snoc l a :
  priority_ (registry_priority (l ++ [a]) g) = <[a := length l]> (priority_ (registry_priority l g)).
Proof.
  unfold registry_priority. cbn. rewrite imap_app, foldl_app. cbn. by rewrite Nat.add_0_r.
Qed.

Lemma priority_lookup l :
  NoDup l ->
  size (priority_ (registry_priority l g)) = length l /\
  forall a i, priority_ (registry_priority l g) !! a = Some i <-> l !! i = Some a.
Proof.
  induction l as [|a l IH] using rev_ind; intros Hl.
  { split; [apply map_size_empty|]. intros a i. unfold registry_priority. cbn. by rewrite lookup_empty. }
  apply NoDup_app in Hl as (Hl & Ha & _). destruct (IH Hl) as [Hsize Hlook].
  specialize (Ha a). rewrite list_elem_of_singleton in Ha.
  assert (priority_ (registry_priority l g) !! a = None) as Hnone.
  { destruct (_ !! a) as [i|] eqn:E; [|done]. apply Hlook in E.
    by destruct Ha; [eapply list_elem_of_lookup_2|]. }
  rewrite priority_snoc. split.
  { rewrite map_size_insert_None, Hsize, length_app by done. cbn. lia. }
  intros b i. rewrite lookup_insert_Some, Hlook, lookup_app_Some, list_lookup_singleton_Some.
  split.
  - intros [[-> <-]|[_ H]]; [right; split; [done|]; split; [lia|done]|by left].
  - intros [H|(Hle & Hi & ->)]; [|left; split; [done|lia]].
    right. split; [|done]. intros ->. apply Hlook in H. congruence.
Qed.
End Priority.

(** ** Properties *)

Section Examples.
(** [/users/{id}/files/{name}], named [user.file], with a constraint on [id]. *)
Definition digits_only : regex := forallb is_digit.

Definition example_handler : @Handler bytes unit :=
  fun request => (Ok (default [] (req_parameters request !! lit "name")), request).

Definition example_pieces : list piece :=
  [Literal (lit "users"); Placeholder (lit "id"); Literal (lit "files"); Placeholder (lit "name")].

Definition health_route : @RouteEntry bytes unit :=
  mkRoute get (lit "/health") example_handler [] [] ∅.

Definition example_route : @RouteEntry bytes unit :=
  mkRoute get (template_path example_pieces 0) example_handler [] (lit "user.file")
    (<[lit "id" := digits_only]> ∅).

Definition example_router : @Router bytes unit :=
  with_routes [health_route; example_route] (fresh (fun _ _ => lit "error")).

Definition example_params : gmap bytes bytes :=
  list_to_map [(lit "id", lit "42"); (lit "name", lit "a b/c.txt"); (lit "other", lit "x")].

Lemma example_routes : routes example_router !! 1%nat = Some example_route.
Proof. reflexivity. Defined.

Lemma example_reachable : reachable example_router.
Proof.
  exists (fun _ _ => lit "error").
  eapply rtc_l; [apply (step_add get (lit "/health") example_handler)|].
  eapply rtc_l; [apply (step_add get (template_path example_pieces 0) example_handler)|].
  eapply rtc_l; [eapply (step_constraint (fun _ => Some digits_only) 1 (lit "id") (lit "[0-9]+"));
                 reflexivity|].
  apply rtc_once, (step_name 1 (lit "user.file")). reflexivity.
Defined.

Lemma example_bindable :
  Forall (bindable (r_constraints example_route) example_params) (placeholders example_pieces).
Proof.
  constructor; [|constructor; [|constructor]].
  - exists (lit "42"). split; [by_decide|]. split; [done|].
    split; [repeat constructor|]. intros re. vm_compute. by intros [= <-].
  - exists (lit "a b/c.txt"). split; [by_decide|]. split; [done|].
    split; [repeat constructor|]. intros re. vm_compute. done.
Defined.

Lemma example_pieces_ok : Forall piece_ok example_pieces.
Proof.
  assert (forall c (s : bytes), bool_decide (c ∉ s) = true -> c ∉ s) as Hno
    by (intros c s; apply bool_decide_eq_true_1).
  unfold example_pieces. repeat (apply Forall_cons_2; [|]); [..|apply Forall_nil_2];
    repeat split; try done; apply Hno; vm_compute; reflexivity.
Defined.
End Examples.

(** C23. A URL built by name leads back to its route: in a router built by its own
    operations, [url] of a route's name succeeds for parameters that are present,
    not empty, free of control characters and accepted by the constraints, and
    matching that URL against the route binds exactly the placeholders to the
    original, decoded values. *)
Theorem named_url_matches {Response X} (r : @Router Response X) (i : nat) route t k params :
  reachable r -> routes r !! i = Some route -> r_name route <> [] ->
  r_path route = template_path t k -> Forall piece_ok t ->
  Forall (bindable (r_constraints route) params) (placeholders t) ->
  exists u, url (r_name route) params r = Ok u /\
            match_route route u = Some (only (placeholders t) params).
Proof.
  intros Hr Hi Hn Hp Ht Hb. exists (rooted (piece_value params <$> t) ++ slashes k). split.
  - unfold url. rewrite (find_named_distinct _ i _ route), Hp by
      first [done | by apply reachable_distinct].
    pose proof (template_length t k).
    apply (url_loop_template (r_constraints route) params t k []); [done..| |lia].
    apply not_elem_of_nil.
  - unfold match_route. rewrite Hp. unfold template_path.
    rewrite !split_rooted by first [by apply texts_ok | by eapply values_ok].
    rewrite !length_fmap, Nat.eqb_refl, match_segments_template by done.
    by rewrite map_union_empty.
Qed.

Lemma named_url_matches_witness :
  exists u, url (lit "user.file") example_params example_router = Ok u /\
            match_route example_route u =
            Some (only [lit "id"; lit "name"] example_params).
Proof.
  apply (named_url_matches example_router 1 example_route example_pieces 0 example_params).
  - exact example_reachable.
  - exact example_routes.
  - done.
  - reflexivity.
  - exact example_pieces_ok.
  - exact example_bindable.
Defined.

(** A non-empty route name identifies one route in every router its
    operations can build, failed group registrations included: [url] by that name
    fills in that route's path. *)
Theorem route_names_unique {Response X} (r : @Router Response X) (i : nat) route params :
  reachable r -> routes r !! i = Some route -> r_name route <> [] ->
  (forall j other, routes r !! j = Some other -> r_name other = r_name route -> j = i) /\
  url (r_name route) params r = route_url (r_path route) params.
Proof.
  intros Hr Hi Hn. pose proof (reachable_distinct r Hr) as Hd. split.
  - intros j other Hj Heq. apply (Hd j i (r_name route)); [| |done];
      unfold route_names; rewrite list_lookup_fmap, ?Hj, ?Hi; cbn; by rewrite ?Heq.
  - unfold url. by rewrite (find_named_distinct _ i _ route).
Qed.

Lemma route_names_unique_witness :
  (forall j other, routes example_router !! j = Some other ->
                   r_name other = lit "user.file" -> j = 1%nat) /\
  url (lit "user.file") example_params example_router =
  route_url (r_path example_route) example_params.
Proof.
  apply (route_names_unique example_router 1 example_route example_params).
  - exact example_reachable.
  - exact example_routes.
  - done.
Defined.

(** Dispatch takes the first registered route whose method and path match,
    runs the global middleware around that route's own middleware around its
    handler, on the request that carries the matched parameters, and renders what
    they throw. *)
Theorem dispatch_first_match {Response X} (r : @Router Response X) request before e after ps :
  routes r = before ++ e :: after ->
  answers e (req_method request) (req_path request) ps ->
  Forall (fun e' => forall ps', ~ answers e' (req_method request) (req_path request) ps') before ->
  dispatch r request =
  rendered r (pipeline (middleware r) (pipeline (r_middleware e) (r_handler e))
                (with_parameters ps request)).
Proof.
  intros Hr Ha Hb. unfold dispatch.
  replace (select _ _ _) with (Some (e, ps)) by (symmetry; apply select_spec; eauto).
  by rewrite pipeline_app.
Qed.

Lemma dispatch_first_match_witness :
  dispatch example_router (mkRequest get (lit "/users/42/files/a%20b") ∅ tt) = Ok (lit "a b").
Proof.
  rewrite (dispatch_first_match example_router _
             [health_route] example_route []
             (list_to_map [(lit "id", lit "42"); (lit "name", lit "a b")])).
  - reflexivity.
  - reflexivity.
  - split; [reflexivity|]. by_decide.
  - constructor; [|constructor]. intros ps [_ H].
    assert (match_route health_route (lit "/users/42/files/a%20b") = None) as E by by_decide.
    cbn [req_path] in H. by rewrite E in H.
Defined.

(** When no route matches, dispatch runs the global middleware around the
    fallback, or around a handler that raises 404, with no route parameters. *)
Theorem dispatch_no_match {Response X} (r : @Router Response X) request :
  Forall (fun e => forall ps, ~ answers e (req_method request) (req_path request) ps) (routes r) ->
  dispatch r request =
  rendered r (pipeline (middleware r) (default not_found (fallback r))
                (with_parameters ∅ request)).
Proof. intros H. unfold dispatch. by apply select_none in H as ->. Qed.

Lemma dispatch_no_match_witness :
  dispatch example_router (mkRequest post (lit "/health") ∅ tt) = Ok (lit "error").
Proof.
  rewrite (dispatch_no_match example_router).
  - reflexivity.
  - repeat constructor; by intros ps [H _].
Defined.

(** Whatever a request's path holds, each parameter a match binds belongs to a
    placeholder of the route, has no control character (not even a percent-encoded
    one) and satisfies the route's constraint. *)
Theorem match_parameters_safe {Response X} (route : @RouteEntry Response X) path ps n v :
  match_route route path = Some ps -> ps !! n = Some v ->
  acceptable (r_constraints route) (split (r_path route)) n v.
Proof.
  unfold match_route. destruct (_ =? _)%nat; [|done]. intros H Hv.
  apply match_segments_bound in H as [_ H]. destruct (H n v Hv) as [|E]; [done|].
  by rewrite lookup_empty in E.
Qed.

Lemma match_parameters_safe_witness :
  acceptable (r_constraints example_route) (split (r_path example_route))
    (lit "name") (lit "a/b").
Proof.
  apply (match_parameters_safe example_route (lit "/users/7//files/a%2fb/")
           (list_to_map [(lit "id", lit "7"); (lit "name", lit "a/b")])); by_decide.
Defined.

(** A middleware group resolves to the handlers of its aliases, ordered by
    priority rank and, within a rank, in the order the group lists them. *)
Theorem resolve_group_sorted {Response X} (g : @MiddlewareRegistry Response X) name names ms :
  groups_ g !! name = Some names -> resolve_group g name = Ok ms ->
  exists sorted, sorted ≡ₚ names /\ ordered (rank g) sorted /\
    (forall k, of_rank (rank g) k sorted = of_rank (rank g) k names) /\
    Forall2 (fun n m => aliases_ g !! n = Some m) sorted ms.
Proof.
  intros Hg H. unfold resolve_group in H. rewrite Hg in H.
  exists (stable_sort (rank g) names). split; [apply stable_sort_perm|].
  split; [apply stable_sort_ordered|]. split; [intros k; apply stable_sort_stable|].
  by apply resolve_all_spec.
Qed.

(** The priority list ranks aliases by position: without duplicates, a listed
    alias ranks at its index, and an alias that is not listed ranks after all the
    listed ones. *)
Theorem priority_ranks {Response X} (g : @MiddlewareRegistry Response X) l a :
  NoDup l ->
  (forall i, l !! i = Some a -> rank (registry_priority l g) a = i) /\
  (a ∉ l -> rank (registry_priority l g) a = length l).
Proof.
  intros Hl. destruct (priority_lookup g l Hl) as [Hsize Hlook]. unfold rank. split.
  - intros i Hi. apply Hlook in Hi. by rewrite Hi.
  - intros Ha. destruct (priority_ _ !! a) as [i|] eqn:E; [|done].
    apply Hlook, list_elem_of_lookup_2 in E. done.
Qed.

Lemma priority_ranks_witness :
  (forall i, [lit "auth"; lit "log"] !! i = Some (lit "log") ->
     rank (registry_priority [lit "auth"; lit "log"]
             (mkRegistry ∅ ∅ ∅ : @MiddlewareRegistry bytes unit)) (lit "log") = i) /\
  ((lit "log") ∉ [lit "auth"; lit "log"] ->
     rank (registry_priority [lit "auth"; lit "log"]
             (mkRegistry ∅ ∅ ∅ : @MiddlewareRegistry bytes unit)) (lit "log") = 2%nat).
Proof.
  apply (priority_ranks (mkRegistry ∅ ∅ ∅ : @MiddlewareRegistry bytes unit)
           [lit "auth"; lit "log"] (lit "log")).
  by_decide.
Defined.

(** With a duplicate in the list this fails: an alias that is not listed comes
    before one that is. *)
Example priority_duplicates :
  let g := registry_priority [lit "a"; lit "a"; lit "a"; lit "b"]
             (mkRegistry ∅ ∅ ∅ : @MiddlewareRegistry bytes unit) in
  (rank g (lit "other") < rank g (lit "b"))%nat.
Proof. by_decide. Qed.

(** [url] always answers: it returns a URL, or raises [std::invalid_argument]
    for a malformed template or a missing or unusable parameter, or
    [std::out_of_range] exactly when no route has the name. *)
Theorem url_total {Response X} (r : @Router Response X) name params :
  match url name params r with
  | Ok _ | Throw (invalid_argument _) => has name r = true
  | Throw (out_of_range _) => has name r = false
  | _ => False
  end.
Proof.
  unfold url, has. induction (routes r) as [|e rs IH]; [done|]. cbn [find_named existsb].
  case_bool_decide; [|done]. cbn [orb]. unfold route_url.
  pose proof (url_loop_raises (S (length (r_path e))) (r_path e) params ltac:(lia)) as H'.
  by destruct (url_loop _ _ _) as [|[]|].
Qed.

Section RegistryExample.
Definition example_middleware (tag : byte) : @Middleware bytes unit :=
  fun request next =>
    match next request with
    | (Ok body, request') => (Ok (tag :: body), request')
    | failed => failed
    end.

Definition example_registry : @MiddlewareRegistry bytes unit :=
  registry_priority [lit "auth"; lit "log"]
    (mkRegistry
       (list_to_map [(lit "log", example_middleware "l"); (lit "csrf", example_middleware "c");
                     (lit "auth", example_middleware "a")])
       {[lit "web" := [lit "csrf"; lit "log"; lit "auth"]]} ∅).
End RegistryExample.

Lemma resolve_group_sorted_witness :
  exists sorted, sorted ≡ₚ [lit "csrf"; lit "log"; lit "auth"] /\
    ordered (rank example_registry) sorted /\
    (forall k, of_rank (rank example_registry) k sorted =
               of_rank (rank example_registry) k [lit "csrf"; lit "log"; lit "auth"]) /\
    Forall2 (fun n m => aliases_ example_registry !! n = Some m) sorted
      [example_middleware "a"; example_middleware "l"; example_middleware "c"].
Proof.
  apply (resolve_group_sorted example_registry (lit "web")).
  - vm_compute. reflexivity.
  - vm_compute. reflexivity.
Defined.
