(* ===== verification/WebSocket.v ===== *)
(** * The WebSocket wire format ([src/http/websocket.cpp])

    Handshake (base64, SHA-1, header tokens), frame parser and serialiser, UTF-8
    and close-code checks.  [std::uint8_t], [std::uint32_t] and [std::uint64_t]
    values are integers with the wrap-around written out; buffers are lists of
    bytes. *)

From S2P Require Import Prelude Http.

(** ** Header tokens *)

Fixpoint iequals (left right : bytes) : bool :=
  match left, right with
  | [], [] => true
  | a :: left', b :: right' => (ascii_lower a =b? ascii_lower b) && iequals left' right'
  | _, _ => false
  end.

Definition token_contains (values expected : bytes) : bool :=
  existsb (fun token => iequals (trim token) expected) (fields "," values).

Definition protocol_offered (offered selected : bytes) : bool :=
  match selected with
  | [] => true
  | _ => existsb (fun token => bool_decide (trim token = selected)) (fields "," offered)
  end.

(** ** Base64 *)

Definition base64_value (value : byte) : Z :=
  if between "A" "Z" value then uc value - 65
  else if between "a" "z" value then uc value - 97 + 26
  else if between "0" "9" value then uc value - 48 + 52
  else if value =b? "+" then 62
  else if value =b? "/" then 63
  else -1.

(** The inner loop of [base64_decode] over one group of four: the values, and the
    number of padding characters; [last] is [offset + 4 == input.size()]. *)
Fixpoint base64_group (last : bool) (index : Z) (padding : Z) (chars : bytes)
    : option (list Z * Z) :=
  match chars with
  | [] => Some ([], padding)
  | character :: chars' =>
      if character =b? "=" then
        if negb last || (index <? 2) then None
        else '(vs, p) ← base64_group last (index + 1) (padding + 1) chars'; Some (0 :: vs, p)
      else if negb (padding =? 0) then None
      else
        let v := base64_value character in
        if v <? 0 then None
        else '(vs, p) ← base64_group last (index + 1) padding chars'; Some (v :: vs, p)
  end.

(** The bytes of one decoded group. *)
Definition group_bytes (values : list Z) (padding : Z) : bytes :=
  match values with
  | [v0; v1; v2; v3] =>
      let bits := Z.lor (Z.lor (Z.lor (u32 (Z.shiftl v0 18)) (u32 (Z.shiftl v1 12)))
                               (u32 (Z.shiftl v2 6))) v3 in
      chr (Z.land (Z.shiftr bits 16) 255) ::
      (if padding <? 2 then [chr (Z.land (Z.shiftr bits 8) 255)] else []) ++
      (if padding <? 1 then [chr (Z.land bits 255)] else [])
  | _ => []
  end.

Fixpoint base64_loop (input : bytes) : option bytes :=
  match input with
  | a :: b :: c :: d :: input' =>
      let last := match input' with [] => true | _ => false end in
      '(values, padding) ← base64_group last 0 0 [a; b; c; d];
      if padding >? 2 then None
      else rest ← base64_loop input'; Some (group_bytes values padding ++ rest)
  | _ => Some []
  end.

Definition base64_decode (input : bytes) : option bytes :=
  if bool_decide (input = []) || negb (length input mod 4 =? 0)%nat then None
  else base64_loop input.

Definition base64_alphabet : bytes :=
  lit "ABCDEFGHIJKLMNOPQRSTUVWXYZabcdefghijklmnopqrstuvwxyz0123456789+/".

Definition base64_letter (v : Z) : byte := nth (Z.to_nat (Z.land v 63)) base64_alphabet x00.

Definition base64_bits (first second third : byte) : Z :=
  Z.lor (Z.lor (u32 (Z.shiftl (uc first) 16)) (u32 (Z.shiftl (uc second) 8))) (uc third).

(** [base64_encode]; the source's array has twenty elements, the loop works on any
    number of them. *)
Fixpoint base64_encode (input : bytes) : bytes :=
  match input with
  | [] => []
  | [a] =>
      let bits := base64_bits a x00 x00 in
      [base64_letter (Z.shiftr bits 18); base64_letter (Z.shiftr bits 12); "="%byte; "="%byte]
  | [a; b] =>
      let bits := base64_bits a b x00 in
      [base64_letter (Z.shiftr bits 18); base64_letter (Z.shiftr bits 12);
       base64_letter (Z.shiftr bits 6); "="%byte]
  | a :: b :: c :: input' =>
      let bits := base64_bits a b c in
      base64_letter (Z.shiftr bits 18) :: base64_letter (Z.shiftr bits 12) ::
      base64_letter (Z.shiftr bits 6) :: base64_letter bits :: base64_encode input'
  end.

(** ** SHA-1 *)

(** [std::rotl] on 32 bits, for [0 < s < 32]. *)
Definition rotl (x s : Z) : Z := Z.lor (u32 (Z.shiftl x s)) (Z.shiftr x (32 - s)).

(** [while (message.size() % 64 != 56) message.push_back(0)]: at most 63 zeros. *)
Fixpoint pad_loop (fuel : nat) (message : bytes) : bytes :=
  match fuel with
  | O => message
  | S f => if (length message mod 64 =? 56)%nat then message else pad_loop f (message ++ [x00])
  end.

(** The eight bytes of a 64-bit value, most significant first. *)
Definition be64 (v : Z) : bytes :=
  map (fun shift => chr (Z.land (Z.shiftr v shift) 255)) [56; 48; 40; 32; 24; 16; 8; 0].

Definition sha1_pad (input : bytes) : bytes :=
  let bit_length := u64 (Z.of_nat (length input) * 8) in
  pad_loop 64 (input ++ [x80]) ++ be64 bit_length.

(** A big-endian 32-bit word of the block. *)
Definition block_word (message : bytes) (base : nat) : Z :=
  let at_ i := uc (nth (base + i) message x00) in
  Z.lor (Z.lor (Z.lor (u32 (Z.shiftl (at_ 0%nat) 24)) (Z.shiftl (at_ 1%nat) 16))
               (Z.shiftl (at_ 2%nat) 8)) (at_ 3%nat).

(** The words 16 to 79. *)
Fixpoint extend_words (count : nat) (words : list Z) : list Z :=
  match count with
  | O => words
  | S n =>
      let index := length words in
      let w k := nth (index - k) words 0 in
      extend_words n (words ++ [rotl (Z.lxor (Z.lxor (Z.lxor (w 3%nat) (w 8%nat)) (w 14%nat))
                                             (w 16%nat)) 1])
  end.

Definition sha1_words (block : bytes) : list Z :=
  extend_words 64 (map (fun index => block_word block (index * 4)) (seq 0 16)).

Record Sha1State := mkSha1 { h0 : Z; h1 : Z; h2 : Z; h3 : Z; h4 : Z }.

Definition sha1_function (index : nat) (b c d : Z) : Z * Z :=
  if (index <? 20)%nat then
    (Z.lor (Z.land b c) (Z.land (u32 (Z.lnot b)) d), 0x5a827999)
  else if (index <? 40)%nat then (Z.lxor (Z.lxor b c) d, 0x6ed9eba1)
  else if (index <? 60)%nat then
    (Z.lor (Z.lor (Z.land b c) (Z.land b d)) (Z.land c d), 0x8f1bbcdc)
  else (Z.lxor (Z.lxor b c) d, 0xca62c1d6).

Definition sha1_round (words : list Z) (s : Sha1State) (index : nat) : Sha1State :=
  let '(function, constant) := sha1_function index (h1 s) (h2 s) (h3 s) in
  let temporary := u32 (rotl (h0 s) 5 + function + h4 s + constant + nth index words 0) in
  mkSha1 temporary (h0 s) (rotl (h1 s) 30) (h2 s) (h3 s).

Definition sha1_block (s : Sha1State) (block : bytes) : Sha1State :=
  let r := foldl (sha1_round (sha1_words block)) s (seq 0 80) in
  mkSha1 (u32 (h0 s + h0 r)) (u32 (h1 s + h1 r)) (u32 (h2 s + h2 r))
         (u32 (h3 s + h3 r)) (u32 (h4 s + h4 r)).

(** The message in blocks of 64 bytes. *)
Fixpoint blocks (count : nat) (message : bytes) : list bytes :=
  match count with
  | O => []
  | S n => take 64 message :: blocks n (drop 64 message)
  end.

Definition be32 (v : Z) : bytes :=
  map (fun shift => chr (Z.shiftr v shift)) [24; 16; 8; 0].

Definition sha1 (input : bytes) : bytes :=
  let message := sha1_pad input in
  let s := foldl sha1_block
             (mkSha1 0x67452301 0xefcdab89 0x98badcfe 0x10325476 0xc3d2e1f0)
             (blocks (length message / 64) message) in
  [h0 s; h1 s; h2 s; h3 s; h4 s] ≫= be32.

(** ** The handshake *)

Definition websocket_guid : bytes := lit "258EAFA5-E914-47DA-95CA-C5AB0DC85B11".

Definition upgrade_requested (method : Method) (headers : Headers) : bool :=
  bool_decide (method = get) &&
  iequals (trim (header headers (lit "upgrade"))) (lit "websocket") &&
  token_contains (header headers (lit "connection")) (lit "upgrade").

Record WebSocketHandshake := mkHandshake { accept : bytes; protocol : bytes }.

Definition handshake (method : Method) (headers : Headers) (selected_protocol : bytes)
    : option WebSocketHandshake :=
  if negb (upgrade_requested method headers) then None
  else if negb (bool_decide (trim (header headers (lit "sec-websocket-version")) = lit "13"))
  then None
  else
    let key := trim (header headers (lit "sec-websocket-key")) in
    match base64_decode key with
    | None => None
    | Some decoded =>
        if negb (length decoded =? 16)%nat then None
        else if negb (protocol_offered (header headers (lit "sec-websocket-protocol"))
                        selected_protocol)
        then None
        else Some (mkHandshake (base64_encode (sha1 (key ++ websocket_guid))) selected_protocol)
    end.

(** ** Frames *)

Inductive WebSocketOpcode : Type := continuation | text | binary | close | ping | pong.

#[export] Instance WebSocketOpcode_eq_dec : EqDecision WebSocketOpcode.
Proof. solve_decision. Defined.

Definition opcode_number (o : WebSocketOpcode) : Z :=
  match o with
  | continuation => 0 | text => 1 | binary => 2 | close => 8 | ping => 9 | pong => 10
  end.

Definition valid_opcode (value : Z) : bool :=
  (value =? 0) || (value =? 1) || (value =? 2) || (value =? 8) || (value =? 9) || (value =? 10).

(** [static_cast<WebSocketOpcode>], on the values [valid_opcode] lets through. *)
Definition opcode_of (value : Z) : WebSocketOpcode :=
  if value =? 0 then continuation
  else if value =? 1 then text
  else if value =? 2 then binary
  else if value =? 8 then close
  else if value =? 9 then ping
  else pong.

Record Frame := mkFrame {
  final : bool;
  opcode : WebSocketOpcode;
  payload : bytes
}.

Record ParseResult := mkParse { frame : option Frame; consumed : Z }.

(** [return {};]: more bytes are needed. *)
Definition incomplete : ParseResult := mkParse None 0.

Definition byte_at (input : bytes) (i : nat) : Z := uc (nth i input x00).

(** The loop over the eight bytes of a 64-bit length. *)
Definition read_be64 (input : bytes) (cursor : nat) : Z :=
  foldl (fun size value => Z.lor (u64 (Z.shiftl size 8)) value)
    0 ((fun index => byte_at input (cursor + index)) <$> seq 0 8).

(** The payload size and the cursor after it; [None] is an incomplete header. *)
Definition read_size (input : bytes) (size7 : Z) : result (option (Z * nat)) :=
  if size7 =? 126 then
    if (length input <? 4)%nat then Ok None
    else
      let size := Z.lor (Z.shiftl (byte_at input 2) 8) (byte_at input 3) in
      if size <? 126 then Throw (invalid_argument "Non-canonical WebSocket payload length")
      else Ok (Some (size, 4%nat))
  else if size7 =? 127 then
    if (length input <? 10)%nat then Ok None
    else if negb (Z.land (byte_at input 2) 128 =? 0)
    then Throw (invalid_argument "WebSocket payload length exceeds signed 63-bit range")
    else
      let size := read_be64 input 2 in
      if size <=? 65535 then Throw (invalid_argument "Non-canonical WebSocket payload length")
      else Ok (Some (size, 10%nat))
  else Ok (Some (size7, 2%nat)).

(** The unmasking loop. *)
Definition unmask (mask data : bytes) : bytes :=
  imap (fun index b => chr (Z.lxor (uc b) (byte_at mask (index mod 4)))) data.

Definition parse_client_frame (input : bytes) (max_payload_bytes : Z) : result ParseResult :=
  let size := Z.of_nat (length input) in
  if size <? 2 then Ok incomplete
  else
    let first := byte_at input 0 in
    let second := byte_at input 1 in
    if negb (Z.land first 112 =? 0)
    then Throw (invalid_argument "WebSocket RSV bits require a negotiated extension")
    else
    let opcode_value := Z.land first 15 in
    if negb (valid_opcode opcode_value)
    then Throw (invalid_argument "Unsupported WebSocket opcode")
    else
    let final := negb (Z.land first 128 =? 0) in
    let masked := negb (Z.land second 128 =? 0) in
    if negb masked then Throw (invalid_argument "Client WebSocket frames must be masked")
    else
    length_field ← read_size input (Z.land second 127);
    match length_field with
    | None => Ok incomplete
    | Some (payload_size, cursor) =>
        let control := 8 <=? opcode_value in
        if control && (negb final || (payload_size >? 125))
        then Throw (invalid_argument "Invalid fragmented or oversized WebSocket control frame")
        else if payload_size >? max_payload_bytes
        then Throw (length_error "WebSocket frame payload exceeds configured limit")
        else if payload_size >? UINT64_MAX
        then Throw (length_error "WebSocket frame payload exceeds platform size limit")
        else if size <? Z.of_nat cursor + 4 then Ok incomplete
        else
          let mask := take 4 (drop cursor input) in
          let start := (cursor + 4)%nat in
          let stop := u64 (Z.of_nat start + payload_size) in
          if size <? stop then Ok incomplete
          else
            let data := take (Z.to_nat payload_size) (drop start input) in
            Ok (mkParse (Some (mkFrame final (opcode_of opcode_value) (unmask mask data))) stop)
    end.

Definition size_field (size : Z) : bytes :=
  if size <=? 125 then [chr size]
  else if size <=? 65535 then
    [chr 126; chr (Z.land (Z.shiftr size 8) 255); chr (Z.land size 255)]
  else chr 127 :: be64 size.

Definition serialize_server_frame (opcode : WebSocketOpcode) (payload : bytes) (final : bool)
    : result bytes :=
  let opcode_value := opcode_number opcode in
  let size := Z.of_nat (length payload) in
  if negb (valid_opcode opcode_value)
  then Throw (invalid_argument "Unsupported WebSocket opcode")
  else
    let control := 8 <=? opcode_value in
    if control && (negb final || (size >? 125))
    then Throw (invalid_argument "Invalid WebSocket control frame")
    else
      Ok (chr (Z.lor (if final then 128 else 0) opcode_value) :: size_field size ++ payload).

(** ** UTF-8 and close codes *)

(** Length, initial bits and least code point of the sequence a lead byte opens. *)
Definition utf8_lead (first : Z) : option (nat * Z * Z) :=
  if Z.land first 0xe0 =? 0xc0 then Some (2%nat, Z.land first 0x1f, 0x80)
  else if Z.land first 0xf0 =? 0xe0 then Some (3%nat, Z.land first 0x0f, 0x800)
  else if Z.land first 0xf8 =? 0xf0 then Some (4%nat, Z.land first 0x07, 0x10000)
  else None.

(** The loop over the continuation bytes, on a [uint32_t]. *)
Fixpoint utf8_tail (continuations : bytes) (codepoint : Z) : option Z :=
  match continuations with
  | [] => Some codepoint
  | b :: rest =>
      if negb (Z.land (uc b) 0xc0 =? 0x80) then None
      else utf8_tail rest (Z.lor (u32 (Z.shiftl codepoint 6)) (Z.land (uc b) 0x3f))
  end.

Definition utf8_forbidden (codepoint minimum : Z) : bool :=
  (codepoint <? minimum) || (codepoint >? 0x10ffff) ||
  ((0xd800 <=? codepoint) && (codepoint <=? 0xdfff)).

(** One sequence per unit of fuel. *)
Fixpoint utf8_loop (fuel : nat) (value : bytes) : bool :=
  match fuel with
  | O => false
  | S f =>
      match value with
      | [] => true
      | b :: rest =>
          if uc b <=? 0x7f then utf8_loop f rest
          else
            match utf8_lead (uc b) with
            | None => false
            | Some (count, codepoint, minimum) =>
                if (length value <? count)%nat then false
                else
                  match utf8_tail (take (count - 1) rest) codepoint with
                  | None => false
                  | Some codepoint =>
                      if utf8_forbidden codepoint minimum then false
                      else utf8_loop f (drop (count - 1) rest)
                  end
            end
      end
  end.

Definition valid_utf8 (value : bytes) : bool := utf8_loop (S (length value)) value.

Definition valid_close_code (code : Z) : bool :=
  if (3000 <=? code) && (code <=? 4999) then true
  else existsb (Z.eqb code)
         [1000; 1001; 1002; 1003; 1007; 1008; 1009; 1010; 1011; 1012; 1013; 1014].
