(* ===== verification/WebSocketFacts.v ===== *)
(** * The WebSocket wire format: handshake, frames and UTF-8 *)

From Stdlib Require Import ZifyNat.
From S2P Require Import Prelude Http WebSocket.

(** ** Base64 *)

Lemma base64_letter_value v :
  0 <= v < 64 -> base64_value (base64_letter v) = v /\ base64_letter v <> "="%byte.
Proof.
  assert (forallb (fun n => (base64_value (base64_letter (Z.of_nat n)) =? Z.of_nat n) &&
                            negb (base64_letter (Z.of_nat n) =b? "=")) (seq 0 64) = true) as H
    by (vm_compute; reflexivity).
  intros Hv. rewrite forallb_forall in H. specialize (H (Z.to_nat v)).
  rewrite Z2Nat.id in H by lia. rewrite in_seq in H. specialize (H ltac:(lia)).
  reflect_bools. done.
Qed.

Lemma base64_letter_mask v : base64_letter v = base64_letter (v mod 64).
Proof. unfold base64_letter. arith_masks. by rewrite Z.mod_mod. Qed.

Lemma base64_letter_ok v :
  base64_value (base64_letter v) = v mod 64 /\ base64_letter v <> "="%byte.
Proof.
  rewrite base64_letter_mask. apply base64_letter_value. apply Z.mod_pos_bound. lia.
Qed.

(** A letter in a group that has no padding before it. *)
Lemma base64_group_letter last i v chars :
  base64_group last i 0 (base64_letter v :: chars) =
  ('(vs, p) ← base64_group last (i + 1) 0 chars; Some (v mod 64 :: vs, p)).
Proof.
  destruct (base64_letter_ok v) as [Hv Hne]. cbn [base64_group].
  destruct (_ =b? _) eqn:E; reflect_bools; [done|]. rewrite Hv. cbn [Z.eqb negb].
  pose proof (Z.mod_pos_bound v 64). destruct (_ <? _) eqn:E'; [|done]. reflect_bools. lia.
Qed.

Lemma base64_bits_eq a b c : base64_bits a b c = uc a * 65536 + uc b * 256 + uc c.
Proof.
  unfold base64_bits, u32. pose proof (uc_range a). pose proof (uc_range b). pose proof (uc_range c).
  rewrite !Z.shiftl_mul_pow2, !Z.mod_small by lia.
  rewrite (lor_multiple (uc a * 2 ^ 16) (uc a) _ 16) by lia.
  rewrite (lor_multiple _ (uc a * 256 + uc b) _ 8) by lia. lia.
Qed.

Lemma group_bits v0 v1 v2 v3 :
  0 <= v0 < 64 -> 0 <= v1 < 64 -> 0 <= v2 < 64 -> 0 <= v3 < 64 ->
  Z.lor (Z.lor (Z.lor (u32 (Z.shiftl v0 18)) (u32 (Z.shiftl v1 12))) (u32 (Z.shiftl v2 6))) v3 =
  v0 * 262144 + v1 * 4096 + v2 * 64 + v3.
Proof.
  intros. unfold u32. rewrite !Z.shiftl_mul_pow2, !Z.mod_small by lia.
  rewrite (lor_multiple (v0 * 2 ^ 18) v0 _ 18) by lia.
  rewrite (lor_multiple (v0 * 2 ^ 18 + v1 * 2 ^ 12) (v0 * 64 + v1) _ 12) by lia.
  rewrite (lor_multiple _ (v0 * 4096 + v1 * 64 + v2) _ 6) by lia. lia.
Qed.

Lemma chr_byte b z : z = uc b -> chr z = b.
Proof. intros ->. apply chr_uc. Qed.

Lemma group_bytes_inv n :
  0 <= n < 2 ^ 24 ->
  forall padding, group_bytes [n / 2 ^ 18 mod 64; n / 2 ^ 12 mod 64; n / 2 ^ 6 mod 64; n mod 64] padding =
  chr (n / 65536) :: (if padding <? 2 then [chr (n / 256 mod 256)] else []) ++
                     (if padding <? 1 then [chr (n mod 256)] else []).
Proof.
  intros Hn padding. unfold group_bytes.
  rewrite group_bits by (apply Z.mod_pos_bound; lia).
  replace (_ + _ + _ + _) with n by div_lia. arith_masks.
  repeat f_equal; div_lia.
Qed.

Lemma base64_loop_group a b c d rest vs p :
  base64_group (match rest with [] => true | _ => false end) 0 0 [a; b; c; d] = Some (vs, p) ->
  p <= 2 ->
  base64_loop (a :: b :: c :: d :: rest) =
  (tail ← base64_loop rest; Some (group_bytes vs p ++ tail)).
Proof.
  intros Hg Hp. cbn [base64_loop]. rewrite Hg. cbn [mbind option_bind].
  destruct (p >? 2) eqn:E; [|done]. apply Z.gtb_lt in E. lia.
Qed.

Lemma uc_x00 : uc x00 = 0.
Proof. reflexivity. Qed.

(** The groups the encoder emits decode to the bytes they came from. *)
Lemma base64_group_full last n :
  base64_group last 0 0 [base64_letter (Z.shiftr n 18); base64_letter (Z.shiftr n 12);
                         base64_letter (Z.shiftr n 6); base64_letter n] =
  Some ([n / 2 ^ 18 mod 64; n / 2 ^ 12 mod 64; n / 2 ^ 6 mod 64; n mod 64], 0).
Proof. rewrite !base64_group_letter. cbn [base64_group]. arith_masks. reflexivity. Qed.

Lemma base64_group_pad1 n :
  n mod 64 = 0 ->
  base64_group true 0 0 [base64_letter (Z.shiftr n 18); base64_letter (Z.shiftr n 12);
                         base64_letter (Z.shiftr n 6); "="%byte] =
  Some ([n / 2 ^ 18 mod 64; n / 2 ^ 12 mod 64; n / 2 ^ 6 mod 64; n mod 64], 1).
Proof.
  intros H. rewrite !base64_group_letter. cbn [base64_group]. eval_tests. arith_masks.
  rewrite H. reflexivity.
Qed.

Lemma base64_group_pad2 n :
  n / 2 ^ 6 mod 64 = 0 -> n mod 64 = 0 ->
  base64_group true 0 0 [base64_letter (Z.shiftr n 18); base64_letter (Z.shiftr n 12);
                         "="%byte; "="%byte] =
  Some ([n / 2 ^ 18 mod 64; n / 2 ^ 12 mod 64; n / 2 ^ 6 mod 64; n mod 64], 2).
Proof.
  intros H H'. rewrite !base64_group_letter. cbn [base64_group]. eval_tests. arith_masks.
  rewrite H, H'. reflexivity.
Qed.

Lemma group_bytes_bits a b c padding :
  let n := base64_bits a b c in
  group_bytes [n / 2 ^ 18 mod 64; n / 2 ^ 12 mod 64; n / 2 ^ 6 mod 64; n mod 64] padding =
  a :: (if padding <? 2 then [b] else []) ++ (if padding <? 1 then [c] else []).
Proof.
  cbn zeta. pose proof (uc_range a). pose proof (uc_range b). pose proof (uc_range c).
  rewrite base64_bits_eq, group_bytes_inv by lia.
  rewrite (chr_byte a), (chr_byte b), (chr_byte c) by div_lia. done.
Qed.

Lemma base64_loop_encode input : base64_loop (base64_encode input) = Some input.
Proof.
  remember (length input) as n eqn:Hn. revert input Hn.
  induction n as [n IH] using (well_founded_induction lt_wf).
  intros [|a [|b [|c input]]] Hn; [done|..]; cbn [base64_encode];
    pose proof (uc_range a).
  - erewrite base64_loop_group; [..|apply base64_group_pad2|lia];
      [by rewrite group_bytes_bits|rewrite base64_bits_eq, uc_x00; div_lia..].
  - pose proof (uc_range b). erewrite base64_loop_group; [..|apply base64_group_pad1|lia];
      [by rewrite group_bytes_bits|rewrite base64_bits_eq, uc_x00; div_lia].
  - erewrite base64_loop_group; [..|apply base64_group_full|lia].
    rewrite group_bytes_bits, (IH (length input)) by (subst; cbn; lia || done). done.
Qed.

Lemma base64_encode_length input :
  length (base64_encode input) = (4 * ((length input + 2) / 3))%nat.
Proof.
  remember (length input) as n eqn:Hn. revert input Hn.
  induction n as [n IH] using (well_founded_induction lt_wf).
  intros [|a [|b [|c input]]] ->; [done..|]. cbn [base64_encode length].
  rewrite (IH (length input)) by (cbn; lia || done).
  replace (S (S (S (length input))) + 2)%nat with (1 * 3 + (length input + 2))%nat by lia.
  rewrite Nat.div_add_l by lia. lia.
Qed.

Lemma base64_decode_encode input :
  input <> [] -> base64_decode (base64_encode input) = Some input.
Proof.
  intros Hne. unfold base64_decode. rewrite base64_loop_encode.
  rewrite bool_decide_false.
  - rewrite base64_encode_length, Nat.mul_comm, Nat.Div0.mod_mul. done.
  - intros E%(f_equal length). rewrite base64_encode_length in E. destruct input; [done|].
    cbn [length] in E. pose proof (Nat.div_str_pos (S (length input) + 2) 3 ltac:(lia)). lia.
Qed.

(** ** The handshake *)

(** 64 iterations always reach the block boundary. *)
Lemma pad_loop_length f message :
  ((120 - length message mod 64) mod 64 <= f)%nat ->
  (length (pad_loop f message) mod 64 = 56)%nat.
Proof.
  revert message. induction f as [|f IH]; intros message H; cbn [pad_loop].
  { zify; div_lia. }
  destruct (Nat.eqb_spec (length message mod 64) 56) as [|Hne]; [done|].
  apply IH. rewrite length_app. cbn [length]. zify; div_lia.
Qed.

Lemma sha1_pad_aligned input : (length (sha1_pad input) mod 64 = 0)%nat.
Proof.
  unfold sha1_pad. rewrite length_app. change (length (be64 _)) with 8%nat.
  pose proof (pad_loop_length 64 (input ++ [x80])) as H. zify; div_lia.
Qed.

Lemma sha1_length input : length (sha1 input) = 20%nat.
Proof. reflexivity. Qed.

(** FIPS 180 test vector, and the example of RFC 6455, section 1.3. *)
Example sha1_abc :
  uc <$> sha1 (lit "abc") =
  [0xa9; 0x99; 0x3e; 0x36; 0x47; 0x06; 0x81; 0x6a; 0xba; 0x3e;
   0x25; 0x71; 0x78; 0x50; 0xc2; 0x6c; 0x9c; 0xd0; 0xd8; 0x9d].
Proof. vm_compute. reflexivity. Qed.

Example accept_rfc6455 :
  base64_encode (sha1 (lit "dGhlIHNhbXBsZSBub25jZQ==" ++ websocket_guid)) =
  lit "s3pPLMBiTxaQ9kYGzzhZRbK+xOo=".
Proof. vm_compute. reflexivity. Qed.

(** ** Frames

    The wire format of RFC 6455, section 5.2: two header bytes, the extended
    length in its shortest form, the masking key, the masked payload. *)

Definition frame_head (f : Frame) : byte :=
  chr ((if final f then 128 else 0) + opcode_number (opcode f)).

Definition size_code (size : Z) : Z :=
  if size <=? 125 then size else if size <=? 65535 then 126 else 127.

Definition size_tail (size : Z) : bytes :=
  if size <=? 125 then []
  else if size <=? 65535 then [chr (size / 256); chr (size mod 256)]
  else be64 size.

Definition payload_size (f : Frame) : Z := Z.of_nat (length (payload f)).

Definition client_frame (mask : bytes) (f : Frame) : bytes :=
  frame_head f :: chr (128 + size_code (payload_size f)) :: size_tail (payload_size f) ++
  mask ++ unmask mask (payload f).

(** Control frames are final and short; sizes fit in 63 bits. *)
Definition frame_ok (f : Frame) : Prop :=
  (8 <= opcode_number (opcode f) -> final f = true /\ payload_size f <= 125) /\
  payload_size f < 2 ^ 63.

Lemma opcode_of_number o : opcode_of (opcode_number o) = o.
Proof. by destruct o. Qed.

Lemma valid_opcode_number o : valid_opcode (opcode_number o) = true.
Proof. by destruct o. Qed.

Lemma opcode_number_of v : valid_opcode v = true -> opcode_number (opcode_of v) = v.
Proof.
  unfold valid_opcode. rewrite !orb_true_iff, !Z.eqb_eq.
  intros [[[[[->| ->]| ->]| ->]| ->]| ->]; done.
Qed.

Lemma opcode_number_range o : 0 <= opcode_number o <= 10.
Proof. destruct o; cbn; lia. Qed.

(** The fields of the first header byte. *)
Lemma head_fields f :
  let first := uc (frame_head f) in
  Z.land first 112 = 0 /\ Z.land first 15 = opcode_number (opcode f) /\
  negb (Z.land first 128 =? 0) = final f.
Proof. destruct f as [[] [] p]; vm_compute; done. Qed.

Lemma head_inv b :
  Z.land (uc b) 112 = 0 -> valid_opcode (Z.land (uc b) 15) = true ->
  forall p, b = frame_head (mkFrame (negb (Z.land (uc b) 128 =? 0)) (opcode_of (Z.land (uc b) 15)) p).
Proof.
  intros H1 H2 p. unfold frame_head. cbn [final opcode]. rewrite opcode_number_of by done.
  symmetry. apply chr_byte. clear p.
  enough ((Z.land (uc b) 112 =? 0) = true ->
          ((if negb (Z.land (uc b) 128 =? 0) then 128 else 0) + Z.land (uc b) 15 =? uc b) = true) as H.
  { apply Z.eqb_eq, H. by apply Z.eqb_eq. }
  clear H1 H2. apply implb_true_iff. by_bytes.
Qed.

(** The fields of the second one. *)
Lemma second_byte b :
  (Z.land (uc b) 128 =? 0) = (uc b <? 128) /\ Z.land (uc b) 127 = uc b mod 128.
Proof.
  split; [|by rewrite (land_mask _ 127 7)].
  apply eqb_true_iff. by_bytes.
Qed.

Lemma second_fields c :
  0 <= c < 128 ->
  (Z.land (uc (chr (128 + c))) 128 =? 0) = false /\ Z.land (uc (chr (128 + c))) 127 = c.
Proof.
  intros Hc. destruct (second_byte (chr (128 + c))) as [-> ->].
  rewrite uc_chr_small by lia. split; [apply Z.ltb_ge; lia|]. div_lia.
Qed.

Lemma second_inv b :
  (Z.land (uc b) 128 =? 0) = false -> b = chr (128 + Z.land (uc b) 127).
Proof.
  destruct (second_byte b) as [-> ->]. intros H%Z.ltb_ge. symmetry. apply chr_byte.
  pose proof (uc_range b). div_lia.
Qed.

Lemma land127_range b : 0 <= Z.land (uc b) 127 < 128.
Proof. destruct (second_byte b) as [_ ->]. apply Z.mod_pos_bound. lia. Qed.

(** *** Length fields *)

Lemma byte_at_app a b i : (i < length a)%nat -> byte_at (a ++ b) i = byte_at a i.
Proof. intros H. unfold byte_at. by rewrite app_nth1. Qed.

Lemma byte_at_range s i : 0 <= byte_at s i < 256.
Proof. apply uc_range. Qed.

Lemma u64_shift_lor v b :
  0 <= v < 2 ^ 56 -> 0 <= b < 256 -> Z.lor (u64 (Z.shiftl v 8)) b = v * 256 + b.
Proof.
  intros Hv Hb. rewrite Z.shiftl_mul_pow2, u64_small by lia. by apply (lor_multiple _ v _ 8).
Qed.

(** Shifting in as many bytes as there is room for loses nothing. *)
Lemma shift_in_bytes ds v :
  Forall (fun d => 0 <= d < 256) ds -> 0 <= v -> (v + 1) * 256 ^ Z.of_nat (length ds) <= 2 ^ 64 ->
  foldl (fun s d => Z.lor (u64 (Z.shiftl s 8)) d) v ds = foldl (fun s d => s * 256 + d) v ds.
Proof.
  intros Hds. revert v. induction Hds as [|d ds Hd _ IH]; intros v Hv Hroom; [done|]. cbn [foldl].
  assert (1 <= 256 ^ Z.of_nat (length ds)) by (pose proof (Z.pow_pos_nonneg 256 (Z.of_nat (length ds))); lia).
  assert (256 ^ Z.of_nat (length (d :: ds)) = 256 * 256 ^ Z.of_nat (length ds)) as E.
  { cbn [length]. rewrite Nat2Z.inj_succ, Z.pow_succ_r by lia. done. }
  rewrite E in Hroom. rewrite u64_shift_lor by nia. apply IH; nia.
Qed.

Lemma read_be64_eq input k :
  let d i := byte_at input (k + i) in
  read_be64 input k =
  d 0%nat * 2 ^ 56 + d 1%nat * 2 ^ 48 + d 2%nat * 2 ^ 40 + d 3%nat * 2 ^ 32 +
  d 4%nat * 2 ^ 24 + d 5%nat * 2 ^ 16 + d 6%nat * 2 ^ 8 + d 7%nat.
Proof.
  cbn zeta. unfold read_be64.
  rewrite shift_in_bytes; [|apply Forall_fmap, Forall_true; intros; apply byte_at_range|lia|].
  2:{ rewrite length_fmap, length_seq. lia. }
  cbn [fmap list_fmap seq foldl]. lia.
Qed.

Lemma be64_eq v :
  0 <= v < 2 ^ 64 ->
  be64 v = [chr (v / 2 ^ 56); chr (v / 2 ^ 48 mod 256); chr (v / 2 ^ 40 mod 256);
            chr (v / 2 ^ 32 mod 256); chr (v / 2 ^ 24 mod 256); chr (v / 2 ^ 16 mod 256);
            chr (v / 2 ^ 8 mod 256); chr (v mod 256)].
Proof.
  intros Hv. unfold be64. cbn [map]. arith_masks. change (2 ^ 0) with 1. rewrite Z.div_1_r.
  rewrite (Z.mod_small (v / 2 ^ 56)) by div_lia. done.
Qed.

Lemma read_size_126 b0 b1 c d rest :
  read_size (b0 :: b1 :: c :: d :: rest) 126 =
  let size := uc c * 256 + uc d in
  if size <? 126 then Throw (invalid_argument "Non-canonical WebSocket payload length")
  else Ok (Some (size, 4%nat)).
Proof.
  pose proof (uc_range c). pose proof (uc_range d). unfold read_size.
  change (byte_at _ 2) with (uc c). change (byte_at _ 3) with (uc d).
  rewrite lor_shiftl by lia. reflexivity.
Qed.

Definition be64_value (e0 e1 e2 e3 e4 e5 e6 e7 : byte) : Z :=
  uc e0 * 2 ^ 56 + uc e1 * 2 ^ 48 + uc e2 * 2 ^ 40 + uc e3 * 2 ^ 32 +
  uc e4 * 2 ^ 24 + uc e5 * 2 ^ 16 + uc e6 * 2 ^ 8 + uc e7.

Lemma read_size_127 b0 b1 e0 e1 e2 e3 e4 e5 e6 e7 rest :
  read_size (b0 :: b1 :: e0 :: e1 :: e2 :: e3 :: e4 :: e5 :: e6 :: e7 :: rest) 127 =
  if negb (uc e0 <? 128)
  then Throw (invalid_argument "WebSocket payload length exceeds signed 63-bit range")
  else
    let size := be64_value e0 e1 e2 e3 e4 e5 e6 e7 in
    if size <=? 65535 then Throw (invalid_argument "Non-canonical WebSocket payload length")
    else Ok (Some (size, 10%nat)).
Proof.
  unfold read_size. change (byte_at _ 2) with (uc e0). destruct (second_byte e0) as [-> _].
  rewrite read_be64_eq. reflexivity.
Qed.

Lemma be64_value_of v :
  0 <= v < 2 ^ 64 ->
  exists e0 e1 e2 e3 e4 e5 e6 e7, be64 v = [e0; e1; e2; e3; e4; e5; e6; e7] /\
    be64_value e0 e1 e2 e3 e4 e5 e6 e7 = v /\ uc e0 = v / 2 ^ 56.
Proof.
  intros Hv. rewrite be64_eq by done. do 8 eexists. split; [reflexivity|]. unfold be64_value.
  rewrite !uc_chr_small by div_lia. split; [div_lia|done].
Qed.

Lemma be64_of_value e0 e1 e2 e3 e4 e5 e6 e7 :
  be64 (be64_value e0 e1 e2 e3 e4 e5 e6 e7) = [e0; e1; e2; e3; e4; e5; e6; e7].
Proof.
  pose proof (uc_range e0). pose proof (uc_range e1). pose proof (uc_range e2).
  pose proof (uc_range e3). pose proof (uc_range e4). pose proof (uc_range e5).
  pose proof (uc_range e6). pose proof (uc_range e7). unfold be64_value.
  rewrite be64_eq by lia. repeat f_equal; apply chr_byte; div_lia.
Qed.

(** The extended length is read back, and is the only one that reads so. *)
Lemma read_size_tail b0 b1 size rest :
  0 <= size < 2 ^ 63 ->
  read_size (b0 :: b1 :: size_tail size ++ rest) (size_code size) =
  Ok (Some (size, 2 + length (size_tail size))%nat).
Proof.
  intros Hs. unfold size_tail, size_code.
  destruct (Z.leb_spec size 125); [|destruct (Z.leb_spec size 65535)].
  - unfold read_size. destruct (Z.eqb_spec size 126), (Z.eqb_spec size 127); [lia..|done].
  - cbn [app]. rewrite read_size_126. cbn zeta. rewrite !uc_chr_small by div_lia.
    replace (size / 256 * 256 + size mod 256) with size by div_lia.
    destruct (Z.ltb_spec size 126); [lia|done].
  - destruct (be64_value_of size ltac:(lia)) as (e0 & e1 & e2 & e3 & e4 & e5 & e6 & e7 & -> & Hv & H0').
    cbn [app]. rewrite read_size_127, Hv, H0'. destruct (Z.ltb_spec (size / 2 ^ 56) 128); [|div_lia].
    cbn [negb]. cbn zeta. destruct (Z.leb_spec size 65535); [lia|done].
Qed.

Lemma read_size_inv b0 b1 rest code size cursor :
  0 <= code < 128 ->
  read_size (b0 :: b1 :: rest) code = Ok (Some (size, cursor)) ->
  code = size_code size /\ 0 <= size < 2 ^ 63 /\
  exists rest', rest = size_tail size ++ rest' /\ cursor = (2 + length (size_tail size))%nat.
Proof.
  intros Hc. destruct (Z.eqb_spec code 126) as [->|]; [|destruct (Z.eqb_spec code 127) as [->|]].
  - destruct rest as [|c [|d rest]]; [done..|]. rewrite read_size_126. cbn zeta.
    pose proof (uc_range c). pose proof (uc_range d).
    destruct (Z.ltb_spec (uc c * 256 + uc d) 126); [done|]. intros [= <- <-].
    unfold size_code, size_tail. destruct (Z.leb_spec (uc c * 256 + uc d) 125); [lia|].
    destruct (Z.leb_spec (uc c * 256 + uc d) 65535); [|lia]. split; [done|]. split; [lia|].
    exists rest. rewrite (chr_byte c), (chr_byte d) by div_lia. done.
  - destruct rest as [|e0 [|e1 [|e2 [|e3 [|e4 [|e5 [|e6 [|e7 rest]]]]]]]]; [done..|].
    rewrite read_size_127. destruct (Z.ltb_spec (uc e0) 128); [|done]. cbn [negb]. cbn zeta.
    set (v := be64_value _ _ _ _ _ _ _ _). destruct (Z.leb_spec v 65535); [done|].
    intros [= <- <-]. unfold size_code, size_tail. destruct (Z.leb_spec v 125); [lia|].
    destruct (Z.leb_spec v 65535); [lia|]. split; [done|]. split.
    { subst v. unfold be64_value in *. pose proof (uc_range e1). pose proof (uc_range e2).
      pose proof (uc_range e3). pose proof (uc_range e4). pose proof (uc_range e5).
      pose proof (uc_range e6). pose proof (uc_range e7). lia. }
    exists rest. subst v. by rewrite be64_of_value.
  - unfold read_size. destruct (Z.eqb_spec code 126); [done|].
    destruct (Z.eqb_spec code 127); [done|]. intros [= <- <-].
    unfold size_code, size_tail. destruct (Z.leb_spec code 125); [|lia].
    split; [done|]. split; [lia|]. by exists rest.
Qed.

(** *** Masking *)

Lemma mask_twice b m : chr (Z.lxor (uc (chr (Z.lxor (uc b) (uc m)))) (uc m)) = b.
Proof.
  apply byte_eqb_true. revert m.
  apply (byte_forall (fun m => chr (Z.lxor (uc (chr (Z.lxor (uc b) (uc m)))) (uc m)) =b? b)).
  by_bytes.
Qed.

Lemma unmask_length mask data : length (unmask mask data) = length data.
Proof. apply length_imap. Qed.

Lemma unmask_twice mask data : unmask mask (unmask mask data) = data.
Proof.
  apply list_eq. intros i. unfold unmask. rewrite !list_lookup_imap.
  destruct (data !! i) as [b|]; [|done]. cbn. f_equal. apply mask_twice.
Qed.

(** *** Parsing what a client sends *)

Lemma client_frame_length mask f :
  length mask = 4%nat ->
  length (client_frame mask f) = (6 + length (size_tail (payload_size f)) + length (payload f))%nat.
Proof.
  intros Hm. unfold client_frame. cbn [length]. rewrite !length_app, unmask_length, Hm. lia.
Qed.

Lemma size_tail_length size : (length (size_tail size) <= 8)%nat.
Proof. unfold size_tail. repeat case_match; cbn; lia. Qed.

Lemma size_code_range size : 0 <= size -> 0 <= size_code size < 128.
Proof. unfold size_code. intros. repeat case_match; reflect_bools; lia. Qed.

Lemma slice_mask (b0 b1 : byte) (tail mask data rest : bytes) :
  length mask = 4%nat ->
  take 4 (drop (2 + length tail) (b0 :: b1 :: tail ++ (mask ++ data) ++ rest)) = mask.
Proof.
  intros Hm. cbn [drop Nat.add]. rewrite drop_app_length, <-app_assoc, <-Hm. apply take_app_length.
Qed.

Lemma slice_data (b0 b1 : byte) (tail mask data rest : bytes) :
  length mask = 4%nat ->
  take (length data) (drop (2 + length tail + 4) (b0 :: b1 :: tail ++ (mask ++ data) ++ rest)) = data.
Proof.
  intros Hm. rewrite <-Nat.add_assoc. cbn [drop Nat.add]. rewrite <-drop_drop, drop_app_length.
  rewrite <-app_assoc, <-Hm, drop_app_length. apply take_app_length.
Qed.

(** Control frames pass the check on fragmentation and size. *)
Lemma control_ok f :
  frame_ok f ->
  (8 <=? opcode_number (opcode f)) && (negb (final f) || (payload_size f >? 125)) = false.
Proof.
  intros [Hctl _]. destruct (Z.leb_spec 8 (opcode_number (opcode f))) as [H|]; [|done].
  destruct (Hctl H) as [-> H125]. cbn. destruct (Z.gtb_spec (payload_size f) 125); [lia|done].
Qed.

Lemma parse_client_frame_complete mask f rest max :
  length mask = 4%nat -> frame_ok f -> payload_size f <= max ->
  parse_client_frame (client_frame mask f ++ rest) max =
  Ok (mkParse (Some f) (Z.of_nat (length (client_frame mask f)))).
Proof.
  intros Hm Hok Hmax. pose proof (client_frame_length mask f Hm) as Hlen.
  pose proof (size_tail_length (payload_size f)) as Htail.
  assert (0 <= payload_size f) by (unfold payload_size; lia).
  unfold parse_client_frame. rewrite length_app, Hlen.
  destruct (Z.ltb_spec (Z.of_nat (6 + length (size_tail (payload_size f)) + length (payload f) +
                                  length rest)) 2); [lia|].
  unfold client_frame. cbn [app].
  change (byte_at _ 0) with (uc (frame_head f)).
  change (byte_at _ 1) with (uc (chr (128 + size_code (payload_size f)))).
  destruct (head_fields f) as (-> & -> & ->).
  destruct (second_fields (size_code (payload_size f))) as [-> ->]; [by apply size_code_range|].
  rewrite valid_opcode_number. cbn [Z.eqb negb].
  rewrite <-app_assoc, read_size_tail by (destruct Hok; lia). cbn [mbind result_bind].
  rewrite control_ok by done. destruct Hok as [_ Hsize].
  destruct (Z.gtb_spec (payload_size f) max); [lia|].
  unfold UINT64_MAX. destruct (Z.gtb_spec (payload_size f) (2 ^ 64 - 1)); [lia|].
  set (k := length (size_tail (payload_size f))) in *.
  destruct (Z.ltb_spec (Z.of_nat (6 + k + length (payload f) + length rest))
              (Z.of_nat (2 + k) + 4)); [lia|].
  assert (payload_size f = Z.of_nat (length (payload f))) as Hp by done.
  rewrite u64_small by lia.
  destruct (Z.ltb_spec (Z.of_nat (6 + k + length (payload f) + length rest))
              (Z.of_nat (2 + k + 4) + payload_size f)); [lia|].
  f_equal. f_equal; [|lia]. f_equal. destruct f as [fin op p]. cbn [final opcode payload] in *.
  f_equal; [by rewrite opcode_of_number|]. subst k.
  rewrite Hp, Nat2Z.id, <-(unmask_length mask p), slice_mask, slice_data by done.
  apply unmask_twice.
Qed.

(** *** What the parser accepts *)

Lemma read_size_app input more code :
  (2 <= length input)%nat -> read_size input code <> Ok None ->
  read_size (input ++ more) code = read_size input code.
Proof.
  unfold read_size. rewrite length_app. intros H2 H.
  destruct (code =? 126); [|destruct (code =? 127)]; [| |done].
  - destruct (Nat.ltb_spec (length input) 4); [done|].
    destruct (Nat.ltb_spec (length input + length more) 4); [lia|].
    by rewrite !byte_at_app by lia.
  - destruct (Nat.ltb_spec (length input) 10); [done|].
    destruct (Nat.ltb_spec (length input + length more) 10); [lia|].
    rewrite byte_at_app, !read_be64_eq by lia. by rewrite !byte_at_app by lia.
Qed.

Lemma split_payload (tail rest : bytes) (size : nat) :
  (4 + size <= length rest)%nat ->
  exists mask data rest', length mask = 4%nat /\ length data = size /\
    rest = (mask ++ data) ++ rest'.
Proof.
  intros H. exists (take 4 rest), (take size (drop 4 rest)), (drop size (drop 4 rest)).
  rewrite !length_take, length_drop. split; [lia|]. split; [lia|].
  rewrite <-app_assoc. by rewrite !take_drop.
Qed.

Lemma parse_client_frame_sound input max f n :
  parse_client_frame input max = Ok (mkParse (Some f) n) ->
  frame_ok f /\ payload_size f <= max /\
  exists mask rest, length mask = 4%nat /\ input = client_frame mask f ++ rest /\
    n = Z.of_nat (length (client_frame mask f)).
Proof.
  unfold parse_client_frame. destruct input as [|b0 [|b1 rest0]]; [done..|].
  destruct (_ <? 2); [done|]. change (byte_at _ 0) with (uc b0). change (byte_at _ 1) with (uc b1).
  destruct (Z.land (uc b0) 112 =? 0) eqn:Hrsv; [|done].
  destruct (valid_opcode (Z.land (uc b0) 15)) eqn:Hop; [|done].
  destruct (Z.land (uc b1) 128 =? 0) eqn:Hmasked; [done|]. cbn [negb].
  destruct (read_size _ _) as [[[size cursor]|]| |] eqn:Hread; [|done..]. cbn [mbind result_bind].
  destruct (_ && _) eqn:Hctl; [done|]. destruct (Z.gtb_spec size max) as [|Hmax]; [done|].
  destruct (size >? UINT64_MAX); [done|].
  apply read_size_inv in Hread as (Hcode & Hsize & rest1 & -> & ->); [|apply land127_range].
  pose proof (size_tail_length size) as Htail. rewrite u64_small by lia.
  destruct (Z.ltb_spec (Z.of_nat (length (b0 :: b1 :: size_tail size ++ rest1)))
              (Z.of_nat (2 + length (size_tail size)) + 4)) as [|H4]; [done|].
  destruct (Z.ltb_spec (Z.of_nat (length (b0 :: b1 :: size_tail size ++ rest1)))
              (Z.of_nat (2 + length (size_tail size) + 4) + size)) as [|Hall]; [done|].
  cbn [length] in H4, Hall. rewrite length_app in H4, Hall.
  destruct (split_payload (size_tail size) rest1 (Z.to_nat size)) as
    (mask & data & rest2 & Hmask & Hdata & ->); [lia|].
  rewrite slice_mask, <-Hdata, slice_data by done. intros [= <- <-].
  assert (payload_size (mkFrame (negb (Z.land (uc b0) 128 =? 0)) (opcode_of (Z.land (uc b0) 15))
                          (unmask mask data)) = size) as Hps.
  { unfold payload_size. cbn [payload]. rewrite unmask_length. lia. }
  split; [|split; [by rewrite Hps|]].
  - split; rewrite Hps; [|lia]. cbn [opcode final]. rewrite opcode_number_of by done.
    intros H8. destruct (Z.leb_spec 8 (Z.land (uc b0) 15)); [|lia]. cbn [andb] in Hctl.
    apply orb_false_elim in Hctl as [Hfin H125].
    split; [by apply negb_false_iff in Hfin|]. destruct (Z.gtb_spec size 125); [done|lia].
  - exists mask, rest2. split; [done|]. split.
    + unfold client_frame. rewrite Hps. cbn [payload app]. rewrite unmask_twice.
      rewrite <-head_inv by first [done | by apply Z.eqb_eq].
      rewrite <-Hcode, <-second_inv by done. by rewrite <-!app_assoc.
    + rewrite client_frame_length, Hps by done. cbn [payload]. rewrite unmask_length. lia.
Qed.

(** Errors are final: more bytes do not mend them. *)
Lemma parse_client_frame_error input more max e :
  parse_client_frame input max = Throw e -> parse_client_frame (input ++ more) max = Throw e.
Proof.
  unfold parse_client_frame. rewrite length_app. intros H.
  destruct (Z.ltb_spec (Z.of_nat (length input)) 2); [done|].
  destruct (Z.ltb_spec (Z.of_nat (length input + length more)) 2); [lia|].
  rewrite !byte_at_app by lia. destruct (negb (Z.land (byte_at input 0) 112 =? 0)); [done|].
  destruct (negb (valid_opcode _)); [done|]. destruct (negb (negb _)); [done|].
  destruct (read_size input _) as [[[size cursor]|]|e'|] eqn:Hread; cbn [mbind result_bind] in H;
    [|done| |done].
  - rewrite read_size_app, Hread by (rewrite ?Hread; done || lia). cbn [mbind result_bind].
    destruct (_ && _); [done|]. destruct (size >? max); [done|].
    destruct (size >? UINT64_MAX); [done|].
    exfalso. clear Hread. by repeat case_match.
  - by rewrite read_size_app, Hread by (rewrite ?Hread; done || lia).
Qed.

Lemma parse_client_frame_cases input max :
  (exists e, parse_client_frame input max = Throw e) \/
  parse_client_frame input max = Ok incomplete \/
  (exists f n, parse_client_frame input max = Ok (mkParse (Some f) n)).
Proof.
  unfold parse_client_frame. repeat (case_match; eauto).
  destruct (read_size _ _) as [[[size cursor]|]| |] eqn:Hread; cbn [mbind result_bind]; eauto.
  - repeat (case_match; eauto).
  - unfold read_size in Hread. repeat case_match; done.
Qed.

Lemma prefix_incomplete mask f max (k : nat) :
  length mask = 4%nat -> frame_ok f -> payload_size f <= max ->
  (k < length (client_frame mask f))%nat ->
  parse_client_frame (take k (client_frame mask f)) max = Ok incomplete.
Proof.
  intros Hm Hok Hmax Hk.
  pose proof (parse_client_frame_complete mask f [] max Hm Hok Hmax) as Hfull.
  rewrite app_nil_r in Hfull. set (whole := client_frame mask f) in *.
  destruct (parse_client_frame_cases (take k whole) max) as [[e He]|[|(f' & n & He)]]; [|done|].
  - apply (parse_client_frame_error _ (drop k whole)) in He. rewrite take_drop in He. congruence.
  - apply parse_client_frame_sound in He as (Hok' & Hmax' & mask' & rest & Hm' & Heq & Hn).
    pose proof (parse_client_frame_complete mask' f' (rest ++ drop k whole) max Hm' Hok' Hmax') as H.
    rewrite app_assoc, <-Heq, take_drop, Hfull in H.
    assert (length whole = length (client_frame mask' f')) as Hlen
      by (apply Nat2Z.inj; congruence).
    apply (f_equal length) in Heq. rewrite length_take, length_app in Heq. lia.
Qed.

(** *** Serialised frames *)

Lemma size_field_eq size :
  0 <= size -> size_field size = chr (size_code size) :: size_tail size.
Proof.
  intros Hs. unfold size_field, size_code, size_tail.
  destruct (Z.leb_spec size 125); [done|]. destruct (Z.leb_spec size 65535); [|done].
  arith_masks. change (2 ^ 8) with 256. rewrite (Z.mod_small (size / 256)) by div_lia. done.
Qed.

Lemma server_head o fin : chr (Z.lor (if fin : bool then 128 else 0) (opcode_number o)) =
  frame_head (mkFrame fin o []).
Proof. by destruct fin, o. Qed.

(** What a peer that masks with the all-zero key would send for a server frame:
    the mask bit set and four zero bytes before the payload. *)
Definition zero_key : bytes := [x00; x00; x00; x00].

Definition zero_masked (out : bytes) : bytes :=
  match out with
  | b0 :: b1 :: rest =>
      let k := if uc b1 =? 126 then 2%nat else if uc b1 =? 127 then 8%nat else 0%nat in
      b0 :: chr (128 + uc b1) :: take k rest ++ zero_key ++ drop k rest
  | _ => out
  end.

Lemma unmask_zero data : unmask zero_key data = data.
Proof.
  apply list_eq. intros i. unfold unmask. rewrite list_lookup_imap.
  destruct (data !! i) as [b|]; [|done]. cbn [fmap option_fmap option_map]. f_equal.
  replace (byte_at zero_key (i mod 4)) with 0; [by rewrite Z.lxor_0_r, chr_uc|].
  pose proof (Nat.mod_upper_bound i 4 ltac:(lia)). unfold byte_at.
  destruct (i mod 4)%nat as [|[|[|[|]]]]; [reflexivity..|lia].
Qed.

Lemma size_tail_code size :
  0 <= size ->
  length (size_tail size) =
  if size_code size =? 126 then 2%nat else if size_code size =? 127 then 8%nat else 0%nat.
Proof.
  intros Hs. unfold size_tail, size_code.
  destruct (Z.leb_spec size 125); [|by destruct (Z.leb_spec size 65535)].
  destruct (Z.eqb_spec size 126), (Z.eqb_spec size 127); done || lia.
Qed.

Lemma zero_masked_frame o p fin :
  zero_masked (frame_head (mkFrame fin o []) :: size_field (Z.of_nat (length p)) ++ p) =
  client_frame zero_key (mkFrame fin o p).
Proof.
  rewrite size_field_eq by lia. pose proof (size_code_range (Z.of_nat (length p)) ltac:(lia)).
  cbn [zero_masked app]. rewrite uc_chr_small by lia. rewrite <-size_tail_code by lia.
  rewrite take_app_length, drop_app_length. unfold client_frame. cbn [payload].
  by rewrite unmask_zero.
Qed.

(** ** Properties *)

Section Examples.
Definition example_nonce : bytes := lit "the sample nonce".

Definition example_headers : Headers :=
  list_to_map [(lit "upgrade", lit " WebSocket"); (lit "connection", lit "keep-alive, Upgrade");
               (lit "sec-websocket-version", lit "13");
               (lit "sec-websocket-key", lit "dGhlIHNhbXBsZSBub25jZQ== ");
               (lit "sec-websocket-protocol", lit "soap, chat")].

Definition example_mask : bytes := [x37; xfa; x21; x3d].

Definition example_frame : Frame := mkFrame true text (lit "Hello").

Lemma example_frame_ok : frame_ok example_frame.
Proof. split; cbn; [lia|reflexivity]. Defined.
End Examples.

(** A client that sends the base64 form of any 16-byte nonce, with the headers
    of a WebSocket upgrade, is answered with the base64 form (28 characters) of the
    SHA-1 digest of that key and the protocol's GUID, and with the selected
    subprotocol. *)
Theorem handshake_nonce (headers : Headers) (nonce selected : bytes) :
  length nonce = 16%nat ->
  upgrade_requested get headers = true ->
  trim (header headers (lit "sec-websocket-version")) = lit "13" ->
  trim (header headers (lit "sec-websocket-key")) = base64_encode nonce ->
  protocol_offered (header headers (lit "sec-websocket-protocol")) selected = true ->
  exists a, handshake get headers selected = Some (mkHandshake a selected) /\
    a = base64_encode (sha1 (base64_encode nonce ++ websocket_guid)) /\ length a = 28%nat /\
    base64_decode a = Some (sha1 (base64_encode nonce ++ websocket_guid)).
Proof.
  intros Hn Hup Hver Hkey Hproto.
  exists (base64_encode (sha1 (base64_encode nonce ++ websocket_guid))).
  unfold handshake. rewrite Hup, Hver, Hkey, Hproto. cbn [negb].
  rewrite bool_decide_true by done. cbn [negb].
  rewrite base64_decode_encode by (by intros ->). rewrite Hn, Nat.eqb_refl. cbn [negb].
  rewrite base64_encode_length, sha1_length, base64_decode_encode by done. done.
Qed.

Lemma handshake_nonce_witness :
  exists a, handshake get example_headers (lit "chat") = Some (mkHandshake a (lit "chat")) /\
    a = base64_encode (sha1 (base64_encode example_nonce ++ websocket_guid)) /\
    length a = 28%nat /\
    base64_decode a = Some (sha1 (base64_encode example_nonce ++ websocket_guid)).
Proof. apply (handshake_nonce example_headers example_nonce (lit "chat")); by_decide. Defined.

(** C12. The frame parser accepts exactly the well-formed masked client frames of
    the wire format (canonical length, known opcode, control frames final and
    short, payload within the limit): it returns a frame exactly when the input
    starts with an encoding of that frame under some masking key, and consumes
    exactly that encoding. *)
Theorem parse_client_frame_exact input max f n :
  parse_client_frame input max = Ok (mkParse (Some f) n) <->
  frame_ok f /\ payload_size f <= max /\
  exists mask rest, length mask = 4%nat /\ input = client_frame mask f ++ rest /\
    n = Z.of_nat (length (client_frame mask f)).
Proof.
  split; [apply parse_client_frame_sound|].
  intros (Hok & Hmax & mask & rest & Hm & -> & ->). by apply parse_client_frame_complete.
Qed.

(** Frames arrive in pieces: every proper prefix of a client frame is reported
    as incomplete, never as an error and never as another frame. *)
Theorem parse_client_frame_prefix mask f max (k : nat) :
  length mask = 4%nat -> frame_ok f -> payload_size f <= max ->
  (k < length (client_frame mask f))%nat ->
  parse_client_frame (take k (client_frame mask f)) max = Ok incomplete.
Proof.
  apply prefix_incomplete.
Qed.

Lemma parse_client_frame_prefix_witness :
  parse_client_frame (take 8 (client_frame example_mask example_frame)) 1024 = Ok incomplete.
Proof.
  apply (parse_client_frame_prefix example_mask example_frame 1024 8).
  - reflexivity.
  - exact example_frame_ok.
  - done.
  - vm_compute. lia.
Defined.

(** An invalid frame is rejected once and for all: bytes that arrive later
    cannot turn the error into a frame or another error. *)
Theorem parse_client_frame_rejects input more max e :
  parse_client_frame input max = Throw e -> parse_client_frame (input ++ more) max = Throw e.
Proof. apply parse_client_frame_error. Qed.

Lemma parse_client_frame_rejects_witness :
  parse_client_frame ([x81; x05] ++ lit "Hello") 1024 =
  Throw (invalid_argument "Client WebSocket frames must be masked").
Proof. apply (parse_client_frame_rejects [x81; x05] (lit "Hello") 1024). reflexivity. Defined.

(** Server frames round trip: what [serialize_server_frame] emits, once a peer
    masks it, is read back by [parse_client_frame] as the same frame, whatever
    follows it on the wire. *)
Theorem server_frame_roundtrip o p fin out rest max :
  serialize_server_frame o p fin = Ok out ->
  Z.of_nat (length p) <= max -> Z.of_nat (length p) < 2 ^ 63 ->
  parse_client_frame (zero_masked out ++ rest) max =
  Ok (mkParse (Some (mkFrame fin o p)) (Z.of_nat (length out) + 4)).
Proof.
  unfold serialize_server_frame. rewrite valid_opcode_number. cbn [negb].
  destruct (_ && _) eqn:Hctl; [done|]. intros [= <-] Hmax Hsize.
  rewrite server_head, zero_masked_frame, parse_client_frame_complete; [|done| |done].
  - f_equal. f_equal. rewrite client_frame_length by done. cbn [length].
    rewrite length_app, size_field_eq by lia. unfold payload_size. cbn [payload length]. lia.
  - split; [|done]. cbn [opcode final]. intros H8.
    destruct (Z.leb_spec 8 (opcode_number o)); [|lia]. cbn [andb] in Hctl.
    apply orb_false_elim in Hctl as [Hfin H125]. apply negb_false_iff in Hfin.
    split; [done|]. unfold payload_size. cbn [payload].
    destruct (Z.gtb_spec (Z.of_nat (length p)) 125); [done|lia].
Qed.

Lemma server_frame_roundtrip_witness :
  parse_client_frame (zero_masked ([x81; x05] ++ lit "Hello") ++ [x00]) 1024 =
  Ok (mkParse (Some (mkFrame true text (lit "Hello"))) 11).
Proof.
  apply (server_frame_roundtrip text (lit "Hello") true ([x81; x05] ++ lit "Hello") [x00] 1024).
  - vm_compute. reflexivity.
  - cbn. lia.
  - reflexivity.
Defined.
