(* ===== verification/Utf8Facts.v ===== *)
(** * UTF-8: the validator accepts exactly what the encoder emits

    [valid_utf8] of [src/http/websocket.cpp] against [append_utf8] of
    [src/http/json.cpp]. *)

From S2P Require Import Prelude Json WebSocket.

(** A Unicode scalar value: a code point that is not a surrogate. *)
Definition scalar (c : Z) : Prop := 0 <= c < 0xd800 \/ 0xe000 <= c <= 0x10ffff.

Definition utf8_encode (cs : list Z) : bytes := cs ≫= append_utf8.

(** ** The encoder as arithmetic *)

Lemma continuation_byte c : Z.lor 128 (Z.land c 63) = 128 + c mod 64.
Proof. arith_masks. apply (lor_multiple _ 1 _ 7); [lia..|]. change (2 ^ 6) with 64. div_lia. Qed.

Lemma append_utf8_1 c : 0 <= c <= 127 -> append_utf8 c = [chr c].
Proof. intros H. unfold append_utf8. destruct (Z.leb_spec c 127); [done|lia]. Qed.

Lemma append_utf8_2 c :
  127 < c <= 2047 -> append_utf8 c = [chr (192 + c / 64); chr (128 + c mod 64)].
Proof.
  intros H. unfold append_utf8. destruct (Z.leb_spec c 127); [lia|].
  destruct (Z.leb_spec c 2047); [|lia]. rewrite !continuation_byte. arith_masks.
  rewrite (lor_multiple 192 3 _ 6) by div_lia. change (2 ^ 0) with 1. by rewrite Z.div_1_r.
Qed.

Lemma append_utf8_3 c :
  2047 < c <= 65535 ->
  append_utf8 c = [chr (224 + c / 4096); chr (128 + c / 64 mod 64); chr (128 + c mod 64)].
Proof.
  intros H. unfold append_utf8. destruct (Z.leb_spec c 127); [lia|].
  destruct (Z.leb_spec c 2047); [lia|]. destruct (Z.leb_spec c 65535); [|lia].
  rewrite !continuation_byte. arith_masks.
  rewrite (lor_multiple 224 7 _ 5) by div_lia. change (2 ^ 0) with 1. by rewrite Z.div_1_r.
Qed.

Lemma append_utf8_4 c :
  65535 < c <= 0x10ffff ->
  append_utf8 c = [chr (240 + c / 262144); chr (128 + c / 4096 mod 64);
                   chr (128 + c / 64 mod 64); chr (128 + c mod 64)].
Proof.
  intros H. unfold append_utf8. destruct (Z.leb_spec c 127); [lia|].
  destruct (Z.leb_spec c 2047); [lia|]. destruct (Z.leb_spec c 65535); [lia|].
  rewrite !continuation_byte. arith_masks.
  rewrite (lor_multiple 240 15 _ 4) by div_lia. change (2 ^ 0) with 1. by rewrite Z.div_1_r.
Qed.

(** ** The validator as arithmetic *)

Definition lead_of (b : Z) : option (nat * Z * Z) :=
  if b <? 192 then None
  else if b <? 224 then Some (2%nat, b - 192, 0x80)
  else if b <? 240 then Some (3%nat, b - 224, 0x800)
  else if b <? 248 then Some (4%nat, b - 240, 0x10000)
  else None.

Lemma utf8_lead_eq b : utf8_lead (uc b) = lead_of (uc b).
Proof. apply (bool_decide_eq_true_1 _). by_bytes. Qed.

Lemma continuation_test b : (Z.land (uc b) 0xc0 =? 0x80) = (128 <=? uc b) && (uc b <? 192).
Proof. apply eqb_true_iff. by_bytes. Qed.

Definition is_cont (b : byte) : Prop := 128 <= uc b < 192.

Lemma utf8_tail_cont b rest c :
  0 <= c < 2 ^ 26 -> is_cont b -> utf8_tail (b :: rest) c = utf8_tail rest (c * 64 + (uc b - 128)).
Proof.
  unfold is_cont. intros Hc Hb. cbn [utf8_tail]. rewrite continuation_test.
  destruct (Z.leb_spec 128 (uc b)); [|lia]. destruct (Z.ltb_spec (uc b) 192); [|lia]. cbn [andb negb].
  f_equal. arith_masks. rewrite u32_small by lia. change 0x3f with 63. arith_masks.
  rewrite (lor_multiple _ c _ 6) by div_lia. div_lia.
Qed.

Lemma utf8_tail_Some b rest c d :
  utf8_tail (b :: rest) c = Some d -> is_cont b.
Proof.
  cbn [utf8_tail]. rewrite continuation_test. unfold is_cont.
  destruct (Z.leb_spec 128 (uc b)), (Z.ltb_spec (uc b) 192); cbn; done || lia.
Qed.

Lemma forbidden_false c m : utf8_forbidden c m = false <-> m <= c /\ c <= 0x10ffff /\ ~ (0xd800 <= c <= 0xdfff).
Proof.
  unfold utf8_forbidden.
  destruct (Z.ltb_spec c m), (Z.gtb_spec c 0x10ffff), (Z.leb_spec 0xd800 c), (Z.leb_spec c 0xdfff);
    cbn; split; done || lia.
Qed.

Lemma utf8_loop_step f b tail rest c0 m c :
  127 < uc b -> lead_of (uc b) = Some (S (length tail), c0, m) ->
  utf8_tail tail c0 = Some c -> utf8_forbidden c m = false ->
  utf8_loop (S f) (b :: tail ++ rest) = utf8_loop f rest.
Proof.
  intros Hb Hlead Htail Hok. cbn [utf8_loop]. destruct (Z.leb_spec (uc b) 0x7f); [lia|].
  rewrite utf8_lead_eq, Hlead. cbn [length]. rewrite length_app.
  destruct (Nat.ltb_spec (S (length tail + length rest)) (S (length tail))); [lia|].
  cbn [Nat.sub]. rewrite Nat.sub_0_r, take_app_length, Htail, Hok, drop_app_length. done.
Qed.

Lemma lead_of_2 x : 0 <= x < 32 -> lead_of (192 + x) = Some (2%nat, x, 0x80).
Proof.
  intros. unfold lead_of. destruct (Z.ltb_spec (192 + x) 192); [lia|].
  destruct (Z.ltb_spec (192 + x) 224); [|lia]. by rewrite Z.add_simpl_l.
Qed.

Lemma lead_of_3 x : 0 <= x < 16 -> lead_of (224 + x) = Some (3%nat, x, 0x800).
Proof.
  intros. unfold lead_of. destruct (Z.ltb_spec (224 + x) 192); [lia|].
  destruct (Z.ltb_spec (224 + x) 224); [lia|]. destruct (Z.ltb_spec (224 + x) 240); [|lia].
  by rewrite Z.add_simpl_l.
Qed.

Lemma lead_of_4 x : 0 <= x < 8 -> lead_of (240 + x) = Some (4%nat, x, 0x10000).
Proof.
  intros. unfold lead_of. destruct (Z.ltb_spec (240 + x) 192); [lia|].
  destruct (Z.ltb_spec (240 + x) 224); [lia|]. destruct (Z.ltb_spec (240 + x) 240); [lia|].
  destruct (Z.ltb_spec (240 + x) 248); [|lia]. by rewrite Z.add_simpl_l.
Qed.

(** A continuation byte built by the encoder. *)
Lemma utf8_tail_chr x rest c :
  0 <= c < 2 ^ 26 -> 0 <= x < 64 -> utf8_tail (chr (128 + x) :: rest) c = utf8_tail rest (c * 64 + x).
Proof.
  intros Hc Hx. rewrite utf8_tail_cont; unfold is_cont; rewrite ?uc_chr_small by lia; try lia.
  f_equal. lia.
Qed.

(** One encoded scalar value is skipped. *)
Lemma utf8_loop_encoded f c rest :
  scalar c -> utf8_loop (S f) (append_utf8 c ++ rest) = utf8_loop f rest.
Proof.
  intros Hc. unfold scalar in Hc.
  destruct (Z.leb_spec c 127); [|destruct (Z.leb_spec c 2047); [|destruct (Z.leb_spec c 65535)]].
  - rewrite append_utf8_1 by lia. cbn [app utf8_loop]. rewrite uc_chr_small by lia.
    destruct (Z.leb_spec c 0x7f); [done|lia].
  - rewrite append_utf8_2 by lia. cbn [app].
    apply (utf8_loop_step _ _ [_] rest (c / 64) 0x80 c); rewrite ?uc_chr_small by div_lia.
    + div_lia.
    + apply lead_of_2. div_lia.
    + rewrite utf8_tail_chr by div_lia. cbn. f_equal. div_lia.
    + apply forbidden_false. lia.
  - rewrite append_utf8_3 by lia. cbn [app].
    apply (utf8_loop_step _ _ [_; _] rest (c / 4096) 0x800 c); rewrite ?uc_chr_small by div_lia.
    + div_lia.
    + apply lead_of_3. div_lia.
    + rewrite !utf8_tail_chr by div_lia. cbn. f_equal. div_lia.
    + apply forbidden_false. lia.
  - rewrite append_utf8_4 by lia. cbn [app].
    apply (utf8_loop_step _ _ [_; _; _] rest (c / 262144) 0x10000 c); rewrite ?uc_chr_small by div_lia.
    + div_lia.
    + apply lead_of_4. div_lia.
    + rewrite !utf8_tail_chr by div_lia. cbn. f_equal. div_lia.
    + apply forbidden_false. lia.
Qed.

Lemma append_utf8_nonempty c : (1 <= length (append_utf8 c))%nat.
Proof. unfold append_utf8. repeat case_match; cbn; lia. Qed.

Lemma utf8_loop_complete cs f :
  Forall scalar cs -> (length cs < f)%nat -> utf8_loop f (utf8_encode cs) = true.
Proof.
  intros Hcs. revert f. induction Hcs as [|c cs Hc _ IH]; intros [|f] Hf; cbn in Hf; try lia; [done|].
  cbn [utf8_encode mbind list_bind]. rewrite utf8_loop_encoded by done. apply IH. lia.
Qed.

(** ** Soundness *)

Lemma tail_1 b c d :
  0 <= c < 32 -> utf8_tail [b] c = Some d -> d = c * 64 + (uc b - 128) /\ is_cont b.
Proof.
  intros Hc H. pose proof (utf8_tail_Some _ _ _ _ H). rewrite utf8_tail_cont in H by (done || lia).
  by injection H as <-.
Qed.

Lemma tail_2 b1 b2 c d :
  0 <= c < 32 -> utf8_tail [b1; b2] c = Some d ->
  d = c * 4096 + (uc b1 - 128) * 64 + (uc b2 - 128) /\ is_cont b1 /\ is_cont b2.
Proof.
  intros Hc H. pose proof (utf8_tail_Some _ _ _ _ H) as H1.
  rewrite utf8_tail_cont in H by (done || lia).
  pose proof (utf8_tail_Some _ _ _ _ H). unfold is_cont in H1.
  rewrite utf8_tail_cont in H by (done || lia). injection H as <-. split; [lia|done].
Qed.

Lemma tail_3 b1 b2 b3 c d :
  0 <= c < 32 -> utf8_tail [b1; b2; b3] c = Some d ->
  d = c * 262144 + (uc b1 - 128) * 4096 + (uc b2 - 128) * 64 + (uc b3 - 128) /\
  is_cont b1 /\ is_cont b2 /\ is_cont b3.
Proof.
  intros Hc H. pose proof (utf8_tail_Some _ _ _ _ H) as H1.
  rewrite utf8_tail_cont in H by (done || lia).
  pose proof (utf8_tail_Some _ _ _ _ H) as H2. unfold is_cont in H1, H2.
  rewrite utf8_tail_cont in H by (done || lia).
  pose proof (utf8_tail_Some _ _ _ _ H). 
  rewrite utf8_tail_cont in H by (done || lia). injection H as <-. split; [lia|done].
Qed.

Lemma chr_eq_byte b z : z = uc b -> b = chr z.
Proof. intros ->. by rewrite chr_uc. Qed.

(** A sequence the validator lets through is the encoding of a scalar value. *)
Lemma sequence_scalar b tail c0 m c :
  127 < uc b -> lead_of (uc b) = Some (S (length tail), c0, m) ->
  utf8_tail tail c0 = Some c -> utf8_forbidden c m = false ->
  scalar c /\ b :: tail = append_utf8 c.
Proof.
  intros Hb Hlead Htail (Hm & Hmax & Hsur)%forbidden_false. pose proof (uc_range b).
  unfold lead_of in Hlead.
  destruct (Z.ltb_spec (uc b) 192); [done|].
  destruct (Z.ltb_spec (uc b) 224); [|destruct (Z.ltb_spec (uc b) 240); [|destruct (Z.ltb_spec (uc b) 248); [|done]]];
    injection Hlead as Hlen <- <-.
  - destruct tail as [|b1 [|]]; try done. apply tail_1 in Htail as [-> C1]; [|lia]. unfold is_cont in *.
    split; [unfold scalar; lia|]. rewrite append_utf8_2 by lia. repeat f_equal; apply chr_eq_byte; div_lia.
  - destruct tail as [|b1 [|b2 [|]]]; try done. apply tail_2 in Htail as (-> & C1 & C2); [|lia].
    unfold is_cont in *. split; [unfold scalar; lia|]. rewrite append_utf8_3 by lia.
    repeat f_equal; apply chr_eq_byte; div_lia.
  - destruct tail as [|b1 [|b2 [|b3 [|]]]]; try done.
    apply tail_3 in Htail as (-> & C1 & C2 & C3); [|lia].
    unfold is_cont in *. split; [unfold scalar; lia|]. rewrite append_utf8_4 by lia.
    repeat f_equal; apply chr_eq_byte; div_lia.
Qed.

Lemma utf8_loop_sound f value :
  utf8_loop f value = true -> exists cs, Forall scalar cs /\ value = utf8_encode cs.
Proof.
  revert value. induction f as [|f IH]; intros value H; [done|]. cbn [utf8_loop] in H.
  destruct value as [|b rest]; [by exists []|]. pose proof (uc_range b).
  destruct (Z.leb_spec (uc b) 0x7f).
  { destruct (IH rest H) as (cs & Hcs & ->). exists (uc b :: cs). split.
    - constructor; [unfold scalar; lia|done].
    - cbn [utf8_encode mbind list_bind]. rewrite append_utf8_1, chr_uc by lia. done. }
  rewrite utf8_lead_eq in H. destruct (lead_of (uc b)) as [[[n c0] m]|] eqn:Hlead; [|done].
  destruct (Nat.ltb_spec (length (b :: rest)) n) as [|Hn]; [done|]. cbn in Hn.
  assert (exists k, n = S k) as [k ->].
  { unfold lead_of in Hlead. repeat (case_match; try done); injection Hlead as <- _ _; eauto. }
  cbn [Nat.sub] in H. rewrite Nat.sub_0_r in H.
  destruct (utf8_tail (take k rest) c0) as [c|] eqn:Htail; [|done].
  destruct (utf8_forbidden c m) eqn:Hok; [done|].
  destruct (IH _ H) as (cs & Hcs & Hrest). assert (length (take k rest) = k) as Hk
    by (rewrite length_take; lia).
  destruct (sequence_scalar b (take k rest) c0 m c ltac:(lia) ltac:(by rewrite Hk) Htail Hok)
    as [Hc Heq].
  exists (c :: cs). split; [by constructor|]. cbn [utf8_encode mbind list_bind].
  rewrite <-Heq. fold (utf8_encode cs). rewrite <-Hrest. cbn. by rewrite take_drop.
Qed.

(** ** Properties *)

(** [valid_utf8] accepts exactly the UTF-8 encodings of sequences of Unicode
    scalar values: no overlong forms, no surrogates, nothing above U+10FFFF, no
    truncated sequence, and every well-formed text. *)
Theorem valid_utf8_spec value :
  valid_utf8 value = true <-> exists cs, Forall scalar cs /\ value = utf8_encode cs.
Proof.
  unfold valid_utf8. split; [apply utf8_loop_sound|].
  intros (cs & Hcs & ->). apply utf8_loop_complete; [done|].
  assert (length cs <= length (utf8_encode cs))%nat; [|lia].
  clear Hcs. induction cs as [|c cs IH]; cbn; [done|].
  rewrite length_app. pose proof (append_utf8_nonempty c). fold (utf8_encode cs). lia.
Qed.

(** A string escape of a code point outside the basic plane is a pair of
    surrogates in JSON; the JSON parser encodes each half on its own, which is not
    UTF-8. *)
Example json_surrogate_pair :
  match parse (x22 :: lit "\ud83d\ude00" ++ [x22]) with
  | Ok (JString s) => valid_utf8 s
  | _ => true
  end = false.
Proof. vm_compute. reflexivity. Qed.
