(* ===== verification/WebSocketServer.v ===== *)
(** * The server's side of a WebSocket connection ([src/http/server.cpp])

    The event-loop handlers that drive an upgraded connection: reading, frame
    processing with fragment reassembly, dispatch to the application, its reply,
    writing, failure and shutdown.  Each handler is a function on the connection
    state; the application's answer, the bytes received and the order of events
    are inputs.  Timers, metrics and allocation failures are left out. *)

From S2P Require Import Prelude WebSocket.

Record Message := mkMessage { m_opcode : WebSocketOpcode; m_payload : bytes }.

#[export] Instance Message_eq_dec : EqDecision Message.
Proof. solve_decision. Defined.

(** [PendingWebSocketMessage], with the message the session was given.  [outcome]
    is [None] until the handler settles: then it is an exception or a reply. *)
Inductive Outcome := Failed | Replied (reply : option Message).

Record Pending := mkPending { request : Message; outcome : option Outcome }.

(** The fields of [ConnectionState] a WebSocket uses.  [websocket] says that the
    session is attached, [cancelled] that [websocket_request->cancel()] was called. *)
Record Conn := mkConn {
  websocket : bool;
  closing : bool;
  close_after_write : bool;
  close_sent : bool;
  close_received : bool;
  cancelled : bool;
  pending : option Pending;
  fragment_opcode : option WebSocketOpcode;
  fragment : bytes;
  input : bytes;
  output : bytes
}.

(** Assignments to one or two fields. *)
Definition set_input (s : bytes) (c : Conn) : Conn :=
  mkConn (websocket c) (closing c) (close_after_write c) (close_sent c) (close_received c)
    (cancelled c) (pending c) (fragment_opcode c) (fragment c) s (output c).

Definition set_output (s : bytes) (c : Conn) : Conn :=
  mkConn (websocket c) (closing c) (close_after_write c) (close_sent c) (close_received c)
    (cancelled c) (pending c) (fragment_opcode c) (fragment c) (input c) s.

Definition set_pending (p : option Pending) (c : Conn) : Conn :=
  mkConn (websocket c) (closing c) (close_after_write c) (close_sent c) (close_received c)
    (cancelled c) p (fragment_opcode c) (fragment c) (input c) (output c).

Definition set_fragment (o : option WebSocketOpcode) (s : bytes) (c : Conn) : Conn :=
  mkConn (websocket c) (closing c) (close_after_write c) (close_sent c) (close_received c)
    (cancelled c) (pending c) o s (input c) (output c).

(** [close_connection], [graceful_close]: the socket is shut and the request
    cancelled. *)
Definition close_connection (c : Conn) : Conn :=
  mkConn (websocket c) true (close_after_write c) (close_sent c) (close_received c)
    true (pending c) (fragment_opcode c) (fragment c) (input c) (output c).

Definition websocket_close_payload (code : Z) (reason : bytes) : result bytes :=
  if negb (valid_close_code code) then Throw (invalid_argument "Invalid WebSocket close code")
  else if (Z.of_nat (length reason) >? 123) || negb (valid_utf8 reason)
  then Throw (invalid_argument "Invalid WebSocket close reason")
  else Ok (chr (Z.land (Z.shiftr code 8) 255) :: chr (Z.land code 255) :: reason).

(** The state [websocket_fail] leaves before it serialises the close frame. *)
Definition abandoned (c : Conn) : Conn :=
  mkConn (websocket c) (closing c) (close_after_write c) (close_sent c) (close_received c)
    true None None [] [] (output c).

(** A close frame queued as the last output. *)
Definition closing_with (frame : bytes) (c : Conn) : Conn :=
  mkConn (websocket c) (closing c) true true (close_received c)
    (cancelled c) (pending c) (fragment_opcode c) (fragment c) (input c) frame.

Definition close_frame (payload : bytes) : result bytes :=
  serialize_server_frame close payload true.

Definition websocket_fail (code : Z) (reason : bytes) (c : Conn) : Conn :=
  if closing c || close_sent c then close_connection c
  else
    let c := abandoned c in
    match (p ← websocket_close_payload code reason; close_frame p) with
    | Ok frame => closing_with frame c
    | _ => close_connection c
    end.

Section Server.
(** [options.max_websocket_message_bytes]. *)
Variable max_message : Z.

Definition dispatch_websocket_message (message : Message) (c : Conn) : Conn :=
  if closing c || negb (websocket c) || bool_decide (pending c <> None)
     || bool_decide (output c <> [])
  then c
  else if Z.of_nat (length (m_payload message)) >? max_message
  then websocket_fail 1009 (lit "Message too large") c
  else if bool_decide (m_opcode message = text) && negb (valid_utf8 (m_payload message))
  then websocket_fail 1007 (lit "Invalid UTF-8") c
  else set_pending (Some (mkPending message None)) c.

(** The big-endian code at the front of a close payload. *)
Definition close_code (payload : bytes) : Z :=
  Z.lor (Z.shiftl (byte_at payload 0) 8) (byte_at payload 1).

(** The [close] case of the switch. *)
Definition process_close (payload : bytes) (c : Conn) : Conn :=
  if (length payload =? 1)%nat then websocket_fail 1002 (lit "Invalid close payload") c
  else if (2 <=? length payload)%nat &&
          (negb (valid_close_code (close_code payload)) || negb (valid_utf8 (drop 2 payload)))
  then websocket_fail 1002 (lit "Invalid close frame") c
  else
    let c := mkConn (websocket c) (closing c) (close_after_write c) (close_sent c) true
               (cancelled c) (pending c) (fragment_opcode c) (fragment c) (input c) (output c) in
    match (p ← match payload with [] => websocket_close_payload 1000 [] | _ => Ok payload end;
           close_frame p) with
    | Ok frame =>
        let c := closing_with frame c in
        mkConn (websocket c) (closing c) (close_after_write c) (close_sent c) (close_received c)
          true (pending c) (fragment_opcode c) (fragment c) (input c) (output c)
    | Throw (length_error _) => websocket_fail 1009 (lit "Message too large") c
    | Throw (invalid_argument _) => websocket_fail 1002 (lit "Protocol error") c
    | _ => websocket_fail 1011 (lit "WebSocket processing error") c
    end.

(** One frame: the new state, and whether the loop goes on ([continue]) or the
    handler returns. *)
Definition process_frame (f : Frame) (c : Conn) : Conn * bool :=
  match opcode f with
  | ping =>
      match serialize_server_frame pong (payload f) true with
      | Ok out => (set_output out c, false)
      | Throw (length_error _) => (websocket_fail 1009 (lit "Message too large") c, false)
      | Throw (invalid_argument _) => (websocket_fail 1002 (lit "Protocol error") c, false)
      | _ => (websocket_fail 1011 (lit "WebSocket processing error") c, false)
      end
  | pong => (c, true)
  | close => (process_close (payload f) c, false)
  | continuation =>
      match fragment_opcode c with
      | None => (websocket_fail 1002 (lit "Unexpected continuation") c, false)
      | Some op =>
          if Z.of_nat (length (payload f)) >?
             max_message - Z.min (Z.of_nat (length (fragment c))) max_message
          then (websocket_fail 1009 (lit "Message too large") c, false)
          else
            let whole := fragment c ++ payload f in
            if negb (final f) then (set_fragment (Some op) whole c, true)
            else (dispatch_websocket_message (mkMessage op whole) (set_fragment None [] c), false)
      end
  | text | binary =>
      match fragment_opcode c with
      | Some _ =>
          (websocket_fail 1002 (lit "New data frame before fragmented message completed") c, false)
      | None =>
          if final f
          then (dispatch_websocket_message (mkMessage (opcode f) (payload f)) c, false)
          else (set_fragment (Some (opcode f)) (payload f) c, true)
      end
  end.

(** The condition of the processing loop. *)
Definition ready (c : Conn) : bool :=
  negb (closing c) && websocket c && bool_decide (pending c = None) && bool_decide (output c = []).

(** [process_websocket_buffer]: one frame per unit of fuel. *)
Fixpoint process_loop (fuel : nat) (c : Conn) : result Conn :=
  match fuel with
  | O => NoFuel
  | S f =>
      if negb (ready c) then Ok c
      else
        match parse_client_frame (input c) max_message with
        | Ok (mkParse None _) =>
            if Z.of_nat (length (input c)) >? u64 (max_message + 14)
            then Ok (websocket_fail 1009 (lit "Message too large") c)
            else Ok c
        | Ok (mkParse (Some fr) n) =>
            match process_frame fr (set_input (drop (Z.to_nat n) (input c)) c) with
            | (c', true) => process_loop f c'
            | (c', false) => Ok c'
            end
        | Throw (length_error _) => Ok (websocket_fail 1009 (lit "Message too large") c)
        | Throw (invalid_argument _) => Ok (websocket_fail 1002 (lit "Protocol error") c)
        | Throw _ => Ok (websocket_fail 1011 (lit "WebSocket processing error") c)
        | NoFuel => NoFuel
        end
  end.

Definition process_websocket_buffer (c : Conn) : result Conn :=
  process_loop (S (length (input c))) c.

(** One turn of the loop of [websocket_read_ready] that made progress. *)
Definition websocket_receive (chunk : bytes) (c : Conn) : result Conn :=
  if closing c || bool_decide (pending c <> None) || bool_decide (output c <> []) then Ok c
  else process_websocket_buffer (set_input (input c ++ chunk) c).

(** [settle_websocket_message]: the handler returned or threw. *)
Definition settle (o : Outcome) (c : Conn) : Conn :=
  match pending c with
  | Some (mkPending m None) => set_pending (Some (mkPending m (Some o))) c
  | _ => c
  end.

Definition complete_ready_websocket (c : Conn) : result Conn :=
  match pending c with
  | Some (mkPending _ (Some o)) =>
      if closing c then Ok c
      else
        let c := set_pending None c in
        match o with
        | Failed => Ok (websocket_fail 1011 (lit "Message handler failed") c)
        | Replied None => process_websocket_buffer c
        | Replied (Some reply) =>
            if Z.of_nat (length (m_payload reply)) >? max_message
            then Ok (websocket_fail 1009 (lit "Reply too large") c)
            else if bool_decide (m_opcode reply = continuation)
            then Ok (websocket_fail 1011 (lit "Invalid application reply opcode") c)
            else if bool_decide (m_opcode reply = text) && negb (valid_utf8 (m_payload reply))
            then Ok (websocket_fail 1011 (lit "Application returned invalid UTF-8") c)
            else
              match serialize_server_frame (m_opcode reply) (m_payload reply) true with
              | Ok out =>
                  Ok (if bool_decide (m_opcode reply = close)
                      then closing_with out c else set_output out c)
              | _ => Ok (websocket_fail 1011 (lit "Unable to serialize WebSocket reply") c)
              end
        end
  | _ => Ok c
  end.

(** The end of the write handler, when the whole output went out. *)
Definition write_complete (c : Conn) : result Conn :=
  let finish := close_after_write c in
  let c := mkConn (websocket c) (closing c) false (close_sent c) (close_received c)
             (cancelled c) (pending c) (fragment_opcode c) (fragment c) (input c) [] in
  if finish then Ok (close_connection c) else process_websocket_buffer c.

(** The shutdown branch for WebSocket connections. *)
Definition shutdown (c : Conn) : Conn :=
  let c := mkConn (websocket c) (closing c) (close_after_write c) (close_sent c)
             (close_received c) true (pending c) (fragment_opcode c) (fragment c) [] (output c) in
  if bool_decide (output c = []) && negb (close_sent c) then
    match (p ← websocket_close_payload 1001 (lit "Server shutdown"); close_frame p) with
    | Ok frame => closing_with frame c
    | _ => close_connection c
    end
  else mkConn (websocket c) (closing c) true (close_sent c) (close_received c)
         (cancelled c) (pending c) (fragment_opcode c) (fragment c) (input c) (output c).
End Server.
