(* ===== verification/WebSocketServerFacts.v ===== *)
(** * The WebSocket connection: safety, bounds and reassembly *)

From S2P Require Import Prelude WebSocket WebSocketFacts WebSocketServer.

Section Facts.
Context (max_message : Z).

(** ** A failed or answering connection stops processing *)

Lemma serialize_nonempty o p fin out : serialize_server_frame o p fin = Ok out -> out <> [].
Proof. unfold serialize_server_frame. repeat case_match; by intros [= <-]. Qed.

Lemma ready_closing c : closing c = true -> ready c = false.
Proof. unfold ready. by intros ->. Qed.

Lemma ready_output c : output c <> [] -> ready c = false.
Proof. unfold ready. intros H. rewrite (bool_decide_false (output c = [])) by done. by rewrite andb_false_r. Qed.

Lemma ready_pending c : pending c <> None -> ready c = false.
Proof.
  unfold ready. intros H. rewrite (bool_decide_false (pending c = None)) by done.
  by rewrite andb_false_r.
Qed.

Lemma ready_inv c :
  ready c = true -> closing c = false /\ websocket c = true /\ pending c = None /\ output c = [].
Proof. unfold ready. intros H. by reflect_bools. Qed.

Lemma websocket_fail_stops code reason c : ready (websocket_fail code reason c) = false.
Proof.
  unfold websocket_fail. destruct (closing c || close_sent c); [by apply ready_closing|].
  destruct (websocket_close_payload code reason) as [p| |]; cbn [mbind result_bind];
    [|by apply ready_closing..].
  destruct (close_frame p) as [out| |] eqn:E; [|by apply ready_closing..].
  apply ready_output. cbn. by eapply serialize_nonempty.
Qed.

Lemma websocket_fail_input code reason c :
  input (websocket_fail code reason c) = input c \/ input (websocket_fail code reason c) = [].
Proof. unfold websocket_fail. repeat case_match; cbn; auto. Qed.

Lemma dispatch_stops m c :
  ready c = true -> ready (dispatch_websocket_message max_message m c) = false.
Proof.
  intros H. unfold dispatch_websocket_message. repeat case_match; try apply websocket_fail_stops.
  - apply ready_inv in H as (H1 & H2 & H3 & H4). rewrite H1, H2, H3, H4 in *. cbn in *. done.
  - by apply ready_pending.
Qed.

Lemma process_close_stops p c : ready (process_close p c) = false.
Proof.
  unfold process_close. case_match; [apply websocket_fail_stops|].
  case_match; [apply websocket_fail_stops|].
  destruct (_ ≫= _) as [out|e|] eqn:E; [|destruct e; apply websocket_fail_stops|
                                          apply websocket_fail_stops].
  apply ready_output. cbn. apply bind_Ok in E as (q & _ & E). by eapply serialize_nonempty.
Qed.

(** The loop goes on after a frame exactly when the connection stays ready. *)
Lemma process_frame_ready f c c' go :
  ready c = true -> process_frame max_message f c = (c', go) ->
  ready c' = go /\ (go = true -> input c' = input c).
Proof.
  intros Hr. unfold process_frame. intros H. destruct (opcode f).
  - destruct (fragment_opcode c) as [op|]; [|injection H as <- <-; split; [apply websocket_fail_stops|done]].
    case_match; [injection H as <- <-; split; [apply websocket_fail_stops|done]|].
    case_match; injection H as <- <-; [done|]. split; [by apply dispatch_stops|done].
  - destruct (fragment_opcode c) as [op|]; [injection H as <- <-; split; [apply websocket_fail_stops|done]|].
    case_match; injection H as <- <-; [|done]. split; [by apply dispatch_stops|done].
  - destruct (fragment_opcode c) as [op|]; [injection H as <- <-; split; [apply websocket_fail_stops|done]|].
    case_match; injection H as <- <-; [|done]. split; [by apply dispatch_stops|done].
  - injection H as <- <-. split; [apply process_close_stops|done].
  - destruct (serialize_server_frame _ _ _) as [out|e|] eqn:E.
    + injection H as <- <-. split; [|done]. apply ready_output. cbn. by eapply serialize_nonempty.
    + destruct e; injection H as <- <-; (split; [apply websocket_fail_stops|done]).
    + injection H as <- <-. split; [apply websocket_fail_stops|done].
  - by injection H as <- <-.
Qed.

(** ** Termination of the processing loop *)

Lemma parsed_progress input0 fr n :
  parse_client_frame input0 max_message = Ok (mkParse (Some fr) n) ->
  (6 <= Z.to_nat n <= length input0)%nat.
Proof.
  intros (_ & _ & mask & rest & Hm & -> & ->)%parse_client_frame_sound.
  rewrite Nat2Z.id, length_app, client_frame_length by done. lia.
Qed.

Lemma process_loop_terminates f c :
  (length (input c) < f)%nat -> exists c', process_loop max_message f c = Ok c'.
Proof.
  revert c. induction f as [|f IH]; intros c Hf; [lia|]. cbn [process_loop].
  destruct (ready c) eqn:Hr; cbn [negb]; [|eauto].
  destruct (parse_client_frame (input c) max_message) as [[[fr|] n]|e|] eqn:Hp.
  - pose proof (parsed_progress _ _ _ Hp).
    destruct (process_frame _ fr _) as [c' []] eqn:E; [|eauto].
    apply process_frame_ready in E as [_ E]; [|done]. apply IH. rewrite E by done. cbn.
    rewrite length_drop. lia.
  - case_match; eauto.
  - destruct e; eauto.
  - destruct (parse_client_frame_cases (input c) max_message) as [[? E]|[E|(? & ? & E)]];
      congruence.
Qed.

Lemma process_loop_more f f' c c' :
  process_loop max_message f c = Ok c' -> (f <= f')%nat -> process_loop max_message f' c = Ok c'.
Proof.
  revert f' c. induction f as [|f IH]; intros [|f'] c H Hle; [done|done|lia|].
  cbn [process_loop] in *. destruct (negb (ready c)); [done|].
  destruct (parse_client_frame (input c) max_message) as [[[fr|] n]|e|]; [|done..].
  destruct (process_frame _ fr _) as [c1 []]; [|done]. apply IH; [done|lia].
Qed.

Lemma process_buffer_loop f c c' :
  process_loop max_message f c = Ok c' -> process_websocket_buffer max_message c = Ok c'.
Proof.
  intros H. unfold process_websocket_buffer.
  destruct (process_loop_terminates (S (length (input c))) c ltac:(lia)) as [c1 H1].
  rewrite H1. apply (process_loop_more _ (Nat.max f (S (length (input c))))) in H, H1; [|lia..]. congruence.
Qed.

(** ** Chunks *)

(** The state of the processing loop after more input has arrived. *)
Definition more_input (b : bytes) (c : Conn) : Conn := set_input (input c ++ b) c.

Lemma process_frame_input s f c c' :
  ready c = true -> process_frame max_message f c = (c', true) ->
  process_frame max_message f (set_input s c) = (set_input s c', true).
Proof.
  intros Hr H. pose proof (process_frame_ready f c c' true Hr H) as [Hr' _].
  unfold process_frame in *. destruct (opcode f); cbn [fragment_opcode fragment set_input] in *.
  - destruct (fragment_opcode c) as [op|]; [|done]. case_match; [done|].
    case_match; [|done]. by injection H as <-.
  - destruct (fragment_opcode c) as [op|]; [done|]. case_match; [done|]. by injection H as <-.
  - destruct (fragment_opcode c) as [op|]; [done|]. case_match; [done|]. by injection H as <-.
  - done.
  - by repeat case_match.
  - by injection H as <-.
Qed.

Lemma parse_more input0 b fr n :
  parse_client_frame input0 max_message = Ok (mkParse (Some fr) n) ->
  parse_client_frame (input0 ++ b) max_message = Ok (mkParse (Some fr) n).
Proof.
  intros (Hok & Hmax & mask & rest & Hm & -> & ->)%parse_client_frame_sound.
  rewrite <-app_assoc. by apply parse_client_frame_complete.
Qed.

(** Processing a first part and then the rest is processing the whole. *)
Lemma process_loop_chunks f c c1 b f' c2 :
  process_loop max_message f c = Ok c1 -> ready c1 = true ->
  process_loop max_message f' (more_input b c1) = Ok c2 ->
  process_websocket_buffer max_message (more_input b c) = Ok c2.
Proof.
  revert c. induction f as [|f IH]; intros c H Hr1 H2; [done|]. cbn [process_loop] in H.
  destruct (ready c) eqn:Hr; cbn [negb] in H.
  2:{ injection H as ->. by eapply process_buffer_loop. }
  destruct (parse_client_frame (input c) max_message) as [[[fr|] n]|e|] eqn:Hp; [| | |done].
  - pose proof (parsed_progress _ _ _ Hp).
    destruct (process_frame _ fr _) as [c' []] eqn:E.
    + specialize (IH c' H Hr1 H2). unfold process_websocket_buffer in IH.
      pose proof (process_frame_ready fr _ _ _ (Hr : ready (set_input _ c) = true) E) as [_ Hin].
      apply (process_frame_input (drop (Z.to_nat n) (input c ++ b))) in E; [|done].
      eapply (process_buffer_loop (S (S (length (input (more_input b c')))))).
      cbn [process_loop]. change (ready (more_input b c)) with (ready c). rewrite Hr. cbn [negb].
      change (input (more_input b c)) with (input c ++ b). rewrite (parse_more _ _ _ _ Hp).
      assert (process_frame max_message fr
                (set_input (drop (Z.to_nat n) (input c ++ b)) (more_input b c)) =
              (set_input (drop (Z.to_nat n) (input c ++ b)) c', true)) as -> by exact E.
      rewrite drop_app_le by lia.
      replace (set_input _ c') with (more_input b c'); [done|].
      unfold more_input. by rewrite Hin.
    + injection H as ->. apply process_frame_ready in E as [E _]; [congruence|exact Hr].
  - case_match; injection H as <-; [by rewrite websocket_fail_stops in Hr1|].
    by eapply process_buffer_loop.
  - destruct e; injection H as <-; by rewrite websocket_fail_stops in Hr1.
Qed.

Lemma process_buffer_chunks c c1 b :
  process_websocket_buffer max_message c = Ok c1 -> ready c1 = true ->
  process_websocket_buffer max_message (more_input b c) =
  process_websocket_buffer max_message (more_input b c1).
Proof.
  intros H Hr. unfold process_websocket_buffer at 2.
  destruct (process_loop_terminates (S (length (input (more_input b c1)))) (more_input b c1) ltac:(lia))
    as [c2 H2]. rewrite H2. by eapply process_loop_chunks.
Qed.

(** ** What reaches the application *)

Definition is_data (o : WebSocketOpcode) : Prop := o = text \/ o = binary.

(** A message the session may be given. *)
Definition deliverable (m : Message) : Prop :=
  is_data (m_opcode m) /\ Z.of_nat (length (m_payload m)) <= max_message /\
  (m_opcode m = text -> valid_utf8 (m_payload m) = true).

Definition fragment_ok (c : Conn) : Prop :=
  match fragment_opcode c with
  | None => fragment c = []
  | Some o => is_data o /\ Z.of_nat (length (fragment c)) <= max_message
  end.

Definition conn_ok (c : Conn) : Prop :=
  fragment_ok c /\ forall p, pending c = Some p -> deliverable (request p).

Lemma websocket_fail_ok code reason c : conn_ok c -> conn_ok (websocket_fail code reason c).
Proof.
  intros [Hf Hp]. unfold websocket_fail. destruct (_ || _); [by split|].
  destruct (_ ≫= _); by split.
Qed.

Lemma dispatch_ok m c :
  conn_ok c -> is_data (m_opcode m) -> conn_ok (dispatch_websocket_message max_message m c).
Proof.
  intros Hc Hm. unfold dispatch_websocket_message. case_match; [done|].
  destruct (Z.gtb_spec (Z.of_nat (length (m_payload m))) max_message);
    [by apply websocket_fail_ok|].
  case_match eqn:E; [by apply websocket_fail_ok|]. split; [by destruct Hc|].
  intros p [= <-]. split; [done|]. split; [done|]. cbn [request]. intros Ht.
  rewrite bool_decide_true in E by done. by destruct (valid_utf8 (m_payload m)).
Qed.

Lemma process_frame_ok f c :
  conn_ok c -> payload_size f <= max_message -> conn_ok (process_frame max_message f c).1.
Proof.
  intros Hc Hf. unfold payload_size in Hf. pose proof Hc as [Hfrag Hpend]. unfold fragment_ok in Hfrag.
  unfold process_frame. destruct (opcode f) eqn:Hop.
  - destruct (fragment_opcode c) as [o|]; [|by apply websocket_fail_ok]. destruct Hfrag as [Ho Hlen].
    destruct (Z.gtb_spec (Z.of_nat (length (payload f)))
                (max_message - Z.min (Z.of_nat (length (fragment c))) max_message));
      [by apply websocket_fail_ok|]. case_match; cbn [fst].
    + split; [|done]. split; [done|]. cbn. rewrite length_app. lia.
    + by apply dispatch_ok.
  - destruct (fragment_opcode c) as [o|]; [by apply websocket_fail_ok|].
    case_match; [by apply dispatch_ok; [|left]|]. split; [|done]. split; [by left|done].
  - destruct (fragment_opcode c) as [o|]; [by apply websocket_fail_ok|].
    case_match; [by apply dispatch_ok; [|right]|]. split; [|done]. split; [by right|done].
  - clear Hfrag. cbn [fst]. unfold process_close. case_match; [by apply websocket_fail_ok|].
    case_match; [by apply websocket_fail_ok|].
    destruct (_ ≫= _) as [|e|]; [done|destruct e; by apply websocket_fail_ok|by apply websocket_fail_ok].
  - destruct (serialize_server_frame _ _ _) as [|e|]; [done|destruct e; by apply websocket_fail_ok|
                                                      by apply websocket_fail_ok].
  - done.
Qed.

Lemma process_loop_ok f c c' :
  conn_ok c -> process_loop max_message f c = Ok c' -> conn_ok c'.
Proof.
  revert c. induction f as [|f IH]; intros c Hc H; [done|]. cbn [process_loop] in H.
  destruct (negb (ready c)); [by injection H as <-|].
  destruct (parse_client_frame (input c) max_message) as [[[fr|] n]|e|] eqn:Hp; [| | |done].
  - apply parse_client_frame_sound in Hp as (_ & Hmax & _).
    pose proof (process_frame_ok fr (set_input (drop (Z.to_nat n) (input c)) c) Hc Hmax) as Hok.
    destruct (process_frame _ fr _) as [c1 []]; [by eapply IH|by injection H as <-].
  - case_match; injection H as <-; [by apply websocket_fail_ok|done].
  - destruct e; injection H as <-; by apply websocket_fail_ok.
Qed.

(** ** The input buffer is bounded *)

Lemma incomplete_bound input0 :
  0 <= max_message -> parse_client_frame input0 max_message = Ok incomplete ->
  Z.of_nat (length input0) < max_message + 14.
Proof.
  intros Hmax. unfold parse_client_frame. set (size := Z.of_nat (length input0)) in *.
  destruct (Z.ltb_spec size 2); [lia|].
  destruct (negb _); [done|]. destruct (negb _); [done|]. destruct (negb _); [done|].
  destruct (read_size _ _) as [[[s cursor]|]| |] eqn:Hr; [| |done..]; cbn [mbind result_bind].
  - destruct (_ && _); [done|]. destruct (Z.gtb_spec s max_message); [done|]. case_match; [done|].
    destruct input0 as [|b0 [|b1 rest]]; [done..|].
    apply read_size_inv in Hr as (_ & Hs & _ & _ & ->); [|apply land127_range].
    pose proof (size_tail_length s). rewrite u64_small by lia.
    destruct (Z.ltb_spec size (Z.of_nat (2 + length (size_tail s)) + 4)); [lia|].
    destruct (Z.ltb_spec size (Z.of_nat (2 + length (size_tail s) + 4) + s)); [lia|done].
  - unfold read_size in Hr. destruct (_ =? 126); [|destruct (_ =? 127); [|done]].
    + destruct (Nat.ltb_spec (length input0) 4); [lia|]. by case_match.
    + destruct (Nat.ltb_spec (length input0) 10); [lia|]. by repeat case_match.
Qed.

Lemma process_frame_shrinks f c :
  (length (input (process_frame max_message f c).1) <= length (input c))%nat.
Proof.
  assert (forall code reason d, (length (input (websocket_fail code reason d)) <= length (input d))%nat) as Hfail.
  { intros code reason d. destruct (websocket_fail_input code reason d) as [->| ->]; cbn; lia. }
  assert (forall m d, (length (input (dispatch_websocket_message max_message m d)) <= length (input d))%nat) as Hd.
  { intros m d. unfold dispatch_websocket_message. repeat case_match; done || apply Hfail. }
  unfold process_frame. destruct (opcode f); cbn [fst].
  - destruct (fragment_opcode c); [|apply Hfail]. case_match; [apply Hfail|].
    case_match; [done|]. etrans; [apply Hd|done].
  - destruct (fragment_opcode c); [apply Hfail|]. case_match; [apply Hd|done].
  - destruct (fragment_opcode c); [apply Hfail|]. case_match; [apply Hd|done].
  - unfold process_close. case_match; [apply Hfail|]. case_match; [apply Hfail|].
    destruct (_ ≫= _) as [|e|]; [done|destruct e; (etrans; [apply Hfail|done])|etrans; [apply Hfail|done]].
  - destruct (serialize_server_frame _ _ _) as [|e|]; [done|destruct e; apply Hfail|apply Hfail].
  - done.
Qed.

Lemma process_loop_bound f c c' :
  0 <= max_message -> process_loop max_message f c = Ok c' ->
  (length (input c') <= length (input c))%nat /\
  (ready c' = true -> Z.of_nat (length (input c')) < max_message + 14).
Proof.
  intros Hmax. revert c. induction f as [|f IH]; intros c H; [done|]. cbn [process_loop] in H.
  destruct (ready c) eqn:Hr; cbn [negb] in H; [|injection H as <-; split; [done|congruence]].
  destruct (parse_client_frame (input c) max_message) as [[[fr|] n]|e|] eqn:Hp; [| | |done].
  - pose proof (process_frame_shrinks fr (set_input (drop (Z.to_nat n) (input c)) c)) as Hs.
    cbn [input set_input] in Hs. rewrite length_drop in Hs.
    destruct (process_frame _ fr _) as [c1 []] eqn:E; cbn [fst] in Hs.
    + apply IH in H as [H1 H2]. split; [lia|done].
    + injection H as <-. apply process_frame_ready in E as [E _]; [|exact Hr].
      split; [lia|congruence].
  - assert (parse_client_frame (input c) max_message = Ok incomplete) as Hi.
    { by destruct (parse_client_frame_cases (input c) max_message) as [[? E]|[E|(?&?&E)]];
        rewrite Hp in E |- *. }
    apply incomplete_bound in Hi; [|done].
    case_match; injection H as <-; [|by split].
    split; [|by rewrite websocket_fail_stops].
    destruct (websocket_fail_input 1009 (lit "Message too large") c) as [->| ->]; cbn; lia.
  - assert (forall code reason, (length (input (websocket_fail code reason c)) <= length (input c))%nat) as Hfail
      by (intros code reason; destruct (websocket_fail_input code reason c) as [->| ->]; cbn; lia).
    destruct e; injection H as <-; (split; [apply Hfail|by rewrite websocket_fail_stops]).
Qed.

(** ** Runs of the event loop *)

(** What one event makes of the connection: a read of at most 8192 bytes, the
    handler settling, the loop noticing it, a completed write, a shutdown. *)
Inductive ws_step : Conn -> Conn -> Prop :=
| ws_receive chunk c c' :
    Z.of_nat (length chunk) <= 8192 -> websocket_receive max_message chunk c = Ok c' -> ws_step c c'
| ws_settle o c : ws_step c (settle o c)
| ws_complete c c' : complete_ready_websocket max_message c = Ok c' -> ws_step c c'
| ws_written c c' : write_complete max_message c = Ok c' -> ws_step c c'
| ws_shutdown c : ws_step c (shutdown c).

(** A connection just upgraded: the response is queued, and bytes the client sent
    after its request may be waiting. *)
Definition upgraded (response leftover : bytes) : Conn :=
  mkConn true false false false false false None None [] leftover response.

Lemma process_buffer_ok c c' :
  conn_ok c -> process_websocket_buffer max_message c = Ok c' -> conn_ok c'.
Proof. apply process_loop_ok. Qed.

Lemma complete_ok c c' :
  conn_ok c -> complete_ready_websocket max_message c = Ok c' -> conn_ok c'.
Proof.
  intros Hc0. unfold complete_ready_websocket.
  destruct (pending c) as [[m [o|]]|]; [|by intros [= <-]..].
  destruct (closing c); [by intros [= <-]|].
  assert (conn_ok (set_pending None c)) as Hc by (by destruct Hc0; split).
  destruct o as [|[reply|]]; [intros [= <-]; by apply websocket_fail_ok| |by apply process_buffer_ok].
  destruct (_ >? _); [intros [= <-]; by apply websocket_fail_ok|].
  case_bool_decide; [intros [= <-]; by apply websocket_fail_ok|].
  destruct (_ && _); [intros [= <-]; by apply websocket_fail_ok|].
  destruct (serialize_server_frame _ _ _); intros [= <-]; [|by apply websocket_fail_ok..].
  by case_bool_decide.
Qed.

Lemma shutdown_ok c : conn_ok c -> conn_ok (shutdown c).
Proof. intros [Hf Hp]. unfold shutdown. destruct (_ && _); [destruct (_ ≫= _)|]; by split. Qed.

Lemma settle_ok o c : conn_ok c -> conn_ok (settle o c).
Proof.
  intros Hc. unfold settle. destruct (pending c) as [[m [|]]|] eqn:E; [done| |done].
  destruct Hc as [Hf Hp]. split; [done|]. intros p [= <-]. by apply (Hp (mkPending m None)).
Qed.

Lemma ws_step_ok c c' : ws_step c c' -> conn_ok c -> conn_ok c'.
Proof.
  destruct 1 as [chunk c c' _ H|o c|c c' H|c c' H|c]; intros Hc.
  - unfold websocket_receive in H. destruct (_ || _); [by injection H as <-|].
    eapply process_buffer_ok; [|exact H]. exact Hc.
  - by apply settle_ok.
  - by eapply complete_ok.
  - unfold write_complete in H. destruct (close_after_write c); [by injection H as <-|].
    eapply process_buffer_ok; [|exact H]. exact Hc.
  - by apply shutdown_ok.
Qed.

(** Never more than [limit] bytes wait, and at most one frame's worth when the
    connection is ready for more. *)
Definition input_ok (limit : Z) (c : Conn) : Prop :=
  Z.of_nat (length (input c)) <= limit /\
  (ready c = true -> Z.of_nat (length (input c)) < max_message + 14).

Lemma input_ok_stopped limit c c' :
  input_ok limit c -> (length (input c') <= length (input c))%nat -> ready c' = false ->
  input_ok limit c'.
Proof. intros [H _] Hle Hr. split; [lia|congruence]. Qed.

Lemma fail_shrinks code reason c :
  (length (input (websocket_fail code reason c)) <= length (input c))%nat.
Proof. destruct (websocket_fail_input code reason c) as [->| ->]; cbn; lia. Qed.

Lemma input_ok_fail limit code reason c :
  Z.of_nat (length (input c)) <= limit -> input_ok limit (websocket_fail code reason c).
Proof.
  intros H. pose proof (fail_shrinks code reason c).
  split; [lia|]. by rewrite websocket_fail_stops.
Qed.

Lemma input_ok_process limit c c' :
  0 <= max_message -> Z.of_nat (length (input c)) <= limit ->
  process_websocket_buffer max_message c = Ok c' -> input_ok limit c'.
Proof. intros Hm Hl H. apply process_loop_bound in H as [H1 H2]; [|done]. split; [lia|done]. Qed.

Lemma input_ok_complete limit c c' :
  0 <= max_message -> input_ok limit c ->
  complete_ready_websocket max_message c = Ok c' -> input_ok limit c'.
Proof.
  intros Hm Hc. pose proof Hc as [Hl _]. unfold complete_ready_websocket.
  destruct (pending c) as [[m [o|]]|]; [|by intros [= <-]..].
  destruct (closing c); [by intros [= <-]|].
  destruct o as [|[reply|]]; [intros [= <-]; by apply input_ok_fail| |by apply input_ok_process].
  destruct (_ >? _); [intros [= <-]; by apply input_ok_fail|].
  case_bool_decide; [intros [= <-]; by apply input_ok_fail|].
  destruct (_ && _); [intros [= <-]; by apply input_ok_fail|].
  destruct (serialize_server_frame _ _ _) as [out| |] eqn:E; intros [= <-]; [|by apply input_ok_fail..].
  apply serialize_nonempty in E.
  case_bool_decide; (apply (input_ok_stopped _ c); [done|done|by apply ready_output]).
Qed.

Lemma input_ok_shutdown limit c : 0 <= max_message -> input_ok limit c -> input_ok limit (shutdown c).
Proof.
  intros Hm [Hl _]. assert (0 <= limit) by lia.
  assert (input (shutdown c) = []) as E.
  { unfold shutdown. destruct (_ && _); [destruct (_ ≫= _)|]; done. }
  split; rewrite E; cbn; lia.
Qed.

Lemma input_ok_settle limit o c : input_ok limit c -> input_ok limit (settle o c).
Proof.
  intros Hc. unfold settle. destruct (pending c) as [[m [|]]|]; try done.
  apply (input_ok_stopped _ c); [done|done|by apply ready_pending].
Qed.

Lemma ws_step_input limit c c' :
  0 <= max_message -> max_message + 14 + 8192 <= limit -> ws_step c c' ->
  websocket c = true -> input_ok limit c -> input_ok limit c'.
Proof.
  intros Hm Hlim. destruct 1 as [chunk c c' Hlen H|o c|c c' H|c c' H|c]; intros Hw Hc.
  - unfold websocket_receive in H. destruct (_ || _) eqn:E; [by injection H as <-|].
    reflect_bools. apply (input_ok_process limit) in H; [done|done|]. cbn. rewrite length_app.
    destruct Hc as [_ Hc]. assert (ready c = true) as Hr.
    { unfold ready. rewrite H0, Hw. rewrite !bool_decide_true; [done|..]; by apply dec_stable. }
    specialize (Hc Hr). lia.
  - by apply input_ok_settle.
  - by eapply input_ok_complete.
  - destruct Hc as [Hl _]. unfold write_complete in H. destruct (close_after_write c).
    + injection H as <-. split; [done|]. by rewrite ready_closing.
    + by apply (input_ok_process limit) in H.
  - by apply input_ok_shutdown.
Qed.

(** The session stays attached. *)
Lemma fail_websocket code reason c : websocket (websocket_fail code reason c) = websocket c.
Proof. unfold websocket_fail. by repeat case_match. Qed.

Lemma dispatch_websocket m c : websocket (dispatch_websocket_message max_message m c) = websocket c.
Proof. unfold dispatch_websocket_message. repeat case_match; done || apply fail_websocket. Qed.

Lemma process_frame_websocket f c : websocket (process_frame max_message f c).1 = websocket c.
Proof.
  unfold process_frame. destruct (opcode f); cbn [fst]; try unfold process_close;
    repeat case_match; cbn [fst]; rewrite ?fail_websocket, ?dispatch_websocket; done.
Qed.

Lemma process_loop_websocket f c c' :
  process_loop max_message f c = Ok c' -> websocket c' = websocket c.
Proof.
  revert c. induction f as [|f IH]; intros c H; [done|]. cbn [process_loop] in H.
  destruct (negb (ready c)); [by injection H as <-|].
  destruct (parse_client_frame (input c) max_message) as [[[fr|] n]|e|]; [| | |done].
  - pose proof (process_frame_websocket fr (set_input (drop (Z.to_nat n) (input c)) c)) as Hw.
    destruct (process_frame _ fr _) as [c1 []]; cbn [fst] in Hw; [|by injection H as <-].
    rewrite (IH _ H). exact Hw.
  - case_match; injection H as <-; [apply fail_websocket|done].
  - destruct e; injection H as <-; apply fail_websocket.
Qed.

Lemma ws_step_websocket c c' : ws_step c c' -> websocket c' = websocket c.
Proof.
  destruct 1 as [chunk c c' _ H|o c|c c' H|c c' H|c].
  - unfold websocket_receive in H. destruct (_ || _); [by injection H as <-|].
    by apply process_loop_websocket in H.
  - unfold settle. by repeat case_match.
  - unfold complete_ready_websocket in H.
    destruct (pending c) as [[m [o|]]|]; [|by injection H as <-..].
    destruct (closing c); [by injection H as <-|].
    destruct o as [|[reply|]]; [injection H as <-; by rewrite fail_websocket| |
                                by apply process_loop_websocket in H].
    repeat case_match; injection H as <-; rewrite ?fail_websocket; done.
  - unfold write_complete in H. destruct (close_after_write c); [by injection H as <-|].
    by apply process_loop_websocket in H.
  - unfold shutdown. by repeat case_match.
Qed.

Lemma ws_run_ok response leftover c :
  0 <= max_message -> response <> [] -> rtc ws_step (upgraded response leftover) c ->
  conn_ok c /\ websocket c = true /\
  input_ok (Z.max (Z.of_nat (length leftover)) (max_message + 14 + 8192)) c.
Proof.
  intros Hm Hresp H. remember (upgraded response leftover) as c0 eqn:E.
  set (limit := Z.max _ _).
  assert (conn_ok c0 /\ websocket c0 = true /\ input_ok limit c0) as H0.
  { subst c0. split; [by split|]. split; [done|]. split; [cbn; lia|]. by rewrite ready_output. }
  clear E. induction H as [|c1 c2 c3 Hs _ IH]; [done|]. apply IH. destruct H0 as (H1 & H2 & H3).
  split; [by eapply ws_step_ok|]. split; [by rewrite (ws_step_websocket _ _ Hs)|].
  eapply ws_step_input; [done| |done..]. lia.
Qed.

(** ** Reassembly of fragmented messages *)

(** The frames after the first of a fragmented message that carry [w] between
    them; pongs may come in between. *)
Inductive continues : list Frame -> bytes -> Prop :=
| continues_last p : continues [mkFrame true continuation p] p
| continues_more p fs w : continues fs w -> continues (mkFrame false continuation p :: fs) (p ++ w)
| continues_pong p fs w :
    Z.of_nat (length p) <= 125 -> continues fs w -> continues (mkFrame true pong p :: fs) w.

(** The frames that carry one message of kind [op]. *)
Inductive carries (op : WebSocketOpcode) : list Frame -> bytes -> Prop :=
| carries_whole p : carries op [mkFrame true op p] p
| carries_fragments p fs w : continues fs w -> carries op (mkFrame false op p :: fs) (p ++ w)
| carries_pong p fs w :
    Z.of_nat (length p) <= 125 -> carries op fs w -> carries op (mkFrame true pong p :: fs) w.

(** Frames on the wire, each under a masking key of its own. *)
Definition wire (l : list (bytes * Frame)) : bytes := l ≫= fun mf => client_frame mf.1 mf.2.

Definition keys_ok (l : list (bytes * Frame)) : Prop := Forall (fun mf => length mf.1 = 4%nat) l.

(** The connection with the message handed to the session. *)
Definition delivered (m : Message) (c : Conn) : Conn := set_pending (Some (mkPending m None)) c.

Lemma process_step f mask fr rest c c' :
  ready c = true -> length mask = 4%nat -> frame_ok fr -> payload_size fr <= max_message ->
  process_frame max_message fr (set_input rest c) = (c', true) ->
  process_loop max_message (S f) (set_input (client_frame mask fr ++ rest) c) =
  process_loop max_message f c'.
Proof.
  intros Hr Hm Hok Hmax Hfr. cbn [process_loop].
  change (ready (set_input _ c)) with (ready c). rewrite Hr. cbn [negb input set_input].
  rewrite parse_client_frame_complete, Nat2Z.id, drop_app_length by done.
  change (set_input rest (set_input _ c)) with (set_input rest c). by rewrite Hfr.
Qed.

Lemma process_last f mask fr rest c c' :
  ready c = true -> length mask = 4%nat -> frame_ok fr -> payload_size fr <= max_message ->
  process_frame max_message fr (set_input rest c) = (c', false) ->
  process_loop max_message (S f) (set_input (client_frame mask fr ++ rest) c) = Ok c'.
Proof.
  intros Hr Hm Hok Hmax Hfr. cbn [process_loop].
  change (ready (set_input _ c)) with (ready c). rewrite Hr. cbn [negb input set_input].
  rewrite parse_client_frame_complete, Nat2Z.id, drop_app_length by done.
  change (set_input rest (set_input _ c)) with (set_input rest c). by rewrite Hfr.
Qed.

Lemma dispatch_delivers m c :
  ready c = true -> deliverable m ->
  dispatch_websocket_message max_message m c = delivered m c.
Proof.
  intros (H1 & H2 & H3 & H4)%ready_inv (_ & Hlen & Hutf). unfold dispatch_websocket_message.
  rewrite H1, H2, H3, H4. cbn [orb negb]. rewrite !bool_decide_false by auto. cbn [orb].
  destruct (Z.gtb_spec (Z.of_nat (length (m_payload m))) max_message); [lia|].
  case_bool_decide; [|done]. by rewrite Hutf.
Qed.

Hypothesis Hmax : 0 <= max_message < 2 ^ 63.

Lemma data_frame_ok fin o p :
  opcode_number o < 8 -> Z.of_nat (length p) <= max_message -> frame_ok (mkFrame fin o p).
Proof. intros Ho Hp. split; cbn [opcode final]; [lia|]. unfold payload_size. cbn. lia. Qed.

Lemma pong_frame_ok p : Z.of_nat (length p) <= 125 -> frame_ok (mkFrame true pong p).
Proof. intros Hp. split; [done|]. unfold payload_size. cbn. lia. Qed.

Lemma is_data_number o : is_data o -> opcode_number o < 8.
Proof. by intros [->| ->]. Qed.

(** A frame that keeps the loop going, with what it makes of the connection. *)
Definition accepted (fr : Frame) (c c' : Conn) : Prop :=
  frame_ok fr /\ payload_size fr <= max_message /\
  forall rest, process_frame max_message fr (set_input rest c) = (set_input rest c', true).

Lemma accepted_pong p c :
  Z.of_nat (length p) <= 125 -> Z.of_nat (length p) <= max_message ->
  accepted (mkFrame true pong p) c c.
Proof. intros Hp Hp'. split; [by apply pong_frame_ok|]. split; [done|]. done. Qed.

Lemma accepted_continuation p op c :
  fragment_opcode c = Some op -> Z.of_nat (length (fragment c ++ p)) <= max_message ->
  accepted (mkFrame false continuation p) c (set_fragment (Some op) (fragment c ++ p) c).
Proof.
  intros Hop Hlen. rewrite length_app in Hlen.
  split; [apply data_frame_ok; [cbn|]; lia|]. split; [unfold payload_size; cbn; lia|].
  intros rest. unfold process_frame. cbn [opcode payload final fragment_opcode fragment set_input].
  rewrite Hop. destruct (Z.gtb_spec (Z.of_nat (length p))
    (max_message - Z.min (Z.of_nat (length (fragment c))) max_message)); [lia|]. done.
Qed.

Lemma accepted_first p op c :
  is_data op -> fragment_opcode c = None -> Z.of_nat (length p) <= max_message ->
  accepted (mkFrame false op p) c (set_fragment (Some op) p c).
Proof.
  intros Hdata Hop Hlen. split; [apply data_frame_ok; [by apply is_data_number|lia]|].
  split; [done|]. intros rest. unfold process_frame. cbn [opcode payload final fragment_opcode set_input].
  rewrite Hop. by destruct Hdata as [->| ->].
Qed.

(** The last frame of a message. *)
Definition finishes (fr : Frame) (m : Message) (c : Conn) : Prop :=
  frame_ok fr /\ payload_size fr <= max_message /\
  forall rest, process_frame max_message fr (set_input rest c) =
               (delivered m (set_fragment None [] (set_input rest c)), false).

Lemma finishes_continuation p op c :
  ready c = true -> fragment_opcode c = Some op -> deliverable (mkMessage op (fragment c ++ p)) ->
  finishes (mkFrame true continuation p) (mkMessage op (fragment c ++ p)) c.
Proof.
  intros Hr Hop Hd. pose proof Hd as (_ & Hlen & _). cbn in Hlen. rewrite length_app in Hlen.
  split; [apply data_frame_ok; [cbn|]; lia|]. split; [unfold payload_size; cbn; lia|].
  intros rest. unfold process_frame. cbn [opcode payload final fragment_opcode fragment set_input].
  rewrite Hop. destruct (Z.gtb_spec (Z.of_nat (length p))
    (max_message - Z.min (Z.of_nat (length (fragment c))) max_message)); [lia|].
  cbn [negb]. by rewrite dispatch_delivers.
Qed.

Lemma finishes_whole p op c :
  ready c = true -> fragment_opcode c = None -> fragment c = [] -> deliverable (mkMessage op p) ->
  finishes (mkFrame true op p) (mkMessage op p) c.
Proof.
  intros Hr Hop Hfrag Hd. pose proof Hd as (Hdata & Hlen & _). cbn in Hlen, Hdata.
  split; [apply data_frame_ok; [by apply is_data_number|lia]|]. split; [done|].
  intros rest. unfold process_frame. cbn [opcode payload final fragment_opcode set_input].
  assert (set_fragment None [] (set_input rest c) = set_input rest c) as E.
  { unfold set_fragment, set_input. cbn. by rewrite Hop, Hfrag. }
  rewrite Hop, E. destruct Hdata as [->| ->]; by rewrite dispatch_delivers.
Qed.

(** A message on its way: frames that keep the loop going, then the last one. *)
Inductive progress : list Frame -> Message -> Conn -> Prop :=
| progress_last fr m c : ready c = true -> finishes fr m c -> progress [fr] m c
| progress_more fr fs m c c' :
    ready c = true -> accepted fr c c' ->
    progress fs m c' -> set_fragment None [] c' = set_fragment None [] c -> progress (fr :: fs) m c.

Lemma continues_progress fs w op c :
  continues fs w -> ready c = true -> fragment_opcode c = Some op ->
  125 <= max_message -> deliverable (mkMessage op (fragment c ++ w)) ->
  progress fs (mkMessage op (fragment c ++ w)) c.
Proof.
  intros H. revert c. induction H as [p|p fs w H IH|p fs w Hp H IH]; intros c Hr Hop H125 Hd.
  - apply progress_last; [done|]. by apply finishes_continuation.
  - pose proof Hd as (_ & Hlen & _). cbn in Hlen. rewrite !length_app in Hlen.
    eapply progress_more; [done|apply (accepted_continuation p op); [done|]| |done].
    { rewrite length_app. lia. }
    rewrite app_assoc in Hd |- *. by apply (IH (set_fragment (Some op) (fragment c ++ p) c)).
  - eapply progress_more; [done|apply accepted_pong; lia|by apply IH|done].
Qed.

Lemma carries_progress fs w op c :
  carries op fs w -> ready c = true -> fragment_opcode c = None -> fragment c = [] ->
  125 <= max_message -> deliverable (mkMessage op w) -> progress fs (mkMessage op w) c.
Proof.
  intros H. induction H as [p|p fs w H|p fs w Hp H IH]; intros Hr Hop Hfrag H125 Hd.
  - apply progress_last; [done|]. by apply finishes_whole.
  - pose proof Hd as (Hdata & Hlen & _). cbn in Hlen, Hdata. rewrite length_app in Hlen.
    eapply progress_more; [done|apply (accepted_first p op); [done|done|lia]| |done].
    by apply (continues_progress fs w op (set_fragment (Some op) p c)).
  - eapply progress_more; [done|apply accepted_pong; lia|by apply IH|done].
Qed.

Lemma accepted_ready fr c c' : ready c = true -> accepted fr c c' -> ready c' = true.
Proof.
  intros Hr (_ & _ & H). specialize (H []).
  apply process_frame_ready in H as [H _]; [exact H|exact Hr].
Qed.

Lemma progress_delivers fs m c l rest f :
  progress fs m c -> l.*2 = fs -> keys_ok l -> (length l <= f)%nat ->
  process_loop max_message f (set_input (wire l ++ rest) c) =
  Ok (delivered m (set_fragment None [] (set_input rest c))).
Proof.
  intros H. revert l f. induction H as [fr m c Hr (Hok & Hsize & Hfr)|fr fs m c c' Hr Hacc H IH Heq];
    intros l f Hl Hk Hf; (destruct l as [|[mask fr'] l]; [done|]); injection Hl as <- Hl;
    apply Forall_cons in Hk as [Hm Hk]; (destruct f as [|f]; [cbn in Hf; lia|]);
    cbn [wire mbind list_bind fst snd]; fold (wire l); rewrite <-app_assoc.
  - destruct l; [|done]. cbn [wire mbind list_bind app]. by apply process_last.
  - pose proof Hacc as (Hok & Hsize & Hfr).
    rewrite (process_step _ _ _ _ _ (set_input (wire l ++ rest) c')) by done.
    cbn in Hf. rewrite IH by (done || lia). f_equal. unfold delivered. f_equal.
    change (set_input rest (set_fragment None [] c') = set_input rest (set_fragment None [] c)).
    by rewrite Heq.
Qed.

(** While a message is only partly there, the connection stays ready for more. *)
Lemma process_partial f mask fr a b c :
  ready c = true -> length mask = 4%nat -> frame_ok fr -> payload_size fr <= max_message ->
  a ++ b = client_frame mask fr -> b <> [] ->
  process_loop max_message (S f) (set_input a c) = Ok (set_input a c).
Proof.
  intros Hr Hm Hok Hsize Hab Hb. cbn [process_loop].
  change (ready (set_input a c)) with (ready c). rewrite Hr. cbn [negb input set_input].
  assert (parse_client_frame a max_message = Ok incomplete) as Hi.
  { replace a with (take (length a) (client_frame mask fr)) by (rewrite <-Hab; apply take_app_length).
    apply prefix_incomplete; [done..|]. rewrite <-Hab, length_app.
    destruct b; [done|]. cbn. lia. }
  rewrite Hi. unfold incomplete. apply incomplete_bound in Hi; [|lia].
  rewrite u64_small by lia.
  destruct (Z.gtb_spec (Z.of_nat (length a)) (max_message + 14)); [lia|done].
Qed.

Lemma progress_partial fs m c l a b f :
  progress fs m c -> l.*2 = fs -> keys_ok l -> (length l < f)%nat ->
  a ++ b = wire l -> b <> [] ->
  exists c1, process_loop max_message f (set_input a c) = Ok c1 /\ ready c1 = true.
Proof.
  intros H. revert l a f. induction H as [fr m c Hr (Hok & Hsize & Hfr)|fr fs m c c' Hr Hacc H IH Heq];
    intros l a f Hl Hk Hf Hab Hb; (destruct l as [|[mask fr'] l]; [done|]); injection Hl as <- Hl;
    apply Forall_cons in Hk as [Hm Hk]; (destruct f as [|f]; [cbn in Hf; lia|]);
    cbn [wire mbind list_bind fst snd] in Hab; fold (wire l) in Hab.
  - destruct l; [|done]. cbn [wire mbind list_bind] in Hab. rewrite app_nil_r in Hab.
    exists (set_input a c). split; [by eapply process_partial|done].
  - pose proof Hacc as (Hok & Hsize & Hfr).
    apply app_eq_inv in Hab as [(a' & -> & Hrest)|(b' & Hframe & Hrest)].
    + cbn in Hf. destruct (IH l a' f Hl Hk ltac:(lia) (eq_sym Hrest) Hb) as (c1 & H1 & Hr1).
      exists c1. split; [|done]. by rewrite (process_step _ _ _ _ _ (set_input a' c')).
    + destruct b' as [|x b'].
      * rewrite app_nil_r in Hframe. subst a. cbn in Hf. cbn [app] in Hrest. subst b.
        destruct (IH l [] f Hl Hk ltac:(lia) eq_refl Hb) as (c1 & H1 & Hr1).
        exists c1. split; [|done]. rewrite <-(app_nil_r (client_frame mask fr')).
        by rewrite (process_step _ _ _ _ _ (set_input [] c')).
      * exists (set_input a c). split; [|done]. by apply (process_partial _ mask fr' a (x :: b')).
Qed.

(** A sequence of reads. *)
Fixpoint receive_all (chunks : list bytes) (c : Conn) : result Conn :=
  match chunks with
  | [] => Ok c
  | chunk :: chunks' => c' ← websocket_receive max_message chunk c; receive_all chunks' c'
  end.

Lemma receive_ready chunk c :
  ready c = true ->
  websocket_receive max_message chunk c =
  process_websocket_buffer max_message (set_input (input c ++ chunk) c).
Proof.
  intros (H1 & _ & H3 & H4)%ready_inv. unfold websocket_receive. rewrite H1, H3, H4.
  by rewrite !bool_decide_false by auto.
Qed.

Lemma receive_pending chunks c : pending c <> None -> receive_all chunks c = Ok c.
Proof.
  intros H. induction chunks as [|chunk chunks IH]; cbn [receive_all]; [done|].
  unfold websocket_receive. rewrite (bool_decide_true (pending c <> None)) by done.
  rewrite orb_true_r. cbn [orb mbind result_bind]. done.
Qed.

Lemma progress_length fs m c : progress fs m c -> (1 <= length fs)%nat.
Proof. by destruct 1; cbn; lia. Qed.

Lemma wire_length l : keys_ok l -> (length l <= length (wire l))%nat.
Proof.
  induction 1 as [|[mask fr] l Hm _ IH]; cbn [wire mbind list_bind length]; [done|].
  fold (wire l). rewrite length_app, client_frame_length by done. lia.
Qed.

Lemma receive_rest fs m c l :
  progress fs m c -> l.*2 = fs -> keys_ok l ->
  forall chunks a c1, process_websocket_buffer max_message (set_input a c) = Ok c1 ->
  ready c1 = true -> a ++ concat chunks = wire l -> concat chunks <> [] ->
  receive_all chunks c1 = Ok (delivered m (set_fragment None [] (set_input [] c))).
Proof.
  intros Hpr Hl Hk. induction chunks as [|chunk chunks IH]; intros a c1 Ha Hr1 Hw Hne; [done|].
  cbn [concat receive_all] in *. rewrite receive_ready by done.
  change (set_input (input c1 ++ chunk) c1) with (more_input chunk c1).
  rewrite <-(process_buffer_chunks (set_input a c)) by done.
  change (more_input chunk (set_input a c)) with (set_input (a ++ chunk) c).
  destruct (decide (concat chunks = [])) as [E|E].
  - rewrite E, app_nil_r in Hw. pose proof (progress_delivers fs m c l [] (length l) Hpr Hl Hk ltac:(lia)) as H.
    apply process_buffer_loop in H. rewrite app_nil_r, <-Hw in H. rewrite H. cbn [mbind result_bind].
    by apply receive_pending.
  - rewrite app_assoc in Hw.
    destruct (progress_partial fs m c l (a ++ chunk) (concat chunks) (S (length l)) Hpr Hl Hk
                ltac:(lia) Hw E) as (c2 & H2 & Hr2).
    apply process_buffer_loop in H2. rewrite H2. cbn [mbind result_bind]. by apply (IH (a ++ chunk)).
Qed.

Lemma receive_message fs m c l chunks :
  progress fs m c -> l.*2 = fs -> keys_ok l -> input c = [] -> ready c = true ->
  concat chunks = wire l ->
  receive_all chunks c = Ok (delivered m (set_fragment None [] c)).
Proof.
  intros Hpr Hl Hk Hin Hr Hw. assert (set_input [] c = c) as Ec.
  { destruct c. cbn in Hin. by subst. }
  assert (wire l <> []) as Hne.
  { intros E. pose proof (wire_length l Hk) as H. pose proof (progress_length _ _ _ Hpr) as H1.
    rewrite <-Hl, length_fmap in H1. rewrite E in H. cbn in H. lia. }
  rewrite <-Ec at 2. apply (receive_rest fs m c l Hpr Hl Hk chunks [] c); [|done|done|by rewrite Hw].
  rewrite Ec. apply (process_buffer_loop 1). cbn [process_loop]. rewrite Hr, Hin. cbn [negb].
  change (parse_client_frame [] max_message) with (Ok incomplete).
  cbn [incomplete length Z.of_nat]. rewrite u64_small by lia.
  destruct (Z.gtb_spec (Z.of_nat 0) (max_message + 14)); [lia|done].
Qed.
End Facts.

(** ** Properties *)

Section Examples.
Definition example_idle : Conn := mkConn true false false false false false None None [] [] [].

(** "Hel" "lo" as two text fragments with a pong between them. *)
Definition example_parts : list (bytes * Frame) :=
  [([x01; x02; x03; x04], mkFrame false text (lit "Hel"));
   ([x05; x06; x07; x08], mkFrame true pong []);
   ([x09; x0a; x0b; x0c], mkFrame true continuation (lit "lo"))].
End Examples.

(** C19. Fragmented messages are reassembled: however the bytes of a message's frames
    are cut into reads, with pongs interleaved, an idle connection hands the session
    exactly one message with the payloads joined, and is left with nothing buffered. *)
Theorem message_reassembled max_message op w l chunks c :
  125 <= max_message < 2 ^ 63 ->
  ready c = true -> input c = [] -> fragment_opcode c = None -> fragment c = [] ->
  carries op l.*2 w -> keys_ok l -> deliverable max_message (mkMessage op w) ->
  concat chunks = wire l ->
  receive_all max_message chunks c = Ok (delivered (mkMessage op w) c).
Proof.
  intros Hmax Hr Hin Hop Hfrag Hc Hk Hd Hw.
  rewrite (receive_message max_message ltac:(lia) l.*2 (mkMessage op w) c l); try done.
  - do 2 f_equal. destruct c. cbn in *. by subst.
  - apply carries_progress; done || lia.
Qed.

Lemma message_reassembled_witness :
  receive_all 1024 [take 5 (wire example_parts); drop 5 (wire example_parts)] example_idle =
  Ok (delivered (mkMessage text (lit "Hello")) example_idle).
Proof.
  apply (message_reassembled 1024 text (lit "Hello") example_parts).
  - lia.
  - reflexivity.
  - reflexivity.
  - reflexivity.
  - reflexivity.
  - apply (carries_fragments text (lit "Hel") _ (lit "lo")).
    apply continues_pong; [cbn; lia|]. apply continues_last.
  - repeat constructor.
  - split; [by left|]. split; [cbn; lia|]. by intros _.
  - reflexivity.
Defined.

(** C32. In every run of the event loop on an upgraded connection, the session is only
    ever given text and binary messages within the size limit, text being valid
    UTF-8; a message under assembly never exceeds the limit; and the input buffer
    never holds more than the limit, a frame header and one read (or what was
    there when the connection was upgraded). *)
Theorem websocket_run_safe max_message response leftover c :
  0 <= max_message -> response <> [] ->
  rtc (ws_step max_message) (upgraded response leftover) c ->
  (forall p, pending c = Some p -> deliverable max_message (request p)) /\
  Z.of_nat (length (fragment c)) <= max_message /\
  Z.of_nat (length (input c)) <= Z.max (Z.of_nat (length leftover)) (max_message + 14 + 8192).
Proof.
  intros Hm Hresp Hrun. destruct (ws_run_ok max_message response leftover c Hm Hresp Hrun)
    as ([Hf Hp] & _ & Hin & _).
  split; [done|]. split; [|done]. unfold fragment_ok in Hf.
  destruct (fragment_opcode c); [by destruct Hf|]. by rewrite Hf.
Qed.

Lemma websocket_run_safe_witness :
  (forall p, pending (delivered (mkMessage text (lit "Hello")) example_idle) = Some p ->
             deliverable 1024 (request p)) /\
  Z.of_nat (length (fragment (delivered (mkMessage text (lit "Hello")) example_idle))) <= 1024 /\
  Z.of_nat (length (input (delivered (mkMessage text (lit "Hello")) example_idle))) <=
  Z.max (Z.of_nat (length (wire example_parts))) (1024 + 14 + 8192).
Proof.
  apply (websocket_run_safe 1024 (lit "HTTP/1.1 101 Switching Protocols") (wire example_parts)).
  - lia.
  - done.
  - apply rtc_once, ws_written. vm_compute. reflexivity.
Defined.

(** The processing loop always comes to an end, after at most one frame per
    byte of input. *)
Theorem process_buffer_total max_message c :
  exists c', process_websocket_buffer max_message c = Ok c'.
Proof. apply process_loop_terminates. lia. Qed.
