(* ===== verification/Calendar.v ===== *)
(** * The proleptic Gregorian calendar of [<chrono>]

    The scheduler converts between day counts and dates through
    [std::chrono::sys_days], [year_month_day], [weekday] and [last]; these are
    their definitions in the standard, as the usual era arithmetic. Day 0 is
    1970-01-01. *)

From S2P Require Import Prelude.

Definition is_leap (y : Z) : bool :=
  (y mod 4 =? 0) && (negb (y mod 100 =? 0) || (y mod 400 =? 0)).

(** The last day of a month. *)
Definition days_in_month (y m : Z) : Z :=
  if m =? 2 then (if is_leap y then 29 else 28)
  else if (m =? 4) || (m =? 6) || (m =? 9) || (m =? 11) then 30 else 31.

Definition valid_date (y m d : Z) : bool :=
  (1 <=? m) && (m <=? 12) && (1 <=? d) && (d <=? days_in_month y m).

(** Eras of 400 years start on March 1st.  The first day of a year of the era, the
    year a day of the era falls in, and the month and day of a day of the year. *)
Definition era_start (yoe : Z) : Z := 365 * yoe + yoe / 4 - yoe / 100.

Definition era_year (doe : Z) : Z :=
  (doe - doe / 1460 + doe / 36524 - doe / 146096) / 365.

Definition month_of_day (doy : Z) : Z * Z :=
  let mp := (5 * doy + 2) / 153 in
  (if mp <? 10 then mp + 3 else mp - 9, doy - (153 * mp + 2) / 5 + 1).

Definition day_of_year (m d : Z) : Z := (153 * (m + (if 2 <? m then -3 else 9)) + 2) / 5 + d - 1.

Definition era_date (doe : Z) : Z * Z * Z :=
  let yoe := era_year doe in
  let '(m, d) := month_of_day (doe - era_start yoe) in
  (yoe + (if m <=? 2 then 1 else 0), m, d).

(** [year_month_day{sys_days{days}}]. *)
Definition civil_from_days (days : Z) : Z * Z * Z :=
  let z := days + 719468 in
  let '(y, m, d) := era_date (z mod 146097) in
  (y + z / 146097 * 400, m, d).

Definition era_day (yoe m d : Z) : Z := era_start yoe + day_of_year m d.

(** [sys_days{year/month/day}]. *)
Definition days_from_civil (y m d : Z) : Z :=
  let y' := if m <=? 2 then y - 1 else y in
  y' / 400 * 146097 + era_day (y' mod 400) m d - 719468.

(** [weekday{sys_days}.c_encoding()]: 0 is Sunday. *)
Definition weekday_of (days : Z) : Z := (days + 4) mod 7.

(** ** Exhaustion over a range of integers *)

Fixpoint all_from (n : nat) (z : Z) (f : Z -> bool) : bool :=
  match n with
  | O => true
  | S n' => f z && all_from n' (z + 1) f
  end.

Lemma all_from_spec n z f :
  all_from n z f = true -> forall x, z <= x < z + Z.of_nat n -> f x = true.
Proof.
  revert z. induction n as [|n IH]; intros z H x Hx; [lia|]. cbn in H. reflect_bools.
  destruct (Z.eq_dec x z) as [->|]; [done|]. apply (IH (z + 1)); [done|lia].
Qed.

(** ** The calendar repeats every 400 years *)

Lemma is_leap_period y k : is_leap (y + k * 400) = is_leap y.
Proof.
  unfold is_leap. replace ((y + k * 400) mod 4) with (y mod 4) by div_lia.
  replace ((y + k * 400) mod 100) with (y mod 100) by div_lia.
  replace ((y + k * 400) mod 400) with (y mod 400) by div_lia. done.
Qed.

Lemma days_in_month_period y k m : days_in_month (y + k * 400) m = days_in_month y m.
Proof. unfold days_in_month. by rewrite is_leap_period. Qed.

Lemma days_in_month_range y m : 28 <= days_in_month y m <= 31.
Proof. unfold days_in_month. repeat case_match; lia. Qed.

(** ** Years of an era *)

Definition era_finish (yoe : Z) : Z := if yoe =? 399 then 146097 else era_start (yoe + 1).

Definition year_check (yoe : Z) : bool :=
  (era_start yoe <? era_finish yoe) &&
  (era_finish yoe - era_start yoe =? 365 + (if is_leap (yoe + 1) then 1 else 0)) &&
  (era_year (era_start yoe) =? yoe) && (era_year (era_finish yoe - 1) =? yoe).

Lemma year_check_all : all_from 400 0 year_check = true.
Proof. vm_compute. reflexivity. Qed.

Lemma year_ok yoe :
  0 <= yoe < 400 ->
  era_start yoe < era_finish yoe /\
  era_finish yoe - era_start yoe = 365 + (if is_leap (yoe + 1) then 1 else 0) /\
  era_year (era_start yoe) = yoe /\ era_year (era_finish yoe - 1) = yoe.
Proof.
  intros H. pose proof (all_from_spec _ _ _ year_check_all yoe H) as E. unfold year_check in E.
  by reflect_bools.
Qed.

Lemma era_year_mono a b : 0 <= a <= b -> b <= 146095 -> era_year a <= era_year b.
Proof.
  intros H Hb. unfold era_year. apply Z.div_le_mono; [lia|].
  rewrite (Z.div_small a 146096), (Z.div_small b 146096) by lia. div_lia.
Qed.

Lemma era_start_nonneg yoe : 0 <= yoe -> 0 <= era_start yoe.
Proof. intros H. unfold era_start. div_lia. Qed.

Lemma era_start_bound yoe : 0 <= yoe < 400 -> era_finish yoe <= 146097.
Proof. intros H. unfold era_finish, era_start. destruct (Z.eqb_spec yoe 399); div_lia. Qed.

Lemma era_year_unique yoe doe :
  0 <= yoe < 400 -> era_start yoe <= doe < era_finish yoe -> era_year doe = yoe.
Proof.
  intros Hy Hd. destruct (year_ok yoe Hy) as (_ & _ & Hs & Hf).
  pose proof (era_start_bound yoe Hy). pose proof (era_start_nonneg yoe ltac:(lia)).
  destruct (Z.eq_dec doe (era_finish yoe - 1)) as [->|]; [done|].
  assert (doe <= 146095) by lia.
  pose proof (era_year_mono (era_start yoe) doe ltac:(lia) ltac:(lia)).
  destruct (Z.eq_dec (era_finish yoe) 146097) as [E|].
  - pose proof (era_year_mono doe 146095 ltac:(lia) ltac:(lia)) as H'.
    change (era_year 146095) with 399 in H'. rewrite E in Hf.
    change (era_year (146097 - 1)) with 399 in Hf. lia.
  - pose proof (era_year_mono doe (era_finish yoe - 1) ltac:(lia) ltac:(lia)). lia.
Qed.

Lemma era_year_exists doe :
  0 <= doe < 146097 ->
  let yoe := era_year doe in 0 <= yoe < 400 /\ era_start yoe <= doe < era_finish yoe.
Proof.
  intros Hd. enough (exists yoe, 0 <= yoe < 400 /\ era_start yoe <= doe < era_finish yoe)
    as (yoe & Hy & Hr) by (cbn; by rewrite (era_year_unique yoe)).
  assert (forall n, (n <= 400)%nat -> doe < (if (n =? 0)%nat then 0 else era_finish (Z.of_nat n - 1)) ->
          exists yoe, 0 <= yoe < 400 /\ era_start yoe <= doe < era_finish yoe) as H.
  { induction n as [|n IH]; intros Hn Hlt; [cbn in Hlt; lia|].
    cbn [Nat.eqb] in Hlt. replace (Z.of_nat (S n) - 1) with (Z.of_nat n) in Hlt by lia.
    destruct (Z.le_gt_cases (era_start (Z.of_nat n)) doe); [exists (Z.of_nat n); lia|].
    apply IH; [lia|]. destruct n as [|n]; [change (era_start (Z.of_nat 0)) with 0 in H; lia|]. cbn [Nat.eqb].
    unfold era_finish. destruct (Z.eqb_spec (Z.of_nat (S n) - 1) 399); [lia|].
    by rewrite Z.sub_add. }
  apply (H 400%nat); [lia|]. vm_compute. apply Hd.
Qed.

(** ** Days of a year *)

Definition month_check (doy : Z) : bool :=
  let '(m, d) := month_of_day doy in
  (1 <=? m) && (m <=? 12) && (1 <=? d) && (d <=? days_in_month 0 m) &&
  (day_of_year m d =? doy) && implb ((m =? 2) && (d =? 29)) (doy =? 365).

Lemma month_check_all : all_from 366 0 month_check = true.
Proof. vm_compute. reflexivity. Qed.

Lemma month_of_day_ok doy m d :
  0 <= doy < 366 -> month_of_day doy = (m, d) ->
  1 <= m <= 12 /\ 1 <= d <= days_in_month 0 m /\ day_of_year m d = doy /\
  (m = 2 -> d = 29 -> doy = 365).
Proof.
  intros Hd E. pose proof (all_from_spec _ _ _ month_check_all doy Hd) as H.
  unfold month_check in H. rewrite E in H. reflect_bools. split; [lia|]. split; [lia|].
  split; [done|]. intros -> ->. cbn in H0. by reflect_bools.
Qed.

Definition day_check (m : Z) : bool :=
  all_from 31 1 (fun d => implb (d <=? days_in_month 0 m)
    (bool_decide (month_of_day (day_of_year m d) = (m, d)) && (0 <=? day_of_year m d) &&
     (day_of_year m d <? if (m =? 2) && (d =? 29) then 366 else 365))).

Lemma day_check_all : all_from 12 1 day_check = true.
Proof. vm_compute. reflexivity. Qed.

Lemma day_of_year_ok m d :
  1 <= m <= 12 -> 1 <= d <= days_in_month 0 m ->
  month_of_day (day_of_year m d) = (m, d) /\
  0 <= day_of_year m d < if (m =? 2) && (d =? 29) then 366 else 365.
Proof.
  intros Hm Hd. pose proof (days_in_month_range 0 m).
  pose proof (all_from_spec _ _ _ day_check_all m ltac:(lia)) as H'.
  apply all_from_spec with (x := d) in H'; [|lia].
  destruct (Z.leb_spec d (days_in_month 0 m)); [|lia]. cbn [implb] in H'. by reflect_bools.
Qed.

(** February 29th aside, months have the same length in every year. *)
Lemma days_in_month_leap y m d :
  d <= days_in_month y m <-> d <= days_in_month 0 m /\ (m = 2 -> d = 29 -> is_leap y = true).
Proof.
  unfold days_in_month. change (is_leap 0) with true. destruct (Z.eqb_spec m 2) as [->|].
  - destruct (is_leap y); [split; [lia|tauto]|]. split; [split; lia|].
    intros [H1 H2]. destruct (Z.eq_dec d 29) as [->|]; [|lia]. by specialize (H2 eq_refl eq_refl).
  - split; [split; [done|lia]|tauto].
Qed.

(** ** Day count to date and back *)

Lemma era_date_ok doe y m d :
  0 <= doe < 146097 -> era_date doe = (y, m, d) ->
  valid_date y m d = true /\ days_from_civil y m d + 719468 = doe.
Proof.
  intros Hd. destruct (era_year_exists doe Hd) as [Hy Hr]. unfold era_date.
  set (yoe := era_year doe) in *. destruct (year_ok yoe Hy) as (_ & Hlen & _).
  destruct (month_of_day (doe - era_start yoe)) as [m0 d0] eqn:E. intros [= <- <- <-].
  apply month_of_day_ok in E as (Hm & Hd0 & Hdoy & Hfeb);
    [|assert (era_finish yoe - era_start yoe <= 366) by (rewrite Hlen; case_match; lia); lia].
  split.
  - unfold valid_date. enough (d0 <= days_in_month (yoe + (if m0 <=? 2 then 1 else 0)) m0)
      by (repeat (rewrite andb_true_iff; split); apply Z.leb_le; lia).
    apply days_in_month_leap. split; [lia|]. intros -> ->. cbn [Z.leb]. change (2 <=? 2) with true.
    cbn iota. specialize (Hfeb eq_refl eq_refl). destruct (is_leap (yoe + 1)); [done|lia].
  - unfold days_from_civil, era_day. destruct (m0 <=? 2); rewrite ?Z.add_simpl_r, ?Z.add_0_r;
      rewrite Z.div_small, Z.mod_small by lia; lia.
Qed.

Lemma days_from_civil_period y k m d :
  days_from_civil (y + k * 400) m d = days_from_civil y m d + k * 146097.
Proof.
  unfold days_from_civil. destruct (m <=? 2).
  - replace ((y + k * 400 - 1) / 400) with ((y - 1) / 400 + k) by div_lia.
    replace ((y + k * 400 - 1) mod 400) with ((y - 1) mod 400) by div_lia. lia.
  - replace ((y + k * 400) / 400) with (y / 400 + k) by div_lia.
    replace ((y + k * 400) mod 400) with (y mod 400) by div_lia. lia.
Qed.

Lemma valid_date_period y k m d : valid_date (y + k * 400) m d = valid_date y m d.
Proof. unfold valid_date. by rewrite days_in_month_period. Qed.

Lemma valid_date_spec y m d :
  valid_date y m d = true <-> 1 <= m <= 12 /\ 1 <= d <= days_in_month y m.
Proof. unfold valid_date. rewrite !andb_true_iff, !Z.leb_le. lia. Qed.

Lemma civil_from_days_ok n y m d :
  civil_from_days n = (y, m, d) -> valid_date y m d = true /\ days_from_civil y m d = n.
Proof.
  unfold civil_from_days. destruct (era_date ((n + 719468) mod 146097)) as [[y0 m0] d0] eqn:E.
  intros [= <- <- <-]. apply era_date_ok in E as [Hv Hd]; [|apply Z.mod_pos_bound; lia].
  rewrite valid_date_period, days_from_civil_period. split; [done|]. div_lia.
Qed.

Lemma days_from_civil_ok y m d :
  valid_date y m d = true -> civil_from_days (days_from_civil y m d) = (y, m, d).
Proof.
  rewrite valid_date_spec. intros [Hm [Hd1 Hd]]. apply days_in_month_leap in Hd as [Hd Hfeb].
  destruct (day_of_year_ok m d Hm ltac:(lia)) as [Hmd Hdoy].
  set (y' := if m <=? 2 then y - 1 else y). set (yoe := y' mod 400).
  assert (0 <= yoe < 400) as Hyoe by (apply Z.mod_pos_bound; lia).
  destruct (year_ok yoe Hyoe) as (_ & Hlen & _).
  assert (era_start yoe <= era_day yoe m d < era_finish yoe) as Hr.
  { assert (365 <= era_finish yoe - era_start yoe) by (rewrite Hlen; case_match; lia).
    unfold era_day. revert Hdoy.
    destruct (Z.eqb_spec m 2) as [->|]; cbn [andb]; intros Hdoy; [|lia].
    revert Hdoy. destruct (Z.eqb_spec d 29) as [->|]; intros Hdoy; [|lia].
    specialize (Hfeb eq_refl eq_refl). change (2 <=? 2) with true in y'. cbn iota in y'.
    replace (is_leap (yoe + 1)) with true in Hlen; [lia|].
    rewrite <-Hfeb. replace y with (yoe + 1 + (y - 1) / 400 * 400) by (subst yoe y'; div_lia).
    by rewrite is_leap_period. }
  unfold days_from_civil. fold y' yoe. unfold civil_from_days. rewrite Z.sub_add.
  pose proof (era_start_bound yoe Hyoe). pose proof (era_start_nonneg yoe ltac:(lia)).
  replace ((y' / 400 * 146097 + era_day yoe m d) mod 146097) with (era_day yoe m d) by div_lia.
  replace ((y' / 400 * 146097 + era_day yoe m d) / 146097) with (y' / 400) by div_lia.
  unfold era_date. rewrite (era_year_unique yoe) by done. unfold era_day.
  rewrite Z.add_simpl_l, Hmd. f_equal. f_equal. subst yoe y'. destruct (m <=? 2); div_lia.
Qed.

(** ** Distances between dates *)

(** Days up to March 1st of year [y], less a constant. *)
Definition march (y : Z) : Z := 365 * y + y / 4 - y / 100 + y / 400.

Lemma days_closed y m d :
  days_from_civil y m d = march (if m <=? 2 then y - 1 else y) + day_of_year m d - 719468.
Proof.
  unfold days_from_civil, era_day, era_start, march. set (y' := if m <=? 2 then y - 1 else y).
  div_lia.
Qed.

Lemma days_succ y m d k : days_from_civil y m (d + k) = days_from_civil y m d + k.
Proof. rewrite !days_closed. unfold day_of_year. lia. Qed.

Lemma march_step y : 365 <= march (y + 1) - march y <= 366.
Proof. unfold march. div_lia. Qed.

Lemma march_eight y : march (y + 8) - march y <= 2922.
Proof. unfold march. div_lia. Qed.

Definition doy_check (m : Z) : bool :=
  all_from 31 1 (fun d => implb (d <=? days_in_month 0 m)
    (if m <=? 2 then (306 <=? day_of_year m d) && (day_of_year m d <? 366)
     else (0 <=? day_of_year m d) && (day_of_year m d <? 306))).

Lemma doy_check_all : all_from 12 1 doy_check = true.
Proof. vm_compute. reflexivity. Qed.

Lemma day_of_year_range m d :
  1 <= m <= 12 -> 1 <= d <= days_in_month 0 m ->
  if m <=? 2 then 306 <= day_of_year m d < 366 else 0 <= day_of_year m d < 306.
Proof.
  intros Hm Hd. pose proof (days_in_month_range 0 m).
  pose proof (all_from_spec _ _ _ doy_check_all m ltac:(lia)) as H'.
  apply all_from_spec with (x := d) in H'; [|lia].
  destruct (Z.leb_spec d (days_in_month 0 m)); [|lia]. cbn [implb] in H'.
  destruct (m <=? 2); by reflect_bools.
Qed.

(** January 1st. *)
Definition new_year (y : Z) : Z := days_from_civil y 1 1.

Lemma new_year_closed y : new_year y = march (y - 1) + 306 - 719468.
Proof. unfold new_year. by rewrite days_closed. Qed.

(** The dates of a year lie between its January 1st and the next one. *)
Lemma date_in_year y m d :
  1 <= m <= 12 -> 1 <= d <= days_in_month 0 m ->
  new_year y <= days_from_civil y m d < new_year (y + 1).
Proof.
  intros Hm Hd. pose proof (day_of_year_range m d Hm Hd) as Hr.
  rewrite !new_year_closed, days_closed. replace (y + 1 - 1) with y by lia.
  pose proof (march_step (y - 1)) as Hs. rewrite Z.sub_add in Hs. destruct (m <=? 2); lia.
Qed.

Lemma new_year_step y : 365 <= new_year (y + 1) - new_year y <= 366.
Proof.
  rewrite !new_year_closed. pose proof (march_step (y - 1)).
  replace (y + 1 - 1) with (y - 1 + 1) by lia. lia.
Qed.

Lemma new_year_mono y k : 0 <= k -> new_year y <= new_year (y + k).
Proof.
  intros Hk. rewrite !new_year_closed. unfold march. div_lia.
Qed.

Lemma new_year_eight y : new_year (y + 8) - new_year y <= 2922.
Proof.
  rewrite !new_year_closed. pose proof (march_eight (y - 1)).
  replace (y + 8 - 1) with (y - 1 + 8) by lia. lia.
Qed.

Lemma same_date_eight y m d : days_from_civil (y + 8) m d - days_from_civil y m d <= 2922.
Proof.
  rewrite !days_closed. destruct (m <=? 2).
  - pose proof (march_eight (y - 1)). replace (y + 8 - 1) with (y - 1 + 8) by lia. lia.
  - pose proof (march_eight y). lia.
Qed.

(** Of eight consecutive years at least one is a leap year. *)
Lemma leap_check_all :
  all_from 400 0 (fun y => existsb (fun k => is_leap (y + k)) [0; 1; 2; 3; 4; 5; 6; 7]) = true.
Proof. vm_compute. reflexivity. Qed.

Lemma leap_within y : exists k, 0 <= k <= 7 /\ is_leap (y + k) = true.
Proof.
  pose proof (all_from_spec _ _ _ leap_check_all (y mod 400) (Z.mod_pos_bound y 400 ltac:(lia))) as H.
  apply existsb_exists in H as (k & Hk & Hl). exists k. split; [cbn in Hk; lia|].
  rewrite <-Hl. replace (y + k) with (y mod 400 + k + y / 400 * 400) by div_lia.
  apply is_leap_period.
Qed.

(** The dates of days. *)
Lemma civil_shift y m d k :
  1 <= m <= 12 -> 1 <= d + k <= days_in_month y m ->
  civil_from_days (days_from_civil y m d + k) = (y, m, d + k).
Proof.
  intros Hm Hd. rewrite <-days_succ. apply days_from_civil_ok. by apply valid_date_spec.
Qed.

Lemma civil_in_year n y m d :
  civil_from_days n = (y, m, d) -> new_year y <= n < new_year (y + 1).
Proof.
  intros [Hv <-]%civil_from_days_ok. apply valid_date_spec in Hv as [Hm Hd].
  apply date_in_year; [done|]. destruct Hd as [H1 H2].
  apply days_in_month_leap in H2 as [H2 _]. lia.
Qed.

Lemma weekday_of_range n : 0 <= weekday_of n < 7.
Proof. apply Z.mod_pos_bound. lia. Qed.
