(* ===== verification/TimeZone.v ===== *)
(** * Time zones ([include/gungnir/scheduler/timezone.hpp])

    A [Clock::TimePoint] is a count of nanoseconds since the epoch.  The abstract
    class [TimeZone] is the type class [TimeZone], whose instances are the three
    concrete zones; [to_local] may throw, so it returns a [result].

    Time zones: local times and daylight transitions *)

From S2P Require Import Prelude Calendar.

Definition ns_per_second : Z := 1000000000.
Definition ns_per_minute : Z := 60 * ns_per_second.
Definition ns_per_day : Z := 1440 * ns_per_minute.

Record LocalDateTime := mkLocal {
  year : Z;
  month : Z;
  day : Z;
  hour : Z;
  minute : Z;
  weekday : Z;
  offset_minutes : Z;
  daylight : bool
}.

Record WallMinute := mkWall { w_year : Z; w_month : Z; w_day : Z; w_hour : Z; w_minute : Z }.

#[export] Instance WallMinute_eq_dec : EqDecision WallMinute.
Proof. solve_decision. Defined.

Definition wall_minute (value : LocalDateTime) : WallMinute :=
  mkWall (year value) (month value) (day value) (hour value) (minute value).

Class TimeZone (A : Type) := to_local : A -> Z -> result LocalDateTime.

(** [detail::local_from_offset]; the offset is in minutes. *)
Definition local_from_offset (point offset : Z) (daylight : bool) : LocalDateTime :=
  let local := point + offset * ns_per_minute in
  let local_days := local / ns_per_day in
  let '(y, m, d) := civil_from_days local_days in
  let time := (local - local_days * ns_per_day) / ns_per_second in
  mkLocal y m d (time / 3600) (time / 60 mod 60) (weekday_of local_days) offset daylight.

(** ** UTC and fixed offsets *)

Inductive UtcTimeZone : Type := utc.

#[export] Instance utc_zone : TimeZone UtcTimeZone :=
  fun _ point => Ok (local_from_offset point 0 false).

Record FixedOffsetTimeZone := mkFixed { f_name : bytes; f_offset : Z }.

Definition validate_offset (offset : Z) : result unit :=
  if (offset <=? -1440) || (1440 <=? offset)
  then Throw (invalid_argument "Timezone offset must be between -24 and +24 hours")
  else Ok tt.

(** The constructor. *)
Definition fixed_offset (name : bytes) (offset : Z) : result FixedOffsetTimeZone :=
  match name with
  | [] => Throw (invalid_argument "Timezone name must not be empty")
  | _ => _ ← validate_offset offset; Ok (mkFixed name offset)
  end.

#[export] Instance fixed_zone : TimeZone FixedOffsetTimeZone :=
  fun z point => Ok (local_from_offset point (f_offset z) false).

(** ** Zones with yearly daylight transitions *)

Record TransitionRule := mkRule {
  t_month : Z;
  t_occurrence : Z;
  t_weekday : Z;
  t_at : Z
}.

Record RecurringTimeZone := mkRecurring {
  z_name : bytes;
  standard_offset : Z;
  daylight_offset : Z;
  daylight_start : TransitionRule;
  daylight_end : TransitionRule
}.

Definition validate_rule (rule : TransitionRule) : result unit :=
  if (t_month rule <? 1) || (t_month rule >? 12)
  then Throw (invalid_argument "Timezone transition month must be between 1 and 12")
  else if (t_occurrence rule <? 1) || (t_occurrence rule >? 5)
  then Throw (invalid_argument "Timezone transition occurrence must be between 1 and 5")
  else if t_weekday rule >? 6
  then Throw (invalid_argument "Timezone transition weekday must be between 0 and 6")
  else if (t_at rule <? 0) || (1440 <=? t_at rule)
  then Throw (invalid_argument "Timezone transition time must be within one local day")
  else Ok tt.

(** The constructor. *)
Definition recurring (name : bytes) (standard daylight : Z) (start finish : TransitionRule)
    : result RecurringTimeZone :=
  match name with
  | [] => Throw (invalid_argument "Timezone name must not be empty")
  | _ =>
      _ ← validate_offset standard;
      _ ← validate_offset daylight;
      _ ← validate_rule start;
      _ ← validate_rule finish;
      Ok (mkRecurring name standard daylight start finish)
  end.

(** The day of a transition, as a day count.  The weekday arithmetic is unsigned. *)
Definition transition_day (y : Z) (rule : TransitionRule) : result Z :=
  if t_occurrence rule =? 5 then
    let last_day := days_from_civil y (t_month rule) (days_in_month y (t_month rule)) in
    let delta := u32 (weekday_of last_day + 7 - t_weekday rule) mod 7 in
    Ok (last_day - delta)
  else
    let first_day := days_from_civil y (t_month rule) 1 in
    let delta := u32 (t_weekday rule + 7 - weekday_of first_day) mod 7 in
    let candidate := first_day + (delta + 7 * (t_occurrence rule - 1)) in
    let '(_, m, _) := civil_from_days candidate in
    if negb (m =? t_month rule)
    then Throw (invalid_argument
                  "Timezone transition occurrence does not exist in the selected month")
    else Ok candidate.

Definition transition_instant (y : Z) (rule : TransitionRule) (offset_before : Z) : result Z :=
  d ← transition_day y rule;
  Ok (d * ns_per_day + t_at rule * ns_per_minute - offset_before * ns_per_minute).

Definition daylight_at (z : RecurringTimeZone) (point : Z) : result bool :=
  let standard_local := point + standard_offset z * ns_per_minute in
  let '(y, _, _) := civil_from_days (standard_local / ns_per_day) in
  start ← transition_instant y (daylight_start z) (standard_offset z);
  finish ← transition_instant y (daylight_end z) (daylight_offset z);
  Ok (if start <? finish then (start <=? point) && (point <? finish)
      else (start <=? point) || (point <? finish)).

#[export] Instance recurring_zone : TimeZone RecurringTimeZone := fun z point =>
  dst ← daylight_at z point;
  Ok (local_from_offset point (if dst : bool then daylight_offset z else standard_offset z) dst).

(** ** Local times *)

(** The local minute count since the epoch that a date-time denotes. *)
Definition local_minutes (l : LocalDateTime) : Z :=
  days_from_civil (year l) (month l) (day l) * 1440 + hour l * 60 + minute l.

Definition local_ok (l : LocalDateTime) : Prop :=
  valid_date (year l) (month l) (day l) = true /\ 0 <= hour l < 24 /\ 0 <= minute l < 60 /\
  weekday l = weekday_of (days_from_civil (year l) (month l) (day l)).

Lemma split_day local :
  let days := local / ns_per_day in
  let time := (local - days * ns_per_day) / ns_per_second in
  0 <= time / 3600 < 24 /\ 0 <= time / 60 mod 60 < 60 /\
  days * 1440 + time / 3600 * 60 + time / 60 mod 60 = local / ns_per_minute.
Proof.
  cbn zeta. unfold ns_per_day, ns_per_minute, ns_per_second.
  set (days := local / (1440 * (60 * 1000000000))). set (rest := local - days * (1440 * (60 * 1000000000))).
  assert (0 <= rest < 1440 * (60 * 1000000000)) as Hr by (subst rest days; div_lia).
  replace local with (days * (1440 * (60 * 1000000000)) + rest) by lia.
  replace (rest / 1000000000 / 3600) with (rest / 3600000000000) by (rewrite Z.div_div by lia; done).
  replace (rest / 1000000000 / 60) with (rest / 60000000000) by (rewrite Z.div_div by lia; done).
  clearbody rest days. div_lia.
Qed.

Lemma local_from_offset_ok point offset dst :
  let l := local_from_offset point offset dst in
  local_ok l /\ local_minutes l = point / ns_per_minute + offset.
Proof.
  unfold local_from_offset. set (local := point + offset * ns_per_minute).
  destruct (split_day local) as (Hh & Hm & Heq).
  destruct (civil_from_days (local / ns_per_day)) as [[y m] d] eqn:E.
  apply civil_from_days_ok in E as [Hv Hd]. cbn zeta. unfold local_ok, local_minutes.
  cbn [year month day hour minute weekday]. rewrite Hd. split; [done|].
  rewrite Heq. subst local. rewrite Z.div_add by (unfold ns_per_minute, ns_per_second; lia). lia.
Qed.

(** A date-time is the only one for its local minute. *)
Lemma local_at point offset dst D h mi :
  0 <= h < 24 -> 0 <= mi < 60 ->
  point / ns_per_minute + offset = D * 1440 + h * 60 + mi ->
  let l := local_from_offset point offset dst in
  civil_from_days D = (year l, month l, day l) /\ hour l = h /\ minute l = mi /\
  weekday l = weekday_of D.
Proof.
  intros Hh Hm Heq l. destruct (local_from_offset_ok point offset dst) as [(Hv & Hh' & Hm' & Hw) Hl].
  fold l in Hv, Hh', Hm', Hw, Hl. unfold local_minutes in Hl.
  set (D' := days_from_civil (year l) (month l) (day l)) in *.
  assert (D' = D /\ hour l = h /\ minute l = mi) as (HD & -> & ->) by lia.
  rewrite <-HD. split; [by apply days_from_civil_ok|done].
Qed.

(** ** Transition days *)

Definition rule_ok (r : TransitionRule) : Prop :=
  1 <= t_month r <= 12 /\ 1 <= t_occurrence r <= 5 /\ 0 <= t_weekday r <= 6 /\ 0 <= t_at r < 1440.

Lemma validate_rule_ok r : 0 <= t_weekday r -> validate_rule r = Ok tt -> rule_ok r.
Proof.
  intros Hw. unfold validate_rule, rule_ok.
  destruct (Z.ltb_spec (t_month r) 1), (Z.gtb_spec (t_month r) 12); cbn [orb]; try done.
  destruct (Z.ltb_spec (t_occurrence r) 1), (Z.gtb_spec (t_occurrence r) 5); cbn [orb]; try done.
  destruct (Z.gtb_spec (t_weekday r) 6); [done|].
  destruct (Z.ltb_spec (t_at r) 0), (Z.leb_spec 1440 (t_at r)); cbn [orb]; try done; lia.
Qed.

(** The [k]-th such weekday of the month, or its last one for [k = 5]. *)
Definition is_transition_day (y : Z) (r : TransitionRule) (n : Z) : Prop :=
  exists d, civil_from_days n = (y, t_month r, d) /\ weekday_of n = t_weekday r /\
    if t_occurrence r =? 5 then days_in_month y (t_month r) < d + 7
    else 7 * (t_occurrence r - 1) < d <= 7 * t_occurrence r.

Lemma transition_day_ok y r :
  rule_ok r -> exists n, transition_day y r = Ok n /\ is_transition_day y r n.
Proof.
  intros (Hm & Ho & Hw & _). unfold transition_day, is_transition_day.
  pose proof (days_in_month_range y (t_month r)) as Hlen.
  destruct (Z.eqb_spec (t_occurrence r) 5) as [E|E].
  - set (last := days_in_month y (t_month r)) in *.
    set (n := days_from_civil y (t_month r) last).
    pose proof (weekday_of_range n) as Hwd. rewrite u32_small by lia.
    set (delta := (weekday_of n + 7 - t_weekday r) mod 7).
    assert (0 <= delta < 7) by (apply Z.mod_pos_bound; lia).
    exists (n - delta). split; [done|]. exists (last - delta).
    replace (n - delta) with (n + - delta) by lia. subst n.
    rewrite civil_shift by lia. split; [by rewrite Z.add_opp_r|]. split; [|lia].
    unfold weekday_of in *. subst delta. div_lia.
  - set (n := days_from_civil y (t_month r) 1).
    pose proof (weekday_of_range n) as Hwd. rewrite u32_small by lia.
    set (delta := (t_weekday r + 7 - weekday_of n) mod 7).
    assert (0 <= delta < 7) by (apply Z.mod_pos_bound; lia).
    set (k := delta + 7 * (t_occurrence r - 1)).
    assert (civil_from_days (n + k) = (y, t_month r, 1 + k)) as Hc
      by (subst n; apply civil_shift; lia).
    rewrite Hc, Z.eqb_refl. cbn [negb]. exists (n + k). split; [done|]. exists (1 + k).
    split; [done|]. split; [|lia]. unfold weekday_of in *. subst k delta. div_lia.
Qed.

(** ** What every zone promises its clients

    A valid zone answers for every instant with the local time at some offset of
    less than a day. *)
Class LawfulZone (A : Type) `{TimeZone A} (zone_ok : A -> Prop) : Prop :=
  zone_law : forall z point, zone_ok z ->
    exists offset dst, -1440 < offset < 1440 /\
      to_local z point = Ok (local_from_offset point offset dst).

#[export] Instance utc_lawful : LawfulZone UtcTimeZone (fun _ => True).
Proof. intros z point _. exists 0, false. split; [lia|done]. Qed.

Definition fixed_ok (z : FixedOffsetTimeZone) : Prop := -1440 < f_offset z < 1440.

#[export] Instance fixed_lawful : LawfulZone FixedOffsetTimeZone fixed_ok.
Proof. intros z point Hz. by exists (f_offset z), false. Qed.

Definition recurring_ok (z : RecurringTimeZone) : Prop :=
  -1440 < standard_offset z < 1440 /\ -1440 < daylight_offset z < 1440 /\
  rule_ok (daylight_start z) /\ rule_ok (daylight_end z).

Lemma daylight_at_ok z point : recurring_ok z -> exists dst, daylight_at z point = Ok dst.
Proof.
  intros (_ & _ & Hs & He). unfold daylight_at.
  destruct (civil_from_days _) as [[y m] d]. unfold transition_instant.
  destruct (transition_day_ok y _ Hs) as (ns & -> & _).
  destruct (transition_day_ok y _ He) as (ne & -> & _). cbn. eauto.
Qed.

#[export] Instance recurring_lawful : LawfulZone RecurringTimeZone recurring_ok.
Proof.
  intros z point Hz. destruct (daylight_at_ok z point Hz) as [dst Hd].
  exists (if dst then daylight_offset z else standard_offset z), dst.
  split; [destruct Hz as (? & ? & _); by destruct dst|].
  unfold to_local, recurring_zone. by rewrite Hd.
Qed.

Lemma validate_offset_ok o : validate_offset o = Ok tt -> -1440 < o < 1440.
Proof.
  unfold validate_offset. destruct (Z.leb_spec o (-1440)), (Z.leb_spec 1440 o); cbn [orb]; done || lia.
Qed.

(** A constructed zone is valid; weekdays are unsigned. *)
Lemma recurring_valid name s d start finish z :
  0 <= t_weekday start -> 0 <= t_weekday finish ->
  recurring name s d start finish = Ok z -> recurring_ok z.
Proof.
  intros Hs Hf. unfold recurring. destruct name; [done|].
  intros ([] & H1 & H)%bind_Ok. apply bind_Ok in H as ([] & H2 & H).
  apply bind_Ok in H as ([] & H3 & H). apply bind_Ok in H as ([] & H4 & H). injection H as <-.
  split; [by apply validate_offset_ok|]. split; [by apply validate_offset_ok|].
  split; by apply validate_rule_ok.
Qed.

(** ** Properties *)

Section Examples.
(** United States eastern time: second Sunday of March to first Sunday of November. *)
Definition example_start : TransitionRule := mkRule 3 2 0 120.
Definition example_end : TransitionRule := mkRule 11 1 0 120.
Definition example_zone : RecurringTimeZone :=
  mkRecurring (lit "America/New_York") (-300) (-240) example_start example_end.

Lemma example_zone_ok : recurring_ok example_zone.
Proof. vm_compute. repeat split; discriminate. Defined.
End Examples.

(** Every valid zone (UTC, fixed offset, recurring daylight saving) turns every
    instant into a well-formed local date-time, with the right weekday, that denotes
    exactly the instant's minute shifted by the offset it reports. *)
Theorem local_time_exact {A} (zone_ok : A -> Prop) `{LawfulZone A zone_ok} (z : A) point :
  zone_ok z ->
  exists l, to_local z point = Ok l /\ local_ok l /\ -1440 < offset_minutes l < 1440 /\
    local_minutes l = point / ns_per_minute + offset_minutes l.
Proof.
  intros Hz. destruct (zone_law z point Hz) as (offset & dst & Ho & ->).
  exists (local_from_offset point offset dst). split; [done|].
  destruct (local_from_offset_ok point offset dst) as [Hok Hm]. split; [done|].
  assert (offset_minutes (local_from_offset point offset dst) = offset) as ->; [|done].
  unfold local_from_offset. by destruct (civil_from_days _) as [[y m] d].
Qed.

Lemma local_time_exact_witness :
  exists l, to_local example_zone 1700000000000000000 = Ok l /\ local_ok l /\
    -1440 < offset_minutes l < 1440 /\
    local_minutes l = 1700000000000000000 / ns_per_minute + offset_minutes l.
Proof.
  apply (local_time_exact recurring_ok example_zone 1700000000000000000). exact example_zone_ok.
Defined.

(** A zone the constructor accepts has both transitions in every year, on the day
    its rule names: the k-th (or the last) such weekday of the month.  The check
    that a transition occurrence exists in its month never fails. *)
Theorem transition_days_exist name standard daylight start finish z y :
  0 <= t_weekday start -> 0 <= t_weekday finish ->
  recurring name standard daylight start finish = Ok z ->
  exists s f, transition_day y (daylight_start z) = Ok s /\
    is_transition_day y (daylight_start z) s /\
    transition_day y (daylight_end z) = Ok f /\ is_transition_day y (daylight_end z) f.
Proof.
  intros Hs Hf H. apply recurring_valid in H as (_ & _ & H1 & H2); [|done..].
  destruct (transition_day_ok y _ H1) as (s & ? & ?).
  destruct (transition_day_ok y _ H2) as (f & ? & ?). by exists s, f.
Qed.

Lemma transition_days_exist_witness :
  exists s f, transition_day 2024 (daylight_start example_zone) = Ok s /\
    is_transition_day 2024 (daylight_start example_zone) s /\
    transition_day 2024 (daylight_end example_zone) = Ok f /\
    is_transition_day 2024 (daylight_end example_zone) f.
Proof.
  apply (transition_days_exist (lit "America/New_York") (-300) (-240) example_start example_end
           example_zone 2024).
  - cbn. lia.
  - cbn. lia.
  - vm_compute. reflexivity.
Defined.
