(* ===== verification/Cron.v ===== *)
(** * Cron expressions ([include/gungnir/scheduler/cron.hpp])

    The five fields, their parser, the matching rule and the search for the next
    matching minute.  [int] arithmetic that may overflow is checked: overflow is
    the outcome [undefined].  Time points, nanoseconds in 64 bits in the source, are integers
    without bounds here, so the search does not reach the end of the clock. *)

From S2P Require Import Prelude Numeral Calendar TimeZone.

Record Field := mkField {
  minimum : Z;
  maximum : Z;
  wildcard : bool;
  values : list bool
}.

(** [Field::contains]. *)
Definition contains (f : Field) (value : Z) : bool :=
  if (value <? minimum f) || (value >? maximum f) then false
  else nth (Z.to_nat (value - minimum f)) (values f) false.

Record CronExpression := mkCron {
  minute_ : Field;
  hour_ : Field;
  day_of_month_ : Field;
  month_ : Field;
  day_of_week_ : Field
}.

(** ** Matching *)

Definition matches (c : CronExpression) (local : LocalDateTime) : bool :=
  if negb (contains (minute_ c) (minute local)) || negb (contains (hour_ c) (hour local)) ||
     negb (contains (month_ c) (month local))
  then false
  else
    let day_of_month := contains (day_of_month_ c) (day local) in
    let day_of_week := contains (day_of_week_ c) (weekday local) ||
                       ((weekday local =? 0) && contains (day_of_week_ c) 7) in
    if wildcard (day_of_month_ c) && wildcard (day_of_week_ c) then true
    else if wildcard (day_of_month_ c) then day_of_week
    else if wildcard (day_of_week_ c) then day_of_month
    else day_of_month || day_of_week.

Section NextAfter.
Context {A : Type} `{TimeZone A} (c : CronExpression) (zone : A).

(** The skipped wall-clock minute, when there is one, does not count. *)
Definition allowed (skip : option WallMinute) (local : LocalDateTime) : bool :=
  match skip with
  | None => true
  | Some w => negb (bool_decide (wall_minute local = w))
  end.

(** The search loop; candidates are minutes since the epoch. *)
Fixpoint search (attempts : nat) (skip : option WallMinute) (candidate : Z) : result Z :=
  match attempts with
  | O => Throw (runtime_error "Cron expression has no occurrence within the search horizon")
  | S n =>
      local ← to_local zone (candidate * ns_per_minute);
      if matches c local && allowed skip local then Ok candidate
      else search n skip (candidate + 1)
  end.

Definition search_limit : Z := 8 * 366 * 24 * 60.

(** [next_after], as a minute since the epoch. *)
Definition next_after (point : Z) (skip : option WallMinute) : result Z :=
  search (Z.to_nat search_limit) skip (point / ns_per_minute + 1).
End NextAfter.

(** ** Parsing *)

Definition upper_char (c : byte) : byte := if between "a" "z" c then chr (uc c - 32) else c.

Definition uppercase (value : bytes) : bytes := map upper_char value.

(** The index of the first non-empty name equal to [normalized]. *)
Fixpoint name_index (normalized : bytes) (names : list bytes) (index : Z) : option Z :=
  match names with
  | [] => None
  | n :: names' =>
      if negb (bool_decide (n = [])) && bool_decide (normalized = n) then Some index
      else name_index normalized names' (index + 1)
  end.

Definition parse_number (value : bytes) (minimum maximum : Z) (names : list bytes) : result Z :=
  let normalized := uppercase value in
  match name_index normalized names 0 with
  | Some index => Ok (minimum + index)
  | None =>
      match from_chars_int normalized with
      | None => Throw (invalid_argument "Cron field contains an invalid value")
      | Some output =>
          if (output <? minimum) || (output >? maximum)
          then Throw (invalid_argument "Cron field value is outside its allowed range")
          else Ok output
      end
  end.

Definition parse_step (value : bytes) : result Z :=
  match value with
  | [] => Throw (invalid_argument "Cron step cannot be empty")
  | _ =>
      match from_chars_int value with
      | Some step =>
          if step <=? 0 then Throw (invalid_argument "Cron step must be a positive integer")
          else Ok step
      | None => Throw (invalid_argument "Cron step must be a positive integer")
      end
  end.

(** The loop of [enable_range]: [value += step] is [int] arithmetic. *)
Fixpoint range_loop (fuel : nat) (minimum value last step : Z) (values : list bool)
    : result (list bool) :=
  match fuel with
  | O => NoFuel
  | S f =>
      if negb (value <=? last) then Ok values
      else
        let values := <[Z.to_nat (value - minimum) := true]> values in
        if value + step >? INT_MAX then Throw (undefined "signed integer overflow")
        else range_loop f minimum (value + step) last step values
  end.

Definition enable_range (minimum first last step : Z) (values : list bool)
    : result (list bool) :=
  if first >? last then Throw (invalid_argument "Cron ranges must be ascending")
  else range_loop (Z.to_nat (last - first + 2)) minimum first last step values.

(** The optional step at the end of an entry. *)
Definition split_step (token : bytes) : result (bytes * Z) :=
  match until "/" token with
  | (token, None) => Ok (token, 1)
  | (token, Some text) =>
      match until "/" text with
      | (_, Some _) =>
          Throw (invalid_argument "Cron field contains multiple step separators")
      | (_, None) => step ← parse_step text; Ok (token, step)
      end
  end.

(** One entry of a list: an optional step, then [*], a value or a range. *)
Definition parse_entry (minimum maximum : Z) (names : list bytes) (token : bytes)
    (values : list bool) : result (list bool) :=
  '(token, step) ← split_step token;
  if bool_decide (token = ["*"%byte]) then enable_range minimum minimum maximum step values
  else
    match until "-" token with
    | (_, None) =>
        value ← parse_number token minimum maximum names;
        Ok (<[Z.to_nat (value - minimum) := true]> values)
    | (from, Some upto) =>
        match until "-" upto with
        | (_, Some _) =>
            Throw (invalid_argument "Cron field contains multiple range separators")
        | (_, None) =>
            first ← parse_number from minimum maximum names;
            last ← parse_number upto minimum maximum names;
            enable_range minimum first last step values
        end
    end.

(** The loop over the entries; a trailing comma ends it. *)
Fixpoint field_loop (fuel : nat) (minimum maximum : Z) (names : list bytes) (source : bytes)
    (values : list bool) : result (list bool) :=
  match fuel with
  | O => NoFuel
  | S f =>
      match source with
      | [] => Ok values
      | _ =>
          let '(token, rest) := until "," source in
          match token with
          | [] => Throw (invalid_argument "Cron lists cannot contain empty entries")
          | _ =>
              values ← parse_entry minimum maximum names token values;
              match rest with
              | None => Ok values
              | Some source => field_loop f minimum maximum names source values
              end
          end
      end
  end.

Definition parse_field (source : bytes) (minimum maximum : Z) (names : list bytes)
    : result Field :=
  values ← field_loop (S (length source)) minimum maximum names source
             (replicate (Z.to_nat (maximum - minimum + 1)) false);
  if negb (existsb (fun v => v) values)
  then Throw (invalid_argument "Cron field does not select any values")
  else Ok (mkField minimum maximum (bool_decide (source = ["*"%byte])) values).

(** The runs of characters that are not spaces. *)
Fixpoint split_space (s : bytes) : list bytes :=
  match s with
  | [] => []
  | c :: s' =>
      if isspace c then split_space s'
      else
        match s' with
        | [] => [[c]]
        | c' :: _ =>
            if isspace c' then [c] :: split_space s'
            else match split_space s' with
                 | word :: words => (c :: word) :: words
                 | [] => [[c]]
                 end
        end
  end.

Definition month_names : list bytes :=
  [lit "JAN"; lit "FEB"; lit "MAR"; lit "APR"; lit "MAY"; lit "JUN";
   lit "JUL"; lit "AUG"; lit "SEP"; lit "OCT"; lit "NOV"; lit "DEC"].

Definition weekday_names : list bytes :=
  [lit "SUN"; lit "MON"; lit "TUE"; lit "WED"; lit "THU"; lit "FRI"; lit "SAT";
   []; []; []; []; []].

(** The constructor of [CronExpression]. *)
Definition parse (expression : bytes) : result CronExpression :=
  match split_space expression with
  | [f0; f1; f2; f3; f4] =>
      minute ← parse_field f0 0 59 [];
      hour ← parse_field f1 0 23 [];
      day_of_month ← parse_field f2 1 31 [];
      month ← parse_field f3 1 12 month_names;
      day_of_week ← parse_field f4 0 7 weekday_names;
      Ok (mkCron minute hour day_of_month month day_of_week)
  | _ => Throw (invalid_argument "Cron expressions must contain exactly five fields")
  end.
