(* ===== verification/CronFacts.v ===== *)
(** * Cron expressions: parsing, matching and the next occurrence *)

From S2P Require Import Prelude Numeral Calendar TimeZone Cron.

(** ** Fields as sets of values *)

Definition selected (lo : Z) (vs : list bool) (v : Z) : bool := nth (Z.to_nat (v - lo)) vs false.

Definition span_ok (lo hi : Z) (vs : list bool) : Prop := length vs = Z.to_nat (hi - lo + 1).

Lemma selected_insert lo hi vs v w :
  lo <= v <= hi -> lo <= w -> span_ok lo hi vs ->
  selected lo (<[Z.to_nat (v - lo) := true]> vs) w = (v =? w) || selected lo vs w.
Proof.
  intros Hv Hw Hs. unfold selected, span_ok in *. rewrite !nth_lookup.
  destruct (Z.eqb_spec v w) as [->|Hne].
  - rewrite list_lookup_insert_eq by lia. done.
  - rewrite list_lookup_insert_ne by lia. done.
Qed.

Lemma span_ok_insert lo hi vs i b : span_ok lo hi vs -> span_ok lo hi (<[i := b]> vs).
Proof. unfold span_ok. by rewrite length_insert. Qed.

(** Values [first], [first + step], ... up to [last]. *)
Definition in_steps (first last step v : Z) : Prop :=
  first <= v <= last /\ (v - first) mod step = 0.

Lemma in_steps_next value last step v :
  0 < step -> value <= last ->
  in_steps value last step v <-> v = value \/ in_steps (value + step) last step v.
Proof.
  intros Hs Hl. unfold in_steps. split.
  - intros [Hv Hm]. destruct (Z.eq_dec v value) as [->|]; [by left|right].
    apply Z.mod_divide in Hm as [k Hk]; [|lia]. assert (1 <= k) by nia. split; [nia|].
    replace (v - (value + step)) with ((k - 1) * step) by lia. apply Z.mod_mul. lia.
  - intros [->|[Hv Hm]]; [split; [lia|]; by rewrite Z.sub_diag, Z.mod_0_l by lia|].
    split; [lia|]. replace (v - value) with (v - (value + step) + 1 * step) by lia.
    by rewrite Z.mod_add by lia.
Qed.

Definition is_undefined (e : exn) : bool := match e with undefined _ => true | _ => false end.

Definition selects_more (lo hi : Z) (vs vs' : list bool) (P : Z -> Prop) : Prop :=
  span_ok lo hi vs' /\
  forall v, lo <= v <= hi -> selected lo vs' v = true <-> selected lo vs v = true \/ P v.

Lemma range_loop_spec f lo hi value last step vs :
  0 < step -> lo <= value -> last <= hi -> span_ok lo hi vs ->
  (Z.to_nat (last - value + 2) <= f)%nat -> (1 <= f)%nat ->
  (exists e, range_loop f lo value last step vs = Throw e /\ is_undefined e = true /\
             INT_MAX < last + step) \/
  (exists vs', range_loop f lo value last step vs = Ok vs' /\
               selects_more lo hi vs vs' (in_steps value last step)).
Proof.
  intros Hs. revert value vs. induction f as [|f IH]; intros value vs Hlo Hhi Hvs Hf Hf1; [lia|].
  cbn [range_loop]. destruct (Z.leb_spec value last) as [Hle|Hgt]; cbn [negb].
  2:{ right. exists vs. split; [done|]. split; [done|]. intros v Hv.
      split; [by left|]. intros [|[Hr _]]; [done|lia]. }
  destruct (Z.gtb_spec (value + step) INT_MAX) as [Hover|Hfit].
  { left. eexists. split; [done|]. split; [done|]. lia. }
  destruct (IH (value + step) (<[Z.to_nat (value - lo) := true]> vs)) as [(e & He)|(vs' & Hok & Hlen & Hsel)];
    [lia|lia|by apply span_ok_insert|lia|lia|left; by exists e|].
  right. exists vs'. split; [done|]. split; [done|]. intros v Hv.
  rewrite Hsel, (selected_insert lo hi), orb_true_iff, Z.eqb_eq, (in_steps_next value) by (done || lia).
  split; [intros [[->|]|]|intros [|[->|]]]; auto.
Qed.

Lemma enable_range_spec lo hi first last step vs :
  0 < step -> lo <= first -> last <= hi -> span_ok lo hi vs ->
  (exists e, enable_range lo first last step vs = Throw e /\
             (is_invalid_argument e = true \/ is_undefined e = true /\ INT_MAX < last + step)) \/
  (exists vs', enable_range lo first last step vs = Ok vs' /\ first <= last /\
               selects_more lo hi vs vs' (in_steps first last step)).
Proof.
  intros Hs Hlo Hhi Hvs. unfold enable_range. destruct (Z.gtb_spec first last); [left; eauto|].
  destruct (range_loop_spec (Z.to_nat (last - first + 2)) lo hi first last step vs)
    as [(e & -> & He & Ho)|(vs' & -> & Hsel)]; [done..|lia| |]; eauto 10.
Qed.

(** ** Outcomes of the parser *)

(** The exceptions the field parser may raise on [text]: undefined behaviour only
    when the text has a step. *)
Definition field_error (text : bytes) (e : exn) : bool :=
  is_invalid_argument e || (is_undefined e && bool_decide ("/"%byte ∈ text)).

(** Names beyond the field's range are empty, hence never found. *)
Definition names_fit (lo hi : Z) (names : list bytes) : Prop :=
  Forall (fun n => n = []) (drop (Z.to_nat (hi - lo + 1)) names).

Lemma name_index_found s l i k :
  name_index s l i = Some k -> i <= k /\ exists n, l !! Z.to_nat (k - i) = Some n /\ n <> [].
Proof.
  revert i. induction l as [|n l IH]; intros i H; [done|]. cbn [name_index] in H.
  destruct (negb _ && _) eqn:E.
  - injection H as <-. reflect_bools. split; [lia|]. exists n. by rewrite Z.sub_diag.
  - apply IH in H as [Hk (n' & Hn' & Hne)]. split; [lia|]. exists n'. split; [|done].
    replace (Z.to_nat (k - i)) with (S (Z.to_nat (k - (i + 1)))) by lia. done.
Qed.

Lemma parse_number_cases value lo hi names :
  lo <= hi -> names_fit lo hi names ->
  (exists s, parse_number value lo hi names = Throw (invalid_argument s)) \/
  (exists v, parse_number value lo hi names = Ok v /\ lo <= v <= hi).
Proof.
  intros Hle Hnames. unfold parse_number.
  destruct (name_index (uppercase value) names 0) as [k|] eqn:E.
  - right. exists (lo + k). split; [done|]. apply name_index_found in E as [Hk (n & Hn & Hne)].
    rewrite Z.sub_0_r in Hn. destruct (Z.le_gt_cases k (hi - lo)); [lia|]. exfalso. apply Hne.
    apply (Forall_lookup_1 _ _ (Z.to_nat k - Z.to_nat (hi - lo + 1)) n Hnames).
    rewrite lookup_drop, <-Hn. f_equal. lia.
  - destruct (from_chars_int (uppercase value)) as [v|]; [|eauto].
    destruct (Z.ltb_spec v lo), (Z.gtb_spec v hi); cbn [orb]; eauto 6.
Qed.

Lemma parse_step_cases value :
  (exists s, parse_step value = Throw (invalid_argument s)) \/
  (exists v, parse_step value = Ok v /\ 0 < v).
Proof.
  unfold parse_step. destruct value as [|c value]; [eauto|].
  destruct (from_chars_int (c :: value)) as [v|]; [|eauto].
  destruct (Z.leb_spec v 0); eauto.
Qed.

Lemma elem_of_until stop s token rest :
  until stop s = (token, Some rest) -> stop ∈ s.
Proof. intros [_ ->]%until_inv. set_solver. Qed.

Lemma split_step_cases token :
  (exists s, split_step token = Throw (invalid_argument s)) \/
  (exists tok step, split_step token = Ok (tok, step) /\ 0 < step /\ (1 < step -> "/"%byte ∈ token)).
Proof.
  unfold split_step. destruct (until "/" token) as [tok [text|]] eqn:E.
  - apply elem_of_until in E. destruct (until "/" text) as [t [u|]]; [eauto|].
    destruct (parse_step_cases text) as [[s ->]|(v & -> & Hv)]; [left; cbn; eauto|].
    right. cbn. exists tok, v. auto.
  - right. exists tok, 1. split; [done|]. lia.
Qed.

(** What an entry may do to a field. *)
Definition entry_outcome (lo hi : Z) (token : bytes) (vs : list bool) (r : result (list bool)) : Prop :=
  (exists e, r = Throw e /\ field_error token e = true) \/
  (exists vs' first last step, r = Ok vs' /\ 0 < step /\ lo <= first <= last /\ last <= hi /\
     selects_more lo hi vs vs' (in_steps first last step)).

Lemma enable_range_outcome lo hi token first last step vs :
  hi < 100 -> 0 < step -> (1 < step -> "/"%byte ∈ token) -> lo <= first -> last <= hi ->
  span_ok lo hi vs -> entry_outcome lo hi token vs (enable_range lo first last step vs).
Proof.
  intros Hhi Hstep Hslash Hlo Hlast Hvs.
  destruct (enable_range_spec lo hi first last step vs) as [(e & -> & He)|(vs' & -> & Hle & Hsel)];
    [done..| |].
  - left. exists e. split; [done|]. unfold field_error.
    destruct He as [->|[-> Ho]]; [done|]. rewrite bool_decide_true; [apply orb_true_r|].
    apply Hslash. unfold INT_MAX in Ho. lia.
  - right. exists vs', first, last, step. split; [done|]. split; [done|]. split; [lia|]. done.
Qed.

Lemma parse_entry_cases lo hi names token vs :
  lo <= hi < 100 -> names_fit lo hi names -> span_ok lo hi vs ->
  entry_outcome lo hi token vs (parse_entry lo hi names token vs).
Proof.
  intros Hle Hnames Hvs. unfold parse_entry.
  destruct (split_step_cases token) as [[s ->]|(tok & step & -> & Hstep & Hslash)];
    [left; cbn; eauto|]. cbn [mbind result_bind].
  case_bool_decide; [apply enable_range_outcome; done || lia|].
  destruct (until "-" tok) as [from [upto|]].
  - destruct (until "-" upto) as [u [w|]]; [left; eauto|].
    destruct (parse_number_cases from lo hi names) as [[s ->]|(v & -> & Hv)];
      [lia|done|left; cbn; eauto|]. cbn [mbind result_bind].
    destruct (parse_number_cases upto lo hi names) as [[s ->]|(v' & -> & Hv')];
      [lia|done|left; cbn; eauto|]. cbn [mbind result_bind].
    apply enable_range_outcome; done || lia.
  - destruct (parse_number_cases tok lo hi names) as [[s ->]|(v & -> & Hv)];
      [lia|done|left; cbn; eauto|]. cbn [mbind result_bind]. right.
    exists (<[Z.to_nat (v - lo) := true]> vs), v, v, 1. split; [done|]. split; [lia|].
    split; [lia|]. split; [lia|]. split; [by apply span_ok_insert|]. intros w Hw.
    rewrite (selected_insert lo hi), orb_true_iff, Z.eqb_eq by (done || lia).
    unfold in_steps. rewrite Z.mod_1_r. split; [intros [->|]; [right|left]; lia || done|].
    intros [|[? _]]; [by right|left; lia].
Qed.

Lemma field_error_weaken a b e : a ⊆ b -> field_error a e = true -> field_error b e = true.
Proof.
  unfold field_error. intros Hab. rewrite !orb_true_iff, !andb_true_iff, !bool_decide_eq_true.
  intros [|[? ?]]; [by left|right]. split; [done|]. by apply Hab.
Qed.

Lemma field_loop_cases f lo hi names source vs :
  lo <= hi < 100 -> names_fit lo hi names -> span_ok lo hi vs -> (length source < f)%nat ->
  (exists e, field_loop f lo hi names source vs = Throw e /\ field_error source e = true) \/
  (exists vs', field_loop f lo hi names source vs = Ok vs' /\ span_ok lo hi vs').
Proof.
  intros Hle Hnames. revert source vs. induction f as [|f IH]; intros source vs Hvs Hf; [lia|].
  cbn [field_loop]. destruct source as [|c source]; [right; eauto|].
  destruct (until "," (c :: source)) as [token rest] eqn:E. apply until_inv in E as [_ E].
  destruct token as [|t token]; [left; eauto|].
  destruct (parse_entry_cases lo hi names (t :: token) vs Hle Hnames Hvs)
    as [(e & -> & He)|(vs' & first & last & step & -> & _ & _ & _ & Hspan & _)].
  { left. exists e. split; [done|]. eapply field_error_weaken; [|exact He]. rewrite E.
    intros x Hx. apply elem_of_app. by left. }
  cbn [mbind result_bind]. destruct rest as [rest|]; [|right; eauto].
  destruct (IH rest vs' Hspan) as [(e & -> & He)|]; [| |right; done].
  - rewrite E in Hf. cbn in Hf. rewrite length_app in Hf. cbn in Hf. lia.
  - left. exists e. split; [done|]. eapply field_error_weaken; [|exact He]. rewrite E.
    intros x Hx. apply elem_of_app. right. by right.
Qed.

(** A field as the constructor leaves it. *)
Definition field_ok (lo hi : Z) (fd : Field) : Prop :=
  minimum fd = lo /\ maximum fd = hi /\ span_ok lo hi (values fd) /\
  exists v, lo <= v <= hi /\ contains fd v = true.

Lemma contains_selected lo hi fd v :
  minimum fd = lo -> maximum fd = hi -> lo <= v <= hi ->
  contains fd v = selected lo (values fd) v.
Proof.
  intros <- <- Hv. unfold contains.
  destruct (Z.ltb_spec v (minimum fd)), (Z.gtb_spec v (maximum fd)); cbn [orb]; done || lia.
Qed.

Lemma existsb_selected lo hi vs :
  span_ok lo hi vs -> existsb (fun v => v) vs = true -> exists v, lo <= v <= hi /\ selected lo vs v = true.
Proof.
  unfold span_ok. intros Hlen (b & Hin & ->)%existsb_exists.
  apply list_elem_of_In, list_elem_of_lookup in Hin as [i Hi]. pose proof (lookup_lt_Some _ _ _ Hi).
  exists (lo + Z.of_nat i). split; [lia|]. unfold selected. rewrite nth_lookup.
  replace (Z.to_nat (lo + Z.of_nat i - lo)) with i by lia. by rewrite Hi.
Qed.

Lemma parse_field_cases source lo hi names :
  lo <= hi < 100 -> names_fit lo hi names ->
  (exists e, parse_field source lo hi names = Throw e /\ field_error source e = true) \/
  (exists fd, parse_field source lo hi names = Ok fd /\ field_ok lo hi fd).
Proof.
  intros Hle Hnames. unfold parse_field.
  destruct (field_loop_cases (S (length source)) lo hi names source
              (replicate (Z.to_nat (hi - lo + 1)) false)) as [(e & -> & He)|(vs & -> & Hspan)];
    [done|done|unfold span_ok; by rewrite length_replicate|lia|left; cbn; eauto|].
  cbn [mbind result_bind]. destruct (existsb _ vs) eqn:E; cbn [negb]; [|left; eauto].
  right. eexists. split; [done|]. split; [done|]. split; [done|]. split; [done|].
  destruct (existsb_selected lo hi vs Hspan E) as (v & Hv & Hsel). exists v. split; [done|].
  by rewrite (contains_selected lo hi).
Qed.

(** ** A parsed expression *)

Definition cron_ok (c : CronExpression) : Prop :=
  field_ok 0 59 (minute_ c) /\ field_ok 0 23 (hour_ c) /\ field_ok 1 31 (day_of_month_ c) /\
  field_ok 1 12 (month_ c) /\ field_ok 0 7 (day_of_week_ c).

Lemma split_space_elem s w : w ∈ split_space s -> w ⊆ s.
Proof.
  revert w. induction s as [|c s IH]; intros w Hw; [by apply not_elem_of_nil in Hw|].
  cbn [split_space] in Hw. destruct (isspace c); [specialize (IH w Hw); set_solver|].
  destruct s as [|c' s]; [apply list_elem_of_singleton in Hw as ->; set_solver|].
  destruct (isspace c').
  - apply elem_of_cons in Hw as [->|Hw]; [set_solver|specialize (IH w Hw); set_solver].
  - destruct (split_space (c' :: s)) as [|word words]; [apply list_elem_of_singleton in Hw as ->; set_solver|].
    apply elem_of_cons in Hw as [->|Hw].
    + specialize (IH word ltac:(by left)). set_solver.
    + specialize (IH w ltac:(by right)). set_solver.
Qed.

Lemma names_fit_decide lo hi names :
  bool_decide (Forall (fun n => n = []) (drop (Z.to_nat (hi - lo + 1)) names)) = true ->
  names_fit lo hi names.
Proof. apply bool_decide_eq_true_1. Qed.

(** One field of the constructor, in continuation style. *)
Lemma parse_field_bind expr source lo hi names {B} (k : Field -> result B) (P : result B -> Prop) :
  lo <= hi < 100 -> names_fit lo hi names -> source ∈ split_space expr ->
  (forall e, field_error expr e = true -> P (Throw e)) ->
  (forall fd, field_ok lo hi fd -> P (k fd)) ->
  P (parse_field source lo hi names ≫= k).
Proof.
  intros Hle Hn Hs He Hk.
  destruct (parse_field_cases source lo hi names Hle Hn) as [(e & -> & H)|(fd & -> & H)]; cbn; [|auto].
  apply He. eapply field_error_weaken; [|exact H]. by apply split_space_elem.
Qed.

Lemma parse_cases expr :
  (exists e, parse expr = Throw e /\ field_error expr e = true) \/
  (exists c, parse expr = Ok c /\ cron_ok c).
Proof.
  unfold parse. destruct (split_space expr) as [|f0 [|f1 [|f2 [|f3 [|f4 [|f5 l]]]]]] eqn:E;
    try (left; eauto; fail).
  set (P := fun r : result CronExpression =>
    (exists e, r = Throw e /\ field_error expr e = true) \/ (exists c, r = Ok c /\ cron_ok c)).
  assert (forall e, field_error expr e = true -> P (Throw e)) as He by (left; eauto).
  apply (parse_field_bind expr f0 0 59 [] _ P); [lia|by apply names_fit_decide|rewrite E; set_solver|done|].
  intros d0 H0. apply (parse_field_bind expr f1 0 23 [] _ P);
    [lia|by apply names_fit_decide|rewrite E; set_solver|done|].
  intros d1 H1. apply (parse_field_bind expr f2 1 31 [] _ P);
    [lia|by apply names_fit_decide|rewrite E; set_solver|done|].
  intros d2 H2. apply (parse_field_bind expr f3 1 12 month_names _ P);
    [lia|by apply names_fit_decide|rewrite E; set_solver|done|].
  intros d3 H3. apply (parse_field_bind expr f4 0 7 weekday_names _ P);
    [lia|by apply names_fit_decide|rewrite E; set_solver|done|].
  intros d4 H4. right. eexists. split; [done|]. done.
Qed.

(** ** The text of a field *)

(** The forms an entry can take. *)
Inductive entry : Type :=
| Every (step : option Z)
| One (v : Z)
| Between (first last : Z) (step : option Z).

Definition step_text (s : option Z) : bytes :=
  match s with None => [] | Some n => "/"%byte :: to_string n end.

Definition entry_text (e : entry) : bytes :=
  match e with
  | Every s => "*"%byte :: step_text s
  | One v => to_string v
  | Between a b s => to_string a ++ "-"%byte :: to_string b ++ step_text s
  end.

Definition step_of (s : option Z) : Z := default 1 s.

Definition entry_selects (lo hi : Z) (e : entry) (v : Z) : Prop :=
  match e with
  | Every s => in_steps lo hi (step_of s) v
  | One w => v = w
  | Between a b s => in_steps a b (step_of s) v
  end.

Definition step_ok (hi : Z) (s : option Z) : Prop := 0 < step_of s /\ hi + step_of s <= INT_MAX.

Definition entry_ok (lo hi : Z) (e : entry) : Prop :=
  match e with
  | Every s => step_ok hi s
  | One v => lo <= v <= hi
  | Between a b s => lo <= a <= b /\ b <= hi /\ step_ok hi s
  end.

(** A list of entries, separated by commas. *)
Fixpoint list_text (l : list entry) : bytes :=
  match l with
  | [] => []
  | [e] => entry_text e
  | e :: l' => entry_text e ++ ","%byte :: list_text l'
  end.

(** Names never read as numbers. *)
Definition names_alpha (names : list bytes) : Prop :=
  Forall (fun n => match n with [] => True | c :: _ => is_digit c = false end) names.

(** *** Numbers *)

Lemma to_string_nonneg n : 0 <= n -> to_string n = to_string_u n.
Proof. intros H. unfold to_string. destruct (Z.ltb_spec n 0); [lia|done]. Qed.

Lemma to_string_digits n : 0 <= n -> Forall (fun b => is_digit b = true) (to_string n).
Proof. intros H. rewrite to_string_nonneg by done. by apply to_string_u_digits. Qed.

Lemma to_string_nonempty n : 0 <= n -> to_string n <> [].
Proof. intros H. rewrite to_string_nonneg by done. by apply to_string_u_nonempty. Qed.

Lemma digits_no c n : 0 <= n -> is_digit c = false -> c ∉ to_string n.
Proof.
  intros Hn Hc Hin. pose proof (to_string_digits n Hn) as H. rewrite Forall_forall in H.
  specialize (H c Hin). congruence.
Qed.

Lemma uppercase_digits s : Forall (fun b => is_digit b = true) s -> uppercase s = s.
Proof.
  induction 1 as [|c s Hc _ IH]; [done|]. cbn. f_equal; [|done].
  apply is_digit_range in Hc. unfold upper_char, between. change (uc "a") with 97.
  destruct (Z.leb_spec 97 (uc c)); [lia|done].
Qed.

Lemma name_index_digits s names i :
  names_alpha names -> s <> [] -> Forall (fun b => is_digit b = true) s -> name_index s names i = None.
Proof.
  intros Hn Hne Hs. revert i. induction Hn as [|n names Hn _ IH]; intros i; [done|].
  cbn [name_index]. destruct n as [|c n]; [cbn; apply IH|].
  rewrite (bool_decide_false (s = c :: n)); [rewrite andb_false_r; apply IH|].
  intros ->. apply Forall_cons in Hs as [Hc _]. congruence.
Qed.

Lemma parse_number_text v lo hi names :
  names_alpha names -> 0 <= lo <= v -> v <= hi < 100 -> parse_number (to_string v) lo hi names = Ok v.
Proof.
  intros Hn Hlo Hhi. unfold parse_number.
  rewrite (uppercase_digits (to_string v)) by (apply to_string_digits; lia).
  rewrite name_index_digits by first [done | apply to_string_nonempty; lia | apply to_string_digits; lia].
  unfold from_chars_int. rewrite from_chars_all_to_string by (unfold INT_MIN, INT_MAX; lia).
  destruct (Z.ltb_spec v lo), (Z.gtb_spec v hi); cbn [orb]; done || lia.
Qed.

Lemma parse_step_text s : 0 < s <= INT_MAX -> parse_step (to_string s) = Ok s.
Proof.
  intros H. unfold parse_step. destruct (to_string s) eqn:E.
  { by apply to_string_nonempty in E; [|lia]. }
  rewrite <-E. unfold from_chars_int.
  rewrite from_chars_all_to_string by (unfold INT_MIN in *; lia).
  destruct (Z.leb_spec s 0); [lia|done].
Qed.

(** *** Entries *)

Definition plain_char (c : byte) : Prop := c <> "/"%byte /\ c <> ","%byte.

Lemma split_step_text body s hi :
  "/"%byte ∉ body -> 0 <= hi -> step_ok hi s ->
  split_step (body ++ step_text s) = Ok (body, step_of s).
Proof.
  intros Hb Hhi [Hs Hmax]. unfold split_step. destruct s as [n|]; cbn [step_text step_of from_option id] in *.
  - rewrite until_app by done. rewrite until_none by (apply digits_no; [lia|done]).
    by rewrite parse_step_text by lia.
  - rewrite app_nil_r, until_none by done. done.
Qed.

Lemma enable_range_ok lo hi first last step vs :
  0 < step -> hi + step <= INT_MAX -> lo <= first <= last -> last <= hi -> span_ok lo hi vs ->
  exists vs', enable_range lo first last step vs = Ok vs' /\
    selects_more lo hi vs vs' (in_steps first last step).
Proof.
  intros Hs Hfit Hlo Hhi Hvs.
  destruct (enable_range_spec lo hi first last step vs) as [(e & He & H)|(vs' & Hok & _ & Hsel)];
    [done|lia|done|done| |eauto].
  exfalso. destruct H as [H|[_ H]]; [|lia]. revert He. unfold enable_range.
  destruct (Z.gtb_spec first last); [lia|]. intros He.
  destruct (range_loop_spec (Z.to_nat (last - first + 2)) lo hi first last step vs)
    as [(e' & He' & Hu & _)|(vs' & He' & _)]; [done|lia|done|done|lia|lia| |congruence].
  rewrite He in He'. injection He' as <-. by destruct e.
Qed.

Lemma entry_head lo hi e :
  0 <= lo -> entry_ok lo hi e -> exists c r, entry_text e = c :: r.
Proof.
  intros Hlo. destruct e as [s|v|a b s]; cbn [entry_text entry_ok]; [eauto|..].
  - intros Hv. destruct (to_string v) eqn:E; [by apply to_string_nonempty in E; [|lia]|eauto].
  - intros Ha. destruct (to_string a) eqn:E; [apply to_string_nonempty in E; [done|lia]|cbn; eauto].
Qed.

Lemma step_text_no_comma hi s : 0 <= hi -> step_ok hi s -> ","%byte ∉ step_text s.
Proof.
  intros Hhi [Hs _]. destruct s as [n|]; cbn in *; [|apply not_elem_of_nil].
  apply not_elem_of_cons. split; [done|]. apply digits_no; [lia|done].
Qed.

Lemma entry_no_comma lo hi e : 0 <= lo <= hi -> entry_ok lo hi e -> ","%byte ∉ entry_text e.
Proof.
  intros Hlo. destruct e as [s|v|a b s]; cbn [entry_text entry_ok].
  - intros Hs. apply not_elem_of_cons. split; [done|]. apply (step_text_no_comma hi); [lia|done].
  - intros Hv. apply digits_no; [lia|done].
  - intros (Ha & Hb & Hs). rewrite not_elem_of_app, not_elem_of_cons, not_elem_of_app.
    split; [apply digits_no; [lia|done]|]. split; [done|].
    split; [apply digits_no; [lia|done]|]. apply (step_text_no_comma hi); [lia|done].
Qed.

Lemma not_star n : 0 <= n -> to_string n <> ["*"%byte].
Proof.
  intros Hn E. pose proof (to_string_digits n Hn) as H. rewrite E in H.
  apply Forall_cons in H as [H _]. done.
Qed.

Lemma parse_entry_text lo hi names e vs :
  0 <= lo <= hi -> hi < 100 -> names_alpha names -> entry_ok lo hi e -> span_ok lo hi vs ->
  exists vs', parse_entry lo hi names (entry_text e) vs = Ok vs' /\
    selects_more lo hi vs vs' (entry_selects lo hi e).
Proof.
  intros Hlo Hhi Hn He Hvs. unfold parse_entry. destruct e as [s|v|a b s]; cbn [entry_text entry_ok] in *.
  - change ("*"%byte :: step_text s) with (["*"%byte] ++ step_text s).
    rewrite (split_step_text _ _ hi) by first [done | lia | by apply not_elem_of_cons; split; [|apply not_elem_of_nil]].
    cbn [mbind result_bind]. rewrite bool_decide_true by done. destruct He as [Hs Hmax].
    by apply enable_range_ok; try lia.
  - rewrite <-(app_nil_r (to_string v)). change [] with (step_text None).
    rewrite (split_step_text _ None hi) by
      first [split; cbn; unfold INT_MAX; lia | lia | apply digits_no; [lia|done]].
    cbn [mbind result_bind]. rewrite bool_decide_false by (apply not_star; lia).
    rewrite until_none by (apply digits_no; [lia|done]).
    rewrite parse_number_text by (done || lia). cbn [mbind result_bind].
    eexists. split; [done|]. split; [by apply span_ok_insert|]. intros w Hw.
    rewrite (selected_insert lo hi), orb_true_iff, Z.eqb_eq by (done || lia). cbn [entry_selects].
    split; [intros [->|]; auto|]. intros [| ->]; auto.
  - destruct He as (Ha & Hb & Hstep).
    rewrite app_comm_cons, app_assoc, (split_step_text _ _ hi); [|clear Hstep|lia|done].
    2:{ rewrite not_elem_of_app, not_elem_of_cons.
        split; [|split; [done|]]; (apply digits_no; [lia|done]). }
    cbn [mbind result_bind]. rewrite bool_decide_false.
    2:{ intros E. apply (f_equal (fun l => "-"%byte ∈ l)) in E.
        assert ("-"%byte ∈ ["*"%byte]) as Hin by (rewrite <-E; set_solver).
        apply list_elem_of_singleton in Hin. done. }
    rewrite until_app by (apply digits_no; [lia|done]).
    rewrite until_none by (apply digits_no; [lia|done]).
    rewrite !parse_number_text by (done || lia). cbn [mbind result_bind].
    destruct Hstep as [Hs Hmax]. by apply enable_range_ok; try lia.
Qed.

(** *** Lists *)

Definition list_selects (lo hi : Z) (l : list entry) (v : Z) : Prop :=
  Exists (fun e => entry_selects lo hi e v) l.

Lemma selects_more_trans lo hi vs vs1 vs2 P Q :
  selects_more lo hi vs vs1 P -> selects_more lo hi vs1 vs2 Q ->
  selects_more lo hi vs vs2 (fun v => P v \/ Q v).
Proof.
  intros [_ H1] [Hs H2]. split; [done|]. intros v Hv. rewrite H2, H1 by done. tauto.
Qed.

Lemma selects_more_proper lo hi vs vs' P Q :
  (forall v, P v <-> Q v) -> selects_more lo hi vs vs' P -> selects_more lo hi vs vs' Q.
Proof. intros HPQ [Hs H]. split; [done|]. intros v Hv. by rewrite H, HPQ. Qed.

Lemma field_loop_S f lo hi names source token rest vs :
  source <> [] -> token <> [] -> until "," source = (token, rest) ->
  field_loop (S f) lo hi names source vs =
  (vs1 ← parse_entry lo hi names token vs;
   match rest with None => Ok vs1 | Some more => field_loop f lo hi names more vs1 end).
Proof.
  intros Hs Ht E. cbn [field_loop]. destruct source as [|c source]; [done|]. rewrite E.
  by destruct token.
Qed.

Lemma field_loop_text f lo hi names l vs :
  0 <= lo <= hi -> hi < 100 -> names_alpha names -> Forall (entry_ok lo hi) l -> span_ok lo hi vs ->
  l <> [] -> (length l <= f)%nat ->
  exists vs', field_loop f lo hi names (list_text l) vs = Ok vs' /\
    selects_more lo hi vs vs' (list_selects lo hi l).
Proof.
  intros Hlo Hhi Hn Hl. revert f vs. induction Hl as [|e l He Hl IH]; intros f vs Hvs Hne Hf; [done|].
  destruct f as [|f]; [cbn in Hf; lia|]. cbn in Hf.
  destruct (entry_head lo hi e ltac:(lia) He) as (c & r & Hhead).
  destruct (parse_entry_text lo hi names e vs ltac:(lia) Hhi Hn He Hvs) as (vs1 & H1 & Hsel1).
  pose proof (entry_no_comma lo hi e ltac:(lia) He) as Hcomma.
  destruct l as [|e' l].
  - cbn [list_text]. rewrite (field_loop_S _ _ _ _ _ (entry_text e) None), H1
      by first [by rewrite Hhead | by apply until_none]. cbn [mbind result_bind].
    exists vs1. split; [done|]. eapply selects_more_proper; [|exact Hsel1].
    intros v. unfold list_selects. rewrite Exists_cons, Exists_nil. tauto.
  - destruct (IH f vs1) as (vs2 & H2 & Hsel2); [by destruct Hsel1|done|cbn in *; lia|].
    change (list_text (e :: e' :: l)) with (entry_text e ++ ","%byte :: list_text (e' :: l)).
    rewrite (field_loop_S _ _ _ _ _ (entry_text e) (Some (list_text (e' :: l)))), H1
      by first [by rewrite Hhead | by apply until_app].
    cbn [mbind result_bind]. exists vs2. split; [done|].
    eapply selects_more_proper; [|eapply selects_more_trans; [exact Hsel1|exact Hsel2]].
    intros v. unfold list_selects. by rewrite !Exists_cons.
Qed.

Lemma entry_selects_first lo hi e :
  lo <= hi -> entry_ok lo hi e -> exists v, lo <= v <= hi /\ entry_selects lo hi e v.
Proof.
  intros Hle. destruct e as [s|v|a b s]; cbn [entry_ok entry_selects]; unfold in_steps.
  - intros [Hs _]. exists lo. split; [lia|]. rewrite Z.sub_diag, Z.mod_0_l by lia. lia.
  - eauto.
  - intros (Ha & Hb & Hs & _). exists a. rewrite Z.sub_diag, Z.mod_0_l by lia. lia.
Qed.

Lemma selected_replicate lo n v : selected lo (replicate n false) v = false.
Proof.
  unfold selected. rewrite nth_lookup. destruct (_ !! _) eqn:E; [|done].
  by apply lookup_replicate_1 in E as [-> _].
Qed.

Lemma selected_existsb lo hi vs v :
  span_ok lo hi vs -> lo <= v <= hi -> selected lo vs v = true -> existsb (fun b => b) vs = true.
Proof.
  unfold span_ok, selected. intros Hs Hv H. rewrite nth_lookup in H.
  destruct (vs !! Z.to_nat (v - lo)) as [b|] eqn:E; [|done]. cbn in H. subst.
  apply existsb_exists. exists true. split; [|done]. apply list_elem_of_In.
  by eapply list_elem_of_lookup_2.
Qed.

Lemma list_text_length lo hi l :
  0 <= lo -> Forall (entry_ok lo hi) l -> (length l <= length (list_text l))%nat.
Proof.
  intros Hlo. induction 1 as [|e l He Hl IH]; [done|].
  destruct (entry_head lo hi e Hlo He) as (c & r & Hhead). destruct l as [|e' l].
  - cbn. rewrite Hhead. cbn. lia.
  - change (list_text (e :: e' :: l)) with (entry_text e ++ ","%byte :: list_text (e' :: l)).
    rewrite length_app, Hhead. cbn [length] in *. lia.
Qed.

Lemma parse_field_text lo hi names l :
  0 <= lo <= hi -> hi < 100 -> names_alpha names -> Forall (entry_ok lo hi) l -> l <> [] ->
  exists fd, parse_field (list_text l) lo hi names = Ok fd /\ field_ok lo hi fd /\
    forall v, contains fd v = true <-> lo <= v <= hi /\ list_selects lo hi l v.
Proof.
  intros Hlo Hhi Hn Hl Hne. unfold parse_field.
  set (init := replicate (Z.to_nat (hi - lo + 1)) false).
  assert (span_ok lo hi init) as Hinit by (unfold span_ok, init; by rewrite length_replicate).
  pose proof (list_text_length lo hi l ltac:(lia) Hl).
  destruct (field_loop_text (S (length (list_text l))) lo hi names l init) as (vs & -> & Hs & Hsel);
    [done..|lia|]. cbn [mbind result_bind].
  assert (exists v, lo <= v <= hi /\ selected lo vs v = true) as (v0 & Hv0 & Hsel0).
  { destruct Hl as [|e l He Hl]; [done|].
    destruct (entry_selects_first lo hi e ltac:(lia) He) as (v & Hv & Hev). exists v. split; [done|].
    apply Hsel; [done|]. right. by left. }
  rewrite (selected_existsb lo hi vs v0) by done. cbn [negb]. eexists. split; [done|].
  assert (forall v, lo <= v <= hi ->
    contains (mkField lo hi (bool_decide (list_text l = ["*"%byte])) vs) v = selected lo vs v) as Hc
    by (intros v Hv; by apply (contains_selected lo hi)).
  split.
  - split; [done|]. split; [done|]. split; [done|]. exists v0. split; [done|]. by rewrite Hc.
  - intros v. destruct (decide (lo <= v <= hi)) as [Hv|Hv].
    + rewrite Hc, Hsel by done. subst init. rewrite selected_replicate. naive_solver.
    + split; [|tauto]. unfold contains. cbn [minimum maximum].
      destruct (Z.ltb_spec v lo), (Z.gtb_spec v hi); cbn [orb]; done || lia.
Qed.

(** ** The next occurrence *)

Section Search.
Context {A : Type} (zone_ok : A -> Prop) `{LawfulZone A zone_ok}.
Context (c : CronExpression) (z : A) (Hz : zone_ok z) (skip : option WallMinute).

(** The minute [t] is an occurrence. *)
Definition occurs (t : Z) : Prop :=
  exists l, to_local z (t * ns_per_minute) = Ok l /\ matches c l = true /\ allowed skip l = true.

Lemma search_step n t :
  (occurs t /\ search c z (S n) skip t = Ok t) \/
  (~ occurs t /\ search c z (S n) skip t = search c z n skip (t + 1)).
Proof.
  cbn [search]. destruct (zone_law z (t * ns_per_minute) Hz) as (o & dst & _ & Hl).
  rewrite Hl. cbn [mbind result_bind]. unfold occurs. rewrite Hl.
  destruct (matches c _) eqn:Hm; cbn [andb].
  - destruct (allowed skip _) eqn:Ha; [left; split; [eauto|done]|].
    right. split; [|done]. intros (l & [= <-] & _ & ?). congruence.
  - right. split; [|done]. intros (l & [= <-] & ? & _). congruence.
Qed.

Lemma search_spec n t :
  (exists r, search c z n skip t = Ok r /\ t <= r < t + Z.of_nat n /\ occurs r /\
             forall u, t <= u < r -> ~ occurs u) \/
  (search c z n skip t =
     Throw (runtime_error "Cron expression has no occurrence within the search horizon") /\
   forall u, t <= u < t + Z.of_nat n -> ~ occurs u).
Proof.
  revert t. induction n as [|n IH]; intros t; [right; split; [done|lia]|].
  destruct (search_step n t) as [[Ho ->]|[Ho ->]].
  { left. exists t. split; [done|]. split; [lia|]. split; [done|]. lia. }
  destruct (IH (t + 1)) as [(r & -> & Hr & Hor & Hleast)|[-> Hnone]].
  - left. exists r. split; [done|]. split; [lia|]. split; [done|]. intros u Hu.
    destruct (Z.eq_dec u t) as [->|]; [done|]. apply Hleast. lia.
  - right. split; [done|]. intros u Hu. destruct (Z.eq_dec u t) as [->|]; [done|].
    apply Hnone. lia.
Qed.
End Search.

Lemma search_limit_nat : Z.of_nat (Z.to_nat search_limit) = search_limit.
Proof. apply Z2Nat.id. unfold search_limit. lia. Qed.

(** ** Every satisfiable expression recurs within the horizon *)

Lemma march_mono y k : 0 <= k -> march y <= march (y + k).
Proof. intros Hk. unfold march. div_lia. Qed.

Lemma same_date_mono y k m d : 0 <= k -> days_from_civil y m d <= days_from_civil (y + k) m d.
Proof.
  intros Hk. rewrite !days_closed. destruct (m <=? 2).
  - pose proof (march_mono (y - 1) k Hk). replace (y + k - 1) with (y - 1 + k) by lia. lia.
  - pose proof (march_mono y k Hk). lia.
Qed.

(** February 29th and every other date comes up within eight years. *)
Lemma date_within q m d :
  1 <= m <= 12 -> 1 <= d <= days_in_month 0 m ->
  exists D y, q < D <= q + 2926 /\ civil_from_days D = (y, m, d).
Proof.
  intros Hm Hd. destruct (civil_from_days (q + 1)) as [[y m0] d0] eqn:E.
  apply civil_in_year in E as [Hlo Hhi].
  assert (forall y', is_leap y' = true -> civil_from_days (days_from_civil y' m d) = (y', m, d)) as Hdate.
  { intros y' Hy'. apply days_from_civil_ok, valid_date_spec. split; [done|]. split; [lia|].
    apply days_in_month_leap. split; [lia|done]. }
  destruct (leap_within y) as (k & Hk & Hleap).
  pose proof (date_in_year (y + k) m d Hm Hd) as [H1 H2].
  destruct (Z.le_gt_cases (q + 1) (days_from_civil (y + k) m d)) as [Hge|Hlt].
  - exists (days_from_civil (y + k) m d), (y + k). split; [|by apply Hdate].
    pose proof (new_year_mono (y + k + 1) (7 - k) ltac:(lia)) as Hmono.
    replace (y + k + 1 + (7 - k)) with (y + 8) in Hmono by lia.
    pose proof (new_year_eight y). lia.
  - assert (k = 0) as ->.
    { destruct (Z.eq_dec k 0); [done|]. pose proof (new_year_mono (y + 1) (k - 1) ltac:(lia)) as Hmono.
      replace (y + 1 + (k - 1)) with (y + k) in Hmono by lia. lia. }
    destruct (leap_within (y + 1)) as (k' & Hk' & Hleap').
    exists (days_from_civil (y + 1 + k') m d), (y + 1 + k'). split; [|by apply Hdate].
    pose proof (date_in_year (y + 1 + k') m d Hm Hd) as [H3 _].
    pose proof (new_year_mono (y + 1) k' ltac:(lia)).
    pose proof (same_date_mono (y + 1 + k') (7 - k') m d ltac:(lia)) as Hmono.
    replace (y + 1 + k' + (7 - k')) with (y + 8) in Hmono by lia.
    rewrite Z.add_0_r in Hlt. pose proof (same_date_eight y m d). lia.
Qed.

(** Every weekday of every month comes up within the next year. *)
Lemma weekday_within q m w :
  1 <= m <= 12 -> 0 <= w < 7 ->
  exists D y d, q < D <= q + 2926 /\ civil_from_days D = (y, m, d) /\ weekday_of D = w.
Proof.
  intros Hm Hw. destruct (civil_from_days (q + 1)) as [[y m0] d0] eqn:E.
  apply civil_in_year in E as [Hlo Hhi]. set (first := days_from_civil (y + 1) m 1).
  set (delta := (w - weekday_of first) mod 7).
  assert (0 <= delta < 7) as Hdelta by (apply Z.mod_pos_bound; lia).
  exists (first + delta), (y + 1), (1 + delta).
  pose proof (days_in_month_range (y + 1) m). pose proof (days_in_month_range 0 m).
  split; [|split].
  - pose proof (date_in_year (y + 1) m (1 + delta) Hm ltac:(lia)) as [H1 H2].
    rewrite days_succ in H1, H2. fold first in H1, H2.
    pose proof (new_year_step y). pose proof (new_year_step (y + 1)). lia.
  - apply civil_shift; lia.
  - unfold weekday_of in *. subst delta. clearbody first. div_lia.
Qed.

(** What an expression needs in order to ever match: only a restricted day of the
    month with an unrestricted weekday can fail, when none of its days exists in
    any of its months. *)
Definition satisfiable (c : CronExpression) : Prop :=
  wildcard (day_of_week_ c) = true -> wildcard (day_of_month_ c) = false ->
  exists m d, contains (month_ c) m = true /\ contains (day_of_month_ c) d = true /\
              d <= days_in_month 0 m.

Lemma contains_range lo hi fd v : field_ok lo hi fd -> contains fd v = true -> lo <= v <= hi.
Proof.
  intros (<- & <- & _) H. unfold contains in H.
  destruct (Z.ltb_spec v (minimum fd)), (Z.gtb_spec v (maximum fd)); cbn [orb] in H; done || lia.
Qed.

(** A day on which the expression matches, in the window after day [q]. *)
Lemma day_within c q :
  cron_ok c -> satisfiable c ->
  exists D y m d, q < D <= q + 2926 /\ civil_from_days D = (y, m, d) /\
    contains (month_ c) m = true /\
    (wildcard (day_of_month_ c) && wildcard (day_of_week_ c) = true \/
     wildcard (day_of_week_ c) = false /\
       contains (day_of_week_ c) (weekday_of D) ||
         ((weekday_of D =? 0) && contains (day_of_week_ c) 7) = true \/
     wildcard (day_of_month_ c) = false /\ contains (day_of_month_ c) d = true).
Proof.
  intros (_ & _ & Hdom & Hmon & Hdow) Hsat.
  destruct Hmon as (Hmin & Hmax & Hspan & m & Hm & Hmc).
  destruct (wildcard (day_of_week_ c)) eqn:Ew.
  - destruct (wildcard (day_of_month_ c)) eqn:Em.
    + destruct (weekday_within q m 0) as (D & y & d & HD & Hc & _); [lia|lia|].
      exists D, y, m, d. auto.
    + destruct (Hsat Ew Em) as (m' & d & Hm' & Hd & Hlen).
      pose proof (contains_range 1 31 _ _ Hdom Hd).
      assert (1 <= m' <= 12).
      { apply (contains_range 1 12 (month_ c)); [|done]. split; [done|]. split; [done|].
        split; [done|]. eauto. }
      destruct (date_within q m' d) as (D & y & HD & Hc); [lia|lia|].
      exists D, y, m', d. auto 10.
  - destruct Hdow as (_ & _ & _ & w & Hw & Hwc).
    destruct (weekday_within q m (w mod 7)) as (D & y & d & HD & Hc & Hwd); [lia|apply Z.mod_pos_bound; lia|].
    exists D, y, m, d. split; [done|]. split; [done|]. split; [done|]. right. left. split; [done|].
    rewrite Hwd. destruct (Z.eq_dec w 7) as [->|].
    + change (7 mod 7) with 0. cbn [Z.eqb andb]. by rewrite Hwc, orb_true_r.
    + rewrite Z.mod_small by lia. by rewrite Hwc.
Qed.

Lemma matches_at c l :
  contains (minute_ c) (minute l) = true -> contains (hour_ c) (hour l) = true ->
  contains (month_ c) (month l) = true ->
  (wildcard (day_of_month_ c) && wildcard (day_of_week_ c) = true \/
   wildcard (day_of_week_ c) = false /\
     contains (day_of_week_ c) (weekday l) ||
       ((weekday l =? 0) && contains (day_of_week_ c) 7) = true \/
   wildcard (day_of_month_ c) = false /\ contains (day_of_month_ c) (day l) = true) ->
  matches c l = true.
Proof.
  intros Hmi Hh Hmo Hd. unfold matches. rewrite Hmi, Hh, Hmo. cbn [negb orb].
  destruct (wildcard (day_of_month_ c)), (wildcard (day_of_week_ c)); cbn [andb] in *; try done.
  - destruct Hd as [|[[_ Hd]|[? _]]]; done.
  - destruct Hd as [|[[? _]|[_ Hd]]]; done.
  - destruct Hd as [|[[_ Hd]|[_ Hd]]]; [done| |]; rewrite Hd; [apply orb_true_r|done].
Qed.

Lemma occurs_within c offset start :
  cron_ok c -> satisfiable c ->
  exists t, start <= t < start + search_limit /\
    forall dst, matches c (local_from_offset (t * ns_per_minute) offset dst) = true.
Proof.
  intros Hc Hsat. set (q := (start + offset) / 1440).
  destruct (day_within c q Hc Hsat) as (D & y & m & d & HD & Hciv & Hmon & Hday).
  destruct Hc as ((_ & _ & _ & mi & Hmi & Hmic) & (_ & _ & _ & h & Hh & Hhc) & _).
  exists (D * 1440 + h * 60 + mi - offset).
  split; [unfold search_limit; subst q; div_lia|]. intros dst.
  destruct (local_at ((D * 1440 + h * 60 + mi - offset) * ns_per_minute) offset dst D h mi)
    as (Hciv' & Hh' & Hmi' & Hw'); [lia|lia|rewrite Z.div_mul by done; lia|].
  revert Hciv' Hh' Hmi' Hw'. generalize (local_from_offset
    ((D * 1440 + h * 60 + mi - offset) * ns_per_minute) offset dst) as l.
  intros l Hciv' Hh' Hmi' Hw'. rewrite Hciv in Hciv'. injection Hciv' as Hy Hmo Hd.
  apply matches_at; [by rewrite Hmi'|by rewrite Hh'|by rewrite <-Hmo|by rewrite Hw', <-Hd].
Qed.

(** ** Properties *)

Section Examples.
(** [0 0 29 2 *]: midnight of February 29th. *)
Definition leap_day : CronExpression :=
  mkCron (mkField 0 59 false (<[0%nat := true]> (replicate 60 false)))
    (mkField 0 23 false (<[0%nat := true]> (replicate 24 false)))
    (mkField 1 31 false (<[28%nat := true]> (replicate 31 false)))
    (mkField 1 12 false (<[1%nat := true]> (replicate 12 false)))
    (mkField 0 7 true (replicate 8 true)).

Lemma leap_day_parsed : parse (lit "0 0 29 2 *") = Ok leap_day.
Proof. vm_compute. reflexivity. Defined.

Lemma leap_day_ok : cron_ok leap_day.
Proof.
  repeat split; cbn [minute_ hour_ day_of_month_ month_ day_of_week_ leap_day].
  - exists 0. split; [lia|reflexivity].
  - exists 0. split; [lia|reflexivity].
  - exists 29. split; [lia|reflexivity].
  - exists 2. split; [lia|reflexivity].
  - exists 0. split; [lia|reflexivity].
Defined.

Lemma leap_day_satisfiable : satisfiable leap_day.
Proof.
  intros _ _. exists 2, 29. split; [reflexivity|]. split; [reflexivity|]. vm_compute. discriminate.
Defined.

Definition example_entries : list entry :=
  [Between 1 5 None; Every (Some 20); One 59].

Lemma example_entries_ok : Forall (entry_ok 0 59) example_entries.
Proof.
  repeat constructor; cbn; unfold INT_MAX; lia.
Defined.
End Examples.

(** The constructor of a cron expression either returns an expression whose five
    fields cover their ranges and each select at least one value, or raises
    [std::invalid_argument]; it runs into undefined behaviour (overflow of the range
    loop) only if the text has a step. *)
Theorem cron_parse_total expression :
  match parse expression with
  | Ok c => cron_ok c
  | Throw (invalid_argument _) => True
  | Throw (undefined _) => "/"%byte ∈ expression
  | _ => False
  end.
Proof.
  destruct (parse_cases expression) as [(e & -> & He)|(c & -> & Hc)]; [|done].
  unfold field_error in He. destruct e; cbn in He; try done. by apply bool_decide_eq_true in He.
Qed.

(** A field written as a list of entries ([*], values, ranges, each with an
    optional step) selects exactly the values its entries name. *)
Theorem cron_field_meaning lo hi names l :
  0 <= lo <= hi -> hi < 100 -> names_alpha names -> Forall (entry_ok lo hi) l -> l <> [] ->
  exists fd, parse_field (list_text l) lo hi names = Ok fd /\ field_ok lo hi fd /\
    forall v, contains fd v = true <-> lo <= v <= hi /\ list_selects lo hi l v.
Proof. apply parse_field_text. Qed.

Lemma cron_field_meaning_witness :
  exists fd, parse_field (lit "1-5,*/20,59") 0 59 [] = Ok fd /\ field_ok 0 59 fd /\
    forall v, contains fd v = true <-> 0 <= v <= 59 /\ list_selects 0 59 example_entries v.
Proof.
  apply (cron_field_meaning 0 59 [] example_entries).
  - lia.
  - lia.
  - constructor.
  - exact example_entries_ok.
  - done.
Defined.

(** C22. [next_after] in any valid zone returns the first occurrence after the given
    instant: a minute strictly later that matches (and is not the skipped wall-clock
    minute), with no such minute before it; it raises [std::runtime_error] exactly
    when none of the minutes of the search horizon matches. *)
Theorem next_after_first {A} (zone_ok : A -> Prop) `{LawfulZone A zone_ok} c (z : A) point skip :
  zone_ok z ->
  let start := point / ns_per_minute + 1 in
  match next_after c z point skip with
  | Ok r => point < r * ns_per_minute /\ start <= r < start + search_limit /\
            occurs c z skip r /\ forall u, start <= u < r -> ~ occurs c z skip u
  | Throw (runtime_error _) =>
      forall u, start <= u < start + search_limit -> ~ occurs c z skip u
  | _ => False
  end.
Proof.
  intros Hz start. unfold next_after. fold start.
  destruct (search_spec zone_ok c z Hz skip (Z.to_nat search_limit) start)
    as [(r & -> & Hr & Ho & Hleast)|[-> Hnone]]; rewrite search_limit_nat in *; [|done].
  split; [|done]. assert (0 < ns_per_minute) by (unfold ns_per_minute, ns_per_second; lia).
  pose proof (Z.mul_div_le point ns_per_minute ltac:(lia)).
  pose proof (Z.mod_pos_bound point ns_per_minute ltac:(lia)).
  pose proof (Z.div_mod point ns_per_minute ltac:(lia)). subst start. nia.
Qed.

Lemma next_after_first_witness :
  match next_after leap_day utc 1709164799000000000 None with
  | Ok r => 1709164799000000000 < r * ns_per_minute /\
            1709164799000000000 / ns_per_minute + 1 <= r <
              1709164799000000000 / ns_per_minute + 1 + search_limit /\
            occurs leap_day utc None r /\
            forall u, 1709164799000000000 / ns_per_minute + 1 <= u < r -> ~ occurs leap_day utc None u
  | Throw (runtime_error _) =>
      forall u, 1709164799000000000 / ns_per_minute + 1 <= u <
                1709164799000000000 / ns_per_minute + 1 + search_limit ->
                ~ occurs leap_day utc None u
  | _ => False
  end.
Proof. apply (next_after_first (fun _ => True) leap_day utc 1709164799000000000 None). exact I. Defined.

(** C39. The search horizon is long enough for zones with a constant offset from UTC: there,
    every parsed expression that can match at all has a next occurrence, February 29th
    across a century year included.  (In a zone with daylight saving time the minute may be
    one the clocks skip, and the next one more than eight years away.) *)
Theorem next_after_found c (z : FixedOffsetTimeZone) point :
  cron_ok c -> satisfiable c -> fixed_ok z ->
  exists r, next_after c z point None = Ok r.
Proof.
  intros Hc Hsat Hz. unfold next_after. set (start := point / ns_per_minute + 1).
  destruct (search_spec fixed_ok c z Hz None (Z.to_nat search_limit) start)
    as [(r & -> & _)|[_ Hnone]]; [eauto|].
  destruct (occurs_within c (f_offset z) start Hc Hsat) as (t & Ht & Hm).
  rewrite search_limit_nat in Hnone. destruct (Hnone t Ht).
  eexists. split; [done|]. split; [apply Hm|done].
Qed.

Lemma next_after_found_witness :
  exists r, next_after leap_day (mkFixed (lit "UTC+2") 120) 3981312000000000000 None = Ok r.
Proof.
  apply (next_after_found leap_day (mkFixed (lit "UTC+2") 120) 3981312000000000000).
  - exact leap_day_ok.
  - exact leap_day_satisfiable.
  - split; cbn; lia.
Defined.

(** A step close to the largest [int] makes the range loop overflow. *)
Example step_overflow :
  parse (lit "0 0 */2147483647 * *") = Throw (undefined "signed integer overflow").
Proof. vm_compute. reflexivity. Qed.

(** A trailing comma is an empty entry that is not rejected. *)
Example trailing_comma : is_ok (parse (lit "1, * * * *")) = true.
Proof. vm_compute. reflexivity. Qed.

(** The step of a single value is ignored. *)
Example single_value_step : parse (lit "5/15 * * * *") = parse (lit "5 * * * *").
Proof. vm_compute. reflexivity. Qed.
