(* ===== verification/Queue.v ===== *)
(** * Queue jobs, the driver interface and the in-memory driver

    [include/gungnir/queue/job.hpp], [driver.hpp] and [memory_driver.hpp].  A
    driver operation may throw and changes the driver, so it returns
    [result A * D].  What the code reads from its surroundings, the steady clock
    and the current trace context, is the argument [Ambient]; every operation of
    the in-memory driver holds its mutex, so an operation is one step.

    The in-memory queue driver: order, delays, failed jobs, and the contract

    What [MemoryDriver] guarantees on its own (first in first out, delayed jobs
    exactly when due, management of failed jobs), and [LawfulDriver], the contract
    a driver promises to the worker, with the in-memory driver as an instance. *)

From S2P Require Import Prelude.

(** ** Jobs *)

Record TraceContext := mkTrace { trace_id : bytes; span_id : bytes }.

Definition is_empty (s : bytes) : bool := match s with [] => true | _ => false end.

(** [TraceContext::valid]. *)
Definition valid (context : TraceContext) : bool :=
  negb (is_empty (trace_id context)) && negb (is_empty (span_id context)).

Record Envelope := mkEnvelope {
  id : bytes;
  name : bytes;
  payload : bytes;
  attempts : Z;
  max_attempts : Z;
  reservation : bytes;
  job_trace_id : bytes;
  parent_span_id : bytes
}.

#[export] Instance Envelope_eq_dec : EqDecision Envelope.
Proof. solve_decision. Defined.

Definition set_attempts (n : Z) (j : Envelope) : Envelope :=
  mkEnvelope (id j) (name j) (payload j) n (max_attempts j) (reservation j)
    (job_trace_id j) (parent_span_id j).

Definition clear_reservation (j : Envelope) : Envelope :=
  mkEnvelope (id j) (name j) (payload j) (attempts j) (max_attempts j) []
    (job_trace_id j) (parent_span_id j).

Definition set_trace (t s : bytes) (j : Envelope) : Envelope :=
  mkEnvelope (id j) (name j) (payload j) (attempts j) (max_attempts j) (reservation j) t s.

(** The steady clock, in nanoseconds, and [observability::current_context()]. *)
Record Ambient := mkAmbient { now : Z; current_context : TraceContext }.

Definition inherit_trace (env : Ambient) (job : Envelope) : Envelope :=
  if negb (is_empty (job_trace_id job)) then job
  else
    let context := current_context env in
    if negb (valid context) then job
    else set_trace (trace_id context) (span_id context) job.

Definition trace_parent (job : Envelope) : option TraceContext :=
  if is_empty (job_trace_id job) || is_empty (parent_span_id job) then None
  else Some (mkTrace (job_trace_id job) (parent_span_id job)).

(** ** The driver interface

    The virtual functions of [queue::Driver].  Delays are in milliseconds. *)
Class Driver (D : Type) := {
  push : Ambient -> Envelope -> D -> result unit * D;
  push_later : Ambient -> Envelope -> Z -> D -> result unit * D;
  pop : Ambient -> D -> result (option Envelope) * D;
  acknowledge : Envelope -> D -> result unit * D;
  release : Ambient -> Envelope -> D -> result unit * D;
  release_after : Ambient -> Envelope -> Z -> D -> result unit * D;
  renew : Envelope -> D -> result bool * D;
  fail : Envelope -> D -> result unit * D;
  failed_jobs : D -> result (list Envelope) * D;
  failed_job : bytes -> D -> result (option Envelope) * D;
  retry_failed : bytes -> D -> result bool * D;
  forget_failed : bytes -> D -> result bool * D
}.

(** The bodies [queue::Driver] itself gives [push_later] and [release_after]. *)
Section Defaults.
Context {D : Type} (base_push base_release : Ambient -> Envelope -> D -> result unit * D).

Definition default_push_later (env : Ambient) (job : Envelope) (delay : Z) (d : D)
    : result unit * D :=
  if delay <=? 0 then base_push env job d
  else (Throw (logic_error "Queue driver does not support delayed jobs"), d).

Definition default_release_after (env : Ambient) (job : Envelope) (delay : Z) (d : D)
    : result unit * D :=
  if delay <=? 0 then base_release env job d
  else (Throw (logic_error "Queue driver does not support delayed release"), d).
End Defaults.

(** ** The in-memory driver *)
Module Memory.

Record MemoryDriver := mkMemory {
  pending_ : list Envelope;
  delayed_ : list (Z * Envelope);
  failed_ : list Envelope
}.

Definition empty_driver : MemoryDriver := mkMemory [] [] [].

Definition m_push (env : Ambient) (job : Envelope) (d : MemoryDriver) : result unit * MemoryDriver :=
  (Ok (), mkMemory (pending_ d ++ [inherit_trace env job]) (delayed_ d) (failed_ d)).

(** [steady_clock::now() + delay]. *)
Definition due_time (start delay : Z) : result Z := plus_ms start delay.

Definition m_push_later (env : Ambient) (job : Envelope) (delay : Z) (d : MemoryDriver)
    : result unit * MemoryDriver :=
  let job := inherit_trace env job in
  if delay <=? 0 then m_push env job d
  else
    match due_time (now env) delay with
    | Ok due => (Ok (), mkMemory (pending_ d) (delayed_ d ++ [(due, job)]) (failed_ d))
    | Throw e => (Throw e, d)
    | NoFuel => (NoFuel, d)
    end.

(** The loop of [promote_due_locked]: [current] walks over the delayed jobs, moves
    the due ones to the back of the pending queue and erases them. *)
Fixpoint promote_loop (at_time : Z) (current : list (Z * Envelope)) (pending : list Envelope)
    : list (Z * Envelope) * list Envelope :=
  match current with
  | [] => ([], pending)
  | (due, job) :: rest =>
      if due >? at_time then
        let '(kept, pending') := promote_loop at_time rest pending in
        ((due, job) :: kept, pending')
      else promote_loop at_time rest (pending ++ [job])
  end.

Definition promote_due_locked (env : Ambient) (d : MemoryDriver) : MemoryDriver :=
  let '(delayed, pending) := promote_loop (now env) (delayed_ d) (pending_ d) in
  mkMemory pending delayed (failed_ d).

Definition m_pop (env : Ambient) (d : MemoryDriver) : result (option Envelope) * MemoryDriver :=
  let d := promote_due_locked env d in
  match pending_ d with
  | [] => (Ok None, d)
  | job :: rest => (Ok (Some job), mkMemory rest (delayed_ d) (failed_ d))
  end.

Definition m_acknowledge (job : Envelope) (d : MemoryDriver) : result unit * MemoryDriver :=
  (Ok (), d).

Definition m_release (env : Ambient) (job : Envelope) (d : MemoryDriver)
    : result unit * MemoryDriver := m_push env job d.

Definition m_release_after (env : Ambient) (job : Envelope) (delay : Z) (d : MemoryDriver)
    : result unit * MemoryDriver := m_push_later env job delay d.

Definition m_renew (job : Envelope) (d : MemoryDriver) : result bool * MemoryDriver := (Ok true, d).

Definition m_fail (job : Envelope) (d : MemoryDriver) : result unit * MemoryDriver :=
  (Ok (), mkMemory (pending_ d) (delayed_ d) (failed_ d ++ [job])).

Definition m_pending (d : MemoryDriver) : nat := length (pending_ d).
Definition m_delayed (d : MemoryDriver) : nat := length (delayed_ d).
Definition m_failed (d : MemoryDriver) : nat := length (failed_ d).

Definition m_failed_jobs (d : MemoryDriver) : result (list Envelope) * MemoryDriver :=
  (Ok (failed_ d), d).

Definition has_id (i : bytes) (job : Envelope) : bool := bool_decide (id job = i).

(** [std::find_if] over the failed jobs: what precedes the match, and the match. *)
Fixpoint find_failed (i : bytes) (jobs : list Envelope)
    : option (list Envelope * Envelope * list Envelope) :=
  match jobs with
  | [] => None
  | job :: rest =>
      if has_id i job then Some ([], job, rest)
      else match find_failed i rest with
           | Some (before, found, after) => Some (job :: before, found, after)
           | None => None
           end
  end.

Definition m_failed_job (i : bytes) (d : MemoryDriver) : result (option Envelope) * MemoryDriver :=
  match find_failed i (failed_ d) with
  | None => (Ok None, d)
  | Some (_, job, _) => (Ok (Some job), d)
  end.

Definition m_retry_failed (i : bytes) (d : MemoryDriver) : result bool * MemoryDriver :=
  match find_failed i (failed_ d) with
  | None => (Ok false, d)
  | Some (before, job, after) =>
      let job := clear_reservation (set_attempts 0 job) in
      (Ok true, mkMemory (pending_ d ++ [job]) (delayed_ d) (before ++ after))
  end.

Definition m_forget_failed (i : bytes) (d : MemoryDriver) : result bool * MemoryDriver :=
  let kept := base.filter (fun job => negb (has_id i job)) (failed_ d) in
  (Ok (negb (Nat.eqb (length kept) (length (failed_ d)))),
   mkMemory (pending_ d) (delayed_ d) kept).

#[export] Instance memory_driver : Driver MemoryDriver := {|
  push := m_push;
  push_later := m_push_later;
  pop := m_pop;
  acknowledge := m_acknowledge;
  release := m_release;
  release_after := m_release_after;
  renew := m_renew;
  fail := m_fail;
  failed_jobs := m_failed_jobs;
  failed_job := m_failed_job;
  retry_failed := m_retry_failed;
  forget_failed := m_forget_failed
|}.
End Memory.

Import Memory.

(** ** What is ready, and what waits *)

Definition due_by (t : Z) (x : Z * Envelope) : bool := x.1 <=? t.

(** The jobs a pop at time [t] chooses from, in order. *)
Definition ready (t : Z) (d : MemoryDriver) : list Envelope :=
  pending_ d ++ (base.filter (due_by t) (delayed_ d)).*2.

Definition waiting (t : Z) (d : MemoryDriver) : list (Z * Envelope) :=
  base.filter (fun x => negb (due_by t x)) (delayed_ d).

Lemma promote_loop_eq t current pending :
  promote_loop t current pending =
  (base.filter (fun x => negb (due_by t x)) current,
   pending ++ (base.filter (due_by t) current).*2).
Proof.
  revert pending. induction current as [|[due job] rest IH]; intros pending; cbn [promote_loop].
  { by rewrite filter_nil, app_nil_r. }
  rewrite Z.gtb_ltb, Z.ltb_antisym.
  destruct (due <=? t) eqn:E; cbn [negb].
  all: rewrite IH; unfold due_by; rewrite !filter_cons; cbn; rewrite E; cbn.
  - rewrite decide_False, decide_True by (done || by intros []). cbn. by rewrite <-app_assoc.
  - by rewrite decide_True, decide_False by (done || by intros []).
Qed.

Lemma pop_eq env d :
  pop env d =
  match ready (now env) d with
  | [] => (Ok None, mkMemory [] (waiting (now env) d) (failed_ d))
  | job :: rest => (Ok (Some job), mkMemory rest (waiting (now env) d) (failed_ d))
  end.
Proof.
  cbn. unfold m_pop, promote_due_locked. rewrite promote_loop_eq. cbn. fold (ready (now env) d).
  by destruct (ready (now env) d).
Qed.

Lemma filter_none {A} (P : A -> bool) l :
  (forall x, x ∈ l -> P x = false) -> base.filter P l = [].
Proof.
  induction l as [|x l IH]; intros Hl; [done|].
  rewrite filter_cons_False; [apply IH; set_solver|]. rewrite (Hl x); [by intros []|set_solver].
Qed.

Lemma ready_again t rest d :
  ready t (mkMemory rest (waiting t d) (failed_ d)) = rest.
Proof.
  unfold ready, waiting. cbn. rewrite filter_none; [by rewrite app_nil_r|].
  intros x Hx. apply list_elem_of_filter in Hx as [Hx _].
  by destruct (due_by t x).
Qed.

Lemma waiting_again t rest d :
  waiting t (mkMemory rest (waiting t d) (failed_ d)) = waiting t d.
Proof. unfold waiting. cbn. by rewrite list_filter_filter_l. Qed.

(** [n] pops at one time. *)
Fixpoint drain (env : Ambient) (n : nat) (d : MemoryDriver)
    : list (result (option Envelope)) * MemoryDriver :=
  match n with
  | O => ([], d)
  | S n =>
      let '(r, d) := pop env d in
      let '(rs, d) := drain env n d in (r :: rs, d)
  end.

Lemma drain_eq env n d :
  drain env n d =
  (map (fun j => Ok (Some j)) (take n (ready (now env) d)) ++
     replicate (n - length (ready (now env) d)) (Ok None),
   if n is O then d else mkMemory (drop n (ready (now env) d)) (waiting (now env) d) (failed_ d)).
Proof.
  revert d. induction n as [|n IH]; intros d; [done|]. cbn [drain]. rewrite pop_eq.
  destruct (ready (now env) d) as [|job rest] eqn:E; rewrite IH, ready_again, waiting_again;
    cbn [failed_ map take drop length]; [rewrite take_nil, drop_nil | ]; cbn.
  - rewrite Nat.sub_0_r. by destruct n.
  - by destruct n; cbn; rewrite ?drop_0.
Qed.

(** ** Sequences of operations *)

Inductive Op :=
| OPush (job : Envelope)
| OPushLater (job : Envelope) (delay : Z)
| OPop
| OAcknowledge (job : Envelope)
| ORelease (job : Envelope)
| OReleaseAfter (job : Envelope) (delay : Z)
| ORenew (job : Envelope)
| OFail (job : Envelope)
| ORetry (i : bytes)
| OForget (i : bytes).

(** An operation and the job it hands out. *)
Definition exec_op (env : Ambient) (o : Op) (d : MemoryDriver) : option Envelope * MemoryDriver :=
  match o with
  | OPush j => (None, (push env j d).2)
  | OPushLater j delay => (None, (push_later env j delay d).2)
  | OPop => let '(r, d) := pop env d in (match r with Ok (Some j) => Some j | _ => None end, d)
  | OAcknowledge j => (None, (acknowledge j d).2)
  | ORelease j => (None, (release env j d).2)
  | OReleaseAfter j delay => (None, (release_after env j delay d).2)
  | ORenew j => (None, (renew j d).2)
  | OFail j => (None, (fail j d).2)
  | ORetry i => (None, (retry_failed i d).2)
  | OForget i => (None, (forget_failed i d).2)
  end.

Fixpoint exec (ops : list (Ambient * Op)) (d : MemoryDriver) : list Envelope * MemoryDriver :=
  match ops with
  | [] => ([], d)
  | (env, o) :: ops =>
      let '(out, d) := exec_op env o d in
      let '(outs, d) := exec ops d in (option_list out ++ outs, d)
  end.

(** The operation does not bring in a job with this identifier. *)
Definition foreign (i : bytes) (o : Op) : Prop :=
  match o with
  | OPush j | ORelease j | OFail j => id j <> i
  | OPushLater j _ | OReleaseAfter j _ => id j <> i
  | _ => True
  end.

(** No job with identifier [i] is pending, failed, or delayed until before [t]. *)
Record absent_until (i : bytes) (t : Z) (d : MemoryDriver) : Prop := {
  absent_pending : Forall (fun j => id j <> i) (pending_ d);
  absent_failed : Forall (fun j => id j <> i) (failed_ d);
  absent_delayed : Forall (fun x => id x.2 = i -> t <= x.1) (delayed_ d)
}.

Lemma inherit_id env j : id (inherit_trace env j) = id j.
Proof. unfold inherit_trace. by repeat case_match. Qed.

Lemma find_failed_inv i l before j after :
  find_failed i l = Some (before, j, after) ->
  l = before ++ j :: after /\ id j = i /\ Forall (fun x => id x <> i) before.
Proof.
  revert before. induction l as [|x l IH]; intros before; cbn; [done|].
  unfold has_id. case_bool_decide as Hx.
  - intros [= <- <- <-]. done.
  - destruct (find_failed i l) as [[[b f] a]|]; intros [= <- <- <-].
    destruct (IH b eq_refl) as (-> & ? & ?). split_and!; [done|done|by constructor].
Qed.

Lemma find_failed_none i l :
  find_failed i l = None <-> Forall (fun x => id x <> i) l.
Proof.
  induction l as [|x l IH]; cbn; [done|]. rewrite Forall_cons, <-IH. unfold has_id.
  case_bool_decide; destruct (find_failed i l) as [[[b f] a]|]; split; try done;
    by intros [? ?].
Qed.

(** [push_later] either queues the job until its time, or is undefined. *)
Lemma push_later_cases env j delay d :
  0 < delay ->
  push_later env j delay d =
    (Ok (), mkMemory (pending_ d)
              (delayed_ d ++ [(now env + delay * 1000000, inherit_trace env j)]) (failed_ d)) \/
  exists what, push_later env j delay d = (Throw (undefined what), d).
Proof.
  intros Hd. cbn. unfold m_push_later, due_time, plus_ms. rewrite (proj2 (Z.leb_gt _ _)) by done.
  destruct (_ || _); [right|left]; eauto.
Qed.

Lemma push_absent i t env j d :
  id j <> i -> absent_until i t d -> absent_until i t (push env j d).2.
Proof.
  intros Hj [Hp Hf Hd]. split; [|done|done]. cbn. apply Forall_app. split; [done|].
  constructor; [by rewrite inherit_id|done].
Qed.

Lemma push_later_absent i t env j delay d :
  id j <> i -> absent_until i t d -> absent_until i t (push_later env j delay d).2.
Proof.
  intros Hj Hd. destruct (Z.leb_spec delay 0) as [Hn|Hn].
  - cbn. unfold m_push_later. rewrite (proj2 (Z.leb_le _ _)) by done.
    apply push_absent; [by rewrite inherit_id|done].
  - destruct (push_later_cases env j delay d Hn) as [->|[what ->]]; [|done].
    destruct Hd as [Hp Hf Hd]. split; [done|done|].
    cbn. apply Forall_app. split; [done|]. constructor; [|done]. cbn. by rewrite inherit_id.
Qed.

Lemma pop_absent i t env d out d' :
  now env < t -> absent_until i t d -> exec_op env OPop d = (out, d') ->
  absent_until i t d' /\ Forall (fun j => id j <> i) (option_list out).
Proof.
  intros Ht [Hp Hf Hd]. cbn [exec_op]. rewrite pop_eq.
  assert (Forall (fun j => id j <> i) (ready (now env) d)) as Hr.
  { apply Forall_app. split; [done|]. apply Forall_fmap, Forall_forall. intros x Hx Hi.
    apply list_elem_of_filter in Hx as [Hdue Hx]. rewrite Forall_forall in Hd.
    specialize (Hd x Hx Hi). unfold due_by in Hdue. apply Is_true_eq_true, Z.leb_le in Hdue. lia. }
  assert (Forall (fun x => id x.2 = i -> t <= x.1) (waiting (now env) d)) as Hw.
  { apply Forall_forall. intros x Hx. apply list_elem_of_filter in Hx as [_ Hx].
    by eapply Forall_forall in Hd. }
  destruct (ready (now env) d) as [|job rest]; intros [= <- <-].
  { split; [by split|by apply Forall_nil_2]. }
  apply Forall_cons in Hr as [? ?]. split; [by split|by apply Forall_singleton].
Qed.

Lemma exec_op_absent i t env o d out d' :
  foreign i o -> now env < t -> absent_until i t d -> exec_op env o d = (out, d') ->
  absent_until i t d' /\ Forall (fun j => id j <> i) (option_list out).
Proof.
  intros Hi Ht Hd E. destruct o; try (by eapply pop_absent); cbn [exec_op] in E;
    injection E as <- <-; cbn [foreign] in Hi; (split; [|by constructor]).
  all: try done.
  all: try (by apply push_absent); try (by apply push_later_absent).
  - destruct Hd as [Hp Hf Hd]. split; [done| |done]. cbn.
    apply Forall_app. split; [done|by apply Forall_singleton].
  - cbn. unfold m_retry_failed. destruct (find_failed i0 (failed_ d)) as [[[b j] a]|] eqn:E; [|done].
    apply find_failed_inv in E as (Hl & _ & _). destruct Hd as [Hp Hf Hd]. rewrite Hl in Hf.
    apply Forall_app in Hf as [? Hf]. apply Forall_cons in Hf as [? ?].
    split; cbn; [|by apply Forall_app|done].
    apply Forall_app. split; [done|by apply Forall_singleton].
  - destruct Hd as [Hp Hf Hd]. split; [done| |done]. cbn.
    apply Forall_forall. intros x Hx. apply list_elem_of_filter in Hx as [_ Hx].
    by eapply Forall_forall in Hf.
Qed.

Lemma exec_absent i t ops d outs d' :
  Forall (fun x => foreign i x.2 /\ now x.1 < t) ops -> absent_until i t d ->
  exec ops d = (outs, d') -> absent_until i t d' /\ Forall (fun j => id j <> i) outs.
Proof.
  revert d outs. induction ops as [|[env o] ops IH]; cbn [exec]; intros d outs Ho Hd E.
  { injection E as <- <-. by split. }
  apply Forall_cons in Ho as [[Hf Ht] Ho].
  destruct (exec_op env o d) as [out d1] eqn:E1. destruct (exec ops d1) as [outs1 d2] eqn:E2.
  injection E as <- <-. destruct (exec_op_absent i t env o d out d1) as [Hd1 Hout]; [done..|].
  destruct (IH d1 outs1) as [? ?]; [done..|]. split; [done|by apply Forall_app].
Qed.

Lemma push_later_keeps env j delay d x :
  x ∈ delayed_ d -> x ∈ delayed_ (push_later env j delay d).2.
Proof.
  intros Hx. destruct (Z.leb_spec delay 0) as [Hn|Hn].
  - cbn. unfold m_push_later. by rewrite (proj2 (Z.leb_le _ _)) by done.
  - destruct (push_later_cases env j delay d Hn) as [->|[what ->]]; [cbn; set_solver|done].
Qed.

(** A delayed job stays delayed until its time. *)
Lemma exec_op_keeps env o d due job :
  now env < due -> (due, job) ∈ delayed_ d -> (due, job) ∈ delayed_ (exec_op env o d).2.
Proof.
  intros Ht Hin. destruct o; cbn [exec_op snd]; try done.
  - by apply push_later_keeps.
  - rewrite pop_eq.
    assert ((due, job) ∈ waiting (now env) d) as Hw.
    { apply list_elem_of_filter. split; [|done]. unfold due_by. cbn.
      apply Is_true_true, negb_true_iff, Z.leb_gt. lia. }
    by destruct (ready (now env) d).
  - by apply push_later_keeps.
  - cbn. unfold m_retry_failed. by repeat case_match.
Qed.

Lemma exec_keeps ops d due job :
  Forall (fun x => now x.1 < due) ops -> (due, job) ∈ delayed_ d ->
  (due, job) ∈ delayed_ (exec ops d).2.
Proof.
  revert d. induction ops as [|[env o] ops IH]; cbn [exec]; intros d Ho Hin; [done|].
  apply Forall_cons in Ho as [Ht Ho]. pose proof (exec_op_keeps env o d due job Ht Hin) as H1.
  destruct (exec_op env o d) as [out d1]. specialize (IH d1 Ho H1). by destruct (exec ops d1).
Qed.

(** ** The contract of a driver

    The worker only relies on what it can observe of a driver: the multiset of jobs
    waiting to be run and the multiset of failed jobs, up to the trace metadata and
    the lease token, which belong to the driver. *)
Definition core (j : Envelope) : Envelope := clear_reservation (set_trace [] [] j).

Record Pool := mkPool { alive : list Envelope; buried : list Envelope }.

#[export] Instance pool_equiv : Equiv Pool := fun p q =>
  alive p ≡ₚ alive q /\ buried p ≡ₚ buried q.

#[export] Instance pool_equivalence : Equivalence (≡@{Pool}).
Proof.
  split.
  - by intros p.
  - intros p q [? ?]. by split.
  - intros p q r [H1 H2] [H3 H4]. split; [by rewrite H1|by rewrite H2].
Qed.

#[export] Instance mkPool_proper : Proper ((≡ₚ) ==> (≡ₚ) ==> (≡)) mkPool.
Proof. intros a a' Ha b b' Hb. by split. Qed.

#[export] Instance alive_proper : Proper ((≡) ==> (≡ₚ)) alive.
Proof. by intros p q [? ?]. Qed.

#[export] Instance buried_proper : Proper ((≡) ==> (≡ₚ)) buried.
Proof. by intros p q [? ?]. Qed.

Definition bury (j : Envelope) (p : Pool) : Pool := mkPool (alive p) (j :: buried p).
Definition enqueue (j : Envelope) (p : Pool) : Pool := mkPool (j :: alive p) (buried p).

#[export] Instance bury_proper j : Proper ((≡) ==> (≡)) (bury j).
Proof. intros p q [Ha Hb]. split; cbn; by rewrite ?Ha, ?Hb. Qed.

#[export] Instance enqueue_proper j : Proper ((≡) ==> (≡)) (enqueue j).
Proof. intros p q [Ha Hb]. split; cbn; by rewrite ?Ha, ?Hb. Qed.

Class LawfulDriver (D : Type) `{Driver D} := {
  pool : D -> Pool;
  (** Whether acknowledging a job can never fail. *)
  reliable_acknowledge : bool;
  pop_law env d r d' : pop env d = (r, d') ->
    match r with
    | Ok None => pool d' ≡ pool d
    | Ok (Some j) => pool d ≡ enqueue (core j) (pool d')
    | _ => True
    end;
  push_law env j d d' : push env j d = (Ok (), d') -> pool d' ≡ enqueue (core j) (pool d);
  push_later_law env j delay d d' :
    push_later env j delay d = (Ok (), d') -> pool d' ≡ enqueue (core j) (pool d);
  release_law env j d d' : release env j d = (Ok (), d') -> pool d' ≡ enqueue (core j) (pool d);
  release_after_law env j delay d d' :
    release_after env j delay d = (Ok (), d') -> pool d' ≡ enqueue (core j) (pool d);
  acknowledge_law j d r d' : acknowledge j d = (r, d') ->
    pool d' ≡ pool d /\ (reliable_acknowledge = true -> r = Ok ());
  renew_law j d r d' : renew j d = (r, d') -> pool d' ≡ pool d;
  fail_law j d d' : fail j d = (Ok (), d') -> pool d' ≡ bury (core j) (pool d);
  retry_law i d r d' : retry_failed i d = (r, d') ->
    match r with
    | Ok true => exists j rest, id j = i /\ buried (pool d) ≡ₚ j :: rest /\
        pool d' ≡ mkPool (set_attempts 0 j :: alive (pool d)) rest
    | Ok false => pool d' ≡ pool d /\ Forall (fun j => id j <> i) (buried (pool d))
    | _ => True
    end;
  forget_law i d b d' : forget_failed i d = (Ok b, d') ->
    exists gone kept, pool d ≡ mkPool (alive (pool d)) (gone ++ kept) /\
      pool d' ≡ mkPool (alive (pool d)) kept /\ b = negb (bool_decide (gone = [])) /\
      Forall (fun j => id j = i) gone /\ Forall (fun j => id j <> i) kept
}.

(** ** The in-memory driver keeps the contract *)

Definition stored (d : MemoryDriver) : list Envelope := pending_ d ++ (delayed_ d).*2.

Definition memory_pool (d : MemoryDriver) : Pool := mkPool (core <$> stored d) (core <$> failed_ d).

Lemma filter_split {A} (P : A -> bool) l :
  base.filter P l ++ base.filter (fun x => negb (P x)) l ≡ₚ l.
Proof.
  induction l as [|x l IH]; [done|]. rewrite !filter_cons. destruct (P x); cbn [negb].
  - rewrite decide_True, decide_False by (done || by intros []). by rewrite <-app_comm_cons, IH.
  - rewrite decide_False, decide_True by (done || by intros []).
    by rewrite <-Permutation_middle, IH.
Qed.

Lemma ready_waiting t d : ready t d ++ (waiting t d).*2 ≡ₚ stored d.
Proof. unfold ready, waiting, stored. by rewrite <-app_assoc, <-fmap_app, filter_split. Qed.

Lemma core_inherit env j : core (inherit_trace env j) = core j.
Proof. unfold inherit_trace. by repeat case_match. Qed.

Lemma memory_push env j d :
  memory_pool (push env j d).2 ≡ enqueue (core j) (memory_pool d).
Proof.
  split; [|done]. cbn. unfold stored. cbn.
  rewrite <-app_assoc. cbn. rewrite <-Permutation_middle. cbn. by rewrite core_inherit.
Qed.

Lemma memory_push_later env j delay d d' :
  push_later env j delay d = (Ok (), d') -> memory_pool d' ≡ enqueue (core j) (memory_pool d).
Proof.
  intros E. destruct (Z.leb_spec delay 0) as [Hn|Hn].
  - assert (d' = (push env (inherit_trace env j) d).2) as ->.
    { revert E. cbn. unfold m_push_later. rewrite (proj2 (Z.leb_le _ _)) by done. by intros [= <-]. }
    by rewrite memory_push, core_inherit.
  - destruct (push_later_cases env j delay d Hn) as [E'|[what E']]; rewrite E' in E; [|done].
    injection E as <-. split; [|done]. cbn. unfold stored. cbn.
    rewrite (fmap_app snd), app_assoc, (fmap_app core). cbn. rewrite core_inherit.
    by rewrite <-Permutation_cons_append.
Qed.

Lemma memory_pop env d r d' : pop env d = (r, d') ->
  match r with
  | Ok None => memory_pool d' ≡ memory_pool d
  | Ok (Some j) => memory_pool d ≡ enqueue (core j) (memory_pool d')
  | _ => True
  end.
Proof.
  rewrite pop_eq. pose proof (ready_waiting (now env) d) as Hp.
  destruct (ready (now env) d) as [|job rest]; intros [= <- <-]; (split; [|done]); cbn.
  - by rewrite <-Hp.
  - by rewrite <-Hp.
Qed.

Lemma memory_retry i d r d' : retry_failed i d = (r, d') ->
  match r with
  | Ok true => exists j rest, id j = i /\ buried (memory_pool d) ≡ₚ j :: rest /\
      memory_pool d' ≡ mkPool (set_attempts 0 j :: alive (memory_pool d)) rest
  | Ok false => memory_pool d' ≡ memory_pool d /\
      Forall (fun j => id j <> i) (buried (memory_pool d))
  | _ => True
  end.
Proof.
  cbn. unfold m_retry_failed. destruct (find_failed i (failed_ d)) as [[[b j] a]|] eqn:E.
  - apply find_failed_inv in E as (Hl & Hi & _). intros [= <- <-].
    exists (core j), (core <$> b ++ a). rewrite Hl. split_and!; [done|..].
    + by rewrite <-Permutation_middle.
    + split; [|done]. cbn. unfold stored. cbn.
      rewrite <-app_assoc. cbn. by rewrite <-Permutation_middle.
  - apply find_failed_none in E. intros [= <- <-]. split; [done|]. cbn. by apply Forall_fmap.
Qed.

Lemma filter_length_eq {A} (P : A -> bool) l :
  Nat.eqb (length (base.filter (fun x => negb (P x)) l)) (length l) =
  bool_decide (base.filter P l = []).
Proof.
  pose proof (Permutation_length (filter_split P l)) as H. rewrite length_app in H.
  case_bool_decide as E.
  - rewrite E in H. cbn in H. by apply Nat.eqb_eq.
  - apply Nat.eqb_neq. destruct (base.filter P l); cbn in *; [done|lia].
Qed.

Lemma memory_forget i d b d' : forget_failed i d = (Ok b, d') ->
  exists gone kept, memory_pool d ≡ mkPool (alive (memory_pool d)) (gone ++ kept) /\
    memory_pool d' ≡ mkPool (alive (memory_pool d)) kept /\ b = negb (bool_decide (gone = [])) /\
    Forall (fun j => id j = i) gone /\ Forall (fun j => id j <> i) kept.
Proof.
  cbn. unfold m_forget_failed. rewrite filter_length_eq. intros [= <- <-].
  exists (core <$> base.filter (has_id i) (failed_ d)),
    (core <$> base.filter (fun j => negb (has_id i j)) (failed_ d)).
  split_and!.
  - split; [done|]. cbn. by rewrite <-fmap_app, filter_split.
  - done.
  - f_equal. apply bool_decide_ext. by destruct (base.filter _ _).
  - apply Forall_fmap, Forall_forall. intros x Hx. apply list_elem_of_filter in Hx as [Hx _].
    unfold has_id in Hx. by apply bool_decide_unpack in Hx.
  - apply Forall_fmap, Forall_forall. intros x Hx. apply list_elem_of_filter in Hx as [Hx _].
    unfold has_id in Hx. case_bool_decide; [done|]. done.
Qed.

#[export] Program Instance memory_lawful : LawfulDriver MemoryDriver := {|
  pool := memory_pool;
  reliable_acknowledge := true
|}.
Next Obligation. intros. by eapply memory_pop. Qed.
Next Obligation. intros env j d d' E. rewrite <-memory_push with (env := env). by rewrite E. Qed.
Next Obligation. intros. by eapply memory_push_later. Qed.
Next Obligation. intros env j d d' E. rewrite <-memory_push with (env := env). by injection E as <-. Qed.
Next Obligation. intros. by eapply memory_push_later. Qed.
Next Obligation. intros j d r d' [= <- <-]. done. Qed.
Next Obligation. intros j d r d' [= <- <-]. done. Qed.
Next Obligation.
  intros j d d' [= <-]. split; [done|]. cbn. rewrite fmap_app. cbn.
  by rewrite <-Permutation_cons_append.
Qed.
Next Obligation. intros. by eapply memory_retry. Qed.
Next Obligation. intros. by eapply memory_forget. Qed.

(** ** Theorems *)

Definition example_job (i : string) : Envelope := mkEnvelope (lit i) (lit "mail") [] 0 3 [] [] [].
Definition quiet_at (t : Z) : Ambient := mkAmbient t (mkTrace [] []).

(** The in-memory queue is first in, first out: [n] pops hand out the pending
    jobs in their order, then the delayed jobs that are due in the order they were
    delayed, then nothing; what is not yet due stays delayed, and failed jobs are
    not touched. *)
Theorem memory_fifo env n d :
  n <> 0%nat ->
  let jobs := ready (now env) d in
  drain env n d =
  (map (fun j => Ok (Some j)) (take n jobs) ++ replicate (n - length jobs) (Ok None),
   mkMemory (drop n jobs) (waiting (now env) d) (failed_ d)).
Proof. intros Hn. rewrite drain_eq. by destruct n. Qed.

Lemma memory_fifo_witness :
  (drain (quiet_at 7) 3
     (mkMemory [example_job "a"] [(9, example_job "b"); (5, example_job "c")] [])) =
  ([Ok (Some (example_job "a")); Ok (Some (example_job "c")); Ok None],
   mkMemory [] [(9, example_job "b")] []).
Proof. exact (memory_fifo (quiet_at 7) 3 _ ltac:(discriminate)). Defined.

(** A job pushed with a delay is handed out exactly from its time on.  Whatever
    other operations run in the meantime, no pop hands it out before
    [now + delay]; and from then on it is among the ready jobs, so that popping once
    per stored job hands it out. *)
Theorem delayed_job_timing env job delay d d1 ops outs d2 :
  0 < delay -> absent_until (id job) (now env + delay * 1000000) d ->
  push_later env job delay d = (Ok (), d1) ->
  Forall (fun x => foreign (id job) x.2 /\ now x.1 < now env + delay * 1000000) ops ->
  exec ops d1 = (outs, d2) ->
  Forall (fun j => id j <> id job) outs /\
  forall later, now env + delay * 1000000 <= now later ->
    Ok (Some (inherit_trace env job)) ∈ (drain later (length (stored d2)) d2).1.
Proof.
  intros Hd Ha Hpush Hops Hexec.
  destruct (push_later_cases env job delay d Hd) as [E|[what E]]; rewrite E in Hpush; [|done].
  injection Hpush as <-. set (due := now env + delay * 1000000) in *.
  set (d1 := mkMemory _ _ _) in Hexec.
  assert (absent_until (id job) due d1) as H1.
  { destruct Ha as [Hp Hf Hdl]. split; [done|done|]. apply Forall_app. split; [done|].
    apply Forall_singleton. cbn. lia. }
  split; [by apply (exec_absent (id job) due ops d1 outs d2)|].
  intros later Hl. rewrite drain_eq. apply elem_of_app. left.
  assert ((due, inherit_trace env job) ∈ delayed_ d2) as Hin.
  { replace d2 with (exec ops d1).2 by by rewrite Hexec. apply exec_keeps; [|cbn; set_solver].
    eapply Forall_impl; [done|]. by intros ? [? ?]. }
  rewrite take_ge.
  - apply list_elem_of_fmap. eexists. split; [done|]. apply elem_of_app. right.
    apply list_elem_of_fmap. exists (due, inherit_trace env job). split; [done|].
    apply list_elem_of_filter. split; [|done]. unfold due_by. cbn.
    by apply Is_true_true, Z.leb_le.
  - rewrite <-(Permutation_length (ready_waiting (now later) d2)), length_app. lia.
Qed.

Lemma delayed_job_timing_witness :
  let ops := [(quiet_at 3, OPush (example_job "a")); (quiet_at 999999, OPop)] in
  let '(outs, d) := exec ops (push_later (quiet_at 0) (example_job "b") 1 empty_driver).2 in
  Forall (fun j => id j <> lit "b") outs /\
  forall later, 1000000 <= now later ->
    Ok (Some (example_job "b")) ∈ (drain later (length (stored d)) d).1.
Proof.
  refine (delayed_job_timing (quiet_at 0) (example_job "b") 1 empty_driver _
    [(quiet_at 3, OPush (example_job "a")); (quiet_at 999999, OPop)] _ _ _ _ _ _ _).
  - reflexivity.
  - split; apply Forall_nil_2.
  - reflexivity.
  - repeat constructor; discriminate.
  - reflexivity.
Defined.

(** Failed jobs: [retry_failed] moves the first failed job with the identifier to
    the back of the queue with its attempts reset, and reports false, changing
    nothing, exactly when there is none; [forget_failed] removes all of them and
    keeps the others in order; afterwards [failed_job] finds none. *)
Theorem failed_jobs_managed i d :
  (match retry_failed i d with
   | (Ok true, d') => exists before j after,
       failed_ d = before ++ j :: after /\ id j = i /\ Forall (fun x => id x <> i) before /\
       failed_ d' = before ++ after /\ delayed_ d' = delayed_ d /\
       pending_ d' = pending_ d ++ [clear_reservation (set_attempts 0 j)]
   | (Ok false, d') => d' = d /\ Forall (fun x => id x <> i) (failed_ d)
   | _ => False
   end) /\
  let d' := (forget_failed i d).2 in
  pending_ d' = pending_ d /\ delayed_ d' = delayed_ d /\ failed_ d' `sublist_of` failed_ d /\
  (forall j, j ∈ failed_ d' <-> j ∈ failed_ d /\ id j <> i) /\
  (failed_job i d').1 = Ok None.
Proof.
  split.
  - cbn. unfold m_retry_failed. destruct (find_failed i (failed_ d)) as [[[b j] a]|] eqn:E.
    + apply find_failed_inv in E as (? & ? & ?). by exists b, j, a.
    + by apply find_failed_none in E.
  - cbn. assert (forall j, j ∈ base.filter (fun job => negb (has_id i job)) (failed_ d) <->
      j ∈ failed_ d /\ id j <> i) as Hiff.
    { intros j. rewrite list_elem_of_filter. unfold has_id.
      case_bool_decide; cbn; naive_solver. }
    split_and!; [done|done|apply sublist_filter|done|].
    unfold m_failed_job. cbn. rewrite (proj2 (find_failed_none i _)); [done|].
    apply Forall_forall. intros j Hj. by apply Hiff.
Qed.
