(* ===== verification/Worker.v ===== *)
(** * The queue worker ([include/gungnir/queue/worker.hpp])

    [Worker] pops jobs, runs their handler and settles them with the driver.
    The state of a step is the driver together with the state of the application,
    which the handlers may change.  Spans and metrics are not modelled. *)

From S2P Require Import Prelude Queue.

Record WorkerOptions := mkOptions {
  idle_sleep : Z;
  lease_renewal_interval : Z;
  retry_backoff : list Z;
  max_jobs : Z;
  max_runtime : Z
}.

(** The checks of the constructor, in their order. *)
Definition validate_options (o : WorkerOptions) : result unit :=
  if idle_sleep o <=? 0 then
    Throw (invalid_argument "Queue worker idle_sleep must be greater than zero")
  else if lease_renewal_interval o <? 0 then
    Throw (invalid_argument "Queue worker lease_renewal_interval cannot be negative")
  else if existsb (fun delay => delay <? 0) (retry_backoff o) then
    Throw (invalid_argument "Queue worker retry backoff cannot be negative")
  else if max_runtime o <? 0 then
    Throw (invalid_argument "Queue worker max_runtime cannot be negative")
  else Ok ().

Definition retry_delay (o : WorkerOptions) (tried : Z) : Z :=
  match retry_backoff o with
  | [] => 0
  | backoff =>
      let index := Z.min (if tried =? 0 then 0 else tried - 1) (Z.of_nat (length backoff) - 1) in
      nth (Z.to_nat index) backoff 0
  end.

Section Worker.
Context {D S : Type} `{Driver D}.

(** A handler may use the driver, for instance to dispatch further jobs. *)
Definition Handler : Type := bytes -> D * S -> result unit * (D * S).

Record Worker := mkWorker {
  options_ : WorkerOptions;
  handlers_ : gmap bytes Handler;
  stop_requested_ : bool;
  running_ : bool
}.

Definition make_worker (o : WorkerOptions) : result Worker :=
  validate_options o ≫= fun _ => Ok (mkWorker o ∅ false false).

Definition handle (n : bytes) (h : Handler) (w : Worker) : Worker :=
  mkWorker (options_ w) (<[n := h]> (handlers_ w)) (stop_requested_ w) (running_ w).

Definition set_stop (b : bool) (w : Worker) : Worker :=
  mkWorker (options_ w) (handlers_ w) b (running_ w).

Definition request_stop : Worker -> Worker := set_stop true.
Definition reset_stop : Worker -> Worker := set_stop false.

Definition set_running (b : bool) (w : Worker) : Worker :=
  mkWorker (options_ w) (handlers_ w) (stop_requested_ w) b.

(** The heartbeat thread, when [beats] renewal intervals pass before it is stopped:
    whether the lease was lost.  An exception of [renew] counts as a lost lease. *)
Fixpoint heartbeat_loop (beats : nat) (job : Envelope) (d : D) : result bool * D :=
  match beats with
  | O => (Ok false, d)
  | Datatypes.S n =>
      let '(renewed, d) := renew job d in
      match renewed with
      | Ok true => heartbeat_loop n job d
      | Ok false => (Ok true, d)
      | Throw e => if catchable e then (Ok true, d) else (Throw e, d)
      | NoFuel => (NoFuel, d)
      end
  end.

(** What the surroundings do during one [run_one]: the clock and trace context when
    the job is popped and when it is settled, and the renewal intervals that pass
    while the handler runs. *)
Record Surroundings := mkSurroundings { at_pop : Ambient; at_settle : Ambient; beats : nat }.

(** The heartbeat's thread only starts when there is an interval. *)
Definition heartbeat (w : Worker) (n : nat) (job : Envelope) (d : D) : result bool * D :=
  if lease_renewal_interval (options_ w) <=? 0 then (Ok false, d) else heartbeat_loop n job d.

(** [handle_failure]. *)
Definition handle_failure (w : Worker) (env : Ambient) (job : Envelope) (d : D)
    : result unit * D :=
  if attempts job <? max_attempts job
  then release_after env job (retry_delay (options_ w) (attempts job)) d
  else fail job d.

(** The body of the [try]: the handler, then the acknowledgement. *)
Definition attempt_job (h : Handler) (job : Envelope) (st : D * S) : result unit * (D * S) :=
  let '(r, (d, s)) := h (payload job) st in
  match r with
  | Ok _ => let '(r, d) := acknowledge job d in (r, (d, s))
  | _ => (r, (d, s))
  end.

Definition run_one (w : Worker) (around : Surroundings) (st : D * S) : result bool * (D * S) :=
  let '(d, s) := st in
  match pop (at_pop around) d with
  | (Throw e, d) => (Throw e, (d, s))
  | (NoFuel, d) => (NoFuel, (d, s))
  | (Ok None, d) => (Ok false, (d, s))
  | (Ok (Some job), d) =>
      match handlers_ w !! name job with
      | None => let '(r, d) := fail job d in ((fun _ => true) <$> r, (d, s))
      | Some h =>
          let job := set_attempts (u32 (attempts job + 1)) job in
          match heartbeat w (beats around) job d with
          | (Throw e, d) => (Throw e, (d, s))
          | (NoFuel, d) => (NoFuel, (d, s))
          | (Ok _, d) =>
              let '(r, (d, s)) := attempt_job h job (d, s) in
              match r with
              | Ok _ => (Ok true, (d, s))
              | Throw e =>
                  if catchable e then
                    let '(r, d) := handle_failure w (at_settle around) job d in
                    ((fun _ => true) <$> r, (d, s))
                  else (Throw e, (d, s))
              | NoFuel => (NoFuel, (d, s))
              end
          end
      end
  end.

(** What another thread may do to the worker. *)
Inductive Command := RequestStop | ResetStop.

Definition obey (c : Command) (w : Worker) : Worker :=
  match c with RequestStop => request_stop w | ResetStop => reset_stop w end.

(** One iteration of the loop of [run]: what other threads did before it, whether
    the token is cancelled, the clock the runtime limit is compared with, and the
    surroundings of its [run_one]. *)
Record Tick := mkTick {
  commands : list Command;
  cancelled : bool;
  clock : Z;
  around : Surroundings
}.

Definition obey_all (cs : list Command) (w : Worker) : Worker :=
  fold_left (fun w c => obey c w) cs w.

(** [now() - started >= max_runtime], compared in nanoseconds. *)
Definition expired (w : Worker) (started at_time : Z) : result bool :=
  let limit := max_runtime (options_ w) in
  if limit <=? 0 then Ok false
  else if INT64_MAX <? limit * 1000000 then
    Throw (undefined "signed overflow in the comparison with max_runtime")
  else Ok (limit * 1000000 <=? at_time - started).

(** The loop of [run].  [NoFuel] is the state in which the surroundings have not
    been observed any further: the worker is still running. *)
Fixpoint run_loop (started : Z) (ticks : list Tick) (processed : Z) (w : Worker) (st : D * S)
    : result Z * (Worker * (D * S)) :=
  match ticks with
  | [] => (NoFuel, (w, st))
  | t :: ticks =>
      let w := obey_all (commands t) w in
      if stop_requested_ w || cancelled t then (Ok processed, (w, st))
      else if negb (max_jobs (options_ w) =? 0) && (max_jobs (options_ w) <=? processed)
      then (Ok processed, (w, st))
      else
        match expired w started (clock t) with
        | Throw e => (Throw e, (w, st))
        | NoFuel => (NoFuel, (w, st))
        | Ok true => (Ok processed, (w, st))
        | Ok false =>
            match run_one w (around t) st with
            | (Ok true, st) => run_loop started ticks (u64 (processed + 1)) w st
            | (Ok false, st) => run_loop started ticks processed w st
            | (Throw e, st) => (Throw e, (w, st))
            | (NoFuel, st) => (NoFuel, (w, st))
            end
        end
  end.

Definition run (started : Z) (ticks : list Tick) (w : Worker) (st : D * S)
    : result Z * (Worker * (D * S)) :=
  if running_ w then (Throw (logic_error "Queue worker is already running"), (w, st))
  else
    let '(r, (w, st)) := run_loop started ticks 0 (set_running true w) st in
    match r with
    | NoFuel => (NoFuel, (w, st))
    | _ => (r, (set_running false w, st))
    end.
End Worker.

Arguments Handler : clear implicits.
Arguments Worker : clear implicits.
