(* ===== verification/WorkerFacts.v ===== *)
(** * The queue worker: no job is lost, and no job runs more often than allowed

    The worker is proved against [LawfulDriver], the contract of a driver.  An
    abstract queue, [history], settles one job at a time; every run of the worker is
    such a history, and the accounting of jobs and attempts is proved on it. *)

From S2P Require Import Prelude Queue Worker.
Import Memory.

(** ** The abstract queue *)

(** How one execution of a job ends.  The envelope is the job as it was popped. *)
Inductive Outcome :=
| Completed (j : Envelope)
| Retried (j : Envelope)
| Exhausted (j : Envelope)
| Unhandled (j : Envelope).

Definition job_of (o : Outcome) : Envelope :=
  match o with Completed j | Retried j | Exhausted j | Unhandled j => j end.

Definition is_completed (o : Outcome) : bool :=
  match o with Completed _ => true | _ => false end.

(** One more attempt; the counter is a 32-bit unsigned integer. *)
Definition bump (j : Envelope) : Envelope := set_attempts (u32 (attempts j + 1)) j.

Section Abstract.
Context {S : Type} (programs : gmap bytes (bytes -> S -> result unit * S)) (reliable : bool).

(** The program of the job ran and did not complete: it threw, or it returned and
    the acknowledgement failed. *)
Definition attempt_failed (j : Envelope) (s s' : S) : Prop :=
  exists g r, programs !! name j = Some g /\ g (payload j) s = (r, s') /\
    (r = Ok () -> reliable = false).

(** Settling one job: [rest] is what else is in the pool. *)
Definition settle (o : Outcome) (rest : Pool) (s : S) (p' : Pool) (s' : S) : Prop :=
  match o with
  | Completed j =>
      (exists g, programs !! name j = Some g /\ g (payload j) s = (Ok (), s')) /\ p' ≡ rest
  | Retried j =>
      attempt_failed j s s' /\ attempts (bump j) < max_attempts j /\ p' ≡ enqueue (bump j) rest
  | Exhausted j =>
      attempt_failed j s s' /\ max_attempts j <= attempts (bump j) /\ p' ≡ bury (bump j) rest
  | Unhandled j => programs !! name j = None /\ s' = s /\ p' ≡ bury j rest
  end.

Inductive history : Pool * S -> list Outcome -> Pool * S -> Prop :=
| history_nil p p' s : p ≡ p' -> history (p, s) [] (p', s)
| history_cons p s o rest p1 s1 log end_ :
    p ≡ enqueue (job_of o) rest -> settle o rest s p1 s1 -> history (p1, s1) log end_ ->
    history (p, s) (o :: log) end_.

Lemma history_equiv p q s log end_ :
  p ≡ q -> history (q, s) log end_ -> history (p, s) log end_.
Proof.
  intros Hpq Hh. inversion Hh; subst.
  - constructor. by rewrite Hpq.
  - econstructor; [by rewrite Hpq|done|done].
Qed.

(** *** Accounting of jobs *)

Definition ids (l : list Envelope) : list bytes := id <$> l.

#[export] Instance ids_proper : Proper ((≡ₚ) ==> (≡ₚ)) ids.
Proof. intros l l' Hl. unfold ids. by rewrite Hl. Qed.

Definition completed_ids (log : list Outcome) : list bytes :=
  (fun o => id (job_of o)) <$> base.filter is_completed log.

Lemma settle_ids o rest s p' s' :
  settle o rest s p' s' ->
  id (job_of o) :: ids (alive rest) ++ ids (buried rest) ≡ₚ
  completed_ids [o] ++ ids (alive p') ++ ids (buried p').
Proof.
  destruct o; cbn.
  - by intros (_ & -> & ->).
  - by intros (_ & _ & -> & ->).
  - intros (_ & _ & -> & ->). cbn. by rewrite <-Permutation_middle.
  - intros (_ & _ & -> & ->). cbn. by rewrite <-Permutation_middle.
Qed.

Lemma completed_ids_cons o log : completed_ids (o :: log) = completed_ids [o] ++ completed_ids log.
Proof. by destruct o. Qed.

(** Every job of the pool at the start is completed, waiting or failed at the end,
    and nothing else is. *)
Lemma history_ids start log end_ :
  history start log end_ ->
  ids (alive start.1) ++ ids (buried start.1) ≡ₚ
  completed_ids log ++ ids (alive end_.1) ++ ids (buried end_.1).
Proof.
  induction 1 as [p p' s [Ha Hb]|p s o rest p1 s1 log end_ [Ha Hb] Hs _ IH]; cbn [fst] in *.
  - by rewrite Ha, Hb.
  - rewrite completed_ids_cons, <-app_assoc, <-IH, <-(settle_ids o rest s p1 s1 Hs).
    by rewrite Ha, Hb.
Qed.

(** *** Accounting of attempts *)

(** The executions a job may still have: at least one, and otherwise up to
    [max_attempts]. *)
Definition budget (j : Envelope) : Z := Z.max 1 (max_attempts j - attempts j).

Definition budgets (P : bytes -> bool) (l : list Envelope) : Z :=
  foldr (fun j n => (if P (id j) then budget j else 0) + n) 0 l.

Lemma budgets_cons P j l :
  budgets P (j :: l) = (if P (id j) then budget j else 0) + budgets P l.
Proof. done. Qed.

#[export] Instance budgets_proper P : Proper ((≡ₚ) ==> (=)) (budgets P).
Proof. intros l l' Hl. induction Hl; rewrite ?budgets_cons; lia. Qed.

Definition executions (P : bytes -> bool) (log : list Outcome) : Z :=
  foldr (fun o n => (if P (id (job_of o)) then 1 else 0) + n) 0 log.

Lemma executions_cons P o log :
  executions P (o :: log) = (if P (id (job_of o)) then 1 else 0) + executions P log.
Proof. done. Qed.

(** Counters within their width, below the value that wraps around. *)
Definition counters_ok (j : Envelope) : Prop :=
  0 <= attempts j < 2 ^ 32 - 1 /\ 0 <= max_attempts j < 2 ^ 32.

Lemma bump_attempts j : counters_ok j -> attempts (bump j) = attempts j + 1.
Proof. intros [? ?]. cbn. apply u32_small. lia. Qed.

Lemma budgets_nonneg P l : 0 <= budgets P l.
Proof.
  induction l as [|j l IH]; [done|]. rewrite budgets_cons. unfold budget. destruct (P _); lia.
Qed.

Lemma settle_budget P o rest s p' s' :
  settle o rest s p' s' -> Forall counters_ok (job_of o :: alive rest) ->
  Forall counters_ok (alive p') /\
  executions P [o] + budgets P (alive p') <= budgets P (job_of o :: alive rest).
Proof.
  intros Hs [Hj Hr]%Forall_cons. pose proof (bump_attempts _ Hj) as Hb.
  destruct o as [j|j|j|j]; cbn [settle job_of] in *.
  - destruct Hs as (_ & Ha & _). split; [by eapply Permutation_Forall|].
    rewrite Ha, budgets_cons. cbn [executions foldr job_of]. unfold budget. destruct (P _); lia.
  - destruct Hs as (_ & Hlt & Ha & _). rewrite Hb in Hlt. split.
    + eapply Permutation_Forall; [done|]. constructor; [|done]. unfold counters_ok. rewrite Hb.
      destruct Hj as [? ?]. cbn. lia.
    + rewrite Ha. cbn [alive enqueue]. rewrite !budgets_cons. cbn [executions foldr job_of].
      unfold budget. rewrite Hb.
      change (max_attempts (bump j)) with (max_attempts j). change (id (bump j)) with (id j).
      destruct (P _); lia.
  - destruct Hs as (_ & _ & Ha & _). split; [by eapply Permutation_Forall|].
    rewrite Ha, budgets_cons. cbn [executions foldr job_of alive bury]. unfold budget.
    destruct (P _); lia.
  - destruct Hs as (_ & _ & Ha & _). split; [by eapply Permutation_Forall|].
    rewrite Ha, budgets_cons. cbn [executions foldr job_of alive bury]. unfold budget.
    destruct (P _); lia.
Qed.

Lemma history_budget P start log end_ :
  history start log end_ -> Forall counters_ok (alive start.1) ->
  executions P log <= budgets P (alive start.1).
Proof.
  induction 1 as [p p' s _|p s o rest p1 s1 log end_ [Ha _] Hs _ IH]; cbn [fst] in *; intros Hok.
  - apply budgets_nonneg.
  - rewrite Ha in Hok. destruct (settle_budget P o rest s p1 s1 Hs Hok) as [H1 H2].
    specialize (IH H1). rewrite Ha, executions_cons. cbn [alive enqueue].
    cbn [executions foldr] in H2. lia.
Qed.

Lemma executions_all log : executions (fun _ => true) log = Z.of_nat (length log).
Proof. induction log; [done|]. rewrite executions_cons. cbn [length]. lia. Qed.
End Abstract.

(** ** The worker settles jobs as the abstract queue does *)

(** A handler that does not use the queue itself. *)
Definition lift {D S} (g : bytes -> S -> result unit * S) : Handler D S :=
  fun p '(d, s) => let '(r, s) := g p s in (r, (d, s)).

Section Refinement.
Context {D S : Type} `{LawfulDriver D} (programs : gmap bytes (bytes -> S -> result unit * S)).
Implicit Types (w : Worker D S) (d : D) (s : S).

Lemma heartbeat_pool w n job d r d' :
  heartbeat w n job d = (r, d') -> pool d' ≡ pool d.
Proof.
  unfold heartbeat. case_match; [by intros [= <- <-]|].
  revert d. induction n as [|n IH]; cbn; intros d E; [by injection E as <- <-|].
  destruct (renew job d) as [renewed d1] eqn:E1. apply renew_law in E1. rewrite <-E1.
  destruct renewed as [[]|e|]; [by apply IH|by injection E as <- <-| |by injection E as <- <-].
  destruct (catchable e); by injection E as <- <-.
Qed.

Lemma attempt_job_lift g job d s r d' s' :
  attempt_job (lift g) job (d, s) = (r, (d', s')) ->
  exists r0, g (payload job) s = (r0, s') /\ pool d' ≡ pool d /\
    match r0 with
    | Ok _ => reliable_acknowledge = true -> r = Ok ()
    | _ => r = r0
    end.
Proof.
  unfold attempt_job, lift. destruct (g (payload job) s) as [r0 s0].
  destruct r0 as [[]|e|]; [|by intros [= <- <- <-]; eexists..].
  destruct (acknowledge job d) as [r1 d1] eqn:E. apply acknowledge_law in E as [Hp Hr].
  intros [= <- <- <-]. by exists (Ok ()).
Qed.

Lemma handle_failure_pool w env job d d' :
  handle_failure w env job d = (Ok (), d') ->
  if attempts job <? max_attempts job then pool d' ≡ enqueue (core job) (pool d)
  else pool d' ≡ bury (core job) (pool d).
Proof.
  unfold handle_failure. destruct (_ <? _); [apply release_after_law|apply fail_law].
Qed.

Lemma fmap_Ok_true {A} (r : result A) b :
  (fun _ => true) <$> r = Ok b -> b = true /\ exists a, r = Ok a.
Proof. destruct r; cbn; intros [= <-]. eauto. Qed.

(** A job that was popped and has a handler. *)
Lemma settle_handled w env job d d1 d2 d3 g (r : result unit) s s' :
  programs !! name job = Some g -> pool d1 ≡ pool d ->
  attempt_job (lift g) (bump job) (d1, s) = (r, (d2, s')) ->
  (r = Ok () /\ d3 = d2 \/
   (exists e, r = Throw e) /\ handle_failure w env (bump job) d2 = (Ok (), d3)) ->
  exists o, job_of o = core job /\ settle programs reliable_acknowledge o (pool d) s (pool d3) s'.
Proof.
  intros Hg Hp E Hend. apply attempt_job_lift in E as (r0 & Hr0 & Hp2 & Hr). rewrite Hp in Hp2.
  destruct Hend as [[-> ->]|[[e ->] Hf]].
  - destruct r0 as [[]|e|]; [|done..]. exists (Completed (core job)). split; [done|].
    split; [by exists g|done].
  - assert (attempt_failed programs reliable_acknowledge (core job) s s') as Ha.
    { exists g, r0. split_and!; [done|done|]. intros ->. by destruct reliable_acknowledge;
        [specialize (Hr eq_refl)|]. }
    apply handle_failure_pool in Hf. case_match; reflect_bools; rewrite Hp2 in Hf.
    + by exists (Retried (core job)).
    + by exists (Exhausted (core job)).
Qed.

Lemma run_one_settles w a d s b d' s' :
  handlers_ w = lift <$> programs -> run_one w a (d, s) = (Ok b, (d', s')) ->
  if b then exists o rest, pool d ≡ enqueue (job_of o) rest /\
              settle programs reliable_acknowledge o rest s (pool d') s'
  else pool d' ≡ pool d /\ s' = s.
Proof.
  intros Hw. unfold run_one. destruct (pop (at_pop a) d) as [r d1] eqn:Epop.
  apply pop_law in Epop. destruct r as [[job|]|e|]; [|by intros [= <- <- <-]|done|done].
  rewrite Hw, lookup_fmap. destruct (programs !! name job) as [g|] eqn:Hg; cbn [fmap option_fmap option_map].
  - fold (bump job). destruct (heartbeat w (beats a) (bump job) d1) as [hr d2] eqn:Eh.
    apply heartbeat_pool in Eh. destruct hr as [lost|e|]; [|done|done].
    destruct (attempt_job (lift g) (bump job) (d2, s)) as [r [d3 s3]] eqn:Ea.
    intros E. assert (b = true /\ s' = s3 /\ (r = Ok () /\ d' = d3 \/
      (exists e, r = Throw e) /\ handle_failure w (at_settle a) (bump job) d3 = (Ok (), d')))
      as (-> & -> & Hend).
    { destruct r as [[]|e|]; [by injection E as <- <- <-; auto| |done].
      destruct (catchable e); [|done].
      destruct (handle_failure w (at_settle a) (bump job) d3) as [r4 d4].
      injection E as E <- <-. apply fmap_Ok_true in E as (-> & [] & ->). eauto 6. }
    destruct (settle_handled w (at_settle a) job d1 d2 d3 d' g r s s3) as (o & Ho & Hs); [done..|].
    exists o, (pool d1). by rewrite Ho.
  - destruct (fail job d1) as [r d2] eqn:Ef. intros [= E <- <-].
    apply fmap_Ok_true in E as (-> & [] & ->). apply fail_law in Ef.
    by exists (Unhandled (core job)), (pool d1).
Qed.

Lemma obey_all_same cs w :
  handlers_ (obey_all cs w) = handlers_ w /\ options_ (obey_all cs w) = options_ w /\
  running_ (obey_all cs w) = running_ w.
Proof.
  revert w. induction cs as [|c cs IH]; intros w; [done|].
  unfold obey_all in *. cbn [fold_left]. destruct (IH (obey c w)) as (-> & -> & ->).
  by destruct c.
Qed.

Lemma run_loop_history started ticks n w d s m w' d' s' :
  handlers_ w = lift <$> programs -> 0 <= n < 2 ^ 64 ->
  run_loop started ticks n w (d, s) = (Ok m, (w', (d', s'))) ->
  exists log, history programs reliable_acknowledge (pool d, s) log (pool d', s') /\
    m = u64 (n + Z.of_nat (length log)).
Proof.
  revert n w d s. induction ticks as [|t ticks IH]; cbn [run_loop]; intros n w d s Hw Hn E; [done|].
  assert (forall w0, (Ok n, (w0, (d, s))) = (Ok m, (w', (d', s'))) ->
    exists log, history programs reliable_acknowledge (pool d, s) log (pool d', s') /\
      m = u64 (n + Z.of_nat (length log))) as Hstop.
  { intros w0 [= -> -> -> ->]. exists []. split; [by constructor|]. cbn.
    rewrite Z.add_0_r. by rewrite u64_small. }
  set (w1 := obey_all (commands t) w) in *.
  assert (handlers_ w1 = lift <$> programs) as Hw1 by (unfold w1; by destruct (obey_all_same (commands t) w) as (-> & _)).
  destruct (_ || _); [by eapply Hstop|]. destruct (_ && _); [by eapply Hstop|].
  destruct (expired w1 started (clock t)) as [[]|e|]; [by eapply Hstop| |done|done].
  destruct (run_one w1 (around t) (d, s)) as [r [d1 s1]] eqn:E1.
  destruct r as [[]|e|]; [| |done|done]; apply (run_one_settles _ _ _ _ _ _ _ Hw1) in E1.
  - destruct E1 as (o & rest & Hp & Hs).
    assert (0 <= u64 (n + 1) < 2 ^ 64) as Hn1 by (apply Z.mod_pos_bound; lia).
    destruct (IH _ _ _ _ Hw1 Hn1 E) as (log & Hh & ->).
    exists (o :: log). split; [by econstructor|]. unfold u64. cbn [length].
    rewrite Zplus_mod_idemp_l. f_equal. lia.
  - destruct E1 as (Hp & ->). destruct (IH _ _ _ _ Hw1 Hn E) as (log & Hh & ->).
    exists log. split; [|done]. eapply history_equiv; [|done]. by symmetry.
Qed.

Lemma run_history started ticks w d s n w' d' s' :
  handlers_ w = lift <$> programs -> run started ticks w (d, s) = (Ok n, (w', (d', s'))) ->
  exists log, history programs reliable_acknowledge (pool d, s) log (pool d', s') /\
    n = u64 (Z.of_nat (length log)).
Proof.
  intros Hw. unfold run. destruct (running_ w); [done|].
  destruct (run_loop _ _ _ _ _) as [r [w1 [d1 s1]]] eqn:E. destruct r as [m|e|]; intros [= -> <- <- <-].
  by apply (run_loop_history started ticks 0) in E.
Qed.
End Refinement.

(** ** The loop of [run] *)

Section Loop.
Context {D S : Type} `{Driver D}.
Implicit Types (w : Worker D S) (st : D * S).

Lemma run_one_same w w' a st :
  handlers_ w' = handlers_ w -> options_ w' = options_ w -> run_one w' a st = run_one w a st.
Proof.
  intros Hh Ho. unfold run_one, heartbeat, handle_failure. by rewrite Hh, Ho.
Qed.

Lemma obey_stop cs w : last cs = Some RequestStop -> stop_requested_ (obey_all cs w) = true.
Proof.
  intros [l ->]%last_Some. unfold obey_all. by rewrite fold_left_app.
Qed.

(** The worker has a reason to leave the loop at this tick. *)
Definition halts (started : Z) w (t : Tick) : Prop :=
  last (commands t) = Some RequestStop \/ cancelled t = true \/
  let limit := max_runtime (options_ w) * 1000000 in
  0 < limit <= INT64_MAX /\ limit <= clock t - started.

Lemma run_loop_halts started t after n w st :
  halts started w t ->
  run_loop started (t :: after) n w st = (Ok n, (obey_all (commands t) w, st)).
Proof.
  intros Ht. cbn [run_loop]. destruct (obey_all_same (commands t) w) as (_ & Ho & _).
  destruct Ht as [Hs|[Hc|(Hl & Hr)]].
  - by rewrite (obey_stop _ w Hs).
  - by rewrite Hc, orb_true_r.
  - destruct (_ || _); [done|]. destruct (_ && _); [done|]. unfold expired. rewrite Ho.
    rewrite (proj2 (Z.leb_gt _ 0)) by lia. rewrite (proj2 (Z.ltb_ge _ _)) by lia.
    by rewrite (proj2 (Z.leb_le _ _)) by lia.
Qed.

Lemma halts_same started w w' t : options_ w' = options_ w -> halts started w t -> halts started w' t.
Proof. unfold halts. by intros ->. Qed.

Lemma expired_terminates w started at_time : terminates (expired w started at_time).
Proof. unfold expired. by repeat case_goal. Qed.

Lemma run_loop_stops started before t after n w st :
  (forall a st, terminates (run_one w a st).1) -> halts started w t ->
  let r := run_loop started (before ++ t :: after) n w st in
  terminates r.1 /\ r = run_loop started (before ++ [t]) n w st.
Proof.
  revert n w st. induction before as [|u before IH]; intros n w st Hone Ht; cbn zeta.
  - cbn [app]. by rewrite !run_loop_halts.
  - cbn [app run_loop]. set (w1 := obey_all (commands u) w).
    destruct (obey_all_same (commands u) w) as (Hh & Ho & _). fold w1 in Hh, Ho.
    assert (forall a st, terminates (run_one w1 a st).1) as Hone1.
    { intros a st1. by rewrite (run_one_same w w1). }
    pose proof (halts_same started w w1 t Ho Ht) as Ht1.
    destruct (_ || _); [done|]. destruct (_ && _); [done|].
    pose proof (expired_terminates w1 started (clock u)).
    destruct (expired w1 started (clock u)) as [[]|e|]; [done| |done|done].
    specialize (Hone1 (around u) st) as Hr.
    destruct (run_one w1 (around u) st) as [[[]|e|] st1]; [| |done|done]; by apply IH.
Qed.

Lemma run_loop_keeps started ticks n w st r w' st' :
  run_loop started ticks n w st = (r, (w', st')) ->
  handlers_ w' = handlers_ w /\ options_ w' = options_ w.
Proof.
  revert n w st. induction ticks as [|t ticks IH]; cbn [run_loop]; intros n w st E.
  { by injection E as <- <- <-. }
  destruct (obey_all_same (commands t) w) as (Hh & Ho & _).
  rewrite <-Hh, <-Ho. set (w1 := obey_all (commands t) w) in *.
  destruct (_ || _); [by injection E as <- <- <-|].
  destruct (_ && _); [by injection E as <- <- <-|].
  destruct (expired _ _ _) as [[]|e|]; [by injection E as <- <- <-| |by injection E as <- <- <-..].
  destruct (run_one _ _ _) as [[[]|e|] st1];
    [by apply IH in E|by apply IH in E|by injection E as <- <- <-..].
Qed.

Lemma run_loop_max started ticks n w st m w' st' :
  0 < max_jobs (options_ w) < 2 ^ 64 -> 0 <= n <= max_jobs (options_ w) ->
  run_loop started ticks n w st = (Ok m, (w', st')) -> 0 <= m <= max_jobs (options_ w).
Proof.
  intros Hm. revert n w st Hm. induction ticks as [|t ticks IH]; cbn [run_loop];
    intros n w st Hm Hn E; [done|].
  destruct (obey_all_same (commands t) w) as (_ & Ho & _). set (w1 := obey_all (commands t) w) in *.
  rewrite <-Ho in Hm, Hn |- *. destruct (_ || _); [by injection E as <- <- <-|].
  destruct (_ && _) eqn:El; [by injection E as <- <- <-|].
  destruct (expired _ _ _) as [[]|e|]; [by injection E as <- <- <-| |done|done].
  destruct (run_one _ _ _) as [[[]|e|] st1]; [| |done|done].
  - apply andb_false_iff in El as [El|El]; reflect_bools; [lia|].
    apply (IH _ _ _ Hm) in E; [done|]. rewrite u64_small by lia. lia.
  - by apply (IH _ _ _ Hm) in E.
Qed.
End Loop.

(** ** An example worker: one mail program that refuses its first message *)

Definition flaky (_ : bytes) (sent : Z) : result unit * Z :=
  if sent =? 0 then (Throw (runtime_error "refused"), 1) else (Ok (), sent + 1).

Definition example_options : WorkerOptions := mkOptions 100 0 [50; 200] 0 0.

Definition example_programs : gmap bytes (bytes -> Z -> result unit * Z) :=
  {[lit "mail" := flaky]}.

Definition example_worker : Worker MemoryDriver Z :=
  mkWorker example_options (lift <$> example_programs) false false.

Definition example_queue : MemoryDriver :=
  mkMemory [example_job "a"; example_job "b"; mkEnvelope (lit "c") (lit "fax") [] 0 1 [] [] []]
    [] [].

Definition tick_at (t : Z) : Tick :=
  mkTick [] false t (mkSurroundings (quiet_at t) (quiet_at t) 0).

Definition example_ticks : list Tick :=
  [tick_at 0; tick_at 1; tick_at 2; tick_at 3; tick_at 50000000;
   mkTick [RequestStop] false 60000000 (mkSurroundings (quiet_at 60000000) (quiet_at 60000000) 0)].

(** ** Theorems *)

(** C20. Every run of the worker that returns is a history of the abstract queue: it
    settles one job at a time, each by running its program on its payload, and
    completes, retries, buries or rejects it as the outcome and the attempt counter
    demand; the returned count is the number of jobs settled.  So no job is lost and
    none is duplicated: the jobs of the queue at the start are, up to order, those
    that completed, those that wait and those that failed at the end. *)
Theorem worker_accounts {D S} `{LawfulDriver D} programs (w : Worker D S)
    started ticks d s n w' d' s' :
  handlers_ w = lift <$> programs -> run started ticks w (d, s) = (Ok n, (w', (d', s'))) ->
  exists log, history programs reliable_acknowledge (pool d, s) log (pool d', s') /\
    n = u64 (Z.of_nat (length log)) /\
    ids (alive (pool d)) ++ ids (buried (pool d)) ≡ₚ
    completed_ids log ++ ids (alive (pool d')) ++ ids (buried (pool d')).
Proof.
  intros Hw E. destruct (run_history programs started ticks w d s n w' d' s' Hw E) as (log & Hh & ->).
  exists log. split_and!; [done|done|]. by apply history_ids in Hh.
Qed.

Lemma worker_accounts_witness :
  exists n w' d' s', run 0 example_ticks example_worker (example_queue, 0) = (Ok n, (w', (d', s'))) /\
  exists log, history example_programs (reliable_acknowledge (D := MemoryDriver))
      (pool example_queue, 0) log (pool d', s') /\
    n = u64 (Z.of_nat (length log)) /\
    ids (alive (pool example_queue)) ++ ids (buried (pool example_queue)) ≡ₚ
    completed_ids log ++ ids (alive (pool d')) ++ ids (buried (pool d')).
Proof.
  eexists _, _, _, _. split; [vm_compute; reflexivity|].
  eapply (worker_accounts example_programs example_worker 0 example_ticks example_queue 0).
  - reflexivity.
  - vm_compute. reflexivity.
Defined.

(** A job is executed at most [max_attempts - attempts] times (once, if that is
    not positive): in every run the executions of the jobs with one identifier do
    not exceed what those jobs may have, and the whole run settles no more jobs
    than all of them together, so a queue nobody adds to is emptied. *)
Theorem worker_attempts_bounded {D S} `{LawfulDriver D} programs (w : Worker D S)
    started ticks d s n w' d' s' :
  handlers_ w = lift <$> programs -> Forall counters_ok (alive (pool d)) ->
  run started ticks w (d, s) = (Ok n, (w', (d', s'))) ->
  n <= budgets (fun _ => true) (alive (pool d)) /\
  exists log, history programs reliable_acknowledge (pool d, s) log (pool d', s') /\
    forall i, executions (fun x => bool_decide (x = i)) log <=
      budgets (fun x => bool_decide (x = i)) (alive (pool d)).
Proof.
  intros Hw Hok E.
  destruct (run_history programs started ticks w d s n w' d' s' Hw E) as (log & Hh & ->).
  split.
  - pose proof (history_budget _ _ (fun _ => true) _ _ _ Hh Hok) as Hb. rewrite executions_all in Hb.
    cbn [fst] in Hb. etrans; [|done]. apply Z.mod_le; lia.
  - exists log. split; [done|]. intros i. by apply (history_budget _ _ _ _ _ _ Hh).
Qed.

Lemma worker_attempts_bounded_witness :
  exists n w' d' s', run 0 example_ticks example_worker (example_queue, 0) = (Ok n, (w', (d', s'))) /\
  n <= budgets (fun _ => true) (alive (pool example_queue)) /\
  exists log, history example_programs (reliable_acknowledge (D := MemoryDriver))
      (pool example_queue, 0) log (pool d', s') /\
    forall i, executions (fun x => bool_decide (x = i)) log <=
      budgets (fun x => bool_decide (x = i)) (alive (pool example_queue)).
Proof.
  eexists _, _, _, _. split; [vm_compute; reflexivity|].
  eapply (worker_attempts_bounded example_programs example_worker 0 example_ticks example_queue 0).
  - reflexivity.
  - repeat apply Forall_cons_2; try apply Forall_nil_2; split; cbn; lia.
  - vm_compute. reflexivity.
Defined.

(** A failing attempt is retried with the configured backoff: when the job's
    program throws and attempts remain, the in-memory driver holds the job, with its
    counter advanced, until the [k]-th backoff ([k] the attempts made before, the
    last one when there are more attempts than delays) after the failure. *)
Theorem retry_after_backoff {S} (w : Worker MemoryDriver S) a d s job rest g e s' :
  ready (now (at_pop a)) d = job :: rest ->
  handlers_ w !! name job = Some (lift g) -> g (payload job) s = (Throw e, s') ->
  catchable e = true -> 0 <= attempts job -> attempts job + 1 < max_attempts job < 2 ^ 32 ->
  let backoff := retry_backoff (options_ w) in
  let delay := nth (Nat.min (Z.to_nat (attempts job)) (length backoff - 1)) backoff 0 in
  let due := now (at_settle a) + delay * 1000000 in
  0 < delay -> 0 <= now (at_settle a) -> due <= INT64_MAX ->
  run_one w a (d, s) =
  (Ok true,
   (mkMemory rest
      (waiting (now (at_pop a)) d ++
         [(due, inherit_trace (at_settle a) (set_attempts (attempts job + 1) job))])
      (failed_ d), s')).
Proof.
  intros Hready Hh Hg He Ha Hm backoff delay due Hdelay Hnow Hdue.
  unfold run_one. rewrite pop_eq, Hready, Hh. rewrite (u32_small (attempts job + 1)) by lia.
  set (job' := set_attempts _ job). set (d1 := mkMemory rest _ _).
  assert (heartbeat w (beats a) job' d1 = (Ok false, d1)) as ->.
  { unfold heartbeat. destruct (_ <=? 0); [done|]. generalize (beats a).
    intros n. induction n as [|n IH]; [done|]. exact IH. }
  unfold attempt_job, lift. change (payload job') with (payload job). rewrite Hg, He.
  unfold handle_failure. change (attempts job') with (attempts job + 1).
  change (max_attempts job') with (max_attempts job). rewrite (proj2 (Z.ltb_lt _ _)) by lia.
  assert (retry_delay (options_ w) (attempts job + 1) = delay) as ->.
  { unfold retry_delay, delay. fold backoff. destruct backoff as [|b l] eqn:Eb.
    { unfold delay in Hdelay. by destruct (Nat.min _ _). }
    rewrite (proj2 (Z.eqb_neq _ _)) by lia.
    f_equal. cbn [length]. lia. }
  destruct (push_later_cases (at_settle a) job' delay d1 Hdelay) as [E|[what E]];
    change (release_after (at_settle a) job' delay d1) with (push_later (at_settle a) job' delay d1);
    rewrite E; [done|].
  exfalso. revert E. cbn. unfold m_push_later, due_time, plus_ms. fold due.
  rewrite (proj2 (Z.leb_gt _ _)), !(proj2 (Z.ltb_ge _ _)) by lia. done.
Qed.

Lemma retry_after_backoff_witness :
  run_one example_worker (mkSurroundings (quiet_at 0) (quiet_at 7) 0) (example_queue, 0) =
  (Ok true,
   (mkMemory [example_job "b"; mkEnvelope (lit "c") (lit "fax") [] 0 1 [] [] []]
      [(50000007, set_attempts 1 (example_job "a"))] [], 1)).
Proof.
  apply (retry_after_backoff example_worker (mkSurroundings (quiet_at 0) (quiet_at 7) 0)
    example_queue 0 (example_job "a")
    [example_job "b"; mkEnvelope (lit "c") (lit "fax") [] 0 1 [] [] []]
    flaky (runtime_error "refused") 1).
  all: first [reflexivity | cbn; lia | vm_compute; (reflexivity || intuition discriminate)].
Defined.

(** The loop answers a stop request, a cancelled token and the runtime limit at
    the next iteration that sees it, whatever comes after: [run] returns, at a state
    that does not depend on later ticks, and marks the worker as not running. *)
Theorem run_stops {D S} `{Driver D} (w : Worker D S) started before t after st :
  running_ w = false -> (forall a st, terminates (run_one w a st).1) -> halts started w t ->
  let r := run started (before ++ t :: after) w st in
  terminates r.1 /\ running_ r.2.1 = false /\ r = run started (before ++ [t]) w st.
Proof.
  intros Hw Hone Ht. unfold run. rewrite Hw. cbn zeta.
  destruct (run_loop_stops started before t after 0 (set_running true w) st Hone Ht) as [H1 <-].
  by destruct (run_loop _ _ _ _ _) as [[m|e|] [w1 st1]].
Qed.

Lemma run_stops_witness :
  let r := run 0 ([tick_at 0; tick_at 1] ++ mkTick [RequestStop] false 2 (around (tick_at 2)) :: example_ticks)
             example_worker (example_queue, 0) in
  terminates r.1 /\ running_ r.2.1 = false /\
  r = run 0 ([tick_at 0; tick_at 1] ++ [mkTick [RequestStop] false 2 (around (tick_at 2))])
        example_worker (example_queue, 0).
Proof.
  apply (run_stops example_worker).
  - reflexivity.
  - intros a [d s]. unfold run_one. rewrite pop_eq.
    destruct (ready (now (at_pop a)) d) as [|job rest]; [exact I|].
    change (handlers_ example_worker) with (lift (D := MemoryDriver) <$> example_programs).
    rewrite lookup_fmap. unfold example_programs.
    destruct (decide (lit "mail" = name job)) as [Hn|Hn].
    + rewrite <-Hn, lookup_singleton_eq. cbn. unfold attempt_job, lift, flaky.
      destruct (s =? 0); [|exact I]. cbn. unfold handle_failure.
      destruct (_ <? _); [|exact I]. cbn.
      unfold m_release_after, m_push_later, due_time, plus_ms.
      destruct (_ <=? 0); [exact I|]. destruct (_ || _); exact I.
    + rewrite lookup_singleton_ne by done. exact I.
  - left. reflexivity.
Defined.

(** A worker runs at most once at a time, and a run that returns or throws leaves
    it ready for the next one with its handlers and options; it never settles more
    jobs than [max_jobs] allows. *)
Theorem run_limits {D S} `{Driver D} (w : Worker D S) started ticks st r w' st' :
  0 <= max_jobs (options_ w) < 2 ^ 64 -> run started ticks w st = (r, (w', st')) ->
  handlers_ w' = handlers_ w /\ options_ w' = options_ w /\
  if running_ w then r = Throw (logic_error "Queue worker is already running") /\ w' = w /\ st' = st
  else (terminates r -> running_ w' = false) /\
       (forall n, r = Ok n -> max_jobs (options_ w) <> 0 -> 0 <= n <= max_jobs (options_ w)).
Proof.
  intros Hmax E. unfold run in E. destruct (running_ w); [by injection E as <- <- <-|].
  destruct (run_loop _ _ _ _ _) as [r1 [w1 st1]] eqn:El.
  destruct (run_loop_keeps _ _ _ _ _ _ _ _ El) as [Hh Ho].
  destruct r1 as [m|e|]; injection E as <- <- <-; (split_and!; [done|done|done|]); [|done|done].
  intros n [= ->] Hn. eapply (run_loop_max started ticks 0 (set_running true w)); [..|exact El];
    cbn; lia.
Qed.

Lemma run_limits_witness :
  let w := mkWorker (mkOptions 100 0 [50] 2 0) (lift <$> example_programs) false false in
  let '(r, (w', _)) := run 0 example_ticks w (example_queue, 0) in
  handlers_ w' = handlers_ w /\ options_ w' = options_ w /\
  (terminates r -> running_ w' = false) /\ (forall n, r = Ok n -> 2 <> 0 -> 0 <= n <= 2).
Proof.
  refine (run_limits (mkWorker (mkOptions 100 0 [50] 2 0) (lift <$> example_programs) false false)
    0 example_ticks (example_queue, 0) _ _ _ _ _).
  - cbn. lia.
  - vm_compute. reflexivity.
Defined.
