(* ===== verification/Transaction.v ===== *)
(** * Database connections and transaction scopes

    [src/database/connection.cpp], [src/database/transaction.cpp] and
    [include/gungnir/database/transaction.hpp].  A connection keeps a stack of
    transaction scopes over a driver: the outermost is a transaction of the
    database, the others are savepoints.  Each scope collects callbacks to run after
    the outermost commit.  The driver is the type class [Database]; callbacks act on
    a state [W] of the application.  Every operation holds the connection's recursive
    mutex, so each is one step of the model. *)

From S2P Require Import Prelude Numeral.

Inductive Backend := sqlite | postgresql | mysql | mssql | mongodb.

#[export] Instance Backend_eq_dec : EqDecision Backend.
Proof. solve_decision. Defined.

(** The virtual functions of [database::Driver] that scopes use; the rows a
    statement returns are not modelled. *)
Class Database (D : Type) := {
  backend : D -> Backend;
  supports_savepoints : D -> bool;
  db_execute : bytes -> D -> result unit * D;
  db_begin : D -> result unit * D;
  db_commit : D -> result unit * D;
  db_rollback : D -> result unit * D
}.

Record TransactionToken := mkToken {
  root : bool;
  savepoint : bytes;
  depth : Z;
  scope_id : Z
}.

(** The statements of the backends; [None] where the switch has none. *)
Definition savepoint_statement (b : Backend) (name : bytes) : option bytes :=
  match b with
  | mssql => Some (lit "SAVE TRANSACTION " ++ name)
  | sqlite | postgresql | mysql => Some (lit "SAVEPOINT " ++ name)
  | mongodb => None
  end.

Definition release_statement (b : Backend) (name : bytes) : option bytes :=
  match b with
  | postgresql | mysql | sqlite => Some (lit "RELEASE SAVEPOINT " ++ name)
  | _ => None
  end.

Definition rollback_statement (b : Backend) (name : bytes) : option bytes :=
  match b with
  | mssql => Some (lit "ROLLBACK TRANSACTION " ++ name)
  | sqlite | postgresql | mysql => Some (lit "ROLLBACK TO SAVEPOINT " ++ name)
  | mongodb => None
  end.

Definition savepoint_name (n : Z) : bytes := lit "gungnir_sp_" ++ to_string n.

(** [std::vector::back] as a place, and [pop_back]; both are undefined when empty. *)
Fixpoint update_back {A} (f : A -> A) (l : list A) : option (list A) :=
  match l with
  | [] => None
  | [x] => Some [f x]
  | x :: l' => cons x <$> update_back f l'
  end.

Fixpoint pop_back {A} (l : list A) : option (list A * A) :=
  match l with
  | [] => None
  | x :: l' =>
      match pop_back l' with
      | None => Some ([], x)
      | Some (front, y) => Some (x :: front, y)
      end
  end.

Definition empty_vector : exn := undefined "back() of an empty vector".

Section Connection.
Context {D W : Type} `{Database D}.

Definition Callback : Type := W -> result unit * W.

Record Connection := mkConnection {
  driver_ : D;
  commit_callbacks_ : list (list Callback);
  transaction_depth_ : Z;
  transaction_scope_ids_ : list Z;
  transaction_scope_sequence_ : Z;
  savepoint_sequence_ : Z
}.

Abbreviation State := (Connection * W)%type.
Abbreviation M := (eff State).

Definition connection : M Connection := fun st => (Ok st.1, st).
Definition put (c : Connection) : M unit := fun st => (Ok (), (c, st.2)).

(** A call of the driver. *)
Definition call (f : D -> result unit * D) : M unit := fun '(c, w) =>
  let '(r, d) := f (driver_ c) in
  (r, (mkConnection d (commit_callbacks_ c) (transaction_depth_ c) (transaction_scope_ids_ c)
         (transaction_scope_sequence_ c) (savepoint_sequence_ c), w)).

Definition in_transaction (c : Connection) : bool := negb (transaction_depth_ c =? 0).

(** [Connection::execute] inside the application: the statement reaches the driver. *)
Definition execute (statement : bytes) : M unit := call (db_execute statement).

Definition after_commit (callback : Callback) : M unit := fun '(c, w) =>
  if negb (transaction_depth_ c =? 0) then
    match update_back (fun level => level ++ [callback]) (commit_callbacks_ c) with
    | Some levels =>
        (Ok (), (mkConnection (driver_ c) levels (transaction_depth_ c) (transaction_scope_ids_ c)
                   (transaction_scope_sequence_ c) (savepoint_sequence_ c), w))
    | None => (Throw empty_vector, (c, w))
    end
  else let '(r, w) := callback w in (r, (c, w)).

(** [++savepoint_sequence_] and the name made from it. *)
Definition next_savepoint_name : M bytes :=
  c ← connection;
  let n := u64 (savepoint_sequence_ c + 1) in
  put (mkConnection (driver_ c) (commit_callbacks_ c) (transaction_depth_ c)
         (transaction_scope_ids_ c) (transaction_scope_sequence_ c) n);;
  mret (savepoint_name n).

(** The bookkeeping at the end of [begin_scope]. *)
Definition open_scope (is_root : bool) (sp : bytes) : M TransactionToken :=
  c ← connection;
  let new_depth := if is_root then 1 else u64 (transaction_depth_ c + 1) in
  let new_id := u64 (transaction_scope_sequence_ c + 1) in
  put (mkConnection (driver_ c) (commit_callbacks_ c ++ [[]]) new_depth
         (transaction_scope_ids_ c ++ [new_id]) new_id (savepoint_sequence_ c));;
  mret (mkToken is_root sp new_depth new_id).

Definition begin_scope : M TransactionToken :=
  c ← connection;
  if transaction_depth_ c =? 0 then
    call db_begin;;
    open_scope true []
  else if negb (supports_savepoints (driver_ c)) then
    throw (logic_error "Nested database transactions require savepoint support")
  else
    sp ← next_savepoint_name;
    match savepoint_statement (backend (driver_ c)) sp with
    | Some statement => call (db_execute statement)
    | None => throw (logic_error
        "MongoDB nested transactions use session semantics rather than SQL savepoints")
    end;;
    open_scope false sp.

Definition is_nil {A} (l : list A) : bool := match l with [] => true | _ => false end.

Definition validate_scope_token (token : TransactionToken) : M unit :=
  c ← connection;
  match last (transaction_scope_ids_ c) with
  | None => throw (logic_error "Database transaction scope is no longer active")
  | Some innermost =>
      if transaction_depth_ c =? 0 then
        throw (logic_error "Database transaction scope is no longer active")
      else if negb (depth token =? transaction_depth_ c) || (scope_id token =? 0) ||
         negb (scope_id token =? innermost) ||
         negb (Bool.eqb (root token) (transaction_depth_ c =? 1))
      then throw (logic_error "Database transaction scopes must be completed in LIFO order")
      else if negb (root token) && is_nil (savepoint token)
      then throw (logic_error "Nested database transaction scope is missing its savepoint")
      else mret ()
  end.

(** All callbacks run; the first exception is thrown at the end. *)
Fixpoint run_callbacks (callbacks : list Callback) (failure : option exn) (w : W)
    : result unit * W :=
  match callbacks with
  | [] => (match failure with None => Ok () | Some e => Throw e end, w)
  | callback :: rest =>
      match callback w with
      | (Ok _, w) => run_callbacks rest failure w
      | (Throw e, w) =>
          if catchable e
          then run_callbacks rest (match failure with None => Some e | f => f end) w
          else (Throw e, w)
      | (NoFuel, w) => (NoFuel, w)
      end
  end.

Definition invoke (callbacks : list Callback) : M unit := fun '(c, w) =>
  let '(r, w) := run_callbacks callbacks None w in (r, (c, w)).

(** The outermost scope is gone: depth, scopes and callbacks are cleared. *)
Definition clear_scopes (c : Connection) : Connection :=
  mkConnection (driver_ c) [] 0 [] (transaction_scope_sequence_ c) (savepoint_sequence_ c).

(** [pop_back] of the scope stack with [--transaction_depth_]. *)
Definition drop_scope (levels : list (list Callback)) (c : Connection) : Connection :=
  mkConnection (driver_ c) levels (u64 (transaction_depth_ c - 1))
    (removelast (transaction_scope_ids_ c)) (transaction_scope_sequence_ c) (savepoint_sequence_ c).

(** The statement of a backend that has one. *)
Definition run_statement (statement : option bytes) : M unit :=
  match statement with
  | Some statement => call (db_execute statement)
  | None => mret ()
  end.

Definition commit_scope (token : TransactionToken) : M unit :=
  validate_scope_token token;;
  if root token then
    call db_commit;;
    c ← connection;
    put (clear_scopes c);;
    invoke (concat (commit_callbacks_ c))
  else
    c ← connection;
    run_statement (release_statement (backend (driver_ c)) (savepoint token));;
    c ← connection;
    match pop_back (commit_callbacks_ c) with
    | None => throw empty_vector
    | Some (levels, callbacks) =>
        match update_back (fun level => level ++ callbacks) levels with
        | None => throw empty_vector
        | Some levels => put (drop_scope levels c)
        end
    end.

Definition rollback_scope (token : TransactionToken) : M unit :=
  validate_scope_token token;;
  if root token then
    call db_rollback;;
    c ← connection;
    put (clear_scopes c)
  else
    c ← connection;
    run_statement (rollback_statement (backend (driver_ c)) (savepoint token));;
    c ← connection;
    match pop_back (commit_callbacks_ c) with
    | None => throw empty_vector
    | Some (levels, _) => put (drop_scope levels c)
    end.

(** [Connection::begin], [commit] and [rollback]: the outermost scope without a token. *)
Definition root_token (c : Connection) : M TransactionToken :=
  match last (transaction_scope_ids_ c) with
  | Some id => mret (mkToken true [] 1 id)
  | None => throw empty_vector
  end.

Definition begin : M unit :=
  c ← connection;
  if negb (transaction_depth_ c =? 0)
  then throw (logic_error "Use transaction scopes for nested transactions")
  else begin_scope;; mret ().

Definition commit : M unit :=
  c ← connection;
  if transaction_depth_ c =? 0 then mret ()
  else if negb (transaction_depth_ c =? 1)
  then throw (logic_error
    "Cannot commit a root database transaction while a nested scope is active")
  else token ← root_token c; commit_scope token.

Definition rollback : M unit :=
  c ← connection;
  if transaction_depth_ c =? 0 then mret ()
  else if negb (transaction_depth_ c =? 1)
  then throw (logic_error
    "Cannot roll back a root database transaction while a nested scope is active")
  else token ← root_token c; rollback_scope token.

(** ** The class [Transaction]

    A scope object: its token and whether it is still active. *)
Abbreviation T := (eff (bool * State)).

Definition on_connection {A} (m : M A) : T A := fun '(active, st) =>
  let '(r, st) := m st in (r, (active, st)).

Definition set_active (b : bool) : T unit := fun '(_, st) => (Ok (), (b, st)).

(** [Transaction::commit]. *)
Definition t_commit (token : TransactionToken) : T unit :=
  '(active, _) ← get;
  if negb active then mret ()
  else
    try_catch
      (on_connection (commit_scope token);; set_active false)
      (fun e =>
         '(_, (c, _)) ← get;
         (if negb (in_transaction c) then set_active false else mret ());;
         throw e).

(** [Transaction::rollback]. *)
Definition t_rollback (token : TransactionToken) : T unit :=
  '(active, _) ← get;
  if negb active then mret ()
  else on_connection (rollback_scope token);; set_active false.

(** [Transaction::run]. *)
Definition t_run {A} (token : TransactionToken) (callback : M A) : T A :=
  '(active, _) ← get;
  if negb active
  then throw (logic_error "Cannot run work on an inactive database transaction")
  else
    try_catch
      (a ← on_connection callback; t_commit token;; mret a)
      (fun e => t_rollback token;; throw e).

(** [~Transaction]: an active scope is rolled back, whatever that throws. *)
Definition t_destroy (token : TransactionToken) (active : bool) (st : State) : State :=
  if active then (t_rollback token (true, st)).2.2 else st.

Definition t_scope {A} (token : TransactionToken) (callback : M A) : M A := fun st =>
  let '(r, (active, st)) := t_run token callback (true, st) in (r, t_destroy token active st).

(** A transaction object for the duration of one [run]: constructor, [run],
    destructor. *)
Definition transaction {A} (callback : M A) : M A :=
  token ← begin_scope;
  t_scope token callback.

(** ** The class [AsyncTransaction]

    The same with a deadline.  The clock is read when the work has been awaited and
    again by [commit]; [late] and [late_commit] are the answers of [expired]. *)
Definition timed_out : exn := runtime_error "Async database transaction exceeded its timeout".

Definition ensure_not_expired (expired : bool) : T unit :=
  if expired then throw timed_out else mret ().

(** [AsyncTransaction::commit]. *)
Definition a_commit (late_commit : bool) (token : TransactionToken) : T unit :=
  '(active, _) ← get;
  if negb active then mret ()
  else
    ensure_not_expired late_commit;;
    try_catch
      (on_connection (commit_scope token);; set_active false)
      (fun e =>
         '(_, (c, _)) ← get;
         (if negb (in_transaction c) then set_active false else mret ());;
         throw e).

(** [AsyncTransaction::run]; [rollback] and the destructor are those of [Transaction]. *)
Definition a_run {A} (late late_commit : bool) (token : TransactionToken) (callback : M A) : T A :=
  '(active, _) ← get;
  if negb active
  then throw (logic_error "Cannot run work on an inactive async database transaction")
  else
    try_catch
      (a ← on_connection callback;
       ensure_not_expired late;;
       a_commit late_commit token;; mret a)
      (fun e => t_rollback token;; throw e).

Definition a_scope {A} (late late_commit : bool) (token : TransactionToken) (callback : M A) : M A :=
  fun st =>
    let '(r, (active, st)) := a_run late late_commit token callback (true, st) in
    (r, t_destroy token active st).

(** Constructor, [run] and destructor; [timeout] in milliseconds. *)
Definition async_transaction {A} (timeout : Z) (late late_commit : bool) (callback : M A) : M A :=
  if timeout <=? 0
  then throw (invalid_argument "Async database transaction timeout must be greater than zero")
  else
    token ← begin_scope;
    a_scope late late_commit token callback.
End Connection.

Arguments Connection : clear implicits.
Arguments Callback : clear implicits.
