(* ===== verification/TransactionFacts.v ===== *)
(** * Transaction scopes: atomicity, callbacks and the order of completion

    [SqlDatabase] states what SQL databases document about transactions and
    savepoints; against it, nested scopes are atomic.  The order in which scopes may
    be completed is proved for any driver, failing ones included. *)

From S2P Require Import Prelude Numeral Text Transaction.

(** ** Vectors used from the back *)

Lemma update_back_snoc {A} (f : A -> A) l x : update_back f (l ++ [x]) = Some (l ++ [f x]).
Proof.
  induction l as [|y l IH]; [done|]. cbn [app update_back]. rewrite IH. by destruct l.
Qed.

Lemma pop_back_snoc {A} (l : list A) x : pop_back (l ++ [x]) = Some (l, x).
Proof. induction l as [|y l IH]; [done|]. cbn [app pop_back]. by rewrite IH. Qed.

Lemma snoc_nonempty {A} (l : list A) x : l ++ [x] <> [].
Proof. by destruct l. Qed.

Lemma savepoint_name_inj a b : 0 <= a -> 0 <= b -> savepoint_name a = savepoint_name b -> a = b.
Proof.
  intros Ha Hb E. apply app_inv_head in E. unfold to_string in E.
  rewrite !(proj2 (Z.ltb_ge _ 0)) in E by done.
  rewrite <-(to_string_u_value a), <-(to_string_u_value b) by done. by rewrite E.
Qed.

#[local] Arguments savepoint_name : simpl never.
#[local] Arguments lit : simpl never.
#[local] Arguments u64 : simpl never.
#[local] Arguments Z.of_nat : simpl never.

(** ** What SQL databases document

    A database outside a transaction has its data; inside one it also has the data
    the transaction started from and a stack of savepoints, each with the data at
    its creation.  Returning to a savepoint keeps it and discards the later ones;
    releasing it discards it and the later ones. *)
Class SqlDatabase (D Data : Type) `{Database D} := {
  view : D -> Data * option (Data * list (bytes * Data));
  sql : Backend;
  sql_backend d : backend d = sql;
  sql_supported : sql <> mongodb;
  sql_savepoints d : supports_savepoints d = true;
  ordinary : bytes -> Prop;
  effect : bytes -> Data -> Data;
  begin_sem d x : view d = (x, None) ->
    exists d', db_begin d = (Ok (), d') /\ view d' = (x, Some (x, []));
  commit_sem d x t : view d = (x, Some t) ->
    exists d', db_commit d = (Ok (), d') /\ view d' = (x, None);
  rollback_sem d x i sp : view d = (x, Some (i, sp)) ->
    exists d', db_rollback d = (Ok (), d') /\ view d' = (i, None);
  ordinary_sem d x t s : ordinary s -> view d = (x, Some t) ->
    exists d', db_execute s d = (Ok (), d') /\ view d' = (effect s x, Some t);
  save_sem d x i sp n s : savepoint_statement sql n = Some s -> view d = (x, Some (i, sp)) ->
    exists d', db_execute s d = (Ok (), d') /\ view d' = (x, Some (i, (n, x) :: sp));
  release_sem d x i above n y below s : release_statement sql n = Some s ->
    view d = (x, Some (i, above ++ (n, y) :: below)) -> n ∉ above.*1 ->
    exists d', db_execute s d = (Ok (), d') /\ view d' = (x, Some (i, below));
  rollback_to_sem d x i above n y below s : rollback_statement sql n = Some s ->
    view d = (x, Some (i, above ++ (n, y) :: below)) -> n ∉ above.*1 ->
    exists d', db_execute s d = (Ok (), d') /\ view d' = (y, Some (i, (n, y) :: below))
}.

(** ** The class [Transaction] *)

Section Object.
Context {D W : Type} `{Database D}.
Implicit Types (st : Connection D W * W).

Lemma transaction_ok {A} (body : eff _ A) st token st1 a st2 st3 :
  begin_scope st = (Ok token, st1) -> body st1 = (Ok a, st2) ->
  commit_scope token st2 = (Ok (), st3) -> transaction body st = (Ok a, st3).
Proof.
  intros E1 E2 E3. unfold transaction. rewrite (eff_bind_Ok _ _ _ _ _ E1).
  unfold t_scope, t_run, t_commit, try_catch, on_connection, get, set_active, mbind, eff_bind.
  cbn. rewrite E2. cbn. by rewrite E3.
Qed.

Lemma transaction_throws {A} (body : eff _ A) st token st1 e st2 st3 :
  begin_scope st = (Ok token, st1) -> body st1 = (Throw e, st2) -> catchable e = true ->
  rollback_scope token st2 = (Ok (), st3) -> transaction body st = (Throw e, st3).
Proof.
  intros E1 E2 He E3. unfold transaction. rewrite (eff_bind_Ok _ _ _ _ _ E1).
  unfold t_scope, t_run, t_rollback, try_catch, on_connection, get, set_active, mbind, eff_bind.
  cbn. rewrite E2. cbn. rewrite He, E3. done.
Qed.

(** The commit went through, and a callback threw. *)
Lemma transaction_callback_throws {A} (body : eff _ A) st token st1 a st2 e st3 :
  begin_scope st = (Ok token, st1) -> body st1 = (Ok a, st2) -> catchable e = true ->
  commit_scope token st2 = (Throw e, st3) -> in_transaction st3.1 = false ->
  transaction body st = (Throw e, st3).
Proof.
  intros E1 E2 He E3 Hout. unfold transaction. rewrite (eff_bind_Ok _ _ _ _ _ E1).
  unfold t_scope, t_run, t_commit, t_rollback, try_catch, on_connection, get, set_active, mbind,
    eff_bind.
  cbn. rewrite E2. cbn. rewrite E3. cbn. rewrite He. destruct st3 as [c w]. cbn in *. rewrite Hout.
  cbn. by rewrite He.
Qed.

(** An asynchronous transaction that misses its deadline is one whose body throws, and
    otherwise it is an ordinary transaction. *)
Lemma async_in_time {A} timeout (body : eff _ A) st :
  0 < timeout -> async_transaction timeout false false body st = transaction body st.
Proof.
  intros Ht. unfold async_transaction, transaction. rewrite (proj2 (Z.leb_gt _ _)) by done.
  unfold mbind, eff_bind. by destruct (begin_scope st) as [[token|e|] st1].
Qed.

Lemma async_late {A} timeout late late_commit (body : eff _ A) st :
  0 < timeout -> late || late_commit = true ->
  async_transaction timeout late late_commit body st =
    transaction (body;; throw timed_out) st.
Proof.
  intros Ht Hl. unfold async_transaction, transaction. rewrite (proj2 (Z.leb_gt _ _)) by done.
  unfold mbind, eff_bind. destruct (begin_scope st) as [[token|e|] st1]; [|done..].
  unfold t_scope, a_scope, a_run, t_run, a_commit, ensure_not_expired, on_connection, try_catch, get, mbind,
    eff_bind. cbn. destruct (body st1) as [[a|e|] st2]; [|done..].
  destruct late; [done|]. cbn in Hl. by subst.
Qed.
End Object.

(** ** Scripts: what an application does inside a transaction *)

Section Scripts.
Context {D W : Type} `{Database D}.
Abbreviation St := (Connection D W * W)%type.

(** Register a callback (by any computation [m] that does so), write, or run a nested
    transaction whose body ends normally ([keeps]) or with an exception that the
    surrounding code handles. *)
Inductive Script : Type :=
| Done
| Register (m : eff St unit) (callback : Callback W) (rest : Script)
| Write (statement : bytes) (rest : Script)
| Nested (keeps : bool) (inner rest : Script).

Definition abandoned : exn := runtime_error "abandoned".

Definition conclude (keeps : bool) : eff St unit := if keeps then mret () else throw abandoned.

Definition swallow (m : eff St unit) : eff St unit := try_catch m (fun _ => mret ()).

Fixpoint perform (s : Script) : eff St unit :=
  match s with
  | Done => mret ()
  | Register m _ rest => m;; perform rest
  | Write statement rest => execute statement;; perform rest
  | Nested keeps inner rest =>
      swallow (transaction (perform inner;; conclude keeps));; perform rest
  end.

(** What survives: the callbacks and writes of scopes that are kept, in order. *)
Fixpoint kept_callbacks (s : Script) : list (Callback W) :=
  match s with
  | Done => []
  | Register _ callback rest => callback :: kept_callbacks rest
  | Write _ rest => kept_callbacks rest
  | Nested keeps inner rest => (if keeps then kept_callbacks inner else []) ++ kept_callbacks rest
  end.

Fixpoint kept_writes (s : Script) : list bytes :=
  match s with
  | Done => []
  | Register _ _ rest => kept_writes rest
  | Write statement rest => statement :: kept_writes rest
  | Nested keeps inner rest => (if keeps then kept_writes inner else []) ++ kept_writes rest
  end.

(** The number of nested scopes. *)
Fixpoint scopes (s : Script) : Z :=
  match s with
  | Done => 0
  | Register _ _ rest | Write _ rest => scopes rest
  | Nested _ inner rest => 1 + scopes inner + scopes rest
  end.

Lemma scopes_nonneg s : 0 <= scopes s.
Proof. induction s; cbn; lia. Qed.

(** Inside a transaction [m] registers [callback], when the application is in state
    [w]. *)
Definition registers (w : W) (m : eff St unit) (callback : Callback W) : Prop :=
  forall c, transaction_depth_ c <> 0 -> m (c, w) = after_commit callback (c, w).
End Scripts.

Arguments Script : clear implicits.

Section Atomicity.
Context {D W Data : Type} `{SqlDatabase D Data}.
Abbreviation St := (Connection D W * W)%type.

Fixpoint script_ok (w : W) (s : Script D W) : Prop :=
  match s with
  | Done => True
  | Register m callback rest => registers w m callback /\ script_ok w rest
  | Write statement rest => ordinary statement /\ script_ok w rest
  | Nested _ inner rest => script_ok w inner /\ script_ok w rest
  end.

Definition apply_writes (l : list bytes) (x : Data) : Data := fold_left (fun x s => effect s x) l x.

(** Savepoints named by counters in [(lo, hi]]. *)
Definition named (lo hi : Z) (l : list (bytes * Data)) : Prop :=
  Forall (fun p => exists k, p.1 = savepoint_name k /\ lo < k <= hi) l.

Lemma named_fresh n hi l : 0 <= n -> named n hi l -> savepoint_name n ∉ l.*1.
Proof.
  intros Hn Hl Hin. apply list_elem_of_fmap in Hin as (p & E & Hp).
  eapply Forall_forall in Hl; [|done]. destruct Hl as (k & Hk & ?).
  rewrite Hk in E. apply savepoint_name_inj in E; lia.
Qed.

Lemma named_mono lo lo' hi hi' l : lo' <= lo -> hi <= hi' -> named lo hi l -> named lo' hi' l.
Proof.
  intros ? ? Hl. eapply Forall_impl; [done|]. intros p (k & ? & ?). exists k. split; [done|lia].
Qed.

(** A connection inside [length ids + 1] scopes, the innermost with number [q]. *)
Definition conn d (levels : list (list (Callback W))) level (ids : list Z) q ss sv : Connection D W :=
  mkConnection d (levels ++ [level]) (Z.of_nat (length ids) + 1) (ids ++ [q]) ss sv.

(** *** One nested scope *)

Lemma begin_nested d levels level ids q ss sv w x i sp :
  view d = (x, Some (i, sp)) -> Z.of_nat (length ids) < ss -> ss + 1 < 2 ^ 64 ->
  0 <= sv -> sv + 1 < 2 ^ 64 ->
  exists d', begin_scope (conn d levels level ids q ss sv, w) =
    (Ok (mkToken false (savepoint_name (sv + 1)) (Z.of_nat (length (ids ++ [q])) + 1) (ss + 1)),
     (conn d' (levels ++ [level]) [] (ids ++ [q]) (ss + 1) (ss + 1) (sv + 1), w)) /\
    view d' = (x, Some (i, (savepoint_name (sv + 1), x) :: sp)).
Proof.
  intros Hv Hss Hss2 Hsv Hsv2. pose proof sql_supported as Hsql.
  assert (exists s, savepoint_statement sql (savepoint_name (sv + 1)) = Some s) as [s Hs].
  { destruct sql; cbn; eauto. done. }
  destruct (save_sem d x i sp _ s Hs Hv) as (d' & Hd & Hv'). exists d'. split; [|done].
  unfold begin_scope, next_savepoint_name, connection, put, mbind, eff_bind, mret, eff_ret, conn. cbn.
  rewrite (proj2 (Z.eqb_neq _ 0)) by lia. rewrite sql_savepoints. cbn.
  rewrite sql_backend, (u64_small (sv + 1)), Hs by lia. unfold call. cbn. rewrite Hd.
  unfold open_scope, connection, put, mbind, eff_bind, mret, eff_ret. cbn.
  rewrite length_app. cbn. rewrite !u64_small by lia. do 3 f_equal; [lia|]. f_equal. lia.
Qed.

(** The token of the innermost scope passes the check. *)
Lemma validate_innermost d levels level ids q ss sv w sp0 :
  0 < q -> ids <> [] -> sp0 <> [] ->
  validate_scope_token (mkToken false sp0 (Z.of_nat (length ids) + 1) q)
    (conn d levels level ids q ss sv, w) = (Ok (), (conn d levels level ids q ss sv, w)).
Proof.
  intros Hq Hids Hsp. unfold validate_scope_token, connection, mbind, eff_bind, conn. cbn.
  rewrite last_snoc. rewrite (proj2 (Z.eqb_neq _ 0)) by lia.
  rewrite Z.eqb_refl, Z.eqb_refl, (proj2 (Z.eqb_neq q 0)) by lia. cbn.
  rewrite (proj2 (Z.eqb_neq _ 1)) by (destruct ids; cbn in *; [done|lia]).
  by destruct sp0.
Qed.

Lemma savepoint_name_nonempty n : savepoint_name n <> [].
Proof. done. Qed.

Lemma drop_conn_any d levels level ids q inner q' ss sv new :
  Z.of_nat (length ids) + 1 < 2 ^ 64 ->
  drop_scope (levels ++ [new]) (conn d (levels ++ [level]) inner (ids ++ [q]) q' ss sv) =
  conn d levels new ids q ss sv.
Proof.
  intros Hl. unfold drop_scope, conn. cbn. rewrite removelast_last, length_app. cbn.
  f_equal. rewrite u64_small by lia. lia.
Qed.

Lemma commit_nested d levels level inner ids q q' ss sv w x i above y below n hi :
  view d = (x, Some (i, above ++ (savepoint_name n, y) :: below)) ->
  0 <= n -> named n hi above -> 0 < q' -> Z.of_nat (length ids) + 1 < 2 ^ 64 ->
  exists d' extra, commit_scope (mkToken false (savepoint_name n) (Z.of_nat (length (ids ++ [q])) + 1) q')
      (conn d (levels ++ [level]) inner (ids ++ [q]) q' ss sv, w) =
    (Ok (), (conn d' levels (level ++ inner) ids q ss sv, w)) /\
    view d' = (x, Some (i, extra ++ below)) /\
    (extra = [] \/ extra = above ++ [(savepoint_name n, y)]).
Proof.
  intros Hv Hn Hnamed Hq Hl. pose proof (named_fresh n hi above Hn Hnamed) as Hfresh.
  assert (exists d' extra, (match release_statement sql (savepoint_name n) with
      | Some s => db_execute s d | None => (Ok (), d) end) = (Ok (), d') /\
      view d' = (x, Some (i, extra ++ below)) /\
      (extra = [] \/ extra = above ++ [(savepoint_name n, y)])) as (d' & extra & Hd & Hv' & Hex).
  { destruct (release_statement sql (savepoint_name n)) as [s|] eqn:Hs.
    - destruct (release_sem d x i above _ y below s Hs Hv Hfresh) as (d' & ? & ?).
      exists d', []. auto.
    - exists d, (above ++ [(savepoint_name n, y)]). rewrite <-app_assoc. auto. }
  exists d', extra. split; [|done]. unfold commit_scope.
  rewrite (eff_bind_Ok _ _ _ _ _ (validate_innermost _ _ _ _ _ _ _ _ _ Hq (snoc_nonempty ids q)
    (savepoint_name_nonempty n))).
  unfold connection, run_statement, mbind, eff_bind. cbn [root savepoint fst driver_ conn].
  rewrite sql_backend.
  destruct (release_statement sql (savepoint_name n)) as [s|];
    [unfold call, conn; cbn; rewrite Hd|injection Hd as ->].
  all: cbn; rewrite pop_back_snoc, update_back_snoc; unfold put; cbn.
  all: do 2 f_equal; by apply (drop_conn_any d' levels level ids q inner q' ss sv (level ++ inner)).
Qed.

Lemma rollback_nested d levels level inner ids q q' ss sv w x i above y below n hi :
  view d = (x, Some (i, above ++ (savepoint_name n, y) :: below)) ->
  0 <= n -> named n hi above -> 0 < q' -> Z.of_nat (length ids) + 1 < 2 ^ 64 ->
  exists d', rollback_scope (mkToken false (savepoint_name n) (Z.of_nat (length (ids ++ [q])) + 1) q')
      (conn d (levels ++ [level]) inner (ids ++ [q]) q' ss sv, w) =
    (Ok (), (conn d' levels level ids q ss sv, w)) /\
    view d' = (y, Some (i, (savepoint_name n, y) :: below)).
Proof.
  intros Hv Hn Hnamed Hq Hl. pose proof (named_fresh n hi above Hn Hnamed) as Hfresh.
  assert (exists s, rollback_statement sql (savepoint_name n) = Some s) as [s Hs].
  { pose proof sql_supported. destruct sql; cbn; eauto. done. }
  destruct (rollback_to_sem d x i above _ y below s Hs Hv Hfresh) as (d' & Hd & Hv').
  exists d'. split; [|done]. unfold rollback_scope.
  rewrite (eff_bind_Ok _ _ _ _ _ (validate_innermost _ _ _ _ _ _ _ _ _ Hq (snoc_nonempty ids q)
    (savepoint_name_nonempty n))).
  unfold connection, run_statement, mbind, eff_bind. cbn [root savepoint fst driver_ conn].
  rewrite sql_backend, Hs.
  unfold call, conn. cbn. rewrite Hd. cbn. rewrite pop_back_snoc. unfold put. cbn.
  do 2 f_equal. by apply (drop_conn_any d' levels level ids q inner q' ss sv level).
Qed.

(** *** A whole script inside a scope *)

Definition resumes (s : Script D W) d levels level ids q ss sv w x i sp : Prop :=
  exists d' ss' sv' extra,
    perform s (conn d levels level ids q ss sv, w) =
      (Ok (), (conn d' levels (level ++ kept_callbacks s) ids q ss' sv', w)) /\
    view d' = (apply_writes (kept_writes s) x, Some (i, extra ++ sp)) /\
    named sv sv' extra /\ sv <= sv' <= sv + scopes s /\ ss <= ss' <= ss + scopes s.

(** Enough numbers are left for the scopes of the script. *)
Definition room (s : Script D W) (ids : list Z) (ss sv : Z) : Prop :=
  Z.of_nat (length ids) < ss /\ ss + scopes s < 2 ^ 64 /\ 0 <= sv /\ sv + scopes s < 2 ^ 64.

Lemma resumes_continue s d levels level ids q ss sv w x i sp
    (m : eff St unit) d1 level1 ss1 sv1 writes extra1 n :
  m (conn d levels level ids q ss sv, w) = (Ok (), (conn d1 levels level1 ids q ss1 sv1, w)) ->
  named sv sv1 extra1 -> sv <= sv1 <= sv + n -> ss <= ss1 <= ss + n ->
  resumes s d1 levels level1 ids q ss1 sv1 w (apply_writes writes x) i (extra1 ++ sp) ->
  exists d' ss' sv' extra,
    (m;; perform s) (conn d levels level ids q ss sv, w) =
      (Ok (), (conn d' levels (level1 ++ kept_callbacks s) ids q ss' sv', w)) /\
    view d' = (apply_writes (writes ++ kept_writes s) x, Some (i, extra ++ sp)) /\
    named sv sv' extra /\ sv <= sv' <= sv + (n + scopes s) /\ ss <= ss' <= ss + (n + scopes s).
Proof.
  intros Em Hn1 Hsv Hss (d2 & ss2 & sv2 & extra2 & E & Hv & Hn2 & Hsv2 & Hss2).
  exists d2, ss2, sv2, (extra2 ++ extra1). split_and!; try lia.
  - by rewrite (eff_bind_Ok _ _ _ _ _ Em), E.
  - rewrite Hv. unfold apply_writes. by rewrite fold_left_app, <-app_assoc.
  - apply Forall_app. split; [by apply (named_mono sv1 sv sv2 sv2); [lia|lia|]|].
    by apply (named_mono sv sv sv1 sv2); [lia|lia|].
Qed.

Lemma nested_scope keeps inner d levels level ids q ss sv w x i sp :
  view d = (x, Some (i, sp)) ->
  Z.of_nat (length ids) < ss -> ss + (1 + scopes inner) < 2 ^ 64 ->
  0 <= sv -> sv + (1 + scopes inner) < 2 ^ 64 ->
  (forall d levels level ids q ss sv x i sp, view d = (x, Some (i, sp)) -> room inner ids ss sv ->
    resumes inner d levels level ids q ss sv w x i sp) ->
  exists d1 ss1 sv1 extra,
    swallow (transaction (perform inner;; conclude keeps)) (conn d levels level ids q ss sv, w) =
      (Ok (), (conn d1 levels (level ++ if keeps then kept_callbacks inner else []) ids q ss1 sv1, w)) /\
    view d1 = (apply_writes (if keeps then kept_writes inner else []) x, Some (i, extra ++ sp)) /\
    named sv sv1 extra /\ sv <= sv1 <= sv + (1 + scopes inner) /\
    ss <= ss1 <= ss + (1 + scopes inner).
Proof.
  intros Hv Hss Hss2 Hsv Hsv2 IH. pose proof (scopes_nonneg inner).
  destruct (begin_nested d levels level ids q ss sv w x i sp) as (d1 & Eb & Hv1); [done|lia..|].
  destruct (IH d1 (levels ++ [level]) [] (ids ++ [q]) (ss + 1) (ss + 1) (sv + 1) x i _ Hv1)
    as (d2 & ss2 & sv2 & above & E & Hv2 & Hn & ? & ?).
  { unfold room. rewrite length_app. cbn [length]. lia. }
  assert (named sv sv2 (above ++ [(savepoint_name (sv + 1), x)])) as Hn'.
  { apply Forall_app. split; [by apply (named_mono (sv + 1) sv sv2 sv2); [lia|lia|]|].
    apply Forall_singleton. exists (sv + 1). split; [done|lia]. }
  destruct keeps.
  - destruct (commit_nested d2 levels level (kept_callbacks inner) ids q (ss + 1) ss2 sv2 w
      (apply_writes (kept_writes inner) x) i above x sp (sv + 1) sv2) as (d3 & extra & Ec & Hv3 & Hex);
      [done|lia|done|lia|lia|].
    exists d3, ss2, sv2, extra. split_and!; try lia; [|done|].
    + unfold swallow, try_catch. erewrite transaction_ok; [done|exact Eb| |exact Ec].
      by rewrite (eff_bind_Ok _ _ _ _ _ E).
    + destruct Hex as [->| ->]; [apply Forall_nil_2|done].
  - destruct (rollback_nested d2 levels level (kept_callbacks inner) ids q (ss + 1) ss2 sv2 w
      (apply_writes (kept_writes inner) x) i above x sp (sv + 1) sv2) as (d3 & Ec & Hv3);
      [done|lia|done|lia|lia|].
    exists d3, ss2, sv2, [(savepoint_name (sv + 1), x)]. rewrite app_nil_r.
    split_and!; try lia; [|done|].
    + unfold swallow, try_catch. erewrite (transaction_throws _ _ _ _ abandoned); [done|exact Eb| |done|exact Ec].
      by rewrite (eff_bind_Ok _ _ _ _ _ E).
    + apply Forall_singleton. exists (sv + 1). split; [done|lia].
Qed.

Lemma perform_inside s d levels level ids q ss sv w x i sp :
  script_ok w s -> view d = (x, Some (i, sp)) -> room s ids ss sv ->
  resumes s d levels level ids q ss sv w x i sp.
Proof.
  revert d levels level ids q ss sv w x i sp.
  induction s as [|m cb rest IH|statement rest IH|keeps inner IHi rest IHr];
    intros d levels level ids q ss sv w x i sp Hok Hv (Hl & Hss & Hsv & Hsv2);
    cbn [script_ok scopes] in *.
  - exists d, ss, sv, []. cbn. rewrite app_nil_r. split_and!; [done|done|apply Forall_nil_2|lia..].
  - destruct Hok as [Hm Hok].
    destruct (resumes_continue rest d levels level ids q ss sv w x i sp m d (level ++ [cb]) ss sv
      [] [] 0) as (d' & ss' & sv' & extra & E & Hr); [|apply Forall_nil_2|lia|lia|
      apply IH; [done|done|unfold room; lia]|].
    { rewrite Hm by (cbn; lia). unfold after_commit, conn. cbn.
      rewrite (proj2 (Z.eqb_neq _ 0)), update_back_snoc by lia. done. }
    exists d', ss', sv', extra. cbn [perform kept_callbacks]. rewrite E, <-app_assoc. done.
  - destruct Hok as [Hord Hok].
    destruct (ordinary_sem d x (i, sp) statement Hord Hv) as (d1 & Hd & Hv1).
    apply (resumes_continue rest d levels level ids q ss sv w x i sp (execute statement) d1 level ss sv
      [statement] [] 0); [|apply Forall_nil_2|lia|lia|
      apply IH; [done|done|unfold room; lia]].
    unfold execute, call, conn. cbn. by rewrite Hd.
  - destruct Hok as [Hi Hr]. pose proof (scopes_nonneg inner). pose proof (scopes_nonneg rest).
    destruct (nested_scope keeps inner d levels level ids q ss sv w x i sp)
      as (d1 & ss1 & sv1 & extra1 & E1 & Hv1 & Hn1 & ? & ?); [done|lia|lia|lia|lia| |].
    { intros. by apply IHi. }
    destruct (resumes_continue rest d levels level ids q ss sv w x i sp _ d1 _ ss1 sv1
      (if keeps then kept_writes inner else []) extra1 (1 + scopes inner) E1 Hn1) as (d' & ss' & sv' & extra & E & Hr'); [lia|lia| |].
    { apply IHr; [done|done|]. unfold room. lia. }
    exists d', ss', sv', extra. cbn [perform kept_callbacks kept_writes]. rewrite E, <-app_assoc.
    done.
Qed.

(** *** The outermost transaction *)

(** Running the callbacks ends normally or with an exception. *)
Definition tame (callbacks : list (Callback W)) (w : W) : Prop :=
  match (run_callbacks callbacks None w).1 with
  | Ok _ => True
  | Throw e => catchable e = true
  | NoFuel => False
  end.

(** A connection outside of any transaction. *)
Definition idle d ss sv : Connection D W := mkConnection d [] 0 [] ss sv.

Lemma root_steps d ss sv w x :
  view d = (x, None) -> 0 <= ss -> ss + 1 < 2 ^ 64 ->
  exists d', begin_scope (idle d ss sv, w) =
    (Ok (mkToken true [] 1 (ss + 1)), (conn d' [] [] [] (ss + 1) (ss + 1) sv, w)) /\
    view d' = (x, Some (x, [])).
Proof.
  intros Hv Hs1 Hs2. destruct (begin_sem d x Hv) as (d' & Hd & Hv'). exists d'. split; [|done].
  unfold begin_scope, open_scope, connection, call, put, mbind, eff_bind, mret, eff_ret, idle, conn.
  cbn. rewrite Hd. cbn. by rewrite u64_small by lia.
Qed.

Lemma validate_root d level q ss sv w :
  0 < q -> validate_scope_token (mkToken true [] 1 q) (conn d [] level [] q ss sv, w) =
    (Ok (), (conn d [] level [] q ss sv, w)).
Proof.
  intros Hq. unfold validate_scope_token, connection, mbind, eff_bind, conn. cbn.
  by rewrite Z.eqb_refl, (proj2 (Z.eqb_neq q 0)) by lia.
Qed.

Lemma commit_root d level q ss sv w x t :
  0 < q -> view d = (x, Some t) ->
  exists d', commit_scope (mkToken true [] 1 q) (conn d [] level [] q ss sv, w) =
    ((run_callbacks level None w).1, (idle d' ss sv, (run_callbacks level None w).2)) /\
    view d' = (x, None).
Proof.
  intros Hq Hv. destruct (commit_sem d x t Hv) as (d' & Hd & Hv'). exists d'. split; [|done].
  unfold commit_scope. rewrite (eff_bind_Ok _ _ _ _ _ (validate_root _ _ _ _ _ _ Hq)).
  unfold call, connection, put, invoke, mbind, eff_bind. cbn. rewrite Hd. cbn. rewrite app_nil_r.
  unfold clear_scopes, idle. cbn. by destruct (run_callbacks level None w).
Qed.

Lemma rollback_root d level q ss sv w x i sp :
  0 < q -> view d = (x, Some (i, sp)) ->
  exists d', rollback_scope (mkToken true [] 1 q) (conn d [] level [] q ss sv, w) =
    (Ok (), (idle d' ss sv, w)) /\ view d' = (i, None).
Proof.
  intros Hq Hv. destruct (rollback_sem d x i sp Hv) as (d' & Hd & Hv'). exists d'. split; [|done].
  unfold rollback_scope. rewrite (eff_bind_Ok _ _ _ _ _ (validate_root _ _ _ _ _ _ Hq)).
  unfold call, connection, put, mbind, eff_bind. cbn. by rewrite Hd.
Qed.

(** The outcome of a transaction whose body is a script. *)
Lemma transaction_script s keeps d ss sv w x :
  script_ok w s -> tame (kept_callbacks s) w -> view d = (x, None) ->
  0 <= ss -> ss + (1 + scopes s) < 2 ^ 64 -> 0 <= sv -> sv + scopes s < 2 ^ 64 ->
  exists d' ss' sv',
    transaction (perform s;; conclude keeps) (idle d ss sv, w) =
      (if keeps then
         ((run_callbacks (kept_callbacks s) None w).1,
          (idle d' ss' sv', (run_callbacks (kept_callbacks s) None w).2))
       else (Throw abandoned, (idle d' ss' sv', w))) /\
    view d' = (if keeps then apply_writes (kept_writes s) x else x, None).
Proof.
  intros Hok Htame Hv Hs1 Hs2 Hv1 Hv2. pose proof (scopes_nonneg s).
  destruct (root_steps d ss sv w x Hv) as (d1 & Eb & Hview1); [lia|lia|].
  destruct (perform_inside s d1 [] [] [] (ss + 1) (ss + 1) sv w x x [] Hok Hview1)
    as (d2 & ss2 & sv2 & extra & E & Hview2 & _); [unfold room; cbn [length]; lia|].
  destruct keeps.
  - destruct (commit_root d2 (kept_callbacks s) (ss + 1) ss2 sv2 w _ _ ltac:(lia) Hview2)
      as (d3 & Ec & Hview3).
    exists d3, ss2, sv2. split; [|done].
    assert ((perform s;; conclude true) (conn d1 [] [] [] (ss + 1) (ss + 1) sv, w) =
      (Ok (), (conn d2 [] (kept_callbacks s) [] (ss + 1) ss2 sv2, w))) as Ebody
      by (by rewrite (eff_bind_Ok _ _ _ _ _ E)).
    unfold tame in Htame.
    destruct (run_callbacks (kept_callbacks s) None w) as [[[]|e|] w']; cbn [fst snd] in *; [| |done].
    + by rewrite (transaction_ok _ _ _ _ _ _ _ Eb Ebody Ec).
    + by rewrite (transaction_callback_throws _ _ _ _ _ _ _ _ Eb Ebody Htame Ec).
  - destruct (rollback_root d2 (kept_callbacks s) (ss + 1) ss2 sv2 w _ _ _ ltac:(lia) Hview2)
      as (d3 & Ec & Hview3).
    exists d3, ss2, sv2. split; [|done].
    eapply (transaction_throws _ _ _ _ abandoned); [exact Eb| |done|exact Ec].
    by rewrite (eff_bind_Ok _ _ _ _ _ E).
Qed.
End Atomicity.

(** ** Scopes are completed in order *)

Section Order.
Context {D W : Type} `{Database D}.
Abbreviation St := (Connection D W * W)%type.
Implicit Types (c : Connection D W) (t : TransactionToken).

(** Everything else that can be done to a connection, with any token. *)
Inductive Action :=
| Commit (t : TransactionToken)
| Rollback (t : TransactionToken)
| AfterCommit (callback : Callback W)
| Execute (statement : bytes).

Definition act (a : Action) : eff St unit :=
  match a with
  | Commit t => commit_scope t
  | Rollback t => rollback_scope t
  | AfterCommit callback => after_commit callback
  | Execute statement => execute statement
  end.

(** The states a connection can reach, with the tokens it has issued.  Operations may
    fail at any point. *)
Inductive reach : list TransactionToken -> St -> Prop :=
| reach_start d w : reach [] (mkConnection d [] 0 [] 0 0, w)
| reach_begin issued c w t st :
    reach issued (c, w) -> transaction_scope_sequence_ c + 1 < 2 ^ 64 ->
    begin_scope (c, w) = (Ok t, st) -> reach (t :: issued) st
| reach_begin_fails issued st r st' :
    reach issued st -> begin_scope st = (r, st') -> is_ok r = false -> reach issued st'
| reach_act issued st a r st' :
    reach issued st -> act a st = (r, st') -> reach issued st'.

Record ordered (issued : list TransactionToken) c : Prop := {
  ord_depth : transaction_depth_ c = Z.of_nat (length (transaction_scope_ids_ c));
  ord_levels : length (commit_callbacks_ c) = length (transaction_scope_ids_ c);
  ord_seq : 0 <= transaction_scope_sequence_ c < 2 ^ 64;
  ord_count : Z.of_nat (length (transaction_scope_ids_ c)) <= transaction_scope_sequence_ c;
  ord_ids : Forall (fun q => 0 < q <= transaction_scope_sequence_ c) (transaction_scope_ids_ c);
  ord_nodup : NoDup (transaction_scope_ids_ c);
  ord_issued t : t ∈ issued ->
    0 < scope_id t <= transaction_scope_sequence_ c /\
    forall k, transaction_scope_ids_ c !! k = Some (scope_id t) ->
      depth t = Z.of_nat k + 1 /\ root t = Nat.eqb k 0 /\ (root t = false -> savepoint t <> [])
}.

(** [ordered] only looks at the bookkeeping. *)
Lemma ordered_same issued c c' :
  length (commit_callbacks_ c') = length (commit_callbacks_ c) ->
  transaction_depth_ c' = transaction_depth_ c ->
  transaction_scope_ids_ c' = transaction_scope_ids_ c ->
  transaction_scope_sequence_ c' = transaction_scope_sequence_ c ->
  ordered issued c -> ordered issued c'.
Proof.
  intros E1 E2 E3 E4 [H1 H2 H3 H4 H5 H6 H7].
  split; rewrite ?E1, ?E2, ?E3, ?E4; done.
Qed.

Lemma ordered_clear issued c : ordered issued c -> ordered issued (clear_scopes c).
Proof.
  intros [H1 H2 H3 H4 H5 H6 H7]. split; cbn; try done; [lia|apply NoDup_nil_2|].
  intros t Ht. split; [by apply H7|]. intros k Hk. by rewrite lookup_nil in Hk.
Qed.

Lemma removelast_snoc {A} (l : list A) x : removelast (l ++ [x]) = l.
Proof. apply removelast_last. Qed.

Lemma ordered_drop issued c levels :
  ordered issued c -> length levels = (length (commit_callbacks_ c) - 1)%nat ->
  transaction_scope_ids_ c <> [] -> ordered issued (drop_scope levels c).
Proof.
  intros [H1 H2 H3 H4 H5 H6 H7] Hlev Hne.
  destruct (exists_last Hne) as (ids & q & E). rewrite E in *. rewrite length_app in *. cbn in *.
  apply Forall_app in H5 as [H5 _]. apply NoDup_app in H6 as [H6 _].
  split; cbn; rewrite ?E, ?removelast_snoc; try done; try lia.
  - rewrite H1, u64_small; lia.
  - intros t Ht. split; [by apply H7|]. intros k Hk. apply H7; [done|]. by apply lookup_app_l_Some.
Qed.

Lemma call_bookkeeping f c w r c' w' :
  call f (c, w) = (r, (c', w')) ->
  commit_callbacks_ c' = commit_callbacks_ c /\ transaction_depth_ c' = transaction_depth_ c /\
  transaction_scope_ids_ c' = transaction_scope_ids_ c /\
  transaction_scope_sequence_ c' = transaction_scope_sequence_ c /\
  savepoint_sequence_ c' = savepoint_sequence_ c.
Proof. unfold call. destruct (f (driver_ c)) as [r0 d]. by intros [= <- <- <-]. Qed.

Lemma ordered_call issued f c w r c' w' :
  call f (c, w) = (r, (c', w')) -> ordered issued c -> ordered issued c'.
Proof.
  intros (E1 & E2 & E3 & E4 & _)%call_bookkeeping. apply ordered_same; congruence.
Qed.

Lemma run_statement_ordered issued statement c w r c' w' :
  run_statement statement (c, w) = (r, (c', w')) ->
  ordered issued c -> transaction_scope_ids_ c <> [] ->
  ordered issued c' /\ transaction_scope_ids_ c' <> [].
Proof.
  intros E Ho Hne. destruct statement as [statement|]; [|by injection E as <- <- <-].
  split; [by apply (ordered_call issued) in E|].
  by apply call_bookkeeping in E as (_ & _ & -> & _).
Qed.

(** What [validate_scope_token] accepts. *)
Record accepted t c : Prop := {
  acc_innermost : last (transaction_scope_ids_ c) = Some (scope_id t);
  acc_depth : depth t = transaction_depth_ c;
  acc_open : transaction_depth_ c <> 0;
  acc_root : root t = (transaction_depth_ c =? 1)
}.

Lemma validate_cases t c w :
  validate_scope_token t (c, w) = (Ok (), (c, w)) /\ accepted t c \/
  exists what, validate_scope_token t (c, w) = (Throw (logic_error what), (c, w)).
Proof.
  unfold validate_scope_token, connection, mbind, eff_bind, throw, mret, eff_ret. cbn.
  destruct (last (transaction_scope_ids_ c)) as [q|] eqn:Hq; [|eauto].
  destruct (transaction_depth_ c =? 0) eqn:H0; [eauto|].
  destruct (_ || _) eqn:E; [eauto|]. destruct (_ && _); [eauto|]. left. reflect_bools.
  split; [done|]. split; [congruence|done|done|]. by apply eqb_prop.
Qed.

Lemma accepted_nonempty t c : accepted t c -> transaction_scope_ids_ c <> [].
Proof. intros [Hl _ _ _] E. by rewrite E in Hl. Qed.

Lemma finish_nested issued c w levels r c' w' :
  ordered issued c -> transaction_scope_ids_ c <> [] ->
  length levels = (length (commit_callbacks_ c) - 1)%nat ->
  put (drop_scope levels c) (c, w) = (r, (c', w')) -> ordered issued c'.
Proof. intros Ho Hne Hl [= <- <- <-]. by apply ordered_drop. Qed.

Lemma update_back_length {A} (f : A -> A) l l' : update_back f l = Some l' -> length l' = length l.
Proof.
  revert l'. induction l as [|x l IH]; intros l'; [done|]. cbn [update_back].
  destruct l as [|y l]; [by intros [= <-]|].
  destruct (update_back f (y :: l)) as [l1|]; cbn; intros [= <-]. cbn. by rewrite (IH l1 eq_refl).
Qed.

Lemma pop_back_length {A} (l l' : list A) x :
  pop_back l = Some (l', x) -> length l' = (length l - 1)%nat.
Proof.
  revert l'. induction l as [|y l IH]; intros l'; [done|]. cbn [pop_back].
  destruct (pop_back l) as [[front z]|] eqn:E; intros [= <- <-].
  - cbn. rewrite (IH front eq_refl). destruct l; cbn; [done|lia].
  - cbn. destruct l as [|z l]; [done|]. cbn in E. by destruct (pop_back l) as [[? ?]|].
Qed.

Lemma commit_scope_ordered issued t c w r c' w' :
  ordered issued c -> commit_scope t (c, w) = (r, (c', w')) -> ordered issued c'.
Proof.
  intros Ho. unfold commit_scope.
  destruct (validate_cases t c w) as [[E Ha]|[what E]];
    [rewrite (eff_bind_Ok _ _ _ _ _ E)|rewrite (eff_bind_Throw _ _ _ _ _ E); by intros [= <- <- <-]].
  pose proof (accepted_nonempty t c Ha) as Hne.
  unfold connection, invoke, mbind, eff_bind. destruct (root t).
  - destruct (call db_commit (c, w)) as [r1 [c1 w1]] eqn:E1.
    apply (ordered_call issued) in E1; [|done].
    destruct r1 as [u|e|]; [|by intros [= <- <- <-]..]. cbn.
    destruct (run_callbacks _ None w1). intros [= <- <- <-]. by apply ordered_clear.
  - cbn [fst]. destruct (run_statement _ (c, w)) as [r1 [c1 w1]] eqn:E1.
    destruct (run_statement_ordered issued _ _ _ _ _ _ E1 Ho Hne) as [Ho1 Hne1].
    destruct r1 as [u|e|]; [|by intros [= <- <- <-]..].
    cbn [fst]. unfold throw.
    destruct (pop_back (commit_callbacks_ c1)) as [[levels level]|] eqn:Ep; [|by intros [= <- <- <-]].
    destruct (update_back _ levels) as [levels'|] eqn:Eu; [|by intros [= <- <- <-]].
    apply finish_nested; [done|done|].
    by rewrite (update_back_length _ _ _ Eu), (pop_back_length _ _ _ Ep).
Qed.

Lemma rollback_scope_ordered issued t c w r c' w' :
  ordered issued c -> rollback_scope t (c, w) = (r, (c', w')) -> ordered issued c'.
Proof.
  intros Ho. unfold rollback_scope.
  destruct (validate_cases t c w) as [[E Ha]|[what E]];
    [rewrite (eff_bind_Ok _ _ _ _ _ E)|rewrite (eff_bind_Throw _ _ _ _ _ E); by intros [= <- <- <-]].
  pose proof (accepted_nonempty t c Ha) as Hne.
  unfold connection, mbind, eff_bind. destruct (root t).
  - destruct (call db_rollback (c, w)) as [r1 [c1 w1]] eqn:E1.
    apply (ordered_call issued) in E1; [|done].
    destruct r1 as [u|e|]; [|by intros [= <- <- <-]..].
    intros [= <- <- <-]. by apply ordered_clear.
  - cbn [fst]. destruct (run_statement _ (c, w)) as [r1 [c1 w1]] eqn:E1.
    destruct (run_statement_ordered issued _ _ _ _ _ _ E1 Ho Hne) as [Ho1 Hne1].
    destruct r1 as [u|e|]; [|by intros [= <- <- <-]..].
    cbn [fst]. unfold throw.
    destruct (pop_back (commit_callbacks_ c1)) as [[levels level]|] eqn:Ep; [|by intros [= <- <- <-]].
    apply finish_nested; [done|done|]. by rewrite (pop_back_length _ _ _ Ep).
Qed.

Lemma act_ordered issued a c w r c' w' :
  ordered issued c -> act a (c, w) = (r, (c', w')) -> ordered issued c'.
Proof.
  intros Ho. destruct a as [t|t|cb|s]; cbn [act].
  - by apply commit_scope_ordered.
  - by apply rollback_scope_ordered.
  - unfold after_commit. destruct (negb _).
    + destruct (update_back _ _) as [levels|] eqn:Eu; intros [= <- <- <-]; [|done].
      apply (ordered_same issued c); cbn; [by apply update_back_length in Eu|done..].
    + destruct (cb w). by intros [= <- <- <-].
  - intros E. by apply (ordered_call issued) in E.
Qed.

(** Opening a scope. *)
Lemma open_scope_ordered issued (is_root : bool) sp c w t c' w' :
  ordered issued c -> transaction_scope_sequence_ c + 1 < 2 ^ 64 ->
  is_root = (transaction_depth_ c =? 0) -> (is_root = false -> sp <> []) ->
  open_scope is_root sp (c, w) = (Ok t, (c', w')) -> ordered (t :: issued) c'.
Proof.
  intros [H1 H2 H3 H4 H5 H6 H7] Hs Hroot Hsp. unfold open_scope, connection, put, mbind, eff_bind. cbn.
  rewrite (u64_small (transaction_scope_sequence_ c + 1)) by lia. intros [= <- <- <-].
  set (q := transaction_scope_sequence_ c + 1) in *.
  assert (q ∉ transaction_scope_ids_ c) as Hfresh.
  { intros Hin. eapply Forall_forall in H5; [|done]. cbn in H5. lia. }
  assert ((if is_root then 1 else u64 (transaction_depth_ c + 1)) =
    Z.of_nat (length (transaction_scope_ids_ c)) + 1) as Hd.
  { rewrite Hroot, H1.
    destruct (Z.eqb_spec (Z.of_nat (length (transaction_scope_ids_ c))) 0); [lia|].
    rewrite u64_small; lia. }
  split; cbn; rewrite ?length_app; cbn; try lia.
  - apply Forall_app. split; [|by apply Forall_singleton; lia].
    eapply Forall_impl; [exact H5|]. cbn. intros. lia.
  - apply NoDup_app. split_and!; [done| |apply NoDup_singleton].
    intros x Hx ->%list_elem_of_singleton. done.
  - intros t [->|Ht]%elem_of_cons; cbn.
    + split; [lia|]. intros k Hk. apply lookup_app_Some in Hk as [Hk|[Hk1 Hk2]].
      { destruct Hfresh. by apply list_elem_of_lookup_2 in Hk. }
      apply list_lookup_singleton_Some in Hk2 as [Hk2 _]. rewrite Hd. split_and!; [lia| |done].
      rewrite Hroot, H1. destruct (Nat.eqb_spec k 0); [apply Z.eqb_eq|apply Z.eqb_neq]; lia.
    + destruct (H7 t Ht) as [Hb Hk]. split; [lia|]. intros k Hl.
      apply lookup_app_Some in Hl as [Hl|[_ Hl]]; [by apply Hk|].
      apply list_lookup_singleton_Some in Hl as [_ Hl]. lia.
Qed.

Lemma begin_scope_ordered issued c w r c' w' :
  ordered issued c -> begin_scope (c, w) = (r, (c', w')) ->
  match r with
  | Ok t => transaction_scope_sequence_ c + 1 < 2 ^ 64 -> ordered (t :: issued) c'
  | _ => ordered issued c'
  end.
Proof.
  intros Ho. unfold begin_scope, connection, mbind, eff_bind. cbn [fst].
  destruct (transaction_depth_ c =? 0) eqn:E0.
  - destruct (call db_begin (c, w)) as [r1 [c1 w1]] eqn:E1.
    pose proof (call_bookkeeping _ _ _ _ _ _ E1) as (_ & Hd & _ & Hs & _).
    apply (ordered_call issued) in E1; [|done].
    destruct r1 as [u|e|]; [|by intros [= <- <- <-]..]. intros E.
    destruct r as [t|e|]; [|done..]. intros Hlt.
    eapply (open_scope_ordered issued true []); [done|by rewrite Hs|by rewrite Hd|done|done].
  - destruct (negb _); [by intros [= <- <- <-]|].
    destruct (next_savepoint_name (c, w)) as [r0 [c0 w0]] eqn:En.
    assert (r0 = Ok (savepoint_name (savepoint_sequence_ c0)) /\ ordered issued c0 /\
      transaction_depth_ c0 = transaction_depth_ c /\
      transaction_scope_sequence_ c0 = transaction_scope_sequence_ c) as (-> & Ho0 & Hd0 & Hs0).
    { unfold next_savepoint_name, connection, put, mbind, eff_bind, mret, eff_ret in En. cbn in En.
      injection En as <- <- <-. split_and!; [done| |done|done]. by apply (ordered_same issued c). }
    destruct (savepoint_statement _ _) as [statement|];
      [|intros [= <- <- <-]; by apply (ordered_same issued c0)].
    destruct (call (db_execute statement) (c0, w0)) as [r1 [c1 w1]] eqn:E1.
    assert (ordered issued c1 /\ transaction_depth_ c1 = transaction_depth_ c /\
      transaction_scope_sequence_ c1 = transaction_scope_sequence_ c) as (Ho1 & Hd1 & Hs1).
    { split; [by apply (ordered_call issued) in E1|].
      apply call_bookkeeping in E1 as (_ & -> & _ & -> & _). done. }
    destruct r1 as [u|e|]; [|by intros [= <- <- <-]..]. intros E.
    destruct r as [t|e|]; [|done..]. intros Hlt.
    eapply (open_scope_ordered issued false); [done|by rewrite Hs1|by rewrite Hd1, E0| |exact E].
    intros _. apply savepoint_name_nonempty.
Qed.

Lemma reach_ordered issued st : reach issued st -> ordered issued st.1.
Proof.
  induction 1 as [d w|issued c w t [c' w'] _ IH Hs E|issued [c w] r [c' w'] _ IH E Hr
    |issued [c w] a r [c' w'] _ IH E]; cbn [fst] in *.
  - split; cbn; try done; [apply NoDup_nil_2|]. by intros t Ht%elem_of_nil.
  - by apply (begin_scope_ordered issued) in E; [apply E|].
  - apply (begin_scope_ordered issued) in E; [|done]. by destruct r.
  - by apply (act_ordered issued) in E.
Qed.

(** In a reachable state an issued token is accepted exactly while its scope is the
    innermost one. *)
Lemma issued_accepted issued t c w :
  ordered issued c -> t ∈ issued -> last (transaction_scope_ids_ c) = Some (scope_id t) ->
  validate_scope_token t (c, w) = (Ok (), (c, w)).
Proof.
  intros [H1 H2 H3 H4 H5 H6 H7] Ht Hl. destruct (H7 t Ht) as [Hpos Hk].
  apply last_Some in Hl as [ids E].
  destruct (Hk (length ids)) as (Hd & Hr & Hsp); [rewrite E; by apply list_lookup_middle|].
  assert (transaction_depth_ c = Z.of_nat (length ids) + 1) as Hdepth.
  { rewrite H1, E, length_app. cbn. lia. }
  unfold validate_scope_token, connection, mbind, eff_bind. cbn [fst].
  rewrite E, last_snoc, Hdepth, Hd, Hr, Z.eqb_refl, Z.eqb_refl.
  rewrite (proj2 (Z.eqb_neq _ 0)), (proj2 (Z.eqb_neq (scope_id t) 0)) by lia. cbn [negb orb].
  replace (Z.of_nat (length ids) + 1 =? 1) with (Nat.eqb (length ids) 0)
    by (destruct (Nat.eqb_spec (length ids) 0), (Z.eqb_spec (Z.of_nat (length ids) + 1) 1); lia || done).
  rewrite eqb_reflx, <-Hr. cbn [negb orb]. destruct (root t) eqn:Er; [done|].
  specialize (Hsp eq_refl). by destruct (savepoint t).
Qed.

Lemma stale_rejected t c w :
  last (transaction_scope_ids_ c) <> Some (scope_id t) ->
  exists what, validate_scope_token t (c, w) = (Throw (logic_error what), (c, w)).
Proof. intros Hl. by destruct (validate_cases t c w) as [[_ [Ha _ _ _]]|Hr]. Qed.

(** Completing a scope removes it. *)
Lemma run_statement_ids statement c w r c' w' :
  run_statement statement (c, w) = (r, (c', w')) ->
  transaction_scope_ids_ c' = transaction_scope_ids_ c.
Proof.
  destruct statement; cbn; [|by intros [= <- <- <-]].
  by intros (_ & _ & -> & _)%call_bookkeeping.
Qed.

Definition completed c c' : Prop :=
  transaction_scope_ids_ c' = [] \/
  transaction_scope_ids_ c' = removelast (transaction_scope_ids_ c).

Lemma commit_scope_completes t c w c' w' :
  commit_scope t (c, w) = (Ok (), (c', w')) -> accepted t c /\ completed c c'.
Proof.
  unfold commit_scope. destruct (validate_cases t c w) as [[E Ha]|[what E]];
    [rewrite (eff_bind_Ok _ _ _ _ _ E)|by rewrite (eff_bind_Throw _ _ _ _ _ E)].
  intros Em. split; [done|]. revert Em.
  unfold connection, invoke, throw, put, mbind, eff_bind. destruct (root t); cbn [fst].
  - destruct (call db_commit (c, w)) as [[u|e|] [c1 w1]]; [|done..]. cbn.
    destruct (run_callbacks _ None w1). intros [= _ <- _]. by left.
  - destruct (run_statement _ (c, w)) as [[u|e|] [c1 w1]] eqn:E1; [|done..]. cbn [fst].
    apply run_statement_ids in E1. destruct (pop_back _) as [[levels level]|]; [|done].
    destruct (update_back _ levels); [|done]. intros [= <- _]. right. cbn. by rewrite E1.
Qed.

Lemma rollback_scope_completes t c w c' w' :
  rollback_scope t (c, w) = (Ok (), (c', w')) -> accepted t c /\ completed c c'.
Proof.
  unfold rollback_scope. destruct (validate_cases t c w) as [[E Ha]|[what E]];
    [rewrite (eff_bind_Ok _ _ _ _ _ E)|by rewrite (eff_bind_Throw _ _ _ _ _ E)].
  intros Em. split; [done|]. revert Em.
  unfold connection, throw, put, mbind, eff_bind. destruct (root t); cbn [fst].
  - destruct (call db_rollback (c, w)) as [[u|e|] [c1 w1]]; [|done..]. intros [= <- _]. by left.
  - destruct (run_statement _ (c, w)) as [[u|e|] [c1 w1]] eqn:E1; [|done..]. cbn [fst].
    apply run_statement_ids in E1. destruct (pop_back _) as [[levels level]|]; [|done].
    intros [= <- _]. right. cbn. by rewrite E1.
Qed.

(** So the scope is not the innermost one any more. *)
Lemma completed_stale issued t c c' :
  ordered issued c -> accepted t c -> completed c c' ->
  last (transaction_scope_ids_ c') <> Some (scope_id t).
Proof.
  intros Ho [Hl _ _ _] [->| ->]; [done|]. apply last_Some in Hl as [ids Eids].
  pose proof (ord_nodup _ _ Ho) as Hnd. rewrite Eids in Hnd |- *. rewrite removelast_snoc.
  intros [ids' ->]%last_Some. apply NoDup_app in Hnd as (_ & Hnd & _).
  apply (Hnd (scope_id t)); set_solver.
Qed.
End Order.

(** ** A small database *)

Module Ledger.

(** The statements executed so far are the data; [ledger_open] is the start of the
    open transaction and its savepoints. *)
Record Ledger := mkLedger {
  ledger_data : list bytes;
  ledger_open : option (list bytes * list (bytes * list bytes))
}.

Fixpoint cut (n : bytes) (sp : list (bytes * list bytes))
    : option (list bytes * list (bytes * list bytes)) :=
  match sp with
  | [] => None
  | (m, y) :: below => if bool_decide (m = n) then Some (y, below) else cut n below
  end.

Definition no_savepoint : exn := runtime_error "no such savepoint".

Definition ledger_execute (s : bytes) (d : Ledger) : result unit * Ledger :=
  match ledger_open d with
  | None => (Ok (), mkLedger (ledger_data d ++ [s]) None)
  | Some (i, sp) =>
      match strip (lit "SAVEPOINT ") s, strip (lit "RELEASE SAVEPOINT ") s,
            strip (lit "ROLLBACK TO SAVEPOINT ") s with
      | Some n, _, _ => (Ok (), mkLedger (ledger_data d) (Some (i, (n, ledger_data d) :: sp)))
      | _, Some n, _ =>
          match cut n sp with
          | Some (_, below) => (Ok (), mkLedger (ledger_data d) (Some (i, below)))
          | None => (Throw no_savepoint, d)
          end
      | _, _, Some n =>
          match cut n sp with
          | Some (y, below) => (Ok (), mkLedger y (Some (i, (n, y) :: below)))
          | None => (Throw no_savepoint, d)
          end
      | _, _, _ => (Ok (), mkLedger (ledger_data d ++ [s]) (Some (i, sp)))
      end
  end.

#[export] Instance ledger_database : Database Ledger := {|
  backend := fun _ => postgresql;
  supports_savepoints := fun _ => true;
  db_execute := ledger_execute;
  db_begin := fun d => (Ok (), mkLedger (ledger_data d) (Some (ledger_data d, [])));
  db_commit := fun d => (Ok (), mkLedger (ledger_data d) None);
  db_rollback := fun d =>
    (Ok (), match ledger_open d with Some (i, _) => mkLedger i None | None => d end)
|}.

Lemma cut_found n above y below : n ∉ above.*1 -> cut n (above ++ (n, y) :: below) = Some (y, below).
Proof.
  induction above as [|[m z] above IH]; cbn; intros Hn.
  - by rewrite bool_decide_eq_true_2.
  - apply not_elem_of_cons in Hn as [Hne Hn]. rewrite bool_decide_eq_false_2 by congruence. by apply IH.
Qed.

Lemma release_executed n data i sp :
  ledger_execute (lit "RELEASE SAVEPOINT " ++ n) (mkLedger data (Some (i, sp))) =
  match cut n sp with
  | Some (_, below) => (Ok (), mkLedger data (Some (i, below)))
  | None => (Throw no_savepoint, mkLedger data (Some (i, sp)))
  end.
Proof. reflexivity. Qed.

Lemma rollback_executed n data i sp :
  ledger_execute (lit "ROLLBACK TO SAVEPOINT " ++ n) (mkLedger data (Some (i, sp))) =
  match cut n sp with
  | Some (y, below) => (Ok (), mkLedger y (Some (i, (n, y) :: below)))
  | None => (Throw no_savepoint, mkLedger data (Some (i, sp)))
  end.
Proof. reflexivity. Qed.

#[export] Program Instance ledger_sql : SqlDatabase Ledger (list bytes) := {|
  view d := (ledger_data d, ledger_open d);
  sql := postgresql;
  ordinary s := strip (lit "SAVEPOINT ") s = None /\ strip (lit "RELEASE SAVEPOINT ") s = None /\
                strip (lit "ROLLBACK TO SAVEPOINT ") s = None;
  effect s x := x ++ [s]
|}.
Next Obligation. done. Qed.
Next Obligation. done. Qed.
Next Obligation. done. Qed.
Next Obligation. intros [data open] x [= -> ->]. by eexists. Qed.
Next Obligation. intros [data open] x t [= -> ->]. by eexists. Qed.
Next Obligation. intros [data open] x i sp [= -> ->]. by eexists. Qed.
Next Obligation.
  intros [data open] x [i sp] s (H1 & H2 & H3) [= -> ->]. cbn. unfold ledger_execute. cbn [ledger_open].
  rewrite H1, H2, H3. by eexists.
Qed.
Next Obligation. intros [data open] x i sp n s [= <-] [= -> ->]. by eexists. Qed.
Next Obligation.
  intros [data open] x i above n y below s [= <-] [= -> ->] Hn.
  pose proof (release_executed n x i (above ++ (n, y) :: below)) as E.
  rewrite cut_found in E by done. eexists. by split; [exact E|].
Qed.
Next Obligation.
  intros [data open] x i above n y below s [= <-] [= -> ->] Hn.
  pose proof (rollback_executed n x i (above ++ (n, y) :: below)) as E.
  rewrite cut_found in E by done. eexists. by split; [exact E|].
Qed.
End Ledger.
Import Ledger.

(** ** Theorems *)

Definition note (s : string) : Callback (list bytes) := fun w => (Ok (), w ++ [lit s]).
Definition remember (s : string) : Script Ledger (list bytes) -> Script Ledger (list bytes) :=
  Register (after_commit (note s)) (note s).

(** Writes and callbacks, with one scope that is kept and one that is given up. *)
Definition example_script : Script Ledger (list bytes) :=
  Write (lit "a") (remember "A"
    (Nested true (Write (lit "b") (remember "B" (Nested false (Write (lit "c") (remember "C" Done)) Done)))
       (Write (lit "d") Done))).

(** C3. Nested transactions are atomic.  On a database that behaves as documented, a
    transaction whose body ends normally applies, in order, exactly the writes of
    the scopes that were kept, and then runs exactly their callbacks, in order; the
    result is the first exception of a callback, if any, which undoes nothing.  If
    the body throws, the data and the application are as before.  In both cases
    the connection is outside of any transaction afterwards. *)
Theorem transaction_atomic {D W Data} `{SqlDatabase D Data} (s : Script D W) (keeps : bool)
    d ss sv w x :
  script_ok w s -> tame (kept_callbacks s) w -> view d = (x, None) ->
  0 <= ss -> ss + (1 + scopes s) < 2 ^ 64 -> 0 <= sv -> sv + scopes s < 2 ^ 64 ->
  exists d' ss' sv',
    transaction (perform s;; conclude keeps) (idle d ss sv, w) =
      (if keeps then
         ((run_callbacks (kept_callbacks s) None w).1,
          (idle d' ss' sv', (run_callbacks (kept_callbacks s) None w).2))
       else (Throw abandoned, (idle d' ss' sv', w))) /\
    view d' = (if keeps then apply_writes (kept_writes s) x else x, None).
Proof. apply transaction_script. Qed.

Lemma transaction_atomic_witness :
  exists d' ss' sv',
    transaction (perform example_script;; conclude true) (idle (mkLedger [] None) 0 0, []) =
      (Ok (), (idle d' ss' sv', [lit "A"; lit "B"])) /\
    view d' = ([lit "a"; lit "b"; lit "d"], None).
Proof.
  destruct (transaction_atomic (Data := list bytes) example_script true (mkLedger [] None) 0 0 []
    ([] : list bytes)) as (d' & ss' & sv' & E & V).
  - cbn. repeat split.
  - exact I.
  - reflexivity.
  - lia.
  - reflexivity.
  - lia.
  - reflexivity.
  - exists d', ss', sv'. split; [exact E|exact V].
Defined.

(** Scopes are completed in order, whatever fails.  In every state a connection can
    reach, a token it has issued passes the check exactly while its scope is the
    innermost open one; otherwise [commit_scope] and [rollback_scope] throw
    [std::logic_error] and change nothing.  Once a scope is completed its token is
    refused for good: it is not the innermost one in the state that follows. *)
Theorem scopes_in_order {D W} `{Database D} issued (c : Connection D W) w t :
  reach issued (c, w) -> t ∈ issued ->
  (last (transaction_scope_ids_ c) = Some (scope_id t) ->
   validate_scope_token t (c, w) = (Ok (), (c, w))) /\
  (last (transaction_scope_ids_ c) <> Some (scope_id t) -> exists what,
   commit_scope t (c, w) = (Throw (logic_error what), (c, w)) /\
   rollback_scope t (c, w) = (Throw (logic_error what), (c, w))) /\
  (forall c' w', commit_scope t (c, w) = (Ok (), (c', w')) \/
                 rollback_scope t (c, w) = (Ok (), (c', w')) ->
   last (transaction_scope_ids_ c') <> Some (scope_id t)).
Proof.
  intros Hr Ht. pose proof (reach_ordered issued (c, w) Hr) as Ho. cbn in Ho. split_and!.
  - by apply (issued_accepted issued).
  - intros Hl. destruct (stale_rejected t c w Hl) as [what E]. exists what.
    unfold commit_scope, rollback_scope. by rewrite !(eff_bind_Throw _ _ _ _ _ E).
  - intros c' w' [E|E]; [apply commit_scope_completes in E|apply rollback_scope_completes in E];
      destruct E; by apply (completed_stale issued t c).
Qed.

Definition fresh_connection : Connection Ledger (list bytes) := mkConnection (mkLedger [] None) [] 0 [] 0 0.
Definition outer_token : TransactionToken := mkToken true [] 1 1.
Definition two_scopes : Connection Ledger (list bytes) :=
  mkConnection (mkLedger [] (Some ([], [(savepoint_name 1, [])]))) [[]; []] 2 [1; 2] 2 1.

Lemma scopes_in_order_witness :
  exists what, commit_scope outer_token (two_scopes, []) = (Throw (logic_error what), (two_scopes, [])).
Proof.
  destruct (scopes_in_order [mkToken false (savepoint_name 1) 2 2; outer_token] two_scopes [] outer_token)
    as (_ & Hstale & _).
  - apply (reach_begin _ (mkConnection (mkLedger [] (Some ([], []))) [[]] 1 [1] 1 0) []);
      [|reflexivity|reflexivity].
    apply (reach_begin [] fresh_connection []); [apply reach_start|reflexivity|reflexivity].
  - right. left.
  - destruct Hstale as (what & E & _); [discriminate|]. exists what. exact E.
Defined.
