(* ===== verification/Dispatcher.v ===== *)
(** * Dispatching jobs ([include/gungnir/queue/dispatcher.hpp], [service.hpp])

    The dispatcher wraps a job in an envelope and publishes it to a queue driver: at
    once, or, inside a transaction, as a callback that runs after the commit.  The
    application's state is what a callback sees: the ambient clock and trace context,
    and the queue.

    Jobs dispatched inside transactions reach the queue exactly when they commit

    Composition of the dispatcher, the transaction scopes of a connection and any
    queue driver that keeps the contract [LawfulDriver]. *)

From S2P Require Import Prelude Json Queue Transaction TransactionFacts.

(** A job as the virtual functions [name] and [payload] show it. *)
Record Job := mkJob { job_name : bytes; job_payload : bytes }.

Section Dispatcher.
Context {D Q : Type} `{Database D} `{Driver Q}.
Abbreviation World := (Ambient * Q)%type.
Abbreviation State := (Connection D World * World)%type.

(** The lambda [publish]. *)
Definition publish (envelope : Envelope) (delay : Z) : Callback World := fun '(env, q) =>
  let '(r, q) := push_later env envelope delay q in (r, (env, q)).

(** The envelope; [fresh] is [security::random_token()]. *)
Definition envelope_of (env : Ambient) (fresh : bytes) (job : Job) (tries : Z) : Envelope :=
  inherit_trace env (mkEnvelope fresh (job_name job) (job_payload job) 0 tries [] [] []).

(** [dispatch_later]; [current] says whether the connection of the state is the one
    [database::runtime::current()] returns. *)
Definition dispatch_later (current : bool) (fresh : bytes) (job : Job) (delay tries : Z)
    (wait_for_commit : bool) : eff State bytes := fun '(c, (env, q)) =>
  if delay <? 0
  then (Throw (invalid_argument "Job delay must not be negative"), (c, (env, q)))
  else if tries =? 0
  then (Throw (invalid_argument "Job attempts must be positive"), (c, (env, q)))
  else
    let envelope := envelope_of env fresh job tries in
    let published :=
      if wait_for_commit && current && in_transaction c
      then after_commit (publish envelope delay) (c, (env, q))
      else let '(r, w) := publish envelope delay (env, q) in (r, (c, w)) in
    let '(r, st) := published in ((fun _ => id envelope) <$> r, st).

Definition dispatch (current : bool) (fresh : bytes) (job : Job) (tries : Z) (wait_for_commit : bool)
    : eff State bytes := dispatch_later current fresh job 0 tries wait_for_commit.

(** ** The service *)

(** [Service::max_attempts]: the conversion of the [Int64] of the language. *)
Definition service_attempts (value : Z) : result Z :=
  if (value <=? 0) || (2 ^ 32 - 1 <? u64 value)
  then Throw (invalid_argument "Job attempts are out of range") else Ok (u32 value).

(** [Service::delay]: the delay must end before the last instant of the clock.  The
    source compares milliseconds in [long double], which holds both sides exactly
    enough for the comparison of the nanoseconds. *)
Definition service_delay (at_time value : Z) : result Z :=
  if (value <? 0) || (INT64_MAX - at_time <=? value * 1000000)
  then Throw (invalid_argument "Job delay is out of range") else Ok value.

Definition service_dispatch (current : bool) (fresh : bytes) (job : Job) (tries : Z)
    (wait_for_commit : bool) : eff State bytes := fun st =>
  match service_attempts tries with
  | Ok n => dispatch current fresh job n wait_for_commit st
  | Throw e => (Throw e, st)
  | NoFuel => (NoFuel, st)
  end.

(** C++ leaves the order in which the two arguments are checked open; either check
    throws the same type. *)
Definition service_later (current : bool) (fresh : bytes) (job : Job) (milliseconds tries : Z)
    (wait_for_commit : bool) : eff State bytes := fun '(c, (env, q)) =>
  match service_delay (now env) milliseconds ≫= fun delay =>
        service_attempts tries ≫= fun n => Ok (delay, n) with
  | Ok (delay, n) => dispatch_later current fresh job delay n wait_for_commit (c, (env, q))
  | Throw e => (Throw e, (c, (env, q)))
  | NoFuel => (NoFuel, (c, (env, q)))
  end.

(** The failed jobs as a JSON array. *)
Definition failed_entry (job : Envelope) : Json :=
  JObject [(lit "id", JString (id job)); (lit "name", JString (name job));
           (lit "attempts", JUInt (attempts job)); (lit "maxAttempts", JUInt (max_attempts job))].

Definition service_failed (q : Q) : result Json * Q :=
  let '(r, q) := failed_jobs q in ((fun jobs => JArray (map failed_entry jobs)) <$> r, q).

Definition service_retry (job_id : bytes) (q : Q) : result bool * Q := retry_failed job_id q.
Definition service_forget (job_id : bytes) (q : Q) : result bool * Q := forget_failed job_id q.
End Dispatcher.

Import Memory Ledger.

Section Plans.
Context {D Q Data : Type} `{SqlDatabase D Data} `{LawfulDriver Q}.
Abbreviation World := (Ambient * Q)%type.
Abbreviation St := (Connection D World * World)%type.

(** What an application does inside a transaction: dispatch jobs, write, nest. *)
Inductive Plan :=
| PDone
| PDispatch (fresh : bytes) (job : Job) (delay tries : Z) (rest : Plan)
| PWrite (statement : bytes) (rest : Plan)
| PNested (keeps : bool) (inner rest : Plan).

Fixpoint plan_script (env : Ambient) (p : Plan) : Script D World :=
  match p with
  | PDone => Done
  | PDispatch fresh job delay tries rest =>
      Register (dispatch_later true fresh job delay tries true;; mret ())
        (publish (envelope_of env fresh job tries) delay) (plan_script env rest)
  | PWrite statement rest => Write statement (plan_script env rest)
  | PNested keeps inner rest => Nested keeps (plan_script env inner) (plan_script env rest)
  end.

(** The jobs of the scopes that are kept, with their delays, in order. *)
Fixpoint kept_jobs (env : Ambient) (p : Plan) : list (Envelope * Z) :=
  match p with
  | PDone => []
  | PDispatch fresh job delay tries rest =>
      (envelope_of env fresh job tries, delay) :: kept_jobs env rest
  | PWrite _ rest => kept_jobs env rest
  | PNested keeps inner rest => (if keeps then kept_jobs env inner else []) ++ kept_jobs env rest
  end.

Fixpoint plan_ok (p : Plan) : Prop :=
  match p with
  | PDone => True
  | PDispatch _ _ delay tries rest => 0 <= delay /\ tries <> 0 /\ plan_ok rest
  | PWrite statement rest => ordinary statement /\ plan_ok rest
  | PNested _ inner rest => plan_ok inner /\ plan_ok rest
  end.

(** The queue takes every job it is offered. *)
Definition accepts (env : Ambient) (jobs : list (Envelope * Z)) : Prop :=
  forall j delay, (j, delay) ∈ jobs -> forall q : Q, exists q', push_later env j delay q = (Ok (), q').

Lemma dispatch_registers (env : Ambient) (q : Q) fresh job delay tries :
  0 <= delay -> tries <> 0 ->
  registers (D := D) (env, q) (dispatch_later true fresh job delay tries true;; mret ())
    (publish (envelope_of env fresh job tries) delay).
Proof.
  intros Hd Ht c Hc. unfold dispatch_later, mbind, eff_bind, mret, eff_ret.
  rewrite (proj2 (Z.ltb_ge _ _)), (proj2 (Z.eqb_neq _ _)) by done.
  unfold in_transaction. rewrite (proj2 (Z.eqb_neq _ _)) by done. cbn [negb andb].
  unfold after_commit. rewrite (proj2 (Z.eqb_neq _ _)) by done. cbn [negb].
  by destruct (update_back _ _).
Qed.

Lemma plan_script_ok env q p : plan_ok p -> script_ok (env, q) (plan_script env p).
Proof.
  induction p; cbn; [done|intros (? & ? & ?)|intros (? & ?)|intros (? & ?)]; auto.
  split; [by apply dispatch_registers|auto].
Qed.

Lemma plan_callbacks env p :
  kept_callbacks (plan_script env p) = map (fun x => publish (Q := Q) x.1 x.2) (kept_jobs env p).
Proof.
  induction p as [|fresh job delay tries rest IH|s rest IH|[] inner IHi rest IHr]; cbn; try done.
  - by rewrite IH.
  - by rewrite IHi, IHr, map_app.
Qed.

(** Pushing accepted jobs one after the other. *)
Lemma run_publish (env : Ambient) jobs (q : Q) :
  accepts env jobs ->
  exists q', run_callbacks (map (fun x => publish (Q := Q) x.1 x.2) jobs) None (env, q) =
    (Ok (), (env, q')) /\
    pool q' ≡ mkPool (map (fun x => core x.1) jobs ++ alive (pool q)) (buried (pool q)).
Proof.
  revert q. induction jobs as [|[j delay] jobs IH]; intros q Hacc; cbn [map run_callbacks].
  { by exists q. }
  destruct (Hacc j delay ltac:(left) q) as [q1 E]. cbn [publish fst snd]. rewrite E.
  destruct (IH q1) as (q' & E' & Hp). { intros j' d' Hin. apply Hacc. by right. }
  exists q'. split; [done|]. rewrite Hp. apply push_later_law in E as [Ea Eb].
  split; cbn; [|done]. rewrite Ea. cbn. by rewrite <-Permutation_middle.
Qed.
End Plans.

(** ** Theorems *)

Definition example_plan : Plan :=
  PWrite (lit "insert user")
    (PDispatch (lit "1") (mkJob (lit "welcome") []) 0 3
       (PNested false (PDispatch (lit "2") (mkJob (lit "bill") []) 0 1 PDone)
          (PNested true (PDispatch (lit "3") (mkJob (lit "audit") []) 5 1 PDone) PDone))).

(** C30. Jobs dispatched inside a transaction are published exactly when the scopes
    they were dispatched in are kept and the outermost transaction commits: then the
    queue holds what it held before and those jobs, and the database the writes of
    the same scopes.  If the transaction is given up, queue and data are as before. *)
Theorem dispatched_with_commit {D Q Data} `{SqlDatabase D Data} `{LawfulDriver Q}
    (p : Plan) (keeps : bool) d ss sv (env : Ambient) (q : Q) x :
  let s := plan_script (D := D) (Q := Q) env p in
  plan_ok (D := D) (Data := Data) p -> accepts (Q := Q) env (kept_jobs env p) -> view d = (x, None) ->
  0 <= ss -> ss + (1 + scopes s) < 2 ^ 64 -> 0 <= sv -> sv + scopes s < 2 ^ 64 ->
  exists d' ss' sv' q',
    transaction (perform s;; conclude keeps) (idle d ss sv, (env, q)) =
      (if keeps then Ok () else Throw abandoned, (idle d' ss' sv', (env, q'))) /\
    if keeps then
      pool q' ≡ mkPool (map (fun x => core x.1) (kept_jobs env p) ++ alive (pool q)) (buried (pool q)) /\
      view d' = (apply_writes (kept_writes s) x, None)
    else q' = q /\ view d' = (x, None).
Proof.
  intros s Hp Hacc Hv Hss1 Hss2 Hsv1 Hsv2.
  destruct (run_publish env (kept_jobs env p) q Hacc) as (q' & E & Hpool).
  destruct (transaction_script s keeps d ss sv (env, q) x) as (d' & ss' & sv' & Et & Hv');
    [by apply plan_script_ok| |done..|].
  { unfold tame, s. by rewrite plan_callbacks, E. }
  exists d', ss', sv', (if keeps then q' else q). rewrite Et. destruct keeps; [|done].
  unfold s at 1 2. rewrite plan_callbacks, E. done.
Qed.

Lemma dispatched_with_commit_witness :
  let s := plan_script (D := Ledger) (Q := MemoryDriver) (quiet_at 0) example_plan in
  exists d' ss' sv' q',
    transaction (perform s;; conclude true)
      (idle (mkLedger [] None) 0 0, (quiet_at 0, empty_driver)) =
      (Ok (), (idle d' ss' sv', (quiet_at 0, q'))) /\
    memory_pool q' ≡ mkPool [mkEnvelope (lit "1") (lit "welcome") [] 0 3 [] [] [];
                             mkEnvelope (lit "3") (lit "audit") [] 0 1 [] [] []] [] /\
    ledger_data d' = [lit "insert user"].
Proof.
  destruct (dispatched_with_commit (H0 := ledger_sql) (H2 := memory_lawful) example_plan true
    (mkLedger [] None) 0 0 (quiet_at 0) empty_driver []) as (d' & ss' & sv' & q' & E & P & V).
  - repeat split; discriminate.
  - intros j delay [[= -> ->]|[[= -> ->]|Hin%elem_of_nil]%elem_of_cons]%elem_of_cons q;
      [eexists; reflexivity..|destruct Hin].
  - reflexivity.
  - lia.
  - reflexivity.
  - lia.
  - reflexivity.
  - exists d', ss', sv', q'. split; [exact E|]. split; [exact P|]. exact (f_equal fst V).
Defined.
