(* ===== verification/Lock.v ===== *)
(** * Lock stores of the scheduler ([include/gungnir/scheduler/lock.hpp])

    A lock store hands out leases on keys that end after a time to live.  The
    interface is the type class [LockStore]; the in-memory store keeps an entry per
    key and numbers the owners.  Its operations hold a mutex and read the steady
    clock, which is their first argument.

    Lock stores: mutual exclusion

    [LawfulLocks] is what a lock store promises its clients; the in-memory store
    keeps it. *)

From S2P Require Import Prelude Numeral.

Record LockLease := mkLease { key : bytes; owner : bytes }.

#[export] Instance LockLease_eq_dec : EqDecision LockLease.
Proof. solve_decision. Defined.

Class LockStore (L : Type) := {
  acquire : Z -> bytes -> Z -> L -> result (option LockLease) * L;
  renew : Z -> LockLease -> Z -> L -> result bool * L;
  release : Z -> LockLease -> L -> result bool * L
}.

(** ** The in-memory store *)

Record Entry := mkEntry { entry_owner : bytes; expires_at : Z }.

Record MemoryLockStore := mkLocks { locks_ : gmap bytes Entry; next_owner_ : Z }.

Definition empty_locks : MemoryLockStore := mkLocks ∅ 1.

Definition validate (k : bytes) (ttl : Z) : result unit :=
  match k with
  | [] => Throw (invalid_argument "Scheduler lock key must not be empty")
  | _ =>
      if ttl <=? 0 then Throw (invalid_argument "Scheduler lock TTL must be greater than zero")
      else Ok ()
  end.

(** The owner counter is advanced before the expiry is computed. *)
Definition memory_acquire (now : Z) (k : bytes) (ttl : Z) (s : MemoryLockStore)
    : result (option LockLease) * MemoryLockStore :=
  match validate k ttl with
  | Throw e => (Throw e, s)
  | NoFuel => (NoFuel, s)
  | Ok _ =>
      let held := match locks_ s !! k with Some e => expires_at e >? now | None => false end in
      if held then (Ok None, s)
      else
        let o := to_string (next_owner_ s) in
        let next := u64 (next_owner_ s + 1) in
        match plus_ms now ttl with
        | Ok expiry => (Ok (Some (mkLease k o)), mkLocks (<[k := mkEntry o expiry]> (locks_ s)) next)
        | Throw e => (Throw e, mkLocks (locks_ s) next)
        | NoFuel => (NoFuel, s)
        end
  end.

(** The entry of the lease, if the lease owns it. *)
Definition owned (lease : LockLease) (s : MemoryLockStore) : option Entry :=
  match locks_ s !! key lease with
  | Some e => if bool_decide (entry_owner e = owner lease) then Some e else None
  | None => None
  end.

(** The source reads the clock twice, before and after the check; both readings are
    one instant here. *)
Definition memory_renew (now : Z) (lease : LockLease) (ttl : Z) (s : MemoryLockStore)
    : result bool * MemoryLockStore :=
  match validate (key lease) ttl with
  | Throw e => (Throw e, s)
  | NoFuel => (NoFuel, s)
  | Ok _ =>
      match owned lease s with
      | None => (Ok false, s)
      | Some e =>
          if expires_at e <=? now then (Ok false, s)
          else
            match plus_ms now ttl with
            | Ok expiry =>
                (Ok true, mkLocks (<[key lease := mkEntry (entry_owner e) expiry]> (locks_ s))
                            (next_owner_ s))
            | Throw ex => (Throw ex, s)
            | NoFuel => (NoFuel, s)
            end
      end
  end.

Definition memory_release (now : Z) (lease : LockLease) (s : MemoryLockStore)
    : result bool * MemoryLockStore :=
  match owned lease s with
  | None => (Ok false, s)
  | Some e =>
      (Ok (expires_at e >? now), mkLocks (delete (key lease) (locks_ s)) (next_owner_ s))
  end.

Definition locked (now : Z) (k : bytes) (s : MemoryLockStore) : bool :=
  match locks_ s !! k with Some e => expires_at e >? now | None => false end.

#[export] Instance memory_lock_store : LockStore MemoryLockStore := {|
  acquire := memory_acquire;
  renew := memory_renew;
  release := memory_release
|}.

#[export] Instance holder_decision (h : option (bytes * Z)) (o : bytes) :
  Decision (exists e, h = Some (o, e)).
Proof.
  destruct h as [[o' e]|]; [|right; by intros [? ?]].
  destruct (decide (o' = o)) as [->|Hne]; [left; by exists e|right; by intros [? [= ? ?]]].
Defined.

(** ** The contract

    [holder s k] is the owner of the last lease on [k] and the time it ends. *)
Class LawfulLocks (L : Type) `{LockStore L} := {
  holder : L -> bytes -> option (bytes * Z);
  acquire_law t k ttl s r s' : acquire t k ttl s = (r, s') ->
    match r with
    | Ok None => s' = s /\ exists o e, holder s k = Some (o, e) /\ t < e
    | Ok (Some l) =>
        key l = k /\ 0 < ttl /\ holder s' k = Some (owner l, t + ttl * 1000000) /\
        (forall o e, holder s k = Some (o, e) -> e <= t) /\
        forall k', k' <> k -> holder s' k' = holder s k'
    | _ => forall k', holder s' k' = holder s k'
    end;
  renew_law t l ttl s r s' : renew t l ttl s = (r, s') ->
    match r with
    | Ok true =>
        (exists e, holder s (key l) = Some (owner l, e) /\ t < e) /\
        holder s' (key l) = Some (owner l, t + ttl * 1000000) /\
        forall k', k' <> key l -> holder s' k' = holder s k'
    | _ => s' = s
    end;
  release_law t l s r s' : release t l s = (r, s') ->
    (forall k', k' <> key l -> holder s' k' = holder s k') /\
    if decide (exists e, holder s (key l) = Some (owner l, e))
    then holder s' (key l) = None else s' = s
}.

(** ** The in-memory store *)

Definition memory_holder (s : MemoryLockStore) (k : bytes) : option (bytes * Z) :=
  (fun e => (entry_owner e, expires_at e)) <$> locks_ s !! k.

Lemma plus_ms_inv start delay r : plus_ms start delay = Ok r -> r = start + delay * 1000000.
Proof. unfold plus_ms. destruct (_ || _); [done|]. by intros [= <-]. Qed.

Lemma memory_holder_insert s k e n k' :
  memory_holder (mkLocks (<[k := e]> (locks_ s)) n) k' =
  if decide (k' = k) then Some (entry_owner e, expires_at e) else memory_holder s k'.
Proof.
  unfold memory_holder. cbn. destruct (decide (k' = k)) as [->|Hne].
  - by rewrite lookup_insert_eq.
  - by rewrite lookup_insert_ne.
Qed.

Lemma validate_positive k ttl u : validate k ttl = Ok u -> 0 < ttl.
Proof. unfold validate. destruct k; [done|]. destruct (ttl <=? 0) eqn:E; [done|]. by reflect_bools. Qed.

Lemma memory_acquire_law t k ttl s r s' : memory_acquire t k ttl s = (r, s') ->
  match r with
  | Ok None => s' = s /\ exists o e, memory_holder s k = Some (o, e) /\ t < e
  | Ok (Some l) =>
      key l = k /\ 0 < ttl /\ memory_holder s' k = Some (owner l, t + ttl * 1000000) /\
      (forall o e, memory_holder s k = Some (o, e) -> e <= t) /\
      forall k', k' <> k -> memory_holder s' k' = memory_holder s k'
  | _ => forall k', memory_holder s' k' = memory_holder s k'
  end.
Proof.
  unfold memory_acquire. destruct (validate k ttl) as [u|e|] eqn:Ev; [|by intros [= <- <-]..].
  apply validate_positive in Ev.
  destruct (match locks_ s !! k with Some e => _ | None => _ end) eqn:Eh.
  - intros [= <- <-]. split; [done|]. unfold memory_holder.
    destruct (locks_ s !! k) as [e|]; [|done]. exists (entry_owner e), (expires_at e).
    split; [done|]. apply Z.gtb_lt in Eh. lia.
  - destruct (plus_ms t ttl) as [x|e|] eqn:Ep; intros [= <- <-]; [|done..].
    apply plus_ms_inv in Ep. split_and!; [done|done| | |]; cbn [key owner].
    + rewrite memory_holder_insert, decide_True by done. cbn. by rewrite Ep.
    + intros o e. unfold memory_holder. destruct (locks_ s !! k) as [en|]; [|done].
      intros [= <- <-]. rewrite Z.gtb_ltb in Eh. by apply Z.ltb_ge in Eh.
    + intros k' Hk. by rewrite memory_holder_insert, decide_False.
Qed.

Lemma owned_Some l s e :
  owned l s = Some e <-> locks_ s !! key l = Some e /\ entry_owner e = owner l.
Proof.
  unfold owned. destruct (locks_ s !! key l) as [e'|]; [|naive_solver].
  case_bool_decide; naive_solver.
Qed.

Lemma memory_renew_law t l ttl s r s' : memory_renew t l ttl s = (r, s') ->
  match r with
  | Ok true =>
      (exists e, memory_holder s (key l) = Some (owner l, e) /\ t < e) /\
      memory_holder s' (key l) = Some (owner l, t + ttl * 1000000) /\
      forall k', k' <> key l -> memory_holder s' k' = memory_holder s k'
  | _ => s' = s
  end.
Proof.
  unfold memory_renew. destruct (validate _ _) as [u|e|]; [|by intros [= <- <-]..].
  destruct (owned l s) as [e|] eqn:Eo; [|by intros [= <- <-]]. apply owned_Some in Eo as [El Eo].
  destruct (expires_at e <=? t) eqn:Et; [by intros [= <- <-]|]. reflect_bools.
  destruct (plus_ms t ttl) as [x|ex|] eqn:Ep; intros [= <- <-]; [|done..].
  apply plus_ms_inv in Ep. split_and!.
  - exists (expires_at e). unfold memory_holder. rewrite El. cbn. by rewrite Eo.
  - rewrite memory_holder_insert, decide_True by done. cbn. by rewrite Eo, Ep.
  - intros k' Hk. by rewrite memory_holder_insert, decide_False.
Qed.

Lemma memory_release_law t l s r s' : memory_release t l s = (r, s') ->
  (forall k', k' <> key l -> memory_holder s' k' = memory_holder s k') /\
  if decide (exists e, memory_holder s (key l) = Some (owner l, e))
  then memory_holder s' (key l) = None else s' = s.
Proof.
  unfold memory_release. destruct (owned l s) as [e|] eqn:Eo; intros [= <- <-].
  - apply owned_Some in Eo as [El Eo]. unfold memory_holder. cbn. split.
    + intros k' Hk. by rewrite lookup_delete_ne.
    + rewrite decide_True; [by rewrite lookup_delete_eq|].
      exists (expires_at e). rewrite El. cbn. by rewrite Eo.
  - split; [done|]. destruct (decide _) as [[e He]|]; [|done]. exfalso.
    unfold memory_holder in He. destruct (locks_ s !! key l) as [en|] eqn:El; [|done].
    cbn in He. injection He as He _. assert (owned l s = Some en) by (by apply owned_Some).
    congruence.
Qed.

(** The in-memory store only fails on bad arguments and at the end of time. *)
Lemma memory_acquire_answers t k ttl s r s' :
  k <> [] -> 0 < ttl -> 0 <= t -> t + ttl * 1000000 <= INT64_MAX ->
  memory_acquire t k ttl s = (r, s') -> exists x, r = Ok x.
Proof.
  intros Hk Httl Ht Hmax. unfold memory_acquire, validate, plus_ms. destruct k; [done|].
  rewrite (proj2 (Z.leb_gt _ _)), !(proj2 (Z.ltb_ge _ _)) by lia. cbn [orb].
  destruct (match locks_ s !! _ with Some e => _ | None => _ end); intros [= <- _]; eauto.
Qed.

#[export] Instance memory_locks_lawful : LawfulLocks MemoryLockStore := {|
  holder := memory_holder;
  acquire_law := memory_acquire_law;
  renew_law := memory_renew_law;
  release_law := memory_release_law
|}.

(** ** Runs of a store *)

Section Runs.
Context {L : Type} `{LawfulLocks L}.

Inductive LockOp :=
| Acquire (k : bytes) (ttl : Z)
| Renew (l : LockLease) (ttl : Z)
| Release (l : LockLease).

(** An operation at a time, and the lease it hands out. *)
Definition lock_op (t : Z) (o : LockOp) (s : L) : option LockLease * L :=
  match o with
  | Acquire k ttl =>
      let '(r, s) := acquire t k ttl s in (match r with Ok l => l | _ => None end, s)
  | Renew l ttl => (None, (renew t l ttl s).2)
  | Release l => (None, (release t l s).2)
  end.

Fixpoint lock_run (ops : list (Z * LockOp)) (s : L) : list LockLease * L :=
  match ops with
  | [] => ([], s)
  | (t, o) :: ops =>
      let '(out, s) := lock_op t o s in
      let '(outs, s) := lock_run ops s in (option_list out ++ outs, s)
  end.

(** The operation does not use this lease. *)
Definition foreign_to (l : LockLease) (o : LockOp) : Prop :=
  match o with Acquire _ _ => True | Renew l' _ | Release l' => l' <> l end.

Lemma lock_op_holds t o l e s out s' :
  foreign_to l o -> t < e -> holder s (key l) = Some (owner l, e) -> lock_op t o s = (out, s') ->
  holder s' (key l) = Some (owner l, e) /\ Forall (fun x => key x <> key l) (option_list out).
Proof.
  intros Hf Ht Hh. destruct o as [k ttl|l' ttl|l']; cbn [lock_op foreign_to] in *.
  - destruct (acquire t k ttl s) as [r s1] eqn:E. apply acquire_law in E.
    destruct r as [[x|]|ex|]; intros [= <- <-].
    + destruct E as (Hk & _ & _ & Hfree & Hother). destruct (decide (key l = k)) as [Ek|Hne].
      * rewrite <-Ek in Hfree. apply Hfree in Hh. lia.
      * rewrite Hother by done. split; [done|]. apply Forall_singleton. congruence.
    + destruct E as [-> _]. split; [done|apply Forall_nil_2].
    + rewrite E. split; [done|apply Forall_nil_2].
    + rewrite E. split; [done|apply Forall_nil_2].
  - destruct (renew t l' ttl s) as [r s1] eqn:E. apply renew_law in E. cbn.
    intros [= <- <-]. split; [|apply Forall_nil_2].
    destruct r as [[]|ex|]; [|by rewrite E..]. destruct E as ((e' & He' & _) & _ & Hother).
    rewrite Hother; [done|]. intros Ek. rewrite <-Ek, Hh in He'. injection He' as Ho _.
    destruct Hf. destruct l, l'. cbn in *. congruence.
  - destruct (release t l' s) as [r s1] eqn:E. apply release_law in E as [Hother Hr]. cbn.
    intros [= <- <-]. split; [|apply Forall_nil_2].
    destruct (decide _) as [[e' He']|_]; [|by rewrite Hr].
    rewrite Hother; [done|]. intros Ek. rewrite <-Ek, Hh in He'. injection He' as Ho _.
    destruct Hf. destruct l, l'. cbn in *. congruence.
Qed.

Lemma lock_run_holds ops l e s outs s' :
  Forall (fun x => foreign_to l x.2 /\ x.1 < e) ops -> holder s (key l) = Some (owner l, e) ->
  lock_run ops s = (outs, s') ->
  holder s' (key l) = Some (owner l, e) /\ Forall (fun x => key x <> key l) outs.
Proof.
  revert s outs. induction ops as [|[t o] ops IH]; cbn [lock_run]; intros s outs Ho Hh E.
  { injection E as <- <-. split; [done|apply Forall_nil_2]. }
  apply Forall_cons in Ho as [[Hf Ht] Ho].
  destruct (lock_op t o s) as [out s1] eqn:E1. destruct (lock_run ops s1) as [outs1 s2] eqn:E2.
  injection E as <- <-. destruct (lock_op_holds t o l e s out s1) as [Hh1 Hout]; [done..|].
  destruct (IH s1 outs1) as [? ?]; [done..|]. split; [done|by apply Forall_app].
Qed.
End Runs.

(** *** Runs of the in-memory store *)

Definition memory_op (t : Z) (o : LockOp) (s : MemoryLockStore) : option LockLease * MemoryLockStore :=
  match o with
  | Acquire k ttl =>
      let '(r, s) := memory_acquire t k ttl s in (match r with Ok l => l | _ => None end, s)
  | Renew l ttl => (None, (memory_renew t l ttl s).2)
  | Release l => (None, (memory_release t l s).2)
  end.

Fixpoint memory_run (ops : list (Z * LockOp)) (s : MemoryLockStore) : list LockLease * MemoryLockStore :=
  match ops with
  | [] => ([], s)
  | (t, o) :: ops =>
      let '(out, s) := memory_op t o s in
      let '(outs, s) := memory_run ops s in (option_list out ++ outs, s)
  end.

Lemma memory_run_run ops s : memory_run ops s = lock_run ops s.
Proof.
  revert s. induction ops as [|[t o] ops IH]; intros s; [done|]. cbn [memory_run lock_run].
  change (lock_op t o s) with (memory_op t o s). destruct (memory_op t o s) as [out s1]. by rewrite IH.
Qed.

(** The owners' counter only grows. *)
Lemma memory_op_next t o s out s' : 0 <= next_owner_ s -> next_owner_ s + 1 < 2 ^ 64 ->
  memory_op t o s = (out, s') -> next_owner_ s <= next_owner_ s' <= next_owner_ s + 1.
Proof.
  intros H0 H1. assert (u64 (next_owner_ s + 1) = next_owner_ s + 1) as Hu by (apply u64_small; lia).
  destruct o as [k ttl|l ttl|l]; cbn [memory_op].
  - unfold memory_acquire. destruct (validate k ttl); [|by intros [= _ <-]; lia..].
    destruct (match locks_ s !! k with Some _ => _ | None => _ end); [by intros [= _ <-]; lia|].
    destruct (plus_ms t ttl); intros [= _ <-]; cbn [next_owner_]; lia.
  - intros [= _ <-]. unfold memory_renew. repeat (case_match; cbn [snd next_owner_]; try lia).
  - intros [= _ <-]. unfold memory_release. repeat (case_match; cbn [snd next_owner_]; try lia).
Qed.

Lemma memory_run_next ops s outs s' :
  0 <= next_owner_ s -> next_owner_ s + Z.of_nat (length ops) < 2 ^ 64 ->
  memory_run ops s = (outs, s') -> next_owner_ s <= next_owner_ s'.
Proof.
  revert s outs. induction ops as [|[t o] ops IH]; cbn [memory_run length]; intros s outs H0 Hn E; [by injection E as _ <-|].
  destruct (memory_op t o s) as [out s1] eqn:E1. destruct (memory_run ops s1) as [outs1 s2] eqn:E2. injection E as _ <-.
  apply memory_op_next in E1; [|lia..]. apply IH in E2; lia.
Qed.

Lemma owner_names a b : 0 <= a -> 0 <= b -> to_string a = to_string b -> a = b.
Proof.
  intros Ha Hb E. unfold to_string in E. rewrite !(proj2 (Z.ltb_ge _ 0)) in E by done.
  rewrite <-(to_string_u_value a), <-(to_string_u_value b) by done. by rewrite E.
Qed.

(** What a successful [acquire] leaves. *)
Lemma memory_acquired now k ttl s lease s1 : memory_acquire now k ttl s = (Ok (Some lease), s1) ->
  k <> [] /\ lease = mkLease k (to_string (next_owner_ s)) /\ next_owner_ s1 = u64 (next_owner_ s + 1) /\
  locks_ s1 !! k = Some (mkEntry (owner lease) (now + ttl * 1000000)).
Proof.
  unfold memory_acquire. destruct (validate k ttl) as [u|e|] eqn:Ev; [|done..].
  destruct (match locks_ s !! k with Some _ => _ | None => _ end); [done|].
  destruct (plus_ms now ttl) as [x|e|] eqn:Ep; [|done..]. intros [= <- <-]. apply plus_ms_inv in Ep.
  split_and!; [by intros ->|done..|]. cbn. rewrite lookup_insert_eq. by rewrite Ep.
Qed.

(** ** Theorems *)

(** C35. Mutual exclusion of the in-memory lock store.  Until the lease that [acquire]
    returned ends, whatever others do with the store (acquire, renew and release with
    other leases), no lease on its key is handed out and its entry stays; at every time
    the key is locked, and can be acquired, exactly according to that end; its owner can
    release it; and once somebody else has acquired the key, the old lease neither renews
    nor releases the new one, because their owners differ. *)
Theorem lock_exclusive now k ttl (s : MemoryLockStore) lease s1 ops outs s2 :
  memory_acquire now k ttl s = (Ok (Some lease), s1) ->
  Forall (fun x => foreign_to lease x.2 /\ x.1 < now + ttl * 1000000) ops ->
  memory_run ops s1 = (outs, s2) ->
  0 <= next_owner_ s -> next_owner_ s + 1 + Z.of_nat (length ops) < 2 ^ 64 ->
  let ends := now + ttl * 1000000 in
  Forall (fun x => key x <> k) outs /\
  locks_ s2 !! k = Some (mkEntry (owner lease) ends) /\
  (forall t, locked t k s2 = (t <? ends)) /\
  (forall t ttl', 0 <= t -> 0 < ttl' -> t + ttl' * 1000000 <= INT64_MAX ->
     exists r, (memory_acquire t k ttl' s2).1 = Ok r /\ (r = None <-> t < ends)) /\
  (forall t, (memory_release t lease s2).1 = Ok (t <? ends) /\ locks_ (memory_release t lease s2).2 !! k = None) /\
  (forall t ttl' other s3, memory_acquire t k ttl' s2 = (Ok (Some other), s3) ->
     owner other <> owner lease /\
     (forall t' ttl'', (memory_renew t' lease ttl'' s3).1 <> Ok true) /\
     (forall t', memory_release t' lease s3 = (Ok false, s3))).
Proof.
  intros E Hops Er H0 Hn ends. apply memory_acquired in E as Ha. destruct Ha as (Hk & Hlease & Hnext & Hl).
  rewrite u64_small in Hnext by lia. pose proof Er as Hgrow. apply memory_run_next in Hgrow; [|lia..].
  rewrite memory_run_run in Er. assert (key lease = k) as Hkey by by rewrite Hlease.
  assert (memory_holder s1 (key lease) = Some (owner lease, ends)) as Hh by (unfold memory_holder; by rewrite Hkey, Hl).
  destruct (lock_run_holds (H0 := memory_locks_lawful) ops lease ends s1 outs s2 Hops Hh Er) as [Hh2 Houts]. cbn [holder memory_locks_lawful] in Hh2.
  rewrite Hkey in *. assert (locks_ s2 !! k = Some (mkEntry (owner lease) ends)) as He.
  { unfold memory_holder in Hh2. destruct (locks_ s2 !! k) as [[o e]|]; [|done]. by injection Hh2 as -> ->. }
  split_and!; [done|done| | | |].
  - intros t. unfold locked. rewrite He. cbn. by rewrite Z.gtb_ltb.
  - intros t ttl' Ht Httl Hmax. destruct (memory_acquire t k ttl' s2) as [r s3] eqn:Ea.
    destruct (memory_acquire_answers _ _ _ _ _ _ Hk Httl Ht Hmax Ea) as [x ->]. exists x. split; [done|].
    apply memory_acquire_law in Ea. unfold memory_holder in Ea. rewrite He in Ea. cbn in Ea. destruct x as [x|].
    + destruct Ea as (_ & _ & _ & Hfree & _). specialize (Hfree _ _ eq_refl). split; [done|lia].
    + destruct Ea as (_ & o & e & [= <- <-] & Hlt). done.
  - intros t. assert (owned lease s2 = Some (mkEntry (owner lease) ends)) as Hown by (apply owned_Some; by rewrite Hkey).
    unfold memory_release. rewrite Hown.
    cbn. rewrite Hkey, Z.gtb_ltb. split; [done|apply lookup_delete_eq].
  - intros t ttl' other s3 Ea. apply memory_acquired in Ea as (_ & Ho & _ & He3).
    assert (owner other <> owner lease) as Hne.
    { rewrite Ho, Hlease. cbn. intros Heq. apply owner_names in Heq; lia. }
    assert (owned lease s3 = None) as Hown.
    { unfold owned. rewrite Hkey, He3. cbn. by rewrite bool_decide_eq_false_2. }
    split_and!; [done| |].
    + intros t' ttl''. unfold memory_renew. rewrite Hown. by destruct (validate _ _).
    + intros t'. unfold memory_release. by rewrite Hown.
Qed.

Lemma lock_exclusive_witness :
  let s1 := (memory_acquire 0 (lit "report") 1 empty_locks).2 in
  let '(outs, s2) := memory_run [(5, Acquire (lit "report") 9); (7, Acquire (lit "mail") 9)] s1 in
  Forall (fun x => key x <> lit "report") outs /\
  locks_ s2 !! lit "report" = Some (mkEntry (lit "1") 1000000).
Proof.
  intros s1. destruct (memory_run _ s1) as [outs s2] eqn:E.
  apply (lock_exclusive 0 (lit "report") 1 empty_locks
    (mkLease (lit "report") (lit "1")) s1 _ outs s2 ltac:(vm_compute; reflexivity)) in E;
    [destruct E as (H1 & H2 & _); split; [exact H1|exact H2]| | |].
  - repeat (apply Forall_cons_2; [split; [exact I|reflexivity]|]). apply Forall_nil_2.
  - cbn. lia.
  - reflexivity.
Defined.
