(* ===== verification/Scheduler.v ===== *)
(** * Scheduled tasks and the scheduler

    [include/gungnir/scheduler/task.hpp] and [scheduler.hpp].  A task runs its action
    at an interval or at the minutes of a cron expression, under locks when it must
    not overlap or must run on one server only.  Instants of the scheduler's clock
    are nanoseconds since the epoch; the lock store reads the steady clock.  Actions
    act on a state [A] of the application.  Spans and metrics are not modelled. *)

From S2P Require Import Prelude Numeral Calendar TimeZone Cron Lock.

Section Scheduler.
Context {Zone L A : Type} `{TimeZone Zone} `{LockStore L}.

Definition Action : Type := A -> result unit * A.

Record Task := mkTask {
  name_ : bytes;
  interval_ : option Z;
  cron_ : option CronExpression;
  action_ : Action;
  last_run_ : Z;
  task_timezone_ : Zone;
  last_cron_slot_ : option WallMinute;
  prevent_overlap_ : bool;
  one_server_ : bool;
  overlap_ttl_ : Z;
  one_server_ttl_ : Z;
  has_run_ : bool
}.

Definition one_day_ms : Z := 24 * 3600 * 1000.

(** The constructors. *)
Definition interval_task (n : bytes) (interval : Z) (action : Action) (zone : Zone) : Task :=
  mkTask n (Some interval) None action 0 zone None false false one_day_ms one_day_ms false.

Definition cron_task (n : bytes) (c : CronExpression) (action : Action) (zone : Zone) : Task :=
  mkTask n None (Some c) action 0 zone None false false one_day_ms one_day_ms false.

Definition set_zone (zone : Zone) (t : Task) : Task :=
  mkTask (name_ t) (interval_ t) (cron_ t) (action_ t) (last_run_ t) zone (last_cron_slot_ t)
    (prevent_overlap_ t) (one_server_ t) (overlap_ttl_ t) (one_server_ttl_ t) (has_run_ t).

Definition validate_lock_ttl (ttl : Z) : result unit :=
  if ttl <=? 0
  then Throw (invalid_argument "Scheduled task lock TTL must be greater than zero") else Ok ().

Definition without_overlapping (ttl : Z) (t : Task) : result Task :=
  validate_lock_ttl ttl ≫= fun _ =>
  Ok (mkTask (name_ t) (interval_ t) (cron_ t) (action_ t) (last_run_ t) (task_timezone_ t)
        (last_cron_slot_ t) true (one_server_ t) ttl (one_server_ttl_ t) (has_run_ t)).

Definition on_one_server (ttl : Z) (t : Task) : result Task :=
  validate_lock_ttl ttl ≫= fun _ =>
  Ok (mkTask (name_ t) (interval_ t) (cron_ t) (action_ t) (last_run_ t) (task_timezone_ t)
        (last_cron_slot_ t) (prevent_overlap_ t) true (overlap_ttl_ t) ttl (has_run_ t)).

(** ** When a task is due *)

(** A duration in milliseconds, converted to the nanoseconds it is compared in. *)
Definition to_ns (ms : Z) : result Z :=
  if INT64_MAX <? ms * 1000000 then Throw (undefined "signed overflow in a duration") else Ok (ms * 1000000).

(** [!last_cron_slot_ || *last_cron_slot_ != slot]. *)
Definition new_slot (t : Task) (slot : WallMinute) : bool :=
  match last_cron_slot_ t with None => true | Some s => negb (bool_decide (s = slot)) end.

Definition cron_due (t : Task) (c : CronExpression) (now : Z) : result bool :=
  local ← to_local (task_timezone_ t) now;
  Ok (matches c local && new_slot t (wall_minute local)).

Definition due (t : Task) (now : Z) : result bool :=
  match interval_ t with
  | Some interval =>
      if negb (has_run_ t) then Ok true
      else width ← to_ns interval; Ok (width <=? now - last_run_ t)
  | None =>
      match cron_ t with
      | None => Ok false
      | Some c => cron_due t c now
      end
  end.

Definition next_due (t : Task) (now : Z) : result Z :=
  match interval_ t with
  | Some interval => if negb (has_run_ t) then Ok now else plus_ms (last_run_ t) interval
  | None =>
      match cron_ t with
      | None => Ok INT64_MAX
      | Some c =>
          is_due ← cron_due t c now;
          if is_due : bool then Ok now
          else minute ← next_after c (task_timezone_ t) now (last_cron_slot_ t); Ok (minute * ns_per_minute)
      end
  end.

(** ** Running a task *)

Abbreviation State := (Task * (L * A))%type.
Abbreviation M := (eff State).

Definition invoke_action : M unit := fun '(t, (l, a)) =>
  let '(r, a) := action_ t a in (r, (t, (l, a))).

Definition set_observed (now : Z) (slot : option WallMinute) (t : Task) : Task :=
  mkTask (name_ t) (interval_ t) (cron_ t) (action_ t) now (task_timezone_ t) slot
    (prevent_overlap_ t) (one_server_ t) (overlap_ttl_ t) (one_server_ttl_ t) true.

(** The run is recorded first; then the wall-clock minute of a cron task. *)
Definition mark_observed (now : Z) : M unit := fun '(t, w) =>
  match cron_ t with
  | None => (Ok (), (set_observed now (last_cron_slot_ t) t, w))
  | Some _ =>
      match to_local (task_timezone_ t) now with
      | Ok local => (Ok (), (set_observed now (Some (wall_minute local)) t, w))
      | Throw e => (Throw e, (set_observed now (last_cron_slot_ t) t, w))
      | NoFuel => (NoFuel, (t, w))
      end
  end.

Definition run_task (now : Z) : M unit := invoke_action;; mark_observed now.

Definition overlap_lock_key (t : Task) : bytes := lit "gungnir:scheduler:overlap:" ++ name_ t.

Definition dash (l : list Z) : bytes :=
  match map to_string l with
  | [] => []
  | first :: rest => first ++ concat (map (fun s => lit "-" ++ s) rest)
  end.

(** [duration_cast] and the division of integers truncate. *)
Definition occurrence_slot (t : Task) (now : Z) : result bytes :=
  match cron_ t with
  | Some _ =>
      local ← to_local (task_timezone_ t) now;
      Ok (dash [year local; month local; day local; hour local; minute local])
  | None =>
      match interval_ t with
      | Some width =>
          let milliseconds := Z.quot now 1000000 in
          Ok (to_string (if width >? 0 then Z.quot milliseconds width else milliseconds))
      | None => Ok (to_string (Z.quot now ns_per_second))
      end
  end.

Definition occurrence_lock_key (t : Task) (now : Z) : result bytes :=
  slot ← occurrence_slot t now;
  Ok (lit "gungnir:scheduler:single:" ++ name_ t ++ lit ":" ++ slot).

(** Calls of the lock store. *)
Definition call_acquire (steady : Z) (k : bytes) (ttl : Z) : M (option LockLease) :=
  fun '(t, (l, a)) => let '(r, l) := acquire steady k ttl l in (r, (t, (l, a))).

Definition call_release (steady : Z) (lease : LockLease) : M bool :=
  fun '(t, (l, a)) => let '(r, l) := release steady lease l in (r, (t, (l, a))).

Definition lift_result {B} (r : result B) : M B := fun st => (r, st).

(** The release of the overlap lease, when there is one. *)
Definition release_overlap (steady : Z) (lease : option LockLease) : M unit :=
  match lease with
  | None => mret ()
  | Some lease => call_release steady lease;; mret ()
  end.

(** The action under the overlap lease. *)
Definition guarded (now steady_end : Z) (lease : option LockLease) : M bool :=
  try_catch (run_task now) (fun e => release_overlap steady_end lease;; throw e);;
  release_overlap steady_end lease;;
  mret true.

(** The lease on the task, then the action. *)
Definition exclusive (now steady steady_end : Z) : M bool :=
  '(t, _) ← get;
  if prevent_overlap_ t then
    lease ← call_acquire steady (overlap_lock_key t) (overlap_ttl_ t);
    match lease with
    | None => mark_observed now;; mret false
    | Some lease => guarded now steady_end (Some lease)
    end
  else guarded now steady_end None.

(** [Task::execute]; [locks] says whether a store is configured, [steady] and
    [steady_end] are the steady clock before and after the action. *)
Definition execute (locks : bool) (now steady steady_end : Z) : M bool :=
  '(t, _) ← get;
  if negb (prevent_overlap_ t) && negb (one_server_ t) then
    run_task now;; mret true
  else if negb locks then
    throw (logic_error (message "Scheduled task requires a configured lock store: " (name_ t)))
  else if one_server_ t then
    k ← lift_result (occurrence_lock_key t now);
    lease ← call_acquire steady k (one_server_ttl_ t);
    match lease with
    | None => mark_observed now;; mret false
    | Some _ => exclusive now steady steady_end
    end
  else exclusive now steady steady_end.

(** ** The scheduler *)

Record Scheduler := mkScheduler {
  zone_ : Zone;
  locks_configured_ : bool;
  names_ : gset bytes;
  tasks_ : list Task;
  stop_requested_ : bool;
  running_ : bool
}.

Definition make_scheduler (zone : Zone) : Scheduler := mkScheduler zone false ∅ [] false false.

Definition ensure_not_running (s : Scheduler) : result unit :=
  if running_ s
  then Throw (logic_error "Scheduler configuration cannot change while the runner is active")
  else Ok ().

Definition set_timezone (zone : Zone) (s : Scheduler) : result Scheduler :=
  ensure_not_running s ≫= fun _ =>
  Ok (mkScheduler zone (locks_configured_ s) (names_ s) (tasks_ s) (stop_requested_ s) (running_ s)).

Definition set_locks (s : Scheduler) : result Scheduler :=
  ensure_not_running s ≫= fun _ =>
  Ok (mkScheduler (zone_ s) true (names_ s) (tasks_ s) (stop_requested_ s) (running_ s)).

Definition validate_name (n : bytes) (s : Scheduler) : result (gset bytes) :=
  ensure_not_running s ≫= fun _ =>
  match n with
  | [] => Throw (invalid_argument "Scheduled task name must not be empty")
  | _ =>
      if decide (n ∈ names_ s)
      then Throw (logic_error (message "Scheduled task is already registered: " n))
      else Ok ({[n]} ∪ names_ s)
  end.

Definition add_task (n : bytes) (t : Task) (s : Scheduler) : result Scheduler :=
  names ← validate_name n s;
  Ok (mkScheduler (zone_ s) (locks_configured_ s) names (tasks_ s ++ [t]) (stop_requested_ s) (running_ s)).

(** [every]; an empty [std::function] is [None].  A task made here has the UTC zone
    as its default, which an interval task does not use. *)
Definition every (n : bytes) (interval : Z) (action : option Action) (s : Scheduler)
    : result Scheduler :=
  ensure_not_running s ≫= fun _ =>
  if interval <=? 0 then Throw (invalid_argument "Scheduled task interval must be positive")
  else match action with
       | None => Throw (invalid_argument "Scheduled task requires an action")
       | Some action => add_task n (interval_task n interval action (zone_ s)) s
       end.

Definition cron (n expression : bytes) (action : option Action) (s : Scheduler) : result Scheduler :=
  ensure_not_running s ≫= fun _ =>
  c ← parse expression;
  match action with
  | None => Throw (invalid_argument "Scheduled task requires an action")
  | Some action => add_task n (cron_task n c action (zone_ s)) s
  end.

Definition hourly (n : bytes) := cron n (lit "0 * * * *").
Definition daily (n : bytes) := cron n (lit "0 0 * * *").
Definition weekly (n : bytes) := cron n (lit "0 0 * * 0").
Definition monthly (n : bytes) := cron n (lit "0 0 1 * *").

(** The readings of one pass over the tasks: for each task whether to stop before it,
    and the steady clock before and after its action. *)
Record Reading := mkReading { stop : bool; steady : Z; steady_end : Z }.

(** The loop of [run_due_until]; an exception leaves the remaining tasks alone. *)
Fixpoint run_tasks (locks : bool) (now : Z) (readings : list Reading) (tasks : list Task)
    (w : L * A) : result Z * (list Task * (L * A)) :=
  match tasks with
  | [] => (Ok 0, ([], w))
  | t :: rest =>
      let r := default (mkReading false 0 0) (head readings) in
      if stop r then (Ok 0, (t :: rest, w))
      else
        match due t now with
        | Throw e => (Throw e, (t :: rest, w))
        | NoFuel => (NoFuel, (t :: rest, w))
        | Ok false =>
            let '(n, (rest, w)) := run_tasks locks now (tail readings) rest w in (n, (t :: rest, w))
        | Ok true =>
            match execute locks now (steady r) (steady_end r) (t, w) with
            | (Ok ran, (t, w)) =>
                let '(n, (rest, w)) := run_tasks locks now (tail readings) rest w in
                ((fun n => if ran : bool then u64 (n + 1) else n) <$> n, (t :: rest, w))
            | (Throw e, (t, w)) => (Throw e, (t :: rest, w))
            | (NoFuel, (t, w)) => (NoFuel, (t :: rest, w))
            end
        end
  end.

Definition set_tasks (tasks : list Task) (s : Scheduler) : Scheduler :=
  mkScheduler (zone_ s) (locks_configured_ s) (names_ s) tasks (stop_requested_ s) (running_ s).

Definition run_due (now : Z) (readings : list Reading) (s : Scheduler) (w : L * A)
    : result Z * (Scheduler * (L * A)) :=
  match ensure_not_running s with
  | Ok _ =>
      let '(n, (tasks, w)) := run_tasks (locks_configured_ s) now readings (tasks_ s) w in
      (n, (set_tasks tasks s, w))
  | Throw e => (Throw e, (s, w))
  | NoFuel => (NoFuel, (s, w))
  end.

(** The earliest deadline, or the last instant of the clock. *)
Definition next_due_at (tasks : list Task) (now : Z) : result Z :=
  fold_left (fun next t => n ← next; d ← next_due t now; Ok (Z.min n d)) tasks (Ok INT64_MAX).

Definition scheduler_next_due (s : Scheduler) (now : Z) : result Z :=
  if running_ s
  then Throw (logic_error
    "next_due() cannot inspect mutable task state while the scheduler runner is active")
  else next_due_at (tasks_ s) now.

(** How long the runner sleeps, in milliseconds; [ceil] rounds up. *)
Definition sleep_for (maximum_sleep now deadline : Z) : Z :=
  if negb (deadline =? INT64_MAX) && (now <? deadline) then
    let until_ := - ((- (deadline - now)) / 1000000) in
    Z.min maximum_sleep (Z.max 1 until_)
  else if negb (deadline =? INT64_MAX) then 1
  else maximum_sleep.

Definition validate_runner_options (maximum_sleep : Z) : result unit :=
  if maximum_sleep <=? 0
  then Throw (invalid_argument "Scheduler maximum_sleep must be greater than zero") else Ok ().

Definition set_runner (stop_ running : bool) (s : Scheduler) : Scheduler :=
  mkScheduler (zone_ s) (locks_configured_ s) (names_ s) (tasks_ s) stop_ running.

Definition request_stop (s : Scheduler) : Scheduler := set_runner true (running_ s) s.
Definition reset_stop (s : Scheduler) : Scheduler := set_runner false (running_ s) s.

(** One iteration of the runner: whether a stop or cancellation is seen at the head
    and after the tasks, the clock at both places, and the readings of the pass. *)
Record Iteration := mkIteration {
  stop_at_head : bool;
  pass_now : Z;
  readings : list Reading;
  stop_after : bool;
  sleep_now : Z
}.

(** The loop of [run]: the count, and the sleeps in between.  [NoFuel] means that the
    surroundings have not been observed any further. *)
Fixpoint run_loop (maximum_sleep : Z) (iterations : list Iteration) (executed : Z) (s : Scheduler)
    (w : L * A) : result Z * (list Z * (Scheduler * (L * A))) :=
  match iterations with
  | [] => (NoFuel, ([], (s, w)))
  | i :: rest =>
      if stop_at_head i then (Ok executed, ([], (s, w)))
      else
        let '(n, (tasks, w)) :=
          run_tasks (locks_configured_ s) (pass_now i) (readings i) (tasks_ s) w in
        let s := set_tasks tasks s in
        match n with
        | Throw e => (Throw e, ([], (s, w)))
        | NoFuel => (NoFuel, ([], (s, w)))
        | Ok n =>
            let executed := u64 (executed + n) in
            if stop_after i then (Ok executed, ([], (s, w)))
            else
              match next_due_at (tasks_ s) (sleep_now i) with
              | Throw e => (Throw e, ([], (s, w)))
              | NoFuel => (NoFuel, ([], (s, w)))
              | Ok deadline =>
                  let delay := sleep_for maximum_sleep (sleep_now i) deadline in
                  let '(r, (sleeps, st)) := run_loop maximum_sleep rest executed s w in
                  (r, (delay :: sleeps, st))
              end
        end
  end.

Definition run (maximum_sleep : Z) (iterations : list Iteration) (s : Scheduler) (w : L * A)
    : result Z * (list Z * (Scheduler * (L * A))) :=
  match validate_runner_options maximum_sleep with
  | Throw e => (Throw e, ([], (s, w)))
  | NoFuel => (NoFuel, ([], (s, w)))
  | Ok _ =>
      if running_ s then (Throw (logic_error "Scheduler runner is already running"), ([], (s, w)))
      else
        let '(r, (sleeps, (s, w))) :=
          run_loop maximum_sleep iterations 0 (set_runner (stop_requested_ s) true s) w in
        match r with
        | NoFuel => (NoFuel, (sleeps, (s, w)))
        | _ => (r, (sleeps, (set_runner (stop_requested_ s) false s, w)))
        end
  end.
End Scheduler.

Arguments Task : clear implicits.
Arguments Scheduler : clear implicits.
Arguments Action : clear implicits.
