(* ===== verification/SchedulerFacts.v ===== *)
(** * Scheduled tasks: when they run next, how long the runner sleeps, one server only

    [MinuteZone] adds to [LawfulZone] that local time only changes with the minute.
    With it, [next_due] is exact, and the runner does not sleep through a task. *)

From S2P Require Import Prelude Numeral Calendar TimeZone Cron CronFacts Lock.
From S2P Require Import Scheduler.

(** ** Local time only changes with the minute *)

Class MinuteZone (Zone : Type) `{TimeZone Zone} (zone_ok : Zone -> Prop) : Prop :=
  zone_minute : forall z p q, zone_ok z -> p / ns_per_minute = q / ns_per_minute ->
    to_local z p = to_local z q.

Lemma ns_minute_pos : 0 < ns_per_minute.
Proof. done. Qed.

Lemma div_minute_shift p o : (p + o * ns_per_minute) / ns_per_minute = p / ns_per_minute + o.
Proof. apply Z.div_add. done. Qed.

Lemma local_from_offset_minute p q o dst :
  p / ns_per_minute = q / ns_per_minute -> local_from_offset p o dst = local_from_offset q o dst.
Proof.
  intros E. unfold local_from_offset.
  assert (forall x, (x + o * ns_per_minute) / ns_per_day = (x / ns_per_minute + o) / 1440) as Hd.
  { intros x. rewrite <-div_minute_shift, Z.div_div by done. done. }
  assert (forall x d k, 0 < k -> (x + o * ns_per_minute - d * ns_per_day) / ns_per_second / (60 * k) =
    (x / ns_per_minute + o - d * 1440) / k) as Ht.
  { intros x d k Hk. rewrite Z.div_div by (done || lia).
    replace (ns_per_second * (60 * k)) with (ns_per_minute * k) by (unfold ns_per_minute; lia).
    rewrite <-Z.div_div by (done || lia). f_equal.
    replace (x + o * ns_per_minute - d * ns_per_day) with (x + (o - d * 1440) * ns_per_minute)
      by (unfold ns_per_day; lia).
    rewrite div_minute_shift. lia. }
  rewrite !Hd, <-E. destruct (civil_from_days _) as [[y m] d].
  pose proof (fun x => Ht x ((p / ns_per_minute + o) / 1440) 60 ltac:(lia)) as H60.
  pose proof (fun x => Ht x ((p / ns_per_minute + o) / 1440) 1 ltac:(lia)) as H1.
  cbn [Z.mul] in H60, H1. change (60 * 60) with 3600 in H60. change (60 * 1) with 60 in H1.
  by rewrite !H60, !H1, <-E.
Qed.

#[export] Instance utc_minute : MinuteZone UtcTimeZone (fun _ => True).
Proof. intros z p q _ E. unfold to_local, utc_zone. by rewrite (local_from_offset_minute p q). Qed.

#[export] Instance fixed_minute : MinuteZone FixedOffsetTimeZone fixed_ok.
Proof. intros z p q _ E. unfold to_local, fixed_zone. by rewrite (local_from_offset_minute p q). Qed.

(** Whole minutes compare with an instant as with its minute. *)
Lemma minute_le k p q : p / ns_per_minute = q / ns_per_minute ->
  (k * ns_per_minute <=? p) = (k * ns_per_minute <=? q).
Proof.
  intros E. pose proof ns_minute_pos.
  assert (forall x, (k * ns_per_minute <=? x) = (k <=? x / ns_per_minute)) as Hx.
  { intros x. destruct (Z.leb_spec k (x / ns_per_minute)) as [Hk|Hk]; [apply Z.leb_le|apply Z.leb_gt].
    - pose proof (Z.mul_div_le x ns_per_minute). nia.
    - pose proof (Z.mod_pos_bound x ns_per_minute). pose proof (Z.div_mod x ns_per_minute). nia. }
  by rewrite !Hx, E.
Qed.

#[export] Instance recurring_minute {P : RecurringTimeZone -> Prop} : MinuteZone RecurringTimeZone P.
Proof.
  intros z p q _ E. unfold to_local, recurring_zone.
  assert (daylight_at z p = daylight_at z q) as ->.
  { unfold daylight_at.
    assert (forall x, (x + standard_offset z * ns_per_minute) / ns_per_day =
      (x / ns_per_minute + standard_offset z) / 1440) as Hd.
    { intros x. rewrite <-div_minute_shift, Z.div_div by done. done. }
    rewrite !Hd, <-E. destruct (civil_from_days _) as [[y m] d].
    unfold transition_instant. destruct (transition_day y (daylight_start z)) as [s|e|]; [|done..].
    destruct (transition_day y (daylight_end z)) as [f|e|]; [|done..]. cbn.
    replace (s * ns_per_day + t_at (daylight_start z) * ns_per_minute - standard_offset z * ns_per_minute)
      with ((s * 1440 + t_at (daylight_start z) - standard_offset z) * ns_per_minute)
      by (unfold ns_per_day; lia).
    replace (f * ns_per_day + t_at (daylight_end z) * ns_per_minute - daylight_offset z * ns_per_minute)
      with ((f * 1440 + t_at (daylight_end z) - daylight_offset z) * ns_per_minute)
      by (unfold ns_per_day; lia).
    rewrite !(Z.ltb_antisym _ p), !(Z.ltb_antisym _ q).
    by rewrite !(minute_le _ p q E). }
  destruct (daylight_at z q) as [dst|e|]; [|done..]. cbn [mbind result_bind].
  f_equal. by apply local_from_offset_minute.
Qed.

(** ** When a task is due next *)

Section Due.
Context {Zone A : Type} (zone_ok : Zone -> Prop) `{LawfulZone Zone zone_ok} `{!MinuteZone Zone zone_ok}.
Implicit Types (t : Task Zone A).

Lemma cron_due_minute t c u v :
  zone_ok (task_timezone_ t) -> u / ns_per_minute = v / ns_per_minute ->
  cron_due t c u = cron_due t c v.
Proof. intros Hz E. unfold cron_due. by rewrite (zone_minute (task_timezone_ t) u v Hz E). Qed.

(** At a whole minute, being due is being an occurrence that is not the last one. *)
Lemma cron_due_occurs t c u :
  zone_ok (task_timezone_ t) ->
  exists b, cron_due t c u = Ok b /\
    (b = true <-> occurs c (task_timezone_ t) (last_cron_slot_ t) (u / ns_per_minute)).
Proof.
  intros Hz. unfold cron_due, occurs.
  rewrite (zone_minute (task_timezone_ t) u (u / ns_per_minute * ns_per_minute) Hz)
    by (by rewrite Z.div_mul).
  destruct (zone_law (task_timezone_ t) (u / ns_per_minute * ns_per_minute) Hz) as (o & dst & _ & ->).
  cbn [mbind result_bind]. eexists. split; [done|]. set (l := local_from_offset _ _ _).
  rewrite andb_true_iff.
  assert (new_slot t (wall_minute l) = allowed (last_cron_slot_ t) l) as ->.
  { unfold new_slot, allowed. destruct (last_cron_slot_ t); [|done]. f_equal.
    apply bool_decide_ext. split; congruence. }
  split; [|intros (? & [= <-] & ?); done]. intros [? ?]. by exists l.
Qed.

(** What [next_due] promises of an instant [d]: nothing before, due from then on. *)
Definition next_at t (now d : Z) : Prop :=
  (forall u, now <= u < d -> due t u = Ok false) /\ due t (Z.max now d) = Ok true.

Lemma next_due_interval t now interval d :
  interval_ t = Some interval -> next_due t now = Ok d -> next_at t now d.
Proof.
  intros Hi. unfold next_due, next_at, due. rewrite Hi. destruct (has_run_ t) eqn:Hr; cbn [negb].
  - unfold plus_ms. destruct (_ || _) eqn:E; [done|]. intros [= <-]. reflect_bools.
    unfold to_ns. rewrite (proj2 (Z.ltb_ge _ _)) by done. cbn. split.
    + intros u Hu. f_equal. apply Z.leb_gt. lia.
    + f_equal. apply Z.leb_le. lia.
  - intros [= <-]. split; [lia|done].
Qed.

Lemma next_due_cron t now c :
  interval_ t = None -> cron_ t = Some c -> zone_ok (task_timezone_ t) ->
  match next_due t now with
  | Ok d => now <= d /\ next_at t now d
  | Throw (runtime_error _) =>
      forall u, now <= u < (now / ns_per_minute + 1 + search_limit) * ns_per_minute -> due t u = Ok false
  | _ => False
  end.
Proof.
  intros Hi Hc Hz. unfold next_due, next_at, due. rewrite Hi, Hc.
  destruct (cron_due_occurs t c now Hz) as (b & Eb & Hb). rewrite Eb. cbn [mbind result_bind].
  destruct b. { split; [lia|]. split; [lia|]. by rewrite Z.max_l by lia. }
  assert (forall u, now <= u -> u / ns_per_minute <= now / ns_per_minute -> cron_due t c u = Ok false)
    as Hsame.
  { intros u Hu1 Hu2. rewrite <-Eb. apply cron_due_minute; [done|].
    pose proof (Z.div_le_mono now u ns_per_minute ns_minute_pos Hu1). lia. }
  assert (forall u, ~ occurs c (task_timezone_ t) (last_cron_slot_ t) (u / ns_per_minute) ->
    cron_due t c u = Ok false) as Hno.
  { intros u Hu. destruct (cron_due_occurs t c u Hz) as ([] & -> & Hiff); [|done].
    destruct Hu. by apply Hiff. }
  unfold next_after.
  destruct (search_spec zone_ok c (task_timezone_ t) Hz (last_cron_slot_ t) (Z.to_nat search_limit)
    (now / ns_per_minute + 1)) as [(r & -> & Hr & Hocc & Hleast)|[-> Hnone]]; cbn [mbind result_bind].
  - pose proof (Z.mul_succ_div_gt now ns_per_minute ns_minute_pos) as Hnow.
    pose proof ns_minute_pos. assert (now < r * ns_per_minute) by nia.
    split; [lia|]. split.
    + intros u [Hu1 Hu2]. destruct (Z.le_gt_cases (u / ns_per_minute) (now / ns_per_minute)).
      * by apply Hsame.
      * apply Hno, Hleast. split; [lia|]. by apply Z.div_lt_upper_bound; [|lia].
    + rewrite Z.max_r by lia. destruct (cron_due_occurs t c (r * ns_per_minute) Hz) as (b & -> & Hiff).
      f_equal. apply Hiff. by rewrite Z.div_mul.
  - intros u [Hu1 Hu2]. destruct (Z.le_gt_cases (u / ns_per_minute) (now / ns_per_minute)).
    + by apply Hsame.
    + apply Hno, Hnone. rewrite search_limit_nat. split; [lia|].
      apply Z.div_lt_upper_bound; [done|]. lia.
Qed.

(** A matching local time shows that the expression can match. *)
Lemma matches_satisfiable c l : local_ok l -> matches c l = true -> satisfiable c.
Proof.
  intros (Hv & _) Hm Hw Hd. unfold matches in Hm. rewrite Hw, Hd in Hm. cbn [andb] in Hm.
  destruct (_ || _) eqn:E; [done|]. reflect_bools. exists (month l), (day l). split_and!; [done|done|].
  unfold valid_date in Hv. reflect_bools. etrans; [done|]. unfold days_in_month. cbn.
  by repeat case_goal.
Qed.

Lemma next_due_impossible t now c :
  interval_ t = None -> cron_ t = Some c -> zone_ok (task_timezone_ t) -> ~ satisfiable c ->
  exists what, next_due t now = Throw (runtime_error what).
Proof.
  intros Hi Hc Hz Hs. pose proof (next_due_cron t now c Hi Hc Hz) as Hn.
  destruct (next_due t now) as [d|e|]; [|destruct e; done || eauto|done].
  destruct Hn as (_ & _ & Hdue). unfold due in Hdue. rewrite Hi, Hc in Hdue.
  destruct (cron_due_occurs t c (Z.max now d) Hz) as (b & E & Hiff). rewrite E in Hdue.
  injection Hdue as ->. destruct (proj1 Hiff eq_refl) as (l & El & Hm & _). destruct Hs.
  destruct (zone_law (task_timezone_ t) (Z.max now d / ns_per_minute * ns_per_minute) Hz)
    as (o & dst & _ & El'). rewrite El' in El. injection El as <-.
  eapply matches_satisfiable; [|exact Hm].
  by destruct (local_from_offset_ok (Z.max now d / ns_per_minute * ns_per_minute) o dst).
Qed.

(** *** The runner *)

Definition scheduled t : Prop :=
  zone_ok (task_timezone_ t) /\ (interval_ t <> None \/ cron_ t <> None).

Lemma next_due_scheduled t now d : scheduled t -> next_due t now = Ok d -> next_at t now d.
Proof.
  intros [Hz Hs] E. destruct (interval_ t) as [i|] eqn:Hi; [by eapply next_due_interval|].
  destruct (cron_ t) as [c|] eqn:Hc; [|by destruct Hs].
  pose proof (next_due_cron t now c Hi Hc Hz) as Hn. rewrite E in Hn. apply Hn.
Qed.

Lemma next_due_at_le tasks now deadline t :
  next_due_at tasks now = Ok deadline -> t ∈ tasks ->
  exists d, next_due t now = Ok d /\ deadline <= d.
Proof.
  unfold next_due_at. generalize (Ok INT64_MAX).
  assert (forall tasks r, (forall n, r <> Ok n) ->
    fold_left (fun next t => n ← next; d ← next_due t now; Ok (Z.min n d)) tasks r <> Ok deadline) as Hbad.
  { intros ts. induction ts as [|x ts IH]; cbn; intros r Hr; [done|].
    apply IH. intros n. destruct r as [m|e|]; [by destruct (Hr m)|done|done]. }
  assert (forall tasks r,
    fold_left (fun next t => n ← next; d ← next_due t now; Ok (Z.min n d)) tasks r = Ok deadline ->
    exists n, r = Ok n /\ deadline <= n) as Hle.
  { intros ts. induction ts as [|x ts IH]; cbn; intros r E; [subst; by eexists|].
    apply IH in E as (n & E & Hn). destruct r as [m|e|]; [|done..]. cbn in E.
    destruct (next_due x now); [|done..]. injection E as <-. exists m. split; [done|lia]. }
  induction tasks as [|x ts IH]; intros r E Hin; [by apply elem_of_nil in Hin|].
  cbn [fold_left] in E. apply elem_of_cons in Hin as [->|Hin]; [|by eapply IH].
  apply Hle in E as (n & E & Hn). destruct r as [m|e|]; [|done..]. cbn in E.
  destruct (next_due x now) as [d|e|]; [|done..]. injection E as <-. exists d. split; [done|lia].
Qed.

Lemma sleep_for_range maximum now deadline :
  0 < maximum ->
  let delay := sleep_for maximum now deadline in
  1 <= delay <= maximum /\
  (deadline < INT64_MAX -> forall u, now <= u -> u + 1000000 < now + delay * 1000000 -> u < deadline).
Proof.
  intros Hm delay. subst delay. unfold sleep_for.
  destruct (Z.eqb_spec deadline INT64_MAX) as [->|Hne]; cbn [negb andb]; [split; lia|].
  destruct (Z.ltb_spec now deadline).
  - split; [lia|]. intros _ u Hu1 Hu2.
    assert (- (- (deadline - now) / 1000000) * 1000000 < deadline - now + 1000000) by div_lia.
    lia.
  - split; [lia|]. lia.
Qed.
End Due.

(** ** One server only *)

Section OneServer.
Context {Zone L A : Type} `{TimeZone Zone} `{LawfulLocks L}.
Implicit Types (t : Task Zone A) (store : L) (a : A).

Lemma keys_differ t n slot :
  overlap_lock_key t <> lit "gungnir:scheduler:single:" ++ n ++ lit ":" ++ slot.
Proof. intros E. apply (f_equal (lookup 18%nat)) in E. discriminate E. Qed.

Lemma occurrence_key_shape t now k :
  occurrence_lock_key t now = Ok k ->
  exists slot, k = lit "gungnir:scheduler:single:" ++ name_ t ++ lit ":" ++ slot.
Proof. intros (slot & _ & [= <-])%bind_Ok. by exists slot. Qed.

(** The action and its bookkeeping do not touch the locks. *)
Lemma mark_observed_store now t store a r t' store' a' :
  mark_observed now (t, (store, a)) = (r, (t', (store', a'))) -> store' = store /\ a' = a.
Proof.
  unfold mark_observed. destruct (cron_ t); [destruct (to_local _ _)|]; by intros [= <- <- <- <-].
Qed.

Lemma run_task_store now t store a r t' store' a' :
  run_task now (t, (store, a)) = (r, (t', (store', a'))) -> store' = store.
Proof.
  unfold run_task, invoke_action, mbind, eff_bind. destruct (action_ t a) as [[u|e|] a1];
    [|by intros [= <- <- <- <-]..]. by intros [-> _]%mark_observed_store.
Qed.

(** Releasing the overlap lease leaves the other keys alone. *)
Lemma release_overlap_holder steady lease t store a r t' store' a' k :
  (forall l, lease = Some l -> key l <> k) ->
  release_overlap steady lease (t, (store, a)) = (r, (t', (store', a'))) -> holder store' k = holder store k.
Proof.
  intros Hk. destruct lease as [l|]; [|by intros [= <- <- <- <-]].
  unfold release_overlap, call_release, mbind, eff_bind. destruct (release steady l store) as [r1 s1] eqn:E.
  apply release_law in E as [Hother _].
  destruct r1; intros [= <- <- <- <-]; apply Hother; naive_solver.
Qed.

Lemma guarded_holder now steady_end lease t store a r t' store' a' k :
  (forall l, lease = Some l -> key l <> k) ->
  guarded now steady_end lease (t, (store, a)) = (r, (t', (store', a'))) ->
  holder store' k = holder store k.
Proof.
  intros Hk. unfold guarded, try_catch, mbind, eff_bind.
  destruct (run_task now (t, (store, a))) as [r1 [t1 [s1 a1]]] eqn:E1. apply run_task_store in E1 as ->.
  destruct r1 as [u|e|]; [|destruct (catchable e)|by intros [= <- <- <- <-]].
  - destruct (release_overlap steady_end lease (t1, (store, a1))) as [r2 [t2 [s2 a2]]] eqn:E2.
    apply (release_overlap_holder _ _ _ _ _ _ _ _ _ k Hk) in E2.
    destruct r2; by intros [= <- <- <- <-].
  - destruct (release_overlap steady_end lease (t1, (store, a1))) as [r2 [t2 [s2 a2]]] eqn:E2.
    apply (release_overlap_holder _ _ _ _ _ _ _ _ _ k Hk) in E2.
    destruct r2; by intros [= <- <- <- <-].
  - by intros [= <- <- <- <-].
Qed.

Lemma exclusive_holder now steady steady_end t store a r t' store' a' k :
  overlap_lock_key t <> k ->
  exclusive now steady steady_end (t, (store, a)) = (r, (t', (store', a'))) ->
  holder store' k = holder store k.
Proof.
  intros Hk. unfold exclusive, get, mbind, eff_bind. destruct (prevent_overlap_ t);
    [|by apply guarded_holder].
  unfold call_acquire. destruct (acquire steady _ _ store) as [r1 s1] eqn:E1. apply acquire_law in E1.
  destruct r1 as [[l|]|e|].
  - destruct E1 as (Hl & _ & _ & _ & Hother). intros E.
    rewrite <-(Hother k) by congruence.
    apply (guarded_holder now steady_end (Some l) t s1 a r t' store' a' k); [|done]. by intros ? [= <-]; rewrite Hl.
  - destruct E1 as [-> _].
    destruct (mark_observed now (t, (store, a))) as [r2 [t2 [s2 a2]]] eqn:E2.
    apply mark_observed_store in E2 as [-> ->]. destruct r2; by intros [= <- <- <- <-].
  - intros [= <- <- <- <-]. apply E1.
  - intros [= <- <- <- <-]. apply E1.
Qed.

(** The first server to execute an occurrence holds its lease when it is done. *)
Lemma execute_takes now steady steady_end t store a r t' store' a' k l s0 :
  one_server_ t = true -> occurrence_lock_key t now = Ok k ->
  acquire steady k (one_server_ttl_ t) store = (Ok (Some l), s0) ->
  execute true now steady steady_end (t, (store, a)) = (r, (t', (store', a'))) ->
  key l = k /\ holder store' k = Some (owner l, steady + one_server_ttl_ t * 1000000).
Proof.
  intros Ho Hk Ha. unfold execute, get, lift_result, mbind, eff_bind. rewrite Ho, andb_false_r. cbn [negb].
  rewrite Hk. unfold call_acquire. rewrite Ha. intros E.
  apply acquire_law in Ha as (Hl & _ & Hh & _). split; [done|]. rewrite <-Hh.
  apply occurrence_key_shape in Hk as [slot Hk].
  apply (exclusive_holder now steady steady_end t s0 a r t' store' a' k); [|done].
  rewrite Hk. apply keys_differ.
Qed.

(** While the lease of an occurrence is held, executing it does nothing. *)
Lemma execute_refused now steady steady_end t store a k o e :
  one_server_ t = true -> occurrence_lock_key t now = Ok k -> 0 < one_server_ttl_ t ->
  holder store k = Some (o, e) -> steady < e ->
  (forall r s', acquire steady k (one_server_ttl_ t) store = (r, s') -> exists x, r = Ok x) ->
  exists t', execute true now steady steady_end (t, (store, a)) = (Ok false, (t', (store, a))).
Proof.
  intros Ho Hk Httl Hh Hlt Hok. unfold execute, get, lift_result, mbind, eff_bind.
  rewrite Ho, andb_false_r. cbn [negb]. rewrite Hk. unfold call_acquire.
  destruct (acquire steady k (one_server_ttl_ t) store) as [r s'] eqn:Ea.
  destruct (Hok r s' eq_refl) as [x ->]. apply acquire_law in Ea. destruct x as [l|].
  - destruct Ea as (_ & _ & _ & Hfree & _). apply Hfree in Hh. lia.
  - destruct Ea as [-> _]. unfold mark_observed, mret, eff_ret.
    unfold occurrence_lock_key, occurrence_slot in Hk. destruct (cron_ t); [|by eexists].
    destruct (to_local (task_timezone_ t) now); [by eexists|done..].
Qed.
End OneServer.

(** ** Theorems *)

Definition example_cron : result CronExpression := parse (lit "30 4 * * *").
Definition nightly : Task UtcTimeZone Z :=
  mkTask (lit "report") None (match example_cron with Ok c => Some c | _ => None end)
    (fun n => (Ok (), n + 1)) 0 utc None false true one_day_ms one_day_ms false.

(** [next_due] is exact for every kind of task and zone: from [now] on the task is
    not due before the instant it returns, and it is due at that instant (or now, if
    it has passed).  It throws only when the arithmetic overflows or when a cron
    expression does not occur within the search horizon, and then the task is not due
    within that horizon. *)
Theorem next_due_exact {Zone A} (zone_ok : Zone -> Prop) `{LawfulZone Zone zone_ok}
    `{!MinuteZone Zone zone_ok} (t : Task Zone A) now :
  zone_ok (task_timezone_ t) -> interval_ t <> None \/ cron_ t <> None ->
  match next_due t now with
  | Ok d => (forall u, now <= u < d -> due t u = Ok false) /\ due t (Z.max now d) = Ok true
  | Throw (runtime_error _) => forall u,
      now <= u < (now / ns_per_minute + 1 + search_limit) * ns_per_minute -> due t u = Ok false
  | Throw (undefined _) => interval_ t <> None
  | _ => False
  end.
Proof.
  intros Hz Hs. destruct (interval_ t) as [i|] eqn:Hi.
  - pose proof (next_due_interval t now i) as Hn. unfold next_due in *. rewrite Hi in *.
    destruct (negb (has_run_ t)); [by apply Hn|]. unfold plus_ms in *.
    destruct (_ || _); [done|]. by apply Hn.
  - destruct (cron_ t) as [c|] eqn:Hc; [|by destruct Hs].
    pose proof (next_due_cron zone_ok t now c Hi Hc Hz) as Hn.
    destruct (next_due t now) as [d|e|]; [apply Hn| |done]. by destruct e.
Qed.

Lemma next_due_exact_witness :
  next_due nightly 0 = Ok (270 * ns_per_minute) /\
  (forall u, 0 <= u < 270 * ns_per_minute -> due nightly u = Ok false) /\
  due nightly (270 * ns_per_minute) = Ok true.
Proof.
  assert (next_due nightly 0 = Ok (270 * ns_per_minute)) as E by (vm_compute; reflexivity).
  split; [exact E|].
  pose proof (next_due_exact (fun _ => True) nightly 0 I ltac:(right; discriminate)) as Hn.
  rewrite E in Hn. exact Hn.
Defined.

(** The runner does not sleep through a task: it sleeps at least one millisecond and
    at most the configured maximum, and while it sleeps no task becomes due before
    the last millisecond of the sleep. *)
Theorem runner_never_oversleeps {Zone A} (zone_ok : Zone -> Prop) `{LawfulZone Zone zone_ok}
    `{!MinuteZone Zone zone_ok} (tasks : list (Task Zone A)) maximum now deadline :
  Forall (scheduled zone_ok) tasks -> 0 < maximum -> now + maximum * 1000000 <= INT64_MAX ->
  next_due_at tasks now = Ok deadline ->
  let delay := sleep_for maximum now deadline in
  1 <= delay <= maximum /\
  forall t u, t ∈ tasks -> now <= u -> u + 1000000 < now + delay * 1000000 -> due t u = Ok false.
Proof.
  intros Hs Hm Hmax E delay. destruct (sleep_for_range maximum now deadline Hm) as [Hr Hu].
  fold delay in Hr, Hu. split; [done|]. intros t u Hin Hu1 Hu2.
  destruct (next_due_at_le tasks now deadline t E Hin) as (d & Ed & Hd).
  rewrite Forall_forall in Hs. destruct (next_due_scheduled zone_ok t now d (Hs t Hin) Ed) as [Hnot _].
  apply Hnot. split; [done|]. destruct (Z.lt_ge_cases deadline INT64_MAX) as [Hl|Hl]; [|lia].
  specialize (Hu Hl u Hu1 Hu2). lia.
Qed.

Lemma runner_never_oversleeps_witness :
  sleep_for 60000 0 (270 * ns_per_minute) = 60000 /\
  forall u, 0 <= u -> u + 1000000 < 0 + 60000 * 1000000 -> due nightly u = Ok false.
Proof.
  destruct (runner_never_oversleeps (fun _ => True) [nightly] 60000 0 (270 * ns_per_minute))
    as [_ Hdue].
  - apply Forall_cons_2; [|apply Forall_nil_2]. split; [exact I|right; discriminate].
  - reflexivity.
  - discriminate.
  - vm_compute. reflexivity.
  - split; [reflexivity|]. intros u Hu1 Hu2. apply (Hdue nightly u); [left|exact Hu1|exact Hu2].
Defined.

(** A task marked for one server runs once per occurrence.  When one server has
    taken the lease of an occurrence, whether its action succeeded or threw, then for
    the time to live of the lease, whatever others do with the store, every other
    server that executes the same occurrence returns without running the action and
    without changing the store. *)
Theorem one_server_once {Zone L A} `{TimeZone Zone} `{LawfulLocks L} (t1 t2 : Task Zone A)
    now1 now2 steady1 end1 steady2 end2 k l s0 (store : L) (a1 a2 a1' : A) r1 t1' store1 ops outs store2 :
  one_server_ t1 = true -> one_server_ t2 = true -> 0 < one_server_ttl_ t2 ->
  occurrence_lock_key t1 now1 = Ok k -> occurrence_lock_key t2 now2 = Ok k ->
  acquire steady1 k (one_server_ttl_ t1) store = (Ok (Some l), s0) ->
  execute true now1 steady1 end1 (t1, (store, a1)) = (r1, (t1', (store1, a1'))) ->
  let expiry := steady1 + one_server_ttl_ t1 * 1000000 in
  Forall (fun x => foreign_to l x.2 /\ x.1 < expiry) ops -> lock_run ops store1 = (outs, store2) ->
  steady2 < expiry ->
  (forall r s', acquire steady2 k (one_server_ttl_ t2) store2 = (r, s') -> exists x, r = Ok x) ->
  exists t2', execute true now2 steady2 end2 (t2, (store2, a2)) = (Ok false, (t2', (store2, a2))).
Proof.
  intros Ho1 Ho2 Httl Hk1 Hk2 Ha Hx expiry Hops Hrun Hlt Hok.
  destruct (execute_takes now1 steady1 end1 t1 store a1 r1 t1' store1 a1' k l s0 Ho1 Hk1 Ha Hx) as [Hl Hh].
  fold expiry in Hh. rewrite <-Hl in Hh.
  destruct (lock_run_holds ops l expiry store1 outs store2 Hops Hh Hrun) as [Hh2 _]. rewrite Hl in Hh2.
  by apply (execute_refused now2 steady2 end2 t2 store2 a2 k (owner l) expiry).
Qed.

Lemma one_server_once_witness :
  let '(_, (_, (store1, a1))) := execute true (270 * ns_per_minute) 0 5 (nightly, (empty_locks, 0)) in
  a1 = 1 /\
  exists t2, execute true (270 * ns_per_minute + 7) 9 9 (nightly, (store1, 0)) =
    (Ok false, (t2, (store1, 0))).
Proof.
  destruct (execute true (270 * ns_per_minute) 0 5 (nightly, (empty_locks, 0)))
    as [r [t1 [store1 a1]]] eqn:E.
  assert (a1 = 1) as Ha1.
  { transitivity (execute true (270 * ns_per_minute) 0 5 (nightly, (empty_locks, 0))).2.2.2;
      [rewrite E; reflexivity|vm_compute; reflexivity]. }
  split; [exact Ha1|].
  eapply (one_server_once (H1 := memory_locks_lawful) nightly nightly (270 * ns_per_minute)
    (270 * ns_per_minute + 7) 0 5 9 9 (lit "gungnir:scheduler:single:report:1970-1-1-4-30") _ _ empty_locks
    0 0 a1 r t1 store1 []).
  - reflexivity.
  - reflexivity.
  - reflexivity.
  - vm_compute. reflexivity.
  - vm_compute. reflexivity.
  - vm_compute. reflexivity.
  - exact E.
  - apply Forall_nil_2.
  - reflexivity.
  - reflexivity.
  - intros r' s'. apply memory_acquire_answers; discriminate || lia || reflexivity.
Defined.

(** An expression that can never match, such as February 30th, is accepted by the
    parser, but a task with it makes [next_due] throw at every instant; so the runner,
    which asks every task before it sleeps, throws as soon as it would sleep, and no
    other task runs any more. *)
Theorem impossible_date_stops_runner {Zone L A} (zone_ok : Zone -> Prop) `{LawfulZone Zone zone_ok}
    `{!MinuteZone Zone zone_ok} `{LockStore L} (t : Task Zone A) c maximum i rest executed s (w : L * A)
    n tasks w' :
  interval_ t = None -> cron_ t = Some c -> ~ satisfiable c -> zone_ok (task_timezone_ t) -> t ∈ tasks ->
  run_tasks (locks_configured_ s) (pass_now i) (readings i) (tasks_ s) w = (Ok n, (tasks, w')) ->
  stop_at_head i = false -> stop_after i = false ->
  ~ exists m, (run_loop maximum (i :: rest) executed s w).1 = Ok m.
Proof.
  intros Hi Hc Hs Hz Hin Hpass Hh Ha [m E].
  destruct (next_due_impossible zone_ok t (sleep_now i) c Hi Hc Hz Hs) as [what Ht].
  cbn [run_loop] in E. rewrite Hh, Hpass, Ha in E. cbn [set_tasks tasks_] in E.
  destruct (next_due_at tasks (sleep_now i)) as [deadline|e|] eqn:En; [|done..].
  destruct (next_due_at_le tasks (sleep_now i) deadline t En Hin) as (d & Ed & _). congruence.
Qed.

Definition impossible : Task UtcTimeZone Z :=
  cron_task (lit "never") (match parse (lit "0 0 30 2 *") with Ok c => c | _ => mkCron (mkField 0 0 true [])
    (mkField 0 0 true []) (mkField 0 0 true []) (mkField 0 0 true []) (mkField 0 0 true []) end)
    (fun n => (Ok (), n)) utc.

Lemma impossible_date_stops_runner_witness :
  is_ok (parse (lit "0 0 30 2 *")) = true /\
  ~ exists m, (run_loop 60000 [mkIteration false 0 [] false 0] 0
                 (mkScheduler utc false ∅ [impossible] false true) (empty_locks, 0)).1 = Ok m.
Proof.
  split; [vm_compute; reflexivity|].
  destruct (cron_ impossible) as [c|] eqn:Hc; [|discriminate Hc].
  assert (parse (lit "0 0 30 2 *") = Ok c) as Hp.
  { revert Hc. unfold impossible, cron_task. cbn [cron_].
    destruct (parse (lit "0 0 30 2 *")) as [c'|e|] eqn:E; [intros [= ->]; reflexivity| |];
      vm_compute in E; discriminate E. }
  apply (impossible_date_stops_runner (fun _ => True) impossible c 60000 _ _ 0 _ _ 0 [impossible]
    (empty_locks, 0)).
  - reflexivity.
  - exact Hc.
  - vm_compute in Hp. injection Hp as <-. intros Hs.
    destruct (Hs eq_refl eq_refl) as (m & d & Hm & Hd & Hle).
    assert (m = 2) as ->.
    { unfold contains in Hm. cbn [minimum maximum values month_] in Hm.
      destruct (Z.ltb_spec m 1); cbn [orb] in Hm; [discriminate Hm|].
      destruct (Z.gtb_spec m 12); [discriminate Hm|].
      assert (m = 1 \/ m = 2 \/ m = 3 \/ m = 4 \/ m = 5 \/ m = 6 \/ m = 7 \/ m = 8 \/ m = 9 \/
        m = 10 \/ m = 11 \/ m = 12) as Hcases by lia.
      repeat destruct Hcases as [->|Hcases]; try subst m; first [discriminate Hm | reflexivity]. }
    assert (d <= 29) as Hd29 by exact Hle.
    unfold contains in Hd. cbn [minimum maximum values day_of_month_] in Hd.
    destruct (Z.ltb_spec d 1); cbn [orb] in Hd; [discriminate Hd|].
    destruct (Z.gtb_spec d 31); [discriminate Hd|].
    assert (exists k, Z.to_nat (d - 1) = k /\ (k < 29)%nat) as (k & Hk & Hlt) by (exists (Z.to_nat (d - 1)); lia).
    rewrite Hk in Hd. clear -Hd Hlt.
    do 29 (destruct k as [|k]; [discriminate Hd|]). lia.
  - exact I.
  - left.
  - vm_compute. reflexivity.
  - reflexivity.
  - reflexivity.
Defined.
