(* ===== verification/Regex.v ===== *)
(** * Regular expressions

    What the lexer uses of [std::regex_match]: membership of a whole string in the
    language of a pattern made of character classes, concatenation, alternatives and
    repetition.  The matcher takes derivatives; [in_regex] is the meaning of a
    pattern, and the two agree. *)

From S2P Require Import Prelude.

Inductive regex :=
| RNone
| REmpty
| RClass (p : byte -> bool)
| RSeq (a b : regex)
| RAlt (a b : regex)
| RStar (a : regex).

Declare Scope regex_scope.
Delimit Scope regex_scope with regex.
Bind Scope regex_scope with regex.
Infix "·" := RSeq (at level 40, left associativity) : regex_scope.
Infix "∥" := RAlt (at level 50, left associativity) : regex_scope.

(** Derived forms: one of the characters of a string, a literal, [?], [+], [{n}] and
    [{1,n}]. *)
Definition one_of (s : string) : regex := RClass (fun c => existsb (fun b => c =b? b) (lit s)).
Definition range (lo hi : byte) : regex := RClass (between lo hi).
Definition literal (s : string) : regex :=
  fold_right (fun b r => RSeq (RClass (fun c => c =b? b)) r) REmpty (lit s).
Definition opt (r : regex) : regex := RAlt r REmpty.
Definition plus (r : regex) : regex := RSeq r (RStar r).

Fixpoint times (n : nat) (r : regex) : regex :=
  match n with O => REmpty | S n => RSeq r (times n r) end.

Fixpoint up_to (n : nat) (r : regex) : regex :=
  match n with O => REmpty | S n => opt (RSeq r (up_to n r)) end.

(** ** Matching *)

Fixpoint nullable (r : regex) : bool :=
  match r with
  | RNone | RClass _ => false
  | REmpty | RStar _ => true
  | RSeq a b => nullable a && nullable b
  | RAlt a b => nullable a || nullable b
  end.

Fixpoint derive (c : byte) (r : regex) : regex :=
  match r with
  | RNone | REmpty => RNone
  | RClass p => if p c then REmpty else RNone
  | RSeq a b =>
      if nullable a then RAlt (RSeq (derive c a) b) (derive c b) else RSeq (derive c a) b
  | RAlt a b => RAlt (derive c a) (derive c b)
  | RStar a => RSeq (derive c a) (RStar a)
  end.

Fixpoint regex_match (r : regex) (s : bytes) : bool :=
  match s with
  | [] => nullable r
  | c :: s => regex_match (derive c r) s
  end.

(** ** Meaning *)

Inductive in_regex : regex -> bytes -> Prop :=
| in_empty : in_regex REmpty []
| in_class p c : p c = true -> in_regex (RClass p) [c]
| in_seq a b s t : in_regex a s -> in_regex b t -> in_regex (RSeq a b) (s ++ t)
| in_left a b s : in_regex a s -> in_regex (RAlt a b) s
| in_right a b s : in_regex b s -> in_regex (RAlt a b) s
| in_star_nil a : in_regex (RStar a) []
| in_star_cons a s t : in_regex a s -> in_regex (RStar a) t -> in_regex (RStar a) (s ++ t).

Create HintDb regex.
#[export] Hint Constructors in_regex : regex.

Lemma nullable_in r : nullable r = true <-> in_regex r [].
Proof.
  split.
  - induction r; cbn; intros H; try done; eauto with regex.
    + reflect_bools. change (@nil byte) with (@nil byte ++ []). auto with regex.
    + apply orb_true_iff in H as [H|H]; auto with regex.
  - remember [] as e eqn:E. intros H. induction H; cbn; try done.
    + apply app_eq_nil in E as [-> ->]. rewrite IHin_regex1, IHin_regex2; done.
    + by rewrite IHin_regex.
    + by rewrite IHin_regex, orb_true_r.
Qed.

(** A repetition that matches a first character starts with a non-empty round. *)
Lemma star_cons a c s :
  in_regex (RStar a) (c :: s) ->
  exists u v, s = u ++ v /\ in_regex a (c :: u) /\ in_regex (RStar a) v.
Proof.
  remember (RStar a) as r eqn:Er. remember (c :: s) as w eqn:Ew. intros H. revert c s Ew.
  induction H as [| | | | | |a' u v Hu _ Hv IHv]; intros c0 s0 Ew; try discriminate Er; [done|].
  injection Er as ->. destruct u as [|d u]; cbn in Ew; [by apply IHv|].
  injection Ew as -> <-. by exists u, v.
Qed.

Lemma derive_in c r s : in_regex (derive c r) s <-> in_regex r (c :: s).
Proof.
  revert s. induction r as [| |p|a IHa b IHb|a IHa b IHb|a IHa]; intros s; cbn [derive].
  - split; inversion 1.
  - split; inversion 1.
  - destruct (p c) eqn:Hp; split; inversion 1; subst; auto with regex. congruence.
  - assert (in_regex (RSeq (derive c a) b) s <->
      exists u v, s = u ++ v /\ in_regex a (c :: u) /\ in_regex b v) as Hseq.
    { split.
      - inversion 1; subst. eexists _, _. split; [done|]. by rewrite <-IHa.
      - intros (u & v & -> & Hu & Hv). constructor; [by apply IHa|done]. }
    assert (in_regex (RSeq a b) (c :: s) <->
      (exists u v, s = u ++ v /\ in_regex a (c :: u) /\ in_regex b v) \/
      nullable a = true /\ in_regex b (c :: s)) as Hcons.
    { split.
      - inversion 1 as [| |a' b' u v Hu Hv Ea Ew| | | |]; subst. destruct u as [|d u]; cbn in Ew.
        + subst v. right. by rewrite nullable_in.
        + injection Ew as -> <-. left. by exists u, v.
      - intros [(u & v & -> & Hu & Hv)|[Hn Hb]].
        + by apply (in_seq a b (c :: u) v).
        + apply nullable_in in Hn. by apply (in_seq a b [] (c :: s)). }
    rewrite Hcons, <-Hseq. destruct (nullable a).
    + split; [inversion 1; subst; [by left|right; by rewrite <-IHb]|].
      intros [H|[_ H]]; [by apply in_left|apply in_right; by apply IHb].
    + split; [by left|by intros [|[? _]]].
  - split; (inversion 1; subst; [apply in_left|apply in_right]); by (apply IHa || apply IHb).
  - split.
    + inversion 1; subst. apply (in_star_cons a (c :: s0) t); [by apply IHa|done].
    + intros (u & v & -> & Hu & Hv)%star_cons. constructor; [by apply IHa|done].
Qed.

(** The matcher accepts exactly the strings of the pattern. *)
Lemma regex_match_in r s : regex_match r s = true <-> in_regex r s.
Proof.
  revert r. induction s as [|c s IH]; intros r; cbn; [apply nullable_in|]. by rewrite IH, derive_in.
Qed.
