(* ===== verification/Lexer.v ===== *)
(** * The lexer of the Gungnir language ([src/language/lexer.cpp])

    [Lexer::tokenize] cuts a source text into tokens with their offset, line and
    column, trivia included, and reports malformed literals and comments.  The
    scanners below return the text they consume and the rest of the source; the
    source's [advance] is folded over that text to move the position.

    The lexer loses nothing, and its positions and diagnostics are exact *)

From S2P Require Import Prelude Numeral Text Cron Regex.

Inductive TokenKind :=
| identifier | keyword | number | string_literal | character_literal
| whitespace | comment | symbol | end_.

#[export] Instance TokenKind_eq_dec : EqDecision TokenKind.
Proof. solve_decision. Defined.

Record Token := mkToken { kind : TokenKind; lexeme : bytes; offset : Z; line : Z; column : Z }.

Definition trivia (t : Token) : bool :=
  bool_decide (kind t = whitespace) || bool_decide (kind t = comment).

Definition word (t : Token) : bool :=
  bool_decide (kind t = identifier) || bool_decide (kind t = keyword).

(** What the lexer fills of a [Diagnostic]: position, span, message and code. *)
Record Diagnostic := mkDiagnostic {
  d_line : Z; d_column : Z; begin_offset : Z; end_offset : Z; d_message : string; d_code : string
}.

Definition keywords : list bytes :=
  map lit ["async"; "await"; "bool"; "boolean"; "connection"; "controller"; "double"; "event"; "float";
    "inject"; "int"; "int64"; "integer"; "listener"; "mail"; "middleware"; "migration"; "model";
    "notification"; "policy"; "softDeletes"; "string"; "table"; "timestamps"; "uint64"; "validation"].

Definition is_keyword (value : bytes) : bool := bool_decide (value ∈ keywords).

(** ** Characters, in the "C" locale *)

Definition isxdigit (c : byte) : bool := is_digit c || between "a" "f" c || between "A" "F" c.
Definition word_char (c : byte) : bool := isalnum c || (c =b? "_").

Definition newline : byte := x0a.
Definition backslash : byte := x5c.

(** ** Positions *)

Record Position := mkPosition { p_offset : Z; p_line : Z; p_column : Z }.

Definition start_position : Position := mkPosition 0 1 1.

(** The lambda [advance]. *)
Definition advance (c : byte) (p : Position) : Position :=
  if c =b? newline then mkPosition (p_offset p + 1) (p_line p + 1) 1
  else mkPosition (p_offset p + 1) (p_line p) (p_column p + 1).

Definition advance_over (text : bytes) (p : Position) : Position :=
  fold_left (fun p c => advance c p) text p.

(** ** Scanners *)

(** The text between the last line break and the current position, which a directive
    requires to be blank; [before] is the consumed source, last character first. *)
Definition blank_prefix (before : bytes) : bool :=
  forallb (fun c => (c =b? " ") || (c =b? x09) || (c =b? x0d))
    (span (fun c => negb (c =b? newline)) before).1.

(** A directive ends at a line break that no backslash precedes. *)
Fixpoint scan_directive (previous : byte) (s : bytes) : bytes * bytes :=
  match s with
  | [] => ([], [])
  | c :: s' =>
      if (c =b? newline) && negb (previous =b? backslash) then ([], s)
      else let '(l, r) := scan_directive c s' in (c :: l, r)
  end.

(** The body of a block comment with its end, and whether there is one. *)
Fixpoint scan_block (s : bytes) : bytes * bytes * bool :=
  match s with
  | [] => ([], [], false)
  | c :: s' =>
      match s' with
      | d :: s'' =>
          if (c =b? "*") && (d =b? "/") then ([c; d], s'', true)
          else let '(l, r, closed) := scan_block s' in (c :: l, r, closed)
      | [] => ([c], [], false)
      end
  end.

(** [source_.find(closing, index)]: the text up to and including the first occurrence,
    or all of it. *)
Definition scan_to (closing s : bytes) : bytes * bytes * bool :=
  match find closing s with
  | Some (l, r) => (l ++ closing, r, true)
  | None => (s, [], false)
  end.

(** The delimiter of a raw string ends at a parenthesis. *)
Definition bad_delimiter (delimiter : bytes) : bool :=
  (16 <? Z.of_nat (length delimiter)) ||
  existsb (fun c => (c =b? " ") || (c =b? backslash) || (c =b? ")") || (c =b? x09) || (c =b? x0d)
                    || (c =b? newline)) delimiter.

(** A raw string after the opening quote: its text, the rest, the length at which a bad delimiter
    is reported, and whether it is closed. *)
Definition scan_raw (s : bytes) : bytes * bytes * option Z * bool :=
  let '(delimiter, rest) := span (fun c => negb (c =b? "(")) s in
  match rest with
  | [] => (delimiter, [], None, false)
  | paren :: body =>
      let '(l, r, closed) := scan_to (lit ")" ++ delimiter ++ [x22]) body in
      (delimiter ++ paren :: l, r,
       if bad_delimiter delimiter then Some (Z.of_nat (length delimiter)) else None, closed)
  end.

(** A quoted literal after its opening quote: its text, the rest, whether it is closed
    and whether a line break ended it. *)
Fixpoint scan_quoted (quote : byte) (escaped : bool) (s : bytes) : bytes * bytes * bool * bool :=
  match s with
  | [] => ([], [], false, false)
  | c :: s' =>
      let continue_ escaped :=
        let '(l, r, closed, broken) := scan_quoted quote escaped s' in (c :: l, r, closed, broken) in
      if escaped then continue_ false
      else if c =b? backslash then continue_ true
      else if (c =b? newline) || (c =b? x0d) then ([c], s', false, true)
      else if c =b? quote then ([c], s', true, false)
      else continue_ false
  end.

(** A number after its first character; [hexadecimal] is whether the token starts with
    [0x], which is known wherever a sign can follow an exponent letter. *)
Fixpoint scan_number (hexadecimal : bool) (previous : byte) (s : bytes) : bytes * bytes :=
  match s with
  | [] => ([], [])
  | c :: s' =>
      if negb (isalnum c) && negb (c =b? "_") && negb (c =b? ".") &&
         negb (((c =b? "+") || (c =b? "-")) && ((previous =b? "e") || (previous =b? "E")) &&
               negb hexadecimal)
      then ([], s)
      else let '(l, r) := scan_number hexadecimal c s' in (c :: l, r)
  end.

(** ** The regular expressions of literals *)

Local Open Scope regex_scope.

Definition hex_digit : regex := RClass isxdigit.
Definition digit_class : regex := RClass is_digit.
Definition octal : regex := range "0" "7".

(** One character other than a quote, a backslash or a line break, or an escape, between
    single quotes. *)
Definition character_regex : regex :=
  let quote := RClass (fun c => c =b? x27) in
  let plain := RClass (fun c => negb ((c =b? x27) || (c =b? backslash) || (c =b? x0d) || (c =b? newline))) in
  let simple := RClass (fun c => existsb (fun b => c =b? b) (lit "abfnrtv" ++ [backslash; x27; x22; "?"%byte])) in
  let escape := RClass (fun c => c =b? backslash) ·
    (simple ∥ octal · up_to 2 octal ∥ literal "x" · plus hex_digit ∥
     literal "u" · times 4 hex_digit ∥ literal "U" · times 8 hex_digit) in
  quote · (plain ∥ escape) · quote.

(** An optional [u] and an optional [l] or [ll], in either order and case. *)
Definition integer_suffix : regex :=
  let long := one_of "lL" ∥ literal "ll" ∥ literal "LL" in
  opt (one_of "uU" · opt long ∥ long · opt (one_of "uU")).

(** Hexadecimal, binary, decimal and floating numbers. *)
Definition number_regex : regex :=
  literal "0" · one_of "xX" · plus hex_digit · integer_suffix ∥
  literal "0" · one_of "bB" · plus (one_of "01") · integer_suffix ∥
  plus digit_class · integer_suffix ∥
  (plus digit_class · literal "." · RStar digit_class ∥ literal "." · plus digit_class ∥ plus digit_class)
    · opt (one_of "eE" · opt (one_of "+-") · plus digit_class) · opt (one_of "fFlL").

Local Close Scope regex_scope.

(** Digit separators stand between digits. *)
Fixpoint separators_from (is_digit_ : byte -> bool) (previous : option byte) (s : bytes) : bool :=
  match s with
  | [] => true
  | c :: s' =>
      (if c =b? "_" then
         match previous, s' with
         | Some p, n :: _ => is_digit_ p && is_digit_ n
         | _, _ => false
         end
       else true) && separators_from is_digit_ (Some c) s'
  end.

Definition hex_prefix (s : bytes) : bool :=
  match s with c :: d :: _ => (c =b? "0") && ((d =b? "x") || (d =b? "X")) | _ => false end.

Definition separators_valid (literal_ : bytes) : bool :=
  separators_from (if hex_prefix literal_ then isxdigit else is_digit) None literal_.

(** ** Tokens *)

Section Tokenize.
Context (single_quoted_strings : bool).

(** [report]: the span is at least one byte. *)
Definition report (p : Position) (length_ : Z) (what code : string) : Diagnostic :=
  mkDiagnostic (p_line p) (p_column p) (p_offset p) (Z.max (p_offset p + 1) (p_offset p + length_)) what code.

Definition report_if (b : bool) (p : Position) (text : bytes) (what code : string) : list Diagnostic :=
  if b then [report p (Z.of_nat (length text)) what code] else [].

Definition malformed (literal_ : bytes) : string :=
  String.append (message "Malformed numeric literal '" literal_) "'".

(** The diagnostics of a number. *)
Definition check_number (p : Position) (text : bytes) : list Diagnostic :=
  let valid_separators := if single_quoted_strings then separators_valid text else true in
  let literal_ := if single_quoted_strings then base.filter (fun c => negb (c =b? "_")) text else text in
  report_if (negb valid_separators || negb (regex_match number_regex literal_)) p text
    (malformed literal_) "GNR0903".

(** What one round of the loop makes of the source [c :: s]: the kind and text of the
    token, the rest, and the diagnostics. *)
Definition lex_quoted (p : Position) (c : byte) (s : bytes)
    : TokenKind * bytes * bytes * list Diagnostic :=
  let '(l, r, closed, broken) := scan_quoted c false s in
  let text := c :: l in
  ((if (c =b? x22) || single_quoted_strings then string_literal else character_literal), text, r,
   report_if broken p text "Newline in quoted literal" "GNR0902" ++
   report_if (negb closed) p text "Unterminated quoted literal" "GNR0902" ++
   report_if (closed && (c =b? x27) && negb single_quoted_strings && negb (regex_match character_regex text))
     p text "Single quotes require one character; use double quotes for strings" "GNR0904").

Definition lex_raw (p : Position) (c q : byte) (s : bytes)
    : TokenKind * bytes * bytes * list Diagnostic :=
  let '(l, r, bad, closed) := scan_raw s in
  let text := c :: q :: l in
  (string_literal, text, r,
   match bad with
   | Some n => [report p (2 + n) "Invalid raw string delimiter" "GNR0902"]
   | None => []
   end ++
   report_if (negb closed) p text "Unterminated raw string literal" "GNR0902").

Definition next_is (c : byte) (s : bytes) : bool :=
  match s with d :: _ => d =b? c | [] => false end.

Definition lex_one (before : bytes) (p : Position) (c : byte) (s : bytes)
    : TokenKind * bytes * bytes * list Diagnostic :=
  if (c =b? "#") && blank_prefix before then
    let '(l, r) := scan_directive c s in (comment, c :: l, r, [])
  else if isspace c then
    let '(l, r) := span isspace s in (whitespace, c :: l, r, [])
  else if (c =b? "/") && next_is "/" s then
    let '(l, r) := span (fun c => negb (c =b? newline)) (drop 1 s) in (comment, c :: take 1 s ++ l, r, [])
  else if (c =b? "/") && next_is "*" s then
    let '(l, r, closed) := scan_block (drop 1 s) in
    let text := c :: take 1 s ++ l in
    (comment, text, r, report_if (negb closed) p text "Unterminated block comment" "GNR0901")
  else if (c =b? "R") && next_is x22 s then lex_raw p c x22 (drop 1 s)
  else if (c =b? x22) || (c =b? x27) then lex_quoted p c s
  else if isalpha c || (c =b? "_") then
    let '(l, r) := span word_char s in
    ((if is_keyword (c :: l) then keyword else identifier), c :: l, r, [])
  else if is_digit c || ((c =b? ".") && match s with d :: _ => is_digit d | [] => false end) then
    let '(l, r) := scan_number (hex_prefix (c :: s)) c s in
    (number, c :: l, r, check_number p (c :: l))
  else (symbol, [c], s, []).

(** The loop: one token per round. *)
Fixpoint lex_loop (fuel : nat) (before : bytes) (p : Position) (s : bytes)
    : result (list Token * list Diagnostic) :=
  match fuel with
  | O => NoFuel
  | S fuel =>
      match s with
      | [] => Ok ([mkToken end_ [] (p_offset p) (p_line p) (p_column p)], [])
      | c :: s' =>
          let '(k, text, rest, ds) := lex_one before p c s' in
          let t := mkToken k text (p_offset p) (p_line p) (p_column p) in
          '(tokens, diagnostics) ← lex_loop fuel (rev text ++ before) (advance_over text p) rest;
          Ok (t :: tokens, ds ++ diagnostics)
      end
  end.

Definition tokenize (source : bytes) : result (list Token * list Diagnostic) :=
  lex_loop (S (length source)) [] start_position source.
End Tokenize.

(** ** Scanners cut the source *)

Lemma scan_directive_app previous s l r : scan_directive previous s = (l, r) -> s = l ++ r.
Proof.
  revert previous l. induction s as [|c s IH]; intros previous l; cbn; [by intros [= <- <-]|].
  destruct (_ && _); [by intros [= <- <-]|].
  destruct (scan_directive c s) as [l' r'] eqn:E. intros [= <- <-]. cbn. f_equal. by eapply IH.
Qed.

Lemma scan_block_app s l r closed : scan_block s = (l, r, closed) -> s = l ++ r.
Proof.
  revert l r closed. induction s as [|c s IH]; intros l r closed; [by intros [= <- <- <-]|].
  cbn [scan_block]. destruct s as [|d s']; [by intros [= <- <- <-]|].
  destruct (_ && _); [by intros [= <- <- <-]|].
  destruct (scan_block (d :: s')) as [[l' r'] closed'] eqn:E. intros [= <- <- <-]. cbn. f_equal.
  by eapply IH.
Qed.

Lemma scan_to_app closing s l r found : scan_to closing s = (l, r, found) -> s = l ++ r.
Proof.
  unfold scan_to. destruct (find closing s) as [[l' r']|] eqn:E; intros [= <- <- <-].
  - rewrite <-app_assoc. by apply find_inv.
  - by rewrite app_nil_r.
Qed.

Lemma scan_raw_app s l r bad closed :
  scan_raw s = (l, r, bad, closed) ->
  s = l ++ r /\ forall n, bad = Some n -> 0 <= n <= Z.of_nat (length l).
Proof.
  unfold scan_raw. destruct (span _ s) as [delimiter rest] eqn:E. apply span_app in E as ->.
  destruct rest as [|paren body]; [by intros [= <- <- <- <-]|].
  destruct (scan_to _ body) as [[l' r'] f] eqn:E'. apply scan_to_app in E' as ->.
  intros [= <- <- <- <-]. split; [by rewrite <-app_assoc|].
  intros n. destruct (bad_delimiter delimiter); [|done]. intros [= <-]. rewrite length_app. lia.
Qed.

Lemma scan_quoted_app quote escaped s l r closed broken :
  scan_quoted quote escaped s = (l, r, closed, broken) -> s = l ++ r.
Proof.
  revert escaped l r closed broken. induction s as [|c s IH]; intros escaped l r closed broken;
    cbn [scan_quoted]; [by intros [= <- <- <- <-]|].
  assert (forall e, (let '(l, r, closed, broken) := scan_quoted quote e s in (c :: l, r, closed, broken)) =
    (l, r, closed, broken) -> c :: s = l ++ r) as Hnext.
  { intros e. destruct (scan_quoted quote e s) as [[[l' r'] c'] b'] eqn:E. intros [= <- <- <- <-].
    cbn. f_equal. by eapply IH. }
  destruct escaped; [apply Hnext|]. destruct (c =b? backslash); [apply Hnext|].
  destruct (_ || _); [by intros [= <- <- <- <-]|]. destruct (c =b? quote); [by intros [= <- <- <- <-]|].
  apply Hnext.
Qed.

Lemma scan_number_app hexadecimal previous s l r :
  scan_number hexadecimal previous s = (l, r) -> s = l ++ r.
Proof.
  revert previous l. induction s as [|c s IH]; intros previous l; cbn; [by intros [= <- <-]|].
  destruct (_ && _); [by intros [= <- <-]|].
  destruct (scan_number hexadecimal c s) as [l' r'] eqn:E. intros [= <- <-]. cbn. f_equal. by eapply IH.
Qed.

(** ** One token *)

(** A diagnostic about the text [text] at position [p]. *)
Definition about (p : Position) (text : bytes) (d : Diagnostic) : Prop :=
  d_line d = p_line p /\ d_column d = p_column p /\ begin_offset d = p_offset p /\
  p_offset p < end_offset d <= p_offset p + Z.of_nat (length text).

Lemma report_about p n text what code :
  text <> [] -> n <= Z.of_nat (length text) -> about p text (report p n what code).
Proof.
  intros Ht Hn. unfold about, report. cbn. split_and!; try done; [lia|].
  destruct text; [done|]. cbn [length] in *. lia.
Qed.

Lemma report_if_about b p text what code :
  text <> [] -> Forall (about p text) (report_if b p text what code).
Proof.
  intros Ht. unfold report_if. destruct b; [|apply Forall_nil_2].
  apply Forall_singleton. by apply report_about.
Qed.

(** What a round of the loop guarantees of its token. *)
Definition token_ok (p : Position) (source : bytes) (x : TokenKind * bytes * bytes * list Diagnostic) : Prop :=
  let '(k, text, rest, ds) := x in
  source = text ++ rest /\ text <> [] /\ k <> end_ /\ Forall (about p text) ds.

Lemma lex_quoted_ok single p c s : token_ok p (c :: s) (lex_quoted single p c s).
Proof.
  unfold lex_quoted, token_ok. destruct (scan_quoted c false s) as [[[l r] closed] broken] eqn:E.
  apply scan_quoted_app in E as ->. split_and!; [done|done|by destruct (_ || _)|].
  repeat (apply Forall_app; split); by apply report_if_about.
Qed.

Lemma lex_raw_ok p c q s : token_ok p (c :: q :: s) (lex_raw p c q s).
Proof.
  unfold lex_raw, token_ok. destruct (scan_raw s) as [[[l r] bad] closed] eqn:E.
  apply scan_raw_app in E as [-> Hbad]. split_and!; [done|done|done|].
  apply Forall_app. split; [|by apply report_if_about].
  destruct bad as [n|]; [|apply Forall_nil_2]. apply Forall_singleton, report_about; [done|].
  specialize (Hbad n eq_refl). cbn [length]. lia.
Qed.

Lemma next_is_cons c s : next_is c s = true -> exists s', s = c :: s'.
Proof. destruct s as [|d s]; [done|]. cbn. intros ->%byte_eqb_true. by exists s. Qed.

Lemma lex_one_ok single before p c s : token_ok p (c :: s) (lex_one single before p c s).
Proof.
  unfold lex_one. destruct (_ && blank_prefix before).
  { destruct (scan_directive c s) as [l r] eqn:E. apply scan_directive_app in E as ->.
    split_and!; [done|done|done|apply Forall_nil_2]. }
  destruct (isspace c).
  { destruct (span isspace s) as [l r] eqn:E. apply span_app in E as ->.
    split_and!; [done|done|done|apply Forall_nil_2]. }
  destruct (_ && next_is "/" s) eqn:Hl.
  { apply andb_prop in Hl as [_ [s' ->]%next_is_cons]. cbn [drop take app]. rewrite ?drop_0, ?take_0. cbn [app].
    destruct (span (fun c => negb (c =b? newline)) s') as [l r] eqn:E. apply span_app in E as ->.
    split_and!; [done|done|done|apply Forall_nil_2]. }
  destruct (_ && next_is "*" s) eqn:Hb.
  { apply andb_prop in Hb as [_ [s' ->]%next_is_cons]. cbn [drop take app]. rewrite ?drop_0, ?take_0. cbn [app].
    destruct (scan_block s') as [[l r] closed] eqn:E. apply scan_block_app in E as ->.
    split_and!; [done|done|done|by apply report_if_about]. }
  destruct (_ && next_is x22 s) eqn:Hr.
  { apply andb_prop in Hr as [_ [s' ->]%next_is_cons]. apply lex_raw_ok. }
  destruct (_ || _); [apply lex_quoted_ok|]. destruct (isalpha c || _).
  { destruct (span word_char s) as [l r] eqn:E. apply span_app in E as ->.
    split_and!; [done|done|by destruct (is_keyword _)|apply Forall_nil_2]. }
  destruct (is_digit c || _).
  { destruct (scan_number _ c s) as [l r] eqn:E. apply scan_number_app in E as ->.
    split_and!; [done|done|done|by apply report_if_about]. }
  split_and!; [done|done|done|apply Forall_nil_2].
Qed.

(** ** Positions *)

Definition newlines (text : bytes) : Z :=
  Z.of_nat (length (base.filter (fun c => c =b? newline) text)).

(** The text after the last line break. *)
Definition last_line (text : bytes) : bytes := rev (span (fun c => negb (c =b? newline)) (rev text)).1.

(** The position after [text], by counting. *)
Definition position_after (text : bytes) : Position :=
  mkPosition (Z.of_nat (length text)) (1 + newlines text) (1 + Z.of_nat (length (last_line text))).

Lemma position_snoc text c : position_after (text ++ [c]) = advance c (position_after text).
Proof.
  unfold position_after, advance, newlines, last_line. rewrite length_app, filter_app, rev_app_distr.
  cbn [length rev app span]. rewrite filter_cons, filter_nil.
  destruct (c =b? newline) eqn:E; cbn [negb p_offset p_line p_column].
  - rewrite decide_True by done. rewrite length_app. cbn. f_equal; lia.
  - rewrite decide_False by (by intros []). rewrite app_nil_r.
    destruct (span _ (rev text)) as [l r]. cbn. rewrite length_app. cbn. f_equal; lia.
Qed.

Lemma advance_position before text :
  advance_over text (position_after before) = position_after (before ++ text).
Proof.
  revert before. induction text as [|c text IH]; intros before; cbn; [by rewrite app_nil_r|].
  unfold advance_over in IH. rewrite <-position_snoc, IH, <-app_assoc. done.
Qed.

(** ** The loop *)

Definition text_of (tokens : list Token) : bytes := concat (map lexeme tokens).

(** The tokens start at [before] and their positions are counted from the start. *)
Fixpoint placed (before : bytes) (tokens : list Token) : Prop :=
  match tokens with
  | [] => True
  | t :: rest =>
      mkPosition (offset t) (line t) (column t) = position_after before /\ placed (before ++ lexeme t) rest
  end.

(** A diagnostic belongs to one of the tokens. *)
Definition belongs (tokens : list Token) (d : Diagnostic) : Prop :=
  exists t, t ∈ tokens /\ about (mkPosition (offset t) (line t) (column t)) (lexeme t) d.

Lemma lex_loop_ok single fuel before s :
  (length s < fuel)%nat ->
  exists tokens ds,
    lex_loop single fuel (rev before) (position_after before) s = Ok (tokens, ds) /\
    text_of tokens = s /\ placed before tokens /\ Forall (belongs tokens) ds /\
    exists body t, tokens = body ++ [t] /\ kind t = end_ /\ lexeme t = [] /\
      Forall (fun t => kind t <> end_ /\ lexeme t <> []) body.
Proof.
  revert before s. induction fuel as [|fuel IH]; intros before s Hf; [lia|].
  cbn [lex_loop]. destruct s as [|c s].
  { eexists _, _. split; [done|]. do 2 (split; [done|]). split; [apply Forall_nil_2|].
    eexists [], _. split_and!; [done|done|done|apply Forall_nil_2]. }
  pose proof (lex_one_ok single (rev before) (position_after before) c s) as Hone.
  destruct (lex_one _ _ _ c s) as [[[k text] rest] ds]. destruct Hone as (Es & Ht & Hk & Hds).
  assert (length rest < fuel)%nat as Hlen.
  { apply (f_equal length) in Es. rewrite length_app in Es. cbn in Es. destruct text; [done|].
    cbn in Es, Hf. lia. }
  destruct (IH (before ++ text) rest Hlen) as (tokens & ds' & E & Hsrc & Hpl & Hds' & body & t & Eb & Hend).
  rewrite rev_app_distr, <-advance_position in E. rewrite E. cbn [mbind result_bind].
  eexists _, _. split; [done|]. split; [|split; [done|split]].
  - unfold text_of. cbn. fold (text_of tokens). by rewrite Hsrc.
  - apply Forall_app. split.
    + eapply Forall_impl; [exact Hds|]. intros d Hd. eexists. split; [by left|done].
    + eapply Forall_impl; [exact Hds'|]. intros d (t' & Hin & Hd). exists t'. split; [by right|done].
  - rewrite Eb. eexists (_ :: body), t. split; [done|]. destruct Hend as (? & ? & ?).
    split_and!; [done|done|by apply Forall_cons_2].
Qed.

Lemma placed_split before tokens pre t post :
  placed before tokens -> tokens = pre ++ t :: post ->
  mkPosition (offset t) (line t) (column t) = position_after (before ++ text_of pre).
Proof.
  revert before tokens. induction pre as [|x pre IH]; intros before tokens Hp ->; cbn in Hp.
  - unfold text_of. cbn. rewrite app_nil_r. apply Hp.
  - destruct Hp as [_ Hp]. rewrite (IH _ _ Hp eq_refl). unfold text_of. cbn. by rewrite <-app_assoc.
Qed.

Lemma text_of_app a b : text_of (a ++ b) = text_of a ++ text_of b.
Proof. unfold text_of. by rewrite map_app, concat_app. Qed.

(** ** Theorems *)

(** C31. Lexing is total and loses nothing: for every source and either mode the
    tokens' texts, in order, are the source; the last token is the end marker and all
    others are non-empty; and every token's offset, line and column are those of the
    text before it, counted from the start. *)
Theorem lexer_lossless single source :
  exists tokens ds, tokenize single source = Ok (tokens, ds) /\
    text_of tokens = source /\
    (exists body t, tokens = body ++ [t] /\ kind t = end_ /\ lexeme t = [] /\
       Forall (fun t => kind t <> end_ /\ lexeme t <> []) body) /\
    forall pre t post, tokens = pre ++ t :: post ->
      offset t = Z.of_nat (length (text_of pre)) /\ line t = 1 + newlines (text_of pre) /\
      column t = 1 + Z.of_nat (length (last_line (text_of pre))).
Proof.
  destruct (lex_loop_ok single (S (length source)) [] source ltac:(lia))
    as (tokens & ds & E & Hsrc & Hpl & _ & Hend).
  exists tokens, ds. split_and!; [exact E|done|done|]. intros pre t post Et.
  pose proof (placed_split [] tokens pre t post Hpl Et) as [= H1 H2 H3]. done.
Qed.

(** Every diagnostic of the lexer points at a token: it has the token's line and
    column, starts at its first byte and ends, after at least one byte, within it; so
    its span lies in the source. *)
Theorem lexer_diagnostics single source tokens ds :
  tokenize single source = Ok (tokens, ds) ->
  Forall (fun d => exists t, t ∈ tokens /\ d_line d = line t /\ d_column d = column t /\
    begin_offset d = offset t /\ offset t < end_offset d <= offset t + Z.of_nat (length (lexeme t)) /\
    end_offset d <= Z.of_nat (length source)) ds.
Proof.
  intros E. destruct (lex_loop_ok single (S (length source)) [] source ltac:(lia))
    as (tokens' & ds' & E' & Hsrc & Hpl & Hds & _).
  unfold tokenize in E. change [] with (rev (@nil byte)) in E at 1.
  change start_position with (position_after []) in E. rewrite E in E'. injection E' as <- <-.
  eapply Forall_impl; [exact Hds|]. intros d (t & Hin & Hl & Hc & Hb & He).
  cbn in Hl, Hc, Hb, He.
  exists t. split_and!; try done; try lia. etrans; [apply He|].
  apply list_elem_of_split in Hin as (pre & post & ->).
  pose proof (placed_split [] _ pre t post Hpl eq_refl) as [= H1 _ _]. rewrite H1, <-Hsrc, text_of_app.
  change (text_of (t :: post)) with (lexeme t ++ text_of post). rewrite !length_app. cbn [app]. lia.
Qed.

Lemma lexer_diagnostics_witness :
  exists tokens ds, tokenize false (lit "x = 12ab;") = Ok (tokens, ds) /\ ds <> [] /\
  Forall (fun d => exists t, t ∈ tokens /\ d_line d = line t /\ d_column d = column t /\
    begin_offset d = offset t /\ offset t < end_offset d <= offset t + Z.of_nat (length (lexeme t)) /\
    end_offset d <= Z.of_nat (length (lit "x = 12ab;"))) ds.
Proof.
  destruct (tokenize false (lit "x = 12ab;")) as [[tokens ds]|e|] eqn:E; [|vm_compute in E; discriminate E..].
  exists tokens, ds. split; [reflexivity|]. split; [|exact (lexer_diagnostics false _ tokens ds E)].
  vm_compute in E. injection E as _ <-. discriminate.
Defined.
