(* ===== verification/Media.v ===== *)
(** * Recognising media types ([src/http/uploads.cpp])

    [detected_media_type] looks at the container structure of an uploaded file.  The
    recognisers walk the bytes by index; a read outside the view is undefined
    behaviour in C++ and [substr] throws beyond the end, and both are outcomes of the
    model, so that their absence is a theorem.  Positions are [size_t]: differences
    wrap; lengths read from a file are [uint32_t], and so is their sum with a
    constant. *)

From S2P Require Import Prelude Text.

Definition size (s : bytes) : Z := Z.of_nat (length s).

(** [static_cast<unsigned char>(bytes[i])]. *)
Definition read (s : bytes) (i : Z) : result Z :=
  if i <? 0 then Throw (undefined "read outside a view")
  else match s !! Z.to_nat i with
       | Some b => Ok (uc b)
       | None => Throw (undefined "read outside a view")
       end.

Definition substr (s : bytes) (pos n : Z) : result bytes :=
  if size s <? pos then Throw (out_of_range "basic_string_view::substr")
  else Ok (take (Z.to_nat n) (drop (Z.to_nat pos) s)).

(** [bytes.size() - at]. *)
Definition left_from (s : bytes) (at_ : Z) : Z := u64 (size s - at_).

Definition be32 (s : bytes) (at_ : Z) : result Z :=
  a ← read s at_; b ← read s (at_ + 1); c ← read s (at_ + 2); d ← read s (at_ + 3);
  Ok (Z.lor (Z.lor (Z.lor (Z.shiftl a 24) (Z.shiftl b 16)) (Z.shiftl c 8)) d).

Definition le32 (s : bytes) (at_ : Z) : result Z :=
  a ← read s at_; b ← read s (at_ + 1); c ← read s (at_ + 2); d ← read s (at_ + 3);
  Ok (Z.lor (Z.lor (Z.lor a (Z.shiftl b 8)) (Z.shiftl c 16)) (Z.shiftl d 24)).

Definition le16 (s : bytes) (at_ : Z) : result Z :=
  a ← read s at_; b ← read s (at_ + 1); Ok (Z.lor a (Z.shiftl b 8)).

Definition be16 (s : bytes) (at_ : Z) : result Z :=
  a ← read s at_; b ← read s (at_ + 1); Ok (Z.lor (Z.shiftl a 8) b).

(** One bit of the checksum; [0U - (crc & 1U)] is all ones or zero. *)
Definition crc_bit (crc : Z) : Z :=
  Z.lxor (Z.shiftr crc 1) (Z.land 0xedb88320 (u32 (0 - Z.land crc 1))).

Definition crc_byte (crc : Z) (b : byte) : Z := Nat.iter 8 crc_bit (Z.lxor crc (uc b)).

Definition crc32 (s : bytes) : Z := Z.lxor (fold_left crc_byte s 0xffffffff) 0xffffffff.

(** ** PNG *)

Definition png_signature : bytes := [x89; "P"%byte; "N"%byte; "G"%byte; x0d; x0a; x1a; x0a].

Definition one_of (l : list Z) (z : Z) : bool := existsb (Z.eqb z) l.

(** The allowed bit depths of a colour type. *)
Definition depth_ok (color depth : Z) : bool :=
  if color =? 0 then one_of [1; 2; 4; 8; 16] depth
  else if color =? 3 then one_of [1; 2; 4; 8] depth
  else one_of [2; 4; 6] color && one_of [8; 16] depth.

(** The checks of the header chunk at [at_], in the order of the source. *)
Definition png_header (s : bytes) (at_ : Z) (type : bytes) (len : Z) : result bool :=
  if negb (bool_decide (type = lit "IHDR")) || negb (len =? 13) then Ok false
  else
    width ← be32 s (at_ + 8);
    if width =? 0 then Ok false
    else
      height ← be32 s (at_ + 12);
      if height =? 0 then Ok false
      else
        depth ← read s (at_ + 16); color ← read s (at_ + 17);
        if negb (depth_ok color depth) then Ok false
        else
          compression ← read s (at_ + 18);
          if negb (compression =? 0) then Ok false
          else
            filter ← read s (at_ + 19);
            if negb (filter =? 0) then Ok false
            else interlace ← read s (at_ + 20); Ok (interlace <=? 1).

Fixpoint png_loop (fuel : nat) (s : bytes) (at_ : Z) (header data data_ended : bool) : result bool :=
  match fuel with
  | O => NoFuel
  | S fuel =>
      if left_from s at_ <? 12 then Ok false
      else
        len ← be32 s at_;
        if u64 (left_from s at_ - 12) <? len then Ok false
        else
          type ← substr s (at_ + 4) 4;
          covered ← substr s (at_ + 4) (u32 (len + 4));
          stored ← be32 s (at_ + 8 + len);
          if negb (crc32 covered =? stored) then Ok false
          else
            let continue_ := png_loop fuel s (at_ + u32 (12 + len)) in
            if negb header then
              good ← png_header s at_ type len;
              if good : bool then continue_ true data data_ended else Ok false
            else if bool_decide (type = lit "IHDR") then Ok false
            else if bool_decide (type = lit "IDAT") then
              if data_ended then Ok false
              else continue_ header (data || negb (len =? 0)) data_ended
            else if bool_decide (type = lit "IEND") then
              Ok ((len =? 0) && data && (at_ + 12 =? size s))
            else continue_ header data (data || data_ended)
  end.

Definition png (s : bytes) : result bool :=
  if negb (starts_with png_signature s) then Ok false
  else png_loop (S (length s)) s 8 false false false.

(** ** GIF *)

(** The lambda [blocks]: the position after the terminator, if there is one. *)
Fixpoint gif_blocks (fuel : nat) (s : bytes) (at_ : Z) : result (option Z) :=
  match fuel with
  | O => NoFuel
  | S fuel =>
      if size s <=? at_ then Ok None
      else
        count ← read s at_;
        if count =? 0 then Ok (Some (at_ + 1))
        else if left_from s (at_ + 1) <? count then Ok None
        else gif_blocks fuel s (at_ + 1 + count)
  end.

(** The size of a colour table, when the flag is set. *)
Definition color_table (flags : Z) : Z :=
  if Z.land flags 128 =? 0 then 0 else 3 * Z.shiftl 2 (Z.land flags 7).

(** An image descriptor after its marker: the position after its data, if well formed. *)
Definition gif_image (fuel : nat) (s : bytes) (at_ : Z) : result (option Z) :=
  if left_from s at_ <? 10 then Ok None
  else
    width ← le16 s (at_ + 4);
    if width =? 0 then Ok None
    else
      height ← le16 s (at_ + 6);
      if height =? 0 then Ok None
      else
        flags ← read s (at_ + 8);
        let at_ := at_ + 9 + color_table flags in
        if size s <=? at_ then Ok None
        else
          code ← read s at_;
          if (code <? 2) || (8 <? code) then Ok None
          else
            let first := at_ + 1 in
            next ← gif_blocks fuel s first;
            match next with
            | Some at_ => Ok (if at_ =? first + 1 then None else Some at_)
            | None => Ok None
            end.

Fixpoint gif_loop (fuel : nat) (s : bytes) (at_ : Z) (image : bool) : result bool :=
  match fuel with
  | O => NoFuel
  | S fuel =>
      if size s <=? at_ then Ok false
      else
        marker ← read s at_;
        let at_ := at_ + 1 in
        if marker =? 0x3b then Ok (image && (at_ =? size s))
        else if marker =? 0x21 then
          if at_ =? size s then Ok false
          else
            next ← gif_blocks (S (length s)) s (at_ + 1);
            match next with Some at_ => gif_loop fuel s at_ image | None => Ok false end
        else if marker =? 0x2c then
          next ← gif_image (S (length s)) s at_;
          match next with Some at_ => gif_loop fuel s at_ true | None => Ok false end
        else Ok false
  end.

Definition gif (s : bytes) : result bool :=
  if size s <? 13 then Ok false
  else
    signature ← substr s 0 6;
    if negb (bool_decide (signature = lit "GIF87a")) && negb (bool_decide (signature = lit "GIF89a"))
    then Ok false
    else
      width ← le16 s 6;
      if width =? 0 then Ok false
      else
        height ← le16 s 8;
        if height =? 0 then Ok false
        else
          packed ← read s 10;
          gif_loop (S (length s)) s (13 + color_table packed) false.

(** ** JPEG *)

(** [while (at < size && bytes[at] == 0xff) ++at]. *)
Fixpoint skip_fill (fuel : nat) (s : bytes) (at_ : Z) : result Z :=
  match fuel with
  | O => NoFuel
  | S fuel =>
      if size s <=? at_ then Ok at_
      else b ← read s at_; if b =? 0xff then skip_fill fuel s (at_ + 1) else Ok at_
  end.

(** The entropy-coded data of a scan: where the next marker starts, or [None] for the
    early [return false]. *)
Fixpoint skip_scan (fuel : nat) (s : bytes) (at_ : Z) : result (option Z) :=
  match fuel with
  | O => NoFuel
  | S fuel =>
      if size s <=? at_ then Ok (Some at_)
      else
        b ← read s at_;
        if negb (b =? 0xff) then skip_scan fuel s (at_ + 1)
        else if at_ + 1 =? size s then Ok None
        else
          next ← read s (at_ + 1);
          if (next =? 0) || ((0xd0 <=? next) && (next <=? 0xd7)) then skip_scan fuel s (at_ + 2)
          else Ok (Some at_)
  end.

Definition is_frame_marker (marker : Z) : bool :=
  (0xc0 <=? marker) && (marker <=? 0xcf) && negb (one_of [0xc4; 0xc8; 0xcc] marker).

(** The checks of a frame header. *)
Definition frame_header (s : bytes) (at_ len : Z) : result bool :=
  if len <? 11 then Ok false
  else
    height ← be16 s (at_ + 3);
    if height =? 0 then Ok false
    else
      width ← be16 s (at_ + 5);
      if width =? 0 then Ok false
      else
        components ← read s (at_ + 7);
        Ok (negb (components =? 0) && (len =? 8 + 3 * components)).

Fixpoint jpeg_loop (fuel : nat) (s : bytes) (at_ : Z) (frame scan : bool) : result bool :=
  match fuel with
  | O => NoFuel
  | S fuel =>
      if size s <=? at_ then Ok false
      else
        b ← read s at_;
        if negb (b =? 0xff) then Ok false
        else
          at_ ← skip_fill (S (length s)) s (at_ + 1);
          if at_ =? size s then Ok false
          else
            marker ← read s at_;
            let at_ := at_ + 1 in
            if marker =? 0xd9 then Ok (frame && scan && (at_ =? size s))
            else if (marker =? 0) || (marker =? 0xd8) || ((0xd0 <=? marker) && (marker <=? 0xd7))
            then Ok false
            else if left_from s at_ <? 2 then Ok false
            else
              len ← be16 s at_;
              if (len <? 2) || (left_from s at_ <? len) then Ok false
              else
                good ← (if is_frame_marker marker then frame_header s at_ len else Ok true);
                if negb good then Ok false
                else
                  let frame := frame || is_frame_marker marker in
                  if marker =? 0xda then
                    if negb frame || (len <? 8) then Ok false
                    else
                      components ← read s (at_ + 2);
                      if negb (len =? 6 + 2 * components) then Ok false
                      else
                        next ← skip_scan (S (length s)) s (at_ + len);
                        match next with
                        | Some at_ => jpeg_loop fuel s at_ frame true
                        | None => Ok false
                        end
                  else jpeg_loop fuel s (at_ + len) frame scan
  end.

Definition jpeg (s : bytes) : result bool :=
  if negb (starts_with [xff; xd8] s) then Ok false else jpeg_loop (S (length s)) s 2 false false.

(** ** WebP *)

(** The checks of one chunk at [at_]: whether it is fine, and whether it is an image. *)
Definition webp_chunk (s tag : bytes) (len at_ : Z) : result (bool * bool) :=
  if bool_decide (tag = lit "VP8 ") then
    if len <? 10 then Ok (false, true)
    else
      flags ← read s at_;
      if negb (Z.land flags 1 =? 0) then Ok (false, true)
      else
        start ← substr s (at_ + 3) 3;
        if negb (bool_decide (start = [x9d; x01; x2a])) then Ok (false, true)
        else
          width ← le16 s (at_ + 6);
          if Z.land width 0x3fff =? 0 then Ok (false, true)
          else height ← le16 s (at_ + 8); Ok (negb (Z.land height 0x3fff =? 0), true)
  else if bool_decide (tag = lit "VP8L") then
    if len <? 5 then Ok (false, true)
    else
      signature ← read s at_;
      if negb (signature =? 0x2f) then Ok (false, true)
      else version ← read s (at_ + 4); Ok (Z.land version 0xe0 =? 0, true)
  else Ok (negb (bool_decide (tag = lit "VP8X") && negb (len =? 10)), false).

Fixpoint webp_loop (fuel : nat) (s : bytes) (at_ : Z) (image : bool) : result bool :=
  match fuel with
  | O => NoFuel
  | S fuel =>
      if left_from s at_ <? 8 then Ok (image && (at_ =? size s))
      else
        tag ← substr s at_ 4;
        len ← le32 s (at_ + 4);
        let at_ := at_ + 8 in
        if left_from s at_ <? len then Ok false
        else
          '(good, picture) ← webp_chunk s tag len at_;
          if negb good then Ok false
          else
            let at_ := at_ + len in
            let image := image || picture in
            if Z.land len 1 =? 0 then webp_loop fuel s at_ image
            else if size s <=? at_ then Ok false
            else
              pad ← read s at_;
              if negb (pad =? 0) then Ok false else webp_loop fuel s (at_ + 1) image
  end.

Definition webp (s : bytes) : result bool :=
  if size s <? 20 then Ok false
  else
    riff ← substr s 0 4;
    if negb (bool_decide (riff = lit "RIFF")) then Ok false
    else
      form ← substr s 8 4;
      if negb (bool_decide (form = lit "WEBP")) then Ok false
      else
        declared ← le32 s 4;
        if negb (declared =? u64 (size s - 8)) then Ok false
        else webp_loop (S (length s)) s 12 false.

(** ** Text *)

(** The number of continuation bytes after the lead byte [c]. *)
Definition continuation_count (c : Z) : nat :=
  if (0xc2 <=? c) && (c <=? 0xdf) then 1
  else if (0xe0 <=? c) && (c <=? 0xef) then 2
  else if (0xf0 <=? c) && (c <=? 0xf4) then 3
  else 0.

(** The ranges of the first continuation byte that are excluded. *)
Definition bad_second (c next : Z) : bool :=
  ((c =? 0xe0) && (next <? 0xa0)) || ((c =? 0xed) && (0xa0 <=? next)) ||
  ((c =? 0xf0) && (next <? 0x90)) || ((c =? 0xf4) && (0x90 <=? next)).

Definition control (c : Z) : bool :=
  ((c <? 32) && negb (c =? 9) && negb (c =? 13) && negb (c =? 10)) || (c =? 127).

(** The loop over the continuation bytes. *)
Fixpoint continuations (count : nat) (s : bytes) (at_ : Z) : result bool :=
  match count with
  | O => Ok true
  | S count =>
      b ← read s at_;
      if negb (Z.land b 0xc0 =? 0x80) then Ok false else continuations count s (at_ + 1)
  end.

Fixpoint text_loop (fuel : nat) (s : bytes) (at_ : Z) : result bool :=
  match fuel with
  | O => NoFuel
  | S fuel =>
      if size s <=? at_ then Ok true
      else
        c ← read s at_;
        let at_ := at_ + 1 in
        if c <? 128 then if control c then Ok false else text_loop fuel s at_
        else
          let count := continuation_count c in
          if (count =? 0)%nat || (left_from s at_ <? Z.of_nat count) then Ok false
          else
            next ← read s at_;
            if bad_second c next then Ok false
            else
              fine ← continuations count s at_;
              if fine : bool then text_loop fuel s (at_ + Z.of_nat count) else Ok false
  end.

Definition text (s : bytes) : result bool := text_loop (S (length s)) s 0.

(** ** The detector *)

Definition pdf_space (c : byte) : bool := (c =b? " ") || (c =b? x09) || (c =b? x0d) || (c =b? x0a).

(** Spaces removed from the back. *)
Definition trim_back (s : bytes) : bytes :=
  rev ((fix skip (l : bytes) : bytes :=
          match l with c :: l' => if pdf_space c then skip l' else l | [] => [] end) (rev s)).

Definition pdf (s : bytes) : result bool :=
  if (size s <? 8) || negb (starts_with (lit "%PDF-") s) then Ok false
  else
    major ← read s 5; dot ← read s 6; minor ← read s 7;
    Ok ((48 <=? major) && (major <=? 57) && (dot =? 46) && (48 <=? minor) && (minor <=? 57) &&
        ends_with (lit "%%EOF") (trim_back s)).

Definition detected_media_type (s : bytes) : result bytes :=
  is_png ← png s;
  if is_png : bool then Ok (lit "image/png")
  else
    is_jpeg ← jpeg s;
    if is_jpeg : bool then Ok (lit "image/jpeg")
    else
      is_gif ← gif s;
      if is_gif : bool then Ok (lit "image/gif")
      else
        is_webp ← webp s;
        if is_webp : bool then Ok (lit "image/webp")
        else
          is_pdf ← pdf s;
          if is_pdf : bool then Ok (lit "application/pdf")
          else
            is_text ← text s;
            Ok (if is_text : bool then lit "text/plain" else lit "application/octet-stream").
