(* ===== verification/MediaFacts.v ===== *)
(** * The media-type recognisers stay inside the bytes they are given *)

From S2P Require Import Prelude Text WebSocket Utf8Facts Media.

#[local] Arguments u32 : simpl never.
#[local] Arguments u64 : simpl never.

(** ** Reads *)

Lemma read_returns s i : 0 <= i < size s -> returns (fun b => 0 <= b < 256) (read s i).
Proof.
  intros Hi. unfold read, size in *. rewrite (proj2 (Z.ltb_ge i 0)) by lia.
  destruct (s !! Z.to_nat i) as [b|] eqn:E; cbn; [apply uc_range|].
  apply lookup_ge_None in E. lia.
Qed.

Lemma substr_returns s pos n : 0 <= pos <= size s -> returns (fun _ => True) (substr s pos n).
Proof. intros Hp. unfold substr. by rewrite (proj2 (Z.ltb_ge _ _)) by lia. Qed.

Lemma left_from_eq s at_ : 0 <= at_ <= size s -> size s < 2 ^ 32 -> left_from s at_ = size s - at_.
Proof. intros. unfold left_from. apply u64_small. lia. Qed.

Create HintDb media.

(** One step through code that reads: a bind, a test, or the end. *)
Ltac media_arith := unfold size in *; cbn [length] in *; lia.

Ltac media_bind :=
  match goal with
  | |- returns _ (read _ _ ≫= _) =>
      eapply returns_bind; [apply read_returns; lia|cbn beta; intros ? ?]
  | |- returns _ (substr _ _ _ ≫= _) =>
      eapply returns_bind; [apply substr_returns; lia|cbn beta; intros ? ?]
  end.

Lemma word_returns s at_ (f : Z -> Z -> Z) :
  (forall a b, 0 <= a < 256 -> 0 <= b < 256 -> 0 <= f a b) ->
  0 <= at_ -> at_ + 1 < size s ->
  returns (fun v => 0 <= v) (a ← read s at_; b ← read s (at_ + 1); Ok (f a b)).
Proof. intros Hf H0 H1. do 2 media_bind. by apply Hf. Qed.

Ltac nonneg_bits :=
  repeat match goal with
  | |- 0 <= Z.lor _ _ => apply Z.lor_nonneg; split
  | |- 0 <= Z.shiftl _ _ => apply Z.shiftl_nonneg
  end; lia.

Lemma be32_returns s at_ : 0 <= at_ -> at_ + 3 < size s -> returns (fun v => 0 <= v) (be32 s at_).
Proof. intros H0 H1. unfold be32. do 4 media_bind. cbn. nonneg_bits. Qed.

Lemma le32_returns s at_ : 0 <= at_ -> at_ + 3 < size s -> returns (fun v => 0 <= v) (le32 s at_).
Proof. intros H0 H1. unfold le32. do 4 media_bind. cbn. nonneg_bits. Qed.

Lemma le16_returns s at_ : 0 <= at_ -> at_ + 1 < size s -> returns (fun v => 0 <= v) (le16 s at_).
Proof. intros H0 H1. apply word_returns; [|done..]. intros. nonneg_bits. Qed.

Lemma be16_returns s at_ : 0 <= at_ -> at_ + 1 < size s -> returns (fun v => 0 <= v) (be16 s at_).
Proof. intros H0 H1. apply word_returns; [|done..]. intros. nonneg_bits. Qed.

(** [media_step]: the next read, number or test of the code. *)
Ltac media_step :=
  first
  [ media_bind
  | match goal with
    | |- returns _ (be32 _ _ ≫= _) => eapply returns_bind; [apply be32_returns; lia|cbn beta; intros ? ?]
    | |- returns _ (le32 _ _ ≫= _) => eapply returns_bind; [apply le32_returns; lia|cbn beta; intros ? ?]
    | |- returns _ (le16 _ _ ≫= _) => eapply returns_bind; [apply le16_returns; lia|cbn beta; intros ? ?]
    | |- returns _ (be16 _ _ ≫= _) => eapply returns_bind; [apply be16_returns; lia|cbn beta; intros ? ?]
    | |- returns _ (if ?b then _ else _) => destruct b eqn:?; reflect_bools
    | |- returns _ (Ok _) => exact I || (cbn; lia) || (cbn; done)
    end ].

Abbreviation returns_some := (returns (fun _ => True)).

(** ** The recognisers *)

Section Safe.
Context (s : bytes) (Hs : size s < 2 ^ 32).

Lemma png_header_safe at_ type len :
  0 <= at_ -> at_ + 12 + len <= size s -> returns_some (png_header s at_ type len).
Proof. intros H0 H1. unfold png_header. repeat media_step. Qed.

Lemma png_loop_safe fuel at_ header data ended :
  0 <= at_ <= size s -> size s - at_ < Z.of_nat fuel ->
  returns_some (png_loop fuel s at_ header data ended).
Proof.
  revert at_ header data ended. induction fuel as [|fuel IH]; intros at_ header data ended Ha Hf; [lia|].
  cbn [png_loop]. rewrite left_from_eq by lia. media_step; [done|].
  media_step. rewrite u64_small by lia. media_step; [done|]. do 3 media_step.
  media_step; [done|]. rewrite (u32_small (12 + a)) by lia.
  assert (forall h d e, returns_some (png_loop fuel s (at_ + (12 + a)) h d e)) as Hnext
    by (intros; apply IH; lia).
  media_step.
  - eapply returns_bind; [apply png_header_safe; lia|]. intros [] _; [apply Hnext|done].
  - repeat first [apply Hnext | media_step].
Qed.

Lemma png_safe : returns_some (png s).
Proof.
  unfold png. media_step; [done|]. apply starts_with_inv in Heqb as [rest E].
  apply png_loop_safe; rewrite E in *; unfold size in *; rewrite length_app in *; cbn [length png_signature] in *;
    lia.
Qed.

Lemma gif_blocks_safe fuel at_ :
  0 <= at_ -> Z.max 0 (size s - at_) < Z.of_nat fuel ->
  returns (fun next => forall n, next = Some n -> at_ < n <= size s) (gif_blocks fuel s at_).
Proof.
  revert at_. induction fuel as [|fuel IH]; intros at_ Ha Hf.
  { lia. }
  cbn [gif_blocks]. media_step; [by cbn|]. media_step.
  media_step; [cbn; intros n [= <-]; lia|]. rewrite left_from_eq by lia. media_step; [by cbn|].
  eapply returns_impl; [|apply IH; lia]. intros next Hn n E. specialize (Hn n E). lia.
Qed.

Lemma color_table_nonneg flags : 0 <= color_table flags.
Proof. unfold color_table. destruct (_ =? 0); [done|]. apply Z.mul_nonneg_nonneg; [done|]. by apply Z.shiftl_nonneg. Qed.

Lemma gif_image_safe fuel at_ :
  0 <= at_ <= size s -> size s < Z.of_nat fuel ->
  returns (fun next => forall n, next = Some n -> at_ < n <= size s) (gif_image fuel s at_).
Proof.
  intros Ha Hf. unfold gif_image. rewrite left_from_eq by lia. media_step; [by cbn|].
  do 2 (media_step; media_step; [by cbn|]). media_step.
  pose proof (color_table_nonneg a1). media_step; [by cbn|]. media_step. media_step; [by cbn|].
  eapply returns_bind; [apply gif_blocks_safe; lia|]. cbn beta. intros [n|] Hn; [|by cbn].
  specialize (Hn n eq_refl). cbn. intros m. destruct (_ =? _); [done|]. intros [= <-]. lia.
Qed.

Lemma gif_loop_safe fuel at_ image :
  0 <= at_ -> Z.max 0 (size s - at_) < Z.of_nat fuel -> returns_some (gif_loop fuel s at_ image).
Proof.
  revert at_ image. induction fuel as [|fuel IH]; intros at_ image Ha Hf.
  { lia. }
  cbn [gif_loop]. media_step; [done|]. media_step. media_step; [done|]. media_step.
  - media_step; [done|]. eapply returns_bind; [apply gif_blocks_safe; unfold size in *; lia|].
    cbn beta. intros [n|] Hn; [|done]. specialize (Hn n eq_refl). apply IH; lia.
  - media_step; [|done]. eapply returns_bind; [apply gif_image_safe; unfold size in *; lia|].
    cbn beta. intros [n|] Hn; [|done]. specialize (Hn n eq_refl). apply IH; lia.
Qed.

Lemma gif_safe : returns_some (gif s).
Proof.
  unfold gif. repeat (media_step; try done). pose proof (color_table_nonneg a2).
  apply gif_loop_safe; unfold size in *; lia.
Qed.

Lemma skip_fill_safe fuel at_ :
  0 <= at_ <= size s -> size s - at_ < Z.of_nat fuel ->
  returns (fun n => at_ <= n <= size s) (skip_fill fuel s at_).
Proof.
  revert at_. induction fuel as [|fuel IH]; intros at_ Ha Hf; [lia|].
  cbn [skip_fill]. repeat media_step.
  eapply returns_impl; [|apply IH; lia]. cbn. lia.
Qed.

Lemma skip_scan_safe fuel at_ :
  0 <= at_ <= size s -> size s - at_ < Z.of_nat fuel ->
  returns (fun next => forall n, next = Some n -> at_ <= n <= size s) (skip_scan fuel s at_).
Proof.
  revert at_. induction fuel as [|fuel IH]; intros at_ Ha Hf; [lia|].
  assert (forall k, at_ < k <= size s ->
    returns (fun next => forall n, next = Some n -> at_ <= n <= size s) (skip_scan fuel s k)) as Hnext.
  { intros k Hk. eapply returns_impl; [|apply IH; lia]. intros next Hn n E. specialize (Hn n E). lia. }
  cbn [skip_scan]. media_step; [cbn; intros n [= <-]; lia|]. media_step.
  media_step; [apply Hnext; lia|]. media_step; [by cbn|]. media_step.
  media_step; [apply Hnext; lia|]. cbn. intros n [= <-]. lia.
Qed.

Lemma frame_header_safe at_ len :
  0 <= at_ -> at_ + len <= size s -> returns_some (frame_header s at_ len).
Proof. intros H0 H1. unfold frame_header. repeat media_step. Qed.

Lemma jpeg_loop_safe fuel at_ frame scan :
  0 <= at_ <= size s -> size s - at_ < Z.of_nat fuel -> returns_some (jpeg_loop fuel s at_ frame scan).
Proof.
  revert at_ frame scan. induction fuel as [|fuel IH]; intros at_ frame scan Ha Hf; [lia|].
  cbn [jpeg_loop]. media_step; [done|]. media_step. media_step; [done|].
  eapply returns_bind; [apply skip_fill_safe; unfold size in *; lia|]. cbn beta. intros k Hk.
  media_step; [done|]. media_step. do 2 (media_step; [done|]).
  rewrite left_from_eq by lia. media_step; [done|]. media_step.
  destruct ((_ <? 2) || _) eqn:?; [done|]. reflect_bools.
  eapply (returns_bind (fun _ => True)); [destruct (is_frame_marker _); [apply frame_header_safe; lia|done]|].
  intros good _. media_step; [done|]. media_step; [|apply IH; lia].
  destruct (negb _ || _) eqn:?; [done|]. reflect_bools. media_step. media_step; [done|].
  eapply returns_bind; [apply skip_scan_safe; unfold size in *; lia|].
  cbn beta. intros [n|] Hn; [|done]. specialize (Hn n eq_refl). apply IH; lia.
Qed.

Lemma jpeg_safe : returns_some (jpeg s).
Proof.
  unfold jpeg. media_step; [done|]. apply starts_with_inv in Heqb as [rest E].
  apply jpeg_loop_safe; rewrite E in *; unfold size in *; rewrite length_app in *; cbn [length] in *; lia.
Qed.

Lemma webp_chunk_safe tag len at_ :
  0 <= at_ -> at_ + len <= size s -> returns_some (webp_chunk s tag len at_).
Proof. intros H0 H1. unfold webp_chunk. repeat media_step. Qed.

Lemma webp_loop_safe fuel at_ image :
  0 <= at_ <= size s -> size s - at_ < Z.of_nat fuel -> returns_some (webp_loop fuel s at_ image).
Proof.
  revert at_ image. induction fuel as [|fuel IH]; intros at_ image Ha Hf; [lia|].
  cbn [webp_loop]. rewrite left_from_eq by lia. media_step; [done|]. do 2 media_step.
  rewrite left_from_eq by lia. media_step; [done|].
  eapply returns_bind; [apply webp_chunk_safe; lia|]. intros [good picture] _.
  media_step; [done|]. media_step; [apply IH; lia|]. media_step; [done|]. media_step.
  media_step; [done|]. apply IH; lia.
Qed.

Lemma webp_safe : returns_some (webp s).
Proof. unfold webp. repeat (media_step; try done). apply webp_loop_safe; unfold size in *; lia. Qed.

Lemma pdf_safe : returns_some (pdf s).
Proof. unfold pdf. destruct (_ || _) eqn:?; [done|]. reflect_bools. repeat media_step. Qed.
End Safe.

(** ** Text is UTF-8 without control characters *)

Definition cont (b : byte) : bool := Z.land (uc b) 0xc0 =? 0x80.

(** What [text] makes of the bytes [b :: rest]: what is left after one character. *)
Definition text_next (b : byte) (rest : bytes) : option bytes :=
  if uc b <? 128 then if control (uc b) then None else Some rest
  else
    let count := continuation_count (uc b) in
    match rest with
    | next :: _ =>
        if (count =? 0)%nat || (length rest <? count)%nat || bad_second (uc b) (uc next) ||
           negb (forallb cont (take count rest))
        then None else Some (drop count rest)
    | [] => None
    end.

(** The same for [valid_utf8]. *)
Definition utf8_next (b : byte) (rest : bytes) : option bytes :=
  if uc b <=? 0x7f then Some rest
  else
    match lead_of (uc b) with
    | None => None
    | Some (count, codepoint, minimum) =>
        if (length (b :: rest) <? count)%nat then None
        else
          match utf8_tail (take (count - 1) rest) codepoint with
          | None => None
          | Some codepoint =>
              if utf8_forbidden codepoint minimum then None else Some (drop (count - 1) rest)
          end
    end.

Lemma utf8_loop_next f b rest :
  utf8_loop (S f) (b :: rest) =
  match utf8_next b rest with Some r => utf8_loop f r | None => false end.
Proof.
  cbn [utf8_loop]. unfold utf8_next. destruct (uc b <=? 0x7f); [done|]. rewrite utf8_lead_eq.
  destruct (lead_of (uc b)) as [[[count c] m]|]; [|done]. destruct (_ <? _)%nat; [done|].
  destruct (utf8_tail _ c); [|done]. by destruct (utf8_forbidden _ m).
Qed.

Lemma cont_true b : cont b = true <-> is_cont b.
Proof.
  unfold cont. rewrite continuation_test. unfold is_cont.
  destruct (Z.leb_spec 128 (uc b)), (Z.ltb_spec (uc b) 192); cbn; split; done || lia.
Qed.

(** Decide the comparisons of the goal by arithmetic. *)
Ltac compare_all :=
  repeat match goal with
  | |- context [?a <? ?b] => destruct (Z.ltb_spec a b); try lia
  | |- context [?a <=? ?b] => destruct (Z.leb_spec a b); try lia
  | |- context [?a =? ?b] => destruct (Z.eqb_spec a b); try lia
  | |- context [?a >? ?b] => destruct (Z.gtb_spec a b); try lia
  end; cbn [andb orb].

Lemma utf8_tail_conts tail c :
  0 <= c < 32 -> (length tail <= 3)%nat ->
  utf8_tail tail c =
  if forallb cont tail then Some (fold_left (fun c b => c * 64 + (uc b - 128)) tail c) else None.
Proof.
  intros Hc Hl.
  assert (forall n tail c, (length tail <= n)%nat -> 0 <= c < 2 ^ 31 / 64 ^ Z.of_nat n ->
    (n <= 4)%nat -> utf8_tail tail c =
    if forallb cont tail then Some (fold_left (fun c b => c * 64 + (uc b - 128)) tail c) else None)
    as H; [|apply (H 3%nat); [done| |lia]; change (2 ^ 31 / 64 ^ Z.of_nat 3) with 8192; lia].
  clear. intros n. induction n as [|n IH]; intros [|b tail] c Hl Hc Hn; cbn in Hl; try done; try lia.
  cbn [forallb]. destruct (cont b) eqn:E.
  - apply cont_true in E. assert (2 ^ 31 / 64 ^ Z.of_nat (S n) <= 2 ^ 26 /\
      2 ^ 31 / 64 ^ Z.of_nat n = 64 * (2 ^ 31 / 64 ^ Z.of_nat (S n))) as [Hp1 Hp2].
    { destruct n as [|[|[|[|n]]]]; [split; vm_compute; congruence..|lia]. }
    unfold is_cont in E.
    rewrite utf8_tail_cont by (unfold is_cont; lia). cbn [andb fold_left]. rewrite (IH tail) by lia. done.
  - cbn. unfold cont in E. by rewrite E.
Qed.

(** Among sequences of continuation bytes the two tests exclude the same. *)
Lemma agree_2 b b1 : 192 <= b < 224 -> 128 <= b1 < 192 ->
  (continuation_count b =? 0)%nat || bad_second b b1 =
  utf8_forbidden ((b - 192) * 64 + (b1 - 128)) 0x80.
Proof. intros. unfold continuation_count, bad_second, utf8_forbidden. compare_all; done. Qed.

Lemma agree_3 b b1 b2 : 224 <= b < 240 -> 128 <= b1 < 192 -> 128 <= b2 < 192 ->
  (continuation_count b =? 0)%nat || bad_second b b1 =
  utf8_forbidden (((b - 224) * 64 + (b1 - 128)) * 64 + (b2 - 128)) 0x800.
Proof. intros. unfold continuation_count, bad_second, utf8_forbidden. compare_all; done. Qed.

Lemma agree_4 b b1 b2 b3 : 240 <= b < 248 -> 128 <= b1 < 192 -> 128 <= b2 < 192 -> 128 <= b3 < 192 ->
  (continuation_count b =? 0)%nat || bad_second b b1 =
  utf8_forbidden ((((b - 240) * 64 + (b1 - 128)) * 64 + (b2 - 128)) * 64 + (b3 - 128)) 0x10000.
Proof. intros. unfold continuation_count, bad_second, utf8_forbidden. compare_all; done. Qed.

Lemma lead_class b : 128 <= b < 256 ->
  (lead_of b = None /\ continuation_count b = 0%nat) \/
  exists k c m, lead_of b = Some (S k, c, m) /\ 0 <= c < 32 /\ (0 < k <= 3)%nat /\
    (continuation_count b = 0%nat \/ continuation_count b = k) /\
    forall tail, length tail = k -> forallb cont tail = true -> forall b1, head tail = Some b1 ->
      (continuation_count b =? 0)%nat || bad_second b (uc b1) =
      utf8_forbidden (fold_left (fun c b => c * 64 + (uc b - 128)) tail c) m.
Proof.
  intros Hb. unfold lead_of.
  destruct (Z.ltb_spec b 192); [left; split; [done|]; unfold continuation_count; compare_all; done|].
  destruct (Z.ltb_spec b 224); [|destruct (Z.ltb_spec b 240); [|destruct (Z.ltb_spec b 248)]].
  4: { left. split; [done|]. unfold continuation_count. compare_all; done. }
  all: right; eexists _, _, _; split; [done|]; split; [lia|]; split; [lia|].
  all: split; [unfold continuation_count; compare_all; auto|].
  - intros [|b1 [|]] Hl; try done. cbn. rewrite andb_true_r. intros C1%cont_true ? [= <-].
    by apply agree_2.
  - intros [|b1 [|b2 [|]]] Hl; try done. cbn. rewrite andb_true_r.
    intros [C1%cont_true C2%cont_true]%andb_prop ? [= <-]. by apply agree_3.
  - intros [|b1 [|b2 [|b3 [|]]]] Hl; try done. cbn. rewrite andb_true_r.
    intros [C1%cont_true [C2%cont_true C3%cont_true]%andb_prop]%andb_prop ? [= <-]. by apply agree_4.
Qed.

Lemma next_agree b rest :
  text_next b rest = if control (uc b) then None else utf8_next b rest.
Proof.
  unfold text_next, utf8_next. pose proof (uc_range b) as Hr.
  destruct (Z.ltb_spec (uc b) 128).
  { rewrite (proj2 (Z.leb_le _ _)) by lia. done. }
  rewrite (proj2 (Z.leb_gt _ _)) by lia.
  assert (control (uc b) = false) as -> by (unfold control; compare_all; done).
  destruct (lead_class (uc b)) as [[-> ->]|(k & c & m & -> & Hc & Hk & Hcount & Hagree)]; [lia| |].
  { by destruct rest. }
  cbn [length]. replace (S (length rest) <? S k)%nat with (length rest <? k)%nat by done.
  rewrite Nat.sub_succ, Nat.sub_0_r.
  destruct (Nat.ltb_spec (length rest) k) as [Hl|Hl].
  { destruct rest as [|b1 rest]; [done|]. destruct Hcount as [->| ->]; [done|].
    rewrite (proj2 (Nat.ltb_lt _ _)) by done. by rewrite orb_true_r. }
  destruct rest as [|b1 rest]; [cbn in Hl; lia|].
  rewrite utf8_tail_conts by (rewrite ?length_take; lia).
  destruct (forallb cont (take k (b1 :: rest))) eqn:Hf.
  - specialize (Hagree (take k (b1 :: rest)) ltac:(rewrite length_take; lia) Hf b1
      ltac:(by destruct k; [lia|])). rewrite <-Hagree.
    destruct Hcount as [->| ->]; [done|]. rewrite (proj2 (Nat.ltb_ge _ _)) by lia. rewrite Hf.
    by destruct k; [lia|]; rewrite orb_false_r, orb_false_r.
  - destruct Hcount as [->| ->]; [done|]. by rewrite Hf, orb_true_r.
Qed.

(** What is left is shorter, and only continuation bytes were skipped. *)
Lemma utf8_next_skips b rest r :
  utf8_next b rest = Some r ->
  exists tail, rest = tail ++ r /\ Forall (fun x => control (uc x) = false) tail.
Proof.
  unfold utf8_next. pose proof (uc_range b).
  destruct (Z.leb_spec (uc b) 0x7f); [intros [= <-]; by exists []|].
  destruct (lead_class (uc b)) as [[-> _]|(k & c & m & -> & Hc & Hk & _)]; [lia|done|].
  destruct (_ <? _)%nat; [done|]. rewrite Nat.sub_succ, Nat.sub_0_r.
  rewrite utf8_tail_conts by (rewrite ?length_take; lia).
  destruct (forallb cont _) eqn:Hf; [|done]. destruct (utf8_forbidden _ _); [done|]. intros [= <-].
  exists (take k rest). split; [by rewrite take_drop|]. apply Forall_forall. intros x Hx.
  rewrite forallb_forall in Hf. apply list_elem_of_In, Hf, cont_true in Hx. unfold is_cont, control in *.
  compare_all; done.
Qed.

Section TextLoop.
Context (s : bytes) (Hs : size s < 2 ^ 32).

Lemma read_drop n b rest : drop n s = b :: rest -> read s (Z.of_nat n) = Ok (uc b).
Proof.
  intros E. unfold read. rewrite (proj2 (Z.ltb_ge _ 0)) by lia. rewrite Nat2Z.id.
  pose proof (lookup_drop s n 0) as Hl. rewrite E, Nat.add_0_r in Hl. cbn in Hl. by rewrite <-Hl.
Qed.

Lemma drop_size n b rest : drop n s = b :: rest -> size s = Z.of_nat n + 1 + size rest.
Proof.
  intros E. apply (f_equal length) in E. rewrite length_drop in E. unfold size. cbn in E. lia.
Qed.

Lemma continuations_eq count n :
  (count <= length (drop n s))%nat ->
  continuations count s (Z.of_nat n) = Ok (forallb cont (take count (drop n s))).
Proof.
  revert n. induction count as [|count IH]; intros n Hl; [by rewrite take_0|]. cbn [continuations].
  destruct (drop n s) as [|b rest] eqn:E; [cbn in Hl; lia|]. rewrite (read_drop _ _ _ E). cbn -[read].
  unfold cont at 1. destruct (Z.land (uc b) 0xc0 =? 0x80); [|done]. cbn [negb andb].
  assert (drop (S n) s = rest) as E' by (rewrite <-Nat.add_1_r, <-drop_drop, E; done).
  replace (Z.of_nat n + 1) with (Z.of_nat (S n)) by lia.
  rewrite (IH (S n)) by (rewrite E'; cbn in Hl; lia). by rewrite E'.
Qed.

Lemma text_loop_next f n b rest :
  drop n s = b :: rest ->
  text_loop (S f) s (Z.of_nat n) =
  match text_next b rest with Some r => text_loop f s (size s - size r) | None => Ok false end.
Proof.
  intros E. pose proof (drop_size _ _ _ E) as Hsz. cbn [text_loop]. unfold size in Hsz.
  assert (drop (S n) s = rest) as E' by (rewrite <-Nat.add_1_r, <-drop_drop, E; done).
  rewrite (proj2 (Z.leb_gt _ _)) by (unfold size; lia). rewrite (read_drop _ _ _ E). cbn -[read].
  unfold text_next. destruct (uc b <? 128).
  { destruct (control (uc b)); [done|]. do 2 f_equal. unfold size. lia. }
  replace (Z.of_nat n + 1) with (Z.of_nat (S n)) by lia.
  rewrite left_from_eq by (done || unfold size; lia).
  replace (size s - Z.of_nat (S n) <? Z.of_nat (continuation_count (uc b)))
    with (length rest <? continuation_count (uc b))%nat
    by (unfold size; destruct (Nat.ltb_spec (length rest) (continuation_count (uc b)));
        symmetry; [apply Z.ltb_lt|apply Z.ltb_ge]; lia).
  destruct (continuation_count (uc b) =? 0)%nat eqn:E0; [by destruct rest|]. cbn [orb].
  apply Nat.eqb_neq in E0. destruct (Nat.ltb_spec (length rest) (continuation_count (uc b))).
  { by destruct rest. }
  destruct rest as [|next rest']; [cbn in *; lia|]. rewrite (read_drop _ _ _ E'). cbn -[read continuations text_loop].
  destruct (bad_second (uc b) (uc next)); [done|].
  rewrite continuations_eq by (rewrite E'; done). rewrite E'. cbn -[text_loop].
  destruct (forallb cont _); [|done]. cbn [negb]. f_equal. unfold size. rewrite length_drop. cbn in *. lia.
Qed.

Lemma text_loop_eq f v :
  (exists l, s = l ++ v) -> (length v < f)%nat ->
  text_loop f s (size s - size v) =
  Ok (utf8_loop f v && forallb (fun b => negb (control (uc b))) v).
Proof.
  revert v. induction f as [|f IH]; intros v [l El] Hf; [lia|].
  assert (size s - size v = Z.of_nat (length l)) as Hn by (rewrite El; unfold size; rewrite length_app; lia).
  rewrite Hn. assert (drop (length l) s = v) as Ed by (rewrite El; apply drop_app_length).
  destruct v as [|b rest].
  { cbn [text_loop]. rewrite (proj2 (Z.leb_le _ _)); [done|]. unfold size in *. cbn in *. lia. }
  rewrite (text_loop_next f _ b rest Ed), next_agree, utf8_loop_next. cbn [forallb].
  destruct (control (uc b)); [by rewrite andb_false_r|]. cbn [negb andb].
  destruct (utf8_next b rest) as [r|] eqn:E; [|done].
  apply utf8_next_skips in E as (tail & -> & Ht).
  rewrite IH; [|exists (l ++ b :: tail); rewrite El; by rewrite <-app_assoc|cbn in Hf; rewrite length_app in Hf; lia].
  f_equal. f_equal. rewrite forallb_app. assert (forallb (fun b => negb (control (uc b))) tail = true) as ->; [|done].
  apply forallb_forall. intros x Hx%list_elem_of_In. eapply Forall_forall in Ht; [|done]. by rewrite Ht.
Qed.

Lemma text_utf8 : text s = Ok (valid_utf8 s && forallb (fun b => negb (control (uc b))) s).
Proof.
  unfold text, valid_utf8. rewrite <-(text_loop_eq (S (length s)) s); [|by exists []|lia].
  by rewrite Z.sub_diag.
Qed.
End TextLoop.

(** ** Theorems *)

Definition media_types : list bytes :=
  map lit ["image/png"; "image/jpeg"; "image/gif"; "image/webp"; "application/pdf"; "text/plain";
           "application/octet-stream"].

(** Recognising the media type of an upload is memory safe and total: for all bytes
    (up to the 4 GiB a chunk length can count) every loop ends, no byte outside of
    the view is read, no [substr] throws, and the answer is one of the known types. *)
Theorem media_detection_safe s :
  size s < 2 ^ 32 -> exists t, detected_media_type s = Ok t /\ t ∈ media_types.
Proof.
  intros Hs. apply returns_Ok. unfold detected_media_type.
  eapply returns_bind; [by apply png_safe|]. intros [] _; [unfold returns; by_decide|].
  eapply returns_bind; [by apply jpeg_safe|]. intros [] _; [unfold returns; by_decide|].
  eapply returns_bind; [by apply gif_safe|]. intros [] _; [unfold returns; by_decide|].
  eapply returns_bind; [by apply webp_safe|]. intros [] _; [unfold returns; by_decide|].
  eapply returns_bind; [by apply pdf_safe|]. intros [] _; [unfold returns; by_decide|].
  rewrite text_utf8 by done. cbn. destruct (_ && _); unfold returns; by_decide.
Qed.

(** A GIF of one pixel. *)
Definition tiny_gif : bytes :=
  lit "GIF89a" ++ [x01; x00; x01; x00; x80; x00; x00; x00; x00; x00; xff; xff; xff; x2c; x00; x00; x00; x00;
    x01; x00; x01; x00; x00; x02; x02; x44; x01; x00; x3b].

Lemma media_detection_safe_witness :
  exists t, detected_media_type tiny_gif = Ok t /\ t ∈ media_types /\ t = lit "image/gif".
Proof.
  destruct (media_detection_safe tiny_gif) as (t & E & Hin); [reflexivity|].
  exists t. split; [exact E|]. split; [exact Hin|]. vm_compute in E. injection E as <-. reflexivity.
Defined.

(** The upload parser's text recogniser accepts exactly the well-formed UTF-8 of
    the WebSocket validator without control characters other than tab, carriage
    return and line feed, although it decides by byte ranges and never computes a
    code point. *)
Theorem text_is_clean_utf8 s :
  size s < 2 ^ 32 ->
  text s = Ok (valid_utf8 s && forallb (fun b => negb (control (uc b))) s).
Proof. apply text_utf8. Qed.

Lemma text_is_clean_utf8_witness :
  text (lit "na" ++ [xc3; xaf] ++ lit "ve") = Ok true /\ text [xc0; x80] = Ok false.
Proof.
  split.
  - rewrite (text_is_clean_utf8 (lit "na" ++ [xc3; xaf] ++ lit "ve")); reflexivity.
  - rewrite (text_is_clean_utf8 [xc0; x80]); reflexivity.
Defined.

(** The checksum of the standard test vector, and a PNG of one pixel. *)
Example crc32_check : crc32 (lit "123456789") = 0xcbf43926.
Proof. vm_compute. reflexivity. Qed.

Definition tiny_png : bytes :=
  [x89; x50; x4e; x47; x0d; x0a; x1a; x0a; x00; x00; x00; x0d; x49; x48; x44; x52; x00; x00; x00;
    x01; x00; x00; x00; x01; x08; x00; x00; x00; x00; x3a; x7e; x9b; x55; x00; x00; x00; x0a; x49;
    x44; x41; x54; x78; x9c; x63; x60; x00; x00; x00; x02; x00; x01; x48; xaf; xa4; x71; x00; x00;
    x00; x00; x49; x45; x4e; x44; xae; x42; x60; x82].

Example tiny_png_detected : detected_media_type tiny_png = Ok (lit "image/png").
Proof. vm_compute. reflexivity. Qed.
