(* ===== verification/Uploads.v ===== *)
(** * Multipart form data ([src/http/uploads.cpp])

    [parse_multipart] cuts a request body at the lines that start with the boundary,
    reads the headers of each part, and collects form fields and uploaded files.
    Positions are indices into the body, as in the source. *)

From S2P Require Import Prelude Text Http Media.

Definition malformed {A} : result A :=
  Throw (http_exception 400 "Malformed multipart request body").
Definition too_large {A} : result A :=
  Throw (http_exception 413 "Multipart request exceeds configured limits").

Record UploadedFile := mkFile {
  file_name : bytes; file_filename : bytes; file_content_type : bytes; file_content : bytes
}.

Record MultipartLimits := mkLimits {
  body_bytes : Z; file_bytes : Z; field_bytes : Z; header_bytes : Z; max_parts : Z
}.

Definition default_limits : MultipartLimits :=
  mkLimits (16 * 1024 * 1024) (8 * 1024 * 1024) (1024 * 1024) (8 * 1024) 128.

Record MultipartInput := mkInput { mp_fields : gmap bytes bytes; mp_files : list UploadedFile }.

Definition lower (value : bytes) : bytes := map ascii_lower value.

Definition crlf : bytes := [x0d; x0a].
Definition blank_line : bytes := crlf ++ crlf.

(** ** Header parameters *)

Record Parameters := mkParameters { type_ : bytes; values_ : gmap bytes bytes }.

Definition bad_quoted (c : byte) : bool := (uc c <? 32) || (uc c =? 127).

(** A quoted value after its opening quote: the value and the rest; [None] when it is
    malformed. *)
Fixpoint quoted_value (s : bytes) : option (bytes * bytes) :=
  match s with
  | [] => None
  | c :: s' =>
      if c =b? x22 then Some ([], s')
      else if c =b? x5c then
        match s' with
        | [] => None
        | d :: s'' =>
            if bad_quoted d then None
            else match quoted_value s'' with Some (v, r) => Some (d :: v, r) | None => None end
        end
      else if bad_quoted c then None
      else match quoted_value s' with Some (v, r) => Some (c :: v, r) | None => None end
  end.

(** The value of a parameter and the input after it, which is empty or starts with a
    semicolon. *)
Definition parameter_value (input : bytes) : result (bytes * bytes) :=
  match input with
  | c :: after =>
      if c =b? x22 then
        match quoted_value after with
        | None => malformed
        | Some (value, rest) =>
            match trim rest with
            | [] => Ok (value, [])
            | d :: rest' => if d =b? ";" then Ok (value, d :: rest') else malformed
            end
        end
      else
        let '(before, rest) := until ";" input in
        let token := trim before in
        if negb (valid_header_name token) then malformed
        else Ok (token, match rest with Some r => ";"%byte :: r | None => [] end)
  | [] => malformed
  end.

Fixpoint parameters_loop (fuel : nat) (input : bytes) (values : gmap bytes bytes)
    : result (gmap bytes bytes) :=
  match fuel with
  | O => NoFuel
  | S fuel =>
      match trim input with
      | [] => Ok values
      | _ =>
          match until "=" (trim input) with
          | (_, None) => malformed
          | (before, Some after) =>
              let name := lower (trim before) in
              if negb (valid_header_name name) then malformed
              else
                '(value, rest) ← parameter_value (trim after);
                if bool_decide (is_Some (values !! name)) then malformed
                else
                  let values := <[name := value]> values in
                  match rest with
                  | [] => Ok values
                  | _ :: rest =>
                      match trim rest with
                      | [] => malformed
                      | _ => parameters_loop fuel rest values
                      end
                  end
          end
      end
  end.

Definition parameters (input : bytes) : result Parameters :=
  match until ";" input with
  | (before, None) => Ok (mkParameters (lower (trim before)) ∅)
  | (before, Some rest) =>
      values ← parameters_loop (S (length rest)) rest ∅;
      Ok (mkParameters (lower (trim before)) values)
  end.

Definition field_key (name : bytes) : bytes :=
  if ends_with (lit "[]") name then take (length name - 2) name else name.

Definition safe_name (name : bytes) : result bool :=
  match name with
  | [] => Ok false
  | _ =>
      if 255 <? size name then Ok false
      else
        clean ← text name;
        Ok (clean && forallb (fun c => negb (bad_quoted c)) name)
  end.

(** ** Delimiters *)

Record Delimiter := mkDelimiter { position : Z; next : Z; last_ : bool }.

(** Spaces and tabs after a marker. *)
Definition skip_blank (body : bytes) (at_ : Z) : Z :=
  let rest := drop (Z.to_nat at_) body in at_ + (size rest - size (trim_front rest)).

Fixpoint delimiter (fuel : nat) (body marker : bytes) (start : Z) : result (option Delimiter) :=
  match fuel with
  | O => NoFuel
  | S fuel =>
      match find marker (drop (Z.to_nat start) body) with
      | None => Ok None
      | Some (before, _) =>
          let found := start + size before in
          at_line_start ←
            (if found =? 0 then Ok true
             else if found <? 2 then Ok false
             else two ← substr body (found - 2) 2; Ok (bool_decide (two = crlf)));
          let end_ := found + size marker in
          dashes ← substr body end_ 2;
          let last_ := bool_decide (dashes = lit "--") in
          let end_ := skip_blank body (if last_ then end_ + 2 else end_) in
          line ← substr body end_ 2;
          if at_line_start && (bool_decide (line = crlf) || (last_ && (end_ =? size body)))
          then Ok (Some (mkDelimiter found (if end_ =? size body then end_ else end_ + 2) last_))
          else delimiter fuel body marker (found + size marker)
      end
  end.

(** ** Parts *)

(** The header lines of a part. *)
Fixpoint part_headers (fuel : nat) (section : bytes) (headers : gmap bytes bytes)
    : result (gmap bytes bytes) :=
  match fuel with
  | O => NoFuel
  | S fuel =>
      match section with
      | [] => Ok headers
      | _ =>
          let '(line, rest) :=
            match find crlf section with Some (l, r) => (l, Some r) | None => (section, None) end in
          match until ":" line with
          | (_, None) => malformed
          | (name, Some value) =>
              if negb (valid_header_name name) || negb (valid_header_value (trim value)) then malformed
              else if bool_decide (is_Some (headers !! lower name)) then malformed
              else
                let headers := <[lower name := trim value]> headers in
                match rest with
                | None => Ok headers
                | Some rest => part_headers fuel rest headers
                end
          end
      end
  end.

(** The text after the last slash or backslash. *)
Definition basename (path : bytes) : bytes :=
  fold_left (fun base c => if (c =b? "/") || (c =b? x5c) then [] else base ++ [c]) path [].

Definition starts_media (media : bytes) : bool :=
  match until "/" media with
  | (_, None) => false
  | (kind, Some subtype) => valid_header_name kind && valid_header_name subtype
  end.

(** What a part with a file name adds. *)
Definition add_file (limits : MultipartLimits) (headers : gmap bytes bytes) (name filename key content : bytes)
    (input : MultipartInput) : result MultipartInput :=
  if file_bytes limits <? size content then too_large
  else if bool_decide (is_Some (mp_fields input !! key)) then malformed
  else
    match filename with
    | [] => match content with [] => Ok input | _ => malformed end
    | _ =>
        good ← safe_name filename;
        if negb good then malformed
        else
          let base := basename filename in
          if bool_decide (base = []) || bool_decide (base = lit ".") || bool_decide (base = lit "..")
          then malformed
          else
            media ← match headers !! lit "content-type" with
                    | Some value => type_ <$> parameters value
                    | None => Ok (lit "application/octet-stream")
                    end;
            if negb (starts_media media) then malformed
            else Ok (mkInput (mp_fields input) (mp_files input ++ [mkFile name base media content]))
    end.

(** What a part without one adds. *)
Definition add_field (limits : MultipartLimits) (name key content : bytes) (input : MultipartInput)
    : result MultipartInput :=
  if field_bytes limits <? size content then too_large
  else if ends_with (lit "[]") name || existsb (fun f => bool_decide (field_key (file_name f) = key)) (mp_files input)
  then malformed
  else Ok (mkInput (<[name := content]> (mp_fields input)) (mp_files input)).

Definition forbidden_in_key (c : byte) : bool := (c =b? ".") || (c =b? "[") || (c =b? "]") || (c =b? "*").

(** One part, from the end of its delimiter line: the delimiter after it and the
    input with the part. *)
Definition parse_part (limits : MultipartLimits) (body marker : bytes) (begin : Z) (input : MultipartInput)
    : result (Delimiter * MultipartInput) :=
  match find blank_line (drop (Z.to_nat begin) body) with
  | None => malformed
  | Some (section, _) =>
      if header_bytes limits <? size section then too_large
      else
        headers ← part_headers (S (length section)) section ∅;
        match headers !! lit "content-disposition" with
        | None => malformed
        | Some disposition =>
            if bool_decide (is_Some (headers !! lit "content-transfer-encoding")) then malformed
            else
              attributes ← parameters disposition;
              if negb (bool_decide (type_ attributes = lit "form-data")) then malformed
              else
                match values_ attributes !! lit "name" with
                | None => malformed
                | Some name =>
                    good ← safe_name name;
                    if negb good || bool_decide (is_Some (values_ attributes !! lit "filename*")) then malformed
                    else
                      let key := field_key name in
                      if bool_decide (key = []) || existsb forbidden_in_key key then malformed
                      else
                        let data_start := begin + size section + 4 in
                        following ← delimiter (S (length body)) body marker data_start;
                        match following with
                        | None => malformed
                        | Some d =>
                            if position d <? data_start + 2 then malformed
                            else
                              content ← substr body data_start (position d - data_start - 2);
                              input ←
                                match values_ attributes !! lit "filename" with
                                | Some filename => add_file limits headers name filename key content input
                                | None => add_field limits name key content input
                                end;
                              Ok (d, input)
                        end
                end
        end
  end.

Fixpoint parts_loop (fuel : nat) (limits : MultipartLimits) (body marker : bytes) (current : Delimiter)
    (parts : Z) (input : MultipartInput) : result MultipartInput :=
  match fuel with
  | O => NoFuel
  | S fuel =>
      if last_ current then Ok input
      else if max_parts limits <? parts + 1 then too_large
      else
        '(d, input) ← parse_part limits body marker (next current) input;
        parts_loop fuel limits body marker d (parts + 1) input
  end.

Definition boundary_char (c : byte) : bool :=
  between "a" "z" c || between "A" "Z" c || between "0" "9" c ||
  bool_decide (c ∈ [x27] ++ lit "()+_,-./:=? ").

Definition valid_boundary (value : bytes) : bool :=
  match last value with
  | None => false
  | Some c => (size value <=? 70) && negb (c =b? " ") && forallb boundary_char value
  end.

Definition parse_multipart (content_type body : bytes) (limits : MultipartLimits) : result MultipartInput :=
  if body_bytes limits <? size body then too_large
  else
    type ← parameters content_type;
    match values_ type !! lit "boundary" with
    | None => malformed
    | Some value =>
        if negb (bool_decide (type_ type = lit "multipart/form-data")) || negb (valid_boundary value)
        then malformed
        else
          let marker := lit "--" ++ value in
          current ← delimiter (S (length body)) body marker 0;
          match current with
          | None => malformed
          | Some d => parts_loop (S (length body)) limits body marker d 0 (mkInput ∅ [])
          end
    end.
