(* ===== verification/Request.v ===== *)
(** * Requests ([src/http/request.cpp], [include/gungnir/http/request.hpp])

    A request with its headers, route parameters, query, and the input parsed from
    its body and cookies.  The parsed input is cached in mutable members; operations
    that fill the caches pass the request as state.  The body stream, cancellation,
    service scope, session and authentication context are not modelled. *)

From S2P Require Import Prelude Numeral Text Double Json Http Media Uploads.

Abbreviation Input := (gmap bytes bytes).

Record Request := mkRequest {
  method_ : Method;
  target_ : bytes;
  path_ : bytes;
  body_ : bytes;
  client_ip_ : bytes;
  secure_ : bool;
  headers_ : Headers;
  parameters_ : Input;
  query_ : Input;
  form_ : Input;
  files_ : list UploadedFile;
  multipart_limits_ : MultipartLimits;
  cookies_ : Input;
  json_ : option Json;
  body_parsed_ : bool;
  cookies_parsed_ : bool
}.

(** ** Decoding *)

Definition hex_value (character : byte) : Z :=
  if between "0" "9" character then uc character - 48
  else if between "a" "f" character then uc character - 97 + 10
  else if between "A" "F" character then uc character - 65 + 10
  else -1.

(** A percent sign that no two digits follow stays as it is. *)
Fixpoint decode_component (value : bytes) : bytes :=
  match value with
  | [] => []
  | c :: value' =>
      if c =b? "+" then " "%byte :: decode_component value'
      else
        match value' with
        | h :: l :: value'' =>
            if (c =b? "%") && (0 <=? hex_value h) && (0 <=? hex_value l)
            then chr (Z.lor (Z.shiftl (hex_value h) 4) (hex_value l)) :: decode_component value''
            else c :: decode_component value'
        | _ => c :: decode_component value'
        end
  end.

Definition key_value (pair : bytes) : bytes * bytes :=
  match until "=" pair with
  | (key, Some value) => (key, value)
  | (key, None) => (key, [])
  end.

Definition add_pair (values : Input) (pair : bytes) : Input :=
  match pair with
  | [] => values
  | _ =>
      let '(key, value) := key_value pair in
      <[decode_component key := decode_component value]> values
  end.

Definition parse_urlencoded (source : bytes) : Input := fold_left add_pair (fields "&" source) ∅.

Definition media_type_is (content_type expected : bytes) : bool :=
  bool_decide (map ascii_lower (trim (until ";" content_type).1) = map ascii_lower expected).

(** ** Construction *)

(** [parse_target]: the path and the query. *)
Definition parse_target (target : bytes) : bytes * Input :=
  let '(path, query) := until "?" target in
  (match path with [] => lit "/" | _ => path end,
   match query with
   | None | Some [] => ∅
   | Some q => parse_urlencoded q
   end).

Definition make_request (method : Method) (target body : bytes) (secure : bool) : Request :=
  let '(path, query) := parse_target target in
  mkRequest method target path body [] secure ∅ ∅ query ∅ [] default_limits ∅ None false false.

(** The caches of the body and of the cookies. *)
Definition set_caches (form : Input) (files : list UploadedFile) (json : option Json) (parsed : bool)
    (cookies : Input) (cookies_parsed : bool) (headers : Headers) (r : Request) : Request :=
  mkRequest (method_ r) (target_ r) (path_ r) (body_ r) (client_ip_ r) (secure_ r) headers
    (parameters_ r) (query_ r) form files (multipart_limits_ r) cookies json parsed cookies_parsed.

(** [set_header]: the caches are dropped. *)
Definition set_header (name value : bytes) (r : Request) : result Request :=
  if negb (valid_header_name name) || negb (valid_header_value value)
  then Throw (invalid_argument "Invalid HTTP request header")
  else Ok (set_caches ∅ [] None false ∅ false
             (<[normalize_header_name name := value]> (headers_ r)) r).

Definition set_client_ip (value : bytes) (r : Request) : Request :=
  mkRequest (method_ r) (target_ r) (path_ r) (body_ r) value (secure_ r) (headers_ r)
    (parameters_ r) (query_ r) (form_ r) (files_ r) (multipart_limits_ r) (cookies_ r) (json_ r)
    (body_parsed_ r) (cookies_parsed_ r).

Definition set_route_parameters (parameters : Input) (r : Request) : Request :=
  mkRequest (method_ r) (target_ r) (path_ r) (body_ r) (client_ip_ r) (secure_ r) (headers_ r)
    parameters (query_ r) (form_ r) (files_ r) (multipart_limits_ r) (cookies_ r) (json_ r)
    (body_parsed_ r) (cookies_parsed_ r).

Definition clear_route_parameters (r : Request) : Request := set_route_parameters ∅ r.

Definition set_route_parameter (name value : bytes) (r : Request) : Request :=
  set_route_parameters (<[name := value]> (parameters_ r)) r.

(** [multipart_limits]: only before the body is read. *)
Definition set_multipart_limits (limits : MultipartLimits) (r : Request) : result Request :=
  if body_parsed_ r
  then Throw (logic_error "Multipart limits must be set before reading request input")
  else Ok (mkRequest (method_ r) (target_ r) (path_ r) (body_ r) (client_ip_ r) (secure_ r) (headers_ r)
             (parameters_ r) (query_ r) (form_ r) (files_ r) limits (cookies_ r) (json_ r)
             (body_parsed_ r) (cookies_parsed_ r)).

(** ** Headers and parameters *)

Definition request_header (r : Request) (name : bytes) : bytes := header (headers_ r) name.

Definition parameter (r : Request) (name : bytes) : bytes := default [] (parameters_ r !! name).
Definition has_parameter (r : Request) (name : bytes) : bool := bool_decide (is_Some (parameters_ r !! name)).
Definition query (r : Request) (name : bytes) : bytes := default [] (query_ r !! name).

Definition expects_json (r : Request) : bool :=
  let accept := request_header r (lit "accept") in
  contains (lit "application/json") accept || contains (lit "+json") accept.

Definition is_json (r : Request) : bool :=
  media_type_is (request_header r (lit "content-type")) (lit "application/json").

Definition accepts (r : Request) (media_type : bytes) : bool :=
  let accept := request_header r (lit "accept") in
  bool_decide (accept = []) || contains (lit "*/*") accept || contains media_type accept.

Definition authorization (r : Request) : bytes := request_header r (lit "authorization").
Definition bearer_authenticated (r : Request) : bool := starts_with (lit "Bearer ") (authorization r).
Definition bearer_token (r : Request) : bytes := default [] (strip (lit "Bearer ") (authorization r)).

(** ** The body *)

Abbreviation M := (eff Request).

(** The caches of the body, the rest unchanged. *)
Definition set_body_cache (form : Input) (files : list UploadedFile) (json : option Json) (parsed : bool)
    (r : Request) : Request :=
  set_caches form files json parsed (cookies_ r) (cookies_parsed_ r) (headers_ r) r.

Definition parse_body_input : M unit := fun r =>
  if body_parsed_ r then (Ok (), r)
  else
    let r := set_body_cache ∅ [] None false r in
    let content_type := request_header r (lit "content-type") in
    if media_type_is content_type (lit "application/json") then
      match Json.parse (body_ r) with
      | Ok value => (Ok (), set_body_cache ∅ [] (Some value) true r)
      | Throw (invalid_argument _) => (Throw (http_exception 400 "Malformed JSON request body"), r)
      | Throw e => (Throw e, r)
      | NoFuel => (NoFuel, r)
      end
    else if media_type_is content_type (lit "application/x-www-form-urlencoded") then
      (Ok (), set_body_cache (parse_urlencoded (body_ r)) [] None true r)
    else if media_type_is content_type (lit "multipart/form-data") then
      match parse_multipart content_type (body_ r) (multipart_limits_ r) with
      | Ok input => (Ok (), set_body_cache (mp_fields input) (mp_files input) None true r)
      | Throw e => (Throw e, r)
      | NoFuel => (NoFuel, r)
      end
    else (Ok (), set_body_cache ∅ [] None true r).

Definition json : M Json :=
  parse_body_input;;
  r ← Prelude.get;
  match json_ r with
  | Some value => mret value
  | None => throw (http_exception 400 "Request body is not JSON")
  end.

Definition form : M Input := parse_body_input;; r ← Prelude.get; mret (form_ r).

Definition files : M (list UploadedFile) := parse_body_input;; r ← Prelude.get; mret (files_ r).

Definition files_named (name : bytes) : M (list UploadedFile) :=
  l ← files; mret (base.filter (fun f => field_key (file_name f) = field_key name) l).

(** [file]: the upload of that name when there is exactly one. *)
Definition file (name : bytes) : M (option UploadedFile) :=
  l ← files_named name; mret (match l with [f] => Some f | _ => None end).

Definition has_file (name : bytes) : M bool :=
  l ← files; mret (existsb (fun f => bool_decide (field_key (file_name f) = field_key name)) l).

(** [json_->is_object()] and [json_->get(name)]. *)
Definition json_entry (r : Request) (name : bytes) : option Json := json_ r ≫= fun v => Json.get v name.

Definition input (name : bytes) : M bytes :=
  parse_body_input;;
  r ← Prelude.get;
  mret (match json_entry r name with
        | Some value => json_string value
        | None =>
            match form_ r !! name with
            | Some value => value
            | None => default [] (query_ r !! name)
            end
        end).

Definition has (name : bytes) : M bool :=
  parse_body_input;;
  r ← Prelude.get;
  mret (bool_decide (is_Some (json_entry r name)) || bool_decide (is_Some (form_ r !! name)) ||
        bool_decide (is_Some (query_ r !! name))).

(** The members of the JSON object, if the body is one. *)
Definition json_members (r : Request) : list (bytes * Json) :=
  match json_ r with Some (JObject l) => l | _ => [] end.

Definition all_input (r : Request) : Input :=
  fold_left (fun values '(name, value) => <[name := json_string value]> values) (json_members r)
    (form_ r ∪ query_ r).

Definition all : M Input := parse_body_input;; r ← Prelude.get; mret (all_input r).

Definition only (names : list bytes) : M Input :=
  values ← all;
  mret (fold_left (fun selected name =>
          match values !! name with Some v => <[name := v]> selected | None => selected end) names ∅).

Definition except (names : list bytes) : M Input :=
  values ← all; mret (fold_left (fun values name => delete name values) names values).

(** [structured_input]: query, form and JSON members as one JSON object, the later
    overriding the earlier. *)
Definition structured_input : M (gmap bytes Json) :=
  parse_body_input;;
  r ← Prelude.get;
  let text_values := (JString <$> form_ r) ∪ (JString <$> query_ r) in
  match json_ r with
  | None => mret text_values
  | Some (JObject l) => mret (fold_left (fun values '(name, value) => <[name := value]> values) l text_values)
  | Some _ => throw (http_exception 400 "Request input must be a JSON object")
  end.

(** ** Cookies *)

Definition add_cookie (values : Input) (piece : bytes) : Input :=
  match until "=" (trim piece) with
  | (name, Some value) => <[trim name := decode_component (trim value)]> values
  | (_, None) => values
  end.

(** The loop stops at the end of the header; a last empty piece holds no cookie. *)
Definition parse_cookies (r : Request) : Request :=
  if cookies_parsed_ r then r
  else
    set_caches (form_ r) (files_ r) (json_ r) (body_parsed_ r)
      (fold_left add_cookie (fields ";" (request_header r (lit "cookie"))) ∅) true (headers_ r) r.

Definition cookie (name : bytes) : M bytes := fun r =>
  let r := parse_cookies r in (Ok (default [] (cookies_ r !! name)), r).

Definition cookies : M Input := fun r => let r := parse_cookies r in (Ok (cookies_ r), r).
