(* ===== verification/Response.v ===== *)
(** * Responses and cookies ([src/http/response.cpp], [src/http/cookie.cpp])

    A response with its headers and cookies.  Stream producers and WebSocket sessions
    are values of the application: the model records whether there is one.  The header
    map is unordered in C++; the theorems hold for every order of iteration. *)

From S2P Require Import Prelude Numeral Text Double Json Http Cron.

(** ** Cookies *)

Inductive SameSite := lax | strict | none.

#[export] Instance SameSite_eq_dec : EqDecision SameSite.
Proof. solve_decision. Defined.

Record Cookie := mkCookie {
  cookie_name : bytes;
  cookie_value : bytes;
  cookie_path : bytes;
  cookie_domain : option bytes;
  max_age : option Z;
  cookie_secure : bool;
  http_only : bool;
  same_site : SameSite
}.

Definition letter_or_digit (c : byte) : bool := between "a" "z" c || between "A" "Z" c || between "0" "9" c.

Definition token_char (c : byte) : bool :=
  letter_or_digit c || bool_decide (c ∈ lit "!#$%&" ++ [x27] ++ lit "*+-.^_`|~").

Definition attribute_char (c : byte) : bool := (0x20 <=? uc c) && (uc c <? 0x7f) && negb (c =b? ";").

Definition cookie_value_char (c : byte) : bool :=
  (uc c =? 0x21) || ((0x23 <=? uc c) && (uc c <=? 0x2b)) || ((0x2d <=? uc c) && (uc c <=? 0x3a)) ||
  ((0x3c <=? uc c) && (uc c <=? 0x5b)) || ((0x5d <=? uc c) && (uc c <=? 0x7e)).

(** The lambda [value]: a pair of enclosing quotes is not looked at. *)
Definition valid_cookie_value (value : bytes) : bool :=
  let inner :=
    match value with
    | q :: rest =>
        match last rest with
        | Some e => if (q =b? x22) && (e =b? x22) then removelast rest else value
        | None => value
        end
    | [] => value
    end in
  forallb cookie_value_char inner.

Definition label_ok (label : bytes) : bool :=
  match label, last label with
  | first :: _, Some final =>
      (Z.of_nat (length label) <=? 63) && negb (first =b? "-") && negb (final =b? "-") &&
      forallb (fun c => letter_or_digit c || (c =b? "-")) label
  | _, _ => false
  end.

(** The lambda [domain]: dot-separated labels, one leading dot allowed. *)
Definition valid_domain (value : bytes) : bool :=
  let value := match value with c :: rest => if c =b? "." then rest else value | [] => value end in
  match value with
  | [] => false
  | _ => (Z.of_nat (length value) <=? 253) && forallb label_ok (fields "." value)
  end.

Definition invalid_cookie (cookie : Cookie) : bool :=
  let name := cookie_name cookie in
  bool_decide (name = []) || negb (forallb token_char name) ||
  negb (valid_cookie_value (cookie_value cookie)) || negb (forallb attribute_char (cookie_path cookie)) ||
  match cookie_domain cookie with Some d => negb (valid_domain d) | None => false end ||
  (bool_decide (same_site cookie = none) && negb (cookie_secure cookie)) ||
  (starts_with (lit "__Secure-") name && negb (cookie_secure cookie)) ||
  (starts_with (lit "__Host-") name &&
   (negb (cookie_secure cookie) || bool_decide (is_Some (cookie_domain cookie)) ||
    negb (bool_decide (cookie_path cookie = lit "/")))).

Definition serialize_cookie (cookie : Cookie) : result bytes :=
  if invalid_cookie cookie then Throw (invalid_argument "Invalid HTTP cookie")
  else Ok
    (cookie_name cookie ++ lit "=" ++ cookie_value cookie ++
     match cookie_path cookie with [] => [] | path => lit "; Path=" ++ path end ++
     match cookie_domain cookie with Some d => lit "; Domain=" ++ d | None => [] end ++
     match max_age cookie with Some seconds => lit "; Max-Age=" ++ to_string seconds | None => [] end ++
     (if cookie_secure cookie then lit "; Secure" else []) ++
     (if http_only cookie then lit "; HttpOnly" else []) ++
     lit "; SameSite=" ++
     match same_site cookie with strict => lit "Strict" | none => lit "None" | lax => lit "Lax" end).

(** ** Responses *)

Record Response := mkResponse {
  response_status : Z;
  response_body : bytes;
  streaming : bool;
  websocket_upgrade : bool;
  websocket_protocol : bytes;
  response_headers : Headers;
  response_cookies : list Cookie
}.

Definition make_response (status : Z) (body : bytes) : Response :=
  mkResponse status body false false [] ∅ [].

Definition set_status (value : Z) (r : Response) : Response :=
  mkResponse value (response_body r) (streaming r) (websocket_upgrade r) (websocket_protocol r)
    (response_headers r) (response_cookies r).

(** [body(value)]: the response is an ordinary one again. *)
Definition set_body (value : bytes) (r : Response) : Response :=
  mkResponse (response_status r) value false false [] (response_headers r) (response_cookies r).

Definition set_response_header (name value : bytes) (r : Response) : result Response :=
  if negb (valid_header_name name) || negb (valid_header_value value)
  then Throw (invalid_argument "Invalid HTTP response header")
  else Ok (mkResponse (response_status r) (response_body r) (streaming r) (websocket_upgrade r)
             (websocket_protocol r) (<[normalize_header_name name := value]> (response_headers r))
             (response_cookies r)).

Definition response_header (r : Response) (name : bytes) : bytes := header (response_headers r) name.

Definition with_cookie (value : Cookie) (r : Response) : Response :=
  mkResponse (response_status r) (response_body r) (streaming r) (websocket_upgrade r)
    (websocket_protocol r) (response_headers r) (response_cookies r ++ [value]).

Definition without_cookie (name path : bytes) (r : Response) : Response :=
  with_cookie (mkCookie name [] path None (Some 0) false true lax) r.

(** ** Factories *)

Definition content_type : bytes := lit "content-type".

Definition text (body : bytes) (status : Z) : result Response :=
  set_response_header content_type (lit "text/plain; charset=utf-8") (make_response status body).

Definition json (value : Json) (status : Z) : result Response :=
  set_response_header content_type (lit "application/json; charset=utf-8")
    (make_response status (dump value)).

Definition html (body : bytes) (status : Z) : result Response :=
  set_response_header content_type (lit "text/html; charset=utf-8") (make_response status body).

(** [rendered] is what the view engine renders. *)
Definition view (rendered : result bytes) (status : Z) : result Response :=
  body ← rendered; html body status.

(** [valid] says whether the stream has a producer. *)
Definition stream (valid : bool) (content : bytes) (status : Z) : result Response :=
  if negb valid then Throw (invalid_argument "Streaming response requires a producer")
  else set_response_header content_type content (mkResponse status [] true false [] ∅ []).

Definition websocket (valid : bool) (protocol : bytes) : result Response :=
  if negb valid then Throw (invalid_argument "WebSocket response requires a message handler")
  else Ok (mkResponse 101 [] false true protocol ∅ []).

Definition no_content : Response := make_response 204 [].

Definition redirect (location : bytes) (status : Z) : result Response :=
  set_response_header (lit "location") location (make_response status []).

Definition not_found : result Response := text (lit "Not Found") 404.

Definition unsafe_in_filename (c : byte) : bool :=
  (uc c <? 0x20) || (uc c =? 0x7f) || (c =b? x22) || (c =b? x5c) || (c =b? "/") || (c =b? ";").

Fixpoint drop_while (p : byte -> bool) (s : bytes) : bytes :=
  match s with c :: s' => if p c then drop_while p s' else s | [] => [] end.

Definition safe_download_filename (filename : bytes) : bytes :=
  let safe := map (fun c => if unsafe_in_filename c then "_"%byte else c) filename in
  let safe := drop_while (fun c => (c =b? ".") || isspace c) safe in
  let safe := rev (drop_while isspace (rev safe)) in
  match safe with [] => lit "download" | _ => safe end.

Definition download (body filename content : bytes) (status : Z) : result Response :=
  r ← set_response_header content_type content (make_response status body);
  set_response_header (lit "content-disposition")
    (lit "attachment; filename=" ++ [x22] ++ safe_download_filename filename ++ [x22]) r.
