(* ===== verification/Wire.v ===== *)
(** * HTTP/1 messages ([src/http/message.cpp], and the framing of [src/http/server.cpp])

    [request_size] finds where the first request in a connection's input ends, and
    [parse_request] reads it; the two parse the header lines separately.  Responses
    are printed by [serialize_response] or, streamed, as chunks. *)

From S2P Require Import Prelude Numeral Text Http Media Uploads Request Response.

(** ** Requests *)

Definition parse_method (value : bytes) : option Method :=
  if bool_decide (value = lit "GET") then Some get
  else if bool_decide (value = lit "POST") then Some post
  else if bool_decide (value = lit "PUT") then Some put
  else if bool_decide (value = lit "PATCH") then Some patch
  else if bool_decide (value = lit "DELETE") then Some delete_
  else if bool_decide (value = lit "OPTIONS") then Some options
  else if bool_decide (value = lit "HEAD") then Some head
  else None.

Definition bad {A} (what : string) : result A := Throw (invalid_argument what).

(** Method, target and version. *)
Definition parse_request_line (line : bytes) : result (Method * bytes * bytes) :=
  match until " " line with
  | (method_value, Some rest) =>
      match until " " rest with
      | (target, Some version) =>
          match parse_method method_value with
          | None => bad "Unsupported HTTP method"
          | Some method =>
              if negb (bool_decide (version = lit "HTTP/1.1")) && negb (bool_decide (version = lit "HTTP/1.0"))
              then bad "Unsupported HTTP version"
              else match target with
                   | c :: _ => if c =b? "/" then Ok (method, target, version)
                               else bad "Unsupported HTTP request target"
                   | [] => bad "Unsupported HTTP request target"
                   end
          end
      | (_, None) => bad "Invalid HTTP request line"
      end
  | (_, None) => bad "Invalid HTTP request line"
  end.

(** The variables of the loop over the header lines. *)
Record HeadState := mkHead {
  head_headers : list (bytes * bytes);
  head_length : option Z;
  host_seen : bool;
  traceparent_count : Z
}.

Definition start_head : HeadState := mkHead [] None false 0.

(** [std::from_chars] into a [size_t], all of the value. *)
Definition read_length (value : bytes) : result Z :=
  match from_chars_uint64 value with Some n => Ok n | None => bad "Invalid Content-Length" end.

(** One header line of [parse_request]. *)
Definition parse_header_line (line : bytes) (st : HeadState) : result HeadState :=
  match until ":" line with
  | (_, None) => bad "Invalid HTTP header"
  | (raw_name, Some rest) =>
      let name := trim raw_name in
      let value := trim rest in
      if negb (bool_decide (raw_name = name)) || negb (valid_header_name name) ||
         negb (valid_header_value value)
      then bad "Invalid HTTP header"
      else
        let lower_name := lower name in
        let traces := if bool_decide (lower_name = lit "traceparent") then u32 (traceparent_count st + 1)
                      else traceparent_count st in
        let is_host := bool_decide (lower_name = lit "host") in
        if is_host && (host_seen st || bool_decide (value = [])) then bad "Invalid Host header"
        else
          length ←
            (if bool_decide (lower_name = lit "content-length") then
               match head_length st with
               | Some _ => bad "Duplicate Content-Length is not allowed"
               | None => n ← read_length value; Ok (Some n)
               end
             else Ok (head_length st));
          if bool_decide (lower_name = lit "transfer-encoding")
          then bad "Transfer-Encoding is not supported by this HTTP backend"
          else Ok (mkHead (head_headers st ++ [(lower_name, value)]) length (host_seen st || is_host) traces)
  end.

(** The loop: [rest] is the message from the cursor on, and [remaining] the number of
    bytes up to the end of the head. *)
Fixpoint header_loop (fuel : nat) (rest : bytes) (remaining : Z) (st : HeadState) : result HeadState :=
  match fuel with
  | O => NoFuel
  | S fuel =>
      if remaining <=? 0 then Ok st
      else
        let '(bounded_end, after) :=
          match find crlf rest with
          | Some (line, after) => (if remaining <? size line then remaining else size line, after)
          | None => (remaining, [])
          end in
        st ← parse_header_line (take (Z.to_nat bounded_end) rest) st;
        if bounded_end =? remaining then Ok st
        else header_loop fuel after (remaining - bounded_end - 2) st
  end.

(** [request.set_header] for every header, in order. *)
Definition set_headers (headers : list (bytes * bytes)) (r : Request) : result Request :=
  fold_left (fun r '(name, value) => r ≫= set_header name value) headers (Ok r).

Definition parse_request (message : bytes) (secure : bool) : result Request :=
  match find blank_line message with
  | None => bad "Incomplete HTTP request headers"
  | Some (head_text, after_head) =>
      match find crlf message with
      | None => bad "Invalid HTTP request line"
      | Some (line, after_line) =>
          if size head_text <? size line then bad "Invalid HTTP request line"
          else
            '(method, target, version) ← parse_request_line line;
            st ← header_loop (S (length message)) after_line (size head_text - (size line + 2)) start_head;
            if bool_decide (version = lit "HTTP/1.1") && negb (host_seen st)
            then bad "HTTP/1.1 requires exactly one Host header"
            else
              body ←
                match head_length st with
                | Some n =>
                    if size after_head <? n then bad "Incomplete HTTP request body"
                    else Ok (take (Z.to_nat n) after_head)
                | None => Ok []
                end;
              r ← set_headers (head_headers st) (make_request method target body secure);
              if 1 <? traceparent_count st then set_header (lit "traceparent") [] r else Ok r
      end
  end.

(** ** Framing *)

Record RuntimeOptions := mkOptions {
  max_header_bytes : Z;
  max_request_bytes : Z;
  keep_alive : bool;
  max_requests_per_connection : Z
}.

(** [HeaderLimitError] is a [std::length_error] of the server's own. *)
Definition header_limit : exn := length_error "HTTP request headers are too large".
Definition request_limit : exn := length_error "HTTP request is too large".

(** One header line of [request_content_length]. *)
Definition length_of_line (line : bytes) (content_length : option Z) : result (option Z) :=
  match until ":" line with
  | (_, None) => bad "Invalid HTTP header"
  | (raw_name, Some rest) =>
      let normalized := trim raw_name in
      if negb (bool_decide (raw_name = normalized)) then bad "Invalid HTTP header name"
      else
        let name := lower normalized in
        length ←
          (if bool_decide (name = lit "content-length") then
             match content_length with
             | Some _ => bad "Duplicate Content-Length is not allowed"
             | None => n ← read_length (trim rest); Ok (Some n)
             end
           else Ok content_length);
        if bool_decide (name = lit "transfer-encoding")
        then bad "Transfer-Encoding is not supported by this HTTP backend"
        else Ok length
  end.

Fixpoint content_length_loop (fuel : nat) (rest : bytes) (content_length : option Z) : result (option Z) :=
  match fuel with
  | O => NoFuel
  | S fuel =>
      match rest with
      | [] => Ok content_length
      | _ =>
          match find crlf rest with
          | None => length_of_line rest content_length
          | Some (line, after) =>
              length ← length_of_line line content_length;
              content_length_loop fuel after length
          end
      end
  end.

Definition request_content_length (headers : bytes) : result Z :=
  match find crlf headers with
  | None => Ok 0
  | Some (_, rest) => default 0 <$> content_length_loop (S (length rest)) rest None
  end.

Definition request_size (options : RuntimeOptions) (buffer : bytes) : result (option Z) :=
  match find blank_line buffer with
  | None =>
      if max_header_bytes options <? size buffer then Throw header_limit
      else if max_request_bytes options <? size buffer then Throw request_limit
      else Ok None
  | Some (head_text, _) =>
      let header_size := size head_text + 4 in
      if max_header_bytes options <? header_size then Throw header_limit
      else
        body_size ← request_content_length head_text;
        if (max_request_bytes options <? header_size) || (max_request_bytes options - header_size <? body_size)
        then Throw request_limit
        else
          let expected := header_size + body_size in
          if size buffer <? expected then Ok None else Ok (Some expected)
  end.

(** What [prepare_response] does with the input of a connection that is ready for a
    request: the raw message, the parsed request, and the input that is left.  The
    message is taken off the input before it is parsed. *)
Definition take_request (options : RuntimeOptions) (secure : bool) (client_ip : bytes)
    : eff bytes (option (bytes * Request)) := fun input =>
  match request_size options input with
  | Throw e => (Throw e, input)
  | NoFuel => (NoFuel, input)
  | Ok None => (Ok None, input)
  | Ok (Some expected) =>
      let raw := take (Z.to_nat expected) input in
      let input := drop (Z.to_nat expected) input in
      match parse_request raw secure with
      | Ok request => (Ok (Some (raw, set_client_ip client_ip request)), input)
      | Throw e => (Throw e, input)
      | NoFuel => (NoFuel, input)
      end
  end.

Definition raw_http_1_0 (raw : bytes) : bool :=
  match find crlf raw with
  | None => false
  | Some (line, _) => ends_with (lit " HTTP/1.0") line
  end.

Definition keep_alive_for (raw : bytes) (request : Request) (options : RuntimeOptions) (served : Z) : bool :=
  if negb (keep_alive options) || (max_requests_per_connection options <=? served) then false
  else
    let connection := lower (request_header request (lit "connection")) in
    if raw_http_1_0 raw then bool_decide (connection = lit "keep-alive")
    else negb (bool_decide (connection = lit "close")).

(** [wire::request_keep_alive]. *)
Definition request_keep_alive (request : Request) : bool :=
  let connection := request_header request (lit "connection") in
  negb (bool_decide (connection = lit "close") || bool_decide (connection = lit "Close")).

(** ** Responses *)

Definition reasons : list (Z * string) :=
  [(200, "OK"); (201, "Created"); (202, "Accepted"); (204, "No Content");
   (301, "Moved Permanently"); (302, "Found"); (303, "See Other"); (307, "Temporary Redirect");
   (308, "Permanent Redirect"); (400, "Bad Request"); (401, "Unauthorized"); (403, "Forbidden");
   (404, "Not Found"); (405, "Method Not Allowed"); (409, "Conflict"); (413, "Payload Too Large");
   (415, "Unsupported Media Type"); (422, "Unprocessable Content"); (429, "Too Many Requests");
   (431, "Request Header Fields Too Large"); (500, "Internal Server Error"); (501, "Not Implemented");
   (502, "Bad Gateway"); (503, "Service Unavailable")]%string.

Definition reason_phrase (status : Z) : bytes :=
  match list_find (fun p => p.1 = status) reasons with
  | Some (_, (_, reason)) => lit reason
  | None => lit "Unknown"
  end.

Inductive ConnectionDirective := close | keep_alive_.

Definition validate_header (name value : bytes) : result unit :=
  if negb (valid_header_name name) || negb (valid_header_value value)
  then bad "Invalid HTTP header" else Ok ().

(** Headers the serialiser writes itself. *)
Definition reserved (name : bytes) : bool :=
  bool_decide (name = lit "content-length") || bool_decide (name = lit "connection") ||
  bool_decide (name = lit "transfer-encoding").

(** The header lines, in the order of [headers]. *)
Definition header_lines (headers : list (bytes * bytes)) : result bytes :=
  fold_left (fun output '(name, value) =>
    output ← output;
    if reserved name then Ok output
    else validate_header name value ≫= fun _ => Ok (output ++ name ++ lit ": " ++ value ++ crlf))
    headers (Ok []).

Definition cookie_lines (cookies : list Cookie) : result bytes :=
  fold_left (fun output cookie =>
    output ← output;
    text ← serialize_cookie cookie;
    Ok (output ++ lit "set-cookie: " ++ text ++ crlf))
    cookies (Ok []).

Definition status_line (status : Z) : bytes :=
  lit "HTTP/1.1 " ++ to_string status ++ lit " " ++ reason_phrase status ++ crlf.

Definition directive_text (connection : ConnectionDirective) : bytes :=
  match connection with keep_alive_ => lit "keep-alive" | close => lit "close" end.

(** [order] is the order in which the header map is iterated. *)
Definition serialize_response (order : list (bytes * bytes)) (response : Response) (omit_body : bool)
    (connection : ConnectionDirective) : result bytes :=
  headers ← header_lines order;
  cookies ← cookie_lines (response_cookies response);
  Ok (status_line (response_status response) ++ headers ++ cookies ++
      lit "content-length: " ++ to_string (size (response_body response)) ++ crlf ++
      lit "connection: " ++ directive_text connection ++ crlf ++ crlf ++
      (if omit_body then [] else response_body response)).

Definition serialize_stream_headers (order : list (bytes * bytes)) (response : Response) (omit_body : bool)
    (connection : ConnectionDirective) : result bytes :=
  headers ← header_lines order;
  cookies ← cookie_lines (response_cookies response);
  Ok (status_line (response_status response) ++ headers ++ cookies ++
      (if omit_body then [] else lit "transfer-encoding: chunked" ++ crlf) ++
      lit "connection: " ++ directive_text connection ++ crlf ++ crlf).

(** [std::hex]: digits of a positive number in lower case. *)
Definition hex_digit (d : Z) : byte := if d <? 10 then chr (48 + d) else chr (87 + d).

Fixpoint hex_digits (fuel : nat) (n : Z) : bytes :=
  match fuel with
  | O => []
  | S fuel => (if n <? 16 then [] else hex_digits fuel (n / 16)) ++ [hex_digit (n mod 16)]
  end.

Definition to_hex (n : Z) : bytes := hex_digits (S (Z.to_nat (Z.log2 n))) n.

Definition serialize_chunk (chunk : bytes) : bytes :=
  match chunk with
  | [] => []
  | _ => to_hex (size chunk) ++ crlf ++ chunk ++ crlf
  end.

Definition serialize_chunk_end : bytes := lit "0" ++ blank_line.
