(* ===== verification/WireFacts.v ===== *)
(** * HTTP/1 framing, requests and responses *)

From S2P Require Import Prelude Numeral Text Http Media Uploads Request Response Wire.

#[local] Arguments lit : simpl never.
#[local] Arguments size : simpl never.
#[local] Arguments find : simpl never.
#[local] Arguments crlf : simpl never.
#[local] Arguments blank_line : simpl never.

Lemma size_app a b : size (a ++ b) = size a + size b.
Proof. unfold size. rewrite length_app. lia. Qed.

Lemma size_nonneg a : 0 <= size a.
Proof. unfold size. lia. Qed.

Lemma take_size a b : take (Z.to_nat (size a)) (a ++ b) = a.
Proof. unfold size. rewrite Nat2Z.id. apply take_app_length. Qed.

(** ** Lines *)

Lemma length_crlf : length crlf = 2%nat.
Proof. done. Qed.

Lemma length_blank_line : length blank_line = 4%nat.
Proof. done. Qed.

(** A line break is found where text without one ends, even if that text ends with a
    carriage return. *)
Lemma find_crlf_end s t : find crlf s = None -> find crlf (s ++ crlf ++ t) = Some (s, t).
Proof.
  intros Hs. apply find_Some; [done|]. intros l r E.
  destruct (decide (length s <= length l)%nat) as [|Hl]; [done|exfalso].
  destruct (decide (length l + 2 <= length s)%nat) as [H2|H2].
  - apply (proj1 (find_None crlf s) Hs l (drop (length l + 2) s)).
    rewrite <-(take_drop (length l + 2) s) at 1. rewrite app_assoc. f_equal.
    apply (f_equal (take (length l + 2))) in E.
    rewrite take_app_le in E by done. rewrite E, app_assoc.
    rewrite take_app_le by (rewrite length_app, length_crlf; lia).
    by rewrite firstn_all2 by (rewrite length_app, length_crlf; lia).
  - assert (length s = S (length l)) as Hlen by lia.
    apply (f_equal (fun x => x !! S (length l))) in E. revert E. rewrite (lookup_app_r s), (lookup_app_r l) by lia.
    rewrite Hlen, Nat.sub_diag. replace (S (length l) - length l)%nat with 1%nat by lia.
    unfold crlf. cbn. discriminate.
Qed.

(** The lines of the header section. *)
Fixpoint lines_of (fuel : nat) (section : bytes) : list bytes :=
  match fuel with
  | O => []
  | S fuel =>
      match section with
      | [] => []
      | _ =>
          match find crlf section with
          | None => [section]
          | Some (l, r) => l :: lines_of fuel r
          end
      end
  end.

Definition section_lines (section : bytes) : list bytes := lines_of (S (length section)) section.

(** A fold that may throw. *)
Fixpoint run_lines {S} (f : bytes -> S -> result S) (lines : list bytes) (st : S) : result S :=
  match lines with
  | [] => Ok st
  | line :: rest => st ← f line st; run_lines f rest st
  end.

Lemma run_lines_single {S} (f : bytes -> S -> result S) line st : run_lines f [line] st = f line st.
Proof. cbn. by destruct (f line st). Qed.

Lemma find_crlf_shorter s l r : find crlf s = Some (l, r) -> (length s = length l + 2 + length r)%nat.
Proof. intros ->%find_inv. rewrite !length_app, length_crlf. lia. Qed.

(** Both loops over the header lines fold over the same lines. *)
Lemma header_loop_lines fuel section tail st :
  (length section < fuel)%nat ->
  header_loop fuel (section ++ crlf ++ tail) (size section) st =
  run_lines parse_header_line (lines_of fuel section) st.
Proof.
  revert section st. induction fuel as [|fuel IH]; intros section st Hf; [lia|].
  cbn [header_loop lines_of]. destruct section as [|c section]; [done|].
  set (s := c :: section) in *. assert (0 < size s) by (unfold s, size; cbn; lia).
  rewrite (proj2 (Z.leb_gt _ _)) by done. destruct (find crlf s) as [[l r]|] eqn:E.
  - rewrite (find_grow _ _ _ _ (crlf ++ tail) E). pose proof (find_crlf_shorter _ _ _ E) as Hlen.
    rewrite (proj2 (Z.ltb_ge _ _)) by (unfold size; lia).
    rewrite (find_inv _ _ _ _ E) at 1. rewrite <-app_assoc, take_size. cbn [run_lines].
    destruct (parse_header_line l st) as [st'|e|]; [|done..]. cbn.
    rewrite (proj2 (Z.eqb_neq _ _)) by (unfold size; lia).
    replace (size s - size l - 2) with (size r) by (unfold size; lia). apply IH. lia.
  - rewrite (find_crlf_end _ tail E), Z.ltb_irrefl, take_size, Z.eqb_refl, run_lines_single.
    by destruct (parse_header_line s st).
Qed.

Lemma content_length_loop_lines fuel section length_ :
  (length section < fuel)%nat ->
  content_length_loop fuel section length_ = run_lines length_of_line (lines_of fuel section) length_.
Proof.
  revert section length_. induction fuel as [|fuel IH]; intros section length_ Hf; [lia|].
  cbn [content_length_loop lines_of]. destruct section as [|c section]; [done|].
  destruct (find crlf (c :: section)) as [[l r]|] eqn:E; [|by rewrite run_lines_single].
  pose proof (find_crlf_shorter _ _ _ E). cbn [run_lines].
  destruct (length_of_line l length_); [|done..]. cbn. apply IH. lia.
Qed.

Lemma lines_of_fuel fuel fuel' section :
  (length section < fuel)%nat -> (length section < fuel')%nat -> lines_of fuel section = lines_of fuel' section.
Proof.
  revert fuel' section. induction fuel as [|fuel IH]; intros fuel' section H1 H2; [lia|].
  destruct fuel' as [|fuel']; [lia|]. cbn [lines_of]. destruct section as [|c section]; [done|].
  destruct (find crlf (c :: section)) as [[l r]|] eqn:E; [|done].
  pose proof (find_crlf_shorter _ _ _ E). f_equal. apply IH; lia.
Qed.

(** ** The two readers of the content length agree *)

Lemma header_line_length line st st' :
  parse_header_line line st = Ok st' ->
  length_of_line line (head_length st) = Ok (head_length st').
Proof.
  unfold parse_header_line, length_of_line. destruct (until ":" line) as [raw_name [rest|]]; [|done].
  destruct (bool_decide (raw_name = trim raw_name)); [|done]. cbn [negb orb].
  destruct (_ || _); [done|]. destruct (_ && _); [done|].
  destruct (bool_decide (lower (trim raw_name) = lit "content-length")).
  - destruct (head_length st); [done|]. destruct (read_length (trim rest)); [|done..]. cbn.
    destruct (bool_decide _); [done|]. by intros [= <-].
  - cbn. destruct (bool_decide _); [done|]. by intros [= <-].
Qed.

Lemma header_lines_length lines st st' :
  run_lines parse_header_line lines st = Ok st' ->
  run_lines length_of_line lines (head_length st) = Ok (head_length st').
Proof.
  revert st. induction lines as [|line lines IH]; intros st; cbn; [by intros [= <-]|].
  destruct (parse_header_line line st) as [st1|e|] eqn:E; [|done..]. cbn. intros H.
  rewrite (header_line_length _ _ _ E). cbn. by apply IH.
Qed.

(** The request line and the header lines of the text before the blank line. *)
Definition head_lines (head_text : bytes) : bytes * list bytes :=
  match find crlf head_text with
  | None => (head_text, [])
  | Some (line, section) => (line, section_lines section)
  end.

(** What [parse_request] does after the header lines. *)
Definition finish_request (secure : bool) (after : bytes) (method : Method) (target version : bytes)
    (st : HeadState) : result Request :=
  if bool_decide (version = lit "HTTP/1.1") && negb (host_seen st)
  then bad "HTTP/1.1 requires exactly one Host header"
  else
    body ←
      match head_length st with
      | Some n => if size after <? n then bad "Incomplete HTTP request body" else Ok (take (Z.to_nat n) after)
      | None => Ok []
      end;
    r ← set_headers (head_headers st) (make_request method target body secure);
    if 1 <? traceparent_count st then set_header (lit "traceparent") [] r else Ok r.

Lemma parse_request_eq message secure head_text after :
  find blank_line message = Some (head_text, after) ->
  parse_request message secure =
  ('(method, target, version) ← parse_request_line (head_lines head_text).1;
   st ← run_lines parse_header_line (head_lines head_text).2 start_head;
   finish_request secure after method target version st).
Proof.
  intros E. unfold parse_request. rewrite E. pose proof (find_inv _ _ _ _ E) as Em.
  change blank_line with (crlf ++ crlf) in Em. rewrite <-app_assoc in Em. unfold head_lines.
  destruct (find crlf head_text) as [[line section]|] eqn:El.
  - assert (find crlf message = Some (line, section ++ crlf ++ crlf ++ after)) as ->
      by (rewrite Em; by apply find_grow).
    pose proof (find_crlf_shorter _ _ _ El) as Hlen.
    rewrite (proj2 (Z.ltb_ge _ _)) by (unfold size; lia). cbn [fst snd].
    destruct (parse_request_line line) as [[[method target] version]|e|]; [|done..].
    cbn [mbind result_bind]. replace (size head_text - (size line + 2)) with (size section) by (unfold size; lia).
    rewrite header_loop_lines by (rewrite Em, !length_app; lia).
    unfold section_lines. rewrite (lines_of_fuel _ (S (length section))); [done| |lia].
    rewrite Em, !length_app. lia.
  - rewrite Em, (find_crlf_end _ _ El), Z.ltb_irrefl. cbn [fst snd].
    destruct (parse_request_line head_text) as [[[method target] version]|e|]; [|done..].
    cbn -[size header_loop]. replace (size head_text - (size head_text + 2)) with (-2) by lia. done.
Qed.

Lemma request_content_length_eq head_text :
  request_content_length head_text =
  default 0 <$> run_lines length_of_line (head_lines head_text).2 None.
Proof.
  unfold request_content_length, head_lines. destruct (find crlf head_text) as [[line section]|]; [|done].
  rewrite content_length_loop_lines by lia. done.
Qed.

(** ** Errors *)

Definition head_error (e : exn) : bool :=
  match e with
  | invalid_argument what => negb (bool_decide (what = "Incomplete HTTP request headers"%string)) &&
                             negb (bool_decide (what = "Incomplete HTTP request body"%string))
  | _ => false
  end.

Lemma parse_request_line_raises line : raises_only head_error (parse_request_line line).
Proof.
  unfold parse_request_line. destruct (until " " line) as [m [rest|]]; [|done].
  destruct (until " " rest) as [t [v|]]; [|done]. destruct (parse_method m); [|done].
  destruct (_ && _); [done|]. destruct t as [|c t]; [done|]. by destruct (c =b? "/").
Qed.

Lemma read_length_raises value : raises_only head_error (read_length value).
Proof. unfold read_length. by destruct (from_chars_uint64 value). Qed.

Lemma parse_header_line_raises line st : raises_only head_error (parse_header_line line st).
Proof.
  unfold parse_header_line. destruct (until ":" line) as [n [rest|]]; [|done].
  destruct (_ || _); [done|]. destruct (_ && _); [done|]. apply raises_only_bind.
  - destruct (bool_decide _); [|done]. destruct (head_length st); [done|].
    apply raises_only_bind; [apply read_length_raises|done].
  - intros a _. by destruct (bool_decide _).
Qed.

Lemma run_lines_raises {S} P (f : bytes -> S -> result S) lines st :
  (forall line st, raises_only P (f line st)) -> raises_only P (run_lines f lines st).
Proof.
  intros Hf. revert st. induction lines as [|line lines IH]; intros st; cbn; [done|].
  apply raises_only_bind; auto.
Qed.

Lemma set_header_raises name value r : raises_only head_error (set_header name value r).
Proof. unfold set_header. by destruct (_ || _). Qed.

Lemma set_headers_raises headers r : raises_only head_error (set_headers headers r).
Proof.
  unfold set_headers. assert (raises_only head_error (Ok r)) as Hr by done. revert Hr.
  generalize (Ok r : result Request) as acc.
  induction headers as [|[n v] headers IH]; intros acc Hacc; cbn; [done|].
  apply IH. apply raises_only_bind; [done|]. intros. apply set_header_raises.
Qed.

(** ** Framing *)

Lemma request_size_Some options buffer n :
  request_size options buffer = Ok (Some n) ->
  exists head_text after k,
    find blank_line buffer = Some (head_text, after) /\ 0 <= k /\ n = size head_text + 4 + k /\ k <= size after /\
    request_content_length head_text = Ok k.
Proof.
  unfold request_size. destruct (find blank_line buffer) as [[head_text after]|] eqn:E;
    [|by repeat destruct (_ <? _)].
  destruct (_ <? _); [done|]. destruct (request_content_length head_text) as [k|e|] eqn:Ek; [|done..]. cbn.
  destruct (_ || _); [done|]. destruct (Z.ltb_spec (size buffer) (size head_text + 4 + k)); [done|].
  intros [= <-]. exists head_text, after, k. split_and!; try done.
  - rewrite request_content_length_eq in Ek.
    destruct (run_lines length_of_line _ None) as [[m|]|e|] eqn:Er; try done; cbn in Ek; injection Ek as <-; [|done].
    assert (forall lines o v, run_lines length_of_line lines o = Ok (Some v) ->
      (forall w, o = Some w -> 0 <= w) -> 0 <= v) as Hnn; [|by eapply Hnn].
    clear. induction lines as [|line lines IH]; intros o v; cbn; [intros [= ->]; auto|].
    destruct (length_of_line line o) as [o'|e|] eqn:El; [|done..]. cbn. intros Hr Ho. eapply IH; [done|].
    intros w ->. unfold length_of_line in El. destruct (until ":" line) as [nm [rest|]]; [|done].
    destruct (negb _); [done|]. destruct (bool_decide (lower _ = lit "content-length")).
    + destruct o; [done|]. unfold read_length in El. destruct (from_chars_uint64 (trim rest)) eqn:Ef; [|done].
      cbn in El. destruct (bool_decide _); [done|]. injection El as <-.
      apply from_chars_all_range in Ef. lia.
    + cbn in El. destruct (bool_decide _); [done|]. injection El as ->. by apply Ho.
  - pose proof (find_inv _ _ _ _ E) as Eb. rewrite Eb, !size_app in *. unfold size in *.
    rewrite length_blank_line in *. lia.
Qed.

(** The message that is cut off starts with the same head. *)
Lemma find_cut buffer head_text after k :
  find blank_line buffer = Some (head_text, after) -> (k <= length after)%nat ->
  take (length head_text + 4 + k) buffer = head_text ++ blank_line ++ take k after /\
  find blank_line (take (length head_text + 4 + k) buffer) = Some (head_text, take k after).
Proof.
  intros E Hk. pose proof (find_inv _ _ _ _ E) as Eb.
  assert (take (length head_text + 4 + k) buffer = head_text ++ blank_line ++ take k after) as Et.
  { rewrite Eb, app_assoc, take_app_ge by (rewrite length_app, length_blank_line; lia).
    rewrite length_app, length_blank_line, <-app_assoc. do 3 f_equal. lia. }
  split; [done|]. rewrite Et. apply find_Some; [done|]. intros l r El.
  apply (find_least blank_line buffer head_text after l (r ++ drop k after)); [done|].
  transitivity ((head_text ++ blank_line ++ take k after) ++ drop k after).
  - by rewrite <-!app_assoc, take_drop.
  - rewrite El. by rewrite <-!app_assoc.
Qed.

Lemma set_header_body name value r r' : set_header name value r = Ok r' -> body_ r' = body_ r.
Proof. unfold set_header. destruct (_ || _); [done|]. by intros [= <-]. Qed.

Lemma set_headers_body headers r r' : set_headers headers r = Ok r' -> body_ r' = body_ r.
Proof.
  unfold set_headers.
  assert (forall acc b, (forall r0, acc = Ok r0 -> body_ r0 = b) ->
    fold_left (fun r '(name, value) => r ≫= set_header name value) headers acc = Ok r' -> body_ r' = b) as H;
    [|apply H; by intros ? [= <-]].
  clear r. induction headers as [|[n v] headers IH]; intros acc b Hacc; cbn; [by apply Hacc|].
  apply IH. intros r0. destruct acc as [r1|e|]; [|done..]. cbn. intros ->%set_header_body. by apply Hacc.
Qed.

Lemma make_request_body method target body secure : body_ (make_request method target body secure) = body.
Proof. unfold make_request. by destruct (parse_target target). Qed.

Lemma finish_request_framed secure after method target version st :
  size after = default 0 (head_length st) ->
  raises_only head_error (finish_request secure after method target version st) /\
  forall r, finish_request secure after method target version st = Ok r -> body_ r = after.
Proof.
  intros Hsize. unfold finish_request.
  assert ((match head_length st with
    | Some n => if size after <? n then bad "Incomplete HTTP request body" else Ok (take (Z.to_nat n) after)
    | None => Ok [] end) = Ok after) as ->.
  { destruct (head_length st) as [n|]; cbn in Hsize.
    - rewrite Hsize, Z.ltb_irrefl. subst n. f_equal. apply firstn_all2. unfold size. lia.
    - by destruct after. }
  destruct (_ && _); [done|]. cbn. split.
  - apply raises_only_bind; [apply set_headers_raises|]. intros r _.
    destruct (_ <? _); [apply set_header_raises|done].
  - intros r. destruct (set_headers _ _) as [r1|e|] eqn:E; [|done..]. cbn.
    apply set_headers_body in E. rewrite make_request_body in E.
    destruct (_ <? _); [intros ->%set_header_body; done|by intros [= <-]].
Qed.

Lemma framing_lemma options buffer n secure :
  request_size options buffer = Ok (Some n) ->
  raises_only head_error (parse_request (take (Z.to_nat n) buffer) secure) /\
  forall r, parse_request (take (Z.to_nat n) buffer) secure = Ok r ->
    exists head_text after, find blank_line buffer = Some (head_text, after) /\
      take (Z.to_nat n) buffer = head_text ++ blank_line ++ body_ r.
Proof.
  intros (head_text & after & k & E & Hk & -> & Hle & Elen)%request_size_Some.
  destruct (find_cut buffer head_text after (Z.to_nat k) E) as [Ecut Ecutf]; [unfold size in *; lia|].
  replace (Z.to_nat (size head_text + 4 + k)) with (length head_text + 4 + Z.to_nat k)%nat by (unfold size; lia).
  rewrite (parse_request_eq _ _ _ _ Ecutf).
  rewrite request_content_length_eq in Elen. pose proof (parse_request_line_raises (head_lines head_text).1) as Hline.
  destruct (parse_request_line _) as [[[method target] version]|e|]; [|done..]. cbn [mbind result_bind].
  pose proof (run_lines_raises head_error parse_header_line (head_lines head_text).2 start_head
    parse_header_line_raises) as Hst.
  destruct (run_lines parse_header_line _ start_head) as [st|e|] eqn:Est; [|done..]. cbn [mbind result_bind].
  apply header_lines_length in Est. cbn in Est. rewrite Est in Elen. cbn in Elen. injection Elen as Elen.
  destruct (finish_request_framed secure (take (Z.to_nat k) after) method target version st) as [Hr Hb].
  { unfold size in *. rewrite length_take, Elen. lia. }
  split; [done|]. intros r Er. exists head_text, after. split; [done|]. by rewrite (Hb r Er).
Qed.

(** ** Requests as a client prints them *)

Definition CR : byte := x0d.

(** Lines separated by line breaks. *)
Fixpoint join_lines (lines : list bytes) : bytes :=
  match lines with
  | [] => []
  | [line] => line
  | line :: rest => line ++ crlf ++ join_lines rest
  end.

Definition plain_line (line : bytes) : Prop := line <> [] /\ CR ∉ line.

Lemma join_lines_head line rest : plain_line line ->
  exists c t, join_lines (line :: rest) = c :: t /\ c <> CR.
Proof.
  intros [Hne Hcr]. destruct line as [|c line]; [done|]. apply not_elem_of_cons in Hcr as [Hc _].
  destruct rest; cbn; eauto.
Qed.

Lemma find_blank_step c t : c <> CR ->
  find blank_line (crlf ++ c :: t) = (fun '(l, r) => (crlf ++ l, r)) <$> find blank_line (c :: t).
Proof.
  intros Hc. assert ((x0d =b? c) = false) as E by (apply byte_eqb_false; unfold CR in Hc; congruence).
  unfold crlf at 1. cbn [app]. rewrite find_cons by (unfold blank_line, crlf; cbn; by rewrite E). rewrite find_cons by (unfold blank_line, crlf; done).
  by destruct (find blank_line (c :: t)) as [[l r]|].
Qed.

Lemma find_blank_lines lines rest :
  lines <> [] -> Forall plain_line lines ->
  find blank_line (join_lines lines ++ blank_line ++ rest) = Some (join_lines lines, rest).
Proof.
  intros Hne Hl. induction lines as [|line lines IH]; [done|]. apply Forall_cons in Hl as [[H1 H2] Hl].
  destruct lines as [|line' lines]; [cbn; by apply (find_at CR)|].
  change (join_lines (line :: line' :: lines)) with (line ++ crlf ++ join_lines (line' :: lines)).
  apply Forall_cons in Hl as Hl'. destruct Hl' as [Hp _].
  destruct (join_lines_head line' lines Hp) as (c & t & Ej & Hc). specialize (IH ltac:(done) Hl).
  rewrite Ej in *. rewrite <-!app_assoc. change blank_line with (CR :: drop 1 blank_line) at 1.
  rewrite find_skip by done. change (CR :: drop 1 blank_line) with blank_line.
  change ((c :: t) ++ blank_line ++ rest) with (c :: t ++ blank_line ++ rest) in IH |- *.
  rewrite find_blank_step, IH by done. done.
Qed.

Lemma lines_of_join fuel lines :
  Forall plain_line lines -> (length (join_lines lines) < fuel)%nat -> lines_of fuel (join_lines lines) = lines.
Proof.
  revert fuel. induction lines as [|line lines IH]; intros fuel Hl Hf; [by destruct fuel|].
  apply Forall_cons in Hl as [Hp Hl]. destruct fuel as [|fuel]; [lia|]. cbn [lines_of].
  destruct (join_lines_head line lines Hp) as (c & t & Ej & _). rewrite Ej. rewrite <-Ej in *.
  destruct Hp as [H1 H2]. destruct lines as [|line' lines].
  - cbn. change crlf with (CR :: [x0a]). by rewrite (find_free CR).
  - change (join_lines (line :: line' :: lines)) with (line ++ crlf ++ join_lines (line' :: lines)) in *.
    change crlf with (CR :: [x0a]) at 1 2. rewrite (find_at CR) by done. f_equal. apply IH; [done|].
    rewrite !length_app, length_crlf in Hf. lia.
Qed.

Lemma head_lines_join line lines :
  Forall plain_line (line :: lines) -> head_lines (join_lines (line :: lines)) = (line, lines).
Proof.
  intros Hl. apply Forall_cons in Hl as [[H1 H2] Hl]. unfold head_lines.
  destruct lines as [|line' lines].
  - cbn. change crlf with (CR :: [x0a]). by rewrite (find_free CR).
  - change (join_lines (line :: line' :: lines)) with (line ++ crlf ++ join_lines (line' :: lines)).
    change crlf with (CR :: [x0a]) at 1 2. rewrite (find_at CR) by done. f_equal.
    unfold section_lines. apply lines_of_join; [done|lia].
Qed.

(** ** Header lines *)

Lemma trim_front_id s : (forall c t, s = c :: t -> blank c = false) -> trim_front s = s.
Proof. destruct s as [|c s]; [done|]. cbn. intros H. by rewrite (H c s eq_refl). Qed.

Lemma name_char_plain c : name_char c = true ->
  blank c = false /\ c <> ":"%byte /\ c <> CR /\ c <> " "%byte.
Proof.
  intros H. assert (implb (name_char c) (negb (blank c) && negb (c =b? ":") && negb (c =b? CR) && negb (c =b? " "))
    = true) as Hb by (clear; by_bytes). rewrite H in Hb. cbn in Hb. by reflect_bools.
Qed.

Lemma valid_name_Forall name : valid_header_name name = true -> Forall (fun c => name_char c = true) name.
Proof.
  intros H. apply Forall_forall. intros c Hc%list_elem_of_In. destruct name; [done|].
  by eapply (proj1 (forallb_forall _ _)) in H.
Qed.

Lemma trim_name name : valid_header_name name = true -> trim name = name.
Proof.
  intros H%valid_name_Forall. unfold trim.
  assert (forall s, Forall (fun c => name_char c = true) s -> trim_front s = s) as Hid.
  { intros s Hs. apply trim_front_id. intros c t ->. apply Forall_cons in Hs as [Hc _].
    by apply name_char_plain in Hc as [? _]. }
  rewrite (Hid name) by done. rewrite Hid by (by apply Forall_rev). apply rev_involutive.
Qed.

Lemma name_avoids name c : valid_header_name name = true -> name_char c = false -> c ∉ name.
Proof.
  intros H%valid_name_Forall Hc Hin. eapply Forall_forall in H; [|done]. congruence.
Qed.

Lemma trim_blank value : trim (lit " " ++ value) = trim value.
Proof. done. Qed.

Lemma name_char_lower c : name_char c = true -> name_char (ascii_lower c) = true.
Proof.
  intros H. assert (implb (name_char c) (name_char (ascii_lower c)) = true) as Hb by (clear; by_bytes).
  by rewrite H in Hb.
Qed.

Lemma ascii_lower_idem c : ascii_lower (ascii_lower c) = ascii_lower c.
Proof. apply byte_eqb_true. by_bytes. Qed.

Lemma valid_name_lower name : valid_header_name name = true -> valid_header_name (lower name) = true.
Proof.
  intros H. apply valid_name_Forall in H as Hf. destruct name as [|c name]; [done|].
  unfold valid_header_name, lower. cbn [map]. apply forallb_forall.
  change (ascii_lower c :: map ascii_lower name) with (map ascii_lower (c :: name)).
  intros x [y [<- Hy%list_elem_of_In]]%in_map_iff. apply name_char_lower. by eapply Forall_forall in Hf.
Qed.

Lemma normalize_lower name : normalize_header_name (lower name) = lower name.
Proof.
  unfold normalize_header_name, lower. rewrite map_map. apply map_ext. apply ascii_lower_idem.
Qed.

Definition print_header (h : bytes * bytes) : bytes := h.1 ++ lit ": " ++ h.2.

(** A header value as clients send it: valid, without blanks at the ends. *)
Definition value_ok (value : bytes) : Prop := valid_header_value value = true /\ trim value = value.

Definition special_names : list bytes :=
  map lit ["host"; "content-length"; "transfer-encoding"; "traceparent"].

Definition header_ok (h : bytes * bytes) : Prop :=
  valid_header_name h.1 = true /\ value_ok h.2.

Lemma value_char_CR value : valid_header_value value = true -> CR ∉ value.
Proof.
  intros H Hin%list_elem_of_In. eapply (proj1 (forallb_forall _ _)) in H; [|done]. by vm_compute in H.
Qed.

Lemma print_header_plain h : header_ok h -> plain_line (print_header h).
Proof.
  intros (Hn & Hv & _). split.
  - unfold print_header. destruct h as [[|c n] v]; done.
  - unfold print_header. intros [H|[H|H]%elem_of_app]%elem_of_app.
    + by apply (name_avoids _ CR) in H.
    + revert H. apply (bool_decide_unpack _). by vm_compute.
    + by apply value_char_CR in H.
Qed.

Lemma until_header h : valid_header_name h.1 = true ->
  until ":" (print_header h) = (h.1, Some (lit " " ++ h.2)).
Proof. intros Hn. unfold print_header. apply until_app. by apply name_avoids. Qed.

(** A header that has no meaning to the parser is recorded. *)
Lemma parse_plain_header h st :
  header_ok h -> lower h.1 ∉ special_names ->
  parse_header_line (print_header h) st =
  Ok (mkHead (head_headers st ++ [(lower h.1, h.2)]) (head_length st) (host_seen st) (traceparent_count st)).
Proof.
  intros (Hn & Hv & Ht) Hs. unfold parse_header_line. rewrite until_header, trim_name, trim_blank, Ht by done.
  rewrite bool_decide_eq_true_2, Hn, Hv by done. cbn [negb orb].
  assert (forall s, s ∈ special_names -> bool_decide (lower h.1 = s) = false) as Hd.
  { intros s Hin. apply bool_decide_eq_false_2. intros E. apply Hs. by rewrite E. }
  rewrite (Hd (lit "traceparent")), (Hd (lit "host")), (Hd (lit "content-length")), (Hd (lit "transfer-encoding"))
    by by_decide. cbn [andb mbind result_bind]. by rewrite orb_false_r.
Qed.

Lemma parse_host_header value st :
  value_ok value -> value <> [] -> host_seen st = false ->
  parse_header_line (print_header (lit "host", value)) st =
  Ok (mkHead (head_headers st ++ [(lit "host", value)]) (head_length st) true (traceparent_count st)).
Proof.
  intros (Hv & Ht) Hne Hh. unfold parse_header_line. rewrite until_header by done. cbn [fst snd].
  rewrite trim_name, trim_blank, Ht by done.
  rewrite bool_decide_eq_true_2, Hv by done. change (valid_header_name (lit "host")) with true. cbn [negb orb].
  change (lower (lit "host")) with (lit "host"). rewrite Hh, (bool_decide_eq_false_2 (value = [])) by done.
  done.
Qed.

Lemma to_string_name n : 0 <= n -> valid_header_name (to_string n) = true.
Proof.
  intros Hn. unfold to_string. rewrite (proj2 (Z.ltb_ge _ _)) by done.
  pose proof (to_string_u_nonempty n Hn) as Hne. pose proof (to_string_u_digits n Hn) as Hd.
  unfold valid_header_name. destruct (to_string_u n) as [|c s] eqn:E; [done|]. rewrite <-E in *.
  apply forallb_forall. intros x Hx%list_elem_of_In. eapply Forall_forall in Hd; [|done].
  assert (implb (is_digit x) (name_char x) = true) as Hb by (clear; by_bytes). by rewrite Hd in Hb.
Qed.

Lemma name_value name : valid_header_name name = true -> valid_header_value name = true.
Proof.
  intros H%valid_name_Forall. apply forallb_forall. intros c Hc%list_elem_of_In.
  eapply Forall_forall in H; [|done].
  assert (implb (name_char c) (value_char c) = true) as Hb by (clear; by_bytes). by rewrite H in Hb.
Qed.

Lemma parse_length_header n st :
  0 <= n < 2 ^ 64 -> head_length st = None ->
  parse_header_line (print_header (lit "content-length", to_string n)) st =
  Ok (mkHead (head_headers st ++ [(lit "content-length", to_string n)]) (Some n) (host_seen st) (traceparent_count st)).
Proof.
  intros Hn Hl. pose proof (to_string_name n ltac:(lia)) as Hd.
  unfold parse_header_line. rewrite until_header by done. cbn [fst snd].
  rewrite trim_name, trim_blank, (trim_name (to_string n)), (name_value (to_string n)) by done.
  rewrite bool_decide_eq_true_2 by done. change (valid_header_name (lit "content-length")) with true. cbn [negb orb].
  change (lower (lit "content-length")) with (lit "content-length"). rewrite Hl.
  change (bool_decide (lit "content-length" = lit "traceparent")) with false.
  change (bool_decide (lit "content-length" = lit "host")) with false.
  change (bool_decide (lit "content-length" = lit "content-length")) with true.
  change (bool_decide (lit "content-length" = lit "transfer-encoding")) with false. cbn [andb].
  unfold read_length, from_chars_uint64. rewrite from_chars_all_to_string by (unfold UINT64_MAX; lia). cbn.
  by rewrite orb_false_r.
Qed.

(** ** Whole requests *)

Record ClientRequest := mkClient {
  c_method : Method;
  c_target : bytes;
  c_host : bytes;
  c_headers : list (bytes * bytes);
  c_body : bytes
}.

Definition client_headers (c : ClientRequest) : list (bytes * bytes) :=
  (lit "host", c_host c) :: c_headers c ++ [(lit "content-length", to_string (size (c_body c)))].

Definition client_line (c : ClientRequest) : bytes :=
  method_text (c_method c) ++ lit " " ++ c_target c ++ lit " " ++ lit "HTTP/1.1".

Definition client_head (c : ClientRequest) : bytes :=
  join_lines (client_line c :: map print_header (client_headers c)).

Definition print_request (c : ClientRequest) : bytes := client_head c ++ blank_line ++ c_body c.

Record client_ok (c : ClientRequest) : Prop := {
  ok_target : exists t, c_target c = "/"%byte :: t;
  ok_target_chars : (" "%byte ∉ c_target c) /\ (CR ∉ c_target c);
  ok_host : value_ok (c_host c) /\ c_host c <> [];
  ok_headers : Forall (fun h => header_ok h /\ lower h.1 ∉ special_names) (c_headers c);
  ok_body : size (c_body c) < 2 ^ 64
}.

(** The request the application sees. *)
Definition with_headers (headers : Headers) (r : Request) : Request :=
  set_caches ∅ [] None false ∅ false headers r.

Definition received (c : ClientRequest) (secure : bool) : Request :=
  with_headers (fold_left (fun m '(n, v) => <[lower n := v]> m) (client_headers c) ∅)
    (make_request (c_method c) (c_target c) (c_body c) secure).

Lemma method_text_plain method : (CR ∉ method_text method) /\ (" "%byte ∉ method_text method).
Proof. destruct method; split; by_decide. Qed.

Lemma parse_method_text method : parse_method (method_text method) = Some method.
Proof. by destruct method. Qed.

Lemma client_line_parses c : client_ok c ->
  parse_request_line (client_line c) = Ok (c_method c, c_target c, lit "HTTP/1.1").
Proof.
  intros [[t Et] [Hsp _] _ _ _]. unfold parse_request_line, client_line.
  change (lit " ") with [" "%byte]. cbn [app].
  rewrite until_app by apply method_text_plain. rewrite until_app by done.
  rewrite parse_method_text, bool_decide_eq_true_2 by done. cbn [negb andb]. by rewrite Et.
Qed.

Lemma client_headers_ok c : client_ok c -> Forall header_ok (client_headers c).
Proof.
  intros [_ _ [Hh _] Hs Hb]. apply Forall_cons. split; [by split|]. apply Forall_app. split.
  - eapply Forall_impl; [exact Hs|]. by intros h [? _].
  - apply Forall_singleton. split; [done|]. pose proof (to_string_name _ (size_nonneg (c_body c))).
    split; [by apply name_value|by apply trim_name].
Qed.

Lemma client_lines_plain c : client_ok c ->
  Forall plain_line (client_line c :: map print_header (client_headers c)).
Proof.
  intros Hc. apply Forall_cons. split.
  - destruct Hc as [_ [_ Hcr] _ _ _]. unfold client_line. split; [by destruct (c_method c)|].
    pose proof (method_text_plain (c_method c)) as [? _].
    rewrite !elem_of_app. intros [|[Hx|[|[Hx|Hx]]]]; [done| |done| |]; revert Hx; by_decide.
  - apply Forall_map. eapply Forall_impl; [by apply client_headers_ok|]. apply print_header_plain.
Qed.

Lemma find_head c rest : client_ok c ->
  find blank_line (print_request c ++ rest) = Some (client_head c, c_body c ++ rest).
Proof.
  intros Hc. unfold print_request. rewrite <-!app_assoc. apply find_blank_lines; [done|].
  by apply client_lines_plain.
Qed.

Lemma run_lines_app {S} (f : bytes -> S -> result S) a b st :
  run_lines f (a ++ b) st = (st ← run_lines f a st; run_lines f b st).
Proof.
  revert st. induction a as [|x a IH]; intros st; [done|]. cbn. destruct (f x st); [|done..]. cbn. apply IH.
Qed.

Lemma run_plain_headers hs st :
  Forall (fun h => header_ok h /\ lower h.1 ∉ special_names) hs ->
  run_lines parse_header_line (map print_header hs) st =
  Ok (mkHead (head_headers st ++ map (fun h => (lower h.1, h.2)) hs) (head_length st) (host_seen st)
        (traceparent_count st)).
Proof.
  revert st. induction hs as [|h hs IH]; intros st Hf; cbn.
  - rewrite app_nil_r. by destruct st.
  - apply Forall_cons in Hf as [[H1 H2] Hf]. rewrite parse_plain_header by done. cbn. rewrite IH by done.
    cbn. by rewrite <-app_assoc.
Qed.

Definition lowered (c : ClientRequest) : list (bytes * bytes) := map (fun h => (lower h.1, h.2)) (client_headers c).

Lemma client_lines_run c : client_ok c ->
  run_lines parse_header_line (map print_header (client_headers c)) start_head =
  Ok (mkHead (lowered c) (Some (size (c_body c))) true 0).
Proof.
  intros [_ _ [Hh Hne] Hs Hb]. unfold client_headers, lowered. cbn [map run_lines].
  rewrite parse_host_header by done. cbn [mbind result_bind]. rewrite map_app, run_lines_app, run_plain_headers by done.
  cbn [mbind result_bind head_headers head_length host_seen traceparent_count start_head app map].
  rewrite run_lines_single, parse_length_header by (done || pose proof (size_nonneg (c_body c)); lia).
  cbn. by rewrite map_app.
Qed.

Lemma set_header_with name value hs r :
  valid_header_name name = true -> valid_header_value value = true ->
  set_header name value (with_headers hs r) = Ok (with_headers (<[normalize_header_name name := value]> hs) r).
Proof. intros Hn Hv. unfold set_header. rewrite Hn, Hv. done. Qed.

Lemma set_headers_with headers hs r :
  Forall header_ok headers ->
  set_headers (map (fun h => (lower h.1, h.2)) headers) (with_headers hs r) =
  Ok (with_headers (fold_left (fun m '(n, v) => <[lower n := v]> m) headers hs) r).
Proof.
  intros Hf. unfold set_headers. revert hs. induction Hf as [|[n v] headers (Hn & Hv & _) Hf IH]; intros hs; [done|].
  cbn [map fold_left fst snd mbind result_bind]. rewrite set_header_with, normalize_lower; [apply IH| |done].
  by apply valid_name_lower.
Qed.

Lemma parse_printed c secure : client_ok c -> parse_request (print_request c) secure = Ok (received c secure).
Proof.
  intros Hc. pose proof (find_head c [] Hc) as Ef. rewrite !app_nil_r in Ef.
  rewrite (parse_request_eq _ _ _ _ Ef). unfold client_head.
  rewrite head_lines_join by (by apply client_lines_plain). cbn [fst snd].
  rewrite client_line_parses by done. cbn [mbind result_bind]. rewrite client_lines_run by done.
  cbn [mbind result_bind]. unfold finish_request. cbn [head_length head_headers host_seen traceparent_count].
  rewrite andb_false_r, Z.ltb_irrefl. cbn [mbind result_bind].
  assert (take (Z.to_nat (size (c_body c))) (c_body c) = c_body c) as ->
    by (apply firstn_all2; unfold size; lia).
  assert (make_request (c_method c) (c_target c) (c_body c) secure =
    with_headers ∅ (make_request (c_method c) (c_target c) (c_body c) secure)) as Emk
    by (unfold make_request; by destruct (parse_target (c_target c))).
  rewrite Emk. unfold lowered. rewrite set_headers_with by (by apply client_headers_ok). done.
Qed.

(** *** Framing printed requests *)

Lemma content_length_printed c : client_ok c -> request_content_length (client_head c) = Ok (size (c_body c)).
Proof.
  intros Hc. rewrite request_content_length_eq. unfold client_head.
  rewrite head_lines_join by (by apply client_lines_plain). cbn [snd].
  pose proof (client_lines_run c Hc) as E. apply header_lines_length in E.
  cbn [head_length start_head] in E. by rewrite E.
Qed.

(** The request is within the limits of the server. *)
Definition fits (options : RuntimeOptions) (c : ClientRequest) : Prop :=
  size (client_head c) + 4 <= max_header_bytes options /\ size (print_request c) <= max_request_bytes options.

Lemma print_request_size c : size (print_request c) = size (client_head c) + 4 + size (c_body c).
Proof. unfold print_request. rewrite !size_app. change (size blank_line) with 4. lia. Qed.

Lemma request_size_printed options c rest :
  client_ok c -> fits options c ->
  request_size options (print_request c ++ rest) = Ok (Some (size (print_request c))).
Proof.
  intros Hc [Hh Hr]. unfold request_size. rewrite find_head, content_length_printed by done.
  rewrite print_request_size in Hr. pose proof (size_nonneg (c_body c)). pose proof (size_nonneg rest).
  rewrite (proj2 (Z.ltb_ge _ _)) by lia. cbn [mbind result_bind].
  rewrite !(proj2 (Z.ltb_ge _ _)); [|rewrite ?size_app, ?print_request_size; lia..].
  cbn [orb]. by rewrite print_request_size.
Qed.

(** A proper prefix of a request is waited for. *)
Lemma request_size_prefix options c n :
  client_ok c -> fits options c -> (n < length (print_request c))%nat ->
  request_size options (take n (print_request c)) = Ok None.
Proof.
  intros Hc [Hh Hr] Hn. rewrite print_request_size in Hr. pose proof (size_nonneg (c_body c)).
  pose proof (find_head c [] Hc) as Ef. rewrite !app_nil_r in Ef.
  assert (length (print_request c) = length (client_head c) + 4 + length (c_body c))%nat as Hl
    by (unfold print_request; rewrite !length_app, length_blank_line; lia).
  unfold request_size. destruct (decide (n < length (client_head c) + 4)%nat) as [Hlt|Hge].
  - rewrite (find_take _ _ _ _ _ Ef) by (rewrite length_blank_line; lia).
    rewrite !(proj2 (Z.ltb_ge _ _)); [done|unfold size in *; rewrite length_take; lia..].
  - assert (exists k, n = (length (client_head c) + 4 + k)%nat /\ (k < length (c_body c))%nat) as (k & -> & Hk).
    { exists (n - (length (client_head c) + 4))%nat. lia. }
    destruct (find_cut _ _ _ k Ef) as [Et ->]; [lia|]. rewrite Et.
    rewrite content_length_printed by done. rewrite (proj2 (Z.ltb_ge _ _)) by lia. cbn [mbind result_bind].
    rewrite !(proj2 (Z.ltb_ge _ _)) by lia. cbn [orb].
    rewrite (proj2 (Z.ltb_lt _ _)); [done|]. rewrite !size_app. change (size blank_line) with 4.
    unfold size in *. rewrite length_take. lia.
Qed.

(** *** A connection that receives a stream of requests *)

(** All requests that are complete, and the input that is left. *)
Fixpoint drain (fuel : nat) (options : RuntimeOptions) (secure : bool) (ip input : bytes)
    : list (bytes * Request) * bytes :=
  match fuel with
  | O => ([], input)
  | S fuel =>
      match take_request options secure ip input with
      | (Ok (Some x), rest) => let '(l, rest) := drain fuel options secure ip rest in (x :: l, rest)
      | (_, rest) => ([], rest)
      end
  end.

(** The bytes arrive in chunks; after each, complete requests are taken. *)
Fixpoint receive (options : RuntimeOptions) (secure : bool) (ip : bytes) (chunks : list bytes) (input : bytes)
    : list (bytes * Request) * bytes :=
  match chunks with
  | [] => ([], input)
  | chunk :: rest =>
      let input := input ++ chunk in
      let '(l, input) := drain (S (length input)) options secure ip input in
      let '(l', input) := receive options secure ip rest input in
      (l ++ l', input)
  end.

Section Stream.
Context (options : RuntimeOptions) (secure : bool) (ip : bytes).

Definition good (c : ClientRequest) : Prop := client_ok c /\ fits options c.

Definition taken (c : ClientRequest) : bytes * Request := (print_request c, set_client_ip ip (received c secure)).

Definition stream_text (cs : list ClientRequest) : bytes := concat (map print_request cs).

Lemma take_printed c rest : good c ->
  take_request options secure ip (print_request c ++ rest) = (Ok (Some (taken c)), rest).
Proof.
  intros [Hc Hf]. unfold take_request. rewrite request_size_printed by done.
  unfold size. rewrite Nat2Z.id, take_app_length, drop_app_length, parse_printed by done. done.
Qed.

Lemma take_prefix c n : good c -> (n < length (print_request c))%nat ->
  take_request options secure ip (take n (print_request c)) = (Ok None, take n (print_request c)).
Proof. intros [Hc Hf] Hn. unfold take_request. by rewrite request_size_prefix. Qed.

Lemma print_request_nonempty c : (0 < length (print_request c))%nat.
Proof. unfold print_request. rewrite !length_app, length_blank_line. lia. Qed.

Lemma take_nothing : 0 <= max_header_bytes options -> 0 <= max_request_bytes options ->
  take_request options secure ip [] = (Ok None, []).
Proof.
  intros H1 H2. unfold take_request, request_size. change (find blank_line []) with (@None (bytes * bytes)).
  change (size []) with 0. by rewrite !(proj2 (Z.ltb_ge _ _)) by done.
Qed.

(** Whatever part of the stream has arrived, the complete requests are taken and the
    beginning of the next one is kept. *)
Lemma drain_stream cs fuel input more :
  0 <= max_header_bytes options -> 0 <= max_request_bytes options ->
  Forall good cs -> input ++ more = stream_text cs -> (length input < fuel)%nat ->
  exists cs1 cs2 rest, cs = cs1 ++ cs2 /\ drain fuel options secure ip input = (map taken cs1, rest) /\
    rest ++ more = stream_text cs2 /\
    (rest = [] \/ exists c cs', cs2 = c :: cs' /\ (length rest < length (print_request c))%nat).
Proof.
  intros Hm1 Hm2 Hcs. revert fuel input. induction Hcs as [|c cs Hc Hcs IH]; intros fuel input E Hf.
  - apply app_nil in E as [-> ->]. destruct fuel as [|fuel]; [cbn in Hf; lia|]. exists [], [], []. cbn [drain].
    rewrite take_nothing by done. auto.
  - change (stream_text (c :: cs)) with (print_request c ++ stream_text cs) in E.
    destruct fuel as [|fuel]; [lia|]. cbn [drain].
    destruct (decide (length (print_request c) <= length input)%nat) as [Hle|Hgt].
    + assert (exists input', input = print_request c ++ input') as [input' ->].
      { exists (drop (length (print_request c)) input). rewrite <-(take_drop (length (print_request c)) input) at 1.
        f_equal. apply (f_equal (take (length (print_request c)))) in E.
        rewrite take_app_le, take_app_length in E by done. done. }
      rewrite take_printed by done. rewrite <-app_assoc in E. apply app_inv_head in E.
      pose proof (print_request_nonempty c). rewrite length_app in Hf.
      destruct (IH fuel input' E) as (cs1 & cs2 & rest & -> & Ed & Er & Hrest); [lia|].
      rewrite Ed. exists (c :: cs1), cs2, rest. auto.
    + assert (input = take (length input) (print_request c)) as Ei.
      { apply (f_equal (take (length input))) in E. rewrite take_app_length, take_app_le in E by lia. done. }
      assert (take_request options secure ip input = (Ok None, input)) as ->
        by (rewrite Ei; apply take_prefix; [done|lia]).
      exists [], (c :: cs), input. split; [done|]. split; [done|]. split; [done|]. right. exists c, cs. split; [done|lia].
Qed.

Lemma receive_stream chunks cs input :
  0 <= max_header_bytes options -> 0 <= max_request_bytes options ->
  Forall good cs -> input ++ concat chunks = stream_text cs ->
  (input = [] \/ exists c cs', cs = c :: cs' /\ (length input < length (print_request c))%nat) ->
  receive options secure ip chunks input = (map taken cs, []).
Proof.
  intros Hm1 Hm2. revert cs input. induction chunks as [|chunk chunks IH]; intros cs input Hcs E Hin; cbn [receive].
  - cbn in E. rewrite app_nil_r in E. destruct cs as [|c cs].
    + cbn in E. subst. done.
    + exfalso. change (stream_text (c :: cs)) with (print_request c ++ stream_text cs) in E.
      pose proof (print_request_nonempty c). apply (f_equal length) in E. rewrite length_app in E.
      destruct Hin as [->|(c' & cs' & [= -> ->] & Hl)]; cbn in *; lia.
  - cbn [concat] in E. rewrite app_assoc in E.
    destruct (drain_stream cs (S (length (input ++ chunk))) (input ++ chunk) (concat chunks))
      as (cs1 & cs2 & rest & -> & -> & Er & Hrest); [done..|lia|].
    apply Forall_app in Hcs as [_ Hcs2]. rewrite (IH cs2 rest Hcs2 Er Hrest). by rewrite map_app.
Qed.
End Stream.

(** ** Theorems *)

(** C7. The two readers of a request head agree.  When [request_size] cuts a message off
    the input, [parse_request] either accepts it with a body that ends exactly where
    the message ends, so that no byte of one request is taken for the next, or
    rejects it with [std::invalid_argument], but never as incomplete. *)
Theorem framing_agrees options buffer n secure :
  request_size options buffer = Ok (Some n) ->
  match parse_request (take (Z.to_nat n) buffer) secure with
  | Ok r => exists head_text after, find blank_line buffer = Some (head_text, after) /\
      take (Z.to_nat n) buffer = head_text ++ blank_line ++ body_ r
  | Throw e => exists what, e = invalid_argument what /\
      what <> "Incomplete HTTP request headers"%string /\ what <> "Incomplete HTTP request body"%string
  | NoFuel => False
  end.
Proof.
  intros E. destruct (framing_lemma options buffer n secure E) as [Hr Hb].
  destruct (parse_request _ secure) as [r|e|]; [by apply Hb| |done].
  cbn in Hr. unfold head_error in Hr. destruct e; try done. reflect_bools. eauto.
Qed.

Definition sample_options : RuntimeOptions := mkOptions 1000 2000 true 10.
Definition sample_request : ClientRequest :=
  mkClient post (lit "/a?x=1") (lit "h") [(lit "X-A", lit "1")] (lit "body").

Lemma sample_ok : client_ok sample_request.
Proof.
  split.
  - eexists. reflexivity.
  - split; by_decide.
  - split; [split; reflexivity|discriminate].
  - apply Forall_cons_2; [|apply Forall_nil_2]. split; [split; [|split]; reflexivity|by_decide].
  - reflexivity.
Qed.

Lemma framing_agrees_witness :
  exists n r, request_size sample_options (print_request sample_request ++ lit "GET") = Ok (Some n) /\
    parse_request (take (Z.to_nat n) (print_request sample_request ++ lit "GET")) false = Ok r /\
    exists head_text after,
      find blank_line (print_request sample_request ++ lit "GET") = Some (head_text, after) /\
      take (Z.to_nat n) (print_request sample_request ++ lit "GET") = head_text ++ blank_line ++ body_ r.
Proof.
  destruct (request_size sample_options (print_request sample_request ++ lit "GET")) as [[n|]|e|] eqn:E;
    [|vm_compute in E; discriminate E..].
  pose proof (framing_agrees sample_options _ n false E) as H.
  assert (is_ok (parse_request (take (Z.to_nat n) (print_request sample_request ++ lit "GET")) false) = true) as Hok
    by (vm_compute in E; injection E as <-; vm_compute; reflexivity).
  destruct (parse_request (take (Z.to_nat n) (print_request sample_request ++ lit "GET")) false) as [r|e|] eqn:Er.
  - exists n, r. split; [reflexivity|]. split; [exact Er|exact H].
  - discriminate Hok.
  - exfalso. exact H.
Defined.

(** C33. A connection reads the requests that were sent.  However the bytes of a sequence
    of well-formed requests within the limits are cut on their way, the server takes
    exactly these requests off its input, in order, each with its method, target,
    headers and body, and nothing is left over. *)
Theorem requests_received options secure ip chunks cs :
  0 <= max_header_bytes options -> 0 <= max_request_bytes options ->
  Forall (good options) cs -> concat chunks = stream_text cs ->
  receive options secure ip chunks [] = (map (taken secure ip) cs, []).
Proof. intros. by apply receive_stream; [..|left]. Qed.

Lemma requests_received_witness :
  receive sample_options true (lit "::1")
    [lit "POST /a?x=1 HTTP/1.1"; crlf ++ lit "host: h"; crlf ++ lit "X-A: 1" ++ crlf ++ lit "content-length: 4";
     crlf ++ crlf ++ lit "bod"; lit "y"] [] =
  ([taken true (lit "::1") sample_request], []).
Proof.
  apply (requests_received sample_options true (lit "::1") _ [sample_request]).
  - discriminate.
  - discriminate.
  - apply Forall_cons_2; [|apply Forall_nil_2]. split; [exact sample_ok|]. split; vm_compute; discriminate.
  - vm_compute. reflexivity.
Defined.
