(* ===== verification/ResponseFacts.v ===== *)
(** * Responses cannot be split, chunks decode, cookies come back *)

From S2P Require Import Prelude Numeral Text Http Media Uploads Request Response Wire WireFacts.

#[local] Arguments lit : simpl never.
#[local] Arguments size : simpl never.
#[local] Arguments find : simpl never.
#[local] Arguments crlf : simpl never.
#[local] Arguments blank_line : simpl never.

(** ** Text without line breaks *)

Definition clean_char (c : byte) : bool := negb (c =b? CR) && negb (c =b? x0a).
Definition clean (s : bytes) : bool := forallb clean_char s.

Lemma clean_app a b : clean (a ++ b) = clean a && clean b.
Proof. apply forallb_app. Qed.

Lemma clean_CR s : clean s = true -> CR ∉ s.
Proof.
  intros H Hin%list_elem_of_In. eapply (proj1 (forallb_forall _ _)) in H; [|done]. by vm_compute in H.
Qed.

Lemma forallb_impl (p q : byte -> bool) s :
  (forall c, implb (p c) (q c) = true) -> forallb p s = true -> forallb q s = true.
Proof.
  intros Hpq H. apply forallb_forall. intros c Hc. eapply (proj1 (forallb_forall _ _)) in H; [|done].
  specialize (Hpq c). by rewrite H in Hpq.
Qed.

Lemma clean_name name : valid_header_name name = true -> clean name = true.
Proof. destruct name; [done|]. apply forallb_impl. intros. by_bytes. Qed.

Lemma clean_value value : valid_header_value value = true -> clean value = true.
Proof. apply forallb_impl. intros. by_bytes. Qed.

Lemma clean_digits s : Forall (fun b => is_digit b = true) s -> clean s = true.
Proof.
  intros H. apply (forallb_impl is_digit); [intros; by_bytes|]. apply forallb_forall.
  intros c Hc%list_elem_of_In. by eapply Forall_forall in H.
Qed.

Lemma clean_to_string n : clean (to_string n) = true.
Proof.
  unfold to_string. destruct (n <? 0) eqn:E; reflect_bools.
  - change ("-"%byte :: to_string_u (- n)) with (["-"%byte] ++ to_string_u (- n)). rewrite clean_app.
    apply clean_digits, to_string_u_digits. lia.
  - by apply clean_digits, to_string_u_digits.
Qed.

Lemma clean_reason status : clean (reason_phrase status) = true.
Proof.
  unfold reason_phrase. destruct (list_find _ reasons) as [[i [z reason]]|] eqn:E; [|done].
  apply list_find_Some in E as (Hl & _ & _).
  assert (Forall (fun p => clean (lit p.2) = true) reasons) as Hr by by_decide.
  by eapply Forall_lookup in Hl; [|exact Hr].
Qed.

(** ** Cookies have no line breaks *)

Lemma clean_cookie_value value : valid_cookie_value value = true -> clean value = true.
Proof.
  unfold valid_cookie_value. intros H.
  assert (forall s, forallb cookie_value_char s = true -> clean s = true) as Hc
    by (intros s; apply forallb_impl; intros; by_bytes).
  destruct value as [|q rest]; [done|]. destruct (last rest) as [e|] eqn:El; [|by apply Hc].
  destruct (_ && _) eqn:Eq; [|by apply Hc]. reflect_bools. apply last_Some in El as [l ->].
  rewrite removelast_last in H. change (x22 :: l ++ [x22]) with ([x22] ++ l ++ [x22]).
  by rewrite !clean_app, (Hc l H).
Qed.

Lemma clean_fields stop l : clean_char stop = true ->
  forallb clean (fields stop l) = true -> clean l = true.
Proof.
  intros Hs. induction l as [|c l IH]; [done|]. cbn [fields]. unfold clean in *. cbn [forallb].
  destruct (c =b? stop) eqn:E; reflect_bools.
  - cbn. rewrite Hs. apply IH.
  - destruct (fields stop l) as [|piece rest] eqn:Ef;
      [rewrite fields_until in Ef; by destruct (until stop l) as [? [?|]]|].
    cbn. intros H. apply andb_prop in H as [H1 H2]. apply andb_prop in H1 as [-> H1].
    apply IH. cbn. by rewrite H1.
Qed.

Lemma clean_domain value : valid_domain value = true -> clean value = true.
Proof.
  unfold valid_domain. intros H.
  assert (forall v, forallb label_ok (fields "." v) = true -> clean v = true) as Hl.
  { intros v Hv. apply (clean_fields "."); [done|]. apply forallb_forall. intros l Hl.
    eapply (proj1 (forallb_forall _ _)) in Hv; [|done]. unfold label_ok in Hv.
    destruct l as [|c l]; [done|]. destruct (last _); [|done]. apply andb_prop in Hv as [_ Hv].
    revert Hv. apply forallb_impl. intros. by_bytes. }
  destruct value as [|c rest]; [done|]. destruct (c =b? ".") eqn:E; reflect_bools.
  - destruct rest as [|d rest]; [done|]. apply andb_prop in H as [_ H]. apply Hl in H. unfold clean in *.
    cbn [forallb]. cbn [forallb] in H. by rewrite H.
  - by apply Hl.
Qed.

Lemma serialize_cookie_clean cookie text : serialize_cookie cookie = Ok text -> clean text = true.
Proof.
  unfold serialize_cookie. destruct (invalid_cookie cookie) eqn:E; [done|]. intros <-%Ok_inj.
  unfold invalid_cookie in E. reflect_bools.
  rewrite !clean_app, (clean_cookie_value (cookie_value cookie)) by done.
  assert (clean (cookie_name cookie) = true) as ->.
  { by apply (forallb_impl token_char); [intros; by_bytes|]. }
  assert (clean (match cookie_path cookie with [] => [] | path => lit "; Path=" ++ path end) = true) as ->.
  { destruct (cookie_path cookie) as [|c path] eqn:Ep; [done|]. rewrite clean_app.
    apply (forallb_impl attribute_char); [intros; by_bytes|done]. }
  assert (clean (match cookie_domain cookie with Some d => lit "; Domain=" ++ d | None => [] end) = true) as ->.
  { destruct (cookie_domain cookie) as [d|]; [|done]. reflect_bools. rewrite clean_app. by apply clean_domain. }
  assert (clean (match max_age cookie with Some z => lit "; Max-Age=" ++ to_string z | None => [] end) = true) as ->.
  { destruct (max_age cookie); [|done]. rewrite clean_app. apply clean_to_string. }
  by destruct (cookie_secure cookie), (http_only cookie), (same_site cookie).
Qed.

(** ** Printed responses *)

Definition header_line (line : bytes) : Prop := line <> [] /\ clean line = true.

Definition unlines (lines : list bytes) : bytes := concat (map (fun l => l ++ crlf) lines).

Lemma unlines_app a b : unlines (a ++ b) = unlines a ++ unlines b.
Proof. unfold unlines. by rewrite map_app, concat_app. Qed.

Lemma unlines_join line lines : unlines (line :: lines) = join_lines (line :: lines) ++ crlf.
Proof.
  revert line. induction lines as [|l lines IH]; intros line.
  - unfold unlines. cbn. by rewrite app_nil_r.
  - change (unlines (line :: l :: lines)) with ((line ++ crlf) ++ unlines (l :: lines)). rewrite IH.
    change (join_lines (line :: l :: lines)) with (line ++ crlf ++ join_lines (l :: lines)).
    by rewrite <-!app_assoc.
Qed.

(** The unreserved headers, each printed on its line. *)
Definition printed_headers (order : list (bytes * bytes)) : list bytes :=
  map print_header (base.filter (fun h => reserved h.1 = false) order).

Lemma header_lines_spec order text :
  header_lines order = Ok text ->
  text = unlines (printed_headers order) /\ Forall header_line (printed_headers order).
Proof.
  unfold header_lines, printed_headers.
  assert (forall acc, fold_left (fun output '(name, value) => output ← output;
      if reserved name then Ok output
      else validate_header name value ≫= fun _ => Ok (output ++ name ++ lit ": " ++ value ++ crlf))
      order acc = Ok text ->
    exists start, acc = Ok start /\ text = start ++ unlines (map print_header (base.filter (fun h => reserved h.1 = false) order)) /\
      Forall header_line (map print_header (base.filter (fun h => reserved h.1 = false) order))) as H.
  { induction order as [|[n v] order IH]; intros acc; cbn [fold_left].
    - intros ->. exists text. split; [done|]. split; [by rewrite app_nil_r|apply Forall_nil_2].
    - intros (start & Es & Et & Hf)%IH. destruct acc as [output|e|]; [|done..]. cbn [mbind result_bind] in Es.
      rewrite filter_cons. cbn [fst]. destruct (reserved n) eqn:Er.
      + rewrite decide_False by done. injection Es as <-. by exists output.
      + rewrite decide_True by done. unfold validate_header in Es.
        destruct (_ || _) eqn:Ev; [done|]. reflect_bools. apply Ok_inj in Es as <-. exists output. split; [done|].
        cbn [map]. split.
        * rewrite Et. change (unlines (?a :: ?l)) with ((a ++ crlf) ++ unlines l). unfold print_header. cbn [fst snd].
          by rewrite <-!app_assoc.
        * apply Forall_cons. split; [|done]. unfold print_header. cbn [fst snd]. split; [by destruct n|].
          rewrite !clean_app, (clean_name n), (clean_value v) by done. done. }
  intros (start & [= <-] & -> & Hf)%H. done.
Qed.

Lemma cookie_lines_spec cookies text :
  cookie_lines cookies = Ok text ->
  exists values, length values = length cookies /\
    text = unlines (map (fun v => lit "set-cookie: " ++ v) values) /\
    Forall (fun v => clean v = true) values.
Proof.
  unfold cookie_lines.
  assert (forall acc, fold_left (fun output cookie => output ← output; text ← serialize_cookie cookie;
      Ok (output ++ lit "set-cookie: " ++ text ++ crlf)) cookies acc = Ok text ->
    exists start values, acc = Ok start /\ length values = length cookies /\
      text = start ++ unlines (map (fun v => lit "set-cookie: " ++ v) values) /\
      Forall (fun v => clean v = true) values) as H.
  { induction cookies as [|c cookies IH]; intros acc; cbn [fold_left].
    - intros ->. exists text, []. split; [done|]. split; [done|]. split; [by rewrite app_nil_r|apply Forall_nil_2].
    - intros (start & values & Es & Hl & Et & Hf)%IH. destruct acc as [output|e|]; [|done..]. cbn [mbind result_bind] in Es.
      destruct (serialize_cookie c) as [t|e|] eqn:Ec; [|done..]. cbn [mbind result_bind] in Es. apply Ok_inj in Es as <-.
      exists output, (t :: values). split; [done|]. split; [cbn; by rewrite Hl|]. split.
      + rewrite Et. cbn [map]. change (unlines (?a :: ?l)) with ((a ++ crlf) ++ unlines l).
        by rewrite <-!app_assoc.
      + apply Forall_cons. split; [by eapply serialize_cookie_clean|done]. }
  intros (start & values & [= <-] & Hl & -> & Hf)%H. by exists values.
Qed.

Lemma header_line_plain line : header_line line -> plain_line line.
Proof. intros [? ?%clean_CR]. by split. Qed.

(** The lines of a response: status, headers, cookies, length and connection. *)
Definition response_lines (order : list (bytes * bytes)) (values : list bytes) (r : Response)
    (connection : ConnectionDirective) : list bytes :=
  (lit "HTTP/1.1 " ++ to_string (response_status r) ++ lit " " ++ reason_phrase (response_status r)) ::
  printed_headers order ++ map (fun v => lit "set-cookie: " ++ v) values ++
  [lit "content-length: " ++ to_string (size (response_body r)); lit "connection: " ++ directive_text connection].

Lemma serialize_response_lines order r omit connection out :
  serialize_response order r omit connection = Ok out ->
  exists values, length values = length (response_cookies r) /\
    Forall header_line (response_lines order values r connection) /\
    out = unlines (response_lines order values r connection) ++ crlf ++ (if omit then [] else response_body r).
Proof.
  unfold serialize_response. destruct (header_lines order) as [hs|e|] eqn:Eh; [|done..]. cbn [mbind result_bind].
  destruct (cookie_lines _) as [cs|e|] eqn:Ec; [|done..]. cbn [mbind result_bind]. intros <-%Ok_inj.
  apply header_lines_spec in Eh as [-> Hh]. apply cookie_lines_spec in Ec as (values & Hl & -> & Hv).
  exists values. split; [done|]. split.
  - unfold response_lines. apply Forall_cons. split.
    { split; [done|]. rewrite !clean_app, clean_to_string, clean_reason. done. }
    apply Forall_app. split; [done|]. apply Forall_app. split.
    { apply Forall_map. eapply Forall_impl; [exact Hv|]. intros v E. split; [done|]. by rewrite clean_app, E. }
    apply Forall_cons. split; [split; [done|]; rewrite clean_app, clean_to_string; done|].
    apply Forall_singleton. split; [done|]. by destruct connection.
  - unfold response_lines, status_line.
    change (unlines (?a :: ?l)) with ((a ++ crlf) ++ unlines l). rewrite !unlines_app.
    change (unlines [?a; ?b]) with ((a ++ crlf) ++ (b ++ crlf) ++ []). by rewrite <-!app_assoc.
Qed.

(** ** Chunks *)

(** A decoder of the chunked transfer coding, as RFC 9112 describes it: size in
    hexadecimal, data, until a chunk of size zero. *)
Fixpoint hex_number (acc : Z) (s : bytes) : option Z :=
  match s with
  | [] => Some acc
  | c :: s' => if 0 <=? hex_value c then hex_number (acc * 16 + hex_value c) s' else None
  end.

Fixpoint unchunk (fuel : nat) (s : bytes) : option (bytes * bytes) :=
  match fuel with
  | O => None
  | S fuel =>
      match find crlf s with
      | None => None
      | Some (digits, rest) =>
          match digits, hex_number 0 digits with
          | [], _ | _, None => None
          | _, Some n =>
              if n =? 0 then (fun r => ([], r)) <$> strip crlf rest
              else if size rest <? n then None
              else
                match strip crlf (drop (Z.to_nat n) rest) with
                | None => None
                | Some r =>
                    match unchunk fuel r with
                    | Some (data, after) => Some (take (Z.to_nat n) rest ++ data, after)
                    | None => None
                    end
                end
          end
      end
  end.

Lemma hex_value_digit d : 0 <= d < 16 -> hex_value (hex_digit d) = d.
Proof.
  intros Hd. assert (forallb (fun k => hex_value (hex_digit (Z.of_nat k)) =? Z.of_nat k) (seq 0 16) = true) as H
    by (vm_compute; reflexivity).
  rewrite forallb_forall in H. specialize (H (Z.to_nat d)). rewrite Z2Nat.id in H by lia.
  apply Z.eqb_eq, H, in_seq. lia.
Qed.

Lemma hex_number_app acc a b : hex_number acc (a ++ b) = hex_number acc a ≫= fun n => hex_number n b.
Proof.
  revert acc. induction a as [|c a IH]; intros acc; [done|]. cbn. destruct (0 <=? hex_value c); [apply IH|done].
Qed.

Lemma hex_digits_value fuel n : 0 <= n < 16 ^ Z.of_nat fuel -> hex_number 0 (hex_digits fuel n) = Some n.
Proof.
  revert n. induction fuel as [|fuel IH]; intros n Hn; [cbn in *; by replace n with 0 by lia|].
  cbn [hex_digits]. assert (0 <= n mod 16 < 16) as Hm by (apply Z.mod_pos_bound; lia).
  rewrite hex_number_app.
  assert (hex_number 0 (if n <? 16 then [] else hex_digits fuel (n / 16)) = Some (n / 16)) as ->.
  { destruct (Z.ltb_spec n 16); [cbn; f_equal; div_lia|]. apply IH.
    rewrite Nat2Z.inj_succ, Z.pow_succ_r in Hn by lia. div_lia. }
  cbn [mbind option_bind hex_number]. rewrite hex_value_digit by done. rewrite (proj2 (Z.leb_le _ _)) by lia.
  f_equal. div_lia.
Qed.

Lemma to_hex_value n : 0 < n -> hex_number 0 (to_hex n) = Some n.
Proof.
  intros Hn. apply hex_digits_value. split; [lia|]. rewrite Nat2Z.inj_succ, Z2Nat.id by apply Z.log2_nonneg.
  pose proof (Z.log2_spec n Hn) as [_ Hlt]. eapply Z.lt_le_trans; [done|].
  apply Z.pow_le_mono_l. pose proof (Z.log2_nonneg n). lia.
Qed.

Lemma hex_digits_clean fuel n : clean (hex_digits fuel n) = true.
Proof.
  revert n. induction fuel as [|fuel IH]; intros n; [done|]. cbn [hex_digits]. rewrite clean_app.
  assert (clean [hex_digit (n mod 16)] = true) as ->.
  { assert (forallb (fun k => clean [hex_digit (Z.of_nat k)]) (seq 0 16) = true) as H by (vm_compute; reflexivity).
    rewrite forallb_forall in H. pose proof (Z.mod_pos_bound n 16 ltac:(lia)).
    specialize (H (Z.to_nat (n mod 16))). rewrite Z2Nat.id in H by lia. apply H, in_seq. lia. }
  destruct (n <? 16); [done|]. by rewrite IH.
Qed.

Lemma to_hex_nonempty n : to_hex n <> [].
Proof. unfold to_hex. cbn [hex_digits]. by destruct (if n <? 16 then [] else _). Qed.

Lemma unchunk_step fuel chunk rest :
  chunk <> [] ->
  unchunk (S fuel) (serialize_chunk chunk ++ rest) =
  match unchunk fuel rest with Some (data, after) => Some (chunk ++ data, after) | None => None end.
Proof.
  intros Hne. assert (0 < size chunk) as Hs by (destruct chunk; [done|unfold size; cbn; lia]).
  assert (serialize_chunk chunk ++ rest = to_hex (size chunk) ++ crlf ++ chunk ++ crlf ++ rest) as ->
    by (destruct chunk; [done|]; unfold serialize_chunk; by rewrite <-!app_assoc).
  cbn [unchunk]. change crlf with (CR :: [x0a]) at 1 2.
  rewrite (find_at CR) by apply clean_CR, hex_digits_clean. cbn beta iota.
  pose proof (to_hex_nonempty (size chunk)). pose proof (to_hex_value _ Hs) as Ev.
  destruct (to_hex (size chunk)) as [|c t]; [done|]. rewrite Ev.
  rewrite (proj2 (Z.eqb_neq _ _)) by lia.
  rewrite (proj2 (Z.ltb_ge _ _)) by (rewrite size_app; pose proof (size_nonneg (crlf ++ rest)); lia).
  rewrite take_size. unfold size. rewrite Nat2Z.id, drop_app_length, strip_app. done.
Qed.

Lemma unchunk_chunks chunks fuel rest :
  (length chunks < fuel)%nat ->
  unchunk fuel (concat (map serialize_chunk chunks) ++ serialize_chunk_end ++ rest) = Some (concat chunks, rest).
Proof.
  revert fuel. induction chunks as [|chunk chunks IH]; intros fuel Hf; (destruct fuel as [|fuel]; [lia|]).
  - done.
  - cbn [map concat]. rewrite <-app_assoc. destruct chunk as [|c chunk].
    + apply IH. cbn in Hf. lia.
    + rewrite unchunk_step by done. rewrite IH by (cbn in Hf; lia). done.
Qed.

(** ** Cookies *)

Definition cookie_piece (c : Cookie) : bytes := cookie_name c ++ lit "=" ++ cookie_value c.

(** The header a client sends for the cookies it was given. *)
Fixpoint cookie_header (cs : list Cookie) : bytes :=
  match cs with
  | [] => []
  | [c] => cookie_piece c
  | c :: rest => cookie_piece c ++ lit "; " ++ cookie_header rest
  end.

(** Characters of names and values of valid cookies. *)
Definition visible (c : byte) : bool := (0x21 <=? uc c) && (uc c <=? 0x7e) && negb (c =b? ";").

Lemma valid_cookie_visible c text :
  serialize_cookie c = Ok text ->
  cookie_name c <> [] /\ forallb visible (cookie_name c) = true /\ ("="%byte ∉ cookie_name c) /\
  forallb visible (cookie_value c) = true.
Proof.
  unfold serialize_cookie. destruct (invalid_cookie c) eqn:E; [done|]. intros _. unfold invalid_cookie in E.
  reflect_bools. split; [done|]. split; [|split].
  - by apply (forallb_impl token_char); [intros; by_bytes|].
  - assert (forallb token_char (cookie_name c) = true) as Ht by done. intros Hin%list_elem_of_In.
    eapply (proj1 (forallb_forall _ _)) in Ht; [|done]. by vm_compute in Ht.
  - unfold valid_cookie_value in *.
    assert (forall s, forallb cookie_value_char s = true -> forallb visible s = true) as Hc
      by (intros s; apply forallb_impl; intros; by_bytes).
    destruct (cookie_value c) as [|q rest]; [done|]. destruct (last rest) as [e|] eqn:El; [|by apply Hc].
    destruct (_ && _) eqn:Eq; [|by apply Hc]. reflect_bools. apply last_Some in El as [l ->].
    rewrite removelast_last in *. cbn [forallb]. rewrite forallb_app, Hc by done. done.
Qed.

Lemma visible_avoids s c : forallb visible s = true -> visible c = false -> c ∉ s.
Proof. intros H Hc Hin%list_elem_of_In. eapply (proj1 (forallb_forall _ _)) in H; [|done]. congruence. Qed.

Lemma visible_trim s : forallb visible s = true -> trim s = s.
Proof.
  intros H. unfold trim. assert (forall s, forallb visible s = true -> trim_front s = s) as Hid.
  { intros t Ht. apply trim_front_id. intros c t' ->. cbn in Ht. apply andb_prop in Ht as [Hc _].
    assert (implb (visible c) (negb (blank c)) = true) as Hb by (clear; by_bytes).
    rewrite Hc in Hb. by apply negb_true_iff in Hb. }
  rewrite (Hid s) by done. rewrite Hid; [apply rev_involutive|]. apply forallb_forall.
  intros c Hc%in_rev. by eapply (proj1 (forallb_forall _ _)) in H.
Qed.

(** A value that the decoder leaves alone. *)
Definition undecoded (value : bytes) : Prop := ("+"%byte ∉ value) /\ ("%"%byte ∉ value).

Lemma decode_undecoded value : undecoded value -> decode_component value = value.
Proof.
  intros [Hp Hq]. induction value as [|c value IH]; [done|].
  apply not_elem_of_cons in Hp as [Hcp Hp]. apply not_elem_of_cons in Hq as [Hcq Hq]. cbn.
  destruct (c =b? "+") eqn:E1; [by reflect_bools|]. destruct (c =b? "%") eqn:E2; [by reflect_bools|].
  rewrite (IH Hp Hq). by destruct value as [|h [|l value]].
Qed.

(** A cookie that was set and can be read back. *)
Definition readable (c : Cookie) : Prop :=
  (exists text, serialize_cookie c = Ok text) /\ undecoded (cookie_value c).

Lemma piece_visible c : readable c -> forallb visible (cookie_piece c) = true.
Proof.
  intros [[text E] _]. apply valid_cookie_visible in E as (_ & Hn & _ & Hv). unfold cookie_piece.
  by rewrite !forallb_app, Hn, Hv.
Qed.

Lemma add_cookie_piece m c blanks :
  readable c -> blanks = [] \/ blanks = lit " " ->
  add_cookie m (blanks ++ cookie_piece c) = <[cookie_name c := cookie_value c]> m.
Proof.
  intros Hr Hb. pose proof (piece_visible c Hr) as Hp. destruct Hr as [[text E] Hu].
  apply valid_cookie_visible in E as (_ & Hn & He & Hv). unfold add_cookie.
  assert (trim (blanks ++ cookie_piece c) = cookie_piece c) as ->.
  { destruct Hb as [->| ->]; [|rewrite trim_blank]; by apply visible_trim. }
  unfold cookie_piece. change (lit "=" ++ cookie_value c) with ("="%byte :: cookie_value c).
  by rewrite until_app, !visible_trim, decode_undecoded.
Qed.

Lemma piece_semicolon c blanks :
  readable c -> blanks = [] \/ blanks = lit " " -> ";"%byte ∉ (blanks ++ cookie_piece c).
Proof.
  intros Hr%piece_visible Hb [Hin|Hin]%elem_of_app.
  - destruct Hb as [->| ->]; revert Hin; by_decide.
  - revert Hin. by apply visible_avoids.
Qed.

Definition add_values (cs : list Cookie) (m : Input) : Input :=
  fold_left (fun m c => <[cookie_name c := cookie_value c]> m) cs m.

Lemma parse_cookie_header cs m blanks :
  cs <> [] -> Forall readable cs -> blanks = [] \/ blanks = lit " " ->
  fold_left add_cookie (fields ";" (blanks ++ cookie_header cs)) m = add_values cs m.
Proof.
  intros Hne Hr. revert m blanks. induction cs as [|c cs IH]; intros m blanks Hb; [done|].
  apply Forall_cons in Hr as [Hc Hr]. rewrite fields_until. destruct cs as [|c' cs].
  - cbn [cookie_header]. rewrite until_none by (by apply piece_semicolon). cbn. by rewrite add_cookie_piece.
  - change (cookie_header (c :: c' :: cs)) with (cookie_piece c ++ lit "; " ++ cookie_header (c' :: cs)).
    rewrite app_assoc. change (lit "; " ++ ?x) with (";"%byte :: lit " " ++ x).
    rewrite until_app by (by apply piece_semicolon). cbn [fold_left]. rewrite add_cookie_piece by done.
    rewrite IH; [done|done|done|by right].
Qed.

Lemma add_values_lookup cs m c :
  NoDup (map cookie_name cs) -> c ∈ cs -> add_values cs m !! cookie_name c = Some (cookie_value c).
Proof.
  revert m. induction cs as [|d cs IH]; intros m Hnd Hin; [by apply elem_of_nil in Hin|].
  cbn in Hnd. apply NoDup_cons in Hnd as [Hd Hnd]. cbn.
  apply elem_of_cons in Hin as [->|Hin]; [|by apply IH].
  assert (forall cs m, cookie_name d ∉ map cookie_name cs -> add_values cs m !! cookie_name d = m !! cookie_name d) as H.
  { clear. induction cs as [|e cs IH]; intros m Hd; [done|]. cbn in Hd |- *.
    apply not_elem_of_cons in Hd as [Hne Hd]. unfold add_values in IH. rewrite IH by done.
    by rewrite lookup_insert_ne. }
  rewrite H by done. by rewrite lookup_insert_eq.
Qed.

(** ** Theorems *)

(** C14. A response cannot be split.  Whatever headers, cookies and body the application
    gives it, in every order of the header map, a printed response has exactly one
    head: a reader that cuts at the first blank line and at line breaks sees the
    status, one line per unreserved header and per cookie, exactly one content length,
    which is that of the body, and the connection line; and then exactly the body. *)
Theorem response_not_split order r omit connection out :
  serialize_response order r omit connection = Ok out ->
  exists values head_text, length values = length (response_cookies r) /\
    find blank_line out = Some (head_text, if omit then [] else response_body r) /\
    head_lines head_text =
      (lit "HTTP/1.1 " ++ to_string (response_status r) ++ lit " " ++ reason_phrase (response_status r),
       printed_headers order ++ map (fun v => lit "set-cookie: " ++ v) values ++
       [lit "content-length: " ++ to_string (size (response_body r));
        lit "connection: " ++ directive_text connection]).
Proof.
  intros (values & Hl & Hlines & ->)%serialize_response_lines.
  assert (Forall plain_line (response_lines order values r connection)) as Hp
    by (eapply Forall_impl; [exact Hlines|apply header_line_plain]).
  exists values, (join_lines (response_lines order values r connection)). split; [done|].
  unfold response_lines in *. split; [|by apply head_lines_join].
  rewrite unlines_join, <-app_assoc, (app_assoc crlf). apply find_blank_lines; [done|exact Hp].
Qed.

Definition sample_cookie : Cookie := mkCookie (lit "id") (lit "a1") (lit "/") None (Some 60) true true lax.
Definition sample_response : Response :=
  mkResponse 200 (lit "hi") false false [] {[lit "x-a" := lit "1"]} [sample_cookie].

Lemma response_not_split_witness :
  exists out values head_text,
    serialize_response [(lit "x-a", lit "1")] sample_response false close = Ok out /\
    length (values : list bytes) = 1%nat /\ find blank_line out = Some (head_text, lit "hi").
Proof.
  destruct (serialize_response [(lit "x-a", lit "1")] sample_response false close) as [out|e|] eqn:E;
    [|vm_compute in E; discriminate E..].
  destruct (response_not_split [(lit "x-a", lit "1")] sample_response false close out E)
    as (values & head_text & Hl & Hf & _).
  exists out, values, head_text. split; [reflexivity|]. split; [exact Hl|exact Hf].
Defined.

(** Streamed bodies arrive: whatever chunks a producer yields, a decoder of the
    chunked coding reads their concatenation from the printed chunks and the end
    marker, and stops exactly there. *)
Theorem chunks_decode chunks rest :
  unchunk (S (length chunks)) (concat (map serialize_chunk chunks) ++ serialize_chunk_end ++ rest) =
  Some (concat chunks, rest).
Proof. apply unchunk_chunks. lia. Qed.

(** Cookies come back: a request with the header a client sends for the cookies it
    was given reads each of them with its value, as long as the values are free of
    plus and percent signs, which the reader decodes although the writer does not
    encode them. *)
Theorem cookies_come_back cs r c :
  cs <> [] -> Forall readable cs -> NoDup (map cookie_name cs) -> c ∈ cs ->
  cookies_parsed_ r = false -> request_header r (lit "cookie") = cookie_header cs ->
  (cookie (cookie_name c) r).1 = Ok (cookie_value c).
Proof.
  intros Hne Hr Hnd Hin Hp Hh. unfold cookie, parse_cookies. rewrite Hp, Hh. cbn [fst cookies_ set_caches].
  rewrite (parse_cookie_header cs ∅ [] Hne Hr (or_introl eq_refl) : fold_left add_cookie (fields ";" (cookie_header cs)) ∅ = _).
  by rewrite add_values_lookup.
Qed.

Definition request_with_cookie : Request :=
  with_headers {[lit "cookie" := cookie_header [sample_cookie]]} (make_request get (lit "/") [] false).

Lemma cookies_come_back_witness :
  (cookie (lit "id") request_with_cookie).1 = Ok (lit "a1").
Proof.
  apply (cookies_come_back [sample_cookie] request_with_cookie sample_cookie).
  - discriminate.
  - apply Forall_cons_2; [|apply Forall_nil_2]. split; [eexists; vm_compute; reflexivity|].
    split; by_decide.
  - by_decide.
  - left.
  - reflexivity.
  - reflexivity.
Defined.

(** The value that a plus sign makes different: it is set as [a+b] and read as [a b]. *)
Definition plus_cookie : Cookie := mkCookie (lit "t") (lit "a+b") (lit "/") None None false true lax.

Example plus_is_set : is_ok (serialize_cookie plus_cookie) = true.
Proof. vm_compute. reflexivity. Qed.

Example plus_is_lost :
  (cookie (lit "t") (with_headers {[lit "cookie" := cookie_header [plus_cookie]]}
     (make_request get (lit "/") [] false))).1 = Ok (lit "a b").
Proof. vm_compute. reflexivity. Qed.
