(* ===== verification/UploadsFacts.v ===== *)
(** * Multipart bodies: every body is decided, and printed forms are read back *)

From S2P Require Import Prelude Text WebSocket Utf8Facts Http Media MediaFacts Uploads.
From S2P Require Import Request Response Wire WireFacts ResponseFacts.

#[local] Arguments lit : simpl never.
#[local] Arguments size : simpl never.
#[local] Arguments find : simpl never.
#[local] Arguments crlf : simpl never.
#[local] Arguments blank_line : simpl never.

(** ** Every body is decided *)

Definition is_rejection (e : exn) : bool :=
  match e with http_exception status _ => (status =? 400) || (status =? 413) | _ => false end.

Abbreviation decided := (raises_only is_rejection).

Lemma decided_bind {A B} (m : result A) (f : A -> result B) :
  decided m -> (forall a, m = Ok a -> decided (f a)) -> decided (m ≫= f).
Proof. apply raises_only_bind. Qed.

Lemma trim_front_length s : (length (trim_front s) <= length s)%nat.
Proof. induction s as [|c s IH]; cbn; [lia|]. destruct (blank c); cbn; lia. Qed.

Lemma trim_length s : (length (trim s) <= length s)%nat.
Proof.
  unfold trim. rewrite length_rev. etrans; [apply trim_front_length|]. rewrite length_rev. apply trim_front_length.
Qed.

Lemma until_length stop s l r : until stop s = (l, r) ->
  (length l + match r with Some r => S (length r) | None => 0 end = length s)%nat.
Proof. intros [_ ->]%until_inv. rewrite length_app. by destruct r. Qed.

Lemma quoted_value_length s v r : quoted_value s = Some (v, r) -> (length r < length s)%nat.
Proof.
  revert v r. remember (length s) as n eqn:Hn. revert s Hn.
  induction (lt_wf n) as [n _ IH]. intros s -> v r. destruct s as [|c s]; [done|]. cbn [quoted_value].
  destruct (c =b? x22); [intros [= <- <-]; cbn; lia|]. destruct (c =b? x5c).
  - destruct s as [|d s]; [done|]. destruct (bad_quoted d); [done|].
    destruct (quoted_value s) as [[v' r']|] eqn:E; [|done]. intros [= <- <-].
    apply (IH (length s)) in E; [cbn; lia|cbn; lia|done].
  - destruct (bad_quoted c); [done|].
    destruct (quoted_value s) as [[v' r']|] eqn:E; [|done]. intros [= <- <-].
    apply (IH (length s)) in E; [cbn; lia|cbn; lia|done].
Qed.

Lemma parameter_value_decided input : decided (parameter_value input).
Proof.
  unfold parameter_value. destruct input as [|c after]; [done|]. destruct (c =b? x22).
  - destruct (quoted_value after) as [[v rest]|]; [|done]. destruct (trim rest) as [|d rest']; [done|].
    by destruct (d =b? ";").
  - destruct (until ";" (c :: after)) as [before rest]. by destruct (negb _).
Qed.

Lemma parameter_value_length input v r :
  parameter_value input = Ok (v, r) -> (length r <= length input)%nat.
Proof.
  unfold parameter_value. destruct input as [|c after]; [done|]. destruct (c =b? x22).
  - destruct (quoted_value after) as [[v' rest]|] eqn:E; [|done]. apply quoted_value_length in E.
    pose proof (trim_length rest). destruct (trim rest) as [|d rest']; [intros [= <- <-]; cbn; lia|].
    destruct (d =b? ";"); [|done]. intros [= <- <-]. cbn in *. lia.
  - destruct (until ";" (c :: after)) as [before rest] eqn:E. apply until_length in E.
    destruct (negb _); [done|]. intros [= <- <-]. destruct rest; cbn in *; lia.
Qed.

Lemma parameters_loop_decided fuel input values :
  (length input < fuel)%nat -> decided (parameters_loop fuel input values).
Proof.
  revert input values. induction fuel as [|fuel IH]; intros input values Hf; [lia|]. cbn [parameters_loop].
  pose proof (trim_length input). destruct (trim input) as [|c t] eqn:Et; [done|]. rewrite <-Et in *.
  destruct (until "=" (trim input)) as [before [after|]] eqn:E; [|done]. apply until_length in E.
  destruct (negb _); [done|]. apply decided_bind; [apply parameter_value_decided|].
  intros [v rest] Ev. apply parameter_value_length in Ev. pose proof (trim_length after).
  destruct (bool_decide _); [done|]. destruct rest as [|d rest]; [done|].
  destruct (trim rest) eqn:Er; [done|]. apply IH. cbn in *. lia.
Qed.

Lemma parameters_decided input : decided (parameters input).
Proof.
  unfold parameters. destruct (until ";" input) as [before [rest|]]; [|done].
  apply decided_bind; [apply parameters_loop_decided; lia|done].
Qed.

Lemma safe_name_decided name : decided (safe_name name).
Proof.
  unfold safe_name. destruct name as [|c name]; [done|].
  destruct (Z.ltb_spec 255 (size (c :: name))); [done|]. rewrite text_utf8 by lia. done.
Qed.

Lemma part_headers_decided fuel section headers :
  (length section < fuel)%nat -> decided (part_headers fuel section headers).
Proof.
  revert section headers. induction fuel as [|fuel IH]; intros section headers Hf; [lia|].
  cbn [part_headers]. destruct section as [|c section]; [done|].
  destruct (find crlf (c :: section)) as [[l r]|] eqn:E.
  - apply find_crlf_shorter in E. destruct (until ":" l) as [name [value|]]; [|done].
    destruct (_ || _); [done|]. destruct (bool_decide _); [done|]. apply IH. lia.
  - destruct (until ":" (c :: section)) as [name [value|]]; [|done].
    destruct (_ || _); [done|]. by destruct (bool_decide _).
Qed.

Lemma add_file_decided limits headers name filename key content input :
  decided (add_file limits headers name filename key content input).
Proof.
  unfold add_file. destruct (_ <? _); [done|]. destruct (bool_decide _); [done|].
  destruct filename as [|c filename]; [by destruct content|].
  apply decided_bind; [apply safe_name_decided|]. intros good _. destruct (negb good); [done|].
  destruct (_ || _); [done|]. apply decided_bind.
  - destruct (headers !! _) as [v|]; [|done]. pose proof (parameters_decided v). by destruct (parameters v).
  - intros media _. by destruct (negb _).
Qed.

Lemma add_field_decided limits name key content input : decided (add_field limits name key content input).
Proof. unfold add_field. destruct (_ <? _); [done|]. by destruct (_ || _). Qed.

(** ** Delimiters *)

Lemma substr_Ok s pos n : 0 <= pos <= size s -> substr s pos n = Ok (take (Z.to_nat n) (drop (Z.to_nat pos) s)).
Proof. intros Hp. unfold substr. by rewrite (proj2 (Z.ltb_ge _ _)) by lia. Qed.

Lemma skip_blank_bounds body at_ : 0 <= at_ <= size body -> at_ <= skip_blank body at_ <= size body.
Proof.
  intros Ha. unfold skip_blank, size in *. rewrite length_drop.
  pose proof (trim_front_length (drop (Z.to_nat at_) body)) as H. rewrite length_drop in H. lia.
Qed.

(** Where an occurrence lies. *)
Lemma find_drop body marker start before after :
  0 <= start <= size body -> find marker (drop (Z.to_nat start) body) = Some (before, after) ->
  start + size before + size marker + size after = size body.
Proof.
  intros Hs E%find_inv. apply (f_equal length) in E. rewrite length_drop, !length_app in E. unfold size in *. lia.
Qed.

(** The search ends, and what it returns lies between [start] and the end. *)
Lemma delimiter_decided fuel body marker start :
  marker <> [] -> 0 <= start <= size body -> size body - start < Z.of_nat fuel ->
  returns (fun d => forall x, d = Some x -> start <= position x /\ position x < next x <= size body)
    (delimiter fuel body marker start).
Proof.
  intros Hm. assert (0 < size marker) as Hms by (destruct marker; [done|unfold size; cbn; lia]).
  revert start. induction fuel as [|fuel IH]; intros start Hs Hf; [lia|]. cbn [delimiter].
  destruct (find marker _) as [[before after]|] eqn:E; [|by cbn].
  apply find_drop in E; [|done]. pose proof (size_nonneg before). pose proof (size_nonneg after).
  eapply (returns_bind (fun _ => True)).
  { destruct (_ =? 0); [done|]. destruct (Z.ltb_spec (start + size before) 2); [done|].
    by rewrite substr_Ok by lia. }
  intros at_line_start _. rewrite substr_Ok by lia. cbn [mbind result_bind].
  set (last_ := bool_decide (_ = lit "--")).
  assert (start + size before < (if last_ then start + size before + size marker + 2
    else start + size before + size marker) <= size body) as Hend.
  { destruct last_ eqn:El; [|lia]. unfold last_ in El. reflect_bools. apply (f_equal length) in El.
    rewrite length_take, length_drop in El. change (length (lit "--")) with 2%nat in El. unfold size in *. lia. }
  set (stop := if last_ then _ else _) in *.
  pose proof (skip_blank_bounds body stop ltac:(lia)) as Hskip. set (end_ := skip_blank _ _) in *.
  rewrite substr_Ok by lia. cbn [mbind result_bind].
  destruct (_ && _) eqn:Etest.
  - cbn. intros x [= <-]. cbn. split; [lia|]. destruct (Z.eqb_spec end_ (size body)); [lia|].
    reflect_bools. apply orb_prop in H2 as [H2|H2]; reflect_bools; [|lia].
    apply (f_equal length) in H2. rewrite length_take, length_drop, length_crlf in H2. unfold size in *. lia.
  - eapply returns_impl; [|apply IH; lia]. cbn. intros d Hd x Ex. specialize (Hd x Ex). lia.
Qed.

Lemma decided_Ok {A} (P : A -> Prop) (r : result A) : returns P r -> decided r.
Proof. by destruct r. Qed.

Lemma parse_part_decided limits body marker begin input :
  marker <> [] -> 0 <= begin <= size body ->
  decided (parse_part limits body marker begin input) /\
  forall d input', parse_part limits body marker begin input = Ok (d, input') -> begin < next d <= size body.
Proof.
  intros Hm Hb. unfold parse_part. destruct (find blank_line _) as [[section after]|] eqn:E; [|done].
  apply find_drop in E; [|done]. change (size blank_line) with 4 in E. pose proof (size_nonneg after).
  pose proof (size_nonneg section).
  destruct (_ <? _); [done|]. pose proof (part_headers_decided (S (length section)) section ∅ ltac:(lia)) as Hp.
  destruct (part_headers _ section ∅) as [headers|e|]; [|done..]. cbn [mbind result_bind].
  destruct (headers !! _) as [disposition|]; [|done]. destruct (bool_decide _); [done|].
  pose proof (parameters_decided disposition) as Hpar.
  destruct (parameters disposition) as [attributes|e|]; [|done..]. cbn [mbind result_bind].
  destruct (negb _); [done|]. destruct (values_ attributes !! lit "name") as [name|]; [|done].
  pose proof (safe_name_decided name) as Hsafe. destruct (safe_name name) as [good|e|]; [|done..].
  cbn [mbind result_bind]. destruct (_ || _); [done|]. destruct (_ || _); [done|].
  pose proof (delimiter_decided (S (length body)) body marker (begin + size section + 4) Hm) as Hd.
  destruct (delimiter _ body marker _) as [[d|]|e|]; [|done|exfalso; unfold size in *; apply Hd; lia..].
  cbn [returns mbind result_bind] in *. destruct (Hd ltac:(lia) ltac:(unfold size in *; lia) d eq_refl) as [Hd1 Hd2].
  destruct (_ <? _); [done|]. rewrite substr_Ok by lia. cbn [mbind result_bind].
  assert (forall r : result MultipartInput, decided r ->
    decided (r ≫= fun input => Ok (d, input)) /\
    forall d' input', r ≫= (fun input => Ok (d, input)) = Ok (d', input') -> begin < next d' <= size body) as Hend.
  { intros r Hr. destruct r as [i|e|]; [|done..]. split; [done|]. intros d' input' [= <- <-]. lia. }
  apply Hend. destruct (values_ attributes !! lit "filename"); [apply add_file_decided|apply add_field_decided].
Qed.

Lemma parts_loop_decided fuel limits body marker current parts input :
  marker <> [] -> 0 <= next current <= size body -> size body - next current < Z.of_nat fuel ->
  decided (parts_loop fuel limits body marker current parts input).
Proof.
  intros Hm. revert current parts input. induction fuel as [|fuel IH]; intros current parts input Hc Hf; [lia|].
  cbn [parts_loop]. destruct (last_ current); [done|]. destruct (_ <? _); [done|].
  destruct (parse_part_decided limits body marker (next current) input Hm Hc) as [Hp Hn].
  destruct (parse_part _ body marker _ input) as [[d input']|e|]; [|done..]. cbn [mbind result_bind].
  specialize (Hn d input' eq_refl). apply IH; lia.
Qed.

Lemma parse_multipart_decided content_type body limits : decided (parse_multipart content_type body limits).
Proof.
  unfold parse_multipart. destruct (_ <? _); [done|]. pose proof (parameters_decided content_type) as Hp.
  destruct (parameters content_type) as [type|e|]; [|done..]. cbn [mbind result_bind].
  destruct (values_ type !! _) as [value|]; [|done]. destruct (_ || _); [done|].
  assert (lit "--" ++ value <> []) as Hm by done.
  pose proof (delimiter_decided (S (length body)) body (lit "--" ++ value) 0 Hm) as Hd.
  destruct (delimiter _ body _ 0) as [[d|]|e|]; [|done|exfalso; unfold size in *; apply Hd; lia..].
  cbn [returns mbind result_bind] in *.
  destruct (Hd ltac:(unfold size in *; lia) ltac:(unfold size in *; lia) d eq_refl).
  apply parts_loop_decided; [done|lia|unfold size in *; lia].
Qed.

(** ** Forms as a client prints them *)

Record Part := mkPart { part_name : bytes; part_file : option (bytes * bytes); part_content : bytes }.

Definition quote (s : bytes) : bytes := [x22] ++ s ++ [x22].

Definition disposition (p : Part) : bytes :=
  lit "form-data; name=" ++ quote (part_name p) ++
  match part_file p with Some (filename, _) => lit "; filename=" ++ quote filename | None => [] end.

Definition part_lines (p : Part) : list bytes :=
  (lit "Content-Disposition: " ++ disposition p) ::
  match part_file p with Some (_, media) => [lit "Content-Type: " ++ media] | None => [] end.

Definition print_part (p : Part) : bytes := join_lines (part_lines p) ++ blank_line ++ part_content p ++ crlf.

(** The text of a form from a delimiter on. *)
Fixpoint form_text (marker : bytes) (parts : list Part) : bytes :=
  match parts with
  | [] => marker ++ lit "--" ++ crlf
  | p :: rest => marker ++ crlf ++ print_part p ++ form_text marker rest
  end.

(** Names that can stand between quotes and are accepted. *)
Definition quotable_char (c : byte) : bool := negb (bad_quoted c) && negb (c =b? x22) && negb (c =b? x5c).

Definition quotable (s : bytes) : Prop :=
  s <> [] /\ size s <= 255 /\ valid_utf8 s = true /\ forallb quotable_char s = true.

Lemma quotable_char_spec c : quotable_char c = true ->
  bad_quoted c = false /\ (c =b? x22) = false /\ (c =b? x5c) = false /\ value_char c = true /\ clean_char c = true /\
  control (uc c) = false.
Proof.
  intros H. assert (implb (quotable_char c) (negb (bad_quoted c) && negb (c =b? x22) && negb (c =b? x5c) &&
    value_char c && clean_char c && negb (control (uc c))) = true) as Hb by (clear; by_bytes).
  rewrite H in Hb. cbn [implb] in Hb. repeat apply andb_prop in Hb as [Hb ?].
  repeat match goal with X : negb _ = true |- _ => apply negb_true_iff in X end. split_and!; done.
Qed.

Lemma quoted_value_quote s rest :
  forallb quotable_char s = true -> quoted_value (s ++ x22 :: rest) = Some (s, rest).
Proof.
  induction s as [|c s IH]; [done|]. cbn [forallb app]. intros [Hc Hs]%andb_prop.
  apply quotable_char_spec in Hc as (H1 & H2 & H3 & _). cbn [quoted_value]. rewrite H2, H3, H1, IH by done. done.
Qed.

Lemma safe_name_quotable s : quotable s -> safe_name s = Ok true.
Proof.
  intros (Hne & Hs & Hu & Hq). unfold safe_name. destruct s as [|c s]; [done|].
  rewrite (proj2 (Z.ltb_ge _ _)) by done. rewrite text_utf8, Hu by lia. cbn [mbind result_bind].
  rewrite (forallb_impl quotable_char (fun b => negb (control (uc b)))); [|intros; by_bytes|done].
  rewrite (forallb_impl quotable_char (fun b => negb (bad_quoted b))); [done|intros; by_bytes|done].
Qed.

(** Text that begins and ends with a character that is not blank. *)
Lemma trim_id c s d : blank c = false -> blank d = false -> trim (c :: s ++ [d]) = c :: s ++ [d].
Proof.
  intros Hc Hd. unfold trim. cbn [trim_front]. rewrite Hc.
  change (c :: s ++ [d]) with ((c :: s) ++ [d]). rewrite rev_app_distr. cbn [rev app trim_front].
  rewrite Hd. change (d :: rev s ++ [c]) with ([d] ++ rev (c :: s)). by rewrite rev_app_distr, rev_involutive.
Qed.

(** A parameter list that starts with a quoted value. *)
Lemma parameters_quoted fuel name value rest values :
  valid_header_name name = true -> lower name = name -> forallb quotable_char value = true ->
  values !! name = None -> "="%byte ∉ name -> (rest = [] \/ exists c s, blank c = false /\ rest = lit "; " ++ c :: s ++ [x22]) ->
  (0 < fuel)%nat ->
  parameters_loop fuel (lit " " ++ name ++ lit "=" ++ quote value ++ rest) values =
  match rest with
  | [] => Ok (<[name := value]> values)
  | _ :: r => parameters_loop (pred fuel) r (<[name := value]> values)
  end.
Proof.
  intros Hn Hlow Hv Hnone Heq Hrest Hfuel. destruct fuel as [|fuel]; [lia|]. cbn [parameters_loop]. rewrite trim_blank.
  assert (exists s, quote value ++ rest = x22 :: s ++ [x22]) as [s Es].
  { destruct Hrest as [->|(c & s & _ & ->)]; unfold quote; cbn [app].
    - exists value. by rewrite app_nil_r.
    - exists (value ++ [x22] ++ lit "; " ++ c :: s). by rewrite <-!app_assoc. }
  assert (trim (name ++ lit "=" ++ quote value ++ rest) = name ++ lit "=" ++ quote value ++ rest) as Et.
  { rewrite Es. apply valid_name_Forall in Hn as Hf. destruct name as [|c name]; [done|].
    apply Forall_cons in Hf as [Hc _]. apply name_char_plain in Hc as [Hc _].
    change ((c :: name) ++ lit "=" ++ x22 :: s ++ [x22]) with (c :: name ++ lit "=" ++ (x22 :: s) ++ [x22]).
    rewrite !(app_assoc _ _ [x22]). by apply trim_id. }
  rewrite Et. destruct (name ++ lit "=" ++ quote value ++ rest) as [|c0 t0] eqn:Enz; [by destruct name|].
  rewrite <-Enz. change (lit "=" ++ quote value ++ rest) with ("="%byte :: quote value ++ rest).
  rewrite until_app by done. rewrite trim_name, Hlow, Hn by done. cbn [negb].
  rewrite Es at 1. rewrite trim_id by done. rewrite <-Es. unfold quote at 1. cbn [app parameter_value].
  change (x22 =b? x22) with true. cbn iota. rewrite <-app_assoc. cbn [app]. rewrite quoted_value_quote by done.
  assert (trim rest = rest) as ->.
  { destruct Hrest as [->|(c & r & _ & ->)]; [done|].
    change (lit "; " ++ c :: r ++ [x22]) with (";"%byte :: (" "%byte :: c :: r) ++ [x22]). by apply trim_id. }
  assert ((match rest with [] => Ok (value, []) | d :: rest' => if d =b? ";" then Ok (value, d :: rest') else malformed end)
    = Ok (value, rest)) as -> by (destruct Hrest as [->|(c & r & _ & ->)]; done).
  cbn [mbind result_bind]. rewrite bool_decide_eq_false_2 by (rewrite Hnone; by intros [? ?]).
  destruct Hrest as [->|(c & r & Hc & ->)]; [done|].
  change (lit "; " ++ c :: r ++ [x22]) with (";"%byte :: lit " " ++ c :: r ++ [x22]).
  cbn iota. by rewrite trim_blank, trim_id.
Qed.

Definition disposition_values (p : Part) : gmap bytes bytes :=
  let values := <[lit "name" := part_name p]> ∅ in
  match part_file p with Some (filename, _) => <[lit "filename" := filename]> values | None => values end.

Definition media_ok (media : bytes) : Prop :=
  exists kind subtype, media = kind ++ lit "/" ++ subtype /\ valid_header_name kind = true /\
    valid_header_name subtype = true /\ lower media = media.

(** A part that a form can hold, apart from its size and its content. *)
Record part_ok (p : Part) : Prop := {
  name_ok : quotable (part_name p);
  key_ok : field_key (part_name p) <> [] /\ existsb forbidden_in_key (field_key (part_name p)) = false;
  file_ok : match part_file p with
            | None => ends_with (lit "[]") (part_name p) = false
            | Some (filename, media) =>
                quotable filename /\ forallb (fun c => negb ((c =b? "/") || (c =b? x5c))) filename = true /\
                filename <> lit "." /\ filename <> lit ".." /\ media_ok media
            end
}.

Lemma parameters_disposition p : part_ok p ->
  parameters (disposition p) = Ok (mkParameters (lit "form-data") (disposition_values p)).
Proof.
  intros [(_ & _ & _ & Hn) _ Hf]. unfold parameters, disposition, disposition_values.
  change (lit "form-data; name=" ++ ?x) with (lit "form-data" ++ ";"%byte :: lit " " ++ lit "name" ++ lit "=" ++ x).
  rewrite until_app by by_decide. destruct (part_file p) as [[filename media]|].
  - destruct Hf as ((_ & _ & _ & Hq) & _).
    rewrite parameters_quoted; try done;
      [|by_decide|right; exists "f"%byte, (lit "ilename=" ++ [x22] ++ filename)|lia].
    2: { split; [done|]. unfold quote. by rewrite <-!app_assoc. }
    change (lit "; filename=" ++ quote filename) with
      (";"%byte :: lit " " ++ lit "filename" ++ lit "=" ++ quote filename). cbn iota.
    rewrite <-(app_nil_r (quote filename)).
    rewrite parameters_quoted; try done; [by_decide|by left|rewrite !length_app; cbn; lia].
  - rewrite parameters_quoted; try done; [by_decide|by left|lia].
Qed.

(** *** Headers of a part *)

Lemma disposition_shape p : exists s, disposition p = lit "form-data; name=" ++ s ++ [x22].
Proof.
  unfold disposition, quote. destruct (part_file p) as [[filename media]|].
  - exists ([x22] ++ part_name p ++ [x22] ++ lit "; filename=" ++ [x22] ++ filename). by rewrite <-!app_assoc.
  - exists ([x22] ++ part_name p). by rewrite app_nil_r, <-!app_assoc.
Qed.

Lemma quotable_value s : forallb quotable_char s = true -> valid_header_value s = true.
Proof. apply forallb_impl. intros. by_bytes. Qed.

Lemma disposition_value p : part_ok p -> value_ok (disposition p).
Proof.
  intros [(_ & _ & _ & Hn) _ Hf]. split.
  - unfold disposition, quote, valid_header_value. rewrite !forallb_app.
    change (forallb value_char) with valid_header_value. rewrite (quotable_value (part_name p)) by done.
    destruct (part_file p) as [[filename media]|]; [|done]. destruct Hf as ((_ & _ & _ & Hq) & _).
    unfold valid_header_value. rewrite !forallb_app. change (forallb value_char) with valid_header_value.
    by rewrite (quotable_value filename).
  - destruct (disposition_shape p) as [s ->].
    change (lit "form-data; name=" ++ s ++ [x22]) with ("f"%byte :: (lit "orm-data; name=" ++ s) ++ [x22]).
    by apply trim_id.
Qed.

Lemma media_value media : media_ok media ->
  value_ok media /\ parameters media = Ok (mkParameters media ∅) /\ starts_media media = true /\ media <> [].
Proof.
  intros (kind & subtype & -> & Hk & Hs & Hl).
  assert (Forall (fun c => name_char c = true \/ c = "/"%byte) (kind ++ lit "/" ++ subtype)) as Hf.
  { apply valid_name_Forall in Hk, Hs. apply Forall_app. split; [|apply Forall_app; split].
    - eapply Forall_impl; [exact Hk|]. auto.
    - apply Forall_singleton. by right.
    - eapply Forall_impl; [exact Hs|]. auto. }
  assert (trim (kind ++ lit "/" ++ subtype) = kind ++ lit "/" ++ subtype) as Ht.
  { assert (forall s, Forall (fun c => name_char c = true \/ c = "/"%byte) s -> trim_front s = s) as Hid.
    { intros s Hs'. apply trim_front_id. intros c t ->. apply Forall_cons in Hs' as [[Hc| ->] _]; [|done].
      by apply name_char_plain in Hc as [? _]. }
    unfold trim. rewrite (Hid (kind ++ _)) by done. rewrite Hid by (by apply Forall_rev). apply rev_involutive. }
  split_and!.
  - split; [|done]. unfold valid_header_value. rewrite !forallb_app. change (forallb value_char) with valid_header_value.
    by rewrite (name_value kind), (name_value subtype).
  - unfold parameters. rewrite until_none, Ht, Hl; [done|]. intros Hin. eapply Forall_forall in Hf; [|done].
    destruct Hf as [Hf|Hf]; [by vm_compute in Hf|done].
  - unfold starts_media. change (lit "/" ++ subtype) with ("/"%byte :: subtype).
    rewrite until_app by (by apply name_avoids). by rewrite Hk, Hs.
  - by destruct kind.
Qed.

Definition part_header_map (p : Part) : gmap bytes bytes :=
  let headers := <[lit "content-disposition" := disposition p]> ∅ in
  match part_file p with Some (_, media) => <[lit "content-type" := media]> headers | None => headers end.

Lemma line_plain name value : valid_header_name name = true -> value_ok value ->
  plain_line (print_header (name, value)).
Proof. intros Hn Hv. by apply print_header_plain. Qed.

Lemma part_lines_headers p : part_lines p =
  map print_header ((lit "Content-Disposition", disposition p) ::
    match part_file p with Some (_, media) => [(lit "Content-Type", media)] | None => [] end).
Proof. unfold part_lines. by destruct (part_file p) as [[? ?]|]. Qed.

Lemma part_lines_plain p : part_ok p -> Forall plain_line (part_lines p).
Proof.
  intros Hp. rewrite part_lines_headers. apply Forall_map, Forall_cons. split.
  - apply line_plain; [done|by apply disposition_value].
  - destruct Hp as [_ _ Hf]. destruct (part_file p) as [[filename media]|]; [|apply Forall_nil_2].
    destruct Hf as (_ & _ & _ & _ & Hm). apply Forall_singleton, line_plain; [done|]. by apply media_value.
Qed.

(** One header line of a part. *)
Lemma part_headers_step fuel line rest name value headers :
  line = print_header (name, value) -> valid_header_name name = true -> value_ok value ->
  headers !! lower name = None -> CR ∉ line -> (0 < fuel)%nat ->
  part_headers fuel (line ++ match rest with Some r => crlf ++ r | None => [] end) headers =
  match rest with
  | Some r => part_headers (pred fuel) r (<[lower name := value]> headers)
  | None => Ok (<[lower name := value]> headers)
  end.
Proof.
  intros Eline Hn [Hv Ht] Hnone Hcr Hfuel. destruct fuel as [|fuel]; [lia|]. cbn [part_headers pred].
  assert (exists c t, line = c :: t) as (c0 & t0 & Ec).
  { rewrite Eline. unfold print_header. destruct name as [|c name]; [done|]. cbn. eauto. }
  assert (until ":" line = (name, Some (lit " " ++ value))) as Eu by (rewrite Eline; by apply (until_header (name, value))).
  destruct rest as [r|].
  - assert (find crlf (line ++ crlf ++ r) = Some (line, r)) as Ef
      by (change crlf with (CR :: [x0a]); by apply (find_at CR)).
    rewrite Ef. rewrite Ec at 1. cbn [app]. cbn iota. rewrite Eu, trim_blank, Ht, Hn, Hv. cbn [negb orb].
    by rewrite bool_decide_eq_false_2 by (rewrite Hnone; by intros [? ?]).
  - rewrite app_nil_r.
    assert (find crlf line = None) as Ef by (change crlf with (CR :: [x0a]); by apply (find_free CR)).
    rewrite Ef. rewrite Ec at 1. cbn iota. rewrite Eu, trim_blank, Ht, Hn, Hv. cbn [negb orb].
    by rewrite bool_decide_eq_false_2 by (rewrite Hnone; by intros [? ?]).
Qed.

Lemma part_headers_printed p : part_ok p ->
  part_headers (S (length (join_lines (part_lines p)))) (join_lines (part_lines p)) ∅ = Ok (part_header_map p).
Proof.
  intros Hp. pose proof (part_lines_plain p Hp) as Hl. pose proof (disposition_value p Hp) as Hd.
  unfold part_lines, part_header_map in *. destruct Hp as [_ _ Hf].
  destruct (part_file p) as [[filename media]|].
  - destruct Hf as (_ & _ & _ & _ & Hm). apply media_value in Hm as [Hv _].
    apply Forall_cons in Hl as [[_ H1] Hl]. apply Forall_cons in Hl as [[_ H2] _].
    change (join_lines [?a; ?b]) with (a ++ crlf ++ b).
    rewrite (part_headers_step _ _ (Some _) (lit "Content-Disposition") (disposition p)); try done; [|lia].
    rewrite <-(app_nil_r (lit "Content-Type: " ++ media)) at 2.
    rewrite (part_headers_step _ _ None (lit "Content-Type") media); try done.
    cbn [pred]. rewrite !length_app, length_crlf. lia.
  - apply Forall_cons in Hl as [[_ H1] _]. change (join_lines [?a]) with a.
    rewrite <-(app_nil_r (lit "Content-Disposition: " ++ disposition p)) at 2.
    rewrite (part_headers_step _ _ None (lit "Content-Disposition") (disposition p)); try done. lia.
Qed.

(** *** Delimiters of a printed form *)

Lemma drop_prefix (l r : bytes) n : n = size l -> drop (Z.to_nat n) (l ++ r) = r.
Proof. intros ->. unfold size. by rewrite Nat2Z.id, drop_app_length. Qed.

Lemma take_prefix_size (l r : bytes) n : n = size l -> take (Z.to_nat n) (l ++ r) = l.
Proof. intros ->. unfold size. by rewrite Nat2Z.id, take_app_length. Qed.

(** What follows a marker: the two dashes of the last one, and the line break. *)
Definition marker_end (final : bool) : bytes := if final then lit "--" else [].

(** A marker at the start of a line is a delimiter. *)
Lemma delimiter_here fuel body marker start l before tail final :
  body = l ++ marker ++ marker_end final ++ crlf ++ tail -> size l = start + size before ->
  find marker (drop (Z.to_nat start) body) = Some (before, marker_end final ++ crlf ++ tail) ->
  (l = [] \/ exists l', l = l' ++ crlf) ->
  delimiter (S fuel) body marker start =
  Ok (Some (mkDelimiter (size l) (size (l ++ marker ++ marker_end final ++ crlf)) final)).
Proof.
  intros Eb Es Ef Hl. cbn [delimiter]. rewrite Ef, <-Es.
  pose proof (size_nonneg l). pose proof (size_nonneg marker). pose proof (size_nonneg tail).
  assert (size body = size l + size marker + size (marker_end final) + 2 + size tail) as Hsz.
  { rewrite Eb, !size_app. change (size crlf) with 2. lia. }
  pose proof (size_nonneg (marker_end final)).
  assert ((if size l =? 0 then Ok true
    else if size l <? 2 then Ok false
         else substr body (size l - 2) 2 ≫= fun two => Ok (bool_decide (two = crlf))) = Ok true) as ->.
  { destruct Hl as [->|[l' El]]; [done|]. pose proof (size_nonneg l') as Hl'. rewrite El, size_app.
    change (size crlf) with 2. rewrite (proj2 (Z.eqb_neq _ _)), (proj2 (Z.ltb_ge _ _)) by lia.
    rewrite substr_Ok by (rewrite El, size_app in *; change (size crlf) with 2 in *; lia).
    rewrite Eb, El, <-(app_assoc l'). rewrite (drop_prefix l') by lia. done. }
  cbn [mbind result_bind]. rewrite substr_Ok by lia. rewrite Eb, app_assoc.
  rewrite drop_prefix by (by rewrite size_app).
  cbn [mbind result_bind]. cbv zeta.
  assert (bool_decide (take (Z.to_nat 2) (marker_end final ++ crlf ++ tail) = lit "--") = final) as ->
    by (by destruct final).
  set (front := (l ++ marker) ++ marker_end final).
  assert ((if final then size l + size marker + 2 else size l + size marker) = size front) as ->.
  { unfold front. rewrite !size_app. destruct final; cbn [marker_end]; change (size (lit "--")) with 2;
      change (size []) with 0; lia. }
  assert ((l ++ marker) ++ marker_end final ++ crlf ++ tail = front ++ crlf ++ tail) as -> by apply app_assoc.
  assert (size (front ++ crlf ++ tail) = size front + 2 + size tail) as Hf2.
  { rewrite !size_app. change (size crlf) with 2. lia. }
  pose proof (size_nonneg front). unfold skip_blank. rewrite (drop_prefix front) by done.
  change (trim_front (crlf ++ tail)) with (crlf ++ tail). rewrite Z.sub_diag, Z.add_0_r.
  rewrite substr_Ok by lia. rewrite (drop_prefix front) by done.
  change (take (Z.to_nat 2) (crlf ++ tail)) with crlf. cbn [mbind result_bind].
  rewrite (bool_decide_eq_true_2 _ eq_refl). cbn [andb orb]. cbn iota.
  rewrite (proj2 (Z.eqb_neq _ _)) by lia. do 3 f_equal.
  unfold front. rewrite !size_app. change (size crlf) with 2. lia.
Qed.

(** A marker free of line breaks does not reach over one. *)
Lemma marker_before_break l l0 marker after tail :
  CR ∉ marker -> x0a ∉ marker -> l ++ marker ++ after = l0 ++ crlf ++ tail -> marker <> [] ->
  (length l < length l0 + 2)%nat -> exists r, l0 = l ++ marker ++ r.
Proof.
  intros Hc Hn E Hm Hl.
  assert (length l + length marker <= length l0)%nat as Hle.
  { destruct (decide (length l + length marker <= length l0)%nat) as [|Hgt]; [done|]. exfalso.
    destruct (decide (length l = length l0 + 1)%nat) as [Hone|Hone].
    - apply Hn. change (crlf ++ tail) with ([CR] ++ x0a :: tail) in E.
      rewrite (app_assoc l0) in E. apply app_inj_1 in E as [_ E]; [|rewrite length_app; cbn; lia].
      destruct marker as [|c marker]; [done|]. injection E as -> _. left.
    - apply Hc. assert ((l ++ marker ++ after) !! length l0 = Some CR) as Hx.
      { rewrite E, lookup_app_r, Nat.sub_diag by lia. done. }
      rewrite lookup_app_r in Hx by lia. rewrite lookup_app_l in Hx by lia. by eapply list_elem_of_lookup_2. }
  exists (drop (length l + length marker) l0).
  assert (take (length l + length marker) (l0 ++ crlf ++ tail) = l ++ marker) as Ht.
  { rewrite <-E, app_assoc, <-length_app. apply take_app_length. }
  rewrite take_app_le in Ht by done. rewrite app_assoc, <-Ht. symmetry. apply take_drop.
Qed.

(** The search passes over markers inside lines and stops at the one that starts a line. *)
Lemma delimiter_found fuel body marker start l0 final tail :
  marker <> [] -> CR ∉ marker -> x0a ∉ marker ->
  body = (l0 ++ crlf) ++ marker ++ marker_end final ++ crlf ++ tail -> 0 <= start <= size l0 ->
  (forall l r, l0 = l ++ marker ++ r -> start <= size l -> l <> [] /\ forall l1, l <> l1 ++ crlf) ->
  size l0 - start < Z.of_nat fuel ->
  delimiter fuel body marker start =
  Ok (Some (mkDelimiter (size (l0 ++ crlf)) (size ((l0 ++ crlf) ++ marker ++ marker_end final ++ crlf)) final)).
Proof.
  intros Hm Hc Hn Eb. revert start. induction fuel as [|fuel IH]; intros start Hs Hfree Hfuel; [lia|].
  destruct (find marker (drop (Z.to_nat start) body)) as [[before after]|] eqn:Ef.
  2: { exfalso. apply (proj1 (find_None _ _) Ef (drop (Z.to_nat start) (l0 ++ crlf)) (marker_end final ++ crlf ++ tail)).
       rewrite Eb, drop_app_le; [done|]. rewrite length_app. unfold size in *. lia. }
  pose proof (find_inv _ _ _ _ Ef) as Ei.
  set (l := take (Z.to_nat start) body ++ before).
  assert (body = l ++ marker ++ after) as El.
  { unfold l. rewrite <-app_assoc, <-Ei. by rewrite take_drop. }
  assert (size l = start + size before) as Hl.
  { unfold l. rewrite size_app. unfold size at 1. rewrite length_take, Nat.min_l; [lia|].
    rewrite Eb, !length_app. unfold size in *. lia. }
  assert (size l <= size (l0 ++ crlf)) as Hle.
  { rewrite Hl. assert (length before <= length (drop (Z.to_nat start) (l0 ++ crlf)))%nat as H.
    { eapply find_least; [exact Ef|]. rewrite Eb, drop_app_le; [done|]. rewrite length_app. unfold size in *. lia. }
    rewrite length_drop, length_app in H. rewrite size_app. unfold size in *. change (length crlf) with 2%nat in *. lia. }
  destruct (decide (size l = size (l0 ++ crlf))) as [Heq|Hne].
  - assert (l = l0 ++ crlf /\ after = marker_end final ++ crlf ++ tail) as [El0 Ea].
    { rewrite El in Eb. apply app_inj_1 in Eb as [? Eb]; [|unfold size in *; lia].
      by apply app_inv_head in Eb. }
    rewrite Ea in Ef. eapply delimiter_here; [exact Eb|by rewrite <-Heq|exact Ef|eauto].
  - rewrite size_app in Hle, Hne. change (size crlf) with 2 in *.
    destruct (marker_before_break l l0 marker after (marker ++ marker_end final ++ crlf ++ tail)) as [r Er]; try done.
    { rewrite <-El, Eb. by rewrite <-app_assoc. } { unfold size in *. lia. }
    destruct (Hfree l r Er ltac:(pose proof (size_nonneg before); lia)) as [Hnil Hline].
    cbn [delimiter]. rewrite Ef, <-Hl.
    assert ((if size l =? 0 then Ok true
      else if size l <? 2 then Ok false
         else substr body (size l - 2) 2 ≫= fun two => Ok (bool_decide (two = crlf))) = Ok false) as ->.
    { rewrite (proj2 (Z.eqb_neq _ _)) by (destruct l; [done|unfold size; cbn; lia]).
      destruct (Z.ltb_spec (size l) 2); [done|]. rewrite substr_Ok by (rewrite El, size_app; pose proof (size_nonneg (marker ++ after)); lia).
      cbn [mbind result_bind]. f_equal. apply bool_decide_eq_false_2. intros Htwo.
      apply (Hline (take (Z.to_nat (size l - 2)) l)). rewrite <-(take_drop (Z.to_nat (size l - 2)) l) at 1. f_equal.
      rewrite <-Htwo, El, drop_app_le by (unfold size; lia).
      rewrite take_app_le by (rewrite length_drop; unfold size in *; lia). symmetry. apply take_ge.
      rewrite length_drop. unfold size in *. lia. }
    assert (size l + size marker <= size l0) as Hroom by (rewrite Er, !size_app; pose proof (size_nonneg r); lia).
    assert (0 < size marker) by (destruct marker; [done|unfold size; cbn; lia]).
    assert (size l0 + 2 + size marker <= size body) as Hbody.
    { rewrite Eb, !size_app. change (size crlf) with 2. pose proof (size_nonneg tail).
      pose proof (size_nonneg (marker_end final)). lia. }
    cbn [mbind result_bind]. rewrite substr_Ok by (pose proof (size_nonneg l); lia). cbn [mbind result_bind].
    set (stop := if bool_decide _ then _ else _).
    assert (0 <= stop <= size body) as Hstop by (unfold stop; pose proof (size_nonneg l); destruct (bool_decide _); lia).
    pose proof (skip_blank_bounds body stop Hstop). rewrite substr_Ok by lia. cbn [mbind result_bind andb].
    cbn iota. apply IH; [pose proof (size_nonneg l); lia| |].
    + intros l' r' E' Hl'. apply (Hfree l' r' E'). pose proof (size_nonneg before). lia.
    + pose proof (size_nonneg before). lia.
Qed.

(** *** Parts of a printed form *)

(** No line of the content starts with the marker. *)
Definition boundary_free (marker content : bytes) : Prop := find (crlf ++ marker) (crlf ++ content) = None.

Lemma boundary_free_lines marker pre content l r l1 :
  boundary_free marker content -> pre ++ crlf ++ content = l ++ marker ++ r -> l = l1 ++ crlf ->
  (length pre + 2 <= length l)%nat -> False.
Proof.
  intros Hfree E -> Hl. rewrite length_app, length_crlf in Hl.
  apply (proj1 (find_None _ _) Hfree (drop (length pre) l1) r).
  apply (f_equal (drop (length pre))) in E. rewrite drop_app_length, <-!app_assoc in E.
  rewrite E, drop_app_le by lia. by rewrite <-!app_assoc.
Qed.

Lemma basename_plain s : forallb (fun c => negb ((c =b? "/") || (c =b? x5c))) s = true -> basename s = s.
Proof.
  intros Hs. unfold basename.
  enough (forall acc, fold_left (fun base c => if (c =b? "/") || (c =b? x5c) then [] else base ++ [c]) s acc = acc ++ s)
    as H by (apply H).
  induction s as [|c s IH]; intros acc; cbn; [by rewrite app_nil_r|]. cbn in Hs.
  apply andb_prop in Hs as [Hc%negb_true_iff Hs]. rewrite Hc, IH by done. by rewrite <-app_assoc.
Qed.

(** What a printed part adds. *)
Definition add_part (input : MultipartInput) (p : Part) : MultipartInput :=
  match part_file p with
  | None => mkInput (<[part_name p := part_content p]> (mp_fields input)) (mp_files input)
  | Some (filename, media) =>
      mkInput (mp_fields input) (mp_files input ++ [mkFile (part_name p) filename media (part_content p)])
  end.

Record part_fits (limits : MultipartLimits) (marker : bytes) (p : Part) : Prop := {
  headers_fit : size (join_lines (part_lines p)) <= header_bytes limits;
  content_fits : size (part_content p) <=
    match part_file p with Some _ => file_bytes limits | None => field_bytes limits end;
  content_free : boundary_free marker (part_content p)
}.

(** The name of a part is not taken by a part of the other kind. *)
Definition name_free (input : MultipartInput) (p : Part) : Prop :=
  match part_file p with
  | Some _ => mp_fields input !! field_key (part_name p) = None
  | None => Forall (fun f => field_key (file_name f) <> part_name p) (mp_files input)
  end.

Lemma field_key_plain name : ends_with (lit "[]") name = false -> field_key name = name.
Proof. unfold field_key. by intros ->. Qed.

Lemma part_added limits marker p input : part_ok p -> part_fits limits marker p -> name_free input p ->
  match disposition_values p !! lit "filename" with
  | Some filename =>
      add_file limits (part_header_map p) (part_name p) filename (field_key (part_name p)) (part_content p) input
  | None => add_field limits (part_name p) (field_key (part_name p)) (part_content p) input
  end = Ok (add_part input p).
Proof.
  intros [Hn Hk Hf] [_ Hc _] Hfree. unfold disposition_values, part_header_map, add_part, name_free in *.
  destruct (part_file p) as [[filename media]|].
  - destruct Hf as (Hq & Hslash & Hdot & Hdots & Hmedia). rewrite lookup_insert_eq. unfold add_file.
    rewrite (proj2 (Z.ltb_ge _ _)) by done. rewrite bool_decide_eq_false_2 by (rewrite Hfree; by intros [? ?]).
    destruct filename as [|c fn] eqn:Efn; [by destruct Hq|]. rewrite <-Efn in *.
    rewrite safe_name_quotable by done. cbn [mbind result_bind negb]. rewrite basename_plain by done.
    rewrite !bool_decide_eq_false_2 by (done || by rewrite Efn). cbn [orb]. rewrite lookup_insert_eq.
    apply media_value in Hmedia as (_ & -> & Hs & _). cbn [fmap result_fmap type_ mbind result_bind]. by rewrite Hs.
  - rewrite lookup_insert_ne, lookup_empty by done. unfold add_field.
    rewrite (proj2 (Z.ltb_ge _ _)) by done. rewrite Hf, field_key_plain by done. cbn [orb].
    assert (existsb (fun f => bool_decide (field_key (file_name f) = part_name p)) (mp_files input) = false) as ->; [|done].
    induction (mp_files input) as [|f files IH]; [done|]. apply Forall_cons in Hfree as [H1 H2]. cbn.
    rewrite bool_decide_eq_false_2 by done. by apply IH.
Qed.

(** Reading one printed part. *)
Lemma parse_part_printed limits marker p input pre final tail :
  marker <> [] -> CR ∉ marker -> x0a ∉ marker -> part_ok p -> part_fits limits marker p -> name_free input p ->
  let front := pre ++ print_part p ++ marker ++ marker_end final ++ crlf in
  exists at_, parse_part limits (front ++ tail) marker (size pre) input =
    Ok (mkDelimiter at_ (size front) final, add_part input p).
Proof.
  intros Hm Hc Hl Hp Hfit Hfree front. pose proof (part_lines_plain p Hp) as Hplain.
  set (section := join_lines (part_lines p)).
  assert (front ++ tail = ((pre ++ section ++ blank_line ++ part_content p) ++ crlf) ++
    marker ++ marker_end final ++ crlf ++ tail) as Ebody.
  { unfold front, print_part. fold section. by rewrite <-!app_assoc. }
  exists (size ((pre ++ section ++ blank_line ++ part_content p) ++ crlf)).
  unfold parse_part.
  assert (drop (Z.to_nat (size pre)) (front ++ tail) =
    section ++ blank_line ++ part_content p ++ crlf ++ marker ++ marker_end final ++ crlf ++ tail) as ->.
  { rewrite Ebody, <-!app_assoc. by apply drop_prefix. }
  unfold section at 1. rewrite find_blank_lines by (done || by destruct (part_file p)). fold section.
  rewrite (proj2 (Z.ltb_ge _ _)) by apply Hfit.
  pose proof (part_headers_printed p Hp) as Hph. fold section in Hph. rewrite Hph.
  cbn [mbind result_bind].
  assert (part_header_map p !! lit "content-disposition" = Some (disposition p) /\
    part_header_map p !! lit "content-transfer-encoding" = None) as [-> ->].
  { unfold part_header_map. by destruct (part_file p) as [[? ?]|]; simplify_map_eq. }
  rewrite bool_decide_eq_false_2 by (by intros [? ?]). rewrite parameters_disposition by done.
  cbn [mbind result_bind type_ values_]. rewrite bool_decide_eq_true_2 by done. cbn [negb].
  assert (disposition_values p !! lit "name" = Some (part_name p) /\
    disposition_values p !! lit "filename*" = None) as [-> ->].
  { unfold disposition_values. by destruct (part_file p) as [[? ?]|]; simplify_map_eq. }
  destruct (key_ok p Hp) as [Hk1 Hk2]. rewrite safe_name_quotable by apply Hp. cbn [mbind result_bind negb orb].
  rewrite bool_decide_eq_false_2 by (by intros [? ?]). rewrite bool_decide_eq_false_2, Hk2 by done. cbn [orb].
  set (l0 := pre ++ section ++ blank_line ++ part_content p) in *.
  assert (size pre + size section + 4 + size (part_content p) = size l0) as Hl0.
  { unfold l0. rewrite !size_app. change (size blank_line) with 4. lia. }
  pose proof (size_nonneg pre). pose proof (size_nonneg section). pose proof (size_nonneg (part_content p)).
  rewrite (delimiter_found _ (front ++ tail) marker (size pre + size section + 4) l0 final tail); try done; [|lia| |].
  - cbn [mbind result_bind position]. rewrite size_app. change (size crlf) with 2.
    rewrite (proj2 (Z.ltb_ge _ _)) by lia.
    rewrite substr_Ok by (rewrite Ebody, !size_app; pose proof (size_nonneg (marker ++ marker_end final ++ crlf ++ tail));
      rewrite !size_app in *; change (size crlf) with 2 in *; lia).
    cbn [mbind result_bind].
    assert (take (Z.to_nat (size l0 + 2 - (size pre + size section + 4) - 2))
      (drop (Z.to_nat (size pre + size section + 4)) (front ++ tail)) = part_content p) as ->.
    { assert (front ++ tail = ((pre ++ section) ++ blank_line) ++ part_content p ++ crlf ++ marker ++ marker_end final ++ crlf ++ tail)
        as -> by (rewrite Ebody; unfold l0; by rewrite <-!app_assoc).
      rewrite drop_prefix by (rewrite !size_app; change (size blank_line) with 4; lia). apply take_prefix_size. lia. }
    rewrite (part_added limits marker) by done. cbn [mbind result_bind]. unfold front, print_part. fold section.
    do 3 f_equal. unfold l0. rewrite !size_app. lia.
  - intros l r El Hle. split; [intros ->; change (size []) with 0 in Hle; lia|].
    intros l1 E1. eapply (boundary_free_lines marker (pre ++ section ++ crlf)); [apply Hfit| |exact E1|].
    + rewrite <-El. unfold l0, blank_line. by rewrite <-!app_assoc.
    + rewrite !length_app, length_crlf. unfold size in Hle. lia.
  - rewrite Ebody, !length_app. unfold size in *. lia.
Qed.

(** What follows the first marker of a form. *)
Definition form_rest (marker : bytes) (parts : list Part) : bytes :=
  match parts with [] => [] | p :: rest => print_part p ++ form_text marker rest end.

Definition no_parts (parts : list Part) : bool := match parts with [] => true | _ => false end.

Lemma form_text_rest marker parts :
  form_text marker parts = marker ++ marker_end (no_parts parts) ++ crlf ++ form_rest marker parts.
Proof. destruct parts; cbn [form_text form_rest no_parts marker_end app]; by rewrite ?app_nil_r, <-?app_assoc. Qed.

(** The names of a form: a form field and a file do not share one. *)
Definition names_apart (parts : list Part) : Prop :=
  Forall (fun p => Forall (fun q => part_file p = None -> part_file q <> None ->
    field_key (part_name q) <> part_name p) parts) parts.

(** What a prefix of a form has collected. *)
Definition collected (parts : list Part) (input : MultipartInput) : Prop :=
  (forall name, is_Some (mp_fields input !! name) -> exists p, p ∈ parts /\ part_file p = None /\ part_name p = name) /\
  Forall (fun f => exists p, p ∈ parts /\ part_file p <> None /\ part_name p = file_name f) (mp_files input).

Lemma collected_free parts input p : names_apart parts -> collected parts input -> p ∈ parts -> name_free input p.
Proof.
  intros Hn [Hfields Hfiles] Hp. unfold names_apart, name_free in *. destruct (part_file p) as [[? ?]|] eqn:E.
  - apply eq_None_not_Some. intros (q & Hq & Hnone & Hname)%Hfields.
    rewrite Forall_forall in Hn. apply Hn in Hq. rewrite Forall_forall in Hq.
    by apply (Hq p Hp Hnone); [by rewrite E|].
  - eapply Forall_impl; [exact Hfiles|]. intros f (q & Hq & Hsome & <-).
    rewrite Forall_forall in Hn. apply Hn in Hp. rewrite Forall_forall in Hp. by apply Hp.
Qed.

Lemma collected_add parts input p : collected parts input -> p ∈ parts -> collected parts (add_part input p).
Proof.
  intros [Hfields Hfiles] Hp. unfold add_part. destruct (part_file p) as [[filename media]|] eqn:E; split; cbn; try done.
  - apply Forall_app. split; [done|]. apply Forall_singleton. cbn. exists p. by rewrite E.
  - intros name. destruct (decide (part_name p = name)) as [<-|Hne]; [by exists p|].
    rewrite lookup_insert_ne by done. apply Hfields.
Qed.

Lemma parts_loop_printed all limits marker :
  marker <> [] -> CR ∉ marker -> x0a ∉ marker -> names_apart all ->
  forall parts fuel pre d count input,
  Forall part_ok parts -> Forall (part_fits limits marker) parts -> (forall p, p ∈ parts -> p ∈ all) ->
  collected all input -> (length parts < fuel)%nat -> count + Z.of_nat (length parts) <= max_parts limits ->
  last_ d = no_parts parts -> next d = size pre ->
  parts_loop fuel limits (pre ++ form_rest marker parts) marker d count input = Ok (fold_left add_part parts input).
Proof.
  intros Hm Hc Hl Hnames. induction parts as [|p parts IH];
    intros fuel pre d count input Hok Hfit Hall Hcol Hfuel Hmax Hlast Hnext;
    (destruct fuel as [|fuel]; [cbn in Hfuel; lia|]); cbn [parts_loop no_parts] in *; rewrite Hlast; [done|].
  rewrite (proj2 (Z.ltb_ge _ _)) by (cbn in Hmax; lia).
  apply Forall_cons in Hok as [Hp Hok], Hfit as [Hpf Hfit]. rewrite Hnext. cbn [form_rest].
  rewrite form_text_rest.
  destruct (parse_part_printed limits marker p input pre (no_parts parts) (form_rest marker parts)) as [at_ Epart]; try done.
  { eapply collected_free; [done..|]. apply Hall. left. }
  assert (pre ++ print_part p ++ marker ++ marker_end (no_parts parts) ++ crlf ++ form_rest marker parts =
    (pre ++ print_part p ++ marker ++ marker_end (no_parts parts) ++ crlf) ++ form_rest marker parts) as ->
    by (by rewrite <-!app_assoc).
  rewrite Epart. cbn [mbind result_bind fold_left]. apply IH; try done.
  - intros q Hq. apply Hall. by right.
  - apply collected_add; [done|]. apply Hall. left.
  - cbn in Hfuel. lia.
  - cbn in Hmax. lia.
Qed.

Lemma form_text_length marker parts : (length parts <= length (form_text marker parts))%nat.
Proof.
  induction parts as [|p parts IH]; cbn [form_text length]; [lia|]. rewrite !length_app, length_crlf. lia.
Qed.

(** ** The properties *)

Definition boundary_type (boundary : bytes) : bytes := lit "multipart/form-data; boundary=" ++ quote boundary.

Lemma valid_boundary_chars boundary : valid_boundary boundary = true ->
  boundary <> [] /\ forallb boundary_char boundary = true.
Proof.
  unfold valid_boundary. destruct (last boundary) eqn:E; [|done]. intros H. reflect_bools. split; [by intros ->|done].
Qed.

Lemma boundary_char_plain c : boundary_char c = true -> quotable_char c = true /\ c <> CR /\ c <> x0a.
Proof.
  intros H. assert (implb (boundary_char c) (quotable_char c && negb (c =b? CR) && negb (c =b? x0a)) = true) as Hb
    by (clear; by_bytes).
  rewrite H in Hb. cbn [implb] in Hb. reflect_bools. split_and!; [done|by intros ->..].
Qed.

Lemma marker_plain boundary : valid_boundary boundary = true ->
  (CR ∉ lit "--" ++ boundary) /\ (x0a ∉ lit "--" ++ boundary).
Proof.
  intros [_ Hb]%valid_boundary_chars. rewrite forallb_forall in Hb.
  split; apply not_elem_of_app; (split; [by_decide|]); intros Hin;
    apply list_elem_of_In, Hb, boundary_char_plain in Hin; naive_solver.
Qed.

Lemma parameters_boundary boundary : valid_boundary boundary = true ->
  parameters (boundary_type boundary) = Ok (mkParameters (lit "multipart/form-data") (<[lit "boundary" := boundary]> ∅)).
Proof.
  intros Hb. unfold parameters, boundary_type.
  change (lit "multipart/form-data; boundary=" ++ ?x) with
    (lit "multipart/form-data" ++ ";"%byte :: lit " " ++ lit "boundary" ++ lit "=" ++ x).
  rewrite until_app by by_decide. rewrite <-(app_nil_r (quote boundary)).
  rewrite parameters_quoted; try done; [|by_decide|by left|lia].
  apply valid_boundary_chars in Hb as [_ Hb]. eapply forallb_impl; [|exact Hb]. intros c. by_bytes.
Qed.

(** Every multipart body is decided, whatever its bytes, its boundary and the configured limits: the parser
    returns the fields and files or raises the HTTP errors 400 or 413, never leaves the bounds of the body (which
    would raise [out_of_range]), and always ends. *)
Theorem multipart_total content_type body limits :
  match parse_multipart content_type body limits with
  | Ok _ => True
  | Throw e => is_rejection e = true
  | NoFuel => False
  end.
Proof.
  pose proof (parse_multipart_decided content_type body limits) as H.
  by destruct (parse_multipart content_type body limits).
Qed.

(** C21. A form printed by a client is read back exactly: the last value of each field, and the files in order,
    byte for byte, for every boundary that no line of a content starts with (markers inside a line are kept as
    content), within the limits. *)
Theorem multipart_roundtrip boundary parts limits :
  valid_boundary boundary = true -> Forall part_ok parts -> names_apart parts ->
  Forall (part_fits limits (lit "--" ++ boundary)) parts ->
  Z.of_nat (length parts) <= max_parts limits ->
  size (form_text (lit "--" ++ boundary) parts) <= body_bytes limits ->
  parse_multipart (boundary_type boundary) (form_text (lit "--" ++ boundary) parts) limits =
  Ok (fold_left add_part parts (mkInput ∅ [])).
Proof.
  intros Hb Hok Hnames Hfit Hmax Hbody. unfold parse_multipart. rewrite (proj2 (Z.ltb_ge _ _)) by done.
  rewrite parameters_boundary by done. cbn [mbind result_bind type_ values_]. rewrite lookup_insert_eq.
  rewrite bool_decide_eq_true_2, Hb by done. cbn [negb orb]. apply marker_plain in Hb as [Hc Hl].
  set (marker := lit "--" ++ boundary) in *.
  assert (marker <> []) as Hm by done. rewrite form_text_rest in *.
  rewrite (delimiter_here _ _ marker 0 [] [] (form_rest marker parts) (no_parts parts)); try done; [|apply find_here|by left].
  cbn [mbind result_bind]. cbn [app].
  pose proof (form_text_length marker parts) as Hlen. rewrite form_text_rest in Hlen.
  assert (marker ++ marker_end (no_parts parts) ++ crlf ++ form_rest marker parts =
    (marker ++ marker_end (no_parts parts) ++ crlf) ++ form_rest marker parts) as Eb by (by rewrite <-!app_assoc).
  rewrite Eb in *. apply (parts_loop_printed parts); try done; [split; cbn|lia].
  - intros name. by rewrite lookup_empty; intros [? ?].
  - apply Forall_nil_2.
Qed.

Definition sample_form : list Part :=
  [mkPart (lit "title") None (lit "a --b c"); mkPart (lit "docs[]") (Some (lit "x.txt", lit "text/plain")) (lit "hi");
   mkPart (lit "docs[]") (Some (lit "y.bin", lit "application/octet-stream")) []].

Lemma multipart_roundtrip_witness :
  parse_multipart (boundary_type (lit "b")) (form_text (lit "--b") sample_form) default_limits =
  Ok (mkInput {[lit "title" := lit "a --b c"]}
        [mkFile (lit "docs[]") (lit "x.txt") (lit "text/plain") (lit "hi");
         mkFile (lit "docs[]") (lit "y.bin") (lit "application/octet-stream") []]).
Proof.
  apply (multipart_roundtrip (lit "b") sample_form default_limits).
  - reflexivity.
  - repeat apply Forall_cons_2; [| | |apply Forall_nil_2]; constructor; cbn; try (split_and!; done); repeat split; try done;
      [exists (lit "text"), (lit "plain")|exists (lit "application"), (lit "octet-stream")]; by split_and!.
  - repeat (apply Forall_cons_2 || apply Forall_nil_2); by intros.
  - repeat apply Forall_cons_2; [| | |apply Forall_nil_2]; constructor; vm_compute; done.
  - by vm_compute.
  - by vm_compute.
Defined.
