(* ===== verification/SteadyClock.v ===== *)
(** * Lifetimes on the steady clock

    Rate limits, cache entries and cache locks refuse lifetimes that would end after
    the last instant of [std::chrono::steady_clock].  They compare in [long double],
    whose precision is up to the compiler: the largest accepted number of seconds or
    milliseconds at an instant is a parameter, and [LawfulLongDouble] says that it is
    right up to two units. *)

From S2P Require Import Prelude.

Class LongDouble := {
  (** The largest integer that is at most [remaining.count() - 1.0L]. *)
  most_seconds : Z -> Z;
  most_milliseconds : Z -> Z
}.

Definition ns_second : Z := 1000000000.
Definition ns_millisecond : Z := 1000000.

Class LawfulLongDouble `{LongDouble} : Prop := {
  most_seconds_law now : 0 <= now <= INT64_MAX ->
    (INT64_MAX - now) / ns_second - 2 <= most_seconds now <= (INT64_MAX - now) / ns_second;
  most_milliseconds_law now : 0 <= now <= INT64_MAX ->
    (INT64_MAX - now) / ns_millisecond - 2 <= most_milliseconds now <= (INT64_MAX - now) / ns_millisecond
}.

(** Arithmetic without rounding. *)
Definition exact_double : LongDouble := {|
  most_seconds now := (INT64_MAX - now) / ns_second - 1;
  most_milliseconds now := (INT64_MAX - now) / ns_millisecond - 1
|}.

Lemma exact_double_lawful : @LawfulLongDouble exact_double.
Proof. split; intros now Hn; cbn; lia. Qed.

(** [time_point + seconds] in nanoseconds of [int64_t]. *)
Definition plus_s (start delay : Z) : result Z :=
  if (INT64_MAX <? delay * ns_second) || (INT64_MAX <? start + delay * ns_second)
  then Throw (undefined "signed overflow in time_point + duration")
  else Ok (start + delay * ns_second).

Lemma plus_s_Ok start delay : 0 <= start -> start + delay * ns_second <= INT64_MAX ->
  plus_s start delay = Ok (start + delay * ns_second).
Proof. intros Hs Hd. unfold plus_s. by rewrite !(proj2 (Z.ltb_ge _ _)) by lia. Qed.

(** An accepted number of seconds ends on the clock. *)
Lemma seconds_fit `{LawfulLongDouble} now s :
  0 <= now <= INT64_MAX -> s <= most_seconds now -> now + s * ns_second <= INT64_MAX.
Proof.
  intros Hn Hs. pose proof (most_seconds_law now Hn) as [_ Hm].
  pose proof (Z.mul_div_le (INT64_MAX - now) ns_second ltac:(done)). unfold ns_second in *. lia.
Qed.

Lemma milliseconds_fit `{LawfulLongDouble} now s :
  0 <= now <= INT64_MAX -> s <= most_milliseconds now -> now + s * ns_millisecond <= INT64_MAX.
Proof.
  intros Hn Hs. pose proof (most_milliseconds_law now Hn) as [_ Hm].
  pose proof (Z.mul_div_le (INT64_MAX - now) ns_millisecond ltac:(done)). unfold ns_millisecond in *. lia.
Qed.
