(* ===== verification/RateLimit.v ===== *)
(** * Rate limits ([include/gungnir/http/rate_limit.hpp])

    A client has a bucket that counts its requests in a window of fixed length, which
    starts with its first request.  The store holds a bounded number of buckets.

    Rate limits: how many requests pass, and when a client may come back *)

From S2P Require Import Prelude SteadyClock.

Record RateLimitDecision := mkDecision { allowed : bool; remaining : Z; retry_after : Z }.

Definition max_exact_integer : Z := 9007199254740991.

Definition validate_rate_limit `{LongDouble} (now requests window : Z) : result unit :=
  if (requests =? 0) || (max_exact_integer <? requests) || (window <=? 0) ||
     (max_exact_integer / 1000 <? window) || (most_seconds now <? window)
  then Throw (invalid_argument "Rate limit values are out of range")
  else Ok ().

Class RateLimitStore (S : Type) :=
  consume : Z -> bytes -> Z -> Z -> S -> result RateLimitDecision * S.

(** ** The in-memory store *)

Record Bucket := mkBucket { count : Z; reset : Z }.

Record MemoryRateLimitStore := mkRates { max_clients_ : Z; buckets_ : gmap bytes Bucket }.

Definition make_rates (max_clients : Z) : result MemoryRateLimitStore :=
  if max_clients =? 0 then Throw (invalid_argument "Rate limit client capacity must be positive")
  else Ok (mkRates max_clients ∅).

Definition live (now : Z) (kb : bytes * Bucket) : Prop := now < reset kb.2.

#[export] Instance live_dec now kb : Decision (live now kb).
Proof. unfold live. apply _. Defined.

(** [std::erase_if] of the buckets whose window has passed. *)
Definition erase_expired (now : Z) (buckets : gmap bytes Bucket) : gmap bytes Bucket :=
  filter (live now) buckets.

Definition full (max_clients : Z) (buckets : gmap bytes Bucket) : bool :=
  max_clients <=? Z.of_nat (size buckets).

Definition unknown (key : bytes) (buckets : gmap bytes Bucket) : bool :=
  match buckets !! key with None => true | Some _ => false end.

(** The bucket counted into: a new window when the last one has passed. *)
Definition current_bucket (now window : Z) (bucket : Bucket) : result Bucket :=
  if reset bucket <=? now then expiry ← plus_s now window; Ok (mkBucket 0 expiry) else Ok bucket.

Definition ceil_seconds (ns : Z) : Z := - (- ns / ns_second).

(** The clock is read when the values are validated and again under the mutex; both
    readings are one instant here. *)
Definition memory_consume `{LongDouble} (now : Z) (key : bytes) (requests window : Z)
    (s : MemoryRateLimitStore) : result RateLimitDecision * MemoryRateLimitStore :=
  match validate_rate_limit now requests window with
  | Throw e => (Throw e, s)
  | NoFuel => (NoFuel, s)
  | Ok _ =>
      match key with
      | [] => (Throw (invalid_argument "Rate limit key cannot be empty"), s)
      | _ =>
          let max := max_clients_ s in
          let buckets :=
            if unknown key (buckets_ s) && full max (buckets_ s)
            then erase_expired now (buckets_ s) else buckets_ s in
          if unknown key buckets && full max buckets
          then (Ok (mkDecision false 0 window), mkRates max buckets)
          else
            match current_bucket now window (default (mkBucket 0 0) (buckets !! key)) with
            | Ok bucket =>
                let allowed := count bucket <? requests in
                let bucket := mkBucket (if allowed then count bucket + 1 else count bucket) (reset bucket) in
                (Ok (mkDecision allowed
                       (if requests <=? count bucket then 0 else requests - count bucket)
                       (ceil_seconds (reset bucket - now))),
                 mkRates max (<[key := bucket]> buckets))
            | Throw e => (Throw e, mkRates max (<[key := default (mkBucket 0 0) (buckets !! key)]> buckets))
            | NoFuel => (NoFuel, s)
            end
      end
  end.

#[export] Instance memory_rate_limits `{LongDouble} : RateLimitStore MemoryRateLimitStore := memory_consume.

(** ** Windows

    [windows n W e log]: the times of [log] fall into windows of length [W] that do not
    overlap and end by [e], at most [n] in each. *)
Inductive windows (n W : Z) : Z -> list Z -> Prop :=
| no_window e : windows n W e []
| add_window start e older cur :
    windows n W start older -> start + W <= e ->
    Forall (fun x => start <= x < start + W) cur -> Z.of_nat (length cur) <= n ->
    windows n W e (older ++ cur).

(** The times in an interval. *)
Definition within (a b : Z) (log : list Z) : Z := Z.of_nat (length (filter (fun x => a <= x < b) log)).

Lemma within_app a b l l' : within a b (l ++ l') = within a b l + within a b l'.
Proof. unfold within. rewrite filter_app, length_app. lia. Qed.

Lemma within_le a b l : 0 <= within a b l <= Z.of_nat (length l).
Proof. unfold within. pose proof (length_filter (fun x => a <= x < b) l). lia. Qed.

Lemma within_none a b l : Forall (fun x => x < a \/ b <= x) l -> within a b l = 0.
Proof.
  intros Hl. unfold within. induction Hl as [|x l Hx Hl IH]; [done|].
  rewrite filter_cons_False by lia. done.
Qed.

Lemma windows_before n W e log : 0 <= W -> windows n W e log -> Forall (fun x => x < e) log.
Proof.
  intros HW. induction 1 as [|start e older cur _ IH He Hc _]; [done|]. apply Forall_app. split.
  - eapply Forall_impl; [exact IH|]. cbn. lia.
  - eapply Forall_impl; [exact Hc|]. cbn. lia.
Qed.

(** An interval that starts no earlier than the last window holds one window's times. *)
Lemma windows_last n W start older cur a b :
  0 <= W -> windows n W start older -> start <= a -> Z.of_nat (length cur) <= n ->
  within a b (older ++ cur) <= n.
Proof.
  intros HW Ho Ha Hn. rewrite within_app, (within_none a b older).
  - pose proof (within_le a b cur). lia.
  - eapply Forall_impl; [by eapply windows_before|]. cbn. lia.
Qed.

(** An interval as long as a window meets at most two windows. *)
Lemma windows_twice n W e log a : 0 <= W -> 0 <= n -> windows n W e log -> within a (a + W) log <= 2 * n.
Proof.
  intros HW Hn. induction 1 as [|start e older cur Hw IH He Hc Hlen]; [rewrite within_none by done; lia|].
  destruct (decide (start <= a)) as [Hs|Hs].
  { pose proof (windows_last n W start older cur a (a + W) HW Hw Hs Hlen). lia. }
  rewrite within_app. destruct (decide (a + W <= start)) as [Hs'|Hs'].
  - rewrite (within_none a (a + W) cur); [lia|]. eapply Forall_impl; [exact Hc|]. cbn. lia.
  - assert (within a (a + W) older <= n) as Ho.
    { destruct Hw as [|start2 e2 older2 cur2 Hw2 He2 Hc2 Hlen2]; [rewrite within_none by done; lia|].
      apply (windows_last n W start2); [done..|lia|done]. }
    pose proof (within_le a (a + W) cur). lia.
Qed.

(** ** One client of the store *)

Section Client.
Context `{LawfulLongDouble}.
Variables (k : bytes) (n w : Z).
Hypotheses (Hn : 0 <= n) (Hpos : 0 < w).

(** A call: when, for which client, with which limit. *)
Record Call := mkCall { at_ : Z; client : bytes; limit : Z; seconds : Z }.

Definition call (c : Call) (s : MemoryRateLimitStore) : result RateLimitDecision * MemoryRateLimitStore :=
  memory_consume (at_ c) (client c) (limit c) (seconds c) s.

Definition passes (r : result RateLimitDecision) : bool :=
  match r with Ok d => allowed d | _ => false end.

(** The times at which the client [k] was let through. *)
Fixpoint admitted (calls : list Call) (s : MemoryRateLimitStore) : list Z :=
  match calls with
  | [] => []
  | c :: calls =>
      let '(r, s') := call c s in
      (if bool_decide (client c = k) && passes r then [at_ c] else []) ++ admitted calls s'
  end.

(** The calls are in the order of time, and those of [k] have its limit. *)
Fixpoint timely (t : Z) (calls : list Call) : Prop :=
  match calls with
  | [] => True
  | c :: calls =>
      t <= at_ c <= INT64_MAX /\ (client c = k -> limit c = n /\ seconds c = w) /\ timely (at_ c) calls
  end.

Definition W : Z := w * ns_second.

(** What the store knows about [k] at [t]: the count and the end of its last window. *)
Record tracks (t : Z) (log : list Z) (s : MemoryRateLimitStore) : Prop := {
  last_window : exists start older cur,
    log = older ++ cur /\ windows n W start older /\ start <= t /\
    Forall (fun x => start <= x < start + W) cur /\ Z.of_nat (length cur) <= n /\
    match buckets_ s !! k with
    | Some b => reset b = start + W /\ count b = Z.of_nat (length cur)
    | None => start + W <= t
    end
}.

Lemma erase_lookup now buckets key :
  erase_expired now buckets !! key =
  match buckets !! key with Some b => if decide (now < reset b) then Some b else None | None => None end.
Proof.
  unfold erase_expired. rewrite map_lookup_filter. destruct (buckets !! key) as [b|]; [|done]. cbn.
  unfold live. cbn. destruct (decide (now < reset b)); [by rewrite option_guard_True|by rewrite option_guard_False].
Qed.

(** Forgetting expired buckets keeps what matters. *)
Lemma tracks_erase t t' log s : t <= t' -> tracks t log s ->
  tracks t' log (mkRates (max_clients_ s) (erase_expired t' (buckets_ s))).
Proof.
  intros Ht [(start & older & cur & -> & Hw & Hs & Hc & Hl & Hb)]. constructor.
  exists start, older, cur. split_and!; [done..|lia|done|done|]. cbn. rewrite erase_lookup.
  destruct (buckets_ s !! k) as [b|]; [|lia]. destruct (decide _); [done|lia].
Qed.

Lemma tracks_later t t' log s : t <= t' -> tracks t log s -> tracks t' log s.
Proof.
  intros Ht [(start & older & cur & -> & Hw & Hs & Hc & Hl & Hb)]. constructor.
  exists start, older, cur. split_and!; [done..|lia|done|done|].
  destruct (buckets_ s !! k); [done|lia].
Qed.

Lemma tracks_other t log s m key b : key <> k -> tracks t log s ->
  tracks t log (mkRates m (<[key := b]> (buckets_ s))).
Proof.
  intros Hk [(start & older & cur & -> & Hw & Hs & Hc & Hl & Hb)]. constructor.
  exists start, older, cur. cbn. by rewrite lookup_insert_ne.
Qed.
(** Counting a request of [k] into its bucket. *)
Lemma tracks_count t log s b : 0 <= t -> tracks t log s -> 1 <= n ->
  current_bucket t w (default (mkBucket 0 0) (buckets_ s !! k)) = Ok b ->
  let allowed := count b <? n in
  tracks t (log ++ if allowed then [t] else [])
    (mkRates (max_clients_ s) (<[k := mkBucket (if allowed then count b + 1 else count b) (reset b)]> (buckets_ s))).
Proof.
  intros Ht [(start & older & cur & -> & Hwin & Hs & Hc & Hl & Hb)] Hn1 Eb allowed.
  assert (0 < W) as HW by (unfold W, ns_second; lia).
  assert ((b = mkBucket 0 (t + W) /\ start + W <= t) \/ (reset b = start + W /\ t < reset b /\ count b = Z.of_nat (length cur)))
    as [[-> Hnew]|(Hr & Hlive & Hcount)].
  { unfold current_bucket, plus_s in Eb. fold W in Eb. destruct (buckets_ s !! k) as [b0|]; cbn in Eb.
    - destruct (Z.leb_spec (reset b0) t).
      + destruct (_ || _); [done|]. injection Eb as <-. left. split; [done|lia].
      + injection Eb as <-. right. lia.
    - rewrite (proj2 (Z.leb_le 0 t)) in Eb by done. destruct (_ || _); [done|]. injection Eb as <-. by left. }
  - constructor. cbn in allowed. exists t, (older ++ cur), (if allowed then [t] else []). subst allowed.
    rewrite (proj2 (Z.ltb_lt 0 n)) by lia. split_and!; [done|by eapply add_window|lia| |cbn; lia|].
    + apply Forall_singleton. lia.
    + cbn. rewrite lookup_insert_eq. cbn. lia.
  - constructor. exists start, older, (cur ++ if allowed then [t] else []). subst allowed.
    split_and!; [by rewrite app_assoc|done|lia| | |].
    + apply Forall_app. split; [done|]. destruct (_ <? _); [|done]. apply Forall_singleton. lia.
    + rewrite length_app. destruct (Z.ltb_spec (count b) n); cbn; lia.
    + cbn. rewrite lookup_insert_eq, length_app. cbn. destruct (Z.ltb_spec (count b) n); cbn; lia.
Qed.

Lemma validate_limit now req win u : validate_rate_limit now req win = Ok u ->
  req <> 0 /\ 0 < win /\ win <= most_seconds now.
Proof.
  unfold validate_rate_limit. destruct (_ || _) eqn:E; [done|]. intros _. reflect_bools. lia.
Qed.

Lemma call_tracks t log s c r s' : tracks t log s -> 0 <= t -> t <= at_ c <= INT64_MAX ->
  (client c = k -> limit c = n /\ seconds c = w) -> call c s = (r, s') ->
  tracks (at_ c) (log ++ if bool_decide (client c = k) && passes r then [at_ c] else []) s'.
Proof.
  destruct c as [t' key req win]. cbn. intros Htr Ht Ht' Hlim. unfold call, memory_consume. cbn.
  destruct (validate_rate_limit t' req win) as [u|e|] eqn:Ev;
    [|intros [= <- <-]; rewrite andb_false_r, app_nil_r; (apply (tracks_later t); [lia|done])..].
  apply validate_limit in Ev as (Hreq & Hwin & Hmost).
  destruct key as [|k0 key0] eqn:Ekey; [intros [= <- <-]; rewrite andb_false_r, app_nil_r; apply (tracks_later t); [lia|done]|].
  rewrite <-Ekey in *. clear Ekey k0 key0.
  set (buckets := if _ && _ then erase_expired t' (buckets_ s) else _).
  assert (tracks t' log (mkRates (max_clients_ s) buckets)) as Htr'.
  { unfold buckets. destruct (_ && _); [apply (tracks_erase t); [lia|done]|]. destruct s. apply (tracks_later t); [lia|done]. }
  clearbody buckets.
  destruct (unknown key buckets && full (max_clients_ s) buckets) eqn:Efull; [intros [= <- <-]; by rewrite andb_false_r, app_nil_r|].
  destruct (current_bucket _ _ _) as [b|e|] eqn:Eb; [|exfalso; revert Eb; unfold current_bucket; rewrite plus_s_Ok;
    [by destruct (_ <=? _)|lia|apply seconds_fit; lia]..].
  intros [= <- <-]. cbn [passes allowed]. destruct (bool_decide (key = k)) eqn:Ekey; reflect_bools.
  - subst key. destruct (Hlim eq_refl) as [-> ->]. cbn [andb].
    apply (tracks_count t' log (mkRates (max_clients_ s) buckets) b); [lia|done|lia|done].
  - cbn [andb]. rewrite app_nil_r. by apply (tracks_other t' log (mkRates (max_clients_ s) buckets)).
Qed.

Lemma calls_track t log s calls : tracks t log s -> 0 <= t -> timely t calls ->
  exists e, windows n W e (log ++ admitted calls s).
Proof.
  revert t log s. induction calls as [|c calls IH]; intros t log s Htr Ht Hc; cbn.
  - destruct Htr as [(start & older & cur & -> & Hwin & _ & Hcur & Hl & _)]. exists (start + W). rewrite app_nil_r.
    by eapply add_window.
  - destruct Hc as (Htime & Hlim & Hc). destruct (call c s) as [r s'] eqn:E.
    rewrite app_assoc. eapply IH; [by eapply call_tracks|lia|done].
Qed.

Lemma empty_tracks max : tracks 0 [] (mkRates max ∅).
Proof.
  constructor. exists (- W), [], []. assert (0 < W) by (unfold W, ns_second; lia).
  split_and!; [done|apply no_window|lia|done|cbn; lia|cbn; rewrite lookup_empty; lia].
Qed.

(** ** When a client may come back *)

(** The window of [k] ends at [e], or its bucket was forgotten after that. *)
Definition ends (e t : Z) (s : MemoryRateLimitStore) : Prop :=
  match buckets_ s !! k with Some b => reset b = e | None => e <= t end.

(** Calls of others leave the window of [k] alone. *)
Lemma call_ends e t s c r s' : ends e t s -> t <= at_ c -> client c <> k -> call c s = (r, s') -> ends e (at_ c) s'.
Proof.
  intros He Ht Hk. destruct c as [t' key req win]. cbn in *. unfold call, memory_consume. cbn.
  assert (ends e t' s) as Hs by (unfold ends in *; destruct (buckets_ s !! k); lia).
  destruct (validate_rate_limit _ _ _) as [u|ex|]; [|by intros [= <- <-]..].
  destruct key as [|k0 key0] eqn:Ekey; [by intros [= <- <-]|]. rewrite <-Ekey in *. clear Ekey k0 key0.
  set (buckets := if _ && _ then erase_expired t' (buckets_ s) else _).
  assert (ends e t' (mkRates (max_clients_ s) buckets)) as Hb.
  { unfold buckets. destruct (_ && _); [|by destruct s]. unfold ends in *. cbn. rewrite erase_lookup.
    destruct (buckets_ s !! k) as [b|]; [|lia]. destruct (decide _); lia. }
  clearbody buckets. destruct (unknown key buckets && full (max_clients_ s) buckets); [by intros [= <- <-]|].
  assert (forall b, ends e t' (mkRates (max_clients_ s) (<[key := b]> buckets))) as Hi.
  { intros b. unfold ends in *. cbn in *. by rewrite lookup_insert_ne. }
  destruct (current_bucket _ _ _); intros [= <- <-]; apply Hi || done.
Qed.

Fixpoint after_calls (calls : list Call) (s : MemoryRateLimitStore) : MemoryRateLimitStore :=
  match calls with [] => s | c :: calls => after_calls calls (call c s).2 end.

Lemma calls_end e t s calls last : ends e t s -> timely t calls -> Forall (fun c => client c <> k /\ at_ c <= last) calls ->
  t <= last -> ends e last (after_calls calls s).
Proof.
  revert t s. induction calls as [|c calls IH]; intros t s He Hc Ho Hl; cbn.
  - unfold ends in *. destruct (buckets_ s !! k); lia.
  - destruct Hc as (Ht & _ & Hc). apply Forall_cons in Ho as [[Hk Hlast] Ho].
    destruct (call c s) as [r s'] eqn:E. cbn. eapply IH; [|done..]. eapply call_ends; [done|lia|done..].
Qed.

(** A call of [k] at the end of its window passes, if there is room for it. *)
Lemma call_passes e t s : ends e t s -> e <= t -> 0 <= t <= INT64_MAX -> k <> [] -> is_ok (validate_rate_limit t n w) = true ->
  full (max_clients_ s) (erase_expired t (buckets_ s)) = false ->
  exists d s', call (mkCall t k n w) s = (Ok d, s') /\ allowed d = true.
Proof.
  intros He Het Ht Hk Hv Hfull. unfold call, memory_consume. cbn.
  destruct (validate_rate_limit t n w) as [u|ex|] eqn:Ev; [|done..]. apply validate_limit in Ev as (Hreq & _ & Hmost).
  destruct k as [|k0 key0] eqn:Ekey; [done|]. rewrite <-Ekey in *. clear Ekey k0 key0.
  assert (plus_s t w = Ok (t + w * ns_second)) as Ep by (apply plus_s_Ok; [lia|by apply seconds_fit]).
  set (buckets := if _ && _ then erase_expired t (buckets_ s) else _).
  assert (unknown k buckets && full (max_clients_ s) buckets = false) as ->.
  { unfold buckets. destruct (_ && _) eqn:E; [by rewrite Hfull, andb_false_r|done]. }
  assert (reset (default (mkBucket 0 0) (buckets !! k)) <= t) as Hr.
  { assert (match buckets !! k with Some b => reset b <= t | None => True end) as Hb.
    { unfold ends, buckets in *. destruct (_ && _); [rewrite erase_lookup|]; destruct (buckets_ s !! k); try done; [|lia].
      destruct (decide _); [lia|done]. }
    destruct (buckets !! k); cbn; [done|lia]. }
  unfold current_bucket. rewrite (proj2 (Z.leb_le _ _)) by done. rewrite Ep. cbn.
  eexists _, _. split; [done|]. cbn. apply Z.ltb_lt. lia.
Qed.
End Client.

(** ** Theorems *)

(** C36. A rate limit holds.  In every history of a store of any capacity, whoever else calls it and however often
    expired buckets are swept, the calls of a client that pass fall into disjoint windows of the configured length
    with at most the configured number each; so no interval as long as the window sees more than twice that
    number pass. *)
Theorem rate_limit_enforced `{LawfulLongDouble} k n w max calls :
  0 <= n -> 0 < w -> timely k n w 0 calls ->
  (exists e, windows n (w * ns_second) e (admitted k calls (mkRates max ∅))) /\
  forall a, within a (a + w * ns_second) (admitted k calls (mkRates max ∅)) <= 2 * n.
Proof.
  intros Hn Hw Hc. destruct (calls_track k n w Hn Hw 0 [] (mkRates max ∅) calls) as [e He]; try done.
  { by apply empty_tracks. }
  split; [by exists e|]. intros a. apply (windows_twice n (w * ns_second) e); [unfold ns_second; lia|done..].
Qed.

Definition sample_calls : list Call :=
  [mkCall 0 (lit "a") 2 1; mkCall 900000000 (lit "a") 2 1; mkCall 999999999 (lit "b") 1 5;
   mkCall 1000000000 (lit "a") 2 1; mkCall 1000000001 (lit "a") 2 1; mkCall 1000000002 (lit "a") 2 1].

#[export] Existing Instance exact_double_lawful.

Lemma rate_limit_enforced_witness :
  within 900000000 1900000000 (admitted (H := exact_double) (lit "a") sample_calls (mkRates 10 ∅)) <= 2 * 2 /\
  admitted (H := exact_double) (lit "a") sample_calls (mkRates 10 ∅) = [0; 900000000; 1000000000; 1000000001].
Proof.
  split; [|vm_compute; reflexivity].
  apply (rate_limit_enforced (H := exact_double) (lit "a") 2 1 10 sample_calls); [lia|lia|].
  repeat split; try lia; by intros.
Defined.

(** [retry_after] is honest.  A client that is refused because its window is used up, and that waits for the
    announced number of seconds, is let through, whatever other clients do meanwhile, unless the store is full of
    clients whose windows are still open. *)
Theorem retry_after_honest `{LawfulLongDouble} k n w t s d s' others t' :
  0 <= n -> 0 < w -> k <> [] -> 0 <= t -> is_Some (buckets_ s !! k) ->
  call (mkCall t k n w) s = (Ok d, s') -> allowed d = false ->
  timely k n w t others -> Forall (fun c => client c <> k /\ at_ c <= t') others ->
  t + retry_after d * ns_second <= t' <= INT64_MAX -> is_ok (validate_rate_limit t' n w) = true ->
  let s'' := after_calls others s' in
  full (max_clients_ s'') (erase_expired t' (buckets_ s'')) = false ->
  exists d' s3, call (mkCall t' k n w) s'' = (Ok d', s3) /\ allowed d' = true.
Proof.
  intros Hn Hw Hk Ht [b0 Hb0] E Hd Hothers Hfor Ht' Hv s'' Hfull.
  enough (exists e, ends k e t s' /\ t < e <= t + retry_after d * ns_second) as (e & He & Hlt).
  { apply (call_passes k n w Hn e); try done; [|lia|lia]. eapply calls_end; [exact He|done|done|lia]. }
  revert E. unfold call, memory_consume. cbn.
  destruct (validate_rate_limit t n w) as [u|ex|] eqn:Ev; [|done..]. apply validate_limit in Ev as (Hreq & _).
  destruct k as [|k0 key0] eqn:Ekey; [done|]. rewrite <-Ekey in *. clear Ekey k0 key0.
  unfold unknown at 1 2. rewrite Hb0. cbn [andb]. unfold unknown. rewrite Hb0. cbn [andb default].
  rewrite Hb0. change (default _ (Some b0)) with b0. destruct (current_bucket t w b0) as [b|ex|] eqn:Eb; [|done..]. intros [= <- <-]. cbn in Hd. cbn [retry_after reset].
  rewrite Hd. cbn in *. apply Z.ltb_ge in Hd.
  assert (b = b0 /\ t < reset b0) as [-> Hlive].
  { unfold current_bucket in Eb. destruct (Z.leb_spec (reset b0) t); [|by injection Eb].
    destruct (plus_s t w); [|done..]. injection Eb as <-. cbn in Hd. lia. }
  exists (reset b0). unfold ends. cbn. rewrite lookup_insert_eq. cbn. split; [done|].
  unfold ceil_seconds, ns_second. pose proof (Z.mul_div_le (- (reset b0 - t)) 1000000000 ltac:(lia)). lia.
Qed.

Definition sample_rates : MemoryRateLimitStore := mkRates 10 {[lit "a" := mkBucket 2 1500000000]}.

Lemma retry_after_honest_witness :
  exists d' s3, call (H := exact_double) (mkCall 1600000000 (lit "a") 2 1)
    (after_calls (H := exact_double) [mkCall 700000000 (lit "b") 5 1]
      (call (H := exact_double) (mkCall 600000000 (lit "a") 2 1) sample_rates).2)
    = (Ok d', s3) /\ allowed d' = true.
Proof.
  apply (retry_after_honest (H := exact_double) (lit "a") 2 1 600000000 sample_rates (mkDecision false 0 1)
    (call (H := exact_double) (mkCall 600000000 (lit "a") 2 1) sample_rates).2); try done. by repeat constructor.
Defined.
