(* ===== verification/Cache.v ===== *)
(** * Cache ([include/gungnir/cache])

    A store keeps values with an optional end of life: the virtual class is the type
    class [Store], [MemoryStore] the in-memory store.  [Repository] adds computed
    values, under a lock when asked, and [Values] JSON on top of it. *)

From S2P Require Import Prelude SteadyClock Lock Json.

(** ** Stores *)

(** Operations take the reading of the steady clock. *)
Class Store (S : Type) := {
  store_get : Z -> bytes -> S -> result (option bytes) * S;
  store_put : Z -> bytes -> bytes -> option Z -> S -> result unit * S;
  store_forget : bytes -> S -> result bool * S;
  store_flush : S -> result unit * S
}.

Definition store_has {S} `{Store S} (now : Z) (k : bytes) (s : S) : result bool * S :=
  let '(r, s) := store_get now k s in ((fun v => match v with Some _ => true | None => false end) <$> r, s).

Record CacheEntry := mkCacheEntry { cached : bytes; expiry : option Z }.

Abbreviation MemoryStore := (gmap bytes CacheEntry).

Definition expired (now : Z) (e : CacheEntry) : bool :=
  match expiry e with Some t => t <=? now | None => false end.

(** An expired entry is erased when it is read. *)
Definition memory_get (now : Z) (k : bytes) (values_ : MemoryStore) : result (option bytes) * MemoryStore :=
  match values_ !! k with
  | None => (Ok None, values_)
  | Some e => if expired now e then (Ok None, delete k values_) else (Ok (Some (cached e)), values_)
  end.

Definition memory_put (now : Z) (k value : bytes) (ttl : option Z) (values_ : MemoryStore)
    : result unit * MemoryStore :=
  match ttl with
  | None => (Ok (), <[k := mkCacheEntry value None]> values_)
  | Some ttl =>
      match plus_s now ttl with
      | Ok t => (Ok (), <[k := mkCacheEntry value (Some t)]> values_)
      | Throw e => (Throw e, values_)
      | NoFuel => (NoFuel, values_)
      end
  end.

Definition memory_forget (k : bytes) (values_ : MemoryStore) : result bool * MemoryStore :=
  (Ok (match values_ !! k with Some _ => true | None => false end), delete k values_).

Definition memory_flush (values_ : MemoryStore) : result unit * MemoryStore := (Ok (), ∅).

#[export] Instance memory_store : Store MemoryStore := {|
  store_get := memory_get; store_put := memory_put; store_forget := memory_forget; store_flush := memory_flush
|}.

(** ** Locks *)

(** The state a lock handle shares with its copies. *)
Record LockState := mkLockState { lock_key : bytes; lock_ttl : Z; lease : option LockLease }.

Definition lock_unavailable : exn := runtime_error "Cache lock is already held".
Definition lock_lost : exn := runtime_error "Cache lock lease expired or was lost".

Section Repository.
Context {S : Type} `{Store S} {L : Type} `{LockStore L} `{LongDouble}.

(** What a repository works on: the clock, with the time that passes before each of its
    next readings, the store, and the lock store if one is configured. *)
Record World := mkWorld { steady : Z; passing : list Z; store_ : S; locks : option L }.

Definition clock : eff World Z := fun w =>
  match passing w with
  | [] => (Ok (steady w), w)
  | d :: ds => let t := steady w + d in (Ok t, mkWorld t ds (store_ w) (locks w))
  end.

Definition with_store {A} (f : S -> result A * S) : eff World A := fun w =>
  let '(r, s) := f (store_ w) in (r, mkWorld (steady w) (passing w) s (locks w)).

Definition with_locks {A} (f : L -> result A * L) : eff World A := fun w =>
  match locks w with
  | None => (Throw (undefined "null lock store"), w)
  | Some l => let '(r, l) := f l in (r, mkWorld (steady w) (passing w) (store_ w) (Some l))
  end.

(** An operation of the store or of the lock store, at its reading of the clock. *)
Definition on_store {A} (f : Z -> S -> result A * S) : eff World A := t ← clock; with_store (f t).
Definition on_locks {A} (f : Z -> L -> result A * L) : eff World A := t ← clock; with_locks (f t).

(** [Lock::duration]. *)
Definition duration (milliseconds : Z) : eff World Z :=
  t ← clock;
  if (milliseconds <=? 0) || (most_milliseconds t <? milliseconds)
  then throw (invalid_argument "Cache lock lifetime is out of range") else mret milliseconds.

Definition make_lock (k : bytes) (ttl : Z) : eff World LockState :=
  ttl ← duration ttl;
  w ← Prelude.get;
  match locks w, k with
  | None, _ => throw (logic_error "Cache lock store is not configured")
  | Some _, [] => throw (invalid_argument "Cache lock key cannot be empty")
  | Some _, _ => mret (mkLockState k ttl None)
  end.

(** Operations on a lock handle act on its state and on the world. *)
Definition Locked (A : Type) : Type := eff (LockState * World) A.

Definition lift {A} (m : eff World A) : Locked A := fun '(l, w) => let '(r, w) := m w in (r, (l, w)).
Definition handle : Locked LockState := fun '(l, w) => (Ok l, (l, w)).
Definition set_lease (x : option LockLease) : Locked unit := fun '(l, w) =>
  (Ok (), (mkLockState (lock_key l) (lock_ttl l) x, w)).
Definition set_ttl (ttl : Z) : Locked unit := fun '(l, w) => (Ok (), (mkLockState (lock_key l) ttl (lease l), w)).

Definition lock_acquire : Locked bool :=
  l ← handle;
  match lease l with
  | Some _ => mret false
  | None =>
      x ← lift (on_locks (fun t => acquire t (lock_key l) (lock_ttl l)));
      set_lease x;;
      mret (match x with Some _ => true | None => false end)
  end.

Definition renew_unlocked (ttl : Z) : Locked bool :=
  l ← handle;
  match lease l with
  | None => mret false
  | Some x =>
      renewed ← lift (on_locks (fun t => renew t x ttl));
      if negb (renewed : bool) then set_lease None;; mret false
      else set_ttl ttl;; mret true
  end.

Definition lock_renew : Locked bool := l ← handle; renew_unlocked (lock_ttl l).

Definition lock_renew_for (milliseconds : Z) : Locked bool :=
  ttl ← lift (duration milliseconds); renew_unlocked ttl.

Definition lock_release : Locked bool :=
  l ← handle;
  match lease l with
  | None => mret false
  | Some x =>
      released ← lift (on_locks (fun t => release t x));
      set_lease None;;
      mret (released : bool)
  end.

(** The destructor of the last handle gives a lease back and swallows errors. *)
Definition destroy_lock (l : LockState) (w : World) : World :=
  match lease l with
  | None => w
  | Some x => (on_locks (fun t => release t x) w).2
  end.

(** A block with a lock as a local variable. *)
Definition with_lock {A} (l : LockState) (body : Locked A) : eff World A := fun w =>
  let '(r, (l, w)) := body (l, w) in (r, destroy_lock l w).

(** ** The repository *)

Definition repository_get (k : bytes) : eff World (option bytes) := on_store (fun t => store_get t k).
Definition repository_put (k value : bytes) (ttl : option Z) : eff World unit :=
  on_store (fun t => store_put t k value ttl).
Definition repository_has (k : bytes) : eff World bool :=
  v ← repository_get k; mret (match v with Some _ => true | None => false end).
Definition repository_forget (k : bytes) : eff World bool := on_store (fun _ => store_forget k).
Definition repository_flush : eff World unit := on_store (fun _ => store_flush).

Definition remember (k : bytes) (ttl : option Z) (factory : eff World bytes) : eff World bytes :=
  v ← repository_get k;
  match v with
  | Some v => mret v
  | None => value ← factory; repository_put k value ttl;; mret value
  end.

Definition remember_locked (k : bytes) (ttl : option Z) (lease_ttl : Z) (factory : eff World bytes) : eff World bytes :=
  l ← make_lock (lit "remember:" ++ k) lease_ttl;
  with_lock l (
    v ← lift (repository_get k);
    match v with
    | Some v => mret v
    | None =>
        acquired ← lock_acquire;
        if negb (acquired : bool) then throw lock_unavailable
        else
          v ← lift (repository_get k);
          match v with
          | Some v => mret v
          | None =>
              value ← lift factory;
              renewed ← lock_renew;
              if negb (renewed : bool) then throw lock_lost
              else
                lift (repository_put k value ttl);;
                released ← lock_release;
                if negb (released : bool) then throw lock_lost else mret value
          end
    end).

(** ** JSON values *)

Definition parsed (text : bytes) : eff World Json := fun w => (Json.parse text, w).

Definition expiration (seconds : option Z) : eff World (option Z) :=
  match seconds with
  | None => mret None
  | Some s =>
      t ← clock;
      if (s <? 0) || (most_seconds t <? s) then throw (invalid_argument "Cache lifetime is out of range")
      else mret (Some s)
  end.

Definition values_get (k : bytes) : eff World (option Json) :=
  v ← repository_get k;
  match v with Some v => j ← parsed v; mret (Some j) | None => mret None end.

Definition values_put (k : bytes) (value : Json) (seconds : option Z) : eff World unit :=
  ttl ← expiration seconds; repository_put k (dump value) ttl.

Definition values_lock (k : bytes) (milliseconds : Z) : eff World LockState :=
  ttl ← duration milliseconds; make_lock k ttl.

Definition values_remember (k : bytes) (seconds : Z) (factory : eff World Json) : eff World Json :=
  ttl ← expiration (Some seconds);
  v ← remember k ttl (j ← factory; mret (dump j));
  parsed v.

Definition values_remember_locked (k : bytes) (seconds lease_milliseconds : Z) (factory : eff World Json) : eff World Json :=
  ttl ← expiration (Some seconds);
  lease_ttl ← duration lease_milliseconds;
  v ← remember_locked k ttl lease_ttl (j ← factory; mret (dump j));
  parsed v.
End Repository.

Arguments World : clear implicits.
