(* ===== verification/CacheFacts.v ===== *)
(** * Cache: values until their end of life, computed by one caller at a time *)

From S2P Require Import Prelude SteadyClock Lock Json JsonFacts Cache.

(** ** The contract of stores

    [entry s k] is what is stored under [k]: the value and its end of life. *)
Definition alive (t : Z) (e : option (bytes * option Z)) : option bytes :=
  match e with
  | None => None
  | Some (v, None) => Some v
  | Some (v, Some last) => if t <? last then Some v else None
  end.

Class LawfulStore (S : Type) `{Store S} := {
  entry : S -> bytes -> option (bytes * option Z);
  get_law t k s r s' : store_get t k s = (r, s') ->
    match r with Ok v => v = alive t (entry s k) | _ => True end /\
    (forall k', k' <> k -> entry s' k' = entry s k') /\
    (entry s' k = entry s k \/ alive t (entry s k) = None /\ entry s' k = None);
  put_law t k v ttl s r s' : store_put t k v ttl s = (r, s') ->
    (forall k', k' <> k -> entry s' k' = entry s k') /\
    match r with
    | Ok _ => entry s' k = Some (v, (fun d => t + d * ns_second) <$> ttl)
    | _ => True
    end;
  forget_law k s r s' : store_forget k s = (r, s') ->
    (forall k', k' <> k -> entry s' k' = entry s k') /\
    match r with Ok _ => entry s' k = None | _ => True end;
  flush_law s r s' : store_flush s = (r, s') ->
    match r with Ok _ => forall k, entry s' k = None | _ => True end
}.

Definition memory_entry (s : MemoryStore) (k : bytes) : option (bytes * option Z) :=
  (fun e => (cached e, expiry e)) <$> (s !! k).

Lemma memory_get_law t k s r s' : memory_get t k s = (r, s') ->
  match r with Ok v => v = alive t (memory_entry s k) | _ => True end /\
  (forall k', k' <> k -> memory_entry s' k' = memory_entry s k') /\
  (memory_entry s' k = memory_entry s k \/ alive t (memory_entry s k) = None /\ memory_entry s' k = None).
Proof.
  unfold memory_get, memory_entry, expired. destruct (s !! k) as [[v [last|]]|] eqn:E; cbn.
  - destruct (Z.leb_spec last t); intros [= <- <-]; rewrite ?E; cbn.
    + rewrite (proj2 (Z.ltb_ge _ _)), lookup_delete_eq by done. split_and!; [done| |auto].
      intros k' Hk. by rewrite lookup_delete_ne.
    + rewrite (proj2 (Z.ltb_lt _ _)) by done. auto.
  - intros [= <- <-]. rewrite E. auto.
  - intros [= <- <-]. rewrite E. auto.
Qed.

Lemma memory_put_law t k v ttl s r s' : memory_put t k v ttl s = (r, s') ->
  (forall k', k' <> k -> memory_entry s' k' = memory_entry s k') /\
  match r with
  | Ok _ => memory_entry s' k = Some (v, (fun d => t + d * ns_second) <$> ttl)
  | _ => True
  end.
Proof.
  unfold memory_put, memory_entry, plus_s. destruct ttl as [d|]; [destruct (_ || _)|]; intros [= <- <-]; (split; [|done]) ||
    (split; [intros k' Hk; by rewrite lookup_insert_ne|by rewrite lookup_insert_eq]). done.
Qed.

Lemma memory_forget_law k s r s' : memory_forget k s = (r, s') ->
  (forall k', k' <> k -> memory_entry s' k' = memory_entry s k') /\
  match r with Ok _ => memory_entry s' k = None | _ => True end.
Proof.
  unfold memory_forget, memory_entry. intros [= <- <-].
  split; [intros k' Hk; by rewrite lookup_delete_ne|by rewrite lookup_delete_eq].
Qed.

Lemma memory_flush_law s r s' : memory_flush s = (r, s') ->
  match r with Ok _ => forall k, memory_entry s' k = None | _ => True end.
Proof. unfold memory_flush. intros [= <- <-] k. done. Qed.

#[export] Instance memory_store_lawful : LawfulStore MemoryStore := {|
  entry := memory_entry;
  get_law := memory_get_law;
  put_law := memory_put_law;
  forget_law := memory_forget_law;
  flush_law := memory_flush_law
|}.

Section Repository.
Context {S : Type} `{LawfulStore S} {L : Type} `{LockStore L} `{LongDouble}.

Abbreviation W := (World S L).

(** ** The clock *)

(** Time does not go back. *)
Definition timely (w : W) : Prop := Forall (fun d => 0 <= d) (passing w).

(** One world comes after another. *)
Definition later (w w' : W) : Prop := timely w' /\ steady w <= steady w'.

Lemma later_refl w : timely w -> later w w.
Proof. intros Hw. split; [done|lia]. Qed.

Lemma later_trans w1 w2 w3 : later w1 w2 -> later w2 w3 -> later w1 w3.
Proof. intros [_ H12] [Ht H23]. split; [done|lia]. Qed.

Lemma clock_later (w : W) t w' : timely w -> clock w = (Ok t, w') ->
  later w w' /\ t = steady w' /\ store_ w' = store_ w /\ locks w' = locks w.
Proof.
  unfold clock, timely. destruct w as [s0 p st lk]. cbn. destruct p as [|d ds]; intros Hp [= <- <-]; cbn.
  - split_and!; [split; cbn; [done|lia]|done..].
  - apply Forall_cons in Hp as [Hd Hp]. split_and!; [split; cbn; [done|lia]|done..].
Qed.

Lemma clock_Ok (w : W) : exists t w', clock w = (Ok t, w').
Proof. unfold clock. destruct (passing w); eauto. Qed.

(** An operation of the store is one of its operations at the new time. *)
Lemma on_store_run {A} (f : Z -> S -> result A * S) (w : W) r w' : timely w -> on_store f w = (r, w') ->
  later w w' /\ locks w' = locks w /\ f (steady w') (store_ w) = (r, store_ w').
Proof.
  intros Hw. unfold on_store, mbind, eff_bind. destruct (clock_Ok w) as (t & w1 & E). rewrite E.
  apply clock_later in E as (Hl & -> & Es & El); [|done]. unfold with_store. rewrite <-Es.
  destruct (f (steady w1) (store_ w1)) as [r1 s1] eqn:Ef. intros [= <- <-]. cbn. split_and!; [|done|done].
  by destruct Hl.
Qed.

(** ** Values until their end of life *)

(** [k] holds [v] until [last], or held it and time is up. *)
Definition keeps (k v : bytes) (last : option Z) (w : W) : Prop :=
  entry (store_ w) k = Some (v, last) \/
  entry (store_ w) k = None /\ exists e, last = Some e /\ e <= steady w.

Lemma keeps_same k v last w w' : keeps k v last w -> later w w' -> entry (store_ w') k = entry (store_ w) k ->
  keeps k v last w'.
Proof. intros [He|(He & e & -> & Hle)] [_ Hl] E; [left; by rewrite E|right; rewrite E; split; [done|]; exists e; split; [done|lia]]. Qed.

Inductive CacheOp :=
| GetOp (k : bytes)
| PutOp (k v : bytes) (ttl : option Z)
| ForgetOp (k : bytes).

Definition cache_op (o : CacheOp) (w : W) : W :=
  match o with
  | GetOp k => (repository_get k w).2
  | PutOp k v ttl => (repository_put k v ttl w).2
  | ForgetOp k => (repository_forget k w).2
  end.

(** The operation does not replace or remove the value of [k]. *)
Definition spares (k : bytes) (o : CacheOp) : Prop :=
  match o with GetOp _ => True | PutOp k' _ _ | ForgetOp k' => k' <> k end.

Lemma read_keeps k v last k' w r w' : keeps k v last w -> timely w -> repository_get k' w = (r, w') ->
  later w w' /\ keeps k v last w' /\
  (k' = k -> match r with Ok x => x = alive (steady w') (Some (v, last)) | _ => True end).
Proof.
  intros Hk Hw E. apply on_store_run in E as (Hl & _ & E); [|done]. apply get_law in E as (Hr & Ho & Hsame).
  split; [done|]. destruct (decide (k' = k)) as [->|Hne].
  - split.
    + destruct Hsame as [Hsame|[Hdead Hsame]]; [by eapply keeps_same|]. destruct Hk as [He|Hk].
      * right. split; [done|]. rewrite He in Hdead. cbn in Hdead. destruct last as [e|]; [|done].
        exists e. split; [done|]. destruct (Z.ltb_spec (steady w') e); [done|lia].
      * right. destruct Hk as (_ & e & -> & Hle). split; [done|]. exists e. destruct Hl. split; [done|lia].
    + intros _. destruct r as [x|ex|]; [|done..]. rewrite Hr. destruct Hk as [->|(-> & e & -> & Hle)]; [done|].
      cbn. rewrite (proj2 (Z.ltb_ge _ _)); [done|]. destruct Hl. lia.
  - split; [|done]. eapply keeps_same; [done..|]. by apply Ho.
Qed.

Lemma op_keeps k v last o w : keeps k v last w -> timely w -> spares k o ->
  later w (cache_op o w) /\ keeps k v last (cache_op o w).
Proof.
  intros Hk Hw Ho. destruct o as [k'|k' v' ttl|k']; cbn in *.
  - destruct (repository_get k' w) as [r w'] eqn:E. cbn. by eapply read_keeps in E as (? & ? & _).
  - destruct (repository_put k' v' ttl w) as [r w'] eqn:E. cbn. apply on_store_run in E as (Hl & _ & E); [|done].
    apply put_law in E as [E _]. split; [done|]. eapply keeps_same; [done..|]. by apply E.
  - destruct (repository_forget k' w) as [r w'] eqn:E. cbn. apply on_store_run in E as (Hl & _ & E); [|done].
    apply forget_law in E as [E _]. split; [done|]. eapply keeps_same; [done..|]. by apply E.
Qed.

Lemma ops_keep k v last ops w : keeps k v last w -> timely w -> Forall (spares k) ops ->
  let w' := fold_left (fun w o => cache_op o w) ops w in timely w' /\ keeps k v last w'.
Proof.
  revert w. induction ops as [|o ops IH]; intros w Hk Hw Ho; cbn; [done|]. apply Forall_cons in Ho as [Hone Hrest].
  destruct (op_keeps k v last o w Hk Hw Hone) as [[Hw' _] Hk']. by apply IH.
Qed.

Lemma expiration_later seconds (w : W) ttl w' : timely w -> expiration seconds w = (Ok ttl, w') ->
  later w w' /\ ttl = seconds /\ store_ w' = store_ w.
Proof.
  intros Hw. unfold expiration. destruct seconds as [s|]; [|intros [= <- <-]; split; [by apply later_refl|done]].
  unfold mbind, eff_bind. destruct (clock_Ok w) as (t & w1 & E). rewrite E. apply clock_later in E as (Hl & _ & Es & _); [|done].
  destruct (_ || _); [done|]. by intros [= <- <-].
Qed.

Lemma put_keeps k v ttl (w : W) w' : timely w -> repository_put k v ttl w = (Ok (), w') ->
  timely w' /\ keeps k v ((fun d => steady w' + d * ns_second) <$> ttl) w'.
Proof.
  intros Hw E. apply on_store_run in E as ([Hw' _] & _ & E); [|done]. apply put_law in E as [_ E].
  split; [done|]. by left.
Qed.

Lemma values_get_keeps k j last w r w' : wf j -> keeps k (dump j) last w -> timely w ->
  values_get k w = (Ok r, w') ->
  r = match last with Some e => if steady w' <? e then Some (normalize j) else None | None => Some (normalize j) end.
Proof.
  intros Hj Hk Hw. unfold values_get, mbind, eff_bind. destruct (repository_get k w) as [x w1] eqn:E.
  apply (read_keeps k (dump j) last) in E as (_ & _ & Hx); [|done..]. specialize (Hx eq_refl).
  destruct x as [x|ex|]; [|done..]. subst x. cbn [alive].
  assert (forall w2, (fun w => match parsed (dump j) w with
    | (Ok a, st) => (mret (Some a) : eff W (option Json)) st | (Throw e, st) => (Throw e, st) | (NoFuel, st) => (NoFuel, st) end) w2
    = (Ok (Some (normalize j)), w2)) as Hp by (intros w2; unfold parsed; by rewrite parse_dump).
  destruct last as [e|]; [destruct (Z.ltb_spec (steady w1) e)|].
  - rewrite Hp. intros [= <- <-]. by rewrite (proj2 (Z.ltb_lt _ _)).
  - intros [= <- <-]. by rewrite (proj2 (Z.ltb_ge _ _)).
  - rewrite Hp. by intros [= <- <-].
Qed.
End Repository.

(** ** Computing under a lock *)

Section SingleFlight.
Context {S : Type} `{LawfulStore S} {L : Type} `{LawfulLocks L} `{LongDouble}.

Abbreviation W := (World S L).

Definition flight_key (k : bytes) : bytes := lit "remember:" ++ k.

(** Who holds the lock of a computed value, and until when. *)
Definition flight (k : bytes) (w : W) : option (bytes * Z) := ls ← locks w; holder ls (flight_key k).

(** The last reading of the clock that is to come. *)
Definition horizon (w : W) : Z := steady w + foldr Z.add 0 (passing w).

Lemma passing_nonneg l : Forall (fun d => 0 <= d) l -> 0 <= foldr Z.add 0 l.
Proof. induction 1; cbn; lia. Qed.

Lemma clock_horizon (w : W) t w' : clock w = (Ok t, w') -> horizon w' = horizon w.
Proof. unfold clock, horizon. destruct (passing w) as [|d ds] eqn:E; intros [= <- <-]; cbn; rewrite ?E; cbn; lia. Qed.

Lemma timely_horizon (w : W) : timely w -> steady w <= horizon w.
Proof. intros Hw%passing_nonneg. unfold horizon. lia. Qed.

(** An operation of the lock store is one of its operations at the new time. *)
Lemma on_locks_run {A} (f : Z -> L -> result A * L) (w : W) r w' ls : timely w -> locks w = Some ls -> on_locks f w = (r, w') ->
  later w w' /\ store_ w' = store_ w /\ horizon w' = horizon w /\
  exists ls', locks w' = Some ls' /\ f (steady w') ls = (r, ls').
Proof.
  intros Hw Hls. unfold on_locks, mbind, eff_bind. destruct (clock_Ok w) as (t & w1 & E). rewrite E.
  pose proof (clock_horizon w t w1 E) as Hh.
  apply clock_later in E as (Hl & -> & Es & El); [|done]. unfold with_locks. rewrite El, Hls.
  destruct (f (steady w1) ls) as [r1 s1] eqn:Ef. intros [= <- <-]. cbn. split_and!; [|done|done|eauto].
  by destruct Hl.
Qed.

Lemma on_store_horizon {A} (f : Z -> S -> result A * S) (w : W) r w' : on_store f w = (r, w') -> horizon w' = horizon w.
Proof.
  unfold on_store, mbind, eff_bind. destruct (clock_Ok w) as (t & w1 & E). rewrite E. apply clock_horizon in E.
  unfold with_store. destruct (f t (store_ w1)). intros [= <- <-]. done.
Qed.

Lemma duration_run ms (w : W) r w' : timely w -> duration ms w = (r, w') ->
  later w w' /\ store_ w' = store_ w /\ locks w' = locks w /\ horizon w' = horizon w /\
  match r with Ok x => x = ms | _ => True end.
Proof.
  intros Hw. unfold duration, mbind, eff_bind. destruct (clock_Ok w) as (t & w1 & E). rewrite E.
  pose proof (clock_horizon w t w1 E). apply clock_later in E as (Hl & _ & Es & El); [|done].
  destruct (_ || _); intros [= <- <-]; done.
Qed.

Lemma make_lock_run key ttl (w : W) r w' : timely w -> make_lock key ttl w = (r, w') ->
  later w w' /\ store_ w' = store_ w /\ locks w' = locks w /\ horizon w' = horizon w /\
  match r with Ok l => l = mkLockState key ttl None /\ is_Some (locks w) | _ => True end.
Proof.
  intros Hw. unfold make_lock, mbind, eff_bind. destruct (duration ttl w) as [x w1] eqn:E.
  apply duration_run in E as (Hl & Es & El & Hh & Hx); [|done].
  destruct x as [x|ex|]; [|by intros [= <- <-]..]. subst x. cbn. rewrite El.
  destruct (locks w) as [ls|] eqn:Els; [destruct key|]; intros [= <- <-]; by eauto 10.
Qed.

(** The lock of a computed value is acquired only when nobody holds it, and then held. *)
Lemma lock_acquire_run key ttl (w : W) r l' w' : timely w -> is_Some (locks w) ->
  lock_acquire (mkLockState key ttl None, w) = (r, (l', w')) ->
  later w w' /\ store_ w' = store_ w /\ horizon w' = horizon w /\ is_Some (locks w') /\
  match r with
  | Ok true => exists x, l' = mkLockState key ttl (Some x) /\ Lock.key x = key /\
      (exists ls ls' e, locks w = Some ls /\ locks w' = Some ls' /\ holder ls' key = Some (owner x, e) /\
        forall o e, holder ls key = Some (o, e) -> e <= steady w')
  | _ => l' = mkLockState key ttl None
  end.
Proof.
  intros Hw [ls Hls]. unfold lock_acquire, mbind, eff_bind, handle, lift. cbn [lease lock_key lock_ttl].
  destruct (on_locks _ w) as [x w1] eqn:E. eapply on_locks_run in E as (Hl & Es & Hh & ls' & Hls' & E); [|done..].
  apply acquire_law in E. destruct x as [[x|]|ex|]; cbn; intros [= <- <- <-]; split_and!; try done; try (by exists ls').
  destruct E as (Hk & _ & Hhold & Hfree & _). exists x. split_and!; [done..|]. exists ls, ls'. eauto 10.
Qed.

(** What follows the factory. *)
Definition finish (k : bytes) (ttl : option Z) (value : bytes) : Locked bytes :=
  renewed ← lock_renew;
  if negb (renewed : bool) then throw lock_lost
  else
    lift (repository_put k value ttl);;
    released ← lock_release;
    if negb (released : bool) then throw lock_lost else mret value.

Definition after_factory (l : LockState) (k : bytes) (ttl : option Z) (p : result bytes * W) : result bytes * W :=
  let '(r, (l', w')) :=
    match p with
    | (Ok v, w) => finish k ttl v (l, w)
    | (Throw e, w) => (Throw e, (l, w))
    | (NoFuel, w) => (NoFuel, (l, w))
    end in
  (r, destroy_lock l' w').

Lemma destroy_lock_store l (w : W) : timely w -> is_Some (locks w) -> store_ (destroy_lock l w) = store_ w.
Proof.
  intros Hw [ls Hls]. unfold destroy_lock. destruct (lease l) as [x|]; [|done].
  destruct (on_locks _ w) as [r w'] eqn:E. eapply on_locks_run in E as (_ & Es & _); done.
Qed.

(** A read leaves an entry or forgets a dead one. *)
Definition read_from (k : bytes) (w w' : W) : Prop :=
  entry (store_ w') k = entry (store_ w) k \/ entry (store_ w') k = None.

Lemma get_run k (w : W) r w' : timely w -> repository_get k w = (r, w') ->
  later w w' /\ locks w' = locks w /\ horizon w' = horizon w /\ read_from k w w' /\
  match r with Ok (Some v) => exists t, alive t (entry (store_ w) k) = Some v | _ => True end.
Proof.
  intros Hw E. pose proof (on_store_horizon _ _ _ _ E) as Hh. apply on_store_run in E as (Hl & El & E); [|done].
  apply get_law in E as (Hr & _ & Hsame). split_and!; [done..| |].
  - destruct Hsame as [?|[_ ?]]; [by left|by right].
  - destruct r as [[v|]|ex|]; [|done..]. by exists (steady w').
Qed.

(** The ways through [remember_locked]: the factory is not run and the answer, if any, is
    a cached value; or the factory is run with the lock held, which was free. *)
Inductive route (k : bytes) (ttl : option Z) (lt : Z) (w : W) : Prop :=
| cached_route r w' :
    (forall f, remember_locked k ttl lt f w = (r, w')) -> read_from k w w' ->
    (forall v, r = Ok v -> exists t, alive t (entry (store_ w) k) = Some v) -> route k ttl lt w
| factory_route x e wf :
    (forall f, remember_locked k ttl lt f w = after_factory (mkLockState (flight_key k) lt (Some x)) k ttl (f wf)) ->
    timely wf -> flight k wf = Some (owner x, e) -> Lock.key x = flight_key k ->
    (forall o e, flight k w = Some (o, e) -> e <= horizon w) -> route k ttl lt w.

Lemma remember_locked_route k ttl lt (w : W) : timely w -> route k ttl lt w.
Proof.
  intros Hw. destruct (make_lock (flight_key k) lt w) as [l w1] eqn:El.
  pose proof El as (Hl1 & Es1 & Ek1 & Hh1 & Hlock)%make_lock_run; [|done].
  destruct l as [l|ex|];
    [|eapply (cached_route _ _ _ _ _ w1);
      [intros f; unfold remember_locked, mbind, eff_bind; fold (flight_key k); by rewrite El|by left; rewrite Es1|done]..].
  destruct Hlock as [-> Hsome]. destruct (repository_get k w1) as [v w2] eqn:Eg.
  pose proof Eg as (Hl2 & Ek2 & Hh2 & Hread & Hv)%get_run; [|by destruct Hl1]. unfold read_from in Hread. rewrite Es1 in *.
  destruct v as [[v|]|ex|];
    [eapply (cached_route _ _ _ _ _ w2);
      [intros f; unfold remember_locked, mbind, eff_bind; fold (flight_key k); rewrite El; unfold with_lock, lift; by rewrite Eg|done|naive_solver]| |
     eapply (cached_route _ _ _ _ _ w2);
      [intros f; unfold remember_locked, mbind, eff_bind; fold (flight_key k); rewrite El; unfold with_lock, lift; by rewrite Eg|done|done]..].
  destruct (lock_acquire (mkLockState (flight_key k) lt None, w2)) as [a [l3 w3]] eqn:Ea.
  pose proof Ea as (Hl3 & Es3 & Hh3 & Hsome3 & Hcase)%lock_acquire_run; [|by destruct Hl2|by rewrite Ek2, Ek1].
  assert (forall f, remember_locked k ttl lt f w =
    let '(r, (l', w')) := (acquired ← (fun _ => (a, (l3, w3))) : Locked bool;
      if negb acquired then throw lock_unavailable
      else v ← lift (repository_get k);
           match v with
           | Some v => mret v
           | None => value ← lift f; finish k ttl value
           end) (l3, w3) in (r, destroy_lock l' w')) as Hstep.
  { intros f. unfold remember_locked, mbind, eff_bind. fold (flight_key k). rewrite El. unfold with_lock, lift. rewrite Eg.
    by rewrite Ea. }
  destruct a as [[]|ex|]; try (subst l3; eapply (cached_route _ _ _ _ _ w3); [exact Hstep|unfold read_from; by rewrite Es3|done]).
  destruct Hcase as (x & -> & Hkey & ls & ls' & e & Hls & Hls' & Hhold & Hfree).
  destruct (repository_get k w3) as [v w4] eqn:Eg'.
  pose proof Eg' as (Hl4 & Ek4 & Hh4 & Hread' & Hv')%get_run; [|by destruct Hl3]. rewrite Es3 in *.
  assert (timely w4 /\ is_Some (locks w4)) as [Ht4 Hs4] by (split; [by destruct Hl4|by rewrite Ek4]).
  assert (read_from k w w4) as Hr4.
  { unfold read_from in *. rewrite Es3 in Hread'. destruct Hread' as [->| ->]; [done|by right]. }
  destruct v as [[v|]|ex|].
  - eapply (cached_route _ _ _ _ (Ok v) (destroy_lock (mkLockState (flight_key k) lt (Some x)) w4));
      [intros f; rewrite Hstep; unfold lift, mbind, eff_bind; cbv beta iota delta [negb]; by rewrite Eg'| |].
    + unfold read_from in *. by rewrite destroy_lock_store.
    + intros v' [= <-]. destruct Hv' as [t Ht]. exists t. destruct Hread as [<-|Hnone]; [done|]. by rewrite Hnone in Ht.
  - apply (factory_route _ _ _ _ x e w4); [|done| |done|].
    + intros f. rewrite Hstep. unfold lift, mbind, eff_bind. cbv beta iota delta [negb]. rewrite Eg'. unfold after_factory.
      by destruct (f w4) as [[] ?].
    + unfold flight. by rewrite Ek4, Hls'.
    + intros o e'. unfold flight. rewrite <-Ek1, <-Ek2, Hls. cbn. intros Ho%Hfree.
      destruct Hl3 as [Ht3%timely_horizon _]. lia.
  - eapply (cached_route _ _ _ _ (Throw ex) (destroy_lock (mkLockState (flight_key k) lt (Some x)) w4));
      [intros f; rewrite Hstep; unfold lift, mbind, eff_bind; cbv beta iota delta [negb]; by rewrite Eg'| |done].
    unfold read_from in *. by rewrite destroy_lock_store.
  - eapply (cached_route _ _ _ _ NoFuel (destroy_lock (mkLockState (flight_key k) lt (Some x)) w4));
      [intros f; rewrite Hstep; unfold lift, mbind, eff_bind; cbv beta iota delta [negb]; by rewrite Eg'| |done].
    unfold read_from in *. by rewrite destroy_lock_store.
Qed.

(** A lease that was given back. *)
Definition given_up (k : bytes) (x : LockLease) (w : W) : Prop := forall e, flight k w <> Some (owner x, e).

Lemma release_gives_up k x (w : W) r w' :
  Lock.key x = flight_key k -> timely w -> is_Some (locks w) -> on_locks (fun t => release t x) w = (r, w') ->
  timely w' /\ is_Some (locks w') /\ store_ w' = store_ w /\ given_up k x w'.
Proof.
  intros Hx Hw [ls Hls] E. eapply on_locks_run in E as ([Ht _] & Es & _ & ls' & Hls' & E); [|done..].
  split_and!; [done|by rewrite Hls'|done|]. intros e. unfold flight. rewrite Hls'. intros Hf. change (holder ls' (flight_key k) = Some (owner x, e)) in Hf.
  apply release_law in E as [_ E]. rewrite Hx in E. destruct (decide _) as [_|Hn]; [congruence|]. subst ls'. destruct Hn. by exists e.
Qed.

Lemma destroy_gives_up l k x (w : W) :
  lease l = Some x -> Lock.key x = flight_key k -> timely w -> is_Some (locks w) ->
  store_ (destroy_lock l w) = store_ w /\ given_up k x (destroy_lock l w).
Proof.
  intros Hl Hx Hw Hs. unfold destroy_lock. rewrite Hl. destruct (on_locks _ w) as [r w'] eqn:E.
  by apply (release_gives_up k) in E as (_ & _ & ? & ?).
Qed.

(** What follows the factory of the caller with the lease [x]: an answer is its value,
    stored; nothing is stored for a factory that threw, or unless the renewal finds the
    lease in force; the lease is given back with the answer and after a failure. *)
Lemma after_factory_law l k ttl x r1 (w1 : W) r w' :
  lease l = Some x -> Lock.key x = flight_key k -> timely w1 -> is_Some (locks w1) ->
  after_factory l k ttl (r1, w1) = (r, w') ->
  (forall ex, r1 = Throw ex -> r = Throw ex /\ store_ w' = store_ w1 /\ given_up k x w') /\
  (forall v, r = Ok v ->
     r1 = Ok v /\ (exists e, flight k w1 = Some (owner x, e) /\ steady w1 < e) /\
     (exists t, entry (store_ w') k = Some (v, (fun d => t + d * ns_second) <$> ttl)) /\ given_up k x w') /\
  ((forall e, flight k w1 = Some (owner x, e) -> e <= steady w1) -> store_ w' = store_ w1 /\ forall v, r <> Ok v).
Proof.
  intros Hl Hx Hw Hs. unfold after_factory. destruct r1 as [v|ex|].
  2, 3: intros [= <- <-]; destruct (destroy_gives_up l k x w1) as [? ?]; [done..|]; (split_and!; [by intros ? [=]; subst|done|done]).
  destruct Hs as [ls Hls]. unfold finish, lock_renew, renew_unlocked, mbind, eff_bind, handle. cbn. rewrite Hl. unfold lift.
  destruct (on_locks _ w1) as [y w2] eqn:E. eapply on_locks_run in E as (Hlat & Es & _ & ls2 & Hls2 & E); [|done..].
  apply renew_law in E. assert (timely w2) as Hw2 by (by destruct Hlat). rewrite Hx in E.
  destruct y as [[]|ex|]; cbn; try rewrite Hl.
  - destruct E as ((e & He & Hlt) & _). destruct Hlat as [_ Hlat].
    assert (exists e, flight k w1 = Some (owner x, e) /\ steady w1 < e) as Hforce
      by (exists e; unfold flight; rewrite Hls; split; [exact He|lia]).
    destruct (repository_put k v ttl w2) as [u w3] eqn:Ep. unfold repository_put in Ep.
    apply on_store_run in Ep as ([Hw3 _] & El3 & Ep); [|done]. apply put_law in Ep as [_ Ep].
    assert (is_Some (locks w3)) as Hs3 by (by rewrite El3, Hls2).
    set (l2 := mkLockState (lock_key l) (lock_ttl l) (Some x)) in *.
    assert ((forall e, flight k w1 = Some (owner x, e) -> e <= steady w1) -> False) as Habs.
    { intros H'. destruct Hforce as (e2 & He2 & Hlt2). specialize (H' _ He2). lia. }
    destruct u as [[]|ex|]; [|by intros [= <- <-]; split_and!; [done..|intros []%Habs]..].
    unfold lock_release, mbind, eff_bind, handle, lift. cbn.
    destruct (on_locks _ w3) as [z w4] eqn:Er. apply (release_gives_up k) in Er as (Hw4 & Hs4 & Es4 & Hg); [|done..].
    destruct z as [[]|ex|]; cbn; intros [= <- <-]; split_and!; try done; try (intros []%Habs).
    intros v' [= <-]. split_and!; [done|done| |done]. exists (steady w3). by rewrite Es4.
  - intros [= <- <-]. by split_and!.
  - intros [= <- <-]. destruct (destroy_gives_up l k x w2) as [-> ?]; [done..|by rewrite Hls2|]. by split_and!.
  - intros [= <- <-]. destruct (destroy_gives_up l k x w2) as [-> ?]; [done..|by rewrite Hls2|]. by split_and!.
Qed.
End SingleFlight.

(** ** Theorems *)

(** A JSON value that is cached is read back, against the contract of stores.  After [put], whatever else is
    read, stored under other keys or forgotten, [get] answers with the value until exactly its lifetime has
    passed, and with nothing from then on; without a lifetime it answers for ever. *)
Theorem values_kept {S L} `{LawfulStore S} `{LockStore L} `{LongDouble} k j seconds (w w1 : World S L) ops r w3 :
  wf j -> timely w -> values_put k j seconds w = (Ok (), w1) -> Forall (spares k) ops ->
  values_get k (fold_left (fun w o => cache_op o w) ops w1) = (Ok r, w3) ->
  r = match seconds with
      | None => Some (normalize j)
      | Some d => if steady w3 <? steady w1 + d * ns_second then Some (normalize j) else None
      end.
Proof.
  intros Hj Hw Ep Hops Eg. unfold values_put, mbind, eff_bind in Ep.
  destruct (expiration seconds w) as [ttl w0] eqn:Ee. destruct ttl as [ttl|ex|]; [|done..].
  apply expiration_later in Ee as ([Hw0 _] & -> & _); [|done].
  apply put_keeps in Ep as [Hw1 Hk]; [|done]. eapply ops_keep in Hk as [Hw2 Hk]; [|done..].
  eapply values_get_keeps in Eg; [|done..]. rewrite Eg. by destruct seconds.
Qed.

Definition sample_world : World MemoryStore MemoryLockStore := mkWorld 0 [5; 1; 1; 1; 2999999998] ∅ (Some empty_locks).

Definition sample_cached : World MemoryStore MemoryLockStore :=
  (values_put (H1 := exact_double) (lit "user") (JArray [JBool true]) (Some 3) sample_world).2.

Definition sample_ops : list CacheOp := [PutOp (lit "other") (lit "x") None; GetOp (lit "user")].

Lemma values_kept_witness :
  (values_get (lit "user") (fold_left (fun w o => cache_op o w) sample_ops sample_cached)).1 = Ok None /\
  (values_get (lit "user") (fold_left (fun w o => cache_op o w) [PutOp (lit "other") (lit "x") None] sample_cached)).1 =
    Ok (Some (JArray [JBool true])).
Proof.
  split; [|vm_compute; reflexivity].
  assert (is_ok (values_get (lit "user") (fold_left (fun w o => cache_op o w) sample_ops sample_cached)).1 = true) as Hok
    by (vm_compute; reflexivity).
  assert (steady (values_get (lit "user") (fold_left (fun w o => cache_op o w) sample_ops sample_cached)).2 = 3000000006) as Hs
    by (vm_compute; reflexivity).
  destruct (values_get (lit "user") (fold_left (fun w o => cache_op o w) sample_ops sample_cached)) as [[r|e|] w3] eqn:E; [|done..].
  cbn [fst snd] in *. f_equal.
  rewrite (values_kept (H2 := exact_double) (lit "user") (JArray [JBool true]) (Some 3) sample_world sample_cached sample_ops r w3).
  - by rewrite Hs.
  - cbn. auto.
  - repeat constructor; lia.
  - rewrite (surjective_pairing (values_put _ _ _ _)). unfold sample_cached. by f_equal.
  - by repeat constructor.
  - exact E.
Defined.

(** C37. Computing under a lock, against the contracts of cache and lock stores.  Either
    [remember_locked] does not run its factory and answers with a cached value or fails;
    or it runs it once, after it has acquired the lease of its key, which nobody then
    held.  (So while another caller's lease lasts, it is the former.)  Of a factory that
    ran: if it throws, its exception is thrown and nothing is stored; a value is only
    answered when the lease was in force after the factory, and has then been stored; when
    the lease had ended by then, or was taken over, nothing is stored and the call fails.
    The lease is given back after an answer or an exception of the factory.  Leases are
    not fences: one that ends between its renewal and the publication does not stop it. *)
Theorem single_flight {S L} `{LawfulStore S} `{LawfulLocks L} `{LongDouble} k ttl lt (w : World S L) :
  timely w ->
  (exists r w', (forall f, remember_locked k ttl lt f w = (r, w')) /\ read_from k w w' /\
     forall v, r = Ok v -> exists t, alive t (entry (store_ w) k) = Some v) \/
  (exists wf x e,
     timely wf /\ flight k wf = Some (owner x, e) /\ (forall o e', flight k w = Some (o, e') -> e' <= horizon w) /\
     forall f r1 w1 r w', f wf = (r1, w1) -> timely w1 -> is_Some (locks w1) -> remember_locked k ttl lt f w = (r, w') ->
       (forall ex, r1 = Throw ex -> r = Throw ex /\ store_ w' = store_ w1 /\ given_up k x w') /\
       (forall v, r = Ok v ->
          r1 = Ok v /\ (exists e, flight k w1 = Some (owner x, e) /\ steady w1 < e) /\
          (exists t, entry (store_ w') k = Some (v, (fun d => t + d * ns_second) <$> ttl)) /\ given_up k x w') /\
       ((forall e, flight k w1 = Some (owner x, e) -> e <= steady w1) -> store_ w' = store_ w1 /\ forall v, r <> Ok v)).
Proof.
  intros Hw. destruct (remember_locked_route k ttl lt w Hw) as [r w' Hall Hread Hv|x e wf Hall Hwf Hfl Hkey Hfree].
  - left. by exists r, w'.
  - right. exists wf, x, e. split_and!; [done..|]. intros f r1 w1 r w' Ef Ht Hs. rewrite Hall, Ef.
    by apply after_factory_law.
Qed.

Definition busy_world : World MemoryStore MemoryLockStore :=
  mkWorld 0 [1; 1; 1; 1] ∅ (Some (mkLocks {[lit "remember:k" := mkEntry (lit "7") 1000]} 8)).

Definition free_world : World MemoryStore MemoryLockStore := mkWorld 0 [1; 1; 1; 1; 1; 1; 1; 1; 1] ∅ (Some empty_locks).

(** While another caller holds the lock the factory does not run; when nobody does, it
    runs and its value is stored. *)
Lemma single_flight_witness :
  (remember_locked (H1 := exact_double) (lit "k") None 50 (mret (lit "computed")) busy_world).1 = Throw lock_unavailable /\
  exists w', remember_locked (H1 := exact_double) (lit "k") None 50 (mret (lit "computed")) free_world = (Ok (lit "computed"), w') /\
    entry (store_ w') (lit "k") = Some (lit "computed", None).
Proof.
  split.
  - destruct (single_flight (H3 := exact_double) (lit "k") None 50 busy_world)
      as [(r & w' & Hall & _)|(wf & x & e & _ & _ & Hfree & _)]; [repeat constructor; lia| |].
    + rewrite Hall. rewrite <-(Hall (throw lock_lost)). vm_compute. reflexivity.
    + exfalso. specialize (Hfree (lit "7") 1000 eq_refl). vm_compute in Hfree. by apply Hfree.
  - destruct (remember_locked (H1 := exact_double) (lit "k") None 50 (mret (lit "computed")) free_world) as [r w'] eqn:E.
    assert (r = Ok (lit "computed")) as ->.
    { transitivity (remember_locked (H1 := exact_double) (lit "k") None 50 (mret (lit "computed")) free_world).1;
        [by rewrite E|vm_compute; reflexivity]. }
    exists w'. split; [reflexivity|].
    destruct (single_flight (H3 := exact_double) (lit "k") None 50 free_world)
      as [(r & w1 & Hall & _)|(wf & x & e & Hwf & Hfl & _ & Hrun)]; [repeat constructor; lia| |].
    + exfalso. pose proof (Hall (mret (lit "other"))) as H1. rewrite (Hall (mret (lit "computed"))) in E. injection E as -> _.
      apply (f_equal fst) in H1. vm_compute in H1. discriminate H1.
    + destruct (Hrun (fun w => (Ok (lit "computed"), w)) (Ok (lit "computed")) wf (Ok (lit "computed")) w' eq_refl Hwf) as (_ & Hok & _); [|exact E|].
      * unfold flight in Hfl. destruct (locks wf); [by eexists|discriminate Hfl].
      * destruct (Hok _ eq_refl) as (_ & _ & (t & Ht) & _). exact Ht.
Defined.
