(* ===== verification/Environment.v ===== *)
(** * Environment files ([src/config/environment.cpp])

    [Environment] reads files of [KEY=value] lines; the variables of the process take
    precedence over them.

    Environment files: what is written is read, with the documented precedence *)

From S2P Require Import Prelude Numeral Text.

(** ** Entries of an environment file *)

Fixpoint trim_left (s : bytes) : bytes :=
  match s with c :: s' => if isspace c then trim_left s' else s | [] => [] end.

Definition trim (s : bytes) : bytes := rev (trim_left (rev (trim_left s))).

Definition valid_key (key : bytes) : bool :=
  match key with
  | [] => false
  | c :: rest => (isalpha c || (c =b? "_")) && forallb (fun c => isalnum c || (c =b? "_")) rest
  end.

Definition backslash : byte := x5c.
Definition single_quote : byte := x27.
Definition double_quote : byte := x22.

Definition escape_value (c : byte) : byte :=
  if c =b? "n" then x0a else if c =b? "r" then x0d else if c =b? "t" then x09 else c.

Fixpoint decode_double_quoted (value : bytes) : result bytes :=
  match value with
  | [] => Ok []
  | c :: rest =>
      if negb (c =b? backslash) then r ← decode_double_quoted rest; Ok (c :: r)
      else
        match rest with
        | [] => Throw (invalid_argument "Environment value ends with an incomplete escape")
        | escaped :: rest => r ← decode_double_quoted rest; Ok (escape_value escaped :: r)
        end
  end.

(** The text up to the closing quote, and the text after it. *)
Fixpoint scan_quote (quote : byte) (escaped : bool) (s : bytes) : option (bytes * bytes) :=
  match s with
  | [] => None
  | c :: s' =>
      let continue_ escaped :=
        match scan_quote quote escaped s' with Some (l, r) => Some (c :: l, r) | None => None end in
      if (quote =b? double_quote) && (c =b? backslash) && negb escaped then continue_ true
      else if (c =b? quote) && negb escaped then Some ([], s')
      else continue_ false
  end.

(** The text before a [#] at the start or after a space; [space] is whether one of these
    was just read. *)
Fixpoint before_comment (space : bool) (s : bytes) : bytes :=
  match s with
  | [] => []
  | c :: s' => if (c =b? "#") && space then [] else c :: before_comment (isspace c) s'
  end.

Definition parse_value (value : bytes) : result bytes :=
  match trim value with
  | [] => Ok []
  | quote :: rest =>
      if (quote =b? single_quote) || (quote =b? double_quote) then
        match scan_quote quote false rest with
        | None => Throw (invalid_argument "Environment quoted value is missing its closing quote")
        | Some (body, after) =>
            let unexpected := match trim after with [] => false | c :: _ => negb (c =b? "#") end in
            if unexpected then Throw (invalid_argument "Unexpected data after environment quoted value")
            else if quote =b? single_quote then Ok body
            else decode_double_quoted body
        end
      else Ok (trim (before_comment true (trim value)))
  end.

(** ** Environment *)

Abbreviation Values := (gmap bytes bytes).

(** Where a line is, for the messages. *)
Definition place (path : bytes) (line_number : Z) : bytes := path ++ lit ":" ++ to_string line_number.

Definition drop_return (line : bytes) : bytes :=
  match rev line with c :: r => if c =b? x0d then rev r else line | [] => line end.

(** [values_.insert_or_assign], unless the key is there and is not to be overwritten. *)
Definition assign (overwrite : bool) (key value : bytes) (values_ : Values) : Values :=
  match values_ !! key with
  | Some _ => if overwrite then <[key := value]> values_ else values_
  | None => <[key := value]> values_
  end.

(** What a line says: nothing, or an entry. *)
Definition read_line (path : bytes) (line_number : Z) (line : bytes) : result (option (bytes * bytes)) :=
  let content := trim (drop_return line) in
  match content with
  | [] => Ok None
  | c :: _ =>
      if c =b? "#" then Ok None
      else
        let content := match strip (lit "export ") content with Some rest => trim rest | None => content end in
        match until "=" content with
        | (_, None) => Throw (invalid_argument (message "Invalid environment entry at " (place path line_number)))
        | (before, Some after) =>
            let key := trim before in
            if negb (valid_key key)
            then Throw (invalid_argument (message "Invalid environment key at " (place path line_number)))
            else value ← parse_value after; Ok (Some (key, value))
        end
  end.

Definition load_line (path : bytes) (overwrite : bool) (line_number : Z) (line : bytes) : eff Values unit :=
  fun values_ =>
    match read_line path line_number line with
    | Ok None => (Ok (), values_)
    | Ok (Some (key, value)) => (Ok (), assign overwrite key value values_)
    | Throw e => (Throw e, values_)
    | NoFuel => (NoFuel, values_)
    end.

(** The entries before a line in error stay. *)
Fixpoint load_lines (path : bytes) (overwrite : bool) (line_number : Z) (lines : list bytes) : eff Values unit :=
  match lines with
  | [] => mret ()
  | line :: lines =>
      load_line path overwrite line_number line;; load_lines path overwrite (line_number + 1) lines
  end.

(** The lines [std::getline] reads: an empty text after the last line break is none. *)
Fixpoint getlines (s : bytes) : list bytes :=
  match s with
  | [] => []
  | c :: s' =>
      if c =b? x0a then [] :: getlines s'
      else match getlines s' with l :: ls => (c :: l) :: ls | [] => [[c]] end
  end.

(** [content] is the text of the file, if it can be opened. *)
Definition load (path : bytes) (content : option bytes) (optional overwrite : bool) : eff Values unit :=
  match content with
  | None => if optional then mret () else throw (runtime_error (message "Unable to open environment file: " path))
  | Some text => load_lines path overwrite 1 (getlines text)
  end.

Definition set (key value : bytes) : eff Values unit := fun values_ =>
  if valid_key key then (Ok (), <[key := value]> values_)
  else (Throw (invalid_argument (message "Invalid environment key '" (key ++ [x27]))), values_).

(** [getenv] is the environment of the process. *)
Definition find (getenv : bytes -> option bytes) (key : bytes) (values_ : Values) : option bytes :=
  match getenv key with Some v => Some v | None => values_ !! key end.

Definition has (getenv : bytes -> option bytes) (key : bytes) (values_ : Values) : bool :=
  match find getenv key values_ with Some _ => true | None => false end.

Definition get (getenv : bytes -> option bytes) (key fallback : bytes) (values_ : Values) : bytes :=
  default fallback (find getenv key values_).

Definition integer (getenv : bytes -> option bytes) (key : bytes) (fallback : Z) (values_ : Values) : result Z :=
  match find getenv key values_ with
  | None => Ok fallback
  | Some v =>
      match from_chars_int64 v with
      | Some z => Ok z
      | None => Throw (invalid_argument (message "Environment value '" (key ++ lit "' must be an integer")))
      end
  end.

Definition tolower (c : byte) : byte := if between "A" "Z" c then chr (uc c + 32) else c.
Definition lower (value : bytes) : bytes := map tolower value.

(** The spellings of true and false. *)
Definition truth (value : bytes) : option bool :=
  if bool_decide (value ∈ [lit "true"; lit "1"; lit "yes"; lit "on"]) then Some true
  else if bool_decide (value ∈ [lit "false"; lit "0"; lit "no"; lit "off"]) then Some false
  else None.

Definition boolean (getenv : bytes -> option bytes) (key : bytes) (fallback : bool) (values_ : Values) : result bool :=
  match find getenv key values_ with
  | None => Ok fallback
  | Some v =>
      match truth (lower v) with
      | Some b => Ok b
      | None => Throw (invalid_argument (message "Environment value '" (key ++ lit "' must be boolean")))
      end
  end.

#[local] Arguments lit : simpl never.
#[local] Arguments strip : simpl never.

(** ** Quoted values *)

(** Escapes as a writer of environment files uses them. *)
Definition escape_char (c : byte) : bytes :=
  if c =b? backslash then [backslash; backslash]
  else if c =b? double_quote then [backslash; double_quote]
  else if c =b? x0a then [backslash; "n"%byte]
  else if c =b? x0d then [backslash; "r"%byte]
  else [c].

Definition escape (value : bytes) : bytes := value ≫= escape_char.

Definition quoted (value : bytes) : bytes := double_quote :: escape value ++ [double_quote].

(** An escape is one character, or a backslash and one that stands for it. *)
Lemma escape_char_spec c :
  escape_char c = [c] /\ (c =b? backslash) = false /\ (c =b? double_quote) = false /\ (c =b? x0a) = false \/
  exists d, escape_char c = [backslash; d] /\ escape_value d = c /\ (d =b? x0a) = false.
Proof.
  unfold escape_char. destruct (c =b? backslash) eqn:E1; [reflect_bools; subst; eauto 10|].
  destruct (c =b? double_quote) eqn:E2; [reflect_bools; subst; eauto 10|].
  destruct (c =b? x0a) eqn:E3; [reflect_bools; subst; eauto 10|].
  destruct (c =b? x0d) eqn:E4; [reflect_bools; subst; eauto 10|]. auto.
Qed.

Lemma escape_cons c value : escape (c :: value) = escape_char c ++ escape value.
Proof. done. Qed.

Lemma decode_escape value : decode_double_quoted (escape value) = Ok value.
Proof.
  induction value as [|c value IH]; [done|]. rewrite escape_cons.
  destruct (escape_char_spec c) as [(-> & Hb & _)|(d & -> & <- & _)]; cbn [app decode_double_quoted].
  - rewrite Hb. cbn [negb]. by rewrite IH.
  - change (backslash =b? backslash) with true. cbn [negb]. by rewrite IH.
Qed.

Lemma scan_escape value rest : scan_quote double_quote false (escape value ++ double_quote :: rest) = Some (escape value, rest).
Proof.
  induction value as [|c value IH]; [done|]. rewrite escape_cons, <-app_assoc.
  destruct (escape_char_spec c) as [(-> & Hb & Hq & _)|(d & -> & _ & _)]; cbn [app scan_quote].
  - rewrite Hb, Hq. cbn [andb]. by rewrite IH.
  - change (backslash =b? backslash) with true. change (double_quote =b? double_quote) with true. cbn [andb negb].
    rewrite !andb_false_r. by rewrite IH.
Qed.

Lemma escape_line value : x0a ∉ escape value.
Proof.
  induction value as [|c value IH]; [apply not_elem_of_nil|]. rewrite escape_cons. apply not_elem_of_app. split; [|done].
  destruct (escape_char_spec c) as [(-> & _ & _ & Hn)|(d & -> & _ & Hn)];
    repeat (apply not_elem_of_cons; split); try apply not_elem_of_nil; try done; intros <-; done.
Qed.

(** ** Trimming *)

Lemma trim_plain c s d : isspace c = false -> isspace d = false -> trim (c :: s ++ [d]) = c :: s ++ [d].
Proof.
  intros Hc Hd. unfold trim. cbn [trim_left]. rewrite Hc.
  change (c :: s ++ [d]) with ((c :: s) ++ [d]). rewrite rev_app_distr. cbn [rev app trim_left].
  rewrite Hd. change (d :: rev s ++ [c]) with ([d] ++ rev (c :: s)). by rewrite rev_app_distr, rev_involutive.
Qed.

Lemma parse_quoted value : parse_value (quoted value) = Ok value.
Proof.
  unfold parse_value, quoted. rewrite trim_plain by done. cbn iota. change (double_quote =b? single_quote) with false.
  change (double_quote =b? double_quote) with true. cbn [orb]. rewrite scan_escape. cbn. apply decode_escape.
Qed.

(** ** Keys *)

Definition key_char (c : byte) : bool := isalnum c || (c =b? "_").

Lemma valid_key_chars key : valid_key key = true -> Forall (fun c => key_char c = true) key.
Proof.
  destruct key as [|c key]; [done|]. cbn. intros [Hc Hk]%andb_prop. apply Forall_cons. split.
  - unfold key_char, isalnum. destruct (isalpha c); [done|]. cbn in *. by rewrite Hc, orb_true_r.
  - apply Forall_forall. intros x Hx. by apply (proj1 (forallb_forall _ _)) with x in Hk; [|apply list_elem_of_In].
Qed.

Lemma key_char_plain c : key_char c = true ->
  isspace c = false /\ c <> "="%byte /\ c <> " "%byte /\ c <> x0a /\ (c =b? "#") = false.
Proof.
  intros H. assert (implb (key_char c) (negb (isspace c) && negb (c =b? "=") && negb (c =b? " ") && negb (c =b? x0a) &&
    negb (c =b? "#")) = true) as Hb by (clear; by_bytes).
  rewrite H in Hb. cbn [implb] in Hb. repeat apply andb_prop in Hb as [Hb ?].
  repeat match goal with X : negb _ = true |- _ => apply negb_true_iff in X end.
  split_and!; try done; by apply byte_eqb_false.
Qed.

Lemma key_avoids key c : valid_key key = true -> key_char c = false -> c ∉ key.
Proof. intros Hk%valid_key_chars Hc Hin. eapply Forall_forall in Hk; [|done]. cbn in Hk. congruence. Qed.

Lemma trim_key key : valid_key key = true -> trim key = key.
Proof.
  intros Hk%valid_key_chars. destruct key as [|c key]; [done|]. destruct key as [|d key] using rev_ind.
  - apply Forall_cons_1 in Hk as [[Hc _]%key_char_plain _]. unfold trim. cbn. rewrite Hc. cbn. by rewrite Hc.
  - apply Forall_cons in Hk as [Hc Hk]. apply Forall_app in Hk as [_ [Hd _]%Forall_cons_1].
    apply trim_plain; by apply key_char_plain.
Qed.

(** ** Lines of a file *)

Inductive Line :=
| EntryLine (exported : bool) (key value : bytes)
| CommentLine (text : bytes)
| BlankLine.

Definition print_line (l : Line) : bytes :=
  match l with
  | EntryLine exported key value => (if exported then lit "export " else []) ++ key ++ lit "=" ++ quoted value
  | CommentLine text => lit "#" ++ text
  | BlankLine => []
  end.

Definition line_ok (l : Line) : Prop :=
  match l with
  | EntryLine _ key _ => valid_key key = true
  | CommentLine text => x0a ∉ text
  | BlankLine => True
  end.

Definition entry_of (l : Line) : option (bytes * bytes) :=
  match l with EntryLine _ key value => Some (key, value) | _ => None end.

Definition print_file (lines : list Line) : bytes := lines ≫= fun l => print_line l ++ [x0a].

Lemma drop_return_id s d : d <> x0d -> drop_return (s ++ [d]) = s ++ [d].
Proof.
  intros Hd. unfold drop_return. rewrite rev_app_distr. cbn. destruct (d =b? x0d) eqn:E; [by reflect_bools|done].
Qed.

Lemma until_prefix stop a r l o : stop ∉ a -> until stop r = (l, o) -> until stop (a ++ r) = (a ++ l, o).
Proof.
  induction a as [|c a IH]; [done|]. intros [Hc Ha]%not_elem_of_cons E. cbn. rewrite IH by done.
  destruct (c =b? stop) eqn:Ec; [by reflect_bools|done].
Qed.

(** A key is not taken for the word [export]. *)
Lemma not_exported key value : valid_key key = true -> strip (lit "export ") (key ++ lit "=" ++ quoted value) = None.
Proof.
  intros Hk. destruct (strip _ _) as [r|] eqn:E; [|done]. apply strip_inv in E. exfalso.
  assert (until "=" (key ++ lit "=" ++ quoted value) = (key, Some (quoted value))) as Eu.
  { change (lit "=" ++ quoted value) with ("="%byte :: quoted value). apply until_app. by apply key_avoids. }
  rewrite E in Eu. destruct (until "=" r) as [l o] eqn:Er.
  assert (until "=" (lit "export " ++ r) = (lit "export " ++ l, o)) as E2 by (apply until_prefix; [by_decide|done]).
  rewrite E2 in Eu. injection Eu as Ekey _. eapply (key_avoids key " "); [done|done|]. rewrite <-Ekey.
  change (" "%byte ∈ lit "export " ++ l). apply elem_of_app. left. by apply (bool_decide_eq_true_1 _).
Qed.

Lemma read_entry path n exported key value : valid_key key = true ->
  read_line path n (print_line (EntryLine exported key value)) = Ok (Some (key, value)).
Proof.
  intros Hk. pose proof (valid_key_chars _ Hk) as Hf. destruct key as [|k0 key0] eqn:Ekey; [done|].
  apply Forall_cons in Hf as [(Hsp & _ & _ & _ & Hhash)%key_char_plain _]. rewrite <-Ekey in *.
  assert (exists s, key ++ lit "=" ++ quoted value = k0 :: s ++ [double_quote]) as [s Es].
  { exists (key0 ++ lit "=" ++ double_quote :: escape value). rewrite Ekey. unfold quoted. by rewrite <-!app_assoc. }
  assert (trim (key ++ lit "=" ++ quoted value) = key ++ lit "=" ++ quoted value) as Et by (rewrite Es; by apply trim_plain).
  assert (until "=" (key ++ lit "=" ++ quoted value) = (key, Some (quoted value))) as Eu.
  { change (lit "=" ++ quoted value) with ("="%byte :: quoted value). apply until_app. by apply key_avoids. }
  unfold read_line, print_line. destruct exported.
  - assert (drop_return (lit "export " ++ key ++ lit "=" ++ quoted value) = lit "export " ++ key ++ lit "=" ++ quoted value) as ->.
    { rewrite Es. change (lit "export " ++ k0 :: s ++ [double_quote]) with ((lit "export " ++ k0 :: s) ++ [double_quote]).
      by apply drop_return_id. }
    assert (trim (lit "export " ++ key ++ lit "=" ++ quoted value) = lit "export " ++ key ++ lit "=" ++ quoted value) as ->.
    { rewrite Es. change (lit "export " ++ k0 :: s ++ [double_quote]) with ("e"%byte :: (lit "xport " ++ k0 :: s) ++ [double_quote]).
      by apply trim_plain. }
    rewrite strip_app, Et, Eu, trim_key, Hk by done.
    change (lit "export " ++ key ++ lit "=" ++ quoted value) with ("e"%byte :: lit "xport " ++ key ++ lit "=" ++ quoted value).
    cbn iota. change ("e" =b? "#") with false. cbn [negb]. by rewrite parse_quoted.
  - cbn [app].
    assert (drop_return (key ++ lit "=" ++ quoted value) = key ++ lit "=" ++ quoted value) as ->.
    { rewrite Es. change (k0 :: s ++ [double_quote]) with ((k0 :: s) ++ [double_quote]). by apply drop_return_id. }
    rewrite Et, not_exported, Eu, trim_key, Hk by done. rewrite Es. cbn iota. rewrite Hhash. cbn [negb].
    by rewrite parse_quoted.
Qed.

Lemma read_printed path n l : line_ok l -> read_line path n (print_line l) = Ok (entry_of l).
Proof.
  destruct l as [exported key value|text|]; cbn [line_ok entry_of]; intros Hl; [by apply read_entry| |done].
  unfold read_line, print_line. change (lit "#" ++ text) with ("#"%byte :: text).
  assert (exists t, trim (drop_return ("#"%byte :: text)) = "#"%byte :: t) as [t ->]; [|done].
  assert (exists t, drop_return ("#"%byte :: text) = "#"%byte :: t) as [t ->].
  { unfold drop_return. destruct text as [|d text _] using rev_ind; [by exists []|].
    change ("#"%byte :: text ++ [d]) with (("#"%byte :: text) ++ [d]). rewrite rev_app_distr. cbn [rev app].
    destruct (d =b? x0d); [|by eexists]. exists text. by rewrite rev_app_distr, rev_involutive. }
  unfold trim. cbn [trim_left]. change (isspace "#") with false. cbn iota.
  assert (forall s, exists s', trim_left (s ++ ["#"%byte]) = s' ++ ["#"%byte]) as Hend.
  { induction s as [|c s [s' IH]]; [by exists []|]. cbn. destruct (isspace c); [by exists s'|by exists (c :: s)]. }
  cbn [rev]. destruct (Hend (rev t)) as [s' ->]. rewrite rev_app_distr. by eexists.
Qed.

Lemma print_line_plain l : line_ok l -> x0a ∉ print_line l.
Proof.
  destruct l as [exported key value|text|]; cbn; intros Hl; [| |apply not_elem_of_nil].
  - apply not_elem_of_app. split; [destruct exported; [by_decide|apply not_elem_of_nil]|].
    apply not_elem_of_app. split; [by apply key_avoids|]. apply not_elem_of_app. split; [by_decide|].
    unfold quoted. apply not_elem_of_cons. split; [done|]. apply not_elem_of_app. split; [apply escape_line|by_decide].
  - apply not_elem_of_app. split; [by_decide|done].
Qed.

Lemma getlines_line s rest : x0a ∉ s -> getlines (s ++ x0a :: rest) = s :: getlines rest.
Proof.
  induction s as [|c s IH]; [done|]. intros [Hc Hs]%not_elem_of_cons. cbn.
  destruct (c =b? x0a) eqn:E; [by reflect_bools|]. by rewrite IH.
Qed.

Lemma getlines_file lines : Forall line_ok lines -> getlines (print_file lines) = map print_line lines.
Proof.
  induction 1 as [|l lines Hl _ IH]; [done|]. unfold print_file. cbn [mbind list_bind]. fold (print_file lines).
  rewrite <-app_assoc. cbn [app]. rewrite getlines_line by (by apply print_line_plain). cbn [map]. by rewrite IH.
Qed.

(** ** Precedence *)

Definition assign_all (overwrite : bool) (entries : list (bytes * bytes)) (values_ : Values) : Values :=
  fold_left (fun values_ '(key, value) => assign overwrite key value values_) entries values_.

Lemma load_printed path overwrite n lines values_ : Forall line_ok lines ->
  load_lines path overwrite n (map print_line lines) values_ = (Ok (), assign_all overwrite (omap entry_of lines) values_).
Proof.
  intros Hl. revert n values_. induction Hl as [|l lines Hl _ IH]; intros n values_; [done|].
  cbn [map load_lines]. unfold mbind, eff_bind, load_line. rewrite read_printed by done.
  destruct l as [exported key value|text|]; cbn [entry_of omap list_omap]; apply IH.
Qed.

(** The values a file gives to a key, in order. *)
Definition given (key : bytes) (entries : list (bytes * bytes)) : list bytes :=
  omap (fun '(k, v) => if decide (k = key) then Some v else None) entries.

Lemma assign_lookup overwrite k v values_ key :
  assign overwrite k v values_ !! key =
  if decide (k = key) then (if overwrite then Some v else match values_ !! key with Some w => Some w | None => Some v end)
  else values_ !! key.
Proof.
  unfold assign. destruct (decide (k = key)) as [->|Hne].
  - destruct (values_ !! key) eqn:E, overwrite; by rewrite ?lookup_insert_eq, ?E.
  - destruct (values_ !! k), overwrite; by rewrite ?lookup_insert_ne.
Qed.

Lemma assign_all_lookup overwrite entries values_ key :
  assign_all overwrite entries values_ !! key =
  if overwrite then match last (given key entries) with Some v => Some v | None => values_ !! key end
  else match values_ !! key with Some v => Some v | None => head (given key entries) end.
Proof.
  revert values_. induction entries as [|[k v] entries IH]; intros values_.
  - cbn. destruct overwrite; [done|]. by destruct (values_ !! key).
  - cbn [assign_all fold_left]. fold (assign_all overwrite entries (assign overwrite k v values_)).
    rewrite IH, assign_lookup. unfold given. cbn [omap list_omap]. fold (given key entries).
    destruct (decide (k = key)) as [->|Hne]; [|done]. destruct overwrite; [|by destruct (values_ !! key)].
    change (list_omap byte) with (@omap list _ byte). destruct (given key entries) as [|x l] eqn:E; [done|].
    rewrite last_cons_cons. by destruct (last (x :: l)) eqn:El; [|apply last_None in El].
Qed.

(** ** Theorems *)

(** Environment files are read back with the documented precedence.  Whatever the values (quotes, escapes, line
    breaks and comment signs included), a file of entries, exported or not, with comments and blank lines, is
    loaded without error; a variable of the process wins over the file, and within the files the last entry wins
    when overwriting and the first one when not. *)
Theorem environment_read getenv path lines optional overwrite values_ key :
  Forall line_ok lines ->
  exists values', load path (Some (print_file lines)) optional overwrite values_ = (Ok (), values') /\
  find getenv key values' =
    match getenv key with
    | Some v => Some v
    | None =>
        let file := given key (omap entry_of lines) in
        if overwrite then match last file with Some v => Some v | None => values_ !! key end
        else match values_ !! key with Some v => Some v | None => head file end
    end.
Proof.
  intros Hl. exists (assign_all overwrite (omap entry_of lines) values_). split.
  - unfold load. rewrite getlines_file by done. by apply load_printed.
  - unfold find. destruct (getenv key); [done|]. apply assign_all_lookup.
Qed.

Definition sample_file : list Line :=
  [CommentLine (lit " settings"); EntryLine true (lit "A") ([x0a; x22; x5c] ++ lit " # x"); BlankLine; EntryLine false (lit "A") (lit "2")].

Lemma environment_read_witness :
  exists values', load (lit ".env") (Some (print_file sample_file)) true false ∅ = (Ok (), values') /\
  find (fun _ => None) (lit "A") values' = Some ([x0a; x22; x5c] ++ lit " # x").
Proof.
  destruct (environment_read (fun _ => None) (lit ".env") sample_file true false ∅ (lit "A")) as (v & E & Hf).
  { repeat constructor; cbn; by_decide. }
  exists v. split; [exact E|]. rewrite Hf. vm_compute. reflexivity.
Defined.
