(* ===== verification/Config.v ===== *)
(** * The configuration repository ([src/config/repository.cpp])

    Typed values by key, and the conversions between their types. *)

From S2P Require Import Prelude Numeral Text Double Environment.

Inductive Value :=
| Monostate
| Bool (b : bool)
| Int (z : Z)
| Number (d : double)
| Text (s : bytes).

Abbreviation Repository := (gmap bytes Value).

Definition set (key : bytes) (value : Value) (values_ : Repository) : Repository := <[key := value]> values_.

Definition has (key : bytes) (values_ : Repository) : bool :=
  match values_ !! key with Some _ => true | None => false end.

Definition find (key : bytes) (values_ : Repository) : option Value := values_ !! key.

(** [std::to_string] of a double: six decimals, correctly rounded. *)
Definition fixed6 (d : double) : bytes :=
  match d with
  | Finite neg m e =>
      let '(n, q) := scaled 2 (m * 1000000) 1 (- e) in
      let u := round_half_even n q in
      (if neg then lit "-" else []) ++ to_string (u / 1000000) ++ lit "." ++ drop 1 (to_string (1000000 + u mod 1000000))
  | Infinite neg => if neg then lit "-inf" else lit "inf"
  | NotANumber => lit "nan"
  end.

Definition string (key fallback : bytes) (values_ : Repository) : bytes :=
  match find key values_ with
  | None | Some Monostate => fallback
  | Some (Text s) => s
  | Some (Bool b) => if b then lit "true" else lit "false"
  | Some (Int z) => to_string z
  | Some (Number d) => fixed6 d
  end.

(** The integer part of a finite double. *)
Definition truncate (neg : bool) (m e : Z) : Z :=
  let u := if 0 <=? e then m * 2 ^ e else m / 2 ^ (- e) in if neg then - u else u.

(** [number < -2^63] or [number >= 2^63]. *)
Definition beyond_int64 (neg : bool) (m e : Z) : bool :=
  let '(n, q) := scaled 2 m 1 (- e) in
  if neg then 2 ^ 63 * q <? n else 2 ^ 63 * q <=? n.

Definition wrong_type {A} (key : bytes) (what : bytes) : result A :=
  Throw (invalid_argument (message "Configuration value '" (key ++ what))).

Definition integer (key : bytes) (fallback : Z) (values_ : Repository) : result Z :=
  match find key values_ with
  | None => Ok fallback
  | Some (Int z) => Ok z
  | Some (Bool b) => Ok (if b then 1 else 0)
  | Some (Number (Finite neg m e)) =>
      if beyond_int64 neg m e then Throw (invalid_argument "Configuration integer is out of range")
      else Ok (truncate neg m e)
  | Some (Number _) => Throw (invalid_argument "Configuration integer is out of range")
  | Some (Text s) =>
      match from_chars_int64 s with Some z => Ok z | None => wrong_type key (lit "' is not an integer") end
  | Some Monostate => wrong_type key (lit "' is not an integer")
  end.

Definition boolean (key : bytes) (fallback : bool) (values_ : Repository) : result bool :=
  match find key values_ with
  | None => Ok fallback
  | Some (Bool b) => Ok b
  | Some (Int z) => Ok (negb (z =? 0))
  | Some (Text s) => match Environment.truth s with Some b => Ok b | None => wrong_type key (lit "' is not boolean") end
  | Some (Number _) | Some Monostate => wrong_type key (lit "' is not boolean")
  end.

Definition number (key : bytes) (fallback : double) (values_ : Repository) : result double :=
  match find key values_ with
  | None => Ok fallback
  | Some (Number d) =>
      if isfinite d then Ok d else Throw (invalid_argument "Configuration number must be finite")
  | Some (Int z) => Ok (double_of_int z)
  | Some (Text s) =>
      match from_chars_double s with Some d => Ok d | None => wrong_type key (lit "' is not numeric") end
  | Some (Bool _) | Some Monostate => wrong_type key (lit "' is not numeric")
  end.

(** An integer survives being configured as text, and so does a boolean. *)
Lemma repository_text key z b fallback fallback' values_ :
  INT64_MIN <= z <= INT64_MAX ->
  integer key fallback (set key (Text (string key [] (set key (Int z) values_))) values_) = Ok z /\
  boolean key fallback' (set key (Text (string key [] (set key (Bool b) values_))) values_) = Ok b.
Proof.
  intros Hz. unfold integer, boolean, string, find, set.
  rewrite !lookup_insert_eq. split; [|by destruct b].
  unfold from_chars_int64. rewrite from_chars_all_to_string; [done|done|]. left. done.
Qed.
