(* ===== verification/Formats.v ===== *)
(** * The text formats of the validator ([src/validation/validator.cpp])

    Predicates on the text of a value: numbers, e-mail addresses, domains, addresses,
    URLs, dates.  A loop of the source that cuts its argument at [find('.')] and stops
    at the first bad piece is a test of every piece of [fields]; a position that
    [find] returns is the pair of the text before and after it. *)

From S2P Require Import Prelude Numeral Text Double.

(** [View{set}.find(c) != View::npos]. *)
Definition in_set (set : string) (c : byte) : bool := existsb (byte_eqb c) (lit set).

(** [std::from_chars] for [unsigned]. *)
Definition from_chars_unsigned := from_chars_all 0 (2 ^ 32 - 1).

(** ** Numbers *)

Definition numeric (text : bytes) : bool :=
  match from_chars_double text with
  | Some value => negb (bool_decide (text = [])) && isfinite value
  | None => false
  end.

Definition integer (text : bytes) : bool :=
  match text with
  | [] => false
  | c :: _ =>
      if c =b? "-" then bool_decide (is_Some (from_chars_int64 text))
      else bool_decide (is_Some (from_chars_uint64 text))
  end.

(** A decimal number [0.digits * 10 ^ magnitude]; zero has no digits. *)
Record Decimal := mkDecimal { negative : bool; magnitude : Z; dec_digits : bytes }.

(** [std::from_chars] into an [int] that is 0 before and whose error is ignored. *)
Definition from_chars_or_zero (s : bytes) : Z :=
  match from_chars INT_MIN INT_MAX s with Some (v, _) => v | None => 0 end.

Definition is_e (c : byte) : bool := (c =b? "e") || (c =b? "E").

(** The text before the first character that satisfies [p], and what follows that
    character: [find_first_of]. *)
Fixpoint cut_at (p : byte -> bool) (s : bytes) : bytes * option bytes :=
  match s with
  | [] => ([], None)
  | c :: s' => if p c then ([], Some s') else let '(l, r) := cut_at p s' in (c :: l, r)
  end.

Definition decimal (text : bytes) : Decimal :=
  let '(neg, value) :=
    match text with
    | c :: rest => if c =b? "-" then (true, rest) else (false, text)
    | [] => (false, [])
    end in
  let '(value, power) := cut_at is_e value in
  let power := default [] power in
  let '(before, after) := until "." value in
  let ds := filter (fun c => c <> "."%byte) value in
  match drop_zeros ds with
  | [] => mkDecimal false 0 []
  | significant =>
      let power :=
        match power with c :: rest => if c =b? "+" then rest else power | [] => [] end in
      let exponent := match power with [] => 0 | _ => from_chars_or_zero power end in
      let point :=
        match after with
        | None => Z.of_nat (length value)
        | Some _ => Z.of_nat (length before)
        end in
      let first := Z.of_nat (length ds - length significant) in
      mkDecimal neg (point + exponent - first) (strip_zeros significant)
  end.

(** The loop of [compare] over the digits, the shorter text padded with zeros; [char]
    is compared as a signed number. *)
Definition signed_char (c : byte) : Z := if uc c <? 128 then uc c else uc c - 256.

Fixpoint compare_digits (a b : bytes) : Z :=
  let order x y := if signed_char x <? signed_char y then -1 else 1 in
  match a, b with
  | [], [] => 0
  | x :: a', y :: b' => if negb (x =b? y) then order x y else compare_digits a' b'
  | x :: a', [] => if negb (x =b? "0") then order x "0"%byte else compare_digits a' []
  | [], _ =>
      (fix right b :=
         match b with
         | [] => 0
         | y :: b' => if negb ("0" =b? y) then order "0"%byte y else right b'
         end) b
  end.

Definition compare (left right : bytes) : Z :=
  let a := decimal left in
  let b := decimal right in
  match dec_digits a, dec_digits b with
  | [], [] => 0
  | da, db =>
      if negb (bool_decide (negative a = negative b)) then (if negative a then -1 else 1)
      else
        let order :=
          match da, db with
          | [], _ => -1
          | _, [] => 1
          | _, _ =>
              if negb (magnitude a =? magnitude b)
              then (if magnitude a <? magnitude b then -1 else 1)
              else compare_digits da db
          end in
        if negative a then - order else order
  end.

(** ** Booleans *)

Definition boolean (text : bytes) : bool :=
  existsb (fun word => bool_decide (text = lit word))
    ["true"; "false"; "1"; "0"; "yes"; "no"; "on"; "off"]%string.

Definition accepted (text : bytes) : bool :=
  existsb (fun word => bool_decide (text = lit word)) ["true"; "1"; "yes"; "on"]%string.

(** ** Domains and e-mail addresses *)

Definition starts_char (b : byte) (s : bytes) : bool := starts_with [b] s.
Definition ends_char (b : byte) (s : bytes) : bool := ends_with [b] s.

Definition label_ok (label : bytes) : bool :=
  negb (bool_decide (label = []) || (63 <? Z.of_nat (length label)) ||
        starts_char "-" label || ends_char "-" label ||
        negb (forallb (fun c => isalnum c || (c =b? "-")) label)).

Definition domain (host : bytes) : bool :=
  if bool_decide (host = []) || (253 <? Z.of_nat (length host)) then false
  else forallb label_ok (fields "." host).

Definition local_char (c : byte) : bool := isalnum c || in_set ".!#$%&'*+-/=?^_`{|}~" c.

Definition email (text : bytes) : bool :=
  if (254 <? Z.of_nat (length text)) || existsb (fun c => (uc c <? 33) || (127 <=? uc c)) text
  then false
  else
    match until "@" text with
    | (_, None) => false
    | (local, Some host) =>
        if bool_decide (local = []) || (64 <? Z.of_nat (length local)) ||
           bool_decide ("@"%byte ∈ host) then false
        else if starts_char "." local || ends_char "." local || contains (lit "..") local ||
                negb (forallb local_char local) then false
        else bool_decide ("."%byte ∈ host) && domain host
    end.

(** ** Identifiers and addresses *)

Definition hex (c : byte) : bool := is_digit c || between "a" "f" c || between "A" "F" c.

Fixpoint uuid_from (i : nat) (text : bytes) : bool :=
  match text with
  | [] => true
  | c :: rest =>
      (if (i =? 8)%nat || (i =? 13)%nat || (i =? 18)%nat || (i =? 23)%nat then c =b? "-" else hex c)
      && uuid_from (S i) rest
  end.

Definition uuid (text : bytes) : bool := (length text =? 36)%nat && uuid_from 0 text.

Definition octet_ok (token : bytes) : bool :=
  negb (bool_decide (token = [])) &&
  negb ((1 <? Z.of_nat (length token)) && starts_char "0" token) &&
  match from_chars_unsigned token with Some value => value <=? 255 | None => false end.

Definition ipv4 (host : bytes) : bool :=
  let pieces := fields "." host in
  forallb octet_ok pieces && (length pieces =? 4)%nat.

(** The lambda [count] of [ipv6]: the number of 16-bit groups, or -1. *)
Fixpoint count_groups (groups : Z) (tokens : list bytes) : Z :=
  match tokens with
  | [] => groups
  | token :: rest =>
      if bool_decide ("."%byte ∈ token)
      then (if bool_decide (rest = []) && ipv4 token then groups + 2 else -1)
      else if bool_decide (token = []) || (4 <? Z.of_nat (length token)) || negb (forallb hex token)
      then -1
      else count_groups (groups + 1) rest
  end.

Definition count (part : bytes) : Z :=
  match part with [] => 0 | _ => count_groups 0 (fields ":" part) end.

Definition ipv6 (host : bytes) : bool :=
  match find (lit "::") host with
  | None => count host =? 8
  | Some (before, after) =>
      if contains (lit "::") after then false
      else if bool_decide ("."%byte ∈ before) then false
      else
        let left := count before in
        let right := count after in
        (0 <=? left) && (0 <=? right) && (left + right <? 8)
  end.

(** ** URLs *)

Definition lower_char (c : byte) : byte := if between "A" "Z" c then chr (uc c + 32) else c.

Definition tail_char (c : byte) : bool := isalnum c || in_set "-._~!$&'()*+,;=:@/?" c.

(** The loop over what follows the authority. *)
Fixpoint tail_ok (fragment : bool) (tail : bytes) : bool :=
  match tail with
  | [] => true
  | c :: rest =>
      if c =b? "#" then (if fragment then false else tail_ok true rest)
      else if c =b? "%" then
        match rest with
        | h1 :: h2 :: rest' => hex h1 && hex h2 && tail_ok fragment rest'
        | _ => false
        end
      else tail_char c && tail_ok fragment rest
  end.

Definition host_ok (host : bytes) : bool :=
  if bool_decide (host = []) then false
  else if forallb (fun c => is_digit c || (c =b? ".")) host then ipv4 host
  else domain host.

(** The port of an authority, [None] when the authority is refused. *)
Definition authority_port (authority : bytes) : option bytes :=
  match authority with
  | c :: rest =>
      if c =b? "[" then
        match until "]" rest with
        | (_, None) => None
        | (host, Some after) =>
            if negb (ipv6 host) then None
            else match after with
                 | [] => Some []
                 | d :: port =>
                     if negb (d =b? ":") || bool_decide (port = []) then None else Some port
                 end
        end
      else
        let '(host, port) := until ":" authority in
        if negb (host_ok host) then None
        else match port with
             | None => Some []
             | Some port => if bool_decide (port = []) then None else Some port
             end
  | [] => None
  end.

Definition port_ok (port : bytes) : bool :=
  match port with
  | [] => true
  | _ => match from_chars_unsigned port with Some value => value <=? 65535 | None => false end
  end.

Definition url (text : bytes) : bool :=
  match find (lit "://") text with
  | None => false
  | Some (scheme, rest) =>
      let scheme := map lower_char scheme in
      if negb (bool_decide (scheme = lit "http") || bool_decide (scheme = lit "https")) then false
      else
        let '(authority, tail) := span (fun c => negb (in_set "/?#" c)) rest in
        if bool_decide (authority = []) || bool_decide ("@"%byte ∈ authority) then false
        else
          match authority_port authority with
          | None => false
          | Some port => port_ok port && tail_ok false tail
          end
  end.

(** ** Dates *)

(** [text.substr(pos, n)] inside the text. *)
Definition slice (pos n : nat) (text : bytes) : bytes := take n (drop pos text).

Definition char_at (text : bytes) (i : nat) (c : byte) : bool := bool_decide (text !! i = Some c).

Definition digits (text : bytes) : Z :=
  if bool_decide (text = []) || negb (forallb is_digit text) then -1
  else from_chars_or_zero text.

Definition month_lengths : list Z := [31; 28; 31; 30; 31; 30; 31; 31; 30; 31; 30; 31].

Definition date (text : bytes) : bool :=
  if negb (length text =? 10)%nat || negb (char_at text 4 "-") || negb (char_at text 7 "-") then false
  else
    let year := digits (slice 0 4 text) in
    let month := digits (slice 5 2 text) in
    let day := digits (slice 8 2 text) in
    if (year <? 1) || (month <? 1) || (12 <? month) || (day <? 1) then false
    else
      let leap := (month =? 2) && (year mod 4 =? 0) &&
                  (negb (year mod 100 =? 0) || (year mod 400 =? 0)) in
      day <=? nth (Z.to_nat (month - 1)) month_lengths 0 + (if leap then 1 else 0).

Definition datetime (text : bytes) : bool :=
  if (length text <? 20)%nat || negb (date (slice 0 10 text)) ||
     negb (char_at text 10 "T" || char_at text 10 "t") ||
     negb (char_at text 13 ":") || negb (char_at text 16 ":") then false
  else
    let hour := digits (slice 11 2 text) in
    let minute := digits (slice 14 2 text) in
    let second := digits (slice 17 2 text) in
    if (hour <? 0) || (23 <? hour) || (minute <? 0) || (59 <? minute) || (second <? 0) || (59 <? second)
    then false
    else
      let rest := drop 19 text in
      let rest :=
        match rest with
        | c :: after =>
            if c =b? "." then
              match span is_digit after with
              | ([], _) => None
              | (_, after) => Some after
              end
            else Some rest
        | [] => Some []
        end in
      match rest with
      | None => false
      | Some rest =>
          if bool_decide (rest = lit "Z") || bool_decide (rest = lit "z") then true
          else if negb (length rest =? 6)%nat || negb (char_at rest 0 "+" || char_at rest 0 "-") ||
                  negb (char_at rest 3 ":") then false
          else
            let hour_offset := digits (slice 1 2 rest) in
            let minute_offset := digits (slice 4 2 rest) in
            (0 <=? hour_offset) && (hour_offset <=? 23) && (0 <=? minute_offset) &&
            (minute_offset <=? 59)
      end.
