(* ===== verification/FormatsFacts.v ===== *)
(** * What the text formats of the validator accept

    [compare] orders decimal texts by the numbers they denote, with no rounding;
    [date] accepts the printed dates of the calendar and [ipv4] the printed addresses,
    nothing else. *)

From Stdlib Require Import QArith Qpower.
From S2P Require Import Prelude Numeral Text Double DoubleFacts Calendar Formats.

#[local] Open Scope Z_scope.
#[local] Arguments lit : simpl never.

(** ** The number a decimal text denotes *)

(** Sign and digits as an integer, and the power of ten it is multiplied by. *)
Definition read_decimal (s : bytes) : option (Z * Z) :=
  let '(neg, s1) :=
    match s with
    | b :: s' => if b =b? "-" then (true, s') else (false, s)
    | [] => (false, s)
    end in
  let '(ints, s2) := span is_digit s1 in
  let '(frac, s3) := read_fraction s2 in
  let '(ex, s4) := read_exponent s3 in
  match ints ++ frac, s4 with
  | [], _ => None
  | ds, [] =>
      Some (if neg then - digits_value ds else digits_value ds, ex - Z.of_nat (length frac))
  | _, _ => None
  end.

(** The rational number of a decimal text. *)
Definition decimal_value (s : bytes) : Q :=
  match read_decimal s with
  | Some (n, k) => inject_Z n * Qpower (inject_Z 10) k
  | None => 0
  end.

Definition order_sign (c : comparison) : Z :=
  match c with Lt => -1 | Eq => 0 | Gt => 1 end.

(** ** Texts of digits *)

Lemma digits_value_cons b s :
  digits_value (b :: s) = digit_value b * 10 ^ Z.of_nat (length s) + digits_value s.
Proof.
  induction s as [|c s IH] using rev_ind; [unfold digits_value; cbn; lia|].
  rewrite app_comm_cons, !digits_value_snoc, IH, length_app, Nat2Z.inj_add. cbn [length].
  rewrite Z.pow_add_r by lia. change (10 ^ Z.of_nat 1) with 10. ring.
Qed.

Lemma digits_value_app s t :
  digits_value (s ++ t) = digits_value s * 10 ^ Z.of_nat (length t) + digits_value t.
Proof.
  induction s as [|b s IH]; [done|]. cbn [app]. rewrite !digits_value_cons, IH, length_app, Nat2Z.inj_add.
  rewrite Z.pow_add_r by lia. ring.
Qed.

Lemma digit_value_range b : is_digit b = true -> 0 <= digit_value b <= 9.
Proof. intros Hb%is_digit_range. unfold digit_value. lia. Qed.

Lemma digits_value_bound s : DoubleFacts.digits s -> 0 <= digits_value s < 10 ^ Z.of_nat (length s).
Proof.
  induction 1 as [|b s Hb _ IH]; [by vm_compute|].
  rewrite digits_value_cons. cbn [length]. rewrite Nat2Z.inj_succ, Z.pow_succ_r by lia.
  apply digit_value_range in Hb. nia.
Qed.

Lemma digits_value_head b s :
  DoubleFacts.digits (b :: s) -> b <> "0"%byte -> 10 ^ Z.of_nat (length s) <= digits_value (b :: s).
Proof.
  intros Hd Hb. inversion Hd as [|? ? Hb' Hs]; subst. rewrite digits_value_cons.
  pose proof (digits_value_bound s Hs) as Hv. apply is_digit_range in Hb' as Hr.
  assert (digit_value b <> 0) as Hz.
  { intros E. apply Hb. apply (inj uc). unfold digit_value in E. change (uc "0") with 48. lia. }
  unfold digit_value in *. nia.
Qed.

(** ** Comparing digits *)

Lemma sgn_scale x k : 0 <= k -> Z.sgn (x * 10 ^ k) = Z.sgn x.
Proof. intros. pose proof (Z.pow_pos_nonneg 10 k). rewrite Z.sgn_mul, (Z.sgn_pos (10 ^ k)) by lia. lia. Qed.

Lemma compare_digits_nil_l b : DoubleFacts.digits b -> compare_digits [] b = - Z.sgn (digits_value b).
Proof.
  induction 1 as [|y b Hy Hb IH]; [done|]. cbn [compare_digits] in *.
  pose proof (digits_value_bound b Hb) as Hv. rewrite digits_value_cons.
  destruct ("0" =b? y) eqn:E; cbn [negb]; reflect_bools.
  - change (digit_value "0") with 0. rewrite Z.mul_0_l, Z.add_0_l.
    rewrite <-IH. by destruct b.
  - apply is_digit_range in Hy as Hr. unfold signed_char. change (uc "0" <? 128) with true.
    change (uc "0") with 48. replace (uc y <? 128) with true by lia. cbn iota.
    assert (uc y <> 48) as Hne by (intros H; apply E, (inj uc); change (uc "0") with 48; lia).
    replace (48 <? uc y) with true by lia. unfold digit_value. rewrite Z.sgn_pos; [done|nia].
Qed.

Lemma compare_digits_nil_r a : DoubleFacts.digits a -> compare_digits a [] = Z.sgn (digits_value a).
Proof.
  induction 1 as [|x a Hx Ha IH]; [done|]. cbn [compare_digits].
  pose proof (digits_value_bound a Ha) as Hv. rewrite digits_value_cons.
  destruct (x =b? "0") eqn:E; cbn [negb]; reflect_bools.
  - change (digit_value "0") with 0. by rewrite Z.mul_0_l, Z.add_0_l.
  - apply is_digit_range in Hx as Hr. unfold signed_char. change (uc "0" <? 128) with true.
    change (uc "0") with 48. replace (uc x <? 128) with true by lia. cbn iota.
    assert (uc x <> 48) as Hne by (intros H; apply E, (inj uc); change (uc "0") with 48; lia).
    replace (uc x <? 48) with false by lia. unfold digit_value. rewrite Z.sgn_pos; [done|nia].
Qed.

(** Two digit texts after the same point, as fractions of [10 ^ L]. *)
Lemma compare_digits_spec a b L :
  DoubleFacts.digits a -> DoubleFacts.digits b ->
  Z.of_nat (length a) <= L -> Z.of_nat (length b) <= L ->
  compare_digits a b =
  Z.sgn (digits_value a * 10 ^ (L - Z.of_nat (length a)) - digits_value b * 10 ^ (L - Z.of_nat (length b))).
Proof.
  intros Ha. revert b L. induction Ha as [|x a Hx Ha IH]; intros b L Hb La Lb.
  { rewrite compare_digits_nil_l by done. change (digits_value []) with 0.
    rewrite <-(sgn_scale (digits_value b) (L - Z.of_nat (length b))), <-Z.sgn_opp by lia. done. }
  destruct Hb as [|y b Hy Hb].
  { rewrite compare_digits_nil_r by (by constructor). change (digits_value []) with 0.
    rewrite <-(sgn_scale _ (L - Z.of_nat (length (x :: a)))) by lia. f_equal. lia. }
  cbn [length compare_digits] in *. rewrite !digits_value_cons.
  pose proof (digits_value_bound a Ha) as Va. pose proof (digits_value_bound b Hb) as Vb.
  set (p := Z.of_nat (length a)) in *. set (q := Z.of_nat (length b)) in *.
  assert (10 ^ p * 10 ^ (L - Z.of_nat (S (length a))) = 10 ^ (L - 1)) as Ep
    by (rewrite <-Z.pow_add_r by lia; f_equal; lia).
  assert (10 ^ q * 10 ^ (L - Z.of_nat (S (length b))) = 10 ^ (L - 1)) as Eq
    by (rewrite <-Z.pow_add_r by lia; f_equal; lia).
  destruct (x =b? y) eqn:E; cbn [negb]; reflect_bools.
  - rewrite (IH b (L - 1)) by (done || lia). f_equal.
    replace (L - 1 - p) with (L - Z.of_nat (S (length a))) by lia.
    replace (L - 1 - Z.of_nat (length b)) with (L - Z.of_nat (S (length b))) by lia.
    rewrite !Z.mul_add_distr_r, <-!Z.mul_assoc, Ep, Eq. lia.
  - apply is_digit_range in Hx. apply is_digit_range in Hy. unfold signed_char.
    replace (uc x <? 128) with true by lia. replace (uc y <? 128) with true by lia. cbn iota.
    pose proof (Z.pow_pos_nonneg 10 (L - Z.of_nat (S (length a))) ltac:(lia) ltac:(lia)).
    pose proof (Z.pow_pos_nonneg 10 (L - Z.of_nat (S (length b))) ltac:(lia) ltac:(lia)).
    assert (digits_value a * 10 ^ (L - Z.of_nat (S (length a))) < 10 ^ (L - 1)) by (rewrite <-Ep; nia).
    assert (digits_value b * 10 ^ (L - Z.of_nat (S (length b))) < 10 ^ (L - 1)) by (rewrite <-Eq; nia).
    rewrite !Z.mul_add_distr_r, <-!Z.mul_assoc, Ep, Eq. unfold digit_value.
    assert (uc x <> uc y) by (intros H'; by apply E, (inj uc)).
    destruct (Z.ltb_spec (uc x) (uc y)); [rewrite Z.sgn_neg|rewrite Z.sgn_pos]; (done || nia).
Qed.

(** ** The parts of a numeric text *)

(** An exponent suffix and its value. *)
Definition exponent_suffix (ext : bytes) (x : Z) : Prop :=
  (ext = [] /\ x = 0) \/
  exists e sg ds, ext = e :: sg ++ ds /\ is_e e = true /\ ds <> [] /\ DoubleFacts.digits ds /\
    ((sg = [] \/ sg = ["+"%byte]) /\ x = digits_value ds \/ sg = ["-"%byte] /\ x = - digits_value ds).

Definition signed (neg : bool) (n : Z) : Z := if neg then - n else n.

Record shape (s : bytes) (neg : bool) (ints : bytes) (dot : bool) (frac ext : bytes) (x : Z) : Prop := {
  shape_text : s = sign_text neg ++ ints ++ (if dot then "."%byte :: frac else []) ++ ext;
  shape_ints : DoubleFacts.digits ints;
  shape_frac : DoubleFacts.digits frac;
  shape_dot : dot = false -> frac = [];
  shape_some : ints ++ frac <> [];
  shape_suffix : exponent_suffix ext x;
  shape_value : read_decimal s = Some (signed neg (digits_value (ints ++ frac)), x - Z.of_nat (length frac));
  shape_double : is_Some (decimal_double neg (digits_value (ints ++ frac)) (x - Z.of_nat (length frac)))
}.

Lemma read_exponent_inv s x : read_exponent s = (x, []) -> exponent_suffix s x.
Proof.
  unfold read_exponent. destruct s as [|e s]; [intros [= <-]; by left|].
  destruct (_ || _) eqn:He; [|done]. intros H.
  destruct (match s with [] => _ | _ => _ end) as [neg s2] eqn:Hs2.
  destruct (span is_digit s2) as [ds rest] eqn:Hsp. pose proof (span_Forall _ _ _ _ Hsp) as Hds.
  apply span_app in Hsp as ->. destruct ds as [|d ds]; [done|]. injection H as <- ->.
  right. rewrite app_nil_r in Hs2. destruct s as [|c s]; [done|].
  destruct (c =b? "-") eqn:E1; [|destruct (c =b? "+") eqn:E2]; reflect_bools; simplify_eq.
  - exists e, ["-"%byte], (d :: ds). split_and!; [done..|by right].
  - exists e, ["+"%byte], (d :: ds). split_and!; [done..|left; auto].
  - exists e, [], (d :: ds). split_and!; [done..|left; auto].
Qed.

Lemma read_fraction_inv s frac rest :
  read_fraction s = (frac, rest) ->
  DoubleFacts.digits frac /\
  exists dot : bool, s = (if dot then "."%byte :: frac else []) ++ rest /\ (dot = false -> frac = []).
Proof.
  unfold read_fraction. destruct s as [|c s]; [intros [= <- <-]; split; [constructor|by exists false]|].
  destruct (c =b? ".") eqn:E; reflect_bools.
  - intros H. split; [by apply (span_Forall _ _ _ _ H)|]. exists true.
    by rewrite (span_app _ _ _ _ H).
  - intros [= <- <-]. split; [constructor|]. by exists false.
Qed.

Lemma numeric_shape s : numeric s = true -> exists neg ints dot frac ext x, shape s neg ints dot frac ext x.
Proof.
  unfold numeric, from_chars_double. intros H.
  destruct (match s with [] => _ | _ => _ end) as [neg s1] eqn:Hs1.
  destruct (span is_digit s1) as [ints s2] eqn:Hint.
  destruct (read_fraction s2) as [frac s3] eqn:Hfrac.
  destruct (read_exponent s3) as [x s4] eqn:Hexp.
  destruct (ints ++ frac) as [|d ds] eqn:Hd; [done|]. destruct s4; [|done].
  destruct (decimal_double _ _ _) as [v|] eqn:Hv; [|done].
  destruct (read_fraction_inv _ _ _ Hfrac) as (Hf & dot & Hs2 & Hdot).
  exists neg, ints, dot, frac, s3, x. constructor; rewrite ?Hd; try done.
  - rewrite <-Hs2, <-(span_app _ _ _ _ Hint). destruct s as [|b s]; [by injection Hs1 as <- <-|].
    destruct (b =b? "-") eqn:E; reflect_bools; by injection Hs1 as <- <-.
  - by apply (span_Forall _ _ _ _ Hint).
  - by apply read_exponent_inv.
  - unfold read_decimal. rewrite Hs1, Hint, Hfrac, Hexp, Hd. by destruct neg.
Qed.

(** ** Finite doubles have small exponents *)

Lemma round_half_even_small n d : 0 <= n -> 2 * n < d -> round_half_even n d = 0.
Proof.
  intros Hn Hd. unfold round_half_even. rewrite Z.div_small, Z.mod_small by lia.
  by replace (2 * n <? d) with true by lia.
Qed.

Lemma round_double_bounds neg a b d :
  0 < a -> 0 < b -> round_double neg a b = Some d -> a < 2 ^ 1026 * b /\ b <= a * 2 ^ 1080.
Proof.
  intros Ha Hb. unfold round_double.
  pose proof (Z.log2_spec a Ha) as La. pose proof (Z.log2_spec b Hb) as Lb.
  pose proof (Z.log2_nonneg a) as Na. pose proof (Z.log2_nonneg b) as Nb.
  assert (Z.max (-1074) (Z.log2 a - Z.log2 b - 53) <= round_exponent a b <=
          Z.max (-1074) (Z.log2 a - Z.log2 b - 53) + 1) as He.
  { unfold round_exponent. destruct (scaled _ _ _ _). case_goal; lia. }
  set (e := round_exponent a b) in *. clearbody e.
  destruct (scaled 2 a b e) as [n q] eqn:Hs.
  destruct (if _ =? 2 ^ 53 then _ else _) as [m e'] eqn:Hm.
  destruct (_ || _) eqn:Hbad; [done|]. intros _. reflect_bools.
  assert (e <= e') as Hee by (case_hyp Hm; simplify_eq; lia). split.
  - apply Z.lt_le_trans with (2 ^ Z.succ (Z.log2 a)); [lia|].
    apply Z.le_trans with (2 ^ (1026 + Z.log2 b)); [apply Z.pow_le_mono_r; lia|].
    rewrite Z.pow_add_r by lia. lia.
  - destruct (Z.le_gt_cases b (a * 2 ^ 1080)) as [|Hlt]; [done|exfalso].
    assert (Z.log2 a + 1080 <= Z.log2 b) as Hl.
    { replace (Z.log2 a + 1080) with (1080 + Z.log2 a) by lia.
      rewrite <-Z.log2_mul_pow2 by lia. apply Z.log2_le_mono. lia. }
    assert (n = a * 2 ^ (- e) /\ q = b) as [-> ->].
    { unfold scaled in Hs. replace (0 <=? e) with false in Hs by lia. by injection Hs as <- <-. }
    rewrite round_half_even_small in Hm; [change (0 =? 2 ^ 53) with false in Hm; congruence|lia|].
    pose proof (Z.pow_le_mono_r 2 (- e) 1074 ltac:(lia) ltac:(lia)). nia.
Qed.

Lemma decimal_double_exponent neg n k d len :
  0 < n < 10 ^ len -> 0 <= len -> decimal_double neg n k = Some d -> - len - 400 <= k <= 400.
Proof.
  intros Hn Hlen. unfold decimal_double, scaled. replace (n =? 0) with false by lia.
  destruct (Z.leb_spec 0 (- k)) as [Hk0|Hk0]; intros H%round_double_bounds; try lia.
  - destruct H as [_ H]. split; [|lia]. destruct (Z.le_gt_cases (- len - 400) k) as [|Hk]; [done|exfalso].
    assert (10 ^ (len + 400) <= 10 ^ (- k)) as Hp by (apply Z.pow_le_mono_r; lia).
    rewrite Z.pow_add_r in Hp by lia. assert (2 ^ 1080 < 10 ^ 400) by (by vm_compute). nia.
  - destruct H as [H _]. split; [lia|]. destruct (Z.le_gt_cases k 400) as [|Hk]; [done|exfalso].
    assert (10 ^ 400 <= 10 ^ (- - k)) as Hp by (apply Z.pow_le_mono_r; lia).
    assert (2 ^ 1026 < 10 ^ 400) by (by vm_compute). nia.
Qed.

(** ** What [decimal] makes of a numeric text *)

Lemma cut_at_free p l r : Forall (fun c => p c = false) l -> cut_at p (l ++ r) = (l ++ (cut_at p r).1, (cut_at p r).2).
Proof.
  induction 1 as [|c l Hc _ IH]; cbn; [by destruct (cut_at p r)|]. by rewrite Hc, IH.
Qed.

Lemma digit_not_e c : is_digit c = true -> is_e c = false.
Proof.
  intros H. assert ((negb (is_digit c) || negb (is_e c)) = true) as E by (clear; by_bytes).
  rewrite H in E. by apply negb_true_iff in E.
Qed.

Lemma digit_not_dot c : is_digit c = true -> c <> "."%byte.
Proof. by intros H ->. Qed.

Lemma digits_no_dot s : DoubleFacts.digits s -> filter (fun c => c <> "."%byte) s = s.
Proof.
  induction 1 as [|c s Hc _ IH]; [done|]. rewrite filter_cons_True, IH; [done|by apply digit_not_dot].
Qed.

Lemma dot_not_digits s : DoubleFacts.digits s -> "."%byte ∉ s.
Proof. intros Hs Hin. by apply (proj1 (Forall_forall _ _) Hs) in Hin. Qed.

(** The text before the exponent. *)
Definition body (ints : bytes) (dot : bool) (frac : bytes) : bytes :=
  ints ++ (if dot then "."%byte :: frac else []).

Lemma body_no_e ints dot frac :
  DoubleFacts.digits ints -> DoubleFacts.digits frac -> Forall (fun c => is_e c = false) (body ints dot frac).
Proof.
  intros Hi Hf. assert (forall s, DoubleFacts.digits s -> Forall (fun c => is_e c = false) s) as H.
  { intros s Hs. eapply Forall_impl; [exact Hs|]. apply digit_not_e. }
  unfold body. apply Forall_app. split; [by apply H|]. destruct dot; constructor; [done|by apply H].
Qed.

Definition plus_free (power : bytes) : bytes :=
  match power with c :: rest => if c =b? "+" then rest else power | [] => [] end.

Lemma suffix_cut ext x :
  exponent_suffix ext x ->
  exists power : option bytes, cut_at is_e ext = ([], power) /\
    (INT_MIN <= x <= INT_MAX ->
     match plus_free (default [] power) with
     | [] => 0 | _ => from_chars_or_zero (plus_free (default [] power)) end = x).
Proof.
  intros [[-> ->]|(e & sg & ds & -> & He & Hne & Hds & Hx)]; [by exists None|].
  exists (Some (sg ++ ds)). cbn [cut_at]. rewrite He. split; [done|]. intros Hr. cbn [default].
  assert (span is_digit ds = (ds, [])) as Hsp.
  { rewrite <-(app_nil_r ds) at 1. by apply span_stop. }
  assert (from_chars INT_MIN INT_MAX (if decide (sg = ["-"%byte]) then "-"%byte :: ds else ds) = Some (x, [])) as E.
  { unfold from_chars. change (INT_MIN <? 0) with true. destruct ds as [|d ds]; [done|].
    inversion Hds; subst. case_decide as Hd.
    - destruct Hx as [[[->| ->] _]|[_ ->]]; [done..|]. rewrite byte_eqb_refl. cbn [andb]. rewrite Hsp.
      replace (_ && _) with true by lia. done.
    - destruct Hx as [[_ ->]|[-> _]]; [|done]. rewrite digit_not_minus by done. cbn [andb].
      rewrite Hsp. by replace (_ && _) with true by lia. }
  destruct ds as [|d ds]; [done|]. inversion Hds as [|? ? Hd _]; subst.
  assert ((d =b? "+") = false) as Hp.
  { destruct (d =b? "+") eqn:Ep; [|done]. by reflect_bools. }
  unfold plus_free, id, from_chars_or_zero. destruct Hx as [[[->| ->] _]|[-> _]]; cbn [app].
  - rewrite decide_False in E by done. by rewrite Hp, E.
  - rewrite decide_False in E by done. by rewrite byte_eqb_refl, E.
  - rewrite decide_True in E by done. change ("-" =b? "+") with false. cbn iota beta. by rewrite E.
Qed.

(** The digits, with the sign and the position of the first one, are the number. *)
Record represents (d : Decimal) (n k : Z) : Prop := {
  rep_zero : dec_digits d = [] -> n = 0 /\ negative d = false;
  rep_digits : DoubleFacts.digits (dec_digits d);
  rep_head : forall b ds, dec_digits d = b :: ds -> b <> "0"%byte;
  rep_value : exists t, 0 <= t /\
    n = signed (negative d) (digits_value (dec_digits d)) * 10 ^ t /\
    (dec_digits d <> [] -> k = magnitude d - Z.of_nat (length (dec_digits d)) - t)
}.

Lemma drop_zeros_head s b ds : drop_zeros s = b :: ds -> b <> "0"%byte.
Proof.
  induction s as [|c s IH]; [done|]. cbn [drop_zeros]. destruct (c =b? "0") eqn:E; [done|].
  reflect_bools. by intros [= -> ->].
Qed.

Lemma strip_zeros_cons b ds : b <> "0"%byte -> exists ds', strip_zeros (b :: ds) = b :: ds'.
Proof.
  intros Hb. destruct (strip_zeros_spec (b :: ds)) as [n Hn].
  destruct (strip_zeros (b :: ds)) as [|c cs]; [|injection Hn as <- _; by eauto].
  destruct n as [|n]; [done|]. by injection Hn as -> _.
Qed.

Lemma drop_zeros_digits s : DoubleFacts.digits s -> DoubleFacts.digits (drop_zeros s).
Proof.
  intros Hs. destruct (drop_zeros_spec s) as [n Hn]. rewrite Hn in Hs. by apply Forall_app in Hs as [_ ?].
Qed.

Lemma decimal_shape s neg ints dot frac ext x :
  shape s neg ints dot frac ext x -> Z.of_nat (length s) < 2 ^ 30 ->
  represents (decimal s) (signed neg (digits_value (ints ++ frac))) (x - Z.of_nat (length frac)).
Proof.
  intros [Hs Hi Hf Hdot Hne Hsuf _ Hdbl] Hlen. unfold decimal.
  assert (match s with c :: rest => if c =b? "-" then (true, rest) else (false, s) | [] => (false, []) end
          = (neg, body ints dot frac ++ ext)) as ->.
  { subst s. unfold body. rewrite <-(assoc_L (++)). destruct neg; [done|]. cbn [sign_text app].
    destruct ints as [|i ints].
    - destruct dot; [done|]. by rewrite Hdot in Hne by done.
    - inversion Hi; subst. cbn [app]. by rewrite digit_not_minus. }
  destruct (suffix_cut ext x Hsuf) as (power & Hcut & Hpower).
  rewrite cut_at_free, Hcut by (by apply body_no_e). cbn [fst snd]. rewrite app_nil_r.
  fold (plus_free (default [] power)).
  assert (until "." (body ints dot frac) = (ints, if dot then Some frac else None)) as ->.
  { unfold body. destruct dot; [by apply until_app, dot_not_digits|].
    rewrite app_nil_r. by apply until_none, dot_not_digits. }
  assert (filter (fun c => c <> "."%byte) (body ints dot frac) = ints ++ frac) as ->.
  { unfold body. rewrite filter_app, digits_no_dot by done. f_equal.
    destruct dot; [by rewrite filter_cons_False, digits_no_dot by naive_solver|by rewrite Hdot]. }
  assert (match (if dot then Some frac else None) with
          | Some _ => Z.of_nat (length ints) | None => Z.of_nat (length (body ints dot frac)) end
          = Z.of_nat (length ints)) as Hpoint.
  { unfold body. destruct dot; [done|]. by rewrite app_nil_r. }
  assert (DoubleFacts.digits (ints ++ frac)) as Hds by (by apply Forall_app).
  destruct (drop_zeros_spec (ints ++ frac)) as [z Hz].
  pose proof (drop_zeros_digits _ Hds) as Hdz. pose proof (drop_zeros_head (ints ++ frac)) as Hhead.
  destruct (drop_zeros (ints ++ frac)) as [|b ds] eqn:Hd.
  - assert (signed neg (digits_value (ints ++ frac)) = 0) as ->.
    { rewrite Hz, digits_value_zeros_l. by destruct neg. }
    constructor; [done|constructor|done|]. by exists 0.
  - specialize (Hhead b ds eq_refl). destruct (strip_zeros_cons b ds Hhead) as [ds' Hst].
    destruct (strip_zeros_spec (b :: ds)) as [t Ht]. rewrite Hst in Ht.
    pose proof (strip_zeros_digits _ Hdz) as Hsd. rewrite Hst in Hsd.
    pose proof (f_equal length Hz) as Hzl. rewrite !length_app, length_replicate in Hzl.
    pose proof (f_equal length Ht) as Htl. rewrite length_app, length_replicate in Htl.
    assert (length ints + length frac <= length s)%nat as Hls.
    { subst s. rewrite !length_app. destruct dot; [cbn; lia|]. rewrite Hdot by done. cbn. lia. }
    assert (digits_value (ints ++ frac) = digits_value (b :: ds)) as Hv
      by (by rewrite Hz, digits_value_zeros_l).
    assert (INT_MIN <= x <= INT_MAX) as Hx.
    { destruct Hdbl as [d Hdbl]. unfold INT_MIN, INT_MAX.
      eapply (decimal_double_exponent _ _ _ _ (Z.of_nat (length ints + length frac))) in Hdbl; [lia| |lia].
      pose proof (digits_value_head b ds Hdz Hhead). pose proof (digits_value_bound _ Hds) as Hb.
      rewrite length_app in Hb. lia. }
    rewrite Hpower, Hpoint, Hst, Hv by done. constructor; cbn [dec_digits negative magnitude]; [done|done| |].
    + by intros ? ? [= <- <-].
    + exists (Z.of_nat t). split; [lia|]. split; [|cbn [length] in *; intros _; rewrite length_app; lia].
      rewrite Ht, digits_value_zeros_r. destruct neg; cbn [signed]; lia.
Qed.

(** ** The order *)

Lemma decimal_scale n k m :
  m <= k -> inject_Z n * Qpower (inject_Z 10) k == inject_Z (n * 10 ^ (k - m)) * Qpower (inject_Z 10) m.
Proof.
  intros Hm. rewrite inject_Z_mult, Zpower_Qpower by lia. rewrite <-Qmult_assoc, <-Qpower_plus by done.
  by replace (k - m + m)%Z with k by lia.
Qed.

Lemma decimal_order n1 k1 n2 k2 m :
  m <= k1 -> m <= k2 ->
  order_sign (inject_Z n1 * Qpower (inject_Z 10) k1 ?= inject_Z n2 * Qpower (inject_Z 10) k2)%Q =
  Z.sgn (n1 * 10 ^ (k1 - m) - n2 * 10 ^ (k2 - m)).
Proof.
  intros H1 H2. rewrite (decimal_scale n1 k1 m), (decimal_scale n2 k2 m) by done.
  set (x := n1 * _). set (y := n2 * _). set (c := Qpower (inject_Z 10) m).
  assert (0 < c)%Q as Hc by (by apply Qpower_0_lt).
  destruct (Z.lt_trichotomy x y) as [Hlt|[Heq|Hgt]].
  - rewrite Z.sgn_neg by lia. rewrite (proj1 (Qlt_alt _ _)); [done|].
    apply Qmult_lt_r; [done|]. by rewrite <-Zlt_Qlt.
  - rewrite Heq, Z.sub_diag. by rewrite (proj1 (Qeq_alt _ _) (Qeq_refl _)).
  - rewrite Z.sgn_pos by lia. rewrite (proj1 (Qgt_alt _ _)); [done|].
    apply Qmult_lt_r; [done|]. by rewrite <-Zlt_Qlt.
Qed.

Lemma represents_scaled d n k m :
  represents d n k -> m <= k ->
  exists X, n * 10 ^ (k - m) = signed (negative d) X /\
    (dec_digits d = [] -> X = 0) /\
    (dec_digits d <> [] ->
       0 <= magnitude d - m - Z.of_nat (length (dec_digits d)) /\
       X = digits_value (dec_digits d) * 10 ^ (magnitude d - m - Z.of_nat (length (dec_digits d))) /\
       10 ^ (magnitude d - m - 1) <= X < 10 ^ (magnitude d - m)).
Proof.
  intros [Hz Hds Hhd (t & Ht & Hn & Hk)] Hm. destruct (dec_digits d) as [|b ds] eqn:E.
  { exists 0. destruct Hz as [-> _]; [done|]. split; [by destruct (negative d)|]. by split. }
  specialize (Hk ltac:(done)). set (L := Z.of_nat (length (b :: ds))) in *.
  exists (digits_value (b :: ds) * 10 ^ (magnitude d - m - L)).
  assert (10 ^ t * 10 ^ (k - m) = 10 ^ (magnitude d - m - L)) as Hp
    by (rewrite <-Z.pow_add_r by lia; f_equal; lia).
  split; [|split; [done|intros _; split; [lia|split; [done|]]]].
  - rewrite Hn, <-Z.mul_assoc, Hp. destruct (negative d); cbn [signed]; lia.
  - pose proof (digits_value_head b ds Hds (Hhd b ds eq_refl)) as Hlo.
    pose proof (digits_value_bound _ Hds) as [_ Hhi]. fold L in Hhi.
    assert (Z.of_nat (length ds) = L - 1) as El by (unfold L; cbn [length]; lia). rewrite El in Hlo.
    assert (10 ^ (magnitude d - m - 1) = 10 ^ (L - 1) * 10 ^ (magnitude d - m - L)) as ->
      by (rewrite <-Z.pow_add_r by (unfold L in *; cbn [length] in *; lia); f_equal; lia).
    assert (10 ^ (magnitude d - m) = 10 ^ L * 10 ^ (magnitude d - m - L)) as ->
      by (rewrite <-Z.pow_add_r by lia; f_equal; lia).
    split; [apply Z.mul_le_mono_nonneg_r; [lia|done]|apply Z.mul_lt_mono_pos_r; lia].
Qed.

Lemma compare_represents l r n1 k1 n2 k2 m :
  represents (decimal l) n1 k1 -> represents (decimal r) n2 k2 -> m <= k1 -> m <= k2 ->
  compare l r = Z.sgn (n1 * 10 ^ (k1 - m) - n2 * 10 ^ (k2 - m)).
Proof.
  intros R1 R2 H1 H2. unfold compare. pose proof (rep_digits _ _ _ R1) as D1. pose proof (rep_digits _ _ _ R2) as D2.
  pose proof (fun E => proj2 (rep_zero _ _ _ R1 E)) as S1. pose proof (fun E => proj2 (rep_zero _ _ _ R2 E)) as S2.
  destruct (represents_scaled _ _ _ _ R1 H1) as (X & -> & Z1 & P1).
  destruct (represents_scaled _ _ _ _ R2 H2) as (Y & -> & Z2 & P2). clear R1 R2.
  destruct (decimal l) as [s1 M1 d1], (decimal r) as [s2 M2 d2]; cbn [dec_digits negative magnitude] in *.
  assert (d1 <> [] -> 0 < X) as X1.
  { intros Hd. destruct (P1 Hd) as (? & ? & ? & _). destruct d1; [done|]. cbn [length] in *.
    pose proof (Z.pow_pos_nonneg 10 (M1 - m - 1)). lia. }
  assert (d2 <> [] -> 0 < Y) as Y1.
  { intros Hd. destruct (P2 Hd) as (? & ? & ? & _). destruct d2; [done|]. cbn [length] in *.
    pose proof (Z.pow_pos_nonneg 10 (M2 - m - 1)). lia. }
  assert (d1 <> [] -> d2 <> [] ->
          (if negb (M1 =? M2) then if M1 <? M2 then -1 else 1 else compare_digits d1 d2) = Z.sgn (X - Y)) as HO.
  { intros Hd1 Hd2. destruct (P1 Hd1) as (G1 & E1 & L1 & U1), (P2 Hd2) as (G2 & E2 & L2 & U2).
    destruct (Z.eqb_spec M1 M2) as [->|Hne]; cbn [negb].
    - rewrite (compare_digits_spec _ _ (M2 - m)) by (done || lia). by rewrite <-E1, <-E2.
    - destruct (Z.ltb_spec M1 M2).
      + rewrite Z.sgn_neg; [done|]. pose proof (Z.pow_le_mono_r 10 (M1 - m) (M2 - m - 1)). lia.
      + rewrite Z.sgn_pos; [done|]. pose proof (Z.pow_le_mono_r 10 (M2 - m) (M1 - m - 1)). lia. }
  destruct d1 as [|c1 d1], d2 as [|c2 d2].
  - rewrite Z1, Z2 by done. by destruct s1, s2.
  - rewrite Z1, S1 by done. specialize (Y1 ltac:(done)). destruct s2; case_bool_decide; try done; cbn -[Z.sub Z.sgn Z.opp]; lia.
  - rewrite Z2, S2 by done. specialize (X1 ltac:(done)). destruct s1; case_bool_decide; try done; cbn -[Z.sub Z.sgn Z.opp]; lia.
  - rewrite HO by done. specialize (X1 ltac:(done)). specialize (Y1 ltac:(done)).
    destruct s1, s2; case_bool_decide; try done; cbn -[Z.sub Z.sgn Z.opp]; lia.
Qed.

Lemma compare_sign left right :
  numeric left = true -> numeric right = true ->
  Z.of_nat (length left) < 2 ^ 30 -> Z.of_nat (length right) < 2 ^ 30 ->
  compare left right = order_sign (decimal_value left ?= decimal_value right)%Q.
Proof.
  intros (s1 & i1 & p1 & f1 & e1 & x1 & H1)%numeric_shape (s2 & i2 & p2 & f2 & e2 & x2 & H2)%numeric_shape L1 L2.
  unfold decimal_value. rewrite (shape_value _ _ _ _ _ _ _ H1), (shape_value _ _ _ _ _ _ _ H2).
  rewrite (decimal_order _ _ _ _ (Z.min (x1 - Z.of_nat (length f1)) (x2 - Z.of_nat (length f2)))) by lia.
  apply compare_represents; [by eapply decimal_shape|by eapply decimal_shape|lia..].
Qed.

(** [compare] orders two numeric texts as the rational numbers they denote, however
    many digits they have and whatever their exponents: no bound is rounded through a
    floating-point number on the way. *)
Theorem compare_exact left right :
  numeric left = true -> numeric right = true ->
  Z.of_nat (length left) < 2 ^ 30 -> Z.of_nat (length right) < 2 ^ 30 ->
  (compare left right < 0 <-> (decimal_value left < decimal_value right)%Q) /\
  (compare left right = 0 <-> (decimal_value left == decimal_value right)%Q) /\
  (0 < compare left right <-> (decimal_value right < decimal_value left)%Q).
Proof.
  intros H1 H2 L1 L2. rewrite compare_sign by done. rewrite Qlt_alt, Qeq_alt, Qgt_alt.
  destruct (_ ?= _)%Q; cbn; intuition (lia || congruence).
Qed.

Lemma compare_exact_witness :
  let a := lit "18446744073709551615" in let b := lit "1.8446744073709551614e+19" in
  compare a b = 1 /\ (decimal_value b < decimal_value a)%Q.
Proof.
  intros a b. split; [reflexivity|]. apply (compare_exact a b); reflexivity.
Defined.

(** ** Printed numbers *)

Lemma digit_of_value b : is_digit b = true -> digit (digit_value b) = b.
Proof. intros Hb. unfold digit, digit_value. rewrite <-(chr_uc b) at 2. f_equal. lia. Qed.

(** Digits with no leading zero are what prints their value. *)
Lemma to_digits_unique f b s :
  DoubleFacts.digits (b :: s) -> (b = "0"%byte -> s = []) -> (length s < f)%nat ->
  to_digits f (digits_value (b :: s)) = b :: s.
Proof.
  revert f. induction s as [|c s IH] using rev_ind; intros f Hd Hb Hf; (destruct f as [|f]; [cbn in Hf; lia|]).
  - inversion Hd as [|? ? Hd' _]; subst. cbn [to_digits]. pose proof (digit_value_range b Hd').
    change (digits_value [b]) with (digit_value b). replace (digit_value b <? 10) with true by lia.
    by rewrite digit_of_value.
  - rewrite app_comm_cons in *. apply Forall_app in Hd as [Hd Hc]. rewrite Forall_singleton in Hc.
    assert (b <> "0"%byte) as Hb0 by (intros E; by destruct s; specialize (Hb E)).
    pose proof (digits_value_head b s Hd Hb0) as Hlo. pose proof (digit_value_range c Hc) as Hcv.
    cbn [to_digits]. rewrite digits_value_snoc.
    pose proof (Z.pow_pos_nonneg 10 (Z.of_nat (length s)) ltac:(lia) ltac:(lia)) as Hp.
    replace (_ <? 10) with false by lia.
    replace ((digits_value (b :: s) * 10 + digit_value c) / 10) with (digits_value (b :: s)) by div_lia.
    replace ((digits_value (b :: s) * 10 + digit_value c) mod 10) with (digit_value c) by div_lia.
    rewrite length_app in Hf. cbn [length] in Hf. rewrite IH, digit_of_value by (done || lia). done.
Qed.

Lemma to_string_u_unique b s :
  DoubleFacts.digits (b :: s) -> (b = "0"%byte -> s = []) -> to_string_u (digits_value (b :: s)) = b :: s.
Proof.
  intros Hd Hb. unfold to_string_u. apply to_digits_unique; [done..|].
  destruct (decide (b = "0"%byte)) as [E|E]; [rewrite Hb by done; cbn; lia|].
  pose proof (digits_value_head b s Hd E) as Hlo.
  assert (2 ^ Z.of_nat (length s) <= digits_value (b :: s)) as H2.
  { etrans; [|exact Hlo]. apply Z.pow_le_mono_l. lia. }
  apply Z.log2_le_pow2 in H2; lia.
Qed.

(** ** IPv4 addresses *)

(** Pieces joined by a separator. *)
Definition join (stop : byte) (pieces : list bytes) : bytes :=
  match pieces with [] => [] | p :: ps => p ++ (ps ≫= fun q => stop :: q) end.

Lemma join_fields stop s : join stop (fields stop s) = s.
Proof.
  induction s as [|c s IH]; [done|]. cbn [fields]. destruct (c =b? stop) eqn:E; reflect_bools.
  - cbn [join app]. rewrite <-IH at 2. destruct (fields stop s) as [|p ps] eqn:Ef; [|done].
    rewrite fields_until in Ef. by destruct (until stop s) as [? [?|]].
  - destruct (fields stop s) as [|p ps] eqn:Ef; [by subst|]. cbn [join app] in *. by rewrite IH.
Qed.

Lemma fields_join stop p ps :
  Forall (fun q => stop ∉ q) (p :: ps) -> fields stop (join stop (p :: ps)) = p :: ps.
Proof.
  revert p. induction ps as [|q ps IH]; intros p Hp; inversion Hp as [|? ? Hp1 Hp2]; subst.
  - cbn [join mbind list_bind]. rewrite app_nil_r, fields_until, until_none by done. done.
  - rewrite fields_until. cbn [join mbind list_bind app]. rewrite until_app by done. f_equal.
    by apply (IH q).
Qed.

(** A dotted quad. *)
Definition dotted (octets : list Z) : bytes := join "." (map to_string octets).

Lemma to_string_is_digits v : 0 <= v -> DoubleFacts.digits (to_string v).
Proof. intros. unfold to_string. replace (v <? 0) with false by lia. by apply digits_to_string_u. Qed.

Lemma octet_iff token : octet_ok token = true <-> exists v, 0 <= v <= 255 /\ token = to_string v.
Proof.
  unfold octet_ok, from_chars_unsigned. split.
  - intros H. reflect_bools. destruct (from_chars_all _ _ token) as [v|] eqn:Hv; [|done]. reflect_bools.
    unfold from_chars_all, from_chars in Hv. change (0 <? 0) with false in Hv. cbn [andb] in Hv.
    assert (match token with [] => (false, []) | b :: s' => (false, token) end = (false, token)) as E
      by (by destruct token).
    rewrite E in Hv. destruct (span is_digit token) as [ds rest] eqn:Hsp.
    pose proof (span_Forall _ _ _ _ Hsp) as Hds. apply span_app in Hsp.
    destruct ds as [|b ds]; [done|]. destruct (_ && _) eqn:Hr in Hv; [|done].
    destruct rest; [|done]. injection Hv as Hv. rewrite app_nil_r in Hsp. subst token.
    pose proof (digits_value_bound _ Hds). exists v. split; [lia|]. unfold to_string.
    replace (v <? 0) with false by lia. rewrite <-Hv, to_string_u_unique; [done..|].
    intros ->. destruct ds as [|c ds]; [done|]. exfalso. revert H1. cbn [length].
    assert ((1 <? Z.of_nat (S (S (length ds)))) = true) as -> by (apply Z.ltb_lt; clear; lia). done.
  - intros (v & Hv & ->). apply (all_from_spec 256 0 (fun v => octet_ok (to_string v))); [by vm_compute|lia].
Qed.

(** The addresses [ipv4] accepts are the dotted quads in their usual form: four numbers
    below 256, printed without leading zeros. *)
Theorem ipv4_iff host :
  ipv4 host = true <-> exists a b c d, Forall (fun v => 0 <= v <= 255) [a; b; c; d] /\ host = dotted [a; b; c; d].
Proof.
  unfold ipv4. rewrite andb_true_iff, Nat.eqb_eq, forallb_forall. split.
  - intros [Hall Hlen]. pose proof (join_fields "." host) as Hj.
    destruct (fields "." host) as [|p1 [|p2 [|p3 [|p4 [|? ?]]]]]; try done.
    destruct (proj1 (octet_iff p1)) as (a & Ha & ->); [apply Hall; cbn; auto|].
    destruct (proj1 (octet_iff p2)) as (b & Hb & ->); [apply Hall; cbn; auto|].
    destruct (proj1 (octet_iff p3)) as (c & Hc & ->); [apply Hall; cbn; auto|].
    destruct (proj1 (octet_iff p4)) as (d & Hd & ->); [apply Hall; cbn; auto 6|].
    exists a, b, c, d. split; [|done]. by rewrite !Forall_cons, Forall_nil.
  - intros (a & b & c & d & Hr & ->). unfold dotted. cbn [map]. rewrite fields_join.
    + split; [|done]. intros p Hp%list_elem_of_In. apply octet_iff.
      assert (p ∈ map to_string [a; b; c; d]) as (v & -> & Hv)%list_elem_of_fmap by done.
      exists v. split; [|done]. by apply (proj1 (Forall_forall _ _) Hr).
    + assert (forall v, 0 <= v <= 255 -> "."%byte ∉ to_string v) as Hno
        by (intros v Hv; apply dot_not_digits, to_string_is_digits; lia).
      rewrite !Forall_cons in Hr. destruct Hr as (? & ? & ? & ? & _). rewrite !Forall_cons, Forall_nil. auto 6.
Qed.

(** ** Dates *)

Definition two_digits (z : Z) : bytes := [digit (z / 10); digit (z mod 10)].
Definition four_digits (z : Z) : bytes := two_digits (z / 100) ++ two_digits (z mod 100).
Definition print_date (y m d : Z) : bytes :=
  four_digits y ++ "-"%byte :: two_digits m ++ "-"%byte :: two_digits d.

Lemma digits_small s :
  s <> [] -> DoubleFacts.digits s -> (length s <= 9)%nat -> Formats.digits s = digits_value s.
Proof.
  intros Hne Hs Hl. unfold Formats.digits. rewrite bool_decide_eq_false_2 by done.
  rewrite (proj2 (forallb_forall is_digit s))
    by (intros b Hb%list_elem_of_In; by apply (proj1 (Forall_forall _ _) Hs)). cbn [orb negb].
  unfold from_chars_or_zero, from_chars. pose proof (digits_value_bound s Hs) as Hv.
  pose proof (Z.pow_le_mono_r 10 (Z.of_nat (length s)) 9 ltac:(lia) ltac:(lia)) as Hp.
  change (10 ^ 9) with 1000000000 in Hp.
  assert (span is_digit s = (s, [])) as Hsp by (rewrite <-(app_nil_r s) at 1; by apply span_stop).
  destruct s as [|b s]; [done|]. inversion Hs; subst. change (INT_MIN <? 0) with true.
  rewrite digit_not_minus by done. cbn [andb]. rewrite Hsp. unfold INT_MIN, INT_MAX.
  by replace (_ && _) with true by lia.
Qed.

Lemma digits_refused s : 0 <= Formats.digits s -> s <> [] /\ DoubleFacts.digits s.
Proof.
  unfold Formats.digits. destruct (_ || _) eqn:E; [lia|]. intros _. reflect_bools. split; [done|].
  apply Forall_forall. intros b Hb. by apply (proj1 (forallb_forall _ _) H0), list_elem_of_In.
Qed.

Lemma two_digits_value a b :
  is_digit a = true -> is_digit b = true -> two_digits (digits_value [a; b]) = [a; b].
Proof.
  intros Ha Hb. unfold two_digits. change (digits_value [a; b]) with ((0 * 10 + digit_value a) * 10 + digit_value b).
  pose proof (digit_value_range a Ha). pose proof (digit_value_range b Hb).
  rewrite <-(digit_of_value a Ha) at 3. rewrite <-(digit_of_value b Hb) at 3.
  f_equal; [|f_equal]; f_equal; div_lia.
Qed.

Lemma four_digits_value a b c d :
  DoubleFacts.digits [a; b; c; d] -> four_digits (digits_value [a; b; c; d]) = [a; b; c; d].
Proof.
  unfold DoubleFacts.digits. rewrite !Forall_cons. intros (Ha & Hb & Hc & Hd & _).
  change [a; b; c; d] with ([a; b] ++ [c; d]). rewrite digits_value_app. change (10 ^ _) with 100.
  assert (DoubleFacts.digits [c; d]) as Hcd by (by repeat constructor).
  pose proof (digits_value_bound _ Hcd) as Hv. change (10 ^ Z.of_nat (length [c; d])) with 100 in Hv.
  unfold four_digits. rewrite <-(two_digits_value a b), <-(two_digits_value c d) by done.
  f_equal; f_equal; rewrite !two_digits_value by done; div_lia.
Qed.

Lemma two_digits_ok z : 0 <= z <= 99 -> DoubleFacts.digits (two_digits z) /\ digits_value (two_digits z) = z.
Proof.
  intros Hz. split; [repeat constructor; apply is_digit_digit; div_lia|].
  unfold two_digits, digits_value. cbn [fold_left]. rewrite !digit_value_digit by div_lia. div_lia.
Qed.

Lemma four_digits_ok z : 0 <= z <= 9999 -> DoubleFacts.digits (four_digits z) /\ digits_value (four_digits z) = z.
Proof.
  intros Hz. unfold four_digits.
  destruct (two_digits_ok (z / 100) ltac:(div_lia)) as [H1 V1].
  destruct (two_digits_ok (z mod 100) ltac:(div_lia)) as [H2 V2].
  split; [by apply Forall_app|]. rewrite digits_value_app, V1, V2. change (10 ^ _) with 100. div_lia.
Qed.

Lemma month_lengths_ok y m d :
  1 <= m <= 12 ->
  (d <=? nth (Z.to_nat (m - 1)) month_lengths 0 +
     (if (m =? 2) && (y mod 4 =? 0) && (negb (y mod 100 =? 0) || (y mod 400 =? 0)) then 1 else 0))
  = (d <=? days_in_month y m).
Proof.
  intros Hm. f_equal. rewrite <-andb_assoc. change ((y mod 4 =? 0) && _) with (is_leap y). unfold days_in_month.
  assert (m = 1 \/ m = 2 \/ m = 3 \/ m = 4 \/ m = 5 \/ m = 6 \/ m = 7 \/ m = 8 \/ m = 9 \/ m = 10 \/ m = 11 \/ m = 12)
    as Hc by lia.
  destruct (is_leap y); repeat destruct Hc as [->|Hc]; try subst; done.
Qed.

(** [date] accepts exactly the printed dates of the calendar, the years 1 to 9999. *)
Theorem date_iff text :
  date text = true <->
  exists day y m d, civil_from_days day = (y, m, d) /\ 1 <= y <= 9999 /\ text = print_date y m d.
Proof.
  unfold date. split.
  - destruct (_ || _ || _) eqn:Hshape; [done|]. apply orb_false_elim in Hshape as [Hshape H7].
    apply orb_false_elim in Hshape as [Hlen H4]. apply negb_false_iff, Nat.eqb_eq in Hlen.
    destruct text as [|y1 [|y2 [|y3 [|y4 [|c1 [|m1 [|m2 [|c2 [|d1 [|d2 [|? ?]]]]]]]]]]]; try done. clear Hlen.
    unfold char_at in H4, H7. reflect_bools. cbn in H4, H7. simplify_eq.
    change (slice 0 4 _) with [y1; y2; y3; y4]. change (slice 5 2 _) with [m1; m2]. change (slice 8 2 _) with [d1; d2].
    destruct (_ || _) eqn:Hr; [done|]. reflect_bools.
    destruct (digits_refused [y1; y2; y3; y4] ltac:(lia)) as [_ Dy].
    destruct (digits_refused [m1; m2] ltac:(lia)) as [_ Dm].
    destruct (digits_refused [d1; d2] ltac:(lia)) as [_ Dd].
    rewrite !digits_small in * by (done || (cbn; lia)). rewrite month_lengths_ok by lia. intros Hd%Z.leb_le.
    set (y := digits_value [y1; y2; y3; y4]) in *. set (m := digits_value [m1; m2]) in *. set (d := digits_value [d1; d2]) in *.
    exists (days_from_civil y m d), y, m, d. split; [apply days_from_civil_ok, valid_date_spec; lia|].
    pose proof (digits_value_bound _ Dy) as By. change (10 ^ _) with 10000 in By. fold y in By. split; [lia|].
    unfold print_date, y, m, d. rewrite four_digits_value by done.
    unfold DoubleFacts.digits in Dm, Dd. rewrite !Forall_cons in Dm, Dd. destruct Dm as (? & ? & _), Dd as (? & ? & _).
    by rewrite !two_digits_value.
  - intros (day & y & m & d & [Hv _]%civil_from_days_ok & Hy & ->). apply valid_date_spec in Hv as [Hm Hd].
    pose proof (days_in_month_range y m).
    change (length (print_date y m d) =? 10)%nat with true. change (char_at (print_date y m d) 4 "-") with true.
    change (char_at (print_date y m d) 7 "-") with true. cbn [negb orb].
    change (slice 0 4 _) with (four_digits y). change (slice 5 2 _) with (two_digits m). change (slice 8 2 _) with (two_digits d).
    destruct (four_digits_ok y ltac:(lia)) as [Dy Vy]. destruct (two_digits_ok m ltac:(lia)) as [Dm Vm].
    destruct (two_digits_ok d ltac:(lia)) as [Dd Vd]. rewrite !digits_small, Vy, Vm, Vd by (done || (cbn; lia)).
    replace (_ || _ || _ || _) with false by lia. rewrite month_lengths_ok by lia. apply Z.leb_le. lia.
Qed.
