(* ===== verification/Attribute.v ===== *)
(** * Database values ([model/value.hpp], [model/decimal.hpp])

    [AttributeValue] is the variant a driver returns and a query binds; [value_cast] is
    one definition per type it is instantiated with, and [Decimal] keeps the text of an
    exact number. *)

From S2P Require Import Prelude Numeral Double Json.

Inductive AttributeValue : Type :=
| Monostate
| Nullptr
| ABoolean (b : bool)
| AInt64 (z : Z)
| AUInt64 (z : Z)
| ADouble (d : double)
| ADecimal (text : bytes)
| AString (s : bytes).

#[export] Instance AttributeValue_eq_dec : EqDecision AttributeValue.
Proof. solve_decision. Defined.

Abbreviation AttributeMap := (gmap bytes AttributeValue).

(** ** Decimals *)

Definition skip_either (a b : byte) (s : bytes) : bytes :=
  match s with
  | c :: s' => if (c =b? a) || (c =b? b) then s' else s
  | [] => []
  end.

(** [Decimal::Decimal(std::string_view)]: the text is kept when it is a number. *)
Definition make_decimal (value : bytes) : result bytes :=
  let '(whole, s) := span is_digit (skip_either "+" "-" value) in
  let '(frac, s) :=
    match s with
    | c :: s' => if c =b? "." then span is_digit s' else ([], s)
    | [] => ([], [])
    end in
  if bool_decide (whole ++ frac = []) then Throw (invalid_argument "Invalid decimal value")
  else
    rest ← match s with
           | c :: s' =>
               if (c =b? "e") || (c =b? "E") then
                 match span is_digit (skip_either "+" "-" s') with
                 | ([], _) => Throw (invalid_argument "Invalid decimal exponent")
                 | (_, rest) => Ok rest
                 end
               else Ok s
           | [] => Ok []
           end;
    if bool_decide (rest = []) then Ok value else Throw (invalid_argument "Invalid decimal value").

(** [Decimal::to_double]. *)
Definition to_double (text : bytes) : result double :=
  let text := match text with c :: rest => if c =b? "+" then rest else text | [] => [] end in
  match from_chars_double text with
  | Some d =>
      if isfinite d then Ok d
      else Throw (out_of_range "Decimal cannot be represented as a finite double")
  | None => Throw (out_of_range "Decimal cannot be represented as a finite double")
  end.

(** ** Strict conversions *)

Definition not_convertible {A} : result A :=
  Throw (invalid_argument "Database value cannot be converted to the requested model field type").

Definition outside_range {A} : result A :=
  Throw (out_of_range "Database integer is outside the model field range").

Definition value_cast_json (value : AttributeValue) : result Json :=
  match value with
  | AString text => Json.parse text
  | Nullptr | Monostate => Ok JNull
  | _ => not_convertible
  end.

Definition value_cast_decimal (value : AttributeValue) : result bytes :=
  match value with
  | ADecimal text => Ok text
  | AString text => make_decimal text
  | _ => not_convertible
  end.

Definition value_cast_string (value : AttributeValue) : result bytes :=
  match value with
  | ADecimal text => Ok text
  | AString text => Ok text
  | _ => not_convertible
  end.

Definition value_cast_boolean (value : AttributeValue) : result bool :=
  match value with
  | ABoolean b => Ok b
  | AInt64 z | AUInt64 z => Ok (negb (z =? 0))
  | _ => not_convertible
  end.

(** A signed type with the range [lo, hi]. *)
Definition value_cast_signed (lo hi : Z) (value : AttributeValue) : result Z :=
  match value with
  | AInt64 z | AUInt64 z => if (lo <=? z) && (z <=? hi) then Ok z else outside_range
  | _ => not_convertible
  end.

(** An unsigned type with the range [0, hi]. *)
Definition value_cast_unsigned (hi : Z) (value : AttributeValue) : result Z :=
  match value with
  | AUInt64 z => if z <=? hi then Ok z else outside_range
  | AInt64 z =>
      if z <? 0
      then Throw (invalid_argument "Cannot assign a negative database value to an unsigned model field")
      else if z <=? hi then Ok z else outside_range
  | _ => not_convertible
  end.

Definition value_cast_double (value : AttributeValue) : result double :=
  match value with
  | ADouble d => Ok d
  | AInt64 z | AUInt64 z => Ok (double_of_int z)
  | _ => not_convertible
  end.

(** [std::optional<T>]. *)
Definition value_cast_optional {A} (cast : AttributeValue -> result A) (value : AttributeValue)
    : result (option A) :=
  match value with
  | Nullptr | Monostate => Ok None
  | _ => Some <$> cast value
  end.

(** ** Explicit casts *)

Definition is_cast (names : list string) (cast : bytes) : bool :=
  existsb (fun n => bool_decide (cast = lit n)) names.

Definition cast_value_string (value : AttributeValue) (cast : bytes) : result bytes :=
  match value with
  | AInt64 z | AUInt64 z =>
      if is_cast ["string"]%string cast then Ok (to_string z) else value_cast_string value
  | ABoolean b =>
      if is_cast ["string"]%string cast then Ok (if b then lit "true" else lit "false")
      else value_cast_string value
  | _ => value_cast_string value
  end.

Definition cast_value_boolean (value : AttributeValue) (cast : bytes) : result bool :=
  match value with
  | AString text =>
      if is_cast ["bool"; "boolean"]%string cast then
        if is_cast ["true"; "1"]%string text then Ok true
        else if is_cast ["false"; "0"]%string text then Ok false
        else Throw (invalid_argument "Boolean cast requires true, false, 1 or 0")
      else value_cast_boolean value
  | _ => value_cast_boolean value
  end.

(** An integral type with the range [lo, hi]; [strict] is its [value_cast]. *)
Definition cast_value_integral (lo hi : Z) (strict : AttributeValue -> result Z)
    (value : AttributeValue) (cast : bytes) : result Z :=
  match value with
  | AString text =>
      if is_cast ["int"; "integer"; "int64"; "uint64"]%string cast then
        match from_chars_all lo hi text with
        | Some z => Ok z
        | None => Throw (invalid_argument "Integer cast requires a complete in-range integer")
        end
      else strict value
  | _ => strict value
  end.

(** [T = Double], so that [static_cast<T>] is the identity. *)
Definition cast_value_double (value : AttributeValue) (cast : bytes) : result double :=
  if is_cast ["double"; "float"; "real"]%string cast then
    match value with
    | ADecimal text =>
        d ← to_double text;
        if isfinite d then Ok d
        else Throw (out_of_range "Decimal is outside the floating-point field range")
    | ADouble d =>
        if isfinite d then Ok d
        else Throw (out_of_range "Database value is outside the floating-point field range")
    | AString text =>
        match from_chars_double text with
        | Some d =>
            if isfinite d then Ok d
            else Throw (invalid_argument "Floating-point cast requires a finite in-range number")
        | None => Throw (invalid_argument "Floating-point cast requires a finite in-range number")
        end
    | _ => value_cast_double value
    end
  else value_cast_double value.

(** ** [make_json] of a database value *)

Definition json_of_value (value : AttributeValue) : result Json :=
  match value with
  | Monostate | Nullptr => Ok JNull
  | ABoolean b => Ok (JBool b)
  | AInt64 z => Ok (JInt z)
  | AUInt64 z => Ok (JUInt z)
  | ADouble d => json_double d
  | ADecimal text => Ok (JString text)
  | AString s => Ok (JString s)
  end.
