(* ===== verification/Rules.v ===== *)
(** * Validation rule expressions ([validation/definition.hpp], [validation/rules.hpp])

    The text of a rule, "required|min:3|in:a,b", becomes a list of [ParsedRule]s; every
    error of the configuration is found here, before any input is looked at. *)

From S2P Require Import Prelude Numeral Text Double Formats.

Record ParsedRule := mkRule { rule_name : bytes; arguments : list bytes }.

#[export] Instance ParsedRule_eq_dec : EqDecision ParsedRule.
Proof. solve_decision. Defined.

(** [struct Rule] and [class Rules]. *)
Record Rule := mkEntry { field : bytes; expression : bytes }.

#[export] Instance Rule_eq_dec : EqDecision Rule.
Proof. solve_decision. Defined.

Abbreviation Rules := (list Rule).

Definition is_blank (c : byte) : bool :=
  (c =b? " ") || (c =b? x09) || (c =b? x0d) || (c =b? x0a).

Definition rule_trim (text : bytes) : bytes :=
  let text := (span is_blank text).2 in
  rev (span is_blank (rev text)).2.

Definition rule_identifier (text : bytes) : bool :=
  let alpha c := isalpha c || (c =b? "_") in
  match text with
  | [] => false
  | c :: _ => alpha c && forallb (fun c => alpha c || is_digit c) text
  end.

Definition path_char (c : byte) : bool :=
  (32 <? uc c) && negb (uc c =? 127) && negb (in_set "*|:," c).

Definition path_part (wildcard : bool) (part : bytes) : bool :=
  negb (bool_decide (part = []) ||
        (if bool_decide (part = lit "*") then negb wildcard else negb (forallb path_char part))).

Definition rule_path (text : bytes) (wildcard : bool) : bool :=
  match text with
  | [] => false
  | _ => forallb (path_part wildcard) (fields "." text)
  end.

(** [name == a || name == b || ...]. *)
Definition one_of (names : list string) (name : bytes) : bool :=
  existsb (fun n => bool_decide (name = lit n)) names.

Definition flag_names : list string :=
  ["required"; "present"; "nullable"; "sometimes"; "bail"; "string"; "integer"; "numeric"; "boolean";
   "email"; "accepted"; "array"; "object"; "uuid"; "url"; "date"; "datetime"; "file"; "image"; "confirmed"]%string.
Definition size_names : list string := ["min"; "max"; "size"; "length"]%string.
Definition list_names : list string := ["in"; "notIn"; "mimes"; "mimetypes"; "extensions"]%string.
Definition other_names : list string := ["same"; "different"; "custom"]%string.
Definition database_names : list string := ["unique"; "exists"]%string.

Definition is_name (n : string) (name : bytes) : bool := bool_decide (name = lit n).

(** The spellings that are renamed. *)
Definition canonical_name (name : bytes) : bytes :=
  if is_name "not_in" name then lit "notIn"
  else if is_name "required_if" name then lit "requiredIf"
  else if is_name "dateTime" name then lit "datetime"
  else name.

(** The loop over the arguments after the colon. *)
Definition parse_argument (argument : bytes) : result bytes :=
  let argument := rule_trim argument in
  if bool_decide (argument = [])
  then Throw (logic_error "Validation rule arguments must not be empty")
  else Ok argument.

Definition parse_arguments (text : bytes) : result (list bytes) :=
  mapM parse_argument (fields "," text).

Definition known_rule (name : bytes) : bool :=
  one_of flag_names name || one_of size_names name || one_of list_names name ||
  one_of other_names name || one_of database_names name || is_name "requiredIf" name.

(** The condition under which the number of arguments is refused. *)
Definition wrong_count (name : bytes) (count : Z) : bool :=
  (one_of flag_names name && negb (count =? 0)) ||
  ((one_of size_names name || one_of other_names name) && negb (count =? 1)) ||
  (one_of list_names name && (count =? 0)) ||
  (is_name "requiredIf" name && (count <? 2)) ||
  (one_of database_names name &&
   ((count <? 1) || ((if is_name "unique" name then 4 else 2) <? count))).

Definition upload_formats : list string :=
  ["png"; "jpeg"; "jpg"; "gif"; "webp"; "pdf"; "txt"; "bin"]%string.

Definition media_token (part : bytes) : bool :=
  negb (bool_decide (part = [])) &&
  forallb (fun c => isalnum c || in_set "!#$%&'*+-.^_`|~" c) part.

Definition media_argument (media : bytes) : bool :=
  match until "/" media with
  | (_, None) => false
  | (kind, Some sub) => media_token kind && media_token sub
  end.

Definition extension_argument (extension : bytes) : bool :=
  forallb (fun c => between "a" "z" c || is_digit c) extension.

(** The checks of the arguments of one rule, in their order. *)
Definition check_rule (entry_field : bytes) (rule : ParsedRule) : result ParsedRule :=
  let name := rule_name rule in
  let args := arguments rule in
  let count := Z.of_nat (length args) in
  let first := hd [] args in
  if negb (known_rule name)
  then Throw (logic_error (message "Unknown validation rule '" (name ++ lit "'")))
  else if wrong_count name count
  then Throw (logic_error (message "Invalid argument count for validation rule '" (name ++ lit "'")))
  else if one_of size_names name && negb (numeric first)
  then Throw (logic_error "Validation size arguments must be finite numbers")
  else if is_name "length" name && negb (bool_decide (is_Some (from_chars_uint64 first)))
  then Throw (logic_error "Validation length requires a non-negative 64-bit integer")
  else if (is_name "same" name || is_name "different" name || is_name "requiredIf" name) &&
          negb (rule_path first true)
  then Throw (logic_error "Invalid validation comparison path")
  else if is_name "custom" name && negb (rule_identifier first)
  then Throw (logic_error "Invalid custom validation rule name")
  else if one_of database_names name &&
          (negb (rule_identifier first) ||
           negb (rule_identifier (if 1 <? count then nth 1 args [] else entry_field)) ||
           ((count =? 4) && negb (rule_identifier (nth 3 args []))))
  then Throw (logic_error "Invalid database validation identifier")
  else
    match (if is_name "mimes" name then List.find (fun a => negb (one_of upload_formats a)) args else None) with
    | Some format => Throw (logic_error (message "Unsupported upload format '" (format ++ lit "'")))
    | None =>
        if is_name "mimetypes" name && negb (forallb media_argument args)
        then Throw (logic_error "Invalid upload media type")
        else if is_name "extensions" name && negb (forallb extension_argument args)
        then Throw (logic_error "Upload extensions must be lower-case letters or digits")
        else Ok rule
    end.

(** One turn of the loop over the parts between bars. *)
Definition parse_rule (entry_field : bytes) (text : bytes) : result ParsedRule :=
  let token := rule_trim text in
  if bool_decide (token = [])
  then Throw (logic_error "Validation rules must not contain empty entries")
  else
    let '(name, args) := until ":" token in
    let name := canonical_name (rule_trim name) in
    args ← match args with None => Ok [] | Some text => parse_arguments text end;
    check_rule entry_field (mkRule name args).

Definition parse_rule_expression (entry_field text : bytes) : result (list ParsedRule) :=
  if negb (rule_path entry_field true) then Throw (logic_error "Invalid validation field path")
  else mapM (parse_rule entry_field) (fields "|" text).

(** ** What a parsed rule guarantees *)

(** The rules that use their first argument have one; the bounds of sizes are numbers; the
    identifiers of database rules are identifiers. *)
Record rule_ok (entry_field : bytes) (rule : ParsedRule) : Prop := {
  ok_known : known_rule (rule_name rule) = true;
  ok_count : wrong_count (rule_name rule) (Z.of_nat (length (arguments rule))) = false;
  ok_numeric : one_of size_names (rule_name rule) = true -> numeric (hd [] (arguments rule)) = true;
  ok_identifier :
    one_of database_names (rule_name rule) = true ->
    rule_identifier (hd [] (arguments rule)) = true /\
    rule_identifier (nth 1 (arguments rule) entry_field) = true /\
    (forall a, arguments rule !! 3%nat = Some a -> rule_identifier a = true)
}.

Lemma check_rule_ok entry_field rule r :
  check_rule entry_field rule = Ok r -> r = rule /\ rule_ok entry_field rule.
Proof.
  unfold check_rule. set (name := rule_name rule). set (args := arguments rule). intros H.
  destruct (negb (known_rule name)) eqn:Hk; [done|].
  destruct (wrong_count name _) eqn:Hc; [done|].
  destruct (one_of size_names name && _) eqn:Hs; [done|].
  destruct (is_name "length" name && _); [done|].
  destruct (_ && negb (rule_path _ _)); [done|].
  destruct (is_name "custom" name && _); [done|].
  destruct (one_of database_names name && _) eqn:Hd; [done|].
  destruct (if is_name "mimes" name then _ else _); [done|].
  destruct (_ && negb (forallb media_argument args)); [done|].
  destruct (_ && negb (forallb extension_argument args)); [done|].
  injection H as <-. split; [done|]. apply negb_false_iff in Hk. constructor; fold name args; [done..| |].
  - intros Es. rewrite Es in Hs. by apply negb_false_iff in Hs.
  - intros Ed. rewrite Ed in Hd. cbn [andb] in Hd. reflect_bools. split; [done|].
    match goal with H : (_ =? 4) && _ = false |- _ => rename H into H4 end.
    match goal with H : rule_identifier (if _ then _ else _) = true |- _ => rename H into H1 end.
    clearbody name args. split.
    { destruct args as [|a [|b l]]; [done..|]. cbn [length nth] in *.
      rewrite (proj2 (Z.ltb_lt 1 _)) in H1; [done|lia]. }
    intros a Ha.
    unfold wrong_count in Hc. rewrite Ed in Hc. reflect_bools.
    destruct args as [|? [|? [|? [|? [|? l]]]]]; try done.
    + injection Ha as <-. by apply negb_false_iff in H4.
    + exfalso. cbn [length andb] in *. clear - H2. destruct (is_name "unique" name); reflect_bools; lia.
Qed.

Lemma parse_rule_expression_ok entry_field text rules :
  parse_rule_expression entry_field text = Ok rules ->
  rule_path entry_field true = true /\ Forall (rule_ok entry_field) rules.
Proof.
  unfold parse_rule_expression. destruct (negb _) eqn:Hp; [done|]. apply negb_false_iff in Hp.
  intros H%mapM_Ok. split; [done|]. induction H as [|t r ts rs Hr _ IH]; constructor; [|done].
  unfold parse_rule in Hr. case_bool_decide; [done|]. destruct (until ":" _) as [n args].
  apply bind_Ok in Hr as (a & _ & Hr). by apply check_rule_ok in Hr as [-> ?].
Qed.
