(* ===== verification/Validation.v ===== *)
(** * The validator ([src/validation/validator.cpp])

    [check_data] applies parsed rules to a JSON object.  Its effects are those of the
    database connection and of custom predicates, which act on a state of type [W] that
    the validator only passes along; a path is the list of its parts.  The iteration
    order of the [std::unordered_map] that groups uploads by name is the argument
    [bucket_order]. *)

From S2P Require Import Prelude Numeral Text Double Json Attribute Uploads Media Transaction Formats Rules.

Abbreviation Errors := (gmap bytes (list bytes)).

Record StructuredResult := mkChecked { checked_values : Json; checked_errors : Errors }.

Definition valid (r : StructuredResult) : bool := bool_decide (checked_errors r = ∅).

Definition has (rules : list ParsedRule) (name : string) : bool :=
  existsb (fun rule => is_name name (rule_name rule)) rules.

(** [rule.arguments[0]]. *)
Definition first_argument (rule : ParsedRule) : result bytes :=
  match arguments rule with
  | a :: _ => Ok a
  | [] => Throw (undefined "arguments[0] of a rule without arguments")
  end.

(** [equal]. *)
Definition equal (a b : Json) : bool :=
  if is_number a && is_number b
  then numeric (json_string a) && numeric (json_string b) && (compare (json_string a) (json_string b) =? 0)
  else json_eqb a b.

(** ** Paths *)

(** The element of an array that a key names. *)
Definition array_index (key : bytes) (values : list Json) : option Json :=
  match from_chars_uint64 key with
  | Some index => if index <? Z.of_nat (length values) then values !! Z.to_nat index else None
  | None => None
  end.

Definition child (input : Json) (key : bytes) : option Json :=
  match input with
  | JObject values => find_entry key values
  | JArray values => array_index key values
  | _ => None
  end.

Fixpoint at_keys (input : Json) (keys : list bytes) : option Json :=
  match keys with
  | [] => Some input
  | key :: rest =>
      match child input key with
      | None => None
      | Some next => at_keys next rest
      end
  end.

Definition at_path (input : Json) (path : bytes) : option Json := at_keys input (fields "." path).

(** [array.resize(n)] when it is shorter. *)
Definition grow (n : nat) (values : list Json) : list Json :=
  values ++ replicate (n - length values) JNull.

(** [from_chars] into a [size_t] that is 0, its error ignored. *)
Definition index_or_zero (key : bytes) : Z :=
  match from_chars 0 UINT64_MAX key with Some (v, _) => v | None => 0 end.

Fixpoint select_keys (output input : Json) (keys : list bytes) (value : Json) : Json :=
  match keys with
  | [] => value
  | key :: rest =>
      match input with
      | JArray elements =>
          let array := match output with JArray a => a | _ => [] end in
          let index := index_or_zero key in
          if Z.of_nat (length elements) <=? index then output
          else
            let i := Z.to_nat index in
            let array := if (length array <=? i)%nat then grow (S i) array else array in
            JArray (<[i := select_keys (nth i array JNull) (nth i elements JNull) rest value]> array)
      | _ =>
          let object := match output with JObject o => o | _ => [] end in
          let next := default JNull (Json.get input key) in
          let current := default JNull (find_entry key object) in
          JObject (insert_or_assign key (select_keys current next rest value) object)
      end
  end.

Definition select_path (output input : Json) (path : bytes) (value : Json) : Json :=
  select_keys output input (fields "." path) value.

(** [expand], on the parts of the pattern between the stars. *)
Fixpoint expand_parts (input : Json) (parts : list bytes) (prefix : bytes) : list bytes :=
  match parts with
  | [] => []
  | [last] => [prefix ++ last]
  | before :: rest =>
      let parent_path := prefix ++ removelast before in
      let parent := if bool_decide (parent_path = []) then Some input else at_path input parent_path in
      match parent with
      | Some (JArray elements) =>
          let stem := if bool_decide (parent_path = []) then [] else parent_path ++ ["."%byte] in
          seq 0 (length elements) ≫= fun i => expand_parts input rest (stem ++ to_string (Z.of_nat i))
      | _ => []
      end
  end.

Definition expand (input : Json) (pattern : bytes) : list bytes :=
  expand_parts input (fields "*" pattern) [].

(** [reference]: the stars of an argument become the parts of the current path. *)
Fixpoint reference_parts (result : bytes) (argument pattern path : list bytes) : bytes :=
  match argument with
  | [] => result
  | part :: rest =>
      let result := if bool_decide (result = []) then result else result ++ ["."%byte] in
      let piece :=
        if bool_decide (part = lit "*") && bool_decide (hd [] pattern = lit "*") then hd [] path else part in
      reference_parts (result ++ piece) rest (tl pattern) (tl path)
  end.

Definition reference (argument pattern path : bytes) : bytes :=
  reference_parts [] (fields "." argument) (fields "." pattern) (fields "." path).

Fixpoint descendant_parts (pattern path : list bytes) : bool :=
  match pattern, path with
  | p :: ps, q :: qs =>
      if negb (bool_decide (p = lit "*")) && negb (bool_decide (p = q)) then false
      else match ps, qs with
           | _, [] => negb (bool_decide (ps = []))
           | [], _ => false
           | _, _ => descendant_parts ps qs
           end
  | _, _ => false
  end.

Definition descendant (pattern path : bytes) : bool :=
  descendant_parts (fields "." pattern) (fields "." path).

Definition upload_key (name : bytes) : bytes :=
  if ends_with (lit "[]") name then take (length name - 2) name else name.

(** [message]. *)
Definition rule_message (field_ : bytes) (rule : ParsedRule) : result bytes :=
  let name := rule_name rule in
  let the tail := lit "The " ++ field_ ++ lit tail in
  let with_first tail := a ← first_argument rule; Ok (the tail ++ a ++ lit ".") in
  if one_of ["required"; "requiredIf"]%string name then Ok (the " field is required."%string)
  else if is_name "present" name then Ok (the " field must be present."%string)
  else if is_name "integer" name then Ok (the " field must be an integer."%string)
  else if is_name "numeric" name then Ok (the " field must be numeric."%string)
  else if is_name "boolean" name then Ok (the " field must be true or false."%string)
  else if is_name "email" name then Ok (the " field must be a valid email address."%string)
  else if is_name "min" name then with_first " field must be at least "%string
  else if is_name "max" name then with_first " field must not be greater than "%string
  else if one_of ["length"; "size"]%string name then with_first " field must have size "%string
  else if is_name "same" name then with_first " field must match "%string
  else if is_name "different" name then with_first " field must differ from "%string
  else if is_name "confirmed" name then Ok (the " field confirmation does not match."%string)
  else if is_name "accepted" name then Ok (the " field must be accepted."%string)
  else Ok (the " field failed the "%string ++ name ++ lit " rule.").

(** ** The rules *)

(** A null, a blank text, an empty array or object, or nothing at all. *)
Definition is_empty (value : option Json) : bool :=
  match value with
  | None | Some JNull | Some (JArray []) | Some (JObject []) => true
  | Some (JString s) => bool_decide (rule_trim s = [])
  | _ => false
  end.

Definition is_scalar (value : Json) : bool := negb (is_array value) && negb (is_object value) && negb (is_null value).

Definition scalar_text (value : Json) : bytes := if is_scalar value then json_string value else [].

(** What [min], [max], [size] and [length] measure; empty when there is nothing. *)
Definition measure (name : bytes) (parsed : list ParsedRule) (value : Json) (file : option UploadedFile) : bytes :=
  match file with
  | Some f => to_string (Z.of_nat (length (file_content f)))
  | None =>
      match value with
      | JArray a => to_string (Z.of_nat (length a))
      | JObject o => to_string (Z.of_nat (length o))
      | _ =>
          if (has parsed "numeric" || has parsed "integer" || is_number value) && negb (is_name "length" name)
          then (if is_scalar value && numeric (scalar_text value) then scalar_text value else [])
          else if is_string value then to_string (Z.of_nat (length (scalar_text value))) else []
      end
  end.

Definition size_order (m bound : bytes) (value : Json) (file : option UploadedFile) : Z :=
  if bool_decide (file = None) && is_number value && negb (is_integer value) then
    let zero := Finite false 0 (-1074) in
    let number := default zero (from_chars_double m) in
    let limit := default zero (from_chars_double bound) in
    if double_ltb number limit then -1 else if double_ltb limit number then 1 else 0
  else compare m bound.

Definition mime_of (name argument : bytes) : bytes :=
  if is_name "mimetypes" name then argument
  else if is_name "png" argument then lit "image/png"
  else if one_of ["jpg"; "jpeg"]%string argument then lit "image/jpeg"
  else if is_name "gif" argument then lit "image/gif"
  else if is_name "webp" argument then lit "image/webp"
  else if is_name "pdf" argument then lit "application/pdf"
  else if is_name "txt" argument then lit "text/plain"
  else lit "application/octet-stream".

(** The lower-cased text after the last dot of a file name. *)
Definition extension_of (filename : bytes) : bytes :=
  match until "." (rev filename) with
  | (_, None) => []
  | (tail, Some _) => map lower_char (rev tail)
  end.

#[export] Instance UploadedFile_eq_dec : EqDecision UploadedFile.
Proof. solve_decision. Defined.

Section Validator.
Context {W : Type}.

(** [Engine::CustomRule], and the registry of an [Engine]. *)
Record CustomRule := mkCustom { custom_message : bytes; predicate : Json -> Json -> eff W bool }.
Abbreviation Engine := (gmap bytes CustomRule).

Record Context_ := mkContext { uploads_ : option (list UploadedFile); custom_rules : option Engine }.

(** A connection of the database runtime. *)
Record SqlConnection := mkSql {
  sql_backend : Backend;
  sql_execute : bytes -> list AttributeValue -> eff W (list AttributeMap)
}.

Variable read_connection : eff W SqlConnection.
Variable bucket_order : list (bytes * list UploadedFile) -> list (bytes * list UploadedFile).

Definition lift {A} (r : result A) : eff W A := fun w => (r, w).

(** [Engine::rule] and [Engine::extend]; a null [std::function] is [None]. *)
Definition engine_rule (engine : Engine) (name : bytes) : result CustomRule :=
  match engine !! name with
  | Some rule => Ok rule
  | None => Throw (logic_error (message "Unknown custom validation rule '" (name ++ lit "'")))
  end.

Definition engine_extend (engine : Engine) (name text : bytes) (pred : option (Json -> Json -> eff W bool))
    : result Engine :=
  match pred with
  | Some pred =>
      if negb (rule_identifier name) || bool_decide (text = [])
      then Throw (invalid_argument "Custom validation requires a name, message and predicate")
      else if bool_decide (is_Some (engine !! name))
      then Throw (logic_error "Custom validation rule is already registered")
      else Ok (<[name := mkCustom text pred]> engine)
  | None => Throw (invalid_argument "Custom validation requires a name, message and predicate")
  end.

(** ** Database rules *)

Definition sql_identifier (b : Backend) (name : bytes) : bytes :=
  match b with
  | mysql => "`"%byte :: name ++ ["`"%byte]
  | _ => x22 :: name ++ [x22]
  end.

Definition placeholder (b : Backend) (index : Z) : bytes :=
  match b with postgresql => "$"%byte :: to_string index | _ => lit "?" end.

Definition attribute (data : Json) : AttributeValue :=
  let text := json_string data in
  if is_string data then AString text
  else if is_boolean data then ABoolean (bool_decide (text = lit "true"))
  else if is_integer data then
    if starts_with (lit "-") text
    then AInt64 (default 0 (from_chars_int64 text))
    else AUInt64 (default 0 (from_chars_uint64 text))
  else ADouble (default (Finite false 0 (-1074)) (from_chars_double text)).

Definition count_statement (b : Backend) (args : list bytes) (field_ table : bytes) : bytes :=
  lit "SELECT COUNT(*) AS matches FROM " ++ sql_identifier b table ++ lit " WHERE " ++
  sql_identifier b (if (1 <? length args)%nat then nth 1 args [] else field_) ++ lit " = " ++ placeholder b 1 ++
  (if (2 <? length args)%nat
   then lit " AND " ++ sql_identifier b (if (3 <? length args)%nat then nth 3 args [] else lit "id") ++
        lit " <> " ++ placeholder b 2
   else []).

Definition database_rule (value : Json) (rule : ParsedRule) (field_ : bytes) : eff W bool :=
  if is_array value || is_object value || is_null value then mret false
  else
    connection ← read_connection;
    let b := sql_backend connection in
    match b with
    | mongodb => throw (logic_error "Database validation requires a SQL connection")
    | _ =>
        table ← lift (first_argument rule);
        let args := arguments rule in
        let bindings := attribute value :: (if (2 <? length args)%nat then [AString (nth 2 args [])] else []) in
        rows ← sql_execute connection (count_statement b args field_ table) bindings;
        match rows with
        | row :: _ =>
            match row !! lit "matches" with
            | Some v =>
                n ← lift (value_cast_unsigned UINT64_MAX v);
                mret (if is_name "exists" (rule_name rule) then negb (n =? 0) else n =? 0)
            | None => throw (runtime_error "Database validation returned no count")
            end
        | [] => throw (runtime_error "Database validation returned no count")
        end
    end.

(** ** One rule on one value *)

(** What the rules of one path see. *)
Record Site := mkSite {
  site_field : bytes;
  site_path : bytes;
  site_parsed : list ParsedRule;
  site_value : Json;
  site_file : option UploadedFile;
  site_input : Json;
  site_flat : bool;
  site_custom : Engine
}.

Definition lookup_ (flat : bool) (input : Json) (path : bytes) : option Json :=
  if flat then Json.get input path else at_path input path.

Definition site_lookup (s : Site) (path : bytes) : option Json := lookup_ (site_flat s) (site_input s) path.

Definition no_file (s : Site) : bool := bool_decide (site_file s = None).

(** The path that [same], [different] and [confirmed] compare with. *)
Definition other_path (s : Site) (rule : ParsedRule) : result bytes :=
  if is_name "confirmed" (rule_name rule) then Ok (site_path s ++ lit "_confirmation")
  else a ← first_argument rule; Ok (reference a (site_field s) (site_path s)).

Definition size_pass (s : Site) (rule : ParsedRule) : result bool :=
  let name := rule_name rule in
  let m := measure name (site_parsed s) (site_value s) (site_file s) in
  if bool_decide (m = []) then Ok false
  else
    bound ← first_argument rule;
    let order := size_order m bound (site_value s) (site_file s) in
    Ok (if is_name "min" name then 0 <=? order else if is_name "max" name then order <=? 0 else order =? 0).

Definition detected (s : Site) : result (option bytes) :=
  match site_file s with
  | Some f => t ← detected_media_type (file_content f); Ok (Some t)
  | None => Ok None
  end.

Definition rule_pass (s : Site) (rule : ParsedRule) : eff W bool :=
  let name := rule_name rule in
  let value := site_value s in
  let text := scalar_text value in
  let plain (b : bool) : eff W bool := mret (no_file s && b) in
  if is_name "string" name then plain (is_string value)
  else if is_name "array" name then plain (is_array value)
  else if is_name "object" name then plain (is_object value)
  else if is_name "integer" name then plain (is_integer value || (is_string value && integer text))
  else if is_name "numeric" name then plain ((is_number value || is_string value) && numeric text)
  else if is_name "boolean" name
  then plain ((is_boolean value || is_integer value || is_string value) && boolean text)
  else if is_name "accepted" name
  then plain ((is_string value || is_integer value || is_boolean value) && accepted text)
  else if is_name "email" name then plain (is_string value && email text)
  else if is_name "uuid" name then plain (is_string value && uuid text)
  else if is_name "url" name then plain (is_string value && url text)
  else if is_name "date" name then plain (is_string value && date text)
  else if is_name "datetime" name then plain (is_string value && datetime text)
  else if one_of ["same"; "different"; "confirmed"]%string name then
    path ← lift (other_path s rule);
    plain (match site_lookup s path with
           | Some other =>
               if is_name "different" name then negb (equal value other) else equal value other
           | None => false
           end)
  else if one_of ["in"; "notIn"]%string name then
    let found := is_scalar value && bool_decide (text ∈ arguments rule) in
    plain (is_scalar value && (if is_name "in" name then found else negb found))
  else if one_of size_names name then lift (size_pass s rule)
  else if is_name "file" name then mret (negb (no_file s))
  else if is_name "image" name then
    t ← lift (detected s);
    mret (match t with Some t => starts_with (lit "image/") t | None => false end)
  else if one_of ["mimes"; "mimetypes"]%string name then
    t ← lift (detected s);
    mret (match t with
          | Some t => existsb (fun a => bool_decide (t = mime_of name a)) (arguments rule)
          | None => false
          end)
  else if is_name "extensions" name then
    mret (match site_file s with
          | Some f => bool_decide (extension_of (file_filename f) ∈ arguments rule)
          | None => false
          end)
  else if is_name "custom" name then
    a ← lift (first_argument rule);
    match site_custom s !! a with
    | Some custom => predicate custom value (site_input s)
    | None => throw (out_of_range "unordered_map::at")
    end
  else if one_of database_names name then
    if no_file s then database_rule value rule (site_field s) else mret false
  else mret false.

(** The message of a rule that failed. *)
Definition failure_message (s : Site) (rule : ParsedRule) : result bytes :=
  if is_name "custom" (rule_name rule) then
    a ← first_argument rule;
    match site_custom s !! a with
    | Some custom => Ok (custom_message custom)
    | None => Throw (out_of_range "unordered_map::at")
    end
  else rule_message (site_path s) rule.

Definition skipped_names : list string :=
  ["required"; "requiredIf"; "present"; "nullable"; "sometimes"; "bail"]%string.

(** The loop over the rules of a path: the messages of the ones that fail. *)
Fixpoint run_rules (s : Site) (rules : list ParsedRule) : eff W (list bytes) :=
  match rules with
  | [] => mret []
  | rule :: rest =>
      if one_of skipped_names (rule_name rule) then run_rules s rest
      else
        pass ← rule_pass s rule;
        if pass : bool then run_rules s rest
        else
          m ← lift (failure_message s rule);
          if has (site_parsed s) "bail" then mret [m]
          else ms ← run_rules s rest; mret (m :: ms)
  end.

(** ** One path *)

(** Whether a value is required; [requiredIf] looks at another path. *)
Fixpoint is_required (flat : bool) (input : Json) (field_ path : bytes) (rules : list ParsedRule)
    (required : bool) : result bool :=
  match rules with
  | [] => Ok required
  | rule :: rest =>
      if is_name "requiredIf" (rule_name rule) then
        a ← first_argument rule;
        let required :=
          match lookup_ flat input (reference a field_ path) with
          | Some other =>
              if is_scalar other
              then required || bool_decide (json_string other ∈ drop 1 (arguments rule))
              else required
          | None => required
          end in
        is_required flat input field_ path rest required
      else is_required flat input field_ path rest required
  end.

(** What checking one path does: nothing, an error, or a selected value. *)
Inductive PathOutcome := Skipped | Failed (messages : list bytes) | Selected (value : Json).

Record Job := mkJob {
  job_definitions : Rules;
  job_input : Json;
  job_files : gmap bytes UploadedFile;
  job_custom : Engine;
  job_flat : bool
}.

(** An object or array whose descendants have rules of their own is selected empty. *)
Definition selected_value (job : Job) (path : bytes) (value : Json) (file : option UploadedFile) : Json :=
  let children :=
    negb (job_flat job) && bool_decide (file = None) && (is_object value || is_array value) &&
    existsb (fun d => descendant (field d) path) (job_definitions job) in
  if children then
    match value with
    | JArray a => JArray (replicate (length a) JNull)
    | _ => JObject []
    end
  else value.

Definition check_path (job : Job) (entry_field : bytes) (parsed : list ParsedRule) (path : bytes)
    : eff W PathOutcome :=
  let flat := job_flat job in
  let input := job_input job in
  let value := lookup_ flat input path in
  if bool_decide (value = None) && has parsed "sometimes" then mret Skipped
  else
    required ← lift (is_required flat input entry_field path parsed (has parsed "required"));
    let empty := is_empty value in
    if required && empty
    then m ← lift (rule_message path (mkRule (lit "required") [])); mret (Failed [m])
    else
      match value with
      | None =>
          if has parsed "present"
          then m ← lift (rule_message path (mkRule (lit "present") [])); mret (Failed [m])
          else mret Skipped
      | Some value =>
          if has parsed "nullable" && (is_null value || (flat && empty)) then mret (Selected value)
          else
            let file := job_files job !! path in
            messages ← run_rules (mkSite entry_field path parsed value file input flat (job_custom job)) parsed;
            match messages with
            | [] => mret (Selected (selected_value job path value file))
            | _ => mret (Failed messages)
            end
      end.

(** [errors[path].push_back] for each message. *)
Definition add_errors (path : bytes) (messages : list bytes) (errors : Errors) : Errors :=
  <[path := default [] (errors !! path) ++ messages]> errors.

Abbreviation Progress := (Errors * list (bytes * Json))%type.

Definition record_outcome (path : bytes) (outcome : PathOutcome) (st : Progress) : Progress :=
  match outcome with
  | Skipped => st
  | Failed messages => (add_errors path messages st.1, st.2)
  | Selected value => (st.1, st.2 ++ [(path, value)])
  end.

Fixpoint check_paths (job : Job) (entry_field : bytes) (parsed : list ParsedRule) (paths : list bytes)
    (st : Progress) : eff W Progress :=
  match paths with
  | [] => mret st
  | path :: rest =>
      outcome ← check_path job entry_field parsed path;
      check_paths job entry_field parsed rest (record_outcome path outcome st)
  end.

Definition entry_paths (job : Job) (entry : Rule) : list bytes :=
  if job_flat job then [field entry] else expand (job_input job) (field entry).

Fixpoint check_entries (job : Job) (entries : list (Rule * list ParsedRule)) (st : Progress)
    : eff W Progress :=
  match entries with
  | [] => mret st
  | (entry, parsed) :: rest =>
      st ← check_paths job (field entry) parsed (entry_paths job entry) st;
      check_entries job rest st
  end.

(** ** Configuration and uploads *)

(** The custom rules of one expression are resolved before anything runs. *)
Fixpoint resolve_custom (registry : option Engine) (rules : list ParsedRule) (custom : Engine) : result Engine :=
  match rules with
  | [] => Ok custom
  | rule :: rest =>
      if is_name "custom" (rule_name rule) then
        a ← first_argument rule;
        if bool_decide (is_Some (custom !! a)) then resolve_custom registry rest custom
        else
          match registry with
          | None => Throw (logic_error "Custom validation requires a rule registry")
          | Some engine => r ← engine_rule engine a; resolve_custom registry rest (<[a := r]> custom)
          end
      else resolve_custom registry rest custom
  end.

Fixpoint parse_entries (registry : option Engine) (definitions : Rules) (seen : gset bytes) (custom : Engine)
    : result (list (list ParsedRule) * Engine) :=
  match definitions with
  | [] => Ok ([], custom)
  | entry :: rest =>
      if bool_decide (field entry ∈ seen) then Throw (logic_error "Duplicate validation field path")
      else
        parsed ← parse_rule_expression (field entry) (expression entry);
        custom ← resolve_custom registry parsed custom;
        '(more, custom) ← parse_entries registry rest ({[field entry]} ∪ seen) custom;
        Ok (parsed :: more, custom)
  end.

(** [groups[upload_key(file.name)].push_back(&file)]. *)
Definition add_to_group (file : UploadedFile) (groups : list (bytes * list UploadedFile)) :=
  let key := upload_key (file_name file) in
  insert_or_assign key (default [] (find_entry key groups) ++ [file]) groups.

Definition group_uploads (files : list UploadedFile) : list (bytes * list UploadedFile) :=
  fold_left (fun groups file => add_to_group file groups) files [].

Definition metadata (file : UploadedFile) : Json :=
  JObject [(lit "name", JString (file_filename file)); (lit "contentType", JString (file_content_type file));
           (lit "size", JUInt (Z.of_nat (length (file_content file))))].

(** [uploads.emplace]: an existing entry stays. *)
Definition emplace (key : bytes) (file : UploadedFile) (m : gmap bytes UploadedFile) : gmap bytes UploadedFile :=
  match m !! key with Some _ => m | None => <[key := file]> m end.

Definition multiple (files : list UploadedFile) : bool :=
  (1 <? length files)%nat ||
  match files with f :: _ => ends_with (lit "[]") (file_name f) | [] => false end.

Fixpoint register_files (name : bytes) (many : bool) (i : nat) (files : list UploadedFile)
    (m : gmap bytes UploadedFile) : gmap bytes UploadedFile :=
  match files with
  | [] => m
  | f :: rest =>
      let key := if many then name ++ "."%byte :: to_string (Z.of_nat i) else name in
      register_files name many (S i) rest (emplace key f m)
  end.

Fixpoint merge_uploads (groups : list (bytes * list UploadedFile)) (values : list (bytes * Json))
    (m : gmap bytes UploadedFile) : list (bytes * Json) * gmap bytes UploadedFile :=
  match groups with
  | [] => (values, m)
  | (name, files) :: rest =>
      let many := multiple files in
      let value := if many then JArray (map metadata files) else metadata (hd (mkFile [] [] [] []) files) in
      merge_uploads rest (insert_or_assign name value values) (register_files name many 0 files m)
  end.

(** ** The result *)

Definition depth (path : bytes) : nat := length (filter (fun c => c = "."%byte) path).

(** [std::stable_sort] by the number of dots. *)
Fixpoint insert_by_depth (x : bytes * Json) (l : list (bytes * Json)) : list (bytes * Json) :=
  match l with
  | [] => [x]
  | y :: rest => if (depth y.1 <? depth x.1)%nat then y :: insert_by_depth x rest else x :: l
  end.

Definition sort_by_depth (l : list (bytes * Json)) : list (bytes * Json) := foldr insert_by_depth [] l.

Definition ancestor_failed (errors : Errors) (path : bytes) : bool :=
  existsb (fun failed => bool_decide (path = failed) || starts_with (failed ++ ["."%byte]) path)
    (map fst (map_to_list errors)).

Definition add_value (flat : bool) (input : Json) (path : bytes) (value : Json) (values : Json) : result Json :=
  if flat then
    object ← as_object values;
    Ok (JObject (insert_or_assign path value object))
  else Ok (select_path values input path value).

Fixpoint collect (flat : bool) (input : Json) (errors : Errors) (selected : list (bytes * Json)) (values : Json)
    : result Json :=
  match selected with
  | [] => Ok values
  | (path, value) :: rest =>
      if ancestor_failed errors path then collect flat input errors rest values
      else v ← add_value flat input path value values; collect flat input errors rest v
  end.

Definition check_data (source : Json) (definitions : Rules) (context : Context_) (flat : bool)
    : eff W StructuredResult :=
  match source with
  | JObject object =>
      '(expressions, custom) ← lift (parse_entries (custom_rules context) definitions ∅ ∅);
      let '(object, files) :=
        match uploads_ context with
        | Some uploads => merge_uploads (bucket_order (group_uploads uploads)) object ∅
        | None => (object, ∅)
        end in
      let input := JObject object in
      let job := mkJob definitions input files custom flat in
      '(errors, selected) ← check_entries job (zip definitions expressions) (∅, []);
      values ← lift (collect flat input errors (sort_by_depth selected) (JObject []));
      mret (mkChecked values errors)
  | _ => throw (invalid_argument "Structured validation requires an object")
  end.

(** [Validator::validate]: a [ValidationException] carries the errors. *)
Definition validate (source : Json) (definitions : Rules) (context : Context_) : eff W (Errors + Json) :=
  r ← check_data source definitions context false;
  mret (if valid r then inr (checked_values r) else inl (checked_errors r)).

(** [Validator::check(const Input&, const Rules&)]: form fields are texts. *)
Definition check_input (input : list (bytes * bytes)) (definitions : Rules)
    : eff W (list (bytes * bytes) * Errors) :=
  checked ← check_data (JObject (map (fun kv => (kv.1, JString kv.2)) input)) definitions (mkContext None None) true;
  object ← lift (as_object (checked_values checked));
  mret (map (fun kv => (kv.1, json_string kv.2)) object, checked_errors checked).
End Validator.

Arguments CustomRule W : clear implicits.
Arguments SqlConnection W : clear implicits.
Arguments Context_ W : clear implicits.
Arguments Site W : clear implicits.
Arguments Job W : clear implicits.
