(* ===== verification/ValidationFacts.v ===== *)
(** * What the validator returns

    Validated data is a part of the input, found at the declared paths only; every
    declared value is returned unchanged and satisfies its rules. *)

From Stdlib Require Import Sorting.Sorted QArith.
From S2P Require Import Prelude Numeral Text Double Json Attribute Uploads Media Transaction Calendar.
From S2P Require Import Formats FormatsFacts Rules Validation.
From S2P Require DoubleFacts.

#[local] Open Scope Z_scope.

(** ** Parts of a JSON value

    [part v w]: [v] is [w] with elements left out; an array keeps a null in their place. *)
Unset Elimination Schemes.
Inductive part : Json -> Json -> Prop :=
| part_refl v : part v v
| part_null w : part JNull w
| part_array l m :
    (forall i x, l !! i = Some x -> exists y, m !! i = Some y /\ part x y) -> part (JArray l) (JArray m)
| part_object l m :
    (forall k x, find_entry k l = Some x -> exists y, find_entry k m = Some y /\ part x y) ->
    part (JObject l) (JObject m).
Set Elimination Schemes.

Lemma part_array_inv l w :
  part (JArray l) w -> exists m, w = JArray m /\ forall i x, l !! i = Some x -> exists y, m !! i = Some y /\ part x y.
Proof.
  intros H. inversion H; subst; [|by eauto]. exists l. split; [done|]. intros i x Hx. exists x.
  split; [done|constructor].
Qed.

Lemma part_object_inv l w :
  part (JObject l) w ->
  exists m, w = JObject m /\ forall k x, find_entry k l = Some x -> exists y, find_entry k m = Some y /\ part x y.
Proof.
  intros H. inversion H; subst; [|by eauto]. exists l. split; [done|]. intros i x Hx. exists x.
  split; [done|constructor].
Qed.

Lemma part_scalar v w : part v w -> is_scalar v = true -> w = v.
Proof. by destruct 1. Qed.

Lemma find_entry_insert {V} k k' (v : V) l :
  find_entry k' (insert_or_assign k v l) = if decide (k = k') then Some v else find_entry k' l.
Proof.
  induction l as [|[k0 w] l IH]; cbn [insert_or_assign find_entry].
  - case_bool_decide; by case_decide.
  - case_bool_decide as E; cbn [find_entry].
    + subst k0. case_bool_decide; by case_decide.
    + rewrite IH. case_bool_decide; case_decide; congruence.
Qed.

Lemma part_child v w key x : part v w -> child v key = Some x -> exists y, child w key = Some y /\ part x y.
Proof.
  intros Hp Hx. destruct v; try done; cbn [child] in Hx.
  - apply part_array_inv in Hp as (m & -> & Hm). cbn [child]. unfold array_index in *.
    destruct (from_chars_uint64 key) as [i|]; [|done]. case_match eqn:E; [|done].
    destruct (Hm _ _ Hx) as (y & Hy & Hp). exists y. split; [|done]. apply lookup_lt_Some in Hy as Hlt.
    replace (i <? _) with true; [done|]. symmetry. apply Z.ltb_lt. lia.
  - apply part_object_inv in Hp as (m & -> & Hm). by apply Hm.
Qed.

Lemma part_at v w keys x : part v w -> at_keys v keys = Some x -> exists y, at_keys w keys = Some y /\ part x y.
Proof.
  revert v w. induction keys as [|key keys IH]; intros v w Hp Hx; cbn [at_keys] in *.
  - injection Hx as <-. by exists w.
  - destruct (child v key) as [v'|] eqn:Hc; [|done].
    destruct (part_child v w key v' Hp Hc) as (w' & -> & Hp'). by apply (IH v').
Qed.

(** ** Setting a value at a path *)

Lemma index_or_zero_full key i : from_chars_uint64 key = Some i -> index_or_zero key = i.
Proof.
  unfold from_chars_uint64, from_chars_all, index_or_zero.
  destruct (from_chars 0 UINT64_MAX key) as [[v [|]]|]; congruence.
Qed.

(** The array into which [select_keys] stores. *)
Definition room (i : nat) (array : list Json) : list Json :=
  if (length array <=? i)%nat then grow (S i) array else array.

Lemma room_lookup i array j x :
  room i array !! j = Some x -> array !! j = Some x \/ (j <= i)%nat /\ x = JNull.
Proof.
  unfold room, grow. destruct (Nat.leb_spec (length array) i); [|auto].
  intros [Hx|[_ Hx]]%lookup_app_Some; [by left|]. right.
  apply lookup_replicate in Hx as [-> ?]. split; [lia|done].
Qed.

Lemma room_keeps i array j x : array !! j = Some x -> room i array !! j = Some x.
Proof. intros. unfold room, grow. case_match; [|done]. by apply lookup_app_l_Some. Qed.

Lemma room_length i array : (i < length (room i array))%nat.
Proof.
  unfold room, grow. destruct (Nat.leb_spec (length array) i); [|done].
  rewrite length_app, length_replicate. lia.
Qed.

(** The array of the output, the index, and the element an array key selects. *)
Lemma select_array out elements key rest value i next :
  from_chars_uint64 key = Some i -> elements !! Z.to_nat i = Some next -> i < Z.of_nat (length elements) ->
  let array := match out with JArray a => a | _ => [] end in
  select_keys out (JArray elements) (key :: rest) value =
  JArray (<[Z.to_nat i := select_keys (nth (Z.to_nat i) (room (Z.to_nat i) array) JNull) next rest value]>
            (room (Z.to_nat i) array)).
Proof.
  intros Hi Hn Hlt. cbn [select_keys]. rewrite (index_or_zero_full key i) by done.
  replace (Z.of_nat (length elements) <=? i) with false by (symmetry; apply Z.leb_gt; lia).
  fold (room (Z.to_nat i)). by rewrite (nth_lookup_Some _ _ _ _ Hn).
Qed.

Lemma child_array elements key next :
  child (JArray elements) key = Some next ->
  exists i, from_chars_uint64 key = Some i /\ 0 <= i < Z.of_nat (length elements) /\ elements !! Z.to_nat i = Some next.
Proof.
  cbn [child]. unfold array_index. destruct (from_chars_uint64 key) as [i|] eqn:Ei; [|done].
  destruct (Z.ltb_spec i (Z.of_nat (length elements))); [|done]. intros Hn. exists i.
  apply from_chars_all_range in Ei as Hr. split; [done|]. split; [lia|done].
Qed.

Lemma select_part out inp keys value v :
  part out inp -> at_keys inp keys = Some v -> part value v -> part (select_keys out inp keys value) inp.
Proof.
  revert out inp. induction keys as [|key rest IH]; intros out inp Hp Hv Hval; cbn [at_keys] in Hv.
  { by injection Hv as <-. }
  destruct (child inp key) as [next|] eqn:Hc; [|done]. destruct inp as [| | | | | |elements|entries]; try done.
  - apply child_array in Hc as (i & Hi & Hr & Hn). rewrite (select_array _ _ _ _ _ i next) by (done || lia).
    set (array := match out with JArray a => a | _ => [] end).
    assert (forall j x, array !! j = Some x -> exists y, elements !! j = Some y /\ part x y) as Ha.
    { destruct out; try done. apply part_array_inv in Hp as (m & [= ->] & Hm). exact Hm. }
    assert (forall j x, room (Z.to_nat i) array !! j = Some x -> exists y, elements !! j = Some y /\ part x y) as Hroom.
    { intros j x [Hx|[Hj ->]]%room_lookup; [by apply Ha|].
      destruct (lookup_lt_is_Some_2 elements j) as [y Hy]; [lia|]. exists y. split; [done|constructor]. }
    constructor. intros j x Hx. destruct (decide (j = Z.to_nat i)) as [->|Hne].
    + rewrite list_lookup_insert_eq in Hx by apply room_length. injection Hx as <-.
      exists next. split; [done|]. apply (IH _ next); [|done|done].
      destruct (lookup_lt_is_Some_2 (room (Z.to_nat i) array) (Z.to_nat i)) as [x Hx]; [apply room_length|].
      rewrite (nth_lookup_Some _ _ _ _ Hx). destruct (Hroom _ _ Hx) as (y & Hy & Hxy). congruence.
    + rewrite list_lookup_insert_ne in Hx by done. by apply Hroom.
  - cbn [child] in Hc. cbn [select_keys Json.get]. rewrite Hc. cbn [default]. unfold id.
    set (object := match out with JObject o => o | _ => [] end).
    assert (forall k x, find_entry k object = Some x -> exists y, find_entry k entries = Some y /\ part x y) as Ho.
    { destruct out; try done. apply part_object_inv in Hp as (m & [= ->] & Hm). exact Hm. }
    constructor. intros k x. rewrite find_entry_insert. case_decide; [subst k|by apply Ho].
    intros [= <-]. exists next. split; [done|]. apply (IH _ next); [|done|done].
    destruct (find_entry key object) as [x|] eqn:Hx; [|constructor].
    destruct (Ho _ _ Hx) as (y & Hy & Hxy). cbn. congruence.
Qed.

Lemma select_there out inp keys value v :
  at_keys inp keys = Some v -> at_keys (select_keys out inp keys value) keys = Some value.
Proof.
  revert out inp. induction keys as [|key rest IH]; intros out inp Hv; cbn [at_keys] in Hv; [done|].
  destruct (child inp key) as [next|] eqn:Hc; [|done]. destruct inp as [| | | | | |elements|entries]; try done.
  - apply child_array in Hc as (i & Hi & Hr & Hn). rewrite (select_array _ _ _ _ _ i next) by (done || lia).
    cbn [at_keys child]. unfold array_index. rewrite Hi, length_insert.
    set (array := match out with JArray a => a | _ => [] end). pose proof (room_length (Z.to_nat i) array) as Hl.
    replace (i <? _) with true by (symmetry; apply Z.ltb_lt; lia).
    rewrite list_lookup_insert_eq by done. by apply IH.
  - cbn [child] in Hc. cbn [select_keys Json.get at_keys child]. rewrite Hc. cbn [default]. unfold id.
    rewrite find_entry_insert, decide_True by done. by apply IH.
Qed.

(** [q] runs through the place that [keys] names in [inp]. *)
Fixpoint same_place (inp : Json) (keys q : list bytes) : Prop :=
  match keys, q with
  | [], _ => True
  | key :: rest, k :: q' =>
      match inp with
      | JArray m =>
          exists i, from_chars_uint64 key = Some i /\ from_chars_uint64 k = Some i /\
            same_place (nth (Z.to_nat i) m JNull) rest q'
      | _ => key = k /\ same_place (default JNull (child inp key)) rest q'
      end
  | _, _ => False
  end.

(** Whether two paths name the same place is decidable. *)
Lemma classic_place inp keys q : same_place inp keys q \/ ~ same_place inp keys q.
Proof.
  revert inp q. induction keys as [|key rest IH]; intros inp [|k q]; cbn [same_place]; auto.
  destruct inp as [| | | | | |m|m]; 
    try (destruct (decide (key = k)) as [<-|Hne]; [|right; by intros [? _]];
         edestruct IH as [H|H]; [left; split; [done|exact H]|right; intros [_ H']; by apply H]).
  destruct (from_chars_uint64 key) as [i|]; [|right; by intros (? & ? & _)].
  destruct (decide (from_chars_uint64 k = Some i)) as [E|E]; [|right; intros (? & ? & ? & _); congruence].
  destruct (IH (nth (Z.to_nat i) m JNull) q) as [H|H]; [left; by exists i|right].
  intros (i' & [= <-] & _ & H'). by apply H.
Qed.

Lemma same_place_length inp keys q : same_place inp keys q -> (length keys <= length q)%nat.
Proof.
  revert inp q. induction keys as [|key rest IH]; intros inp [|k q] H; cbn in *; try lia; try done.
  apply le_n_S. destruct inp; try (destruct H as [_ H]; by eapply IH). destruct H as (i & _ & _ & H). by eapply IH.
Qed.

Lemma same_place_at inp v keys q :
  same_place inp keys q -> length keys = length q -> part v inp -> at_keys v keys = at_keys v q.
Proof.
  revert inp v q. induction keys as [|key rest IH]; intros inp v [|k q] H Hl Hp; cbn [same_place at_keys] in *; try done.
  injection Hl as Hl.
  destruct (child v key) as [x|] eqn:Hx.
  - destruct (part_child _ _ _ _ Hp Hx) as (y & Hy & Hxy). destruct inp as [| | | | | |m|m]; try done.
    + destruct H as (i & Hk & Hk' & H). apply child_array in Hy as (i' & Hi' & Hr & Hn).
      assert (i' = i) as -> by congruence. rewrite (nth_lookup_Some _ _ _ _ Hn) in H.
      destruct v; try done; [|apply part_object_inv in Hp as (? & ? & _); done]. cbn [child] in *.
      unfold array_index in *. rewrite Hk in Hx. rewrite Hk', Hx. by apply (IH y).
    + destruct H as [<- H]. rewrite Hx. cbn [child] in *. rewrite Hy in H. by apply (IH y).
  - destruct inp as [| | | | | |m|m]; try (destruct H as [<- _]; by rewrite Hx).
    destruct H as (i & Hk & Hk' & H). destruct v as [| | | | | |l|l]; try done.
    + cbn [child] in *. unfold array_index in *. rewrite Hk in Hx. by rewrite Hk', Hx.
    + apply part_object_inv in Hp as (? & ? & _). done.
Qed.

(** The kind of a container stays, and a scalar is the same. *)
Definition like (v u : Json) : Prop :=
  match v with
  | JArray _ => exists l, u = JArray l
  | JObject _ => exists o, u = JObject o
  | JNull => True
  | _ => u = v
  end.

Lemma like_refl v : like v v.
Proof. destruct v; cbn; by eauto. Qed.

Lemma like_trans v u w : like v u -> like u w -> like v w.
Proof. intros H1 H2. destruct v; cbn in *; first [done|by subst u|by destruct H1 as [? ->]]. Qed.

Lemma like_scalar v u : is_scalar v = true -> like v u -> u = v.
Proof. by destruct v. Qed.

(** What is elsewhere stays, up to elements that are added to a container. *)
Lemma select_like out inp keys value v q u :
  part out inp -> at_keys inp keys = Some v -> at_keys out q = Some u -> u <> JNull ->
  ~ same_place inp keys q -> exists u', at_keys (select_keys out inp keys value) q = Some u' /\ like u u'.
Proof.
  revert out inp q. induction keys as [|key rest IH]; intros out inp q Hp Hv Hu Hs Hn; [by destruct Hn|].
  cbn [at_keys] in Hv. destruct (child inp key) as [next|] eqn:Hc; [|done].
  destruct q as [|k q].
  { injection Hu as ->. eexists. split; [reflexivity|]. destruct inp as [| | | | | |elements|entries]; try done.
    - apply child_array in Hc as (i & Hi & Hr & Hnext). rewrite (select_array _ _ _ _ _ i next) by (done || lia).
      inversion Hp; subst; [by eexists|done|by eexists].
    - cbn [select_keys]. inversion Hp; subst; [by eexists|done|by eexists]. }
  cbn [at_keys] in Hu. destruct (child out k) as [o|] eqn:Ho; [|done].
  destruct (part_child _ _ _ _ Hp Ho) as (y & Hy & Hoy).
  destruct inp as [| | | | | |elements|entries]; try done.
  - apply child_array in Hc as (i & Hi & Hr & Hnext). rewrite (select_array _ _ _ _ _ i next) by (done || lia).
    destruct out as [| | | | | |l|l]; try done; [|by apply part_object_inv in Hp as (? & ? & _)].
    apply child_array in Ho as (j & Hj & Hrj & Hoj). cbn [at_keys child]. unfold array_index. rewrite Hj, length_insert.
    pose proof (room_keeps (Z.to_nat i) l _ _ Hoj) as Hk. apply lookup_lt_Some in Hk as Hlt.
    replace (j <? _) with true by (symmetry; apply Z.ltb_lt; lia).
    destruct (decide (j = i)) as [->|Hne].
    + rewrite list_lookup_insert_eq by done. rewrite (nth_lookup_Some _ _ _ _ Hk).
      apply child_array in Hy as (i' & Hi' & _ & Hy). assert (i' = i) as -> by congruence.
      assert (y = next) as -> by congruence. apply (IH o next); try done.
      intros Hsame. apply Hn. cbn [same_place]. exists i. by rewrite (nth_lookup_Some _ _ _ _ Hnext).
    + rewrite list_lookup_insert_ne by (intros E; apply Hne; lia). rewrite Hk. exists u. split; [done|apply like_refl].
  - destruct out as [| | | | | |l|l]; try done; [by apply part_array_inv in Hp as (? & ? & _)|].
    cbn [child] in *. cbn [select_keys Json.get at_keys child]. rewrite Hc. cbn [default]. unfold id.
    rewrite find_entry_insert. case_decide as Ek; [|rewrite Ho; exists u; split; [done|apply like_refl]]. subst k. rewrite Ho. cbn [default]. unfold id.
    assert (y = next) as -> by congruence. apply (IH o next); try done.
    intros Hsame. apply Hn. cbn [same_place child]. by rewrite Hc.
Qed.

Lemma select_keeps out inp keys value v q u :
  part out inp -> at_keys inp keys = Some v -> at_keys out q = Some u -> is_scalar u = true ->
  ~ same_place inp keys q -> at_keys (select_keys out inp keys value) q = Some u.
Proof.
  intros Hp Hv Hu Hs Hn. destruct (select_like out inp keys value v q u) as (u' & Hu' & Hl); [done..|by intros ->|done|].
  by rewrite (like_scalar _ _ Hs Hl) in Hu'.
Qed.

Lemma at_null q u : at_keys JNull q = Some u -> is_scalar u = true -> False.
Proof. destruct q; [by intros [= <-]|done]. Qed.

(** A scalar of the new value was there before, or is one of the value at the new path. *)
Lemma select_from out inp keys value v q u :
  part out inp -> at_keys inp keys = Some v -> at_keys (select_keys out inp keys value) q = Some u ->
  is_scalar u = true ->
  at_keys out q = Some u \/ same_place inp keys q /\ at_keys value (drop (length keys) q) = Some u.
Proof.
  revert out inp q. induction keys as [|key rest IH]; intros out inp q Hp Hv Hu Hs; [by right|]. cbn [length].
  cbn [at_keys] in Hv. destruct (child inp key) as [next|] eqn:Hc; [|done].
  destruct inp as [| | | | | |elements|entries]; try done.
  - apply child_array in Hc as (i & Hi & Hr & Hnext). rewrite (select_array _ _ _ _ _ i next) in Hu by (done || lia).
    destruct q as [|k q]; [by injection Hu as <-|]. cbn [at_keys] in Hu.
    destruct (child _ k) as [o|] eqn:Ho; [|done]. apply child_array in Ho as (j & Hj & Hrj & Hoj).
    set (array := match out with JArray a => a | _ => [] end) in *.
    assert (forall n o, room (Z.to_nat i) array !! n = Some o -> n = Z.to_nat j -> at_keys o q = Some u ->
              at_keys out (k :: q) = Some u) as Hold.
    { intros n o' [Hn|[_ ->]]%room_lookup -> Hq; [|by destruct (at_null q u)].
      destruct out as [| | | | | |l|l]; try done. cbn [at_keys child]. unfold array_index. rewrite Hj.
      apply lookup_lt_Some in Hn as Hlt. cbn in array. subst array.
      replace (j <? _) with true by (symmetry; apply Z.ltb_lt; lia). by rewrite Hn. }
    destruct (decide (j = i)) as [->|Hne].
    + rewrite list_lookup_insert_eq in Hoj by apply room_length. injection Hoj as <-.
      destruct (lookup_lt_is_Some_2 (room (Z.to_nat i) array) (Z.to_nat i)) as [x Hx]; [apply room_length|].
      rewrite (nth_lookup_Some _ _ _ _ Hx) in Hu.
      assert (part x next) as Hpx.
      { apply room_lookup in Hx as [Hx|[_ ->]]; [|constructor]. destruct out; try done. subst array.
        apply part_array_inv in Hp as (m & [= ->] & Hm). destruct (Hm _ _ Hx) as (y & Hy & ?). congruence. }
      destruct (IH _ next q Hpx Hv Hu Hs) as [H|[H Hd]]; [left; by eapply Hold|right].
      cbn [same_place drop]. split; [|done]. exists i. by rewrite (nth_lookup_Some _ _ _ _ Hnext).
    + rewrite list_lookup_insert_ne in Hoj by (intros E; apply Hne; lia). left. by eapply Hold.
  - cbn [child] in Hc. cbn [select_keys Json.get] in Hu. rewrite Hc in Hu. cbn [default] in Hu. unfold id in Hu.
    destruct q as [|k q]; [by injection Hu as <-|]. cbn [at_keys child] in Hu. rewrite find_entry_insert in Hu.
    set (object := match out with JObject o => o | _ => [] end) in *.
    assert (forall x, find_entry k object = Some x -> at_keys x q = Some u -> at_keys out (k :: q) = Some u) as Hold.
    { intros x Hx Hq. destruct out as [| | | | | |l|l]; try done. cbn [at_keys child]. subst object. by rewrite Hx. }
    case_decide as Ek.
    + subst k. destruct (find_entry key object) as [x|] eqn:Hx; cbn in Hu.
      * assert (part x next) as Hpx.
        { destruct out; try done. subst object. apply part_object_inv in Hp as (m & [= ->] & Hm).
          destruct (Hm _ _ Hx) as (y & Hy & ?). congruence. }
        destruct (IH _ next q Hpx Hv Hu Hs) as [H|[H Hd]]; [left; by eapply Hold|right]. cbn [same_place child drop]. by rewrite Hc.
      * destruct (IH _ next q (part_null next) Hv Hu Hs) as [H|[H Hd]]; [by destruct (at_null q u)|right].
        cbn [same_place child drop]. by rewrite Hc.
    + left. destruct (find_entry k object) as [x|] eqn:Hx; [|done]. by eapply Hold.
Qed.

(** ** Paths and their depth *)

Lemma fields_depth path : length (fields "." path) = S (depth path).
Proof.
  induction path as [|c path IH]; [done|]. cbn [fields]. unfold depth in *.
  destruct (c =b? ".") eqn:E; reflect_bools.
  - rewrite filter_cons_True by done. cbn [length]. by rewrite IH.
  - rewrite filter_cons_False by done. destruct (fields "." path); [done|]. exact IH.
Qed.

Lemma insert_by_depth_perm x l : insert_by_depth x l ≡ₚ x :: l.
Proof.
  induction l as [|y l IH]; [done|]. cbn [insert_by_depth]. case_match; [|done].
  rewrite IH. constructor.
Qed.

Lemma sort_by_depth_perm l : sort_by_depth l ≡ₚ l.
Proof. induction l as [|x l IH]; [done|]. cbn. by rewrite insert_by_depth_perm, IH. Qed.

Abbreviation shallower := (fun a b : bytes * Json => (depth a.1 <= depth b.1)%nat).

Lemma sort_by_depth_sorted l : StronglySorted shallower (sort_by_depth l).
Proof.
  induction l as [|x l IH]; cbn; [constructor|]. fold (sort_by_depth l). revert IH. generalize (sort_by_depth l).
  clear l. intros l. induction l as [|y l IHl]; intros Hs; cbn [insert_by_depth]; [by repeat constructor|].
  apply StronglySorted_inv in Hs as [Hs Hy]. destruct (Nat.ltb_spec (depth y.1) (depth x.1)).
  - constructor; [by apply IHl|]. rewrite insert_by_depth_perm. constructor; [lia|done].
  - constructor; [by constructor|]. constructor; [lia|]. eapply Forall_impl; [exact Hy|]. cbn. lia.
Qed.

(** ** Collecting the selected values *)

Lemma part_like u x : part u x -> u <> JNull -> like u x /\ like x u.
Proof. intros H Hn. inversion H; subst; [by split; apply like_refl|done|by split; eexists..]. Qed.

(** A selected value comes from the input; a scalar is taken as it is, of a container at
    least the kind. *)
Definition from_input (flat : bool) (input : Json) (sel : bytes * Json) : Prop :=
  exists x, lookup_ flat input sel.1 = Some x /\ part sel.2 x /\ like x sel.2 /\
            (flat = true -> sel.2 = x).

Lemma collect_nested input errors sel out values :
  collect false input errors sel out = Ok values ->
  StronglySorted shallower sel -> Forall (from_input false input) sel -> part out input ->
  part values input /\
  (forall q u, at_path out q = Some u -> u <> JNull ->
     Forall (fun x => (depth q <= depth x.1)%nat) sel -> exists u', at_path values q = Some u' /\ like u u') /\
  (forall p v, (p, v) ∈ sel -> ancestor_failed errors p = false -> v <> JNull ->
     exists u, at_path values p = Some u /\ like v u).
Proof.
  revert out. induction sel as [|[p v] sel IH]; intros out Hc Hs Hf Hp; cbn [collect] in Hc.
  { injection Hc as <-. split; [done|]. split; [intros q u Hq _ _; exists u; split; [done|apply like_refl]|]. by intros ? ? ?%elem_of_nil. }
  apply StronglySorted_inv in Hs as [Hs Hd]. inversion Hf as [|? ? (x & Hx & Hvx & Hlike & _) Hf']; subst.
  cbn [fst snd lookup_] in *. destruct (ancestor_failed errors p) eqn:Ha.
  - destruct (IH out Hc Hs Hf' Hp) as (Hpart & Hkeep & Hsel). split; [done|]. split.
    + intros q u Hq Hu Hdq. inversion Hdq; subst. by apply Hkeep.
    + intros p' v' [[= -> ->]|Hin]%elem_of_cons; [congruence|by apply Hsel].
  - cbn [add_value mbind result_bind] in Hc.
    assert (part (select_path out input p v) input) as Hp' by (by eapply select_part).
    destruct (IH _ Hc Hs Hf' Hp') as (Hpart & Hkeep & Hsel). split; [done|]. split.
    + intros q u Hq Hu Hdq. inversion Hdq as [|? ? Hd1 Hd2]; subst.
      assert (exists u', at_path (select_path out input p v) q = Some u' /\ like u u') as (u1 & Hu1 & Hl1).
      { unfold at_path, select_path in *. destruct (part_at _ _ _ _ Hp Hq) as (y & Hy & Huy). destruct (part_like _ _ Huy Hu) as [Hly _].
        destruct (decide (length (fields "." p) = length (fields "." q))) as [El|El].
        * destruct (classic_place input (fields "." p) (fields "." q)) as [Hsp|Hsp]; [|by eapply select_like].
          rewrite <-(same_place_at input _ (fields "." p) (fields "." q) Hsp El Hp').
          assert (x = y) as -> by (rewrite (same_place_at input input _ _ Hsp El) in Hx by constructor; congruence).
          exists v. split; [by eapply select_there|by eapply like_trans].
        * eapply select_like; try done. intros Hsp%same_place_length.
          pose proof (fields_depth p). pose proof (fields_depth q). cbn [fst] in Hd1. lia. }
      destruct (Hkeep q u1 Hu1) as (u2 & Hu2 & Hl2); [intros ->; destruct u; try done; by destruct Hl1|done|].
      exists u2. split; [done|by eapply like_trans].
    + intros p' v' [[= -> ->]|Hin]%elem_of_cons Ha' Hv'; [|by apply Hsel].
      apply Hkeep; [by eapply select_there|done|]. exact Hd.
Qed.

Lemma collect_from input errors sel out values q u :
  collect false input errors sel out = Ok values -> Forall (from_input false input) sel -> part out input ->
  at_keys values q = Some u -> is_scalar u = true ->
  at_keys out q = Some u \/
  exists p v, (p, v) ∈ sel /\ ancestor_failed errors p = false /\ same_place input (fields "." p) q /\
    at_keys v (drop (length (fields "." p)) q) = Some u.
Proof.
  revert out. induction sel as [|[p v] sel IH]; intros out Hc Hf Hp Hq Hu; cbn [collect] in Hc.
  { injection Hc as <-. by left. }
  inversion Hf as [|? ? (x & Hx & Hvx & _) Hf']; subst. cbn [fst snd lookup_] in *.
  assert (forall P : Prop, P \/ (exists p' v', (p', v') ∈ sel /\ ancestor_failed errors p' = false /\
            same_place input (fields "." p') q /\ at_keys v' (drop (length (fields "." p')) q) = Some u) ->
            P \/ exists p' v', (p', v') ∈ (p, v) :: sel /\ ancestor_failed errors p' = false /\
            same_place input (fields "." p') q /\ at_keys v' (drop (length (fields "." p')) q) = Some u) as Hmono.
  { intros P [?|(p' & v' & Hin & ?)]; [by left|right]. exists p', v'. split; [by right|done]. }
  destruct (ancestor_failed errors p) eqn:Ha; [apply Hmono; by apply IH|].
  cbn [add_value mbind result_bind] in Hc.
  destruct (IH (select_path out input p v) Hc Hf') as [H|H]; [by eapply select_part|done|done| |by apply Hmono; right].
  destruct (select_from _ _ _ _ _ _ _ Hp Hx H Hu) as [?|[? ?]]; [by left|right].
  exists p, v. split; [by left|done].
Qed.

Lemma collect_flat input errors sel o values :
  collect true (JObject input) errors sel (JObject o) = Ok values ->
  Forall (from_input true (JObject input)) sel ->
  (forall k x, find_entry k o = Some x -> find_entry k input = Some x) ->
  exists o', values = JObject o' /\
    (forall k x, find_entry k o' = Some x -> find_entry k input = Some x) /\
    (forall k x, find_entry k o = Some x -> find_entry k o' = Some x) /\
    (forall p v, (p, v) ∈ sel -> ancestor_failed errors p = false -> find_entry p o' = Some v).
Proof.
  revert o. induction sel as [|[p v] sel IH]; intros o Hc Hf Ho; cbn [collect] in Hc.
  { injection Hc as <-. exists o. split_and!; [done..|]. by intros ? ? ?%elem_of_nil. }
  inversion Hf as [|? ? (x & Hx & _ & _ & Hv) Hf']; subst. cbn [fst snd lookup_ Json.get] in *. specialize (Hv eq_refl) as ->.
  destruct (ancestor_failed errors p) eqn:Ha.
  - destruct (IH o Hc Hf' Ho) as (o' & -> & H1 & H2 & H3). exists o'. split_and!; [done..|].
    intros p' v' [[= -> ->]|Hin]%elem_of_cons; [congruence|by apply H3].
  - cbn [add_value as_object mbind result_bind] in Hc.
    destruct (IH (insert_or_assign p x o) Hc Hf') as (o' & -> & H1 & H2 & H3).
    { intros k y. rewrite find_entry_insert. case_decide; [congruence|apply Ho]. }
    exists o'. split_and!; [done|done| |].
    + intros k y Hk. apply H2. rewrite find_entry_insert. case_decide; [|done]. subst. by rewrite <-Hx, (Ho _ _ Hk).
    + intros p' v' [[= -> ->]|Hin]%elem_of_cons; [|by apply H3]. intros _. apply H2.
      by rewrite find_entry_insert, decide_True.
Qed.

(** Both ways of collecting at once. *)
Lemma collect_spec flat input errors sel values :
  collect flat (JObject input) errors (sort_by_depth sel) (JObject []) = Ok values ->
  Forall (from_input flat (JObject input)) sel ->
  part values (JObject input) /\
  (forall p v, (p, v) ∈ sel -> ancestor_failed errors p = false -> v <> JNull ->
     exists u, lookup_ flat values p = Some u /\ like v u).
Proof.
  intros Hc Hf. rewrite <-(sort_by_depth_perm sel) in Hf.
  assert (forall x, x ∈ sel -> x ∈ sort_by_depth sel) as Hin by (intros x; by rewrite sort_by_depth_perm).
  destruct flat.
  - destruct (collect_flat _ _ _ _ _ Hc Hf) as (o & -> & H1 & _ & H3); [done|]. split.
    + constructor. intros k x Hk. exists x. split; [by apply H1|constructor].
    + intros p v Hp Ha _. cbn. exists v. split; [apply H3; auto|apply like_refl].
  - destruct (collect_nested _ _ _ _ _ Hc (sort_by_depth_sorted sel) Hf) as (H1 & _ & H3); [by constructor|].
    split; [done|]. intros p v Hp. apply H3. auto.
Qed.

(** ** The run of a check *)
Section Run.
Context {W : Type}.
Variable read_connection : eff W (SqlConnection W).
Variable bucket_order : list (bytes * list UploadedFile) -> list (bytes * list UploadedFile).

Abbreviation check_path := (check_path read_connection).
Abbreviation check_data := (check_data read_connection bucket_order).
Abbreviation rule_pass := (rule_pass read_connection).

(** In some state of the world the check of a path had this outcome. *)
Definition ran (job : Job W) (entry : Rule) (parsed : list ParsedRule) (path : bytes) (o : PathOutcome) : Prop :=
  exists w w', check_path job (field entry) parsed path w = (Ok o, w').

Abbreviation replay := (fold_left (fun st (x : bytes * PathOutcome) => record_outcome x.1 x.2 st)).

(** A completed loop is a log of outcomes, one for every path of every entry. *)
Lemma check_entries_log job entries st w st' w' :
  check_entries read_connection job entries st w = (Ok st', w') ->
  exists log, st' = replay log st /\
    (forall path o, (path, o) ∈ log -> exists entry parsed,
       (entry, parsed) ∈ entries /\ path ∈ entry_paths job entry /\ ran job entry parsed path o) /\
    (forall entry parsed path, (entry, parsed) ∈ entries -> path ∈ entry_paths job entry ->
       exists o, (path, o) ∈ log /\ ran job entry parsed path o).
Proof.
  revert st w. induction entries as [|[entry parsed] entries IH]; intros st w H; cbn [check_entries] in H.
  { injection H as <- <-. exists []. split; [done|]. split; [by intros ? ? ?%elem_of_nil|by intros ? ? ? ?%elem_of_nil]. }
  apply eff_bind_inv in H as (st1 & w1 & H1 & H2).
  destruct (IH _ _ H2) as (log & -> & Hfrom & Hall).
  assert (exists log1, st1 = replay log1 st /\
            Forall2 (fun path x => x.1 = path /\ ran job entry parsed path x.2) (entry_paths job entry) log1)
    as (log1 & -> & Hlog1).
  { clear -H1. revert st w H1. induction (entry_paths job entry) as [|path paths IHp]; intros st w H; cbn [check_paths] in H.
    - injection H as <- <-. by exists [].
    - apply eff_bind_inv in H as (o & w2 & Ho & H). destruct (IHp _ _ H) as (log & -> & Hlog).
      exists ((path, o) :: log). split; [done|]. constructor; [|done]. split; [done|by eexists _, _]. }
  exists (log1 ++ log). split; [by rewrite fold_left_app|]. split.
  - intros path o [Hin|Hin]%elem_of_app.
    + apply list_elem_of_lookup_1 in Hin as [i Hi].
      destruct (Forall2_lookup_r _ _ _ _ _ Hlog1 Hi) as (p & Hp & [= <-] & Hr). cbn [fst snd] in *.
      exists entry, parsed. split; [by left|]. split; [by eapply list_elem_of_lookup_2|done].
    + destruct (Hfrom _ _ Hin) as (e & q & He & Hp & Hr). exists e, q. split; [by right|done].
  - intros e q path [[= -> ->]|He]%elem_of_cons Hp.
    + apply list_elem_of_lookup_1 in Hp as [i Hi].
      destruct (Forall2_lookup_l _ _ _ _ _ Hlog1 Hi) as ([p o] & Ho & [= ->] & Hr). exists o. cbn [snd] in Hr.
      split; [|done]. apply elem_of_app. left. by eapply list_elem_of_lookup_2.
    + destruct (Hall _ _ _ He Hp) as (o & Ho & Hr). exists o. split; [|done]. apply elem_of_app. by right.
Qed.

Lemma replay_errors log st path :
  is_Some ((replay log st).1 !! path) <-> is_Some (st.1 !! path) \/ exists ms, (path, Failed ms) ∈ log.
Proof.
  revert st. induction log as [|[p o] log IH]; intros st; cbn [fold_left].
  { split; [by left|]. intros [?|[? ?%elem_of_nil]]; done. }
  rewrite IH. clear IH. cbn [fst snd]. destruct o as [|ms|v]; cbn [record_outcome fst].
  - split; (intros [?|[ms ?]]; [by left|right; exists ms]); [by right|].
    by match goal with H : _ ∈ _ :: _ |- _ => apply elem_of_cons in H as [[=]|?] end.
  - unfold add_errors. split.
    + intros [H|[ms' ?]]; [|right; exists ms'; by right].
      destruct (decide (p = path)) as [->|]; [right; exists ms; by left|].
      rewrite lookup_insert_ne in H by done. by left.
    + intros [H|[ms' [[= -> ->]|?]%elem_of_cons]]; [|left; by rewrite lookup_insert_eq|right; by exists ms'].
      left. destruct (decide (p = path)) as [->|]; [by rewrite lookup_insert_eq|by rewrite lookup_insert_ne].
  - split; (intros [?|[ms ?]]; [by left|right; exists ms]); [by right|].
    by match goal with H : _ ∈ _ :: _ |- _ => apply elem_of_cons in H as [[=]|?] end.
Qed.

Lemma replay_selected log st p v :
  (p, v) ∈ (replay log st).2 <-> (p, v) ∈ st.2 \/ (p, Selected v) ∈ log.
Proof.
  revert st. induction log as [|[q o] log IH]; intros st; cbn [fold_left].
  { split; [by left|]. intros [?|?%elem_of_nil]; done. }
  rewrite IH, elem_of_cons. clear IH. cbn [fst snd]. destruct o as [|ms|u]; cbn [record_outcome snd].
  - naive_solver.
  - naive_solver.
  - rewrite elem_of_app, list_elem_of_singleton. naive_solver.
Qed.

(** ** One path *)

Lemma run_rules_pass s rules w w' :
  run_rules read_connection s rules w = (Ok [], w') ->
  Forall (fun rule => one_of skipped_names (rule_name rule) = true \/
                      exists w1 w2, rule_pass s rule w1 = (Ok true, w2)) rules.
Proof.
  revert w. induction rules as [|rule rules IH]; intros w H; cbn [run_rules] in H; [constructor|].
  destruct (one_of skipped_names (rule_name rule)) eqn:Hs.
  { constructor; [by left|by eapply IH]. }
  apply eff_bind_inv in H as (pass & w1 & H1 & H). destruct pass.
  - constructor; [right; by eauto|by eapply IH].
  - apply eff_bind_inv in H as (m & w2 & _ & H). destruct (has _ _); [done|].
    apply eff_bind_inv in H as (ms & w3 & _ & H). done.
Qed.

Lemma selected_value_part (job : Job W) path x file : part (selected_value job path x file) x.
Proof.
  unfold selected_value. case_match; [|constructor]. destruct x; cbn in *; rewrite ?andb_false_r in *; try done.
  - constructor. intros i y [-> Hi]%lookup_replicate. apply lookup_lt_is_Some_2 in Hi as [z Hz].
    exists z. split; [done|constructor].
  - by constructor.
Qed.

Lemma selected_value_same (job : Job W) path x file :
  is_scalar x = true \/ job_flat job = true -> selected_value job path x file = x.
Proof.
  unfold selected_value. intros [Hs| ->]; [|done]. unfold is_scalar in Hs. apply andb_prop in Hs as [Hs _].
  apply andb_prop in Hs as [Ha Ho]. apply negb_true_iff in Ha, Ho. rewrite Ha, Ho. by rewrite !andb_false_r.
Qed.

Lemma selected_value_like (job : Job W) path x file : like x (selected_value job path x file).
Proof. unfold selected_value. case_match; [|apply like_refl]. destruct x; cbn in *; rewrite ?andb_false_r in *; try done; by eexists. Qed.

Lemma check_path_selected job ef parsed path w v w' :
  check_path job ef parsed path w = (Ok (Selected v), w') ->
  exists x, lookup_ (job_flat job) (job_input job) path = Some x /\
    (v = x /\ (is_null x || (job_flat job && is_empty (Some x))) = true \/ v = selected_value job path x (job_files job !! path)).
Proof.
  unfold Validation.check_path. destruct (_ && has parsed "sometimes"); [done|].
  intros (req & w1 & _ & H)%eff_bind_inv. destruct (req && _).
  { by apply eff_bind_inv in H as (? & ? & _ & H). }
  destruct (lookup_ _ _ path) as [x|] eqn:Hx.
  - exists x. split; [done|]. destruct (has parsed "nullable" && _) eqn:Hn.
    { injection H as <- _. left. split; [done|]. by apply andb_prop in Hn as [_ Hn]. }
    apply eff_bind_inv in H as (ms & w2 & _ & H). destruct ms; [injection H as <- _; by right|done].
  - destruct (has parsed "present"); [by apply eff_bind_inv in H as (? & ? & _ & H)|done].
Qed.

Lemma check_path_from_input job ef parsed path w v w' :
  check_path job ef parsed path w = (Ok (Selected v), w') -> from_input (job_flat job) (job_input job) (path, v).
Proof.
  intros (x & Hx & Hv)%check_path_selected. exists x. split; [done|]. cbn [snd]. destruct Hv as [[-> _] | ->].
  - split; [constructor|]. split; [apply like_refl|done].
  - split; [apply selected_value_part|]. split; [apply selected_value_like|]. intros; apply selected_value_same; auto.
Qed.

(** A value that is there, is not excused by [nullable], and fails no rule. *)
Lemma check_path_passes job ef parsed path w o w' x :
  check_path job ef parsed path w = (Ok o, w') -> (forall ms, o <> Failed ms) ->
  lookup_ (job_flat job) (job_input job) path = Some x ->
  has parsed "nullable" && (is_null x || (job_flat job && is_empty (Some x))) = false ->
  o = Selected (selected_value job path x (job_files job !! path)) /\
  Forall (fun rule => one_of skipped_names (rule_name rule) = true \/
     exists w1 w2, rule_pass (mkSite ef path parsed x (job_files job !! path) (job_input job) (job_flat job) (job_custom job))
                     rule w1 = (Ok true, w2)) parsed.
Proof.
  unfold Validation.check_path. intros H Ho Hx Hn. rewrite Hx in H. rewrite bool_decide_eq_false_2 in H by done.
  cbn [andb] in H. apply eff_bind_inv in H as (req & w1 & _ & H). destruct (req && _).
  { apply eff_bind_inv in H as (m & w2 & _ & H). injection H as <- _. by destruct (Ho [m]). }
  rewrite Hn in H. apply eff_bind_inv in H as (ms & w2 & Hms & H). destruct ms as [|m ms].
  - injection H as <- _. split; [done|]. by eapply run_rules_pass.
  - injection H as <- _. by destruct (Ho (m :: ms)).
Qed.

(** ** The whole check, without uploads *)

Lemma check_data_inv source defs registry flat w r w' :
  check_data source defs (mkContext None registry) flat w = (Ok r, w') ->
  exists object expressions custom log,
    source = JObject object /\
    parse_entries registry defs ∅ ∅ = Ok (expressions, custom) /\
    let job := mkJob defs source ∅ custom flat in
    checked_errors r = (replay log (∅, [])).1 /\
    collect flat source (checked_errors r) (sort_by_depth (replay log (∅, [])).2) (JObject []) = Ok (checked_values r) /\
    (forall path o, (path, o) ∈ log -> exists entry parsed,
       (entry, parsed) ∈ zip defs expressions /\ path ∈ entry_paths job entry /\ ran job entry parsed path o) /\
    (forall entry parsed path, (entry, parsed) ∈ zip defs expressions -> path ∈ entry_paths job entry ->
       exists o, (path, o) ∈ log /\ ran job entry parsed path o).
Proof.
  unfold Validation.check_data. destruct source as [| | | | | | |object]; try done.
  intros ([expressions custom] & w1 & Hp & H)%eff_bind_inv. injection Hp as Hp <-. cbn [uploads_ custom_rules] in *.
  apply eff_bind_inv in H as ([errors selected] & w2 & Hc & H).
  apply eff_bind_inv in H as (values & w3 & Hv & H). injection Hv as Hv <-. injection H as <- <-.
  apply check_entries_log in Hc as (log & Hst & Hfrom & Hall).
  exists object, expressions, custom, log. rewrite <-Hst. cbn. by split_and!.
Qed.

Lemma parse_entries_zip (registry : option (gmap bytes (CustomRule W))) defs seen custom expressions custom' entry :
  parse_entries registry defs seen custom = Ok (expressions, custom') -> entry ∈ defs ->
  exists parsed, parse_rule_expression (field entry) (expression entry) = Ok parsed /\
                 (entry, parsed) ∈ zip defs expressions.
Proof.
  revert seen custom expressions. induction defs as [|d defs IH]; intros seen custom expressions H Hin.
  { by apply elem_of_nil in Hin. }
  cbn [parse_entries] in H. case_bool_decide; [done|].
  apply bind_Ok in H as (parsed & Hp & H). apply bind_Ok in H as (c & _ & H).
  apply bind_Ok in H as ([more c'] & Hm & H). injection H as <- <-.
  apply elem_of_cons in Hin as [->|Hin].
  - exists parsed. split; [done|]. by left.
  - destruct (IH _ _ _ Hm Hin) as (q & Hq & Hz). exists q. split; [done|]. by right.
Qed.

Lemma valid_no_failure r log :
  valid r = true -> checked_errors r = (replay log (∅, [])).1 -> forall path ms, (path, Failed ms) ∉ log.
Proof.
  unfold valid. intros Hv%bool_decide_eq_true He path ms Hin.
  assert (is_Some ((replay log (∅, [])).1 !! path)) as Hs by (apply replay_errors; right; by exists ms).
  rewrite <-He, Hv, lookup_empty in Hs. by destruct Hs.
Qed.

Lemma ancestor_free path : ancestor_failed ∅ path = false.
Proof. unfold ancestor_failed. by rewrite map_to_list_empty. Qed.

Lemma log_from_input (job : Job W) log (entries : list (Rule * list ParsedRule)) :
  (forall path o, (path, o) ∈ log -> exists entry parsed,
     (entry, parsed) ∈ entries /\ path ∈ entry_paths job entry /\ ran job entry parsed path o) ->
  Forall (from_input (job_flat job) (job_input job)) (replay log (∅, [])).2.
Proof.
  intros Hfrom. apply Forall_forall. intros [p v] [?%elem_of_nil|Hin]%replay_selected; [done|].
  destruct (Hfrom _ _ Hin) as (entry & parsed & _ & _ & w & w' & H). by eapply check_path_from_input.
Qed.

(** What is returned is a part of the input. *)
Lemma checked_part source defs registry flat w r w' :
  check_data source defs (mkContext None registry) flat w = (Ok r, w') -> part (checked_values r) source.
Proof.
  intros (object & expressions & custom & log & -> & _ & _ & Hc & Hfrom & _)%check_data_inv.
  apply collect_spec in Hc as [? _]; [done|]. exact (log_from_input (mkJob _ _ _ _ _) _ _ Hfrom).
Qed.

(** Nothing is selected of a container with rules for what is in it. *)
Lemma selected_scalar (job : Job W) path x q u :
  job_flat job = false -> job_files job !! path = None ->
  at_keys (selected_value job path x (job_files job !! path)) q = Some u -> is_scalar u = true ->
  q = [] \/ forall d, d ∈ job_definitions job -> descendant (field d) path = false.
Proof.
  intros Hflat Hfile Hq Hu. unfold selected_value in Hq. rewrite Hflat, Hfile in Hq. cbn [negb andb] in Hq.
  rewrite bool_decide_eq_true_2 in Hq by done. cbn [andb] in Hq.
  destruct (is_object x || is_array x) eqn:Hx; cbn [andb] in Hq.
  - destruct (existsb _ _) eqn:He.
    + exfalso. destruct x; try done; (destruct q as [|k q]; [by injection Hq as <-|]); cbn [at_keys] in Hq; [|done].
      destruct (child _ k) as [y|] eqn:Hy; [|done]. apply child_array in Hy as (i & _ & _ & Hy). apply lookup_replicate in Hy as [-> _].
      by destruct (at_null q u).
    + right. intros d Hd. destruct (descendant (field d) path) eqn:E; [|done].
      enough (existsb (fun d => descendant (field d) path) (job_definitions job) = true) by congruence.
      apply existsb_exists. exists d. by rewrite <-list_elem_of_In.
  - left. destruct q as [|k q]; [done|]. cbn [at_keys] in Hq. by destruct x.
Qed.

(** C26. Structured validation without uploads returns nothing that was not declared: whatever
    the outcome, every scalar of the result stands at the same place of the input, either exactly at a
    declared path or below a declared container that has no rules for what is in it, and
    no error was recorded for that path. *)
Theorem validated_declared source defs registry w r w' ks v :
  check_data source defs (mkContext None registry) false w = (Ok r, w') ->
  at_keys (checked_values r) ks = Some v -> is_scalar v = true ->
  at_keys source ks = Some v /\
  exists entry path, entry ∈ defs /\ path ∈ expand source (field entry) /\
    same_place source (fields "." path) ks /\ checked_errors r !! path = None /\
    (length ks = length (fields "." path) \/ forall d, d ∈ defs -> descendant (field d) path = false).
Proof.
  intros H Hv Hs. pose proof (checked_part _ _ _ _ _ _ _ H) as Hpart.
  destruct (part_at _ _ _ _ Hpart Hv) as (x & Hx & Hxv). rewrite (part_scalar v x Hxv Hs) in Hx. split; [done|].
  apply check_data_inv in H as (object & expressions & custom & log & -> & _ & He & Hc & Hfrom & _).
  pose proof (log_from_input (mkJob _ _ _ _ _) _ _ Hfrom) as Hin. cbn [job_flat job_input] in Hin.
  rewrite <-(sort_by_depth_perm (replay log (∅, [])).2) in Hin.
  destruct (collect_from _ _ _ _ _ ks v Hc Hin) as [Hk|(p & u & Hp & Ha & Hsame & Hu)]; try done; [by constructor| |].
  { destruct ks as [|k ks]; [by injection Hk as <-|done]. }
  rewrite sort_by_depth_perm in Hp. apply replay_selected in Hp as [?%elem_of_nil|Hp]; [done|].
  destruct (Hfrom _ _ Hp) as (entry & parsed & Hz & Hpath & w1 & w2 & Hran). exists entry, p.
  split; [by apply elem_of_zip_l in Hz|]. split; [done|]. split; [done|]. split.
  - destruct (checked_errors r !! p) eqn:E; [|done]. exfalso.
    assert (ancestor_failed (checked_errors r) p = true) as Ht; [|congruence].
    unfold ancestor_failed. apply existsb_exists. exists p. split; [|by rewrite bool_decide_eq_true_2].
    apply list_elem_of_In, list_elem_of_fmap. exists (p, l). split; [done|]. by apply elem_of_map_to_list.
  - apply check_path_selected in Hran as (y & Hy & Hsel). cbn [job_flat] in Hsel. apply same_place_length in Hsame as Hlen.
    assert (drop (length (fields "." p)) ks = [] \/ forall d, d ∈ defs -> descendant (field d) p = false) as [Hd|Hd]; [| |by right].
    + destruct Hsel as [[-> Hnull]| ->]; [|by eapply (selected_scalar (mkJob defs _ ∅ _ false))].
      cbn [andb orb] in Hnull. destruct y; try done. by destruct (at_null _ _ Hu Hs).
    + left. apply (f_equal length) in Hd. rewrite length_drop in Hd. cbn in Hd. lia.
Qed.

(** When there is no error, the value at every declared path is in the result: a scalar as
    the input has it, a container at least of its kind. *)
Lemma kept_like source defs registry flat w r w' entry path v :
  check_data source defs (mkContext None registry) flat w = (Ok r, w') -> valid r = true ->
  entry ∈ defs -> path ∈ (if flat then [field entry] else expand source (field entry)) ->
  lookup_ flat source path = Some v -> v <> JNull ->
  exists u, lookup_ flat (checked_values r) path = Some u /\ like v u.
Proof.
  intros H Hvalid Hentry Hpath Hv Hs.
  apply check_data_inv in H as (object & expressions & custom & log & -> & Hparse & He & Hc & Hfrom & Hall).
  pose proof (log_from_input (mkJob _ _ _ _ _) _ _ Hfrom) as Hin. cbn [job_flat job_input] in Hin.
  destruct (collect_spec _ _ _ _ _ Hc Hin) as [_ Hsel].
  destruct (parse_entries_zip _ _ _ _ _ _ _ Hparse Hentry) as (parsed & _ & Hz).
  destruct (Hall entry parsed path Hz Hpath) as (o & Ho & w1 & w2 & Hran).
  pose proof (valid_no_failure r log Hvalid He) as Hno.
  assert (exists v', o = Selected v' /\ like v v') as (v' & -> & Hl).
  { destruct o as [|ms|u]; [|by destruct (Hno path ms)|].
    - exfalso. clear -Hran Hv. unfold Validation.check_path in Hran. cbn [job_flat job_input] in Hran. rewrite Hv in Hran.
      rewrite bool_decide_eq_false_2 in Hran by done. cbn [andb] in Hran.
      apply eff_bind_inv in Hran as (req & ? & _ & Hran). destruct (req && _).
      { by apply eff_bind_inv in Hran as (? & ? & _ & Hran). }
      destruct (_ && _); [done|]. apply eff_bind_inv in Hran as ([|m ms] & ? & _ & Hran); done.
    - exists u. split; [done|]. destruct (check_path_selected _ _ _ _ _ _ _ Hran) as (x & Hx & Hu). cbn [job_flat job_input] in Hx.
      assert (x = v) as -> by congruence. destruct Hu as [[-> _] | ->]; [apply like_refl|apply selected_value_like]. }
  destruct (Hsel path v') as (u & Hu & Hl'); [by apply replay_selected; right| | |exists u; split; [done|by eapply like_trans]].
  - unfold valid in Hvalid. apply bool_decide_eq_true in Hvalid as ->. apply ancestor_free.
  - intros ->. destruct v; try done; by destruct Hl.
Qed.

(** A validated scalar is returned unchanged: when there is no error, the value at
    every declared path is in the result, as the input has it. *)
Theorem validated_kept source defs registry flat w r w' entry path v :
  check_data source defs (mkContext None registry) flat w = (Ok r, w') -> valid r = true ->
  entry ∈ defs -> path ∈ (if flat then [field entry] else expand source (field entry)) ->
  lookup_ flat source path = Some v -> is_scalar v = true ->
  lookup_ flat (checked_values r) path = Some v.
Proof.
  intros H Hvalid Hentry Hpath Hv Hs. destruct (kept_like _ _ _ _ _ _ _ _ _ _ H Hvalid Hentry Hpath Hv) as (u & Hu & Hl).
  - by intros ->.
  - by rewrite (like_scalar _ _ Hs Hl) in Hu.
Qed.

(** ** Types *)

(** A text that denotes an integer of 64 bits, signed or unsigned. *)
Definition integer_text (s : bytes) (z : Z) : Prop :=
  from_chars_all INT64_MIN UINT64_MAX s = Some z.

(** What a rule says of a value that is not an upload. *)
Definition demands (rule : ParsedRule) (v : Json) : Prop :=
  let name := rule_name rule in
  if is_name "string" name then exists s, v = JString s
  else if is_name "array" name then exists l, v = JArray l
  else if is_name "object" name then exists o, v = JObject o
  else if is_name "integer" name
  then (exists z, v = JInt z \/ v = JUInt z) \/ exists s z, v = JString s /\ integer_text s z
  else if is_name "numeric" name
  then (is_number v = true \/ is_string v = true) /\
       exists d, from_chars_double (json_string v) = Some d /\ isfinite d = true
  else if is_name "boolean" name then is_scalar v = true /\ boolean (json_string v) = true
  else if is_name "accepted" name then is_scalar v = true /\ accepted (json_string v) = true
  else if is_name "email" name
  then exists local host, v = JString (local ++ "@"%byte :: host) /\ local <> [] /\
         ("@"%byte ∉ local) /\ ("@"%byte ∉ host) /\ domain host = true
  else if is_name "uuid" name then exists s, v = JString s /\ uuid s = true
  else if is_name "url" name then exists s, v = JString s /\ url s = true
  else if is_name "date" name
  then exists day y m d, civil_from_days day = (y, m, d) /\ 1 <= y <= 9999 /\ v = JString (print_date y m d)
  else if is_name "datetime" name then exists s, v = JString s /\ datetime s = true
  else if one_of ["same"; "different"; "confirmed"]%string name then True
  else if one_of ["in"; "notIn"]%string name
  then is_scalar v = true /\
       if is_name "in" name then json_string v ∈ arguments rule else json_string v ∉ arguments rule
  else True.

Lemma from_chars_all_widen lo hi lo' hi' s z :
  from_chars_all lo hi s = Some z -> lo' <= lo -> hi <= hi' -> lo' < 0 ->
  (lo < 0 \/ forall r, s <> "-"%byte :: r) -> from_chars_all lo' hi' s = Some z.
Proof.
  unfold from_chars_all, from_chars. intros H Hlo Hhi Hneg Hs.
  assert (match s with
          | [] => (false, [])
          | b :: s' => if (lo' <? 0) && (b =b? "-") then (true, s') else (false, s)
          end = match s with
          | [] => (false, [])
          | b :: s' => if (lo <? 0) && (b =b? "-") then (true, s') else (false, s)
          end) as ->.
  { destruct s as [|b s]; [done|]. replace (lo' <? 0) with true by lia. cbn [andb].
    destruct (b =b? "-") eqn:E; [|by rewrite andb_false_r]. reflect_bools.
    destruct Hs as [Hs|Hs]; [by replace (lo <? 0) with true by lia|by destruct (Hs s)]. }
  destruct (match s with [] => _ | _ => _ end) as [neg s1]. destruct (span is_digit s1) as [[|d ds] rest]; [done|].
  set (v := if neg then _ else _) in *. clearbody v. destruct (_ && _) eqn:E in H; [|done]. reflect_bools.
  replace ((lo' <=? v) && (v <=? hi')) with true by lia. exact H.
Qed.

Lemma integer_text_ok s : integer s = true -> exists z, integer_text s z.
Proof.
  unfold integer, integer_text. destruct s as [|c s]; [done|]. destruct (c =b? "-") eqn:E.
  - intros [z Hz]%bool_decide_eq_true. exists z.
    eapply from_chars_all_widen; [exact Hz|unfold INT64_MIN, INT64_MAX, UINT64_MAX; lia..|left; unfold INT64_MIN; lia].
  - intros [z Hz]%bool_decide_eq_true. exists z.
    eapply from_chars_all_widen; [exact Hz|unfold INT64_MIN, INT64_MAX, UINT64_MAX; lia..|right].
    intros r [= -> ->]. done.
Qed.

Lemma email_parts s :
  email s = true -> exists local host, s = local ++ "@"%byte :: host /\ local <> [] /\
    ("@"%byte ∉ local) /\ ("@"%byte ∉ host) /\ domain host = true.
Proof.
  unfold email. destruct (_ || _); [done|]. destruct (until "@" s) as [local [host|]] eqn:Hu; [|done].
  apply until_inv in Hu as [Hl ->]. destruct (_ || bool_decide (_ ∈ host)) eqn:E1; [done|].
  destruct (_ || negb (forallb local_char local)); [done|]. intros [_ Hd]%andb_prop. apply orb_false_elim in E1 as [E1 Ea]. apply orb_false_elim in E1 as [E1 _].
  apply bool_decide_eq_false in E1, Ea. by exists local, host.
Qed.

Lemma scalar_cases v : is_boolean v = true \/ is_integer v = true \/ is_string v = true -> is_scalar v = true.
Proof. destruct v; cbn; intuition congruence. Qed.

Lemma string_cases v : is_string v = true -> exists s, v = JString s /\ scalar_text v = s.
Proof. destruct v; try done. intros _. by eexists. Qed.

Lemma pass_demands s rule w w' :
  site_file s = None -> rule_pass s rule w = (Ok true, w') -> demands rule (site_value s).
Proof.
  intros Hf. unfold Validation.rule_pass, demands, no_file. rewrite Hf, bool_decide_eq_true_2 by done. cbn [andb].
  set (v := site_value s). set (name := rule_name rule).
  assert (forall b (P : Prop) (m : eff W bool), m = mret b -> (b = true -> P) -> m w = (Ok true, w') -> P) as Hret.
  { intros b P m -> HP [= -> _]. by apply HP. }
  destruct (is_name "string" name); [apply (Hret _ _ _ eq_refl); intros (t & -> & _)%string_cases; by exists t|].
  destruct (is_name "array" name); [apply (Hret _ _ _ eq_refl); destruct v; try done; by eauto|].
  destruct (is_name "object" name); [apply (Hret _ _ _ eq_refl); destruct v; try done; by eauto|].
  destruct (is_name "integer" name).
  { apply (Hret _ _ _ eq_refl). intros [Hi|Hi]%orb_prop.
    - left. destruct v; try done; by eauto.
    - right. apply andb_prop in Hi as [(t & -> & Ht)%string_cases Hi]. rewrite Ht in Hi.
      apply integer_text_ok in Hi as [z Hz]. by exists t, z. }
  destruct (is_name "numeric" name).
  { apply (Hret _ _ _ eq_refl). intros [Hk Hn]%andb_prop. apply orb_prop in Hk. split; [done|].
    assert (scalar_text v = json_string v) as E by (destruct v; destruct Hk; done). rewrite E in Hn.
    unfold numeric in Hn. destruct (from_chars_double _) as [d|]; [|done]. apply andb_prop in Hn as [_ Hn]. by exists d. }
  destruct (is_name "boolean" name).
  { apply (Hret _ _ _ eq_refl). intros [Hk Hn]%andb_prop.
    assert (is_scalar v = true) as Hs by (apply scalar_cases; repeat apply orb_prop in Hk as [Hk|Hk]; auto).
    split; [done|]. unfold scalar_text in Hn. by rewrite Hs in Hn. }
  destruct (is_name "accepted" name).
  { apply (Hret _ _ _ eq_refl). intros [Hk Hn]%andb_prop.
    assert (is_scalar v = true) as Hs by (apply scalar_cases; repeat apply orb_prop in Hk as [Hk|Hk]; auto).
    split; [done|]. unfold scalar_text in Hn. by rewrite Hs in Hn. }
  assert (forall (p : bytes -> bool) (P : Prop),
            (forall t, v = JString t -> p t = true -> P) -> is_string v && p (scalar_text v) = true -> P) as Htext.
  { intros p P HP [(t & Ev & Et)%string_cases Hp]%andb_prop. rewrite Et in Hp. by eapply HP. }
  destruct (is_name "email" name).
  { apply (Hret _ _ _ eq_refl), Htext. intros t -> (local & host & -> & H)%email_parts. by exists local, host. }
  destruct (is_name "uuid" name); [apply (Hret _ _ _ eq_refl), Htext; intros t -> Ht; by exists t|].
  destruct (is_name "url" name); [apply (Hret _ _ _ eq_refl), Htext; intros t -> Ht; by exists t|].
  destruct (is_name "date" name).
  { apply (Hret _ _ _ eq_refl), Htext. intros t -> (day & y & m & d & H1 & H2 & ->)%date_iff. by exists day, y, m, d. }
  destruct (is_name "datetime" name); [apply (Hret _ _ _ eq_refl), Htext; intros t -> Ht; by exists t|].
  destruct (one_of ["same"; "different"; "confirmed"]%string name); [done|].
  destruct (one_of ["in"; "notIn"]%string name); [|done].
  apply (Hret _ _ _ eq_refl). intros [Hs Hin]%andb_prop. split; [done|]. unfold scalar_text in Hin. rewrite Hs in Hin.
  destruct (is_name "in" name).
  - apply andb_prop in Hin as [_ Hin]. by apply bool_decide_eq_true in Hin.
  - apply negb_true_iff in Hin. cbn [andb] in Hin. by apply bool_decide_eq_false in Hin.
Qed.

(** Every rule of a validated value passed. *)
Lemma validated_passes source defs registry flat w r w' entry parsed path v rule :
  check_data source defs (mkContext None registry) flat w = (Ok r, w') -> valid r = true ->
  entry ∈ defs -> parse_rule_expression (field entry) (expression entry) = Ok parsed ->
  path ∈ (if flat then [field entry] else expand source (field entry)) ->
  lookup_ flat source path = Some v ->
  has parsed "nullable" && (is_null v || (flat && is_empty (Some v))) = false ->
  rule ∈ parsed ->
  one_of skipped_names (rule_name rule) = true \/
  exists s w1 w2, site_value s = v /\ site_file s = None /\ site_parsed s = parsed /\ rule_pass s rule w1 = (Ok true, w2).
Proof.
  intros H Hvalid Hentry Hparsed Hpath Hv Hn Hrule.
  apply check_data_inv in H as (object & expressions & custom & log & -> & Hparse & He & Hc & Hfrom & Hall).
  destruct (parse_entries_zip _ _ _ _ _ _ _ Hparse Hentry) as (parsed' & Hp' & Hz).
  assert (parsed' = parsed) as -> by congruence.
  destruct (Hall entry parsed path Hz Hpath) as (o & Ho & w1 & w2 & Hran).
  destruct (check_path_passes _ _ _ _ _ _ _ v Hran) as [_ Hrules]; [|done|done|].
  - intros ms ->. by destruct (valid_no_failure r log Hvalid He path ms).
  - destruct (proj1 (Forall_forall _ _) Hrules rule Hrule) as [?|(w3 & w4 & Hpass)]; [by left|right].
    by eexists (mkSite _ _ _ _ _ _ _ _), w3, w4.
Qed.

Lemma demands_like rule v u : demands rule v -> like v u -> v <> JNull -> demands rule u.
Proof.
  intros Hd Hl Hn. destruct v as [| | | | | |l|l]; try (by rewrite Hl); [done|..]; destruct Hl as [l' ->]; revert Hd; unfold demands;
    repeat (destruct (is_name _ _); [intros Hd; first [by exists l'|exfalso; cbn in Hd; naive_solver]|]);
    (destruct (one_of _ _); [done|]); (destruct (one_of _ _); [|done]); by intros [? _].
Qed.

Lemma part_lookup flat a b path x y :
  part a b -> lookup_ flat a path = Some x -> lookup_ flat b path = Some y -> part x y.
Proof.
  intros Hp. destruct flat; cbn [lookup_].
  - unfold Json.get. intros Hx Hy. destruct a; try done. apply part_object_inv in Hp as (m & -> & Hm).
    apply Hm in Hx as (z & Hz & Hp). congruence.
  - intros Hx Hy. destruct (part_at _ _ _ _ Hp Hx) as (z & Hz & Hxz). unfold at_path in *. congruence.
Qed.

(** C6. Validation (without uploads) is sound for types: when there is no error, the result
    has, for every value other than null at a declared path that [nullable] does not excuse,
    the same value, or for a container one of its kind that is part of it, and it is of the
    type its rules demand. *)
Theorem validated_typed source defs registry flat w r w' entry parsed path v :
  check_data source defs (mkContext None registry) flat w = (Ok r, w') -> valid r = true ->
  entry ∈ defs -> parse_rule_expression (field entry) (expression entry) = Ok parsed ->
  path ∈ (if flat then [field entry] else expand source (field entry)) ->
  lookup_ flat source path = Some v -> v <> JNull ->
  has parsed "nullable" && (flat && is_empty (Some v)) = false ->
  exists u, lookup_ flat (checked_values r) path = Some u /\ like v u /\ part u v /\
    Forall (fun rule => demands rule u) parsed.
Proof.
  intros H Hvalid Hentry Hparsed Hpath Hv Hnull Hn.
  destruct (kept_like _ _ _ _ _ _ _ _ _ _ H Hvalid Hentry Hpath Hv Hnull) as (u & Hu & Hl). exists u.
  split; [done|]. split; [done|]. split; [by eapply part_lookup; [eapply checked_part|..]|].
  apply Forall_forall. intros rule Hrule. eapply demands_like; [|exact Hl|done].
  assert (Hnot : has parsed "nullable" && (is_null v || (flat && is_empty (Some v))) = false) by (by destruct v).
  destruct (validated_passes _ _ _ _ _ _ _ _ _ _ _ _ H Hvalid Hentry Hparsed Hpath Hv Hnot Hrule)
    as [Hs|(s & w1 & w2 & <- & Hf & _ & Hpass)]; [|by eapply pass_demands].
  unfold one_of, skipped_names in Hs. apply existsb_exists in Hs as (n & Hin & Hname).
  apply bool_decide_eq_true in Hname. unfold demands. rewrite Hname.
  by repeat destruct Hin as [<-|Hin].
Qed.













(** ** No rule is left without an answer *)

























End Run.

(** ** A request body *)

Definition no_database : eff unit (SqlConnection unit) := throw (runtime_error "No database").

Definition sample_source : Json :=
  JObject [(lit "user", JObject [(lit "name", JString (lit "Ann")); (lit "age", JInt 30); (lit "admin", JBool true)]);
           (lit "tags", JArray [JString (lit "a"); JString (lit "b")])].

Definition sample_rules : Rules :=
  [mkEntry (lit "user.name") (lit "required|string|min:2");
   mkEntry (lit "user.age") (lit "integer | min:18 | max:1.2e2");
   mkEntry (lit "tags.*") (lit "string|in:a,b,c")].

Definition sample_checked : StructuredResult :=
  mkChecked (JObject [(lit "user", JObject [(lit "name", JString (lit "Ann")); (lit "age", JInt 30)]);
                      (lit "tags", JArray [JString (lit "a"); JString (lit "b")])]) ∅.

Abbreviation sample_run := (check_data no_database id sample_source sample_rules (mkContext None None) false tt).

Lemma validated_declared_witness :
  at_keys (checked_values sample_checked) [lit "tags"; lit "1"] = Some (JString (lit "b")) /\
  at_keys sample_source [lit "tags"; lit "1"] = Some (JString (lit "b")) /\
  exists entry path, entry ∈ sample_rules /\ path ∈ expand sample_source (field entry) /\
    same_place sample_source (fields "." path) [lit "tags"; lit "1"] /\ checked_errors sample_checked !! path = None /\
    (2%nat = length (fields "." path) \/ forall d, d ∈ sample_rules -> descendant (field d) path = false).
Proof.
  split; [reflexivity|].
  apply (validated_declared no_database id sample_source sample_rules None tt sample_checked tt); vm_compute; reflexivity.
Defined.

Lemma validated_kept_witness :
  sample_run = (Ok sample_checked, tt) /\
  lookup_ false (checked_values sample_checked) (lit "user.age") = Some (JInt 30).
Proof.
  split; [vm_compute; reflexivity|].
  apply (validated_kept no_database id sample_source sample_rules None false tt sample_checked tt
           (mkEntry (lit "user.age") (lit "integer | min:18 | max:1.2e2")));
    first [by_decide | vm_compute; reflexivity].
Defined.

Lemma validated_typed_witness :
  exists u, lookup_ false (checked_values sample_checked) (lit "tags.1") = Some u /\ like (JString (lit "b")) u /\
    part u (JString (lit "b")) /\ Forall (fun rule => demands rule u) [mkRule (lit "string") []; mkRule (lit "in") [lit "a"; lit "b"; lit "c"]].
Proof.
  apply (validated_typed no_database id sample_source sample_rules None false tt sample_checked tt
           (mkEntry (lit "tags.*") (lit "string|in:a,b,c"))
           [mkRule (lit "string") []; mkRule (lit "in") [lit "a"; lit "b"; lit "c"]] (lit "tags.1"));
    first [by_decide | discriminate | vm_compute; reflexivity].
Defined.


