(* ===== verification/View.v ===== *)
(** * View values, syntax trees and escaping ([src/view/value.cpp], [src/view/spear.hpp])

    [Value] has the alternatives of [Value::Storage]; the shared pointers of arrays and
    objects point to immutable storage, so a value is the tree itself.  [Expression] and
    [Node] are the syntax trees of a compiled template. *)

From S2P Require Import Prelude Numeral Text Double Json Attribute.

(** ** Values *)

Unset Elimination Schemes.
Inductive Value : Type :=
| VNull
| VBool (b : bool)
| VInt (z : Z)
| VUInt (z : Z)
| VDouble (d : double)
| VString (s : bytes)
| VArray (values : list Value)
| VObject (values : list (bytes * Value)).
Set Elimination Schemes.

(** Induction with hypotheses for the elements of arrays and objects. *)
Section value_ind.
Variable P : Value -> Prop.
Hypothesis Hnull : P VNull.
Hypothesis Hbool : forall b, P (VBool b).
Hypothesis Hint : forall z, P (VInt z).
Hypothesis Huint : forall z, P (VUInt z).
Hypothesis Hdouble : forall d, P (VDouble d).
Hypothesis Hstring : forall s, P (VString s).
Hypothesis Harray : forall l, Forall P l -> P (VArray l).
Hypothesis Hobject : forall l, Forall (fun kv => P kv.2) l -> P (VObject l).

Fixpoint Value_ind (v : Value) : P v :=
  match v with
  | VNull => Hnull
  | VBool b => Hbool b
  | VInt z => Hint z
  | VUInt z => Huint z
  | VDouble d => Hdouble d
  | VString s => Hstring s
  | VArray l => Harray l
      ((fix go l : Forall P l :=
          match l with
          | [] => Forall_nil_2 _
          | v :: l' => Forall_cons_2 _ _ _ (Value_ind v) (go l')
          end) l)
  | VObject l => Hobject l
      ((fix go l : Forall (fun kv => P kv.2) l :=
          match l with
          | [] => Forall_nil_2 _
          | kv :: l' => Forall_cons_2 _ _ _ (Value_ind kv.2) (go l')
          end) l)
  end.
End value_ind.

Definition value_is_null (v : Value) : bool := match v with VNull => true | _ => false end.
Definition value_is_array (v : Value) : bool := match v with VArray _ => true | _ => false end.
Definition value_is_object (v : Value) : bool := match v with VObject _ => true | _ => false end.

(** [value != 0.0]; a NaN is different from zero. *)
Definition nonzero_double (d : double) : bool := negb (double_eqb d (Finite false 0 (-1074))).

Definition truthy (v : Value) : bool :=
  match v with
  | VNull => false
  | VBool b => b
  | VInt z | VUInt z => negb (z =? 0)
  | VDouble d => nonzero_double d
  | VString s => negb (bool_decide (s = []))
  | VArray l => negb (bool_decide (length l = 0%nat))
  | VObject l => negb (bool_decide (length l = 0%nat))
  end.

Definition value_as_array (v : Value) : result (list Value) :=
  match v with VArray l => Ok l | _ => Throw (logic_error "Gungnir view value is not an array") end.

Definition value_as_object (v : Value) : result (list (bytes * Value)) :=
  match v with VObject l => Ok l | _ => Throw (logic_error "Gungnir view value is not an object") end.

Definition value_get (v : Value) (key : bytes) : option Value :=
  match v with VObject l => find_entry key l | _ => None end.

(** [output << d] with the default precision of six digits: the [%g] format. *)
Definition significant6 (a b : Z) : Z * Z :=
  let k := ilog10 a b in
  let '(n, d) := scaled 10 a b (k - 5) in
  let D := round_half_even n d in
  if D =? 10 ^ 6 then (10 ^ 5, k + 1) else (D, k).

Definition layout_g6 (ds : bytes) (x : Z) : bytes :=
  if (x <? -4) || (6 <=? x) then
    take 1 ds ++ point_fraction (drop 1 ds) ++ print_exponent x
  else if 0 <=? x then
    take (Z.to_nat (x + 1)) ds ++ point_fraction (drop (Z.to_nat (x + 1)) ds)
  else
    "0"%byte :: point_fraction (replicate (Z.to_nat (- x - 1)) "0"%byte ++ ds).

Definition stream_double (d : double) : bytes :=
  match d with
  | Finite neg m e =>
      let body :=
        if m =? 0 then lit "0"
        else let '(a, b) := scaled 2 m 1 (- e) in
             let '(D, x) := significant6 a b in layout_g6 (to_digits 6 D) x in
      if neg then "-"%byte :: body else body
  | Infinite neg => if neg then lit "-inf" else lit "inf"
  | NotANumber => lit "nan"
  end.

Definition value_string (v : Value) : bytes :=
  match v with
  | VNull => []
  | VBool b => if b then lit "true" else lit "false"
  | VInt z | VUInt z => to_string z
  | VDouble d => stream_double d
  | VString s => s
  | VArray _ | VObject _ => []
  end.

(** [make_value] of a database value. *)
Definition value_of_attribute (v : AttributeValue) : Value :=
  match v with
  | Monostate | Nullptr => VNull
  | ABoolean b => VBool b
  | AInt64 z => VInt z
  | AUInt64 z => VUInt z
  | ADouble d => VDouble d
  | ADecimal s | AString s => VString s
  end.

(** [class Data]. *)
Abbreviation Data := (gmap bytes Value).

Definition with_ (key : bytes) (value : Value) (data : Data) : Data := <[key := value]> data.

Definition with_all (entries : list (bytes * Value)) (data : Data) : Data :=
  fold_left (fun d kv => with_ kv.1 kv.2 d) entries data.

(** ** Syntax trees *)

Record Location := mkLocation { line : Z; column : Z }.

#[export] Instance Location_eq_dec : EqDecision Location.
Proof. solve_decision. Defined.

Inductive ExpressionKind :=
| KLiteral | KVariable | KMember | KIndex | KHelper | KUnary | KBinary | KConditional | KArray | KObject.

#[export] Instance ExpressionKind_eq_dec : EqDecision ExpressionKind.
Proof. solve_decision. Defined.

(** [struct Expression]; [Expr] is a pointer to a sealed one. *)
Unset Elimination Schemes.
Inductive Expression := mkExpression {
  e_kind : ExpressionKind;
  e_location : Location;
  e_text : bytes;
  e_value : Value;
  e_children : list Expression;
  e_keys : list bytes;
  e_height : Z
}.
Set Elimination Schemes.

Section expression_ind.
Variable P : Expression -> Prop.
Hypothesis H : forall k loc text v children keys h,
  Forall P children -> P (mkExpression k loc text v children keys h).

Fixpoint Expression_ind (e : Expression) : P e :=
  match e with
  | mkExpression k loc text v children keys h =>
      H k loc text v children keys h
        ((fix go l : Forall P l :=
            match l with
            | [] => Forall_nil_2 _
            | e :: l' => Forall_cons_2 _ _ _ (Expression_ind e) (go l')
            end) children)
  end.
End expression_ind.

Inductive NodeKind :=
| NText | NEscaped | NRaw | NCondition | NLoop | NInclude | NSection | NYield | NExtends.

#[export] Instance NodeKind_eq_dec : EqDecision NodeKind.
Proof. solve_decision. Defined.

(** [struct Node]; the null expression of an [@else] branch is [None]. *)
Unset Elimination Schemes.
Inductive Node := mkNode {
  n_kind : NodeKind;
  n_location : Location;
  n_text : bytes;
  n_key : bytes;
  n_variable : bytes;
  n_expressions : list (option Expression);
  n_children : list Node;
  n_otherwise : list Node;
  n_branches : list (list Node)
}.
Set Elimination Schemes.

Record Template := mkTemplate { t_name : bytes; t_source : bytes; t_spear : bool; t_nodes : list Node; t_count : Z }.

Definition source_limit : Z := 2 * 1024 * 1024.
Definition output_limit : Z := 8 * 1024 * 1024.

(** ** Errors *)

(** [SyntaxError{message}], without a place. *)
Definition plain_error (what : bytes) : exn := view_syntax_error what [] 0 0.

(** [SyntaxError{message, name, line, column}]. *)
Definition located_error (what name : bytes) (l : Location) : exn := view_syntax_error what name (line l) (column l).

(** [Syntax::location]: the line starts at or before the offset, by [upper_bound]. *)
Fixpoint location_from (s : bytes) (offset : nat) (l : Z) (c : Z) : Location :=
  match offset, s with
  | O, _ => mkLocation l c
  | S o, b :: s' => if b =b? x0a then location_from s' o (l + 1) 1 else location_from s' o l (c + 1)
  | S o, [] => mkLocation l (c + Z.of_nat offset)
  end.

Definition location (source : bytes) (offset : Z) : Location :=
  location_from source (Z.to_nat offset) 1 1.

(** ** Escaping *)

Definition encoded (c : byte) : bytes :=
  if c =b? "&" then lit "&amp;"
  else if c =b? "<" then lit "&lt;"
  else if c =b? ">" then lit "&gt;"
  else if c =b? "'" then lit "&#39;"
  else if c =b? x22 then lit "&quot;"
  else [c].

Definition output_exceeded : exn := plain_error (lit "View output limit exceeded").

(** The loop of [escape], which checks the size after every character. *)
Fixpoint escape_loop (source result_ : bytes) : result bytes :=
  match source with
  | [] => Ok result_
  | c :: rest =>
      let result_ := result_ ++ encoded c in
      if output_limit <? Z.of_nat (length result_) then Throw output_exceeded
      else escape_loop rest result_
  end.

Definition escape (source : bytes) : result bytes :=
  if output_limit <? Z.of_nat (length source) then Throw output_exceeded else escape_loop source [].
