(* ===== verification/SpearParser.v ===== *)
(** * The Spear template parser ([src/view/spear_parser.cpp])

    [ExpressionParser] and [Parser] keep a position in the source; here the state holds
    the unread suffix, from which the position follows.  The count of syntax nodes is
    shared by both parsers.  The recursion runs on fuel: every call goes one level of
    nesting deeper, which the source bounds by 64, or comes after a token was read. *)

From S2P Require Import Prelude Numeral Text Double View.

Definition word_start (c : byte) : bool := isalpha c || (c =b? "_").
Definition word_part (c : byte) : bool := word_start c || is_digit c.
Definition blank (c : byte) : bool := isspace c.

Inductive TokenKind := TEnd | TIdentifier | TString | TNumber | TSymbol.

#[export] Instance TokenKind_eq_dec : EqDecision TokenKind.
Proof. solve_decision. Defined.

Record Token := mkToken { tk_kind : TokenKind; tk_text : bytes; tk_offset : Z }.

(** ** The lexer of expressions *)

(** The body of a string literal after its opening quote; [inl] is an error message. *)
Fixpoint lex_string (quote : byte) (s text : bytes) : string + (bytes * bytes) :=
  match s with
  | [] => inl "Unclosed Spear string literal"%string
  | value :: s' =>
      if value =b? quote then inr (text, s')
      else if value =b? x5c then
        match s' with
        | [] => inl "Unclosed string escape"%string
        | escaped :: s'' =>
            if escaped =b? "n" then lex_string quote s'' (text ++ [x0a])
            else if escaped =b? "r" then lex_string quote s'' (text ++ [x0d])
            else if escaped =b? "t" then lex_string quote s'' (text ++ [x09])
            else if (escaped =b? x5c) || (escaped =b? "'") || (escaped =b? x22)
            then lex_string quote s'' (text ++ [escaped])
            else inl "Unsupported string escape"%string
        end
      else lex_string quote s' (text ++ [value])
  end.

(** The extent of a number: digits, a fraction, an exponent. *)
Definition lex_number (s : bytes) : bytes * bytes :=
  let '(whole, s) := span is_digit s in
  let '(frac, s) :=
    match s with
    | c :: s' => if c =b? "." then let '(ds, r) := span is_digit s' in (c :: ds, r) else ([], s)
    | [] => ([], [])
    end in
  let '(ex, s) :=
    match s with
    | c :: s' =>
        if (c =b? "e") || (c =b? "E") then
          let '(sign, s'') :=
            match s' with
            | d :: r => if (d =b? "+") || (d =b? "-") then ([d], r) else ([], s')
            | [] => ([], [])
            end in
          let '(ds, r) := span is_digit s'' in (c :: sign ++ ds, r)
        else ([], s)
    | [] => ([], [])
    end in
  (whole ++ frac ++ ex, s).

Definition symbols : list string :=
  ["==="; "!=="; "??"; "&&"; "||"; "=="; "!="; "<="; ">="; "=>"; "->"]%string.

Fixpoint lex_symbol (table : list string) (s : bytes) : option (bytes * bytes) :=
  match table with
  | [] => None
  | symbol :: rest =>
      match strip (lit symbol) s with
      | Some r => Some (lit symbol, r)
      | None => lex_symbol rest s
      end
  end.

(** The token at the head of a text without leading blanks: its kind, text and the rest. *)
Definition lex_token (s : bytes) : string + (TokenKind * bytes * bytes) :=
  match s with
  | [] => inr (TEnd, [], [])
  | c :: s' =>
      if word_start c || (c =b? "$") then
        let word := if c =b? "$" then s' else s in
        match word with
        | d :: _ =>
            if word_start d
            then let '(text, r) := span word_part word in inr (TIdentifier, text, r)
            else inl "Expected a variable after '$'"%string
        | [] => inl "Expected a variable after '$'"%string
        end
      else if (c =b? "'") || (c =b? x22) then
        match lex_string c s' [] with
        | inl m => inl m
        | inr (text, r) => inr (TString, text, r)
        end
      else if is_digit c then let '(text, r) := lex_number s in inr (TNumber, text, r)
      else
        match lex_symbol symbols s with
        | Some (text, r) => inr (TSymbol, text, r)
        | None => inr (TSymbol, [c], s')
        end
  end.

(** ** Parsing expressions *)

(** [position_] as the unread suffix, [token_], and the node count of [Syntax]. *)
Record EState := mkEState { es_rest : bytes; es_token : Token; es_count : Z }.

Section Spear.
(** The file being parsed. *)
Variable file_name file_source : bytes.

Definition syntax_error_ (offset : Z) (what : bytes) : exn :=
  located_error what file_name (location file_source offset).

(** [Syntax::node]: what it throws, for the count it increments. *)
Definition node_error (offset depth count : Z) : option exn :=
  if 64 <? depth then Some (syntax_error_ offset (lit "Spear syntax nesting limit exceeded"))
  else if 100000 <? count + 1 then Some (syntax_error_ offset (lit "Spear syntax node limit exceeded"))
  else None.

Section Expressions.
(** Where the text of the expression ends in the file. *)
Variable stop : Z.

Abbreviation E := (eff EState).

Definition token : E Token := fun st => (Ok (es_token st), st).

(** [ExpressionParser::error]. *)
Definition error {A} (what : bytes) : E A := fun st =>
  (Throw (syntax_error_ (tk_offset (es_token st)) what), st).

Definition next : E unit := fun st =>
  let s := (span blank (es_rest st)).2 in
  let offset := stop - Z.of_nat (length s) in
  match lex_token s with
  | inl what =>
      (Throw (syntax_error_ offset (lit what)), mkEState s (mkToken TEnd [] offset) (es_count st))
  | inr (kind, text, r) => (Ok tt, mkEState r (mkToken kind text offset) (es_count st))
  end.

Definition is_symbol (t : Token) (symbol : string) : bool :=
  bool_decide (tk_text t = lit symbol) && bool_decide (tk_kind t = TSymbol).

Definition text_is (t : Token) (s : string) : bool := bool_decide (tk_text t = lit s).

Definition take_ (symbol : string) : E bool :=
  t ← token;
  if negb (is_symbol t symbol) then mret false else (_ ← next; mret true).

Definition expect (symbol : string) : E unit :=
  taken ← take_ symbol;
  if taken : bool then mret tt else error (lit "Expected '" ++ lit symbol ++ lit "'").

Definition reserved_names : list string := ["loop"; "this"; "true"; "false"; "null"]%string.

Definition variable : E bytes :=
  t ← token;
  if negb (bool_decide (tk_kind t = TIdentifier)) then error (lit "Expected a loop variable name")
  else if existsb (fun n => text_is t n) reserved_names then error (lit "Reserved loop variable name")
  else (_ ← next; mret (tk_text t)).

(** [make]: the location of a new node. *)
Definition make (offset depth : Z) : E Location := fun st =>
  match node_error offset depth (es_count st) with
  | Some e => (Throw e, mkEState (es_rest st) (es_token st) (es_count st + (if 64 <? depth then 0 else 1)))
  | None => (Ok (location file_source offset), mkEState (es_rest st) (es_token st) (es_count st + 1))
  end.

Definition tree_height (children : list Expression) : Z :=
  fold_left (fun h c => Z.max h (e_height c + 1)) children 1.

(** [seal]. *)
Definition seal (kind : ExpressionKind) (loc : Location) (text : bytes) (children : list Expression) (keys : list bytes)
    : E Expression :=
  let h := tree_height children in
  if 64 <? h then throw (located_error (lit "Spear expression AST depth limit exceeded") file_name loc)
  else mret (mkExpression kind loc text VNull children keys h).

Definition precedence (op : bytes) : Z :=
  let is_ names := existsb (fun n => bool_decide (op = lit n)) names in
  if is_ ["??"]%string then 1
  else if is_ ["||"]%string then 2
  else if is_ ["&&"]%string then 3
  else if is_ ["=="; "!="; "==="; "!=="]%string then 4
  else if is_ ["<"; ">"; "<="; ">="]%string then 5
  else 0.

(** The value of a number token; [inl] is the error. *)
Definition number_token (text : bytes) : string + Value :=
  if existsb (fun c => (c =b? ".") || (c =b? "e") || (c =b? "E")) text then
    match from_chars_double text with
    | Some d => if isfinite d then inr (VDouble d) else inl "Invalid or out-of-range number"%string
    | None => inl "Invalid or out-of-range number"%string
    end
  else
    match from_chars_uint64 text with
    | Some z => inr (VUInt z)
    | None => inl "Invalid or out-of-range integer"%string
    end.

Definition literal (loc : Location) (v : Value) : Expression := mkExpression KLiteral loc [] v [] [] 1.

Definition out_of_fuel {S A} : eff S A := fun st => (NoFuel, st).

Fixpoint conditional (fuel : nat) (depth : Z) {struct fuel} : E Expression :=
  match fuel with
  | O => out_of_fuel
  | S f =>
      condition ← binary f 1 (depth + 1);
      taken ← take_ "?";
      if taken : bool then
        t ← token;
        loc ← make (tk_offset t) depth;
        yes ← conditional f (depth + 1);
        _ ← expect ":";
        no ← conditional f (depth + 1);
        seal KConditional loc [] [condition; yes; no] []
      else mret condition
  end

with binary (fuel : nat) (minimum depth : Z) {struct fuel} : E Expression :=
  match fuel with
  | O => out_of_fuel
  | S f => left ← unary f (depth + 1); binary_loop f left minimum depth
  end

(** The [while] of [binary]. *)
with binary_loop (fuel : nat) (left : Expression) (minimum depth : Z) {struct fuel} : E Expression :=
  match fuel with
  | O => out_of_fuel
  | S f =>
      op ← token;
      if bool_decide (tk_kind op = TSymbol) && (minimum <=? precedence (tk_text op)) then
        _ ← next;
        loc ← make (tk_offset op) depth;
        right ← binary f (precedence (tk_text op) + (if text_is op "??" then 0 else 1)) (depth + 1);
        node ← seal KBinary loc (tk_text op) [left; right] [];
        binary_loop f node minimum depth
      else mret left
  end

with unary (fuel : nat) (depth : Z) {struct fuel} : E Expression :=
  match fuel with
  | O => out_of_fuel
  | S f =>
      op ← token;
      if text_is op "!" || text_is op "-" then
        _ ← next;
        loc ← make (tk_offset op) depth;
        operand ← unary f (depth + 1);
        seal KUnary loc (tk_text op) [operand] []
      else (first ← primary f (depth + 1); postfix f first depth)
  end

(** The [while] of [unary]. *)
with postfix (fuel : nat) (left : Expression) (depth : Z) {struct fuel} : E Expression :=
  match fuel with
  | O => out_of_fuel
  | S f =>
      op ← token;
      if text_is op "." || text_is op "->" then
        _ ← next;
        loc ← make (tk_offset op) depth;
        t ← token;
        if negb (bool_decide (tk_kind t = TIdentifier)) then error (lit "Expected a property name")
        else
          _ ← next;
          node ← seal KMember loc (tk_text t) [left] [];
          postfix f node depth
      else if text_is op "[" then
        _ ← next;
        loc ← make (tk_offset op) depth;
        index ← conditional f (depth + 1);
        _ ← expect "]";
        node ← seal KIndex loc [] [left; index] [];
        postfix f node depth
      else if text_is op "(" then
        _ ← next;
        if negb (bool_decide (e_kind left = KVariable)) then error (lit "Only registered view helpers are callable")
        else
          loc ← make (tk_offset op) depth;
          empty ← take_ ")";
          arguments ← (if empty : bool then mret []
                       else (items ← list_items f (depth + 1); _ ← expect ")"; mret items));
          node ← seal KHelper loc (e_text left) arguments [];
          postfix f node depth
      else mret left
  end

with primary (fuel : nat) (depth : Z) {struct fuel} : E Expression :=
  match fuel with
  | O => out_of_fuel
  | S f =>
      current ← token;
      loc ← make (tk_offset current) depth;
      match tk_kind current with
      | TString => _ ← next; mret (literal loc (VString (tk_text current)))
      | TNumber =>
          match number_token (tk_text current) with
          | inl what => error (lit what)
          | inr v => _ ← next; mret (literal loc v)
          end
      | TIdentifier =>
          let node :=
            if text_is current "true" then literal loc (VBool true)
            else if text_is current "false" then literal loc (VBool false)
            else if text_is current "null" then literal loc VNull
            else mkExpression KVariable loc (tk_text current) VNull [] [] 1 in
          _ ← next; mret node
      | _ =>
          paren ← take_ "(";
          if paren : bool then (inner ← conditional f (depth + 1); _ ← expect ")"; mret inner)
          else
            bracket ← take_ "[";
            if bracket : bool then
              empty ← take_ "]";
              items ← (if empty : bool then mret []
                       else (items ← list_items f (depth + 1); _ ← expect "]"; mret items));
              seal KArray loc [] items []
            else
              brace ← take_ "{";
              if brace : bool then
                empty ← take_ "}";
                entries ← (if empty : bool then mret ([], [])
                           else (entries ← object_items f ∅ (depth + 1); _ ← expect "}"; mret entries));
                let '(keys, items) := entries in
                seal KObject loc [] items keys
              else error (lit "Expected a Spear expression")
      end
  end

(** [do { conditional(depth) } while (take(","))]. *)
with list_items (fuel : nat) (depth : Z) {struct fuel} : E (list Expression) :=
  match fuel with
  | O => out_of_fuel
  | S f =>
      item ← conditional f depth;
      more ← take_ ",";
      if more : bool then (rest ← list_items f depth; mret (item :: rest)) else mret [item]
  end

(** The entries of an object literal. *)
with object_items (fuel : nat) (keys : gset bytes) (depth : Z) {struct fuel} : E (list bytes * list Expression) :=
  match fuel with
  | O => out_of_fuel
  | S f =>
      t ← token;
      if negb (bool_decide (tk_kind t = TIdentifier)) && negb (bool_decide (tk_kind t = TString))
      then error (lit "Object keys must be names or strings")
      else if bool_decide (tk_text t ∈ keys) then error (lit "Duplicate object key")
      else
        _ ← next;
        _ ← expect ":";
        item ← conditional f depth;
        more ← take_ ",";
        if more : bool then
          rest ← object_items f ({[tk_text t]} ∪ keys) depth;
          mret (tk_text t :: rest.1, item :: rest.2)
        else mret ([tk_text t], [item])
  end.

(** Enough for any nesting the parser lets through and any text. *)
Definition expression_fuel (s : bytes) : nat := 400 + 4 * length s.

Definition at_end (what : string) : E unit :=
  t ← token;
  if bool_decide (tk_kind t = TEnd) then mret tt else error (lit what).

(** [ExpressionParser::expression], after the constructor's [next]. *)
Definition expression_ (fuel : nat) : E Expression :=
  _ ← next;
  result ← conditional fuel 0;
  _ ← at_end "Unexpected token in Spear expression";
  mret result.

(** [ExpressionParser::arguments]. *)
Definition arguments_ (fuel : nat) : E (list Expression) :=
  _ ← next;
  t ← token;
  if bool_decide (tk_kind t = TEnd) then mret []
  else
    items ← list_items fuel 0;
    _ ← at_end "Expected ',' between directive arguments";
    mret items.

(** [ExpressionParser::loop]: the collection, the key and the variable. *)
Definition loop_header (fuel : nat) : E (Expression * bytes * bytes) :=
  _ ← next;
  collection ← conditional fuel 0;
  t ← token;
  if negb (bool_decide (tk_kind t = TIdentifier)) || negb (text_is t "as")
  then error (lit "Loop requires 'collection as item'")
  else
    _ ← next;
    first ← variable;
    pair ← take_ "=>";
    '(key, item) ← (if pair : bool then (second ← variable; mret (first, second)) else mret ([], first));
    if bool_decide (key = item) then error (lit "Loop key and value must use different names")
    else
      _ ← at_end "Unexpected token after loop variable";
      mret (collection, key, item).
End Expressions.

(** ** Parsing templates *)

(** [position_] as the unread suffix, and the node count. *)
Record PState := mkPState { ps_rest : bytes; ps_count : Z }.

Abbreviation P := (eff PState).

Definition rest_ : P bytes := fun st => (Ok (ps_rest st), st).
Definition move (s : bytes) : P unit := fun st => (Ok tt, mkPState s (ps_count st)).

(** [position_], from the suffix. *)
Definition position (s : bytes) : Z := Z.of_nat (length file_source) - Z.of_nat (length s).

Definition fail_at {A} (offset : Z) (what : bytes) : P A := throw (syntax_error_ offset what).

(** [Syntax::node]. *)
Definition count_node (offset depth : Z) : P unit := fun st =>
  match node_error offset depth (ps_count st) with
  | Some e => (Throw e, st)
  | None => (Ok tt, mkPState (ps_rest st) (ps_count st + 1))
  end.

(** [directive]: the name after an [@], empty when there is none. *)
Definition directive (s : bytes) : bytes :=
  match s with
  | c :: s' =>
      if negb (c =b? "@") then []
      else match s' with
           | d :: _ =>
               if negb (word_start d) then []
               else let '(name, r) := span word_part s' in
                    match r with
                    | e :: _ => if e =b? "." then [] else name
                    | [] => name
                    end
           | [] => []
           end
  | [] => []
  end.

(** The loop of [delimited]: the text up to [close], and what follows; [quote] is the
    open quotation mark.  The error is a message and where it is. *)
Fixpoint delimited_loop (close s value delimiters : bytes) (quote : option byte)
    : option (bytes * string) + (bytes * bytes) :=
  match s with
  | [] => inl None
  | c :: s' =>
      match quote with
      | Some q =>
          if c =b? x5c then
            match s' with
            | d :: s'' => delimited_loop close s'' (value ++ [c; d]) delimiters quote
            | [] => inl None
            end
          else delimited_loop close s' (value ++ [c]) delimiters (if c =b? q then None else quote)
      | None =>
          match (if bool_decide (delimiters = []) then strip close s else None) with
          | Some r => inr (value, r)
          | None =>
              if (c =b? "'") || (c =b? x22) then delimited_loop close s' (value ++ [c]) delimiters (Some c)
              else if (c =b? "(") || (c =b? "[") || (c =b? "{") then
                if 64 <? Z.of_nat (length (c :: delimiters))
                then inl (Some (s, "Spear expression delimiter limit exceeded"%string))
                else delimited_loop close s' (value ++ [c]) (c :: delimiters) None
              else if (c =b? ")") || (c =b? "]") || (c =b? "}") then
                let opening := if c =b? ")" then "("%byte else if c =b? "]" then "["%byte else "{"%byte in
                match delimiters with
                | d :: ds =>
                    if d =b? opening then delimited_loop close s' (value ++ [c]) ds None
                    else inl (Some (s, "Mismatched Spear expression delimiter"%string))
                | [] => inl (Some (s, "Mismatched Spear expression delimiter"%string))
                end
              else delimited_loop close s' (value ++ [c]) delimiters None
          end
      end
  end.

(** [delimited]: the text; its place in the file ends where the suffix after it starts. *)
Definition delimited (close : string) : P bytes :=
  s ← rest_;
  match delimited_loop (lit close) s [] [] None with
  | inl None => fail_at (position s) (lit "Unclosed Spear expression or directive")
  | inl (Some (at_, what)) => fail_at (position at_) (lit what)
  | inr (value, r) => _ ← move r; mret value
  end.

(** [ExpressionParser{syntax_, value, start}] run on a piece of the file. *)
Definition run_expression {A} (parser : Z -> nat -> eff EState A) (start : Z) (value : bytes) : P A := fun st =>
  let '(r, es) :=
    parser (start + Z.of_nat (length value)) (expression_fuel value)
      (mkEState value (mkToken TEnd [] start) (ps_count st)) in
  (r, mkPState (ps_rest st) (es_count es)).

(** [header]: the text between the parentheses, and where it starts. *)
Definition header (name : bytes) : P (bytes * Z) :=
  s ← rest_;
  let s := (span blank (drop (length name + 1) s)).2 in
  match s with
  | c :: s' =>
      if c =b? "(" then (_ ← move s'; value ← delimited ")"; mret (value, position s'))
      else fail_at (position s) (lit "@" ++ name ++ lit " requires parentheses")
  | [] => fail_at (position s) (lit "@" ++ name ++ lit " requires parentheses")
  end.

Definition params (name : bytes) (minimum maximum : nat) : P (list Expression) :=
  '(value, start) ← header name;
  args ← run_expression arguments_ start value;
  if (length args <? minimum)%nat || (maximum <? length args)%nat
  then fail_at start (lit "Wrong number of @" ++ name ++ lit " arguments")
  else mret args.

Definition close_ (name : string) : P unit :=
  s ← rest_;
  if negb (bool_decide (directive s = lit name)) then fail_at (position s) (lit "Expected @" ++ lit name)
  else
    let s := drop (length (lit name) + 1) s in
    match s with
    | c :: _ =>
        if c =b? "(" then fail_at (position s) (lit "@" ++ lit name ++ lit " does not accept arguments")
        else move s
    | [] => move s
    end.

Definition text_node (loc : Location) (text : bytes) : Node := mkNode NText loc text [] [] [] [] [] [].

(** [flush]: the pending text becomes a node. *)
Definition flush (nodes : list Node) (text : bytes) (text_start depth : Z) : P (list Node) :=
  match text with
  | [] => mret nodes
  | _ => _ ← count_node text_start depth; mret (nodes ++ [text_node (location file_source text_start) text])
  end.

Definition is_directive (names : list string) (name : bytes) : bool :=
  existsb (fun n => bool_decide (name = lit n)) names.

(** The at-rules of CSS, which may be followed by a parenthesis. *)
Definition css_words : list string := ["media"; "supports"; "container"; "scope"; "layer"; "document"]%string.

Definition negation (loc : Location) (args : list Expression) : Expression :=
  mkExpression KUnary loc (lit "!") VNull args [] 1.

Fixpoint sequence (fuel : nat) (stops : list string) (depth : Z) {struct fuel} : P (list Node) :=
  match fuel with
  | O => out_of_fuel
  | S f =>
      s ← rest_;
      if 64 <? depth then fail_at (position s) (lit "Spear template nesting limit exceeded")
      else sequence_loop f stops depth [] [] (position s)
  end

(** The [while] of [sequence]. *)
with sequence_loop (fuel : nat) (stops : list string) (depth : Z) (nodes : list Node) (text : bytes) (text_start : Z)
    {struct fuel} : P (list Node) :=
  match fuel with
  | O => out_of_fuel
  | S f =>
      s ← rest_;
      match s with
      | [] =>
          nodes ← flush nodes text text_start depth;
          match stops with
          | [] => mret nodes
          | _ => fail_at (position s) (lit "Unclosed Spear directive block")
          end
      | c :: s' =>
          let start := position s in
          match strip (lit "{{--") s with
          | Some r =>
              nodes ← flush nodes text text_start depth;
              match find (lit "--}}") r with
              | None => fail_at start (lit "Unclosed Spear comment")
              | Some (_, r) => _ ← move r; sequence_loop f stops depth nodes [] (position r)
              end
          | None =>
          match strip (lit "@@") s with
          | Some r => _ ← move r; sequence_loop f stops depth nodes (text ++ lit "@") text_start
          | None =>
          match strip (lit "@{{") s with
          | Some r =>
              match find (lit "}}") r with
              | None => fail_at start (lit "Unclosed escaped interpolation")
              | Some (inner, r) =>
                  _ ← move r;
                  sequence_loop f stops depth nodes (text ++ lit "{{" ++ inner ++ lit "}}") text_start
              end
          | None =>
          let raw := starts_with (lit "{!!") s in
          if raw || starts_with (lit "{{") s then
            nodes ← flush nodes text text_start depth;
            _ ← count_node start depth;
            let inner := drop (if raw then 3 else 2) s in
            _ ← move inner;
            value ← delimited (if raw then "!!}" else "}}");
            e ← run_expression expression_ (position inner) value;
            let node := mkNode (if raw then NRaw else NEscaped) (location file_source start) [] [] [] [Some e] [] [] [] in
            r ← rest_;
            sequence_loop f stops depth (nodes ++ [node]) [] (position r)
          else
            let name := directive s in
            if negb (bool_decide (name = [])) && is_directive stops name then flush nodes text text_start depth
            else if is_directive ["else"; "elseif"; "empty"]%string name || starts_with (lit "end") name
            then fail_at start (lit "Unexpected @" ++ name)
            else if is_directive ["verbatim"]%string name then
              match find (lit "@endverbatim") (drop (length name + 1) s) with
              | None => fail_at start (lit "Unclosed @verbatim block")
              | Some (inner, r) => _ ← move r; sequence_loop f stops depth nodes (text ++ inner) text_start
              end
            else if is_directive ["if"; "unless"]%string name then
              nodes ← flush nodes text text_start depth;
              _ ← count_node start depth;
              let loc := location file_source start in
              args ← params name 1 1;
              let first := if is_directive ["unless"]%string name then [negation loc args] else args in
              branch ← sequence f ["elseif"; "else"; "endif"; "endunless"]%string (depth + 1);
              '(expressions, branches) ← elseif_loop f depth (map Some first) [branch];
              s ← rest_;
              '(expressions, branches) ←
                (if is_directive ["else"]%string (directive s) then
                   _ ← close_ "else";
                   body ← sequence f ["endif"; "endunless"]%string (depth + 1);
                   mret (expressions ++ [None], branches ++ [body])
                 else mret (expressions, branches));
              _ ← close_ (if is_directive ["if"]%string name then "endif" else "endunless");
              r ← rest_;
              sequence_loop f stops depth
                (nodes ++ [mkNode NCondition loc [] [] [] expressions [] [] branches]) [] (position r)
            else if is_directive ["foreach"; "forelse"]%string name then
              nodes ← flush nodes text text_start depth;
              _ ← count_node start depth;
              let loc := location file_source start in
              '(value, offset) ← header name;
              '(collection, key, item) ← run_expression loop_header offset value;
              children ← sequence f ["empty"; "endforeach"; "endforelse"]%string (depth + 1);
              s ← rest_;
              otherwise ←
                (if is_directive ["empty"]%string (directive s) && is_directive ["forelse"]%string name
                 then (_ ← close_ "empty"; sequence f ["endforelse"]%string (depth + 1))
                 else mret []);
              _ ← close_ (if is_directive ["foreach"]%string name then "endforeach" else "endforelse");
              r ← rest_;
              sequence_loop f stops depth
                (nodes ++ [mkNode NLoop loc [] key item [Some collection] children otherwise []]) [] (position r)
            else if is_directive ["include"; "yield"; "extends"; "section"]%string name then
              nodes ← flush nodes text text_start depth;
              _ ← count_node start depth;
              let loc := location file_source start in
              args ← params name 1 (if is_directive ["extends"]%string name then 1 else 2);
              if is_directive ["extends"; "section"]%string name && negb (depth =? 0)
              then fail_at start (lit "@" ++ name ++ lit " must be at template scope")
              else
                let kind :=
                  if is_directive ["include"]%string name then NInclude
                  else if is_directive ["yield"]%string name then NYield
                  else if is_directive ["extends"]%string name then NExtends else NSection in
                children ←
                  (if is_directive ["section"]%string name && (length args =? 1)%nat
                   then (body ← sequence f ["endsection"]%string (depth + 1); _ ← close_ "endsection"; mret body)
                   else mret []);
                r ← rest_;
                sequence_loop f stops depth
                  (nodes ++ [mkNode kind loc [] [] [] (map Some args) children [] []]) [] (position r)
            else
              let after := (span blank (drop (length name + 1) s)).2 in
              if negb (bool_decide (name = [])) && negb (is_directive css_words name) && starts_with (lit "(") after
              then fail_at start (lit "Unknown Spear directive: @" ++ name)
              else (_ ← move s'; sequence_loop f stops depth nodes (text ++ [c]) text_start)
          end end end
      end
  end

(** [while (directive() == "elseif")]. *)
with elseif_loop (fuel : nat) (depth : Z) (expressions : list (option Expression)) (branches : list (list Node))
    {struct fuel} : P (list (option Expression) * list (list Node)) :=
  match fuel with
  | O => out_of_fuel
  | S f =>
      s ← rest_;
      if is_directive ["elseif"]%string (directive s) then
        args ← params (lit "elseif") 1 1;
        body ← sequence f ["elseif"; "else"; "endif"; "endunless"]%string (depth + 1);
        elseif_loop f depth (expressions ++ map Some args) (branches ++ [body])
      else mret (expressions, branches)
  end.

Definition is_extends (n : Node) : bool := bool_decide (n_kind n = NExtends).

(** What [Parser::parse] checks of the nodes of the file. *)
Definition layout_check (nodes : list Node) : result unit :=
  match filter (fun n => is_extends n = true) nodes with
  | [] => Ok tt
  | _ :: second :: _ =>
      Throw (located_error (lit "A Spear template can extend only one layout") file_name (n_location second))
  | [_] =>
      let allowed n :=
        is_extends n || bool_decide (n_kind n = NSection) ||
        (bool_decide (n_kind n = NText) && forallb blank (n_text n)) in
      match List.find (fun n => negb (allowed n)) nodes with
      | Some n =>
          Throw (located_error (lit "Extended templates must place output in sections") file_name (n_location n))
      | None => Ok tt
      end
  end.

(** Every turn of a loop reads a character and every nested call follows a directive. *)
Definition template_fuel (s : bytes) : nat := 2 * length s + 4.

(** [Parser::parse]. *)
Definition parse_nodes : result (list Node * Z) :=
  match sequence (template_fuel file_source) [] 0 (mkPState file_source 0) with
  | (Ok nodes, st) => _ ← layout_check nodes; Ok (nodes, ps_count st)
  | (Throw e, _) => Throw e
  | (NoFuel, _) => NoFuel
  end.
End Spear.

(** [compile]. *)
Definition compile (name source : bytes) (spear : bool) : result Template :=
  if source_limit <? Z.of_nat (length source)
  then Throw (located_error (lit "View source limit exceeded") name (mkLocation 1 1))
  else if spear then
    '(nodes, count) ← parse_nodes name source;
    Ok (mkTemplate name source true nodes count)
  else Ok (mkTemplate name source false [] 0).
