(* ===== verification/SpearParserFacts.v ===== *)
(** * The Spear parser ends

    Every template is compiled or refused with a syntax error that names its place; the
    nesting limits of the source bound the recursion, whatever the text. *)

From S2P Require Import Prelude Numeral Text Double View SpearParser.

#[local] Arguments lit : simpl never.

Section Parser.
(** The view being compiled. *)
Variable file_name file_source : bytes.

(** A syntax error of this view. *)
Definition is_syntax (e : exn) : Prop :=
  match e with view_syntax_error _ name _ _ => name = file_name | _ => False end.

(** ** The expression parser *)

(** An end token has no text. *)
Definition token_inv (st : EState) : Prop := tk_kind (es_token st) = TEnd -> tk_text (es_token st) = [].

(** What is left to read, with the current token. *)
Definition work (st : EState) : nat :=
  (length (es_rest st) + if decide (tk_kind (es_token st) = TEnd) then 0 else 1)%nat.

Definition good {A} (n : nat) (r : result A * EState) : Prop :=
  match r with
  | (Ok _, st) => token_inv st /\ (work st <= n)%nat
  | (Throw e, _) => is_syntax e
  | (NoFuel, _) => False
  end.

Lemma good_bind {A B} n k (m : eff EState A) (f : A -> eff EState B) st :
  good n (m st) -> (forall a st', token_inv st' -> (work st' <= n)%nat -> good k (f a st')) ->
  good k ((m ≫= f) st).
Proof.
  intros Hm Hf. unfold mbind, eff_bind. destruct (m st) as [[a|e|] st']; [|done..].
  destruct Hm. by apply Hf.
Qed.

Lemma good_ret {A} n (a : A) st : token_inv st -> (work st <= n)%nat -> good n ((mret a : eff EState A) st).
Proof. done. Qed.

Lemma bind_token {B} (f : Token -> eff EState B) st : (token ≫= f) st = f (es_token st) st.
Proof. done. Qed.

Lemma span_le p s : (length (span p s).2 <= length s)%nat.
Proof. destruct (span p s) as [l r] eqn:E. by apply span_length in E. Qed.

Lemma lex_string_shorter quote s text r :
  lex_string quote s text = inr r -> (length r.2 < length s)%nat.
Proof.
  revert text. induction s as [s IH] using (induction_ltof1 _ (@length byte)). unfold ltof in IH. intros text.
  destruct s as [|v s]; [done|]. cbn [lex_string].
  destruct (v =b? quote); [intros [= <-]; cbn; lia|].
  assert (forall s' t, (length s' <= length s)%nat -> lex_string quote s' t = inr r -> (length r.2 < length (v :: s))%nat) as Hrec.
  { intros s' t Hl H. apply IH in H; cbn in *; lia. }
  destruct (v =b? x5c); [|apply Hrec; done].
  destruct s as [|e s']; [done|]. repeat case_match; try done; apply Hrec; cbn; lia.
Qed.

Lemma lex_number_shorter c s :
  is_digit c = true -> (length (lex_number (c :: s)).2 <= length s)%nat.
Proof.
  intros Hc. unfold lex_number. destruct (span is_digit (c :: s)) as [whole r] eqn:E.
  assert (length r <= length s)%nat as Hr.
  { cbn [span] in E. rewrite Hc in E. destruct (span is_digit s) as [l r'] eqn:E'. injection E as <- <-.
    by apply span_length in E'. }
  destruct (match r with [] => _ | _ => _ end) as [frac r1] eqn:E1.
  assert (length r1 <= length r)%nat as Hr1.
  { destruct r as [|d r]; [by injection E1 as <- <-|]. case_match; [|by injection E1 as <- <-].
    destruct (span is_digit r) as [ds r'] eqn:E'. injection E1 as <- <-. apply span_length in E'. cbn. lia. }
  destruct (match r1 with [] => _ | _ => _ end) as [ex r2] eqn:E2. cbn [snd].
  assert (length r2 <= length r1)%nat as Hr2; [|lia].
  destruct r1 as [|d r1]; [by injection E2 as <- <-|]. destruct (_ || _); [|by injection E2 as <- <-].
  destruct (match r1 with [] => _ | _ => _ end) as [sign r3] eqn:E3. destruct (span is_digit r3) as [ds r4] eqn:E4.
  injection E2 as <- <-. apply span_length in E4.
  assert (length r3 <= length r1)%nat; [|cbn; lia].
  destruct r1 as [|g r1]; [by injection E3 as <- <-|]. destruct (_ || _); injection E3 as <- <-; cbn; lia.
Qed.

Lemma lex_symbol_shorter table s t r :
  Forall (fun n => lit n <> []) table -> lex_symbol table s = Some (t, r) -> (length r < length s)%nat.
Proof.
  induction 1 as [|n table Hn _ IH]; cbn [lex_symbol]; [done|]. destruct (strip (lit n) s) as [r'|] eqn:E; [|done].
  intros [= <- <-]. apply strip_inv in E as ->. rewrite length_app. destruct (lit n); [done|]. cbn. lia.
Qed.

Lemma lex_token_shorter s k t r :
  lex_token s = inr (k, t, r) ->
  (k = TEnd /\ t = [] /\ r = []) \/ (k <> TEnd /\ (length r < length s)%nat).
Proof.
  destruct s as [|c s]; [intros [= <- <- <-]; by left|]. unfold lex_token. intros H. right.
  destruct (word_start c || (c =b? "$")) eqn:Ew.
  { assert (forall w, (length w <= length (c :: s))%nat ->
      match w with
      | [] => inl "Expected a variable after '$'"%string
      | d :: _ => if word_start d then let '(text, r) := span word_part w in inr (TIdentifier, text, r)
                  else inl "Expected a variable after '$'"%string
      end = inr (k, t, r) -> k <> TEnd /\ (length r < length (c :: s))%nat) as Hw.
    { intros [|d w] Hl Heq; [done|]. destruct (word_start d) eqn:Ed; [|done]. cbn [span] in Heq.
      unfold word_part at 1 in Heq. rewrite Ed in Heq. cbn [orb] in Heq.
      destruct (span word_part w) as [text r'] eqn:E. injection Heq as <- <- <-. apply span_length in E. cbn in *. split; [done|lia]. }
    destruct (c =b? "$"); [apply (Hw s)|apply (Hw (c :: s))]; try exact H; cbn; lia. }
  clear Ew. destruct ((c =b? "'") || _).
  { destruct (lex_string c s []) as [m|[text r']] eqn:E; [done|]. injection H as <- <- <-.
    apply lex_string_shorter in E. cbn in *. split; [done|lia]. }
  destruct (is_digit c) eqn:Ed.
  { pose proof (lex_number_shorter c s Ed) as Hl. destruct (lex_number (c :: s)) as [text r'].
    injection H as <- <- <-. cbn in *. split; [done|lia]. }
  destruct (lex_symbol symbols (c :: s)) as [[text r']|] eqn:E; injection H as <- <- <-; (split; [done|]); [|cbn; lia].
  eapply lex_symbol_shorter; [|exact E]. by repeat constructor.
Qed.

Section Expressions.
Variable stop : Z.

Abbreviation next := (next file_name file_source stop).
Abbreviation take_ := (take_ file_name file_source stop).
Abbreviation expect := (expect file_name file_source stop).

(** [next] reads the current token away. *)
Lemma next_good st n :
  token_inv st -> (work st <= n + if decide (tk_kind (es_token st) = TEnd) then 0 else 1)%nat -> good n (next st).
Proof.
  intros Hi Hw. unfold SpearParser.next, work in *. pose proof (span_le blank (es_rest st)) as Hs.
  set (s := (span blank (es_rest st)).2) in *. clearbody s.
  destruct (lex_token s) as [m|[[k t] r]] eqn:E; [done|].
  apply lex_token_shorter in E as [(-> & -> & ->)|[Hk Hl]]; unfold good, token_inv, work; cbn [es_token es_rest tk_kind tk_text].
  - split; [done|]. rewrite decide_True by done. cbn. lia.
  - split; [done|]. rewrite decide_False by done. lia.
Qed.

Lemma next_weak st n : token_inv st -> (work st <= n)%nat -> good n (next st).
Proof. intros. apply next_good; [done|]. lia. Qed.

Lemma next_strict st n :
  token_inv st -> tk_kind (es_token st) <> TEnd -> (work st <= S n)%nat -> good n (next st).
Proof. intros. apply next_good; [done|]. rewrite decide_False by done. lia. Qed.

(** A token with a text is not the end. *)
Lemma text_not_end st (s : string) :
  token_inv st -> lit s <> [] -> text_is (es_token st) s = true -> tk_kind (es_token st) <> TEnd.
Proof. unfold text_is. intros Hi Hs E%bool_decide_eq_true Hk. rewrite Hi in E by done. congruence. Qed.

Lemma error_good {A} what st n : good n (error file_name file_source (A := A) what st).
Proof. done. Qed.

Lemma throw_good {A} e st n : is_syntax e -> good n (throw (A := A) e st).
Proof. done. Qed.

Lemma make_good offset depth st n :
  token_inv st -> (work st <= n)%nat -> good n (make file_name file_source offset depth st).
Proof.
  intros Hi Hw. unfold make. destruct (node_error _ _ _ _ _) eqn:E; [|done]. unfold node_error in E.
  repeat case_match; by simplify_eq.
Qed.

(** Past [make] the depth is at most 64. *)
Lemma make_depth {B} offset depth (f : Location -> eff EState B) st n k :
  token_inv st -> (work st <= n)%nat ->
  (depth <= 64 -> forall loc st', token_inv st' -> (work st' <= n)%nat -> good k (f loc st')) ->
  good k ((make file_name file_source offset depth ≫= f) st).
Proof.
  intros Hi Hw Hf. unfold mbind, eff_bind, make. destruct (node_error _ _ _ _ _) as [e|] eqn:E.
  - unfold node_error in E. repeat case_match; by simplify_eq.
  - unfold node_error in E. destruct (64 <? depth) eqn:Ed; [done|]. reflect_bools. by apply Hf.
Qed.

Lemma seal_good kind loc text children keys st n :
  token_inv st -> (work st <= n)%nat -> good n (seal file_name kind loc text children keys st).
Proof. intros. unfold seal. by case_match. Qed.

(** [take_] either leaves everything as it is, or reads a token. *)
Lemma take_bind {B} symbol (f : bool -> eff EState B) st n k :
  token_inv st -> (work st <= n)%nat ->
  (lit symbol <> []) -> (n <> 0%nat -> forall st', token_inv st' -> (work st' <= n - 1)%nat -> good k (f true st')) ->
  good k (f false st) -> good k ((take_ symbol ≫= f) st).
Proof.
  intros Hi Hw Hs Ht Hf. unfold SpearParser.take_, mbind, eff_bind, token.
  destruct (negb (is_symbol (es_token st) symbol)) eqn:E; [done|]. apply negb_false_iff, andb_prop in E as [Et Ek].
  assert (tk_kind (es_token st) <> TEnd) as Hk by (apply bool_decide_eq_true in Ek; congruence).
  assert (n <> 0%nat) as Hn by (unfold work in Hw; rewrite decide_False in Hw by done; lia).
  pose proof (next_strict st (n - 1) Hi Hk ltac:(lia)) as Hg. destruct (next st) as [[[]|e|] st']; [|done..].
  destruct Hg. by apply Ht.
Qed.

Lemma expect_good symbol st n : token_inv st -> (work st <= n)%nat -> lit symbol <> [] -> good n (expect symbol st).
Proof.
  intros Hi Hw Hs. unfold SpearParser.expect. eapply take_bind; [done|done|done| |apply error_good].
  intros Hn st' Hi' Hw'. apply good_ret; [done|lia].
Qed.


Lemma good_mono {A} n m (r : result A * EState) : (n <= m)%nat -> good n r -> good m r.
Proof. intros Hl. destruct r as [[a|e|] st']; cbn; [|done..]. intros [? ?]. split; [done|lia]. Qed.

Lemma seal_bind {B} kind loc text children keys (f : Expression -> eff EState B) st k :
  (forall e, good k (f e st)) -> good k ((seal file_name kind loc text children keys ≫= f) st).
Proof. intros Hf. unfold seal, mbind, eff_bind. destruct (64 <? _); [done|apply Hf]. Qed.

(** The rest of a parse, read one call at a time. *)
Ltac parse_step :=
  match goal with
  | |- good _ ((token ≫= _) _) => rewrite bind_token
  | |- good _ ((make _ _ _ _ ≫= _) _) => eapply make_depth; [eassumption|eassumption|intros ? ? ? ? ?]
  | |- good _ ((seal _ _ _ _ _ _ ≫= _) _) => apply seal_bind; intros ?
  | |- good _ ((expect _ ≫= _) _) =>
      eapply good_bind; [eapply expect_good; [eassumption|eassumption|done]|intros ? ? ? ?]
  | |- good _ ((take_ _ ≫= _) _) => eapply take_bind; [eassumption|eassumption|done|intros ? ? ? ?|]; cbv iota
  | |- good _ (error _ _ _ _) => apply error_good
  | |- good _ (seal _ _ _ _ _ _ _) => apply seal_good; [assumption|lia]
  | |- good _ (mret _ _) => apply good_ret; [assumption|lia]
  end.

Abbreviation need d n c f := (2 * (70 - d) + 2 * Z.of_nat n + c <= Z.of_nat f).

(** What is proved of the eight functions at once, for some fuel. *)
Record ends (f : nat) : Prop := {
  conditional_ends : forall d n st, token_inv st -> (work st <= n)%nat -> d <= 65 -> need d n 1 f ->
    good n (conditional file_name file_source stop f d st);
  binary_ends : forall m d n st, token_inv st -> (work st <= n)%nat -> d <= 66 -> need d n 1 f ->
    good n (binary file_name file_source stop f m d st);
  binary_loop_ends : forall l m d n st, token_inv st -> (work st <= n)%nat -> d <= 66 -> need d n 0 f ->
    good n (binary_loop file_name file_source stop f l m d st);
  unary_ends : forall d n st, token_inv st -> (work st <= n)%nat -> d <= 67 -> need d n 1 f ->
    good n (unary file_name file_source stop f d st);
  postfix_ends : forall l d n st, token_inv st -> (work st <= n)%nat -> d <= 67 -> need d n 0 f ->
    good n (postfix file_name file_source stop f l d st);
  primary_ends : forall d n st, token_inv st -> (work st <= n)%nat -> d <= 68 -> need d n 0 f ->
    good n (primary file_name file_source stop f d st);
  list_items_ends : forall d n st, token_inv st -> (work st <= n)%nat -> d <= 65 -> need d n 2 f ->
    good n (list_items file_name file_source stop f d st);
  object_items_ends : forall keys d n st, token_inv st -> (work st <= n)%nat -> d <= 65 -> need d n 1 f ->
    good n (object_items file_name file_source stop f keys d st)
}.

Lemma not_end_work st n : tk_kind (es_token st) <> TEnd -> (work st <= n)%nat -> (1 <= n)%nat.
Proof. unfold work. intros Hk. rewrite decide_False by done. lia. Qed.

(** [next] past a token that is not the end. *)
Lemma next_bind {B} (f : unit -> eff EState B) st n k :
  token_inv st -> (work st <= n)%nat -> tk_kind (es_token st) <> TEnd ->
  (forall st', (1 <= n)%nat -> token_inv st' -> (work st' <= n - 1)%nat -> good k (f tt st')) ->
  good k ((next ≫= f) st).
Proof.
  intros Hi Hw Hk Hf. pose proof (not_end_work _ _ Hk Hw). eapply good_bind; [apply (next_strict _ (n - 1)); [done|done|lia]|].
  intros []. intros. by apply Hf.
Qed.

Ltac call H := eapply good_bind; [eapply H; [eassumption|eassumption|lia..]|intros ? ? ? ?].
Ltac call_last H := eapply good_mono; [|eapply H; [eassumption|eassumption|lia..]]; lia.

Lemma conditional_step f d n st :
  ends f -> token_inv st -> (work st <= n)%nat -> d <= 65 -> need d n 1 (S f) ->
  good n (conditional file_name file_source stop (S f) d st).
Proof.
  intros H Hi Hw Hd Hn. cbn [conditional]. call (binary_ends f H). parse_step; [|parse_step].
  repeat parse_step. call (conditional_ends f H). repeat parse_step. call (conditional_ends f H). parse_step.
Qed.

Lemma binary_step f m d n st :
  ends f -> token_inv st -> (work st <= n)%nat -> d <= 66 -> need d n 1 (S f) ->
  good n (binary file_name file_source stop (S f) m d st).
Proof. intros H Hi Hw Hd Hn. cbn [binary]. call (unary_ends f H). call_last (binary_loop_ends f H). Qed.

Lemma binary_loop_step f l m d n st :
  ends f -> token_inv st -> (work st <= n)%nat -> d <= 66 -> need d n 0 (S f) ->
  good n (binary_loop file_name file_source stop (S f) l m d st).
Proof.
  intros H Hi Hw Hd Hn. cbn [binary_loop]. parse_step. destruct (_ && _) eqn:E; [|parse_step].
  apply andb_prop in E as [Ek%bool_decide_eq_true _]. eapply next_bind; [done|done|congruence|]. intros ? ? ? ?.
  parse_step. call (binary_ends f H). parse_step. call_last (binary_loop_ends f H).
Qed.

Lemma unary_step f d n st :
  ends f -> token_inv st -> (work st <= n)%nat -> d <= 67 -> need d n 1 (S f) ->
  good n (unary file_name file_source stop (S f) d st).
Proof.
  intros H Hi Hw Hd Hn. cbn [unary]. parse_step. destruct (_ || _) eqn:E.
  - eapply next_bind; [done|done| |intros ? ? ? ?].
    { apply orb_prop in E as [E|E]; by eapply text_not_end; [done| |exact E]. }
    parse_step. call (unary_ends f H). parse_step.
  - call (primary_ends f H). call_last (postfix_ends f H).
Qed.

Lemma postfix_step f l d n st :
  ends f -> token_inv st -> (work st <= n)%nat -> d <= 67 -> need d n 0 (S f) ->
  good n (postfix file_name file_source stop (S f) l d st).
Proof.
  intros H Hi Hw Hd Hn. cbn [postfix]. parse_step.
  destruct (text_is _ "." || _) eqn:E1.
  { eapply next_bind; [done|done| |intros st1 ? ? ?].
    { apply orb_prop in E1 as [E|E]; by eapply text_not_end; [done| |exact E]. }
    repeat parse_step. destruct (negb _); [parse_step|].
    eapply good_bind; [eapply next_weak; eassumption|]. intros ? ? ? ?. parse_step. call_last (postfix_ends f H). }
  destruct (text_is _ "[") eqn:E2.
  { eapply next_bind; [done|done|by eapply text_not_end; [done| |exact E2]|intros st1 ? ? ?].
    parse_step. call (conditional_ends f H). repeat parse_step. call_last (postfix_ends f H). }
  destruct (text_is _ "(") eqn:E3; [|parse_step].
  eapply next_bind; [done|done|by eapply text_not_end; [done| |exact E3]|intros st1 ? ? ?].
  destruct (negb _); [parse_step|]. parse_step. parse_step.
  - eapply (good_bind (n - 1)); [parse_step|]. intros. parse_step. call_last (postfix_ends f H).
  - eapply (good_bind (n - 1)); [call (list_items_ends f H); repeat parse_step|].
    intros. parse_step. call_last (postfix_ends f H).
Qed.

Lemma primary_step f d n st :
  ends f -> token_inv st -> (work st <= n)%nat -> d <= 68 -> need d n 0 (S f) ->
  good n (primary file_name file_source stop (S f) d st).
Proof.
  intros H Hi Hw Hd Hn. cbn [primary]. parse_step. parse_step.
  assert (forall e, good n ((_ ← next; (mret e : eff EState Expression)) st')) as Hnext.
  { intros e. eapply good_bind; [eapply next_weak; eassumption|]. intros. parse_step. }
  assert (good n ((paren ← take_ "(";
    if paren : bool then (inner ← conditional file_name file_source stop f (d + 1); _ ← expect ")"; mret inner)
    else
      bracket ← take_ "[";
      if bracket : bool then
        empty ← take_ "]";
        items ← (if empty : bool then mret []
                 else (items ← list_items file_name file_source stop f (d + 1); _ ← expect "]"; mret items));
        seal file_name KArray loc [] items []
      else
        brace ← take_ "{";
        if brace : bool then
          empty ← take_ "}";
          entries ← (if empty : bool then mret ([], [])
                     else (entries ← object_items file_name file_source stop f ∅ (d + 1); _ ← expect "}"; mret entries));
          let '(keys, items) := entries in
          seal file_name KObject loc [] items keys
        else error file_name file_source (lit "Expected a Spear expression")) st')) as Hother.
  { parse_step; [call (conditional_ends f H); repeat parse_step|].
    parse_step.
    { parse_step; [eapply (good_bind (n - 1)); [parse_step|intros; parse_step]|]. eapply (good_bind (n - 1)); [call (list_items_ends f H); repeat parse_step|].
      intros. parse_step. }
    parse_step; [|parse_step].
    parse_step; [eapply (good_bind (n - 1)); [parse_step|intros [? ?] ? ? ?; parse_step]|]. eapply (good_bind (n - 1)); [call (object_items_ends f H); repeat parse_step|].
    intros [keys items]. intros. parse_step. }
  destruct (tk_kind _); try done.
  destruct (number_token _); [parse_step|done].
Qed.

Lemma list_items_step f d n st :
  ends f -> token_inv st -> (work st <= n)%nat -> d <= 65 -> need d n 2 (S f) ->
  good n (list_items file_name file_source stop (S f) d st).
Proof.
  intros H Hi Hw Hd Hn. cbn [list_items]. call (conditional_ends f H). parse_step; [|parse_step].
  call (list_items_ends f H). parse_step.
Qed.

Lemma object_items_step f keys d n st :
  ends f -> token_inv st -> (work st <= n)%nat -> d <= 65 -> need d n 1 (S f) ->
  good n (object_items file_name file_source stop (S f) keys d st).
Proof.
  intros H Hi Hw Hd Hn. cbn [object_items]. parse_step. destruct (_ && _) eqn:E; [parse_step|].
  destruct (bool_decide (_ ∈ _)); [parse_step|]. eapply next_bind; [done|done| |intros ? ? ? ?].
  { intros Ek. rewrite Ek in E. done. }
  parse_step. call (conditional_ends f H). parse_step; [|parse_step]. call (object_items_ends f H). parse_step.
Qed.

Lemma ends_all f : ends f.
Proof.
  induction f as [|f IH]; constructor; intros; try (exfalso; lia).
  - by apply conditional_step.
  - by apply binary_step.
  - by apply binary_loop_step.
  - by apply unary_step.
  - by apply postfix_step.
  - by apply primary_step.
  - by apply list_items_step.
  - by apply object_items_step.
Qed.
End Expressions.

Section Templates.

(** The entry points of the expression parser, on the text they are given. *)
Lemma start_inv s o k : token_inv (mkEState s (mkToken TEnd [] o) k).
Proof. done. Qed.

Lemma start_work s o k : work (mkEState s (mkToken TEnd [] o) k) = length s.
Proof. unfold work. rewrite decide_True by done. cbn. lia. Qed.

Lemma at_end_good (what : string) st n :
  token_inv st -> (work st <= n)%nat -> good n (at_end file_name file_source what st).
Proof. intros. unfold at_end. rewrite bind_token. by case_match. Qed.

Lemma variable_good stop st n :
  token_inv st -> (work st <= n)%nat -> good n (variable file_name file_source stop st).
Proof.
  intros. unfold variable. rewrite bind_token. do 2 (case_match; [done|]).
  eapply good_bind; [by apply next_weak|]. intros. by apply good_ret.
Qed.

(** A parser of expressions that ends on every text with a result or a syntax error. *)
Definition total_parser {A} (parser : Z -> nat -> eff EState A) : Prop :=
  forall stop s o k, good (length s) (parser stop (expression_fuel s) (mkEState s (mkToken TEnd [] o) k)).

Ltac begin_parse :=
  intros stop s o k; eapply good_bind; [apply (next_weak _ _ (length s)); [done|by rewrite start_work]|intros ? ? ? ?].

Lemma expression_total : total_parser (expression_ file_name file_source).
Proof.
  begin_parse. eapply good_bind.
  { eapply (conditional_ends _ _ (ends_all _ _)); [done|eassumption|lia|unfold expression_fuel; lia]. }
  intros. eapply good_bind; [by apply at_end_good|]. intros. by apply good_ret.
Qed.

Lemma arguments_total : total_parser (arguments_ file_name file_source).
Proof.
  begin_parse. rewrite bind_token. case_match; [by apply good_ret|]. eapply good_bind.
  { eapply (list_items_ends _ _ (ends_all _ _)); [done|eassumption|lia|unfold expression_fuel; lia]. }
  intros. eapply good_bind; [by apply at_end_good|]. intros. by apply good_ret.
Qed.

Lemma loop_header_total : total_parser (loop_header file_name file_source).
Proof.
  begin_parse. eapply good_bind.
  { eapply (conditional_ends _ _ (ends_all _ _)); [done|eassumption|lia|unfold expression_fuel; lia]. }
  intros. rewrite bind_token. case_match; [done|]. eapply good_bind; [by apply next_weak|]. intros.
  eapply good_bind; [by apply variable_good|]. intros first st2 Hi Hw.
  eapply (take_bind _ _ _ _ (length s)); [done|done|done|intros ? ? ? ?|]; cbv iota.
  - eapply (good_bind (length s)).
    + eapply (good_bind (length s)); [apply variable_good; [done|lia]|]. intros. by apply good_ret.
    + intros [key item] ? ? ?. case_match; [done|]. eapply good_bind; [by apply at_end_good|]. intros. by apply good_ret.
  - eapply (good_bind (length s)); [by apply good_ret|].
    intros [key item] ? ? ?. case_match; [done|]. eapply good_bind; [by apply at_end_good|]. intros. by apply good_ret.
Qed.

(** ** The template parser *)

Definition fine {A} (n : nat) (r : result A * PState) : Prop :=
  match r with
  | (Ok _, st) => (length (ps_rest st) <= n)%nat
  | (Throw e, _) => is_syntax e
  | (NoFuel, _) => False
  end.

Lemma fine_bind {A B} n k (m : eff PState A) (f : A -> eff PState B) st :
  fine n (m st) -> (forall a st', (length (ps_rest st') <= n)%nat -> fine k (f a st')) -> fine k ((m ≫= f) st).
Proof. intros Hm Hf. unfold mbind, eff_bind. destruct (m st) as [[a|e|] st']; [|done..]. by apply Hf. Qed.

Lemma fine_mono {A} n m (r : result A * PState) : (n <= m)%nat -> fine n r -> fine m r.
Proof. intros Hl. destruct r as [[a|e|] st']; cbn; [|done..]. lia. Qed.

Lemma fine_ret {A} n (a : A) st : (length (ps_rest st) <= n)%nat -> fine n ((mret a : eff PState A) st).
Proof. done. Qed.

Lemma fail_fine {A} offset what st n : fine n (fail_at file_name file_source (A := A) offset what st).
Proof. done. Qed.

Lemma bind_rest {B} (f : bytes -> eff PState B) st : (rest_ ≫= f) st = f (ps_rest st) st.
Proof. done. Qed.

Lemma move_fine s st n : (length s <= n)%nat -> fine n (move s st).
Proof. done. Qed.

Lemma count_node_fine offset depth st n :
  (length (ps_rest st) <= n)%nat -> fine n (count_node file_name file_source offset depth st).
Proof. intros Hl. unfold count_node, node_error. by repeat case_match; simplify_eq. Qed.

Lemma flush_fine nodes text text_start depth st n :
  (length (ps_rest st) <= n)%nat -> fine n (flush file_name file_source nodes text text_start depth st).
Proof.
  intros Hl. unfold flush. case_match; [done|]. eapply fine_bind; [by apply count_node_fine|]. intros. by apply fine_ret.
Qed.

Lemma delimited_loop_shorter close s value ds quote v r :
  delimited_loop close s value ds quote = inr (v, r) -> (length r <= length s)%nat.
Proof.
  revert value ds quote. induction s as [s IH] using (induction_ltof1 _ (@length byte)). unfold ltof in IH.
  intros value ds quote. destruct s as [|c s]; [done|]. cbn [delimited_loop].
  assert (forall s' v' ds' q', (length s' <= length s)%nat ->
    delimited_loop close s' v' ds' q' = inr (v, r) -> (length r <= length (c :: s))%nat) as Hrec.
  { intros s' v' ds' q' Hl H. apply IH in H; cbn in *; lia. }
  destruct quote as [q|].
  { destruct (c =b? x5c); [|by apply Hrec]. destruct s as [|d s']; [done|]. apply Hrec. cbn. lia. }
  destruct (if bool_decide _ then _ else _) as [r'|] eqn:E.
  { intros [= <- <-]. destruct (bool_decide _); [|done]. apply strip_inv in E. rewrite E, length_app. lia. }
  repeat case_match; try done; by apply Hrec.
Qed.

Lemma delimited_fine close st n :
  (length (ps_rest st) <= n)%nat -> fine n (delimited file_name file_source close st).
Proof.
  intros Hl. unfold delimited. rewrite bind_rest. destruct (delimited_loop _ _ _ _ _) as [[[? ?]|]|[v r]] eqn:E; [done..|].
  apply delimited_loop_shorter in E. eapply fine_bind; [apply move_fine; reflexivity|]. intros. apply fine_ret. lia.
Qed.

Lemma run_fine {A} (parser : Z -> nat -> eff EState A) start value st n :
  total_parser parser -> (length (ps_rest st) <= n)%nat -> fine n (run_expression parser start value st).
Proof.
  intros Hp Hl. unfold run_expression. specialize (Hp (start + Z.of_nat (length value)) value start (ps_count st)).
  destruct (parser _ _ _) as [[a|e|] es]; done.
Qed.

(** [header], [params] and [close_] read at least the mark of the directive. *)
Lemma header_fine name st n :
  (length (ps_rest st) <= S n)%nat -> fine n (header file_name file_source name st).
Proof.
  intros Hl. unfold header. rewrite bind_rest. pose proof (span_le blank (drop (length name + 1) (ps_rest st))) as Hs.
  rewrite length_drop in Hs. destruct (span blank _).2 as [|c s]; [done|]. destruct (c =b? "("); [|done]. cbn in Hs.
  eapply fine_bind; [by apply move_fine; reflexivity|]. intros. eapply fine_bind; [by apply delimited_fine|].
  intros. apply fine_ret. lia.
Qed.

Lemma params_fine name lo hi st n :
  (length (ps_rest st) <= S n)%nat -> fine n (params file_name file_source name lo hi st).
Proof.
  intros Hl. unfold params. eapply fine_bind; [by apply header_fine|]. intros [value start] ? ?.
  eapply fine_bind; [apply run_fine; [apply arguments_total|eassumption]|]. intros. case_match; [done|]. by apply fine_ret.
Qed.

Lemma close_fine name st n :
  (length (ps_rest st) <= S n)%nat -> fine n (close_ file_name file_source name st).
Proof.
  intros Hl. unfold close_. rewrite bind_rest. case_match; [done|].
  assert (length (drop (length (lit name) + 1) (ps_rest st)) <= n)%nat by (rewrite length_drop; lia).
  repeat case_match; try done; cbn in *; lia.
Qed.

Lemma name_read name s : name <> [] -> directive s = name -> s <> [].
Proof. intros Hn Hd ->. by rewrite <- Hd in Hn. Qed.

Lemma strip_shorter (symbol : string) s r :
  lit symbol <> [] -> strip (lit symbol) s = Some r -> (length r < length s)%nat.
Proof. intros Hs H. apply strip_inv in H as ->. rewrite length_app. destruct (lit symbol); [done|]. cbn. lia. Qed.

Lemma find_rest needle s a b : find needle s = Some (a, b) -> (length b + length needle <= length s)%nat.
Proof. intros H. apply find_inv in H as ->. rewrite !length_app. lia. Qed.

Abbreviation sequence := (sequence file_name file_source).
Abbreviation sequence_loop := (sequence_loop file_name file_source).
Abbreviation elseif_loop := (elseif_loop file_name file_source).

Record template_ends (f : nat) : Prop := {
  sequence_ends : forall stops d n st, (length (ps_rest st) <= n)%nat -> (2 * n + 2 <= f)%nat ->
    fine n (sequence f stops d st);
  sequence_loop_ends : forall stops d nodes text o n st, (length (ps_rest st) <= n)%nat -> (2 * n + 1 <= f)%nat ->
    fine n (sequence_loop f stops d nodes text o st);
  elseif_loop_ends : forall d es bs n st, (length (ps_rest st) <= n)%nat -> (2 * n + 1 <= f)%nat ->
    fine n (elseif_loop f d es bs st)
}.

(** Steps that keep what is left, or shorten it to one less. *)
Ltac template_step H :=
  match goal with
  | |- fine _ ((rest_ ≫= _) _) => rewrite bind_rest
  | |- fine _ ((flush _ _ _ _ _ _ ≫= _) _) => eapply fine_bind; [apply flush_fine; eassumption|intros ? ? ?]
  | |- fine _ ((count_node _ _ _ _ ≫= _) _) => eapply fine_bind; [apply count_node_fine; eassumption|intros ? ? ?]
  | |- fine _ ((delimited _ _ _ ≫= _) _) => eapply fine_bind; [apply delimited_fine; eassumption|intros ? ? ?]
  | |- fine _ ((run_expression (expression_ _ _) _ _ ≫= _) _) =>
      eapply fine_bind; [apply run_fine; [apply expression_total|eassumption]|intros ? ? ?]
  | |- fine _ (flush _ _ _ _ _ _ _) => apply flush_fine; assumption
  | |- fine _ (fail_at _ _ _ _ _) => apply fail_fine
  | |- fine _ (mret _ _) => apply fine_ret; lia
  | |- fine _ (sequence_loop _ _ _ _ _ _ _) =>
      eapply fine_mono; [|eapply (sequence_loop_ends _ H); [eassumption|lia]]; lia
  end.

Lemma sequence_step f stops d n st :
  template_ends f -> (length (ps_rest st) <= n)%nat -> (2 * n + 2 <= S f)%nat -> fine n (sequence (S f) stops d st).
Proof.
  intros H Hl Hf. cbn [SpearParser.sequence]. template_step H. case_match; [template_step H|].
  eapply (sequence_loop_ends _ H); [done|lia].
Qed.

Lemma elseif_loop_step f d es bs n st :
  template_ends f -> (length (ps_rest st) <= n)%nat -> (2 * n + 1 <= S f)%nat -> fine n (elseif_loop (S f) d es bs st).
Proof.
  intros H Hl Hf. cbn [SpearParser.elseif_loop]. template_step H. destruct (is_directive _ _) eqn:E; [|template_step H].
  destruct n as [|n]; [destruct (ps_rest st); [done|cbn in Hl; lia]|].
  eapply fine_bind; [by apply params_fine|intros args st1 H1].
  eapply fine_bind; [eapply (sequence_ends _ H); [eassumption|lia]|intros body st2 H2].
  eapply fine_mono; [|eapply (elseif_loop_ends _ H); [eassumption|lia]]. lia.
Qed.

(** The blocks of the directives, after the text before them was put down. *)
Lemma condition_block f stops d n st nodes name loc :
  template_ends f -> (length (ps_rest st) <= S n)%nat -> (2 * S n <= f)%nat ->
  fine (S n)
    ((args ← params file_name file_source name 1 1;
      let first := if is_directive ["unless"]%string name then [negation loc args] else args in
      branch ← sequence f ["elseif"; "else"; "endif"; "endunless"]%string (d + 1);
      '(expressions, branches) ← elseif_loop f d (map Some first) [branch];
      s ← rest_;
      '(expressions, branches) ←
        (if is_directive ["else"]%string (directive s) then
           _ ← close_ file_name file_source "else";
           body ← sequence f ["endif"; "endunless"]%string (d + 1);
           mret (expressions ++ [None], branches ++ [body])
         else mret (expressions, branches));
      _ ← close_ file_name file_source (if is_directive ["if"]%string name then "endif" else "endunless");
      r ← rest_;
      sequence_loop f stops d
        (nodes ++ [mkNode NCondition loc [] [] [] expressions [] [] branches]) [] (position file_source r)) st).
Proof.
  intros H Hl Hf. eapply fine_bind; [by apply params_fine|intros args st1 H1]. cbv zeta.
  eapply fine_bind; [eapply (sequence_ends _ H); [eassumption|lia]|intros branch st2 H2].
  eapply fine_bind; [eapply (elseif_loop_ends _ H); [eassumption|lia]|intros [es bs] st3 H3].
  template_step H. eapply (fine_bind n).
  { destruct (is_directive _ _); [|by apply fine_ret].
    eapply fine_bind; [apply close_fine, le_S; eassumption|intros ? st4 H4].
    eapply fine_bind; [eapply (sequence_ends _ H); [eassumption|lia]|intros]. by apply fine_ret. }
  intros [es' bs'] st4 H4. eapply fine_bind; [apply close_fine, le_S; eassumption|intros ? st5 H5].
  template_step H. template_step H.
Qed.

Lemma loop_block f stops d n st nodes name loc :
  template_ends f -> (length (ps_rest st) <= S n)%nat -> (2 * S n <= f)%nat ->
  fine (S n)
    (('(value, offset) ← header file_name file_source name;
      '(collection, key, item) ← run_expression (loop_header file_name file_source) offset value;
      children ← sequence f ["empty"; "endforeach"; "endforelse"]%string (d + 1);
      s ← rest_;
      otherwise ←
        (if is_directive ["empty"]%string (directive s) && is_directive ["forelse"]%string name
         then (_ ← close_ file_name file_source "empty"; sequence f ["endforelse"]%string (d + 1))
         else mret []);
      _ ← close_ file_name file_source (if is_directive ["foreach"]%string name then "endforeach" else "endforelse");
      r ← rest_;
      sequence_loop f stops d
        (nodes ++ [mkNode NLoop loc [] key item [Some collection] children otherwise []]) [] (position file_source r)) st).
Proof.
  intros H Hl Hf. eapply fine_bind; [by apply header_fine|intros [value offset] st1 H1].
  eapply fine_bind; [apply run_fine; [apply loop_header_total|eassumption]|intros [[collection key] item] st2 H2].
  eapply fine_bind; [eapply (sequence_ends _ H); [eassumption|lia]|intros children st3 H3].
  template_step H. eapply (fine_bind n).
  { destruct (_ && _); [|by apply fine_ret].
    eapply fine_bind; [apply close_fine, le_S; eassumption|intros ? st4 H4].
    eapply (sequence_ends _ H); [eassumption|lia]. }
  intros otherwise st4 H4. eapply fine_bind; [apply close_fine, le_S; eassumption|intros ? st5 H5].
  template_step H. template_step H.
Qed.

Lemma section_block f stops d n st nodes name loc start hi kind :
  template_ends f -> (length (ps_rest st) <= S n)%nat -> (2 * S n <= f)%nat ->
  fine (S n)
    ((args ← params file_name file_source name 1 hi;
      if is_directive ["extends"; "section"]%string name && negb (d =? 0)
      then fail_at file_name file_source start (lit "@" ++ name ++ lit " must be at template scope")
      else
        children ←
          (if is_directive ["section"]%string name && (length args =? 1)%nat
           then (body ← sequence f ["endsection"]%string (d + 1); _ ← close_ file_name file_source "endsection"; mret body)
           else mret []);
        r ← rest_;
        sequence_loop f stops d
          (nodes ++ [mkNode kind loc [] [] [] (map Some args) children [] []]) [] (position file_source r)) st).
Proof.
  intros H Hl Hf. eapply fine_bind; [by apply params_fine|intros args st1 H1].
  destruct (_ && negb _); [apply fail_fine|]. eapply (fine_bind n).
  { destruct (_ && _); [|by apply fine_ret].
    eapply fine_bind; [eapply (sequence_ends _ H); [eassumption|lia]|intros body st2 H2].
    eapply fine_bind; [apply close_fine, le_S; eassumption|intros]. by apply fine_ret. }
  intros children st2 H2. template_step H. template_step H.
Qed.

Lemma sequence_loop_step f stops d nodes text o n st :
  template_ends f -> (length (ps_rest st) <= n)%nat -> (2 * n + 1 <= S f)%nat ->
  fine n (sequence_loop (S f) stops d nodes text o st).
Proof.
  intros H Hl Hf. cbn [SpearParser.sequence_loop]. template_step H. destruct (ps_rest st) as [|c s'] eqn:Es.
  { eapply fine_bind; [apply (flush_fine _ _ _ _ _ n); rewrite Es; cbn; lia|intros]. case_match; template_step H. }
  assert (length (ps_rest st) <= n)%nat as Hst by by rewrite Es. clear Es. cbn [length] in Hl. destruct n as [|n]; [lia|].
  assert (forall r (k : eff PState (list Node)), (length r <= n)%nat ->
    (forall st', (length (ps_rest st') <= n)%nat -> fine (S n) (k st')) ->
    forall st', fine (S n) ((_ ← move r; k) st')) as Hmove.
  { intros r k Hr Hk st'. eapply fine_bind; [by apply move_fine|]. intros. by apply Hk. }
  destruct (strip (lit "{{--") (c :: s')) as [r|] eqn:E1.
  { template_step H. destruct (find _ r) as [[? r']|] eqn:Er; [|template_step H]. apply find_rest in Er.
    apply strip_shorter in E1; [|done]. cbn [length] in E1.
    apply Hmove; [lia|]. intros. template_step H. }
  destruct (strip (lit "@@") (c :: s')) as [r|] eqn:E2.
  { apply strip_shorter in E2; [|done]. cbn [length] in E2.
    apply Hmove; [lia|]. intros. template_step H. }
  destruct (strip (lit "@{{") (c :: s')) as [r|] eqn:E3.
  { destruct (find _ r) as [[? r']|] eqn:Er; [|template_step H]. apply find_rest in Er.
    apply strip_shorter in E3; [|done]. cbn [length] in E3.
    apply Hmove; [lia|]. intros. template_step H. }
  destruct (starts_with (lit "{!!") (c :: s') || _).
  { do 2 template_step H. apply Hmove; [rewrite length_drop; cbn [length]; case_match; lia|]. intros. repeat template_step H. }
  destruct (negb _ && is_directive stops _); [template_step H|].
  destruct (is_directive _ _ || starts_with (lit "end") _); [template_step H|].
  destruct (is_directive ["verbatim"]%string _).
  { destruct (find _ _) as [[? r']|] eqn:Er; [|template_step H]. apply find_rest in Er.
    rewrite length_drop in Er. cbn [length] in Er. apply Hmove; [lia|]. intros. template_step H. }
  destruct (is_directive ["if"; "unless"]%string _).
  { do 2 template_step H. apply condition_block; [done|done|lia]. }
  destruct (is_directive ["foreach"; "forelse"]%string _).
  { do 2 template_step H. apply loop_block; [done|done|lia]. }
  destruct (is_directive ["include"; "yield"; "extends"; "section"]%string _).
  { do 2 template_step H. apply section_block; [done|done|lia]. }
  destruct (negb _ && _ && _); [template_step H|]. apply Hmove; [lia|]. intros. template_step H.
Qed.

Lemma template_ends_all f : template_ends f.
Proof.
  induction f as [|f IH]; constructor; intros; try (exfalso; lia).
  - by apply sequence_step.
  - by apply sequence_loop_step.
  - by apply elseif_loop_step.
Qed.

Lemma layout_check_ends nodes :
  layout_check file_name nodes = Ok tt \/ exists e, layout_check file_name nodes = Throw e /\ is_syntax e.
Proof. unfold layout_check. repeat case_match; (by left) || (right; by eexists). Qed.
End Templates.
End Parser.

(** Parsing ends with nodes or a syntax error of the view. *)
Lemma parse_nodes_outcome name source :
  (exists r, parse_nodes name source = Ok r) \/
  (exists what line column, parse_nodes name source = Throw (view_syntax_error what name line column)).
Proof.
  unfold parse_nodes. pose proof (sequence_ends _ _ _ (template_ends_all name source (template_fuel source)) [] 0
    (length source) (mkPState source 0) ltac:(done) ltac:(unfold template_fuel; lia)) as H.
  destruct (SpearParser.sequence _ _ _ _ _ _) as [[nodes|e|] st]; [| |done].
  - destruct (layout_check_ends name nodes) as [->|(e & -> & He)]; [by eauto|].
    destruct e; try done. cbn in He. subst. right. eexists _, _, _. reflexivity.
  - destruct e; try done. cbn in H. subst. right. eexists _, _, _. reflexivity.
Qed.

Lemma compile_settles name source spear : compile name source spear <> NoFuel.
Proof.
  unfold compile. destruct (source_limit <? _); [done|]. destruct spear; [|done].
  by destruct (parse_nodes_outcome name source) as [[[? ?] ->]|(? & ? & ? & ->)].
Qed.

(** The view compiler ends on every source: it gives a template, or a syntax error that
    names the view and a place in it; no text makes the two recursive parsers run on. *)
Theorem compile_ends name source spear :
  (exists t, compile name source spear = Ok t) \/
  (exists what line column, compile name source spear = Throw (view_syntax_error what name line column)).
Proof.
  unfold compile. destruct (source_limit <? _); [right; eexists _, _, _; reflexivity|]. destruct spear; [|by eauto].
  destruct (parse_nodes_outcome name source) as [[[? ?] ->]|(? & ? & ? & ->)]; [by eauto|]. right. by eexists _, _, _.
Qed.
