(* ===== verification/Spear.v ===== *)
(** * Rendering ([src/view/spear_renderer.cpp], [src/view/engine.cpp])

    [Session] holds what is left of the output and operation budgets and the stack of
    templates being rendered; [sections] is the map the functions of the source take by
    reference.  The engine's registered helpers and the loading of a template by name are
    arguments.  The recursion is bounded by the composition depth of the source: the
    functions of [render_at] call those of the next smaller fuel, and the depth limit is
    reached before the fuel is. *)

From S2P Require Import Prelude Numeral Text Double Json View SpearParser.

Record Session := mkSession {
  remaining : Z;
  operations : Z;
  stack : list bytes;
  sections : gmap bytes bytes
}.

Abbreviation V := (eff Session).

Definition fresh_session : Session := mkSession output_limit 1000000 [] ∅.

(** ** Budgets *)

(** [Session::append], to the output so far. *)
Definition append (output value : bytes) : V bytes := fun s =>
  if remaining s <? Z.of_nat (length value) then (Throw output_exceeded, s)
  else (Ok (output ++ value),
        mkSession (remaining s - Z.of_nat (length value)) (operations s) (stack s) (sections s)).

Definition step : V unit := fun s =>
  if operations s =? 0 then (Throw (plain_error (lit "View operation limit exceeded")), s)
  else (Ok tt, mkSession (remaining s) (operations s - 1) (stack s) (sections s)).

Definition lift_ {A} (r : result A) : V A := fun s => (r, s).

(** ** Numbers *)

Definition is_number_value (v : Value) : bool :=
  match v with VInt _ | VUInt _ | VDouble _ => true | _ => false end.

Definition finite (v : Value) : bool := match v with VDouble d => isfinite d | _ => true end.

(** [std::trunc] of a finite double, and whether it is an integer. *)
Definition truncated (neg : bool) (m e : Z) : Z :=
  let u := if 0 <=? e then m * 2 ^ e else m / 2 ^ (- e) in if neg then - u else u.

Definition integral (m e : Z) : bool := (0 <=? e) || (m mod 2 ^ (- e) =? 0).

(** [right < bound] for an integer bound. *)
Definition below (neg : bool) (m e bound : Z) : bool :=
  double_units neg m e <? bound * 2 ^ 1074.

(** [order(UInt64, double)] and [order(Int64, double)], on finite doubles. *)
Definition order_unsigned (left : Z) (neg : bool) (m e : Z) : Z :=
  if below neg m e 0 then 1
  else if negb (below neg m e (2 ^ 64)) then -1
  else
    let integer := truncated neg m e in
    if left <? integer then -1 else if integer <? left then 1
    else if integral m e then 0 else -1.

Definition order_signed (left : Z) (neg : bool) (m e : Z) : Z :=
  if below neg m e (- 2 ^ 63) then 1
  else if negb (below neg m e (2 ^ 63)) then -1
  else
    let integer := truncated neg m e in
    if left <? integer then -1 else if integer <? left then 1
    else if integral m e then 0 else if below neg m e 0 then 1 else -1.

Definition order_of (x y : Z) : Z := if x <? y then -1 else if y <? x then 1 else 0.

(** [numeric_order]; its callers pass finite doubles only. *)
Definition numeric_order (left right : Value) : Z :=
  match left, right with
  | VDouble a, VDouble b => if double_ltb a b then -1 else if double_ltb b a then 1 else 0
  | VDouble (Finite n m e), VInt b => - order_signed b n m e
  | VDouble (Finite n m e), VUInt b => - order_unsigned b n m e
  | VInt a, VDouble (Finite n m e) => order_signed a n m e
  | VUInt a, VDouble (Finite n m e) => order_unsigned a n m e
  | VInt a, VInt b | VInt a, VUInt b | VUInt a, VInt b | VUInt a, VUInt b => order_of a b
  | _, _ => 0
  end.

(** ** Comparisons *)

Definition same_alternative (left right : Value) : bool :=
  match left, right with
  | VNull, VNull | VBool _, VBool _ | VInt _, VInt _ | VUInt _, VUInt _ | VDouble _, VDouble _
  | VString _, VString _ | VArray _, VArray _ | VObject _, VObject _ => true
  | _, _ => false
  end.

Fixpoint equal (left right : Value) (depth : Z) {struct left} : V bool :=
  _ ← step;
  if 64 <? depth then throw (plain_error (lit "Spear value comparison nesting limit exceeded"))
  else if is_number_value left && is_number_value right
  then mret (finite left && finite right && (numeric_order left right =? 0))
  else if negb (same_alternative left right) then mret false
  else
    match left, right with
    | VNull, _ => mret true
    | VArray a, VArray b =>
        if negb (length a =? length b)%nat then mret false
        else
          (fix go (a b : list Value) : V bool :=
             match a, b with
             | x :: a', y :: b' => same ← equal x y (depth + 1); if same : bool then go a' b' else mret false
             | _, _ => mret true
             end) a b
    | VObject a, VObject b =>
        if negb (length a =? length b)%nat then mret false
        else
          (fix go (a : list (bytes * Value)) : V bool :=
             match a with
             | [] => mret true
             | (key, x) :: a' =>
                 match find_entry key b with
                 | None => mret false
                 | Some y => same ← equal x y (depth + 1); if same : bool then go a' else mret false
                 end
             end) a
    | _, _ => mret (bool_decide (value_string left = value_string right))
    end.

(** [std::string::compare]: bytes as unsigned characters. *)
Fixpoint compare_text (a b : bytes) : Z :=
  match a, b with
  | [], [] => 0
  | [], _ => -1
  | _, [] => 1
  | x :: a', y :: b' => if uc x <? uc y then -1 else if uc y <? uc x then 1 else compare_text a' b'
  end.

Definition value_index (v : Value) : option Z :=
  match v with
  | VInt z => if 0 <=? z then Some z else None
  | VUInt z => Some z
  | _ => None
  end.

(** ** Errors with a place *)

(** [fail]. *)
Definition fail {A} (name : bytes) (l : Location) (what : bytes) : V A := throw (located_error what name l).

(** The [catch] clauses around a helper call. *)
Definition helper_failure (name : bytes) (l : Location) (helper : bytes) (e : exn) : exn :=
  match e with
  | view_syntax_error what [] _ _ => located_error what name l
  | view_syntax_error _ _ _ _ => e
  | _ => located_error (lit "View helper failed: " ++ helper) name l
  end.

(** The [catch] clauses around a node or a layout. *)
Definition node_failure (name : bytes) (l : Location) (not_found invalid : string) (e : exn) : exn :=
  match e with
  | view_syntax_error what [] _ _ => located_error what name l
  | view_not_found _ => located_error (lit not_found) name l
  | view_invalid_path _ => located_error (lit invalid) name l
  | _ => e
  end.

Definition rethrow {A} (f : exn -> exn) (m : V A) : V A := try_catch m (fun e => throw (f e)).

(** ** Expressions *)
Section Renderer.
(** [Engine::helpers_] and [Engine::load]. *)
Variable helpers : bytes -> option (list Value -> result Value).
Variable load : bytes -> result Template.

(** [Engine::call]. *)
Definition call_helper (name : bytes) (arguments : list Value) : result Value :=
  match helpers name with
  | Some callback => callback arguments
  | None => Throw (plain_error (lit "Unknown view helper: " ++ name))
  end.

Definition negate (name : bytes) (l : Location) (v : Value) : V Value :=
  match v with
  | VInt z => if z =? INT64_MIN then fail name l (lit "Integer negation overflow") else mret (VInt (- z))
  | VUInt z =>
      if 2 ^ 63 <? z then fail name l (lit "Integer negation overflow")
      else if z =? 2 ^ 63 then mret (VInt INT64_MIN) else mret (VInt (- z))
  | VDouble (Finite neg m e) => mret (VDouble (Finite (negb neg) m e))
  | _ => fail name l (lit "Unary '-' requires a finite number")
  end.

Definition text_in (text : bytes) (names : list string) : bool :=
  existsb (fun n => bool_decide (text = lit n)) names.

Definition compare_values (name : bytes) (l : Location) (op : bytes) (left right : Value) : V Value :=
  let decide_ comparison :=
    mret (VBool (if text_in op ["<"]%string then comparison <? 0
                 else if text_in op [">"]%string then 0 <? comparison
                 else if text_in op ["<="]%string then comparison <=? 0
                 else 0 <=? comparison)) in
  if is_number_value left && is_number_value right && finite left && finite right
  then decide_ (numeric_order left right)
  else
    match left, right with
    | VString a, VString b => decide_ (compare_text a b)
    | VString _, _ => fail name l (lit "Comparison requires two numbers or two strings")
    | _, _ => fail name l (lit "Comparison requires two finite numbers or two strings")
    end.

Definition index_value (object key : Value) : Value :=
  match object, key with
  | VArray values, _ =>
      match value_index key with
      | Some i => if i <? Z.of_nat (length values) then nth (Z.to_nat i) values VNull else VNull
      | None => VNull
      end
  | VObject values, VString k => default VNull (find_entry k values)
  | _, _ => VNull
  end.

(** [values.emplace] for each key of an object literal: the first one stays. *)
Fixpoint emplace_all (keys : list bytes) (values : list Value) (object : list (bytes * Value)) : list (bytes * Value) :=
  match keys, values with
  | k :: ks, v :: vs =>
      emplace_all ks vs (match find_entry k object with Some _ => object | None => object ++ [(k, v)] end)
  | _, _ => object
  end.

(** [Session::evaluate]. *)
Fixpoint evaluate (name : bytes) (data : Data) (node : Expression) (depth : Z) {struct node} : V Value :=
  let '(mkExpression kind loc text value children keys _) := node in
  _ ← step;
  if 64 <? depth then fail name loc (lit "Spear expression evaluation nesting limit exceeded")
  else
    let all :=
      (fix all (l : list Expression) : V (list Value) :=
         match l with
         | [] => mret []
         | e :: l' => v ← evaluate name data e (depth + 1); vs ← all l'; mret (v :: vs)
         end) in
    match kind, children with
    | KLiteral, _ => mret value
    | KVariable, _ => mret (default VNull (data !! text))
    | KMember, object :: _ =>
        v ← evaluate name data object (depth + 1);
        mret (default VNull (value_get v text))
    | KIndex, object :: key :: _ =>
        v ← evaluate name data object (depth + 1);
        k ← evaluate name data key (depth + 1);
        mret (index_value v k)
    | KArray, _ => vs ← all children; mret (VArray vs)
    | KObject, _ => vs ← all children; mret (VObject (emplace_all keys vs []))
    | KHelper, _ =>
        vs ← all children;
        rethrow (helper_failure name loc text) (lift_ (call_helper text vs))
    | KUnary, operand :: _ =>
        v ← evaluate name data operand (depth + 1);
        if text_in text ["!"]%string then mret (VBool (negb (truthy v))) else negate name loc v
    | KBinary, lhs :: rhs :: _ =>
        l ← evaluate name data lhs (depth + 1);
        if text_in text ["&&"]%string then
          if truthy l then (r ← evaluate name data rhs (depth + 1); mret (VBool (truthy r)))
          else mret (VBool false)
        else if text_in text ["||"]%string then
          if truthy l then mret (VBool true)
          else (r ← evaluate name data rhs (depth + 1); mret (VBool (truthy r)))
        else if text_in text ["??"]%string then
          if value_is_null l then evaluate name data rhs (depth + 1) else mret l
        else
          r ← evaluate name data rhs (depth + 1);
          if text_in text ["=="; "==="; "!="; "!=="]%string then
            same ← equal l r 0;
            mret (VBool (if text_in text ["!="; "!=="]%string then negb same else same))
          else compare_values name loc text l r
    | KConditional, condition :: yes :: no :: _ =>
        c ← evaluate name data condition (depth + 1);
        if truthy c then evaluate name data yes (depth + 1) else evaluate name data no (depth + 1)
    | _, _ => throw (undefined "node.children[index] out of range")
    end.

(** [value(index)] in [nodes]; a null expression is dereferenced only by mistake. *)
Definition node_value (name : bytes) (data : Data) (node : Node) (i : nat) : V Value :=
  match n_expressions node !! i with
  | Some (Some e) => evaluate name data e 0
  | _ => throw (undefined "null expression dereferenced")
  end.

(** ** Nodes *)

(** The functions that call each other, at one level of composition. *)
Record Renderers := mkRenderers {
  r_nodes : Template -> list Node -> Data -> Z -> V bytes;
  r_render : bytes -> Data -> option Value -> Z -> V bytes;
  r_block : bytes -> Data -> option Value -> Z -> V bytes
}.

Section Level.
Variable next_level : Renderers.

(** The branches of a condition: the first whose expression is null or true. *)
Fixpoint branches_loop (file : Template) (data : Data) (depth : Z) (expressions : list (option Expression))
    (branches : list (list Node)) (output : bytes) {struct branches} : V bytes :=
  match branches with
  | [] => mret output
  | branch :: rest =>
      match expressions with
      | [] => throw (undefined "node.expressions[i] out of range")
      | e :: es =>
          chosen ← match e with
                   | None => mret true
                   | Some e => v ← evaluate (t_name file) data e 0; mret (truthy v)
                   end;
          if chosen : bool then (body ← r_nodes next_level file branch data (depth + 1); append output body)
          else branches_loop file data depth es rest output
      end
  end.

(** [std::sort] of the keys of an object. *)
Fixpoint insert_key (k : bytes) (l : list bytes) : list bytes :=
  match l with
  | [] => [k]
  | x :: rest => if compare_text x k <? 0 then x :: insert_key k rest else k :: l
  end.

Definition sort_keys (l : list bytes) : list bytes := foldr insert_key [] l.

(** The items of a collection in the order of the loop, with what its key variable holds. *)
Definition loop_items (collection : Value) : list (Value * Value) :=
  match collection with
  | VArray values => imap (fun i v => (VUInt (Z.of_nat i), v)) values
  | VObject entries =>
      map (fun k => (VString k, default VNull (find_entry k entries))) (sort_keys (map fst entries))
  | _ => []
  end.

Definition loop_depth (parent : option Value) : Z :=
  match parent with
  | Some p => match value_get p (lit "depth") with Some (VUInt d) => u64 (d + 1) | _ => 1 end
  | None => 1
  end.

(** The object bound to [loop]. *)
Definition loop_variable (i count depth : Z) (parent : option Value) : Value :=
  VObject [(lit "index", VUInt i); (lit "iteration", VUInt (i + 1)); (lit "remaining", VUInt (count - i - 1));
           (lit "count", VUInt count); (lit "first", VBool (i =? 0)); (lit "last", VBool (i + 1 =? count));
           (lit "depth", VUInt depth); (lit "parent", default VNull parent)].

Fixpoint items_loop (file : Template) (node : Node) (data : Data) (depth i count ldepth : Z)
    (items : list (Value * Value)) (output : bytes) : V bytes :=
  match items with
  | [] => mret output
  | (key, item) :: rest =>
      _ ← step;
      let child := with_ (lit "this") item (with_ (n_variable node) item data) in
      let child := if bool_decide (n_key node = []) then child else with_ (n_key node) key child in
      let child := with_ (lit "loop") (loop_variable i count ldepth (data !! lit "loop")) child in
      body ← r_nodes next_level file (n_children node) child (depth + 1);
      output ← append output body;
      items_loop file node data depth (i + 1) count ldepth rest output
  end.

Definition render_loop (file : Template) (node : Node) (data : Data) (depth : Z) (output : bytes) : V bytes :=
  collection ← node_value (t_name file) data node 0;
  if negb (value_is_null collection) && negb (value_is_array collection) && negb (value_is_object collection)
  then fail (t_name file) (n_location node) (lit "Spear loops require an array, object, or null")
  else
    let items := loop_items collection in
    let count := Z.of_nat (length items) in
    if 1000000 <? count then fail (t_name file) (n_location node) (lit "View iteration limit exceeded")
    else if count =? 0 then (body ← r_nodes next_level file (n_otherwise node) data (depth + 1); append output body)
    else items_loop file node data depth 0 count (loop_depth (data !! lit "loop")) items output.

(** Run with a copy of the sections, which the caller does not see. *)
Definition with_scope {A} (m : V A) : V A := fun s =>
  let '(r, s') := m s in (r, mkSession (remaining s') (operations s') (stack s') (sections s)).

Definition render_include (file : Template) (node : Node) (data : Data) (depth : Z) (output : bytes) : V bytes :=
  child ← (if (length (n_expressions node) =? 2)%nat then
             props ← node_value (t_name file) data node 1;
             match props with
             | VObject entries => mret (with_all entries data)
             | _ => fail (t_name file) (n_location node) (lit "@include data must be an object")
             end
           else mret data);
  body ← with_scope
           (target ← node_value (t_name file) data node 0;
            r_render next_level (value_string target) child None (depth + 1));
  append output body.

(** [sections.emplace]. *)
Definition define_section (name body : bytes) : V unit := fun s =>
  (Ok tt, mkSession (remaining s) (operations s) (stack s)
            (match sections s !! name with Some _ => sections s | None => <[name := body]> (sections s) end)).

Definition find_section (name : bytes) : V (option bytes) := fun s => (Ok (sections s !! name), s).

Definition render_section (file : Template) (node : Node) (data : Data) (depth : Z) (defined : gset bytes)
    : V (gset bytes) :=
  v ← node_value (t_name file) data node 0;
  let name := value_string v in
  if bool_decide (name = []) then fail (t_name file) (n_location node) (lit "Section name cannot be empty")
  else if bool_decide (name ∈ defined)
  then fail (t_name file) (n_location node) (lit "Duplicate section definition: " ++ name)
  else
    existing ← find_section name;
    match existing with
    | Some _ => mret ({[name]} ∪ defined)
    | None =>
        body ← (if (length (n_expressions node) =? 2)%nat then
                  v ← node_value (t_name file) data node 1; lift_ (escape (value_string v))
                else r_nodes next_level file (n_children node) data (depth + 1));
        _ ← define_section name body;
        mret ({[name]} ∪ defined)
    end.

Definition render_yield (file : Template) (node : Node) (data : Data) (output : bytes) : V bytes :=
  v ← node_value (t_name file) data node 0;
  found ← find_section (value_string v);
  match found with
  | Some body => append output body
  | None =>
      if (length (n_expressions node) =? 2)%nat then
        v ← node_value (t_name file) data node 1;
        text ← lift_ (escape (value_string v));
        append output text
      else mret output
  end.

(** One turn of the loop of [nodes]: the output and the sections defined so far. *)
Definition render_node (file : Template) (node : Node) (data : Data) (depth : Z) (st : bytes * gset bytes)
    : V (bytes * gset bytes) :=
  let '(output, defined) := st in
  let to_output (m : V bytes) : V (bytes * gset bytes) := out ← m; mret (out, defined) in
  _ ← step;
  rethrow (node_failure (t_name file) (n_location node) "Included template or layout was not found"
             "Included template or layout path is invalid")
    match n_kind node with
    | NText => to_output (append output (n_text node))
    | NEscaped =>
        to_output (v ← node_value (t_name file) data node 0;
                   text ← lift_ (escape (value_string v));
                   append output text)
    | NRaw => to_output (v ← node_value (t_name file) data node 0; append output (value_string v))
    | NExtends => mret st
    | NCondition => to_output (branches_loop file data depth (n_expressions node) (n_branches node) output)
    | NLoop => to_output (render_loop file node data depth output)
    | NInclude => to_output (render_include file node data depth output)
    | NSection => d ← render_section file node data depth defined; mret (output, d)
    | NYield => to_output (render_yield file node data output)
    end.

Fixpoint nodes_loop (file : Template) (source : list Node) (data : Data) (depth : Z) (st : bytes * gset bytes)
    : V bytes :=
  match source with
  | [] => mret st.1
  | node :: rest => st ← render_node file node data depth st; nodes_loop file rest data depth st
  end.

Definition nodes_at (file : Template) (source : list Node) (data : Data) (depth : Z) : V bytes :=
  if 64 <? depth then throw (located_error (lit "View composition nesting limit exceeded") (t_name file) (mkLocation 1 1))
  else nodes_loop file source data depth ([], ∅).

(** [Session::spear]: the nodes, then the layout the template extends. *)
Definition spear_at (file : Template) (data : Data) (depth : Z) : V bytes :=
  result_ ← nodes_at file (t_nodes file) data depth;
  match List.find is_extends (t_nodes file) with
  | None => mret result_
  | Some node =>
      rethrow (node_failure (t_name file) (n_location node) "Layout template was not found" "Layout path is invalid")
        (v ← node_value (t_name file) data node 0;
         r_render next_level (value_string v) data None (depth + 1))
  end.

(** [stack_.push_back] and the [Pop] guard around a call. *)
Definition on_stack {A} (name : bytes) (m : V A) : V A := fun s =>
  let '(r, s') := m (mkSession (remaining s) (operations s) (stack s ++ [name]) (sections s)) in
  (r, mkSession (remaining s') (operations s') (stack s) (sections s')).

Definition stack_ : V (list bytes) := fun s => (Ok (stack s), s).

(** [Session::render]; [block] is [render_legacy] at this level. *)
Definition render_with (block : bytes -> Data -> option Value -> Z -> V bytes)
    (name : bytes) (data : Data) (current : option Value) (depth : Z) : V bytes :=
  if 64 <? depth then throw (plain_error (lit "View composition nesting limit exceeded"))
  else
    _ ← step;
    file ← lift_ (load name);
    st ← stack_;
    if bool_decide (t_name file ∈ st)
    then throw (located_error (lit "Cyclic view composition") (t_name file) (mkLocation 1 1))
    else
      on_stack (t_name file)
        (if negb (t_spear file) then block (t_source file) data current depth
         else
           match current with
           | Some v =>
               let adapted := match v with VObject entries => with_all entries data | _ => data end in
               spear_at file (with_ (lit "this") v adapted) depth
           | None => spear_at file data depth
           end).
End Level.
(** ** The legacy templates of [engine.cpp] *)

Definition trim_view (s : bytes) : bytes :=
  rev (span isspace (rev (span isspace s).2)).2.

(** [resolve_from]: every part must name an entry. *)
Fixpoint resolve_from (v : Value) (parts : list bytes) : option Value :=
  match parts with
  | [] => Some v
  | part :: rest =>
      if bool_decide (part = []) then None
      else match value_get v part with
           | Some w => resolve_from w rest
           | None => None
           end
  end.

(** The second loop, which a trailing separator ends. *)
Fixpoint resolve_rest (v : Value) (parts : list bytes) : option Value :=
  match parts with
  | [] => Some v
  | [[]] => Some v
  | part :: rest =>
      match value_get v part with
      | Some w => resolve_rest w rest
      | None => None
      end
  end.

Definition resolve_path (path : bytes) (data : Data) (current : option Value) : option Value :=
  let path := trim_view path in
  if bool_decide (path = lit "this") then current
  else
    let found :=
      match current with
      | Some (VObject entries) => resolve_from (VObject entries) (fields "." path)
      | _ => None
      end in
    match found with
    | Some v => Some v
    | None =>
        let '(root_name, remaining_) := until "." path in
        match data !! root_name with
        | None => None
        | Some root =>
            match remaining_ with
            | None => Some root
            | Some r => resolve_rest root (fields "." r)
            end
        end
    end.

(** The loop of [arguments]: the previous character, the current piece, the open
    quotation mark and the nesting of parentheses. *)
Fixpoint split_arguments (separator : byte) (source : bytes) (previous : option byte) (piece : bytes)
    (quote : option byte) (nested : Z) : result (list bytes) :=
  let keep (rest : list bytes) := match trim_view piece with [] => rest | part => part :: rest end in
  match source with
  | [] =>
      if bool_decide (quote <> None) || negb (nested =? 0)
      then Throw (plain_error (lit "Unclosed helper argument"))
      else Ok (keep [])
  | c :: rest =>
      match quote with
      | Some q =>
          let closed := (c =b? q) && negb (bool_decide (previous = Some x5c)) in
          split_arguments separator rest (Some c) (piece ++ [c]) (if closed then None else quote) nested
      | None =>
          if (c =b? "'") || (c =b? x22) then split_arguments separator rest (Some c) (piece ++ [c]) (Some c) nested
          else
            let nested := if c =b? "(" then nested + 1 else if c =b? ")" then nested - 1 else nested in
            if nested <? 0 then Throw (plain_error (lit "Unbalanced helper arguments"))
            else if (c =b? separator) && (nested =? 0) then
              more ← split_arguments separator rest (Some c) [] None nested;
              Ok (keep more)
            else split_arguments separator rest (Some c) (piece ++ [c]) None nested
      end
  end.

Definition legacy_arguments (source : bytes) (separator : byte) : result (list bytes) :=
  split_arguments separator source None [] None 0.

Definition last_byte (s : bytes) : option byte := last s.

(** [evaluate] of a legacy expression; the depth limit bounds the recursion. *)
Fixpoint legacy_value (fuel : nat) (expression : bytes) (data : Data) (current : option Value) (depth : Z)
    : result Value :=
  match fuel with
  | O => NoFuel
  | S f =>
      if 32 <? depth then Throw (plain_error (lit "View expression nesting limit exceeded"))
      else
        let expression := trim_view expression in
        match expression with
        | [] => Throw (plain_error (lit "Empty view expression"))
        | c :: inner =>
            if ((c =b? "'") || (c =b? x22)) && bool_decide (last_byte expression = Some c)
            then Ok (VString (take (length expression - 2) inner))
            else if bool_decide (expression = lit "true") then Ok (VBool true)
            else if bool_decide (expression = lit "false") then Ok (VBool false)
            else if bool_decide (expression = lit "null") then Ok VNull
            else
              match until "(" expression with
              | (helper, Some after) =>
                  if negb (bool_decide (last_byte expression = Some ")"%byte))
                  then Throw (plain_error (lit "Helper call is missing ')'"))
                  else
                    items ← legacy_arguments (take (length after - 1) after) ","%byte;
                    values ← mapM (fun item => legacy_value f item data current (depth + 1)) items;
                    call_helper (trim_view helper) values
              | (_, None) => Ok (default VNull (resolve_path expression data current))
              end
        end
  end.

Definition legacy_evaluate (expression : bytes) (data : Data) (current : option Value) : V Value :=
  lift_ (legacy_value 34 expression data current 0).

(** [struct Block], as texts: the body, the alternative, and what follows the block. *)
Record Block := mkBlock { b_body : bytes; b_otherwise : bytes; b_after : bytes }.

(** A tag at the head of a text: whether it is raw, its text, and what follows. *)
Definition read_tag (post : bytes) : option (bool * bytes * bytes) :=
  match strip (lit "{") post with
  | Some inner => match Text.find (lit "}}}") inner with Some (tag, r) => Some (true, tag, r) | None => None end
  | None => match Text.find (lit "}}") post with Some (tag, r) => Some (false, tag, r) | None => None end
  end.

Definition word_of (tag : bytes) : bytes := (until " " tag).1.

(** The loop of [matching]: [names] is the stack, [part] the text of the current part and
    [body] the text before the [else]. *)
Fixpoint matching (fuel : nat) (name source part : bytes) (names : list bytes) (body : option bytes) : result Block :=
  match fuel with
  | O => NoFuel
  | S f =>
      match Text.find (lit "{{") source with
      | None => Throw (plain_error (lit "Unclosed view block: " ++ name))
      | Some (pre, post) =>
          match read_tag post with
          | None => Throw (plain_error (lit "Unterminated view expression"))
          | Some (raw, inner, after) =>
              let consumed := take (length source - length after) source in
              let tag := trim_view inner in
              if raw || starts_with (lit "!") tag then matching f name after (part ++ consumed) names body
              else if starts_with (lit "#") tag
              then matching f name after (part ++ consumed) (word_of (drop 1 tag) :: names) body
              else if starts_with (lit "/") tag then
                let tag := trim_view (drop 1 tag) in
                match names with
                | top :: rest =>
                    if negb (bool_decide (top = tag))
                    then Throw (plain_error (lit "Mismatched view block: " ++ tag))
                    else
                      match rest with
                      | [] =>
                          Ok (match body with
                              | None => mkBlock (part ++ pre) [] after
                              | Some b => mkBlock b (part ++ pre) after
                              end)
                      | _ => matching f name after (part ++ consumed) rest body
                      end
                | [] => Throw (plain_error (lit "Mismatched view block: " ++ tag))
                end
              else if bool_decide (tag = lit "else") && (length names =? 1)%nat then
                match body with
                | Some _ => Throw (plain_error (lit "Duplicate else block"))
                | None => matching f name after [] names (Some (part ++ pre))
                end
              else matching f name after (part ++ consumed) names body
          end
      end
  end.

(** [name=value] props of a component or partial. *)
Fixpoint bind_props (what : string) (props : list bytes) (data : Data) (current : option Value) (child : Data) : V Data :=
  match props with
  | [] => mret child
  | p :: rest =>
      match until "=" p with
      | (_, None) => throw (plain_error (lit what))
      | (key, Some expression) =>
          v ← legacy_evaluate expression data current;
          bind_props what rest data current (with_ key v child)
      end
  end.

Section Legacy.
Variable next_level : Renderers.

Definition each_variable (i count : Z) : Value :=
  VObject [(lit "index", VUInt i); (lit "first", VBool (i =? 0)); (lit "last", VBool (i + 1 =? count));
           (lit "count", VUInt count)].

Fixpoint each_loop (body : bytes) (data : Data) (depth i count : Z) (items : list Value) (output : bytes) : V bytes :=
  match items with
  | [] => mret output
  | item :: rest =>
      _ ← step;
      text ← r_block next_level body (with_ (lit "loop") (each_variable i count) data) (Some item) (depth + 1);
      output ← append output text;
      each_loop body data depth (i + 1) count rest output
  end.

(** [state.sections[key] = body] and [state.sections = saved]. *)
Definition assign_section (name body : bytes) : V unit := fun s =>
  (Ok tt, mkSession (remaining s) (operations s) (stack s) (<[name := body]> (sections s))).

Definition all_sections : V (gmap bytes bytes) := fun s => (Ok (sections s), s).

Definition restore_sections (saved : gmap bytes bytes) : V unit := fun s =>
  (Ok tt, mkSession (remaining s) (operations s) (stack s) saved).

(** One block tag: the output with what the block renders. *)
Definition render_tag (name expression : bytes) (block : Block) (data : Data) (current : option Value) (depth : Z)
    (output : bytes) : V bytes :=
  let inner text child cur := r_block next_level text child cur (depth + 1) in
  if text_in name ["each"]%string then
    collection ← legacy_evaluate expression data current;
    match collection with
    | VArray (item :: items) =>
        each_loop (b_body block) data depth 0 (Z.of_nat (length (item :: items))) (item :: items) output
    | _ => text ← inner (b_otherwise block) data current; append output text
    end
  else if text_in name ["if"; "unless"]%string then
    v ← legacy_evaluate expression data current;
    let condition := if text_in name ["unless"]%string then negb (truthy v) else truthy v in
    text ← inner (if condition then b_body block else b_otherwise block) data current;
    append output text
  else if text_in name ["section"]%string then
    key ← legacy_evaluate expression data current;
    text ← inner (b_body block) data current;
    _ ← assign_section (value_string key) text;
    mret output
  else if text_in name ["yield"]%string then
    key ← legacy_evaluate expression data current;
    found ← find_section (value_string key);
    match found with
    | Some text => append output text
    | None => text ← inner (b_body block) data current; append output text
    end
  else if text_in name ["layout"; "component"]%string then
    params ← lift_ (legacy_arguments expression " "%byte);
    match params with
    | [] => throw (plain_error (lit "View composition requires a template name"))
    | target :: props =>
        child ← bind_props "View prop requires name=value" props data current data;
        saved ← all_sections;
        slot ← inner (b_body block) child current;
        let child := with_ (lit "content") (VString slot) (with_ (lit "slot") (VString slot) child) in
        v ← legacy_evaluate target data current;
        text ← r_render next_level (value_string v) child None (depth + 1);
        output ← append output text;
        _ ← restore_sections saved;
        mret output
    end
  else throw (plain_error (lit "Unknown view block: " ++ name)).

(** The loop of [render_block] over the tags. *)
Fixpoint block_loop (fuel : nat) (source : bytes) (data : Data) (current : option Value) (depth : Z) (output : bytes)
    : V bytes :=
  match fuel with
  | O => out_of_fuel
  | S f =>
      match source with
      | [] => mret output
      | _ =>
          _ ← step;
          match Text.find (lit "{{") source with
          | None => append output source
          | Some (pre, post) =>
              output ← append output pre;
              match read_tag post with
              | None => throw (plain_error (lit "Unterminated view expression"))
              | Some (raw, inner, after) =>
                  let tag := trim_view inner in
                  if starts_with (lit "!") tag then block_loop f after data current depth output
                  else if starts_with (lit "/") tag || bool_decide (tag = lit "else")
                  then throw (plain_error (lit "Unexpected view closing block"))
                  else if starts_with (lit "#") tag then
                    let '(name, expression) := until " " (drop 1 tag) in
                    let expression := match expression with Some e => trim_view e | None => [] end in
                    block ← lift_ (matching (S (length after)) name after [] [name] None);
                    output ← render_tag name expression block data current depth output;
                    block_loop f (b_after block) data current depth output
                  else if starts_with (lit ">") tag then
                    params ← lift_ (legacy_arguments (trim_view (drop 1 tag)) " "%byte);
                    match params with
                    | [] => throw (plain_error (lit "Partial requires a template name"))
                    | target :: props =>
                        child ← bind_props "Partial prop requires name=value" props data current data;
                        v ← legacy_evaluate target data current;
                        text ← r_render next_level (value_string v) child current (depth + 1);
                        output ← append output text;
                        block_loop f after data current depth output
                    end
                  else
                    v ← legacy_evaluate tag data current;
                    text ← (if raw : bool then mret (value_string v) else lift_ (escape (value_string v)));
                    output ← append output text;
                    block_loop f after data current depth output
              end
          end
      end
  end.

(** [render_block]. *)
Definition block_at (source : bytes) (data : Data) (current : option Value) (depth : Z) : V bytes :=
  if 64 <? depth then throw (plain_error (lit "View composition nesting limit exceeded"))
  else block_loop (S (length source)) source data current depth [].
End Legacy.

(** ** The engine *)

Fixpoint render_at (fuel : nat) : Renderers :=
  match fuel with
  | O => mkRenderers (fun _ _ _ _ => out_of_fuel) (fun _ _ _ _ => out_of_fuel) (fun _ _ _ _ => out_of_fuel)
  | S f =>
      let n := render_at f in
      mkRenderers (nodes_at n) (render_with n (block_at n)) (block_at n)
  end.

(** Depth 65 is refused, so 66 levels are enough. *)
Definition level : nat := 66.

(** [Engine::render], [render_text] and [render_spear_text]. *)
Definition engine_render (name : bytes) (data : Data) : result bytes :=
  (r_render (render_at level) name data None 0 fresh_session).1.

Definition render_text (source : bytes) (data : Data) : result bytes :=
  if source_limit <? Z.of_nat (length source) then Throw (plain_error (lit "View source limit exceeded"))
  else (r_block (render_at level) source data None 0 fresh_session).1.

Definition render_spear_text (source : bytes) (data : Data) (name : bytes) : result bytes :=
  file ← compile name source true;
  (spear_at (render_at (level - 1)) file data 0 fresh_session).1.
End Renderer.
