(* ===== verification/SpearFacts.v ===== *)
(** * What rendering guarantees

    Interpolated data cannot leave its place: the output of templates without raw
    interpolation is made of their own text and of escaped data.  The output stays within
    its budget, rendering ends, and numbers are compared exactly. *)

From S2P Require Import Prelude Numeral Text Double DoubleFacts Json View SpearParser Spear.

#[local] Arguments lit : simpl never.

(** ** Escaping *)

(** The characters that delimit tags and attribute values. *)
Definition markup (c : byte) : bool := (c =b? "<") || (c =b? ">") || (c =b? "'") || (c =b? x22).

(** The five entities, read back; [skip] characters belong to the last one. *)
Fixpoint decode (skip : nat) (s : bytes) : bytes :=
  match s with
  | [] => []
  | c :: s' =>
      match skip with
      | S n => decode n s'
      | O =>
          if starts_with (lit "&amp;") s then "&"%byte :: decode 4 s'
          else if starts_with (lit "&lt;") s then "<"%byte :: decode 3 s'
          else if starts_with (lit "&gt;") s then ">"%byte :: decode 3 s'
          else if starts_with (lit "&#39;") s then "'"%byte :: decode 4 s'
          else if starts_with (lit "&quot;") s then x22 :: decode 5 s'
          else c :: decode 0 s'
      end
  end.

Lemma escape_loop_inv s acc r : escape_loop s acc = Ok r -> r = acc ++ (s ≫= encoded).
Proof.
  revert acc. induction s as [|c s IH]; intros acc H; cbn [escape_loop] in H.
  - injection H as <-. by rewrite app_nil_r.
  - case_match; [done|]. apply IH in H as ->. by rewrite <-(assoc_L (++)).
Qed.

Lemma escape_inv s r : escape s = Ok r -> r = s ≫= encoded.
Proof. unfold escape. case_match; [done|]. apply escape_loop_inv. Qed.

Lemma encoded_clean c : existsb markup (encoded c) = false.
Proof.
  assert (negb (existsb markup (encoded c)) = true) as H by by_bytes. by apply negb_true_iff.
Qed.

Lemma escape_clean s r : escape s = Ok r -> existsb markup r = false.
Proof.
  intros ->%escape_inv. induction s as [|c s IH]; [done|]. cbn [mbind list_bind].
  by rewrite existsb_app, encoded_clean, IH.
Qed.

Lemma decode_encoded c s : decode 0 (encoded c ++ s) = c :: decode 0 s.
Proof.
  unfold encoded. destruct (c =b? "&") eqn:E1; [reflect_bools; done|].
  destruct (c =b? "<") eqn:E2; [reflect_bools; done|]. destruct (c =b? ">") eqn:E3; [reflect_bools; done|].
  destruct (c =b? "'") eqn:E4; [reflect_bools; done|]. destruct (c =b? x22) eqn:E5; [reflect_bools; done|].
  cbn [app decode]. assert (forall p, head p = Some "&"%byte -> starts_with p (c :: s) = false) as Hno.
  { intros [|d p] Hp; [done|]. injection Hp as ->. unfold starts_with. destruct (strip _ _) eqn:E; [|done].
    apply strip_inv in E. apply byte_eqb_false in E1. by injection E as ->. }
  by rewrite !Hno by done.
Qed.

(** Escaping is safe and loses nothing: the result has no character that ends a tag or
    an attribute value, and reading its entities gives the text back. *)
Theorem escape_roundtrip s r : escape s = Ok r -> existsb markup r = false /\ decode 0 r = s.
Proof.
  intros H. split; [by eapply escape_clean|]. apply escape_inv in H as ->.
  induction s as [|c s IH]; [done|]. cbn [mbind list_bind]. by rewrite decode_encoded, IH.
Qed.

Lemma escape_roundtrip_witness :
  let s := lit "<a href='x'> & co" in let r := lit "&lt;a href=&#39;x&#39;&gt; &amp; co" in
  escape s = Ok r /\ existsb markup r = false /\ decode 0 r = s.
Proof. intros s r. split; [reflexivity|]. apply escape_roundtrip. reflexivity. Defined.

(** ** Triples

    [keeps I m Q]: from a session that satisfies [I], a value [m] returns satisfies [Q]
    and [I] holds again. *)
Section Triples.
Variable I : Session -> Prop.

Definition keeps {A} (m : V A) (Q : A -> Prop) : Prop :=
  forall s, I s -> match m s with (Ok a, s') => Q a /\ I s' | _ => True end.

Lemma keeps_ret {A} (a : A) (Q : A -> Prop) : Q a -> keeps (mret a) Q.
Proof. intros HQ s Hs. by split. Qed.

Lemma keeps_bind {A B} (m : V A) (f : A -> V B) (P : A -> Prop) (Q : B -> Prop) :
  keeps m P -> (forall a, P a -> keeps (f a) Q) -> keeps (m ≫= f) Q.
Proof.
  intros Hm Hf s Hs. specialize (Hm s Hs). unfold mbind, eff_bind. destruct (m s) as [[a|e|] s']; [|done..].
  destruct Hm as [Ha Hs']. exact (Hf a Ha s' Hs').
Qed.

Lemma keeps_throw {A} (e : exn) (Q : A -> Prop) : keeps (throw e) Q.
Proof. by intros s Hs. Qed.

Lemma keeps_lift {A} (r : result A) (Q : A -> Prop) : (forall a, r = Ok a -> Q a) -> keeps (lift_ r) Q.
Proof. intros HQ s Hs. unfold lift_. destruct r as [a|e|]; [|done..]. by split; [apply HQ|]. Qed.

Lemma keeps_rethrow {A} f (m : V A) (Q : A -> Prop) : keeps m Q -> keeps (rethrow f m) Q.
Proof.
  intros Hm s Hs. specialize (Hm s Hs). unfold rethrow, try_catch. destruct (m s) as [[a|e|] s']; [done| |done].
  by destruct (catchable e).
Qed.

Lemma keeps_impl {A} (m : V A) (P Q : A -> Prop) : (forall a, P a -> Q a) -> keeps m P -> keeps m Q.
Proof. intros HPQ Hm s Hs. specialize (Hm s Hs). destruct (m s) as [[a|e|] s']; [|done..]. destruct Hm; auto. Qed.

Lemma keeps_true {A} (m : V A) (Q : A -> Prop) : keeps m Q -> keeps m (fun _ => True).
Proof. by apply keeps_impl. Qed.
End Triples.

(** A computation that leaves the sections and the output budget alone. *)
Definition pure_output {A} (m : V A) : Prop :=
  forall s, (sections (m s).2, remaining (m s).2) = (sections s, remaining s).

Lemma pure_ret {A} (a : A) : pure_output (mret a).
Proof. by intros s. Qed.

Lemma pure_throw {A} e : pure_output (A := A) (throw e).
Proof. by intros s. Qed.

Lemma pure_lift {A} (r : result A) : pure_output (lift_ r).
Proof. by intros s. Qed.

Lemma pure_step : pure_output step.
Proof. intros s. unfold step. by case_match. Qed.

Lemma pure_bind {A B} (m : V A) (f : A -> V B) :
  pure_output m -> (forall a, pure_output (f a)) -> pure_output (m ≫= f).
Proof.
  intros Hm Hf s. specialize (Hm s). unfold mbind, eff_bind. destruct (m s) as [[a|e|] s']; [|done..].
  cbn in Hm. by rewrite Hf.
Qed.

Lemma pure_rethrow {A} f (m : V A) : pure_output m -> pure_output (rethrow f m).
Proof.
  intros Hm s. specialize (Hm s). unfold rethrow, try_catch. destruct (m s) as [[a|e|] s']; [done| |done].
  by destruct (catchable e).
Qed.

Create HintDb pure.
#[export] Hint Resolve pure_ret pure_throw pure_lift pure_step pure_bind pure_rethrow : pure.

(** Peel binds and case distinctions off a computation. *)
Ltac pure_steps :=
  repeat first
    [ progress intros
    | apply pure_bind
    | solve [auto with pure]
    | match goal with |- pure_output (match ?e with _ => _ end) => destruct e end ].

Lemma pure_equal left right depth : pure_output (equal left right depth).
Proof.
  revert right depth. induction left as [|b|z|z|d|t|l IH|l IH] using Value_ind; intros right depth; cbn [equal];
    try solve [pure_steps; unfold fail; pure_steps].
  - apply pure_bind; [auto with pure|intros _]. destruct (64 <? depth); [auto with pure|].
    destruct (_ && is_number_value right); [auto with pure|]. destruct (negb (same_alternative _ _)); [auto with pure|].
    destruct right as [| | | | | |r|r]; try solve [auto with pure]. destruct (negb _); [auto with pure|]. revert r.
    induction IH as [|x l Hx _ IHl]; intros r; [auto with pure|]. destruct r as [|y r]; [auto with pure|].
    apply pure_bind; [apply Hx|]. intros []; [apply IHl|auto with pure].
  - apply pure_bind; [auto with pure|intros _]. destruct (64 <? depth); [auto with pure|].
    destruct (_ && is_number_value right); [auto with pure|]. destruct (negb (same_alternative _ _)); [auto with pure|].
    destruct right as [| | | | | |r|r]; try solve [auto with pure]. destruct (negb _); [auto with pure|].
    induction IH as [|[k x] l Hx _ IHl]; [auto with pure|].
    destruct (find_entry k _) as [y|]; [|auto with pure].
    apply pure_bind; [apply Hx|]. intros []; [apply IHl|auto with pure].
Qed.
#[export] Hint Resolve pure_equal : pure.

(** ** Expressions leave the output alone *)
Section Evaluation.
Variable helpers : bytes -> option (list Value -> result Value).

Lemma pure_negate name l v : pure_output (negate name l v).
Proof. unfold negate, fail. destruct v as [| | | |[]| | |]; pure_steps. Qed.

Lemma pure_compare name l op a b : pure_output (compare_values name l op a b).
Proof. unfold compare_values, fail. pure_steps. Qed.

Lemma pure_evaluate name data e depth : pure_output (evaluate helpers name data e depth).
Proof.
  revert depth. induction e as [k loc text v children keys h IH] using Expression_ind; intros depth. cbn [evaluate].
  apply pure_bind; [auto with pure|intros _]. destruct (64 <? depth); [apply pure_throw|].
  set (all := fix all (l : list Expression) : V (list Value) := _).
  assert (pure_output (all children)) as Hall.
  { induction IH as [|e l He _ IHl]; [apply pure_ret|]. cbn. apply pure_bind; [apply He|]. intros.
    apply pure_bind; [apply IHl|]. intros. apply pure_ret. }
  clearbody all. destruct k, children as [|c1 [|c2 [|c3 cs]]]; rewrite ?Forall_cons in IH;
    destruct_and?; pure_steps; eauto using pure_negate, pure_compare with pure.
Qed.

Lemma pure_node_value name data node i : pure_output (node_value helpers name data node i).
Proof. unfold node_value. destruct (_ !! i) as [[e|]|]; auto using pure_evaluate with pure. Qed.
End Evaluation.

(** ** Templates without raw interpolation *)

Fixpoint raw_free (n : Node) : bool :=
  let '(mkNode kind _ _ _ _ _ children otherwise branches) := n in
  negb (bool_decide (kind = NRaw)) &&
  (fix all (l : list Node) := match l with [] => true | m :: l' => raw_free m && all l' end) children &&
  (fix all (l : list Node) := match l with [] => true | m :: l' => raw_free m && all l' end) otherwise &&
  (fix alls (ls : list (list Node)) :=
     match ls with
     | [] => true
     | l :: ls' =>
         (fix all (l : list Node) := match l with [] => true | m :: l' => raw_free m && all l' end) l && alls ls'
     end) branches.

(** The text of a template and of the parts of its nodes. *)
Fixpoint node_texts (n : Node) : list bytes :=
  let '(mkNode kind _ text _ _ _ children otherwise branches) := n in
  let texts := fix all (l : list Node) := match l with [] => [] | m :: l' => node_texts m ++ all l' end in
  text :: texts children ++ texts otherwise ++
  (fix alls (ls : list (list Node)) := match ls with [] => [] | l :: ls' => texts l ++ alls ls' end) branches.

Definition all_raw_free (l : list Node) : bool := forallb raw_free l.
Definition all_texts (l : list Node) : list bytes := l ≫= node_texts.

Lemma raw_free_unfold n :
  raw_free n = true ->
  n_kind n <> NRaw /\ all_raw_free (n_children n) = true /\ all_raw_free (n_otherwise n) = true /\
  Forall (fun l => all_raw_free l = true) (n_branches n).
Proof.
  destruct n as [k loc text key var es children otherwise branches]. cbn [raw_free n_kind n_children n_otherwise n_branches].
  intros [[[Hk Hc]%andb_prop Ho]%andb_prop Hb]%andb_prop.
  assert (forall l, (fix all (l : list Node) := match l with [] => true | m :: l' => raw_free m && all l' end) l
                    = all_raw_free l) as E
    by (intros l; unfold all_raw_free; induction l as [|m l IHl]; [done|]; cbn [forallb]; by rewrite <-IHl).
  rewrite E in Hc, Ho. split; [by apply negb_true_iff, bool_decide_eq_false in Hk|]. split; [done|]. split; [done|].
  induction branches as [|l ls IH]; [constructor|]. apply andb_prop in Hb as [Hl Hb].
  rewrite E in Hl. constructor; [done|]. by apply IH.
Qed.

Lemma node_texts_unfold n :
  node_texts n = n_text n :: all_texts (n_children n) ++ all_texts (n_otherwise n) ++ (n_branches n ≫= all_texts).
Proof.
  destruct n as [k loc text key var es children otherwise branches]. cbn [node_texts n_text n_children n_otherwise n_branches].
  assert (forall l, (fix all (l : list Node) := match l with [] => [] | m :: l' => node_texts m ++ all l' end) l
                    = all_texts l) as E
    by (intros l; unfold all_texts; induction l as [|m l IHl]; [done|]; cbn [mbind list_bind]; by rewrite <-IHl).
  by rewrite !E.
Qed.

(** ** Output made of template text and escaped data *)
Section Woven.
Variable helpers : bytes -> option (list Value -> result Value).
Variable load : bytes -> result Template.
(** The texts the templates may contribute. *)
Variable T : bytes -> Prop.

Definition piece (p : bytes) : Prop := T p \/ exists s, escape s = Ok p.

Definition woven (out : bytes) : Prop := exists pieces, out = concat pieces /\ Forall piece pieces.

(** A template that may be rendered: Spear, without raw interpolation, texts in [T]. *)
Definition fits (l : list Node) : Prop := all_raw_free l = true /\ Forall T (all_texts l).

Hypothesis load_ok : forall name t, load name = Ok t -> t_spear t = true /\ fits (t_nodes t).

Definition sections_woven (s : Session) : Prop := forall k b, sections s !! k = Some b -> woven b.

Abbreviation keeps_ := (keeps sections_woven).

Lemma woven_nil : woven [].
Proof. by exists []. Qed.

Lemma woven_app a b : woven a -> woven b -> woven (a ++ b).
Proof.
  intros (p & -> & Hp) (q & -> & Hq). exists (p ++ q). rewrite concat_app. split; [done|]. by apply Forall_app.
Qed.

Lemma woven_text t : T t -> woven t.
Proof. intros Ht. exists [t]. cbn. rewrite app_nil_r. split; [done|]. constructor; [by left|done]. Qed.

Lemma woven_escape s t : escape s = Ok t -> woven t.
Proof. intros Ht. exists [t]. cbn. rewrite app_nil_r. split; [done|]. constructor; [right; by exists s|done]. Qed.

Lemma keeps_pure {A} (m : V A) : pure_output m -> keeps_ m (fun _ => True).
Proof.
  intros Hm s Hs. specialize (Hm s). destruct (m s) as [[a|e|] s']; [|done..]. split; [done|].
  injection Hm as Hm _. unfold sections_woven. by rewrite Hm.
Qed.

Lemma keeps_append output value : woven output -> woven value -> keeps_ (append output value) woven.
Proof.
  intros Ho Hv s Hs. unfold append. destruct (remaining s <? _); [done|]. split; [by apply woven_app|done].
Qed.

Lemma keeps_escape v : keeps_ (lift_ (escape (value_string v))) woven.
Proof. apply keeps_lift. intros t Ht. by eapply woven_escape. Qed.

Lemma keeps_value name data node i : keeps_ (node_value helpers name data node i) (fun _ => True).
Proof. apply keeps_pure, pure_node_value. Qed.

Lemma keeps_step : keeps_ step (fun _ => True).
Proof. apply keeps_pure, pure_step. Qed.

(** What the functions of one level owe to the next. *)
Definition level_ok (r : Renderers) : Prop :=
  (forall file source data depth, fits source -> keeps_ (r_nodes r file source data depth) woven) /\
  (forall name data current depth, keeps_ (r_render r name data current depth) woven).

Section Level.
Variable next_level : Renderers.
Hypothesis next_ok : level_ok next_level.

Lemma keeps_nodes file source data depth : fits source -> keeps_ (r_nodes next_level file source data depth) woven.
Proof. apply next_ok. Qed.

Lemma keeps_render name data current depth : keeps_ (r_render next_level name data current depth) woven.
Proof. apply next_ok. Qed.

Lemma branches_woven file data depth es branches output :
  woven output -> Forall fits branches ->
  keeps_ (branches_loop helpers next_level file data depth es branches output) woven.
Proof.
  intros Ho Hb. revert es. induction Hb as [|l ls Hl _ IH]; intros es; cbn [branches_loop]; [by apply keeps_ret|].
  destruct es as [|e es]; [apply keeps_throw|]. eapply keeps_bind with (P := fun _ => True).
  - destruct e as [e|]; [|by apply keeps_ret]. eapply keeps_bind; [apply keeps_pure, pure_evaluate|].
    intros. by apply keeps_ret.
  - intros [] _; [|apply IH]. eapply keeps_bind; [by apply keeps_nodes|]. intros. by apply keeps_append.
Qed.

Lemma items_woven file node data depth i count ld items output :
  woven output -> fits (n_children node) ->
  keeps_ (items_loop next_level file node data depth i count ld items output) woven.
Proof.
  intros Ho Hc. revert i output Ho. induction items as [|[key item] items IH]; intros i output Ho; cbn [items_loop].
  { by apply keeps_ret. }
  eapply keeps_bind; [apply keeps_step|]. intros _ _. eapply keeps_bind; [by apply keeps_nodes|]. intros body Hb.
  eapply keeps_bind; [by apply keeps_append|]. intros out Hout. by apply IH.
Qed.

Lemma loop_woven file node data depth output :
  woven output -> fits (n_children node) -> fits (n_otherwise node) ->
  keeps_ (render_loop helpers next_level file node data depth output) woven.
Proof.
  intros Ho Hc Hw. unfold render_loop. eapply keeps_bind; [apply keeps_value|]. intros v _.
  destruct (negb _ && _ && _); [apply keeps_throw|]. destruct (1000000 <? _); [apply keeps_throw|].
  destruct (_ =? 0); [|by apply items_woven]. eapply keeps_bind; [by apply keeps_nodes|].
  intros. by apply keeps_append.
Qed.

Lemma scope_woven {A} (m : V A) Q : keeps_ m Q -> keeps_ (with_scope m) Q.
Proof.
  intros Hm s Hs. specialize (Hm s Hs). unfold with_scope. destruct (m s) as [[a|e|] s']; [|done..].
  by destruct Hm.
Qed.

Lemma include_woven file node data depth output :
  woven output -> keeps_ (render_include helpers next_level file node data depth output) woven.
Proof.
  intros Ho. unfold render_include. eapply keeps_bind with (P := fun _ => True).
  - destruct (_ =? _)%nat; [|by apply keeps_ret]. eapply keeps_bind; [apply keeps_value|]. intros [] _;
      first [apply keeps_throw|by apply keeps_ret].
  - intros child _. eapply keeps_bind with (P := woven).
    + apply scope_woven. eapply keeps_bind; [apply keeps_value|]. intros. apply keeps_render.
    + intros. by apply keeps_append.
Qed.

Lemma section_woven file node data depth defined :
  fits (n_children node) ->
  keeps_ (render_section helpers next_level file node data depth defined) (fun _ => True).
Proof.
  intros Hc. unfold render_section. eapply keeps_bind; [apply keeps_value|]. intros v _.
  destruct (bool_decide _); [apply keeps_throw|]. destruct (bool_decide _); [apply keeps_throw|].
  eapply keeps_bind with (P := fun _ => True); [by apply keeps_pure|]. intros [] _; [by apply keeps_ret|].
  eapply keeps_bind with (P := woven).
  - destruct (_ =? _)%nat; [|by apply keeps_nodes]. eapply keeps_bind; [apply keeps_value|]. intros. apply keeps_escape.
  - intros body Hb. eapply keeps_bind with (P := fun _ => True); [|intros; by apply keeps_ret].
    intros s Hs. unfold define_section. split; [done|]. intros k b. cbn [sections].
    destruct (sections s !! _) eqn:E; [apply Hs|]. intros [[<- <-]|[_ ?]]%lookup_insert_Some; [done|by eapply Hs].
Qed.

Lemma yield_woven file node data output : woven output -> keeps_ (render_yield helpers file node data output) woven.
Proof.
  intros Ho. unfold render_yield. eapply keeps_bind; [apply keeps_value|]. intros v _.
  eapply keeps_bind with (P := fun found => forall b, found = Some b -> woven b).
  { intros s Hs. unfold find_section. split; [|done]. intros b. apply Hs. }
  intros [body|] Hb; [by apply keeps_append; [|apply Hb]|].
  destruct (_ =? _)%nat; [|by apply keeps_ret]. eapply keeps_bind; [apply keeps_value|]. intros v' _.
  eapply keeps_bind; [apply keeps_escape|]. intros. by apply keeps_append.
Qed.

Lemma fits_cons n l : fits (n :: l) ->
  fits l /\ raw_free n = true /\ T (n_text n) /\ fits (n_children n) /\ fits (n_otherwise n) /\ Forall fits (n_branches n).
Proof.
  unfold fits, all_raw_free, all_texts. cbn [forallb mbind list_bind]. intros [[Hn Hl]%andb_prop Ht].
  apply Forall_app in Ht as [Htn Htl]. rewrite node_texts_unfold in Htn. apply Forall_cons in Htn as [Ht0 Htn].
  apply Forall_app in Htn as [Hc Htn]. apply Forall_app in Htn as [Hw Hb].
  destruct (raw_free_unfold n Hn) as (_ & Rc & Rw & Rb). split_and!; try done.
  clear -Hb Rb. induction Rb as [|l ls Hl _ IH]; [constructor|]. cbn [mbind list_bind] in Hb.
  apply Forall_app in Hb as [? ?]. constructor; [done|]. by apply IH.
Qed.

Lemma nodes_woven file source data depth st :
  fits source -> woven st.1 -> keeps_ (nodes_loop helpers next_level file source data depth st) woven.
Proof.
  revert st. induction source as [|n source IH]; intros [output defined] Hf Ho; cbn [nodes_loop]; [by apply keeps_ret|].
  apply fits_cons in Hf as (Hf & Hn & Ht & Hc & Hw & Hb).
  apply raw_free_unfold in Hn as [Hraw _].
  eapply keeps_bind with (P := fun st' => woven st'.1); [|intros st' Hst; by apply IH].
  unfold render_node. cbn [fst] in Ho. eapply keeps_bind; [apply keeps_step|]. intros _ _. apply keeps_rethrow.
  assert (forall m, keeps_ m woven -> keeps_ (m ≫= fun out => mret (out, defined)) (fun st' => woven st'.1)) as Hout.
  { intros m Hm. eapply keeps_bind; [exact Hm|]. intros. by apply keeps_ret. }
  destruct (n_kind n) eqn:Hk.
  - apply Hout, keeps_append; [done|]. by apply woven_text.
  - apply Hout. eapply keeps_bind; [apply keeps_value|]. intros v _. eapply keeps_bind; [apply keeps_escape|].
    intros. by apply keeps_append.
  - done.
  - apply Hout. by apply branches_woven.
  - apply Hout. by apply loop_woven.
  - apply Hout. by apply include_woven.
  - eapply keeps_bind; [by apply section_woven|]. intros. by apply keeps_ret.
  - apply Hout. by apply yield_woven.
  - by apply keeps_ret.
Qed.

Lemma spear_woven file data depth :
  fits (t_nodes file) -> keeps_ (spear_at helpers next_level file data depth) woven.
Proof.
  intros Hf. unfold spear_at. eapply keeps_bind with (P := woven).
  - unfold nodes_at. destruct (64 <? depth); [apply keeps_throw|]. apply nodes_woven; [done|apply woven_nil].
  - intros r Hr. destruct (List.find _ _) as [node|]; [|by apply keeps_ret]. apply keeps_rethrow.
    eapply keeps_bind; [apply keeps_value|]. intros. apply keeps_render.
Qed.

Lemma level_step block : level_ok (mkRenderers (nodes_at helpers next_level) (render_with helpers load next_level block) block).
Proof.
  split; cbn [r_nodes r_render].
  - intros file source data depth Hf. unfold nodes_at. destruct (64 <? depth); [apply keeps_throw|].
    apply nodes_woven; [done|apply woven_nil].
  - intros name data current depth. unfold render_with. destruct (64 <? depth); [apply keeps_throw|].
    eapply keeps_bind; [apply keeps_step|]. intros _ _.
    eapply keeps_bind with (P := fun t => t_spear t = true /\ fits (t_nodes t)).
    { apply keeps_lift. intros t Ht. by eapply load_ok. }
    intros t [Hsp Hf]. eapply keeps_bind with (P := fun _ => True); [by apply keeps_pure|]. intros st _.
    destruct (bool_decide _); [apply keeps_throw|]. rewrite Hsp. cbn [negb].
    assert (forall m, keeps_ m woven -> keeps_ (on_stack (t_name t) m) woven) as Hstack.
    { intros m Hm s Hs. unfold on_stack.
      specialize (Hm (mkSession (remaining s) (operations s) (stack s ++ [t_name t]) (sections s)) Hs).
      destruct (m _) as [[a|e|] s']; [|done..]. by destruct Hm. }
    apply Hstack. destruct current as [v|]; by apply spear_woven.
Qed.
End Level.

Lemma all_levels fuel : level_ok (render_at helpers load fuel).
Proof.
  induction fuel as [|f IH]; cbn [render_at]; [|by apply level_step]. split; intros; intros s Hs; exact I.
Qed.

(** C8. Data cannot become markup: the output of templates without raw interpolation is a
    sequence of pieces, each a text of a template or free of the characters that delimit
    tags and attribute values, whatever the data and the helpers are. *)
Theorem rendered_woven name data out :
  engine_render helpers load name data = Ok out ->
  exists pieces, out = concat pieces /\ Forall (fun p => T p \/ existsb markup p = false) pieces.
Proof.
  unfold engine_render. intros H. destruct (all_levels level) as [_ Hr].
  assert (sections_woven fresh_session) as Hs by (intros k b Hk; cbn in Hk; by rewrite lookup_empty in Hk).
  specialize (Hr name data None 0 fresh_session Hs). destruct (r_render _ _ _ _ _ _) as [r s']. cbn in H. subst r.
  destruct Hr as [(pieces & -> & Hp) _]. exists pieces. split; [done|]. eapply Forall_impl; [exact Hp|].
  intros p [Ht|[s Hs']]; [by left|right]. by eapply escape_clean.
Qed.
End Woven.

(** ** The output budget

    [spends n size m]: what [m] returns is paid for by the credit [n] and the output
    budget it uses up. *)
Definition spends {A} (n : Z) (size : A -> Z) (m : V A) : Prop :=
  forall s a s', m s = (Ok a, s') -> 0 <= remaining s ->
  0 <= remaining s' /\ size a + remaining s' <= n + remaining s.

Abbreviation len := (fun out : bytes => Z.of_nat (length out)).

Lemma spends_ret {A} n (size : A -> Z) a : size a <= n -> spends n size (mret a).
Proof. intros Ha s b s' [= <- <-] Hs. lia. Qed.

Lemma spends_throw {A} n (size : A -> Z) e : spends n size (throw e).
Proof. by intros s b s'. Qed.

Lemma spends_bind {A B} n (size : A -> Z) (size' : B -> Z) (m : V A) (f : A -> V B) :
  spends n size m -> (forall a, spends (size a) size' (f a)) -> spends n size' (m ≫= f).
Proof.
  intros Hm Hf s b s' (a & s1 & H1 & H2)%eff_bind_inv Hs. destruct (Hm _ _ _ H1 Hs) as [? ?].
  destruct (Hf _ _ _ _ H2) as [? ?]; [done|]. lia.
Qed.

Lemma spends_frame {A} n k (size : A -> Z) m : spends n size m -> spends (n + k) (fun a => size a + k) m.
Proof. intros Hm s a s' H Hs. destruct (Hm _ _ _ H Hs). lia. Qed.

Lemma spends_pure {A} n (m : V A) : pure_output m -> spends n (fun _ => n) m.
Proof. intros Hm s a s' H Hs. specialize (Hm s). rewrite H in Hm. injection Hm as _ Hm. cbn in Hm. lia. Qed.

Lemma spends_rethrow {A} n (size : A -> Z) f m : spends n size m -> spends n size (rethrow f m).
Proof.
  intros Hm s a s' H Hs. apply (Hm s a s'); [|done]. unfold rethrow, try_catch in H.
  destruct (m s) as [[b|e|] s1]; [done| |done]. by destruct (catchable e).
Qed.

Lemma spends_append output value : spends (len output) len (append output value).
Proof.
  intros s a s' H Hs. unfold append in H. destruct (remaining s <? _) eqn:E; [done|]. reflect_bools.
  injection H as <- <-. cbn [remaining]. rewrite length_app. lia.
Qed.

(** The credit is kept while a text is rendered. *)
Lemma spends_keep n (m : V bytes) : spends 0 len m -> spends n (fun _ => n) m.
Proof. intros Hm s a s' H Hs. destruct (Hm _ _ _ H Hs). lia. Qed.

Section Budget.
Variable helpers : bytes -> option (list Value -> result Value).
Variable load : bytes -> result Template.

Definition level_spends (r : Renderers) : Prop :=
  (forall file source data depth, spends 0 len (r_nodes r file source data depth)) /\
  (forall name data current depth, spends 0 len (r_render r name data current depth)) /\
  (forall source data current depth, spends 0 len (r_block r source data current depth)).

Section Level.
Variable next_level : Renderers.
Hypothesis next_ok : level_spends next_level.

Lemma spends_value n name data node i : spends n (fun _ => n) (node_value helpers name data node i).
Proof. apply spends_pure, pure_node_value. Qed.

Lemma spends_step n : spends n (fun _ => n) step.
Proof. apply spends_pure, pure_step. Qed.

Lemma spends_nodes n file source data depth : spends n (fun _ => n) (r_nodes next_level file source data depth).
Proof. apply spends_keep, next_ok. Qed.

Lemma spends_render n name data current depth : spends n (fun _ => n) (r_render next_level name data current depth).
Proof. apply spends_keep. destruct next_ok as (_ & H & _). apply H. Qed.

Lemma spends_block n source data current depth : spends n (fun _ => n) (r_block next_level source data current depth).
Proof. apply spends_keep. destruct next_ok as (_ & _ & H). apply H. Qed.

Lemma spends_lift {A} n (r : result A) : spends n (fun _ => n) (lift_ r).
Proof. apply spends_pure, pure_lift. Qed.

Lemma branches_spends file data depth es branches output :
  spends (len output) len (branches_loop helpers next_level file data depth es branches output).
Proof.
  revert es. induction branches as [|l ls IH]; intros es; cbn [branches_loop]; [by apply spends_ret|].
  destruct es as [|e es]; [apply spends_throw|]. eapply spends_bind.
  - destruct e as [e|]; [|by apply (spends_ret _ (fun _ => len output))].
    eapply spends_bind; [apply spends_pure, pure_evaluate|]. intros. by apply (spends_ret _ (fun _ => len output)).
  - intros []; [|apply IH]. eapply spends_bind; [apply spends_nodes|]. intros. apply spends_append.
Qed.

Lemma items_spends file node data depth i count ld items output :
  spends (len output) len (items_loop next_level file node data depth i count ld items output).
Proof.
  revert i output. induction items as [|[key item] items IH]; intros i output; cbn [items_loop]; [by apply spends_ret|].
  eapply spends_bind; [apply spends_step|]. intros []. eapply spends_bind; [apply spends_nodes|]. intros body.
  eapply spends_bind; [apply spends_append|]. intros out. apply IH.
Qed.

Lemma render_node_spends file node data depth st :
  spends (len st.1) (fun st' => len st'.1) (render_node helpers next_level file node data depth st).
Proof.
  destruct st as [output defined]. unfold render_node. cbn [fst].
  eapply spends_bind; [apply spends_step|]. intros []. apply spends_rethrow.
  assert (forall m, spends (len output) len m ->
            spends (len output) (fun st' : bytes * gset bytes => len st'.1) (m ≫= fun out => mret (out, defined))) as Hout.
  { intros m Hm. eapply spends_bind; [exact Hm|]. intros. by apply spends_ret. }
  destruct (n_kind node).
  - apply Hout, spends_append.
  - apply Hout. eapply spends_bind; [apply spends_value|]. intros v. eapply spends_bind; [apply spends_lift|].
    intros. apply spends_append.
  - apply Hout. eapply spends_bind; [apply spends_value|]. intros. apply spends_append.
  - apply Hout, branches_spends.
  - apply Hout. unfold render_loop. eapply spends_bind; [apply spends_value|]. intros v.
    destruct (negb _ && _ && _); [apply spends_throw|]. destruct (1000000 <? _); [apply spends_throw|].
    destruct (_ =? 0); [|apply items_spends]. eapply spends_bind; [apply spends_nodes|]. intros. apply spends_append.
  - apply Hout. unfold render_include. eapply spends_bind with (size := fun _ => len output).
    + destruct (_ =? _)%nat; [|by apply (spends_ret _ (fun _ => len output))].
      eapply spends_bind; [apply spends_value|]. intros []; first [apply spends_throw|by apply (spends_ret _ (fun _ => len output))].
    + intros child. eapply spends_bind with (size := fun _ => len output); [|intros; apply spends_append].
      intros s a s' H Hs. unfold with_scope in H.
      destruct ((node_value helpers (t_name file) data node 0 ≫= _) s) as [r s1] eqn:E. injection H as -> <-. cbn [remaining].
      assert (spends (len output) (fun _ => len output)
                (node_value helpers (t_name file) data node 0 ≫= fun target =>
                 r_render next_level (value_string target) child None (depth + 1))) as Hm.
      { eapply spends_bind; [apply spends_value|]. intros. apply spends_render. }
      exact (Hm _ _ _ E Hs).
  - eapply spends_bind with (size := fun _ => len output); [|intros; by apply spends_ret].
    unfold render_section. eapply spends_bind; [apply spends_value|]. intros v.
    destruct (bool_decide _); [apply spends_throw|]. destruct (bool_decide _); [apply spends_throw|].
    eapply spends_bind; [by apply spends_pure|]. intros []; [by apply (spends_ret _ (fun _ => len output))|].
    eapply spends_bind with (size := fun _ => len output).
    + destruct (_ =? _)%nat; [|apply spends_nodes]. eapply spends_bind; [apply spends_value|]. intros. apply spends_lift.
    + intros body. eapply spends_bind with (size := fun _ => len output); [|intros; by apply (spends_ret _ (fun _ => len output))].
      intros s a s' [= <- <-] Hs. cbn [remaining]. lia.
  - apply Hout. unfold render_yield. eapply spends_bind; [apply spends_value|]. intros v.
    eapply spends_bind; [by apply spends_pure|]. intros [body|]; [apply spends_append|].
    destruct (_ =? _)%nat; [|by apply spends_ret]. eapply spends_bind; [apply spends_value|]. intros v'.
    eapply spends_bind; [apply spends_lift|]. intros. apply spends_append.
  - by apply spends_ret.
Qed.

Lemma nodes_spends file source data depth st :
  spends (len st.1) len (nodes_loop helpers next_level file source data depth st).
Proof.
  revert st. induction source as [|n source IH]; intros st; cbn [nodes_loop]; [by apply spends_ret|].
  eapply spends_bind; [apply render_node_spends|]. intros st'. apply IH.
Qed.

Lemma nodes_at_spends file source data depth : spends 0 len (nodes_at helpers next_level file source data depth).
Proof. unfold nodes_at. destruct (64 <? depth); [apply spends_throw|apply (nodes_spends _ _ _ _ ([], ∅))]. Qed.

Lemma spear_spends file data depth : spends 0 len (spear_at helpers next_level file data depth).
Proof.
  unfold spear_at. eapply spends_bind; [apply nodes_at_spends|]. intros r.
  destruct (List.find _ _) as [node|]; [|by apply spends_ret]. apply spends_rethrow.
  eapply spends_bind with (size := fun _ => 0).
  - intros s a s' H Hs. destruct (spends_value 0 _ _ _ _ _ _ _ H Hs). lia.
  - intros v. destruct next_ok as (_ & H & _). apply H.
Qed.

Lemma bind_props_spends n what props data current child :
  spends n (fun _ => n) (bind_props helpers what props data current child).
Proof.
  revert child. induction props as [|p props IH]; intros child; cbn [bind_props]; [by apply (spends_ret _ (fun _ => n))|].
  destruct (until "=" p) as [key [e|]]; [|apply spends_throw]. eapply spends_bind; [apply spends_lift|]. intros. apply IH.
Qed.

Lemma each_spends body data depth i count items output :
  spends (len output) len (each_loop next_level body data depth i count items output).
Proof.
  revert i output. induction items as [|item items IH]; intros i output; cbn [each_loop]; [by apply spends_ret|].
  eapply spends_bind; [apply spends_step|]. intros []. eapply spends_bind; [apply spends_block|]. intros body'.
  eapply spends_bind; [apply spends_append|]. intros out. apply IH.
Qed.

Lemma tag_spends name expression block data current depth output :
  spends (len output) len (render_tag helpers next_level name expression block data current depth output).
Proof.
  unfold render_tag. destruct (text_in name _).
  { eapply spends_bind; [apply spends_lift|]. intros v.
    assert (spends (len output) len (r_block next_level (b_otherwise block) data current (depth + 1) ≫= append output)) as Hw
      by (eapply spends_bind; [apply spends_block|]; intros; apply spends_append).
    destruct v as [| | | | | |[|item items]|]; try exact Hw. apply each_spends. }
  destruct (text_in name _).
  { eapply spends_bind; [apply spends_lift|]. intros v. eapply spends_bind; [apply spends_block|]. intros. apply spends_append. }
  destruct (text_in name _).
  { eapply spends_bind; [apply spends_lift|]. intros v. eapply spends_bind; [apply spends_block|]. intros text.
    eapply spends_bind with (size := fun _ => len output); [|intros; by apply spends_ret].
    intros s a s' [= <- <-] Hs. cbn [remaining]. lia. }
  destruct (text_in name _).
  { eapply spends_bind; [apply spends_lift|]. intros v. eapply spends_bind; [by apply spends_pure|].
    intros [text|]; [apply spends_append|]. eapply spends_bind; [apply spends_block|]. intros. apply spends_append. }
  destruct (text_in name _); [|apply spends_throw].
  eapply spends_bind; [apply spends_lift|]. intros [|target props]; [apply spends_throw|].
  eapply spends_bind; [apply bind_props_spends|]. intros child. eapply spends_bind; [by apply spends_pure|]. intros saved.
  eapply spends_bind; [apply spends_block|]. intros slot. eapply spends_bind; [apply spends_lift|]. intros v.
  eapply spends_bind; [apply spends_render|]. intros text. eapply spends_bind; [apply spends_append|]. intros out.
  eapply spends_bind with (size := fun _ => len out); [|intros; by apply spends_ret].
  intros s a s' [= <- <-] Hs. cbn [remaining]. lia.
Qed.

Lemma block_loop_spends fuel source data current depth output :
  spends (len output) len (block_loop helpers next_level fuel source data current depth output).
Proof.
  revert source output. induction fuel as [|f IH]; intros source output; cbn [block_loop]; [done|].
  destruct source as [|c source]; [by apply spends_ret|]. eapply spends_bind; [apply spends_step|]. intros [].
  destruct (Text.find _ _) as [[pre post]|]; [|apply spends_append].
  eapply spends_bind; [apply spends_append|]. intros out. destruct (read_tag post) as [[[raw inner] after]|]; [|apply spends_throw].
  destruct (starts_with _ _); [apply IH|]. destruct (_ || _); [apply spends_throw|]. destruct (starts_with _ _).
  { destruct (until " " _) as [name e]. eapply spends_bind; [apply spends_lift|]. intros block.
    eapply spends_bind; [apply tag_spends|]. intros out'. apply IH. }
  destruct (starts_with _ _).
  { eapply spends_bind; [apply spends_lift|]. intros [|target props]; [apply spends_throw|].
    eapply spends_bind; [apply bind_props_spends|]. intros child. eapply spends_bind; [apply spends_lift|]. intros v.
    eapply spends_bind; [apply spends_render|]. intros text. eapply spends_bind; [apply spends_append|]. intros. apply IH. }
  eapply spends_bind; [apply spends_lift|]. intros v. eapply spends_bind with (size := fun _ => len out).
  { destruct raw; [by apply (spends_ret _ (fun _ => len out))|apply spends_lift]. }
  intros text. eapply spends_bind; [apply spends_append|]. intros. apply IH.
Qed.

Lemma block_at_spends source data current depth : spends 0 len (block_at helpers next_level source data current depth).
Proof. unfold block_at. destruct (64 <? depth); [apply spends_throw|apply block_loop_spends]. Qed.

Lemma render_with_spends name data current depth :
  spends 0 len (render_with helpers load next_level (block_at helpers next_level) name data current depth).
Proof.
  unfold render_with. destruct (64 <? depth); [apply spends_throw|]. eapply spends_bind; [apply spends_step|]. intros [].
  eapply spends_bind; [apply spends_lift|]. intros t. eapply spends_bind; [by apply spends_pure|]. intros st.
  destruct (bool_decide _); [apply spends_throw|].
  assert (forall m, spends 0 len m -> spends 0 len (on_stack (t_name t) m)) as Hstack.
  { intros m Hm s a s' H Hs. unfold on_stack in H. destruct (m _) as [r s1] eqn:E. injection H as -> <-. cbn [remaining].
    apply (Hm _ _ _ E). exact Hs. }
  apply Hstack. destruct (negb _); [apply block_at_spends|]. destruct current; apply spear_spends.
Qed.
End Level.

Lemma all_spend fuel : level_spends (render_at helpers load fuel).
Proof.
  induction fuel as [|f IH]; cbn [render_at]; [done|].
  split; [|split]; intros; [by apply nodes_at_spends|by apply render_with_spends|by apply block_at_spends].
Qed.

(** The output budget holds: whatever the template and the data, by either syntax, a
    rendered view has at most [output_limit] bytes. *)
Theorem output_bounded name data source spear_name out :
  engine_render helpers load name data = Ok out \/ render_text helpers load source data = Ok out \/
  render_spear_text helpers load source data spear_name = Ok out ->
  Z.of_nat (length out) <= output_limit.
Proof.
  assert (forall m, spends 0 len m -> (m fresh_session).1 = Ok out -> Z.of_nat (length out) <= output_limit) as Hm.
  { intros m Hs H. destruct (m fresh_session) as [r s'] eqn:E. cbn in H. subst r.
    destruct (Hs _ _ _ E) as [? Hle]; [done|]. cbn [remaining fresh_session] in Hle. lia. }
  unfold engine_render, render_text, render_spear_text. intros [H|[H|H]].
  - destruct (all_spend level) as (_ & Hr & _). revert H Hr. generalize (render_at helpers load level). intros r H Hr.
    exact (Hm _ (Hr name data None 0) H).
  - destruct (source_limit <? _); [done|]. destruct (all_spend level) as (_ & _ & Hb). revert H Hb.
    generalize (render_at helpers load level). intros r H Hb. exact (Hm _ (Hb source data None 0) H).
  - apply bind_Ok in H as (t & _ & H). pose proof (all_spend (level - 1)) as Hr. revert H Hr.
    generalize (render_at helpers load (level - 1)). intros r H Hr. exact (Hm _ (spear_spends _ Hr t data 0) H).
Qed.
End Budget.

(** A page with data in its text and in an attribute. *)
Definition sample_template : Template :=
  mkTemplate (lit "page") (lit "<a title='{{ t }}'>") true
    [mkNode NText (mkLocation 1 1) (lit "<a title='") [] [] [] [] [] [];
     mkNode NEscaped (mkLocation 1 11) [] [] []
       [Some (mkExpression KVariable (mkLocation 1 14) (lit "t") VNull [] [] 1)] [] [] [];
     mkNode NText (mkLocation 1 18) (lit "'>") [] [] [] [] [] []] 4.

Definition sample_load (name : bytes) : result Template :=
  if bool_decide (name = lit "page") then Ok sample_template else Throw (view_not_found name).

Definition sample_data : Data := {[lit "t" := VString (lit "x'><script>")]}.

Definition sample_text (p : bytes) : Prop := p ∈ [lit "<a title='"; lit "'>"; []].

Lemma rendered_woven_witness :
  compile (lit "page") (lit "<a title='{{ t }}'>") true = Ok sample_template /\
  exists out pieces, engine_render (fun _ => None) sample_load (lit "page") sample_data = Ok out /\
    out = concat pieces /\ Forall (fun p => sample_text p \/ existsb markup p = false) pieces.
Proof.
  split; [vm_compute; reflexivity|].
  assert (engine_render (fun _ => None) sample_load (lit "page") sample_data
          = Ok (lit "<a title='x&#39;&gt;&lt;script&gt;'>")) as E by (vm_compute; reflexivity).
  destruct (rendered_woven (fun _ => None) sample_load sample_text) with (name := lit "page") (data := sample_data)
    (out := lit "<a title='x&#39;&gt;&lt;script&gt;'>") as (pieces & H & Hp); [|exact E|eexists _, pieces; eauto].
  intros name t. unfold sample_load. destruct (bool_decide _); [|discriminate]. intros [= <-].
  split; [reflexivity|]. split; [vm_compute; reflexivity|].
  apply Forall_forall. intros p Hp. unfold sample_text. revert p Hp. apply Forall_forall.
  repeat constructor; by_decide.
Defined.

Lemma output_bounded_witness :
  Z.of_nat (length (lit "<a title='x&#39;&gt;&lt;script&gt;'>")) <= output_limit.
Proof.
  apply (output_bounded (fun _ => None) sample_load (lit "page") sample_data [] []). left. vm_compute. reflexivity.
Defined.
