(* ===== verification/SpearEnds.v ===== *)
(** * Rendering ends

    Whatever the templates and the data are, a render returns a page or throws: the depth
    limit of the source stops the composition, and every turn of a loop over a legacy
    template reads a tag.  The engine's loader and the registered helpers are assumed to
    return. *)

From S2P Require Import Prelude Numeral Text Double Json View SpearParser SpearParserFacts Spear.

#[local] Arguments lit : simpl never.

(** A computation that comes to an end. *)
Definition settles {A} (m : V A) : Prop := forall s, (m s).1 <> NoFuel.

Create HintDb settles.

Lemma settles_ret {A} (a : A) : settles (mret a).
Proof. done. Qed.

Lemma settles_throw {A} e : settles (throw e : V A).
Proof. done. Qed.

Lemma settles_fail {A} name l what : settles (fail name l what : V A).
Proof. done. Qed.

Lemma settles_bind_value {A B} (m : V A) (f : A -> V B) :
  settles m -> (forall s a s', m s = (Ok a, s') -> settles (f a)) -> settles (m ≫= f).
Proof.
  intros Hm Hf s. unfold mbind, eff_bind. specialize (Hm s). destruct (m s) as [[a|e|] s'] eqn:E; [|done..].
  by apply (Hf _ _ _ E).
Qed.

Lemma settles_bind {A B} (m : V A) (f : A -> V B) :
  settles m -> (forall a, settles (f a)) -> settles (m ≫= f).
Proof. intros Hm Hf. by apply settles_bind_value. Qed.

Lemma settles_step : settles step.
Proof. intros s. unfold step. by case_match. Qed.

Lemma settles_append output value : settles (append output value).
Proof. intros s. unfold append. by case_match. Qed.

Lemma settles_lift {A} (r : result A) : r <> NoFuel -> settles (lift_ r).
Proof. by intros Hr s. Qed.

Lemma settles_rethrow {A} f (m : V A) : settles m -> settles (rethrow f m).
Proof.
  intros Hm s. unfold rethrow, try_catch. specialize (Hm s). destruct (m s) as [[a|e|] s']; [done| |done]. by case_match.
Qed.

Lemma settles_scope {A} (m : V A) : settles m -> settles (with_scope m).
Proof. intros Hm s. unfold with_scope. specialize (Hm s). by destruct (m s). Qed.

Lemma settles_stack {A} name (m : V A) : settles m -> settles (on_stack name m).
Proof. intros Hm s. unfold on_stack. specialize (Hm (mkSession (remaining s) (operations s) (stack s ++ [name]) (sections s))). by destruct (m _). Qed.

#[export] Hint Resolve settles_ret settles_throw settles_fail settles_step settles_append settles_rethrow settles_scope
  settles_stack : settles.

Lemma escape_settles s : escape s <> NoFuel.
Proof.
  unfold escape. destruct (output_limit <? _); [done|]. generalize (@nil byte).
  induction s as [|c s IH]; intros out; cbn [escape_loop]; [done|]. destruct (output_limit <? _); [done|apply IH].
Qed.

(** Programs step by step: the shared automation of what follows. *)
Ltac settle :=
  repeat first
    [ done
    | solve [eauto 2 with settles]
    | apply settles_bind; [|intros ?]
    | apply settles_rethrow
    | apply settles_scope
    | apply settles_lift
    | case_match ].

Section Ends.
Variable helpers : bytes -> option (list Value -> result Value).
Variable load : bytes -> result Template.
Hypothesis helpers_return : forall name f arguments, helpers name = Some f -> f arguments <> NoFuel.
Hypothesis load_returns : forall name, load name <> NoFuel.

Lemma call_settles name arguments : call_helper helpers name arguments <> NoFuel.
Proof. unfold call_helper. destruct (helpers name) as [f|] eqn:E; [by apply (helpers_return name)|done]. Qed.

Lemma equal_settles left right depth : settles (equal left right depth).
Proof.
  revert right depth. induction left as [|b|z|z|d|t|l IH|l IH] using Value_ind; intros right depth; cbn [equal];
    try solve [settle].
  - apply settles_bind; [apply settles_step|intros _]. destruct (64 <? depth); [done|].
    destruct (_ && is_number_value right); [done|]. destruct (negb (same_alternative _ _)); [done|].
    destruct right as [| | | | | |r|r]; try done. destruct (negb _); [done|]. revert r.
    induction IH as [|x l Hx _ IHl]; intros [|y r]; [done..|]. apply settles_bind; [apply Hx|].
    intros []; [apply IHl|done].
  - apply settles_bind; [apply settles_step|intros _]. destruct (64 <? depth); [done|].
    destruct (_ && is_number_value right); [done|]. destruct (negb (same_alternative _ _)); [done|].
    destruct right as [| | | | | |r|r]; try done. destruct (negb _); [done|].
    induction IH as [|[k x] l Hx _ IHl]; [done|]. case_match; [|done].
    apply settles_bind; [apply Hx|]. intros []; [apply IHl|done].
Qed.

Lemma negate_settles name l v : settles (negate name l v).
Proof. unfold negate. destruct v as [| | | |[]| | |]; settle. Qed.

Lemma compare_settles name l op a b : settles (compare_values name l op a b).
Proof. unfold compare_values. settle. Qed.

Lemma evaluate_settles name data e depth : settles (evaluate helpers name data e depth).
Proof.
  revert depth. induction e as [k loc text v children keys h IH] using Expression_ind; intros depth. cbn [evaluate].
  apply settles_bind; [apply settles_step|intros _]. destruct (64 <? depth); [done|].
  set (all := fix all (l : list Expression) : V (list Value) := _).
  assert (settles (all children)) as Hall.
  { induction IH as [|e l He _ IHl]; [done|]. cbn. apply settles_bind; [apply He|]. intros.
    apply settles_bind; [apply IHl|]. done. }
  clearbody all. pose proof equal_settles. pose proof negate_settles. pose proof compare_settles. pose proof call_settles.
  destruct k, children as [|c1 [|c2 [|c3 cs]]]; rewrite ?Forall_cons in IH; destruct_and?; settle.
Qed.

Lemma value_settles name data node i : settles (node_value helpers name data node i).
Proof. unfold node_value. destruct (_ !! i) as [[e|]|]; [apply evaluate_settles|done..]. Qed.

Lemma lift_escape_settles v : settles (lift_ (escape v)).
Proof. apply settles_lift, escape_settles. Qed.

(** ** Legacy expressions *)

Lemma split_settles separator source previous piece quote nested :
  split_arguments separator source previous piece quote nested <> NoFuel.
Proof.
  revert previous piece quote nested. induction source as [|c source IH]; intros previous piece quote nested;
    cbn [split_arguments]; [by repeat case_match|].
  repeat (first [done|apply IH|match goal with |- (if ?b then _ else _) <> _ => destruct b end|destruct quote]).
  intros H. pose proof (IH (Some c) [] None (if c =b? "(" then nested + 1 else if c =b? ")" then nested - 1 else nested)) as Hs.
  destruct (split_arguments _ _ _ _ _ _); done.
Qed.

Lemma legacy_settles fuel expression data current depth :
  34 <= Z.of_nat fuel + depth -> depth <= 33 -> legacy_value helpers fuel expression data current depth <> NoFuel.
Proof.
  revert expression depth. induction fuel as [|f IH]; intros expression depth Hf Hd; [lia|]. cbn [legacy_value].
  destruct (32 <? depth) eqn:E; [done|]. reflect_bools. destruct (trim_view expression) as [|c inner]; [done|].
  do 4 (case_match; [done|]). destruct (until "(" _) as [helper [after|]]; [|done]. case_match; [done|].
  unfold legacy_arguments. pose proof (split_settles "," (take (length after - 1) after) None [] None 0) as Hs.
  destruct (split_arguments _ _ _ _ _ _) as [items|e|]; [|done..]. cbn [mbind result_bind].
  pose proof (mapM_ends (fun item => legacy_value helpers f item data current (depth + 1)) items
    ltac:(intros a; apply IH; lia)) as Hm.
  destruct (mapM _ items); [|done..]. apply call_settles.
Qed.

Lemma legacy_evaluate_settles expression data current : settles (legacy_evaluate helpers expression data current).
Proof. apply settles_lift, legacy_settles; lia. Qed.

Lemma legacy_arguments_settles source separator : settles (lift_ (legacy_arguments source separator)).
Proof. apply settles_lift, split_settles. Qed.

(** ** Legacy blocks *)

Lemma tag_shorter source pre post raw inner after :
  Text.find (lit "{{") source = Some (pre, post) -> read_tag post = Some (raw, inner, after) ->
  (length after < length source)%nat.
Proof.
  intros Hs Ht. apply find_rest in Hs. assert (length (lit "{{") = 2%nat) as Hl by done.
  enough (length after <= length post)%nat by lia. unfold read_tag in Ht. destruct (strip _ post) as [r|] eqn:E.
  - apply strip_shorter in E; [|done]. destruct (Text.find _ r) as [[? ?]|] eqn:Ef; [|done]. apply find_rest in Ef.
    simplify_eq. lia.
  - destruct (Text.find _ post) as [[? ?]|] eqn:Ef; [|done]. apply find_rest in Ef. simplify_eq. lia.
Qed.

Lemma matching_settles fuel name source part names body :
  (length source < fuel)%nat ->
  match matching fuel name source part names body with
  | NoFuel => False
  | Ok b => (length (b_after b) < length source)%nat
  | Throw _ => True
  end.
Proof.
  revert source part names body. induction fuel as [|f IH]; intros source part names body Hf; [lia|]. cbn [matching].
  destruct (Text.find _ source) as [[pre post]|] eqn:Es; [|done]. destruct (read_tag post) as [[[raw inner] after]|] eqn:Et; [|done].
  pose proof (tag_shorter _ _ _ _ _ _ Es Et) as Hl.
  assert (forall part names body, match matching f name after part names body with
    | NoFuel => False | Ok b => (length (b_after b) < length source)%nat | Throw _ => True end) as Hrec.
  { intros. specialize (IH after part0 names0 body0 ltac:(lia)). destruct (matching _ _ _ _ _ _); [lia|done..]. }
  destruct (raw || _); [apply Hrec|]. destruct (starts_with (lit "#") _); [apply Hrec|].
  destruct (starts_with (lit "/") _).
  { destruct names as [|top [|n names]]; [done| |]; destruct (negb _); try done; [by destruct body|apply Hrec]. }
  destruct (_ && _); [|apply Hrec]. destruct body; [done|apply Hrec].
Qed.

(** ** One level of composition *)

Definition level_settles (f : nat) (r : Renderers) : Prop :=
  forall depth, depth <= 65 -> 66 <= Z.of_nat f + depth ->
  (forall file source data, settles (r_nodes r file source data depth)) /\
  (forall name data current, settles (r_render r name data current depth)) /\
  (forall source data current, settles (r_block r source data current depth)).

Section Level.
Variable next_level : Renderers.
Variable depth : Z.
Hypothesis next_nodes : forall file source data, settles (r_nodes next_level file source data (depth + 1)).
Hypothesis next_render : forall name data current, settles (r_render next_level name data current (depth + 1)).
Hypothesis next_block : forall source data current, settles (r_block next_level source data current (depth + 1)).

#[local] Hint Resolve next_nodes next_render next_block evaluate_settles value_settles lift_escape_settles
  legacy_evaluate_settles legacy_arguments_settles : settles.

Lemma branches_settle file data es branches output :
  settles (branches_loop helpers next_level file data depth es branches output).
Proof. revert es. induction branches as [|l ls IH]; intros [|e es]; cbn [branches_loop]; try done. settle. Qed.

Lemma items_settle file node data i count ld items output :
  settles (items_loop next_level file node data depth i count ld items output).
Proof.
  revert i output. induction items as [|[key item] items IH]; intros i output; cbn [items_loop]; [done|]. settle.
Qed.
#[local] Hint Resolve branches_settle items_settle : settles.

Lemma render_node_settles file node data st : settles (render_node helpers next_level file node data depth st).
Proof.
  destruct st as [output defined]. unfold render_node, render_loop, render_include, render_section, render_yield. settle.
Qed.

Lemma nodes_loop_settles file source data st : settles (nodes_loop helpers next_level file source data depth st).
Proof.
  revert st. induction source as [|n source IH]; intros st; cbn [nodes_loop]; [done|].
  apply settles_bind; [apply render_node_settles|done].
Qed.

Lemma nodes_at_settles file source data : settles (nodes_at helpers next_level file source data depth).
Proof. unfold nodes_at. case_match; [done|apply nodes_loop_settles]. Qed.
#[local] Hint Resolve nodes_at_settles : settles.

Lemma spear_settles file data : settles (spear_at helpers next_level file data depth).
Proof. unfold spear_at. settle. Qed.

Lemma props_settle what props data current child : settles (bind_props helpers what props data current child).
Proof. revert child. induction props as [|p props IH]; intros child; cbn [bind_props]; [done|]. settle. Qed.

Lemma each_settles body data i count items output :
  settles (each_loop next_level body data depth i count items output).
Proof. revert i output. induction items as [|item items IH]; intros i output; cbn [each_loop]; [done|]. settle. Qed.
#[local] Hint Resolve props_settle each_settles : settles.

Lemma tag_settles name expression block data current output :
  settles (render_tag helpers next_level name expression block data current depth output).
Proof. unfold render_tag. settle. Qed.
#[local] Hint Resolve tag_settles : settles.

Lemma block_loop_settles fuel source data current output :
  (length source < fuel)%nat -> settles (block_loop helpers next_level fuel source data current depth output).
Proof.
  revert source output. induction fuel as [|f IH]; intros source output Hf; [lia|]. cbn [block_loop].
  destruct source as [|c source]; [done|]. apply settles_bind; [apply settles_step|intros _].
  destruct (Text.find _ _) as [[pre post]|] eqn:Es; [|apply settles_append].
  apply settles_bind; [apply settles_append|intros out]. destruct (read_tag post) as [[[raw inner] after]|] eqn:Et; [|done].
  pose proof (tag_shorter _ _ _ _ _ _ Es Et) as Hl.
  assert (forall out, settles (block_loop helpers next_level f after data current depth out)) as Hrec by (intros; apply IH; lia).
  case_match; [done|]. case_match; [done|]. destruct (starts_with (lit "#") _).
  { destruct (until " " _) as [name e].
    pose proof (matching_settles (S (length after)) name after [] [name] None ltac:(lia)) as Hm.
    revert Hm. generalize (matching (S (length after)) name after [] [name] None). intros r Hm.
    apply settles_bind_value; [apply settles_lift; by intros ->|]. intros s b s' [= -> _].
    apply settles_bind; [apply tag_settles|]. intros. apply IH. lia. }
  settle.
Qed.

Lemma block_at_settles source data current : settles (block_at helpers next_level source data current depth).
Proof. unfold block_at. case_match; [done|]. apply block_loop_settles. lia. Qed.

Lemma render_with_settles name data current :
  settles (render_with helpers load next_level (block_at helpers next_level) name data current depth).
Proof. pose proof block_at_settles. pose proof spear_settles. unfold render_with. settle. Qed.
End Level.

(** Past the depth limit nothing of the next level is called. *)
Lemma deep_settles (r : Renderers) depth : 64 < depth ->
  (forall file source data, settles (nodes_at helpers r file source data depth)) /\
  (forall name data current, settles (render_with helpers load r (block_at helpers r) name data current depth)) /\
  (forall source data current, settles (block_at helpers r source data current depth)).
Proof.
  intros Hd%Z.ltb_lt. unfold nodes_at, render_with, block_at. rewrite Hd. done.
Qed.

Lemma levels_settle f : level_settles f (render_at helpers load f).
Proof.
  induction f as [|f IH]; intros depth Hd Hf; [lia|]. cbn [render_at r_nodes r_render r_block].
  destruct (decide (64 < depth)) as [Hdeep|]; [by apply deep_settles|].
  destruct (IH (depth + 1)) as (Hn & Hr & Hb); [lia..|].
  split; [|split]; intros; [by apply nodes_at_settles|by apply render_with_settles|by apply block_at_settles].
Qed.

(** C38. Rendering ends: whatever the templates and the data are, [Engine::render] and its two
    forms for a given text return a page or throw, when the loader and the helpers return. *)
Theorem render_ends name data source spear_name :
  engine_render helpers load name data <> NoFuel /\
  render_text helpers load source data <> NoFuel /\
  render_spear_text helpers load source data spear_name <> NoFuel.
Proof.
  destruct (levels_settle level 0) as (_ & Hr & Hb); [lia|done|]. pose proof (levels_settle (level - 1) 1) as Hl.
  unfold engine_render, render_text, render_spear_text. revert Hr Hb Hl.
  generalize (render_at helpers load level), (render_at helpers load (level - 1)). intros r r' Hr Hb Hl.
  split; [apply Hr|]. split; [case_match; [done|apply Hb]|].
  destruct Hl as (Hn & Hr' & Hb'); [lia|done|].
  pose proof (compile_settles spear_name source true) as Hc. destruct (compile _ _ _) as [t|e|]; [|done..].
  by apply spear_settles.
Qed.
End Ends.

(** The helpers [upper] and a loop of two templates: the cycle is refused, and the page that
    calls the helper is returned. *)
Definition demo_helpers (name : bytes) : option (list Value -> result Value) :=
  if bool_decide (name = lit "upper")
  then Some (fun arguments => match arguments with
                              | [VString s] => Ok (VString (map (fun c => if (97 <=? uc c) && (uc c <=? 122) then chr (uc c - 32) else c) s))
                              | _ => Throw (plain_error (lit "upper takes a text"))
                              end)
  else None.

Definition demo_load (name : bytes) : result Template :=
  if bool_decide (name = lit "loop") then compile name (lit "<p>@include('loop')</p>") true
  else if bool_decide (name = lit "page") then compile name (lit "<p>{{ upper(title) }}</p>") true
  else Throw (view_not_found name).

Lemma render_ends_witness :
  engine_render demo_helpers demo_load (lit "page") {[lit "title" := VString (lit "a<b")]} = Ok (lit "<p>A&lt;B</p>") /\
  (engine_render demo_helpers demo_load (lit "loop") ∅ <> NoFuel /\
   render_text demo_helpers demo_load (lit "{{ x }}") ∅ <> NoFuel /\
   render_spear_text demo_helpers demo_load (lit "{{ x }}") ∅ (lit "text") <> NoFuel).
Proof.
  split; [vm_compute; reflexivity|]. apply render_ends.
  - intros name f arguments. unfold demo_helpers. case_match; [|done]. intros [= <-]. by repeat case_match.
  - intros name. unfold demo_load. destruct (bool_decide _); [apply compile_settles|].
    destruct (bool_decide _); [apply compile_settles|discriminate].
Defined.
