(* ===== verification/Schema.v ===== *)
(** * Schema definitions ([include/gungnir/migration], [src/migration])

    What a migration says about tables: columns, indexes, foreign keys and changes, and
    the builder functions migrations call.  A function of [Column] that returns a
    reference to the new definition is followed in the source by calls on that reference;
    here it adds the definition to the operation, and [refine] changes the last one. *)

From S2P Require Import Prelude Double.

Inductive ColumnType :=
| CId | CTinyInteger | CSmallInteger | CMediumInteger | CInteger | CBigInteger | CFloating | CDoublePrecision
| CDecimal | CBoolean | CFixedString | CString | CText | CMediumText | CLongText | CBinary | CJson | CUuid
| CDate | CTime | CDateTime | CTimestamp | CTimestampTz | CEnumeration.

#[export] Instance ColumnType_eq_dec : EqDecision ColumnType.
Proof. solve_decision. Defined.

Inductive ReferentialAction := no_action | restrict_ | cascade | set_null | set_default.

(** [std::variant]; [SqlExpression] is [DExpression]. *)
Inductive DefaultValue :=
| DMonostate
| DNullptr
| DBoolean (b : bool)
| DInt64 (z : Z)
| DUInt64 (z : Z)
| DDouble (d : double)
| DString (s : bytes)
| DExpression (s : bytes).

Record ForeignReference := mkReference {
  fr_table : bytes;
  fr_column : bytes;
  fr_on_delete : ReferentialAction;
  fr_on_update : ReferentialAction
}.

Record ColumnDefinition := mkColumn {
  c_name : bytes;
  c_type : ColumnType;
  c_length_ : Z;
  c_precision : Z;
  c_scale : Z;
  c_allowed_values : list bytes;
  c_nullable_value : bool;
  c_unsigned_value : bool;
  c_unique_value : bool;
  c_index_value : bool;
  c_primary_value : bool;
  c_auto_increment_value : bool;
  c_change_value : bool;
  c_use_current_on_update_value : bool;
  c_default_value_data : DefaultValue;
  c_comment_value : bytes;
  c_collation_value : bytes;
  c_reference : option ForeignReference
}.

Inductive IndexType := primary_index | unique_index | plain_index.

#[export] Instance IndexType_eq_dec : EqDecision IndexType.
Proof. solve_decision. Defined.

Record IndexDefinition := mkIndex { i_type : IndexType; i_columns : list bytes; i_name : bytes }.

Record ForeignKeyDefinition := mkForeign {
  f_columns : list bytes;
  f_table : bytes;
  f_referenced_columns : list bytes;
  f_name : bytes;
  f_on_delete_action : ReferentialAction;
  f_on_update_action : ReferentialAction
}.

Inductive AlterCommandType :=
| drop_column | rename_column | drop_primary_key | drop_unique_index | drop_index_ | rename_index_ | drop_foreign_key.

#[export] Instance AlterCommandType_eq_dec : EqDecision AlterCommandType.
Proof. solve_decision. Defined.

Record AlterCommand := mkCommand {
  a_type : AlterCommandType;
  a_columns : list bytes;
  a_name : bytes;
  a_new_name : bytes
}.

Inductive TableOperationType := create_table | alter_table | rename_table | drop_table | drop_table_if_exists.

Record TableOperation := mkOperation {
  o_type : TableOperationType;
  o_name : bytes;
  o_new_name : bytes;
  o_columns : list ColumnDefinition;
  o_indexes : list IndexDefinition;
  o_foreign_keys : list ForeignKeyDefinition;
  o_commands : list AlterCommand
}.

(** [Plan]: its operations in order. *)
Abbreviation Plan := (list TableOperation).

Definition plan_add (p : Plan) (operation : TableOperation) : Plan := p ++ [operation].

(** ** The functions of [ColumnDefinition] *)

Definition nullable (value : bool) (c : ColumnDefinition) : ColumnDefinition :=
  mkColumn (c_name c) (c_type c) (c_length_ c) (c_precision c) (c_scale c) (c_allowed_values c) value
    (c_unsigned_value c) (c_unique_value c) (c_index_value c) (c_primary_value c) (c_auto_increment_value c)
    (c_change_value c) (c_use_current_on_update_value c) (c_default_value_data c) (c_comment_value c)
    (c_collation_value c) (c_reference c).

Definition unsigned_ (value : bool) (c : ColumnDefinition) : ColumnDefinition :=
  mkColumn (c_name c) (c_type c) (c_length_ c) (c_precision c) (c_scale c) (c_allowed_values c)
    (c_nullable_value c) value (c_unique_value c) (c_index_value c) (c_primary_value c)
    (c_auto_increment_value c) (c_change_value c) (c_use_current_on_update_value c) (c_default_value_data c)
    (c_comment_value c) (c_collation_value c) (c_reference c).

Definition unique (value : bool) (c : ColumnDefinition) : ColumnDefinition :=
  mkColumn (c_name c) (c_type c) (c_length_ c) (c_precision c) (c_scale c) (c_allowed_values c)
    (c_nullable_value c) (c_unsigned_value c) value (c_index_value c) (c_primary_value c)
    (c_auto_increment_value c) (c_change_value c) (c_use_current_on_update_value c) (c_default_value_data c)
    (c_comment_value c) (c_collation_value c) (c_reference c).

Definition index (value : bool) (c : ColumnDefinition) : ColumnDefinition :=
  mkColumn (c_name c) (c_type c) (c_length_ c) (c_precision c) (c_scale c) (c_allowed_values c)
    (c_nullable_value c) (c_unsigned_value c) (c_unique_value c) value (c_primary_value c)
    (c_auto_increment_value c) (c_change_value c) (c_use_current_on_update_value c) (c_default_value_data c)
    (c_comment_value c) (c_collation_value c) (c_reference c).

Definition primary (value : bool) (c : ColumnDefinition) : ColumnDefinition :=
  mkColumn (c_name c) (c_type c) (c_length_ c) (c_precision c) (c_scale c) (c_allowed_values c)
    (c_nullable_value c) (c_unsigned_value c) (c_unique_value c) (c_index_value c) value
    (c_auto_increment_value c) (c_change_value c) (c_use_current_on_update_value c) (c_default_value_data c)
    (c_comment_value c) (c_collation_value c) (c_reference c).

Definition auto_increment (value : bool) (c : ColumnDefinition) : ColumnDefinition :=
  mkColumn (c_name c) (c_type c) (c_length_ c) (c_precision c) (c_scale c) (c_allowed_values c)
    (c_nullable_value c) (c_unsigned_value c) (c_unique_value c) (c_index_value c) (c_primary_value c) value
    (c_change_value c) (c_use_current_on_update_value c) (c_default_value_data c) (c_comment_value c)
    (c_collation_value c) (c_reference c).

Definition change (value : bool) (c : ColumnDefinition) : ColumnDefinition :=
  mkColumn (c_name c) (c_type c) (c_length_ c) (c_precision c) (c_scale c) (c_allowed_values c)
    (c_nullable_value c) (c_unsigned_value c) (c_unique_value c) (c_index_value c) (c_primary_value c)
    (c_auto_increment_value c) value (c_use_current_on_update_value c) (c_default_value_data c)
    (c_comment_value c) (c_collation_value c) (c_reference c).

Definition use_current_on_update (value : bool) (c : ColumnDefinition) : ColumnDefinition :=
  mkColumn (c_name c) (c_type c) (c_length_ c) (c_precision c) (c_scale c) (c_allowed_values c)
    (c_nullable_value c) (c_unsigned_value c) (c_unique_value c) (c_index_value c) (c_primary_value c)
    (c_auto_increment_value c) (c_change_value c) value (c_default_value_data c) (c_comment_value c)
    (c_collation_value c) (c_reference c).

(** The overloads of [default_value] store their alternative of the variant. *)
Definition default_value (value : DefaultValue) (c : ColumnDefinition) : ColumnDefinition :=
  mkColumn (c_name c) (c_type c) (c_length_ c) (c_precision c) (c_scale c) (c_allowed_values c)
    (c_nullable_value c) (c_unsigned_value c) (c_unique_value c) (c_index_value c) (c_primary_value c)
    (c_auto_increment_value c) (c_change_value c) (c_use_current_on_update_value c) value (c_comment_value c)
    (c_collation_value c) (c_reference c).

Definition default_null : ColumnDefinition -> ColumnDefinition := default_value DNullptr.
Definition default_expression (expression : bytes) : ColumnDefinition -> ColumnDefinition :=
  default_value (DExpression expression).
Definition use_current : ColumnDefinition -> ColumnDefinition := default_expression (lit "CURRENT_TIMESTAMP").

Definition comment (value : bytes) (c : ColumnDefinition) : ColumnDefinition :=
  mkColumn (c_name c) (c_type c) (c_length_ c) (c_precision c) (c_scale c) (c_allowed_values c)
    (c_nullable_value c) (c_unsigned_value c) (c_unique_value c) (c_index_value c) (c_primary_value c)
    (c_auto_increment_value c) (c_change_value c) (c_use_current_on_update_value c) (c_default_value_data c)
    value (c_collation_value c) (c_reference c).

Definition collation (value : bytes) (c : ColumnDefinition) : ColumnDefinition :=
  mkColumn (c_name c) (c_type c) (c_length_ c) (c_precision c) (c_scale c) (c_allowed_values c)
    (c_nullable_value c) (c_unsigned_value c) (c_unique_value c) (c_index_value c) (c_primary_value c)
    (c_auto_increment_value c) (c_change_value c) (c_use_current_on_update_value c) (c_default_value_data c)
    (c_comment_value c) value (c_reference c).

(** [ensure_reference]: the reference, made with its default members when there is none. *)
Definition ensure_reference (c : ColumnDefinition) : ForeignReference :=
  default (mkReference [] (lit "id") no_action no_action) (c_reference c).

Definition set_reference (r : ForeignReference) (c : ColumnDefinition) : ColumnDefinition :=
  mkColumn (c_name c) (c_type c) (c_length_ c) (c_precision c) (c_scale c) (c_allowed_values c)
    (c_nullable_value c) (c_unsigned_value c) (c_unique_value c) (c_index_value c) (c_primary_value c)
    (c_auto_increment_value c) (c_change_value c) (c_use_current_on_update_value c) (c_default_value_data c)
    (c_comment_value c) (c_collation_value c) (Some r).

Definition references (column : bytes) (c : ColumnDefinition) : ColumnDefinition :=
  let r := ensure_reference c in set_reference (mkReference (fr_table r) column (fr_on_delete r) (fr_on_update r)) c.

Definition on (table : bytes) (c : ColumnDefinition) : ColumnDefinition :=
  let r := ensure_reference c in set_reference (mkReference table (fr_column r) (fr_on_delete r) (fr_on_update r)) c.

Definition constrained (table column : bytes) (c : ColumnDefinition) : ColumnDefinition :=
  let r := ensure_reference c in set_reference (mkReference table column (fr_on_delete r) (fr_on_update r)) c.

Definition on_delete (action : ReferentialAction) (c : ColumnDefinition) : ColumnDefinition :=
  let r := ensure_reference c in set_reference (mkReference (fr_table r) (fr_column r) action (fr_on_update r)) c.

Definition on_update (action : ReferentialAction) (c : ColumnDefinition) : ColumnDefinition :=
  let r := ensure_reference c in set_reference (mkReference (fr_table r) (fr_column r) (fr_on_delete r) action) c.

Definition cascade_on_delete := on_delete cascade.
Definition restrict_on_delete := on_delete restrict_.
Definition null_on_delete := on_delete set_null.
Definition cascade_on_update := on_update cascade.
Definition restrict_on_update := on_update restrict_.
Definition null_on_update := on_update set_null.

(** ** The functions of [ForeignKeyDefinition] *)

Definition fk_references (referenced : list bytes) (f : ForeignKeyDefinition) : ForeignKeyDefinition :=
  mkForeign (f_columns f) (f_table f) referenced (f_name f) (f_on_delete_action f) (f_on_update_action f).

Definition fk_on (table_name : bytes) (f : ForeignKeyDefinition) : ForeignKeyDefinition :=
  mkForeign (f_columns f) table_name (f_referenced_columns f) (f_name f) (f_on_delete_action f) (f_on_update_action f).

Definition fk_on_delete (action : ReferentialAction) (f : ForeignKeyDefinition) : ForeignKeyDefinition :=
  mkForeign (f_columns f) (f_table f) (f_referenced_columns f) (f_name f) action (f_on_update_action f).

Definition fk_on_update (action : ReferentialAction) (f : ForeignKeyDefinition) : ForeignKeyDefinition :=
  mkForeign (f_columns f) (f_table f) (f_referenced_columns f) (f_name f) (f_on_delete_action f) action.

Definition fk_cascade_on_delete := fk_on_delete cascade.
Definition fk_restrict_on_delete := fk_on_delete restrict_.
Definition fk_null_on_delete := fk_on_delete set_null.
Definition fk_cascade_on_update := fk_on_update cascade.
Definition fk_restrict_on_update := fk_on_update restrict_.
Definition fk_null_on_update := fk_on_update set_null.

(** ** The functions of [Column] *)

Fixpoint update_last {A} (f : A -> A) (l : list A) : list A :=
  match l with
  | [] => []
  | [x] => [f x]
  | x :: l' => x :: update_last f l'
  end.

(** A call on the reference to the column just added. *)
Definition refine (f : ColumnDefinition -> ColumnDefinition) (o : TableOperation) : TableOperation :=
  mkOperation (o_type o) (o_name o) (o_new_name o) (update_last f (o_columns o)) (o_indexes o) (o_foreign_keys o) (o_commands o).

(** A call on the reference to the foreign key just added. *)
Definition refine_foreign (f : ForeignKeyDefinition -> ForeignKeyDefinition) (o : TableOperation) : TableOperation :=
  mkOperation (o_type o) (o_name o) (o_new_name o) (o_columns o) (o_indexes o) (update_last f (o_foreign_keys o)) (o_commands o).

Definition new_column (name : bytes) (type : ColumnType) (len precision scale : Z) : ColumnDefinition :=
  mkColumn name type len precision scale [] false false false false false false false false DMonostate [] [] None.

(** [Column::add]. *)
Definition add_column (name : bytes) (type : ColumnType) (len precision scale : Z) (o : TableOperation) : TableOperation :=
  mkOperation (o_type o) (o_name o) (o_new_name o) (o_columns o ++ [new_column name type len precision scale])
    (o_indexes o) (o_foreign_keys o) (o_commands o).

Definition column_id (name : bytes) (o : TableOperation) : TableOperation :=
  refine (auto_increment true) (refine (primary true) (refine (unsigned_ true) (add_column name CId 0 0 0 o))).
Definition column_tiny_integer (name : bytes) := add_column name CTinyInteger 0 0 0.
Definition column_small_integer (name : bytes) := add_column name CSmallInteger 0 0 0.
Definition column_medium_integer (name : bytes) := add_column name CMediumInteger 0 0 0.
Definition column_integer (name : bytes) := add_column name CInteger 0 0 0.
Definition column_big_integer (name : bytes) := add_column name CBigInteger 0 0 0.
Definition column_floating (name : bytes) := add_column name CFloating 0 0 0.
Definition column_double_precision (name : bytes) := add_column name CDoublePrecision 0 0 0.
Definition column_decimal (name : bytes) (precision scale : Z) := add_column name CDecimal 0 precision scale.
Definition column_boolean (name : bytes) := add_column name CBoolean 0 0 0.
Definition column_fixed_string (name : bytes) (len : Z) := add_column name CFixedString len 0 0.
Definition column_string (name : bytes) (len : Z) := add_column name CString len 0 0.
Definition column_text (name : bytes) := add_column name CText 0 0 0.
Definition column_medium_text (name : bytes) := add_column name CMediumText 0 0 0.
Definition column_long_text (name : bytes) := add_column name CLongText 0 0 0.
Definition column_binary (name : bytes) := add_column name CBinary 0 0 0.
Definition column_json (name : bytes) := add_column name CJson 0 0 0.
Definition column_uuid (name : bytes) := add_column name CUuid 0 0 0.
Definition column_date (name : bytes) := add_column name CDate 0 0 0.
Definition column_time (name : bytes) := add_column name CTime 0 0 0.
Definition column_date_time (name : bytes) := add_column name CDateTime 0 0 0.
Definition column_timestamp (name : bytes) := add_column name CTimestamp 0 0 0.
Definition column_timestamp_tz (name : bytes) := add_column name CTimestampTz 0 0 0.

Definition set_allowed_values (values : list bytes) (c : ColumnDefinition) : ColumnDefinition :=
  mkColumn (c_name c) (c_type c) (c_length_ c) (c_precision c) (c_scale c) values (c_nullable_value c)
    (c_unsigned_value c) (c_unique_value c) (c_index_value c) (c_primary_value c) (c_auto_increment_value c)
    (c_change_value c) (c_use_current_on_update_value c) (c_default_value_data c) (c_comment_value c)
    (c_collation_value c) (c_reference c).

Definition column_enumeration (name : bytes) (values : list bytes) (o : TableOperation) : TableOperation :=
  refine (set_allowed_values values) (add_column name CEnumeration 0 0 0 o).

Definition column_foreign_id (name : bytes) (o : TableOperation) : TableOperation :=
  refine (index true) (refine (unsigned_ true) (add_column name CBigInteger 0 0 0 o)).

Definition column_timestamps (o : TableOperation) : TableOperation :=
  refine (nullable true) (column_timestamp (lit "updated_at")
    (refine (nullable true) (column_timestamp (lit "created_at") o))).

Definition column_timestamps_tz (o : TableOperation) : TableOperation :=
  refine (nullable true) (column_timestamp_tz (lit "updated_at")
    (refine (nullable true) (column_timestamp_tz (lit "created_at") o))).

Definition column_soft_deletes (name : bytes) (o : TableOperation) : TableOperation :=
  refine (nullable true) (column_timestamp name o).

Definition column_soft_deletes_tz (name : bytes) (o : TableOperation) : TableOperation :=
  refine (nullable true) (column_timestamp_tz name o).

Definition add_index (type : IndexType) (columns : list bytes) (name : bytes) (o : TableOperation) : TableOperation :=
  mkOperation (o_type o) (o_name o) (o_new_name o) (o_columns o) (o_indexes o ++ [mkIndex type columns name])
    (o_foreign_keys o) (o_commands o).

Definition column_primary := add_index primary_index.
Definition column_unique := add_index unique_index.
Definition column_index := add_index plain_index.

(** [Column::foreign], both overloads. *)
Definition column_foreign (columns : list bytes) (name : bytes) (o : TableOperation) : TableOperation :=
  mkOperation (o_type o) (o_name o) (o_new_name o) (o_columns o) (o_indexes o)
    (o_foreign_keys o ++ [mkForeign columns [] [] name no_action no_action]) (o_commands o).

Definition add_command (type : AlterCommandType) (columns : list bytes) (name new_name : bytes) (o : TableOperation)
    : TableOperation :=
  mkOperation (o_type o) (o_name o) (o_new_name o) (o_columns o) (o_indexes o) (o_foreign_keys o)
    (o_commands o ++ [mkCommand type columns name new_name]).

(** [Column::drop], both overloads. *)
Definition column_drop (names : list bytes) := add_command drop_column names [] [].
Definition column_rename (from to : bytes) := add_command rename_column [] from to.
Definition column_drop_primary (name : bytes) := add_command drop_primary_key [] name [].
Definition column_drop_unique (name : bytes) := add_command drop_unique_index [] name [].
Definition column_drop_index (name : bytes) := add_command drop_index_ [] name [].
Definition column_rename_index (from to : bytes) := add_command rename_index_ [] from to.
Definition column_drop_foreign (name : bytes) := add_command drop_foreign_key [] name [].
Definition column_drop_foreign_of (columns : list bytes) := add_command drop_foreign_key columns [] [].
Definition column_drop_timestamps := column_drop [lit "created_at"; lit "updated_at"].
Definition column_drop_soft_deletes (name : bytes) := column_drop [name].

(** ** The functions of [Table], on the active plan

    [current_plan] is the plan of the innermost [Scope] of the thread, none outside. *)
Abbreviation Planning := (eff (option Plan)).

Definition active_plan (operation : TableOperation) : Planning unit := fun st =>
  match st with
  | Some plan => (Ok tt, Some (plan_add plan operation))
  | None =>
      (Throw (logic_error "Table migration operations must run inside Migration::plan_up() or plan_down()"), None)
  end.

Definition make_operation (type : TableOperationType) (name : bytes) : TableOperation :=
  mkOperation type name [] [] [] [] [].

(** The definition of a table may itself use the active plan. *)
Definition define_table (type : TableOperationType) (name : bytes)
    (definition : TableOperation -> Planning TableOperation) : Planning unit :=
  operation ← definition (make_operation type name);
  active_plan operation.

Definition Table_create := define_table create_table.
Definition Table_alter := define_table alter_table.

Definition Table_rename (from to : bytes) : Planning unit :=
  active_plan (mkOperation rename_table from to [] [] [] []).

Definition Table_drop (name : bytes) : Planning unit := active_plan (make_operation drop_table name).
Definition Table_drop_if_exists (name : bytes) : Planning unit := active_plan (make_operation drop_table_if_exists name).

(** [Migration]: its two functions; [plan_up] and [plan_down] run them on a plan of their
    own and restore the active plan, whatever happens. *)
Record Migration := mkMigration { up : Planning unit; down : Planning unit }.

Definition plan_of (run : Planning unit) : Planning Plan := fun previous =>
  match run (Some []) with
  | (Ok _, Some plan) => (Ok plan, previous)
  | (Ok _, None) => (Ok [], previous)
  | (Throw e, _) => (Throw e, previous)
  | (NoFuel, _) => (NoFuel, previous)
  end.

Definition plan_up (m : Migration) : Planning Plan := plan_of (up m).
Definition plan_down (m : Migration) : Planning Plan := plan_of (down m).
