(* ===== verification/SchemaSql.v ===== *)
(** * The schema compiler ([src/database/compiler.cpp])

    A plan becomes SQL statements, or MongoDB commands, for one backend.  The result is a
    value; the source pushes to the vectors of a [Compilation] it passes along. *)

From S2P Require Import Prelude Numeral Double View Transaction Schema.

Inductive StatementKind := sql_text | mongodb_command.

Record Statement := mkStatement { s_kind : StatementKind; s_text : bytes }.

Record Compilation := mkCompilation { statements : list Statement; warnings : list bytes }.

Abbreviation Statements := (result (list Statement)).

(** Every occurrence of [mark] is doubled. *)
Definition doubled (mark : byte) (value : bytes) : bytes :=
  value ≫= fun ch => if ch =b? mark then [ch; ch] else [ch].

Definition escape_sql_string (value : bytes) : bytes := doubled "'" value.

Definition quote_identifier (b : Backend) (value : bytes) : bytes :=
  match b with
  | mysql => lit "`" ++ doubled "`" value ++ lit "`"
  | mssql => lit "[" ++ doubled "]" value ++ lit "]"
  | _ => [x22] ++ doubled x22 value ++ [x22]
  end.

Fixpoint join (separator : bytes) (parts : list bytes) : bytes :=
  match parts with
  | [] => []
  | [p] => p
  | p :: rest => p ++ separator ++ join separator rest
  end.

Definition join_identifiers (b : Backend) (values : list bytes) : bytes :=
  join (lit ", ") (map (quote_identifier b) values).

(** A string literal. *)
Definition sql_literal (value : bytes) : bytes := lit "'" ++ escape_sql_string value ++ lit "'".

Definition default_sql (value : DefaultValue) : bytes :=
  match value with
  | DMonostate => []
  | DNullptr => lit "NULL"
  | DBoolean b => if b then lit "TRUE" else lit "FALSE"
  | DInt64 z | DUInt64 z => to_string z
  | DDouble d => stream_double d
  | DString s => sql_literal s
  | DExpression s => s
  end.

Definition reference_action (a : ReferentialAction) : bytes :=
  match a with
  | no_action => lit "NO ACTION"
  | restrict_ => lit "RESTRICT"
  | cascade => lit "CASCADE"
  | set_null => lit "SET NULL"
  | set_default => lit "SET DEFAULT"
  end.

Definition is_nil {A} (l : list A) : bool := match l with [] => true | _ => false end.

Definition enum_check (b : Backend) (column : ColumnDefinition) : bytes :=
  if is_nil (c_allowed_values column) || bool_decide (b = mysql) then []
  else lit "CHECK (" ++ quote_identifier b (c_name column) ++ lit " IN (" ++
       join (lit ", ") (map sql_literal (c_allowed_values column)) ++ lit "))".

(** [precision] and [scale] in parentheses, and a length. *)
Definition decimal_size (column : ColumnDefinition) : bytes :=
  lit "(" ++ to_string (c_precision column) ++ lit ", " ++ to_string (c_scale column) ++ lit ")".

Definition length_size (column : ColumnDefinition) : bytes :=
  lit "(" ++ to_string (if c_length_ column =? 0 then 255 else c_length_ column) ++ lit ")".

Definition type_sql (b : Backend) (column : ColumnDefinition) : result bytes :=
  match b with
  | sqlite =>
      Ok match c_type column with
         | CId | CBigInteger | CTinyInteger | CSmallInteger | CMediumInteger | CInteger | CBoolean => lit "INTEGER"
         | CFloating | CDoublePrecision => lit "REAL"
         | CBinary => lit "BLOB"
         | _ => lit "TEXT"
         end
  | postgresql =>
      Ok match c_type column with
         | CId | CBigInteger => lit "BIGINT"
         | CTinyInteger | CSmallInteger => lit "SMALLINT"
         | CMediumInteger | CInteger => lit "INTEGER"
         | CFloating => lit "REAL"
         | CDoublePrecision => lit "DOUBLE PRECISION"
         | CDecimal => lit "NUMERIC" ++ decimal_size column
         | CBoolean => lit "BOOLEAN"
         | CFixedString => lit "CHAR" ++ length_size column
         | CString | CEnumeration => lit "VARCHAR" ++ length_size column
         | CText | CMediumText | CLongText => lit "TEXT"
         | CBinary => lit "BYTEA"
         | CJson => lit "JSONB"
         | CUuid => lit "UUID"
         | CDate => lit "DATE"
         | CTime => lit "TIME"
         | CDateTime | CTimestamp => lit "TIMESTAMP"
         | CTimestampTz => lit "TIMESTAMPTZ"
         end
  | mysql =>
      Ok match c_type column with
         | CId | CBigInteger => lit "BIGINT"
         | CTinyInteger => lit "TINYINT"
         | CSmallInteger => lit "SMALLINT"
         | CMediumInteger => lit "MEDIUMINT"
         | CInteger => lit "INT"
         | CFloating => lit "FLOAT"
         | CDoublePrecision => lit "DOUBLE"
         | CDecimal => lit "DECIMAL" ++ decimal_size column
         | CBoolean => lit "BOOLEAN"
         | CFixedString => lit "CHAR" ++ length_size column
         | CString => lit "VARCHAR" ++ length_size column
         | CText => lit "TEXT"
         | CMediumText => lit "MEDIUMTEXT"
         | CLongText => lit "LONGTEXT"
         | CBinary => lit "LONGBLOB"
         | CJson => lit "JSON"
         | CUuid => lit "CHAR(36)"
         | CDate => lit "DATE"
         | CTime => lit "TIME"
         | CDateTime => lit "DATETIME"
         | CTimestamp | CTimestampTz => lit "TIMESTAMP"
         | CEnumeration => lit "ENUM(" ++ join (lit ", ") (map sql_literal (c_allowed_values column)) ++ lit ")"
         end
  | mssql =>
      Ok match c_type column with
         | CId | CBigInteger => lit "BIGINT"
         | CTinyInteger => lit "TINYINT"
         | CSmallInteger => lit "SMALLINT"
         | CMediumInteger | CInteger => lit "INT"
         | CFloating => lit "REAL"
         | CDoublePrecision => lit "FLOAT(53)"
         | CDecimal => lit "DECIMAL" ++ decimal_size column
         | CBoolean => lit "BIT"
         | CFixedString => lit "NCHAR" ++ length_size column
         | CString | CEnumeration => lit "NVARCHAR" ++ length_size column
         | CText | CMediumText | CLongText | CJson => lit "NVARCHAR(MAX)"
         | CBinary => lit "VARBINARY(MAX)"
         | CUuid => lit "UNIQUEIDENTIFIER"
         | CDate => lit "DATE"
         | CTime => lit "TIME"
         | CDateTime | CTimestamp => lit "DATETIME2"
         | CTimestampTz => lit "DATETIMEOFFSET"
         end
  | mongodb => Throw (logic_error "Unsupported migration column type")
  end.

Definition underscored (table : bytes) (columns : list bytes) : bytes :=
  fold_left (fun r column => r ++ lit "_" ++ column) columns table.

Definition conventional_index_name (table : bytes) (columns : list bytes) (type : IndexType) : bytes :=
  underscored table columns ++
  match type with
  | primary_index => lit "_primary"
  | unique_index => lit "_unique"
  | plain_index => lit "_index"
  end.

Definition foreign_name (table : bytes) (columns : list bytes) : bytes := underscored table columns ++ lit "_foreign".

(** The parts of a column definition after its type. *)
Definition identity_sql (b : Backend) (column : ColumnDefinition) : bytes :=
  if c_auto_increment_value column then
    match b with
    | postgresql => lit " GENERATED BY DEFAULT AS IDENTITY"
    | mysql => lit " AUTO_INCREMENT"
    | mssql => lit " IDENTITY(1,1)"
    | _ => []
    end
  else [].

Definition default_clause (b : Backend) (column : ColumnDefinition) : bytes :=
  let value := default_sql (c_default_value_data column) in
  if is_nil value then []
  else if bool_decide (b = mssql) && bool_decide (value = lit "TRUE") then lit " DEFAULT 1"
  else if bool_decide (b = mssql) && bool_decide (value = lit "FALSE") then lit " DEFAULT 0"
  else lit " DEFAULT " ++ value.

Definition primary_clause (b : Backend) (table : bytes) (column : ColumnDefinition) : bytes :=
  if c_primary_value column then
    if bool_decide (b = mssql)
    then lit " CONSTRAINT " ++ quote_identifier b (table ++ lit "_pkey") ++ lit " PRIMARY KEY"
    else lit " PRIMARY KEY" ++
         (if bool_decide (b = sqlite) && c_auto_increment_value column then lit " AUTOINCREMENT" else [])
  else [].

Definition reference_clause (b : Backend) (table : bytes) (column : ColumnDefinition) : bytes :=
  match c_reference column with
  | None => []
  | Some r =>
      lit " CONSTRAINT " ++ quote_identifier b (foreign_name table [c_name column]) ++
      lit " REFERENCES " ++ quote_identifier b (fr_table r) ++
      lit " (" ++ quote_identifier b (fr_column r) ++ lit ")" ++
      lit " ON DELETE " ++ reference_action (fr_on_delete r) ++
      lit " ON UPDATE " ++ reference_action (fr_on_update r)
  end.

Definition column_sql (b : Backend) (table : bytes) (column : ColumnDefinition) : result bytes :=
  type ← type_sql b column;
  let check := enum_check b column in
  Ok (quote_identifier b (c_name column) ++ lit " " ++ type ++
      (if bool_decide (b = mysql) && c_unsigned_value column then lit " UNSIGNED" else []) ++
      identity_sql b column ++
      (if c_nullable_value column then lit " NULL" else lit " NOT NULL") ++
      default_clause b column ++
      (if is_nil (c_collation_value column) then [] else lit " COLLATE " ++ c_collation_value column) ++
      (if c_use_current_on_update_value column && bool_decide (b = mysql)
       then lit " ON UPDATE CURRENT_TIMESTAMP" else []) ++
      primary_clause b table column ++
      (if c_unique_value column then lit " UNIQUE" else []) ++
      reference_clause b table column ++
      (if is_nil check then [] else lit " " ++ check) ++
      (if bool_decide (b = mssql) && bool_decide (c_type column = CJson)
       then lit " CHECK (ISJSON(" ++ quote_identifier b (c_name column) ++ lit ") = 1)" else [])).

Definition foreign_sql (b : Backend) (table : bytes) (f : ForeignKeyDefinition) : bytes :=
  let name := if is_nil (f_name f) then foreign_name table (f_columns f) else f_name f in
  lit "CONSTRAINT " ++ quote_identifier b name ++
  lit " FOREIGN KEY (" ++ join_identifiers b (f_columns f) ++ lit ")" ++
  lit " REFERENCES " ++ quote_identifier b (f_table f) ++
  lit " (" ++ join_identifiers b (f_referenced_columns f) ++ lit ")" ++
  lit " ON DELETE " ++ reference_action (f_on_delete_action f) ++
  lit " ON UPDATE " ++ reference_action (f_on_update_action f).

Definition sql_statement (value : bytes) : Statement := mkStatement sql_text value.

Definition append_index (b : Backend) (table : bytes) (i : IndexDefinition) : Statements :=
  let name := if is_nil (i_name i) then conventional_index_name table (i_columns i) (i_type i) else i_name i in
  match i_type i with
  | primary_index =>
      match b with
      | sqlite => Throw (logic_error "SQLite primary key changes require an explicit table rebuild")
      | mysql =>
          Ok [sql_statement (lit "ALTER TABLE " ++ quote_identifier b table ++ lit " ADD PRIMARY KEY (" ++
                             join_identifiers b (i_columns i) ++ lit ");")]
      | _ =>
          Ok [sql_statement (lit "ALTER TABLE " ++ quote_identifier b table ++ lit " ADD CONSTRAINT " ++
                             quote_identifier b name ++ lit " PRIMARY KEY (" ++
                             join_identifiers b (i_columns i) ++ lit ");")]
      end
  | _ =>
      let prefix := if bool_decide (i_type i = unique_index) then lit "CREATE UNIQUE INDEX " else lit "CREATE INDEX " in
      Ok [sql_statement (prefix ++ quote_identifier b name ++ lit " ON " ++ quote_identifier b table ++ lit " (" ++
                         join_identifiers b (i_columns i) ++ lit ");")]
  end.

Definition append_column_indexes (b : Backend) (table : bytes) (columns : list ColumnDefinition) : Statements :=
  indexes ← mapM (fun column =>
    if negb (c_index_value column) then Ok []
    else append_index b table (mkIndex plain_index [c_name column] [])) columns;
  Ok (concat indexes).

Definition is_primary (i : IndexDefinition) : bool := bool_decide (i_type i = primary_index).

Definition compile_create (b : Backend) (o : TableOperation) : Statements :=
  columns ← mapM (column_sql b (o_name o)) (o_columns o);
  let definitions :=
    columns ++ map (foreign_sql b (o_name o)) (o_foreign_keys o) ++
    (if bool_decide (b = sqlite)
     then map (fun i => lit "PRIMARY KEY (" ++ join_identifiers b (i_columns i) ++ lit ")")
            (filter (fun i => is_primary i = true) (o_indexes o))
     else []) in
  column_indexes ← append_column_indexes b (o_name o) (o_columns o);
  indexes ← mapM (fun i => if bool_decide (b = sqlite) && is_primary i then Ok [] else append_index b (o_name o) i)
              (o_indexes o);
  Ok (sql_statement (lit "CREATE TABLE " ++ quote_identifier b (o_name o) ++ lit " (" ++
                     join (lit ", ") definitions ++ lit ");")
      :: column_indexes ++ concat indexes).

Definition append_alter_column (b : Backend) (table : bytes) (column : ColumnDefinition) : Statements :=
  let alter rest := sql_statement (lit "ALTER TABLE " ++ quote_identifier b table ++ rest) in
  if negb (c_change_value column) then
    definition ← column_sql b table column;
    Ok [alter (lit " ADD " ++ definition ++ lit ";")]
  else
    match b with
    | sqlite => Throw (logic_error "SQLite column changes require an explicit table rebuild")
    | mysql =>
        definition ← column_sql b table column;
        Ok [alter (lit " MODIFY COLUMN " ++ definition ++ lit ";")]
    | mssql =>
        type ← type_sql b column;
        Ok [alter (lit " ALTER COLUMN " ++ quote_identifier b (c_name column) ++ lit " " ++ type ++
                   (if c_nullable_value column then lit " NULL" else lit " NOT NULL") ++ lit ";")]
    | _ =>
        type ← type_sql b column;
        Ok [alter (lit " ALTER COLUMN " ++ quote_identifier b (c_name column) ++ lit " TYPE " ++ type ++ lit ";");
            alter (lit " ALTER COLUMN " ++ quote_identifier b (c_name column) ++
                   (if c_nullable_value column then lit " DROP NOT NULL;" else lit " SET NOT NULL;"))]
    end.

(** A call of [sp_rename]; the names are put between the quotes as they are. *)
Definition sp_rename (from to suffix : bytes) : Statement :=
  sql_statement (lit "EXEC sp_rename N'" ++ from ++ lit "', N'" ++ to ++ lit "'" ++ suffix ++ lit ";").

Definition append_alter_command (b : Backend) (table : bytes) (c : AlterCommand) : list Statement :=
  let alter rest := sql_statement (lit "ALTER TABLE " ++ quote_identifier b table ++ rest) in
  match a_type c with
  | drop_column =>
      map (fun column => alter (lit " DROP COLUMN " ++ quote_identifier b column ++ lit ";")) (a_columns c)
  | rename_column =>
      match b with
      | mssql => [sp_rename (table ++ lit "." ++ a_name c) (a_new_name c) (lit ", N'COLUMN'")]
      | _ => [alter (lit " RENAME COLUMN " ++ quote_identifier b (a_name c) ++ lit " TO " ++
                     quote_identifier b (a_new_name c) ++ lit ";")]
      end
  | drop_primary_key =>
      match b with
      | mysql => [alter (lit " DROP PRIMARY KEY;")]
      | _ =>
          let name := if is_nil (a_name c) then table ++ lit "_pkey" else a_name c in
          [alter (lit " DROP CONSTRAINT " ++ quote_identifier b name ++ lit ";")]
      end
  | drop_unique_index | drop_index_ =>
      match b with
      | mysql | mssql =>
          [sql_statement (lit "DROP INDEX " ++ quote_identifier b (a_name c) ++ lit " ON " ++
                          quote_identifier b table ++ lit ";")]
      | _ => [sql_statement (lit "DROP INDEX " ++ quote_identifier b (a_name c) ++ lit ";")]
      end
  | rename_index_ =>
      match b with
      | postgresql =>
          [sql_statement (lit "ALTER INDEX " ++ quote_identifier b (a_name c) ++ lit " RENAME TO " ++
                          quote_identifier b (a_new_name c) ++ lit ";")]
      | mysql => [alter (lit " RENAME INDEX " ++ quote_identifier b (a_name c) ++ lit " TO " ++
                         quote_identifier b (a_new_name c) ++ lit ";")]
      | _ => [sp_rename (table ++ lit "." ++ a_name c) (a_new_name c) (lit ", N'INDEX'")]
      end
  | drop_foreign_key =>
      let name := if is_nil (a_name c) then foreign_name table (a_columns c) else a_name c in
      match b with
      | mysql => [alter (lit " DROP FOREIGN KEY " ++ quote_identifier b name ++ lit ";")]
      | _ => [alter (lit " DROP CONSTRAINT " ++ quote_identifier b name ++ lit ";")]
      end
  end.

(** The commands SQLite cannot run. *)
Definition needs_rebuild (c : AlterCommand) : bool :=
  bool_decide (a_type c = drop_primary_key) || bool_decide (a_type c = drop_foreign_key) ||
  bool_decide (a_type c = rename_index_).

Definition compile_alter (b : Backend) (o : TableOperation) : Statements :=
  _ ← (if bool_decide (b = sqlite) then
         if negb (is_nil (o_foreign_keys o))
         then Throw (logic_error "SQLite foreign key changes require an explicit table rebuild")
         else if existsb needs_rebuild (o_commands o)
         then Throw (logic_error "This SQLite schema change requires an explicit table rebuild")
         else Ok tt
       else Ok tt);
  columns ← mapM (append_alter_column b (o_name o)) (o_columns o);
  column_indexes ← append_column_indexes b (o_name o) (o_columns o);
  let foreigns := map (fun f => sql_statement (lit "ALTER TABLE " ++ quote_identifier b (o_name o) ++ lit " ADD " ++
                                               foreign_sql b (o_name o) f ++ lit ";")) (o_foreign_keys o) in
  indexes ← mapM (append_index b (o_name o)) (o_indexes o);
  Ok (concat columns ++ column_indexes ++ foreigns ++ concat indexes ++
      (o_commands o ≫= append_alter_command b (o_name o))).

Definition compile_sql_operation (b : Backend) (o : TableOperation) : Statements :=
  match o_type o with
  | create_table => compile_create b o
  | alter_table => compile_alter b o
  | rename_table =>
      Ok match b with
         | mssql => [sp_rename (o_name o) (o_new_name o) []]
         | _ => [sql_statement (lit "ALTER TABLE " ++ quote_identifier b (o_name o) ++ lit " RENAME TO " ++
                                quote_identifier b (o_new_name o) ++ lit ";")]
         end
  | drop_table => Ok [sql_statement (lit "DROP TABLE " ++ quote_identifier b (o_name o) ++ lit ";")]
  | drop_table_if_exists =>
      Ok [sql_statement (lit "DROP TABLE IF EXISTS " ++ quote_identifier b (o_name o) ++ lit ";")]
  end.

Definition compile_sql (b : Backend) (plan : Plan) : result Compilation :=
  statements ← mapM (compile_sql_operation b) plan;
  Ok (mkCompilation (concat statements) []).

(** ** MongoDB *)

Definition mongo_bson_type (type : ColumnType) : bytes :=
  match type with
  | CId | CTinyInteger | CSmallInteger | CMediumInteger | CInteger | CBigInteger => lit "long"
  | CFloating | CDoublePrecision | CDecimal => lit "double"
  | CBoolean => lit "bool"
  | CBinary => lit "binData"
  | _ => lit "string"
  end.

Definition escape_json_char (ch : byte) : bytes :=
  if ch =b? x5c then [x5c; x5c]
  else if ch =b? x22 then [x5c; x22]
  else if ch =b? x0a then [x5c; "n"%byte]
  else if ch =b? x0d then [x5c; "r"%byte]
  else if ch =b? x09 then [x5c; "t"%byte]
  else [ch].

Definition escape_json (value : bytes) : bytes := value ≫= escape_json_char.

(** A JSON string; the literals below write the quotation mark as [']. *)
Definition json_text (value : bytes) : bytes := [x22] ++ escape_json value ++ [x22].

Definition json_lit (s : string) : bytes := map (fun c => if c =b? "'" then x22 else c) (lit s).

Definition mongo_command (value : bytes) : Statement := mkStatement mongodb_command value.

(** The columns a validator mentions. *)
Definition validated_columns (o : TableOperation) : list ColumnDefinition :=
  filter (fun c => bool_decide (c_type c = CId) = false) (o_columns o).

Definition mongo_property (column : ColumnDefinition) : bytes :=
  let bson_type := [x22] ++ mongo_bson_type (c_type column) ++ [x22] in
  json_text (c_name column) ++ json_lit ":{'bsonType':" ++
  (if c_nullable_value column then lit "[" ++ bson_type ++ json_lit ",'null']" else bson_type) ++
  (if is_nil (c_allowed_values column) then []
   else json_lit ",'enum':[" ++ join (lit ",") (map json_text (c_allowed_values column)) ++
        (if c_nullable_value column then lit ",null" else []) ++ lit "]") ++
  lit "}".

Definition mongo_validator (o : TableOperation) : bytes :=
  let columns := validated_columns o in
  let required :=
    join (lit ",") (map (fun c => json_text (c_name c)) (filter (fun c => c_nullable_value c = false) columns)) in
  let properties := join (lit ",") (map mongo_property columns) in
  json_lit "{'$jsonSchema':{'bsonType':'object','required':[" ++ required ++ json_lit "],'properties':{" ++
  properties ++ lit "}}}".

(** The lambda [add] of [append_mongo_indexes]. *)
Definition mongo_index (o : TableOperation) (columns : list bytes) (is_unique : bool) (name : bytes) : Statement :=
  let name :=
    if is_nil name then conventional_index_name (o_name o) columns (if is_unique then unique_index else plain_index)
    else name in
  mongo_command
    (json_lit "{'createIndexes':" ++ json_text (o_name o) ++ json_lit ",'indexes':[{'key':{" ++
     join (lit ",") (map (fun c => json_text c ++ lit ":1") columns) ++ json_lit "},'name':" ++ json_text name ++
     (if is_unique then json_lit ",'unique':true" else []) ++ lit "}]}").

Definition append_mongo_indexes (o : TableOperation) : Compilation :=
  mkCompilation
    ((o_columns o ≫= fun c =>
        if c_index_value c || c_unique_value c then [mongo_index o [c_name c] (c_unique_value c) []] else []) ++
     (o_indexes o ≫= fun i =>
        if is_primary i then [] else [mongo_index o (i_columns i) (bool_decide (i_type i = unique_index)) (i_name i)]))
    (o_indexes o ≫= fun i =>
       if is_primary i
       then [lit "MongoDB uses _id as its primary key; custom primary index ignored for collection '" ++
             o_name o ++ lit "'"]
       else []).

Definition has_reference (c : ColumnDefinition) : bool := match c_reference c with Some _ => true | None => false end.

Definition foreign_warnings (o : TableOperation) : list bytes :=
  if negb (is_nil (o_foreign_keys o)) || existsb has_reference (o_columns o)
  then [lit "MongoDB does not enforce relational foreign keys for collection '" ++ o_name o ++ lit "'"]
  else [].

Definition mongo_alter_command (o : TableOperation) (c : AlterCommand) : list Statement :=
  let update change :=
    mongo_command (json_lit "{'update':" ++ json_text (o_name o) ++ json_lit ",'updates':[{'q':{},'u':{" ++ change ++
                   json_lit "}},'multi':true}]}") in
  match a_type c with
  | rename_column =>
      if is_nil (a_name c) then []
      else [update (json_lit "'$rename':{" ++ json_text (a_name c) ++ lit ":" ++ json_text (a_new_name c))]
  | drop_column =>
      if is_nil (a_columns c) then []
      else [update (json_lit "'$unset':{" ++ join (lit ",") (map (fun n => json_text n ++ json_lit ":''") (a_columns c)))]
  | drop_index_ | drop_unique_index =>
      [mongo_command (json_lit "{'dropIndexes':" ++ json_text (o_name o) ++ json_lit ",'index':" ++
                      json_text (a_name c) ++ lit "}")]
  | _ => []
  end.

Definition compile_mongodb_operation (o : TableOperation) : Compilation :=
  let indexes := append_mongo_indexes o in
  match o_type o with
  | create_table =>
      mkCompilation
        (mongo_command (json_lit "{'create':" ++ json_text (o_name o) ++ json_lit ",'validator':" ++ mongo_validator o ++
                        lit "}")
         :: statements indexes)
        (warnings indexes ++ foreign_warnings o)
  | alter_table =>
      mkCompilation
        ((if is_nil (o_columns o) then []
          else [mongo_command (json_lit "{'collMod':" ++ json_text (o_name o) ++ json_lit ",'validator':" ++
                               mongo_validator o ++ lit "}")]) ++
         statements indexes ++ (o_commands o ≫= mongo_alter_command o))
        (warnings indexes ++ foreign_warnings o)
  | rename_table =>
      mkCompilation []
        [lit "MongoDB collection rename requires the active database name; runner must translate rename '" ++
         o_name o ++ lit "' -> '" ++ o_new_name o ++ lit "'"]
  | drop_table | drop_table_if_exists =>
      mkCompilation [mongo_command (json_lit "{'drop':" ++ json_text (o_name o) ++ lit "}")] []
  end.

Definition compile_mongodb (plan : Plan) : Compilation :=
  let parts := map compile_mongodb_operation plan in
  mkCompilation (parts ≫= statements) (parts ≫= warnings).

(** [database::compile]. *)
Definition compile (b : Backend) (plan : Plan) : result Compilation :=
  match b with
  | mongodb => Ok (compile_mongodb plan)
  | _ => compile_sql b plan
  end.
