(* ===== verification/SchemaSqlFacts.v ===== *)
(** * Compiled schema statements

    A small reader of SQL text that knows quoted identifiers and string literals of the
    four dialects.  Each compiled statement reads as one statement in which the names and
    texts of the plan come back unchanged.

    Compiled MongoDB commands

    Each command the schema compiler makes for MongoDB is the JSON text of a document
    given here; reading the text back with the JSON parser gives that document. *)

From S2P Require Import Prelude Numeral Text Double DoubleFacts Json JsonFacts Transaction View Schema SchemaSql.

#[local] Arguments lit : simpl never.

(** ** Reading SQL text *)

Inductive SqlToken := QIdent (name : bytes) | QText (text : bytes) | QChar (c : byte).

Definition opening (b : Backend) : byte := match b with mysql => "`" | mssql => "[" | _ => x22 end%byte.
Definition closing (b : Backend) : byte := match b with mysql => "`" | mssql => "]" | _ => x22 end%byte.

Inductive ReadState := Outside | InName (s : bytes) | NameEnd (s : bytes) | InText (s : bytes) | Escape (s : bytes) | TextEnd (s : bytes).

(** A doubled closing mark stands for one; in MySQL a backslash escapes the next character
    of a text. *)
Fixpoint read_sql (b : Backend) (st : ReadState) (s : bytes) : option (list SqlToken) :=
  match s with
  | [] =>
      match st with
      | Outside => Some []
      | NameEnd n => Some [QIdent n]
      | TextEnd t => Some [QText t]
      | _ => None
      end
  | c :: s' =>
      let outside := if c =b? opening b then read_sql b (InName []) s'
                     else if c =b? "'" then read_sql b (InText []) s'
                     else cons (QChar c) <$> read_sql b Outside s' in
      match st with
      | Outside => outside
      | InName n => if c =b? closing b then read_sql b (NameEnd n) s' else read_sql b (InName (n ++ [c])) s'
      | NameEnd n => if c =b? closing b then read_sql b (InName (n ++ [c])) s' else cons (QIdent n) <$> outside
      | InText t =>
          if c =b? "'" then read_sql b (TextEnd t) s'
          else if (c =b? x5c) && bool_decide (b = mysql) then read_sql b (Escape t) s'
          else read_sql b (InText (t ++ [c])) s'
      | Escape t => read_sql b (InText (t ++ [c])) s'
      | TextEnd t => if c =b? "'" then read_sql b (InText (t ++ [c])) s' else cons (QText t) <$> outside
      end
  end.

(** A character of the fixed parts of a statement. *)
Definition sql_plain (c : byte) : bool :=
  negb (existsb (fun d => c =b? d) [";"; "'"; x22; "`"; "["; "]"; x5c]%byte).

Definition plain_text (s : bytes) : bool := forallb sql_plain s.

(** What follows a name or a text: nothing, or a plain character. *)
Definition apart (s : bytes) : bool := match s with [] => true | c :: _ => (c =b? ";") || sql_plain c end.

Section Statements.
Variable b : Backend.
(** The names and the texts a statement may hold. *)
Variable N L : bytes -> Prop.

(** Texts that hold no character the dialect escapes otherwise. *)
Definition literal_ok (s : bytes) : Prop := b = mysql -> existsb (fun c => c =b? x5c) s = false.

Hypothesis L_ok : forall s, L s -> literal_ok s.

Inductive Woven_sql : bytes -> Prop :=
| ws_nil : Woven_sql []
| ws_char c t : sql_plain c = true -> Woven_sql t -> Woven_sql (c :: t)
| ws_name n t : N n -> apart t = true -> Woven_sql t -> Woven_sql (quote_identifier b n ++ t)
| ws_text s t : L s -> apart t = true -> Woven_sql t -> Woven_sql (sql_literal s ++ t).

Definition token_ok (t : SqlToken) : Prop :=
  match t with QIdent n => N n | QText s => L s | QChar c => sql_plain c = true end.

Lemma read_name n acc rest :
  read_sql b (InName acc) (doubled (closing b) n ++ closing b :: rest) = read_sql b (NameEnd (acc ++ n)) rest.
Proof.
  revert acc. induction n as [|c n IH]; intros acc; cbn [doubled mbind list_bind app].
  - cbn [read_sql]. rewrite byte_eqb_refl. by rewrite app_nil_r.
  - destruct (c =b? closing b) eqn:E; cbn [app read_sql].
    + rewrite !E. fold (doubled (closing b) n). by rewrite (IH (acc ++ [c])), <-app_assoc.
    + rewrite !E. fold (doubled (closing b) n). by rewrite (IH (acc ++ [c])), <-app_assoc.
Qed.

Lemma read_literal s acc rest :
  literal_ok s ->
  read_sql b (InText acc) (escape_sql_string s ++ "'"%byte :: rest) = read_sql b (TextEnd (acc ++ s)) rest.
Proof.
  intros Hs. assert (b = mysql -> forall c, c ∈ s -> (c =b? x5c) = false) as Hb.
  { intros E c Hc. specialize (Hs E). destruct (c =b? x5c) eqn:Ec; [|done].
    rewrite <-Hs. symmetry. apply existsb_exists. exists c. by rewrite <-list_elem_of_In. }
  clear Hs. revert acc. induction s as [|c s IH]; intros acc.
  - cbn. by rewrite app_nil_r.
  - unfold escape_sql_string, doubled in *. cbn [mbind list_bind app]. destruct (c =b? "'") eqn:E; cbn [app read_sql].
    + rewrite !E. rewrite IH by (intros; apply Hb; set_solver). by rewrite <-app_assoc.
    + rewrite E. assert ((c =b? x5c) && bool_decide (b = mysql) = false) as ->.
      { destruct (decide (b = mysql)) as [Hm|]; [|rewrite bool_decide_eq_false_2 by done; by rewrite andb_false_r].
        by rewrite Hb by set_solver. }
      rewrite IH by (intros; apply Hb; set_solver). by rewrite <-app_assoc.
Qed.

Lemma plain_marks c : sql_plain c = true -> (c =b? opening b) = false /\ (c =b? closing b) = false /\ (c =b? "'") = false.
Proof.
  assert (implb (sql_plain c) (negb ((c =b? opening b) || (c =b? closing b) || (c =b? "'"))) = true) as H
    by (clear; destruct b; by_bytes).
  intros Hc. rewrite Hc in H. cbn in H. by apply negb_true_iff, orb_false_iff in H as [[? ?]%orb_false_iff ?].
Qed.

Lemma semicolon_marks : (";" =b? opening b) = false /\ (";" =b? closing b) = false.
Proof. by destruct b. Qed.

Lemma apart_marks c t : apart (c :: t) = true -> (c =b? closing b) = false /\ (c =b? "'") = false.
Proof. cbn. intros [H|H]%orb_prop; [reflect_bools; subst; by destruct b|]. by destruct (plain_marks c H) as (? & ? & ?). Qed.

(** A name, read to its end, gives back the name. *)
Lemma read_after_name n t : apart t = true -> read_sql b (NameEnd n) t = cons (QIdent n) <$> read_sql b Outside t.
Proof. destruct t as [|c t]; [done|]. intros Ha. cbn [read_sql]. by destruct (apart_marks c t Ha) as [-> _]. Qed.

Lemma read_after_text s t : apart t = true -> read_sql b (TextEnd s) t = cons (QText s) <$> read_sql b Outside t.
Proof. destruct t as [|c t]; [done|]. intros Ha. cbn [read_sql]. by destruct (apart_marks c t Ha) as [_ ->]. Qed.

Lemma quote_shape n : quote_identifier b n = opening b :: doubled (closing b) n ++ [closing b].
Proof. by destruct b. Qed.

Lemma apart_end t : apart t = true -> apart (t ++ [";"%byte]) = true.
Proof. by destruct t. Qed.

(** A woven text and a semicolon are one statement. *)
Lemma woven_reads t :
  Woven_sql t -> exists toks, read_sql b Outside (t ++ [";"%byte]) = Some (toks ++ [QChar ";"]) /\ Forall token_ok toks.
Proof.
  induction 1 as [|c t Hc _ (toks & E & Ht)|n t Hn Ha _ (toks & E & Ht)|s t Hs Ha _ (toks & E & Ht)].
  - exists []. cbn. by destruct semicolon_marks as [-> _].
  - exists (QChar c :: toks). destruct (plain_marks c Hc) as (H1 & _ & H3). cbn [app read_sql]. rewrite H1, H3, E.
    split; [done|]. by constructor.
  - exists (QIdent n :: toks). split; [|by constructor]. rewrite quote_shape, <-app_assoc. cbn [app read_sql].
    rewrite byte_eqb_refl, <-app_assoc. cbn [app]. rewrite read_name. cbn [app].
    rewrite read_after_name by by apply apart_end. by rewrite E.
  - exists (QText s :: toks). split; [|by constructor]. unfold sql_literal. rewrite <-!app_assoc.
    change (lit "'" ++ ?x) with ("'"%byte :: x). cbn [read_sql].
    replace ("'" =b? opening b)%byte with false by by destruct b.
    rewrite byte_eqb_refl. change (lit "'" ++ ?x) with ("'"%byte :: x). rewrite read_literal by by apply L_ok. cbn [app]. rewrite read_after_text by by apply apart_end. by rewrite E.
Qed.

(** ** Putting woven texts together *)

Lemma ws_plain t : plain_text t = true -> Woven_sql t.
Proof. induction t as [|c t IH]; cbn; [constructor|]. intros [Hc Ht]%andb_prop. constructor; auto. Qed.

Lemma ws_plain_app t u : plain_text t = true -> Woven_sql u -> Woven_sql (t ++ u).
Proof. induction t as [|c t IH]; cbn; [done|]. intros [Hc Ht]%andb_prop Hu. constructor; auto. Qed.

Lemma apart_app t u : apart t = true -> apart u = true -> apart (t ++ u) = true.
Proof. by destruct t. Qed.

Lemma ws_app t u : Woven_sql t -> Woven_sql u -> apart u = true -> Woven_sql (t ++ u).
Proof.
  induction 1 as [|c t Hc _ IH|n t Hn Ha _ IH|s t Hs Ha _ IH]; intros Hu Hau; [done| | |].
  - constructor; auto.
  - rewrite <-app_assoc. constructor; [done|by apply apart_app|auto].
  - rewrite <-app_assoc. constructor; [done|by apply apart_app|auto].
Qed.

Lemma ws_name_end n : N n -> Woven_sql (quote_identifier b n).
Proof. intros Hn. rewrite <-(app_nil_r (quote_identifier b n)). by apply ws_name; [..|constructor]. Qed.

Lemma ws_text_end s : L s -> Woven_sql (sql_literal s).
Proof. intros Hs. rewrite <-(app_nil_r (sql_literal s)). by apply ws_text; [..|constructor]. Qed.

Lemma ws_join {A} (f : A -> bytes) l :
  (forall a, a ∈ l -> Woven_sql (f a)) -> Woven_sql (join (lit ", ") (map f l)).
Proof.
  clear L_ok. induction l as [|a l IH]; intros Hl; [constructor|]. destruct l as [|a' l]; [apply Hl; set_solver|].
  change (Woven_sql (f a ++ lit ", " ++ join (lit ", ") (map f (a' :: l)))).
  apply ws_app; [apply Hl; set_solver| |done]. apply ws_plain_app; [done|]. apply IH. intros. apply Hl. set_solver.
Qed.

Lemma ws_identifiers l : Forall N l -> Woven_sql (join_identifiers b l).
Proof. intros Hl. apply ws_join. intros a Ha. apply ws_name_end. rewrite Forall_forall in Hl. auto. Qed.

Lemma ws_if (p : bool) t u : Woven_sql t -> Woven_sql u -> Woven_sql (if p then t else u).
Proof. by destruct p. Qed.
End Statements.

(** ** The fixed parts are plain *)

Lemma plain_app t u : plain_text t = true -> plain_text u = true -> plain_text (t ++ u) = true.
Proof. unfold plain_text. intros. rewrite forallb_app. by apply andb_true_intro. Qed.

Lemma plain_digit c : is_digit c = true -> sql_plain c = true.
Proof. assert (implb (is_digit c) (sql_plain c) = true) as H by (clear; by_bytes). intros Hc. by rewrite Hc in H. Qed.

Lemma plain_digits s : Forall (fun c => is_digit c = true) s -> plain_text s = true.
Proof. induction 1; [done|]. cbn. by rewrite plain_digit. Qed.

Lemma plain_unsigned n : 0 <= n -> plain_text (to_string_u n) = true.
Proof. intros Hn. by apply plain_digits, to_string_u_digits. Qed.

Lemma plain_number z : plain_text (to_string z) = true.
Proof.
  unfold to_string. destruct (z <? 0) eqn:E; reflect_bools; [|by apply plain_unsigned].
  cbn [plain_text forallb]. apply plain_unsigned. lia.
Qed.

Lemma digits_take n s : digits s -> digits (take n s).
Proof. apply Forall_take. Qed.

Lemma digits_drop n s : digits s -> digits (drop n s).
Proof. apply Forall_drop. Qed.

Lemma plain_fraction s : digits s -> plain_text (point_fraction s) = true.
Proof.
  intros Hs%strip_zeros_digits. unfold point_fraction. destruct (strip_zeros s) eqn:E; [done|]. rewrite <-E in *.
  by apply plain_digits in Hs.
Qed.

Lemma plain_exponent x : plain_text (print_exponent x) = true.
Proof.
  unfold print_exponent. cbn [plain_text forallb]. destruct (x <? 0); (destruct (_ <? 10); apply plain_unsigned; lia).
Qed.

Lemma significant6_nonneg a b : 0 < a -> 0 < b -> 0 <= (significant6 a b).1.
Proof.
  intros Ha Hb. unfold significant6. destruct (scaled 10 a b _) as [n d] eqn:E.
  destruct (scaled_pos 10 a b (ilog10 a b - 5) n d) as [Hn Hd]; [done..|].
  destruct (_ =? 10 ^ 6); [done|]. cbn [fst]. apply round_half_even_ge; lia.
Qed.

Lemma plain_layout ds x : digits ds -> plain_text (layout_g6 ds x) = true.
Proof.
  intros Hd. unfold layout_g6. destruct (_ || _); [|destruct (0 <=? x)].
  - apply plain_app; [by apply plain_digits, digits_take|]. apply plain_app; [by apply plain_fraction, digits_drop|].
    apply plain_exponent.
  - apply plain_app; [by apply plain_digits, digits_take|by apply plain_fraction, digits_drop].
  - cbn [plain_text forallb]. apply plain_fraction. apply Forall_app. split; [by apply Forall_replicate|done].
Qed.

Lemma plain_double d : canonical d = true -> plain_text (stream_double d) = true.
Proof.
  destruct d as [neg m e|[]|]; [|done..]. intros Hc.
  assert (plain_text (if m =? 0 then lit "0" else let '(a, b) := scaled 2 m 1 (- e) in
             let '(D, x) := significant6 a b in layout_g6 (to_digits 6 D) x) = true) as H.
  { destruct (m =? 0) eqn:Em; [done|]. destruct (scaled 2 m 1 (- e)) as [a b] eqn:E.
    assert (0 < m) by (unfold canonical in Hc; reflect_bools; lia).
    destruct (scaled_pos 2 m 1 (- e) a b) as [Ha Hb]; [done..|].
    pose proof (significant6_nonneg a b Ha Hb) as HD. destruct (significant6 a b) as [D x].
    by apply plain_layout, to_digits_digits. }
  unfold stream_double. destruct neg; [|exact H]. cbn [plain_text forallb]. exact H.
Qed.

(** ** Statements of one operation *)

Create HintDb named.

Section Operation.
Variable b : Backend.
Variable o : TableOperation.

(** The names of an operation, with those the compiler derives from them. *)
Inductive Named : bytes -> Prop :=
| named_table : Named (o_name o)
| named_new : Named (o_new_name o)
| named_column c : c ∈ o_columns o -> Named (c_name c)
| named_reference_table c r : c ∈ o_columns o -> c_reference c = Some r -> Named (fr_table r)
| named_reference_column c r : c ∈ o_columns o -> c_reference c = Some r -> Named (fr_column r)
| named_index i : i ∈ o_indexes o -> Named (i_name i)
| named_index_column i n : i ∈ o_indexes o -> n ∈ i_columns i -> Named n
| named_foreign f : f ∈ o_foreign_keys o -> Named (f_name f)
| named_foreign_table f : f ∈ o_foreign_keys o -> Named (f_table f)
| named_foreign_column f n : f ∈ o_foreign_keys o -> n ∈ f_columns f -> Named n
| named_referenced f n : f ∈ o_foreign_keys o -> n ∈ f_referenced_columns f -> Named n
| named_command c : c ∈ o_commands o -> Named (a_name c)
| named_command_new c : c ∈ o_commands o -> Named (a_new_name c)
| named_command_column c n : c ∈ o_commands o -> n ∈ a_columns c -> Named n
| named_pkey : Named (o_name o ++ lit "_pkey")
| named_conventional columns type : Named (conventional_index_name (o_name o) columns type)
| named_foreign_default columns : Named (foreign_name (o_name o) columns).

(** The texts of an operation: defaults and enumerations, and the names SQL Server renames. *)
Inductive Literal : bytes -> Prop :=
| literal_default c s : c ∈ o_columns o -> c_default_value_data c = DString s -> Literal s
| literal_allowed c s : c ∈ o_columns o -> s ∈ c_allowed_values c -> Literal s
| literal_renamed : b = mssql -> Literal (o_name o)
| literal_new : b = mssql -> Literal (o_new_name o)
| literal_command c : b = mssql -> c ∈ o_commands o -> Literal (o_name o ++ lit "." ++ a_name c)
| literal_command_new c : b = mssql -> c ∈ o_commands o -> Literal (a_new_name c)
| literal_kind (s : string) : b = mssql -> s ∈ ["COLUMN"; "INDEX"]%string -> Literal (lit s).

#[local] Hint Constructors Named Literal : named.

(** A name without a single quotation mark. *)
Definition unquoted (s : bytes) : bool := negb (existsb (fun c => c =b? "'") s).

Definition renames (c : AlterCommand) : bool :=
  bool_decide (a_type c = rename_column) || bool_decide (a_type c = rename_index_).

(** What the compiler passes through as it is: raw expressions and collations must be
    plain, MySQL texts without backslashes, and the names [sp_rename] is given unquoted. *)
Definition regular_default (value : DefaultValue) : bool :=
  match value with
  | DExpression s => plain_text s
  | DDouble d => canonical d
  | DString s => negb (bool_decide (b = mysql)) || negb (existsb (fun c => c =b? x5c) s)
  | _ => true
  end.

Definition regular_column (c : ColumnDefinition) : bool :=
  regular_default (c_default_value_data c) && plain_text (c_collation_value c) &&
  (negb (bool_decide (b = mysql)) || forallb (fun s => negb (existsb (fun c => c =b? x5c) s)) (c_allowed_values c)).

Definition regular : bool :=
  forallb regular_column (o_columns o) &&
  (negb (bool_decide (b = mssql)) ||
   (unquoted (o_name o) && unquoted (o_new_name o) &&
    forallb (fun c => negb (renames c) || unquoted (a_name c) && unquoted (a_new_name c)) (o_commands o))).

Hypothesis regular_ok : regular = true.

Abbreviation W := (Woven_sql b Named Literal).

Lemma column_regular c : c ∈ o_columns o -> regular_column c = true.
Proof.
  intros Hc. unfold regular in regular_ok. apply andb_prop in regular_ok as [H _]. rewrite forallb_forall in H.
  by apply H, list_elem_of_In.
Qed.

Lemma literal_fine s : Literal s -> literal_ok b s.
Proof.
  intros Hs Hb.
  destruct Hs as [c s Hc Hd|c s Hc Hi| | | | |]; try congruence; apply column_regular in Hc; unfold regular_column in Hc;
    rewrite (bool_decide_eq_true_2 _ Hb) in Hc; cbn [negb orb] in Hc; apply andb_prop in Hc as [Hc1 Hc2].
  - apply andb_prop in Hc1 as [Hc1 _]. unfold regular_default in Hc1. rewrite Hd, (bool_decide_eq_true_2 _ Hb) in Hc1.
    by apply negb_true_iff in Hc1.
  - rewrite forallb_forall in Hc2. apply negb_true_iff, Hc2. by apply list_elem_of_In.
Qed.

(** Texts built with [++]: plain pieces, names and texts, each followed by a plain piece. *)
Ltac weave :=
  repeat first
    [ apply ws_nil
    | rewrite app_nil_r
    | apply ws_name_end; solve [eauto with named]
    | apply ws_text_end; solve [eauto with named]
    | apply ws_name; [solve [eauto with named]| |]
    | apply ws_text; [solve [eauto with named]| |]
    | apply ws_plain_app; [reflexivity|]
    | apply ws_plain; reflexivity
    | reflexivity ].

Lemma reference_action_plain a : plain_text (reference_action a) = true.
Proof. by destruct a. Qed.

Lemma weave_default c : c ∈ o_columns o -> W (default_sql (c_default_value_data c)).
Proof.
  intros Hc. pose proof (column_regular c Hc) as Hr. unfold regular_column in Hr.
  apply andb_prop in Hr as [[Hr _]%andb_prop _]. destruct (c_default_value_data c) as [| |[]|z|z|d|s|s] eqn:E;
    cbn [default_sql]; weave.
  - apply ws_plain, plain_number.
  - apply ws_plain, plain_number.
  - by apply ws_plain, plain_double.
  - by apply ws_plain.
Qed.

Lemma weave_literals c : c ∈ o_columns o -> W (join (lit ", ") (map sql_literal (c_allowed_values c))).
Proof. intros Hc. apply ws_join. intros s Hs. apply ws_text_end. eauto with named. Qed.

Lemma weave_type c t : c ∈ o_columns o -> type_sql b c = Ok t -> W t.
Proof.
  intros Hc. assert (plain_text (decimal_size c) = true) as Hd.
  { unfold decimal_size. repeat (apply plain_app; [reflexivity || apply plain_number|]). reflexivity. }
  assert (plain_text (length_size c) = true) as Hl.
  { unfold length_size. apply plain_app; [reflexivity|]. apply plain_app; [apply plain_number|reflexivity]. }
  pose proof (weave_literals c Hc) as Hw. unfold type_sql. destruct b; [| | | |done]; intros <-%Ok_inj; destruct (c_type c); try (apply ws_plain; reflexivity);
    try (apply ws_plain_app; [reflexivity|by apply ws_plain]).
  apply ws_plain_app; [reflexivity|]. apply ws_app; [exact Hw|weave..].
Qed.

(** Clauses: woven texts that may follow anything. *)
Definition clause (t : bytes) : Prop := W t /\ apart t = true.

Lemma clause_app t u : clause t -> clause u -> clause (t ++ u).
Proof. intros [? ?] [? ?]. split; [by apply ws_app|by apply apart_app]. Qed.

Lemma clause_after t u : W t -> clause u -> W (t ++ u).
Proof. intros ? [? ?]. by apply ws_app. Qed.

Lemma clause_if (p : bool) t : clause t -> clause (if p then t else []).
Proof. destruct p; [done|]. intros _. split; [constructor|done]. Qed.

Lemma clause_if_not (p : bool) t : clause t -> clause (if p then [] else t).
Proof. destruct p; [|done]. intros _. split; [constructor|done]. Qed.

Lemma clause_plain t : plain_text t = true -> apart t = true -> clause t.
Proof. intros. split; [by apply ws_plain|done]. Qed.

Lemma clause_nil : clause [].
Proof. split; [constructor|done]. Qed.

(** A space, or another plain character, and a woven text. *)
Lemma clause_lit t u : plain_text t = true -> apart t = true -> t <> [] -> W u -> clause (t ++ u).
Proof. intros Ht Ha Hn Hu. split; [by apply ws_plain_app|by destruct t]. Qed.

Lemma clause_references (table column on_d on_u : bytes) :
  Named table -> W column -> plain_text on_d = true -> plain_text on_u = true ->
  clause (lit " REFERENCES " ++ quote_identifier b table ++ lit " (" ++ column ++ lit ")" ++ lit " ON DELETE " ++ on_d ++
          lit " ON UPDATE " ++ on_u).
Proof.
  intros Ht Hc Hd Hu. apply clause_lit; [reflexivity..|done|]. apply ws_name; [done|reflexivity|].
  apply ws_plain_app; [reflexivity|]. apply ws_app; [done| |reflexivity].
  do 2 (apply ws_plain_app; [reflexivity|]). apply ws_plain_app; [done|]. apply ws_plain_app; [reflexivity|by apply ws_plain].
Qed.

Lemma weave_check c : c ∈ o_columns o -> W (enum_check b c).
Proof.
  intros Hc. unfold enum_check. destruct (_ || _); [constructor|]. weave. apply ws_app; [by apply weave_literals|weave..].
Qed.

Lemma weave_column c t : c ∈ o_columns o -> column_sql b (o_name o) c = Ok t -> W t.
Proof.
  intros Hc. unfold column_sql. intros (ty & Ht & H)%bind_Ok. revert H. cbv zeta. intros <-%Ok_inj.
  pose proof (weave_type _ _ Hc Ht) as Hty. pose proof (column_regular c Hc) as Hr. unfold regular_column in Hr.
  apply andb_prop in Hr as [[_ Hcol]%andb_prop _].
  apply ws_name; [eauto with named|reflexivity|]. apply ws_plain_app; [reflexivity|].
  apply clause_after; [exact Hty|].
  apply clause_app; [by apply clause_if, clause_plain|].
  apply clause_app; [unfold identity_sql; destruct (c_auto_increment_value c), b; by apply clause_plain|].
  apply clause_app; [destruct (c_nullable_value c); by apply clause_plain|].
  apply clause_app.
  { unfold default_clause. apply clause_if_not. destruct (_ && _); [by apply clause_plain|].
    destruct (_ && _); [by apply clause_plain|]. apply clause_lit; [reflexivity..|done|by apply weave_default]. }
  apply clause_app; [by apply clause_if_not, clause_lit; [..|apply ws_plain]|].
  apply clause_app; [by apply clause_if, clause_plain|].
  apply clause_app.
  { unfold primary_clause. destruct (c_primary_value c); [|apply clause_nil]. destruct (bool_decide (b = mssql)).
    - apply clause_lit; [reflexivity..|done|weave].
    - apply clause_lit; [reflexivity..|done|]. by destruct (_ && _); [apply ws_plain|constructor]. }
  apply clause_app; [by apply clause_if, clause_plain|].
  apply clause_app.
  { unfold reference_clause. destruct (c_reference c) as [r|] eqn:Er; [|apply clause_nil].
    apply clause_lit; [reflexivity..|done|]. 
    destruct (clause_references (fr_table r) (quote_identifier b (fr_column r)) (reference_action (fr_on_delete r))
      (reference_action (fr_on_update r))) as [H1 H2]; [eauto with named|apply ws_name_end; eauto with named|apply reference_action_plain..|].
    apply ws_name; [eauto with named|done|done]. }
  apply clause_app; [apply clause_if_not, clause_lit; [reflexivity..|done|by apply weave_check]|].
  apply clause_if, clause_lit; [reflexivity..|done|weave].
Qed.

Lemma weave_foreign f : f ∈ o_foreign_keys o -> W (foreign_sql b (o_name o) f).
Proof.
  intros Hf. unfold foreign_sql. apply ws_plain_app; [reflexivity|].
  apply ws_name; [destruct (is_nil _); eauto with named|reflexivity|]. apply ws_plain_app; [reflexivity|].
  apply ws_app; [apply ws_identifiers, Forall_forall; eauto with named| |reflexivity].
  apply ws_plain_app; [reflexivity|].
  apply (clause_references (f_table f) (join_identifiers b (f_referenced_columns f)) _ _);
    [eauto with named|apply ws_identifiers, Forall_forall; eauto with named|apply reference_action_plain..].
Qed.

(** ** Statements *)

Definition one_statement (s : Statement) : Prop := exists t, s_text s = t ++ [";"%byte] /\ W t.

Definition closed (t : bytes) : Prop := exists u, t = u ++ [";"%byte] /\ W u.

Lemma closed_statement t : closed t -> one_statement (sql_statement t).
Proof. done. Qed.

Lemma closed_plain t u : plain_text t = true -> closed u -> closed (t ++ u).
Proof. intros Ht (v & -> & Hv). exists (t ++ v). rewrite <-app_assoc. split; [done|by apply ws_plain_app]. Qed.

Lemma closed_app t u : W t -> closed u -> apart u = true -> closed (t ++ u).
Proof.
  intros Ht (v & -> & Hv) Ha. exists (t ++ v). rewrite <-app_assoc. split; [done|]. apply ws_app; [done..|].
  by destruct v.
Qed.

Lemma closed_name n u : Named n -> closed u -> apart u = true -> closed (quote_identifier b n ++ u).
Proof. intros Hn. apply closed_app, ws_name_end. by eauto. Qed.

Lemma closed_text n u : Literal n -> closed u -> apart u = true -> closed (sql_literal n ++ u).
Proof. intros Hn. apply closed_app, ws_text_end. by eauto. Qed.

Lemma closed_identifiers l u : Forall Named l -> closed u -> apart u = true -> closed (join_identifiers b l ++ u).
Proof. intros Hl. by apply closed_app, ws_identifiers. Qed.

Lemma closed_end t : plain_text t = true -> closed (t ++ [";"%byte]).
Proof. intros Ht. exists t. split; [done|by apply ws_plain]. Qed.

Ltac close_ :=
  repeat first
    [ apply closed_name; [solve [eauto with named]| |reflexivity]
    | apply closed_identifiers; [first [assumption|apply Forall_forall; solve [eauto with named]]| |reflexivity]
    | apply closed_plain; [reflexivity|]
    | apply (closed_end []); reflexivity
    | apply (closed_end (lit ")")); reflexivity
    | apply (closed_end (lit " DROP PRIMARY KEY")); reflexivity
    | apply (closed_end (lit " DROP NOT NULL")); reflexivity
    | apply (closed_end (lit " SET NOT NULL")); reflexivity ].

Lemma index_statements i l :
  (i ∈ o_indexes o \/ (i_name i = [] /\ Forall Named (i_columns i))) ->
  append_index b (o_name o) i = Ok l -> Forall one_statement l.
Proof.
  intros Hi. set (name := if is_nil (i_name i) then conventional_index_name (o_name o) (i_columns i) (i_type i) else i_name i).
  assert (Named name) as Hn.
  { unfold name. destruct Hi as [Hi|[-> _]]; [destruct (is_nil _); eauto with named|cbn; eauto with named]. }
  assert (Forall Named (i_columns i)) as Hc by (destruct Hi as [Hi|[_ ?]]; [apply Forall_forall; eauto with named|done]).
  unfold append_index. fold name.
  assert (forall t, closed t -> Forall one_statement [sql_statement t]) as Hone by (intros; by repeat constructor).
  assert (forall p, plain_text p = true ->
    closed (p ++ quote_identifier b name ++ lit " ON " ++ quote_identifier b (o_name o) ++ lit " (" ++
            join_identifiers b (i_columns i) ++ lit ");")) as Hplain.
  { intros p Hp. apply closed_plain; [done|]. close_. }
  assert (closed (lit "ALTER TABLE " ++ quote_identifier b (o_name o) ++ lit " ADD PRIMARY KEY (" ++
                  join_identifiers b (i_columns i) ++ lit ");")) as H1 by close_.
  assert (closed (lit "ALTER TABLE " ++ quote_identifier b (o_name o) ++ lit " ADD CONSTRAINT " ++ quote_identifier b name ++
                  lit " PRIMARY KEY (" ++ join_identifiers b (i_columns i) ++ lit ");")) as H2 by close_.
  destruct (i_type i).
  - destruct b; try done; intros <-%Ok_inj; by apply Hone.
  - intros <-%Ok_inj. by apply Hone, Hplain.
  - intros <-%Ok_inj. by apply Hone, Hplain.
Qed.

Lemma mapM_statements {A} (f : A -> Statements) l r :
  (forall a s, a ∈ l -> f a = Ok s -> Forall one_statement s) -> mapM f l = Ok r -> Forall one_statement (concat r).
Proof.
  intros Hf H%mapM_Ok. induction H as [|a s l r Hs _ IH]; [constructor|]. cbn [concat]. apply Forall_app.
  split; [apply (Hf a); [set_solver|done]|]. apply IH. intros. eapply Hf; [|done]. set_solver.
Qed.

Lemma column_index_statements l : append_column_indexes b (o_name o) (o_columns o) = Ok l -> Forall one_statement l.
Proof.
  unfold append_column_indexes. intros (r & Hr & <-%Ok_inj)%bind_Ok. eapply mapM_statements; [|exact Hr].
  intros c s Hc. cbv beta. destruct (negb _); [by intros <-%Ok_inj|]. apply index_statements. right.
  split; [done|]. constructor; [by apply named_column|constructor].
Qed.

Lemma create_statements l : compile_create b o = Ok l -> Forall one_statement l.
Proof.
  unfold compile_create. intros (columns & Hc & (indexes & Hi & (others & Ho & <-%Ok_inj)%bind_Ok)%bind_Ok)%bind_Ok.
  constructor; [|apply Forall_app; split; [by apply column_index_statements|]].
  - apply closed_statement. close_. match goal with |- closed (join _ ?ds ++ _) => set (definitions := ds) end.
    assert (forall t, t ∈ definitions -> W t) as Hd.
    { intros t. unfold definitions. rewrite !elem_of_app. intros [Ht|[Ht|Ht]].
      - apply mapM_Ok in Hc. apply list_elem_of_lookup in Ht as [k Hk].
        destruct (Forall2_lookup_r _ _ _ _ _ Hc Hk) as (c & Hl & Hs). eapply weave_column; [|exact Hs].
        by eapply list_elem_of_lookup_2.
      - apply list_elem_of_fmap in Ht as (f & -> & Hf). by apply weave_foreign.
      - destruct (bool_decide _); [|by apply elem_of_nil in Ht].
        apply list_elem_of_fmap in Ht as (i & -> & [_ Hin]%list_elem_of_filter). apply ws_plain_app; [reflexivity|].
        apply ws_app; [apply ws_identifiers, Forall_forall; eauto with named|by apply ws_plain|reflexivity]. }
    clearbody definitions. rewrite <-(map_id definitions). apply closed_app; [by apply ws_join|close_|reflexivity].
  - eapply mapM_statements; [|exact Ho]. intros i s Hin. cbv beta. destruct (_ && _); [by intros <-%Ok_inj|].
    apply index_statements. by left.
Qed.

Lemma alter_column_statements c l :
  c ∈ o_columns o -> append_alter_column b (o_name o) c = Ok l -> Forall one_statement l.
Proof.
  intros Hc. assert (forall ty t, type_sql b c = Ok ty -> closed t -> apart t = true -> closed (ty ++ t)) as Hty.
  { intros ty t H. apply closed_app. by eapply weave_type. }
  assert (forall d t, column_sql b (o_name o) c = Ok d -> closed t -> apart t = true -> closed (d ++ t)) as Hcol.
  { intros d t H. apply closed_app. by eapply weave_column. }
  assert (Named (c_name c)) as Hn by by apply named_column.
  unfold append_alter_column. destruct (negb _).
  { intros (d & Hd & <-%Ok_inj)%bind_Ok. repeat constructor. apply closed_statement. close_. apply Hcol; [done|close_|reflexivity]. }
  destruct b eqn:Eb; try done; rewrite <-Eb in *; intros (d & Hd & <-%Ok_inj)%bind_Ok; repeat constructor;
    apply closed_statement; close_; try (apply Hty; [done| |reflexivity]); try (apply Hcol; [done| |reflexivity]); close_;
    destruct (c_nullable_value c); close_; (apply Hty; [done|close_|reflexivity]).
Qed.

Lemma unquoted_literal s : unquoted s = true -> lit "'" ++ s ++ lit "'" = sql_literal s.
Proof.
  intros Hs%negb_true_iff. unfold sql_literal, escape_sql_string, doubled. do 2 f_equal.
  induction s as [|c s IH]; [done|]. cbn in Hs. apply orb_false_iff in Hs as [Hc Hs]. cbn. by rewrite Hc, <-IH.
Qed.

Lemma unquoted_app s t : unquoted s = true -> unquoted t = true -> unquoted (s ++ t) = true.
Proof. unfold unquoted. intros ?%negb_true_iff ?%negb_true_iff. apply negb_true_iff. rewrite existsb_app. by apply orb_false_iff. Qed.

Lemma rename_statement from to suffix :
  unquoted from = true -> unquoted to = true -> Literal from -> Literal to -> closed (suffix ++ lit ";") ->
  apart (suffix ++ lit ";") = true -> one_statement (sp_rename from to suffix).
Proof.
  intros Hf Ht Lf Lt Hs Ha. apply closed_statement.
  replace (lit "EXEC sp_rename N'" ++ from ++ lit "', N'" ++ to ++ lit "'" ++ suffix ++ lit ";")
    with (lit "EXEC sp_rename N" ++ sql_literal from ++ lit ", N" ++ sql_literal to ++ suffix ++ lit ";").
  - apply closed_plain; [reflexivity|]. apply closed_text; [done| |reflexivity]. apply closed_plain; [reflexivity|].
    by apply closed_text.
  - rewrite <-!unquoted_literal by done. change (lit "EXEC sp_rename N'") with (lit "EXEC sp_rename N" ++ lit "'").
    change (lit "', N'") with (lit "'" ++ lit ", N" ++ lit "'"). by rewrite <-!app_assoc.
Qed.

Lemma mssql_regular :
  b = mssql ->
  unquoted (o_name o) = true /\ unquoted (o_new_name o) = true /\
  forall c, c ∈ o_commands o -> renames c = true -> unquoted (a_name c) = true /\ unquoted (a_new_name c) = true.
Proof.
  intros Hb. pose proof regular_ok as Hr. unfold regular in Hr. rewrite (bool_decide_eq_true_2 _ Hb) in Hr. cbn [negb orb] in Hr.
  apply andb_prop in Hr as [_ [[? ?]%andb_prop Hc]%andb_prop]. split; [done|]. split; [done|].
  intros c Hin Hren. rewrite forallb_forall in Hc. specialize (Hc c (proj1 (list_elem_of_In _ _) Hin)).
  rewrite Hren in Hc. by apply andb_prop in Hc.
Qed.

(** The statement [sp_rename] for a column or an index. *)
Lemma rename_member c (kind : string) :
  b = mssql -> c ∈ o_commands o -> renames c = true -> kind ∈ ["COLUMN"; "INDEX"]%string ->
  one_statement (sp_rename (o_name o ++ lit "." ++ a_name c) (a_new_name c) (lit ", N" ++ sql_literal (lit kind))).
Proof.
  intros Hb Hc Hr Hk. destruct (mssql_regular Hb) as (Ht & _ & Hcs). destruct (Hcs c Hc Hr) as [H1 H2].
  apply rename_statement; [by do 2 (apply unquoted_app; [done|])|done|by apply literal_command|by apply literal_command_new| |done].
  rewrite <-app_assoc. apply closed_plain; [reflexivity|]. apply closed_text; [by apply literal_kind|close_|reflexivity].
Qed.

Lemma command_statements c :
  b <> mongodb -> (b = sqlite -> needs_rebuild c = false) -> c ∈ o_commands o ->
  Forall one_statement (append_alter_command b (o_name o) c).
Proof.
  intros Hm Hs Hc.
  assert (forall t, closed t -> Forall one_statement [sql_statement t]) as Hone by (intros; by repeat constructor).
  assert (forall kind, kind ∈ ["COLUMN"; "INDEX"]%string -> renames c = true -> b = mssql ->
    Forall one_statement [sp_rename (o_name o ++ lit "." ++ a_name c) (a_new_name c) (lit ", N" ++ sql_literal (lit kind))]) as Hren.
  { intros kind Hk Hr Hb. constructor; [|constructor]. by apply rename_member. }
  assert (Named (if is_nil (a_name c) then o_name o ++ lit "_pkey" else a_name c)) as H1 by (destruct (is_nil _); eauto with named).
  assert (Named (if is_nil (a_name c) then foreign_name (o_name o) (a_columns c) else a_name c)) as H2
    by (destruct (is_nil _); eauto with named).
  unfold append_alter_command. destruct (a_type c) eqn:Et.
  - apply Forall_forall. intros s (n & -> & Hn)%list_elem_of_fmap. apply closed_statement. close_.
  - destruct b eqn:Eb; rewrite <-?Eb in *; try (apply Hone; solve [close_]).
    replace (lit ", N'COLUMN'") with (lit ", N" ++ sql_literal (lit "COLUMN")) by reflexivity.
    apply Hren; [set_solver|unfold renames; by rewrite Et|done].
  - destruct b eqn:Eb; rewrite <-?Eb in *; apply Hone; close_.
  - destruct b eqn:Eb; rewrite <-?Eb in *; apply Hone; close_.
  - destruct b eqn:Eb; rewrite <-?Eb in *; apply Hone; close_.
  - destruct b eqn:Eb; rewrite <-?Eb in *; try (apply Hone; solve [close_]); try done.
    + specialize (Hs eq_refl). unfold needs_rebuild in Hs. by rewrite Et in Hs.
    + replace (lit ", N'INDEX'") with (lit ", N" ++ sql_literal (lit "INDEX")) by reflexivity.
    apply Hren; [set_solver|unfold renames; by rewrite Et|done].
  - destruct b eqn:Eb; rewrite <-?Eb in *; apply Hone; close_.
Qed.

Lemma alter_statements l : b <> mongodb -> compile_alter b o = Ok l -> Forall one_statement l.
Proof.
  intros Hm. unfold compile_alter. intros (u & Hu & H)%bind_Ok.
  assert (b = sqlite -> forall c, c ∈ o_commands o -> needs_rebuild c = false) as Hs.
  { intros Eb c Hc. rewrite (bool_decide_eq_true_2 _ Eb) in Hu. destruct (negb _); [done|].
    destruct (existsb needs_rebuild _) eqn:E; [done|]. destruct (needs_rebuild c) eqn:En; [|done].
    rewrite <-E. symmetry. apply existsb_exists. exists c. by rewrite <-list_elem_of_In. }
  clear Hu. apply bind_Ok in H as (columns & Hc & (cis & Hci & (indexes & Hi & <-%Ok_inj)%bind_Ok)%bind_Ok).
  rewrite !Forall_app. split; [|split; [by apply column_index_statements|split; [|split]]].
  - eapply mapM_statements; [|exact Hc]. intros c s Hin. by apply alter_column_statements.
  - apply Forall_forall. intros s (f & -> & Hf)%list_elem_of_fmap. apply closed_statement. close_.
    apply closed_app; [by apply weave_foreign|close_|reflexivity].
  - eapply mapM_statements; [|exact Hi]. intros i s Hin. apply index_statements. by left.
  - apply Forall_forall. intros s (c & Hs' & Hin)%list_elem_of_bind.
    assert (Forall one_statement (append_alter_command b (o_name o) c)) as Hf by (apply command_statements; auto).
    rewrite Forall_forall in Hf. auto.
Qed.

Lemma operation_statements l : b <> mongodb -> compile_sql_operation b o = Ok l -> Forall one_statement l.
Proof.
  intros Hm. unfold compile_sql_operation. destruct (o_type o).
  - apply create_statements.
  - by apply alter_statements.
  - intros <-%Ok_inj. destruct b eqn:Eb; rewrite <-?Eb in *; (constructor; [|constructor]);
      try (apply closed_statement; solve [close_]).
    destruct (mssql_regular Eb) as (H1 & H2 & _). apply rename_statement; [done..|eauto with named|eauto with named| |done].
    change (closed (lit ";")). close_.
  - intros <-%Ok_inj. repeat constructor. apply closed_statement. close_.
  - intros <-%Ok_inj. repeat constructor. apply closed_statement. close_.
Qed.
End Operation.

(** C13. The SQL schema compiler cannot be talked into another statement by a plan of [regular]
    operations: each compiled text reads, by the quoting rules of its dialect, as exactly one
    statement, and every quoted name and every text in it is a name or a text of one operation
    of the plan, whatever other characters they contain.  Regular excludes what the compiler
    passes through as it is: raw default expressions and collations that are not plain text,
    texts with a backslash on MySQL (compiler.cpp:25), and on SQL Server operations with names
    that contain a single quote where [sp_rename] takes them as text (compiler.cpp:754). *)
Theorem compiled_statements b plan c :
  b <> mongodb -> Forall (fun o => regular b o = true) plan -> compile b plan = Ok c ->
  Forall (fun s => exists o toks, o ∈ plan /\ read_sql b Outside (s_text s) = Some (toks ++ [QChar ";"]) /\
                   Forall (token_ok (Named o) (Literal b o)) toks) (statements c).
Proof.
  intros Hb Hr Hc. assert (compile_sql b plan = Ok c) as Hsql by by destruct b. clear Hc. unfold compile_sql in Hsql.
  apply bind_Ok in Hsql as (l & Hl%mapM_Ok & <-%Ok_inj). cbn [statements].
  assert (Forall (fun s => exists o, o ∈ plan /\ regular b o = true /\ one_statement b o s) (concat l)) as Hs.
  { induction Hl as [|o s plan l Ho Hl IH]; [constructor|]. inversion Hr; subst. cbn [concat]. apply Forall_app. split.
    - eapply Forall_impl; [by eapply operation_statements|]. intros t Ht. exists o. split; [set_solver|done].
    - eapply Forall_impl; [by apply IH|]. intros t (o' & ? & ?). exists o'. split; [set_solver|done]. }
  eapply Forall_impl; [exact Hs|]. intros s (o & Hin & Ho & t & -> & Ht).
  destruct (woven_reads b (Named o) (Literal b o) (literal_fine b o Ho) t Ht) as (toks & E & Hok). by exists o, toks.
Qed.

(** A table with a hostile name, a default text that contains a quotation mark, and an index. *)
Definition hostile_plan : Plan :=
  [refine (default_value (DString (lit "it's; --"))) (column_string (lit "a` b]") 40
     (column_index [lit "a` b]"] [] (make_operation create_table (lit "t]; DROP TABLE users; --`"))))].

Lemma compiled_statements_witness :
  exists c, compile mysql hostile_plan = Ok c /\ length (statements c) = 2%nat /\
  Forall (fun s => exists o toks, o ∈ hostile_plan /\ read_sql mysql Outside (s_text s) = Some (toks ++ [QChar ";"]) /\
                   Forall (token_ok (Named o) (Literal mysql o)) toks) (statements c).
Proof.
  eexists. split; [vm_compute; reflexivity|]. split; [reflexivity|].
  apply (compiled_statements mysql hostile_plan); [discriminate|by repeat constructor|vm_compute; reflexivity].
Defined.

#[local] Arguments lit : simpl never.

(** Names and texts both escape functions write in the same way. *)
Definition json_plain (s : bytes) : bool :=
  forallb (fun c => (32 <=? uc c) || (c =b? x0a) || (c =b? x0d) || (c =b? x09)) s.

Lemma json_text_quoted s : json_plain s = true -> json_text s = quoted s.
Proof.
  intros Hs. unfold json_text, quoted. cbn [app]. f_equal. f_equal. unfold escape_json, escape_string.
  induction s as [|c s IH]; [done|]. cbn in Hs. apply andb_prop in Hs as [Hc Hs]. cbn. f_equal; [|by apply IH].
  assert (implb ((32 <=? uc c) || (c =b? x0a) || (c =b? x0d) || (c =b? x09))
            (bool_decide (escape_json_char c = escape_char c)) = true) as H by (clear; by_bytes).
  rewrite Hc in H. by apply bool_decide_eq_true in H.
Qed.

Lemma join_comma l : join (lit ",") l = comma_join l.
Proof.
  induction l as [|x l IH]; [done|]. destruct l as [|y l]; [cbn; by rewrite app_nil_r|].
  change (x ++ lit "," ++ join (lit ",") (y :: l) = comma_join (x :: y :: l)). by rewrite IH.
Qed.

Lemma comma_join_snoc l x : l <> [] -> comma_join (l ++ [x]) = comma_join l ++ lit "," ++ x.
Proof.
  destruct l as [|y l]; [done|]. intros _. cbn [comma_join app]. rewrite bind_app, <-app_assoc. cbn. by rewrite app_nil_r.
Qed.

(** The documents an operation stands for. *)
Definition bson_type_document (c : ColumnDefinition) : Json :=
  let type := JString (mongo_bson_type (c_type c)) in
  if c_nullable_value c then JArray [type; JString (lit "null")] else type.

Definition property_document (c : ColumnDefinition) : bytes * Json :=
  (c_name c,
   JObject ((lit "bsonType", bson_type_document c) ::
            (if is_nil (c_allowed_values c) then []
             else [(lit "enum", JArray (map JString (c_allowed_values c) ++
                                        (if c_nullable_value c then [JNull] else [])))]))).

Definition validator_document (o : TableOperation) : Json :=
  let columns := validated_columns o in
  JObject [(lit "$jsonSchema",
    JObject [(lit "bsonType", JString (lit "object"));
             (lit "required", JArray (map (fun c => JString (c_name c)) (filter (fun c => c_nullable_value c = false) columns)));
             (lit "properties", JObject (map property_document columns))])].

Definition index_document (o : TableOperation) (columns : list bytes) (is_unique : bool) (name : bytes) : Json :=
  let name :=
    if is_nil name then conventional_index_name (o_name o) columns (if is_unique then unique_index else plain_index)
    else name in
  JObject [(lit "createIndexes", JString (o_name o));
           (lit "indexes", JArray [JObject ([(lit "key", JObject (map (fun c => (c, JInt 1)) columns)); (lit "name", JString name)] ++
                                            (if is_unique then [(lit "unique", JBool true)] else []))])].

Definition index_documents (o : TableOperation) : list Json :=
  (o_columns o ≫= fun c =>
     if c_index_value c || c_unique_value c then [index_document o [c_name c] (c_unique_value c) []] else []) ++
  (o_indexes o ≫= fun i =>
     if is_primary i then [] else [index_document o (i_columns i) (bool_decide (i_type i = unique_index)) (i_name i)]).

Definition update_document (o : TableOperation) (operator : bytes) (fields : list (bytes * Json)) : Json :=
  JObject [(lit "update", JString (o_name o));
           (lit "updates", JArray [JObject [(lit "q", JObject []); (lit "u", JObject [(operator, JObject fields)]);
                                            (lit "multi", JBool true)]])].

Definition command_documents (o : TableOperation) (c : AlterCommand) : list Json :=
  match a_type c with
  | rename_column =>
      if is_nil (a_name c) then [] else [update_document o (lit "$rename") [(a_name c, JString (a_new_name c))]]
  | drop_column =>
      if is_nil (a_columns c) then [] else [update_document o (lit "$unset") (map (fun n => (n, JString [])) (a_columns c))]
  | drop_index_ | drop_unique_index => [JObject [(lit "dropIndexes", JString (o_name o)); (lit "index", JString (a_name c))]]
  | _ => []
  end.

Definition mongo_documents (o : TableOperation) : list Json :=
  match o_type o with
  | create_table =>
      JObject [(lit "create", JString (o_name o)); (lit "validator", validator_document o)] :: index_documents o
  | alter_table =>
      (if is_nil (o_columns o) then []
       else [JObject [(lit "collMod", JString (o_name o)); (lit "validator", validator_document o)]]) ++
      index_documents o ++ (o_commands o ≫= command_documents o)
  | rename_table => []
  | drop_table | drop_table_if_exists => [JObject [(lit "drop", JString (o_name o))]]
  end.

(** Names and texts without control characters the compiler leaves in, and no name twice
    among the columns of a validator, of an index or of one command. *)
Record mongo_ok (o : TableOperation) : Prop := {
  ok_table : json_plain (o_name o) = true;
  ok_columns : Forall (fun c => json_plain (c_name c) = true /\ Forall (fun s => json_plain s = true) (c_allowed_values c)) (o_columns o);
  ok_distinct : NoDup (c_name <$> validated_columns o);
  ok_indexes : Forall (fun i => json_plain (i_name i) = true /\ NoDup (i_columns i) /\
                                Forall (fun s => json_plain s = true) (i_columns i)) (o_indexes o);
  ok_commands : Forall (fun c => json_plain (a_name c) = true /\ json_plain (a_new_name c) = true /\ NoDup (a_columns c) /\
                                 Forall (fun s => json_plain s = true) (a_columns c)) (o_commands o)
}.

Definition states (s : Statement) (d : Json) : Prop := s_text s = dump d /\ wf d /\ normalize d = d.

Lemma dump_array l : dump (JArray l) = "["%byte :: comma_join (map dump l) ++ ["]"%byte].
Proof. done. Qed.

Lemma dump_object l :
  dump (JObject l) = "{"%byte :: comma_join (map (fun kv => quoted kv.1 ++ ":"%byte :: dump kv.2) l) ++ ["}"%byte].
Proof. done. Qed.

(** Both sides as one sequence of texts. *)
Ltac same_text :=
  cbn [dump map comma_join mbind list_bind app fst snd]; rewrite ?app_nil_r;
  repeat first [rewrite <-app_assoc|progress cbn [app]]; reflexivity.

Ltac distinct := apply (bool_decide_unpack _); vm_compute; exact I.

Lemma normalize_strings l : map normalize (map JString l) = map JString l.
Proof. rewrite map_map. by apply map_ext. Qed.

Lemma dump_strings l : Forall (fun s => json_plain s = true) l -> map dump (map JString l) = map json_text l.
Proof.
  intros Hl. rewrite map_map. apply map_ext_in. intros s Hs. rewrite Forall_forall in Hl. symmetry.
  apply json_text_quoted, Hl. by apply list_elem_of_In.
Qed.

Lemma property_text c :
  json_plain (c_name c) = true -> Forall (fun s => json_plain s = true) (c_allowed_values c) ->
  mongo_property c = quoted (property_document c).1 ++ ":"%byte :: dump (property_document c).2.
Proof.
  intros Hn Ha. unfold mongo_property, property_document, bson_type_document. rewrite json_text_quoted by done.
  cbn [fst snd]. f_equal.
  assert ([x22] ++ mongo_bson_type (c_type c) ++ [x22] = quoted (mongo_bson_type (c_type c))) as -> by by destruct (c_type c).
  destruct (c_allowed_values c) as [|v vs] eqn:E; cbn [is_nil].
  { destruct (c_nullable_value c); same_text. }
  rewrite <-E in *. rewrite join_comma, <-dump_strings by done. destruct (c_nullable_value c).
  - rewrite dump_object. cbn [map fst snd]. rewrite (dump_array (map JString _ ++ [JNull])), map_app.
    change (map dump [JNull]) with [lit "null"]. rewrite comma_join_snoc by by rewrite E. same_text.
  - rewrite app_nil_r. same_text.
Qed.

Lemma property_wf c : wf (property_document c).2 /\ normalize (property_document c).2 = (property_document c).2.
Proof.
  unfold property_document, bson_type_document. cbn [snd].
  assert (forall l, wf (JArray (map JString l ++ (if c_nullable_value c then [JNull] else [])))) as Hw.
  { intros l. apply wf_array, Forall_app. split; [by induction l; constructor|]. by destruct (c_nullable_value c); repeat constructor. }
  destruct (c_allowed_values c) as [|v vs] eqn:E; cbn [is_nil].
  - split; [|by destruct (c_nullable_value c)]. apply wf_object. split; [distinct|]. constructor; [|constructor].
    by destruct (c_nullable_value c).
  - rewrite <-E. split.
    + apply wf_object. split; [distinct|]. constructor; [by destruct (c_nullable_value c)|]. constructor; [apply Hw|constructor].
    + cbn [normalize map fst snd]. rewrite map_app, normalize_strings. by destruct (c_nullable_value c).
Qed.

Section Operation.
Variable o : TableOperation.
Hypothesis Hok : mongo_ok o.

Lemma validated_column c : c ∈ validated_columns o -> c ∈ o_columns o.
Proof. by intros [_ ?]%list_elem_of_filter. Qed.

Lemma column_plain c : c ∈ o_columns o ->
  json_plain (c_name c) = true /\ Forall (fun s => json_plain s = true) (c_allowed_values c).
Proof. pose proof (ok_columns _ Hok) as H. rewrite Forall_forall in H. apply H. Qed.

Lemma validator_text : mongo_validator o = dump (validator_document o).
Proof.
  unfold mongo_validator, validator_document. rewrite !join_comma.
  assert (map mongo_property (validated_columns o)
    = map (fun kv => quoted kv.1 ++ ":"%byte :: dump kv.2) (map property_document (validated_columns o))) as ->.
  { rewrite map_map. apply map_ext_in. intros c Hc%list_elem_of_In%validated_column.
    destruct (column_plain c Hc). by apply property_text. }
  set (required := filter _ _).
  assert (map (fun c => json_text (c_name c)) required = map dump (map (fun c => JString (c_name c)) required)) as ->.
  { rewrite map_map. apply map_ext_in. intros c Hc%list_elem_of_In. unfold required in Hc.
    apply list_elem_of_filter in Hc as [_ Hc%validated_column]. by apply json_text_quoted, column_plain. }
  same_text.
Qed.

Lemma validator_wf : wf (validator_document o) /\ normalize (validator_document o) = validator_document o.
Proof.
  unfold validator_document. split.
  - apply wf_object. split; [distinct|]. constructor; [|constructor]. apply wf_object. split; [distinct|].
    constructor; [done|]. constructor; [|constructor; [|constructor]].
    + apply wf_array. apply Forall_forall. by intros x (c & -> & _)%list_elem_of_fmap.
    + apply wf_object. split.
      * change (NoDup ((map property_document (validated_columns o)).*1)). rewrite <-list_fmap_compose. apply (ok_distinct _ Hok).
      * apply Forall_forall. intros x (c & -> & _)%list_elem_of_fmap. apply property_wf.
  - cbn [normalize map fst snd]. do 6 f_equal; [by rewrite map_map|]. do 3 f_equal. rewrite map_map. apply map_ext.
    intros c. by rewrite (proj2 (property_wf c)).
Qed.

(** A document with the name of the table first. *)
Lemma states_validator (key : string) s :
  s_text s = json_lit (String.append "{'" (String.append key "':")) ++ json_text (o_name o) ++ json_lit ",'validator':" ++
             mongo_validator o ++ lit "}" ->
  json_lit (String.append "{'" (String.append key "':")) = "{"%byte :: quoted (lit key) ++ lit ":" -> lit key <> lit "validator" ->
  states s (JObject [(lit key, JString (o_name o)); (lit "validator", validator_document o)]).
Proof.
  intros Hs Hk Hne. destruct validator_wf as [Hw Hn]. split; [|split].
  - rewrite Hs, Hk, validator_text, json_text_quoted by apply (ok_table _ Hok). rewrite dump_object. same_text.
  - apply wf_object. split; [|constructor; [done|constructor; [done|constructor]]]. cbn [fmap list_fmap fst].
    apply NoDup_cons. split; [set_solver|apply NoDup_singleton].
  - cbn [normalize map fst snd]. by rewrite Hn.
Qed.

Lemma states_index columns is_unique name :
  Forall (fun s => json_plain s = true) columns -> NoDup columns -> json_plain name = true ->
  states (mongo_index o columns is_unique name) (index_document o columns is_unique name).
Proof.
  intros Hc Hnd Hname. pose proof (ok_table _ Hok) as Ht.
  assert (forall type, json_plain (conventional_index_name (o_name o) columns type) = true) as Hconv.
  { intros type. unfold conventional_index_name, json_plain. rewrite forallb_app. apply andb_true_intro.
    split; [|by destruct type]. unfold underscored. revert Ht. generalize (o_name o). clear Hnd.
    induction Hc as [|c cs Hc' _ IH]; intros t Ht; [done|]. cbn. apply IH. unfold json_plain in *.
    rewrite !forallb_app, Ht, Hc'. done. }
  unfold mongo_index, index_document. set (full := if is_nil name then _ else _).
  assert (json_plain full = true) as Hfull by (unfold full; destruct (is_nil name); [apply Hconv|done]).
  assert (map (fun c => json_text c ++ lit ":1") columns
          = map (fun kv => quoted kv.1 ++ ":"%byte :: dump kv.2) (map (fun c => (c, JInt 1)) columns)) as E.
  { rewrite map_map. apply map_ext_in. intros c Hin. rewrite Forall_forall in Hc. cbn [fst snd].
    by rewrite json_text_quoted by (apply Hc; by apply list_elem_of_In). }
  split; [|split].
  - cbn [s_text mongo_command]. rewrite join_comma, E, !json_text_quoted by done. destruct is_unique; same_text.
  - apply wf_object. split; [distinct|]. constructor; [done|]. constructor; [|constructor]. apply wf_array.
    constructor; [|constructor]. apply wf_object.
    assert (wf (JObject (map (fun c => (c, JInt 1)) columns))) as Hk.
    { apply wf_object. rewrite <-list_fmap_compose. split; [by rewrite list_fmap_id|].
      apply Forall_forall. by intros x (c & -> & _)%list_elem_of_fmap. }
    destruct is_unique; (split; [distinct|]); (constructor; [exact Hk|]); by repeat constructor.
  - cbn [normalize map fst snd app]. rewrite map_map. by destruct is_unique.
Qed.

Lemma states_indexes : Forall2 states (statements (append_mongo_indexes o)) (index_documents o).
Proof.
  cbn [statements append_mongo_indexes]. apply Forall2_app.
  - pose proof (ok_columns _ Hok) as H. induction H as [|c cs [Hc _] _ IH]; [constructor|]. cbn [mbind list_bind].
    apply Forall2_app; [|exact IH]. destruct (_ || _); [|constructor]. constructor; [|constructor].
    apply states_index; [by repeat constructor|apply NoDup_singleton|done].
  - pose proof (ok_indexes _ Hok) as H. induction H as [|i is_ (Hn & Hd & Hc) _ IH]; [constructor|]. cbn [mbind list_bind].
    apply Forall2_app; [|exact IH]. destruct (is_primary i); [constructor|]. constructor; [by apply states_index|constructor].
Qed.

Lemma wf_update operator fields : wf (JObject fields) -> wf (update_document o operator fields).
Proof.
  intros Hf. apply wf_object. split; [distinct|]. constructor; [done|]. constructor; [|constructor]. apply wf_array.
  constructor; [|constructor]. apply wf_object. split; [distinct|]. constructor; [apply wf_object; split; constructor|].
  constructor; [|by repeat constructor]. apply wf_object. split; [apply NoDup_singleton|]. by constructor.
Qed.

Lemma states_command c : c ∈ o_commands o -> Forall2 states (mongo_alter_command o c) (command_documents o c).
Proof.
  intros Hin. pose proof (ok_commands _ Hok) as H. rewrite Forall_forall in H. destruct (H c Hin) as (Hn & Hnn & Hd & Hc).
  pose proof (ok_table _ Hok) as Ht. unfold mongo_alter_command, command_documents. destruct (a_type c); try constructor.
  - destruct (is_nil _); constructor; [|constructor].
    assert (map (fun n => json_text n ++ json_lit ":''") (a_columns c)
            = map (fun kv => quoted kv.1 ++ ":"%byte :: dump kv.2) (map (fun n => (n, JString [])) (a_columns c))) as E.
    { rewrite map_map. apply map_ext_in. intros n Hn'. rewrite Forall_forall in Hc. cbn [fst snd].
      by rewrite json_text_quoted by (apply Hc; by apply list_elem_of_In). }
    split; [|split].
    + cbn [s_text mongo_command]. rewrite join_comma, E, json_text_quoted by done. unfold update_document. same_text.
    + apply wf_update, wf_object. rewrite <-list_fmap_compose. split; [by rewrite list_fmap_id|].
      apply Forall_forall. by intros x (n & -> & _)%list_elem_of_fmap.
    + cbn [update_document normalize map fst snd]. by rewrite map_map.
  - destruct (is_nil _); constructor; [|constructor]. split; [|split].
    + cbn [s_text mongo_command]. rewrite !json_text_quoted by done. unfold update_document. same_text.
    + apply wf_update, wf_object. split; [apply NoDup_singleton|by constructor].
    + done.
  - split; [|split]; [|apply wf_object; split; [distinct|by repeat constructor]|done].
    cbn [s_text mongo_command]. rewrite !json_text_quoted by done. same_text.
  - constructor.
  - split; [|split]; [|apply wf_object; split; [distinct|by repeat constructor]|done].
    cbn [s_text mongo_command]. rewrite !json_text_quoted by done. same_text.
  - constructor.
Qed.

Lemma states_operation : Forall2 states (statements (compile_mongodb_operation o)) (mongo_documents o).
Proof.
  unfold compile_mongodb_operation, mongo_documents.
  assert (states (mongo_command (json_lit "{'drop':" ++ json_text (o_name o) ++ lit "}")) (JObject [(lit "drop", JString (o_name o))]))
    as Hdrop.
  { split; [|split]; [|apply wf_object; split; [distinct|by repeat constructor]|done].
    cbn [s_text mongo_command]. rewrite json_text_quoted by apply (ok_table _ Hok). same_text. }
  destruct (o_type o); cbn [statements]; [| |constructor|constructor; [exact Hdrop|constructor]..].
  - constructor; [|apply states_indexes]. by apply (states_validator "create").
  - apply Forall2_app; [destruct (is_nil _); constructor; [by apply (states_validator "collMod")|constructor]|].
    apply Forall2_app; [apply states_indexes|]. pose proof states_command as H. revert H.
    generalize (o_commands o). intros l H. induction l as [|c l IH]; [constructor|]. cbn [mbind list_bind].
    apply Forall2_app; [apply H; set_solver|]. apply IH. intros. apply H. set_solver.
Qed.
End Operation.

(** Every MongoDB command is the document it stands for: the text of each command of a
    plan is the JSON of that document, and reading it back gives the document, with the
    names and texts of the plan unchanged. *)
Theorem mongo_commands plan :
  Forall mongo_ok plan ->
  Forall2 (fun s d => s_text s = dump d /\ parse (s_text s) = Ok d)
    (statements (compile_mongodb plan)) (plan ≫= mongo_documents).
Proof.
  intros Hp. cbn [statements compile_mongodb].
  assert (Forall2 states (map compile_mongodb_operation plan ≫= statements) (plan ≫= mongo_documents)) as H.
  { induction Hp as [|o plan Ho _ IH]; [constructor|]. cbn [map mbind list_bind].
    apply Forall2_app; [by apply states_operation|exact IH]. }
  eapply Forall2_impl; [exact H|]. intros s d (-> & Hw & Hn). split; [done|]. by rewrite parse_dump, Hn.
Qed.

Definition sample_collection : TableOperation :=
  column_enumeration (lit "state") [lit "on"; lit "o" ++ [x22] ++ lit "ff"]
    (refine (unique true) (column_string (lit "e-mail") 0 (column_id (lit "id") (make_operation create_table (lit "users"))))).

Lemma mongo_commands_witness :
  Forall2 (fun s d => s_text s = dump d /\ parse (s_text s) = Ok d)
    (statements (compile_mongodb [sample_collection])) ([sample_collection] ≫= mongo_documents).
Proof.
  apply mongo_commands. constructor; [|constructor]. split; try (repeat constructor; fail); vm_compute; repeat constructor.
  all: by_decide.
Defined.
