(* ===== verification/Migrate.v ===== *)
(** * The migration runner ([src/migration/runner.cpp], [include/gungnir/migration])

    [MigrationConnection] is what the runner and its repository use of the driver behind a
    [database::Connection]: the backend, statements with bindings that return rows, and the
    transactions of the database.  The [Transaction] object around a step of the runner is
    that of Transaction.v, over a connection that is idle between steps.  [MigrationRepository] is the interface
    [migration::Repository]; [DatabaseRepository] keeps its records in a table.

    The migration runner: what runs, what is recorded, what failures leave

    [LawfulMigrations] states what the runner may expect of the database and of the
    repository, in terms of two views of the state: the schema statements that are in
    effect, and the records of applied migrations; a transaction of the database goes back
    to the views it began with when it is rolled back, except to the schema where the
    database commits schema statements at once ([rolls_back_schema]).  The theorems are proved against it;
    a database kept in memory satisfies it. *)

From S2P Require Import Prelude Numeral Double Transaction Attribute Schema SchemaSql.

Record Record_ := mkRecord { rec_name : bytes; rec_batch : Z }.

#[export] Instance Record_eq_dec : EqDecision Record_.
Proof. solve_decision. Defined.

(** A registered migration; the source holds a pointer, which may be null. *)
Record Named_ := mkNamed { reg_name : bytes; reg_migration : option Migration }.

Record Status := mkStatus { st_name : bytes; st_applied : bool; st_batch : Z }.

(** [Registry::add]: names are not empty and registered once. *)
Definition registry_add (name : bytes) (m : Migration) (registered : list Named_) : result (list Named_) :=
  if bool_decide (name = []) then Throw (runtime_error "Migration name cannot be empty")
  else if bool_decide (name ∈ map reg_name registered) then Throw (runtime_error (message "Duplicate migration '" (name ++ lit "'")))
  else Ok (registered ++ [mkNamed name (Some m)]).

Class MigrationConnection (S : Type) := {
  mc_backend : Backend;
  mc_transactions : bool;
  mc_execute : bytes -> list AttributeValue -> eff S (list AttributeMap);
  #[global] mc_driver :: Database S
}.

(** Code that uses the driver through a connection. *)
Definition on_driver {S A} (m : eff S A) : eff (Connection S unit * unit) A := fun '(c, w) =>
  let '(r, d) := m (driver_ c) in
  (r, (mkConnection d (commit_callbacks_ c) (transaction_depth_ c) (transaction_scope_ids_ c)
         (transaction_scope_sequence_ c) (savepoint_sequence_ c), w)).

(** [Transaction transaction{connection}; ...; transaction.commit();] with the destructor
    at the end of the block, however it is left. *)
Definition in_scope {S A} `{Database S} (body : eff S A) : eff (Connection S unit * unit) A :=
  token ← (begin_scope : eff (Connection S unit * unit) TransactionToken);
  (fun st =>
     let '(r, (active, st)) := (a ← on_connection (on_driver body); _ ← t_commit token; mret a) (true, st) in
     (r, t_destroy token active st)) : eff (Connection S unit * unit) A.

(** The same on the driver: the connection is in no transaction before and after. *)
Definition mc_transaction {S A} `{Database S} (body : eff S A) : eff S A := fun d =>
  let '(r, (c, _)) := in_scope body (mkConnection d [] 0 [] 0 0, tt) in (r, driver_ c).

Class MigrationRepository (S : Type) := {
  repo_ensure : eff S unit;
  repo_applied : eff S (list Record_);
  repo_last_batch : eff S Z;
  repo_record : Record_ -> eff S unit;
  repo_remove : bytes -> eff S unit
}.

(** ** The repository in the database *)

(** [quote]: the names it is given need no escaping. *)
Definition repository_quote (b : Backend) (value : bytes) : bytes :=
  match b with
  | mysql => lit "`" ++ value ++ lit "`"
  | mssql => lit "[" ++ value ++ lit "]"
  | _ => [x22] ++ value ++ [x22]
  end.

Definition repository_placeholder (b : Backend) (i : Z) : bytes :=
  match b with postgresql => lit "$" ++ to_string (i + 1) | _ => lit "?" end.

Definition record_batch (row : AttributeMap) : Z :=
  match row !! lit "batch" with
  | Some (AInt64 z) => u64 z
  | Some (AUInt64 z) => z
  | _ => 0
  end.

Definition record_name (row : AttributeMap) : bytes :=
  match row !! lit "migration" with
  | Some (AString s) => s
  | _ => []
  end.

Section DatabaseRepository.
Context {S : Type} `{MigrationConnection S}.

Definition quoted_column (name : string) : bytes := repository_quote mc_backend (lit name).

Definition execute_ (statement : bytes) (bindings : list AttributeValue) : eff S unit :=
  _ ← mc_execute statement bindings; mret tt.

Definition ensure_statement : bytes :=
  match mc_backend with
  | mongodb => json_lit "{'create':'gungnir_migrations'}"
  | mssql =>
      lit "IF OBJECT_ID(N'gungnir_migrations', N'U') IS NULL CREATE TABLE " ++ quoted_column "gungnir_migrations" ++
      lit " (" ++ quoted_column "migration" ++ lit " NVARCHAR(255) NOT NULL PRIMARY KEY, " ++
      quoted_column "batch" ++ lit " BIGINT NOT NULL);"
  | _ =>
      lit "CREATE TABLE IF NOT EXISTS " ++ quoted_column "gungnir_migrations" ++
      lit " (" ++ quoted_column "migration" ++ lit " VARCHAR(255) NOT NULL PRIMARY KEY, " ++
      quoted_column "batch" ++ lit " BIGINT NOT NULL);"
  end.

Definition ensure : eff S unit := execute_ ensure_statement [].

Definition applied_statement : bytes :=
  match mc_backend with
  | mongodb => json_lit "{'find':'gungnir_migrations','filter':{},'sort':{'batch':1}}"
  | _ =>
      lit "SELECT " ++ quoted_column "migration" ++ lit ", " ++ quoted_column "batch" ++ lit " FROM " ++
      quoted_column "gungnir_migrations" ++ lit " ORDER BY " ++ quoted_column "batch" ++ lit " ASC;"
  end.

Definition applied : eff S (list Record_) :=
  rows ← mc_execute applied_statement [];
  mret (map (fun row => mkRecord (record_name row) (record_batch row)) rows).

Definition last_batch : eff S Z :=
  records ← applied;
  mret (fold_left (fun m r => Z.max m (rec_batch r)) records 0).

Definition record_statement : bytes :=
  match mc_backend with
  | mongodb =>
      json_lit "{'insert':'gungnir_migrations','documents':[{'migration':{'$bind':0},'batch':{'$bind':1}}]}"
  | b =>
      lit "INSERT INTO " ++ quoted_column "gungnir_migrations" ++ lit " (" ++ quoted_column "migration" ++ lit ", " ++
      quoted_column "batch" ++ lit ") VALUES (" ++ repository_placeholder b 0 ++ lit ", " ++
      repository_placeholder b 1 ++ lit ");"
  end.

Definition record (r : Record_) : eff S unit :=
  execute_ record_statement [AString (rec_name r); AUInt64 (rec_batch r)].

Definition remove_statement : bytes :=
  match mc_backend with
  | mongodb => json_lit "{'delete':'gungnir_migrations','deletes':[{'q':{'migration':{'$bind':0}},'limit':1}]}"
  | b =>
      lit "DELETE FROM " ++ quoted_column "gungnir_migrations" ++ lit " WHERE " ++ quoted_column "migration" ++
      lit " = " ++ repository_placeholder b 0 ++ lit ";"
  end.

Definition remove (name : bytes) : eff S unit := execute_ remove_statement [AString name].

Definition DatabaseRepository : MigrationRepository S := {|
  repo_ensure := ensure;
  repo_applied := applied;
  repo_last_batch := last_batch;
  repo_record := record;
  repo_remove := remove
|}.
End DatabaseRepository.

(** ** The runner *)
Section Runner.
Context {S : Type} `{MigrationConnection S} `{MigrationRepository S}.

Definition lift_result {A} (r : result A) : eff S A := fun s => (r, s).

Fixpoint execute_all (l : list Statement) : eff S unit :=
  match l with
  | [] => mret tt
  | statement :: rest => _ ← mc_execute (s_text statement) []; execute_all rest
  end.

(** [execute_plan]. *)
Definition execute_plan (plan : Plan) : eff S unit :=
  compiled ← lift_result (compile mc_backend plan);
  execute_all (statements compiled).

(** [plan_up] and [plan_down], called outside any plan. *)
Definition planned (run : Planning unit) : eff S Plan := lift_result (plan_of run None).1.

(** A step of the runner, inside a transaction when the connection has them. *)
Definition guarded {A} (m : eff S A) : eff S A := if mc_transactions then mc_transaction m else m.

Definition apply_migration (name : bytes) (m : Migration) (batch : Z) : eff S unit :=
  guarded (plan ← planned (up m); _ ← execute_plan plan; repo_record (mkRecord name batch)).

Fixpoint migrate_loop (migrations : list Named_) (applied_names : list bytes) (batch count : Z) : eff S Z :=
  match migrations with
  | [] => mret count
  | item :: rest =>
      match reg_migration item with
      | None => migrate_loop rest applied_names batch count
      | Some m =>
          if bool_decide (reg_name item ∈ applied_names) then migrate_loop rest applied_names batch count
          else
            _ ← apply_migration (reg_name item) m batch;
            migrate_loop rest applied_names batch (u64 (count + 1))
      end
  end.

Definition migrate (migrations : list Named_) : eff S Z :=
  _ ← repo_ensure;
  records ← repo_applied;
  last ← repo_last_batch;
  migrate_loop migrations (map rec_name records) (u64 (last + 1)) 0.

Definition revert_migration (name : bytes) (m : Migration) : eff S unit :=
  guarded (plan ← planned (down m); _ ← execute_plan plan; repo_remove name).

Definition find_migration (name : bytes) (migrations : list Named_) : option Named_ :=
  List.find (fun item => bool_decide (reg_name item = name)) migrations.

(** The loop over the records from the last one. *)
Fixpoint rollback_loop (migrations : list Named_) (records : list Record_) (batch count : Z) : eff S Z :=
  match records with
  | [] => mret count
  | r :: rest =>
      if negb (rec_batch r =? batch) then rollback_loop migrations rest batch count
      else
        match find_migration (rec_name r) migrations with
        | Some (mkNamed _ (Some m)) =>
            _ ← revert_migration (rec_name r) m;
            rollback_loop migrations rest batch (u64 (count + 1))
        | _ =>
            throw (logic_error (message "Applied migration '" (rec_name r ++ lit "' is not registered with the runner")))
        end
  end.

Definition rollback (migrations : list Named_) : eff S Z :=
  _ ← repo_ensure;
  records ← repo_applied;
  match records with
  | [] => mret 0
  | _ =>
      batch ← repo_last_batch;
      rollback_loop migrations (rev records) batch 0
  end.

(** [while (true)]. *)
Fixpoint reset_loop (fuel : nat) (migrations : list Named_) (total : Z) : eff S Z :=
  match fuel with
  | O => fun s => (NoFuel, s)
  | Datatypes.S f =>
      rolled_back ← rollback migrations;
      if rolled_back =? 0 then mret total else reset_loop f migrations (u64 (total + rolled_back))
  end.

Definition status (migrations : list Named_) : eff S (list Status) :=
  _ ← repo_ensure;
  records ← repo_applied;
  let applied := fold_left (fun (m : gmap bytes Z) r => <[rec_name r := rec_batch r]> m) records ∅ in
  mret (map (fun item =>
    match applied !! reg_name item with
    | Some batch => mkStatus (reg_name item) true batch
    | None => mkStatus (reg_name item) false 0
    end) migrations).
End Runner.

(** How a computation ends: with a value and a state that satisfy [P], or with an
    exception in a state that satisfies [E]. *)
Definition outcome {S A} (m : eff S A) (s : S) (P : A -> S -> Prop) (E : S -> Prop) : Prop :=
  match m s with
  | (Ok a, s') => P a s'
  | (Throw _, s') => E s'
  | (NoFuel, _) => False
  end.

Lemma outcome_bind {S A B} (m : eff S A) (f : A -> eff S B) s P Q E :
  outcome m s P E -> (forall a s', P a s' -> outcome (f a) s' Q E) -> outcome (m ≫= f) s Q E.
Proof.
  unfold outcome, mbind, eff_bind. intros Hm Hf. destruct (m s) as [[a|e|] s']; [|done..]. by apply Hf.
Qed.

Lemma outcome_impl {S A} (m : eff S A) s (P Q : A -> S -> Prop) (E F : S -> Prop) :
  outcome m s P E -> (forall a s', P a s' -> Q a s') -> (forall s', E s' -> F s') -> outcome m s Q F.
Proof. unfold outcome. destruct (m s) as [[a|e|] s']; auto. Qed.

Lemma outcome_ret {S A} (a : A) (s : S) (P : A -> S -> Prop) E : P a s -> outcome (mret a) s P E.
Proof. done. Qed.

(** A computation that ended with a value. *)
Lemma outcome_Ok {S A} (m : eff S A) s P E a s' : outcome m s P E -> m s = (Ok a, s') -> P a s'.
Proof. unfold outcome. intros H Hm. by rewrite Hm in H. Qed.

(** ** The contract *)
Section Contract.
Context {S : Type} `{MigrationConnection S} `{MigrationRepository S}.

(** PostgreSQL, SQLite and SQL Server undo schema statements when a transaction is rolled
    back; MySQL commits them implicitly, and MongoDB documents no such thing. *)
Definition rolls_back_schema (b : Backend) : bool :=
  match b with postgresql | sqlite | mssql => true | mysql | mongodb => false end.

(** A step that neither opens nor closes a transaction. *)
Definition neutral {V A} (snapshot : S -> option V) (m : eff S A) s (P : A -> S -> Prop) (E : S -> Prop) : Prop :=
  outcome m s (fun a s' => snapshot s' = snapshot s /\ P a s') (fun s' => snapshot s' = snapshot s /\ E s').

(** [snapshot] is what an open transaction began with. *)
Class LawfulMigrations := {
  view : S -> list bytes * list Record_;
  snapshot : S -> option (list bytes * list Record_);
  ensure_law s : neutral snapshot repo_ensure s (fun _ s' => view s' = view s) (fun s' => view s' = view s);
  applied_law s :
    neutral snapshot repo_applied s (fun l s' => l ≡ₚ (view s).2 /\ view s' = view s) (fun s' => view s' = view s);
  last_batch_law s :
    neutral snapshot repo_last_batch s (fun n s' => n = fold_left (fun m r => Z.max m (rec_batch r)) (view s).2 0 /\ view s' = view s)
      (fun s' => view s' = view s);
  record_law r s :
    neutral snapshot (repo_record r) s (fun _ s' => view s' = ((view s).1, (view s).2 ++ [r])) (fun _ => True);
  remove_law name s :
    neutral snapshot (repo_remove name) s
      (fun _ s' => view s' = ((view s).1, filter (fun r => rec_name r <> name) (view s).2)) (fun _ => True);
  plan_text : bytes -> Prop;
  execute_law text s : plan_text text ->
    neutral snapshot (mc_execute text []) s (fun _ s' => view s' = ((view s).1 ++ [text], (view s).2)) (fun _ => True);
  begin_law s : snapshot s = None ->
    outcome db_begin s (fun _ s' => snapshot s' = Some (view s) /\ view s' = view s)
      (fun s' => snapshot s' = None /\ view s' = view s);
  commit_law s v : snapshot s = Some v ->
    outcome db_commit s (fun _ s' => snapshot s' = None /\ view s' = view s) (fun s' => snapshot s' = Some v);
  abort_law s v : snapshot s = Some v ->
    let rolled_back s' := snapshot s' = None /\ (rolls_back_schema mc_backend = true -> view s' = v) in
    outcome db_rollback s (fun _ => rolled_back) rolled_back
}.
End Contract.
Arguments LawfulMigrations S {_ _}.

(** Migrations whose functions end. *)
Definition ends_ (run : Planning unit) : Prop := (run (Some [])).1 <> NoFuel.

(** The statements of a migration, for the backend. *)
Definition texts_of (b : Backend) (run : Planning unit) : list bytes :=
  match (plan_of run None).1 with
  | Ok plan => match compile b plan with Ok c => map s_text (statements c) | _ => [] end
  | _ => []
  end.

(** The schema compiler always ends. *)
Lemma compile_schema_ends b plan : compile b plan <> NoFuel.
Proof.
  assert (forall b c, type_sql b c <> NoFuel) as Ht by (intros []; done).
  assert (forall b t c, column_sql b t c <> NoFuel) as Hc by (intros; apply bind_ends; [apply Ht|done]).
  assert (forall b t i, append_index b t i <> NoFuel) as Hi by (intros b' t i; unfold append_index; by destruct (i_type i), b').
  assert (forall b t cs, append_column_indexes b t cs <> NoFuel) as Hci.
  { intros. apply bind_ends; [apply mapM_ends; intros; by case_match|done]. }
  assert (forall b o, compile_create b o <> NoFuel) as Hcreate.
  { intros. repeat (apply bind_ends; [first [apply mapM_ends; intros; try case_match; auto; done|apply Hci]|intros]). done. }
  assert (forall b t c, append_alter_column b t c <> NoFuel) as Hac.
  { intros b' t c. unfold append_alter_column. case_match; [by apply bind_ends|]. destruct b'; try done; by apply bind_ends. }
  assert (forall b o, compile_alter b o <> NoFuel) as Halter.
  { intros. apply bind_ends; [by repeat case_match|intros _]. apply bind_ends; [by apply mapM_ends|intros].
    apply bind_ends; [done|intros]. by apply bind_ends; [apply mapM_ends|]. }
  assert (forall b, compile_sql b plan <> NoFuel) as Hsql.
  { intros b'. apply bind_ends; [|done]. apply mapM_ends. intros o. unfold compile_sql_operation. by destruct (o_type o). }
  unfold compile. by destruct b.
Qed.

Section Facts.
Context {S : Type} `{LawfulMigrations S}.

Abbreviation step := (neutral snapshot).

Lemma step_bind {A B} (m : eff S A) (f : A -> eff S B) s P Q E :
  step m s P E -> (forall a s', snapshot s' = snapshot s -> P a s' -> step (f a) s' Q E) -> step (m ≫= f) s Q E.
Proof.
  intros Hm Hf. eapply outcome_bind; [exact Hm|]. intros a s' [Hs HP]. specialize (Hf a s' Hs HP).
  unfold neutral in Hf. by rewrite Hs in Hf.
Qed.

Lemma step_impl {A} (m : eff S A) s (P Q : A -> S -> Prop) (E F : S -> Prop) :
  step m s P E -> (forall a s', P a s' -> Q a s') -> (forall s', E s' -> F s') -> step m s Q F.
Proof. intros Hm HP HE. eapply outcome_impl; [exact Hm|naive_solver..]. Qed.

Lemma step_ret {A} (a : A) (s : S) (P : A -> S -> Prop) E : P a s -> step (mret a) s P E.
Proof. done. Qed.

(** A failing step is undone: the runner uses transactions, and they cover the schema. *)
Definition undone : bool := mc_transactions && rolls_back_schema mc_backend.

(** A function of a migration that ends, and whose statements are not the repository's. *)
Definition fine (run : Planning unit) : Prop := ends_ run /\ Forall plan_text (texts_of mc_backend run).

Definition item_ok (item : Named_) : Prop :=
  match reg_migration item with Some m => fine (up m) /\ fine (down m) | None => True end.

Lemma execute_all_law l s :
  Forall plan_text (map s_text l) ->
  step (execute_all l) s (fun _ s' => view s' = ((view s).1 ++ map s_text l, (view s).2)) (fun _ => True).
Proof.
  revert s. induction l as [|t l IH]; intros s Hl; cbn [execute_all]; inversion Hl; subst.
  - apply step_ret. cbn. rewrite app_nil_r. by destruct (view s).
  - eapply step_bind; [by apply execute_law|]. intros ? s' _ Hs. cbv beta. eapply step_impl; [by apply IH| |done].
    cbv beta. intros ? s'' Hs'. rewrite Hs', Hs. cbn. by rewrite <-app_assoc.
Qed.

Lemma execute_planned run s :
  fine run ->
  step (plan ← planned run; execute_plan plan) s
    (fun _ s' => view s' = ((view s).1 ++ texts_of mc_backend run, (view s).2)) (fun _ => True).
Proof.
  intros [Hr Ht]. revert Ht. unfold planned, execute_plan, lift_result, neutral, outcome, mbind, eff_bind, texts_of.
  assert ((plan_of run None).1 <> NoFuel) as Hp.
  { unfold plan_of. unfold ends_ in Hr. destruct (run (Some [])) as [[[]|e|] [p|]]; done. }
  destruct (plan_of run None).1 as [plan|e|]; [|done..].
  pose proof (compile_schema_ends mc_backend plan) as Hc. destruct (compile mc_backend plan) as [c|e|]; [|done..].
  intros Ht. by apply execute_all_law.
Qed.

(** A block with a [Transaction] object: what its body does to the views when it ends
    and is committed, nothing when it throws or cannot be committed. *)
Lemma transaction_step {A} (m : eff S A) s (P : A -> list bytes * list Record_ -> Prop) :
  snapshot s = None ->
  (forall s0, view s0 = view s -> step m s0 (fun a s1 => P a (view s1)) (fun _ => True)) ->
  step (mc_transaction m) s (fun a s' => P a (view s')) (fun s' => rolls_back_schema mc_backend = true -> view s' = view s).
Proof.
  intros Hs Hm. unfold neutral, outcome, mc_transaction, in_scope, begin_scope, open_scope, connection, put, mbind, eff_bind, call.
  cbn [transaction_depth_ fst driver_ Z.eqb]. pose proof (begin_law s Hs) as Hb. unfold outcome in Hb.
  destruct (db_begin s) as [[[]|e|] s1]; [|cbn; destruct Hb as [-> ->]; by rewrite Hs|done]. destruct Hb as [Hs1 Hv1].
  assert (Hdestroy : forall s2, snapshot s2 = Some (view s) ->
    let st := (mkConnection s2 [[]] 1 [1] 1 0, tt) in
    let s3 := driver_ (t_destroy (mkToken true [] 1 1) true st).1 in
    snapshot s3 = None /\ (rolls_back_schema mc_backend = true -> view s3 = view s)).
  { intros s2 H2. unfold t_destroy, t_rollback, rollback_scope, validate_scope_token, get, connection, on_connection, set_active,
      put, call, mbind, eff_bind. cbn. pose proof (abort_law s2 _ H2) as Ha. cbv zeta in Ha. unfold outcome in Ha.
    by destruct (db_rollback s2) as [[[]|e|] s3]. }
  specialize (Hm s1 Hv1). unfold neutral, outcome in Hm. cbn -[t_destroy t_commit].
  unfold on_connection, on_driver. cbn -[t_destroy t_commit]. change (u64 (0 + 1)) with 1.
  destruct (m s1) as [[a|e|] s2]; [| |done]; destruct Hm as [Hs2 Hm]; rewrite Hs1 in Hs2.
  - unfold t_commit, try_catch, commit_scope, validate_scope_token, get, connection, on_connection, set_active, put, call,
      mbind, eff_bind. cbn -[t_destroy]. pose proof (commit_law s2 _ Hs2) as Hc. unfold outcome in Hc.
    destruct (db_commit s2) as [[[]|e|] s3]; [| |done].
    + cbn. rewrite Hs. destruct Hc as [-> ->]. done.
    + rewrite Hs. specialize (Hdestroy s3 Hc). cbv zeta in Hdestroy.
      destruct (catchable e); cbn -[t_destroy]; by destruct (t_destroy _ _ _).
  - rewrite Hs. specialize (Hdestroy s2 Hs2). cbv zeta in Hdestroy. cbn -[t_destroy]. by destruct (t_destroy _ _ _).
Qed.

(** Statements, then a change of the records, as one guarded step. *)
Lemma guarded_step run (change : eff S unit) (g : list Record_ -> list Record_) s :
  fine run -> snapshot s = None ->
  (forall s, step change s (fun _ s' => view s' = ((view s).1, g (view s).2)) (fun _ => True)) ->
  step (guarded (plan ← planned run; _ ← execute_plan plan; change)) s
    (fun _ s' => view s' = ((view s).1 ++ texts_of mc_backend run, g (view s).2))
    (fun s' => undone = true -> view s' = view s).
Proof.
  intros Hr Hs Hc.
  assert (forall s0, view s0 = view s ->
    step (plan ← planned run; _ ← execute_plan plan; change) s0
      (fun _ s1 => view s1 = ((view s).1 ++ texts_of mc_backend run, g (view s).2)) (fun _ => True)) as Hbody.
  { intros s0 E. pose proof (execute_planned run s0 Hr) as Hx. rewrite E in Hx. revert Hx.
    unfold neutral, outcome, mbind, eff_bind. destruct (planned run s0) as [[plan|e|] s1]; [|done..].
    destruct (execute_plan plan s1) as [[u|e|] s2]; [|done..]. intros [Hsn Hv]. specialize (Hc s2).
    unfold neutral, outcome in Hc. rewrite Hsn in Hc.
    destruct (change s2) as [[u'|e|] s3]; [|done..]. destruct Hc as [? Hc]. by rewrite Hc, Hv. }
  unfold guarded, undone. destruct mc_transactions eqn:E.
  - apply (transaction_step _ s (fun _ v => v = ((view s).1 ++ texts_of mc_backend run, g (view s).2)) Hs Hbody).
  - eapply step_impl; [by apply Hbody|done|done].
Qed.

(** ** Migrating *)

(** The items [migrate] applies, given the names that are applied already. *)
Fixpoint pending (migrations : list Named_) (names : list bytes) : list (bytes * Migration) :=
  match migrations with
  | [] => []
  | item :: rest =>
      match reg_migration item with
      | Some m => if bool_decide (reg_name item ∈ names) then pending rest names else (reg_name item, m) :: pending rest names
      | None => pending rest names
      end
  end.

(** The views after some items were applied in order. *)
Definition advanced (v : list bytes * list Record_) (items : list (bytes * Migration)) (batch : Z) : list bytes * list Record_ :=
  (v.1 ++ (items ≫= fun i => texts_of mc_backend (up i.2)), v.2 ++ map (fun i => mkRecord i.1 batch) items).

Lemma advanced_nil v batch : advanced v [] batch = v.
Proof. unfold advanced. cbn. rewrite !app_nil_r. by destruct v. Qed.

Lemma advanced_cons v i items batch :
  advanced (v.1 ++ texts_of mc_backend (up i.2), v.2 ++ [mkRecord i.1 batch]) items batch = advanced v (i :: items) batch.
Proof. unfold advanced. cbn. by rewrite <-!app_assoc. Qed.

Lemma migrate_loop_law ms names batch count s :
  Forall item_ok ms -> snapshot s = None -> u64 count = count ->
  step (migrate_loop ms names batch count) s
    (fun n s' => n = u64 (count + Z.of_nat (length (pending ms names))) /\ view s' = advanced (view s) (pending ms names) batch)
    (fun s' => undone = true ->
               exists k, (k < length (pending ms names))%nat /\ view s' = advanced (view s) (take k (pending ms names)) batch).
Proof.
  intros Hms. revert count s. induction Hms as [|item ms Hitem _ IH]; intros count s Hsnap Hcount; cbn [migrate_loop pending].
  - apply step_ret. rewrite advanced_nil. cbn [length]. by rewrite Z.add_0_r.
  - unfold item_ok in Hitem. destruct (reg_migration item) as [m|]; [|by apply IH]. destruct Hitem as [Hup _].
    case_bool_decide; [by apply IH|].
    eapply step_bind; [eapply step_impl; [apply (guarded_step (up m) _ (fun l => l ++ [mkRecord (reg_name item) batch]));
      [exact Hup|exact Hsnap|exact (record_law _)]|intros ? s' Hs'; exact Hs'|]|].
    + intros s' Hstep Htx. exists 0%nat. cbn [length take]. split; [lia|]. rewrite advanced_nil. by apply Hstep.
    + intros ? s1 Hs1 Hstep. cbv beta in Hstep. eapply step_impl; [apply IH; [by rewrite Hs1|apply u64_idem]| |].
      * intros n s2 [Hn Hv]. rewrite Hstep, (advanced_cons (view s) (reg_name item, m)) in Hv. split; [|done].
        rewrite Hn. cbn [length]. unfold u64. rewrite Zplus_mod_idemp_l. f_equal. lia.
      * intros s2 He Htx. destruct (He Htx) as (k & Hk & Hv). exists (Datatypes.S k). cbn [length take]. split; [lia|].
        by rewrite Hv, Hstep, (advanced_cons (view s) (reg_name item, m)).
Qed.

Lemma pending_names ms a b : (forall n, n ∈ a <-> n ∈ b) -> pending ms a = pending ms b.
Proof.
  intros Hab. induction ms as [|item ms IH]; cbn [pending]; [done|]. destruct (reg_migration item); [|done].
  rewrite IH. by rewrite (bool_decide_ext _ _ (Hab (reg_name item))).
Qed.

Definition names_of (l : list Record_) : list bytes := map rec_name l.
Definition last_of (l : list Record_) : Z := fold_left (fun m r => Z.max m (rec_batch r)) l 0.

Lemma migrate_law ms s :
  Forall item_ok ms -> snapshot s = None ->
  let p := pending ms (names_of (view s).2) in
  let batch := u64 (last_of (view s).2 + 1) in
  step (migrate ms) s
    (fun n s' => n = u64 (Z.of_nat (length p)) /\ view s' = advanced (view s) p batch)
    (fun s' => undone = true -> exists k, (k <= length p)%nat /\ view s' = advanced (view s) (take k p) batch).
Proof.
  intros Hms Hsnap p batch. set (E := fun s' => undone = true -> exists k, (k <= length p)%nat /\
    view s' = advanced (view s) (take k p) batch).
  assert (forall s', view s' = view s -> E s') as HE.
  { intros s' Hv _. exists 0%nat. cbn. split; [lia|]. by rewrite advanced_nil. }
  unfold migrate. eapply step_bind; [eapply step_impl; [apply ensure_law|intros ? s' Hs; exact Hs|exact HE]|].
  intros ? s1 S1 V1. eapply step_bind; [eapply step_impl; [apply applied_law|intros l s' Hs; exact Hs|rewrite V1; exact HE]|].
  intros l s2 S2 [Hl V2]. eapply step_bind; [eapply step_impl; [apply last_batch_law|intros n s' Hs; exact Hs|rewrite V2, V1; exact HE]|].
  intros n s3 S3 [-> V3]. rewrite V2, V1 in *.
  assert (pending ms (map rec_name l) = p) as Hp.
  { apply pending_names. intros x. unfold names_of. by rewrite Hl. }
  eapply step_impl; [apply migrate_loop_law; [done|by rewrite S3, S2, S1|reflexivity]| |]; rewrite Hp, V3; fold (last_of (view s).2); fold batch.
  - intros n s' [Hn Hv]. by rewrite Z.add_0_l in Hn.
  - intros s' Hs Htx. destruct (Hs Htx) as (k & Hk & Hv). exists k. split; [lia|done].
Qed.

(** ** Rolling back *)

Definition down_texts (ms : list Named_) (r : Record_) : list bytes :=
  match find_migration (rec_name r) ms with
  | Some (mkNamed _ (Some m)) => texts_of mc_backend (down m)
  | _ => []
  end.

Definition in_batch (batch : Z) (l : list Record_) : list Record_ := filter (fun r => rec_batch r = batch) l.

(** The views after some records were reverted in order. *)
Definition reverted (ms : list Named_) (v : list bytes * list Record_) (rs : list Record_) : list bytes * list Record_ :=
  (v.1 ++ (rs ≫= down_texts ms), filter (fun r => rec_name r ∉ names_of rs) v.2).

Lemma filter_true {A} (P : A -> Prop) `{forall x, Decision (P x)} (l : list A) : (forall x, x ∈ l -> P x) -> filter P l = l.
Proof.
  intros Hl. induction l as [|x l IH]; [done|]. rewrite filter_cons_True by (apply Hl; set_solver). f_equal.
  apply IH. set_solver.
Qed.

Lemma filter_no_record {A} (P : A -> Prop) `{forall x, Decision (P x)} (l : list A) : (forall x, x ∈ l -> ~ P x) -> filter P l = [].
Proof.
  intros Hl. induction l as [|x l IH]; [done|]. rewrite filter_cons_False by (apply Hl; set_solver).
  apply IH. set_solver.
Qed.

Lemma reverted_nil ms v : reverted ms v [] = v.
Proof.
  unfold reverted. cbn. rewrite app_nil_r, filter_true; [by destruct v|]. intros x _. apply not_elem_of_nil.
Qed.

Lemma reverted_cons ms v r rs :
  reverted ms (v.1 ++ down_texts ms r, filter (fun x => rec_name x <> rec_name r) v.2) rs = reverted ms v (r :: rs).
Proof.
  unfold reverted. cbn [fst snd mbind list_bind]. rewrite <-app_assoc, list_filter_filter. f_equal.
  apply list_filter_iff. intros x. cbn [names_of map]. rewrite not_elem_of_cons. tauto.
Qed.

Lemma find_ends ms name item : Forall item_ok ms -> find_migration name ms = Some item -> item_ok item.
Proof. intros Hms [Hin _]%find_some. rewrite Forall_forall in Hms. by apply Hms, list_elem_of_In. Qed.

Lemma rollback_loop_law ms rs batch count s :
  Forall item_ok ms -> snapshot s = None -> u64 count = count ->
  step (rollback_loop ms rs batch count) s
    (fun n s' => n = u64 (count + Z.of_nat (length (in_batch batch rs))) /\ view s' = reverted ms (view s) (in_batch batch rs))
    (fun s' => undone = true -> exists k, view s' = reverted ms (view s) (take k (in_batch batch rs))).
Proof.
  intros Hms. revert count s. induction rs as [|r rs IH]; intros count s Hsnap Hcount; cbn [rollback_loop].
  - apply step_ret. unfold in_batch. cbn [filter list_filter length]. rewrite reverted_nil. by rewrite Z.add_0_r.
  - unfold in_batch. destruct (negb (rec_batch r =? batch)) eqn:Eb; reflect_bools.
    { rewrite filter_cons_False by done. by apply IH. }
    rewrite filter_cons_True by done. fold (in_batch batch rs).
    destruct (find_migration (rec_name r) ms) as [[name [m|]]|] eqn:Ef;
      [|split; [done|]; intros Htx; exists 0%nat; cbn; by rewrite reverted_nil..].
    destruct (find_ends _ _ _ Hms Ef) as [_ Hdown].
    assert (texts_of mc_backend (down m) = down_texts ms r) as Ed by (unfold down_texts; by rewrite Ef).
    eapply step_bind; [eapply step_impl; [apply (guarded_step (down m) _ (filter (fun x => rec_name x <> rec_name r)));
      [exact Hdown|exact Hsnap|exact (remove_law _)]|intros ? s' Hs'; exact Hs'|]|].
    + intros s' Hstep Htx. exists 0%nat. cbn [take]. rewrite reverted_nil. by apply Hstep.
    + intros ? s1 Hs1 Hstep. cbv beta in Hstep. rewrite Ed in Hstep.
      eapply step_impl; [apply IH; [by rewrite Hs1|apply u64_idem]| |].
      * intros n s2 [Hn Hv]. rewrite Hstep, reverted_cons in Hv. split; [|done].
        rewrite Hn. cbn [length]. unfold u64. rewrite Zplus_mod_idemp_l. f_equal. lia.
      * intros s2 He Htx. destruct (He Htx) as (k & Hv). exists (Datatypes.S k). cbn [take]. by rewrite Hv, Hstep, reverted_cons.
Qed.

Lemma fold_max_ge l m : m <= fold_left (fun m r => Z.max m (rec_batch r)) l m.
Proof. revert m. induction l as [|r l IH]; intros m; cbn; [lia|]. pose proof (IH (Z.max m (rec_batch r))). lia. Qed.

Lemma last_of_ge l r : r ∈ l -> rec_batch r <= last_of l.
Proof.
  unfold last_of. generalize 0. induction l as [|x l IH]; intros m Hr; [by apply elem_of_nil in Hr|]. cbn.
  apply elem_of_cons in Hr as [<-|Hr]; [|by apply IH].
  pose proof (fold_max_ge l (Z.max m (rec_batch r))). lia.
Qed.

Lemma last_of_in l : Forall (fun r => 0 <= rec_batch r) l -> l <> [] -> exists r, r ∈ l /\ rec_batch r = last_of l.
Proof.
  assert (forall l m, (exists r, r ∈ l /\ rec_batch r = fold_left (fun m r => Z.max m (rec_batch r)) l m) \/
                      fold_left (fun m r => Z.max m (rec_batch r)) l m = m) as H'.
  { induction l0 as [|x l0 IH]; intros m; [by right|]. cbn. destruct (IH (Z.max m (rec_batch x))) as [(r & Hr & E)|E].
    - left. exists r. split; [set_solver|done].
    - destruct (Z.max_spec m (rec_batch x)) as [[? Hm]|[? Hm]]; rewrite Hm in *; [left; exists x; set_solver|by right]. }
  intros Hnn Hne. destruct (H' l 0) as [?|E]; [done|]. fold (last_of l) in E. destruct l as [|x l]; [done|].
  exists x. split; [set_solver|]. inversion Hnn; subst. pose proof (last_of_ge (x :: l) x ltac:(set_solver)). lia.
Qed.

(** The records [rollback] reverts: those of the last batch, in some order. *)
Lemma rollback_law ms s :
  Forall item_ok ms -> snapshot s = None ->
  step (rollback ms) s
    (fun n s' => exists rs, rs ≡ₚ in_batch (last_of (view s).2) (view s).2 /\
                 n = u64 (Z.of_nat (length rs)) /\ view s' = reverted ms (view s) rs)
    (fun s' => undone = true -> exists rs k, rs ≡ₚ in_batch (last_of (view s).2) (view s).2 /\
                 view s' = reverted ms (view s) (take k rs)).
Proof.
  intros Hms Hsnap. set (E := fun s' => undone = true -> exists rs k, rs ≡ₚ in_batch (last_of (view s).2) (view s).2 /\
    view s' = reverted ms (view s) (take k rs)).
  assert (forall s', view s' = view s -> E s') as HE.
  { intros s' Hv _. exists (in_batch (last_of (view s).2) (view s).2), 0%nat. split; [done|]. cbn. by rewrite reverted_nil. }
  unfold rollback. eapply step_bind; [eapply step_impl; [apply ensure_law|intros ? s' Hs; exact Hs|exact HE]|].
  intros ? s1 S1 V1. eapply step_bind; [eapply step_impl; [apply applied_law|intros l s' Hs; exact Hs|rewrite V1; exact HE]|].
  intros l s2 S2 [Hl V2]. rewrite V1 in *. destruct l as [|r l].
  { apply step_ret. apply Permutation_nil_l in Hl. exists []. rewrite <-Hl. split; [done|]. split; [done|].
    by rewrite V2, reverted_nil. }
  eapply step_bind; [eapply step_impl; [apply last_batch_law|intros n s' Hs; exact Hs|rewrite V2; exact HE]|].
  intros n s3 S3 [-> V3]. rewrite V2 in *. fold (last_of (view s).2) in *. set (b := last_of (view s).2) in *.
  assert (in_batch b (rev (r :: l)) ≡ₚ in_batch b (view s).2) as Hp.
  { unfold in_batch. apply filter_Permutation. by rewrite Permutation_rev, rev_involutive. }
  eapply step_impl; [apply rollback_loop_law; [done|by rewrite S3, S2, S1|reflexivity]| |].
  - intros n s' [Hn Hv]. exists (in_batch b (rev (r :: l))). rewrite V3 in Hv. split; [done|]. split; [|done].
    by rewrite Z.add_0_l in Hn.
  - intros s' Hs Htx. destruct (Hs Htx) as (k & Hv). rewrite V3 in Hv. by exists (in_batch b (rev (r :: l))), k.
Qed.

(** ** Migrating again *)

Lemma pending_applied ms names p :
  p = pending ms names -> pending ms (names ++ map fst p) = [].
Proof.
  intros ->. assert (forall extra, (forall i, i ∈ pending ms names -> i.1 ∈ extra) -> pending ms (names ++ extra) = []) as Hg.
  { induction ms as [|item ms IH]; intros extra Hex; cbn [pending] in *; [done|].
    destruct (reg_migration item) as [m|]; [|by apply IH].
    destruct (decide (reg_name item ∈ names)) as [Hin|Hin].
    - rewrite bool_decide_eq_true_2 by set_solver. rewrite bool_decide_eq_true_2 in Hex by done. by apply IH.
    - rewrite bool_decide_eq_false_2 in Hex by done. rewrite bool_decide_eq_true_2.
      + apply IH. intros i Hi. apply Hex. set_solver.
      + apply elem_of_app. right. apply (Hex (reg_name item, m)). set_solver. }
  apply Hg. intros i Hi. apply list_elem_of_fmap. by exists i.
Qed.

Lemma pending_fresh ms names x : x ∈ map fst (pending ms names) -> x ∈ names -> False.
Proof.
  intros (i & -> & Hi)%list_elem_of_fmap. induction ms as [|item ms IH]; cbn [pending] in Hi; [by apply elem_of_nil in Hi|].
  destruct (reg_migration item) as [m|]; [|by apply IH]. case_bool_decide; [by apply IH|].
  apply elem_of_cons in Hi as [->|Hi]; [done|by apply IH].
Qed.

Lemma advanced_names v p batch : names_of (advanced v p batch).2 = names_of v.2 ++ map fst p.
Proof. unfold advanced, names_of. cbn [snd]. rewrite map_app, map_map. done. Qed.

(** C15. [migrate] applies exactly the pending migrations, in order, each with the records of
    one new batch, and leaves no transaction open.  When it fails on a database that has
    transactions and rolls schema statements back with them (PostgreSQL, SQLite, SQL Server),
    what is in effect and recorded are the migrations before the one that failed, completely
    and nothing else.  Nothing is claimed of what a failure leaves on MySQL, which commits
    schema statements at once, on MongoDB, or without transactions. *)
Theorem migrate_complete ms s :
  Forall item_ok ms -> snapshot s = None ->
  let p := pending ms (names_of (view s).2) in
  let batch := u64 (last_of (view s).2 + 1) in
  match migrate ms s with
  | (Ok n, s') => snapshot s' = None /\ n = u64 (Z.of_nat (length p)) /\ view s' = advanced (view s) p batch
  | (Throw _, s') =>
      snapshot s' = None /\
      (mc_transactions = true -> rolls_back_schema mc_backend = true ->
       exists k, (k <= length p)%nat /\ view s' = advanced (view s) (take k p) batch)
  | (NoFuel, _) => False
  end.
Proof.
  intros Hms Hs p batch. pose proof (migrate_law ms s Hms Hs) as H'. unfold neutral, outcome in H'. rewrite Hs in H'.
  destruct (migrate ms s) as [[n|e|] s']; [done| |done]. destruct H' as [Hn He]. split; [done|]. intros Ht Hb.
  apply He. unfold undone. by rewrite Ht, Hb.
Qed.

(** Migrating is idempotent and rolling back undoes it: after a successful [migrate], a
    second one applies nothing; and a successful [rollback] leaves the records as they were
    before, having run the [down] plans of exactly the batch that [migrate] applied. *)
Theorem migrate_rollback ms s n s1 :
  Forall item_ok ms -> snapshot s = None -> NoDup (map fst (pending ms (names_of (view s).2))) ->
  last_of (view s).2 + 1 < 2 ^ 64 -> Forall (fun r => 0 <= rec_batch r) (view s).2 ->
  migrate ms s = (Ok n, s1) -> 0 < n ->
  (forall k s2, migrate ms s1 = (Ok k, s2) -> k = 0 /\ view s2 = view s1) /\
  (forall k s2, rollback ms s1 = (Ok k, s2) ->
     k = n /\ (view s2).2 = (view s).2 /\
     exists rs, names_of rs ≡ₚ map fst (pending ms (names_of (view s).2)) /\
                (view s2).1 = (view s1).1 ++ (rs ≫= down_texts ms)).
Proof.
  intros Hms Hsnap Hnd Hb Hnn Hm Hn0. destruct (outcome_Ok _ _ _ _ _ _ (migrate_law ms s Hms Hsnap) Hm) as [Hsn [Hn Hv]]. rewrite Hsnap in Hsn. clear Hm.
  set (p := pending ms (names_of (view s).2)) in *. set (v := view s) in *. set (b := last_of v.2) in *.
  assert (0 <= b) as Hb0 by apply fold_max_ge. rewrite (u64_small (b + 1)) in Hv by lia. split.
  - intros k s2 Hk. destruct (outcome_Ok _ _ _ _ _ _ (migrate_law ms s1 Hms Hsn) Hk) as [_ [-> Hv2]].
    assert (pending ms (names_of (view s1).2) = []) as E by by rewrite Hv, advanced_names, (pending_applied ms (names_of v.2) p eq_refl).
    rewrite E in *. split; [done|]. by rewrite Hv2, advanced_nil.
  - intros k s2 Hk. destruct (outcome_Ok _ _ _ _ _ _ (rollback_law ms s1 Hms Hsn) Hk) as (_ & rs & Hrs & -> & Hv2). clear Hk.
    rewrite Hv in Hrs, Hv2. unfold advanced in Hrs, Hv2. cbn [fst snd] in Hrs, Hv2.
    set (new := map (fun i : bytes * Migration => mkRecord i.1 (b + 1)) p) in *.
    assert (p <> []) as Hp by (intros E; rewrite E in Hn; subst n; by vm_compute in Hn0).
    assert (last_of (v.2 ++ new) = b + 1) as Hlast.
    { unfold last_of. rewrite fold_left_app. fold (last_of v.2). fold b. unfold new. destruct p as [|i p']; [done|]. cbn.
      replace (Z.max b (b + 1)) with (b + 1) by lia. clear. induction p' as [|j p' IH]; [done|]. cbn.
      by rewrite Z.max_id. }
    rewrite Hlast in Hrs.
    assert (in_batch (b + 1) (v.2 ++ new) = new) as Hbatch.
    { unfold in_batch. rewrite filter_app. rewrite (filter_true _ new).
      - assert (filter (fun r => rec_batch r = b + 1) v.2 = []) as ->; [|done].
        apply filter_no_record. intros r Hr E. pose proof (last_of_ge v.2 r Hr). unfold b in E. lia.
      - intros r (i & -> & _)%list_elem_of_fmap. done. }
    rewrite Hbatch in Hrs. assert (length rs = length p) as Hlen by (rewrite Hrs; unfold new; by rewrite length_map).
    assert (forall x, x ∈ names_of rs <-> x ∈ map fst p) as Hnames.
    { intros x. unfold names_of. rewrite Hrs. unfold new. by rewrite map_map. }
    split; [by rewrite Hlen|]. rewrite Hv2. unfold reverted. cbn [fst snd]. split.
    + rewrite filter_app. rewrite (filter_true _ v.2).
      * assert (filter (fun r => rec_name r ∉ names_of rs) new = []) as ->; [|by rewrite app_nil_r].
        apply filter_no_record. intros r (i & -> & Hi)%list_elem_of_fmap Hni. apply Hni, Hnames. cbn.
        apply list_elem_of_fmap. by exists i.
      * intros r Hr. rewrite Hnames. intros Hin. apply (pending_fresh ms (names_of v.2) (rec_name r)); [done|].
        unfold names_of. apply list_elem_of_fmap. by exists r.
    + exists rs. split; [|by rewrite Hv]. unfold names_of. rewrite Hrs. unfold new. by rewrite map_map.
Qed.

(** [reset] ends and leaves no record: every turn reverts at least one migration, so as
    many turns as there are records are enough. *)
Theorem reset_ends ms fuel total s :
  Forall item_ok ms -> snapshot s = None -> Forall (fun r => 0 <= rec_batch r) (view s).2 ->
  (length (view s).2 < fuel)%nat -> Z.of_nat fuel < 2 ^ 64 ->
  match reset_loop fuel ms total s with
  | (Ok _, s') => (view s').2 = []
  | (Throw _, _) => True
  | (NoFuel, _) => False
  end.
Proof.
  intros Hms. revert total s. induction fuel as [|f IH]; intros total s Hsnap Hnn Hf Hsmall; [lia|]. cbn [reset_loop].
  unfold mbind, eff_bind. pose proof (rollback_law ms s Hms Hsnap) as Hr. unfold neutral, outcome in Hr. rewrite Hsnap in Hr.
  destruct (rollback ms s) as [[n|e|] s1]; [|done..]. destruct Hr as (Hs1 & rs & Hrs & -> & Hv).
  set (recs := (view s).2) in *.
  assert (length rs <= length recs)%nat as Hle by (rewrite Hrs; apply length_filter).
  rewrite u64_small by lia. destruct (Z.of_nat (length rs) =? 0) eqn:E0; reflect_bools.
  - cbn. rewrite Hv. unfold reverted. cbn [snd]. destruct (decide (recs = [])) as [Hnil|Hne].
    { fold recs. by rewrite Hnil. }
    destruct (last_of_in recs Hnn Hne) as (r & Hr & Hb). exfalso. assert (r ∈ rs) as Hin.
    { rewrite Hrs. apply list_elem_of_filter. done. }
    destruct rs; [by apply elem_of_nil in Hin|cbn in E0; lia].
  - assert (exists r, r ∈ rs) as [r Hin] by (destruct rs as [|r rs']; [done|exists r; set_solver]).
    assert (r ∈ recs) as Hr by (rewrite Hrs in Hin; by apply list_elem_of_filter in Hin as [_ ?]).
    assert (length (view s1).2 < length recs)%nat as Hlt.
    { rewrite Hv. cbn [reverted snd]. fold recs. apply length_filter_lt with r; [done|].
      intros Hni. apply Hni. unfold names_of. apply list_elem_of_fmap. by exists r. }
    apply IH; [done| |lia|lia]. rewrite Hv. cbn [reverted snd]. rewrite Forall_forall in *.
    intros x [_ Hx]%list_elem_of_filter. by apply Hnn.
Qed.
End Facts.

(** ** A database in memory

    The repository's four statements act on a table with a unique [migration] column, the
    others are kept in the order they run; transactions restore the state they began in. *)
Record Memory := mkMemory {
  mem_history : list bytes;
  mem_rows : list Record_;
  mem_snapshot : option (list bytes * list Record_)
}.

Fixpoint insert_row (r : Record_) (l : list Record_) : list Record_ :=
  match l with
  | [] => [r]
  | x :: rest => if rec_batch r <=? rec_batch x then r :: l else x :: insert_row r rest
  end.

Definition sorted_rows (l : list Record_) : list Record_ := foldr insert_row [] l.

Definition row_of (r : Record_) : AttributeMap :=
  <[lit "migration" := AString (rec_name r)]> (<[lit "batch" := AUInt64 (rec_batch r)]> ∅).

Definition memory_execute (text : bytes) (bindings : list AttributeValue) : eff Memory (list AttributeMap) := fun m =>
  let ensure_text := lit "CREATE TABLE IF NOT EXISTS " ++ [x22] ++ lit "gungnir_migrations" ++ [x22] ++ lit " (" ++
    [x22] ++ lit "migration" ++ [x22] ++ lit " VARCHAR(255) NOT NULL PRIMARY KEY, " ++ [x22] ++ lit "batch" ++ [x22] ++
    lit " BIGINT NOT NULL);" in
  let applied_text := lit "SELECT " ++ [x22] ++ lit "migration" ++ [x22] ++ lit ", " ++ [x22] ++ lit "batch" ++ [x22] ++
    lit " FROM " ++ [x22] ++ lit "gungnir_migrations" ++ [x22] ++ lit " ORDER BY " ++ [x22] ++ lit "batch" ++ [x22] ++
    lit " ASC;" in
  let record_text := lit "INSERT INTO " ++ [x22] ++ lit "gungnir_migrations" ++ [x22] ++ lit " (" ++ [x22] ++
    lit "migration" ++ [x22] ++ lit ", " ++ [x22] ++ lit "batch" ++ [x22] ++ lit ") VALUES ($1, $2);" in
  let remove_text := lit "DELETE FROM " ++ [x22] ++ lit "gungnir_migrations" ++ [x22] ++ lit " WHERE " ++ [x22] ++
    lit "migration" ++ [x22] ++ lit " = $1;" in
  match bindings with
  | [] =>
      if bool_decide (text = ensure_text) then (Ok [], m)
      else if bool_decide (text = applied_text) then (Ok (map row_of (sorted_rows (mem_rows m))), m)
      else (Ok [], mkMemory (mem_history m ++ [text]) (mem_rows m) (mem_snapshot m))
  | [AString name; AUInt64 batch] =>
      if bool_decide (text = record_text) && negb (bool_decide (name ∈ map rec_name (mem_rows m)))
      then (Ok [], mkMemory (mem_history m) (mem_rows m ++ [mkRecord name batch]) (mem_snapshot m))
      else (Throw (runtime_error "duplicate key"), m)
  | [AString name] =>
      if bool_decide (text = remove_text)
      then (Ok [], mkMemory (mem_history m) (filter (fun r => rec_name r <> name) (mem_rows m)) (mem_snapshot m))
      else (Throw (runtime_error "unknown statement"), m)
  | _ => (Throw (runtime_error "unknown statement"), m)
  end.

Definition memory_begin : eff Memory unit := fun m =>
  match mem_snapshot m with
  | None => (Ok tt, mkMemory (mem_history m) (mem_rows m) (Some (mem_history m, mem_rows m)))
  | Some _ => (Throw (runtime_error "a transaction is open"), m)
  end.

Definition memory_commit : eff Memory unit := fun m => (Ok tt, mkMemory (mem_history m) (mem_rows m) None).

Definition memory_rollback : eff Memory unit := fun m =>
  match mem_snapshot m with
  | Some (history, rows) => (Ok tt, mkMemory history rows None)
  | None => (Throw (runtime_error "no transaction is open"), m)
  end.

#[export] Instance memory_connection : MigrationConnection Memory := {|
  mc_backend := postgresql;
  mc_transactions := true;
  mc_execute := memory_execute;
  mc_driver := {|
    backend := fun _ => postgresql;
    supports_savepoints := fun _ => true;
    db_execute := fun text => (_ ← memory_execute text []; mret tt) : eff Memory unit;
    db_begin := memory_begin;
    db_commit := memory_commit;
    db_rollback := memory_rollback
  |}
|}.

#[export] Instance memory_repository : MigrationRepository Memory := DatabaseRepository.

Lemma insert_row_perm r l : insert_row r l ≡ₚ r :: l.
Proof.
  induction l as [|x l IH]; cbn; [done|]. destruct (_ <=? _); [done|]. rewrite IH. constructor.
Qed.

Lemma sorted_rows_perm l : sorted_rows l ≡ₚ l.
Proof. induction l as [|r l IH]; cbn; [done|]. by rewrite insert_row_perm, IH. Qed.

Lemma row_roundtrip r : mkRecord (record_name (row_of r)) (record_batch (row_of r)) = r.
Proof.
  unfold record_name, record_batch, row_of. rewrite lookup_insert_eq, lookup_insert_ne by done. rewrite lookup_insert_eq.
  by destruct r.
Qed.

Lemma max_perm l l' m :
  l ≡ₚ l' -> fold_left (fun m r => Z.max m (rec_batch r)) l m = fold_left (fun m r => Z.max m (rec_batch r)) l' m.
Proof.
  intros Hp. revert m. induction Hp as [|x l l' _ IH|x y l|l1 l2 l3 _ IH1 _ IH2]; intros m; cbn; [done|apply IH| |by rewrite IH1].
  f_equal. lia.
Qed.

Lemma memory_applied (m : Memory) : applied m = (Ok (sorted_rows (mem_rows m)), m).
Proof.
  unfold applied, mbind, eff_bind. cbn [mc_execute memory_connection].
  assert (memory_execute applied_statement [] m = (Ok (map row_of (sorted_rows (mem_rows m))), m)) as -> by done.
  cbn [eff_ret mret]. rewrite map_map, (map_ext _ (fun r => r)) by apply row_roundtrip. by rewrite map_id.
Qed.

#[export] Instance memory_lawful : LawfulMigrations Memory.
Proof.
  refine {| view := fun m => (mem_history m, mem_rows m); snapshot := mem_snapshot;
            plan_text := fun text => text <> ensure_statement /\ text <> applied_statement |}.
  - done.
  - intros m. unfold neutral, outcome. cbn [repo_applied memory_repository DatabaseRepository]. rewrite memory_applied.
    split; [done|]. split; [apply sorted_rows_perm|done].
  - intros m. unfold neutral, outcome. cbn [repo_last_batch memory_repository DatabaseRepository].
    unfold last_batch, mbind, eff_bind. rewrite memory_applied. cbn. split; [done|]. split; [|done]. apply max_perm, sorted_rows_perm.
  - intros [name batch] m. unfold neutral, outcome. cbn [repo_record memory_repository DatabaseRepository].
    unfold record, execute_, mbind, eff_bind. cbn [mc_execute memory_connection rec_name rec_batch]. unfold memory_execute.
    by destruct (bool_decide (record_statement = _) && _).
  - intros name m. unfold neutral, outcome. cbn [repo_remove memory_repository DatabaseRepository].
    unfold remove, execute_, mbind, eff_bind. cbn [mc_execute memory_connection]. unfold memory_execute.
    by rewrite bool_decide_eq_true_2.
  - intros text m [H1 H2]. unfold neutral, outcome. cbn [mc_execute memory_connection]. unfold memory_execute.
    rewrite bool_decide_eq_false_2 by exact H1. by rewrite bool_decide_eq_false_2 by exact H2.
  - intros m Hm. unfold outcome. cbn [db_begin mc_driver memory_connection]. unfold memory_begin. by rewrite Hm.
  - intros m v _. done.
  - intros m [h l] Hm. unfold outcome. cbn [db_rollback mc_driver memory_connection]. unfold memory_rollback. by rewrite Hm.
Defined.

(** Two migrations; the second adds a column to the table of the first. *)
Definition create_users : Migration :=
  mkMigration (Table_create (lit "users") (fun o => mret (column_id (lit "id") o))) (Table_drop (lit "users")).

Definition add_email : Migration :=
  mkMigration (Table_alter (lit "users") (fun o => mret (column_string (lit "email") 0 o)))
    (Table_alter (lit "users") (fun o => mret (column_drop [lit "email"] o))).

Definition sample_migrations : list Named_ :=
  [mkNamed (lit "2024_users") (Some create_users); mkNamed (lit "2025_email") (Some add_email)].

Lemma sample_migrations_ok : Forall (item_ok (S := Memory)) sample_migrations.
Proof.
  repeat constructor; try (vm_compute; discriminate); cbn [ends_]; try (intros E; vm_compute in E; discriminate).
Qed.

Definition empty_memory : Memory := mkMemory [] [] None.

Lemma migrate_complete_witness :
  let p := pending sample_migrations (names_of (view empty_memory).2) in
  length p = 2%nat /\
  match migrate sample_migrations empty_memory with
  | (Ok n, s') => snapshot s' = None /\ n = u64 (Z.of_nat (length p)) /\
      view s' = advanced (view empty_memory) p (u64 (last_of (view empty_memory).2 + 1))
  | (Throw _, s') => snapshot s' = None /\ (mc_transactions = true -> rolls_back_schema mc_backend = true -> exists k, (k <= length p)%nat /\
      view s' = advanced (view empty_memory) (take k p) (u64 (last_of (view empty_memory).2 + 1)))
  | (NoFuel, _) => False
  end.
Proof. split; [reflexivity|]. exact (migrate_complete sample_migrations empty_memory sample_migrations_ok eq_refl). Defined.

Definition migrated : Memory := (migrate sample_migrations empty_memory).2.

Lemma migrate_rollback_witness :
  migrate sample_migrations empty_memory = (Ok 2, migrated) /\
  (forall k s2, migrate sample_migrations migrated = (Ok k, s2) -> k = 0 /\ view s2 = view migrated) /\
  (forall k s2, rollback sample_migrations migrated = (Ok k, s2) ->
     k = 2 /\ (view s2).2 = (view empty_memory).2 /\
     exists rs, names_of rs ≡ₚ map fst (pending sample_migrations (names_of (view empty_memory).2)) /\
                (view s2).1 = (view migrated).1 ++ (rs ≫= down_texts sample_migrations)).
Proof.
  split; [vm_compute; reflexivity|].
  apply (migrate_rollback sample_migrations empty_memory 2 migrated); [exact sample_migrations_ok|reflexivity|by_decide|done|constructor| |done].
  vm_compute. reflexivity.
Defined.

Lemma reset_ends_witness :
  match reset_loop 3 sample_migrations 0 (mkMemory [] [mkRecord (lit "2024_users") 1; mkRecord (lit "2025_email") 2] None) with
  | (Ok _, s') => (view s').2 = []
  | (Throw _, _) => True
  | (NoFuel, _) => False
  end.
Proof.
  apply (reset_ends sample_migrations 3 0); [exact sample_migrations_ok|reflexivity|by repeat constructor|cbn; lia|done].
Defined.
