(* ===== verification/Orm.v ===== *)
(** * The query compiler ([src/orm/compiler.cpp], [include/gungnir/orm/plan.hpp],
      [include/gungnir/orm/identifier.hpp])

    A query plan becomes a text with placeholders and the values bound to them, in SQL or
    as a MongoDB command.  [CompiledQuery] is the state the functions append to. *)

From S2P Require Import Prelude Numeral Text Double Transaction Attribute SchemaSql.

Inductive Comparison := equal_ | not_equal | less_than | less_or_equal | greater_than | greater_or_equal | like.
Inductive BooleanConnector := and_ | or_.
Inductive PredicateKind :=
| comparison_ | column_comparison | in_list | not_in_list | between | not_between | is_null | is_not_null.
Inductive SortDirection := asc | desc.
Inductive JoinType := inner_join | left_join | right_join | cross_join.
Inductive LockMode := lock_none | lock_for_update | lock_shared.
Inductive AggregateFunction := agg_count | agg_sum | agg_average | agg_minimum | agg_maximum.

#[export] Instance BooleanConnector_eq_dec : EqDecision BooleanConnector.
Proof. solve_decision. Defined.
#[export] Instance PredicateKind_eq_dec : EqDecision PredicateKind.
Proof. solve_decision. Defined.
#[export] Instance LockMode_eq_dec : EqDecision LockMode.
Proof. solve_decision. Defined.
#[export] Instance JoinType_eq_dec : EqDecision JoinType.
Proof. solve_decision. Defined.

Record Predicate := mkPredicate {
  p_kind : PredicateKind;
  p_connector : BooleanConnector;
  p_column : bytes;
  p_comparison : Comparison;
  p_other_column : bytes;
  p_values : list AttributeValue;
  p_automatic : bool;
  p_protected_scope : bool
}.

Record Order := mkOrder { ord_column : bytes; ord_direction : SortDirection }.

Record Join := mkJoin {
  j_type : JoinType;
  j_table : bytes;
  j_first : bytes;
  j_comparison : Comparison;
  j_second : bytes
}.

Record Aggregate := mkAggregate { agg_function : AggregateFunction; agg_column : bytes }.

(** The members the compiler reads; the eager loads are for the executor. *)
Record QueryPlan := mkQueryPlan {
  q_table : bytes;
  q_columns : list bytes;
  q_joins : list Join;
  q_predicates : list Predicate;
  q_groups : list bytes;
  q_having : list Predicate;
  q_orders : list Order;
  q_count_group_column : bytes;
  q_aggregate : option Aggregate;
  q_limit : option Z;
  q_offset : option Z;
  q_distinct : bool;
  q_lock : LockMode
}.

(** ** Identifiers *)

Definition validate_identifier (value : bytes) : result unit :=
  if is_nil value then Throw (invalid_argument "Database identifier cannot be empty")
  else if existsb (fun c => (uc c <? 32) || (uc c =? 127)) value
  then Throw (invalid_argument "Database identifier contains a control character")
  else Ok tt.

Definition orm_quote_identifier (b : Backend) (value : bytes) : result bytes :=
  _ ← validate_identifier value;
  let open := match b with mysql => "`" | mssql => "[" | _ => x22 end%byte in
  let close := match b with mssql => "]"%byte | _ => open end in
  Ok (open :: doubled close value ++ [close]).

Definition quote_segment (b : Backend) (segment : bytes) : result bytes :=
  if bool_decide (segment = lit "*") then Ok (lit "*") else orm_quote_identifier b segment.

(** The loop over the segments between the points. *)
Definition quote_path (b : Backend) (value : bytes) : result bytes :=
  segments ← mapM (quote_segment b) (fields "." value);
  Ok (join (lit ".") segments).

Definition json_identifier (value : bytes) : result bytes :=
  _ ← validate_identifier value;
  Ok (value ≫= fun c => if (c =b? x22) || (c =b? x5c) then [x5c; c] else [c]).

Definition json_field_identifier (value : bytes) : result bytes :=
  _ ← validate_identifier value;
  if existsb (fun segment => match segment with [] => true | c :: _ => c =b? "$" end) (fields "." value)
  then Throw (invalid_argument "MongoDB field paths cannot contain operators or empty segments")
  else json_identifier value.

(** ** The state *)

Inductive CompiledQueryKind := query_sql | query_mongodb.

Record CompiledQuery := mkQuery { cq_kind : CompiledQueryKind; cq_text : bytes; cq_bindings : list AttributeValue }.

(** The text and the bindings written so far. *)
Record Draft := mkDraft { d_text : bytes; d_bindings : list AttributeValue }.

Abbreviation Writer := (eff Draft).

Definition empty_draft : Draft := mkDraft [] [].

(** [result.text += t]. *)
Definition emit (t : bytes) : Writer unit := fun d => (Ok tt, mkDraft (d_text d ++ t) (d_bindings d)).

(** [result.bindings.push_back(v)], giving the size before. *)
Definition push_binding (v : AttributeValue) : Writer Z := fun d =>
  (Ok (Z.of_nat (length (d_bindings d))), mkDraft (d_text d) (d_bindings d ++ [v])).

Definition try_ {A} (r : result A) : Writer A := fun d => (r, d).

Definition finish (kind : CompiledQueryKind) (w : Writer unit) : result CompiledQuery :=
  match w empty_draft with
  | (Ok _, d) => Ok (mkQuery kind (d_text d) (d_bindings d))
  | (Throw e, _) => Throw e
  | (NoFuel, _) => NoFuel
  end.

Definition emit_path (b : Backend) (value : bytes) : Writer unit := t ← try_ (quote_path b value); emit t.

Definition emit_segment (b : Backend) (value : bytes) : Writer unit := t ← try_ (quote_segment b value); emit t.

(** Items separated by a text. *)
Fixpoint emit_list {A} (separator : bytes) (first : bool) (f : A -> Writer unit) (l : list A) : Writer unit :=
  match l with
  | [] => mret tt
  | x :: rest => _ ← (if first then mret tt else emit separator); _ ← f x; emit_list separator false f rest
  end.

(** ** SQL *)

Definition sql_operator (c : Comparison) : bytes :=
  match c with
  | equal_ => lit "="
  | not_equal => lit "<>"
  | less_than => lit "<"
  | less_or_equal => lit "<="
  | greater_than => lit ">"
  | greater_or_equal => lit ">="
  | like => lit "LIKE"
  end.

Definition orm_placeholder (b : Backend) (index : Z) : bytes :=
  match b with postgresql => lit "$" ++ to_string (index + 1) | _ => lit "?" end.

(** A placeholder for a value, and the value. *)
Definition emit_value (b : Backend) (v : AttributeValue) : Writer unit :=
  index ← push_binding v;
  emit (orm_placeholder b index).

Definition aggregate_name (f : AggregateFunction) : bytes :=
  match f with
  | agg_count => lit "COUNT"
  | agg_sum => lit "SUM"
  | agg_average => lit "AVG"
  | agg_minimum => lit "MIN"
  | agg_maximum => lit "MAX"
  end.

Definition join_name (t : JoinType) : bytes :=
  match t with
  | inner_join => lit "INNER JOIN"
  | left_join => lit "LEFT JOIN"
  | right_join => lit "RIGHT JOIN"
  | cross_join => lit "CROSS JOIN"
  end.

Definition is_list_kind (k : PredicateKind) : bool := match k with in_list | not_in_list => true | _ => false end.

(** What follows the column, for the kinds both SQL compilers write alike. *)
Definition emit_list_values (b : Backend) (negated : bool) (values : list AttributeValue) : Writer unit :=
  _ ← emit (if negated then lit " NOT IN (" else lit " IN (");
  _ ← emit_list (lit ", ") true (emit_value b) values;
  emit (lit ")").

Definition emit_between (b : Backend) (negated : bool) (values : list AttributeValue) : Writer unit :=
  match values with
  | [lower; upper] =>
      _ ← emit (if negated then lit " NOT BETWEEN " else lit " BETWEEN ");
      _ ← emit_value b lower;
      _ ← emit (lit " AND ");
      emit_value b upper
  | _ => throw (logic_error "ORM between predicate requires exactly two values")
  end.

Definition append_sql_predicate (b : Backend) (p : Predicate) : Writer unit :=
  if is_list_kind (p_kind p) && is_nil (p_values p)
  then emit (if bool_decide (p_kind p = in_list) then lit "1 = 0" else lit "1 = 1")
  else
    _ ← emit_path b (p_column p);
    match p_kind p with
    | comparison_ =>
        match p_values p with
        | [] => throw (logic_error "ORM comparison predicate requires a value")
        | v :: _ => _ ← emit (lit " " ++ sql_operator (p_comparison p) ++ lit " "); emit_value b v
        end
    | column_comparison =>
        if is_nil (p_other_column p) then throw (logic_error "ORM column comparison requires a second column")
        else _ ← emit (lit " " ++ sql_operator (p_comparison p) ++ lit " "); emit_path b (p_other_column p)
    | in_list => emit_list_values b false (p_values p)
    | not_in_list => emit_list_values b true (p_values p)
    | between => emit_between b false (p_values p)
    | not_between => emit_between b true (p_values p)
    | is_null => emit (lit " IS NULL")
    | is_not_null => emit (lit " IS NOT NULL")
    end.

(** The predicates users cannot widen. *)
Definition scoped (p : Predicate) : bool := p_automatic p || p_protected_scope p.

Definition is_or (p : Predicate) : bool := bool_decide (p_connector p = or_).

Definition needs_split (l : list Predicate) : bool := existsb scoped l && existsb is_or l.

Definition with_and (p : Predicate) : Predicate :=
  mkPredicate (p_kind p) and_ (p_column p) (p_comparison p) (p_other_column p) (p_values p) (p_automatic p) (p_protected_scope p).

Definition automatic_part (l : list Predicate) : list Predicate := map with_and (filter (fun p => scoped p = true) l).
Definition user_part (l : list Predicate) : list Predicate := filter (fun p => scoped p = false) l.

Definition with_column (column : bytes) (p : Predicate) : Predicate :=
  mkPredicate (p_kind p) (p_connector p) column (p_comparison p) (p_other_column p) (p_values p) (p_automatic p) (p_protected_scope p).

(** The column of an automatic predicate is qualified when there are joins. *)
Definition qualified (joined_table : bytes) (p : Predicate) : Predicate :=
  if p_automatic p && negb (is_nil joined_table) && negb (contains (lit ".") (p_column p))
  then with_column (joined_table ++ lit "." ++ p_column p) p else p.

(** The loop over predicates that need no parentheses. *)
Fixpoint append_plain (b : Backend) (joined_table : bytes) (first : bool) (l : list Predicate) : Writer unit :=
  match l with
  | [] => mret tt
  | p :: rest =>
      _ ← (if first then mret tt else emit (match p_connector p with and_ => lit " AND " | or_ => lit " OR " end));
      _ ← append_sql_predicate b (qualified joined_table p);
      append_plain b joined_table false rest
  end.

(** [append_predicates]: each part of a split list needs no further split. *)
Definition append_predicates (b : Backend) (joined_table : bytes) (l : list Predicate) : Writer unit :=
  if needs_split l then
    _ ← append_plain b joined_table true (automatic_part l);
    match user_part l with
    | [] => mret tt
    | user => _ ← emit (lit " AND ("); _ ← append_plain b joined_table true user; emit (lit ")")
    end
  else append_plain b joined_table true l.

Definition emit_selection (b : Backend) (plan : QueryPlan) : Writer unit :=
  match q_aggregate plan with
  | Some a =>
      _ ← (if is_nil (q_count_group_column plan) then mret tt
           else
             _ ← emit_path b (q_count_group_column plan);
             _ ← emit (lit " AS ");
             _ ← emit_segment b (lit "__gungnir_count_key");
             emit (lit ", "));
      _ ← emit (aggregate_name (agg_function a) ++ lit "(");
      _ ← (if bool_decide (agg_column a = lit "*") then emit (lit "*") else emit_path b (agg_column a));
      _ ← emit (lit ") AS ");
      emit_segment b (lit "aggregate")
  | None => if is_nil (q_columns plan) then emit (lit "*") else emit_list (lit ", ") true (emit_path b) (q_columns plan)
  end.

Definition emit_join (b : Backend) (j : Join) : Writer unit :=
  _ ← emit (lit " " ++ join_name (j_type j) ++ lit " ");
  _ ← emit_path b (j_table j);
  if bool_decide (j_type j = cross_join) then mret tt
  else
    _ ← emit (lit " ON ");
    _ ← emit_path b (j_first j);
    _ ← emit (lit " " ++ sql_operator (j_comparison j) ++ lit " ");
    emit_path b (j_second j).

Definition emit_order (b : Backend) (o : Order) : Writer unit :=
  _ ← emit_path b (ord_column o);
  emit (match ord_direction o with asc => lit " ASC" | desc => lit " DESC" end).

Definition limit_sql (b : Backend) (plan : QueryPlan) : bytes :=
  let unordered := if is_nil (q_orders plan) then lit " ORDER BY (SELECT NULL)" else [] in
  match q_limit plan, q_offset plan with
  | Some limit, offset =>
      match b with
      | mssql => unordered ++ lit " OFFSET " ++ to_string (default 0 offset) ++ lit " ROWS FETCH NEXT " ++
                 to_string limit ++ lit " ROWS ONLY"
      | _ => lit " LIMIT " ++ to_string limit ++
             match offset with Some o => lit " OFFSET " ++ to_string o | None => [] end
      end
  | None, Some offset =>
      match b with
      | mssql => unordered ++ lit " OFFSET " ++ to_string offset ++ lit " ROWS"
      | _ => (if bool_decide (b = sqlite) then lit " LIMIT -1" else []) ++ lit " OFFSET " ++ to_string offset
      end
  | None, None => []
  end.

Definition lock_hint (b : Backend) (plan : QueryPlan) : bytes :=
  if bool_decide (b = mssql) then
    match q_lock plan with
    | lock_for_update => lit " WITH (UPDLOCK, ROWLOCK)"
    | lock_shared => lit " WITH (HOLDLOCK, ROWLOCK)"
    | lock_none => []
    end
  else [].

Definition lock_suffix (b : Backend) (plan : QueryPlan) : bytes :=
  if bool_decide (b = mssql) then []
  else
    match q_lock plan with
    | lock_for_update => lit " FOR UPDATE"
    | lock_shared => lit " FOR SHARE"
    | lock_none => []
    end.

(** A clause written when its list is not empty. *)
Definition emit_clause {A} (keyword : string) (l : list A) (body : Writer unit) : Writer unit :=
  if is_nil l then mret tt else (_ ← emit (lit keyword); body).

Definition select_sql (b : Backend) (plan : QueryPlan) : Writer unit :=
  if bool_decide (b = sqlite) && negb (bool_decide (q_lock plan = lock_none))
  then throw (logic_error "SQLite does not support SQL row-lock clauses; use a transaction")
  else
    _ ← emit (lit "SELECT " ++ (if q_distinct plan then lit "DISTINCT " else []));
    _ ← emit_selection b plan;
    _ ← emit (lit " FROM ");
    _ ← emit_path b (q_table plan);
    _ ← emit (lock_hint b plan);
    _ ← emit_list [] true (emit_join b) (q_joins plan);
    _ ← emit_clause " WHERE " (q_predicates plan)
          (append_predicates b (if is_nil (q_joins plan) then [] else q_table plan) (q_predicates plan));
    _ ← emit_clause " GROUP BY " (q_groups plan) (emit_list (lit ", ") true (emit_path b) (q_groups plan));
    _ ← emit_clause " HAVING " (q_having plan) (append_predicates b [] (q_having plan));
    _ ← emit_clause " ORDER BY " (q_orders plan) (emit_list (lit ", ") true (emit_order b) (q_orders plan));
    emit (limit_sql b plan ++ lock_suffix b plan ++ lit ";").

(** ** MongoDB *)

Definition mongo_field (value : bytes) : result bytes :=
  if bool_decide (value = lit "id") then Ok (lit "_id") else json_field_identifier value.

Definition mongo_operator (c : Comparison) : bytes :=
  match c with
  | equal_ => lit "$eq"
  | not_equal => lit "$ne"
  | less_than => lit "$lt"
  | less_or_equal => lit "$lte"
  | greater_than => lit "$gt"
  | greater_or_equal => lit "$gte"
  | like => lit "$regex"
  end.

(** [mongo_bind]: the document that stands for a value. *)
Definition mongo_bind (v : AttributeValue) : Writer bytes :=
  index ← push_binding v;
  mret (json_lit "{'$bind':" ++ to_string index ++ lit "}").

Fixpoint mongo_binds (l : list AttributeValue) : Writer (list bytes) :=
  match l with
  | [] => mret []
  | v :: rest => t ← mongo_bind v; ts ← mongo_binds rest; mret (t :: ts)
  end.

(** [{"field":value}] for a column. *)
Definition field_document (column value : bytes) : Writer bytes :=
  field ← try_ (mongo_field column);
  mret (json_lit "{'" ++ field ++ json_lit "':" ++ value ++ lit "}").

Definition operator_document (operator value : bytes) : bytes :=
  json_lit "{'" ++ operator ++ json_lit "':" ++ value ++ lit "}".

Definition mongo_list (negated : bool) (p : Predicate) : Writer bytes :=
  values ← mongo_binds (p_values p);
  field_document (p_column p)
    (operator_document (if negated then lit "$nin" else lit "$in") (lit "[" ++ join (lit ",") values ++ lit "]")).

Definition mongo_between (negated : bool) (p : Predicate) : Writer bytes :=
  match p_values p with
  | [v; w] =>
      lower ← mongo_bind v;
      upper ← mongo_bind w;
      let range := json_lit "{'$gte':" ++ lower ++ json_lit ",'$lte':" ++ upper ++ lit "}" in
      field_document (p_column p) (if negated then operator_document (lit "$not") range else range)
  | _ => throw (logic_error "ORM between predicate requires exactly two values")
  end.

Definition mongo_columns (p : Predicate) : Writer bytes :=
  left_ ← try_ (mongo_field (p_column p));
  right_ ← try_ (mongo_field (p_other_column p));
  mret (json_lit "{'$expr':{'" ++ mongo_operator (p_comparison p) ++ json_lit "':['$" ++ left_ ++ json_lit "','$" ++
        right_ ++ json_lit "']}}").

Definition mongo_predicate (p : Predicate) : Writer bytes :=
  match p_kind p with
  | in_list => mongo_list false p
  | not_in_list => mongo_list true p
  | between => mongo_between false p
  | not_between => mongo_between true p
  | is_null => field_document (p_column p) (json_lit "{'$eq':null}")
  | is_not_null => field_document (p_column p) (json_lit "{'$ne':null}")
  | column_comparison => mongo_columns p
  | comparison_ =>
      match p_values p with
      | [] => throw (logic_error "ORM comparison predicate requires a value")
      | v :: _ =>
          field ← try_ (mongo_field (p_column p));
          value ← mongo_bind v;
          mret (json_lit "{'" ++ field ++ json_lit "':" ++ operator_document (mongo_operator (p_comparison p)) value ++ lit "}")
      end
  end.

Definition pair_document (operator first second : bytes) : bytes :=
  json_lit "{'" ++ operator ++ json_lit "':[" ++ first ++ lit "," ++ second ++ lit "]}".

(** The loop that joins the predicates, each with all that came before it. *)
Fixpoint mongo_chain (predicate : Predicate -> Writer bytes) (expression : bytes) (l : list Predicate) : Writer bytes :=
  match l with
  | [] => mret expression
  | p :: rest =>
      next_ ← predicate p;
      mongo_chain predicate
        (pair_document (match p_connector p with and_ => lit "$and" | or_ => lit "$or" end) expression next_) rest
  end.

Definition mongo_plain (predicate : Predicate -> Writer bytes) (l : list Predicate) : Writer bytes :=
  match l with
  | [] => mret (lit "{}")
  | p :: rest => expression ← predicate p; mongo_chain predicate expression rest
  end.

Definition mongo_filter_with (predicate : Predicate -> Writer bytes) (l : list Predicate) : Writer bytes :=
  if needs_split l then
    scoped_ ← mongo_plain predicate (automatic_part l);
    filtered ← mongo_plain predicate (user_part l);
    mret (pair_document (lit "$and") scoped_ filtered)
  else mongo_plain predicate l.

Definition mongo_filter (l : list Predicate) : Writer bytes := mongo_filter_with mongo_predicate l.

Definition mongo_accumulator (a : Aggregate) : result bytes :=
  let of_field (operator : string) :=
    field ← mongo_field (agg_column a);
    Ok (json_lit "{'" ++ lit operator ++ json_lit "':'$" ++ field ++ json_lit "'}") in
  match agg_function a with
  | agg_count => Ok (json_lit "{'$sum':1}")
  | agg_sum => of_field "$sum"%string
  | agg_average => of_field "$avg"%string
  | agg_minimum => of_field "$min"%string
  | agg_maximum => of_field "$max"%string
  end.

Definition emit_field (b : bytes -> bytes) (column : bytes) : Writer unit :=
  field ← try_ (mongo_field column);
  emit (b field).

Definition select_mongodb (plan : QueryPlan) : Writer unit :=
  if negb (bool_decide (q_lock plan = lock_none))
  then throw (logic_error "MongoDB document queries do not support SQL row-lock clauses")
  else if negb (is_nil (q_joins plan))
  then throw (logic_error "MongoDB queries do not support SQL join(); use model relationships and with()")
  else if (negb (is_nil (q_groups plan)) && is_nil (q_count_group_column plan)) || negb (is_nil (q_having plan))
  then throw (logic_error "MongoDB group_by/having is not part of the document query surface")
  else if q_distinct plan && match q_aggregate plan with None => true | Some _ => false end
  then throw (logic_error "MongoDB model queries do not support SQL-style distinct model hydration")
  else
    filter ← mongo_filter (q_predicates plan);
    match q_aggregate plan with
    | Some a =>
        accumulator ← try_ (mongo_accumulator a);
        group ← (if is_nil (q_count_group_column plan) then mret (lit "null")
                 else field ← try_ (mongo_field (q_count_group_column plan)); mret (json_lit "'$" ++ field ++ json_lit "'"));
        table ← try_ (json_identifier (q_table plan));
        emit (json_lit "{'aggregate':'" ++ table ++ json_lit "','pipeline':[{'$match':" ++ filter ++
              json_lit "},{'$group':{'_id':" ++ group ++ json_lit ",'aggregate':" ++ accumulator ++ lit "}}" ++
              (if is_nil (q_count_group_column plan) then []
               else json_lit ",{'$project':{'__gungnir_count_key':'$_id','aggregate':1,'_id':0}}") ++
              json_lit "],'cursor':{}}")
    | None =>
        table ← try_ (json_identifier (q_table plan));
        _ ← emit (json_lit "{'find':'" ++ table ++ json_lit "','filter':" ++ filter);
        _ ← (if is_nil (q_columns plan) then mret tt
             else
               _ ← emit (json_lit ",'projection':{");
               _ ← emit_list (lit ",") true (emit_field (fun f => json_lit "'" ++ f ++ json_lit "':1")) (q_columns plan);
               emit (lit "}"));
        _ ← (if is_nil (q_orders plan) then mret tt
             else
               _ ← emit (json_lit ",'sort':{");
               _ ← emit_list (lit ",") true
                     (fun o => emit_field (fun f => json_lit "'" ++ f ++ json_lit "':" ++
                                 match ord_direction o with asc => lit "1" | desc => lit "-1" end) (ord_column o))
                     (q_orders plan);
               emit (lit "}"));
        emit (match q_limit plan with Some n => json_lit ",'limit':" ++ to_string n | None => [] end ++
              match q_offset plan with Some n => json_lit ",'skip':" ++ to_string n | None => [] end ++ lit "}")
    end.

(** [orm::compile]. *)
Definition compile_query (plan : QueryPlan) (b : Backend) : result CompiledQuery :=
  match b with
  | mongodb => finish query_mongodb (select_mongodb plan)
  | _ => finish query_sql (select_sql b plan)
  end.
