(* ===== verification/Mutation.v ===== *)
(** * The mutation compilers ([src/orm/mutation.cpp], [src/orm/advanced_mutation.cpp])

    Inserts, updates and deletes of one row by key, of the rows a plan selects, of many
    rows, and upserts. *)

From S2P Require Import Prelude Numeral Text Double Transaction Attribute SchemaSql Orm.

(** [operator<] on strings: bytes as unsigned characters. *)
Fixpoint text_less (a b : bytes) : bool :=
  match a, b with
  | [], [] => false
  | [], _ => true
  | _, [] => false
  | x :: a', y :: b' => if uc x <? uc y then true else if uc y <? uc x then false else text_less a' b'
  end.

Fixpoint insert_sorted (k : bytes) (l : list bytes) : list bytes :=
  match l with
  | [] => [k]
  | x :: rest => if text_less x k then x :: insert_sorted k rest else k :: l
  end.

(** [sorted_keys]: the keys of a map, in order. *)
Definition sorted_keys (attributes : AttributeMap) : list bytes :=
  foldr insert_sorted [] (map fst (map_to_list attributes)).

(** [attributes.at(key)]. *)
Definition at_ (attributes : AttributeMap) (key : bytes) : Writer AttributeValue :=
  match attributes !! key with
  | Some v => mret v
  | None => throw (out_of_range "unordered_map::at")
  end.

Definition emit_identifier (b : Backend) (value : bytes) : Writer unit :=
  t ← try_ (orm_quote_identifier b value);
  emit t.

(** A placeholder for the value of a key. *)
Definition emit_attribute (b : Backend) (attributes : AttributeMap) (key : bytes) : Writer unit :=
  v ← at_ attributes key;
  emit_value b v.

(** ["field":{"$bind":n}]. *)
Definition emit_mongo_field (attributes : AttributeMap) (key : bytes) : Writer unit :=
  field ← try_ (mongo_field key);
  v ← at_ attributes key;
  value ← mongo_bind v;
  emit (json_lit "'" ++ field ++ json_lit "':" ++ value).

(** ** One row *)

Definition compile_mongo_insert (table : bytes) (attributes : AttributeMap) : Writer unit :=
  name ← try_ (json_identifier table);
  _ ← emit (json_lit "{'insert':'" ++ name ++ json_lit "','documents':[{");
  _ ← emit_list (lit ",") true (emit_mongo_field attributes) (sorted_keys attributes);
  emit (lit "}]}").

Definition compile_mongo_update (table : bytes) (attributes : AttributeMap) (key : bytes) (key_value : AttributeValue)
    : Writer unit :=
  name ← try_ (json_identifier table);
  field ← try_ (mongo_field key);
  _ ← emit (json_lit "{'update':'" ++ name ++ json_lit "','updates':[{'q':{'" ++ field ++
            json_lit "':{'$bind':0}},'u':{'$set':{");
  _ ← push_binding key_value;
  _ ← emit_list (lit ",") true (emit_mongo_field attributes) (sorted_keys attributes);
  emit (json_lit "}},'multi':false}]}").

Definition compile_mongo_delete (table key : bytes) (key_value : AttributeValue) : Writer unit :=
  name ← try_ (json_identifier table);
  field ← try_ (mongo_field key);
  _ ← emit (json_lit "{'delete':'" ++ name ++ json_lit "','deletes':[{'q':{'" ++ field ++
            json_lit "':{'$bind':0}},'limit':1}]}");
  _ ← push_binding key_value;
  mret tt.

(** The clauses that return a generated key. *)
Definition emit_output (b : Backend) (generated_key : bytes) : Writer unit :=
  if bool_decide (b = mssql) && negb (is_nil generated_key)
  then (_ ← emit (lit " OUTPUT INSERTED."); _ ← emit_identifier b generated_key; emit (lit " AS [id]"))
  else mret tt.

Definition emit_returning (b : Backend) (generated_key : bytes) : Writer unit :=
  if bool_decide (b = postgresql) && negb (is_nil generated_key)
  then (_ ← emit (lit " RETURNING "); _ ← emit_identifier b generated_key; emit (lit " AS " ++ [x22] ++ lit "id" ++ [x22]))
  else mret tt.

Definition insert_sql (table : bytes) (attributes : AttributeMap) (b : Backend) (generated_key : bytes) : Writer unit :=
  let keys := sorted_keys attributes in
  _ ← emit (lit "INSERT INTO ");
  _ ← emit_path b table;
  if is_nil keys then
    _ ← emit_output b generated_key;
    _ ← emit (if bool_decide (b = mysql) then lit " () VALUES ()" else lit " DEFAULT VALUES");
    _ ← emit_returning b generated_key;
    emit (lit ";")
  else
    _ ← emit (lit " (");
    _ ← emit_list (lit ", ") true (emit_identifier b) keys;
    _ ← emit (lit ")");
    _ ← emit_output b generated_key;
    _ ← emit (lit " VALUES (");
    _ ← emit_list (lit ", ") true (emit_attribute b attributes) keys;
    _ ← emit (lit ")");
    _ ← emit_returning b generated_key;
    emit (lit ";").

Definition compile_insert (table : bytes) (attributes : AttributeMap) (b : Backend) (generated_key : bytes)
    : result CompiledQuery :=
  match b with
  | mongodb => finish query_mongodb (compile_mongo_insert table attributes)
  | _ => finish query_sql (insert_sql table attributes b generated_key)
  end.

Definition update_sql (table : bytes) (attributes : AttributeMap) (key : bytes) (key_value : AttributeValue) (b : Backend)
    : Writer unit :=
  _ ← emit (lit "UPDATE ");
  _ ← emit_path b table;
  _ ← emit (lit " SET ");
  _ ← emit_list (lit ", ") true
        (fun k => _ ← emit_identifier b k; _ ← emit (lit " = "); emit_attribute b attributes k) (sorted_keys attributes);
  _ ← emit (lit " WHERE ");
  _ ← emit_identifier b key;
  _ ← emit (lit " = ");
  _ ← emit_value b key_value;
  emit (lit ";").

Definition compile_update (table : bytes) (attributes : AttributeMap) (key : bytes) (key_value : AttributeValue) (b : Backend)
    : result CompiledQuery :=
  match b with
  | mongodb => finish query_mongodb (compile_mongo_update table attributes key key_value)
  | _ => finish query_sql (update_sql table attributes key key_value b)
  end.

Definition delete_sql (table key : bytes) (key_value : AttributeValue) (b : Backend) : Writer unit :=
  _ ← emit (lit "DELETE FROM ");
  _ ← emit_path b table;
  _ ← emit (lit " WHERE ");
  _ ← emit_identifier b key;
  _ ← emit (lit " = ");
  _ ← emit_value b key_value;
  emit (lit ";").

Definition compile_delete (table key : bytes) (key_value : AttributeValue) (b : Backend) : result CompiledQuery :=
  match b with
  | mongodb => finish query_mongodb (compile_mongo_delete table key key_value)
  | _ => finish query_sql (delete_sql table key key_value b)
  end.

(** ** The rows a plan selects *)

Definition ensure_mutable_plan (plan : QueryPlan) : result unit :=
  if negb (is_nil (q_joins plan)) || negb (is_nil (q_groups plan)) || negb (is_nil (q_having plan)) ||
     match q_aggregate plan with Some _ => true | None => false end
  then Throw (logic_error "Bulk mutation cannot be combined with joins, groups, having, or aggregates")
  else Ok tt.

(** A predicate of [append_where_sql]: as in queries, but a comparison takes the first
    value without asking whether there is one. *)
Definition where_predicate (b : Backend) (p : Predicate) : Writer unit :=
  if is_list_kind (p_kind p) && is_nil (p_values p)
  then emit (if bool_decide (p_kind p = in_list) then lit "1 = 0" else lit "1 = 1")
  else
    _ ← emit_path b (p_column p);
    match p_kind p with
    | comparison_ =>
        match p_values p with
        | [] => throw (undefined "front() of an empty vector")
        | v :: _ => _ ← emit (lit " " ++ sql_operator (p_comparison p) ++ lit " "); emit_value b v
        end
    | column_comparison =>
        _ ← emit (lit " " ++ sql_operator (p_comparison p) ++ lit " "); emit_path b (p_other_column p)
    | in_list => emit_list_values b false (p_values p)
    | not_in_list => emit_list_values b true (p_values p)
    | between => emit_between b false (p_values p)
    | not_between => emit_between b true (p_values p)
    | is_null => emit (lit " IS NULL")
    | is_not_null => emit (lit " IS NOT NULL")
    end.

Fixpoint where_loop (b : Backend) (first : bool) (l : list Predicate) : Writer unit :=
  match l with
  | [] => mret tt
  | p :: rest =>
      _ ← (if first then mret tt else emit (match p_connector p with and_ => lit " AND " | or_ => lit " OR " end));
      _ ← where_predicate b p;
      where_loop b false rest
  end.

(** [append_where_sql]; the source writes the user's part with its [ WHERE ] to a query of
    its own that shares the bindings, and cuts the first seven characters off. *)
Definition append_where_sql (b : Backend) (l : list Predicate) : Writer unit :=
  match l with
  | [] => mret tt
  | _ =>
      if needs_split l then
        _ ← emit (lit " WHERE ");
        _ ← where_loop b true (automatic_part l);
        match user_part l with
        | [] => mret tt
        | user => _ ← emit (lit " AND ("); _ ← where_loop b true user; emit (lit ")")
        end
      else (_ ← emit (lit " WHERE "); where_loop b true l)
  end.

(** [mongo_predicate] of the mutations, which takes the first value unasked too. *)
Definition mutation_predicate (p : Predicate) : Writer bytes :=
  match p_kind p with
  | column_comparison => mongo_columns p
  | is_null => field_document (p_column p) (json_lit "{'$eq':null}")
  | is_not_null => field_document (p_column p) (json_lit "{'$ne':null}")
  | in_list => mongo_list false p
  | not_in_list => mongo_list true p
  | between => mongo_between false p
  | not_between => mongo_between true p
  | comparison_ =>
      field ← try_ (mongo_field (p_column p));
      match p_values p with
      | [] => throw (undefined "front() of an empty vector")
      | v :: _ =>
          value ← mongo_bind v;
          mret (json_lit "{'" ++ field ++ json_lit "':" ++ operator_document (mongo_operator (p_comparison p)) value ++ lit "}")
      end
  end.

Definition mutation_filter (l : list Predicate) : Writer bytes := mongo_filter_with mutation_predicate l.

(** An update command with a filter: what comes after the filter is written by [body]. *)
Definition mongo_update_with (plan : QueryPlan) (body : Writer unit) : Writer unit :=
  filter ← mutation_filter (q_predicates plan);
  name ← try_ (json_identifier (q_table plan));
  _ ← emit (json_lit "{'update':'" ++ name ++ json_lit "','updates':[{'q':" ++ filter ++ json_lit ",'u':{");
  _ ← body;
  emit (json_lit "}},'multi':true}]}").

Definition checked (plan : QueryPlan) (b : Backend) (mongo sql : Writer unit) : result CompiledQuery :=
  _ ← ensure_mutable_plan plan;
  match b with
  | mongodb => finish query_mongodb mongo
  | _ => finish query_sql sql
  end.

(** [UPDATE table SET ... WHERE ...]. *)
Definition update_where_with (plan : QueryPlan) (b : Backend) (assignments : Writer unit) : Writer unit :=
  _ ← emit (lit "UPDATE ");
  _ ← emit_path b (q_table plan);
  _ ← emit (lit " SET ");
  _ ← assignments;
  _ ← append_where_sql b (q_predicates plan);
  emit (lit ";").

Definition compile_update_where (plan : QueryPlan) (values : AttributeMap) (b : Backend) : result CompiledQuery :=
  _ ← ensure_mutable_plan plan;
  let keys := sorted_keys values in
  if is_nil keys then Throw (invalid_argument "ORM bulk update requires at least one value")
  else
    checked plan b
      (mongo_update_with plan
         (_ ← emit (json_lit "'$set':{"); emit_list (lit ",") true (emit_mongo_field values) keys))
      (update_where_with plan b
         (emit_list (lit ", ") true (fun k => _ ← emit_path b k; _ ← emit (lit " = "); emit_attribute b values k) keys)).

Definition compile_delete_where (plan : QueryPlan) (b : Backend) : result CompiledQuery :=
  checked plan b
    (filter ← mutation_filter (q_predicates plan);
     name ← try_ (json_identifier (q_table plan));
     emit (json_lit "{'delete':'" ++ name ++ json_lit "','deletes':[{'q':" ++ filter ++ json_lit ",'limit':0}]}"))
    (_ ← emit (lit "DELETE FROM ");
     _ ← emit_path b (q_table plan);
     _ ← append_where_sql b (q_predicates plan);
     emit (lit ";")).

Definition compile_increment_where (plan : QueryPlan) (column : bytes) (amount : double) (b : Backend)
    : result CompiledQuery :=
  checked plan b
    (mongo_update_with plan
       (field ← try_ (mongo_field column);
        value ← mongo_bind (ADouble amount);
        emit (json_lit "'$inc':{'" ++ field ++ json_lit "':" ++ value)))
    (update_where_with plan b
       (_ ← emit_path b column;
        _ ← emit (lit " = ");
        _ ← emit_path b column;
        _ ← emit (lit " + ");
        emit_value b (ADouble amount))).

Definition compile_soft_delete_where (plan : QueryPlan) (column : bytes) (restore : bool) (b : Backend)
    : result CompiledQuery :=
  checked plan b
    (mongo_update_with plan
       (field ← try_ (mongo_field column);
        emit (if restore then json_lit "'$set':{'" ++ field ++ json_lit "':null"
              else json_lit "'$currentDate':{'" ++ field ++ json_lit "':true")))
    (update_where_with plan b
       (_ ← emit_path b column;
        emit (if restore then lit " = NULL" else lit " = CURRENT_TIMESTAMP"))).

(** ** Many rows *)

Definition same_keys (keys : list bytes) (rows : list AttributeMap) : bool :=
  forallb (fun row => bool_decide (sorted_keys row = keys)) rows.

(** The values of a row, in the order of the keys, between parentheses. *)
Definition emit_row (b : Backend) (keys : list bytes) (row : AttributeMap) : Writer unit :=
  _ ← emit (lit "(");
  _ ← emit_list (lit ", ") true (emit_attribute b row) keys;
  emit (lit ")").

(** [INSERT INTO table (...) VALUES (...), (...)], without its semicolon. *)
Definition insert_rows (b : Backend) (table : bytes) (keys : list bytes) (rows : list AttributeMap) : Writer unit :=
  _ ← emit (lit "INSERT INTO ");
  _ ← emit_path b table;
  _ ← emit (lit " (");
  _ ← emit_list (lit ", ") true (emit_path b) keys;
  _ ← emit (lit ") VALUES ");
  emit_list (lit ", ") true (emit_row b keys) rows.

Definition compile_insert_many (table : bytes) (rows : list AttributeMap) (b : Backend) : result CompiledQuery :=
  match rows with
  | [] => Throw (invalid_argument "ORM bulk insert requires at least one row")
  | front :: _ =>
      let keys := sorted_keys front in
      if negb (same_keys keys rows) then Throw (invalid_argument "ORM bulk insert rows must have the same attributes")
      else
        match b with
        | mongodb =>
            finish query_mongodb
              (name ← try_ (json_identifier table);
               _ ← emit (json_lit "{'insert':'" ++ name ++ json_lit "','documents':[");
               _ ← emit_list (lit ",") true
                     (fun row => _ ← emit (lit "{"); _ ← emit_list (lit ",") true (emit_mongo_field row) keys; emit (lit "}"))
                     rows;
               emit (lit "]}"))
        | _ => finish query_sql (_ ← insert_rows b table keys rows; emit (lit ";"))
        end
  end.

(** The columns an upsert updates. *)
Definition upsert_updates (keys unique_by update_columns : list bytes) (ignore_conflicts : bool) : list bytes :=
  if is_nil update_columns && negb ignore_conflicts
  then filter (fun k => bool_decide (k ∈ unique_by) = false) keys
  else update_columns.

(** [target.c = source.c]. *)
Definition emit_match (b : Backend) (k : bytes) : Writer unit :=
  _ ← emit (lit "target.");
  _ ← emit_path b k;
  _ ← emit (lit " = source.");
  emit_path b k.

(** [c = prefix.c]. *)
Definition emit_assignment (b : Backend) (prefix : string) (k : bytes) : Writer unit :=
  _ ← emit_path b k;
  _ ← emit (lit " = " ++ lit prefix);
  emit_path b k.

Definition upsert_mongodb (table : bytes) (rows : list AttributeMap) (keys unique_by : list bytes) (ignore_conflicts : bool)
    : Writer unit :=
  name ← try_ (json_identifier table);
  _ ← emit (json_lit "{'update':'" ++ name ++ json_lit "','updates':[");
  _ ← emit_list (lit ",") true
        (fun row =>
           _ ← emit (json_lit "{'q':{");
           _ ← emit_list (lit ",") true (emit_mongo_field row) unique_by;
           _ ← emit (if ignore_conflicts then json_lit "},'u':{'$setOnInsert':{" else json_lit "},'u':{'$set':{");
           _ ← emit_list (lit ",") true (emit_mongo_field row) keys;
           emit (json_lit "}},'upsert':true,'multi':false}")) rows;
  emit (lit "]}").

Definition upsert_mssql (table : bytes) (rows : list AttributeMap) (keys unique_by updates : list bytes)
    (ignore_conflicts : bool) : Writer unit :=
  let b := mssql in
  _ ← emit (lit "MERGE INTO ");
  _ ← emit_path b table;
  _ ← emit (lit " AS target USING (VALUES ");
  _ ← emit_list (lit ", ") true (emit_row b keys) rows;
  _ ← emit (lit ") AS source (");
  _ ← emit_list (lit ", ") true (emit_path b) keys;
  _ ← emit (lit ") ON ");
  _ ← emit_list (lit " AND ") true (emit_match b) unique_by;
  _ ← (if negb ignore_conflicts && negb (is_nil updates)
       then (_ ← emit (lit " WHEN MATCHED THEN UPDATE SET "); emit_list (lit ", ") true (emit_match b) updates)
       else mret tt);
  _ ← emit (lit " WHEN NOT MATCHED THEN INSERT (");
  _ ← emit_list (lit ", ") true (emit_path b) keys;
  _ ← emit (lit ") VALUES (");
  _ ← emit_list (lit ", ") true (fun k => _ ← emit (lit "source."); emit_path b k) keys;
  emit (lit ");").

Definition upsert_conflict (b : Backend) (unique_by updates : list bytes) (ignore_conflicts : bool) : Writer unit :=
  _ ← emit (lit " ON CONFLICT (");
  _ ← emit_list (lit ", ") true (emit_path b) unique_by;
  if ignore_conflicts || is_nil updates then emit (lit ") DO NOTHING;")
  else
    _ ← emit (lit ") DO UPDATE SET ");
    _ ← emit_list (lit ", ") true (emit_assignment b "EXCLUDED.") updates;
    emit (lit ";").

Definition upsert_mysql (b : Backend) (unique_by updates : list bytes) (ignore_conflicts : bool) : Writer unit :=
  if ignore_conflicts || is_nil updates then
    match unique_by with
    | [] => throw (undefined "front() of an empty vector")
    | key :: _ =>
        _ ← emit (lit " ON DUPLICATE KEY UPDATE ");
        _ ← emit_path b key;
        _ ← emit (lit " = ");
        _ ← emit_path b key;
        emit (lit ";")
    end
  else
    _ ← emit (lit " AS gungnir_new ON DUPLICATE KEY UPDATE ");
    _ ← emit_list (lit ", ") true (emit_assignment b "gungnir_new.") updates;
    emit (lit ";").

Definition compile_upsert (table : bytes) (rows : list AttributeMap) (unique_by update_columns : list bytes) (b : Backend)
    (ignore_conflicts : bool) : result CompiledQuery :=
  match rows with
  | [] => Throw (invalid_argument "ORM upsert requires at least one row")
  | front :: _ =>
      if is_nil unique_by then Throw (invalid_argument "ORM upsert requires at least one unique key")
      else
        let keys := sorted_keys front in
        if negb (same_keys keys rows) then Throw (invalid_argument "ORM upsert rows must have the same attributes")
        else if existsb (fun k => match front !! k with None => true | Some _ => false end) unique_by
        then Throw (invalid_argument "ORM upsert unique key is missing from row attributes")
        else
          let updates := upsert_updates keys unique_by update_columns ignore_conflicts in
          match b with
          | mongodb => finish query_mongodb (upsert_mongodb table rows keys unique_by ignore_conflicts)
          | mssql => finish query_sql (upsert_mssql table rows keys unique_by updates ignore_conflicts)
          | mysql => finish query_sql (_ ← insert_rows b table keys rows; upsert_mysql b unique_by updates ignore_conflicts)
          | _ => finish query_sql (_ ← insert_rows b table keys rows; upsert_conflict b unique_by updates ignore_conflicts)
          end
  end.
