(* ===== verification/OrmFacts.v ===== *)
(** * Compiled queries: placeholders, quoting

    Every SQL text the query and mutation compilers write reads, by the quoting rules of
    its dialect, as one statement whose placeholders stand for the bindings, one for each
    and in their order. *)

From S2P Require Import Prelude Numeral Text Double Transaction Attribute Schema SchemaSql SchemaSqlFacts Orm Mutation.

#[local] Arguments lit : simpl never.
#[local] Arguments Z.of_nat : simpl never.

(** ** Placeholders in the tokens of a statement *)

(** [None] for a question mark, [Some n] for [$n] in PostgreSQL; [acc] is the number being
    read. *)
Fixpoint marks (b : Backend) (acc : option Z) (toks : list SqlToken) : list (option Z) :=
  let flush := match acc with Some n => [Some n] | None => [] end in
  match toks with
  | [] => flush
  | QChar c :: rest =>
      let outside :=
        if (c =b? "$") && bool_decide (b = postgresql) then marks b (Some 0) rest
        else if c =b? "?" then None :: marks b None rest
        else marks b None rest in
      match acc with
      | Some n => if is_digit c then marks b (Some (n * 10 + digit_value c)) rest else Some n :: outside
      | None => outside
      end
  | _ :: rest => flush ++ marks b None rest
  end.

(** The placeholders of [n] bindings, in order. *)
Definition numbered (b : Backend) (i n : Z) : list (option Z) :=
  map (fun k => match b with postgresql => Some (k + 1) | _ => None end) (seqZ i (n - i)).

(** ** Texts with placeholders *)

Definition query_plain (c : byte) : bool := sql_plain c && negb (c =b? "?") && negb (c =b? "$").

(** What may follow a name or a placeholder. *)
Definition soft (t : bytes) : bool := match t with [] => true | c :: _ => query_plain c && negb (is_digit c) end.

Inductive Frag (b : Backend) : Z -> bytes -> Z -> Prop :=
| fr_nil i : Frag b i [] i
| fr_char i c t j : query_plain c = true -> Frag b i t j -> Frag b i (c :: t) j
| fr_name i n t j : soft t = true -> Frag b i t j -> Frag b i (quote_identifier b n ++ t) j
| fr_hole i t j : 0 <= i -> soft t = true -> Frag b (i + 1) t j -> Frag b i (orm_placeholder b i ++ t) j.

Lemma frag_le b i t j : Frag b i t j -> i <= j.
Proof. induction 1; lia. Qed.

Lemma soft_apart t : soft t = true -> apart t = true.
Proof.
  destruct t as [|c t]; [done|]. cbn. unfold query_plain. intros [[[H _]%andb_prop _]%andb_prop _]%andb_prop.
  by rewrite H, orb_true_r.
Qed.

Lemma numbered_cons b i j : i < j -> numbered b i j = match b with postgresql => Some (i + 1) | _ => None end :: numbered b (i + 1) j.
Proof. intros Hij. unfold numbered. rewrite seqZ_cons by lia. cbn [map]. do 3 f_equal. lia. Qed.

Lemma numbered_nil b i : numbered b i i = [].
Proof. unfold numbered. by rewrite Z.sub_diag. Qed.

(** Reading a number digit by digit. *)
Lemma marks_digits b n ds toks :
  Forall (fun c => is_digit c = true) ds -> marks b (Some n) (map QChar ds ++ toks) = marks b (Some (fold_left (fun a c => a * 10 + digit_value c) ds n)) toks.
Proof.
  intros Hd. revert n. induction Hd as [|c ds Hc _ IH]; intros n; [done|]. cbn [map app marks fold_left]. by rewrite Hc, IH.
Qed.

(** The tokens of a soft text do not continue a number. *)
Definition calm (toks : list SqlToken) : Prop := match toks with QChar c :: _ => is_digit c = false | _ => True end.

Lemma marks_calm b n toks : calm toks -> marks b (Some n) toks = Some n :: marks b None toks.
Proof. destruct toks as [|[m|t|c] toks]; [done..|]. cbn. by intros ->. Qed.

Lemma query_plain_sql c : query_plain c = true -> sql_plain c = true /\ (c =b? "?") = false /\ (c =b? "$") = false.
Proof. unfold query_plain. intros [[? ?%negb_true_iff]%andb_prop ?%negb_true_iff]%andb_prop. done. Qed.

Lemma read_plain b s t :
  plain_text s = true -> read_sql b Outside (s ++ t) = app (map QChar s) <$> read_sql b Outside t.
Proof.
  induction s as [|c s IH]; intros Hs; [cbn; by destruct (read_sql b Outside t)|]. cbn in Hs. apply andb_prop in Hs as [Hc Hs].
  destruct (plain_marks b c Hc) as (H1 & _ & H3). cbn [app read_sql]. rewrite H1, H3, IH by done.
  by destruct (read_sql b Outside t).
Qed.

Lemma read_end b : read_sql b Outside [";"%byte] = Some [QChar ";"].
Proof. by destruct b. Qed.

(** A text and a semicolon read as one statement with the placeholders in order. *)
Lemma frag_reads b i t j :
  Frag b i t j ->
  exists toks, read_sql b Outside (t ++ [";"%byte]) = Some (toks ++ [QChar ";"]) /\
               Forall (fun k => match k with QChar c => sql_plain c = true | QText _ => False | QIdent _ => True end) toks /\
               marks b None (toks ++ [QChar ";"]) = numbered b i j /\
               (soft t = true -> calm (toks ++ [QChar ";"])).
Proof.
  induction 1 as [i|i c t j Hc _ (toks & E & Hf & Hm & _)|i n t j Hs _ (toks & E & Hf & Hm & Hcalm)|i t j Hi Hs Hfr (toks & E & Hf & Hm & Hcalm)].
  - exists []. rewrite numbered_nil. split; [apply read_end|]. by destruct b.
  - destruct (query_plain_sql c Hc) as (Hp & Hq & Hd). exists (QChar c :: toks).
    destruct (plain_marks b c Hp) as (H1 & _ & H3). cbn [app read_sql]. rewrite H1, H3, E. split; [done|].
    split; [by constructor|]. split; [cbn [app marks]; by rewrite Hd, Hq|].
    cbn. by intros [_ ->%negb_true_iff]%andb_prop.
  - exists (QIdent n :: toks). split; [|split; [by constructor|split; [done|done]]].
    rewrite quote_shape, <-app_assoc. cbn [app read_sql]. rewrite byte_eqb_refl, <-app_assoc. cbn [app]. rewrite read_name.
    cbn [app]. rewrite read_after_name by by apply apart_end, soft_apart. by rewrite E.
  - pose proof (frag_le _ _ _ _ Hfr) as Hle. rewrite numbered_cons by lia. rewrite <-Hm. specialize (Hcalm Hs).
    destruct (decide (b = postgresql)) as [->|Hb].
    + set (ds := to_string (i + 1)).
      assert (Forall (fun c => is_digit c = true) ds) as Hds.
      { unfold ds, to_string. destruct (i + 1 <? 0) eqn:E0; reflect_bools; [lia|]. by apply to_string_u_digits. }
      exists (QChar "$" :: map QChar ds ++ toks). unfold orm_placeholder. rewrite <-app_assoc.
      change (lit "$" ++ ?x) with ("$"%byte :: x). fold ds. cbn [app].
      rewrite <-app_assoc. split.
      { cbn [read_sql]. rewrite (read_plain postgresql ds) by by apply plain_digits. cbn in E. by rewrite E. }
      split; [constructor; [done|]; apply Forall_app; split; [|done]|].
      { apply Forall_forall. intros k (c & -> & Hc)%list_elem_of_fmap. by apply plain_digit, (proj1 (Forall_forall _ _) Hds). }
      split; [|done].
      change (marks postgresql (Some 0) (map QChar ds ++ toks ++ [QChar ";"]) = Some (i + 1) :: marks postgresql None (toks ++ [QChar ";"])).
      rewrite marks_digits by done. rewrite marks_calm by done. do 2 f_equal.
      change (digits_value ds = i + 1). unfold ds, to_string. destruct (i + 1 <? 0) eqn:E0; reflect_bools; [lia|].
      by apply to_string_u_value.
    + exists (QChar "?" :: toks). assert (orm_placeholder b i = lit "?") as -> by by destruct b.
      split; [|split; [by constructor|split; [|done]]].
      * change (lit "?" ++ ?x) with ("?"%byte :: x). cbn [app read_sql]. replace ("?" =b? opening b)%byte with false by by destruct b.
        cbn. by rewrite E.
      * cbn [app marks]. change (("?" =b? "$")%byte && _) with false. cbn. by destruct b.
Qed.

(** ** Writers *)
Section Writers.
Variable b : Backend.

Definition size (d : Draft) : Z := Z.of_nat (length (d_bindings d)).

(** Anything may be appended to the draft; or only a soft text. *)
Definition Ready (d : Draft) : Prop := forall u k, Frag b (size d) u k -> Frag b 0 (d_text d ++ u) k.
Definition Busy (d : Draft) : Prop := forall u k, soft u = true -> Frag b (size d) u k -> Frag b 0 (d_text d ++ u) k.

Definition triple {A} (P : Draft -> Prop) (w : Writer A) (Q : Draft -> Prop) : Prop :=
  forall d, P d -> match w d with (Ok _, d') => Q d' | (Throw _, _) => True | (NoFuel, _) => False end.

Lemma triple_bind {A B} P Q R (w : Writer A) (f : A -> Writer B) :
  triple P w Q -> (forall a, triple Q (f a) R) -> triple P (w ≫= f) R.
Proof.
  intros Hw Hf d Hd. unfold mbind, eff_bind. specialize (Hw d Hd). destruct (w d) as [[a|e|] d']; [|done..]. by apply Hf.
Qed.

Lemma triple_ret {A} P (a : A) : triple P (mret a) P.
Proof. by intros d Hd. Qed.

Lemma triple_throw {A} P Q e : triple P (throw e : Writer A) Q.
Proof. by intros d Hd. Qed.

Lemma triple_pre {A} P P' Q (w : Writer A) : (forall d, P d -> P' d) -> triple P' w Q -> triple P w Q.
Proof. intros HP Hw d Hd. by apply Hw, HP. Qed.

Lemma triple_post {A} P Q Q' (w : Writer A) : triple P w Q' -> (forall d, Q' d -> Q d) -> triple P w Q.
Proof. intros Hw HQ d Hd. specialize (Hw d Hd). destruct (w d) as [[a|e|] d']; auto. Qed.

Lemma ready_busy d : Ready d -> Busy d.
Proof. intros Hd u k _. apply Hd. Qed.

Definition plain_query (t : bytes) : bool := forallb query_plain t.

Lemma frag_plain t i u k : plain_query t = true -> Frag b i u k -> Frag b i (t ++ u) k.
Proof. induction t as [|c t IH]; cbn; [done|]. intros [Hc Ht]%andb_prop Hu. constructor; auto. Qed.

Lemma emit_ready t : plain_query t = true -> triple Ready (emit t) Ready.
Proof. intros Ht d Hd u k Hu. cbn. rewrite <-app_assoc. by apply Hd, frag_plain. Qed.

(** A text that starts softly ends what was open. *)
Lemma emit_soft t : plain_query t = true -> soft t = true -> t <> [] -> triple Busy (emit t) Ready.
Proof.
  intros Ht Hs Hn d Hd u k Hu. cbn. rewrite <-app_assoc. apply Hd; [|by apply frag_plain]. by destruct t.
Qed.

Lemma emit_busy t : plain_query t = true -> soft t = true -> triple Busy (emit t) Busy.
Proof.
  intros Ht Hs. destruct t as [|c t].
  - intros d Hd u k Hu Hf. cbn. rewrite app_nil_r. by apply Hd.
  - eapply triple_post; [by apply emit_soft|apply ready_busy].
Qed.

Lemma quote_same value t : orm_quote_identifier b value = Ok t -> t = quote_identifier b value.
Proof.
  unfold orm_quote_identifier. intros (u & _ & <-%Ok_inj)%bind_Ok. by destruct b.
Qed.

Lemma segment_frag value t i u k :
  quote_segment b value = Ok t -> soft u = true -> Frag b i u k -> Frag b i (t ++ u) k.
Proof.
  unfold quote_segment. case_bool_decide.
  - intros <-%Ok_inj _ Hu. by apply frag_plain.
  - intros ->%quote_same Hs Hu. by apply fr_name.
Qed.

Lemma path_frag value t i u k :
  quote_path b value = Ok t -> soft u = true -> Frag b i u k -> Frag b i (t ++ u) k.
Proof.
  unfold quote_path. intros (l & Hl%mapM_Ok & <-%Ok_inj)%bind_Ok Hs Hu.
  induction Hl as [|x t xs l Hx Hl IH]; [done|]. destruct l as [|t' l].
  - cbn. by eapply segment_frag.
  - change (join (lit ".") (t :: t' :: l)) with (t ++ lit "." ++ join (lit ".") (t' :: l)). rewrite <-!app_assoc.
    eapply segment_frag; [exact Hx|done|]. apply frag_plain; [done|exact IH].
Qed.

Lemma emit_path_busy value : triple Ready (emit_path b value) Busy.
Proof.
  intros d Hd. unfold emit_path, try_, mbind, eff_bind. pose proof (path_frag value) as Hp.
  assert (quote_path b value <> NoFuel) as Hn.
  { apply bind_ends; [|done]. apply mapM_ends. intros x. unfold quote_segment, orm_quote_identifier, validate_identifier.
    by repeat case_match. }
  destruct (quote_path b value) as [t|e|]; [|done..]. intros u k Hs Hu. cbn. rewrite <-app_assoc. apply Hd. by eapply Hp.
Qed.

Lemma emit_identifier_busy value : triple Ready (emit_identifier b value) Busy.
Proof.
  intros d Hd. unfold emit_identifier, try_, mbind, eff_bind. pose proof (quote_same value) as Hq.
  assert (orm_quote_identifier b value <> NoFuel) as Hn.
  { unfold orm_quote_identifier, validate_identifier. by repeat case_match. }
  destruct (orm_quote_identifier b value) as [t|e|]; [|done..]. intros u k Hs Hu. cbn. rewrite <-app_assoc.
  rewrite (Hq t eq_refl). apply Hd. by apply fr_name.
Qed.

Lemma emit_value_busy v : triple Ready (emit_value b v) Busy.
Proof.
  intros d Hd u k Hs Hu. cbn. rewrite <-app_assoc. apply Hd. apply fr_hole; [unfold size; lia|done|].
  unfold size in *. cbn [d_bindings] in Hu. rewrite length_app in Hu. cbn in Hu.
  by replace (Z.of_nat (length (d_bindings d)) + 1) with (Z.of_nat (length (d_bindings d) + 1)) by lia.
Qed.

Lemma emit_attribute_busy attributes key : triple Ready (emit_attribute b attributes key) Busy.
Proof.
  unfold emit_attribute. eapply (triple_bind _ Ready); [unfold at_; destruct (attributes !! key); [apply triple_ret|apply triple_throw]|].
  intros v. apply emit_value_busy.
Qed.

(** Lists: items from a ready draft, separators that make it ready again. *)
Lemma emit_rest_busy {A} separator (f : A -> Writer unit) l :
  plain_query separator = true -> soft separator = true -> separator <> [] ->
  (forall a, triple Ready (f a) Busy) -> triple Busy (emit_list separator false f l) Busy.
Proof.
  intros H1 H2 H3 Hf. induction l as [|x l IH]; cbn [emit_list]; [apply triple_ret|].
  eapply triple_bind; [by apply emit_soft|intros _]. eapply triple_bind; [apply Hf|]. intros _. exact IH.
Qed.

Lemma emit_list_busy {A} separator (f : A -> Writer unit) l :
  plain_query separator = true -> soft separator = true -> separator <> [] ->
  (forall a, triple Ready (f a) Busy) -> triple Ready (emit_list separator true f l) Busy.
Proof.
  intros H1 H2 H3 Hf. destruct l as [|x l]; cbn [emit_list]; [eapply triple_post; [apply triple_ret|apply ready_busy]|].
  eapply triple_bind; [apply triple_ret|intros _]. eapply triple_bind; [apply Hf|]. intros _. by apply emit_rest_busy.
Qed.

(** [finished w]: what [w] writes ends with a semicolon after a complete text. *)
Definition finished (w : Writer unit) : Prop :=
  triple Ready w (fun d => exists t, d_text d = t ++ [";"%byte] /\ Frag b 0 t (size d)).

Lemma busy_frag d : Busy d -> Frag b 0 (d_text d) (size d).
Proof. intros Hd. rewrite <-(app_nil_r (d_text d)). apply Hd; [done|constructor]. Qed.

Lemma emit_end t :
  plain_query t = true -> soft t = true ->
  triple Busy (emit (t ++ lit ";")) (fun d => exists t, d_text d = t ++ [";"%byte] /\ Frag b 0 t (size d)).
Proof.
  intros Ht Hs d Hd. cbn. exists (d_text d ++ t). rewrite <-app_assoc. split; [done|].
  apply Hd; [done|]. rewrite <-(app_nil_r t). apply frag_plain; [done|constructor].
Qed.

Lemma finished_semicolon : triple Busy (emit (lit ";")) (fun d => exists t, d_text d = t ++ [";"%byte] /\ Frag b 0 t (size d)).
Proof. by apply (emit_end []). Qed.

(** The automation of the proofs below: a program is read from left to right. *)
Ltac write_step :=
  match goal with
  | |- triple Ready (emit_path _ _ ≫= _) _ => eapply triple_bind; [apply emit_path_busy|intros _]
  | |- triple Ready (emit_identifier _ _ ≫= _) _ => eapply triple_bind; [apply emit_identifier_busy|intros _]
  | |- triple Ready (emit_value _ _ ≫= _) _ => eapply triple_bind; [apply emit_value_busy|intros _]
  | |- triple Ready (emit_list _ true _ _ ≫= _) _ =>
      eapply triple_bind; [apply emit_list_busy; [done..|intros ?; repeat write_step]|intros _]
  | |- triple Ready (emit _ ≫= _) _ => eapply triple_bind; [apply emit_ready; reflexivity|intros _]
  | |- triple Busy (emit _ ≫= _) _ => eapply triple_bind; [apply emit_soft; [reflexivity..|done]|intros _]
  | |- triple Ready (emit_path _ _) Busy => apply emit_path_busy
  | |- triple Ready (emit_identifier _ _) Busy => apply emit_identifier_busy
  | |- triple Ready (emit_value _ _) Busy => apply emit_value_busy
  | |- triple Ready (emit_attribute _ _ _) Busy => apply emit_attribute_busy
  | |- triple Ready (emit_list _ true _ _) Busy => apply emit_list_busy; [done..|intros ?; repeat write_step]
  | |- triple Ready (emit _) Ready => apply emit_ready; reflexivity
  | |- triple Ready (emit _) Busy => eapply triple_post; [apply emit_ready; reflexivity|apply ready_busy]
  | |- triple Busy (emit _) Busy => apply emit_busy; reflexivity
  | |- triple Busy (emit _) Ready => apply emit_soft; [reflexivity..|done]
  | |- triple Busy (emit (lit ";")) _ => apply finished_semicolon
  | |- triple _ (throw _) _ => apply triple_throw
  | |- triple Ready (mret _) Busy => eapply triple_post; [apply triple_ret|apply ready_busy]
  | |- triple _ (mret _) _ => apply triple_ret
  end.

Lemma operator_plain c : plain_query (lit " " ++ sql_operator c ++ lit " ") = true.
Proof. by destruct c. Qed.

Lemma emit_operator c : triple Busy (emit (lit " " ++ sql_operator c ++ lit " ")) Ready.
Proof. apply emit_soft; [apply operator_plain|done|done]. Qed.

Lemma list_values_busy negated values : triple Busy (emit_list_values b negated values) Busy.
Proof. unfold emit_list_values. destruct negated; repeat write_step. Qed.

Lemma between_busy negated values : triple Busy (emit_between b negated values) Busy.
Proof. unfold emit_between. destruct values as [|v [|w [|]]]; try apply triple_throw. destruct negated; repeat write_step. Qed.

Lemma predicate_busy p : triple Ready (append_sql_predicate b p) Busy.
Proof.
  unfold append_sql_predicate. destruct (_ && _); [destruct (bool_decide _); repeat write_step|]. write_step.
  destruct (p_kind p); repeat write_step; auto using list_values_busy, between_busy.
  - destruct (p_values p); [apply triple_throw|]. eapply triple_bind; [apply emit_operator|intros _]. write_step.
  - destruct (is_nil _); [apply triple_throw|]. eapply triple_bind; [apply emit_operator|intros _]. write_step.
Qed.

Lemma where_predicate_busy p : triple Ready (where_predicate b p) Busy.
Proof.
  unfold where_predicate. destruct (_ && _); [destruct (bool_decide _); repeat write_step|]. write_step.
  destruct (p_kind p); repeat write_step; auto using list_values_busy, between_busy.
  - destruct (p_values p); [apply triple_throw|]. eapply triple_bind; [apply emit_operator|intros _]. write_step.
  - eapply triple_bind; [apply emit_operator|intros _]. write_step.
Qed.

(** The loops over predicates, for either way to write one. *)
Lemma connectors_busy (f : Predicate -> Writer unit) (loop : bool -> list Predicate -> Writer unit) :
  (forall first, loop first [] = mret tt) ->
  (forall first p rest, loop first (p :: rest) =
     (_ ← (if first : bool then mret tt else emit (match p_connector p with and_ => lit " AND " | or_ => lit " OR " end));
      _ ← f p; loop false rest)) ->
  (forall p, triple Ready (f p) Busy) -> forall l, triple Ready (loop true l) Busy.
Proof.
  intros Hnil Hcons Hf. assert (forall l, triple Busy (loop false l) Busy) as Hrest.
  { induction l as [|p l IH]; [rewrite Hnil; apply triple_ret|]. rewrite Hcons.
    eapply triple_bind; [apply emit_soft; by destruct (p_connector p)|intros _]. eapply triple_bind; [apply Hf|]. intros _. exact IH. }
  intros [|p l]; [rewrite Hnil; write_step|]. rewrite Hcons. eapply triple_bind; [apply triple_ret|intros _].
  eapply triple_bind; [apply Hf|]. intros _. apply Hrest.
Qed.

Lemma append_plain_busy joined l : triple Ready (append_plain b joined true l) Busy.
Proof.
  apply (connectors_busy (fun p => append_sql_predicate b (qualified joined p)) (fun first l => append_plain b joined first l)); [done..|].
  intros p. apply predicate_busy.
Qed.

Lemma where_loop_busy l : triple Ready (where_loop b true l) Busy.
Proof. apply (connectors_busy (where_predicate b) (where_loop b)); [done..|]. apply where_predicate_busy. Qed.

Lemma append_predicates_busy joined l : triple Ready (append_predicates b joined l) Busy.
Proof.
  unfold append_predicates. destruct (needs_split l); [|apply append_plain_busy].
  eapply triple_bind; [apply append_plain_busy|intros _]. destruct (user_part l) as [|p u]; [write_step|]. write_step.
  eapply triple_bind; [apply append_plain_busy|intros _]. write_step.
Qed.

Lemma append_where_busy l : triple Busy (append_where_sql b l) Busy.
Proof.
  unfold append_where_sql. destruct l as [|p l]; [write_step|]. destruct (needs_split _).
  - write_step. eapply triple_bind; [apply where_loop_busy|intros _]. destruct (user_part _) as [|q u]; [write_step|]. write_step.
    eapply triple_bind; [apply where_loop_busy|intros _]. write_step.
  - write_step. apply where_loop_busy.
Qed.

(** ** The queries *)

Lemma segment_no_fuel value : quote_segment b value <> NoFuel.
Proof. unfold quote_segment, orm_quote_identifier, validate_identifier. by repeat case_match. Qed.

Lemma emit_segment_busy value : triple Ready (emit_segment b value) Busy.
Proof.
  intros d Hd. unfold emit_segment, try_, mbind, eff_bind. pose proof (segment_frag value) as Hp.
  pose proof (segment_no_fuel value) as Hn. destruct (quote_segment b value) as [t|e|]; [|done..].
  intros u k Hs Hu. cbn. rewrite <-app_assoc. apply Hd. by eapply Hp.
Qed.

Lemma selection_busy plan : triple Ready (emit_selection b plan) Busy.
Proof.
  unfold emit_selection. destruct (q_aggregate plan) as [a|].
  - eapply (triple_bind _ Ready).
    { destruct (is_nil _); [write_step|]. do 2 write_step.
      eapply triple_bind; [apply emit_segment_busy|intros _]. write_step. }
    intros _. eapply (triple_bind _ Ready); [apply emit_ready; by destruct (agg_function a)|intros _].
    eapply (triple_bind _ Busy); [destruct (bool_decide _); repeat write_step|intros _]. write_step. apply emit_segment_busy.
  - destruct (is_nil _); repeat write_step.
Qed.

Lemma join_busy j : triple Busy (emit_join b j) Busy.
Proof.
  unfold emit_join. eapply triple_bind; [apply emit_soft; by destruct (j_type j)|intros _]. write_step.
  destruct (bool_decide _); [write_step|]. do 2 write_step. eapply triple_bind; [apply emit_operator|intros _]. write_step.
Qed.

Lemma joins_busy first l : triple Busy (emit_list [] first (emit_join b) l) Busy.
Proof.
  revert first. induction l as [|j l IH]; intros first; cbn [emit_list]; [write_step|].
  eapply (triple_bind _ Busy); [destruct first; [write_step|by apply emit_busy]|intros _].
  eapply triple_bind; [apply join_busy|]. intros _. apply IH.
Qed.

Lemma clause_busy {A} keyword (l : list A) body :
  plain_query (lit keyword) = true -> soft (lit keyword) = true -> lit keyword <> [] ->
  triple Ready body Busy -> triple Busy (emit_clause keyword l body) Busy.
Proof.
  intros H1 H2 H3 Hb. unfold emit_clause. destruct (is_nil l); [write_step|].
  eapply triple_bind; [by apply emit_soft|]. intros _. exact Hb.
Qed.

Lemma plain_query_app t u : plain_query t = true -> plain_query u = true -> plain_query (t ++ u) = true.
Proof. unfold plain_query. intros. rewrite forallb_app. by apply andb_true_intro. Qed.

Lemma plain_query_number z : plain_query (to_string z) = true.
Proof.
  assert (forall s, Forall (fun c => is_digit c = true) s -> plain_query s = true) as Hd.
  { induction 1 as [|c s Hc _ IH]; [done|]. cbn. fold (plain_query s). rewrite IH, andb_true_r.
    assert (implb (is_digit c) (query_plain c) = true) as H by (clear; by_bytes). by rewrite Hc in H. }
  unfold to_string. destruct (z <? 0) eqn:E; reflect_bools; [|by apply Hd, to_string_u_digits].
  cbn. apply Hd, to_string_u_digits. lia.
Qed.

Lemma limit_plain plan : plain_query (limit_sql b plan) = true /\ soft (limit_sql b plan) = true.
Proof.
  unfold limit_sql. destruct (q_limit plan) as [n|], (q_offset plan) as [o|]; try done;
    destruct b; try destruct (is_nil _); cbn [bool_decide];
    (split; [repeat (apply plain_query_app; [first [reflexivity|apply plain_query_number]|]); first [reflexivity|apply plain_query_number]|done]).
Qed.

Lemma select_finished plan : finished (select_sql b plan).
Proof.
  unfold finished, select_sql. destruct (_ && _); [apply triple_throw|].
  eapply (triple_bind _ Ready); [apply emit_ready; by destruct (q_distinct plan)|intros _].
  eapply triple_bind; [apply selection_busy|intros _]. do 2 write_step.
  eapply (triple_bind _ Busy); [apply emit_busy; unfold lock_hint; destruct (bool_decide _), (q_lock plan); done|intros _].
  eapply triple_bind; [apply joins_busy|intros _].
  do 4 (eapply triple_bind; [apply clause_busy; [done..|]; first [apply append_predicates_busy|apply emit_list_busy; [done..|]; intros x;
    first [apply emit_path_busy|unfold emit_order; write_step; destruct (ord_direction x); write_step]]|intros _]).
  destruct (limit_plain plan) as [H1 H2]. rewrite app_assoc. apply emit_end.
  - apply plain_query_app; [done|]. unfold lock_suffix. by destruct (bool_decide _), (q_lock plan).
  - destruct (limit_sql b plan); [|done]. unfold lock_suffix. by destruct (bool_decide _), (q_lock plan).
Qed.

(** ** The mutations *)

(** [ AS ] and a quoted name. *)
Lemma emit_alias t n : plain_query t = true -> soft t = true -> t <> [] -> triple Busy (emit (t ++ quote_identifier b n)) Busy.
Proof.
  intros Ht Hs Hn d Hd u k Hu Hf. cbn. rewrite <-!app_assoc. apply Hd; [by destruct t|]. apply frag_plain; [done|]. by apply fr_name.
Qed.

Lemma output_busy key : triple Busy (emit_output b key) Busy.
Proof.
  unfold emit_output. destruct (_ && _) eqn:Eb; [|write_step]. apply andb_prop in Eb as [Eb%bool_decide_eq_true _].
  do 2 write_step. intros d Hd. apply (emit_alias (lit " AS ") (lit "id")) in Hd; [|done..].
  by rewrite Eb in Hd.
Qed.

Lemma returning_busy key : triple Busy (emit_returning b key) Busy.
Proof.
  unfold emit_returning. destruct (_ && _) eqn:Eb; [|write_step]. apply andb_prop in Eb as [Eb%bool_decide_eq_true _].
  do 2 write_step. intros d Hd. apply (emit_alias (lit " AS ") (lit "id")) in Hd; [|done..].
  by rewrite Eb in Hd.
Qed.

Lemma insert_finished table attributes key : finished (insert_sql table attributes b key).
Proof.
  unfold finished, insert_sql. do 2 write_step. destruct (is_nil _).
  - eapply triple_bind; [apply output_busy|intros _].
    eapply (triple_bind _ Busy); [destruct (bool_decide _); write_step|intros _].
    eapply triple_bind; [apply returning_busy|intros _]. write_step.
  - do 2 write_step. eapply (triple_bind _ Busy); [write_step|intros _].
    eapply triple_bind; [apply output_busy|intros _]. do 2 write_step. eapply (triple_bind _ Busy); [write_step|intros _].
    eapply triple_bind; [apply returning_busy|intros _]. write_step.
Qed.

Lemma update_finished table attributes key v : finished (update_sql table attributes key v b).
Proof. unfold finished, update_sql. repeat write_step. Qed.

Lemma delete_finished table key v : finished (delete_sql table key v b).
Proof. unfold finished, delete_sql. repeat write_step. Qed.

Lemma update_where_finished plan assignments :
  triple Ready assignments Busy -> finished (update_where_with plan b assignments).
Proof.
  intros Ha. unfold finished, update_where_with. repeat write_step. eapply triple_bind; [exact Ha|intros _].
  eapply triple_bind; [apply append_where_busy|intros _]. write_step.
Qed.

Lemma delete_where_finished plan :
  finished (_ ← emit (lit "DELETE FROM "); _ ← emit_path b (q_table plan); _ ← append_where_sql b (q_predicates plan); emit (lit ";")).
Proof. unfold finished. repeat write_step. eapply triple_bind; [apply append_where_busy|intros _]. write_step. Qed.

Lemma row_busy keys row : triple Ready (emit_row b keys row) Busy.
Proof. unfold emit_row. repeat write_step. Qed.

Lemma rows_busy keys rows : triple Ready (emit_list (lit ", ") true (emit_row b keys) rows) Busy.
Proof. apply emit_list_busy; [done..|]. intros. apply row_busy. Qed.

Lemma insert_rows_busy table keys rows : triple Ready (insert_rows b table keys rows) Busy.
Proof. unfold insert_rows. do 5 write_step. apply rows_busy. Qed.

Lemma assignment_busy prefix k :
  plain_query (lit " = " ++ lit prefix) = true -> triple Ready (emit_assignment b prefix k) Busy.
Proof. intros Hp. unfold emit_assignment. write_step. eapply triple_bind; [by apply emit_soft|intros _]. write_step. Qed.

Definition complete (d : Draft) : Prop := exists t, d_text d = t ++ [";"%byte] /\ Frag b 0 t (size d).

Lemma upsert_conflict_finished unique_by updates ignore : triple Busy (upsert_conflict b unique_by updates ignore) complete.
Proof.
  unfold upsert_conflict. do 2 write_step. destruct (_ || _).
  - by apply (emit_end (lit ") DO NOTHING")).
  - write_step. eapply triple_bind; [apply emit_list_busy; [done..|]; intros; by apply assignment_busy|intros _]. write_step.
Qed.

Lemma upsert_mysql_finished unique_by updates ignore : triple Busy (upsert_mysql b unique_by updates ignore) complete.
Proof.
  unfold upsert_mysql. destruct (_ || _).
  - destruct unique_by; repeat write_step.
  - write_step. eapply triple_bind; [apply emit_list_busy; [done..|]; intros; by apply assignment_busy|intros _]. write_step.
Qed.

Lemma match_busy k : triple Ready (emit_match b k) Busy.
Proof. unfold emit_match. repeat write_step. Qed.

Lemma upsert_mssql_finished table rows keys unique_by updates ignore :
  b = mssql -> finished (upsert_mssql table rows keys unique_by updates ignore).
Proof.
  intros Eb. unfold finished, upsert_mssql. cbv zeta. rewrite <-Eb.
  do 3 write_step. eapply triple_bind; [apply rows_busy|intros _]. do 3 write_step.
  eapply triple_bind; [apply emit_list_busy; [done..|]; intros; apply match_busy|intros _].
  eapply (triple_bind _ Busy).
  { destruct (_ && _); [|write_step]. write_step. apply emit_list_busy; [done..|]. intros. apply match_busy. }
  intros _. do 4 write_step. by apply (emit_end (lit ")")).
Qed.

(** ** The claim *)

(** A compiled SQL query: one statement, and a placeholder for every binding. *)
Definition sound (q : CompiledQuery) : Prop :=
  exists toks, read_sql b Outside (cq_text q) = Some (toks ++ [QChar ";"]) /\
    Forall (fun k => match k with QChar c => sql_plain c = true | QText _ => False | QIdent _ => True end) toks /\
    marks b None (toks ++ [QChar ";"]) = numbered b 0 (Z.of_nat (length (cq_bindings q))).

Lemma finish_sound w q : finished w -> finish query_sql w = Ok q -> sound q.
Proof.
  intros Hw. unfold finish. specialize (Hw empty_draft). destruct (w empty_draft) as [[u|e|] d]; [|done..]. intros <-%Ok_inj.
  destruct Hw as (t & Ht & Hf); [by intros t k|]. unfold sound. cbn [cq_text cq_bindings]. rewrite Ht.
  destruct (frag_reads _ _ _ _ Hf) as (toks & E & Hok & Hm & _). by exists toks.
Qed.

Lemma then_semicolon (w : Writer unit) : triple Ready w Busy -> finished (_ ← w; emit (lit ";")).
Proof. intros Hw. unfold finished. eapply triple_bind; [exact Hw|intros _]. write_step. Qed.

Lemma upsert_sound table rows unique_by update_columns ignore q :
  b <> mongodb -> compile_upsert table rows unique_by update_columns b ignore = Ok q -> sound q.
Proof.
  intros Hb. unfold compile_upsert. destruct rows as [|front rest]; [done|]. set (rows := front :: rest).
  destruct (is_nil _); [done|]. destruct (negb _); [done|]. destruct (existsb _ _); [done|]. cbv zeta.
  destruct b eqn:Eb; [| | | |done]; rewrite <-?Eb; apply finish_sound; unfold finished.
  - eapply triple_bind; [apply insert_rows_busy|intros _]. apply upsert_conflict_finished.
  - eapply triple_bind; [apply insert_rows_busy|intros _]. apply upsert_conflict_finished.
  - eapply triple_bind; [apply insert_rows_busy|intros _]. apply upsert_mysql_finished.
  - exact (upsert_mssql_finished _ _ _ _ _ _ Eb).
Qed.

Lemma checked_sound plan mongo sql q : b <> mongodb -> finished sql -> checked plan b mongo sql = Ok q -> sound q.
Proof.
  intros Hb Hs. unfold checked. intros (u & _ & H)%bind_Ok. revert H. destruct b eqn:Eb; [| | | |done]; rewrite <-?Eb; by apply finish_sound.
Qed.
End Writers.

(** The compilers of queries and mutations, each with its arguments. *)
Inductive Request :=
| RSelect (plan : QueryPlan)
| RInsert (table : bytes) (attributes : AttributeMap) (generated_key : bytes)
| RUpdate (table : bytes) (attributes : AttributeMap) (key : bytes) (value : AttributeValue)
| RDelete (table key : bytes) (value : AttributeValue)
| RUpdateWhere (plan : QueryPlan) (values : AttributeMap)
| RDeleteWhere (plan : QueryPlan)
| RIncrement (plan : QueryPlan) (column : bytes) (amount : double)
| RSoftDelete (plan : QueryPlan) (column : bytes) (restore : bool)
| RInsertMany (table : bytes) (rows : list AttributeMap)
| RUpsert (table : bytes) (rows : list AttributeMap) (unique_by update_columns : list bytes) (ignore_conflicts : bool).

Definition compile_request (r : Request) (b : Backend) : result CompiledQuery :=
  match r with
  | RSelect plan => compile_query plan b
  | RInsert table attributes key => compile_insert table attributes b key
  | RUpdate table attributes key value => compile_update table attributes key value b
  | RDelete table key value => compile_delete table key value b
  | RUpdateWhere plan values => compile_update_where plan values b
  | RDeleteWhere plan => compile_delete_where plan b
  | RIncrement plan column amount => compile_increment_where plan column amount b
  | RSoftDelete plan column restore => compile_soft_delete_where plan column restore b
  | RInsertMany table rows => compile_insert_many table rows b
  | RUpsert table rows unique_by updates ignore => compile_upsert table rows unique_by updates b ignore
  end.

Lemma assignments_busy b values keys :
  triple (Ready b) (emit_list (lit ", ") true (fun k => _ ← emit_path b k; _ ← emit (lit " = "); emit_attribute b values k) keys) (Busy b).
Proof.
  apply emit_list_busy; [done..|]. intros k. eapply triple_bind; [apply emit_path_busy|intros _].
  eapply triple_bind; [by apply emit_soft|intros _]. apply emit_attribute_busy.
Qed.

Lemma increment_busy b column amount :
  triple (Ready b) (_ ← emit_path b column; _ ← emit (lit " = "); _ ← emit_path b column; _ ← emit (lit " + "); emit_value b amount) (Busy b).
Proof.
  do 2 (eapply triple_bind; [apply emit_path_busy|intros _]; eapply triple_bind; [by apply emit_soft|intros _]). apply emit_value_busy.
Qed.

(** C2. Every query of a SQL database is safe and complete: whatever names and values a query or
    a mutation is given, the text compiled for SQLite, MySQL, PostgreSQL or SQL Server reads by
    the quoting rules of its dialect as one statement without text literals, and its
    placeholders stand for the bindings, one each and in order.  (The commands compiled for
    MongoDB are JSON documents that carry their values as literals; they are not SQL.) *)
Theorem queries_sound r b q : b <> mongodb -> compile_request r b = Ok q -> sound b q.
Proof.
  intros Hb. destruct r; cbn [compile_request].
  - unfold compile_query. destruct b eqn:Eb; [| | | |done]; rewrite <-?Eb; apply finish_sound, select_finished.
  - unfold compile_insert. destruct b eqn:Eb; [| | | |done]; rewrite <-?Eb; apply finish_sound, insert_finished.
  - unfold compile_update. destruct b eqn:Eb; [| | | |done]; rewrite <-?Eb; apply finish_sound, update_finished.
  - unfold compile_delete. destruct b eqn:Eb; [| | | |done]; rewrite <-?Eb; apply finish_sound, delete_finished.
  - unfold compile_update_where. intros (u & _ & H)%bind_Ok. revert H. cbv zeta. destruct (is_nil _); [done|].
    apply checked_sound; [done|]. apply update_where_finished, assignments_busy.
  - apply checked_sound; [done|]. apply delete_where_finished.
  - apply checked_sound; [done|]. apply update_where_finished, increment_busy.
  - apply checked_sound; [done|]. apply update_where_finished. eapply triple_bind; [apply emit_path_busy|intros _].
    destruct restore; by apply emit_busy.
  - unfold compile_insert_many. destruct rows as [|front rest]; [done|]. destruct (negb _); [done|].
    destruct b eqn:Eb; [| | | |done]; rewrite <-?Eb; apply finish_sound, then_semicolon, insert_rows_busy.
  - by apply upsert_sound.
Qed.

Definition sample_plan : QueryPlan :=
  mkQueryPlan (lit "users") [] []
    [mkPredicate comparison_ and_ (lit "na" ++ [x22] ++ lit "me") equal_ [] [AString (lit "x'; DROP TABLE users; --")] false false;
     mkPredicate in_list or_ (lit "users.age") equal_ [] [AInt64 1; AInt64 2] false false;
     mkPredicate is_null and_ (lit "deleted_at") equal_ [] [] true false]
    [] [] [mkOrder (lit "id") desc] [] None (Some 10) (Some 20) false lock_none.

Lemma queries_sound_witness :
  exists q, compile_request (RSelect sample_plan) postgresql = Ok q /\ length (cq_bindings q) = 3%nat /\ sound postgresql q.
Proof.
  eexists. split; [vm_compute; reflexivity|]. split; [reflexivity|].
  apply (queries_sound (RSelect sample_plan) postgresql); [discriminate|vm_compute; reflexivity].
Defined.

