(* ===== verification/ScopeFacts.v ===== *)
(** The conditions of queries and mutations (src/src/orm/compiler.cpp, append_predicates and
    mongo_filter; src/src/orm/advanced_mutation.cpp, append_where_sql and mongo_filter): how a
    database reads the compiled condition, and that the predicates a model adds on its own
    (soft deletes, tenant scopes) hold of every row it selects, whatever the user joins with
    OR. *)

From stdpp Require Import base list.
From Stdlib Require Import ZArith Bool Lia.
From S2P Require Import Prelude Text Transaction Attribute SchemaSql Orm Mutation.

Local Open Scope Z_scope.

(** ** How a condition reads *)

Inductive ClauseToken := TAtom (p : Predicate) | TAnd | TOr | TOpen | TClose.

(** The grammar of SQL conditions: a disjunction of conjunctions of atoms and of conditions
    in parentheses, evaluated at a row that satisfies the atoms [row] says. *)
Local Arguments andb : simpl never.
Local Arguments orb : simpl never.

Section Reading.
  Context (row : Predicate -> bool).

Fixpoint read_or (fuel : nat) (toks : list ClauseToken) : option (bool * list ClauseToken) :=
  match fuel with
  | O => None
  | S n =>
      match read_and n toks with
      | Some (v, TOr :: rest) =>
          match read_or n rest with Some (w, rest') => Some (v || w, rest') | None => None end
      | r => r
      end
  end
with read_and (fuel : nat) (toks : list ClauseToken) : option (bool * list ClauseToken) :=
  match fuel with
  | O => None
  | S n =>
      match read_factor n toks with
      | Some (v, TAnd :: rest) =>
          match read_and n rest with Some (w, rest') => Some (v && w, rest') | None => None end
      | r => r
      end
  end
with read_factor (fuel : nat) (toks : list ClauseToken) : option (bool * list ClauseToken) :=
  match fuel with
  | O => None
  | S n =>
      match toks with
      | TAtom p :: rest => Some (row p, rest)
      | TOpen :: rest => match read_or n rest with Some (v, TClose :: rest') => Some (v, rest') | _ => None end
      | _ => None
      end
  end.

Definition read_clause (toks : list ClauseToken) : option bool :=
  match read_or (4 + 2 * length toks) toks with Some (v, []) => Some v | _ => None end.

(** A predicate without its connector. *)
Definition holds (p : Predicate) : bool := row (with_and p).

(** What a list of predicates means: AND binds tighter than OR, and the connector of the
    first predicate says nothing. *)
Fixpoint any_of (v : bool) (l : list Predicate) : bool :=
  match l with
  | [] => v
  | p :: rest => match p_connector p with and_ => any_of (v && holds p) rest | or_ => v || any_of (holds p) rest end
  end.

Definition meaning (l : list Predicate) : bool :=
  match l with [] => true | p :: rest => any_of (holds p) rest end.

(** ** The tokens of a list of predicates *)

Definition connector (p : Predicate) : ClauseToken := match p_connector p with and_ => TAnd | or_ => TOr end.

Fixpoint tail_tokens (l : list Predicate) : list ClauseToken :=
  match l with [] => [] | p :: rest => connector p :: TAtom (with_and p) :: tail_tokens rest end.

Definition plain_tokens (l : list Predicate) : list ClauseToken :=
  match l with [] => [] | p :: rest => TAtom (with_and p) :: tail_tokens rest end.

Definition split_tokens (l : list Predicate) : list ClauseToken :=
  if needs_split l then
    plain_tokens (automatic_part l) ++
    match user_part l with [] => [] | user => TAnd :: TOpen :: plain_tokens user ++ [TClose] end
  else plain_tokens l.

Lemma tail_tokens_length l : length (tail_tokens l) = (2 * length l)%nat.
Proof. induction l as [|p l IH]; cbn; lia. Qed.

Definition stops (rest : list ClauseToken) : Prop := match rest with [] | TClose :: _ => True | _ => False end.

Fixpoint and_run (l : list Predicate) : list Predicate * list Predicate :=
  match l with
  | [] => ([], [])
  | p :: rest => if is_or p then ([], l) else let '(run, after) := and_run rest in (p :: run, after)
  end.

Lemma is_or_connector p : is_or p = match p_connector p with and_ => false | or_ => true end.
Proof. unfold is_or. by destruct (p_connector p). Qed.

Lemma and_run_after l : (length (and_run l).2 <= length l)%nat /\
  match (and_run l).2 with [] => True | q :: _ => p_connector q = or_ end.
Proof.
  induction l as [|p l IH]; [by split|]. cbn. unfold is_or. case_bool_decide; [by split|].
  destruct (and_run l) as [run after]. cbn in *. split; [lia|easy].
Qed.

Lemma any_of_run v l :
  any_of v l = (v && forallb holds (and_run l).1) ||
               match (and_run l).2 with [] => false | q :: rest => any_of (holds q) rest end.
Proof.
  revert v. induction l as [|p l IH]; intros v; cbn; [by rewrite andb_true_r, orb_false_r|].
  rewrite is_or_connector. destruct (p_connector p) eqn:E; cbn.
  - rewrite IH. destruct (and_run l) as [run after]. cbn. by rewrite andb_assoc.
  - by rewrite andb_true_r.
Qed.

Lemma read_factor_atom n p rest : read_factor (S n) (TAtom p :: rest) = Some (row p, rest).
Proof. done. Qed.

Lemma read_and_S n toks : read_and (S n) toks =
  match read_factor n toks with
  | Some (v, TAnd :: rest) => match read_and n rest with Some (w, rest') => Some (v && w, rest') | None => None end
  | r => r
  end.
Proof. done. Qed.

Lemma read_or_S n toks : read_or (S n) toks =
  match read_and n toks with
  | Some (v, TOr :: rest) => match read_or n rest with Some (w, rest') => Some (v || w, rest') | None => None end
  | r => r
  end.
Proof. done. Qed.

Lemma read_and_run l : forall p n rest, stops rest -> (2 * length l + 2 <= n)%nat ->
  read_and n (TAtom (with_and p) :: tail_tokens l ++ rest) =
  Some (holds p && forallb holds (and_run l).1, tail_tokens (and_run l).2 ++ rest).
Proof.
  induction l as [|q l IH]; intros p n rest Hr Hn; (destruct n as [|[|n]]; [lia..|]);
    rewrite read_and_S, read_factor_atom.
  - cbn. rewrite andb_true_r. destruct rest as [|[] ?]; done.
  - cbn [tail_tokens and_run app]. rewrite is_or_connector. unfold connector. destruct (p_connector q) eqn:E.
    + rewrite (IH q (S n) rest Hr) by (cbn in Hn; lia). by destruct (and_run l).
    + cbn. rewrite andb_true_r. unfold connector. by rewrite E.
Qed.

Lemma read_or_plain len : forall l, (length l <= len)%nat -> forall p n rest, stops rest -> (2 * length l + 3 <= n)%nat ->
  read_or n (TAtom (with_and p) :: tail_tokens l ++ rest) = Some (any_of (holds p) l, rest).
Proof.
  induction len as [|len IH]; intros l Hl p n rest Hr Hn; (destruct n as [|n]; [lia|]);
    rewrite read_or_S, read_and_run, (any_of_run (holds p) l) by (done || lia); destruct (and_run_after l) as [Ha Hor];
    destruct (and_run l) as [run [|q after]] eqn:E; cbn in *.
  all: try (rewrite orb_false_r; destruct rest as [|[] ?]; done).
  - lia.
  - unfold connector. rewrite Hor. rewrite IH; [done|lia|done|lia].
Qed.

Lemma read_or_list l n rest : stops rest -> l <> [] -> (2 * length l + 3 <= n)%nat ->
  read_or n (plain_tokens l ++ rest) = Some (meaning l, rest).
Proof. destruct l as [|p l]; [done|]. intros Hr _ Hn. cbn in *. by apply (read_or_plain (length l)); [lia|..|lia]. Qed.

(** ** Splitting *)

Lemma meaning_all l : Forall (fun p => p_connector p = and_) l -> meaning l = forallb holds l.
Proof.
  destruct l as [|p l]; [done|]. intros H. inversion H as [|?? _ Hl]; subst. cbn. generalize (holds p). clear H.
  induction Hl as [|q l Hq Hl IH]; intros v; cbn; [by rewrite andb_true_r|]. by rewrite Hq, IH, andb_assoc.
Qed.

Lemma holds_with_and p : holds (with_and p) = holds p.
Proof. done. Qed.

Lemma automatic_part_and l : Forall (fun p => p_connector p = and_) (automatic_part l).
Proof. unfold automatic_part. induction (filter _ l); constructor; done. Qed.

Lemma automatic_part_holds l : forallb holds (automatic_part l) = forallb holds (filter (fun p => scoped p = true) l).
Proof. unfold automatic_part. induction (filter _ l) as [|p k IH]; [done|]. cbn. by rewrite IH. Qed.

Lemma forallb_split l :
  forallb holds l = forallb holds (filter (fun p => scoped p = true) l) && forallb holds (user_part l).
Proof.
  unfold user_part. induction l as [|p l IH]; [done|]. rewrite !filter_cons. cbn [forallb]. rewrite IH.
  destruct (scoped p); [rewrite decide_True, decide_False by done|rewrite decide_False, decide_True by done]; cbn [forallb].
  - by rewrite andb_assoc.
  - by destruct (holds p), (forallb holds (filter _ l)).
Qed.

Lemma none_scoped l : existsb scoped l = false -> filter (fun p => scoped p = true) l = [] /\ user_part l = l.
Proof.
  unfold user_part. induction l as [|p l IH]; [done|]. cbn [existsb]. intros [Hp Hl]%orb_false_iff. rewrite !filter_cons, Hp.
  destruct (IH Hl) as [-> ->].
  by rewrite decide_False, decide_True by done.
Qed.

Lemma none_or l : existsb is_or l = false -> Forall (fun p => p_connector p = and_) l.
Proof.
  induction l as [|p l IH]; [by constructor|]. cbn [existsb]. rewrite is_or_connector.
  intros [Hp Hl]%orb_false_iff. constructor; [by destruct (p_connector p)|auto].
Qed.

Lemma Forall_user_part P l : Forall P l -> Forall P (user_part l).
Proof.
  intros H. apply Forall_forall. intros p [_ Hp]%list_elem_of_filter. by eapply Forall_forall in H.
Qed.

(** What the predicates of a plan select: every scoped one holds, and so does what the
    user asked for. *)
Definition selects (l : list Predicate) : bool :=
  forallb holds (filter (fun p => scoped p = true) l) && meaning (user_part l).

Lemma selects_plain l : needs_split l = false -> meaning l = selects l.
Proof.
  unfold needs_split, selects. intros [Hs|Ho]%andb_false_iff.
  - by destruct (none_scoped l Hs) as [-> ->].
  - apply none_or in Ho. rewrite !meaning_all by auto using Forall_user_part. apply forallb_split.
Qed.

Lemma read_and_then l : Forall (fun p => p_connector p = and_) l -> forall p n k rest v,
  (forall m, (k <= m)%nat -> read_and m rest = Some (v, [])) -> (length l + k + 2 <= n)%nat ->
  read_and n (TAtom (with_and p) :: tail_tokens l ++ TAnd :: rest) = Some (holds p && forallb holds l && v, []).
Proof.
  induction 1 as [|q l Hq Hl IH]; intros p n k rest v Hk Hn; (destruct n as [|[|n]]; [cbn in Hn; lia..|]);
    rewrite read_and_S, read_factor_atom; cbn [tail_tokens app].
  - rewrite Hk by (cbn in Hn; lia). cbn [forallb]. by rewrite andb_true_r.
  - unfold connector. rewrite Hq. rewrite (IH q (S n) k rest v Hk) by (cbn in Hn; lia). cbn [forallb]. by rewrite !andb_assoc.
Qed.

Lemma read_parens l n : l <> [] -> (2 * length l + 6 <= n)%nat ->
  read_and n (TOpen :: plain_tokens l ++ [TClose]) = Some (meaning l, []).
Proof.
  intros Hl Hn. destruct n as [|[|n]]; [lia..|]. rewrite read_and_S. cbn [read_factor].
  by rewrite read_or_list by (done || lia).
Qed.

Lemma plain_tokens_length l : l <> [] -> length (plain_tokens l) = (2 * length l - 1)%nat.
Proof. destruct l as [|p l]; [done|]. intros _. cbn. rewrite tail_tokens_length. lia. Qed.

Lemma automatic_nonempty l : existsb scoped l = true -> automatic_part l <> [].
Proof.
  unfold automatic_part. intros (p & Hp & Hs)%existsb_exists E%map_eq_nil.
  apply list_elem_of_In in Hp. assert (H : p ∈ filter (fun p => scoped p = true) l) by (by apply list_elem_of_filter).
  rewrite E in H. by apply not_elem_of_nil in H.
Qed.

Lemma read_plain_tokens l : l <> [] -> read_clause (plain_tokens l) = Some (meaning l).
Proof.
  intros Hl. unfold read_clause. rewrite <-(app_nil_r (plain_tokens l)) at 2. rewrite read_or_list; [done|done|done|].
  rewrite plain_tokens_length by done. destruct l; [done|]. cbn. lia.
Qed.

Lemma read_split l : l <> [] -> read_clause (split_tokens l) = Some (selects l).
Proof.
  intros Hl. unfold split_tokens. destruct (needs_split l) eqn:Es; [|rewrite read_plain_tokens by done; by rewrite selects_plain].
  apply andb_true_iff in Es as [Hs _]. unfold selects. rewrite <-automatic_part_holds.
  pose proof (automatic_nonempty l Hs) as Ha. pose proof (automatic_part_and l) as Hand.
  destruct (user_part l) as [|u user] eqn:Eu.
  - rewrite app_nil_r, read_plain_tokens, meaning_all by done. cbn. by rewrite andb_true_r.
  - unfold read_clause. destruct (automatic_part l) as [|p k]; [done|]. inversion Hand as [|?? _ Hk]; subst.
    cbn [plain_tokens app]. change (?a :: tail_tokens user) with (plain_tokens (u :: user)).
    set (n := (4 + _)%nat). assert (Hn : (2 * length k + 2 * length user + 12 <= n)%nat).
    { subst n. cbn. rewrite length_app. cbn. rewrite length_app, !tail_tokens_length. cbn. lia. }
    destruct n as [|n]; [lia|]. rewrite read_or_S.
    rewrite (read_and_then k Hk p n (2 * length user + 8) _ (meaning (u :: user))); [done| |lia].
    intros m Hm. apply (read_parens (u :: user)); [done|cbn; lia].
Qed.
End Reading.

(** ** How a condition is written *)

Definition token_writer (f : Predicate -> Writer unit) (t : ClauseToken) : Writer unit :=
  match t with
  | TAtom p => f p
  | TAnd => emit (lit " AND ")
  | TOr => emit (lit " OR ")
  | TOpen => emit (lit "(")
  | TClose => emit (lit ")")
  end.

Fixpoint write_tokens (f : Predicate -> Writer unit) (toks : list ClauseToken) : Writer unit :=
  match toks with [] => mret tt | t :: rest => _ ← token_writer f t; write_tokens f rest end.

(** Two writers that do the same. *)
Definition same_writer {A} (v w : Writer A) : Prop := forall d, v d = w d.
Infix "≅" := same_writer (at level 70).

#[export] Instance same_writer_equivalence {A} : Equivalence (@same_writer A).
Proof. split; [done|intros v w H d; by rewrite H|intros u v w H K d; by rewrite H]. Qed.

Lemma bind_same {A B} (v w : Writer A) (f g : A -> Writer B) : v ≅ w -> (forall a, f a ≅ g a) -> v ≫= f ≅ w ≫= g.
Proof. intros Hv Hf d. unfold mbind, eff_bind. rewrite Hv. destruct (w d) as [[a|e|] d']; [apply Hf|done..]. Qed.

Lemma bind_left {A B} (v w : Writer A) (k : A -> Writer B) : v ≅ w -> v ≫= k ≅ w ≫= k.
Proof. intros H. by apply bind_same. Qed.

Lemma bind_assoc {A B C} (w : Writer A) (f : A -> Writer B) (g : B -> Writer C) :
  (w ≫= f) ≫= g ≅ w ≫= fun a => f a ≫= g.
Proof. intros d. unfold mbind, eff_bind. by destruct (w d) as [[a|e|] d']. Qed.

Lemma ret_bind {A B} (a : A) (f : A -> Writer B) : mret a ≫= f ≅ f a.
Proof. done. Qed.

Lemma bind_ret (w : Writer unit) : (_ ← w; mret tt) ≅ w.
Proof. intros d. unfold mbind, eff_bind. by destruct (w d) as [[[]|e|] d']. Qed.

Lemma emit_app a c : emit (a ++ c) ≅ (_ ← emit a; emit c).
Proof. intros d. unfold emit, mbind, eff_bind. cbn. by rewrite app_assoc. Qed.

Lemma write_app f toks more : write_tokens f (toks ++ more) ≅ (_ ← write_tokens f toks; write_tokens f more).
Proof.
  induction toks as [|t toks IH]; [done|]. cbn [app write_tokens]. etransitivity; [|symmetry; apply bind_assoc].
  by apply bind_same.
Qed.

Lemma write_one f t : write_tokens f [t] ≅ token_writer f t.
Proof. apply bind_ret. Qed.

Section Loops.
  Context (f : Predicate -> Writer unit) (loop : bool -> list Predicate -> Writer unit).
  Context (f_connector : forall p, f (with_and p) = f p).
  Context (loop_nil : forall first, loop first [] = mret tt).
  Context (loop_cons : forall first p rest, loop first (p :: rest) =
    (_ ← (if first then mret tt else emit (match p_connector p with and_ => lit " AND " | or_ => lit " OR " end));
     _ ← f p; loop false rest)).

Lemma loop_tail l : loop false l ≅ write_tokens f (tail_tokens l).
Proof.
  induction l as [|p l IH]; [by rewrite loop_nil|]. rewrite loop_cons. cbn [tail_tokens write_tokens token_writer].
  apply bind_same; [unfold connector; by destruct (p_connector p)|intros _]. rewrite f_connector. by apply bind_same.
Qed.

Lemma loop_plain l : loop true l ≅ write_tokens f (plain_tokens l).
Proof.
  destruct l as [|p l]; [by rewrite loop_nil|]. rewrite loop_cons. cbn [plain_tokens write_tokens token_writer].
  etransitivity; [apply ret_bind|]. rewrite f_connector. apply bind_same; [done|intros _; apply loop_tail].
Qed.

Lemma loop_split l : needs_split l = true ->
  (_ ← loop true (automatic_part l);
   match user_part l with
   | [] => mret tt
   | user => _ ← emit (lit " AND ("); _ ← loop true user; emit (lit ")")
   end) ≅ write_tokens f (split_tokens l).
Proof.
  intros Hs. unfold split_tokens. rewrite Hs. etransitivity; [|symmetry; apply write_app].
  apply bind_same; [apply loop_plain|intros ?]. destruct (user_part l) as [|u user] eqn:Eu; [done|]. rewrite <-Eu.
  cbn [write_tokens token_writer]. etransitivity; [apply bind_left, (emit_app (lit " AND ") (lit "("))|].
  etransitivity; [apply bind_assoc|]. apply bind_same; [done|intros ?]. apply bind_same; [done|intros ?].
  etransitivity; [|symmetry; apply write_app]. apply bind_same; [apply loop_plain|intros ?]. symmetry. apply write_one.
Qed.
End Loops.

Lemma append_predicates_tokens b joined l :
  append_predicates b joined l ≅ write_tokens (fun p => append_sql_predicate b (qualified joined p)) (split_tokens l).
Proof.
  assert (Hf : forall p, append_sql_predicate b (qualified joined (with_and p)) = append_sql_predicate b (qualified joined p)).
  { intros p. unfold qualified. cbn. by destruct (_ && _). }
  unfold append_predicates. destruct (needs_split l) eqn:E.
  - by apply (loop_split _ (append_plain b joined)).
  - unfold split_tokens. rewrite E. by apply (loop_plain _ (append_plain b joined)).
Qed.

Lemma append_where_tokens b l : l <> [] ->
  append_where_sql b l ≅ (_ ← emit (lit " WHERE "); write_tokens (where_predicate b) (split_tokens l)).
Proof.
  intros Hl. unfold append_where_sql. destruct l as [|p l]; [done|]. destruct (needs_split _) eqn:E.
  - apply bind_same; [done|intros _]. by apply (loop_split _ (where_loop b)).
  - apply bind_same; [done|intros _]. unfold split_tokens. rewrite E. by apply (loop_plain _ (where_loop b)).
Qed.

(** ** MongoDB filters *)

Inductive Document := DEvery | DAtom (p : Predicate) | DPair (c : BooleanConnector) (first second : Document).

(** A filter selects a row; a pair of documents selects by both or by either. *)
Fixpoint document_selects (row : Predicate -> bool) (x : Document) : bool :=
  match x with
  | DEvery => true
  | DAtom p => row p
  | DPair and_ a c => document_selects row a && document_selects row c
  | DPair or_ a c => document_selects row a || document_selects row c
  end.

Fixpoint write_document (f : Predicate -> Writer bytes) (x : Document) : Writer bytes :=
  match x with
  | DEvery => mret (lit "{}")
  | DAtom p => f p
  | DPair c a d =>
      first ← write_document f a;
      second ← write_document f d;
      mret (pair_document (match c with and_ => lit "$and" | or_ => lit "$or" end) first second)
  end.

(** Each predicate is joined with all that came before it. *)
Definition chain_document (x : Document) (l : list Predicate) : Document :=
  fold_left (fun x p => DPair (p_connector p) x (DAtom (with_and p))) l x.

Definition plain_document (l : list Predicate) : Document :=
  match l with [] => DEvery | p :: rest => chain_document (DAtom (with_and p)) rest end.

Definition split_document (l : list Predicate) : Document :=
  if needs_split l then DPair and_ (plain_document (automatic_part l)) (plain_document (user_part l)) else plain_document l.

Lemma chain_selects_all row l x : Forall (fun p => p_connector p = and_) l ->
  document_selects row (chain_document x l) = document_selects row x && forallb (holds row) l.
Proof.
  intros Hl. revert x. induction Hl as [|p l Hp Hl IH]; intros x; cbn; [by rewrite andb_true_r|].
  unfold chain_document in IH. rewrite IH, Hp. cbn. by rewrite andb_assoc.
Qed.

Lemma plain_selects_all row l : Forall (fun p => p_connector p = and_) l ->
  document_selects row (plain_document l) = forallb (holds row) l.
Proof. destruct l as [|p l]; [done|]. intros H. inversion H; subst. by apply chain_selects_all. Qed.

Lemma split_selects row l : document_selects row (split_document l) =
  forallb (holds row) (filter (fun p => scoped p = true) l) && document_selects row (plain_document (user_part l)).
Proof.
  unfold split_document. destruct (needs_split l) eqn:E; cbn [document_selects].
  - by rewrite plain_selects_all, automatic_part_holds by apply automatic_part_and.
  - apply andb_false_iff in E as [Hs|Ho]; [by destruct (none_scoped l Hs) as [-> ->]|]. apply none_or in Ho.
    rewrite !plain_selects_all by auto using Forall_user_part. apply forallb_split.
Qed.

Section Filters.
  Context (f : Predicate -> Writer bytes) (f_connector : forall p, f (with_and p) = f p).

Lemma mongo_chain_document l x :
  (t ← write_document f x; mongo_chain f t l) ≅ write_document f (chain_document x l).
Proof.
  revert x. induction l as [|p l IH]; intros x.
  - intros d. cbn. unfold mbind, eff_bind. by destruct (write_document f x d) as [[t|e|] d'].
  - cbn [chain_document fold_left]. fold (chain_document (DPair (p_connector p) x (DAtom (with_and p))) l). rewrite <-IH.
    cbn [write_document mongo_chain]. symmetry. etransitivity; [apply bind_assoc|]. apply bind_same; [done|intros t].
    etransitivity; [apply bind_assoc|]. rewrite f_connector. apply bind_same; [done|done].
Qed.

Lemma mongo_plain_document l : mongo_plain f l ≅ write_document f (plain_document l).
Proof.
  destruct l as [|p l]; [done|]. cbn [mongo_plain plain_document]. rewrite <-mongo_chain_document. cbn [write_document].
  by rewrite f_connector.
Qed.

Lemma mongo_filter_document l : mongo_filter_with f l ≅ write_document f (split_document l).
Proof.
  unfold mongo_filter_with, split_document. destruct (needs_split l); [|apply mongo_plain_document].
  cbn [write_document]. apply bind_same; [apply mongo_plain_document|intros t].
  apply bind_same; [apply mongo_plain_document|done].
Qed.
End Filters.

(** ** The claim *)

(** C11. Scopes cannot be left: the condition of a query, of a mutation and of a MongoDB filter,
    read by the precedence rules of its language, selects a row exactly when every scoped
    predicate holds of it and the remaining predicates select it too, so no predicate a user
    adds with OR widens a query beyond the scopes of its model. *)
Theorem scopes_hold b joined l row : l <> [] ->
  (exists toks, append_predicates b joined l ≅ write_tokens (fun p => append_sql_predicate b (qualified joined p)) toks /\
     read_clause row toks = Some (selects row l)) /\
  (exists toks, append_where_sql b l ≅ (_ ← emit (lit " WHERE "); write_tokens (where_predicate b) toks) /\
     read_clause row toks = Some (selects row l)) /\
  (forall f, f = mongo_predicate \/ f = mutation_predicate -> exists x, mongo_filter_with f l ≅ write_document f x /\
     document_selects row x =
     forallb (holds row) (filter (fun p => scoped p = true) l) && document_selects row (plain_document (user_part l))).
Proof.
  intros Hl. split; [|split].
  - exists (split_tokens l). split; [apply append_predicates_tokens|by apply read_split].
  - exists (split_tokens l). split; [by apply append_where_tokens|by apply read_split].
  - intros f Hf. exists (split_document l). split; [|apply split_selects].
    apply mongo_filter_document. by destruct Hf as [-> | ->].
Qed.

Definition tenant_plan : list Predicate :=
  [mkPredicate comparison_ and_ (lit "tenant_id") equal_ [] [AInt64 7] false true;
   mkPredicate comparison_ and_ (lit "name") equal_ [] [AString (lit "a")] false false;
   mkPredicate comparison_ or_ (lit "name") equal_ [] [AString (lit "b")] false false].

(** A row of another tenant that satisfies what the user asked for is not selected. *)
Lemma scopes_hold_witness :
  exists toks,
    append_predicates mysql [] tenant_plan ≅ write_tokens (fun p => append_sql_predicate mysql (qualified [] p)) toks /\
    read_clause (fun p => negb (bool_decide (p_column p = lit "tenant_id"))) toks = Some false.
Proof.
  destruct (scopes_hold mysql [] tenant_plan (fun p => negb (bool_decide (p_column p = lit "tenant_id")))) as [(toks & Hw & Hr) _];
    [discriminate|].
  exists toks. split; [exact Hw|]. rewrite Hr. vm_compute. reflexivity.
Defined.
