(* ===== verification/Session.v ===== *)
(** * Sessions, identities and the session middleware

    [include/gungnir/session/session.hpp], [store.hpp], [memory_store.hpp],
    [src/session/middleware.cpp], [include/gungnir/auth/context.hpp],
    [src/auth/session.cpp], and the token functions of [src/security/security.cpp].

    A request shares its session and its authentication context with the middleware that
    attached them: both are objects behind shared pointers, here the entries of two lists
    that an exchange owns, and a pointer is an index into its list. *)

From stdpp Require Import base list gmap.
From Stdlib Require Import ZArith Bool Lia.
From S2P Require Import Prelude Text Json Http Uploads Request Response.

Local Open Scope Z_scope.

(** ** Tokens ([src/security/security.cpp]) *)

(** The random numbers of the operating system: [n] bytes, or an error. *)
Class RandomSource (W : Type) := { fill_random : nat -> eff W bytes }.

Definition hex_pair (b : byte) : bytes :=
  [hex_digit_lower (Z.shiftr (uc b) 4); hex_digit_lower (Z.land (uc b) 0x0f)].

Definition random_token `{RandomSource W} (count : nat) : eff W bytes :=
  if (count =? 0)%nat then throw (invalid_argument "Random token size must be greater than zero")
  else random ← fill_random count; mret (random ≫= hex_pair).

(** The loop of [constant_time_equal] over the longer of both texts. *)
Fixpoint difference_of (left right : bytes) (difference : Z) : Z :=
  match left, right with
  | [], [] => difference
  | x :: left', [] => difference_of left' [] (Z.lor difference (Z.lxor (uc x) 0))
  | x :: left', y :: right' => difference_of left' right' (Z.lor difference (Z.lxor (uc x) (uc y)))
  | [], _ =>
      (fix rest right difference :=
         match right with
         | [] => difference
         | y :: right' => rest right' (Z.lor difference (Z.lxor 0 (uc y)))
         end) right difference
  end.

Definition constant_time_equal (left right : bytes) : bool :=
  difference_of left right (if (length left =? length right)%nat then 0 else 1) =? 0.

Definition cookie_name_char (c : byte) : bool :=
  negb ((uc c <=? 0x20) || (0x7f <=? uc c) || bool_decide (c ∈ lit "()<>@,;:" ++ [x5c; x22] ++ lit "/[]?={}")).

Definition valid_cookie_name (value : bytes) : bool :=
  match value with [] => false | _ => forallb cookie_name_char value end.

(** ** Sessions ([include/gungnir/session/session.hpp]) *)

Abbreviation Values := (gmap bytes bytes).

Record Session := mkSession {
  session_id : bytes;
  session_values : Values;
  flash_current : Values;
  flash_next : Values;
  regenerated : bool
}.

Definition make_session (id : bytes) : Session := mkSession id ∅ ∅ ∅ false.

Definition set_values (f : Values -> Values) (s : Session) : Session :=
  mkSession (session_id s) (f (session_values s)) (flash_current s) (flash_next s) (regenerated s).

Definition session_put (key value : bytes) : Session -> Session := set_values (<[key := value]>).
Definition session_get (key : bytes) (s : Session) : bytes := default [] (session_values s !! key).
Definition session_has (key : bytes) (s : Session) : bool := bool_decide (is_Some (session_values s !! key)).
Definition session_forget (key : bytes) : Session -> Session := set_values (delete key).
Definition session_clear : Session -> Session := set_values (fun _ => ∅).

Definition flash (key value : bytes) (s : Session) : Session :=
  mkSession (session_id s) (session_values s) (flash_current s) (<[key := value]> (flash_next s)) (regenerated s).

Definition flashed (key : bytes) (s : Session) : bytes := default [] (flash_current s !! key).

Definition age_flash (s : Session) : Session :=
  mkSession (session_id s) (session_values s) (flash_next s) ∅ (regenerated s).

(** [regenerate(new_id)]. *)
Definition regenerate_to (new_id : bytes) (s : Session) : Session :=
  mkSession new_id (session_values s) (flash_current s) (flash_next s) true.

(** [invalidate(new_id)]. *)
Definition invalidate_to (new_id : bytes) (s : Session) : Session := mkSession new_id ∅ ∅ ∅ true.

Definition mark_persisted (s : Session) : Session :=
  mkSession (session_id s) (session_values s) (flash_current s) (flash_next s) false.

Record SessionState := mkState { st_id : bytes; st_values : Values; st_flash_current : Values; st_flash_next : Values }.

Definition state (s : Session) : SessionState :=
  mkState (session_id s) (session_values s) (flash_current s) (flash_next s).

Definition restore (st : SessionState) : Session :=
  mkSession (st_id st) (st_values st) (st_flash_current st) (st_flash_next st) false.

(** ** Stores *)

Class SessionStore (W : Type) := {
  store_load : bytes -> eff W (option Session);
  store_save : Session -> eff W unit;
  store_erase : bytes -> eff W unit
}.

(** [MemoryStore]: the mutex makes each operation one step. *)
Abbreviation MemorySessions := (gmap bytes Session).

Definition memory_load (id : bytes) : eff MemorySessions (option Session) := fun m => (Ok (m !! id), m).
Definition memory_save (s : Session) : eff MemorySessions unit := modify (<[session_id s := s]>).
Definition memory_erase (id : bytes) : eff MemorySessions unit := modify (delete id).

#[export] Instance MemoryStore : SessionStore MemorySessions := {|
  store_load := memory_load; store_save := memory_save; store_erase := memory_erase
|}.

(** ** Identities and authentication contexts ([auth/auth.hpp], [auth/context.hpp]) *)

Record Identity := mkIdentity { identity_id : bytes; roles : gset bytes; attributes : gmap bytes bytes }.

#[export] Instance Identity_eq_dec : EqDecision Identity.
Proof. solve_decision. Defined.

Definition has_role (value : bytes) (i : Identity) : bool := bool_decide (value ∈ roles i).

(** A guard is told by its address, here a number. *)
Record AuthContext := mkContext {
  context_identity : option Identity;
  dirty : bool;
  staged_cookies : list Cookie;
  active_guard : option nat
}.

Definition make_context (i : option Identity) : AuthContext := mkContext i false [] None.

Definition context_login (i : Identity) (c : AuthContext) : result AuthContext :=
  match identity_id i with
  | [] => Throw (invalid_argument "Authenticated identity requires a non-empty id")
  | _ => Ok (mkContext (Some i) true (staged_cookies c) (active_guard c))
  end.

Definition context_logout (c : AuthContext) : AuthContext :=
  match context_identity c with
  | None => c
  | Some _ => mkContext None true (staged_cookies c) (active_guard c)
  end.

Definition context_check (c : AuthContext) : bool := bool_decide (is_Some (context_identity c)).

Definition mark_clean (c : AuthContext) : AuthContext :=
  mkContext (context_identity c) false (staged_cookies c) (active_guard c).

Definition stage_cookie (value : Cookie) (c : AuthContext) : result AuthContext :=
  match active_guard c with
  | None => Throw (logic_error "Cookie staging requires guard middleware")
  | Some _ =>
      _ ← serialize_cookie value;
      Ok (mkContext (context_identity c) (dirty c) (staged_cookies c ++ [value]) (active_guard c))
  end.

Definition begin_guard (owner : nat) (c : AuthContext) : result AuthContext :=
  match active_guard c with
  | Some _ => Throw (logic_error "Guard middleware must be installed once per request")
  | None => Ok (mkContext (context_identity c) (dirty c) (staged_cookies c) (Some owner))
  end.

Definition end_guard (c : AuthContext) : AuthContext := mkContext (context_identity c) (dirty c) [] None.

Definition take_cookies (c : AuthContext) : list Cookie * AuthContext :=
  (staged_cookies c, mkContext (context_identity c) (dirty c) [] (active_guard c)).

(** ** Exchanges *)

Record Exchange (W : Type) := mkExchange {
  x_request : Request;
  x_session : option nat;
  x_auth : option nat;
  x_sessions : list Session;
  x_contexts : list AuthContext;
  x_world : W
}.
Arguments mkExchange {W}.
Arguments x_request {W}.
Arguments x_session {W}.
Arguments x_auth {W}.
Arguments x_sessions {W}.
Arguments x_contexts {W}.
Arguments x_world {W}.

Section Exchanges.
  Context {W : Type}.

Abbreviation HX := (eff (Exchange W)).

Definition with_request (r : Request) (x : Exchange W) : Exchange W :=
  mkExchange r (x_session x) (x_auth x) (x_sessions x) (x_contexts x) (x_world x).

Definition on_request {A} (m : eff Request A) : HX A := fun x =>
  let '(a, r) := m (x_request x) in (a, with_request r x).

Definition with_world (w : W) (x : Exchange W) : Exchange W :=
  mkExchange (x_request x) (x_session x) (x_auth x) (x_sessions x) (x_contexts x) w.

Definition on_world {A} (m : eff W A) : HX A := fun x => let '(a, w) := m (x_world x) in (a, with_world w x).

Definition lift_result {A} (r : result A) : HX A := fun x => (r, x).

(** [std::make_shared<Session>] and [std::make_shared<Context>]. *)
Definition new_session (s : Session) : HX nat := fun x =>
  (Ok (length (x_sessions x)),
   mkExchange (x_request x) (x_session x) (x_auth x) (x_sessions x ++ [s]) (x_contexts x) (x_world x)).

Definition new_context (c : AuthContext) : HX nat := fun x =>
  (Ok (length (x_contexts x)),
   mkExchange (x_request x) (x_session x) (x_auth x) (x_sessions x) (x_contexts x ++ [c]) (x_world x)).

Definition read_session (p : nat) : HX Session := fun x =>
  match x_sessions x !! p with Some s => (Ok s, x) | None => (Throw (undefined "dangling session"), x) end.

Definition change_session (p : nat) (f : Session -> Session) : HX unit := fun x =>
  (Ok tt, mkExchange (x_request x) (x_session x) (x_auth x) (alter f p (x_sessions x)) (x_contexts x) (x_world x)).

Definition read_context (p : nat) : HX AuthContext := fun x =>
  match x_contexts x !! p with Some c => (Ok c, x) | None => (Throw (undefined "dangling context"), x) end.

Definition write_context (p : nat) (c : AuthContext) : HX unit := fun x =>
  (Ok tt, mkExchange (x_request x) (x_session x) (x_auth x) (x_sessions x) (<[p := c]> (x_contexts x)) (x_world x)).

(** [Request::attach_session], [has_session], [session], and the same for contexts. *)
Definition attach_session (p : nat) : HX unit := modify (fun x =>
  mkExchange (x_request x) (Some p) (x_auth x) (x_sessions x) (x_contexts x) (x_world x)).

Definition attach_auth (p : nat) : HX unit := modify (fun x =>
  mkExchange (x_request x) (x_session x) (Some p) (x_sessions x) (x_contexts x) (x_world x)).

Definition has_session : HX bool := fun x => (Ok (bool_decide (is_Some (x_session x))), x).
Definition has_auth : HX bool := fun x => (Ok (bool_decide (is_Some (x_auth x))), x).

Definition session : HX nat := fun x =>
  match x_session x with
  | Some p => (Ok p, x)
  | None => (Throw (logic_error "HTTP request is not attached to a session"), x)
  end.

Definition auth : HX nat := fun x =>
  match x_auth x with
  | Some p => (Ok p, x)
  | None => (Throw (logic_error "HTTP request is not attached to an authentication context"), x)
  end.

Definition authenticated : HX bool := fun x =>
  (Ok match x_auth x ≫= fun p => x_contexts x !! p with Some c => context_check c | None => false end, x).

(** ** The session middleware ([src/session/middleware.cpp]) *)

Record Options := mkOptions {
  o_cookie_name : bytes;
  o_path : bytes;
  o_domain : option bytes;
  o_secure : bool;
  o_same_site : SameSite
}.

Definition isxdigit (c : byte) : bool := is_digit c || between "a" "f" c || between "A" "F" c.

Definition session_id_bytes : nat := 32.

Definition valid_session_id (value : bytes) : bool :=
  (length value =? 2 * session_id_bytes)%nat && forallb isxdigit value.

Definition session_cookie (s : Session) (o : Options) : Cookie :=
  mkCookie (o_cookie_name o) (session_id s) (o_path o) (o_domain o) None (o_secure o) true (o_same_site o).

Context `{RandomSource W, SessionStore W}.

(** [regenerate()] and [invalidate()]: the new identifier is drawn first. *)
Definition regenerate (p : nat) : HX unit :=
  token ← on_world (random_token 32); change_session p (regenerate_to token).

Definition invalidate (p : nat) : HX unit :=
  _ ← change_session p (fun s => mkSession (session_id s) ∅ ∅ ∅ (regenerated s));
  regenerate p.

(** The session, the identifier it was stored under (empty for none) and whether it is new. *)
Definition load_or_create (o : Options) : HX (nat * bytes * bool) :=
  presented ← on_request (cookie (o_cookie_name o));
  loaded ← (if valid_session_id presented then on_world (store_load presented) else mret None);
  match loaded with
  | Some s => p ← new_session s; mret (p, presented, false)
  | None =>
      id ← on_world (random_token session_id_bytes);
      p ← new_session (make_session id);
      mret (p, [], true)
  end.

Definition is_empty (b : bytes) : bool := match b with [] => true | _ => false end.

(** What [StartSession::handle] does after the handlers have run. *)
Definition finish_session (o : Options) (p : nat) (persisted_id : bytes) (created : bool) (response : Response) : HX Response :=
  s ← read_session p;
  _ ← (if is_empty (session_id s) || negb (valid_session_id (session_id s)) then regenerate p else mret tt);
  s ← read_session p;
  let current_id := session_id s in
  let moved := negb (is_empty persisted_id) && negb (bool_decide (persisted_id = current_id)) in
  let rotated := regenerated s || moved in
  _ ← (if rotated && moved then on_world (store_erase persisted_id) else mret tt);
  _ ← change_session p mark_persisted;
  s ← read_session p;
  _ ← on_world (store_save s);
  mret (if created || rotated || is_empty persisted_id then with_cookie (session_cookie s o) response else response).

Definition start_session (o : Options) (next : HX Response) : HX Response :=
  '(p, persisted_id, created) ← load_or_create o;
  _ ← change_session p age_flash;
  _ ← attach_session p;
  response ← next;
  finish_session o p persisted_id created response.

(** [StartSession::make]; a null store cannot be given here. *)
Definition make_start_session (o : Options) : result (HX Response -> HX Response) :=
  if negb (valid_cookie_name (o_cookie_name o)) then Throw (invalid_argument "Session cookie name is invalid")
  else if negb (starts_with (lit "/") (o_path o)) then Throw (invalid_argument "Session cookie path must be absolute")
  else Ok (start_session o).

(** ** Session authentication ([src/auth/session.cpp]) *)

(** The identity of a session, and whether the entry of the session must go. *)
Definition identify (resolver : bytes -> eff W (option Identity)) (key : bytes) (s : Session) : HX (option Identity * bool) :=
  if session_has key s then
    let stored_id := session_get key s in
    identity ← (if is_empty stored_id then mret None else on_world (resolver stored_id));
    mret match identity with
         | Some i => if is_empty (identity_id i) || negb (bool_decide (identity_id i = stored_id)) then (None, true) else (Some i, false)
         | None => (None, true)
         end
  else mret (None, false).

Definition authenticate_session (resolver : bytes -> eff W (option Identity)) (key : bytes) (next : HX Response) : HX Response :=
  attached ← has_session;
  if negb attached then throw (logic_error "Session authentication requires session middleware to run first")
  else
    p ← session;
    s ← read_session p;
    '(identity, stale) ← identify resolver key s;
    _ ← (if stale then change_session p (session_forget key) else mret tt);
    c ← new_context (make_context identity);
    _ ← attach_auth c;
    response ← next;
    context ← read_context c;
    _ ← (if dirty context then
           _ ← change_session p (match context_identity context with
                                 | Some user => session_put key (identity_id user)
                                 | None => session_forget key
                                 end);
           write_context c (mark_clean context)
         else mret tt);
    _ ← (if stale || dirty context then regenerate p else mret tt);
    mret response.

(** [AuthenticateSession::make]; an empty resolver cannot be given here. *)
Definition make_authenticate_session (resolver : bytes -> eff W (option Identity)) (key : bytes)
    : result (HX Response -> HX Response) :=
  if is_empty key then Throw (invalid_argument "Session authentication key cannot be empty")
  else Ok (authenticate_session resolver key).
End Exchanges.
