(* ===== verification/Guard.v ===== *)
(** * Passwords, login and authorization

    [src/auth/password.cpp], [include/gungnir/auth/login.hpp] (the remember stores and
    [SessionGuard]), [auth/authorization.hpp], [auth/authorize.hpp], [auth/auth.hpp] and
    [auth/manager.hpp].  The key derivation and the digest of OpenSSL are parameters. *)

From stdpp Require Import base list gmap.
From Stdlib Require Import ZArith Bool Lia.
From S2P Require Import Prelude Text Json Http Uploads Request Response SteadyClock Session.

Local Open Scope Z_scope.

(** [EVP_PBE_scrypt] with the cost parameters of the source and a 32-byte output, and
    [EVP_Digest] with SHA-256; [None] when OpenSSL reports an error. *)
Class Crypto := {
  scrypt : bytes -> bytes -> option bytes;
  sha256 : bytes -> option bytes
}.

(** The system clock, in nanoseconds. *)
Class SystemClock (W : Type) := { system_now : W -> Z }.

(** ** Passwords ([src/auth/password.cpp]) *)

Definition password_prefix : bytes := lit "scrypt$131072$8$1$".

Definition hex (b : bytes) : bytes := b ≫= hex_pair.

Definition hex_string (text : bytes) : bool := forallb (fun c => between "0" "9" c || between "a" "f" c) text.

Definition needs_rehash (encoded : bytes) : bool :=
  let n := length password_prefix in
  negb (starts_with password_prefix encoded) || negb (length encoded =? n + 32 + 1 + 64)%nat ||
  negb (bool_decide (encoded !! (n + 32)%nat = Some "$"%byte)).

Section Passwords.
  Context `{Crypto}.

Definition derive (password salt : bytes) : result bytes :=
  if 1024 * 1024 <? Z.of_nat (length password) then Throw (invalid_argument "Password is too large")
  else
    match scrypt password salt with
    | Some output => Ok (hex output)
    | None => Throw (runtime_error "Password derivation failed")
    end.

Definition password_hash `{RandomSource W} (password : bytes) : eff W bytes :=
  salt ← random_token 16;
  derived ← ((fun w => (derive password salt, w)) : eff W bytes);
  mret (password_prefix ++ salt ++ lit "$" ++ derived).

Definition password_verify (password encoded : bytes) : result bool :=
  if needs_rehash encoded then Ok false
  else
    let n := length password_prefix in
    let salt := take 32 (drop n encoded) in
    let expected := drop (n + 33) encoded in
    if negb (hex_string salt) || negb (hex_string expected) then Ok false
    else actual ← derive password salt; Ok (bool_decide (actual = expected)).

Definition token_digest (token : bytes) : result bytes :=
  match sha256 token with
  | Some output => Ok (hex output)
  | None => Throw (runtime_error "Token digest failed")
  end.
End Passwords.

(** ** Remember stores *)

Class RememberStore (W : Type) := {
  remember_put : bytes -> bytes -> Z -> eff W unit;
  remember_consume : bytes -> eff W (option bytes);
  remember_revoke : bytes -> eff W unit
}.

Record RememberEntry := mkRemember { r_identity : bytes; r_expires : Z }.

Abbreviation Remembered := (gmap bytes RememberEntry).

Definition remembered_put (now : Z) (digest identity : bytes) (expires : Z) (m : Remembered) : Remembered :=
  <[digest := mkRemember identity expires]> (filter (fun kv => now < r_expires kv.2) m).

Definition remembered_consume (now : Z) (digest : bytes) (m : Remembered) : option bytes * Remembered :=
  match m !! digest with
  | None => (None, m)
  | Some entry => (if r_expires entry <=? now then None else Some (r_identity entry), delete digest m)
  end.

Definition remembered_revoke (digest : bytes) (m : Remembered) : Remembered := delete digest m.

(** ** Login ([SessionGuard]) *)

Record PasswordIdentity := mkAccount { account_identity : Identity; account_hash : bytes }.

Definition digest_key : bytes := lit "_gungnir_remember_digest".
Definition csrf_key : bytes := lit "_gungnir_csrf_token".

Section Guards.
  Context {W : Type} `{Crypto, RandomSource W, SessionStore W, RememberStore W, SystemClock W}.

Abbreviation HX := (eff (Exchange W)).

Record SessionGuard := mkGuard {
  guard_address : nat;
  credentials : bytes -> eff W (option PasswordIdentity);
  identities : bytes -> eff W (option Identity);
  has_remember : bool;
  guard_key : bytes;
  remember_cookie : bytes;
  remember_for : Z;
  guard_secure : bool
}.

Definition remember_cookie_of (g : SessionGuard) (value : bytes) (age : option Z) : Cookie :=
  mkCookie (remember_cookie g) value (lit "/") None age (guard_secure g) true lax.

(** The checks of the constructor; providers that are empty cannot be given here. *)
Definition make_guard (g : SessionGuard) : result SessionGuard :=
  if remember_for g <=? 0
  then Throw (invalid_argument "SessionGuard requires identity providers and a positive remember lifetime")
  else _ ← serialize_cookie (remember_cookie_of g [] None); Ok g.

(** [system_clock::time_point::max() - now], in whole seconds. *)
Definition longest_lifetime (now : Z) : Z := Z.quot (2 ^ 63 - 1 - now) ns_second.

Definition guard_expire (g : SessionGuard) (response : Response) : Response :=
  with_cookie (remember_cookie_of g [] (Some 0)) response.

Definition guard_revoke (g : SessionGuard) : HX unit :=
  p ← session;
  _ ← (if has_remember g then
         s ← read_session p;
         let digest := session_get digest_key s in
         _ ← (if is_empty digest then mret tt else on_world (remember_revoke digest));
         token ← on_request (cookie (remember_cookie g));
         if (length token =? 64)%nat
         then digest ← lift_result (token_digest token); on_world (remember_revoke digest)
         else mret tt
       else mret tt);
  change_session p (session_forget digest_key).

Definition guard_issue (g : SessionGuard) (token digest : bytes) (response : Response) : HX Response :=
  p ← session;
  _ ← change_session p (session_put digest_key digest);
  mret (with_cookie (remember_cookie_of g token (Some (remember_for g))) response).

(** The token and the digest of a remembered login, put into the store. *)
Definition guard_remember (g : SessionGuard) (id : bytes) : HX (bytes * bytes) :=
  x ← Prelude.get;
  let now := system_now (x_world x) in
  if longest_lifetime now <? remember_for g then throw (invalid_argument "Remember lifetime is out of range")
  else
    token ← on_world (random_token 32);
    digest ← lift_result (token_digest token);
    _ ← on_world (remember_put digest id (now + remember_for g * ns_second));
    mret (token, digest).

Definition guard_login (g : SessionGuard) (identity : Identity) (remember : bool) (response : Response) : HX Response :=
  attached ← has_session;
  if negb attached then throw (logic_error "Login requires session middleware")
  else if is_empty (identity_id identity) then throw (invalid_argument "Login identity cannot be empty")
  else if remember && negb (has_remember g) then throw (logic_error "Remember login requires a token store")
  else
    issued ← (if remember then td ← guard_remember g (identity_id identity); mret (Some td) else mret None);
    _ ← guard_revoke g;
    p ← session;
    _ ← regenerate p;
    _ ← change_session p (session_put (guard_key g) (identity_id identity));
    _ ← change_session p (session_forget csrf_key);
    known ← has_auth;
    _ ← (if (known : bool) then mret tt else c ← new_context (make_context None); attach_auth c);
    c ← auth;
    context ← read_context c;
    context ← lift_result (context_login identity context);
    _ ← write_context c context;
    match issued with
    | Some (token, digest) => guard_issue g token digest response
    | None => mret (guard_expire g response)
    end.

(** [attempt]; [dummy] is the static hash that stands in for the one of an unknown account. *)
Definition guard_attempt (g : SessionGuard) (dummy name password : bytes) (remember : bool) (response : Response)
    : HX (bool * Response) :=
  account ← on_world (credentials g name);
  valid ← lift_result (password_verify password match account with Some a => account_hash a | None => dummy end);
  match account with
  | Some a =>
      if (valid : bool) then response ← guard_login g (account_identity a) remember response; mret (true, response)
      else mret (false, response)
  | None => mret (false, response)
  end.

Definition guard_recall (g : SessionGuard) (response : Response) : HX (bool * Response) :=
  attached ← has_session;
  if negb attached then throw (logic_error "Remember login requires session middleware")
  else
    known ← authenticated;
    if known || negb (has_remember g) then mret (false, response)
    else
      token ← on_request (cookie (remember_cookie g));
      if is_empty token || negb (length token =? 64)%nat then mret (false, response)
      else
        digest ← lift_result (token_digest token);
        id ← on_world (remember_consume digest);
        match id with
        | None => mret (false, guard_expire g response)
        | Some id =>
            identity ← on_world (identities g id);
            match identity with
            | Some i =>
                if bool_decide (identity_id i = id)
                then response ← guard_login g i true response; mret (true, response)
                else mret (false, guard_expire g response)
            | None => mret (false, guard_expire g response)
            end
        end.

Definition guard_logout (g : SessionGuard) (response : Response) : HX Response :=
  attached ← has_session;
  if negb attached then throw (logic_error "Logout requires session middleware")
  else
    _ ← guard_revoke g;
    p ← session;
    _ ← invalidate p;
    known ← has_auth;
    _ ← (if (known : bool) then c ← auth; context ← read_context c; write_context c (context_logout context) else mret tt);
    mret (guard_expire g response).

Definition require_context (g : SessionGuard) : HX unit :=
  s ← has_session;
  a ← has_auth;
  if negb s || negb a then throw (logic_error "Session guard requires session and authentication middleware")
  else
    c ← auth;
    context ← read_context c;
    if bool_decide (active_guard context = Some (guard_address g)) then mret tt
    else throw (logic_error "Session guard requires its configured guard middleware").

Fixpoint stage_all (cookies : list Cookie) : HX unit :=
  match cookies with
  | [] => mret tt
  | value :: rest =>
      c ← auth;
      context ← read_context c;
      context ← lift_result (stage_cookie value context);
      _ ← write_context c context;
      stage_all rest
  end.

Definition stage (response : Response) : HX unit := stage_all (response_cookies response).

(** The operations without a response: the cookies are staged for the guard middleware. *)
Definition staged_attempt (g : SessionGuard) (dummy name password : bytes) (remember : bool) : HX bool :=
  _ ← require_context g;
  '(done, response) ← guard_attempt g dummy name password remember (make_response 200 []);
  _ ← stage response;
  mret done.

Definition staged_recall (g : SessionGuard) : HX bool :=
  _ ← require_context g;
  '(done, response) ← guard_recall g (make_response 200 []);
  _ ← stage response;
  mret done.

Definition staged_logout (g : SessionGuard) : HX unit :=
  _ ← require_context g;
  response ← guard_logout g (make_response 200 []);
  stage response.

(** The destructor of [Finish]: on every way out. *)
Definition finally_end_guard (c : nat) (m : HX Response) : HX Response := fun x =>
  let '(r, x') := m x in
  (r, mkExchange (x_request x') (x_session x') (x_auth x') (x_sessions x') (alter end_guard c (x_contexts x')) (x_world x')).

Definition guard_middleware (g : SessionGuard) (next : HX Response) : HX Response :=
  s ← has_session;
  a ← has_auth;
  if negb s || negb a then throw (logic_error "Session guard requires session and authentication middleware")
  else
    c ← auth;
    context ← read_context c;
    context ← lift_result (begin_guard (guard_address g) context);
    _ ← write_context c context;
    finally_end_guard c
      (_ ← staged_recall g;
       response ← next;
       context ← read_context c;
       let '(cookies, context) := take_cookies context in
       _ ← write_context c context;
       mret (fold_left (fun r value => with_cookie value r) cookies response)).
End Guards.

(** ** Authorization *)

Record Decision_ := mkDecision_ { decision_allowed : bool; decision_message : bytes }.

Definition allow : Decision_ := mkDecision_ true [].
Definition deny (m : bytes) : Decision_ := mkDecision_ false m.

Record Authorization := mkAuthorization {
  before : option (Identity -> Decision_);
  policies : gmap bytes (Identity -> Decision_)
}.

Definition define (ability : bytes) (policy : Identity -> Decision_) (a : Authorization) : Authorization :=
  mkAuthorization (before a) (<[ability := policy]> (policies a)).

Definition set_before (policy : Identity -> Decision_) (a : Authorization) : Authorization :=
  mkAuthorization (Some policy) (policies a).

Definition inspect (a : Authorization) (ability : bytes) (identity : Identity) : Decision_ :=
  let by_policy :=
    match policies a !! ability with
    | None => deny (lit "Authorization ability is not defined")
    | Some policy => policy identity
    end in
  match before a with
  | Some policy => let decision := policy identity in if decision_allowed decision then decision else by_policy
  | None => by_policy
  end.

Definition authorization_allows (a : Authorization) (ability : bytes) (identity : Identity) : bool :=
  decision_allowed (inspect a ability identity).

(** [authorize]; an [AuthorizationError] carries its status. *)
Definition authorize (a : Authorization) (context : AuthContext) (ability : bytes) : result unit :=
  match context_identity context with
  | None => Throw (http_exception 401 "Authentication required")
  | Some identity =>
      let decision := inspect a ability identity in
      if decision_allowed decision then Ok tt
      else
        match decision_message decision with
        | [] => Throw (http_exception 403 "Action is not authorized")
        | m => Throw (http_exception 403 (String.string_of_list_byte m))
        end
  end.

(** [auth::Guard], [Gate] and [Manager]. *)
Definition Resolver : Type := bytes -> option Identity.

Definition gate_allows (gate : gmap bytes (Identity -> bool)) (ability : bytes) (identity : Identity) : bool :=
  match gate !! ability with Some policy => policy identity | None => false end.

Record Manager := mkManager { guards : gmap bytes (option Resolver); default_guard_name : bytes }.

Definition resolve (guard : option Resolver) (credential : bytes) : option Identity :=
  match guard with Some resolver => resolver credential | None => None end.

Definition manager_guard_set (name : bytes) (guard : option Resolver) (m : Manager) : result Manager :=
  if is_empty name then Throw (invalid_argument "Authentication guard name cannot be empty")
  else Ok (mkManager (<[name := guard]> (guards m)) (default_guard_name m)).

Definition manager_guard (m : Manager) (name : bytes) : result (option Resolver) :=
  match guards m !! name with
  | None => Throw (logic_error (message "Unknown authentication guard '" (name ++ lit "'")))
  | Some guard => Ok guard
  end.

Definition manager_default (m : Manager) : result (option Resolver) :=
  if is_empty (default_guard_name m) then Throw (logic_error "No default authentication guard configured")
  else manager_guard m (default_guard_name m).

Definition manager_authenticate (m : Manager) (credential guard_name : bytes) : result (option Identity) :=
  guard ← (if is_empty guard_name then manager_default m else manager_guard m guard_name);
  Ok (resolve guard credential).
