(* ===== verification/SessionFacts.v ===== *)
(** Sessions and login: what the session middleware leaves in the store, that a login moves
    the session to a new identifier, that remember tokens work once, and that passwords
    verify against their hashes. *)

From stdpp Require Import base list gmap.
From Stdlib Require Import ZArith Bool Lia.
From S2P Require Import Prelude Text Json Http Uploads Request Response SteadyClock Session Guard.

Local Open Scope Z_scope.

(** ** Tokens *)

Lemma hex_pair_digits b : forallb isxdigit (hex_pair b) = true.
Proof. revert b. apply byte_forall. vm_compute. reflexivity. Qed.

Lemma hex_pair_lower b : hex_string (hex_pair b) = true.
Proof. revert b. apply byte_forall. vm_compute. reflexivity. Qed.

Lemma hex_length (l : bytes) : length (l ≫= hex_pair) = (2 * length l)%nat.
Proof. induction l as [|b l IH]; [done|]. rewrite bind_cons, length_app, IH. cbn. lia. Qed.

Lemma hex_digits (l : bytes) : forallb isxdigit (l ≫= hex_pair) = true.
Proof. induction l as [|b l IH]; [done|]. by rewrite bind_cons, forallb_app, hex_pair_digits, IH. Qed.

Lemma hex_lower (l : bytes) : hex_string (l ≫= hex_pair) = true.
Proof. induction l as [|b l IH]; [done|]. rewrite bind_cons. unfold hex_string in *. by rewrite forallb_app, hex_pair_lower, IH. Qed.

Lemma difference_zero (left right : bytes) d : 0 <= d -> length left = length right ->
  difference_of left right d = 0 <-> d = 0 /\ left = right.
Proof.
  revert right d. induction left as [|x l IH]; intros [|y r] d Hd Hl; try done; cbn.
  - split; [by intros ->|tauto].
  - injection Hl as Hl. rewrite IH by (done || (apply Z.lor_nonneg; split; [done|apply Z.lxor_nonneg; pose proof (uc_range x); pose proof (uc_range y); lia])).
    rewrite Z.lor_eq_0_iff, Z.lxor_eq_0_iff. split; [|by intros [-> [= <- <-]]].
    intros [[-> Hxy] ->]. split; [done|]. f_equal. rewrite <-(chr_uc x), <-(chr_uc y). by f_equal.
Qed.

Lemma difference_keeps_one (left right : bytes) d : Z.testbit d 0 = true -> difference_of left right d <> 0.
Proof.
  revert right d. induction left as [|x l IH]; intros right d Hd.
  - cbn. revert d Hd. induction right as [|y r IH]; intros d Hd; [by intros -> |].
    specialize (IH (Z.lor d (Z.lxor 0 (uc y)))). rewrite Z.lor_spec, Hd in IH. specialize (IH eq_refl). by destruct r.
  - destruct right as [|y r]; cbn; apply IH; by rewrite Z.lor_spec, Hd.
Qed.

(** The comparison of secrets decides equality. *)
Lemma constant_time_equal_spec left right : constant_time_equal left right = true <-> left = right.
Proof.
  unfold constant_time_equal. rewrite Z.eqb_eq. destruct (Nat.eqb_spec (length left) (length right)) as [E|E].
  - rewrite difference_zero by done. tauto.
  - split; [|by intros ->]. intros H. by apply difference_keeps_one in H.
Qed.

(** ** Laws of the parts the middleware uses *)

(** A world with random numbers, sessions and remembered logins: what each operation does
    to the sessions, the remembered logins and the clock. *)
Class LawfulWorld (W : Type) `{RandomSource W, SessionStore W, RememberStore W, SystemClock W} := {
  sessions_of : W -> gmap bytes Session;
  remembered_of : W -> Remembered;
  random_law : forall n w r w', fill_random n w = (r, w') ->
    sessions_of w' = sessions_of w /\ remembered_of w' = remembered_of w /\ (forall b, r = Ok b -> length b = n);
  load_law : forall id w, store_load id w = (Ok (sessions_of w !! id), w);
  save_law : forall s w, exists w', store_save s w = (Ok tt, w') /\
    sessions_of w' = <[session_id s := s]> (sessions_of w) /\ remembered_of w' = remembered_of w;
  erase_law : forall id w, exists w', store_erase id w = (Ok tt, w') /\
    sessions_of w' = delete id (sessions_of w) /\ remembered_of w' = remembered_of w;
  put_law : forall digest id expires w, exists w', remember_put digest id expires w = (Ok tt, w') /\
    remembered_of w' = remembered_put (system_now w) digest id expires (remembered_of w) /\ sessions_of w' = sessions_of w;
  consume_law : forall digest w, exists w',
    remember_consume digest w = (Ok (remembered_consume (system_now w) digest (remembered_of w)).1, w') /\
    remembered_of w' = (remembered_consume (system_now w) digest (remembered_of w)).2 /\ sessions_of w' = sessions_of w;
  revoke_law : forall digest w, exists w', remember_revoke digest w = (Ok tt, w') /\
    remembered_of w' = remembered_revoke digest (remembered_of w) /\ sessions_of w' = sessions_of w
}.

(** Decomposes a run that returned into the runs of its steps. *)
Ltac run_step H :=
  match type of H with
  | (_ ≫= _) _ = (Ok _, _) =>
      let a := fresh "a" in let y := fresh "y" in let E := fresh "E" in
      apply eff_bind_inv in H; destruct H as (a & y & E & H)
  end.

Section Middleware.
  Context {W : Type} `{LawfulWorld W}.

Abbreviation HX := (eff (Exchange W)).

Lemma random_token_run n w t w' : random_token n w = (Ok t, w') ->
  sessions_of w' = sessions_of w /\ remembered_of w' = remembered_of w /\ length t = (2 * n)%nat /\ forallb isxdigit t = true.
Proof.
  unfold random_token. destruct (n =? 0)%nat; [done|]. intros (b & w1 & Hf & Ht)%eff_bind_inv. injection Ht as <- <-.
  destruct (random_law _ _ _ _ Hf) as (Hs & Hr & Hl). by rewrite hex_length, hex_digits, (Hl b eq_refl).
Qed.

Lemma on_world_run {A} (m : eff W A) (x : Exchange W) a x' : on_world m x = (Ok a, x') ->
  exists w', m (x_world x) = (Ok a, w') /\ x' = with_world w' x.
Proof. unfold on_world. destruct (m (x_world x)) as [r w']. intros [= -> <-]. by exists w'. Qed.

Lemma token_valid t : length t = (2 * session_id_bytes)%nat -> forallb isxdigit t = true -> valid_session_id t = true.
Proof. intros Hl Hx. unfold valid_session_id. by rewrite Hl, Hx, Nat.eqb_refl. Qed.

(** A handler leaves the sessions of an exchange where they are: it may change them, attach
    others and add new ones, but an object somebody points to does not go away. *)
Definition keeps {A} (m : HX A) : Prop := forall x r x', m x = (r, x') ->
  forall p, is_Some (x_sessions x !! p) -> is_Some (x_sessions x' !! p).

Lemma session_keeps_bind {A B} (m : HX A) (f : A -> HX B) : keeps m -> (forall a, keeps (f a)) -> keeps (m ≫= f).
Proof.
  intros Hm Hf x r x' E p Hp. unfold mbind, eff_bind in E. destruct (m x) as [[a|e|] x1] eqn:Em.
  - eapply Hf; [exact E|]. by eapply Hm.
  - injection E as <- <-. by eapply Hm.
  - injection E as <- <-. by eapply Hm.
Qed.

Definition with_sessions (l : list Session) (x : Exchange W) : Exchange W :=
  mkExchange (x_request x) (x_session x) (x_auth x) l (x_contexts x) (x_world x).

Lemma bind_read {B} p s (f : Session -> HX B) (x : Exchange W) :
  x_sessions x !! p = Some s -> (read_session p ≫= f) x = f s x.
Proof. intros Hp. unfold mbind, eff_bind, read_session. by rewrite Hp. Qed.

Lemma bind_change {B} p g (f : unit -> HX B) (x : Exchange W) :
  (change_session p g ≫= f) x = f tt (with_sessions (alter g p (x_sessions x)) x).
Proof. done. Qed.

Lemma regenerate_run p (x : Exchange W) s x' : x_sessions x !! p = Some s -> regenerate p x = (Ok tt, x') ->
  exists t w', x' = with_sessions (alter (regenerate_to t) p (x_sessions x)) (with_world w' x) /\
    random_token 32 (x_world x) = (Ok t, w') /\ x_sessions x' !! p = Some (regenerate_to t s) /\
    sessions_of w' = sessions_of (x_world x) /\ valid_session_id t = true.
Proof.
  intros Hp E. unfold regenerate in E. run_step E. apply on_world_run in E0 as (w' & Hr & ->).
  unfold change_session in E. injection E as <-. exists a, w'. destruct (random_token_run _ _ _ _ Hr) as (Hs & _ & Hl & Hx).
  split_and!; [done|done| |done|by apply token_valid]. cbn. by rewrite list_lookup_alter_eq, Hp.
Qed.

(** What [finish_session] leaves behind. *)
Record Finished (o : Options) (p : nat) (persisted_id : bytes) (s s' : Session) (old : gmap bytes Session)
    (response : Response) (x' : Exchange W) : Prop := {
  fin_session : x_sessions x' !! p = Some s';
  fin_valid : valid_session_id (session_id s') = true;
  fin_values : session_values s' = session_values s /\ flash_next s' = flash_next s;
  fin_id : valid_session_id (session_id s) = true -> session_id s' = session_id s;
  fin_stored : sessions_of (x_world x') !! session_id s' = Some s';
  fin_erased : persisted_id <> [] -> session_id s' <> persisted_id -> sessions_of (x_world x') !! persisted_id = None;
  fin_others : forall id, id <> session_id s' -> id <> persisted_id -> sessions_of (x_world x') !! id = old !! id;
  fin_cookie : regenerated s = true \/ persisted_id <> session_id s' -> session_cookie s' o ∈ response_cookies response
}.

Lemma valid_nonempty id : valid_session_id id = true -> is_empty id = false.
Proof. by destruct id. Qed.

(** The first step: an identifier the handlers have spoilt is replaced. *)
Lemma checked_id_run p (x : Exchange W) s u x1 : x_sessions x !! p = Some s ->
  (if is_empty (session_id s) || negb (valid_session_id (session_id s)) then regenerate p else mret tt) x = (Ok u, x1) ->
  exists s1, x_sessions x1 !! p = Some s1 /\ valid_session_id (session_id s1) = true /\
    session_values s1 = session_values s /\ flash_next s1 = flash_next s /\
    sessions_of (x_world x1) = sessions_of (x_world x) /\ (valid_session_id (session_id s) = true -> s1 = s) /\
    (regenerated s = true -> regenerated s1 = true).
Proof.
  intros Hp. destruct (valid_session_id (session_id s)) eqn:Ev.
  - rewrite valid_nonempty by done. intros [= <- <-]. by exists s.
  - rewrite orb_true_r. destruct u. intros (t & w' & -> & _ & Hl & Hs & Ht)%(regenerate_run _ _ _ _ Hp).
    exists (regenerate_to t s). split_and!; done.
Qed.

Lemma finish_run o p persisted_id created response0 (x : Exchange W) s response x' :
  x_sessions x !! p = Some s -> (created = true -> persisted_id = []) ->
  finish_session o p persisted_id created response0 x = (Ok response, x') ->
  exists s', Finished o p persisted_id s s' (sessions_of (x_world x)) response x'.
Proof.
  intros Hp Hc E. unfold finish_session in E. rewrite (bind_read p s) in E by done.
  run_step E. destruct (checked_id_run _ _ _ _ _ Hp E0) as (s1 & Hp1 & Hv1 & Hval & Hfl & Hs1 & Hid & Hreg). clear E0.
  rewrite (bind_read p s1) in E by done. cbv zeta in E.
  set (moved := negb (is_empty persisted_id) && negb (bool_decide (persisted_id = session_id s1))) in *.
  run_step E.
  assert (exists w2, y0 = with_world w2 y /\ sessions_of w2 = if moved then delete persisted_id (sessions_of (x_world x)) else sessions_of (x_world x)) as (w2 & -> & Hw2).
  { destruct moved; rewrite ?orb_true_r in E0; cbn [andb] in E0.
    - apply on_world_run in E0 as (w2 & Ee & ->). destruct (erase_law persisted_id (x_world y)) as (w3 & Ee' & Hd & _).
      rewrite Ee' in Ee. injection Ee as _ <-. exists w3. by rewrite Hd, Hs1.
    - rewrite andb_false_r in E0. injection E0 as _ <-. exists (x_world y). split; [by destruct y|done]. }
  clear E0. rewrite bind_change in E. rewrite (bind_read p (mark_persisted s1)) in E by (cbn; by rewrite list_lookup_alter_eq, Hp1).
  run_step E. apply on_world_run in E0 as (w3 & Ee & ->). cbn [x_world with_sessions with_world] in Ee.
  destruct (save_law (mark_persisted s1) w2) as (w4 & Es & Hsave & _). rewrite Es in Ee. injection Ee as _ <-.
  injection E as <- <-. exists (mark_persisted s1). cbn [x_world with_sessions with_world]. split; cbn.
  - by rewrite list_lookup_alter_eq, Hp1.
  - done.
  - done.
  - intros Hv. by rewrite (Hid Hv).
  - by rewrite Hsave, lookup_insert_eq.
  - intros Hne Hd. rewrite Hsave. cbn. rewrite lookup_insert_ne by congruence. rewrite Hw2.
    replace moved with true; [by rewrite lookup_delete_eq|]. subst moved. destruct persisted_id; [done|]. cbn.
    by rewrite bool_decide_eq_false_2 by congruence.
  - intros id Hi1 Hi2. rewrite Hsave. cbn. rewrite lookup_insert_ne by congruence. rewrite Hw2.
    destruct moved; [by rewrite lookup_delete_ne by congruence|done].
  - intros Hor. replace (_ || _ || _) with true; [cbn; set_solver|]. symmetry.
    destruct Hor as [Hr|Hne]; [rewrite Hreg by done; by rewrite orb_true_r|]. destruct (is_empty persisted_id) eqn:Ei; [by rewrite !orb_true_r|].
    replace moved with true; [by rewrite !orb_true_r|]. subst moved. rewrite ?Ei. cbn. by rewrite bool_decide_eq_false_2 by done.
Qed.

(** The session cookie a client presents, and the session stored under it. *)
Definition presented (o : Options) (x : Exchange W) : bytes :=
  default [] (cookies_ (parse_cookies (x_request x)) !! o_cookie_name o).

Definition stored_session (o : Options) (x : Exchange W) : option Session :=
  if valid_session_id (presented o x) then sessions_of (x_world x) !! presented o x else None.

(** A token that was drawn at random. *)
Definition drawn (t : bytes) : Prop := exists w w', random_token session_id_bytes w = (Ok t, w').

Lemma load_run o (x : Exchange W) p persisted_id created x1 :
  load_or_create o x = (Ok (p, persisted_id, created), x1) ->
  exists s, p = length (x_sessions x) /\ x_sessions x1 = x_sessions x ++ [s] /\ sessions_of (x_world x1) = sessions_of (x_world x) /\
    match stored_session o x with
    | Some stored => s = stored /\ persisted_id = presented o x /\ created = false
    | None => persisted_id = [] /\ exists t, drawn t /\ s = make_session t
    end.
Proof.
  intros E. unfold load_or_create in E. run_step E. injection E0 as <- <-. fold (presented o x) in E. unfold stored_session.
  run_step E. assert (y = with_request (parse_cookies (x_request x)) x /\
    a = if valid_session_id (presented o x) then sessions_of (x_world x) !! presented o x else None) as [-> ->].
  { destruct (valid_session_id _); [|by injection E0 as <- <-]. unfold on_world in E0. rewrite load_law in E0.
    by injection E0 as <- <-. }
  clear E0. destruct (if valid_session_id _ then _ else _) as [stored|] eqn:Es.
  - injection E as <- <- <- <-. by exists stored.
  - run_step E. apply on_world_run in E0 as (w' & Hr & ->). injection E as <- <- <- <-.
    exists (make_session a). destruct (random_token_run _ _ _ _ Hr) as (Hs & _). split_and!; [done..|].
    exists a. split; [by exists (x_world x), w'|done].
Qed.

(** How an exchange passes through the session middleware. *)
Record Started (o : Options) (next : HX Response) (x : Exchange W) (response : Response) (x' : Exchange W)
    (p : nat) (s1 s2 s' : Session) (x1 x2 : Exchange W) : Prop := {
  run_attached : x_session x1 = Some p /\ x_sessions x1 !! p = Some s1;
  run_worlds : sessions_of (x_world x1) = sessions_of (x_world x);
  run_next : exists response0, next x1 = (Ok response0, x2);
  run_after : x_sessions x2 !! p = Some s2;
  run_session : match stored_session o x with
    | Some stored => s1 = age_flash stored /\ Finished o p (presented o x) s2 s' (sessions_of (x_world x2)) response x'
    | None => (exists t, drawn t /\ s1 = make_session t) /\ Finished o p [] s2 s' (sessions_of (x_world x2)) response x'
    end
}.

Lemma start_session_run o next x response x' : keeps next -> start_session o next x = (Ok response, x') ->
  exists p s1 s2 s' x1 x2, Started o next x response x' p s1 s2 s' x1 x2.
Proof.
  intros Hk E. unfold start_session in E. run_step E. destruct a as [[p persisted_id] created].
  destruct (load_run _ _ _ _ _ _ E0) as (s & Hp & Hx & Hw & Hm). clear E0. rewrite bind_change in E.
  run_step E. injection E0 as <- <-. run_step E. cbn [x_sessions with_sessions] in *.
  set (x1 := mkExchange _ _ _ _ _ _) in E0.
  assert (H1' : x_sessions x1 !! p = Some (age_flash s)).
  { subst x1. cbn. rewrite list_lookup_alter_eq, Hx, lookup_app_r by lia. subst p. by rewrite Nat.sub_diag. }
  assert (is_Some (x_sessions y0 !! p)) as [s2 H2'] by (eapply Hk; [exact E0|by rewrite H1']).
  apply (finish_run _ _ _ _ _ _ s2) in E as (s' & Hf); [|done|].
  - exists p, (age_flash s), s2, s', x1, y0. split; [done|done|by eexists|done|].
    destruct (stored_session o x) as [stored|]; [by destruct Hm as (-> & -> & _)|].
    destruct Hm as (-> & t & Ht & ->). split; [by exists t|done].
  - intros ->. by destruct (stored_session o x); [destruct Hm as (_ & _ & ?)|destruct Hm].
Qed.

(** ** Which operations keep the sessions *)

Lemma session_keeps_same {A} (m : HX A) : (forall x, x_sessions (m x).2 = x_sessions x) -> keeps m.
Proof. intros Hm x r x' E p Hp. specialize (Hm x). rewrite E in Hm. cbn in Hm. by rewrite Hm. Qed.

Lemma session_keeps_ret {A} (a : A) : keeps (mret a).
Proof. by apply session_keeps_same. Qed.

Lemma session_keeps_throw {A} e : keeps (throw e : HX A).
Proof. by apply session_keeps_same. Qed.

Lemma session_keeps_lift {A} (r : result A) : keeps (lift_result r).
Proof. by apply session_keeps_same. Qed.

Lemma session_keeps_world {A} (m : eff W A) : keeps (on_world m).
Proof. apply session_keeps_same. intros x. unfold on_world. by destruct (m (x_world x)). Qed.

Lemma session_keeps_request {A} (m : eff Request A) : keeps (on_request m).
Proof. apply session_keeps_same. intros x. unfold on_request. by destruct (m (x_request x)). Qed.

Lemma session_keeps_read p : keeps (read_session p).
Proof. apply session_keeps_same. intros x. unfold read_session. by destruct (_ !! _). Qed.

Lemma session_keeps_read_context p : keeps (read_context p).
Proof. apply session_keeps_same. intros x. unfold read_context. by destruct (_ !! _). Qed.

Lemma session_keeps_change p f : keeps (change_session p f).
Proof.
  intros x r x' E q Hq. injection E as _ <-. cbn. rewrite list_lookup_alter. case_decide; [subst|done]. by apply fmap_is_Some.
Qed.

Lemma session_keeps_new s : keeps (new_session s).
Proof. intros x r x' E p [t Hp]. injection E as _ <-. exists t. cbn. by apply lookup_app_l_Some. Qed.

Lemma session_keeps_state {A} (m : HX A) : (forall x, (m x).2 = x) -> keeps m.
Proof. intros Hm. apply session_keeps_same. intros x. by rewrite Hm. Qed.

Lemma session_keeps_session : keeps session.
Proof. apply session_keeps_state. intros x. unfold session. by destruct (x_session x). Qed.

Lemma session_keeps_auth : keeps auth.
Proof. apply session_keeps_state. intros x. unfold auth. by destruct (x_auth x). Qed.

Lemma session_keeps_has_session : keeps has_session. Proof. by apply session_keeps_same. Qed.
Lemma session_keeps_has_auth : keeps has_auth. Proof. by apply session_keeps_same. Qed.
Lemma session_keeps_attach_session p : keeps (attach_session p). Proof. by apply session_keeps_same. Qed.
Lemma session_keeps_attach_auth p : keeps (attach_auth p). Proof. by apply session_keeps_same. Qed.
Lemma session_keeps_new_context c : keeps (new_context c). Proof. by apply session_keeps_same. Qed.
Lemma session_keeps_write_context p c : keeps (write_context p c). Proof. by apply session_keeps_same. Qed.
Lemma session_keeps_authenticated : keeps authenticated. Proof. by apply session_keeps_same. Qed.
Lemma session_keeps_get : keeps Prelude.get. Proof. by apply session_keeps_same. Qed.
End Middleware.

Create HintDb exchange.
#[export] Hint Resolve session_keeps_ret session_keeps_throw session_keeps_lift session_keeps_world session_keeps_request session_keeps_read session_keeps_read_context session_keeps_change
  session_keeps_new session_keeps_session session_keeps_auth session_keeps_has_session session_keeps_has_auth session_keeps_attach_session session_keeps_attach_auth session_keeps_new_context
  session_keeps_write_context session_keeps_authenticated session_keeps_get : exchange.

(** A computation made of such operations keeps the sessions. *)
Ltac session_keeps_steps :=
  repeat match goal with
  | |- keeps (_ ≫= _) => apply session_keeps_bind; [|intros ?]
  | |- keeps (match ?d with _ => _ end) => destruct d
  | |- keeps (let '(_, _) := ?d in _) => destruct d
  end; try solve [auto with exchange].

Section Authentication.
  Context {W : Type} `{LawfulWorld W}.

Abbreviation HX := (eff (Exchange W)).

Lemma session_keeps_regenerate p : keeps (regenerate p).
Proof. unfold regenerate. session_keeps_steps. Qed.

Lemma session_keeps_identify resolver key s : keeps (identify resolver key s : HX _).
Proof. unfold identify. session_keeps_steps. Qed.

Lemma session_keeps_authenticate resolver key (next : HX Response) : keeps next -> keeps (authenticate_session resolver key next).
Proof. intros Hn. unfold authenticate_session. session_keeps_steps; auto using session_keeps_regenerate, session_keeps_identify. Qed.

Lemma with_world_same (x : Exchange W) : with_world (x_world x) x = x.
Proof. by destruct x. Qed.

Lemma identify_run resolver key s (x : Exchange W) i stale x1 : identify resolver key s x = (Ok (i, stale), x1) ->
  (exists w, x1 = with_world w x) /\ forall user, i = Some user -> stale = false /\ identity_id user = session_get key s.
Proof.
  unfold identify. destruct (session_has key s).
  - intros E. run_step E. assert (exists w, y = with_world w x) as Hy.
    { destruct (is_empty _); [injection E0 as _ <-; exists (x_world x); by rewrite with_world_same|].
      apply on_world_run in E0 as (w & _ & ->). by exists w. }
    injection E as Ei <-. split; [done|]. intros user ->. destruct a as [j|]; [|done].
    destruct (is_empty (identity_id j) || _) eqn:Ed; [done|]. injection Ei as -> <-. split; [done|].
    apply orb_false_iff in Ed as [_ Ed]. apply negb_false_iff, bool_decide_eq_true in Ed. done.
  - intros [= <- <- <-]. split; [exists (x_world x); by rewrite with_world_same|done].
Qed.

(** The context the handlers get. *)
Definition known_user (key : bytes) (s : Session) (c : AuthContext) : Prop :=
  dirty c = false /\ forall user, context_identity c = Some user -> identity_id user = session_get key s.

(** How an exchange passes through the authentication middleware: the handlers see the
    identity the session names or none, and a change of identity ends in the session, under a
    new identifier. *)
Lemma authenticate_run resolver key (next : HX Response) y p s response z :
  keeps next -> x_session y = Some p -> x_sessions y !! p = Some s ->
  authenticate_session resolver key next y = (Ok response, z) ->
  exists y1 z1 c context0 context s1,
    next y1 = (Ok response, z1) /\ x_session y1 = Some p /\ x_auth y1 = Some c /\
    x_contexts y1 !! c = Some context0 /\ known_user key s context0 /\
    x_contexts z1 !! c = Some context /\ x_sessions z1 !! p = Some s1 /\
    (dirty context = true -> exists t s2, drawn t /\ x_sessions z !! p = Some s2 /\ session_id s2 = t /\ regenerated s2 = true /\
       session_values s2 = match context_identity context with
                           | Some user => <[key := identity_id user]> (session_values s1)
                           | None => delete key (session_values s1)
                           end).
Proof.
  intros Hk Hy Hs E. unfold authenticate_session in E.
  rewrite (eff_bind_Ok has_session _ y true y) in E by (unfold has_session; by rewrite Hy). cbn [negb] in E.
  rewrite (eff_bind_Ok session _ y p y) in E by (unfold session; by rewrite Hy).
  rewrite (bind_read p s) in E by done. run_step E. destruct a as [i stale].
  destruct (identify_run _ _ _ _ _ _ _ E0) as ((w & ->) & Hi). clear E0. run_step E.
  assert (exists l s0, y0 = with_sessions l (with_world w y) /\ l !! p = Some s0) as (l & s0 & -> & Hl).
  { destruct stale; injection E0 as _ <-; [|exists (x_sessions y), s; by destruct y].
    exists (alter (session_forget key) p (x_sessions y)), (session_forget key s). split; [done|]. cbn.
    by rewrite list_lookup_alter_eq, Hs. }
  clear E0. run_step E. injection E0 as <- <-. run_step E. injection E0 as <- <-. cbn [x_contexts with_sessions with_world] in E.
  run_step E. rename y0 into z1, a0 into response0.
  assert (is_Some (x_sessions z1 !! p)) as [s1 Hs1] by (eapply Hk; [exact E0|by exists s0]).
  run_step E. unfold read_context in E1. destruct (x_contexts z1 !! _) as [context|] eqn:Ec; [|done]. injection E1 as <- <-.
  eexists _, z1, (length (x_contexts y)), (make_context i), context, s1.
  assert (response0 = response) as -> by (repeat run_step E; by injection E as <- _).
  split_and!; [exact E0|done|done| | |exact Ec|done|].
  - cbn. by apply lookup_snoc_Some; right.
  - split; [done|]. intros user Hu. by apply Hi in Hu as [_ Hu].
  - intros Hd. rewrite Hd in E. clear E0 Hi. run_step E. run_step E0. injection E1 as <- <-. injection E0 as _ <-.
    rewrite orb_true_r in E. run_step E. cbn [x_sessions x_world] in *. destruct a1.
    eapply (regenerate_run p) in E0 as (t & w' & -> & Ht & Hl' & _ & _); [|cbn; by rewrite list_lookup_alter_eq, Hs1].
    injection E as <-. eexists t, _. split; [by eexists _, _|]. split; [exact Hl'|]. do 2 (split; [done|]). by destruct (context_identity context).
Qed.

(** ** The claims on sessions *)

Lemma run_session_of o (next : HX Response) x response x' p s1 s2 s' x1 x2 : Started o next x response x' p s1 s2 s' x1 x2 ->
  exists persisted_id, Finished o p persisted_id s2 s' (sessions_of (x_world x2)) response x'.
Proof. intros [? ? ? ? Hm]. destruct (stored_session o x) as [?|]; destruct Hm as [_ Hf]; eauto. Qed.

(** C4. Sessions survive from one request to the next and cannot be chosen by the client: the
    handlers run with the session stored under the cookie, or with an empty one whose
    identifier was drawn at random; what they leave is stored under a valid identifier, their
    own unless they spoilt it; when the session is new, was regenerated or is not the one
    presented, the response carries its cookie, and the session presented is gone if another
    replaces it; and a request that presents the identifier finds the same values, the flash
    values set one request earlier and no others. *)
Theorem session_roundtrip o (next1 next2 : HX Response) x response1 x' :
  keeps next1 -> keeps next2 -> start_session o next1 x = (Ok response1, x') ->
  exists p s1 s2 s' x1 x2 response0,
    next1 x1 = (Ok response0, x2) /\ x_session x1 = Some p /\ x_sessions x1 !! p = Some s1 /\ x_sessions x2 !! p = Some s2 /\
    match stored_session o x with
    | Some stored => s1 = age_flash stored
    | None => exists t, drawn t /\ s1 = make_session t
    end /\
    valid_session_id (session_id s') = true /\
    (valid_session_id (session_id s2) = true -> session_id s' = session_id s2) /\
    (stored_session o x = None \/ regenerated s2 = true \/ session_id s' <> presented o x ->
       session_cookie s' o ∈ response_cookies response1) /\
    (stored_session o x <> None -> session_id s' <> presented o x -> sessions_of (x_world x') !! presented o x = None) /\
    forall y response2 y', sessions_of (x_world y) = sessions_of (x_world x') -> presented o y = session_id s' ->
      start_session o next2 y = (Ok response2, y') ->
      exists q u y1 y2 response3, next2 y1 = (Ok response3, y2) /\ x_session y1 = Some q /\ x_sessions y1 !! q = Some u /\
        session_id u = session_id s' /\ session_values u = session_values s2 /\ flash_current u = flash_next s2 /\ flash_next u = ∅.
Proof.
  intros Hk1 Hk2 (p & s1 & s2 & s' & x1 & x2 & Hst)%start_session_run; [|done].
  destruct (run_session_of _ _ _ _ _ _ _ _ _ _ _ Hst) as (persisted & [_ Hv [Hval Hfl] Hid Hs _ _ _]).
  destruct Hst as [[Ha Hs1] _ (r0 & Hn) Hs2 Hm]. exists p, s1, s2, s', x1, x2, r0. split_and!; try done.
  - destruct (stored_session o x) as [stored|]; [by destruct Hm|]. destruct Hm as [(t & Ht & ->) Hf]. by exists t.
  - destruct (stored_session o x) as [stored|] eqn:Est; destruct Hm as [_ Hf]; intros Hor; apply (fin_cookie _ _ _ _ _ _ _ _ Hf).
    + destruct Hor as [?|[?|?]]; [done|by left|by right].
    + right. intros E. rewrite <-E in Hv. done.
  - destruct (stored_session o x) as [stored|] eqn:Est; [|done]. destruct Hm as [_ Hf]. intros _ Hne.
    apply (fin_erased _ _ _ _ _ _ _ _ Hf); [|done]. intros E. unfold stored_session in Est. by rewrite E in Est.
  - intros y r2 y' Hy Hp (q & u & u2 & u' & y1 & y2 & [[Hq Hu] _ (r3 & Hn2) _ Hm2])%start_session_run; [|done].
    exists q, u, y1, y2, r3. unfold stored_session in Hm2. rewrite Hp, Hv, Hy, Hs in Hm2. destruct Hm2 as [-> _].
    split_and!; done.
Qed.

(** C5. A login moves the session: when the handlers log somebody in, the session is stored with
    the identity under an identifier drawn at random and sent to the client, and the
    identifier the client came with, which somebody else may know and the server itself may
    have issued, names no session any more, unless the random source drew that very
    identifier again. *)
Theorem login_moves_session o resolver key (next : HX Response) user x stored response x' :
  keeps next -> stored_session o x = Some stored ->
  (forall y c context r z, next y = (Ok r, z) -> x_auth y = Some c -> x_contexts y !! c = Some context ->
     exists context', x_contexts z !! c = Some context' /\ dirty context' = true /\ context_identity context' = Some user) ->
  start_session o (authenticate_session resolver key next) x = (Ok response, x') ->
  exists s', drawn (session_id s') /\ sessions_of (x_world x') !! session_id s' = Some s' /\
    session_get key s' = identity_id user /\ session_cookie s' o ∈ response_cookies response /\
    (session_id s' <> presented o x -> sessions_of (x_world x') !! presented o x = None).
Proof.
  intros Hk Hst Hlogin E.
  apply start_session_run in E as (p & s1 & s2 & s' & x1 & x2 & [[Ha Hs1] _ (r0 & Hn) Hs2 Hm]); [|by apply session_keeps_authenticate].
  apply (authenticate_run _ _ _ _ p s1) in Hn as (y1 & z1 & c & context0 & context & s3 & Hy & Hp & Hc & Hc0 & _ & Hc1 & Hs3 & Hd); [|done..].
  destruct (Hlogin _ _ _ _ _ Hy Hc Hc0) as (context' & Hc1' & Hdirty & Hu). simplify_eq.
  destruct (Hd Hdirty) as (t & s4 & Ht & Hs4 & Hid & Hreg & Hvals). simplify_eq. rewrite Hu in Hvals. rewrite Hst in Hm. destruct Hm as [_ Hf].
  assert (Hv : valid_session_id (session_id s2) = true).
  { destruct Ht as (w & w' & Ht). apply random_token_run in Ht as (_ & _ & Hl & Hx). by apply token_valid. }
  pose proof (fin_id _ _ _ _ _ _ _ _ Hf Hv) as Hsame. exists s'. rewrite Hsame. split_and!.
  - done.
  - rewrite <-Hsame. apply (fin_stored _ _ _ _ _ _ _ _ Hf).
  - unfold session_get. destruct (fin_values _ _ _ _ _ _ _ _ Hf) as [-> _]. by rewrite Hvals, lookup_insert_eq.
  - apply (fin_cookie _ _ _ _ _ _ _ _ Hf). by left.
  - rewrite <-Hsame. intros Hne. apply (fin_erased _ _ _ _ _ _ _ _ Hf); [|done].
    intros E. unfold stored_session in Hst. by rewrite E in Hst.
Qed.
End Authentication.
