(* ===== verification/GuardFacts.v ===== *)
(** Login: remember tokens work once, passwords verify against their own hashes and against
    no other, and concrete exchanges through the middleware. *)

From stdpp Require Import base list gmap.
From Stdlib Require Import ZArith Bool Lia.
From S2P Require Import Prelude Text Json Http Uploads Request Response SteadyClock Session Guard SessionFacts.

Local Open Scope Z_scope.

(** ** Passwords *)

(** The output of the key derivation has the length that was asked for. *)
Class LawfulCrypto `{Crypto} : Prop := {
  scrypt_length : forall password salt output, scrypt password salt = Some output -> length output = 32%nat
}.

Lemma hex_pair_inj a b : hex_pair a = hex_pair b -> a = b.
Proof.
  assert (H : forall b, (fun b => forallb (fun a => negb (bool_decide (hex_pair a = hex_pair b)) || bool_decide (a = b)) all_bytes) b = true).
  { apply byte_forall. vm_compute. reflexivity. }
  intros E. specialize (H b). cbn beta in H. rewrite forallb_forall in H.
  specialize (H a (proj1 (list_elem_of_In _ _) (elem_of_all_bytes a))).
  apply orb_true_iff in H as [H|H]; [|by apply bool_decide_eq_true in H].
  apply negb_true_iff, bool_decide_eq_false in H. done.
Qed.

Lemma hex_inj (l k : bytes) : hex l = hex k -> l = k.
Proof.
  unfold hex. revert k. induction l as [|a l IH]; intros [|b k] E; [done|done|done|].
  rewrite !bind_cons in E. apply app_inj_1 in E as [Eh Et]; [|done]. f_equal; [by apply hex_pair_inj|by apply IH].
Qed.

Section Passwords.
  Context `{LawfulCrypto} {W : Type} `{LawfulWorld W}.

(** The parts of an encoded password. *)
Lemma encoded_parts salt (derived : bytes) : length salt = 32%nat -> length derived = 64%nat ->
  let encoded := password_prefix ++ salt ++ lit "$" ++ derived in
  needs_rehash encoded = false /\ take 32 (drop (length password_prefix) encoded) = salt /\
  drop (length password_prefix + 33) encoded = derived.
Proof.
  intros Hs Hd encoded. subst encoded. split_and!.
  - unfold needs_rehash. rewrite !orb_false_iff, !negb_false_iff. split_and!.
    + by rewrite starts_with_app.
    + apply Nat.eqb_eq. rewrite !length_app, Hs, Hd. done.
    + apply bool_decide_eq_true. rewrite lookup_app_r by lia. rewrite Nat.add_sub'. rewrite lookup_app_r by lia. by rewrite Hs.
  - rewrite drop_app_length, take_app_le by lia. apply take_ge. lia.
  - rewrite <-drop_drop, drop_app_length. rewrite (drop_app_ge salt) by lia. by rewrite Hs.
Qed.

Lemma random_token_lower n (w : W) t w' : random_token n w = (Ok t, w') -> hex_string t = true.
Proof.
  unfold random_token. destruct (n =? 0)%nat; [done|]. intros (b & w1 & _ & Ht)%eff_bind_inv. injection Ht as <- _. apply hex_lower.
Qed.

(** C18. A password verifies against its hash, and another one does exactly when the key
    derivation maps both to the same output under the salt of the hash. *)
Theorem password_verifies (password encoded : bytes) (w w' : W) :
  password_hash password w = (Ok encoded, w') ->
  needs_rehash encoded = false /\ password_verify password encoded = Ok true /\
  exists salt output, scrypt password salt = Some output /\
    forall other output', Z.of_nat (length other) <= 1024 * 1024 -> scrypt other salt = Some output' ->
      password_verify other encoded = Ok (bool_decide (output' = output)).
Proof.
  intros E. unfold password_hash in E. run_step E. run_step E. injection E1 as Ed <-. injection E as <- _.
  pose proof E0 as Hr. apply random_token_run in E0 as (_ & _ & Hl & _). rename a into salt, a0 into derived.
  pose proof Ed as Ed'. unfold derive in Ed. destruct (_ <? _) eqn:El; [done|]. destruct (scrypt password salt) as [output|] eqn:Es; [|done].
  injection Ed as <-. assert (Hlen : length (hex output) = 64%nat).
  { unfold hex. by rewrite hex_length, (scrypt_length _ _ _ Es). }
  destruct (encoded_parts salt (hex output) Hl Hlen) as (Hn & Ht & Hd). cbv zeta in *.
  assert (Hsalt : hex_string salt = true).
  { by eapply random_token_lower. }
  assert (Hv : forall other output', Z.of_nat (length other) <= 1024 * 1024 -> scrypt other salt = Some output' ->
    password_verify other (password_prefix ++ salt ++ lit "$" ++ hex output) = Ok (bool_decide (output' = output))).
  { intros other output' Ho Hs'. unfold password_verify. rewrite Hn, Ht, Hd, Hsalt. unfold hex at 1. rewrite hex_lower. cbn [negb orb].
    unfold derive. rewrite (proj2 (Z.ltb_ge _ _)) by lia. rewrite Hs'. cbn. f_equal.
    apply bool_decide_ext. split; [apply hex_inj|by intros ->]. }
  split_and!; [done| |by exists salt, output]. apply Z.ltb_ge in El.
  pose proof (Hv password output El Es) as Hp. by rewrite bool_decide_eq_true_2 in Hp.
Qed.
End Passwords.

(** ** Remember tokens *)

Lemma parse_cookies_idem r : parse_cookies (parse_cookies r) = parse_cookies r.
Proof. unfold parse_cookies at 2 3. destruct (cookies_parsed_ r) eqn:E; unfold parse_cookies; by rewrite ?E. Qed.

(** The remember cookie of an exchange. *)
Definition remember_token {W} (g : SessionGuard (W := W)) (x : Exchange W) : bytes :=
  default [] (cookies_ (parse_cookies (x_request x)) !! remember_cookie g).

Section Remember.
  Context `{Crypto} {W : Type} `{LawfulWorld W}.

Abbreviation HX := (eff (Exchange W)).

(** A computation leaves a digest forgotten and the remember cookie as it is. *)
Definition forgets {A} (g : SessionGuard (W := W)) (d : bytes) (m : HX A) : Prop := forall x a x', m x = (Ok a, x') ->
  remembered_of (x_world x) !! d = None -> remembered_of (x_world x') !! d = None.

Lemma forgets_bind {A B} g d (m : HX A) (f : A -> HX B) : forgets g d m -> (forall a, forgets g d (f a)) -> forgets g d (m ≫= f).
Proof. intros Hm Hf x b x' (a & y & E1 & E2)%eff_bind_inv Hn. eapply Hf; [exact E2|]. by eapply Hm. Qed.

Lemma forgets_same {A} g d (m : HX A) : (forall x, x_world (m x).2 = x_world x) -> forgets g d m.
Proof. intros Hm x a x' E Hn. specialize (Hm x). rewrite E in Hm. cbn in Hm. by rewrite Hm. Qed.

Lemma forgets_token g d n : forgets g d (on_world (random_token n) : HX _).
Proof. intros x t x' (w' & Hr & ->)%on_world_run Hn. apply random_token_run in Hr as (_ & Hr & _). cbn. by rewrite Hr. Qed.

Lemma forgets_revoke g d digest : forgets g d (on_world (remember_revoke digest) : HX _).
Proof.
  intros x t x' (w' & Hr & ->)%on_world_run Hn. destruct (revoke_law digest (x_world x)) as (w2 & E & Hd & _).
  rewrite E in Hr. injection Hr as _ <-. cbn. rewrite Hd. unfold remembered_revoke. rewrite lookup_delete. by case_decide.
Qed.

Lemma forgets_ret {A} g d (a : A) : forgets g d (mret a). Proof. by apply forgets_same. Qed.
Lemma forgets_throw {A} g d e : forgets g d (throw e : HX A). Proof. by apply forgets_same. Qed.
Lemma forgets_lift {A} g d (r : result A) : forgets g d (lift_result r). Proof. by apply forgets_same. Qed.
Lemma forgets_session g d : forgets g d session.
Proof. apply forgets_same. intros x. unfold session. by destruct (x_session x). Qed.
Lemma forgets_auth g d : forgets g d auth.
Proof. apply forgets_same. intros x. unfold auth. by destruct (x_auth x). Qed.
Lemma forgets_read g d p : forgets g d (read_session p).
Proof. apply forgets_same. intros x. unfold read_session. by destruct (_ !! _). Qed.
Lemma forgets_read_context g d p : forgets g d (read_context p).
Proof. apply forgets_same. intros x. unfold read_context. by destruct (_ !! _). Qed.
Lemma forgets_change g d p f : forgets g d (change_session p f). Proof. by apply forgets_same. Qed.
Lemma forgets_write_context g d p c : forgets g d (write_context p c). Proof. by apply forgets_same. Qed.
Lemma forgets_new_context g d c : forgets g d (new_context c). Proof. by apply forgets_same. Qed.
Lemma forgets_attach_auth g d p : forgets g d (attach_auth p). Proof. by apply forgets_same. Qed.
Lemma forgets_has_auth g d : forgets g d has_auth. Proof. by apply forgets_same. Qed.
Lemma forgets_request {A} g d (m : eff Request A) : forgets g d (on_request m).
Proof. apply forgets_same. intros x. unfold on_request. by destruct (m (x_request x)). Qed.
End Remember.

#[export] Hint Resolve forgets_ret forgets_throw forgets_lift forgets_session forgets_auth forgets_read forgets_read_context
  forgets_change forgets_write_context forgets_new_context forgets_attach_auth forgets_has_auth forgets_request forgets_token
  forgets_revoke : exchange.

Ltac forgets_steps :=
  repeat match goal with
  | |- forgets _ _ (_ ≫= _) => apply forgets_bind; [|intros ?]
  | |- forgets _ _ (match ?d with _ => _ end) => destruct d
  end; try solve [auto with exchange].

Section Recall.
  Context `{Crypto} {W : Type} `{LawfulWorld W}.

Abbreviation HX := (eff (Exchange W)).

(** After [guard_revoke] the token of the request is forgotten. *)
Lemma revoke_forgets g (x : Exchange W) x' d u : has_remember g = true -> length (remember_token g x) = 64%nat ->
  token_digest (remember_token g x) = Ok d -> guard_revoke g x = (Ok u, x') -> remembered_of (x_world x') !! d = None.
Proof.
  intros Hr Hl Hd E. unfold guard_revoke in E. run_step E. unfold session in E0. destruct (x_session x) as [p|] eqn:Ep; [|done].
  injection E0 as <- <-. run_step E. injection E as _ <-. cbn. rewrite Hr in E0. run_step E0. unfold read_session in E.
  destruct (x_sessions x !! p) as [s|]; [|done]. injection E as <- <-. cbv zeta in E0. run_step E0.
  assert (exists w, y0 = with_world w x) as (w & ->).
  { destruct (is_empty _); [injection E as _ <-; exists (x_world x); by destruct x|].
    apply on_world_run in E as (w & _ & ->). by exists w. }
  clear E. run_step E0. injection E as <- <-. cbn [x_request with_world] in E0. fold (remember_token g x) in E0.
  rewrite Hl in E0. cbn [Nat.eqb] in E0. run_step E0. injection E as Ht <-. rewrite Hd in Ht. injection Ht as <-.
  apply on_world_run in E0 as (w' & Hv & ->). cbn in *. destruct (revoke_law d w) as (w2 & Ew & Hf & _).
  rewrite Ew in Hv. injection Hv as _ <-. rewrite Hf. apply lookup_delete_eq.
Qed.

Lemma remember_token_world g w (x : Exchange W) : remember_token g (with_world w x) = remember_token g x.
Proof. done. Qed.

Lemma login_forgets g i remember r (x : Exchange W) x' r' d : has_remember g = true -> length (remember_token g x) = 64%nat ->
  token_digest (remember_token g x) = Ok d -> guard_login g i remember r x = (Ok r', x') -> remembered_of (x_world x') !! d = None.
Proof.
  intros Hr Hl Hd E. unfold guard_login in E. run_step E. injection E0 as <- <-. destruct (negb _); [done|].
  destruct (is_empty _); [done|]. destruct (_ && _); [done|]. run_step E.
  assert (exists w, y = with_world w x) as (w & ->).
  { destruct remember; [|injection E0 as _ <-; exists (x_world x); by destruct x]. run_step E0. injection E0 as _ <-.
    unfold guard_remember in E1. run_step E1. injection E0 as <- <-. cbv zeta in E1. destruct (_ <? _); [done|]. run_step E1.
    apply on_world_run in E0 as (w1 & _ & ->). run_step E1. injection E0 as _ <-. run_step E1.
    apply on_world_run in E0 as (w2 & _ & ->). injection E1 as _ <-. by exists w2. }
  clear E0. run_step E. eapply revoke_forgets in E0; [|done|done..]. clear Hd.
  set (rest := (p ← session; _)) in E. assert (Hf : forgets g d rest); [|by eapply Hf].
  subst rest. unfold regenerate, guard_issue. forgets_steps.
Qed.

(** C16. A remember token works once: after a request that presents one, the token is forgotten,
    whether it was accepted or not, so that a request that presents it again is not
    authenticated by it; it is accepted only when it was stored for the identity and has not
    expired. *)
Theorem remember_once g r (x : Exchange W) d accepted r' x' :
  has_remember g = true -> length (remember_token g x) = 64%nat -> token_digest (remember_token g x) = Ok d ->
  (forall id w i w', identities g id w = (i, w') -> remembered_of w' = remembered_of w) ->
  authenticated x = (Ok false, x) ->
  guard_recall g r x = (Ok (accepted, r'), x') ->
  remembered_of (x_world x') !! d = None /\
  (accepted = true -> exists entry, remembered_of (x_world x) !! d = Some entry /\ system_now (x_world x) < r_expires entry) /\
  forall y p r2, remembered_of (x_world y) = remembered_of (x_world x') -> remember_token g y = remember_token g x ->
    x_session y = Some p -> authenticated y = (Ok false, y) ->
    exists y', guard_recall g r2 y = (Ok (false, guard_expire g r2), y').
Proof.
  intros Hr Hl Hd Hid Ha E.
  assert (Hmain : remembered_of (x_world x') !! d = None /\
    (accepted = true -> exists entry, remembered_of (x_world x) !! d = Some entry /\ system_now (x_world x) < r_expires entry)).
  { unfold guard_recall in E. run_step E. injection E0 as <- <-. destruct (negb _); [done|]. run_step E. rewrite Ha in E0.
    injection E0 as <- <-. rewrite Hr in E. cbn [orb negb] in E. run_step E. injection E0 as <- <-. fold (remember_token g x) in E.
    rewrite Hl in E. replace (is_empty (remember_token g x)) with false in E by (by destruct (remember_token g x)).
    cbn [orb negb Nat.eqb] in E. run_step E. injection E0 as Ht <-. rewrite Hd in Ht. injection Ht as <-. run_step E.
    apply on_world_run in E0 as (w1 & Hc & ->). cbn [x_world with_request] in Hc.
    destruct (consume_law d (x_world x)) as (w2 & Ec & Hf & _). rewrite Ec in Hc. injection Hc as <- <-.
    assert (Hnone : remembered_of w2 !! d = None).
    { rewrite Hf. unfold remembered_consume. destruct (remembered_of (x_world x) !! d) eqn:El; [apply lookup_delete_eq|done]. }
    unfold remembered_consume in E. destruct (remembered_of (x_world x) !! d) as [entry|] eqn:El; cbn in E; [|by injection E as <- _ <-].
    destruct (r_expires entry <=? system_now (x_world x)) eqn:Ee; [by injection E as <- _ <-|]. run_step E.
    apply on_world_run in E0 as (w3 & Hi & ->). cbn in Hi. apply Hid in Hi.
    split; [|intros _; exists entry; split; [done|]; by apply Z.leb_gt in Ee].
    destruct a as [i|]; [|injection E as <- _ <-; cbn; by rewrite Hi]. destruct (bool_decide _); [|injection E as <- _ <-; cbn; by rewrite Hi].
    run_step E. injection E as <- _ <-. eapply login_forgets in E0; [done|done| |].
    all: unfold remember_token in *; cbn in *; by rewrite parse_cookies_idem. }
  destruct Hmain as [Hn Hacc]. split_and!; [done|done|]. intros y p r2 Hy Ht Hp Hay. unfold guard_recall.
  rewrite (eff_bind_Ok has_session _ y true y) by (unfold has_session; by rewrite Hp). cbn [negb].
  rewrite (eff_bind_Ok _ _ _ _ _ Hay). rewrite Hr. cbn [orb negb].
  erewrite eff_bind_Ok by reflexivity. fold (remember_token g y). rewrite Ht, Hl.
  replace (is_empty (remember_token g x)) with false by (by destruct (remember_token g x)). cbn [orb negb Nat.eqb].
  erewrite eff_bind_Ok by (unfold lift_result; by rewrite Hd).
  destruct (consume_law d (x_world y)) as (w2 & Ec & _). unfold remembered_consume in Ec. rewrite Hy, Hn in Ec. cbn in Ec.
  erewrite eff_bind_Ok by (unfold on_world; cbn; by rewrite Ec). by eexists.
Qed.
End Recall.

(** ** A concrete world *)

Definition returned {S A} (m : result A * S) : bool := match m.1 with Ok _ => true | _ => false end.

Lemma returned_run {S A} (m : result A * S) : returned m = true -> exists a s, m = (Ok a, s).
Proof. destruct m as [[a|e|] s]; [by exists a, s|done..]. Qed.

Record Demo := mkDemo { demo_sessions : gmap bytes Session; demo_remembered : Remembered; demo_seed : Z }.

#[local] Instance demo_random : RandomSource Demo := {|
  fill_random n w := (Ok (replicate n (chr (demo_seed w))), mkDemo (demo_sessions w) (demo_remembered w) (demo_seed w + 1))
|}.

#[local] Instance demo_store : SessionStore Demo := {|
  store_load id w := (Ok (demo_sessions w !! id), w);
  store_save s w := (Ok tt, mkDemo (<[session_id s := s]> (demo_sessions w)) (demo_remembered w) (demo_seed w));
  store_erase id w := (Ok tt, mkDemo (delete id (demo_sessions w)) (demo_remembered w) (demo_seed w))
|}.

#[local] Instance demo_clock : SystemClock Demo := {| system_now _ := 0 |}.

#[local] Instance demo_remember : RememberStore Demo := {|
  remember_put digest id expires w :=
    (Ok tt, mkDemo (demo_sessions w) (remembered_put 0 digest id expires (demo_remembered w)) (demo_seed w));
  remember_consume digest w :=
    let '(id, m) := remembered_consume 0 digest (demo_remembered w) in (Ok id, mkDemo (demo_sessions w) m (demo_seed w));
  remember_revoke digest w :=
    (Ok tt, mkDemo (demo_sessions w) (remembered_revoke digest (demo_remembered w)) (demo_seed w))
|}.

#[local] Instance demo_lawful : LawfulWorld Demo.
Proof.
  refine {| sessions_of := demo_sessions; remembered_of := demo_remembered |}.
  - intros n w r w' [= <- <-]. split_and!; [done|done|]. intros b [= <-]. apply length_replicate.
  - done.
  - intros s w. by eexists.
  - intros id w. by eexists.
  - intros digest id expires w. by eexists.
  - intros digest w. cbn. destruct (remembered_consume 0 digest (demo_remembered w)) as [id m] eqn:E. by eexists.
  - intros digest w. by eexists.
Defined.

#[local] Instance demo_crypto : Crypto := {|
  scrypt password salt := Some (take 32 (password ++ replicate 32 x00));
  sha256 text := Some (take 32 text)
|}.

#[local] Instance demo_crypto_lawful : LawfulCrypto.
Proof. split. intros password salt output [= <-]. rewrite length_take, length_app. cbn [length]. lia. Qed.

Lemma password_verifies_witness :
  let encoded := password_prefix ++ (replicate 16 x07 ≫= hex_pair) ++ lit "$" ++ hex (take 32 (lit "secret" ++ replicate 32 x00)) in
  needs_rehash encoded = false /\ password_verify (lit "secret") encoded = Ok true /\ password_verify (lit "guess") encoded = Ok false.
Proof.
  intros encoded.
  destruct (password_verifies (lit "secret") encoded (mkDemo ∅ ∅ 7) (mkDemo ∅ ∅ 8)) as (Hn & Hv & _); [reflexivity|].
  split_and!; [exact Hn|exact Hv|vm_compute; reflexivity].
Defined.

Definition demo_options : Options := mkOptions (lit "gungnir_session") (lit "/") None true lax.

Definition old_id : bytes := lit "0123456789abcdef0123456789abcdef0123456789abcdef0123456789abcdef".

Definition demo_request : Request :=
  match set_header (lit "cookie") (lit "gungnir_session=" ++ old_id ++ lit "; gungnir_remember=" ++ old_id)
          (make_request Http.post (lit "/login") [] true) with
  | Ok r => r
  | _ => make_request Http.post (lit "/login") [] true
  end.

Definition demo_exchange : Exchange Demo :=
  mkExchange demo_request None None [] [] (mkDemo {[old_id := make_session old_id]} {[hex (take 32 old_id) := mkRemember (lit "42") 10]} 7).

Definition flash_handler : eff (Exchange Demo) Response :=
  p ← session; _ ← change_session p (flash (lit "notice") (lit "saved")); mret (make_response 200 []).

Lemma flash_handler_keeps : keeps flash_handler.
Proof. unfold flash_handler. session_keeps_steps. Qed.

Lemma session_roundtrip_witness : exists response x' s',
  start_session demo_options flash_handler demo_exchange = (Ok response, x') /\ valid_session_id (session_id s') = true /\
  forall y response2 y', sessions_of (x_world y) = sessions_of (x_world x') -> presented demo_options y = session_id s' ->
    start_session demo_options flash_handler y = (Ok response2, y') -> exists u y1 y2 response3,
    flash_handler y1 = (Ok response3, y2) /\ session_id u = session_id s'.
Proof.
  destruct (returned_run (start_session demo_options flash_handler demo_exchange)) as (response & x' & E); [vm_compute; reflexivity|].
  destruct (session_roundtrip demo_options flash_handler flash_handler demo_exchange response x' flash_handler_keeps
    flash_handler_keeps E) as (p & s1 & s2 & s' & x1 & x2 & r0 & _ & _ & _ & _ & _ & Hv & _ & _ & _ & Hnext).
  exists response, x', s'. split_and!; [exact E|exact Hv|]. intros y response2 y' Hy Hp Ey.
  destruct (Hnext y response2 y' Hy Hp Ey) as (q & u & y1 & y2 & r3 & Hr & _ & _ & Hid & _). exists u, y1, y2, r3. by split.
Defined.

Definition ada : Identity := mkIdentity (lit "42") ∅ ∅.

Definition demo_guard : SessionGuard (W := Demo) :=
  mkGuard 1 (fun _ w => (Ok None, w)) (fun id w => (Ok (Some (mkIdentity id ∅ ∅)), w)) true (lit "_gungnir_auth_user")
    (lit "gungnir_remember") 3600 true.

(** A handler that logs somebody in through the context. *)
Definition login_handler : eff (Exchange Demo) Response :=
  c ← auth; context ← read_context c; context ← lift_result (context_login ada context); _ ← write_context c context;
  mret (make_response 200 []).

Lemma login_handler_keeps : keeps login_handler.
Proof. unfold login_handler. session_keeps_steps. Qed.

Lemma drawn_not_old t : drawn t -> t <> old_id.
Proof.
  intros (w & w' & E). unfold random_token in E. cbn in E. injection E as <- _. generalize (chr (demo_seed w)). intros b E.
  assert (H : forall b, (fun b => negb (bool_decide (replicate 32 b ≫= hex_pair = old_id))) b = true).
  { apply byte_forall. vm_compute. reflexivity. }
  specialize (H b). cbn beta in H. apply negb_true_iff, bool_decide_eq_false in H. by apply H.
Qed.

Lemma login_moves_session_witness : exists response x' s',
  start_session demo_options (authenticate_session (fun _ w => (Ok None, w)) (lit "_gungnir_auth_user") login_handler) demo_exchange
    = (Ok response, x') /\
  session_get (lit "_gungnir_auth_user") s' = lit "42" /\ sessions_of (x_world x') !! old_id = None.
Proof.
  destruct (returned_run (start_session demo_options
    (authenticate_session (fun _ w => (Ok None, w)) (lit "_gungnir_auth_user") login_handler) demo_exchange)) as (response & x' & E);
    [vm_compute; reflexivity|].
  assert (Hp : presented demo_options demo_exchange = old_id) by (vm_compute; reflexivity).
  destruct (login_moves_session demo_options (fun _ w => (Ok None, w)) (lit "_gungnir_auth_user") login_handler ada demo_exchange
    (make_session old_id) response x') as (s' & Hd & _ & Hk & _ & Hn).
  - exact login_handler_keeps.
  - vm_compute. reflexivity.
  - intros y c context r z Ey Hc Hx. unfold login_handler in Ey. repeat run_step Ey.
    unfold auth in E0. rewrite Hc in E0. injection E0 as <- <-. unfold read_context in E1. rewrite Hx in E1. injection E1 as <- <-.
    cbn in E2. injection E2 as <- <-. injection E3 as _ <-. injection Ey as _ <-. eexists. split.
    + cbn. apply list_lookup_insert_eq. by eapply lookup_lt_Some.
    + split; reflexivity.
  - exact E.
  - exists response, x', s'. rewrite Hp in Hn. split_and!; [exact E|exact Hk|exact (Hn (drawn_not_old _ Hd))].
Defined.

Definition attached_exchange : Exchange Demo :=
  mkExchange demo_request (Some 0%nat) None [make_session old_id] [] (x_world demo_exchange).

Lemma remember_once_witness : exists accepted r' x',
  guard_recall demo_guard (make_response 200 []) attached_exchange = (Ok (accepted, r'), x') /\
  remembered_of (x_world x') !! hex (take 32 old_id) = None.
Proof.
  destruct (returned_run (guard_recall demo_guard (make_response 200 []) attached_exchange)) as ([accepted r'] & x' & E);
    [vm_compute; reflexivity|].
  destruct (remember_once demo_guard (make_response 200 []) attached_exchange (hex (take 32 old_id)) accepted r' x') as (Hn & _).
  - reflexivity.
  - vm_compute. reflexivity.
  - vm_compute. reflexivity.
  - intros id w i w' [= _ <-]. reflexivity.
  - reflexivity.
  - exact E.
  - exists accepted, r', x'. by split.
Defined.

(** The token of that exchange is accepted. *)
Example recall_accepts :
  match (guard_recall demo_guard (make_response 200 []) attached_exchange).1 with Ok (accepted, _) => accepted | _ => false end = true.
Proof. vm_compute. reflexivity. Qed.
