(* ===== verification/Security.v ===== *)
(** * Security middleware ([src/http/security.cpp], [include/gungnir/http/security.hpp])

    Cross-origin requests, security headers, body limits, host validation, request
    identifiers, trusted proxies, rate limits and cross-site request forgery.  A middleware
    takes the rest of the chain and answers in its place or around it.  [request_timing],
    which only prints a duration, is left out. *)

From stdpp Require Import base list gmap.
From Stdlib Require Import ZArith Bool Lia.
From S2P Require Import Prelude Numeral Text Json Http Uploads Request Response SteadyClock RateLimit Session.

Local Open Scope Z_scope.

(** ** Texts *)

Definition csrf_safe_method (m : Method) : bool := bool_decide (m = get) || bool_decide (m = head) || bool_decide (m = options).

(** [std::tolower] in the C locale on every character. *)
Definition lowercase (value : bytes) : bytes := map ascii_lower value.

(** The loop of [split_csv]: nothing at all when an item is empty or there are too many. *)
Fixpoint split_items (room : nat) (items : list bytes) : option (list bytes) :=
  match items with
  | [] => Some []
  | item :: rest =>
      match room with
      | O => None
      | S room => if is_empty (trim item) then None else rest' ← split_items room rest; Some (trim item :: rest')
      end
  end.

Definition split_csv (value : bytes) (maximum : nat) : list bytes := default [] (split_items maximum (fields "," value)).

Definition csv_contains (csv candidate : bytes) : bool :=
  let expected := lowercase (trim candidate) in
  if is_empty expected then false
  else if bool_decide (trim csv = lit "*") then true
  else existsb (fun item => bool_decide (lowercase item = expected)) (split_csv csv 64).

Definition valid_port (value : bytes) : bool :=
  match from_chars_all 0 (2 ^ 32 - 1) value with
  | Some port => negb (is_empty value) && (0 <? port) && (port <=? 65535)
  | None => false
  end.

Definition ends_hyphen (label : bytes) : bool := bool_decide (last label = Some "-"%byte).

Definition host_label (label : bytes) : bool :=
  negb (is_empty label) && (length label <=? 63)%nat && negb (starts_with (lit "-") label) && negb (ends_hyphen label) &&
  forallb (fun c => isalnum c || (c =b? "-")) label.

(** A final point is dropped. *)
Definition drop_point (host : bytes) : bytes :=
  if bool_decide (last host = Some "."%byte) then removelast host else host.

Definition address_host (rest : bytes) : option bytes :=
  match until "]" rest with
  | (_, None) => None
  | (host, Some suffix) =>
      if is_empty host then None
      else if match suffix with [] => false | c :: port => negb (c =b? ":") || negb (valid_port port) end then None
      else if negb (forallb (fun c => isxdigit c || (c =b? ":") || (c =b? ".")) host) then None
      else Some (lowercase host)
  end.

Definition named_host (host : bytes) : option bytes :=
  if (253 <? length host)%nat || is_empty host then None
  else
    let host := drop_point host in
    if is_empty host then None
    else if forallb host_label (fields "." host) then Some (lowercase host) else None.

Definition canonical_host (input : bytes) : option bytes :=
  let input := trim input in
  if is_empty input || negb (valid_header_value input) || existsb (fun c => bool_decide (c ∈ lit "/" ++ [x5c] ++ lit "@")) input
  then None
  else
    match input with
    | c :: rest =>
        if c =b? "[" then address_host rest
        else
          match until ":" input with
          | (host, None) => named_host host
          | (host, Some port) => if existsb (byte_eqb ":") port then None else if valid_port port then named_host host else None
          end
    | [] => None
    end.

Definition request_id_char (c : byte) : bool :=
  isalnum c || (c =b? "-") || (c =b? "_") || (c =b? ".") || (c =b? ":") || (c =b? "/").

Definition valid_request_id (value : bytes) : bool :=
  negb (is_empty value || (128 <? length value)%nat || negb (valid_header_value value)) && forallb request_id_char value.

(** ** Requests and responses *)

Definition set_secure (value : bool) (r : Request) : Request :=
  mkRequest (method_ r) (target_ r) (path_ r) (body_ r) (client_ip_ r) value (headers_ r)
    (parameters_ r) (query_ r) (form_ r) (files_ r) (multipart_limits_ r) (cookies_ r) (json_ r)
    (body_parsed_ r) (cookies_parsed_ r).

Definition put_header (name : string) (value : bytes) (r : Response) : result Response := set_response_header (lit name) value r.

Definition append_vary (value : bytes) (r : Response) : result Response :=
  let existing := response_header r (lit "vary") in
  if is_empty existing then put_header "vary" value r
  else if contains (lowercase value) (lowercase existing) then Ok r
  else put_header "vary" (existing ++ lit ", " ++ value) r.

(** ** Cross-origin requests *)

Record CorsOptions := mkCors {
  allow_origin : bytes;
  allow_origins : gset bytes;
  allow_methods : bytes;
  allow_headers : bytes;
  allow_credentials : bool;
  cors_max_age : Z
}.

Definition cors_origin (o : CorsOptions) (presented : bytes) : option bytes :=
  if is_empty presented then None
  else if negb (bool_decide (allow_origins o = ∅)) then (if bool_decide (presented ∈ allow_origins o) then Some presented else None)
  else if bool_decide (allow_origin o = lit "*") then Some (lit "*")
  else if bool_decide (allow_origin o = presented) then Some presented
  else None.

Definition apply_cors_headers (o : CorsOptions) (origin : bytes) (preflight : bool) (r : Response) : result Response :=
  r ← put_header "access-control-allow-origin" origin r;
  r ← (if allow_credentials o then put_header "access-control-allow-credentials" (lit "true") r else Ok r);
  r ← (if negb (bool_decide (origin = lit "*")) then append_vary (lit "Origin") r else Ok r);
  if negb preflight then Ok r
  else
    r ← put_header "access-control-allow-methods" (allow_methods o) r;
    r ← put_header "access-control-allow-headers" (allow_headers o) r;
    r ← put_header "access-control-max-age" (to_string (cors_max_age o)) r;
    r ← append_vary (lit "Access-Control-Request-Method") r;
    append_vary (lit "Access-Control-Request-Headers") r.

Definition cors_check (o : CorsOptions) : result unit :=
  if (cors_max_age o <? 0) || negb (valid_header_value (allow_methods o)) || negb (valid_header_value (allow_headers o)) ||
     negb (valid_header_value (allow_origin o))
  then Throw (invalid_argument "Invalid CORS configuration")
  else if allow_credentials o && (bool_decide (allow_origins o = ∅) && bool_decide (allow_origin o = lit "*"))
  then Throw (invalid_argument "Credentialed CORS cannot use a wildcard origin")
  else if existsb (fun origin => is_empty origin || bool_decide (origin = lit "*") || negb (valid_header_value origin))
            (elements (allow_origins o))
  then Throw (invalid_argument "Invalid CORS origin")
  else Ok tt.

(** The answer to a preflight request. *)
Definition preflight_answer (o : CorsOptions) (r : Request) : result Response :=
  match cors_origin o (request_header r (lit "origin")) with
  | None => text (lit "CORS Origin Denied") 403
  | Some origin =>
      if negb (csv_contains (allow_methods o) (request_header r (lit "access-control-request-method")))
      then text (lit "CORS Method Denied") 403
      else
        let requested := request_header r (lit "access-control-request-headers") in
        let headers := split_csv requested 64 in
        if negb (is_empty requested) && (bool_decide (headers = []) || negb (forallb (csv_contains (allow_headers o)) headers))
        then text (lit "CORS Headers Denied") 403
        else apply_cors_headers o origin true no_content
  end.

Definition is_preflight (r : Request) : bool :=
  bool_decide (method_ r = options) && negb (is_empty (request_header r (lit "origin"))) &&
  negb (is_empty (request_header r (lit "access-control-request-method"))).

Section Middleware.
  Context {W : Type}.

Abbreviation HX := (eff (Exchange W)).
Abbreviation Middleware := (HX Response -> HX Response).

Definition current_request : HX Request := fun x => (Ok (x_request x), x).

Definition cors_handle (o : CorsOptions) : Middleware := fun next =>
  r ← current_request;
  if is_preflight r then lift_result (preflight_answer o r)
  else
    response ← next;
    match cors_origin o (request_header r (lit "origin")) with
    | Some origin => lift_result (apply_cors_headers o origin false response)
    | None => mret response
    end.

Definition cors (o : CorsOptions) : result Middleware := _ ← cors_check o; Ok (cors_handle o).

(** ** Headers, limits and hosts *)

Definition security_headers : Middleware := fun next =>
  response ← next;
  response ← lift_result (put_header "x-content-type-options" (lit "nosniff") response);
  response ← lift_result (put_header "x-frame-options" (lit "DENY") response);
  response ← lift_result (put_header "referrer-policy" (lit "strict-origin-when-cross-origin") response);
  response ← lift_result (put_header "content-security-policy" (lit "default-src 'self'") response);
  r ← current_request;
  if secure_ r then lift_result (put_header "strict-transport-security" (lit "max-age=31536000") response) else mret response.

Definition body_limit (limit : Z) : Middleware := fun next =>
  r ← current_request;
  if limit <? Z.of_nat (length (body_ r)) then lift_result (text (lit "Payload Too Large") 413) else next.

Fixpoint canonical_hosts (hosts : list bytes) : result (gset bytes) :=
  match hosts with
  | [] => Ok ∅
  | value :: rest =>
      match canonical_host value with
      | None => Throw (invalid_argument "Invalid allowed Host value")
      | Some host => allowed ← canonical_hosts rest; Ok ({[host]} ∪ allowed)
      end
  end.

Definition host_handle (allowed : gset bytes) : Middleware := fun next =>
  r ← current_request;
  match canonical_host (request_header r (lit "host")) with
  | None => lift_result (text (lit "Invalid Host") 400)
  | Some host =>
      if negb (bool_decide (allowed = ∅)) && negb (bool_decide (host ∈ allowed))
      then lift_result (text (lit "Invalid Host") 400) else next
  end.

Definition host_validation (hosts : list bytes) : result Middleware :=
  allowed ← canonical_hosts hosts; Ok (host_handle allowed).

Definition request_id `{RandomSource W} : Middleware := fun next =>
  r ← current_request;
  let presented := request_header r (lit "x-request-id") in
  id ← (if valid_request_id presented then mret presented
        else token ← on_world (random_token 16); mret (lit "gungnir-" ++ token));
  response ← next;
  lift_result (put_header "x-request-id" id response).

(** ** Trusted proxies *)

Record TrustedProxyOptions := mkProxies { proxies : gset bytes; trust_forwarded_proto : bool }.

Fixpoint normalized_proxies (l : list bytes) : result (gset bytes) :=
  match l with
  | [] => Ok ∅
  | proxy :: rest =>
      let normalized := trim proxy in
      if is_empty normalized || existsb (byte_eqb ",") normalized || negb (valid_header_value normalized)
      then Throw (invalid_argument "Invalid trusted proxy")
      else others ← normalized_proxies rest; Ok ({[normalized]} ∪ others)
  end.

(** From the nearest hop outwards: the walk ends at the first address that is no proxy. *)
Fixpoint walk_chain (trusted : gset bytes) (peer client : bytes) (hops : list bytes) : bytes :=
  match hops with
  | [] => client
  | hop :: rest =>
      if negb (bool_decide (client ∈ trusted)) then client
      else if (255 <? length hop)%nat || negb (valid_header_value hop) then peer
      else walk_chain trusted peer hop rest
  end.

Definition forwarded_client (trusted : gset bytes) (r : Request) : Request :=
  let peer := client_ip_ r in
  let forwarded := request_header r (lit "x-forwarded-for") in
  if negb (is_empty forwarded) then
    match split_csv forwarded 32 with
    | [] => r
    | chain =>
        let client := walk_chain trusted peer peer (rev chain) in
        if bool_decide (client = peer) then r else set_client_ip client r
    end
  else
    let real_ip := trim (request_header r (lit "x-real-ip")) in
    if negb (is_empty real_ip) && (length real_ip <=? 255)%nat && valid_header_value real_ip then set_client_ip real_ip r else r.

Definition forwarded_proto (r : Request) : Request :=
  match last (split_csv (request_header r (lit "x-forwarded-proto")) 32) with
  | None => r
  | Some value =>
      if bool_decide (lowercase value = lit "https") then set_secure true r
      else if bool_decide (lowercase value = lit "http") then set_secure false r
      else r
  end.

Definition proxied_request (o : TrustedProxyOptions) (r : Request) : Request :=
  let peer := client_ip_ r in
  if is_empty peer || negb (bool_decide (peer ∈ proxies o)) then r
  else
    let r := forwarded_client (proxies o) r in
    if trust_forwarded_proto o then forwarded_proto r else r.

Definition proxies_handle (o : TrustedProxyOptions) : Middleware := fun next =>
  _ ← on_request (modify (proxied_request o));
  next.

Definition trusted_proxies (l : list bytes) (trust_proto : bool) : result Middleware :=
  trusted ← normalized_proxies l; Ok (proxies_handle (mkProxies trusted trust_proto)).

(** ** Rate limits *)

Definition rate_key (namespace_key client : bytes) : bytes :=
  to_string (Z.of_nat (length namespace_key)) ++ lit ":" ++ namespace_key ++ client.

Definition rate_client (r : Request) : bytes :=
  if is_empty (client_ip_ r) then lit "unknown-client" else client_ip_ r.

Section RateLimits.
  Context `{RateLimitStore W, LongDouble} (steady_now : W -> Z).

Definition consume_now (key : bytes) (requests window : Z) : eff W RateLimitDecision := fun w =>
  consume (steady_now w) key requests window w.

Definition rate_handle (requests window : Z) (namespace_key : bytes) : Middleware := fun next =>
  r ← current_request;
  decision ← on_world (consume_now (rate_key namespace_key (rate_client r)) requests window);
  if negb (allowed decision) then
    response ← lift_result (text (lit "Too Many Requests") 429);
    response ← lift_result (put_header "retry-after" (to_string (retry_after decision)) response);
    response ← lift_result (put_header "x-ratelimit-limit" (to_string requests) response);
    lift_result (put_header "x-ratelimit-remaining" (lit "0") response)
  else
    response ← next;
    response ← lift_result (put_header "x-ratelimit-limit" (to_string requests) response);
    lift_result (put_header "x-ratelimit-remaining" (to_string (remaining decision)) response).

(** [rate_limit] with a store; a null store cannot be given here. *)
Definition rate_limit (now requests window : Z) (namespace_key : bytes) : result Middleware :=
  _ ← validate_rate_limit now requests window;
  if is_empty namespace_key then Throw (invalid_argument "Rate limit namespace cannot be empty")
  else Ok (rate_handle requests window namespace_key).
End RateLimits.

(** ** Cross-site request forgery *)

Record CsrfOptions := mkCsrf { csrf_session_key : bytes; csrf_header : bytes; csrf_field : bytes }.

Definition validate_csrf_options (o : CsrfOptions) : result unit :=
  if is_empty (csrf_session_key o) then Throw (invalid_argument "CSRF session key cannot be empty")
  else if negb (valid_header_name (csrf_header o)) then Throw (invalid_argument "CSRF header name is invalid")
  else if is_empty (csrf_field o) then Throw (invalid_argument "CSRF form field cannot be empty")
  else Ok tt.

Definition presented_csrf_token (o : CsrfOptions) : HX bytes :=
  r ← current_request;
  let value := request_header r (csrf_header o) in
  if negb (is_empty value) then mret value
  else fields ← on_request Request.form; mret (default [] (fields !! csrf_field o)).

Definition no_session {A} : HX A := throw (logic_error "CSRF protection requires session middleware to run first").

Definition csrf_token `{RandomSource W} (o : CsrfOptions) : HX bytes :=
  _ ← lift_result (validate_csrf_options o);
  attached ← has_session;
  if negb attached then no_session
  else
    p ← session;
    s ← read_session p;
    _ ← (if negb (session_has (csrf_session_key o) s) || is_empty (session_get (csrf_session_key o) s)
         then token ← on_world (random_token 32); change_session p (session_put (csrf_session_key o) token)
         else mret tt);
    s ← read_session p;
    mret (session_get (csrf_session_key o) s).

(** Whether an unsafe request may pass. *)
Definition csrf_admits (o : CsrfOptions) (s : Session) : HX bool :=
  let expected := session_get (csrf_session_key o) s in
  presented ← presented_csrf_token o;
  mret (negb (is_empty expected || is_empty presented || negb (constant_time_equal expected presented))).

(** The rest of the chain, and a new token when the session got a new identifier. *)
Definition csrf_pass `{RandomSource W} (o : CsrfOptions) (p : nat) (initial_id : bytes) (next : HX Response) : HX Response :=
  response ← next;
  s ← read_session p;
  _ ← (if negb (bool_decide (session_id s = initial_id)) || regenerated s
       then token ← on_world (random_token 32); change_session p (session_put (csrf_session_key o) token)
       else mret tt);
  mret response.

Definition csrf_handle `{RandomSource W} (o : CsrfOptions) : Middleware := fun next =>
  attached ← has_session;
  if negb attached then no_session
  else
    p ← session;
    s ← read_session p;
    r ← current_request;
    if csrf_safe_method (method_ r) then _ ← csrf_token o; csrf_pass o p (session_id s) next
    else
      admitted ← csrf_admits o s;
      if (admitted : bool) then csrf_pass o p (session_id s) next else lift_result (text (lit "Page Expired") 419).

Definition csrf `{RandomSource W} (o : CsrfOptions) : result Middleware :=
  _ ← validate_csrf_options o; Ok (csrf_handle o).
End Middleware.
