(* ===== verification/SecurityFacts.v ===== *)
(** The security middleware: forged requests do not reach the handlers, other origins get no
    access, clients behind proxies cannot choose their address, and unknown hosts are
    refused. *)

From stdpp Require Import base list gmap.
From Stdlib Require Import ZArith Bool Lia.
From S2P Require Import Prelude Numeral Text Json Http Uploads Request Response SteadyClock Session Security SessionFacts GuardFacts.

Local Open Scope Z_scope.

(** ** Headers *)

Lemma put_header_Ok name value r r' : put_header name value r = Ok r' -> forall n,
  response_header r' (lit n) = if decide (normalize_header_name (lit name) = normalize_header_name (lit n)) then value else response_header r (lit n).
Proof.
  unfold put_header, set_response_header. destruct (_ || _); [done|]. intros [= <-] n. unfold response_header, header. cbn [response_headers].
  change Headers with (gmap bytes bytes). rewrite lookup_insert. by case_decide.
Qed.

Lemma put_header_same name value r r' : put_header name value r = Ok r' -> response_header r' (lit name) = value.
Proof. intros H. rewrite (put_header_Ok _ _ _ _ H). by rewrite decide_True. Qed.

Lemma put_header_other name value r r' n : put_header name value r = Ok r' ->
  normalize_header_name (lit name) <> normalize_header_name (lit n) -> response_header r' (lit n) = response_header r (lit n).
Proof. intros H Hn. rewrite (put_header_Ok _ _ _ _ H). by rewrite decide_False. Qed.

(** ** Forged requests *)

Section Csrf.
  Context {W : Type} `{RandomSource W}.

Abbreviation HX := (eff (Exchange W)).

Lemma presented_run o (x : Exchange W) r x1 : presented_csrf_token o x = (r, x1) -> x1 = with_request (x_request x1) x.
Proof.
  unfold presented_csrf_token, current_request, mbind, eff_bind. destruct (negb _).
  - intros [= _ <-]. by destruct x.
  - unfold on_request. destruct (form (x_request x)) as [[f|e|] q]; by intros [= _ <-].
Qed.

Lemma text_status body status r : text (lit body) status = Ok r -> response_status r = status.
Proof. unfold text, set_response_header. destruct (_ || _); [done|]. by intros [= <-]. Qed.

(** C9. A forged request does not reach the handlers: an unsafe request goes on only when its
    header or its form carries the token of the session; otherwise the outcome does not depend
    on the handlers, changes nothing but the caches of the request, and is no answer but Page
    Expired.  When the handlers gave the session a new identifier, its token is drawn anew. *)
Theorem csrf_enforced o (x : Exchange W) p s :
  x_session x = Some p -> x_sessions x !! p = Some s -> csrf_safe_method (method_ (x_request x)) = false ->
  (exists x1, x1 = with_request (x_request x1) x /\
    ((exists t, presented_csrf_token o x = (Ok t, x1) /\ t <> [] /\ session_get (csrf_session_key o) s = t /\
       forall next, csrf_handle o next x = csrf_pass o p (session_id s) next x1) \/
     (exists r, (forall next, csrf_handle o next x = (r, x1)) /\ forall response, r = Ok response -> response_status response = 419))) /\
  forall id (next : HX Response) y response z, keeps next -> is_Some (x_sessions y !! p) -> csrf_pass o p id next y = (Ok response, z) ->
    exists s', x_sessions z !! p = Some s' /\ (session_id s' = id \/ drawn (session_get (csrf_session_key o) s')).
Proof.
  intros Hx Hs Hm. split.
  - destruct (presented_csrf_token o x) as [r x1] eqn:Et. exists x1. split; [by eapply presented_run|].
    assert (Hstep : forall next, csrf_handle o next x =
      (admitted ← csrf_admits o s;
       if (admitted : bool) then csrf_pass o p (session_id s) next else lift_result (text (lit "Page Expired") 419)) x).
    { intros next. unfold csrf_handle. rewrite (eff_bind_Ok has_session _ x true x) by (unfold has_session; by rewrite Hx).
      cbn [negb]. rewrite (eff_bind_Ok session _ x p x) by (unfold session; by rewrite Hx). rewrite (bind_read p s) by done.
      rewrite (eff_bind_Ok current_request _ x (x_request x) x) by done. by rewrite Hm. }
    unfold csrf_admits, mbind, eff_bind, mret, eff_ret in Hstep. rewrite Et in Hstep. destruct r as [t|e|].
    + destruct (is_empty _ || is_empty t || _) eqn:Ea; cbn [negb] in Hstep.
      * right. exists (text (lit "Page Expired") 419). split; [exact Hstep|]. intros response Hr. by eapply text_status.
      * left. exists t. apply orb_false_iff in Ea as [Ea Ec]. apply orb_false_iff in Ea as [_ Ee].
        apply negb_false_iff, constant_time_equal_spec in Ec. split_and!; [done|by intros -> |done|exact Hstep].
    + right. exists (Throw e). by split.
    + right. exists NoFuel. by split.
  - intros id next y response z Hk Hy E. unfold csrf_pass in E. run_step E.
    destruct (Hk _ _ _ E0 p Hy) as [s1 Hs1]. rewrite (bind_read p s1) in E by done. run_step E. injection E as _ <-.
    destruct (negb _ || _) eqn:Ed.
    + run_step E1. apply on_world_run in E as (w & Ht & ->). injection E1 as _ <-. exists (session_put (csrf_session_key o) a1 s1).
      cbn. rewrite list_lookup_alter_eq, Hs1. split; [done|right]. exists (x_world y0), w. unfold session_get. cbn.
      by rewrite lookup_insert_eq.
    + injection E1 as _ <-. exists s1. split; [done|left]. apply orb_false_iff in Ed as [Ed _].
      by apply negb_false_iff, bool_decide_eq_true in Ed.
Qed.
End Csrf.

(** ** Addresses behind proxies *)

Lemma fields_cons stop s : exists piece rest, fields stop s = piece :: rest.
Proof. rewrite fields_until. destruct (until stop s) as [piece [rest|]]; eauto. Qed.

Lemma fields_app stop a b : fields stop (a ++ stop :: b) = fields stop a ++ fields stop b.
Proof.
  induction a as [|c a IH]; cbn [app fields].
  - by rewrite byte_eqb_refl.
  - rewrite IH. destruct (c =b? stop); [done|]. by destruct (fields_cons stop a) as (piece & rest & ->).
Qed.

Lemma split_items_trim room items l : split_items room items = Some l -> l = map trim items.
Proof.
  revert room l. induction items as [|item items IH]; intros [|room] l; cbn; try by intros [= <-].
  destruct (is_empty _); [done|]. destruct (split_items room items) as [l'|] eqn:E; cbn; [|done].
  intros [= <-]. f_equal. by eapply IH.
Qed.

Lemma split_items_total room items : (length items <= room)%nat -> Forall (fun i => is_empty (trim i) = false) items ->
  split_items room items = Some (map trim items).
Proof.
  revert room. induction items as [|item items IH]; intros [|room] Hl Hf; cbn in Hl; try (done || lia).
  apply Forall_cons in Hf as [Hi Hf]. cbn [split_items]. rewrite Hi, IH by (done || lia). done.
Qed.

(** The walk passes the proxies and ends at the first other hop, whatever comes further out. *)
Lemma walk_to_client trusted peer start seen client rest :
  start ∈ trusted -> Forall (fun h => h ∈ trusted /\ (length h <= 255)%nat /\ valid_header_value h = true) seen ->
  client ∉ trusted -> (length client <= 255)%nat -> valid_header_value client = true ->
  walk_chain trusted peer start (seen ++ client :: rest) = client.
Proof.
  intros Hs Hf Hn Hl Hv. revert start Hs. induction Hf as [|h seen (Hh & Hl' & Hv') Hf IH]; intros start Hs; cbn [app walk_chain].
  - rewrite (bool_decide_eq_true_2 (start ∈ trusted)) by done. cbn [negb]. rewrite (proj2 (Nat.ltb_ge _ _)), Hv by lia. cbn [negb orb].
    destruct rest as [|h rest]; [done|]. cbn [walk_chain]. by rewrite (bool_decide_eq_false_2 (client ∈ trusted)).
  - rewrite (bool_decide_eq_true_2 (start ∈ trusted)) by done. cbn [negb]. rewrite (proj2 (Nat.ltb_ge _ _)), Hv' by lia. cbn [negb orb].
    by apply IH.
Qed.

Lemma proto_client r : client_ip_ (forwarded_proto r) = client_ip_ r.
Proof. unfold forwarded_proto. destruct (last _); [|done]. by repeat case_bool_decide. Qed.

Lemma forwarded_client_ip trusted r chain : is_empty (request_header r (lit "x-forwarded-for")) = false ->
  split_csv (request_header r (lit "x-forwarded-for")) 32 = chain -> chain <> [] ->
  client_ip_ (forwarded_client trusted r) = walk_chain trusted (client_ip_ r) (client_ip_ r) (rev chain).
Proof.
  intros He Hc Hn. unfold forwarded_client. rewrite He, Hc. cbn [negb]. destruct chain; [done|]. cbv zeta. by case_bool_decide.
Qed.

(** C17. A client behind proxies that append the address they saw cannot choose its address.
    Without a trusted peer the request stays as it is. With one, the address is the one the
    outermost proxy saw; text a client put before the list can at most spoil the list (by
    an empty item, or by more than 32 items), and then the address is the peer's: it is
    never taken from that text. Without a list it is what the peer says in [X-Real-IP],
    when that can be an address, and else the peer's own. *)
Theorem proxies_unspoofable o (r : Request) :
  (client_ip_ r ∉ proxies o -> proxied_request o r = r) /\
  (client_ip_ r ∈ proxies o -> client_ip_ r <> [] -> request_header r (lit "x-forwarded-for") = [] ->
     let real_ip := trim (request_header r (lit "x-real-ip")) in
     client_ip_ (proxied_request o r) =
       if negb (is_empty real_ip) && (length real_ip <=? 255)%nat && valid_header_value real_ip then real_ip else client_ip_ r) /\
  forall tail hop seen, client_ip_ r ∈ proxies o -> client_ip_ r <> [] ->
    fields "," tail = hop :: seen -> trim hop ∉ proxies o ->
    Forall (fun h => (length (trim h) <= 255)%nat /\ valid_header_value (trim h) = true /\ trim h <> []) (hop :: seen) ->
    Forall (fun h => trim h ∈ proxies o) seen ->
    (request_header r (lit "x-forwarded-for") = tail -> (length (hop :: seen) <= 32)%nat -> client_ip_ (proxied_request o r) = trim hop) /\
    forall attack, request_header r (lit "x-forwarded-for") = attack ++ lit "," ++ tail ->
      client_ip_ (proxied_request o r) = trim hop \/
      client_ip_ (proxied_request o r) = client_ip_ r /\ split_csv (attack ++ lit "," ++ tail) 32 = [].
Proof.
  unfold proxied_request. split; [intros Hn; rewrite (bool_decide_eq_false_2 (client_ip_ r ∈ _)) by done; cbn; by rewrite orb_true_r|].
  assert (Hproto : forall q, client_ip_ (if trust_forwarded_proto o then forwarded_proto q else q) = client_ip_ q).
  { intros q. destruct (trust_forwarded_proto o); [apply proto_client|done]. }
  assert (Hpeer : client_ip_ r <> [] -> is_empty (client_ip_ r) = false) by (by destruct (client_ip_ r)).
  split.
  { intros Hp Hne Hh. rewrite Hpeer, (bool_decide_eq_true_2 (client_ip_ r ∈ _)) by done. cbn [orb negb].
    rewrite Hproto. unfold forwarded_client. rewrite Hh. cbn [is_empty negb]. cbv zeta. by destruct (_ && _). }
  intros tail hop seen Hp Hne Ht Hhop Hok Hseen.
  rewrite Hpeer, (bool_decide_eq_true_2 (client_ip_ r ∈ _)) by done.
  cbn [orb negb]. rewrite Hproto. assert (Hwalk : forall before, walk_chain (proxies o) (client_ip_ r) (client_ip_ r) (rev (before ++ trim hop :: map trim seen)) = trim hop).
  { intros before. rewrite rev_app_distr. cbn [rev]. rewrite <-app_assoc. apply Forall_cons in Hok as [(Hl & Hv & _) Hok].
    apply walk_to_client; try done. apply Forall_rev, Forall_map.
    eapply Forall_impl; [exact (proj2 (Forall_and _ _) (conj Hseen Hok))|]. intros h; cbn; tauto. }
  split.
  - intros Hh Hlen. assert (Hc : split_csv tail 32 = map trim (hop :: seen)).
    { unfold split_csv. rewrite Ht, split_items_total; [done|done|]. eapply Forall_impl; [exact Hok|]. intros h (_ & _ & Hh').
      by destruct (trim h). }
    erewrite forwarded_client_ip; [| |rewrite Hh; exact Hc|done].
    + exact (Hwalk []).
    + rewrite Hh. destruct tail; [|done]. injection Ht as <- <-. apply Forall_cons in Hok as [(_ & _ & Hno) _]. by destruct Hno.
  - intros attack Hh. destruct (split_csv (request_header r (lit "x-forwarded-for")) 32) as [|c cs] eqn:Hc.
    + right. split; [|by rewrite Hh in Hc]. unfold forwarded_client. rewrite Hc, Hh. by destruct attack.
    + left. erewrite forwarded_client_ip; [|rewrite Hh; by destruct attack|exact Hc|done].
      unfold split_csv in Hc. destruct (split_items _ _) as [l|] eqn:El; [|done]. apply split_items_trim in El. cbn in Hc. subst l.
      rewrite Hh in Hc. change (lit "," ++ tail) with (("," : byte) :: tail) in Hc. rewrite fields_app, map_app, Ht in Hc. rewrite <-Hc. apply Hwalk.
Qed.

Definition edge_proxies : TrustedProxyOptions := mkProxies {[lit "10.0.0.1"; lit "10.0.0.2"]} false.

Definition proxied_example (forwarded : string) : Request :=
  set_client_ip (lit "10.0.0.1")
    (match set_header (lit "x-forwarded-for") (lit forwarded) (make_request Http.get (lit "/") [] false) with
     | Ok r => r
     | _ => make_request Http.get (lit "/") [] false
     end).

Lemma proxies_unspoofable_witness :
  client_ip_ (proxied_request edge_proxies (proxied_example "198.51.100.7, 10.0.0.2")) = lit "198.51.100.7" /\
  (client_ip_ (proxied_request edge_proxies (proxied_example "127.0.0.1,198.51.100.7, 10.0.0.2")) = lit "198.51.100.7" \/
   client_ip_ (proxied_request edge_proxies (proxied_example "127.0.0.1,198.51.100.7, 10.0.0.2")) = lit "10.0.0.1" /\
   split_csv (lit "127.0.0.1" ++ lit "," ++ lit "198.51.100.7, 10.0.0.2") 32 = []).
Proof.
  assert (Hok : Forall (fun h => (length (trim h) <= 255)%nat /\ valid_header_value (trim h) = true /\ trim h <> [])
    [lit "198.51.100.7"; lit " 10.0.0.2"]) by by_decide.
  assert (Hp : Forall (fun h => trim h ∈ proxies edge_proxies) [lit " 10.0.0.2"]) by by_decide.
  assert (Hn : trim (lit "198.51.100.7") ∉ proxies edge_proxies) by by_decide.
  split.
  - apply (proj2 (proj2 (proxies_unspoofable edge_proxies (proxied_example "198.51.100.7, 10.0.0.2")))
      (lit "198.51.100.7, 10.0.0.2") (lit "198.51.100.7") [lit " 10.0.0.2"]); try assumption; try (vm_compute; reflexivity); try by_decide.
  - apply (proj2 (proj2 (proxies_unspoofable edge_proxies (proxied_example "127.0.0.1,198.51.100.7, 10.0.0.2")))
      (lit "198.51.100.7, 10.0.0.2") (lit "198.51.100.7") [lit " 10.0.0.2"]) with (attack := lit "127.0.0.1"); try assumption;
      try (vm_compute; reflexivity); by_decide.
Defined.

(** ** Other origins *)

Definition acao : bytes := lit "access-control-allow-origin".
Definition acac : bytes := lit "access-control-allow-credentials".

Lemma cors_origin_grants o presented origin : cors_check o = Ok tt -> cors_origin o presented = Some origin ->
  origin <> [] /\
  (origin = presented /\ (presented ∈ allow_origins o \/ allow_origins o = ∅ /\ allow_origin o = presented) /\
     (presented = lit "*" -> allow_credentials o = false) \/
   origin = lit "*" /\ allow_origins o = ∅ /\ allow_origin o = lit "*" /\ allow_credentials o = false).
Proof.
  unfold cors_check, cors_origin. destruct (_ || _); [done|]. destruct (allow_credentials o && _) eqn:Ec; [done|].
  destruct (existsb _ _) eqn:Ee; [done|]. intros _. destruct presented as [|c presented]; [done|]. cbn [is_empty].
  set (p := c :: presented). assert (Hp : p <> []) by done. clearbody p.
  destruct (bool_decide (allow_origins o = ∅)) eqn:En; cbn [negb].
  - apply bool_decide_eq_true in En. case_bool_decide as Hs.
    + intros [= <-]. split; [done|]. right. rewrite andb_true_l, andb_true_r in Ec. done.
    + case_bool_decide as Ha; [|done]. intros [= <-]. split; [done|]. left. split_and!; [done|by right|]. intros ->. by destruct Hs.
  - destruct (bool_decide (p ∈ _)) eqn:Hin; [|done]. apply bool_decide_eq_true in Hin. intros [= <-]. split; [done|]. left. split_and!; [done|by left|]. intros ->.
    assert (Ht : existsb (fun origin => is_empty origin || bool_decide (origin = lit "*") || negb (valid_header_value origin))
      (elements (allow_origins o)) = true); [|congruence].
    apply existsb_exists. exists (lit "*"). split; [by apply list_elem_of_In, elem_of_elements|done].
Qed.

Ltac put_step H :=
  match type of H with
  | (_ ≫= _) = Ok _ => let r := fresh "r" in let E := fresh "E" in apply bind_Ok in H; destruct H as (r & E & H)
  end.

Lemma append_vary_other value r r' n : append_vary value r = Ok r' ->
  normalize_header_name (lit "vary") <> normalize_header_name (lit n) -> response_header r' (lit n) = response_header r (lit n).
Proof.
  unfold append_vary. intros E Hn. destruct (is_empty _); [by eapply put_header_other|]. destruct (contains _ _); [by injection E as <-|].
  by eapply put_header_other.
Qed.

Lemma put_header_status name value r r' : put_header name value r = Ok r' -> response_status r' = response_status r.
Proof. unfold put_header, set_response_header. destruct (_ || _); [done|]. by intros [= <-]. Qed.

Lemma append_vary_status value r r' : append_vary value r = Ok r' -> response_status r' = response_status r.
Proof.
  unfold append_vary. destruct (is_empty _); [apply put_header_status|]. destruct (contains _ _); [by intros [= <-]|].
  apply put_header_status.
Qed.

(** The headers a granted origin leads to. *)
Lemma apply_cors_Ok o origin preflight r r' : apply_cors_headers o origin preflight r = Ok r' ->
  response_header r' acao = origin /\ response_status r' = response_status r /\
  (response_header r' (lit "access-control-allow-credentials") =
     if allow_credentials o then lit "true" else response_header r (lit "access-control-allow-credentials")).
Proof.
  unfold apply_cors_headers. intros H. put_step H. put_step H. put_step H.
  assert (H1 : response_header r2 acao = origin /\ response_status r2 = response_status r /\
    response_header r2 (lit "access-control-allow-credentials") =
      if allow_credentials o then lit "true" else response_header r (lit "access-control-allow-credentials")).
  { assert (Hc : response_header r1 acao = origin /\ response_status r1 = response_status r /\
      response_header r1 (lit "access-control-allow-credentials") =
        if allow_credentials o then lit "true" else response_header r (lit "access-control-allow-credentials")).
    { destruct (allow_credentials o).
      - rewrite (put_header_same _ _ _ _ E0), (put_header_status _ _ _ _ E0), (put_header_status _ _ _ _ E). unfold acao.
        rewrite (put_header_other _ _ _ _ "access-control-allow-origin" E0) by done. split_and!; [by eapply put_header_same|done..].
      - injection E0 as <-. rewrite (put_header_status _ _ _ _ E). split_and!; [by eapply put_header_same|done|by eapply put_header_other]. }
    destruct (negb _); [|by injection E1 as <-]. unfold acao in *.
    by rewrite (append_vary_status _ _ _ E1), !(append_vary_other _ _ _ _ E1). }
  destruct (negb preflight); [by injection H as <-|]. do 4 put_step H. unfold acao in *.
  rewrite !(append_vary_other _ _ _ _ H), (append_vary_status _ _ _ H) by done.
  rewrite !(append_vary_other _ _ _ _ E5), (append_vary_status _ _ _ E5) by done.
  rewrite !(put_header_other _ _ _ _ _ E4), (put_header_status _ _ _ _ E4) by done.
  rewrite !(put_header_other _ _ _ _ _ E3), (put_header_status _ _ _ _ E3) by done.
  by rewrite !(put_header_other _ _ _ _ _ E2), (put_header_status _ _ _ _ E2).
Qed.

Lemma refusal body status r : text (lit body) status = Ok r ->
  response_header r acao = [] /\ response_header r acac = [] /\ response_status r = status.
Proof. unfold text, set_response_header. destruct (_ || _); [done|]. by intros [= <-]. Qed.

Section Cors.
  Context {W : Type}.

Abbreviation HX := (eff (Exchange W)).

(** What an answer grants to the origin [presented]: access, and credentials exactly when
    the options allow them, in which case the origin is named. *)
Definition grants (o : CorsOptions) (presented credentials : bytes) (response : Response) : Prop :=
  let granted := response_header response acao in
  (granted = presented /\ (presented ∈ allow_origins o \/ allow_origins o = ∅ /\ allow_origin o = presented) /\
     (presented = lit "*" -> allow_credentials o = false) \/
   granted = lit "*" /\ allow_origins o = ∅ /\ allow_origin o = lit "*" /\ allow_credentials o = false) /\
  response_header response acac = if allow_credentials o then lit "true" else credentials.

(** C24. Only the configured origins get access, and none gets it as a wildcard with
    credentials: an answer to a preflight request is made without the handlers, and either
    grants an allowed origin one of the allowed methods, with credentials exactly when they are
    allowed, or is a refusal without access or credentials; any other answer of the handlers
    keeps its status, and when the origin is allowed it carries access, and credentials when
    they are allowed, and when it is not no more than the handlers gave it. *)
Theorem cors_policy o (middleware : HX Response -> HX Response) (handlers : HX Response) (x x' : Exchange W) response :
  cors o = Ok middleware -> middleware handlers x = (Ok response, x') ->
  let presented := request_header (x_request x) (lit "origin") in
  if is_preflight (x_request x) then
    x' = x /\
    (grants o presented [] response /\ response_header response acao <> [] /\ response_status response = 204 /\
       csv_contains (allow_methods o) (request_header (x_request x) (lit "access-control-request-method")) = true \/
     response_header response acao = [] /\ response_header response acac = [] /\ response_status response = 403)
  else
    exists r0, handlers x = (Ok r0, x') /\ response_status response = response_status r0 /\
      (grants o presented (response_header r0 acac) response /\ cors_origin o presented <> None \/ response = r0 /\ cors_origin o presented = None).
Proof.
  intros Hm E presented. unfold cors in Hm. destruct (cors_check o) as [[]|e|] eqn:Hc; [|done..]. injection Hm as <-.
  unfold cors_handle in E. run_step E. injection E0 as <- <-. destruct (is_preflight (x_request x)) eqn:Ep.
  - injection E as E <-. split; [done|]. unfold preflight_answer in E. fold presented in E.
    destruct (cors_origin o presented) as [origin|] eqn:Eo; [|right; by eapply refusal].
    destruct (csv_contains _ _) eqn:Em; cbn [negb] in E; [|right; by eapply refusal].
    destruct (_ && _); [right; by eapply refusal|]. left.
    apply apply_cors_Ok in E as (Ho & Hs & Hcr). apply cors_origin_grants in Eo as [Hn Eo]; [|done].
    split_and!; [unfold grants; rewrite Ho; by split|by rewrite Ho|done|done].
  - run_step E. fold presented in E. destruct (cors_origin o presented) as [origin|] eqn:Eo; [|by injection E as <- <-; eauto 10].
    injection E as E <-. apply apply_cors_Ok in E as (Ho & Hs & Hcr). apply cors_origin_grants in Eo as Eg; [|done]. destruct Eg as [Hn Eg].
    exists a. split_and!; [done|done|]. left. split; [unfold grants; rewrite Ho; by split|done].
Qed.
End Cors.

Definition shop_cors : CorsOptions :=
  mkCors (lit "*") {[lit "https://shop.example"]} (lit "GET,POST") (lit "content-type") true 600.

Definition with_headers (l : list (string * string)) (r : Request) : Request :=
  foldr (fun '(name, value) r => match set_header (lit name) (lit value) r with Ok r' => r' | _ => r end) r l.

Definition plain_exchange (r : Request) : Exchange Z := mkExchange r None None [] [] 0.

Lemma cors_policy_witness : exists middleware response,
  cors (W := Z) shop_cors = Ok middleware /\
  middleware (mret (make_response 200 [])) (plain_exchange (with_headers [("origin", "https://shop.example")] (make_request Http.get (lit "/") [] false)))
    = (Ok response, plain_exchange (with_headers [("origin", "https://shop.example")] (make_request Http.get (lit "/") [] false))) /\
  response_status response = 200 /\ response_header response acao = lit "https://shop.example".
Proof.
  set (x := plain_exchange (with_headers [("origin", "https://shop.example")] (make_request Http.get (lit "/") [] false))).
  destruct (returned_run (cors_handle shop_cors (mret (make_response 200 [])) x)) as (response & x' & E); [vm_compute; reflexivity|].
  assert (Hc : cors_check shop_cors = Ok tt) by (vm_compute; reflexivity).
  assert (Hm : cors (W := Z) shop_cors = Ok (cors_handle shop_cors)) by (unfold cors; rewrite Hc; reflexivity).
  pose proof (cors_policy shop_cors _ _ x x' response Hm E) as H. cbv zeta in H.
  assert (Hp : is_preflight (x_request x) = false) by (vm_compute; reflexivity).
  rewrite Hp in H. destruct H as (r0 & Hr & Hs & [[Hg _]|[_ Hn]]).
  - injection Hr as <- <-. exists (cors_handle shop_cors), response. split_and!; [exact Hm|exact E|exact Hs|].
    destruct Hg as [[[Hg _]|(_ & _ & _ & Hf)] _]; [rewrite Hg; vm_compute; reflexivity|discriminate].
  - assert (Ho : cors_origin shop_cors (request_header (x_request x) (lit "origin")) = Some (lit "https://shop.example")) by (vm_compute; reflexivity).
    rewrite Ho in Hn. discriminate.
Defined.

(** An answer that varies by another header, whose name contains the word, is not marked as
    varying by the origin. *)
Example vary_missed :
  match (r ← put_header "vary" (lit "X-Original-Host") (make_response 200 []); append_vary (lit "Origin") r) with
  | Ok r => response_header r (lit "vary")
  | _ => []
  end = lit "X-Original-Host".
Proof. vm_compute. reflexivity. Qed.

(** ** Hosts *)

(** The characters of a canonical host. *)
Definition host_char (c : byte) : bool :=
  (isalnum c && bool_decide (ascii_lower c = c)) || (c =b? "-") || (c =b? ".") || (c =b? ":").

Lemma lower_host_char c : isalnum c || (c =b? "-") || (c =b? ".") || (c =b? ":") = true -> host_char (ascii_lower c) = true.
Proof.
  assert (H : forall c, (fun c => negb (isalnum c || (c =b? "-") || (c =b? ".") || (c =b? ":")) || host_char (ascii_lower c)) c = true).
  { apply byte_forall. vm_compute. reflexivity. }
  intros Hc. specialize (H c). cbn beta in H. by rewrite Hc in H.
Qed.

Lemma xdigit_alnum c : isxdigit c = true -> isalnum c = true.
Proof.
  assert (H : forall c, (fun c => negb (isxdigit c) || isalnum c) c = true).
  { apply byte_forall. vm_compute. reflexivity. }
  intros Hc. specialize (H c). cbn beta in H. by rewrite Hc in H.
Qed.

Lemma lowercase_hosts l : Forall (fun c => isalnum c || (c =b? "-") || (c =b? ".") || (c =b? ":") = true) l ->
  Forall (fun c => host_char c = true) (lowercase l).
Proof. unfold lowercase. intros H. apply Forall_map. eapply Forall_impl; [exact H|]. apply lower_host_char. Qed.

Lemma labels_chars s : forallb host_label (fields "." s) = true ->
  Forall (fun c => isalnum c || (c =b? "-") || (c =b? ".") || (c =b? ":") = true) s.
Proof.
  assert (Hl : forall piece, host_label piece = true -> Forall (fun c => isalnum c || (c =b? "-") || (c =b? ".") || (c =b? ":") = true) piece).
  { intros piece H. unfold host_label in H. apply andb_true_iff in H as [_ H]. rewrite forallb_forall in H. apply Forall_forall.
    intros c Hc. rewrite (H c); [done|by apply list_elem_of_In]. }
  enough (He : forall s, Forall (fun piece => Forall (fun c => isalnum c || (c =b? "-") || (c =b? ".") || (c =b? ":") = true) piece) (fields "." s) ->
    Forall (fun c => isalnum c || (c =b? "-") || (c =b? ".") || (c =b? ":") = true) s).
  { intros H. apply He, Forall_forall. intros piece Hp. apply Hl. rewrite forallb_forall in H. by apply H, list_elem_of_In. }
  clear. induction s as [|c s IH]; [by constructor|]. cbn [fields]. destruct (c =b? ".") eqn:Ec.
  - intros H. apply Forall_cons in H as [_ H]. constructor; [by rewrite Ec, orb_true_r|by apply IH].
  - destruct (fields_cons "." s) as (piece & rest & E). rewrite E in *. intros H. apply Forall_cons in H as [H Hr].
    apply Forall_cons in H as [Hc H]. constructor; [done|]. apply IH. by constructor.
Qed.

(** A canonical host is made of lower-case letters, digits, hyphens, points and colons. *)
Lemma canonical_host_chars s h : canonical_host s = Some h -> Forall (fun c => host_char c = true) h /\ h <> [].
Proof.
  assert (Hn : forall host h, named_host host = Some h -> Forall (fun c => host_char c = true) h /\ h <> []).
  { intros host h'. unfold named_host. destruct (_ || _); [done|]. destruct (is_empty (drop_point host)) eqn:Ee; [done|].
    destruct (forallb _ _) eqn:Ef; [|done]. intros [= <-]. split; [by apply lowercase_hosts, labels_chars|].
    by destruct (drop_point host). }
  unfold canonical_host. destruct (_ || _); [done|]. destruct (trim s) as [|c rest] eqn:Et; [done|].
  destruct (c =b? "[").
  - unfold address_host. destruct (until "]" rest) as [host [suffix|]]; [|done]. destruct (is_empty host) eqn:Ee; [done|].
    destruct (match suffix with [] => false | c0 :: port => _ end); [done|]. destruct (negb _) eqn:Ef; [done|]. intros [= <-].
    apply negb_false_iff in Ef. rewrite forallb_forall in Ef. split; [|by destruct host].
    apply lowercase_hosts, Forall_forall. intros d Hd. apply list_elem_of_In, Ef in Hd.
    apply orb_true_iff in Hd as [Hd|Hd]; [|by rewrite Hd, orb_true_r]. apply orb_true_iff in Hd as [Hd|Hd].
    + by rewrite (xdigit_alnum _ Hd).
    + by rewrite Hd, orb_true_r.
  - destruct (until ":" (c :: rest)) as [host [port|]]; [|by apply Hn]. destruct (existsb _ port); [done|].
    destruct (valid_port port); [|done]. by apply Hn.
Qed.

Lemma canonical_hosts_spec hosts allowed : canonical_hosts hosts = Ok allowed -> forall h,
  h ∈ allowed <-> exists value, value ∈ hosts /\ canonical_host value = Some h.
Proof.
  revert allowed. induction hosts as [|value hosts IH]; intros allowed; cbn.
  - intros [= <-] h. split; [set_solver|]. intros (v & Hv & _). by apply not_elem_of_nil in Hv.
  - destruct (canonical_host value) as [host|] eqn:Ev; [|done]. intros E h. apply bind_Ok in E as (others & Ho & E). injection E as <-.
    rewrite elem_of_union, elem_of_singleton, (IH _ Ho). split.
    + intros [->|(v & Hv & Hh)]; [exists value; split; [constructor|done]|exists v; split; [by constructor|done]].
    + intros (v & Hv & Hh). apply elem_of_cons in Hv as [->|Hv]; [left; congruence|right; by exists v].
Qed.

(** C25. A request goes on with an allowed host only: one whose canonical form, which has no
    character but lower-case letters, digits, hyphens, points and colons, is that of a
    configured host; every other request is answered as an invalid host and no handler
    runs. *)
Theorem hosts_validated {W} hosts (middleware : eff (Exchange W) Response -> eff (Exchange W) Response) :
  host_validation hosts = Ok middleware -> forall (x : Exchange W),
  let presented := request_header (x_request x) (lit "host") in
  (exists h, canonical_host presented = Some h /\ Forall (fun c => host_char c = true) h /\ h <> [] /\
     (hosts = [] \/ exists value, value ∈ hosts /\ canonical_host value = Some h) /\
     forall handlers, middleware handlers x = handlers x) \/
  ((canonical_host presented = None \/ hosts <> [] /\ forall value, value ∈ hosts -> canonical_host value <> canonical_host presented) /\
     forall handlers, middleware handlers x = (text (lit "Invalid Host") 400, x)).
Proof.
  intros E x presented. unfold host_validation in E. apply bind_Ok in E as (allowed & Ea & E). injection E as <-.
  pose proof (canonical_hosts_spec _ _ Ea) as Hs.
  assert (Hstep : forall handlers, host_handle allowed handlers x =
    match canonical_host presented with
    | None => (text (lit "Invalid Host") 400, x)
    | Some host => if negb (bool_decide (allowed = ∅)) && negb (bool_decide (host ∈ allowed))
                   then (text (lit "Invalid Host") 400, x) else handlers x
    end).
  { intros handlers. unfold host_handle. erewrite eff_bind_Ok by reflexivity. fold presented. destruct (canonical_host presented); [|done].
    by destruct (_ && _). }
  destruct (canonical_host presented) as [h|] eqn:Ep; [|right; split; [by left|done]].
  destruct (negb _ && negb _) eqn:En.
  - right. split; [right|done]. apply andb_true_iff in En as [E1 E2].
    apply negb_true_iff, bool_decide_eq_false in E1, E2. split.
    + intros Hh. apply E1. rewrite Hh in Ea. by injection Ea as <-.
    + intros value Hv He. apply E2, Hs. by exists value.
  - left. exists h. destruct (canonical_host_chars _ _ Ep) as [Hc Hn]. split_and!; [done..| |done].
    apply andb_false_iff in En as [En|En]; apply negb_false_iff, bool_decide_eq_true in En; [left|right; by apply Hs].
    destruct hosts as [|value hosts]; [done|]. cbn in Ea. destruct (canonical_host value) as [host|]; [|done].
    apply bind_Ok in Ea as (others & _ & Ea). injection Ea as <-. set_solver.
Qed.

Lemma hosts_validated_witness :
  (exists middleware, host_validation (W := Z) [lit "Shop.Example."] = Ok middleware /\
    forall handlers, middleware handlers (plain_exchange (with_headers [("host", "shop.example:8080")] (make_request Http.get (lit "/") [] false)))
      = handlers (plain_exchange (with_headers [("host", "shop.example:8080")] (make_request Http.get (lit "/") [] false)))) /\
  forall handlers, host_handle (W := Z) {[lit "shop.example"]} handlers
    (plain_exchange (with_headers [("host", "other.example")] (make_request Http.get (lit "/") [] false)))
    = (text (lit "Invalid Host") 400, plain_exchange (with_headers [("host", "other.example")] (make_request Http.get (lit "/") [] false))).
Proof.
  assert (Hc : canonical_host (lit "Shop.Example.") = Some (lit "shop.example")) by (vm_compute; reflexivity).
  assert (Ha : canonical_hosts [lit "Shop.Example."] = Ok ({[lit "shop.example"]} ∪ ∅)) by (cbn [canonical_hosts]; rewrite Hc; reflexivity).
  assert (Hm : host_validation (W := Z) [lit "Shop.Example."] = Ok (host_handle ({[lit "shop.example"]} ∪ ∅)))
    by (unfold host_validation; rewrite Ha; reflexivity).
  split.
  - exists (host_handle ({[lit "shop.example"]} ∪ ∅)). split; [exact Hm|].
    destruct (hosts_validated [lit "Shop.Example."] _ Hm (plain_exchange (with_headers [("host", "shop.example:8080")] (make_request Http.get (lit "/") [] false))))
      as [(h & _ & _ & _ & _ & H)|[[H|[_ H]] _]]; [exact H| |].
    + exfalso. revert H. vm_compute. discriminate.
    + exfalso. apply (H (lit "Shop.Example.")); [constructor|]. vm_compute. reflexivity.
  - intros handlers. unfold host_handle. erewrite eff_bind_Ok by reflexivity.
    assert (Hh : canonical_host (request_header (x_request (plain_exchange (with_headers [("host", "other.example")] (make_request Http.get (lit "/") [] false)))) (lit "host")) = Some (lit "other.example")) by (vm_compute; reflexivity).
    rewrite Hh. reflexivity.
Defined.

(** ** A forged request *)

#[local] Existing Instance demo_random.

Definition csrf_options : CsrfOptions := mkCsrf (lit "_token") (lit "x-csrf-token") (lit "_token").

Definition guarded_exchange (r : Request) : Exchange Demo :=
  mkExchange r (Some 0%nat) None [session_put (lit "_token") (lit "secret") (make_session old_id)] [] (mkDemo ∅ ∅ 7).

Definition forged : Request := with_headers [("x-csrf-token", "guess")] (make_request Http.post (lit "/transfer") [] false).

(** A guessed token: the handlers of a transfer are not reached. *)
Lemma csrf_enforced_witness : exists r x1, forall next,
  csrf_handle csrf_options next (guarded_exchange forged) = (r, x1) /\ forall response, r = Ok response -> response_status response = 419.
Proof.
  destruct (csrf_enforced csrf_options (guarded_exchange forged) 0 (session_put (lit "_token") (lit "secret") (make_session old_id)))
    as [(x1 & _ & [(t & Ht & _ & Hs & _)|(r & Hr & H419)]) _].
  - reflexivity.
  - reflexivity.
  - vm_compute. reflexivity.
  - exfalso.
    assert (Hv : request_header forged (csrf_header csrf_options) = lit "guess") by (vm_compute; reflexivity).
    unfold presented_csrf_token in Ht. erewrite eff_bind_Ok in Ht by reflexivity. cbn [x_request guarded_exchange] in Ht. rewrite Hv in Ht.
    injection Ht as <- _.
    assert (Hg : session_get (csrf_session_key csrf_options) (session_put (lit "_token") (lit "secret") (make_session old_id)) = lit "secret")
      by (vm_compute; reflexivity).
    rewrite Hg in Hs. discriminate.
  - exists r, x1. intros next. split; [exact (Hr next)|exact H419].
Defined.

(** With the token, they are. *)
Example csrf_accepts :
  match (csrf_handle csrf_options (mret (make_response 200 []))
           (guarded_exchange (with_headers [("x-csrf-token", "secret")] (make_request Http.post (lit "/transfer") [] false)))).1 with
  | Ok r => response_status r
  | _ => 0
  end = 200.
Proof. vm_compute. reflexivity. Qed.
