(* ===== verification/Ast.v ===== *)
(** * The syntax tree of the Gungnir language ([include/gungnir/language/ast.hpp])

    The nodes the parser produces: flat declarations with spans into the source, and the
    expressions and statements of method bodies. *)

From S2P Require Import Prelude Text Cron Lexer.

Local Open Scope Z_scope.

(** Half-open byte offsets, with the line and column of the beginning. *)
Record SourceSpan := mkSpan { span_begin : Z; span_end : Z; span_line : Z; span_column : Z }.

Definition no_span : SourceSpan := mkSpan 0 0 1 1.

Inductive FrameworkBaseKind :=
| model | controller | migration | middleware | policy | event | listener | notification | mail.

#[export] Instance FrameworkBaseKind_eq_dec : EqDecision FrameworkBaseKind.
Proof. solve_decision. Defined.

Record FrameworkBase := mkFrameworkBase {
  fb_span : SourceSpan;
  fb_class_name : bytes;
  fb_kind : FrameworkBaseKind;
  fb_declaration_span : SourceSpan;
  fb_members : list nat;
  fb_body_open_span : SourceSpan
}.

Record MethodParameter := mkParameter { mp_span : SourceSpan; mp_type_name : bytes; mp_name : bytes }.

Inductive ExpressionKind :=
| name_ | literal_ | call | raw | unary | binary | member | subscript | group | object | entry | list_.

#[export] Instance ExpressionKind_eq_dec : EqDecision ExpressionKind.
Proof. solve_decision. Defined.

Inductive Expression := mkExpression (span : SourceSpan) (kind : ExpressionKind) (text : bytes) (arguments : list Expression).

Definition no_expression : Expression := mkExpression no_span raw [] [].

Record InferredBinding := mkBinding {
  ib_span : SourceSpan; ib_name : bytes; ib_immutable : bool; ib_initializer : Expression
}.

Inductive StatementKind := return_ | binding | expression | block | conditional | loop_ | break_ | continue_.

#[export] Instance StatementKind_eq_dec : EqDecision StatementKind.
Proof. solve_decision. Defined.

Record ForHeader := mkForHeader {
  for_parts : list Expression;
  for_binding_name : bytes;
  for_binding_initializer : Expression;
  for_binding_immutable : bool
}.

Definition no_for : ForHeader := mkForHeader [] [] no_expression false.

(** The fields of a typed local. *)
Record Declared := mkDeclared { declared_name : bytes; declared_type : bytes; declared_immutable : bool }.

Definition no_declared : Declared := mkDeclared [] [] false.

Inductive MethodStatement :=
  mkStatement (span : SourceSpan) (kind : StatementKind) (expression : Expression) (name : bytes)
    (children alternative : list MethodStatement) (header : ForHeader) (declared : Declared).

Record FrameworkDeclaration := mkFrameworkDeclaration {
  fd_keyword_span : SourceSpan;
  fd_name_end_span : SourceSpan;
  fd_body_end_span : SourceSpan;
  fd_class_name : bytes;
  fd_kind : FrameworkBaseKind;
  fd_needs_semicolon : bool;
  fd_span : SourceSpan;
  fd_members : list nat;
  fd_body_open_span : SourceSpan
}.

Record FrameworkMethod := mkFrameworkMethod {
  fm_span : SourceSpan;
  fm_return_type_span : SourceSpan;
  fm_name_span : SourceSpan;
  fm_owner_name : bytes;
  fm_owner_kind : FrameworkBaseKind;
  fm_return_type : bytes;
  fm_name : bytes;
  fm_asynchronous : bool;
  fm_parameters : list MethodParameter;
  fm_body : list MethodStatement
}.

Record ModelField := mkModelField {
  mf_declaration_span : SourceSpan;
  mf_type_span : SourceSpan;
  mf_model_name : bytes;
  mf_type_name : bytes;
  mf_name : bytes;
  mf_nullable : bool;
  mf_primary_key : bool;
  mf_shorthand : bool
}.

Inductive ModelConfigurationKind := table | connection | timestamps | soft_deletes.

#[export] Instance ModelConfigurationKind_eq_dec : EqDecision ModelConfigurationKind.
Proof. solve_decision. Defined.

Record ModelConfiguration := mkModelConfiguration {
  mc_span : SourceSpan;
  mc_model_name : bytes;
  mc_kind : ModelConfigurationKind;
  mc_value : bytes;
  mc_enabled : bool
}.

Inductive ModelRelationshipKind := has_one | has_many | belongs_to | belongs_to_many | has_one_through | has_many_through.

#[export] Instance ModelRelationshipKind_eq_dec : EqDecision ModelRelationshipKind.
Proof. solve_decision. Defined.

Record ModelRelationship := mkModelRelationship {
  mr_span : SourceSpan;
  mr_model_name : bytes;
  mr_name : bytes;
  mr_kind : ModelRelationshipKind;
  mr_related_type : bytes;
  mr_through_type : bytes;
  mr_arguments : list bytes
}.

Record ControllerMethod := mkControllerMethod {
  cm_span : SourceSpan;
  cm_return_type_span : SourceSpan;
  cm_name_span : SourceSpan;
  cm_controller_name : bytes;
  cm_return_type : bytes;
  cm_name : bytes;
  cm_asynchronous : bool;
  cm_parameters : list MethodParameter;
  cm_body : list MethodStatement
}.

Record InjectDeclaration := mkInject {
  id_span : SourceSpan;
  id_type_span : SourceSpan;
  id_name_span : SourceSpan;
  id_controller_name : bytes;
  id_type_name : bytes;
  id_name : bytes
}.

Inductive RouteMethodKind := get | post | put | patch | remove | options | head.

Record RouteDeclaration := mkRoute {
  rd_route_span : SourceSpan;
  rd_method_span : SourceSpan;
  rd_handler_prefix_span : SourceSpan;
  rd_middleware_span : SourceSpan;
  rd_method : RouteMethodKind;
  rd_controller_name : bytes;
  rd_action_name : bytes;
  rd_middleware_type : bytes;
  rd_has_middleware : bool;
  rd_uri : bytes;
  rd_literal_uri : bool
}.

Inductive Node :=
| NInferredBinding (b : InferredBinding)
| NApplicationReference (span : SourceSpan)
| NFrameworkBase (b : FrameworkBase)
| NFrameworkDeclaration (d : FrameworkDeclaration)
| NFrameworkMethod (m : FrameworkMethod)
| NModelField (f : ModelField)
| NModelConfiguration (c : ModelConfiguration)
| NModelRelationship (r : ModelRelationship)
| NControllerMethod (m : ControllerMethod)
| NInjectDeclaration (i : InjectDeclaration)
| NRouteDeclaration (r : RouteDeclaration).
