(* ===== verification/Expressions.v ===== *)
(** * Expressions and statements of the Gungnir language ([src/language/parser.cpp])

    The parser works on the vector of tokens, trivia included, by positions: the nearest
    tokens that are no trivia, the partner of a bracket, the expression between two
    positions and the statements between two braces.  Expressions are read by splitting
    at the weakest operator outside brackets.  A position comes from one of the searches
    below or is one of the bounds given, so it is one of the vector; a read past the end,
    which C++ leaves undefined, is [no_token] here. *)

From S2P Require Import Prelude Text Cron Lexer Ast.

Local Open Scope Z_scope.

(** What the parser fills of a [Diagnostic]; the level is always error and the file the
    name of the source. *)
Record Diagnosis := mkDiagnosis {
  at_line : Z; at_column : Z; diagnosis_message : bytes; diagnosis_code : bytes; diagnosis_hint : bytes
}.

(** The members of [Parser] that change; the innermost of the scopes comes first. *)
Record Parser := mkParser {
  nodes : list Node;
  diagnostics : list Diagnosis;
  scopes : list (gset bytes);
  framework_names : gset bytes
}.

Definition P := (eff Parser).

Definition push_diagnosis (d : Diagnosis) : P unit :=
  modify (fun p => mkParser (nodes p) (diagnostics p ++ [d]) (scopes p) (framework_names p)).

Definition no_token : Token := mkToken end_ [] 0 1 1.

Section Tokens.
Context (tokens : list Token).

(** [tokens_[i]]. *)
Definition tok (i : nat) : Token := default no_token (tokens !! i).

Definition is_text (i : nat) (text : string) : bool := bool_decide (lexeme (tok i) = lit text).

Definition kind_is (i : nat) (k : TokenKind) : bool := bool_decide (kind (tok i) = k).

Definition significant (t : Token) : bool := negb (trivia t) && negb (bool_decide (kind t = end_)).

(** The first significant token of [l], whose first token has position [i]. *)
Fixpoint first_significant (l : list Token) (i : nat) : option nat :=
  match l with
  | [] => None
  | t :: l => if significant t then Some i else first_significant l (S i)
  end.

Definition next_significant (index : nat) : option nat := first_significant (drop (S index) tokens) (S index).

Fixpoint last_significant (l : list Token) (i : nat) : option nat :=
  match l with
  | [] => None
  | t :: l =>
      match last_significant l (S i) with
      | Some j => Some j
      | None => if significant t then Some i else None
      end
  end.

Definition previous_significant (index : nat) : option nat := last_significant (take index tokens) 0.

Fixpoint match_from (open close : bytes) (depth : nat) (l : list Token) (i : nat) : option nat :=
  match l with
  | [] => None
  | t :: l =>
      if trivia t then match_from open close depth l (S i)
      else if bool_decide (lexeme t = open) then match_from open close (S depth) l (S i)
      else if bool_decide (lexeme t = close) then
        match depth with
        | O => None
        | S O => Some i
        | S depth => match_from open close depth l (S i)
        end
      else match_from open close depth l (S i)
  end.

Definition matching_symbol (opening : nat) (open close : string) : option nat :=
  match_from (lit open) (lit close) 0 (drop opening tokens) opening.

Definition token_end (t : Token) : Z := offset t + Z.of_nat (length (lexeme t)).

(** The span from token [first] to token [last]. *)
Definition span_of (first last : nat) : SourceSpan :=
  mkSpan (offset (tok first)) (token_end (tok last)) (line (tok first)) (column (tok first)).

Definition token_span (t : Token) : SourceSpan := mkSpan (offset t) (token_end t) (line t) (column t).

Definition opens (symbol : bytes) : bool := bool_decide (symbol ∈ [lit "("; lit "["; lit "{"]).
Definition closes (symbol : bytes) : bool := bool_decide (symbol ∈ [lit ")"; lit "]"; lit "}"]).

(** ** Parameters ([parse_parameters]) *)

(** The last token of a parameter that ends before [cursor], and where the comma is. *)
Fixpoint parameter_end (fuel nested last : nat) (cursor : option nat) (closing : nat) : result (nat * option nat) :=
  match fuel with
  | O => NoFuel
  | S fuel =>
      match cursor with
      | Some at_ =>
          if (closing <=? at_)%nat then Ok (last, cursor)
          else
            let value := lexeme (tok at_) in
            let nested :=
              if bool_decide (value ∈ [lit "<"; lit "("; lit "["]) then S nested
              else if bool_decide (value ∈ [lit ">"; lit ")"; lit "]"]) then Nat.pred nested
              else nested in
            if bool_decide (value = lit ",") && (nested =? 0)%nat then Ok (last, cursor)
            else parameter_end fuel nested at_ (next_significant at_) closing
      | None => Ok (last, cursor)
      end
  end.

Fixpoint parameters_loop (fuel : nat) (first : option nat) (closing : nat) : result (list MethodParameter) :=
  match fuel with
  | O => NoFuel
  | S fuel =>
      match first with
      | Some first =>
          if (closing <=? first)%nat then Ok []
          else
            '(last, cursor) ← parameter_end (S (length tokens)) 0 first (next_significant first) closing;
            rest ← parameters_loop fuel (cursor ≫= next_significant) closing;
            Ok (if negb (first =? last)%nat && kind_is last identifier
                then mkParameter (span_of first last) (lexeme (tok first)) (lexeme (tok last)) :: rest else rest)
      | None => Ok []
      end
  end.

Definition parse_parameters (opening closing : nat) : result (list MethodParameter) :=
  parameters_loop (S (length tokens)) (next_significant opening) closing.

(** ** Expressions ([parse_expression]) *)

Definition precedence (op : bytes) : Z :=
  if bool_decide (op = lit "=") then 1
  else if bool_decide (op = lit "||") then 2
  else if bool_decide (op = lit "&&") then 3
  else if bool_decide (op ∈ [lit "=="; lit "!="]) then 4
  else if bool_decide (op ∈ [lit "<"; lit ">"; lit "<="; lit ">="]) then 5
  else if bool_decide (op ∈ [lit "+"; lit "-"]) then 6
  else if bool_decide (op ∈ [lit "*"; lit "/"; lit "%"]) then 7
  else 0.

(** The operators of two tokens that touch. *)
Definition combined_operators : list bytes :=
  map lit ["&&"; "||"; "=="; "!="; "<="; ">="; "->"; "::"; "++"; "--"].

(** The best place to split found so far. *)
Record Split := mkSplit { weakest : Z; split_at : option nat; split_width : nat; split_operator : bytes }.

Section Significant.
(** [significant]: the positions of the tokens of the expression that are no trivia. *)
Context (sig : list nat).

Definition sig_at (i : nat) : nat := default 0%nat (sig !! i).
Definition sig_tok (i : nat) : Token := tok (sig_at i).
Definition value (i : nat) : bytes := lexeme (sig_tok i).
Definition value_is (i : nat) (text : string) : bool := bool_decide (value i = lit text).

Definition error_at (i : nat) (what code : string) : P unit :=
  push_diagnosis (mkDiagnosis (line (sig_tok i)) (column (sig_tok i)) (lit what) (lit code) []).

Definition make (begin_ finish : nat) (kind : ExpressionKind) (text : bytes) (arguments : list Expression) : Expression :=
  mkExpression (span_of (sig_at begin_) (sig_at (finish - 1))) kind text arguments.

(** Whether token [i] touches the next one. *)
Definition touches (i : nat) : bool := token_end (sig_tok i) =? offset (sig_tok (S i)).

(** The operator that starts at [i], and of how many tokens it is. *)
Definition operator_at (i finish : nat) : bytes * nat :=
  if (S i <? finish)%nat && touches i && bool_decide (value i ++ value (S i) ∈ combined_operators)
  then (value i ++ value (S i), 2%nat) else (value i, 1%nat).

Definition count (open close : string) (symbol : bytes) (n : Z) : Z :=
  if bool_decide (symbol = lit open) then n + 1 else if bool_decide (symbol = lit close) then n - 1 else n.

(** The loop that looks for the weakest operator outside nested brackets; [n] bounds the
    number of rounds. *)
Fixpoint split_loop (n i begin_ finish : nat) (parens brackets braces : Z) (best : Split) : Split :=
  match n with
  | O => best
  | S n =>
      if (finish <=? i)%nat then best
      else
        let parens := count "(" ")" (value i) parens in
        let brackets := count "[" "]" (value i) brackets in
        let braces := count "{" "}" (value i) braces in
        if negb (parens =? 0) || negb (brackets =? 0) || negb (braces =? 0) || (i =? begin_)%nat || (S i =? finish)%nat
        then split_loop n (S i) begin_ finish parens brackets braces best
        else
          let '(op, width) := operator_at i finish in
          let rank := precedence op in
          let best :=
            if negb (rank =? 0) && (i + width <? finish)%nat &&
               ((rank <? weakest best) || ((rank =? weakest best) && negb (rank =? 1)))
            then mkSplit rank (Some i) width op else best in
          split_loop n (i + width) begin_ finish parens brackets braces best
  end.

Definition find_split (begin_ finish : nat) : Split :=
  split_loop (finish - begin_) begin_ begin_ finish 0 0 0 (mkSplit 8 None 1 []).

(** The elements between commas from position [i] on, [start] where the current one starts. *)
Fixpoint elements (read : nat -> nat -> P Expression) (missing code : string) (n i start finish : nat) (depth : Z)
    (done_ : list Expression) : P (nat * list Expression) :=
  match n with
  | O => mret (start, done_)
  | S n =>
      if (finish <=? i)%nat then mret (start, done_)
      else
        let depth := if opens (value i) then depth + 1 else if closes (value i) then depth - 1 else depth in
        if value_is i "," && (depth =? 0) then
          done_ ← (if (start <? i)%nat then e ← read start i; mret (done_ ++ [e])
                   else _ ← error_at i missing code; mret done_);
          elements read missing code n (S i) (S i) finish depth done_
        else elements read missing code n (S i) start finish depth done_
  end.

(** The colon of an object entry. *)
Fixpoint find_colon (n colon finish : nat) : option nat :=
  match n with
  | O => None
  | S n =>
      if (finish <=? S colon)%nat then None
      else if value_is colon ":" then Some colon else find_colon n (S colon) finish
  end.

(** [append_entry], which ends the entry that starts at [start]; the object closes at [last]. *)
Definition append_entry (read : nat -> nat -> P Expression) (start finish last : nat) (o : ExpressionKind * list Expression)
    : P (ExpressionKind * list Expression) :=
  if (finish <=? start)%nat then
    _ ← (if (finish <? last)%nat then error_at finish "Object entry is missing a key and value" "GNR1010" else mret tt);
    mret o
  else
    match find_colon (finish - start) (S start) finish with
    | Some colon =>
        key ← read start colon;
        v ← read (S colon) finish;
        mret (o.1, o.2 ++ [make start finish entry [] [key; v]])
    | None => _ ← error_at start "Object entry requires a key, ':' and value" "GNR1010"; mret (raw, [])
    end.

Fixpoint entries (read : nat -> nat -> P Expression) (n i start last : nat) (depth : Z) (o : ExpressionKind * list Expression)
    : P (ExpressionKind * list Expression) :=
  match n with
  | O => append_entry read start last last o
  | S n =>
      if (last <=? i)%nat then append_entry read start last last o
      else
        let depth := if opens (value i) then depth + 1 else if closes (value i) then depth - 1 else depth in
        if value_is i "," && (depth =? 0) then
          o ← append_entry read start i last o;
          entries read n (S i) (S i) last depth o
        else entries read n (S i) start last depth o
  end.

(** The first [open] after [i] whose partner is the last token. *)
Fixpoint find_open (open close : string) (n i finish : nat) : option nat :=
  match n with
  | O => None
  | S n =>
      if (finish <=? S i)%nat then None
      else if value_is i open && bool_decide (matching_symbol (sig_at i) open close = Some (sig_at (finish - 1)))
      then Some i else find_open open close n (S i) finish
  end.

Definition encloses (open close : string) (begin_ finish : nat) : bool :=
  value_is begin_ open && value_is (finish - 1) close &&
  bool_decide (matching_symbol (sig_at begin_) open close = Some (sig_at (finish - 1))).

(** An expression of one token. *)
Definition leaf (begin_ : nat) : P Expression :=
  let t := sig_tok begin_ in
  let quoted := bool_decide (kind t = string_literal) || bool_decide (kind t = number) in
  _ ← (if negb (word t) && negb quoted && negb (bool_decide (kind t = character_literal))
       then error_at begin_ "Expected an expression" "GNR1010" else mret tt);
  let k :=
    if quoted || value_is begin_ "true" || value_is begin_ "false" || value_is begin_ "null" then literal_
    else if word t then name_ else raw in
  mret (make begin_ (S begin_) k (value begin_) []).

(** [f(a, b)]: the callee, then the arguments from the parenthesis at [i]. *)
Definition read_call (read : nat -> nat -> P Expression) (begin_ i finish : nat) : P Expression :=
  callee ← read begin_ i;
  '(start, arguments) ← elements read "Call argument is missing" "GNR1015" (finish - 1 - S i) (S i) (S i) (finish - 1) 0 [callee];
  arguments ← (if (start <? finish - 1)%nat then e ← read start (finish - 1)%nat; mret (arguments ++ [e])
               else
                 _ ← (if (S i <? start)%nat then error_at (finish - 2) "Call argument is missing" "GNR1015" else mret tt);
                 mret arguments);
  mret (make begin_ finish call [] arguments).

Definition read_subscript (read : nat -> nat -> P Expression) (begin_ i finish : nat) : P Expression :=
  base ← read begin_ i;
  if (S i <? finish - 1)%nat then index ← read (S i) (finish - 1)%nat; mret (make begin_ finish subscript [] [base; index])
  else _ ← error_at i "Subscript index is missing" "GNR1013"; mret (make begin_ finish subscript [] [base]).

Definition read_member (read : nat -> nat -> P Expression) (begin_ dot finish : nat) (text : bytes) : P Expression :=
  base ← read begin_ dot;
  name ← read (finish - 1)%nat finish;
  mret (make begin_ finish member text [base; name]).

(** Calls, subscripts and members; anything else stays as it is written. *)
Definition read_postfix (read : nat -> nat -> P Expression) (begin_ finish : nat) : P Expression :=
  match (if value_is (finish - 1) ")" then find_open "(" ")" (finish - begin_) (S begin_) finish else None) with
  | Some i => read_call read begin_ i finish
  | None =>
      match (if value_is (finish - 1) "]" then find_open "[" "]" (finish - begin_) (S begin_) finish else None) with
      | Some i => read_subscript read begin_ i finish
      | None =>
          if (begin_ + 4 <=? finish)%nat && (value_is (finish - 3) "-" && value_is (finish - 2) ">" ||
                                             value_is (finish - 3) ":" && value_is (finish - 2) ":")
          then read_member read begin_ (finish - 3) finish (value (finish - 3) ++ value (finish - 2))
          else if (begin_ + 3 <=? finish)%nat && value_is (finish - 2) "."
          then read_member read begin_ (finish - 2) finish (value (finish - 2))
          else mret (make begin_ finish raw (value begin_) [])
      end
  end.

(** Unary operators, brackets and the rest, when there is no operator to split at. *)
Definition read_unsplit (read : nat -> nat -> P Expression) (begin_ finish : nat) : P Expression :=
  if value_is begin_ "!" || value_is begin_ "-" || value_is begin_ "+" || value_is begin_ "await" then
    operand ← read (S begin_) finish;
    mret (make begin_ finish unary (value begin_) [operand])
  else if encloses "(" ")" begin_ finish then
    if (begin_ + 2 <? finish)%nat then inner ← read (S begin_) (finish - 1)%nat; mret (make begin_ finish group [] [inner])
    else mret (make begin_ finish group [] [])
  else if encloses "{" "}" begin_ finish then
    '(k, arguments) ← entries read (finish - 1 - S begin_) (S begin_) (S begin_) (finish - 1) 0 (object, []);
    mret (make begin_ finish k [] arguments)
  else if encloses "[" "]" begin_ finish then
    '(start, arguments) ← elements read "List element is missing" "GNR1010" (finish - 1 - S begin_) (S begin_) (S begin_) (finish - 1) 0 [];
    if (start <? finish - 1)%nat then e ← read start (finish - 1)%nat; mret (make begin_ finish list_ [] (arguments ++ [e]))
    else mret (make begin_ finish list_ [] arguments)
  else read_postfix read begin_ finish.

(** The recursive lambda [parse]. *)
Fixpoint parse_range (fuel begin_ finish : nat) : P Expression :=
  match fuel with
  | O => fun p => (NoFuel, p)
  | S fuel =>
      if (S begin_ =? finish)%nat then leaf begin_
      else
        let best := find_split begin_ finish in
        match split_at best with
        | Some i =>
            left ← parse_range fuel begin_ i;
            right ← parse_range fuel (i + split_width best)%nat finish;
            mret (make begin_ finish binary (split_operator best) [left; right])
        | None => read_unsplit (parse_range fuel) begin_ finish
        end
  end.

(** The stack of open delimiters; the first closing one that does not fit ends the check. *)
Fixpoint check_delimiters (texts : list bytes) (i : nat) (stack : list bytes) : list bytes * option nat :=
  match texts with
  | [] => (stack, None)
  | text :: rest =>
      if opens text then check_delimiters rest (S i) (text :: stack)
      else if closes text then
        match stack with
        | open :: stack' =>
            if bool_decide ((open, text) ∈ [(lit "(", lit ")"); (lit "[", lit "]"); (lit "{", lit "}")])
            then check_delimiters rest (S i) stack' else (stack, Some i)
        | [] => (stack, Some i)
        end
      else check_delimiters rest (S i) stack
  end.

(** An operator at the very end, other than [++] and [--]. *)
Definition dangling (last_ : nat) : bool :=
  let tail := value last_ in
  let postfix := touches (last_ - 1) &&
    (bool_decide (tail = lit "+") && value_is (last_ - 1) "+" || bool_decide (tail = lit "-") && value_is (last_ - 1) "-") in
  negb postfix && bool_decide (tail ∈ map lit ["="; "+"; "-"; "*"; "/"; "%"; "&"; "|"; "!"]).

Definition check_expression : P unit :=
  let '(stack, bad) := check_delimiters (map (fun i => lexeme (tok i)) sig) 0 [] in
  _ ← (match bad with Some i => error_at i "Unexpected closing delimiter" "GNR1011" | None => mret tt end);
  _ ← (if bool_decide (stack = []) then mret tt else error_at 0 "Expression has an unclosed delimiter" "GNR1011");
  if (1 <? length sig)%nat && dangling (length sig - 1)
  then error_at (length sig - 1) "Operator is missing its right operand" "GNR1012" else mret tt.

Definition parse_significant : P Expression :=
  _ ← check_expression;
  parse_range (length sig) 0 (length sig).
End Significant.

(** The positions from [first] to [last] that hold no trivia. *)
Definition significant_between (first last : nat) : list nat :=
  base.filter (fun i => trivia (tok i) = false) (seq first (S last - first)).

Definition parse_expression (first last : nat) : P Expression := parse_significant (significant_between first last).
End Tokens.
