(* ===== verification/Statements.v ===== *)
(** * Statements of the Gungnir language ([parse_method_body] of [src/language/parser.cpp])

    A statement runs to its semicolon, or to the closing brace of a block statement. *)

From S2P Require Import Prelude Text Cron Lexer Ast Expressions.

Local Open Scope Z_scope.

Section Tokens.
Context (tokens : list Token).

Local Abbreviation tok := (tok tokens).
Local Abbreviation is_text := (is_text tokens).
Local Abbreviation kind_is := (kind_is tokens).
Local Abbreviation next_significant := (next_significant tokens).
Local Abbreviation previous_significant := (previous_significant tokens).
Local Abbreviation matching_symbol := (matching_symbol tokens).
Local Abbreviation parse_expression := (parse_expression tokens).
Local Abbreviation span_of := (span_of tokens).

Definition is_any (i : nat) (texts : list string) : bool := existsb (is_text i) texts.

(** Where a statement ends, and whether it is a block. *)
Fixpoint statement_end (fuel : nat) (block_statement : bool) (closing cursor braces parentheses brackets : nat) : result (nat * bool) :=
  match fuel with
  | O => NoFuel
  | S fuel =>
      if (closing <=? cursor)%nat then Ok (cursor, false)
      else
        let parentheses := if is_text cursor "(" then S parentheses else parentheses in
        let parentheses := if is_text cursor ")" then Nat.pred parentheses else parentheses in
        let brackets := if is_text cursor "[" then S brackets else brackets in
        let brackets := if is_text cursor "]" then Nat.pred brackets else brackets in
        let braces := if is_text cursor "{" then S braces else braces in
        let closes_brace := is_text cursor "}" && (0 <? braces)%nat in
        let braces := if closes_brace then Nat.pred braces else braces in
        let outside := (braces =? 0)%nat && (parentheses =? 0)%nat in
        if closes_brace && outside && (brackets =? 0)%nat && block_statement then Ok (cursor, true)
        else if is_text cursor ";" && outside then Ok (cursor, false)
        else
          match next_significant cursor with
          | Some next => if (closing <=? next)%nat then Ok (cursor, false)
                         else statement_end fuel block_statement closing next braces parentheses brackets
          | None => Ok (cursor, false)
          end
  end.

(** [while (i < bound && tokens_[i].lexeme != "{") i = *next_significant(i)]. *)
Fixpoint find_brace (fuel i bound : nat) : result nat :=
  match fuel with
  | O => NoFuel
  | S fuel =>
      if (bound <=? i)%nat || is_text i "{" then Ok i
      else match next_significant i with Some next => find_brace fuel next bound | None => Ok i end
  end.

Definition seek_brace (i bound : nat) : result nat := find_brace (S (length tokens)) i bound.

Definition within (r : result nat) : P nat := fun p => (r, p).

(** The binding of a [for] statement's first part, which ends at [finish]. *)
Definition for_binding (part_start finish : nat) (h : ForHeader) : P ForHeader :=
  let immutable := is_text part_start "const" in
  let name := if immutable then next_significant part_start else Some part_start in
  let equals := name ≫= next_significant in
  let initializer := equals ≫= next_significant in
  match name, equals, initializer with
  | Some name, Some equals, Some initializer =>
      if kind_is name identifier && is_text equals "=" && (initializer <=? finish)%nat then
        e ← parse_expression initializer finish;
        mret (mkForHeader (for_parts h) (lexeme (tok name)) e immutable)
      else mret h
  | _, _, _ => mret h
  end.

(** The parts of a [for] header between semicolons; [n] positions are left from [at_] on. *)
Fixpoint for_loop (n at_ part_start depth close : nat) (h : ForHeader) : P (nat * ForHeader) :=
  match n with
  | O => mret (part_start, h)
  | S n =>
      if trivia (tok at_) then for_loop n (S at_) part_start depth close h
      else
        let symbol := lexeme (tok at_) in
        let depth := if opens symbol then S depth else if closes symbol then Nat.pred depth else depth in
        if negb (is_text at_ ";") || negb (depth =? 0)%nat then for_loop n (S at_) part_start depth close h
        else
          let finish := previous_significant at_ in
          part ← (match finish with
                  | Some finish => if (part_start <=? finish)%nat && negb (is_text part_start ";")
                                   then parse_expression part_start finish else mret no_expression
                  | None => mret no_expression
                  end);
          let h := mkForHeader (for_parts h ++ [part]) (for_binding_name h) (for_binding_initializer h) (for_binding_immutable h) in
          h ← (match finish with
               | Some finish => if (length (for_parts h) =? 1)%nat then for_binding part_start finish h else mret h
               | None => mret h
               end);
          for_loop n (S at_) (default close (next_significant at_)) depth close h
  end.

(** The header of a [for] statement and the expression it leaves in the statement. *)
Definition for_header (first last close : nat) (e : Expression) : P (ForHeader * Expression) :=
  '(part_start, h) ← for_loop (S last - first) first first 0 close no_for;
  part ← (if (part_start <? close)%nat then parse_expression part_start last else mret no_expression);
  let parts := for_parts h ++ [part] in
  let h := mkForHeader parts (for_binding_name h) (for_binding_initializer h) (for_binding_immutable h) in
  mret (h, match parts with [_; condition; _] => condition | _ => e end).

(** The condition or header of [if], [while] and [for]. *)
Definition block_header (start : nat) (e : Expression) : P (ForHeader * Expression) :=
  match next_significant start with
  | Some open =>
      if is_any start ["if"; "while"; "for"] && is_text open "(" then
        let close := matching_symbol open "(" ")" in
        let first := next_significant open in
        let last := close ≫= previous_significant in
        match close, first, last with
        | Some close, Some first, Some last =>
            if (first <? close)%nat && (first <=? last)%nat then
              if is_text start "for" then for_header first last close e
              else e ← parse_expression first last; mret (no_for, e)
            else mret (no_for, e)
        | _, _, _ => mret (no_for, e)
        end
      else mret (no_for, e)
  | None => mret (no_for, e)
  end.

(** The end of an else-if chain whose last brace so far closes at [finish]. *)
Fixpoint chain_end (fuel finish closing : nat) : result nat :=
  match fuel with
  | O => NoFuel
  | S fuel =>
      match next_significant finish with
      | None => Ok finish
      | Some following =>
          if (closing <=? following)%nat || negb (is_text following "else") then Ok finish
          else
            match next_significant following with
            | None => Ok finish
            | Some arm =>
                if (closing <=? arm)%nat then Ok finish
                else
                  arm_open ← (if is_text arm "if" then seek_brace arm closing else Ok arm);
                  if (closing <=? arm_open)%nat || negb (is_text arm_open "{") then Ok finish
                  else
                    match matching_symbol arm_open "{" "}" with
                    | None => Ok finish
                    | Some arm_end => if (closing <=? arm_end)%nat then Ok finish else chain_end fuel arm_end closing
                    end
            end
      end
  end.

(** The alternative of a conditional that ends at [cursor]: the bounds of its body, and
    where the statement ends with it. *)
Definition alternative_of (cursor closing : nat) : result (option (nat * nat * nat)) :=
  match next_significant cursor with
  | None => Ok None
  | Some otherwise =>
      if (closing <=? otherwise)%nat || negb (is_text otherwise "else") then Ok None
      else
        match next_significant otherwise with
        | None => Ok None
        | Some branch =>
            if is_text branch "{" then
              match matching_symbol branch "{" "}" with
              | Some finish => if (finish <? closing)%nat then Ok (Some (branch, finish, finish)) else Ok None
              | None => Ok None
              end
            else if is_text branch "if" then
              nested ← seek_brace branch closing;
              match (if (nested <? closing)%nat then matching_symbol nested "{" "}" else None) with
              | Some finish =>
                  if (finish <? closing)%nat then
                    finish ← chain_end (S (length tokens)) finish closing;
                    Ok (Some (otherwise, S finish, finish))
                  else Ok None
              | None => Ok None
              end
            else Ok None
        end
  end.

Definition statement_kind (start : nat) : StatementKind :=
  if is_any start ["return"; "co_return"] then return_
  else if is_text start "const" then binding
  else if is_text start "break" then break_
  else if is_text start "continue" then continue_
  else expression.

(** The name and the first token of the value of a binding. *)
Definition binding_value (expression_start start cursor : nat) : bytes * nat :=
  match next_significant expression_start with
  | Some equals =>
      if is_text equals "=" then
        match next_significant equals with
        | Some initializer => if (initializer <? cursor)%nat then (lexeme (tok expression_start), initializer) else ([], start)
        | None => ([], start)
        end
      else ([], start)
  | None => ([], start)
  end.

(** A typed local: what it declares, and its expression. *)
Definition declared_local (start expression_end : nat) (k : StatementKind) (e : Expression) : P (Declared * Expression) :=
  let immutable := is_text start "const" in
  let type := if immutable then next_significant start else Some start in
  let local := type ≫= next_significant in
  let local := match local with Some l => if is_any l ["&"; "*"] then next_significant l else Some l | None => None end in
  let marker := local ≫= next_significant in
  match type, local, marker with
  | Some type, Some local, Some marker =>
      if negb (bool_decide (k = return_)) && word (tok type) && negb (is_text type "throw") && negb (is_text type "co_return") &&
         kind_is local identifier && is_any marker ["="; ";"] then
        e ← (if is_text marker "=" then
               match next_significant marker with
               | Some initializer => if (initializer <=? expression_end)%nat then parse_expression initializer expression_end else mret e
               | None => mret e
               end
             else mret no_expression);
        mret (mkDeclared (lexeme (tok local)) (lexeme (tok type)) immutable, e)
      else mret (no_declared, e)
  | _, _, _ => mret (no_declared, e)
  end.

(** A statement from [start] to the semicolon at [cursor]; one without a body of its own
    is left out. *)
Definition simple_statement (start cursor : nat) : P (option MethodStatement) :=
  let expression_start := next_significant start in
  let expression_end := previous_significant cursor in
  let k := statement_kind start in
  let span := mkSpan (offset (tok start)) (offset (tok cursor) + 1) (line (tok start)) (column (tok start)) in
  if bool_decide (k ∈ [return_; break_; continue_]) && bool_decide (expression_end = Some start)
  then mret (Some (mkStatement span k no_expression [] [] [] no_for no_declared))
  else
    match expression_start, expression_end with
    | Some expression_start, Some expression_end =>
        if (expression_start <=? expression_end)%nat then
          let '(name, value_start) :=
            match k with
            | return_ => ([], expression_start)
            | binding => binding_value expression_start start cursor
            | _ => ([], start)
            end in
          e ← parse_expression value_start expression_end;
          let name := if is_text start "throw" then lit "throw" else name in
          '(d, e) ← declared_local start expression_end k e;
          mret (Some (mkStatement span k e name [] [] no_for d))
        else mret None
    | _, _ => mret None
    end.

Definition block_kind (start : nat) : StatementKind :=
  if is_text start "if" then conditional else if is_any start ["while"; "for"] then loop_ else block.

(** A block statement that closes at [cursor]; [body] reads the statements between two
    braces.  The second result is where the statement ends. *)
Definition block_statement (body : nat -> nat -> P (list MethodStatement)) (start cursor closing : nat) : P (MethodStatement * nat) :=
  brace ← within (seek_brace start cursor);
  e ← parse_expression start cursor;
  '(children, (h, e)) ←
    (if (brace <? cursor)%nat then
       children ← body brace cursor;
       header ← block_header start e;
       mret (children, header)
     else mret ([], (no_for, e)));
  let control := lexeme (tok start) in
  other ← (if is_text start "if" then fun p => (alternative_of cursor closing, p) else mret None);
  match other with
  | Some (opening, finish, last) =>
      alternative ← body opening finish;
      mret (mkStatement (span_of start last) (block_kind start) e control children alternative h no_declared, last)
  | None => mret (mkStatement (span_of start cursor) (block_kind start) e control children [] h no_declared, cursor)
  end.

(** The statements from [start] up to [closing]. *)
Fixpoint body_loop (fuel : nat) (start : option nat) (closing : nat) : P (list MethodStatement) :=
  match fuel with
  | O => fun p => (NoFuel, p)
  | S fuel =>
      match start with
      | None => mret []
      | Some start =>
          if (closing <=? start)%nat then mret []
          else
            '(cursor, is_block) ← (fun p => (statement_end (S (length tokens))
                (is_any start ["{"; "if"; "while"; "for"; "switch"; "try"; "catch"]) closing start 0 0 0, p));
            if (is_block : bool) then
              '(s, cursor) ← block_statement (fun opening closing => body_loop fuel (next_significant opening) closing) start cursor closing;
              rest ← body_loop fuel (next_significant cursor) closing;
              mret (s :: rest)
            else
              s ← (if is_text cursor ";" then simple_statement start cursor else mret None);
              rest ← body_loop fuel (next_significant cursor) closing;
              mret (match s with Some s => s :: rest | None => rest end)
      end
  end.

Definition parse_method_body (opening closing : nat) : P (list MethodStatement) :=
  body_loop (S (length tokens)) (next_significant opening) closing.
End Tokens.
