(* ===== verification/Parser.v ===== *)
(** * The parser of the Gungnir language ([src/language/parser.cpp])

    One pass over the tokens keeps the scopes and adds a flat list of nodes: bindings
    whose type is inferred, framework declarations with their members, and routes.  A
    declaration that does not fit the grammar adds a diagnostic, or is left to the C++
    compiler when it may be C++. *)

From S2P Require Import Prelude Text Cron Lexer Ast Expressions Statements.

Local Open Scope Z_scope.

(** ** Names *)

Definition framework_kind (l : bytes) : option FrameworkBaseKind :=
  if bool_decide (l = lit "model") then Some model
  else if bool_decide (l = lit "controller") then Some controller
  else if bool_decide (l = lit "migration") then Some migration
  else if bool_decide (l = lit "middleware") then Some middleware
  else if bool_decide (l = lit "policy") then Some policy
  else if bool_decide (l = lit "event") then Some event
  else if bool_decide (l = lit "listener") then Some listener
  else if bool_decide (l = lit "notification") then Some notification
  else if bool_decide (l = lit "mail") then Some mail
  else None.

Definition model_configuration_kind (l : bytes) : option ModelConfigurationKind :=
  if bool_decide (l = lit "table") then Some table
  else if bool_decide (l = lit "connection") then Some connection
  else if bool_decide (l = lit "timestamps") then Some timestamps
  else if bool_decide (l = lit "softDeletes") then Some soft_deletes
  else None.

Definition route_method_kind (l : bytes) : option RouteMethodKind :=
  if bool_decide (l = lit "get") then Some get
  else if bool_decide (l = lit "post") then Some post
  else if bool_decide (l = lit "put") then Some put
  else if bool_decide (l = lit "patch") then Some patch
  else if bool_decide (l ∈ [lit "delete"; lit "remove"]) then Some remove
  else if bool_decide (l = lit "options") then Some options
  else if bool_decide (l = lit "head") then Some head
  else None.

Definition model_relationship_kind (l : bytes) : option ModelRelationshipKind :=
  if bool_decide (l = lit "hasOne") then Some has_one
  else if bool_decide (l = lit "hasMany") then Some has_many
  else if bool_decide (l = lit "belongsTo") then Some belongs_to
  else if bool_decide (l = lit "belongsToMany") then Some belongs_to_many
  else if bool_decide (l = lit "hasOneThrough") then Some has_one_through
  else if bool_decide (l = lit "hasManyThrough") then Some has_many_through
  else None.

Definition relationship_requires_through (k : ModelRelationshipKind) : bool := bool_decide (k ∈ [has_one_through; has_many_through]).

Definition scalar_type (l : bytes) : bool :=
  bool_decide (l ∈ map lit ["string"; "int"; "integer"; "int64"; "uint64"; "bool"; "boolean"; "float"; "double"]).

Definition unquote (v : bytes) : bytes :=
  let quoted q := starts_with [q] v && ends_with [q] v in
  if (2 <=? length v)%nat && (quoted x22 || quoted x27) then take (length v - 2) (drop 1 v) else v.

Definition declaration_name (k : FrameworkBaseKind) : string :=
  match k with
  | model => "Model" | controller => "Controller" | migration => "Migration" | middleware => "Middleware"
  | policy => "Policy" | event => "Event" | listener => "Listener" | notification => "Notification" | mail => "Mail"
  end.

(** The base class of a [class] declaration. *)
Definition base_kind (l : bytes) : option FrameworkBaseKind :=
  if bool_decide (l = lit "Model") then Some model
  else if bool_decide (l = lit "Controller") then Some controller
  else if bool_decide (l = lit "Migration") then Some migration
  else if bool_decide (l = lit "Middleware") then Some middleware
  else if bool_decide (l = lit "Policy") then Some policy
  else if bool_decide (l = lit "Event") then Some event
  else if bool_decide (l = lit "Listener") then Some listener
  else if bool_decide (l = lit "Notification") then Some notification
  else if bool_decide (l = lit "Mail") then Some mail
  else None.

(** ** The state *)

Definition push_node (n : Node) : P unit :=
  modify (fun p => mkParser (nodes p ++ [n]) (diagnostics p) (scopes p) (framework_names p)).

Definition set_scopes (f : list (gset bytes) -> list (gset bytes)) : P unit :=
  modify (fun p => mkParser (nodes p) (diagnostics p) (f (scopes p)) (framework_names p)).

Definition reading {A} (f : Parser -> A) : P A := fun p => (Ok (f p), p).

Definition declared (name : bytes) : P bool := reading (fun p => existsb (fun s => bool_decide (name ∈ s)) (scopes p)).

Definition declared_here (name : bytes) : P bool :=
  reading (fun p => match scopes p with s :: _ => bool_decide (name ∈ s) | [] => false end).

Definition declare (name : bytes) : P unit :=
  set_scopes (fun l => match l with s :: l => ({[name]} ∪ s) :: l | [] => [{[name]}] end).

(** [framework_names_.insert(name).second]. *)
Definition insert_name (name : bytes) : P bool := fun p =>
  (Ok (bool_decide (name ∉ framework_names p)), mkParser (nodes p) (diagnostics p) (scopes p) ({[name]} ∪ framework_names p)).

Section Tokens.
Context (tokens : list Token).

Local Abbreviation tok := (tok tokens).
Local Abbreviation is_text := (is_text tokens).
Local Abbreviation kind_is := (kind_is tokens).
Local Abbreviation next_significant := (next_significant tokens).
Local Abbreviation previous_significant := (previous_significant tokens).
Local Abbreviation matching_symbol := (matching_symbol tokens).
Local Abbreviation parse_expression := (parse_expression tokens).
Local Abbreviation span_of := (span_of tokens).

Definition diagnose (i : nat) (what : bytes) (code : string) (hint : bytes) : P unit :=
  push_diagnosis (mkDiagnosis (line (tok i)) (column (tok i)) what (lit code) hint).

Definition statement_start (index : nat) : bool :=
  match previous_significant index with
  | None => true
  | Some previous => is_text previous "{" || is_text previous "}" || is_text previous ";"
  end.

Definition add_duplicate_diagnostic (i : nat) (name : bytes) : P unit :=
  diagnose i (lit "Binding '" ++ name ++ lit "' is already declared in this scope") "" [].

(** ** Models *)

(** The names of the fields and of the relationships of a model so far. *)
Record Members := mkMembers { field_names : gset bytes; relationship_names : gset bytes }.

(** [table = "users";] and the like, from the word at [cursor]. *)
Definition model_configuration (class_name : bytes) (cursor body_close : nat) (k : ModelConfigurationKind) : P nat :=
  let word_ := lexeme (tok cursor) in
  let equals := next_significant cursor in
  let value := equals ≫= next_significant in
  let semicolon := value ≫= next_significant in
  let invalid :=
    _ ← diagnose cursor (lit "Invalid model configuration '" ++ word_ ++ lit "'") "GNR1101" (lit "Use '" ++ word_ ++ lit " = value;'.");
    mret cursor in
  match equals, value, semicolon with
  | Some equals, Some value, Some semicolon =>
      if (body_close <=? semicolon)%nat || negb (is_text equals "=") || negb (is_text semicolon ";") then invalid
      else
        let text := bool_decide (k ∈ [table; connection]) in
        if text && negb (kind_is value string_literal) then
          _ ← diagnose value (word_ ++ lit " must be a string") "GNR1102" (lit "Use a quoted string value.");
          mret semicolon
        else
          let enabled := is_text value "true" in
          if negb text && negb enabled && negb (is_text value "false") then
            _ ← diagnose value (word_ ++ lit " must be true or false") "GNR1103" (lit "Use a boolean literal.");
            mret semicolon
          else
            _ ← push_node (NModelConfiguration (mkModelConfiguration (span_of cursor semicolon) class_name k
                  (if text then unquote (lexeme (tok value)) else lexeme (tok value)) enabled));
            mret semicolon
  | _, _, _ => invalid
  end.

(** The semicolon of [id;]. *)
Definition id_shorthand (cursor body_close : nat) : option nat :=
  if is_text cursor "id" then
    semicolon ← next_significant cursor;
    if (semicolon <? body_close)%nat && is_text semicolon ";" then Some semicolon else None
  else None.

Definition duplicate_field (i : nat) (name : bytes) : P unit :=
  diagnose i (lit "Duplicate model field '" ++ name ++ lit "'") "GNR1110" (lit "Declare each model field only once.").

Definition model_id (class_name : bytes) (cursor semicolon : nat) (names : Members) : P Members :=
  if bool_decide (lit "id" ∈ field_names names) then _ ← duplicate_field cursor (lit "id"); mret names
  else
    _ ← push_node (NModelField (mkModelField (span_of cursor semicolon) (token_span (tok cursor)) class_name
          (lit "integer") (lit "id") false true true));
    mret (mkMembers ({[lit "id"]} ∪ field_names names) (relationship_names names)).

(** A method without parameters that returns a relationship: its closing brace, the
    factory and its kind. *)
Definition relationship_at (cursor body_close : nat) : option (nat * nat * ModelRelationshipKind) :=
  if negb (kind_is cursor identifier) then None
  else
    open_paren ← next_significant cursor;
    if negb ((open_paren <? body_close)%nat && is_text open_paren "(") then None
    else
      close_paren ← matching_symbol open_paren "(" ")";
      first_parameter ← next_significant open_paren;
      if negb ((close_paren <? body_close)%nat && (first_parameter =? close_paren)%nat) then None
      else
        method_open ← next_significant close_paren;
        if negb ((method_open <? body_close)%nat && is_text method_open "{") then None
        else
          method_close ← matching_symbol method_open "{" "}";
          if negb (method_close <=? body_close)%nat then None
          else
            returned ← next_significant method_open;
            if negb ((returned <? method_close)%nat && is_text returned "return") then None
            else
              factory ← next_significant returned;
              if negb (factory <? method_close)%nat then None
              else k ← model_relationship_kind (lexeme (tok factory)); Some (method_close, factory, k).

(** The related type and what follows it. *)
Definition related_type (factory method_close : nat) : option nat :=
  angle_open ← next_significant factory;
  related ← next_significant angle_open;
  if (related <? method_close)%nat && is_text angle_open "<" && kind_is related identifier then Some related else None.

(** The through type, and the token after the type arguments. *)
Definition through_type (related method_close : nat) : bytes * option nat :=
  match next_significant related with
  | Some comma =>
      if (comma <? method_close)%nat && is_text comma "," then
        match next_significant comma with
        | Some through =>
            if (through <? method_close)%nat && kind_is through identifier
            then (lexeme (tok through), next_significant through) else ([], Some comma)
        | None => ([], Some comma)
        end
      else ([], Some comma)
  | None => ([], None)
  end.

(** The parentheses of the arguments, when the method holds nothing else. *)
Definition relationship_arguments (angle_close method_close : nat) : option (nat * nat) :=
  args_open ← next_significant angle_close;
  if negb ((args_open <? method_close)%nat && is_text args_open "(") then None
  else
    args_close ← matching_symbol args_open "(" ")";
    semicolon ← next_significant args_close;
    after_return ← next_significant semicolon;
    if (args_close <? method_close)%nat && (semicolon <? method_close)%nat && is_text semicolon ";" && (after_return =? method_close)%nat
    then Some (args_open, args_close) else None.

(** The key overrides in the [n] positions from [i] on: string literals and commas. *)
Fixpoint string_arguments (n i : nat) : option (list bytes) :=
  match n with
  | O => Some []
  | S n =>
      if trivia (tok i) || is_text i "," then string_arguments n (S i)
      else if negb (kind_is i string_literal) then None
      else rest ← string_arguments n (S i); Some (unquote (lexeme (tok i)) :: rest)
  end.

Definition model_relationship (class_name : bytes) (cursor method_close factory : nat) (k : ModelRelationshipKind) (names : Members) : P Members :=
  let refuse i what code hint := _ ← diagnose i (lit what) code (lit hint); mret names in
  match related_type factory method_close with
  | None => refuse factory "Invalid model relationship declaration" "GNR1120" "Use syntax like 'posts() { return hasMany<Post>(); }'."
  | Some related =>
      let '(through, angle_close) := through_type related method_close in
      let closed := match angle_close with Some a => (a <? method_close)%nat && is_text a ">" | None => false end in
      match angle_close with
      | Some angle =>
          if negb closed || (relationship_requires_through k && bool_decide (through = []))
          then refuse factory "Invalid relationship type arguments" "GNR1121"
                 "Through relationships require both related and through model types."
          else
            match relationship_arguments angle method_close with
            | None => refuse factory "Relationship method must return one relationship expression" "GNR1122"
                        "Keep the relationship body to a single return statement."
            | Some (args_open, args_close) =>
                match string_arguments (args_close - S args_open) (S args_open) with
                | None => refuse args_open "Relationship key overrides must be string literals" "GNR1123"
                            "Use quoted column or pivot names in relationship arguments."
                | Some arguments =>
                    let name := lexeme (tok cursor) in
                    if bool_decide (name ∈ relationship_names names) then
                      _ ← diagnose cursor (lit "Duplicate model relationship '" ++ name ++ lit "'") "GNR1124"
                            (lit "Declare each model relationship only once.");
                      mret names
                    else
                      _ ← push_node (NModelRelationship (mkModelRelationship (span_of cursor method_close) class_name name k
                            (lexeme (tok related)) through arguments));
                      mret (mkMembers (field_names names) ({[name]} ∪ relationship_names names))
                end
            end
      | None => refuse factory "Invalid relationship type arguments" "GNR1121"
                  "Through relationships require both related and through model types."
      end
  end.

(** A field of a scalar type: its name, and whether it is nullable. *)
Definition field_at (cursor body_close : nat) : option (nat * bool) :=
  if negb (scalar_type (lexeme (tok cursor))) then None
  else
    name ← next_significant cursor;
    let nullable := is_text name "?" in
    name ← (if nullable then next_significant name else Some name);
    if negb ((name <? body_close)%nat && kind_is name identifier) then None
    else
      marker ← next_significant name;
      if (marker <? body_close)%nat && (is_text marker ";" || is_text marker "=") then Some (name, nullable) else None.

Definition model_field (class_name : bytes) (cursor name : nat) (nullable : bool) (names : Members) : P (Members * nat) :=
  let field_name := lexeme (tok name) in
  if bool_decide (field_name ∈ field_names names) then _ ← duplicate_field name field_name; mret (names, cursor)
  else
    _ ← push_node (NModelField (mkModelField (span_of cursor name)
          (mkSpan (offset (tok cursor)) (offset (tok name)) (line (tok cursor)) (column (tok cursor)))
          class_name (lexeme (tok cursor)) field_name nullable (bool_decide (field_name = lit "id")) false));
    mret (mkMembers ({[field_name]} ∪ field_names names) (relationship_names names), name).

(** One round of [parse_model_members]; the position is where the round ends. *)
Definition model_member (class_name : bytes) (cursor body_close : nat) (names : Members) : P (Members * nat) :=
  if trivia (tok cursor) then mret (names, cursor)
  else
    match model_configuration_kind (lexeme (tok cursor)) with
    | Some k => cursor ← model_configuration class_name cursor body_close k; mret (names, cursor)
    | None =>
        match id_shorthand cursor body_close with
        | Some semicolon => names ← model_id class_name cursor semicolon names; mret (names, semicolon)
        | None =>
            match relationship_at cursor body_close with
            | Some (method_close, factory, k) =>
                names ← model_relationship class_name cursor method_close factory k names; mret (names, method_close)
            | None =>
                match field_at cursor body_close with
                | Some (name, nullable) => model_field class_name cursor name nullable names
                | None => mret (names, cursor)
                end
            end
        end
    end.

(** [for (cursor = ...; cursor < body_close; ++cursor)], where a round may move [cursor]. *)
Fixpoint members_loop {A} (round : nat -> A -> P (A * nat)) (fuel cursor body_close : nat) (st : A) : P unit :=
  match fuel with
  | O => fun p => (NoFuel, p)
  | S fuel =>
      if (body_close <=? cursor)%nat then mret tt
      else '(st, cursor) ← round cursor st; members_loop round fuel (S cursor) body_close st
  end.

Definition parse_model_members (class_name : bytes) (body_open body_close : nat) : P unit :=
  members_loop (fun cursor names => model_member class_name cursor body_close names) (S (length tokens)) (S body_open) body_close
    (mkMembers ∅ ∅).

(** ** Controllers and other declarations with methods *)

(** [inject Type name;]. *)
Definition inject_declaration (class_name : bytes) (cursor body_close : nat) (names : gset bytes) : P (gset bytes * nat) :=
  let type := next_significant cursor in
  let name := type ≫= next_significant in
  let semicolon := name ≫= next_significant in
  let invalid :=
    _ ← diagnose cursor (lit "inject requires: inject Type name;") "GNR1201"
          (lit "Declare an injected dependency with a type and field name.");
    mret (names, cursor) in
  match type, name, semicolon with
  | Some type, Some name, Some semicolon =>
      if (body_close <=? semicolon)%nat || negb (word (tok type)) || negb (kind_is name identifier) || negb (is_text semicolon ";") then invalid
      else if bool_decide (lexeme (tok name) ∈ names) then
        _ ← diagnose name (lit "Duplicate injected dependency '" ++ lexeme (tok name) ++ lit "'") "GNR1202"
              (lit "Use a unique name for each injected dependency.");
        mret (names, semicolon)
      else
        _ ← push_node (NInjectDeclaration (mkInject (span_of cursor name) (token_span (tok type)) (token_span (tok name)) class_name
              (lexeme (tok type)) (lexeme (tok name))));
        mret ({[lexeme (tok name)]} ∪ names, semicolon)
  | _, _, _ => invalid
  end.

Record MethodHead := mkMethodHead {
  mh_asynchronous : bool; mh_return_type : nat; mh_name : nat; mh_open : nat; mh_close : nat; mh_body_open : nat; mh_body_close : nat
}.

(** A method that starts at [cursor]. *)
Definition method_at (cursor body_close : nat) : option MethodHead :=
  let asynchronous := is_text cursor "async" in
  return_type ← (if asynchronous then
                   next ← next_significant cursor; if (body_close <=? next)%nat then None else Some next
                 else Some cursor);
  if negb (word (tok return_type)) then None
  else
    name ← next_significant return_type;
    open ← next_significant name;
    if (body_close <=? open)%nat || negb (kind_is name identifier) || negb (is_text open "(") then None
    else
      close ← matching_symbol open "(" ")";
      if (body_close <=? close)%nat then None
      else
        method_open ← next_significant close;
        if (body_close <=? method_open)%nat || negb (is_text method_open "{") then None
        else
          method_close ← matching_symbol method_open "{" "}";
          if (body_close <? method_close)%nat then None
          else Some (mkMethodHead asynchronous return_type name open close method_open method_close).

(** The parameters and the body of a method. *)
Definition method_parts (h : MethodHead) : P (list MethodParameter * list MethodStatement) :=
  parameters ← (fun p => (parse_parameters tokens (mh_open h) (mh_close h), p));
  body ← parse_method_body tokens (mh_body_open h) (mh_body_close h);
  mret (parameters, body).

Definition controller_member (class_name : bytes) (cursor body_close : nat) (names : gset bytes) : P (gset bytes * nat) :=
  if trivia (tok cursor) then mret (names, cursor)
  else if is_text cursor "inject" then inject_declaration class_name cursor body_close names
  else
    match method_at cursor body_close with
    | None => mret (names, cursor)
    | Some h =>
        '(parameters, body) ← method_parts h;
        _ ← push_node (NControllerMethod (mkControllerMethod (span_of cursor (mh_body_close h)) (token_span (tok (mh_return_type h)))
              (token_span (tok (mh_name h))) class_name (lexeme (tok (mh_return_type h))) (lexeme (tok (mh_name h)))
              (mh_asynchronous h) parameters body));
        mret (names, mh_body_close h)
    end.

Definition parse_controller_members (class_name : bytes) (body_open body_close : nat) : P unit :=
  members_loop (fun cursor names => controller_member class_name cursor body_close names) (S (length tokens)) (S body_open) body_close ∅.

Definition framework_member (class_name : bytes) (k : FrameworkBaseKind) (cursor body_close : nat) (u : unit) : P (unit * nat) :=
  if trivia (tok cursor) then mret (u, cursor)
  else
    match method_at cursor body_close with
    | None => mret (u, cursor)
    | Some h =>
        '(parameters, body) ← method_parts h;
        _ ← push_node (NFrameworkMethod (mkFrameworkMethod (span_of cursor (mh_body_close h)) (token_span (tok (mh_return_type h)))
              (token_span (tok (mh_name h))) class_name k (lexeme (tok (mh_return_type h))) (lexeme (tok (mh_name h)))
              (mh_asynchronous h) parameters body));
        mret (u, mh_body_close h)
    end.

Definition parse_framework_methods (class_name : bytes) (k : FrameworkBaseKind) (body_open body_close : nat) : P unit :=
  members_loop (fun cursor u => framework_member class_name k cursor body_close u) (S (length tokens)) (S body_open) body_close tt.

Definition parse_framework_members (class_name : bytes) (k : FrameworkBaseKind) (body_open body_close : nat) : P unit :=
  match k with
  | model => parse_model_members class_name body_open body_close
  | controller => parse_controller_members class_name body_open body_close
  | _ => parse_framework_methods class_name k body_open body_close
  end.

(** ** Routes *)

(** The first comma of the [n] positions from [cursor] on that is in no bracket. *)
Fixpoint find_comma (n cursor parentheses braces brackets : nat) : option nat :=
  match n with
  | O => None
  | S n =>
      if trivia (tok cursor) then find_comma n (S cursor) parentheses braces brackets
      else if is_text cursor "(" then find_comma n (S cursor) (S parentheses) braces brackets
      else if is_text cursor ")" then find_comma n (S cursor) (Nat.pred parentheses) braces brackets
      else if is_text cursor "{" then find_comma n (S cursor) parentheses (S braces) brackets
      else if is_text cursor "}" then find_comma n (S cursor) parentheses (Nat.pred braces) brackets
      else if is_text cursor "[" then find_comma n (S cursor) parentheses braces (S brackets)
      else if is_text cursor "]" then find_comma n (S cursor) parentheses braces (Nat.pred brackets)
      else if is_text cursor "," && (parentheses =? 0)%nat && (braces =? 0)%nat && (brackets =? 0)%nat then Some cursor
      else find_comma n (S cursor) parentheses braces brackets
  end.

(** The method and the opening parenthesis of [Route::get(]. *)
Definition route_head (index : nat) : option (nat * nat * RouteMethodKind) :=
  if negb (is_text index "Route") then None
  else
    colon_one ← next_significant index;
    colon_two ← next_significant colon_one;
    method ← next_significant colon_two;
    open ← next_significant method;
    if negb (is_text colon_one ":") || negb (is_text colon_two ":") || negb (is_text open "(") then None
    else k ← route_method_kind (lexeme (tok method)); Some (method, open, k).

(** The text of the URI when it is a single literal before the comma. *)
Definition route_uri (open comma : nat) : option bytes :=
  uri ← next_significant open;
  after_uri ← next_significant uri;
  if (uri <? comma)%nat && kind_is uri string_literal && (after_uri =? comma)%nat then Some (unquote (lexeme (tok uri))) else None.

(** [Controller::action]. *)
Definition route_handler (comma close : nat) : option (nat * nat) :=
  controller_ ← next_significant comma;
  colon_one ← next_significant controller_;
  colon_two ← next_significant colon_one;
  action ← next_significant colon_two;
  if (action <? close)%nat && kind_is controller_ identifier && is_text colon_one ":" && is_text colon_two ":" && kind_is action identifier
  then Some (controller_, action) else None.

(** The name and the parenthesis of [.middleware(] after the call. *)
Definition middleware_call (close : nat) : option (nat * nat) :=
  dot ← next_significant close;
  name ← next_significant dot;
  open ← next_significant name;
  if is_text dot "." && is_text name "middleware" && is_text open "(" then Some (name, open) else None.

(** The one type between the parentheses. *)
Definition middleware_type (open close : nat) : option nat :=
  type ← next_significant open;
  after_type ← next_significant type;
  if (type <? close)%nat && kind_is type identifier && (after_type =? close)%nat then Some type else None.

(** The middleware of a route: [None] when the declaration is refused, and inside what the
    call names when there is one. *)
Definition route_middleware (close : nat) : P (option (option (SourceSpan * bytes))) :=
  match middleware_call close with
  | None => mret (Some None)
  | Some (name, open) =>
      match matching_symbol open "(" ")" with
      | None =>
          _ ← diagnose open (lit "Route middleware call is missing a closing parenthesis") "GNR1304"
                (lit "Close the middleware call with ')'.");
          mret None
      | Some middleware_close =>
          match middleware_type open middleware_close with
          | None =>
              _ ← diagnose open (lit "Route middleware requires one middleware type") "GNR1305" (lit "Use .middleware(AuthMiddleware).");
              mret None
          | Some type => mret (Some (Some (span_of name middleware_close, lexeme (tok type))))
          end
      end
  end.

Definition quoted_path : bytes := [x22] ++ lit "/path" ++ [x22].

Definition parse_route_declaration (index : nat) : P unit :=
  match route_head index with
  | None => mret tt
  | Some (method, open, k) =>
      match matching_symbol open "(" ")" with
      | None => diagnose open (lit "Route call is missing a closing parenthesis") "GNR1301" (lit "Close the Route call with ')'.")
      | Some close =>
          match find_comma (close - S open) (S open) 0 0 0 with
          | None => diagnose index (lit "Route requires a URI and controller action") "GNR1302"
                      (lit "Use Route::get(" ++ quoted_path ++ lit ", Controller::action).")
          | Some comma =>
              match route_handler comma close with
              | None => diagnose comma (lit "Route handler must be a controller action") "GNR1303"
                          (lit "Use a handler like UserController::index.")
              | Some (controller_, action) =>
                  m ← route_middleware close;
                  match m with
                  | None => mret tt
                  | Some m =>
                      let '(middleware_span, middleware_type_) := default (no_span, []) m in
                      let uri := route_uri open comma in
                      push_node (NRouteDeclaration (mkRoute (token_span (tok index)) (token_span (tok method))
                        (mkSpan (offset (tok controller_)) (offset (tok controller_)) (line (tok controller_)) (column (tok controller_)))
                        middleware_span k (lexeme (tok controller_)) (lexeme (tok action)) middleware_type_
                        (bool_decide (is_Some m)) (default [] uri) (bool_decide (is_Some uri))))
                  end
              end
          end
      end
  end.

(** ** Declarations *)

Definition set_members (members : list nat) (n : Node) : Node :=
  match n with
  | NFrameworkDeclaration d =>
      NFrameworkDeclaration (mkFrameworkDeclaration (fd_keyword_span d) (fd_name_end_span d) (fd_body_end_span d) (fd_class_name d)
        (fd_kind d) (fd_needs_semicolon d) (fd_span d) (fd_members d ++ members) (fd_body_open_span d))
  | _ => n
  end.

(** [std::get] on the node at [i] and a change of it. *)
Definition update_node (i : nat) (f : Node -> Node) : P unit :=
  modify (fun p => mkParser (alter f i (nodes p)) (diagnostics p) (scopes p) (framework_names p)).

(** The span of length zero behind a token. *)
Definition end_span (t : Token) : SourceSpan :=
  mkSpan (token_end t) (token_end t) (line t) (column t + Z.of_nat (length (lexeme t))).

(** Reads the members of a body: the positions of the nodes that became of them. *)
Definition read_members (class_name : bytes) (k : FrameworkBaseKind) (body body_close : nat) : P (list nat) :=
  members_begin ← reading (fun p => length (nodes p));
  _ ← parse_framework_members class_name k body body_close;
  members_end ← reading (fun p => length (nodes p));
  mret (seq members_begin (members_end - members_begin)).

(** A declaration with a name and a body from [body] to [body_close]. *)
Definition framework_declaration (index name body body_close : nat) (k : FrameworkBaseKind) : P unit :=
  fresh ← insert_name (lexeme (tok name));
  _ ← (if (fresh : bool) then mret tt
       else diagnose name (lit "Duplicate framework declaration '" ++ lexeme (tok name) ++ lit "'") "GNR1004"
              (lit "Give each framework declaration a unique name."));
  let has_semicolon := match next_significant body_close with Some a => is_text a ";" | None => false end in
  declaration_index ← reading (fun p => length (nodes p));
  _ ← push_node (NFrameworkDeclaration (mkFrameworkDeclaration (token_span (tok index)) (end_span (tok name)) (end_span (tok body_close))
        (lexeme (tok name)) k (negb has_semicolon) (span_of index body_close) [] (token_span (tok body))));
  members ← read_members (lexeme (tok name)) k body body_close;
  update_node declaration_index (set_members members).

Definition parse_framework_declaration (index : nat) : P unit :=
  global ← reading (fun p => (length (scopes p) =? 1)%nat);
  match framework_kind (lexeme (tok index)) with
  | Some k =>
      if negb (statement_start index) || negb global then mret tt
      else
        let declaration := lit (declaration_name k) in
        match next_significant index with
        | Some name =>
            if negb (kind_is name identifier)
            then diagnose index (declaration ++ lit " declaration requires a name") "GNR1001"
                   (lit "Use syntax like '" ++ lexeme (tok index) ++ lit " User { }'.")
            else
              match next_significant name with
              | Some body =>
                  if negb (is_text body "{")
                  then diagnose name (declaration ++ lit " declaration requires a body") "GNR1002"
                         (lit "Add a '{ ... }' body after the declaration name.")
                  else
                    match matching_symbol body "{" "}" with
                    | None => diagnose body (declaration ++ lit " body is missing a closing brace") "GNR1003"
                                (lit "Close the declaration body with '}'.")
                    | Some body_close => framework_declaration index name body body_close k
                    end
              | None => diagnose name (declaration ++ lit " declaration requires a body") "GNR1002"
                          (lit "Add a '{ ... }' body after the declaration name.")
              end
        | None => diagnose index (declaration ++ lit " declaration requires a name") "GNR1001"
                    (lit "Use syntax like '" ++ lexeme (tok index) ++ lit " User { }'.")
        end
  | None => mret tt
  end.

(** [class Name : Base]: the name, the base and its kind. *)
Definition class_head (index : nat) : option (nat * nat * FrameworkBaseKind) :=
  class_name ← next_significant index;
  if negb (kind_is class_name identifier) then None
  else
    colon ← next_significant class_name;
    if negb (is_text colon ":") then None
    else
      base ← next_significant colon;
      if negb (word (tok base)) then None
      else k ← base_kind (lexeme (tok base)); Some (class_name, base, k).

Definition parse_class (index : nat) : P unit :=
  match class_head index with
  | None => mret tt
  | Some (class_name, base, k) =>
      base_index ← reading (fun p => length (nodes p));
      let node declaration_span members body_open_span :=
        NFrameworkBase (mkFrameworkBase (token_span (tok base)) (lexeme (tok class_name)) k declaration_span members body_open_span) in
      _ ← push_node (node no_span [] no_span);
      match next_significant base with
      | Some body =>
          if is_text body "{" then
            match matching_symbol body "{" "}" with
            | Some body_close =>
                members ← read_members (lexeme (tok class_name)) k body body_close;
                update_node base_index (fun _ => node (span_of index body_close) members (token_span (tok body)))
            | None => mret tt
            end
          else mret tt
      | None => mret tt
      end
  end.

(** The name that a declaration with an explicit type declares. *)
Definition explicit_name (index : nat) : option bytes :=
  let named type :=
    name ← next_significant type;
    if negb (kind_is name identifier) then None
    else
      after ← next_significant name;
      if is_text after "=" || is_text after ";" || is_text after "{" then Some (lexeme (tok name)) else None in
  if negb (statement_start index) then None
  else if is_text index "const" then
    type ← next_significant index;
    if negb (kind_is type identifier) then None else named type
  else if negb (kind_is index identifier) then None
  else named index.

Definition register_explicit_declaration (index : nat) : P unit :=
  match explicit_name index with Some name => declare name | None => mret tt end.

(** ** The program *)

(** The semicolon outside brackets in the [n] positions from [cursor] on. *)
Fixpoint initializer_end (n cursor depth : nat) : option nat :=
  match n with
  | O => None
  | S n =>
      if trivia (tok cursor) then initializer_end n (S cursor) depth
      else
        let symbol := lexeme (tok cursor) in
        let depth := if opens symbol then S depth else if closes symbol then Nat.pred depth else depth in
        if is_text cursor ";" && (depth =? 0)%nat then Some cursor else initializer_end n (S cursor) depth
  end.

(** The initializer of a binding at the top level. *)
Definition binding_initializer (equals : nat) : P Expression :=
  global ← reading (fun p => (length (scopes p) =? 1)%nat);
  if negb global then mret no_expression
  else
    match next_significant equals with
    | None => mret no_expression
    | Some first =>
        match initializer_end (length tokens - first) first 0 ≫= previous_significant with
        | Some last => if (first <=? last)%nat then parse_expression first last else mret no_expression
        | None => mret no_expression
        end
    end.

(** [const name = value]: the name and the equals sign. *)
Definition constant_at (index : nat) : option (nat * nat) :=
  if negb (is_text index "const" && statement_start index) then None
  else
    name ← next_significant index;
    if negb (kind_is name identifier) then None
    else
      equals ← next_significant name;
      if negb (is_text equals "=") then None
      else if match next_significant equals with Some after => is_text after "=" | None => false end then None
      else Some (name, equals).

Definition constant_binding (index name equals : nat) : P unit :=
  let binding_name := lexeme (tok name) in
  here ← declared_here binding_name;
  _ ← (if (here : bool) then add_duplicate_diagnostic name binding_name else declare binding_name);
  e ← binding_initializer equals;
  push_node (NInferredBinding (mkBinding
    (mkSpan (offset (tok index)) (offset (tok name)) (line (tok index)) (column (tok index))) binding_name true e)).

(** [name = value;]: the first assignment of a name declares it. *)
Definition assignment (index : nat) : P unit :=
  if negb (kind_is index identifier && statement_start index) then mret tt
  else
    match next_significant index with
    | None => mret tt
    | Some equals =>
        if negb (is_text equals "=") then mret tt
        else if match next_significant equals with Some after => is_text after "=" | None => false end then mret tt
        else
          known ← declared (lexeme (tok index));
          if (known : bool) then mret tt
          else
            _ ← declare (lexeme (tok index));
            e ← binding_initializer equals;
            push_node (NInferredBinding (mkBinding
              (mkSpan (offset (tok index)) (offset (tok index)) (line (tok index)) (column (tok index))) (lexeme (tok index)) false e))
    end.

(** The closing parenthesis of a [for] header that starts at [index]. *)
Definition for_end (index : nat) (before : option nat) : option nat :=
  if is_text index "for" then
    match next_significant index with
    | Some open => if is_text open "(" then match matching_symbol open "(" ")" with Some close => Some close | None => before end else before
    | None => before
    end
  else before.

Definition application_reference (index : nat) : P unit :=
  if kind_is index identifier && is_text index "Application" &&
     negb (match previous_significant index with Some previous => is_text previous ":" | None => false end)
  then push_node (NApplicationReference (token_span (tok index))) else mret tt.

(** One round of the loop of [parse] for a token that is no trivia. *)
Definition parse_token (index : nat) (for_header_end : option nat) : P unit :=
  _ ← application_reference index;
  if is_text index "{" then set_scopes (fun l => ∅ :: l)
  else if is_text index "}" then set_scopes (fun l => if (1 <? length l)%nat then tail l else l)
  else
    _ ← parse_framework_declaration index;
    _ ← parse_route_declaration index;
    if is_text index "class" then parse_class index
    else if match for_header_end with Some e => (index <=? e)%nat | None => false end then mret tt
    else
      match constant_at index with
      | Some (name, equals) => constant_binding index name equals
      | None => _ ← register_explicit_declaration index; assignment index
      end.

Fixpoint parse_loop (n index : nat) (for_header_end : option nat) : P unit :=
  match n with
  | O => mret tt
  | S n =>
      if trivia (tok index) || kind_is index end_ then parse_loop n (S index) for_header_end
      else
        let for_header_end := for_end index for_header_end in
        _ ← parse_token index for_header_end;
        parse_loop n (S index) for_header_end
  end.

Definition empty_parser : Parser := mkParser [] [] [∅] ∅.

(** [Parser::parse]: the nodes and the diagnostics. *)
Definition parse : result (list Node * list Diagnosis) :=
  match parse_loop (length tokens) 0 None empty_parser with
  | (Ok _, p) => Ok (nodes p, diagnostics p)
  | (Throw e, _) => Throw e
  | (NoFuel, _) => NoFuel
  end.
End Tokens.
