(* ===== verification/ParserFacts.v ===== *)
(** Positions of the parser, and that reading an expression always ends: every range it
    recurses into is shorter and not empty.

    The parser of the Gungnir language: it ends on every vector of tokens, and its
    declarations own the nodes that became of their bodies. *)

From stdpp Require Import base list.
From Stdlib Require Import ZArith Bool Lia.
From stdpp Require Import base list gmap.
From S2P Require Import Prelude Text Lexer Ast Expressions Statements Parser.

(** ** Computations that return *)

(** The computation ends with a value, whatever the state. *)
Definition runs {A} (m : P A) : Prop := forall p, exists a p', m p = (Ok a, p').

Lemma runs_ret {A} (a : A) : runs (mret a).
Proof. intros p. by exists a, p. Qed.

Lemma runs_bind {A B} (m : P A) (f : A -> P B) : runs m -> (forall a, runs (f a)) -> runs (m ≫= f).
Proof. intros Hm Hf p. destruct (Hm p) as (a & p1 & E). rewrite (eff_bind_Ok _ _ _ _ _ E). apply Hf. Qed.

(** The continuation may use what the first computation is known to return. *)
Definition runs_to {A} (m : P A) (Q : A -> Prop) : Prop := forall p, exists a p', m p = (Ok a, p') /\ Q a.

Lemma runs_to_bind {A B} (m : P A) Q (f : A -> P B) : runs_to m Q -> (forall a, Q a -> runs (f a)) -> runs (m ≫= f).
Proof. intros Hm Hf p. destruct (Hm p) as (a & p1 & E & Ha). rewrite (eff_bind_Ok _ _ _ _ _ E). by apply Hf. Qed.

Lemma runs_to_step {A B} (m : P A) (f : A -> P B) Q R : runs_to m R -> (forall a, R a -> runs_to (f a) Q) -> runs_to (m ≫= f) Q.
Proof. intros Hm Hf p. destruct (Hm p) as (a & p1 & E & Ha). rewrite (eff_bind_Ok _ _ _ _ _ E). by apply Hf. Qed.

Lemma runs_to_ret {A} (a : A) (Q : A -> Prop) : Q a -> runs_to (mret a) Q.
Proof. intros H p. by exists a, p. Qed.

Lemma runs_true {A} (m : P A) : runs m -> runs_to m (fun _ => True).
Proof. intros H p. destruct (H p) as (a & p' & E). by exists a, p'. Qed.

Lemma runs_to_runs {A} (m : P A) Q : runs_to m Q -> runs m.
Proof. intros H p. destruct (H p) as (a & p' & E & _). by exists a, p'. Qed.

Lemma runs_modify (f : Parser -> Parser) : runs (modify f).
Proof. intros p. by eexists _, _. Qed.

Lemma runs_push d : runs (push_diagnosis d).
Proof. apply runs_modify. Qed.

Create HintDb parser.
#[export] Hint Resolve runs_ret runs_modify runs_push runs_true : parser.

(** Decomposes a computation into its steps. *)
Ltac runs_steps :=
  repeat match goal with
  | |- runs (_ ≫= _) => apply runs_bind; [|intros ?]
  | |- runs (if ?b then _ else _) => destruct b eqn:?
  | |- runs (match ?d with _ => _ end) => destruct d eqn:?
  end; eauto with parser.

(** ** Positions *)

Section Positions.
Context (tokens : list Token).

Lemma first_significant_spec l i j : first_significant l i = Some j ->
  (i <= j < i + length l)%nat /\ (exists t, l !! (j - i)%nat = Some t /\ significant t = true) /\
  forall k t, (i <= k < j)%nat -> l !! (k - i)%nat = Some t -> significant t = false.
Proof.
  revert i. induction l as [|t l IH]; intros i; cbn; [done|]. destruct (significant t) eqn:Es.
  - intros [= <-]. rewrite Nat.sub_diag. split_and!; [lia|lia|by exists t|lia].
  - intros Hf. apply IH in Hf as (Hr & (u & Hu & Hs) & Hno). split_and!; [lia|lia| |].
    + exists u. by replace (j - i)%nat with (S (j - S i))%nat by lia.
    + intros k u' Hk Hl. destruct (decide (k = i)) as [->|Hne].
      * rewrite Nat.sub_diag in Hl. by injection Hl as <-.
      * apply (Hno k); [lia|]. by replace (k - i)%nat with (S (k - S i))%nat in Hl by lia.
Qed.

Lemma next_spec i j : next_significant tokens i = Some j ->
  (i < j < length tokens)%nat /\ significant (tok tokens j) = true.
Proof.
  intros (Hr & (t & Ht & Hs) & _)%first_significant_spec. rewrite length_drop in Hr. split; [lia|].
  rewrite lookup_drop in Ht. unfold tok. by replace (S i + (j - S i))%nat with j in Ht by lia; rewrite Ht.
Qed.

Lemma last_significant_spec l i j : last_significant l i = Some j ->
  (i <= j < i + length l)%nat /\ (exists t, l !! (j - i)%nat = Some t /\ significant t = true) /\
  forall k t, (j < k)%nat -> l !! (k - i)%nat = Some t -> significant t = false.
Proof.
  revert i. induction l as [|t l IH]; intros i; cbn; [done|].
  assert (Hshift : forall k, (i < k)%nat -> (t :: l) !! (k - i)%nat = l !! (k - S i)%nat).
  { intros k Hk. by replace (k - i)%nat with (S (k - S i))%nat by lia. }
  destruct (last_significant l (S i)) as [j'|] eqn:El.
  - intros [= <-]. apply IH in El as (Hr & (u & Hu & Hs) & Hno). split_and!; [lia|lia| |].
    + exists u. by rewrite Hshift by lia.
    + intros k u' Hk Hl. rewrite Hshift in Hl by lia. by apply (Hno k).
  - destruct (significant t) eqn:Es; [|done]. intros [= <-]. rewrite Nat.sub_diag. split_and!; [lia|lia|by exists t|].
    intros k u Hk Hl. rewrite Hshift in Hl by lia. clear IH Hshift.
    assert (Hnone : forall l i k u, last_significant l i = None -> l !! k = Some u -> significant u = false).
    { clear. induction l as [|t l IH]; intros i k u; cbn; [done|]. destruct (last_significant l (S i)) eqn:E; [done|].
      destruct (significant t) eqn:Es; [done|]. intros _. destruct k; cbn; [by intros [= <-]|by eapply IH]. }
    by eapply Hnone.
Qed.

Lemma previous_spec i j : previous_significant tokens i = Some j ->
  (j < i)%nat /\ significant (tok tokens j) = true /\
  forall k, (k < i)%nat -> significant (tok tokens k) = true -> (k <= j)%nat.
Proof.
  intros (Hr & (t & Ht & Hs) & Hno)%last_significant_spec. rewrite length_take in Hr. rewrite Nat.sub_0_r in Ht.
  rewrite lookup_take_lt in Ht by lia. split_and!; [lia|by unfold tok; rewrite Ht|].
  intros k Hk Hsk. destruct (le_lt_dec k j) as [|Hlt]; [done|]. exfalso. unfold tok in Hsk.
  destruct (tokens !! k) as [u|] eqn:Eu; [|done]. specialize (Hno k u Hlt). rewrite Nat.sub_0_r, lookup_take_lt in Hno by done.
  specialize (Hno Eu). cbn in Hsk. congruence.
Qed.

Lemma match_from_spec open close depth l i j : match_from open close depth l i = Some j ->
  (i <= j < i + length l)%nat /\ exists t, l !! (j - i)%nat = Some t /\ trivia t = false /\ lexeme t = close.
Proof.
  revert depth i. induction l as [|t l IH]; intros depth i; cbn; [done|].
  assert (Hskip : forall depth, match_from open close depth l (S i) = Some j ->
    (i <= j < i + S (length l))%nat /\ exists u, (t :: l) !! (j - i)%nat = Some u /\ trivia u = false /\ lexeme u = close).
  { intros d Hm. apply IH in Hm as (Hr & u & Hu & Ht). split; [lia|]. exists u. by replace (j - i)%nat with (S (j - S i))%nat by lia. }
  destruct (trivia t) eqn:Et; [apply Hskip|]. case_bool_decide; [apply Hskip|]. case_bool_decide as Hc; [|apply Hskip].
  destruct depth as [|[|depth]]; [done| |apply Hskip]. intros [= <-]. rewrite Nat.sub_diag. split; [lia|]. by exists t.
Qed.

Lemma matching_spec i open close j : matching_symbol tokens i open close = Some j ->
  (i <= j < length tokens)%nat /\ trivia (tok tokens j) = false /\ lexeme (tok tokens j) = lit close.
Proof.
  intros (Hr & t & Ht & Htr & Hl)%match_from_spec. rewrite length_drop in Hr. split; [lia|]. rewrite lookup_drop in Ht.
  unfold tok. replace (i + (j - i))%nat with j in Ht by lia. by rewrite Ht.
Qed.

Lemma matching_after i open close j : lit open <> lit close -> is_text tokens i open = true ->
  matching_symbol tokens i open close = Some j -> (i < j)%nat.
Proof.
  intros Hne Hi Hm. apply matching_spec in Hm as (Hr & _ & Hc). apply bool_decide_eq_true in Hi.
  destruct (decide (i = j)) as [->|]; [congruence|lia].
Qed.

Lemma significant_trivia t : significant t = true -> trivia t = false.
Proof. unfold significant. by destruct (trivia t). Qed.

(** An expression that starts with a token that is no trivia has a token. *)
Lemma significant_between_nonempty first last : trivia (tok tokens first) = false -> (first <= last)%nat ->
  (0 < length (significant_between tokens first last))%nat.
Proof.
  intros Ht Hl. unfold significant_between. replace (S last - first)%nat with (S (last - first)) by lia.
  cbn [seq]. rewrite filter_cons_True by done. cbn. lia.
Qed.
End Positions.

#[export] Hint Resolve significant_trivia : parser.

(** ** Expressions *)

Section Expressions.
Context (tokens : list Token) (sig : list nat).

Local Abbreviation read_below n read := (forall b e, (b < e)%nat -> (e - b < n)%nat -> runs (read b e)).

Lemma split_loop_spec n i begin_ finish parens brackets braces best : (begin_ <= i)%nat ->
  (forall s, split_at best = Some s -> (begin_ < s)%nat /\ (s + split_width best < finish)%nat /\ (0 < split_width best)%nat) ->
  let best' := split_loop tokens sig n i begin_ finish parens brackets braces best in
  forall s, split_at best' = Some s -> (begin_ < s)%nat /\ (s + split_width best' < finish)%nat /\ (0 < split_width best')%nat.
Proof.
  revert i parens brackets braces best. induction n as [|n IH]; intros i parens brackets braces best Hi Hb; cbn [split_loop]; [done|].
  destruct (finish <=? i)%nat; [done|]. cbv zeta. destruct (_ || _) eqn:Eskip; [apply IH; [lia|done]|].
  assert (Hib : i <> begin_).
  { intros ->. by rewrite Nat.eqb_refl, orb_true_r in Eskip. }
  destruct (operator_at tokens sig i finish) as [op width] eqn:Eo.
  assert (Hw : (0 < width)%nat).
  { unfold operator_at in Eo. destruct (_ && _); injection Eo as _ <-; lia. }
  apply IH; [lia|]. destruct (_ && _ && _) eqn:Et; [|done]. cbn. intros s [= <-].
  apply andb_true_iff in Et as [Et _]. apply andb_true_iff in Et as [_ Et]. apply Nat.ltb_lt in Et. lia.
Qed.

Lemma find_split_spec begin_ finish i : split_at (find_split tokens sig begin_ finish) = Some i ->
  (begin_ < i)%nat /\ (i + split_width (find_split tokens sig begin_ finish) < finish)%nat /\
  (0 < split_width (find_split tokens sig begin_ finish))%nat.
Proof. by apply split_loop_spec. Qed.

Lemma find_open_spec open close n i finish j : find_open tokens sig open close n i finish = Some j -> (i <= j)%nat /\ (S j < finish)%nat.
Proof.
  revert i. induction n as [|n IH]; intros i; cbn; [done|]. destruct (Nat.leb_spec finish (S i)); [done|].
  destruct (_ && _); [intros [= <-]; lia|]. intros H1%IH. lia.
Qed.

Lemma find_colon_spec n colon finish j : find_colon tokens sig n colon finish = Some j -> (colon <= j)%nat /\ (S j < finish)%nat.
Proof.
  revert colon. induction n as [|n IH]; intros colon; cbn; [done|]. destruct (Nat.leb_spec finish (S colon)); [done|].
  destruct (value_is _ _ _ _); [intros [= <-]; lia|]. intros H1%IH. lia.
Qed.

Lemma runs_error i what code : runs (error_at tokens sig i what code).
Proof. apply runs_push. Qed.
Hint Resolve runs_error : parser.

Lemma leaf_runs b : runs (leaf tokens sig b).
Proof. unfold leaf. runs_steps. Qed.

(** The elements are read from ranges between the bounds, and what is left starts there. *)
Lemma elements_runs read missing code lo n i start finish depth done_ m : read_below m read -> (finish - lo <= m)%nat -> (lo < i)%nat ->
  (lo < start <= i)%nat -> runs_to (elements tokens sig read missing code n i start finish depth done_) (fun r => (lo < r.1)%nat).
Proof.
  intros Hread Hm. revert i start depth done_. induction n as [|n IH]; intros i start depth done_ Hi Hs; cbn [elements].
  - apply runs_to_ret. cbn. lia.
  - destruct (Nat.leb_spec finish i); [apply runs_to_ret; cbn; lia|]. cbv zeta. set (d := if opens _ then _ else _). clearbody d.
    destruct (_ && _); [|apply IH; lia]. eapply runs_to_step with (R := fun _ => True); [|intros l _; apply IH; lia].
    apply runs_true. destruct (Nat.ltb_spec start i); [|runs_steps]. apply runs_bind; [apply Hread; lia|auto with parser].
Qed.

Lemma append_entry_runs read lo start finish last o m : read_below m read -> (last - lo <= m)%nat -> (lo < start)%nat -> (finish <= last)%nat ->
  runs (append_entry tokens sig read start finish last o).
Proof.
  intros Hread Hm Hs Hf. unfold append_entry. destruct (Nat.leb_spec finish start); [runs_steps|].
  destruct (find_colon _ _ _ _ _) as [colon|] eqn:Ec; [|runs_steps]. apply find_colon_spec in Ec.
  apply runs_bind; [apply Hread; lia|intros key]. apply runs_bind; [apply Hread; lia|auto with parser].
Qed.

Lemma entries_runs read lo n i start last depth o m : read_below m read -> (last - lo <= m)%nat -> (lo < start <= i)%nat -> (i <= last)%nat ->
  runs (entries tokens sig read n i start last depth o).
Proof.
  intros Hread Hm. revert i start depth o. induction n as [|n IH]; intros i start depth o Hs Hi; cbn [entries].
  - by eapply append_entry_runs with (lo := lo); [done|lia..].
  - destruct (Nat.leb_spec last i); [by eapply append_entry_runs with (lo := lo); [done|lia..]|]. cbv zeta.
    set (d := if opens _ then _ else _). clearbody d. destruct (_ && _); [|apply IH; lia].
    apply runs_bind; [by eapply append_entry_runs with (lo := lo); [done|lia..]|intros o']. apply IH; lia.
Qed.

Lemma read_call_runs read b i e : read_below (e - b) read -> (b < i)%nat -> (S i < e)%nat -> runs (read_call tokens sig read b i e).
Proof.
  intros Hread Hb He. unfold read_call. apply runs_bind; [apply Hread; lia|intros callee].
  eapply runs_to_bind; [eapply elements_runs with (lo := i) (m := (e - b)%nat); [done|lia..]|]. intros [start arguments] Hs. cbn in Hs.
  apply runs_bind; [|auto with parser]. destruct (Nat.ltb_spec start (e - 1)).
  - apply runs_bind; [apply Hread; lia|auto with parser].
  - runs_steps.
Qed.

Lemma read_postfix_runs read b e : read_below (e - b) read -> (S b < e)%nat -> runs (read_postfix tokens sig read b e).
Proof.
  intros Hread Hb. unfold read_postfix.
  destruct (if value_is _ _ _ ")" then _ else _) as [i|] eqn:Ei.
  { destruct (value_is _ _ _ _); [|done]. apply find_open_spec in Ei. apply read_call_runs; [done|lia..]. }
  clear Ei. destruct (if value_is _ _ _ "]" then _ else _) as [i|] eqn:Ei.
  { destruct (value_is _ _ _ _); [|done]. apply find_open_spec in Ei. unfold read_subscript.
    apply runs_bind; [apply Hread; lia|intros base]. destruct (Nat.ltb_spec (S i) (e - 1)); [|runs_steps].
    apply runs_bind; [apply Hread; lia|auto with parser]. }
  unfold read_member.
  assert (Hdot : forall c, runs (if (b + 3 <=? e)%nat && c
    then base ← read b (e - 2)%nat; name ← read (e - 1)%nat e; mret (make tokens sig b e member (value tokens sig (e - 2)) [base; name])
    else mret (make tokens sig b e raw (value tokens sig b) []))).
  { intros c. destruct (Nat.leb_spec (b + 3) e); cbn [andb]; [|auto with parser]. destruct c; [|auto with parser].
    apply runs_bind; [apply Hread; lia|intros base]. apply runs_bind; [apply Hread; lia|auto with parser]. }
  destruct (Nat.leb_spec (b + 4) e); cbn [andb]; [|apply Hdot]. destruct (_ || _); [|apply Hdot].
  apply runs_bind; [apply Hread; lia|intros base]. apply runs_bind; [apply Hread; lia|auto with parser].
Qed.

Lemma read_unsplit_runs read b e : read_below (e - b) read -> (S b < e)%nat -> runs (read_unsplit tokens sig read b e).
Proof.
  intros Hread Hb. unfold read_unsplit. destruct (_ || _); [apply runs_bind; [apply Hread; lia|auto with parser]|].
  destruct (encloses _ _ "(" _ _ _).
  { destruct (Nat.ltb_spec (b + 2) e); [|auto with parser]. apply runs_bind; [apply Hread; lia|auto with parser]. }
  destruct (encloses _ _ "{" _ _ _).
  { apply runs_bind; [|intros []; auto with parser]. eapply entries_runs with (lo := b) (m := (e - b)%nat); [done|lia..]. }
  destruct (encloses _ _ "[" _ _ _); [|by apply read_postfix_runs].
  eapply runs_to_bind; [eapply elements_runs with (lo := b) (m := (e - b)%nat); [done|lia..]|]. intros [start arguments] Hs. cbn in Hs.
  destruct (Nat.ltb_spec start (e - 1)); [|auto with parser]. apply runs_bind; [apply Hread; lia|auto with parser].
Qed.

(** One unit of fuel per token is enough. *)
Lemma parse_range_runs fuel b e : (b < e)%nat -> (e - b <= fuel)%nat -> runs (parse_range tokens sig fuel b e).
Proof.
  revert b e. induction fuel as [|fuel IH]; intros b e Hb Hf; [lia|]. cbn [parse_range].
  destruct (Nat.eqb_spec (S b) e) as [|Hne]; [apply leaf_runs|]. cbv zeta.
  destruct (split_at (find_split tokens sig b e)) as [i|] eqn:Es.
  - apply find_split_spec in Es. apply runs_bind; [apply IH; lia|intros left]. apply runs_bind; [apply IH; lia|auto with parser].
  - apply read_unsplit_runs; [|lia]. intros b' e' Hb' He'. apply IH; lia.
Qed.

Lemma check_expression_runs : runs (check_expression tokens sig).
Proof. unfold check_expression. destruct (check_delimiters _ _ _). runs_steps. Qed.
End Expressions.

Lemma parse_expression_runs tokens first last : trivia (tok tokens first) = false -> (first <= last)%nat ->
  runs (parse_expression tokens first last).
Proof.
  intros Ht Hl. unfold parse_expression, parse_significant. apply runs_bind; [apply check_expression_runs|intros _].
  apply parse_range_runs; [by apply significant_between_nonempty|lia].
Qed.

Lemma runs_reading {A} (f : Expressions.Parser -> A) : runs (reading f).
Proof. intros p. by eexists _, _. Qed.

Lemma runs_declare n : runs (declare n).
Proof. apply runs_modify. Qed.

Lemma runs_push_node n : runs (push_node n).
Proof. apply runs_modify. Qed.

Lemma runs_pure {A} (r : result A) (Q : A -> Prop) : returns Q r -> runs_to (fun p => (r, p) : result A * Expressions.Parser) Q.
Proof. intros H p. destruct r as [a|e|]; [by exists a, p|done..]. Qed.

Lemma runs_set_scopes f : runs (set_scopes f).
Proof. apply runs_modify. Qed.

Lemma runs_insert_name n : runs (insert_name n).
Proof. intros p. by eexists _, _. Qed.

Lemma runs_update_node i f : runs (update_node i f).
Proof. apply runs_modify. Qed.

#[export] Hint Resolve runs_reading runs_declare runs_push_node runs_set_scopes runs_insert_name runs_update_node : parser.

Section Tokens.
Context (tokens : list Token).

Lemma runs_diagnose i what code hint : runs (diagnose tokens i what code hint).
Proof. apply runs_modify. Qed.
Hint Resolve runs_diagnose : parser.

(** ** Statements *)

Local Abbreviation room fuel cursor :=
  (match cursor with Some c => (c < length tokens)%nat /\ (length tokens - c < fuel)%nat | None => (0 < fuel)%nat end).

Lemma room_next fuel i : (length tokens - i < S fuel)%nat -> (i < length tokens)%nat -> room fuel (next_significant tokens i).
Proof. intros Hf Hi. destruct (next_significant tokens i) as [j|] eqn:Ej; [apply next_spec in Ej as [Hj _]|]; lia. Qed.

(** The search for the end of a parameter ends where it started or later. *)
Lemma parameter_end_returns fuel nested last cursor closing : room fuel cursor ->
  returns (fun r => match r.2 with Some c => exists a, cursor = Some a /\ (a <= c < length tokens)%nat | None => True end)
    (parameter_end tokens fuel nested last cursor closing).
Proof.
  revert nested last cursor. induction fuel as [|fuel IH]; intros nested last cursor Hf; [destruct cursor; lia|]. cbn [parameter_end].
  destruct cursor as [c|]; [|done]. destruct Hf as [Hc Hf]. destruct (closing <=? c)%nat; [exists c; by split|]. cbv zeta.
  set (nested' := if bool_decide _ then _ else _). clearbody nested'. destruct (_ && _); [exists c; by split|].
  eapply returns_impl; [|apply IH; by apply room_next]. cbn. intros [l [e|]]; cbn; [|done]. intros (a & Ha & Hr).
  apply next_spec in Ha as [Ha _]. exists c. split; [done|lia].
Qed.

Lemma parameters_returns fuel first closing : room fuel first -> returns (fun _ => True) (parameters_loop tokens fuel first closing).
Proof.
  revert first. induction fuel as [|fuel IH]; intros first Hf; [destruct first; lia|]. cbn [parameters_loop].
  destruct first as [f|]; [|done]. destruct Hf as [Hl Hf]. destruct (closing <=? f)%nat; [done|].
  eapply returns_bind; [apply parameter_end_returns, room_next; lia|]. intros [l c] Hc. cbn in Hc.
  eapply returns_bind; [|by intros]. apply IH. destruct c as [c|]; cbn [mbind option_bind].
  - destruct Hc as (a & Ha & Hr). apply next_spec in Ha as [Ha _]. apply room_next; lia.
  - lia.
Qed.

Lemma parse_parameters_returns opening closing : returns (fun _ => True) (parse_parameters tokens opening closing).
Proof.
  apply parameters_returns. destruct (next_significant tokens opening) as [j|] eqn:Ej; [apply next_spec in Ej as [Hj _]|]; lia.
Qed.

(** Where a statement ends. *)
Lemma statement_end_returns fuel b closing cursor braces parentheses brackets : (length tokens - cursor < fuel)%nat -> (cursor < length tokens)%nat ->
  returns (fun r => (cursor <= r.1 < length tokens)%nat) (statement_end tokens fuel b closing cursor braces parentheses brackets).
Proof.
  revert cursor braces parentheses brackets. induction fuel as [|fuel IH]; intros cursor braces parentheses brackets Hf Hc; [lia|].
  cbn [statement_end]. destruct (closing <=? cursor)%nat; [done|]. cbv zeta. repeat match goal with |- context [let _ := _ in _] => cbv zeta end.
  destruct (_ && _ && _ && _); [done|]. destruct (is_text tokens cursor ";" && _); [done|].
  destruct (next_significant tokens cursor) as [n|] eqn:En; [|done]. destruct (closing <=? n)%nat; [done|].
  apply next_spec in En as [Hn _]. eapply returns_impl; [|apply IH; lia]. intros [c k]. cbn. lia.
Qed.

Lemma find_brace_returns fuel i bound : (length tokens - i < fuel)%nat -> (i < length tokens)%nat ->
  returns (fun j => (i <= j < length tokens)%nat) (find_brace tokens fuel i bound).
Proof.
  revert i. induction fuel as [|fuel IH]; intros i Hf Hi; [lia|]. cbn [find_brace]. destruct (_ || _); [done|].
  destruct (next_significant tokens i) as [n|] eqn:En; [|done]. apply next_spec in En as [Hn _].
  eapply returns_impl; [|apply IH; lia]. cbn. lia.
Qed.

Lemma seek_brace_returns i bound : (i < length tokens)%nat -> returns (fun j => (i <= j < length tokens)%nat) (seek_brace tokens i bound).
Proof. intros Hi. apply find_brace_returns; lia. Qed.

(** An expression between two significant positions is read. *)
Lemma expression_runs first last : significant (tok tokens first) = true -> (first <= last)%nat -> runs (parse_expression tokens first last).
Proof. intros Hs Hl. apply parse_expression_runs; [by apply significant_trivia|done]. Qed.

Lemma for_binding_runs part_start finish h : runs (for_binding tokens part_start finish h).
Proof.
  unfold for_binding. cbv zeta. destruct (if is_text _ _ _ then _ else _) as [name|]; [|auto with parser]. cbn [mbind option_bind].
  destruct (next_significant tokens name) as [equals|]; cbn [mbind option_bind]; [|auto with parser].
  destruct (next_significant tokens equals) as [initializer|] eqn:Ei; [|auto with parser].
  destruct (_ && _) eqn:Et; [|auto with parser]. apply andb_true_iff in Et as [_ Et]. apply Nat.leb_le in Et. apply next_spec in Ei as [_ Hs].
  apply runs_bind; [by apply expression_runs|auto with parser].
Qed.

Lemma for_loop_runs n at_ part_start depth close h : trivia (tok tokens part_start) = false -> trivia (tok tokens close) = false ->
  (part_start = close \/ significant (tok tokens part_start) = true) ->
  runs_to (for_loop tokens n at_ part_start depth close h) (fun r => r.1 = close \/ significant (tok tokens r.1) = true).
Proof.
  revert at_ part_start depth h. induction n as [|n IH]; intros at_ part_start depth h Hp Hc Hs; cbn [for_loop]; [by apply runs_to_ret|].
  destruct (trivia (tok tokens at_)); [by apply IH|]. cbv zeta. set (d := if opens _ then _ else _). clearbody d.
  destruct (_ || _); [by apply IH|].
  eapply runs_to_step with (R := fun _ => True).
  { apply runs_true. destruct (previous_significant tokens at_) as [finish|]; [|auto with parser].
    destruct (Nat.leb_spec part_start finish); cbn [andb]; [|auto with parser]. destruct (negb _); [|auto with parser].
    by apply parse_expression_runs. }
  intros part _. eapply runs_to_step with (R := fun _ => True).
  { apply runs_true. destruct (previous_significant tokens at_); [|auto with parser]. destruct (_ =? _)%nat; [apply for_binding_runs|auto with parser]. }
  intros h' _. destruct (next_significant tokens at_) as [m|] eqn:Em; cbn [default].
  - apply next_spec in Em as [_ Hm]. apply IH; [by apply significant_trivia|done|by right].
  - apply IH; [done|done|by left].
Qed.

Lemma for_header_runs first last close e : significant (tok tokens first) = true -> trivia (tok tokens close) = false ->
  previous_significant tokens close = Some last -> runs (for_header tokens first last close e).
Proof.
  intros Hf Hc Hl. unfold for_header. eapply runs_to_bind; [apply for_loop_runs; [by apply significant_trivia|done|by right]|].
  intros [part_start h] Hp. cbn in Hp. apply runs_bind; [|auto with parser].
  destruct (Nat.ltb_spec part_start close) as [Hlt|]; [|auto with parser]. destruct Hp as [->|Hp]; [lia|].
  apply previous_spec in Hl as (_ & _ & Hl). apply expression_runs; [done|by apply Hl].
Qed.

Lemma block_header_runs start e : runs (block_header tokens start e).
Proof.
  unfold block_header. destruct (next_significant tokens start) as [open|]; [|auto with parser]. destruct (_ && _); [|auto with parser].
  cbv zeta. destruct (matching_symbol tokens open "(" ")") as [close|] eqn:Ec; [|auto with parser]. cbn [mbind option_bind].
  destruct (next_significant tokens open) as [first|] eqn:Ef; [|auto with parser].
  destruct (previous_significant tokens close) as [last|] eqn:El; [|auto with parser].
  apply matching_spec in Ec as (_ & Hc & _). apply next_spec in Ef as [_ Hf].
  destruct (_ && _) eqn:Et; [|auto with parser]. apply andb_true_iff in Et as [_ Et]. apply Nat.leb_le in Et.
  destruct (is_text tokens start "for"); [by eapply for_header_runs|]. apply runs_bind; [by apply expression_runs|auto with parser].
Qed.

Lemma chain_end_returns fuel finish closing : (length tokens - finish < fuel)%nat -> (finish < length tokens)%nat ->
  returns (fun j => (finish <= j < length tokens)%nat) (chain_end tokens fuel finish closing).
Proof.
  revert finish. induction fuel as [|fuel IH]; intros finish Hf Hl; [lia|]. cbn [chain_end].
  destruct (next_significant tokens finish) as [following|] eqn:E1; [|done]. apply next_spec in E1 as [H1 _]. destruct (_ || _); [done|].
  destruct (next_significant tokens following) as [arm|] eqn:E2; [|done]. apply next_spec in E2 as [H2 _]. destruct (closing <=? arm)%nat; [done|].
  eapply returns_bind with (P := fun j => (arm <= j < length tokens)%nat).
  { destruct (is_text _ _ _); [apply seek_brace_returns; lia|cbn; lia]. }
  intros o Ho. destruct (_ || _); [cbn; lia|]. destruct (matching_symbol tokens o _ _) as [e|] eqn:Em; [|cbn; lia].
  apply matching_spec in Em as (Hm & _). destruct (closing <=? e)%nat; [done|]. eapply returns_impl; [|apply IH; lia]. cbn. lia.
Qed.

(** The bounds of an alternative, which come after the conditional. *)
Lemma alternative_returns cursor closing : returns (fun r => match r with
    | Some (opening, _, last) => (cursor < opening)%nat /\ (opening <= last < length tokens)%nat | None => True end)
  (alternative_of tokens cursor closing).
Proof.
  unfold alternative_of. destruct (next_significant tokens cursor) as [otherwise|] eqn:E1; [|done]. apply next_spec in E1 as [H1 _].
  destruct (_ || _); [done|]. destruct (next_significant tokens otherwise) as [branch|] eqn:E2; [|done]. apply next_spec in E2 as [H2 _].
  destruct (is_text tokens branch "{").
  - destruct (matching_symbol tokens branch _ _) as [finish|] eqn:Em; [|done]. apply matching_spec in Em as (Hm & _).
    destruct (_ <? _)%nat; [|done]. cbn. lia.
  - destruct (is_text tokens branch "if"); [|done]. eapply returns_bind; [apply seek_brace_returns; lia|]. intros nested Hn. cbn in Hn.
    destruct (if (nested <? closing)%nat then _ else _) as [finish|] eqn:Em; [|done]. destruct (_ <? _)%nat in Em; [|done].
    apply matching_spec in Em as (Hm & _). destruct (finish <? closing)%nat; [|done].
    eapply returns_bind; [apply chain_end_returns; lia|]. intros f Hf. cbn in *. lia.
Qed.

Lemma declared_local_runs start expression_end k e : runs (declared_local tokens start expression_end k e).
Proof.
  unfold declared_local. cbv zeta. set (type := if is_text _ _ _ then _ else _). destruct type as [type|]; [|auto with parser].
  destruct (match Some type ≫= next_significant tokens with Some l => if is_any tokens l ["&"; "*"] then _ else Some l | None => None end) as [local|];
    [|auto with parser]. cbn [mbind option_bind].
  destruct (next_significant tokens local) as [marker|]; [|auto with parser]. destruct (_ && _); [|auto with parser].
  apply runs_bind; [|auto with parser]. destruct (is_text _ _ "="); [|auto with parser].
  destruct (next_significant tokens marker) as [i|] eqn:Ei; [|auto with parser]. apply next_spec in Ei as [_ Hs].
  destruct (Nat.leb_spec i expression_end); [by apply expression_runs|auto with parser].
Qed.

Lemma simple_statement_runs start cursor : significant (tok tokens start) = true -> runs (simple_statement tokens start cursor).
Proof.
  intros Hs. unfold simple_statement. cbv zeta. destruct (_ && _); [auto with parser|].
  destruct (next_significant tokens start) as [es|] eqn:E1; [|auto with parser]. apply next_spec in E1 as [H1 H1s].
  destruct (previous_significant tokens cursor) as [ee|] eqn:E2; [|auto with parser].
  destruct (Nat.leb_spec es ee); [|auto with parser]. apply previous_spec in E2 as (H2 & _ & Hmax).
  destruct (match statement_kind tokens start with return_ => _ | binding => _ | _ => _ end) as [name v] eqn:Ev.
  assert (Hv : significant (tok tokens v) = true /\ (v <= ee)%nat).
  { destruct (statement_kind tokens start); try (injection Ev as <- <-; split; [done|lia]).
    unfold binding_value in Ev. destruct (next_significant tokens es) as [eq|]; [|injection Ev as <- <-; split; [done|lia]].
    destruct (is_text _ _ _); [|injection Ev as <- <-; split; [done|lia]].
    destruct (next_significant tokens eq) as [i|] eqn:Ei; [|injection Ev as <- <-; split; [done|lia]]. apply next_spec in Ei as [_ Hi].
    destruct (Nat.ltb_spec i cursor); injection Ev as <- <-; [|split; [done|lia]]. split; [done|by apply Hmax]. }
  destruct Hv as [Hv Hve]. apply runs_bind; [by apply expression_runs|intros e]. apply runs_bind; [apply declared_local_runs|].
  intros [d e']. auto with parser.
Qed.

(** A block statement ends after it starts, when the bodies between later braces are read. *)
Lemma block_statement_runs body start cursor closing : significant (tok tokens start) = true -> (start <= cursor < length tokens)%nat ->
  (forall opening finish, (start <= opening)%nat -> runs (body opening finish)) ->
  runs_to (block_statement tokens body start cursor closing) (fun r => (cursor <= r.2 < length tokens)%nat).
Proof.
  intros Hs Hc Hbody. unfold block_statement. eapply runs_to_step; [apply runs_pure, seek_brace_returns; lia|]. intros brace Hb. cbn in Hb.
  eapply runs_to_step with (R := fun _ => True); [apply runs_true, expression_runs; [done|lia]|]. intros e _.
  eapply runs_to_step with (R := fun _ => True).
  { apply runs_true. destruct (_ <? _)%nat; [|auto with parser]. apply runs_bind; [apply Hbody; lia|intros children].
    apply runs_bind; [apply block_header_runs|auto with parser]. }
  intros [children [h e']] _. eapply runs_to_step with (R := fun r => match r with
    | Some (opening, _, last) => (cursor < opening)%nat /\ (opening <= last < length tokens)%nat | None => True end).
  { destruct (is_text _ _ _); [apply runs_pure, alternative_returns|by apply runs_to_ret]. }
  intros [[[opening finish] last]|] Ho; [|apply runs_to_ret; cbn; lia].
  eapply runs_to_step with (R := fun _ => True); [apply runs_true, Hbody; lia|]. intros alternative _. apply runs_to_ret. cbn. lia.
Qed.

Lemma body_loop_runs fuel start closing : room fuel start -> match start with Some s => significant (tok tokens s) = true | None => True end ->
  runs (body_loop tokens fuel start closing).
Proof.
  assert (Hnext : forall fuel i, (length tokens - i < S fuel)%nat -> (i < length tokens)%nat ->
    (forall start closing, room fuel start -> match start with Some s => significant (tok tokens s) = true | None => True end ->
      runs (body_loop tokens fuel start closing)) -> forall closing, runs (body_loop tokens fuel (next_significant tokens i) closing)).
  { intros f i Hf Hi IH c. apply IH; [by apply room_next|]. destruct (next_significant tokens i) eqn:E; [by apply next_spec in E as [_ ?]|done]. }
  revert start closing. induction fuel as [|fuel IH]; intros start closing Hf Hs; [destruct start; lia|]. cbn [body_loop].
  destruct start as [start|]; [|auto with parser]. destruct Hf as [Hl Hf]. destruct (closing <=? start)%nat; [auto with parser|].
  eapply runs_to_bind; [apply runs_pure, statement_end_returns; lia|]. intros [cursor []] Hc; cbn in Hc.
  - eapply runs_to_bind; [apply block_statement_runs; [done|done|]|].
    + intros opening finish Ho. destruct (le_lt_dec (length tokens) opening) as [Hge|Hlt]; [|apply Hnext; [lia|done|exact IH]].
      destruct (next_significant tokens opening) as [j|] eqn:Ej; [apply next_spec in Ej; lia|]. apply IH; [lia|done].
    + intros [s c] Hc'. cbn in Hc'. apply runs_bind; [apply Hnext; [lia|lia|exact IH]|auto with parser].
  - apply runs_bind; [destruct (is_text _ _ _); [by apply simple_statement_runs|auto with parser]|intros s].
    apply runs_bind; [apply Hnext; [lia|lia|exact IH]|auto with parser].
Qed.

Lemma parse_method_body_runs opening closing : runs (parse_method_body tokens opening closing).
Proof.
  apply body_loop_runs; destruct (next_significant tokens opening) as [j|] eqn:Ej; try apply next_spec in Ej as [Hj Hs]; try lia; done.
Qed.

(** ** Members *)

Lemma members_loop_runs {A} (round : nat -> A -> P (A * nat)) fuel cursor body_close st :
  (forall cursor st, runs_to (round cursor st) (fun r => (cursor <= r.2)%nat)) -> (body_close - cursor < fuel)%nat ->
  runs (members_loop round fuel cursor body_close st).
Proof.
  intros Hround. revert cursor st. induction fuel as [|fuel IH]; intros cursor st Hf; [lia|]. cbn [members_loop].
  destruct (Nat.leb_spec body_close cursor); [auto with parser|]. eapply runs_to_bind; [apply Hround|]. intros [st' c] Hc. cbn in Hc.
  apply IH. lia.
Qed.

(** A computation followed by a position that is given. *)
Lemma runs_then {A B} (m : P A) (f : A -> B) (Q : B -> Prop) : runs m -> (forall a, Q (f a)) -> runs_to (a ← m; mret (f a)) Q.
Proof. intros Hm HQ. eapply runs_to_step; [by apply runs_true|]. intros a _. by apply runs_to_ret. Qed.

Lemma model_configuration_runs class_name cursor body_close k :
  runs_to (model_configuration tokens class_name cursor body_close k) (fun c => (cursor <= c)%nat).
Proof.
  assert (Hd : forall i what code hint c, (cursor <= c)%nat -> runs_to (_ ← diagnose tokens i what code hint; mret c) (fun c => (cursor <= c)%nat)).
  { intros. apply runs_then; auto with parser. }
  unfold model_configuration. cbv zeta. destruct (next_significant tokens cursor) as [e|] eqn:E1; cbn [mbind option_bind]; [|by apply Hd].
  destruct (next_significant tokens e) as [v|] eqn:E2; cbn [mbind option_bind]; [|by apply Hd].
  destruct (next_significant tokens v) as [c|] eqn:E3; [|by apply Hd].
  apply next_spec in E1 as [H1 _], E2 as [H2 _], E3 as [H3 _]. assert (cursor <= c)%nat by lia.
  destruct (_ || _); [by apply Hd|]. destruct (_ && _); [by apply Hd|]. destruct (_ && _); [by apply Hd|].
  apply runs_then; auto with parser.
Qed.

Lemma relationship_at_spec cursor body_close c f k : relationship_at tokens cursor body_close = Some (c, f, k) -> (cursor < c)%nat.
Proof.
  unfold relationship_at. destruct (negb _); [done|]. destruct (next_significant tokens cursor) as [o|] eqn:E1; cbn [mbind option_bind]; [|done].
  destruct (negb _); [done|]. destruct (matching_symbol tokens o _ _) as [cp|] eqn:E2; cbn [mbind option_bind]; [|done].
  destruct (next_significant tokens o) as [fp|]; cbn [mbind option_bind]; [|done]. destruct (negb _); [done|].
  destruct (next_significant tokens cp) as [mo|] eqn:E3; cbn [mbind option_bind]; [|done]. destruct (negb _); [done|].
  destruct (matching_symbol tokens mo _ _) as [mc|] eqn:E4; cbn [mbind option_bind]; [|done]. destruct (negb _); [done|].
  destruct (next_significant tokens mo) as [r|]; cbn [mbind option_bind]; [|done]. destruct (negb _); [done|].
  destruct (next_significant tokens r) as [fa|]; cbn [mbind option_bind]; [|done]. destruct (negb _); [done|].
  destruct (model_relationship_kind _); cbn; [|done]. intros [= <- <- <-].
  apply next_spec in E1 as [H1 _], E3 as [H3 _]. apply matching_spec in E2 as [H2 _], E4 as [H4 _]. lia.
Qed.

Lemma model_relationship_runs class_name cursor method_close factory k names :
  runs (model_relationship tokens class_name cursor method_close factory k names).
Proof. unfold model_relationship. cbv zeta. destruct (related_type _ _ _); [destruct (through_type _ _ _)|]; runs_steps. Qed.

Lemma model_member_runs class_name cursor body_close names :
  runs_to (model_member tokens class_name cursor body_close names) (fun r => (cursor <= r.2)%nat).
Proof.
  unfold model_member. destruct (trivia _); [by apply runs_to_ret|]. destruct (model_configuration_kind _).
  { eapply runs_to_step; [apply model_configuration_runs|]. intros c Hc. by apply runs_to_ret. }
  destruct (id_shorthand tokens cursor body_close) as [semicolon|] eqn:Ei.
  { unfold id_shorthand in Ei. destruct (is_text _ _ _); [|done]. destruct (next_significant tokens cursor) as [j|] eqn:Ej; [|done].
    cbn in Ei. destruct (_ && _); [|done]. injection Ei as <-. apply next_spec in Ej as [Hj _].
    apply runs_then; [|intros; cbn; lia]. unfold model_id, duplicate_field. runs_steps. }
  destruct (relationship_at tokens cursor body_close) as [[[c f] k]|] eqn:Er.
  { apply relationship_at_spec in Er. apply runs_then; [apply model_relationship_runs|intros; cbn; lia]. }
  destruct (field_at tokens cursor body_close) as [[name nullable]|] eqn:Ef; [|by apply runs_to_ret].
  assert (Hn : (cursor <= name)%nat).
  { unfold field_at in Ef. destruct (negb _); [done|]. destruct (next_significant tokens cursor) as [n|] eqn:En; cbn [mbind option_bind] in Ef; [|done].
    apply next_spec in En as [Hn _]. cbv zeta in Ef. destruct (is_text tokens n "?").
    - destruct (next_significant tokens n) as [n'|] eqn:En'; cbn [mbind option_bind] in Ef; [|done]. apply next_spec in En' as [Hn' _].
      destruct (negb _); [done|]. destruct (next_significant tokens n'); cbn in Ef; [|done]. destruct (_ && _); [|done]. injection Ef as <- _. lia.
    - cbn [mbind option_bind] in Ef. destruct (negb _); [done|]. destruct (next_significant tokens n); cbn in Ef; [|done].
      destruct (_ && _); [|done]. injection Ef as <- _. lia. }
  unfold model_field, duplicate_field. cbv zeta. destruct (bool_decide _); (apply runs_then; [auto with parser|intros; cbn; lia]).
Qed.

Lemma inject_runs class_name cursor body_close names :
  runs_to (inject_declaration tokens class_name cursor body_close names) (fun r => (cursor <= r.2)%nat).
Proof.
  assert (Hd : forall i what code hint (names : gset bytes) c, (cursor <= c)%nat ->
    runs_to (_ ← diagnose tokens i what code hint; mret (names, c)) (fun r => (cursor <= r.2)%nat)).
  { intros. apply runs_then; auto with parser. }
  unfold inject_declaration. cbv zeta. destruct (next_significant tokens cursor) as [e|] eqn:E1; cbn [mbind option_bind]; [|by apply Hd].
  destruct (next_significant tokens e) as [v|] eqn:E2; cbn [mbind option_bind]; [|by apply Hd].
  destruct (next_significant tokens v) as [c|] eqn:E3; [|by apply Hd].
  apply next_spec in E1 as [H1 _], E2 as [H2 _], E3 as [H3 _]. assert (cursor <= c)%nat by lia.
  destruct (_ || _); [by apply Hd|]. destruct (bool_decide _); [by apply Hd|]. apply runs_then; auto with parser.
Qed.

Lemma method_at_spec cursor body_close h : method_at tokens cursor body_close = Some h -> (cursor <= mh_body_close h)%nat.
Proof.
  unfold method_at. cbv zeta.
  assert (Hrest : forall r, (cursor <= r)%nat -> forall h, (if negb (word (tok tokens r)) then None else
      name ← next_significant tokens r; open ← next_significant tokens name;
      if (body_close <=? open)%nat || negb (kind_is tokens name identifier) || negb (is_text tokens open "(") then None
      else close ← matching_symbol tokens open "(" ")";
        if (body_close <=? close)%nat then None
        else method_open ← next_significant tokens close;
          if (body_close <=? method_open)%nat || negb (is_text tokens method_open "{") then None
          else method_close ← matching_symbol tokens method_open "{" "}";
            if (body_close <? method_close)%nat then None
            else Some (mkMethodHead (is_text tokens cursor "async") r name open close method_open method_close)) = Some h ->
      (cursor <= mh_body_close h)%nat).
  { intros r Hr h'. destruct (negb _); [done|]. destruct (next_significant tokens r) as [n|] eqn:E1; cbn [mbind option_bind]; [|done].
    destruct (next_significant tokens n) as [o|] eqn:E2; cbn [mbind option_bind]; [|done]. destruct (_ || _); [done|].
    destruct (matching_symbol tokens o _ _) as [c|] eqn:E3; cbn [mbind option_bind]; [|done]. destruct (_ <=? _)%nat; [done|].
    destruct (next_significant tokens c) as [mo|] eqn:E4; cbn [mbind option_bind]; [|done]. destruct (_ || _); [done|].
    destruct (matching_symbol tokens mo _ _) as [mc|] eqn:E5; cbn [mbind option_bind]; [|done]. destruct (_ <? _)%nat; [done|]. intros [= <-].
    apply next_spec in E1 as [H1 _], E2 as [H2 _], E4 as [H4 _]. apply matching_spec in E3 as [H3 _], E5 as [H5 _]. cbn. lia. }
  destruct (is_text tokens cursor "async").
  - destruct (next_significant tokens cursor) as [n|] eqn:En; cbn [mbind option_bind]; [|done]. apply next_spec in En as [Hn _].
    destruct (_ <=? _)%nat; cbn [mbind option_bind]; [done|]. apply Hrest. lia.
  - cbn [mbind option_bind]. by apply Hrest.
Qed.

Lemma method_parts_runs h : runs (method_parts tokens h).
Proof.
  unfold method_parts. eapply runs_to_bind; [apply runs_pure, parse_parameters_returns|]. intros parameters _.
  apply runs_bind; [apply parse_method_body_runs|auto with parser].
Qed.

(** A member that is a method: its node is added behind the body. *)
Lemma method_member_runs {A} (st : A) cursor (h : MethodHead) (node : list MethodParameter -> list MethodStatement -> Node) :
  (cursor <= mh_body_close h)%nat ->
  runs_to ('(parameters, body) ← method_parts tokens h; _ ← push_node (node parameters body); mret (st, mh_body_close h))
    (fun r => (cursor <= r.2)%nat).
Proof.
  intros Hc. eapply runs_to_step; [apply runs_true, method_parts_runs|]. intros [parameters body] _. apply runs_then; auto with parser.
Qed.

Lemma framework_members_runs class_name k body_open body_close : (body_close < length tokens)%nat ->
  runs (parse_framework_members tokens class_name k body_open body_close).
Proof.
  intros Hc. assert (Hmethods : runs (parse_framework_methods tokens class_name k body_open body_close)).
  { apply members_loop_runs; [|lia]. intros cursor st. unfold framework_member. destruct (trivia _); [by apply runs_to_ret|].
    destruct (method_at tokens cursor body_close) as [h|] eqn:Eh; [|by apply runs_to_ret]. apply method_at_spec in Eh. by apply method_member_runs. }
  destruct k; try exact Hmethods.
  - apply members_loop_runs; [|lia]. intros cursor st. apply model_member_runs.
  - apply members_loop_runs; [|lia]. intros cursor st. unfold controller_member. destruct (trivia _); [by apply runs_to_ret|].
    destruct (is_text _ _ _); [apply inject_runs|]. destruct (method_at tokens cursor body_close) as [h|] eqn:Eh; [|by apply runs_to_ret].
    apply method_at_spec in Eh. by apply method_member_runs.
Qed.

(** ** Declarations *)

Lemma read_members_runs class_name k body body_close : (body_close < length tokens)%nat -> runs (read_members tokens class_name k body body_close).
Proof.
  intros Hc. unfold read_members. apply runs_bind; [auto with parser|intros b]. apply runs_bind; [by apply framework_members_runs|intros _].
  apply runs_bind; auto with parser.
Qed.

Lemma framework_declaration_runs index : runs (parse_framework_declaration tokens index).
Proof.
  unfold parse_framework_declaration. apply runs_bind; [auto with parser|intros g]. destruct (framework_kind _) as [k|]; [|auto with parser].
  destruct (_ || _); [auto with parser|]. cbv zeta. destruct (next_significant tokens index) as [name|]; [|auto with parser].
  destruct (negb _); [auto with parser|]. destruct (next_significant tokens name) as [body|]; [|auto with parser].
  destruct (negb _); [auto with parser|]. destruct (matching_symbol tokens body _ _) as [c|] eqn:Ec; [|auto with parser].
  apply matching_spec in Ec as [Hc _]. unfold framework_declaration. cbv zeta. apply runs_bind; [auto with parser|intros f].
  apply runs_bind; [runs_steps|intros _]. apply runs_bind; [auto with parser|intros i]. apply runs_bind; [auto with parser|intros _].
  apply runs_bind; [apply read_members_runs; lia|auto with parser].
Qed.

Lemma route_runs index : runs (parse_route_declaration tokens index).
Proof.
  unfold parse_route_declaration. destruct (route_head tokens index) as [[[m o] k]|]; [|auto with parser].
  destruct (matching_symbol tokens o _ _) as [c|]; [|auto with parser]. destruct (find_comma _ _ _ _ _ _) as [comma|]; [|auto with parser].
  destruct (route_handler tokens comma c) as [[ctl a]|]; [|auto with parser]. apply runs_bind.
  - unfold route_middleware. runs_steps.
  - intros [m'|]; [|auto with parser]. cbv zeta. destruct (default _ _). auto with parser.
Qed.

Lemma class_runs index : runs (parse_class tokens index).
Proof.
  unfold parse_class. destruct (class_head tokens index) as [[[n b] k]|]; [|auto with parser].
  apply runs_bind; [auto with parser|intros i]. cbv zeta. apply runs_bind; [auto with parser|intros _].
  destruct (next_significant tokens b) as [body|]; [|auto with parser]. destruct (is_text _ _ _); [|auto with parser].
  destruct (matching_symbol tokens body _ _) as [c|] eqn:Ec; [|auto with parser]. apply matching_spec in Ec as [Hc _].
  apply runs_bind; [apply read_members_runs; lia|auto with parser].
Qed.

Lemma binding_initializer_runs equals : runs (binding_initializer tokens equals).
Proof.
  unfold binding_initializer. apply runs_bind; [auto with parser|intros g]. destruct (negb _); [auto with parser|].
  destruct (next_significant tokens equals) as [first|] eqn:E1; [|auto with parser]. apply next_spec in E1 as [_ Hs].
  destruct (_ ≫= _) as [last|]; [|auto with parser]. destruct (Nat.leb_spec first last); [by apply expression_runs|auto with parser].
Qed.
Hint Resolve binding_initializer_runs framework_declaration_runs route_runs class_runs : parser.

Lemma parse_token_runs index e : runs (parse_token tokens index e).
Proof.
  unfold parse_token. apply runs_bind; [unfold application_reference; runs_steps|intros _].
  destruct (is_text _ _ "{"); [auto with parser|]. destruct (is_text _ _ "}"); [auto with parser|].
  apply runs_bind; [auto with parser|intros _]. apply runs_bind; [auto with parser|intros _]. destruct (is_text _ _ "class"); [auto with parser|].
  destruct (match e with Some _ => _ | None => _ end); [auto with parser|]. destruct (constant_at tokens index) as [[name equals]|].
  - unfold constant_binding, declared_here, add_duplicate_diagnostic. cbv zeta. runs_steps.
  - apply runs_bind; [unfold register_explicit_declaration; runs_steps|intros _]. unfold assignment, declared. runs_steps.
Qed.

Lemma parse_loop_runs n index e : runs (parse_loop tokens n index e).
Proof.
  revert index e. induction n as [|n IH]; intros index e; cbn [parse_loop]; [auto with parser|]. destruct (_ || _); [apply IH|].
  cbv zeta. apply runs_bind; [apply parse_token_runs|intros _; apply IH].
Qed.

(** C34. The parser ends with nodes and diagnostics for every vector of tokens, whatever it
    contains: the recursion into statements, else-if chains and ranges of operands always
    gets a shorter part that is not empty, so it neither runs forever nor reads a token
    that is not there, and nothing is thrown. *)
Theorem parse_total : exists nodes diagnostics, parse tokens = Ok (nodes, diagnostics).
Proof. unfold parse. destruct (parse_loop_runs (length tokens) 0 None empty_parser) as (u & p & ->). by eexists _, _. Qed.
End Tokens.
