(* ===== verification/SyntaxTrees.v ===== *)
(** Expression trees of the Gungnir language, the tokens that spell them and the syntax tree
    the parser is to make of them; the brackets of what they spell are balanced.

    The search for the operator to split at finds the weakest operator of a tree, the last
    one of a level but for assignments, and none outside brackets in the other trees. *)

From stdpp Require Import base list.
From Stdlib Require Import ZArith Bool Lia.
From S2P Require Import Prelude Text Lexer Ast Expressions ParserFacts.

Local Open Scope Z_scope.

(** ** Expression trees and how they are spelled *)

(** A token that is no trivia; a glued one touches the next. *)
Record Piece := mkPiece { p_kind : TokenKind; p_lexeme : bytes; p_glued : bool }.

Definition sym (text : string) : Piece := mkPiece symbol (lit text) false.

Inductive Syntax :=
| SLeaf (k : TokenKind) (text : bytes)
| SBinary (op : bytes) (l r : Syntax)
| SUnary (op : bytes) (operand : Syntax)
| SGroup (inner : Syntax)
| SCall (callee : Syntax) (arguments : list Syntax)
| SIndex (base index : Syntax)
| SMember (base : Syntax) (separator : bytes) (k : TokenKind) (name : bytes)
| SList (l : list Syntax)
| SObject (l : list (TokenKind * bytes * Syntax)).

(** An operator of one or two characters, each a token. *)
Fixpoint op_pieces (op : bytes) : list Piece :=
  match op with
  | [] => []
  | [c] => [mkPiece symbol [c] false]
  | c :: op => mkPiece symbol [c] true :: op_pieces op
  end.

Fixpoint commas (l : list (list Piece)) : list Piece :=
  match l with
  | [] => []
  | [x] => x
  | x :: l => x ++ sym "," :: commas l
  end.

Fixpoint flatten (s : Syntax) : list Piece :=
  match s with
  | SLeaf k text => [mkPiece k text false]
  | SBinary op l r => flatten l ++ op_pieces op ++ flatten r
  | SUnary op e => mkPiece (if bool_decide (op = lit "await") then keyword else symbol) op false :: flatten e
  | SGroup e => sym "(" :: flatten e ++ [sym ")"]
  | SCall f l => flatten f ++ sym "(" :: commas (map flatten l) ++ [sym ")"]
  | SIndex a i => flatten a ++ sym "[" :: flatten i ++ [sym "]"]
  | SMember a separator k name => flatten a ++ op_pieces separator ++ [mkPiece k name false]
  | SList l => sym "[" :: commas (map flatten l) ++ [sym "]"]
  | SObject l => sym "{" :: commas (map (fun '(k, text, v) => mkPiece k text false :: sym ":" :: flatten v) l) ++ [sym "}"]
  end.

Definition size (s : Syntax) : nat := length (flatten s).

(** ** Which trees are written without more parentheses *)

(** The precedence of the operator of a tree; other trees bind stronger than any. *)
Definition level (s : Syntax) : Z := match s with SBinary op _ _ => precedence op | _ => 9 end.

Definition primary (s : Syntax) : bool := match s with SBinary _ _ _ | SUnary _ _ => false | _ => true end.

Definition sign (op : bytes) : bool := bool_decide (op ∈ [lit "-"; lit "+"]).

Fixpoint starts_sign (s : Syntax) : bool :=
  match s with SBinary _ l _ => starts_sign l | SUnary op _ => sign op | _ => false end.

(** The characters operators and brackets are made of. *)
Definition operator_char (c : byte) : bool := bool_decide (c ∈ lit "()[]{}&|=!<>-:+*/%,.;").

Definition leaf_text (text : bytes) : bool :=
  match text with c :: _ => negb (operator_char c) && negb (bool_decide (text = lit "await")) | [] => false end.

Definition leaf_kind (k : TokenKind) : bool := bool_decide (k ∈ [identifier; keyword; number; string_literal; character_literal]).

Definition binary_operators : list bytes :=
  map lit ["="; "||"; "&&"; "=="; "!="; "<"; ">"; "<="; ">="; "+"; "-"; "*"; "/"; "%"].

(** An assignment binds to the right, the other operators to the left.  The operand of a
    unary operator, and the right operand of an arithmetic operator, do not start with a
    sign: the parser takes that sign for the operator to split at. *)
Fixpoint fine (s : Syntax) : Prop :=
  match s with
  | SLeaf k text => leaf_kind k = true /\ leaf_text text = true
  | SBinary op l r =>
      op ∈ binary_operators /\ fine l /\ fine r /\
      (if bool_decide (op = lit "=") then 2 <= level l else precedence op <= level l) /\
      (if bool_decide (op = lit "=") then 1 <= level r else precedence op < level r) /\
      (6 <= precedence op -> starts_sign r = false)
  | SUnary op e => op ∈ map lit ["!"; "-"; "+"; "await"] /\ fine e /\ level e = 9 /\ starts_sign e = false
  | SGroup e => fine e
  | SCall f l => fine f /\ primary f = true /\ foldr (fun a P => fine a /\ P) True l
  | SIndex a i => fine a /\ primary a = true /\ fine i
  | SMember a separator k name =>
      fine a /\ primary a = true /\ separator ∈ map lit ["."; "->"; "::"] /\ leaf_kind k = true /\ leaf_text name = true
  | SList l => foldr (fun a P => fine a /\ P) True l
  | SObject l => foldr (fun '(k, text, v) P => (leaf_kind k = true /\ leaf_text text = true /\ fine v) /\ P) True l
  end.

(** ** The tree the parser makes of it *)

Section Read.
Context (tokens : list Token) (sig : list nat).

Definition leaf_expression_kind (k : TokenKind) (text : bytes) : ExpressionKind :=
  if bool_decide (k = string_literal) || bool_decide (k = number) || bool_decide (text ∈ map lit ["true"; "false"; "null"]) then literal_
  else if bool_decide (k = identifier) || bool_decide (k = keyword) then name_ else raw.

Local Abbreviation make := (make tokens sig).

(** The expressions of elements that follow each other, a comma between them. *)
Definition read_list {A} (read : A -> nat -> Expression) (width : A -> nat) : list A -> nat -> list Expression :=
  fix go l b := match l with [] => [] | a :: l => read a b :: go l (b + width a + 1)%nat end.

(** The expression of a tree whose first token has position [b]. *)
Fixpoint expression_of (s : Syntax) (b : nat) : Expression :=
  let finish := (b + size s)%nat in
  match s with
  | SLeaf k text => make b finish (leaf_expression_kind k text) text []
  | SBinary op l r => make b finish binary op [expression_of l b; expression_of r (b + size l + length op)%nat]
  | SUnary op e => make b finish unary op [expression_of e (S b)]
  | SGroup e => make b finish group [] [expression_of e (S b)]
  | SCall f l => make b finish call [] (expression_of f b :: read_list expression_of size l (b + size f + 1)%nat)
  | SIndex a i => make b finish subscript [] [expression_of a b; expression_of i (b + size a + 1)%nat]
  | SMember a separator k name =>
      make b finish member separator [expression_of a b; make (finish - 1) finish (leaf_expression_kind k name) name []]
  | SList l => make b finish list_ [] (read_list expression_of size l (S b))
  | SObject l =>
      make b finish object []
        (read_list (fun '(k, text, v) b =>
           make b (b + 2 + size v)%nat entry [] [make b (S b) (leaf_expression_kind k text) text []; expression_of v (b + 2)%nat])
           (fun '(k, text, v) => (2 + size v)%nat) l (S b))
  end.
End Read.

(** ** Brackets *)

Definition bracket_pairs : list (bytes * bytes) := [(lit "(", lit ")"); (lit "[", lit "]"); (lit "{", lit "}")].

Lemma round_pair : (lit "(", lit ")") ∈ bracket_pairs.
Proof. by_decide. Qed.

Lemma square_pair : (lit "[", lit "]") ∈ bracket_pairs.
Proof. by_decide. Qed.

Lemma curly_pair : (lit "{", lit "}") ∈ bracket_pairs.
Proof. by_decide. Qed.

#[export] Hint Resolve round_pair square_pair curly_pair : parser.

(** Texts whose brackets match; [Q] holds of those outside brackets. *)
Inductive Nested : (bytes -> Prop) -> list bytes -> Prop :=
| nested_nil Q : Nested Q []
| nested_plain (Q : bytes -> Prop) x l : opens x = false -> closes x = false -> Q x -> Nested Q l -> Nested Q (x :: l)
| nested_wrap Q o c inner l : (o, c) ∈ bracket_pairs -> Nested (fun _ => True) inner -> Nested Q l -> Nested Q (o :: inner ++ c :: l).

Abbreviation Balanced := (Nested (fun _ => True)).

Lemma nested_app Q l k : Nested Q l -> Nested Q k -> Nested Q (l ++ k).
Proof.
  intros Hl Hk. induction Hl as [Q|Q x l Ho Hc HQ Hl IH|Q o c inner l Hp Hi _ Hl IH]; cbn; [done| |].
  - constructor; [done..|by apply IH].
  - rewrite <-app_assoc. cbn. apply nested_wrap; [done..|by apply IH].
Qed.

Lemma nested_impl (Q R : bytes -> Prop) l : (forall x, Q x -> R x) -> Nested Q l -> Nested R l.
Proof.
  intros HQR Hl. revert HQR. induction Hl as [Q|Q x l Ho Hc HQ Hl IH|Q o c inner l Hp Hi _ Hl IH]; intros HQR;
    [apply nested_nil|apply nested_plain; auto|apply nested_wrap; auto].
Qed.

Lemma nested_balanced Q l : Nested Q l -> Balanced l.
Proof. by apply nested_impl. Qed.

(** Induction on balanced texts, brackets and what they enclose included. *)
Lemma balanced_ind (R : list bytes -> Prop) :
  R [] -> (forall x l, opens x = false -> closes x = false -> Balanced l -> R l -> R (x :: l)) ->
  (forall o c inner l, (o, c) ∈ bracket_pairs -> Balanced inner -> R inner -> Balanced l -> R l -> R (o :: inner ++ c :: l)) ->
  forall l, Balanced l -> R l.
Proof.
  intros Hnil Hplain Hwrap.
  assert (H : forall n l, (length l < n)%nat -> Balanced l -> R l).
  { induction n as [|n IH]; intros l Hn Hl; [lia|]. remember (fun _ : bytes => True) as Q eqn:EQ.
    destruct Hl as [Q|Q x l Ho Hc HQ Hl|Q o c inner l Hp Hi Hl]; subst Q; [done| |].
    - cbn in Hn. apply Hplain; try done. apply IH; [lia|done].
    - cbn in Hn. rewrite length_app in Hn. cbn in Hn. apply Hwrap; try done; (apply IH; [lia|done]). }
  intros l Hl. by apply (H (S (length l)) l (Nat.lt_succ_diag_r _)).
Qed.

(** What a pair of brackets is. *)
Lemma bracket_facts o c : (o, c) ∈ bracket_pairs ->
  opens o = true /\ closes o = false /\ opens c = false /\ closes c = true /\ o <> c /\ o <> lit "," /\ c <> lit "," /\
  precedence o = 0 /\ precedence c = 0.
Proof.
  intros H. repeat (apply elem_of_cons in H as [H|H]; [injection H as -> ->; by split_and!; [vm_compute..|]|]). by apply not_elem_of_nil in H.
Qed.

Lemma same_pair o c o' c' : (o, c) ∈ bracket_pairs -> (o', c') ∈ bracket_pairs ->
  (o = o' -> c = c') /\ (c = c' -> o = o') /\ o <> c'.
Proof.
  intros H H'. repeat (apply elem_of_cons in H as [H|H]; [injection H as -> ->|]); try by apply not_elem_of_nil in H.
  all: repeat (apply elem_of_cons in H' as [H'|H']; [injection H' as -> ->; split_and!; try done; try discriminate|]); by apply not_elem_of_nil in H'.
Qed.

Lemma pair_of_close c : closes c = true -> exists o, (o, c) ∈ bracket_pairs.
Proof.
  unfold closes. intros H%bool_decide_eq_true. repeat (apply elem_of_cons in H as [->|H]); [| | |by apply not_elem_of_nil in H].
  - exists (lit "("). constructor.
  - exists (lit "["). constructor. constructor.
  - exists (lit "{"). constructor. constructor. constructor.
Qed.

(** *** The delimiters of an expression *)

Lemma check_balanced l : Balanced l -> forall k i stack, check_delimiters (l ++ k) i stack = check_delimiters k (i + length l) stack.
Proof.
  revert l. refine (balanced_ind _ _ _ _).
  - intros k i stack. cbn. by rewrite Nat.add_0_r.
  - intros x l Ho Hc _ IH k i stack. cbn [app check_delimiters length]. rewrite Ho, Hc, IH. by rewrite Nat.add_succ_comm.
  - intros o c inner l Hp _ IHi _ IHl k i stack. cbn [app check_delimiters length]. rewrite <-app_assoc.
    destruct (bracket_facts _ _ Hp) as (Ho & Hco & Hoc & Hc & _). rewrite Ho, IHi. cbn [app check_delimiters]. rewrite Hoc, Hc.
    rewrite bool_decide_eq_true_2 by done. rewrite IHl, length_app. cbn [length]. f_equal. lia.
Qed.

(** *** The partner of a bracket *)

(** [match_from] on positions with their texts, trivia left out. *)
Fixpoint match_list (open close : bytes) (depth : nat) (l : list (nat * bytes)) : option nat :=
  match l with
  | [] => None
  | (i, x) :: l =>
      if bool_decide (x = open) then match_list open close (S depth) l
      else if bool_decide (x = close) then
        match depth with O => None | S O => Some i | S depth => match_list open close depth l end
      else match_list open close depth l
  end.

Lemma match_from_list tokens open close depth k n : (k + n <= length tokens)%nat ->
  match_from open close depth (take n (drop k tokens)) k =
  match_list open close depth (map (fun i => (i, lexeme (tok tokens i))) (base.filter (fun i => trivia (tok tokens i) = false) (seq k n))).
Proof.
  revert depth k. induction n as [|n IH]; intros depth k Hn; [done|].
  assert (Ht : exists t, tokens !! k = Some t) by (apply lookup_lt_is_Some_2; lia). destruct Ht as [t Ht].
  assert (Htok : tok tokens k = t) by (unfold tok; by rewrite Ht).
  rewrite (drop_S _ _ _ Ht). cbn [take seq match_from]. rewrite filter_cons, Htok. destruct (trivia t) eqn:Et.
  - rewrite decide_False by done. rewrite IH by lia. done.
  - rewrite decide_True by done. cbn [map match_list]. rewrite Htok. repeat case_bool_decide; try (apply IH; lia).
    destruct depth as [|[|depth]]; [done|done|apply IH; lia].
Qed.

Lemma match_list_more open close depth l k j : match_list open close depth l = Some j -> match_list open close depth (l ++ k) = Some j.
Proof.
  revert depth. induction l as [|[i x] l IH]; intros depth; cbn; [done|]. repeat case_bool_decide; try apply IH.
  destruct depth as [|[|depth]]; [done|done|apply IH].
Qed.

Lemma match_from_more open close depth l k i j : match_from open close depth l i = Some j -> match_from open close depth (l ++ k) i = Some j.
Proof.
  revert depth i. induction l as [|t l IH]; intros depth i; cbn; [done|]. destruct (trivia t); [apply IH|]. repeat case_bool_decide; try apply IH.
  destruct depth as [|[|depth]]; [done|done|apply IH].
Qed.

(** A balanced text is skipped inside brackets. *)
Lemma match_balanced o c l : (o, c) ∈ bracket_pairs -> Balanced (map snd l) -> forall depth k,
  match_list o c (S depth) (l ++ k) = match_list o c (S depth) k.
Proof.
  intros Hp Hl. remember (map snd l) as xs eqn:Ex. revert xs Hl l Ex.
  refine (balanced_ind _ _ _ _).
  - intros [|[i x] l]; [done|discriminate].
  - intros x xs Ho Hc _ IH [|[i y] l]; [discriminate|]. intros [= <- ->] depth k. cbn [app match_list].
    destruct (bracket_facts _ _ Hp) as (Hoo & _ & _ & Hcc & _). rewrite !bool_decide_eq_false_2 by congruence. by apply IH.
  - intros o' c' inner xs Hp' _ IHi _ IHl [|[i y] l]; [discriminate|]. intros [= <- El] depth k.
    symmetry in El. apply map_eq_app in El as (l1 & l2 & -> & <- & El). destruct l2 as [|[j z] l2]; [discriminate|]. injection El as <- <-.
    destruct (same_pair _ _ _ _ Hp Hp') as (Hsc & Hso & Hne). destruct (same_pair _ _ _ _ Hp' Hp) as (_ & _ & Hne').
    cbn [app match_list]. rewrite <-app_assoc. destruct (decide (o' = o)) as [->|Hyo].
    + rewrite <-Hsc by done. rewrite bool_decide_eq_true_2 by done. rewrite IHi by done. cbn [app match_list].
      destruct (bracket_facts _ _ Hp) as (_ & _ & _ & _ & Hoc & _).
      rewrite bool_decide_eq_false_2, bool_decide_eq_true_2 by done. by apply IHl.
    + assert (z <> c) by (intros ->; by destruct Hyo; symmetry; apply Hso). rewrite (bool_decide_eq_false_2 (o' = o)) by done.
      rewrite bool_decide_eq_false_2 by done. rewrite IHi by done. cbn [app match_list].
      rewrite (bool_decide_eq_false_2 (z = o)) by (intros ->; done). rewrite bool_decide_eq_false_2 by done. by apply IHl.
Qed.

(** The partner of the bracket at the head of [o inner c]. *)
Lemma match_wrap o c i inner j k : (o, c) ∈ bracket_pairs -> Balanced (map snd inner) ->
  match_list o c 0 ((i, o) :: inner ++ (j, c) :: k) = Some j.
Proof.
  intros Hp Hi. cbn [match_list]. rewrite bool_decide_eq_true_2, match_balanced by done. cbn [match_list].
  destruct (bracket_facts _ _ Hp) as (_ & _ & _ & _ & Hoc & _). by rewrite bool_decide_eq_false_2, bool_decide_eq_true_2.
Qed.

Lemma lookup_tail {A} (x : A) l n : (x :: l) !! S n = l !! n.
Proof. done. Qed.

(** The partner of any opening bracket of a balanced text lies in it. *)
Lemma match_inside o c l : (o, c) ∈ bracket_pairs -> Balanced (map snd l) -> forall n i, l !! n = Some (i, o) ->
  exists m x, (n < m)%nat /\ l !! m = Some x /\ forall k, match_list o c 0 (drop n l ++ k) = Some x.1.
Proof.
  intros Hp Hl. remember (map snd l) as xs eqn:Ex. revert xs Hl l Ex.
  refine (balanced_ind _ _ _ _).
  - intros [|[i x] l]; [done|discriminate].
  - intros x xs Ho Hc _ IH [|[i y] l]; [discriminate|]. intros [= <- ->] [|n] j Hn; cbn in Hn.
    + injection Hn as -> ->. destruct (bracket_facts _ _ Hp) as (Hoo & _). congruence.
    + destruct (IH l eq_refl n j Hn) as (m & z & Hm & Hz & Hk). exists (S m), z. split_and!; [lia|done|done].
  - intros o' c' inner xs Hp' Hbi IHi Hbl IHl [|[i y] l]; [discriminate|]. intros [= <- El] n j Hn.
    symmetry in El. apply map_eq_app in El as (l1 & l2 & -> & <- & El). destruct l2 as [|[j' z] l2]; [discriminate|]. injection El as <- <-.
    destruct (same_pair _ _ _ _ Hp Hp') as (Hsc & Hso & Hne). destruct n as [|n]; cbn in Hn.
    + injection Hn as -> ->. rewrite <-Hsc by done. exists (S (length l1)), (j', c). split_and!; [lia| |].
      * rewrite lookup_tail, lookup_app_r, Nat.sub_diag by lia. done.
      * intros k. cbn [drop app]. rewrite <-app_assoc. by apply match_wrap.
    + destruct (lookup_app_Some l1 ((j', z) :: l2) n (j, o)) as [Hsplit _]. destruct (Hsplit Hn) as [Hin|[Hge Hin]].
      * destruct (IHi l1 eq_refl n j Hin) as (m & w & Hm & Hw & Hk). exists (S m), w. split_and!; [lia| |].
        -- rewrite lookup_tail, lookup_app_l; [done|by eapply lookup_lt_Some].
        -- intros k. cbn [drop]. rewrite drop_app_le by (apply lookup_lt_Some in Hin; lia). rewrite <-app_assoc. apply Hk.
      * destruct (n - length l1)%nat as [|n'] eqn:En; cbn in Hin.
        { injection Hin as -> ->. destruct (same_pair _ _ _ _ Hp' Hp) as (_ & _ & Hne'). destruct (same_pair _ _ _ _ Hp Hp') as (_ & _ & H2). done. }
        destruct (IHl l2 eq_refl n' j Hin) as (m & w & Hm & Hw & Hk). exists (S (length l1 + S m))%nat, w. split_and!; [lia| |].
        -- rewrite lookup_tail, lookup_app_r by lia. by replace (length l1 + S m - length l1)%nat with (S m) by lia.
        -- intros k. cbn [drop]. rewrite drop_app_ge by lia. rewrite En. apply Hk.
Qed.

(** ** The texts of pieces *)

Lemma syntax_ind (R : Syntax -> Prop) :
  (forall k text, R (SLeaf k text)) -> (forall op l r, R l -> R r -> R (SBinary op l r)) -> (forall op e, R e -> R (SUnary op e)) ->
  (forall e, R e -> R (SGroup e)) -> (forall f l, R f -> Forall R l -> R (SCall f l)) -> (forall a i, R a -> R i -> R (SIndex a i)) ->
  (forall a separator k name, R a -> R (SMember a separator k name)) -> (forall l, Forall R l -> R (SList l)) ->
  (forall l, Forall (fun x => R x.2) l -> R (SObject l)) -> forall s, R s.
Proof.
  intros H1 H2 H3 H4 H5 H6 H7 H8 H9. fix IH 1. intros [k text|op l r|op e|e|f l|a i|a separator k name|l|l].
  - apply H1.
  - apply H2; apply IH.
  - apply H3, IH.
  - apply H4, IH.
  - apply H5; [apply IH|]. induction l as [|a l IHl]; constructor; [apply IH|exact IHl].
  - apply H6; apply IH.
  - apply H7, IH.
  - apply H8. induction l as [|a l IHl]; constructor; [apply IH|exact IHl].
  - apply H9. induction l as [|[p v] l IHl]; constructor; [apply IH|exact IHl].
Qed.

Lemma fine_list l : foldr (fun a P => fine a /\ P) True l <-> Forall fine l.
Proof. induction l as [|a l IH]; cbn; [by split|]. by rewrite Forall_cons, IH. Qed.

Lemma fine_entries l : foldr (fun '(k, text, v) P => (leaf_kind k = true /\ leaf_text text = true /\ fine v) /\ P) True l <->
  Forall (fun '(k, text, v) => leaf_kind k = true /\ leaf_text text = true /\ fine v) l.
Proof. induction l as [|[[k text] v] l IH]; cbn; [by split|]. by rewrite Forall_cons, IH. Qed.

(** The text of a leaf is none of the texts of operators and brackets. *)
Lemma leaf_not text c rest : leaf_text text = true -> operator_char c = true -> text <> c :: rest.
Proof. intros H Hc ->. cbn in H. by rewrite Hc in H. Qed.

(** The texts that mean something to the parser all start with an operator character. *)
Definition special_texts : list bytes :=
  map lit ["("; ")"; "["; "]"; "{"; "}"; ","; ":"; "."; "!"; "-"; "+"; "*"; "/"; "%"; "&"; "|"; "="; "<"; ">"; ";"].

Lemma special_char x : x ∈ special_texts -> exists c rest, x = c :: rest /\ operator_char c = true.
Proof. unfold special_texts. intros H. repeat (apply elem_of_cons in H as [->|H]; [by eexists _, _|]). by apply not_elem_of_nil in H. Qed.

Lemma leaf_special text x : leaf_text text = true -> x ∈ special_texts -> text <> x.
Proof. intros H Hx. destruct (special_char _ Hx) as (c & rest & -> & Hc). by apply leaf_not. Qed.

Lemma combined_char x : x ∈ combined_operators -> exists c rest, x = c :: rest /\ operator_char c = true.
Proof. unfold combined_operators. intros H. repeat (apply elem_of_cons in H as [->|H]; [by eexists _, _|]). by apply not_elem_of_nil in H. Qed.

Lemma leaf_combined text y : leaf_text text = true -> text ++ y ∉ combined_operators.
Proof.
  intros H (c & rest & E & Hc)%combined_char. destruct text as [|d text]; [done|]. injection E as -> E. by eapply (leaf_not (c :: text) c text).
Qed.

(** A text that is no operator, no bracket and no comma. *)
Record Plain (x : bytes) : Prop := {
  plain_opens : opens x = false;
  plain_closes : closes x = false;
  plain_comma : x <> lit ",";
  plain_rank : precedence x = 0
}.

Lemma leaf_plain text : leaf_text text = true -> Plain text.
Proof.
  intros H. assert (Hn : forall x, x ∈ special_texts -> text <> x) by (intros x; by apply leaf_special). split.
  - apply bool_decide_eq_false. intros Hin. repeat (apply elem_of_cons in Hin as [Hin|Hin]; [revert Hin; apply Hn; by_decide|]). by apply not_elem_of_nil in Hin.
  - apply bool_decide_eq_false. intros Hin. repeat (apply elem_of_cons in Hin as [Hin|Hin]; [revert Hin; apply Hn; by_decide|]). by apply not_elem_of_nil in Hin.
  - apply Hn. by_decide.
  - assert (Hc : forall c rest, operator_char c = true -> text <> c :: rest) by (intros c rest; by apply leaf_not).
    unfold precedence. repeat (rewrite bool_decide_eq_false_2 by first [by apply Hc | intros Hin;
      repeat (apply elem_of_cons in Hin as [Hin|Hin]; [revert Hin; by apply Hc|]); by apply not_elem_of_nil in Hin]). done.
Qed.

(** What is checked of every operator by evaluation. *)
Lemma operator_texts op : op ∈ binary_operators ++ map lit ["."; "->"; "::"] ->
  Forall (fun p => opens (p_lexeme p) = false /\ closes (p_lexeme p) = false /\ p_lexeme p <> lit ",") (op_pieces op) /\
  length (op_pieces op) = length op /\ (0 < length op)%nat.
Proof. intros H. repeat (apply elem_of_cons in H as [->|H]; [split_and!; [by_decide|done|cbn; lia]|]). by apply not_elem_of_nil in H. Qed.

Lemma unary_texts op : op ∈ map lit ["!"; "-"; "+"; "await"] -> opens op = false /\ closes op = false /\ op <> lit ",".
Proof. intros H. repeat (apply elem_of_cons in H as [->|H]; [split_and!; [vm_compute; reflexivity..|done]|]). by apply not_elem_of_nil in H. Qed.

(** *** Expressions are balanced *)

Abbreviation no_comma := (Nested (fun x => x <> lit ",")).

Lemma nested_one (Q : bytes -> Prop) x : opens x = false -> closes x = false -> Q x -> Nested Q [x].
Proof. intros. apply nested_plain; [done..|apply nested_nil]. Qed.

Lemma nested_pieces (l : list Piece) : Forall (fun p => opens (p_lexeme p) = false /\ closes (p_lexeme p) = false /\ p_lexeme p <> lit ",") l ->
  no_comma (map p_lexeme l).
Proof. induction 1 as [|p l (Ho & Hc & Hn) _ IH]; cbn; [apply nested_nil|by apply nested_plain]. Qed.

Lemma nested_brackets Q o c (inner : list Piece) : (lit o, lit c) ∈ bracket_pairs -> Balanced (map p_lexeme inner) ->
  Nested Q (map p_lexeme (sym o :: inner ++ [sym c])).
Proof. intros Hp Hi. cbn. rewrite map_app. cbn. apply nested_wrap; [done|done|apply nested_nil]. Qed.

Lemma balanced_commas l : Forall (fun ps => Balanced (map p_lexeme ps)) l -> Balanced (map p_lexeme (commas l)).
Proof.
  induction 1 as [|x l Hx Hl IH]; [apply nested_nil|]. cbn. destruct l as [|y l]; [done|]. rewrite map_app. apply nested_app; [done|].
  cbn [map p_lexeme sym]. by apply nested_plain.
Qed.

Lemma flatten_nested s : fine s -> no_comma (map p_lexeme (flatten s)).
Proof.
  assert (Hlist : forall l, Forall (fun s => fine s -> no_comma (map p_lexeme (flatten s))) l -> Forall fine l ->
    Balanced (map p_lexeme (commas (map flatten l)))).
  { intros l HR Hf. apply balanced_commas, Forall_map. eapply Forall_impl; [exact (proj2 (Forall_and _ _) (conj HR Hf))|].
    intros a [Ha Hfa]. by eapply nested_balanced, Ha. }
  induction s as [k text|op l r IHl IHr|op e IH|e IH|f l IHf IHl|a i IHa IHi|a separator k name IH|l IHl|l IHl] using syntax_ind; cbn [fine flatten].
  - intros [_ H]. destruct (leaf_plain _ H). by apply nested_one.
  - intros (Hop & Hl & Hr & _). rewrite !map_app. apply nested_app; [by apply IHl|]. apply nested_app; [|by apply IHr].
    apply nested_pieces, operator_texts. apply elem_of_app. by left.
  - intros (Hop & He & _). destruct (unary_texts _ Hop) as (Ho & Hc & Hn). cbn. apply nested_plain; [done..|by apply IH].
  - intros He. apply nested_brackets; [auto with parser|]. by eapply nested_balanced, IH.
  - intros (Hf & _ & Hl). apply fine_list in Hl. rewrite map_app. apply nested_app; [by apply IHf|]. apply nested_brackets; [auto with parser|by apply Hlist].
  - intros (Ha & _ & Hi). rewrite map_app. apply nested_app; [by apply IHa|]. apply nested_brackets; [auto with parser|]. by eapply nested_balanced, IHi.
  - intros (Ha & _ & Hs & _ & Hn). rewrite !map_app. apply nested_app; [by apply IH|]. apply nested_app.
    + apply nested_pieces, operator_texts. apply elem_of_app. by right.
    + destruct (leaf_plain _ Hn). by apply nested_one.
  - intros Hl. apply fine_list in Hl. apply nested_brackets; [auto with parser|by apply Hlist].
  - intros Hl. apply fine_entries in Hl. apply nested_brackets; [auto with parser|]. apply balanced_commas, Forall_map.
    eapply Forall_impl; [exact (proj2 (Forall_and _ _) (conj IHl Hl))|]. intros [[k text] v] [Hv (_ & Ht & Hfv)]. cbn in *.
    destruct (leaf_plain _ Ht). apply nested_plain; [done..|]. apply nested_plain; [done..|]. by eapply nested_balanced, Hv.
Qed.

Local Open Scope Z_scope.

(** ** The search for the weakest operator *)

Section Scan.
Context (tokens : list Token) (sig : list nat).

Local Abbreviation value := (value tokens sig).
Local Abbreviation touches := (touches tokens sig).

(** The tokens from position [b] on are the given pieces; two touching tokens make an
    operator exactly where the first piece is glued. *)
Definition spelled (b : nat) (ps : list Piece) : Prop := forall i p, ps !! i = Some p ->
  value (b + i) = p_lexeme p /\ kind (sig_tok tokens sig (b + i)) = p_kind p /\
  ((S (b + i) < length sig)%nat -> touches (b + i) && bool_decide (value (b + i) ++ value (S (b + i)) ∈ combined_operators) = p_glued p).

Lemma spelled_app b l k : spelled b (l ++ k) <-> spelled b l /\ spelled (b + length l) k.
Proof.
  split.
  - intros H. split; intros i p Hp.
    + apply H. by apply lookup_app_l_Some.
    + rewrite <-Nat.add_assoc. apply H. rewrite lookup_app_r by lia. by replace (length l + i - length l)%nat with i by lia.
  - intros [Hl Hk] i p [Hp|[Hge Hp]]%lookup_app_Some; [by apply Hl|].
    replace (b + i)%nat with (b + length l + (i - length l))%nat by lia. by apply Hk.
Qed.

Lemma spelled_cons b p l : spelled b (p :: l) <-> spelled b [p] /\ spelled (S b) l.
Proof. change (p :: l) with ([p] ++ l). rewrite spelled_app. cbn [length]. by rewrite Nat.add_1_r. Qed.

Lemma spelled_head b p l : spelled b (p :: l) -> value b = p_lexeme p /\ kind (sig_tok tokens sig b) = p_kind p /\
  ((S b < length sig)%nat -> touches b && bool_decide (value b ++ value (S b) ∈ combined_operators) = p_glued p).
Proof. intros H. specialize (H 0%nat p eq_refl). by rewrite Nat.add_0_r in H. Qed.

(** The search from [i] on with as many rounds as there are tokens left. *)
Definition scan (begin_ finish i : nat) (parens brackets braces : Z) (best : Split) : Split :=
  split_loop tokens sig (finish - i) i begin_ finish parens brackets braces best.

Lemma split_loop_fuel n m i begin_ finish parens brackets braces best : (finish - i <= n)%nat -> (finish - i <= m)%nat ->
  split_loop tokens sig n i begin_ finish parens brackets braces best = split_loop tokens sig m i begin_ finish parens brackets braces best.
Proof.
  revert m i parens brackets braces best. induction n as [|n IH]; intros m i parens brackets braces best Hn Hm.
  - destruct m as [|m]; [done|]. cbn [split_loop]. by rewrite (proj2 (Nat.leb_le _ _)) by lia.
  - destruct m as [|m]; cbn [split_loop].
    + by rewrite (proj2 (Nat.leb_le _ _)) by lia.
    + destruct (Nat.leb_spec finish i); [done|]. cbv zeta. destruct (_ || _); [apply IH; lia|].
      destruct (operator_at tokens sig i finish) as [op width] eqn:Eo.
      assert (Hw : (0 < width)%nat).
      { unfold operator_at in Eo. destruct (_ && _); injection Eo as _ <-; lia. }
      apply IH; lia.
Qed.

Lemma scan_end begin_ finish parens brackets braces best : scan begin_ finish finish parens brackets braces best = best.
Proof. unfold scan. by rewrite Nat.sub_diag. Qed.

Lemma scan_step begin_ finish i parens brackets braces best : (i < finish)%nat ->
  scan begin_ finish i parens brackets braces best =
  let parens := count "(" ")" (value i) parens in
  let brackets := count "[" "]" (value i) brackets in
  let braces := count "{" "}" (value i) braces in
  if negb (parens =? 0) || negb (brackets =? 0) || negb (braces =? 0) || (i =? begin_)%nat || (S i =? finish)%nat
  then scan begin_ finish (S i) parens brackets braces best
  else
    let '(op, width) := operator_at tokens sig i finish in
    let rank := precedence op in
    let best :=
      if negb (rank =? 0) && (i + width <? finish)%nat &&
         ((rank <? weakest best) || ((rank =? weakest best) && negb (rank =? 1)))
      then mkSplit rank (Some i) width op else best in
    scan begin_ finish (i + width) parens brackets braces best.
Proof.
  intros Hi. unfold scan. replace (finish - i)%nat with (S (finish - S i)) by lia. cbn [split_loop].
  rewrite (proj2 (Nat.leb_gt _ _)) by lia. cbv zeta. destruct (_ || _); [done|].
  destruct (operator_at tokens sig i finish) as [op width] eqn:Eo.
  assert (Hw : (0 < width)%nat).
  { unfold operator_at in Eo. destruct (_ && _); injection Eo as _ <-; lia. }
  apply split_loop_fuel; lia.
Qed.

(** A text that is no bracket changes no counter. *)
Lemma count_plain x open close n : opens x = false -> closes x = false -> opens (lit open) = true -> closes (lit close) = true ->
  count open close x n = n.
Proof. intros Ho Hc Ho' Hc'. unfold count. rewrite !bool_decide_eq_false_2 by congruence. done. Qed.

Lemma counts_plain x p b c : opens x = false -> closes x = false ->
  count "(" ")" x p = p /\ count "[" "]" x b = b /\ count "{" "}" x c = c.
Proof. intros. by rewrite !count_plain. Qed.

(** Evaluates the decisions about closed texts. *)
Ltac closed_decide :=
  repeat match goal with
  | |- context [bool_decide ?Q] => let v := eval vm_compute in (bool_decide Q) in change (bool_decide Q) with v
  end; cbv match.

(** An opening bracket adds one to its counter, and its partner takes it off. *)
Lemma counts_pair o c : (o, c) ∈ bracket_pairs -> exists dp db dc, 0 <= dp /\ 0 <= db /\ 0 <= dc /\ 0 < dp + db + dc /\
  (forall p b k, count "(" ")" o p = p + dp /\ count "[" "]" o b = b + db /\ count "{" "}" o k = k + dc) /\
  (forall p b k, count "(" ")" c (p + dp) = p /\ count "[" "]" c (b + db) = b /\ count "{" "}" c (k + dc) = k).
Proof.
  intros H. repeat (apply elem_of_cons in H as [H|H]; [injection H as -> ->|]); [| | |by apply not_elem_of_nil in H].
  - exists 1, 0, 0. split_and!; [lia..| |]; intros p b k; unfold count; closed_decide; split_and!; lia.
  - exists 0, 1, 0. split_and!; [lia..| |]; intros p b k; unfold count; closed_decide; split_and!; lia.
  - exists 0, 0, 1. split_and!; [lia..| |]; intros p b k; unfold count; closed_decide; split_and!; lia.
Qed.

(** Inside brackets the search only counts. *)
Lemma scan_nested begin_ finish (ps : list Piece) : Balanced (map p_lexeme ps) -> forall i p b c best, spelled i ps ->
  0 <= p -> 0 <= b -> 0 <= c -> 0 < p + b + c -> (i + length ps <= finish)%nat ->
  scan begin_ finish i p b c best = scan begin_ finish (i + length ps) p b c best.
Proof.
  assert (Hskip : forall i p b c best, 0 <= count "(" ")" (value i) p -> 0 <= count "[" "]" (value i) b -> 0 <= count "{" "}" (value i) c ->
    0 < count "(" ")" (value i) p + count "[" "]" (value i) b + count "{" "}" (value i) c -> (i < finish)%nat ->
    scan begin_ finish i p b c best = scan begin_ finish (S i) (count "(" ")" (value i) p) (count "[" "]" (value i) b) (count "{" "}" (value i) c) best).
  { intros i p b c best Hp Hb Hc Hs Hi. rewrite scan_step by done. cbv zeta.
    destruct (Z.eqb_spec (count "(" ")" (value i) p) 0) as [E1|]; cbn [negb orb]; [|done].
    destruct (Z.eqb_spec (count "[" "]" (value i) b) 0) as [E2|]; cbn [negb orb]; [|done].
    destruct (Z.eqb_spec (count "{" "}" (value i) c) 0) as [E3|]; cbn [negb orb]; [lia|done]. }
  intros Hl. remember (map p_lexeme ps) as xs eqn:Ex. revert xs Hl ps Ex.
  refine (balanced_ind _ _ _ _).
  - intros [|x ps]; [|discriminate]. intros _ i p b c best _ _ _ _ _ _. by rewrite Nat.add_0_r.
  - intros x xs Ho Hc _ IH [|y ps]; [discriminate|]. intros [= -> ->] i p b c best Hsp Hp Hb Hk Hs Hf. cbn [length] in *.
    destruct (spelled_head _ _ _ Hsp) as (Hv & _). apply spelled_cons in Hsp as [_ Hsp].
    destruct (counts_plain _ p b c Ho Hc) as (E1 & E2 & E3).
    rewrite Hskip by (rewrite ?Hv, ?E1, ?E2, ?E3; lia). rewrite Hv, E1, E2, E3, (IH ps eq_refl) by (done || lia). f_equal. lia.
  - intros o cl inner xs Hp' _ IHi _ IHl [|y ps]; [discriminate|]. intros [= -> El] i p b c best Hsp Hp Hb Hk Hs Hf.
    symmetry in El. apply map_eq_app in El as (l1 & l2 & -> & <- & El). destruct l2 as [|z l2]; [discriminate|]. injection El as <- <-.
    cbn [length] in *. rewrite length_app in *. cbn [length] in *.
    destruct (spelled_head _ _ _ Hsp) as (Hv & _). apply spelled_cons in Hsp as [_ Hsp]. apply spelled_app in Hsp as [Hs1 Hs2].
    destruct (spelled_head _ _ _ Hs2) as (Hv2 & _). apply spelled_cons in Hs2 as [_ Hs2].
    destruct (counts_pair _ _ Hp') as (dp & db & dc & Hdp & Hdb & Hdc & Hd & Hopen & Hclose).
    destruct (Hopen p b c) as (E1 & E2 & E3). destruct (Hclose p b c) as (F1 & F2 & F3).
    rewrite Hskip by (rewrite ?Hv, ?E1, ?E2, ?E3; lia). rewrite Hv, E1, E2, E3, (IHi l1 eq_refl) by (done || lia).
    rewrite Hskip by (rewrite ?Hv2, ?F1, ?F2, ?F3; lia). rewrite Hv2, F1, F2, F3, (IHl l2 eq_refl) by (done || lia). f_equal. lia.
Qed.

(** Pieces leave the search where it was, but for operators of precedence [lo] and above,
    which are not taken when a weaker one has been found. *)
Definition passes (lo : Z) (ps : list Piece) (begin_ i : nat) : Prop := forall finish best, spelled i ps ->
  (i + length ps <= finish)%nat -> (finish <= length sig)%nat ->
  exists best', scan begin_ finish i 0 0 0 best = scan begin_ finish (i + length ps) 0 0 0 best' /\
    (lo <= weakest best -> lo <= weakest best') /\ (weakest best < lo \/ weakest best = 1 -> best' = best).

(** Pieces that are not, or that are, at the beginning of the range. *)
Definition quiet (lo : Z) (ps : list Piece) : Prop := forall begin_ i, (begin_ < i)%nat -> passes lo ps begin_ i.
Definition opening (lo : Z) (ps : list Piece) : Prop := forall i, passes lo ps i i.

Lemma passes_app lo l k begin_ i : passes lo l begin_ i -> passes lo k begin_ (i + length l) -> passes lo (l ++ k) begin_ i.
Proof.
  intros Hl Hk finish best Hs Hf Hlen. rewrite length_app in *. apply spelled_app in Hs as [Hs1 Hs2].
  destruct (Hl finish best Hs1 ltac:(lia) Hlen) as (best1 & E1 & H1 & H1').
  destruct (Hk finish best1 Hs2 ltac:(lia) Hlen) as (best2 & E2 & H2 & H2').
  exists best2. rewrite E1, E2, Nat.add_assoc. split_and!; [done|by intros ?%H1%H2|].
  intros Hw. assert (best1 = best) as -> by by apply H1'. by apply H2'.
Qed.

Lemma quiet_app lo l k : quiet lo l -> quiet lo k -> quiet lo (l ++ k).
Proof. intros Hl Hk begin_ i Hb. apply passes_app; [by apply Hl|apply Hk; lia]. Qed.

Lemma opening_app lo l k : opening lo l -> (0 < length l)%nat -> quiet lo k -> opening lo (l ++ k).
Proof. intros Hl Hn Hk i. apply passes_app; [by apply Hl|apply Hk; lia]. Qed.

(** The operator at a piece, and that at two glued ones. *)
Lemma operator_single i p l finish : spelled i (p :: l) -> p_glued p = false -> (finish <= length sig)%nat ->
  operator_at tokens sig i finish = (p_lexeme p, 1%nat).
Proof.
  intros (Hv & _ & Hg)%spelled_head Hp Hf. unfold operator_at. destruct (Nat.ltb_spec (S i) finish); cbn [andb]; [|by rewrite Hv].
  rewrite Hg, Hp by lia. by rewrite Hv.
Qed.

Lemma operator_glued i p q l finish : spelled i (p :: q :: l) -> p_glued p = true -> (S i < finish)%nat -> (finish <= length sig)%nat ->
  operator_at tokens sig i finish = (p_lexeme p ++ p_lexeme q, 2%nat).
Proof.
  intros Hs Hp Hi Hf. destruct (spelled_head _ _ _ Hs) as (Hv & _ & Hg). apply spelled_cons in Hs as [_ Hs].
  destruct (spelled_head _ _ _ Hs) as (Hv2 & _). unfold operator_at. rewrite (proj2 (Nat.ltb_lt _ _)) by done. cbn [andb].
  rewrite Hg, Hp by lia. by rewrite Hv, Hv2.
Qed.

(** One round at an operator of precedence [rank]. *)
Lemma taken_or_not lo rank cond (i width : nat) op best : rank = 0 \/ lo <= rank -> 0 <= rank ->
  let best' := if negb (rank =? 0) && cond && ((rank <? weakest best) || ((rank =? weakest best) && negb (rank =? 1)))
    then mkSplit rank (Some i) width op else best in
  (lo <= weakest best -> lo <= weakest best') /\ (weakest best < lo \/ weakest best = 1 -> best' = best).
Proof.
  intros Hr H0. cbv zeta. destruct (Z.eqb_spec rank 0); cbn [negb andb]; [done|]. destruct cond; cbn [andb]; [|done].
  destruct (Z.ltb_spec rank (weakest best)); cbn [orb].
  - split; [cbn; lia|lia].
  - destruct (Z.eqb_spec rank (weakest best)); cbn [andb]; [|done]. destruct (Z.eqb_spec rank 1); cbn [negb]; [done|]. split; [cbn; lia|lia].
Qed.

Lemma precedence_nonneg op : 0 <= precedence op.
Proof. unfold precedence. repeat case_bool_decide; lia. Qed.

Lemma quiet_piece lo p : p_glued p = false -> opens (p_lexeme p) = false -> closes (p_lexeme p) = false ->
  precedence (p_lexeme p) = 0 \/ lo <= precedence (p_lexeme p) -> quiet lo [p].
Proof.
  intros Hg Ho Hc Hr begin_ i Hb finish best Hs Hf Hlen. cbn [length] in *. destruct (spelled_head _ _ _ Hs) as (Hv & _).
  destruct (counts_plain _ 0 0 0 Ho Hc) as (E1 & E2 & E3). rewrite scan_step by lia. cbv zeta. rewrite Hv, E1, E2, E3. cbn [Z.eqb negb orb].
  rewrite (proj2 (Nat.eqb_neq i begin_)) by lia. cbn [orb]. destruct (S i =? finish)%nat.
  - exists best. by rewrite Nat.add_1_r.
  - rewrite (operator_single _ _ _ _ Hs Hg Hlen). eexists. split; [reflexivity|].
    apply taken_or_not; [done|apply precedence_nonneg].
Qed.

Lemma quiet_glued lo p q : p_glued p = true -> opens (p_lexeme p) = false -> closes (p_lexeme p) = false ->
  precedence (p_lexeme p ++ p_lexeme q) = 0 \/ lo <= precedence (p_lexeme p ++ p_lexeme q) -> quiet lo [p; q].
Proof.
  intros Hg Ho Hc Hr begin_ i Hb finish best Hs Hf Hlen. cbn [length] in *. destruct (spelled_head _ _ _ Hs) as (Hv & _).
  destruct (counts_plain _ 0 0 0 Ho Hc) as (E1 & E2 & E3). rewrite scan_step by lia. cbv zeta. rewrite Hv, E1, E2, E3. cbn [Z.eqb negb orb].
  rewrite (proj2 (Nat.eqb_neq i begin_)), (proj2 (Nat.eqb_neq (S i) finish)) by lia. cbn [orb].
  rewrite (operator_glued _ _ _ _ finish Hs Hg ltac:(lia) Hlen). eexists. split; [reflexivity|].
  apply taken_or_not; [done|apply precedence_nonneg].
Qed.

(** Brackets and what is in them, at the beginning of the range or later. *)
Lemma scan_wrap begin_ finish i o c inner best : (lit o, lit c) ∈ bracket_pairs -> Balanced (map p_lexeme inner) ->
  spelled i (sym o :: inner ++ [sym c]) -> (begin_ <= i)%nat -> (i + S (length inner + 1) <= finish)%nat -> (finish <= length sig)%nat ->
  scan begin_ finish i 0 0 0 best = scan begin_ finish (i + S (length inner + 1)) 0 0 0 best.
Proof.
  intros Hp Hi Hs Hb Hf Hlen. destruct (spelled_head _ _ _ Hs) as (Hv & _). apply spelled_cons in Hs as [_ Hs].
  apply spelled_app in Hs as [Hs1 Hs2]. destruct (spelled_head _ _ _ Hs2) as (Hv2 & _).
  destruct (counts_pair _ _ Hp) as (dp & db & dc & Hdp & Hdb & Hdc & Hd & Hopen & Hclose).
  destruct (Hopen 0 0 0) as (E1 & E2 & E3). destruct (Hclose 0 0 0) as (F1 & F2 & F3). destruct (bracket_facts _ _ Hp) as (_ & _ & _ & _ & _ & _ & _ & _ & Hrank).
  rewrite scan_step by lia. cbv zeta. rewrite Hv. cbn [p_lexeme sym]. rewrite E1, E2, E3.
  replace (negb (0 + dp =? 0) || negb (0 + db =? 0) || negb (0 + dc =? 0) || (i =? begin_)%nat || (S i =? finish)%nat) with true.
  2: { destruct (Z.eqb_spec (0 + dp) 0), (Z.eqb_spec (0 + db) 0), (Z.eqb_spec (0 + dc) 0); cbn; try done. lia. }
  rewrite (scan_nested begin_ finish inner) by (done || lia). rewrite scan_step by lia. cbv zeta. rewrite Hv2. cbn [p_lexeme sym].
  rewrite F1, F2, F3. cbn [Z.eqb negb orb]. rewrite (proj2 (Nat.eqb_neq _ begin_)) by lia. cbn [orb].
  replace (i + S (length inner + 1))%nat with (S (S i + length inner)) by lia. destruct (S (S i + length inner) =? finish)%nat; [done|].
  rewrite (operator_single _ _ _ _ Hs2 eq_refl Hlen). cbn [p_lexeme sym]. rewrite Hrank. cbn [Z.eqb negb andb]. by rewrite Nat.add_1_r.
Qed.

Lemma passes_wrap lo o c inner begin_ i : (lit o, lit c) ∈ bracket_pairs -> Balanced (map p_lexeme inner) -> (begin_ <= i)%nat ->
  passes lo (sym o :: inner ++ [sym c]) begin_ i.
Proof.
  intros Hp Hi Hb finish best Hs Hf Hlen. exists best. cbn [length] in *. rewrite length_app in *. cbn [length] in *.
  split; [|done]. eapply scan_wrap; [done|done|done|lia|lia|done].
Qed.

Lemma quiet_wrap lo o c inner : (lit o, lit c) ∈ bracket_pairs -> Balanced (map p_lexeme inner) -> quiet lo (sym o :: inner ++ [sym c]).
Proof. intros Hp Hi begin_ i Hb. apply passes_wrap; [done|done|lia]. Qed.

Lemma opening_wrap lo o c inner : (lit o, lit c) ∈ bracket_pairs -> Balanced (map p_lexeme inner) -> opening lo (sym o :: inner ++ [sym c]).
Proof. intros Hp Hi i. apply passes_wrap; [done|done|lia]. Qed.

(** The first token of a range is no place to split. *)
Lemma opening_piece lo p : opens (p_lexeme p) = false -> closes (p_lexeme p) = false -> opening lo [p].
Proof.
  intros Ho Hc i finish best Hs Hf Hlen. cbn [length] in *. destruct (spelled_head _ _ _ Hs) as (Hv & _).
  destruct (counts_plain _ 0 0 0 Ho Hc) as (E1 & E2 & E3). rewrite scan_step by lia. cbv zeta. rewrite Hv, E1, E2, E3. cbn [Z.eqb negb orb].
  rewrite Nat.eqb_refl. cbn [orb]. exists best. by rewrite Nat.add_1_r.
Qed.

(** ** The operators of a tree *)

Lemma size_positive s : fine s -> (0 < size s)%nat.
Proof.
  assert (Happ : forall (l k : list Piece), (0 < length l)%nat \/ (0 < length k)%nat -> (0 < length (l ++ k))%nat) by (intros l k; rewrite length_app; lia).
  unfold size. induction s as [k text|op l r IHl IHr|op e IH|e IH|f l IHf IHl|a i IHa IHi|a separator k name IH|l IHl|l IHl] using syntax_ind; cbn [fine flatten].
  all: try (intros _; cbn; lia).
  - intros (_ & Hl & _). apply Happ. left. by apply IHl.
  - intros (Hf & _). apply Happ. left. by apply IHf.
  - intros (Ha & _). apply Happ. left. by apply IHa.
  - intros (Ha & _). apply Happ. left. by apply IH.
Qed.

(** Operators of one and of two tokens. *)
Lemma operator_cases (Q : bytes -> Prop) op : op ∈ binary_operators ++ map lit ["."; "->"; "::"] ->
  (forall c, op = [c] -> opens [c] = false -> closes [c] = false -> Q op) ->
  (forall c d, op = [c; d] -> opens [c] = false -> closes [c] = false -> Q op) -> Q op.
Proof.
  intros H H1 H2. repeat (apply elem_of_cons in H as [H|H]; [first [eapply H1; [rewrite H; reflexivity|by vm_compute..] | eapply H2; [rewrite H; reflexivity|by vm_compute..]]|]).
  by apply not_elem_of_nil in H.
Qed.

Lemma quiet_operator lo op : op ∈ binary_operators ++ map lit ["."; "->"; "::"] -> precedence op = 0 \/ lo <= precedence op -> quiet lo (op_pieces op).
Proof.
  intros Hop Hr. pattern op. apply operator_cases; [done| |].
  - intros c -> Ho Hc. by apply quiet_piece.
  - intros c d -> Ho Hc. by apply quiet_glued.
Qed.

(** An operator that is weaker than those before it is taken, as is one as weak, but for
    an assignment. *)
Lemma scan_operator begin_ finish i op best : op ∈ binary_operators -> spelled i (op_pieces op) -> (begin_ < i)%nat ->
  (i + length op < finish)%nat -> (finish <= length sig)%nat ->
  precedence op < weakest best \/ precedence op = weakest best /\ precedence op <> 1 ->
  scan begin_ finish i 0 0 0 best = scan begin_ finish (i + length op) 0 0 0 (mkSplit (precedence op) (Some i) (length op) op).
Proof.
  intros Hop Hs Hb Hf Hlen Hw.
  assert (Hpos : precedence op <> 0).
  { clear -Hop. unfold binary_operators in Hop. repeat (apply elem_of_cons in Hop as [->|Hop]; [by vm_compute|]). by apply not_elem_of_nil in Hop. }
  assert (Htake : forall cond, cond = true -> negb (precedence op =? 0) && cond &&
    ((precedence op <? weakest best) || ((precedence op =? weakest best) && negb (precedence op =? 1))) = true).
  { intros cond ->. rewrite (proj2 (Z.eqb_neq _ 0)) by done. cbn [negb andb]. destruct (Z.ltb_spec (precedence op) (weakest best)); [done|].
    rewrite (proj2 (Z.eqb_eq _ (weakest best))), (proj2 (Z.eqb_neq _ 1)) by lia. done. }
  assert (Hin : op ∈ binary_operators ++ map lit ["."; "->"; "::"]) by (apply elem_of_app; by left). revert Hs Hf Htake. pattern op.
  apply operator_cases; [done| |]; clear Hop Hin Hpos Hw.
  - intros c -> Ho Hc Hs Hf Htake. cbn [op_pieces length] in *. destruct (spelled_head _ _ _ Hs) as (Hv & _). cbn [p_lexeme] in Hv.
    destruct (counts_plain _ 0 0 0 Ho Hc) as (E1 & E2 & E3). rewrite scan_step by lia. cbv zeta. rewrite Hv, E1, E2, E3. cbn [Z.eqb negb orb].
    rewrite (proj2 (Nat.eqb_neq i begin_)), (proj2 (Nat.eqb_neq (S i) finish)) by lia. cbn [orb].
    rewrite (operator_single _ _ _ finish Hs eq_refl Hlen). cbn [p_lexeme]. rewrite Htake; [done|]. apply Nat.ltb_lt. lia.
  - intros c d -> Ho Hc Hs Hf Htake. cbn [op_pieces length] in *. destruct (spelled_head _ _ _ Hs) as (Hv & _). cbn [p_lexeme] in Hv.
    destruct (counts_plain _ 0 0 0 Ho Hc) as (E1 & E2 & E3). rewrite scan_step by lia. cbv zeta. rewrite Hv, E1, E2, E3. cbn [Z.eqb negb orb].
    rewrite (proj2 (Nat.eqb_neq i begin_)), (proj2 (Nat.eqb_neq (S i) finish)) by lia. cbn [orb].
    rewrite (operator_glued _ _ _ _ finish Hs eq_refl ltac:(lia) Hlen). cbn [p_lexeme app]. rewrite Htake; [done|]. apply Nat.ltb_lt. lia.
Qed.

(** A separator of a member is no operator. *)
Lemma separator_operator separator : separator ∈ map lit ["."; "->"; "::"] ->
  separator ∈ binary_operators ++ map lit ["."; "->"; "::"] /\ precedence separator = 0.
Proof.
  intros H. split; [apply elem_of_app; by right|].
  repeat (apply elem_of_cons in H as [->|H]; [by vm_compute|]). by apply not_elem_of_nil in H.
Qed.

Lemma primary_level s : primary s = true -> level s = 9 /\ starts_sign s = false.
Proof. by destruct s. Qed.

Lemma unary_rank op : op ∈ map lit ["!"; "-"; "+"; "await"] -> precedence op = 0 \/ precedence op = 6 /\ sign op = true.
Proof. intros H. repeat (apply elem_of_cons in H as [->|H]; [first [left; by vm_compute|right; split; by vm_compute]|]). by apply not_elem_of_nil in H. Qed.

(** The operands of an operator may be scanned for weaker ones only. *)
Lemma operand_levels op l r lo : fine (SBinary op l r) -> lo <= precedence op ->
  lo <= level l /\ lo <= level r /\ (starts_sign r = true -> lo <= 6).
Proof.
  cbn [fine]. intros (Hop & _ & _ & Hl & Hr & Hsign) Hlo.
  assert (H1 : op = lit "=" -> precedence op = 1) by by intros ->. case_bool_decide as He.
  - rewrite H1 in * by done. split_and!; [lia|lia|]. intros _. lia.
  - split_and!; [lia|lia|]. intros Hs. destruct (Z.le_gt_cases 6 (precedence op)) as [H6|]; [|lia]. apply Hsign in H6. congruence.
Qed.

Lemma list_balanced l : Forall fine l -> Balanced (map p_lexeme (commas (map flatten l))).
Proof. intros Hl. apply balanced_commas, Forall_map. eapply Forall_impl; [exact Hl|]. intros a Ha. by eapply nested_balanced, flatten_nested. Qed.

Lemma entries_balanced l : Forall (fun '(k, text, v) => leaf_kind k = true /\ leaf_text text = true /\ fine v) l ->
  Balanced (map p_lexeme (commas (map (fun '(k, text, v) => mkPiece k text false :: sym ":" :: flatten v) l))).
Proof.
  intros Hl. apply balanced_commas, Forall_map. eapply Forall_impl; [exact Hl|]. intros [[k text] v] (_ & Ht & Hv).
  destruct (leaf_plain _ Ht). cbn. apply nested_plain; [done..|]. apply nested_plain; [done..|]. by eapply nested_balanced, flatten_nested.
Qed.

Lemma quiet_tree s lo : fine s -> lo <= level s -> (starts_sign s = true -> lo <= 6) -> quiet lo (flatten s).
Proof.
  revert lo. induction s as [k text|op l r IHl IHr|op e IH|e IH|f l IHf _|a i IHa _|a separator k name IH|l _|l _] using syntax_ind; intros lo Hfine Hlo Hsign.
  - destruct Hfine as [_ Ht]. destruct (leaf_plain _ Ht). apply quiet_piece; [done..|by left].
  - destruct (operand_levels _ _ _ lo Hfine Hlo) as (H1 & H2 & H3). destruct Hfine as (Hop & Hl & Hr & _). cbn [flatten].
    apply quiet_app; [by apply IHl|]. apply quiet_app; [|by apply IHr].
    apply quiet_operator; [apply elem_of_app; by left|by right].
  - destruct Hfine as (Hop & He & Hlev & Hse). change (quiet lo ([mkPiece (if bool_decide (op = lit "await") then keyword else symbol) op false] ++ flatten e)).
    cbn [level] in Hlo. apply quiet_app; [|apply IH; [done|lia|congruence]]. destruct (unary_texts _ Hop) as (Ho & Hc & _).
    apply quiet_piece; [done..|]. destruct (unary_rank _ Hop) as [|[H6 Hs]]; [by left|right]. cbn [p_lexeme]. specialize (Hsign Hs). lia.
  - apply quiet_wrap; [auto with parser|]. by eapply nested_balanced, flatten_nested.
  - destruct Hfine as (Hf & Hp & Hl%fine_list). destruct (primary_level _ Hp) as [E1 E2]. cbn [flatten level] in *.
    apply quiet_app; [apply IHf; [done|lia|congruence]|]. apply quiet_wrap; [auto with parser|by apply list_balanced].
  - destruct Hfine as (Ha & Hp & Hi). destruct (primary_level _ Hp) as [E1 E2]. cbn [flatten level] in *.
    apply quiet_app; [apply IHa; [done|lia|congruence]|]. apply quiet_wrap; [auto with parser|by eapply nested_balanced, flatten_nested].
  - destruct Hfine as (Ha & Hp & Hs & _ & Hn). destruct (primary_level _ Hp) as [E1 E2]. cbn [flatten level] in *.
    apply quiet_app; [apply IH; [done|lia|congruence]|]. destruct (separator_operator _ Hs) as [Hop H0].
    apply quiet_app; [apply quiet_operator; [done|by left]|]. destruct (leaf_plain _ Hn). apply quiet_piece; [done..|by left].
  - apply fine_list in Hfine. apply quiet_wrap; [auto with parser|by apply list_balanced].
  - apply fine_entries in Hfine. apply quiet_wrap; [auto with parser|by apply entries_balanced].
Qed.

Lemma opening_tree s lo : fine s -> lo <= level s -> opening lo (flatten s).
Proof.
  revert lo. induction s as [k text|op l r IHl _|op e _|e _|f l IHf _|a i IHa _|a separator k name IH|l _|l _] using syntax_ind; intros lo Hfine Hlo.
  - destruct Hfine as [_ Ht]. destruct (leaf_plain _ Ht). by apply opening_piece.
  - destruct (operand_levels _ _ _ lo Hfine Hlo) as (H1 & H2 & H3). destruct Hfine as (Hop & Hl & Hr & _). cbn [flatten].
    apply opening_app; [by apply IHl|by apply size_positive|]. apply quiet_app; [|by apply quiet_tree].
    apply quiet_operator; [apply elem_of_app; by left|by right].
  - destruct Hfine as (Hop & He & Hlev & Hse). change (opening lo ([mkPiece (if bool_decide (op = lit "await") then keyword else symbol) op false] ++ flatten e)).
    cbn [level] in Hlo. destruct (unary_texts _ Hop) as (Ho & Hc & _). apply opening_app; [by apply opening_piece|cbn; lia|].
    apply quiet_tree; [done|lia|congruence].
  - apply opening_wrap; [auto with parser|]. by eapply nested_balanced, flatten_nested.
  - destruct Hfine as (Hf & Hp & Hl%fine_list). destruct (primary_level _ Hp) as [E1 E2]. cbn [flatten level] in *.
    apply opening_app; [apply IHf; [done|lia]|by apply size_positive|]. apply quiet_wrap; [auto with parser|by apply list_balanced].
  - destruct Hfine as (Ha & Hp & Hi). destruct (primary_level _ Hp) as [E1 E2]. cbn [flatten level] in *.
    apply opening_app; [apply IHa; [done|lia]|by apply size_positive|]. apply quiet_wrap; [auto with parser|by eapply nested_balanced, flatten_nested].
  - destruct Hfine as (Ha & Hp & Hs & _ & Hn). destruct (primary_level _ Hp) as [E1 E2]. cbn [flatten level] in *.
    apply opening_app; [apply IH; [done|lia]|by apply size_positive|]. destruct (separator_operator _ Hs) as [Hop H0].
    apply quiet_app; [apply quiet_operator; [done|by left]|]. destruct (leaf_plain _ Hn). apply quiet_piece; [done..|by left].
  - apply fine_list in Hfine. apply opening_wrap; [auto with parser|by apply list_balanced].
  - apply fine_entries in Hfine. apply opening_wrap; [auto with parser|by apply entries_balanced].
Qed.

(** A tree that is no binary operation has no place to split. *)
Lemma find_split_none s b : fine s -> level s = 9 -> spelled b (flatten s) -> (b + size s <= length sig)%nat ->
  split_at (find_split tokens sig b (b + size s)) = None.
Proof.
  intros Hs Hl Hsp Hlen. unfold find_split. fold (scan b (b + size s) b 0 0 0 (mkSplit 8 None 1 [])).
  destruct (opening_tree s 9 Hs ltac:(lia) b (b + size s)%nat (mkSplit 8 None 1 []) Hsp (Nat.le_refl _) Hlen) as (best & E & _ & Hb).
  rewrite E. unfold size. rewrite scan_end, Hb; [done|]. cbn. lia.
Qed.

(** A binary operation is split at its operator. *)
Lemma find_split_binary op l r b : fine (SBinary op l r) -> spelled b (flatten (SBinary op l r)) ->
  (b + size (SBinary op l r) <= length sig)%nat ->
  find_split tokens sig b (b + size (SBinary op l r)) = mkSplit (precedence op) (Some (b + size l)%nat) (length op) op.
Proof.
  intros Hfine Hsp Hlen. destruct (operator_texts op) as (_ & Hw & Hw0); [apply elem_of_app; left; apply Hfine|].
  assert (Hsize : size (SBinary op l r) = (size l + length op + size r)%nat) by (unfold size; cbn [flatten]; rewrite !length_app, Hw; lia).
  rewrite Hsize in *. destruct Hfine as (Hop & Hl & Hr & Hll & Hlr & Hsign). cbn [flatten] in Hsp.
  apply spelled_app in Hsp as [Hs1 Hs2]. apply spelled_app in Hs2 as [Hs2 Hs3]. fold (size l) in *. rewrite Hw in Hs3.
  pose proof (size_positive l Hl). pose proof (size_positive r Hr). set (finish := (b + (size l + length op + size r))%nat) in *.
  assert (H1 : op = lit "=" -> precedence op = 1) by by intros ->.
  assert (H8 : precedence op <= 7) by (unfold precedence; repeat case_bool_decide; lia).
  unfold find_split. fold (scan b finish b 0 0 0 (mkSplit 8 None 1 [])).
  set (lo := if bool_decide (op = lit "=") then 2 else precedence op).
  destruct (opening_tree l lo Hl ltac:(subst lo; case_bool_decide; lia) b finish (mkSplit 8 None 1 []) Hs1 ltac:(subst finish; fold (size l); lia) Hlen) as (best & E & Hbest & _).
  fold (size l) in E. rewrite E, (scan_operator _ _ _ op); [|done|done|lia|subst finish; lia|done|].
  2: { assert (Hlb : lo <= weakest best) by (apply Hbest; subst lo; cbn [weakest]; destruct (bool_decide _); lia). subst lo.
    destruct (decide (op = lit "=")) as [He|He]; [rewrite (bool_decide_eq_true_2 _ He) in Hlb; cbv match in Hlb; rewrite (H1 He); lia|].
    rewrite (bool_decide_eq_false_2 _ He) in Hlb; cbv match in Hlb.
    assert (precedence op <> 1); [|lia]. unfold precedence. rewrite (bool_decide_eq_false_2 _ He). repeat case_bool_decide; lia. }
  assert (Hq : quiet (if bool_decide (op = lit "=") then 1 else precedence op + 1) (flatten r)).
  { apply quiet_tree; [done|destruct (bool_decide _); lia|]. intros Hss. destruct (bool_decide _); [lia|].
    destruct (Z.le_gt_cases 6 (precedence op)) as [H6|]; [|lia]. apply Hsign in H6. congruence. }
  destruct (Hq b (b + size l + length op)%nat ltac:(lia) finish (mkSplit (precedence op) (Some (b + size l)%nat) (length op) op) Hs3
    ltac:(subst finish; fold (size r); lia) Hlen) as (best' & E' & _ & Hbest').
  rewrite E'. fold (size r). replace (b + size l + length op + size r)%nat with finish by (subst finish; lia). rewrite scan_end. apply Hbest'.
  cbn [weakest]. destruct (decide (op = lit "=")) as [He|He]; [right; by apply H1|left]. rewrite (bool_decide_eq_false_2 _ He). lia.
Qed.
End Scan.
