(* ===== verification/ReadFacts.v ===== *)
(** Expressions are read with the precedence and associativity of their operators: the
    tokens that spell a tree are parsed back to the tree, and nothing is reported. *)

From stdpp Require Import base list.
From Stdlib Require Import ZArith Bool Lia.
From S2P Require Import Prelude Text Lexer Ast Expressions ParserFacts SyntaxTrees.

Local Open Scope Z_scope.

(** ** The partner of a bracket of the expression *)

Section Brackets.
Context (tokens : list Token) (first last : nat).
Let sig := significant_between tokens first last.

Local Abbreviation value := (value tokens sig).
Local Abbreviation sig_at := (sig_at sig).
Local Abbreviation spelled := (spelled tokens sig).

(** The positions from [b] on, [n] of them, with their texts. *)
Definition texts_at (b n : nat) : list (nat * bytes) := map (fun i => (sig_at i, value i)) (seq b n).

Lemma texts_app b n m : texts_at b (n + m) = texts_at b n ++ texts_at (b + n) m.
Proof. unfold texts_at. by rewrite seq_app, map_app. Qed.

Lemma texts_lookup b n i : (i < n)%nat -> texts_at b n !! i = Some (sig_at (b + i), value (b + i)).
Proof. intros Hi. unfold texts_at. rewrite list_lookup_fmap, lookup_seq_lt by done. done. Qed.

Lemma texts_length b n : length (texts_at b n) = n.
Proof. unfold texts_at. by rewrite length_map, length_seq. Qed.

Lemma texts_spelled b ps : spelled b ps -> map snd (texts_at b (length ps)) = map p_lexeme ps.
Proof.
  intros Hs. apply list_eq. intros i. rewrite !list_lookup_fmap. destruct (ps !! i) as [p|] eqn:Ep.
  - rewrite texts_lookup by by eapply lookup_lt_Some. destruct (Hs i p Ep) as (Hv & _). cbn. by rewrite Hv.
  - apply lookup_ge_None in Ep. by rewrite lookup_ge_None_2 by by rewrite texts_length.
Qed.

(** The positions after one of them are those the filter finds from there on. *)
Lemma filter_seq_drop (Q : nat -> Prop) `{forall i, Decision (Q i)} k n i j : base.filter Q (seq k n) !! i = Some j ->
  (k <= j < k + n)%nat /\ base.filter Q (seq j (k + n - j)) = drop i (base.filter Q (seq k n)).
Proof.
  revert k i. induction n as [|n IH]; intros k i; cbn [seq]; [done|].
  destruct (decide (Q k)) as [Hk|Hk]; [rewrite filter_cons_True by done|rewrite filter_cons_False by done].
  - destruct i as [|i]; cbn [lookup list_lookup drop].
    + intros [= <-]. split; [lia|]. replace (k + S n - k)%nat with (S n) by lia. cbn [seq]. by rewrite filter_cons_True.
    + intros [Hr E]%IH. split; [lia|]. rewrite <-E. f_equal. f_equal. lia.
  - intros [Hr E]%IH. split; [lia|]. rewrite <-E. f_equal. f_equal. lia.
Qed.

Lemma sig_nodup : NoDup sig.
Proof. apply NoDup_filter, NoDup_seq. Qed.

Lemma sig_at_inj i j : (i < length sig)%nat -> (j < length sig)%nat -> sig_at i = sig_at j -> i = j.
Proof.
  intros Hi Hj. destruct (lookup_lt_is_Some_2 _ _ Hi) as [x Hx]. destruct (lookup_lt_is_Some_2 _ _ Hj) as [y Hy].
  unfold Expressions.sig_at. rewrite Hx, Hy. cbn. intros ->. eapply NoDup_lookup; [apply sig_nodup|done|done].
Qed.

Lemma matching_texts open close b j : (last < length tokens)%nat -> (b < length sig)%nat ->
  match_list (lit open) (lit close) 0 (texts_at b (length sig - b)) = Some j -> matching_symbol tokens (sig_at b) open close = Some j.
Proof.
  intros Hlast Hb Hm. destruct (lookup_lt_is_Some_2 _ _ Hb) as [k Hk].
  assert (Hat : sig_at b = k) by (unfold Expressions.sig_at; by rewrite Hk).
  unfold matching_symbol. rewrite Hat. unfold sig, significant_between in Hk. pose proof (filter_seq_drop _ _ _ _ _ Hk) as [Hr E].
  replace (first + (S last - first) - k)%nat with (S last - k)%nat in E by lia.
  rewrite <-(take_drop (S last - k) (drop k tokens)). apply match_from_more. rewrite match_from_list by lia. rewrite E.
  change (base.filter (fun i => trivia (tok tokens i) = false) (seq first (S last - first))) with sig. rewrite <-Hm. f_equal. apply list_eq. intros i. rewrite list_lookup_fmap, lookup_drop. destruct (decide (i < length sig - b)%nat) as [Hi|Hi].
  - rewrite texts_lookup by done. destruct (lookup_lt_is_Some_2 sig (b + i)) as [x Hx]; [lia|].
    rewrite Hx. cbn. unfold Expressions.value, sig_tok, Expressions.sig_at. by rewrite Hx.
  - rewrite (lookup_ge_None_2 (texts_at _ _)) by (rewrite texts_length; lia).
    by rewrite lookup_ge_None_2 by lia.
Qed.

(** Brackets around a balanced text are partners. *)
Lemma matching_wrap o c inner b : (last < length tokens)%nat -> (lit o, lit c) ∈ bracket_pairs -> Balanced (map p_lexeme inner) ->
  spelled b (sym o :: inner ++ [sym c]) -> (b + S (length inner) < length sig)%nat ->
  matching_symbol tokens (sig_at b) o c = Some (sig_at (b + S (length inner))).
Proof.
  intros Hlast Hp Hi Hs Hf. apply matching_texts; [done|lia|].
  replace (length sig - b)%nat with (1 + (length inner + (1 + (length sig - (b + S (length inner) + 1)))))%nat by lia.
  rewrite !texts_app. destruct (spelled_head _ _ _ _ _ Hs) as (Hv & _). apply spelled_cons in Hs as [_ Hs].
  apply spelled_app in Hs as [Hs1 Hs2]. destruct (spelled_head _ _ _ _ _ Hs2) as (Hv2 & _). apply texts_spelled in Hs1.
  rewrite Nat.add_1_r. change (texts_at b 1) with [(sig_at b, value b)]. change (texts_at (S b + length inner) 1) with [(sig_at (S b + length inner), value (S b + length inner))].
  cbn [app]. rewrite Hv, Hv2. cbn [p_lexeme sym]. rewrite match_wrap; [|done|by rewrite Hs1]. f_equal. f_equal. lia.
Qed.

(** The partner of a bracket of a balanced text is in it. *)
Lemma matching_inside o c ps b i : (last < length tokens)%nat -> (lit o, lit c) ∈ bracket_pairs -> Balanced (map p_lexeme ps) ->
  spelled b ps -> (b + length ps <= length sig)%nat -> (b <= i < b + length ps)%nat -> value i = lit o ->
  exists j, (j < b + length ps)%nat /\ matching_symbol tokens (sig_at i) o c = Some (sig_at j).
Proof.
  intros Hlast Hp Hbal Hs Hf Hi Hv. pose proof (texts_spelled _ _ Hs) as Ht.
  destruct (match_inside (lit o) (lit c) (texts_at b (length ps)) Hp ltac:(by rewrite Ht) (i - b) (sig_at i)) as (m & x & Hm & Hx & Hk).
  { rewrite texts_lookup by lia. replace (b + (i - b))%nat with i by lia. by rewrite Hv. }
  pose proof (lookup_lt_Some _ _ _ Hx) as Hmlt. rewrite texts_length in Hmlt. rewrite texts_lookup in Hx by done. injection Hx as <-.
  exists (b + m)%nat. split; [lia|]. apply matching_texts; [done|lia|]. specialize (Hk (texts_at (b + length ps) (length sig - (b + length ps)))).
  cbn [fst] in Hk. rewrite <-Hk. f_equal. replace (length ps) with (i - b + (b + length ps - i))%nat at 1 by lia. rewrite texts_app.
  rewrite drop_app_length' by by rewrite texts_length. replace (length sig - i)%nat with (b + length ps - i + (length sig - (b + length ps)))%nat by lia.
  rewrite texts_app. f_equal; f_equal; lia.
Qed.
End Brackets.

(** ** Elements between commas *)

Section Loops.
Context (tokens : list Token) (sig : list nat).

Local Abbreviation value := (value tokens sig).
Local Abbreviation spelled := (spelled tokens sig).

Definition depth_after (x : bytes) (depth : Z) : Z := if opens x then depth + 1 else if closes x then depth - 1 else depth.

(** A loop that goes on at every token but a comma outside brackets. *)
Section Skip.
Context {X : Type} (F : nat -> Z -> X) (finish : nat).
Hypothesis F_step : forall i depth, (i < finish)%nat -> depth_after (value i) depth <> 0 \/ value i <> lit "," ->
  F i depth = F (S i) (depth_after (value i) depth).

Lemma skip_balanced ps : Balanced (map p_lexeme ps) -> forall i depth, spelled i ps -> (i + length ps <= finish)%nat -> 0 < depth ->
  F i depth = F (i + length ps) depth.
Proof.
  intros Hl. remember (map p_lexeme ps) as xs eqn:Ex. revert xs Hl ps Ex. refine (balanced_ind _ _ _ _).
  - intros [|x ps]; [|discriminate]. intros _ i depth _ _ _. by rewrite Nat.add_0_r.
  - intros x xs Ho Hc _ IH [|y ps]; [discriminate|]. intros [= -> ->] i depth Hs Hf Hd. cbn [length] in *.
    destruct (spelled_head _ _ _ _ _ Hs) as (Hv & _). apply spelled_cons in Hs as [_ Hs].
    assert (Hda : depth_after (value i) depth = depth) by (unfold depth_after; by rewrite Hv, Ho, Hc).
    rewrite F_step, Hda, (IH ps eq_refl) by (rewrite ?Hda; done || lia). f_equal. lia.
  - intros o c inner xs Hp _ IHi _ IHl [|y ps]; [discriminate|]. intros [= -> El] i depth Hs Hf Hd.
    symmetry in El. apply map_eq_app in El as (l1 & l2 & -> & <- & El). destruct l2 as [|z l2]; [discriminate|]. injection El as <- <-.
    cbn [length] in *. rewrite length_app in *. cbn [length] in *.
    destruct (spelled_head _ _ _ _ _ Hs) as (Hv & _). apply spelled_cons in Hs as [_ Hs]. apply spelled_app in Hs as [Hs1 Hs2].
    destruct (spelled_head _ _ _ _ _ Hs2) as (Hv2 & _). apply spelled_cons in Hs2 as [_ Hs2].
    destruct (bracket_facts _ _ Hp) as (Hoo & Hoc & Hco & Hcc & _).
    assert (E1 : depth_after (value i) depth = depth + 1) by (unfold depth_after; by rewrite Hv, Hoo).
    assert (E2 : depth_after (value (S i + length l1)) (depth + 1) = depth) by (unfold depth_after; rewrite Hv2, Hco, Hcc; lia).
    rewrite F_step, E1, (IHi l1 eq_refl) by (rewrite ?E1; done || lia).
    rewrite F_step, E2, (IHl l2 eq_refl) by (rewrite ?E2; done || lia). f_equal. lia.
Qed.

Lemma skip_nested ps : Nested (fun x => x <> lit ",") (map p_lexeme ps) -> forall i, spelled i ps -> (i + length ps <= finish)%nat ->
  F i 0 = F (i + length ps)%nat 0.
Proof.
  intros Hl. remember (map p_lexeme ps) as xs eqn:Ex. remember (fun x : bytes => x <> lit ",") as Q eqn:EQ. revert ps Ex.
  induction Hl as [Q|Q x xs Ho Hc HQ Hl IH|Q o c inner xs Hp Hi _ Hl IH]; subst Q.
  - intros [|x ps]; [|discriminate]. intros _ i _ _. by rewrite Nat.add_0_r.
  - intros [|y ps]; [discriminate|]. intros [= -> ->] i Hs Hf. cbn [length] in *.
    destruct (spelled_head _ _ _ _ _ Hs) as (Hv & _). apply spelled_cons in Hs as [_ Hs].
    assert (Hda : depth_after (value i) 0 = 0) by (unfold depth_after; by rewrite Hv, Ho, Hc).
    rewrite F_step, Hda, (IH eq_refl ps eq_refl) by (rewrite ?Hda; done || lia || (right; by rewrite Hv)). f_equal. lia.
  - intros [|y ps]; [discriminate|]. intros [= -> El] i Hs Hf.
    symmetry in El. apply map_eq_app in El as (l1 & l2 & -> & <- & El). destruct l2 as [|z l2]; [discriminate|]. injection El as <- <-.
    cbn [length] in *. rewrite length_app in *. cbn [length] in *.
    destruct (spelled_head _ _ _ _ _ Hs) as (Hv & _). apply spelled_cons in Hs as [_ Hs]. apply spelled_app in Hs as [Hs1 Hs2].
    destruct (spelled_head _ _ _ _ _ Hs2) as (Hv2 & _). apply spelled_cons in Hs2 as [_ Hs2].
    destruct (bracket_facts _ _ Hp) as (Hoo & Hoc & Hco & Hcc & _ & _ & Hcomma & _).
    assert (E1 : depth_after (value i) 0 = 1) by (unfold depth_after; by rewrite Hv, Hoo).
    assert (E2 : depth_after (value (S i + length l1)) 1 = 0) by (unfold depth_after; rewrite Hv2, Hco, Hcc; lia).
    rewrite F_step, E1, (skip_balanced l1) by (rewrite ?E1; done || lia).
    rewrite F_step, E2, (IH eq_refl l2 eq_refl) by (rewrite ?E2, ?Hv2; done || lia || by right). f_equal. lia.
Qed.
End Skip.

Context (read : nat -> nat -> P Expression) (missing code : string) (p : Parser).

Lemma comma_depth i : value i = lit "," -> depth_after (value i) 0 = 0.
Proof. by intros ->. Qed.

(** *** Arguments and lists *)

Lemma elements_step start finish done_ i depth : (i < finish)%nat -> depth_after (value i) depth <> 0 \/ value i <> lit "," ->
  elements tokens sig read missing code (finish - i) i start finish depth done_ =
  elements tokens sig read missing code (finish - S i) (S i) start finish (depth_after (value i) depth) done_.
Proof.
  intros Hi Hd. replace (finish - i)%nat with (S (finish - S i)) by lia. cbn [elements]. rewrite (proj2 (Nat.leb_gt _ _)) by lia. cbv zeta.
  unfold value_is. fold (depth_after (value i) depth). destruct Hd as [Hd|Hd].
  - rewrite (proj2 (Z.eqb_neq _ 0)) by done. by rewrite andb_false_r.
  - by rewrite bool_decide_eq_false_2.
Qed.

Lemma elements_comma start finish done_ i e : (start < i < finish)%nat -> value i = lit "," -> read start i p = (Ok e, p) ->
  elements tokens sig read missing code (finish - i) i start finish 0 done_ p =
  elements tokens sig read missing code (finish - S i) (S i) (S i) finish 0 (done_ ++ [e]) p.
Proof.
  intros Hi Hv Hread. replace (finish - i)%nat with (S (finish - S i)) by lia. cbn [elements]. rewrite (proj2 (Nat.leb_gt _ _)) by lia. cbv zeta.
  unfold value_is. fold (depth_after (value i) 0). rewrite comma_depth, Hv by done. rewrite bool_decide_eq_true_2 by done. cbn [Z.eqb andb].
  rewrite (proj2 (Nat.ltb_lt _ _)) by lia. apply eff_bind_Ok. by rewrite (eff_bind_Ok _ _ _ _ _ Hread).
Qed.

(** What [read] is to do for the trees of a list. *)
Definition reads (finish : nat) (s : Syntax) : Prop := forall b, spelled b (flatten s) -> (b + size s <= finish)%nat ->
  read b (b + size s)%nat p = (Ok (expression_of tokens sig s b), p).

Lemma elements_read finish l : Forall fine l -> Forall (reads finish) l -> l <> [] -> forall b done_,
  spelled b (commas (map flatten l)) -> (b + length (commas (map flatten l)) = finish)%nat ->
  exists start arguments e, elements tokens sig read missing code (finish - b) b b finish 0 done_ p = (Ok (start, arguments), p) /\
    (b <= start < finish)%nat /\ read start finish p = (Ok e, p) /\
    arguments ++ [e] = done_ ++ read_list (expression_of tokens sig) size l b.
Proof.
  intros Hfine Hreads Hne. induction l as [|a l IH]; [done|]. apply Forall_cons in Hfine as [Ha Hl]. apply Forall_cons in Hreads as [Hra Hrl].
  intros b done_ Hs Hf. pose proof (size_positive a Ha) as Hpos.
  assert (Hskip : spelled b (flatten a) -> (b + size a <= finish)%nat ->
    elements tokens sig read missing code (finish - b) b b finish 0 done_ =
    elements tokens sig read missing code (finish - (b + size a)) (b + size a) b finish 0 done_).
  { intros Hsa Hfa. apply (skip_nested (fun i d => elements tokens sig read missing code (finish - i) i b finish d done_) finish); [|by apply flatten_nested|done|done].
    intros i d. apply elements_step. }
  destruct l as [|a' l].
  - cbn [map commas] in *. rewrite Hskip by (done || (unfold size; lia)). fold (size a) in Hf. rewrite Hf, Nat.sub_diag.
    exists b, done_, (expression_of tokens sig a b). split_and!; [done|lia|lia| |done]. rewrite <-Hf. apply Hra; [done|lia].
  - change (commas (map flatten (a :: a' :: l))) with (flatten a ++ sym "," :: commas (map flatten (a' :: l))) in *.
    rewrite length_app in Hf. cbn [length] in Hf. fold (size a) in Hf. apply spelled_app in Hs as [Hs1 Hs2]. fold (size a) in Hs2.
    destruct (spelled_head _ _ _ _ _ Hs2) as (Hv & _). apply spelled_cons in Hs2 as [_ Hs2].
    destruct (IH Hl Hrl ltac:(done) (S (b + size a)) (done_ ++ [expression_of tokens sig a b]) Hs2 ltac:(lia)) as (start & arguments & e & E & Hr & He & Happ).
    exists start, arguments, e. rewrite Hskip by (done || lia). rewrite (elements_comma _ _ _ _ (expression_of tokens sig a b)) by (lia || done || (apply Hra; [done|lia])).
    split_and!; [done|lia|lia|done|]. rewrite Happ, <-app_assoc. rewrite <-Nat.add_1_r. done.
Qed.

(** *** Objects *)

Abbreviation entry_syntax := (TokenKind * bytes * Syntax)%type.

Definition entry_pieces : entry_syntax -> list Piece := fun '(k, text, v) => mkPiece k text false :: sym ":" :: flatten v.
Definition entry_width : entry_syntax -> nat := fun '(k, text, v) => (2 + size v)%nat.
Definition entry_expression : entry_syntax -> nat -> Expression := fun '(k, text, v) b =>
  make tokens sig b (b + 2 + size v) entry [] [make tokens sig b (S b) (leaf_expression_kind k text) text []; expression_of tokens sig v (b + 2)].
Definition entry_fine : entry_syntax -> Prop := fun '(k, text, v) => leaf_kind k = true /\ leaf_text text = true /\ fine v.

Lemma entries_step start last o i depth : (i < last)%nat -> depth_after (value i) depth <> 0 \/ value i <> lit "," ->
  entries tokens sig read (last - i) i start last depth o =
  entries tokens sig read (last - S i) (S i) start last (depth_after (value i) depth) o.
Proof.
  intros Hi Hd. replace (last - i)%nat with (S (last - S i)) by lia. cbn [entries]. rewrite (proj2 (Nat.leb_gt _ _)) by lia. cbv zeta.
  unfold value_is. fold (depth_after (value i) depth). destruct Hd as [Hd|Hd].
  - rewrite (proj2 (Z.eqb_neq _ 0)) by done. by rewrite andb_false_r.
  - by rewrite bool_decide_eq_false_2.
Qed.

Lemma entries_comma start last o i o' : (i < last)%nat -> value i = lit "," -> append_entry tokens sig read start i last o p = (Ok o', p) ->
  entries tokens sig read (last - i) i start last 0 o p = entries tokens sig read (last - S i) (S i) (S i) last 0 o' p.
Proof.
  intros Hi Hv Hread. replace (last - i)%nat with (S (last - S i)) by lia. cbn [entries]. rewrite (proj2 (Nat.leb_gt _ _)) by lia. cbv zeta.
  unfold value_is. fold (depth_after (value i) 0). rewrite comma_depth, Hv by done. rewrite bool_decide_eq_true_2 by done. cbn [Z.eqb andb].
  by apply eff_bind_Ok.
Qed.

(** What [read] is to do for the keys and values of an object. *)
Definition reads_entry (finish : nat) (x : entry_syntax) : Prop := reads finish (SLeaf x.1.1 x.1.2) /\ reads finish x.2.

Lemma append_entry_read finish x b o last : entry_fine x -> reads_entry last x -> spelled b (entry_pieces x) ->
  (finish = b + entry_width x)%nat -> (finish <= last)%nat ->
  append_entry tokens sig read b finish last o p = (Ok (o.1, o.2 ++ [entry_expression x b]), p).
Proof.
  destruct x as [[k text] v]. intros (_ & _ & Hv) [Hkey Hval] Hs Hf Hl. cbn [entry_pieces entry_width fst snd] in *. pose proof (size_positive v Hv).
  apply spelled_cons in Hs as [Hs1 Hs2]. destruct (spelled_head _ _ _ _ _ Hs2) as (Hc & _). apply spelled_cons in Hs2 as [_ Hs2].
  unfold append_entry. rewrite (proj2 (Nat.leb_gt _ _)) by lia. replace (finish - b)%nat with (S (S (size v))) by lia. cbn [find_colon].
  rewrite (proj2 (Nat.leb_gt _ _)) by lia. unfold value_is. rewrite Hc. cbn [p_lexeme sym]. rewrite bool_decide_eq_true_2 by done.
  specialize (Hkey b Hs1). specialize (Hval (S (S b)) Hs2). change (size (SLeaf k text)) with 1%nat in Hkey. rewrite Nat.add_1_r in Hkey.
  rewrite (eff_bind_Ok _ _ _ _ _ (Hkey ltac:(lia))). replace finish with (S (S b) + size v)%nat by lia.
  rewrite (eff_bind_Ok _ _ _ _ _ (Hval ltac:(lia))). cbn [entry_expression expression_of].
  change (size (SLeaf k text)) with 1%nat. rewrite Nat.add_1_r. replace (b + 2)%nat with (S (S b)) by lia. done.
Qed.

Lemma entry_nested x : entry_fine x -> Nested (fun x => x <> lit ",") (map p_lexeme (entry_pieces x)).
Proof.
  destruct x as [[k text] v]. intros (_ & Ht & Hv). destruct (leaf_plain _ Ht). cbn. apply nested_plain; [done..|].
  apply nested_plain; [done..|by apply flatten_nested].
Qed.

Lemma entries_read last l : Forall entry_fine l -> Forall (reads_entry last) l -> forall b done_,
  spelled b (commas (map entry_pieces l)) -> (b + length (commas (map entry_pieces l)) = last)%nat ->
  entries tokens sig read (last - b) b b last 0 (object, done_) p =
  (Ok (object, done_ ++ read_list entry_expression entry_width l b), p).
Proof.
  induction l as [|a l IH]; intros Hfine Hreads b done_ Hs Hf.
  - cbn [map commas length] in Hf. replace b with last by lia. rewrite Nat.sub_diag. cbn [entries]. unfold append_entry.
    rewrite (proj2 (Nat.leb_le _ _)), (proj2 (Nat.ltb_ge _ _)) by lia. cbn. by rewrite app_nil_r.
  - apply Forall_cons in Hfine as [Ha Hl]. apply Forall_cons in Hreads as [Hra Hrl].
    assert (Hwidth : length (entry_pieces a) = entry_width a) by by destruct a as [[]].
    assert (Hskip : spelled b (entry_pieces a) -> (b + entry_width a <= last)%nat ->
      entries tokens sig read (last - b) b b last 0 (object, done_) =
      entries tokens sig read (last - (b + entry_width a)) (b + entry_width a) b last 0 (object, done_)).
    { rewrite <-Hwidth. intros Hsa Hfa. apply (skip_nested (fun i d => entries tokens sig read (last - i) i b last d (object, done_)) last); [|by apply entry_nested|done|done].
      intros i d. apply entries_step. }
    destruct l as [|a' l].
    + cbn [map commas] in *. rewrite Hwidth in Hf. rewrite Hskip by (done || lia). rewrite Hf, Nat.sub_diag. cbn [entries].
      by rewrite (append_entry_read last a).
    + change (commas (map entry_pieces (a :: a' :: l))) with (entry_pieces a ++ sym "," :: commas (map entry_pieces (a' :: l))) in *.
      rewrite length_app in Hf. cbn [length] in Hf. apply spelled_app in Hs as [Hs1 Hs2]. rewrite Hwidth in *.
      destruct (spelled_head _ _ _ _ _ Hs2) as (Hv & _). apply spelled_cons in Hs2 as [_ Hs2].
      rewrite Hskip by (done || lia). rewrite (entries_comma _ _ _ _ (object, done_ ++ [entry_expression a b])); [|lia|done|by rewrite (append_entry_read _ a) by (done || lia)].
      rewrite (IH Hl Hrl) by (done || lia). by rewrite <-app_assoc, <-Nat.add_1_r.
Qed.
End Loops.

(** ** Trees *)

Lemma list_size l : size (SList l) = S (S (length (commas (map flatten l)))).
Proof. unfold size. cbn [flatten length]. rewrite length_app. cbn [length]. lia. Qed.

Lemma call_size f l : size (SCall f l) = (size f + S (S (length (commas (map flatten l)))))%nat.
Proof. unfold size. cbn [flatten]. rewrite length_app. cbn [length]. rewrite length_app. cbn [length]. lia. Qed.

Lemma index_size a i : size (SIndex a i) = (size a + S (S (size i)))%nat.
Proof. unfold size. cbn [flatten]. rewrite length_app. cbn [length]. rewrite length_app. cbn [length]. lia. Qed.

Lemma member_size a separator k name : separator ∈ map lit ["."; "->"; "::"] ->
  size (SMember a separator k name) = (size a + length separator + 1)%nat.
Proof.
  intros Hsep. unfold size. cbn [flatten]. rewrite !length_app. destruct (operator_texts separator) as (_ & -> & _); [apply elem_of_app; by right|].
  cbn [length]. lia.
Qed.

Section Reading.
Context (tokens : list Token) (first last : nat) (Hlast : (last < length tokens)%nat) (p : Parser).
Let sig := significant_between tokens first last.

Local Abbreviation value := (value tokens sig).
Local Abbreviation spelled := (spelled tokens sig).
Local Abbreviation expression_of := (expression_of tokens sig).
Local Abbreviation well read := (reads tokens sig read p (length sig)).

Lemma leaf_read k text b : leaf_kind k = true -> spelled b (flatten (SLeaf k text)) ->
  leaf tokens sig b p = (Ok (expression_of (SLeaf k text) b), p).
Proof.
  intros Hk Hs. destruct (spelled_head _ _ _ _ _ Hs) as (Hv & Hkind & _). cbn [p_lexeme p_kind] in *. unfold leaf, value_is.
  cbn [SyntaxTrees.expression_of]. change (size (SLeaf k text)) with 1%nat. rewrite Nat.add_1_r.
  assert (Hw : word (sig_tok tokens sig b) = bool_decide (k = identifier) || bool_decide (k = keyword)) by (unfold word; by rewrite Hkind).
  rewrite Hw, Hkind, Hv. unfold leaf_expression_kind.
  assert (Htext : bool_decide (text ∈ map lit ["true"; "false"; "null"]) =
    bool_decide (text = lit "true") || bool_decide (text = lit "false") || bool_decide (text = lit "null")).
  { apply eq_true_iff_eq. rewrite !orb_true_iff, !bool_decide_eq_true. cbn [map]. rewrite !elem_of_cons, elem_of_nil. tauto. }
  rewrite Htext, <-!orb_assoc. destruct k; try discriminate; reflexivity.
Qed.

(** A primary tree does not start with a unary operator. *)
Lemma primary_head s : fine s -> primary s = true -> exists x ps, flatten s = x :: ps /\
  p_lexeme x ∉ map lit ["!"; "-"; "+"; "await"].
Proof.
  induction s as [k text|op l r _ _|op e _|e _|f l IHf _|a i IHa _|a separator k name IH|l _|l _] using syntax_ind; cbn [fine primary flatten]; try done.
  - intros [_ Ht] _. eexists _, _. split; [done|]. cbn. intros Hin.
    assert (Hn : forall x, x ∈ special_texts -> text <> x) by (intros x; by apply leaf_special).
    repeat (apply elem_of_cons in Hin as [Hin|Hin]; [first [by revert Hin; apply Hn; by_decide|subst text; by vm_compute in Ht]|]). by apply not_elem_of_nil in Hin.
  - intros _ _. eexists _, _. split; [done|]. by_decide.
  - intros (Hf & Hp & _) _. destruct (IHf Hf Hp) as (x & ps & -> & Hx). by eexists _, _.
  - intros (Ha & Hp & _) _. destruct (IHa Ha Hp) as (x & ps & -> & Hx). by eexists _, _.
  - intros (Ha & Hp & _) _. destruct (IH Ha Hp) as (x & ps & -> & Hx). by eexists _, _.
  - intros _ _. eexists _, _. split; [done|]. by_decide.
  - intros _ _. eexists _, _. split; [done|]. by_decide.
Qed.

(** The branches of [read_unsplit] that are not taken. *)
Lemma not_unary read b finish : value b ∉ map lit ["!"; "-"; "+"; "await"] -> read_unsplit tokens sig read b finish =
  (if encloses tokens sig "(" ")" b finish then
    if (b + 2 <? finish)%nat then inner ← read (S b) (finish - 1)%nat; mret (make tokens sig b finish group [] [inner])
    else mret (make tokens sig b finish group [] [])
  else if encloses tokens sig "{" "}" b finish then
    '(k, arguments) ← entries tokens sig read (finish - 1 - S b) (S b) (S b) (finish - 1) 0 (object, []);
    mret (make tokens sig b finish k [] arguments)
  else if encloses tokens sig "[" "]" b finish then
    '(start, arguments) ← elements tokens sig read "List element is missing" "GNR1010" (finish - 1 - S b) (S b) (S b) (finish - 1) 0 [];
    if (start <? finish - 1)%nat then e ← read start (finish - 1)%nat; mret (make tokens sig b finish list_ [] (arguments ++ [e]))
    else mret (make tokens sig b finish list_ [] arguments)
  else read_postfix tokens sig read b finish).
Proof.
  intros Hv. unfold read_unsplit, value_is. rewrite !bool_decide_eq_false_2; [done|intros E; apply Hv; rewrite E; by_decide..].
Qed.

Lemma encloses_true o c inner b : (lit o, lit c) ∈ bracket_pairs -> Balanced (map p_lexeme inner) ->
  spelled b (sym o :: inner ++ [sym c]) -> (b + S (length inner) < length sig)%nat ->
  encloses tokens sig o c b (b + S (S (length inner))) = true.
Proof.
  intros Hp Hi Hs Hf. unfold encloses, value_is. replace (b + S (S (length inner)) - 1)%nat with (b + S (length inner))%nat by lia.
  unfold sig. rewrite (matching_wrap tokens first last o c inner _ Hlast) by done. fold sig.
  destruct (spelled_head _ _ _ _ _ Hs) as (Hv & _). apply spelled_cons in Hs as [_ Hs]. apply spelled_app in Hs as [_ Hs].
  destruct (spelled_head _ _ _ _ _ Hs) as (Hv2 & _). rewrite Nat.add_succ_comm in Hv2. rewrite Hv, Hv2. cbn [p_lexeme sym].
  by rewrite !bool_decide_eq_true_2.
Qed.

Lemma encloses_head o c b finish x : value b = lit x -> lit x <> lit o -> encloses tokens sig o c b finish = false.
Proof. intros Hv Hx. unfold encloses, value_is. by rewrite Hv, bool_decide_eq_false_2. Qed.

Lemma encloses_tail o c b finish x : value (finish - 1) = x -> x <> lit c -> encloses tokens sig o c b finish = false.
Proof. intros Hv Hx. unfold encloses, value_is. rewrite Hv, (bool_decide_eq_false_2 (x = lit c)) by done. by rewrite andb_false_r. Qed.

(** No bracket of a balanced text has its partner after it. *)
Lemma no_partner o c ps b i finish : (lit o, lit c) ∈ bracket_pairs -> Balanced (map p_lexeme ps) -> spelled b ps ->
  (b + length ps < finish <= length sig)%nat -> (b <= i < b + length ps)%nat ->
  value_is tokens sig i o && bool_decide (matching_symbol tokens (sig_at sig i) o c = Some (sig_at sig (finish - 1))) = false.
Proof.
  intros Hp Hb Hs Hf Hi. unfold value_is. case_bool_decide as Hv; [|done]. cbn [andb]. apply bool_decide_eq_false. intros Hm.
  destruct (matching_inside tokens first last o c ps b i Hlast Hp Hb Hs ltac:(fold sig; lia) Hi Hv) as (j & Hj & E).
  fold sig in E. rewrite E in Hm. injection Hm as Hm. apply (sig_at_inj tokens first last) in Hm; fold sig; lia.
Qed.

Lemma encloses_inside o c ps b finish : (lit o, lit c) ∈ bracket_pairs -> Balanced (map p_lexeme ps) -> spelled b ps ->
  (0 < length ps)%nat -> (b + length ps < finish <= length sig)%nat -> encloses tokens sig o c b finish = false.
Proof.
  intros Hp Hb Hs Hn Hf. unfold encloses. rewrite <-andb_assoc, (andb_comm (value_is _ _ (finish - 1) c)), andb_assoc.
  by rewrite (no_partner o c ps b b finish) by (done || lia).
Qed.

(** The bracket that closes at the end opens right after the callee. *)
Lemma find_open_found o c ps inner b n i : (lit o, lit c) ∈ bracket_pairs -> Balanced (map p_lexeme ps) -> Balanced (map p_lexeme inner) ->
  spelled b (ps ++ sym o :: inner ++ [sym c]) -> (b + length ps + S (length inner) < length sig)%nat -> (b <= i <= b + length ps)%nat ->
  (b + length ps - i < n)%nat ->
  find_open tokens sig o c n i (b + length ps + S (S (length inner))) = Some (b + length ps)%nat.
Proof.
  intros Hp Hb Hi Hs Hf. apply spelled_app in Hs as [Hs1 Hs2]. set (finish := (b + length ps + S (S (length inner)))%nat).
  revert i. induction n as [|n IH]; intros i Hr Hn; [lia|]. cbn [find_open]. rewrite (proj2 (Nat.leb_gt _ _)) by (subst finish; lia).
  destruct (decide (i = b + length ps)%nat) as [->|Hne].
  - replace (finish - 1)%nat with (b + length ps + S (length inner))%nat by (subst finish; lia).
    unfold sig. rewrite (matching_wrap tokens first last o c inner _ Hlast) by (done || (fold sig; lia)). fold sig.
    destruct (spelled_head _ _ _ _ _ Hs2) as (Hv & _). unfold value_is. rewrite Hv. cbn [p_lexeme sym]. by rewrite !bool_decide_eq_true_2.
  - rewrite (no_partner o c ps b i finish) by (done || (subst finish; lia)). apply IH; lia.
Qed.

Context (read : nat -> nat -> P Expression).

Lemma reads_less finish s : well read s -> (finish <= length sig)%nat -> reads tokens sig read p finish s.
Proof. intros Hr Hf b Hs Hb. apply Hr; [done|lia]. Qed.

(** The elements of a list, the last one read by the caller. *)
Lemma list_read missing code l b done_ finish : Forall fine l -> Forall (well read) l -> spelled b (commas (map flatten l)) ->
  (b + length (commas (map flatten l)) = finish)%nat -> (finish <= length sig)%nat ->
  exists start arguments, elements tokens sig read missing code (finish - b) b b finish 0 done_ p = (Ok (start, arguments), p) /\
    if (start <? finish)%nat
    then exists e, read start finish p = (Ok e, p) /\ arguments ++ [e] = done_ ++ read_list expression_of size l b
    else start = b /\ arguments = done_ ++ read_list expression_of size l b.
Proof.
  intros Hl Hr Hs Hf Hlen. destruct l as [|a l].
  - cbn [map commas length] in Hf. replace b with finish by lia. rewrite Nat.sub_diag. exists finish, done_.
    rewrite Nat.ltb_irrefl. cbn. by rewrite app_nil_r.
  - destruct (elements_read tokens sig read missing code p finish (a :: l) Hl ltac:(eapply Forall_impl; [exact Hr|]; intros; by apply reads_less) ltac:(done) b done_ Hs Hf)
      as (start & arguments & e & E & Hb & He & Happ).
    exists start, arguments. rewrite (proj2 (Nat.ltb_lt _ _)) by lia. split; [done|]. by exists e.
Qed.

(** The text of a position in brackets. *)
Lemma spelled_last b ps x : spelled b (ps ++ [x]) -> value (b + length ps) = p_lexeme x.
Proof. intros Hs. apply spelled_app in Hs as [_ Hs]. by destruct (spelled_head _ _ _ _ _ Hs) as (Hv & _). Qed.

Lemma read_list_syntax l b : Forall fine l -> Forall (well read) l -> spelled b (flatten (SList l)) -> (b + size (SList l) <= length sig)%nat ->
  read_unsplit tokens sig read b (b + size (SList l)) p = (Ok (expression_of (SList l) b), p).
Proof.
  intros Hl Hr Hs Hlen. cbn [flatten] in Hs. destruct (spelled_head _ _ _ _ _ Hs) as (Hv & _). cbn [p_lexeme sym] in Hv.
  rewrite not_unary by (rewrite Hv; by_decide). rewrite list_size in *. rewrite (encloses_head "(" ")" _ _ "[") by done. rewrite (encloses_head "{" "}" _ _ "[") by done.
  rewrite (encloses_true "[" "]" (commas (map flatten l))) by ((by auto with parser) || (by apply list_balanced) || done || lia).
  apply spelled_cons in Hs as [_ Hs]. apply spelled_app in Hs as [Hs _].
  destruct (list_read "List element is missing" "GNR1010" l (S b) [] (b + S (S (length (commas (map flatten l)))) - 1) Hl Hr Hs ltac:(lia) ltac:(lia)) as (start & arguments & E & Hrest).
  rewrite (eff_bind_Ok _ _ _ _ _ E). destruct (start <? _)%nat; cbn [SyntaxTrees.expression_of]; rewrite list_size.
  - destruct Hrest as (e & He & Happ). rewrite (eff_bind_Ok _ _ _ _ _ He), Happ. done.
  - destruct Hrest as [_ ->]. done.
Qed.

Lemma read_group_syntax e b : fine e -> well read e -> spelled b (flatten (SGroup e)) -> (b + size (SGroup e) <= length sig)%nat ->
  read_unsplit tokens sig read b (b + size (SGroup e)) p = (Ok (expression_of (SGroup e) b), p).
Proof.
  intros He Hr Hs Hlen. cbn [flatten] in Hs. destruct (spelled_head _ _ _ _ _ Hs) as (Hv & _). cbn [p_lexeme sym] in Hv.
  assert (Hsize : size (SGroup e) = S (S (size e))) by (unfold size; cbn [flatten length]; rewrite length_app; cbn [length]; lia).
  rewrite not_unary by (rewrite Hv; by_decide). rewrite Hsize in *. pose proof (size_positive e He).
  rewrite (encloses_true "(" ")" (flatten e)) by ((by auto with parser) || (by eapply nested_balanced, flatten_nested) || done || (unfold size in *; lia)).
  apply spelled_cons in Hs as [_ Hs]. apply spelled_app in Hs as [Hs _]. rewrite (proj2 (Nat.ltb_lt _ _)) by lia.
  replace (b + S (S (size e)) - 1)%nat with (S b + size e)%nat by lia. rewrite (eff_bind_Ok _ _ _ _ _ (Hr (S b) Hs ltac:(lia))).
  cbn [SyntaxTrees.expression_of]. by rewrite Hsize.
Qed.

Lemma read_object_syntax l b : Forall entry_fine l -> Forall (fun x => well read (SLeaf x.1.1 x.1.2) /\ well read x.2) l ->
  spelled b (flatten (SObject l)) -> (b + size (SObject l) <= length sig)%nat ->
  read_unsplit tokens sig read b (b + size (SObject l)) p = (Ok (expression_of (SObject l) b), p).
Proof.
  intros Hl Hr Hs Hlen. cbn [flatten] in Hs. destruct (spelled_head _ _ _ _ _ Hs) as (Hv & _). cbn [p_lexeme sym] in Hv.
  change (spelled b (sym "{" :: commas (map entry_pieces l) ++ [sym "}"])) in Hs.
  assert (Hsize : size (SObject l) = S (S (length (commas (map entry_pieces l))))).
  { unfold size. cbn [flatten length]. rewrite length_app. cbn [length]. rewrite Nat.add_1_r. done. }
  rewrite not_unary by (rewrite Hv; by_decide). rewrite Hsize in *. rewrite (encloses_head "(" ")" _ _ "{") by done.
  rewrite (encloses_true "{" "}" (commas (map entry_pieces l))) by ((by auto with parser) || (by apply entries_balanced) || done || lia).
  apply spelled_cons in Hs as [_ Hs]. apply spelled_app in Hs as [Hs _].
  rewrite (eff_bind_Ok _ _ _ _ _ (entries_read tokens sig read p (b + S (S (length (commas (map entry_pieces l)))) - 1) l Hl
    ltac:(eapply Forall_impl; [exact Hr|]; intros x [H1 H2]; split; apply reads_less; (done || lia)) (S b) [] Hs ltac:(lia))).
  cbn [SyntaxTrees.expression_of app]. by rewrite Hsize.
Qed.

Lemma read_unary_syntax op e b : fine (SUnary op e) -> well read e -> spelled b (flatten (SUnary op e)) -> (b + size (SUnary op e) <= length sig)%nat ->
  read_unsplit tokens sig read b (b + size (SUnary op e)) p = (Ok (expression_of (SUnary op e) b), p).
Proof.
  intros (Hop & He & _) Hr Hs Hlen. cbn [flatten] in Hs. destruct (spelled_head _ _ _ _ _ Hs) as (Hv & _). cbn [p_lexeme] in Hv.
  apply spelled_cons in Hs as [_ Hs]. unfold read_unsplit, value_is. rewrite Hv.
  assert (Hor : bool_decide (op = lit "!") || bool_decide (op = lit "-") || bool_decide (op = lit "+") || bool_decide (op = lit "await") = true).
  { rewrite !orb_true_iff, !bool_decide_eq_true. unfold map in Hop. rewrite !elem_of_cons, elem_of_nil in Hop. tauto. }
  rewrite Hor. change (size (SUnary op e)) with (S (size e)) in *. replace (b + S (size e))%nat with (S b + size e)%nat in * by lia.
  rewrite (eff_bind_Ok _ _ _ _ _ (Hr (S b) Hs ltac:(lia))). cbn [SyntaxTrees.expression_of].
  change (size (SUnary op e)) with (S (size e)). by rewrite Nat.add_succ_r.
Qed.

(** A range that starts with a primary tree and goes on is a call, a subscript or a member. *)
Lemma read_postfix_syntax s b finish x : fine s -> primary s = true -> spelled b (flatten s) -> (b + size s < finish <= length sig)%nat ->
  value (finish - 1) = x -> x <> lit "}" -> read_unsplit tokens sig read b finish = read_postfix tokens sig read b finish.
Proof.
  intros Hs Hp Hsp Hf Hx Hne. destruct (primary_head s Hs Hp) as (y & ps & E & Hy). pose proof (size_positive s Hs).
  rewrite not_unary. 2: { rewrite E in Hsp. destruct (spelled_head _ _ _ _ _ Hsp) as (Hv & _). by rewrite Hv. }
  assert (Hbal : Balanced (map p_lexeme (flatten s))) by by eapply nested_balanced, flatten_nested.
  rewrite (encloses_inside "(" ")" (flatten s)) by ((by auto with parser) || done). rewrite (encloses_tail "{" "}" _ _ x) by done.
  by rewrite (encloses_inside "[" "]" (flatten s)) by ((by auto with parser) || done).
Qed.

Lemma read_call_syntax f l b : fine (SCall f l) -> well read f -> Forall (well read) l -> spelled b (flatten (SCall f l)) ->
  (b + size (SCall f l) <= length sig)%nat -> read_unsplit tokens sig read b (b + size (SCall f l)) p = (Ok (expression_of (SCall f l) b), p).
Proof.
  intros (Hf & Hp & Hl%fine_list) Hrf Hr Hs Hlen. cbn [flatten] in Hs. rewrite call_size in *. set (n := length (commas (map flatten l))) in *.
  pose proof (size_positive f Hf). pose proof Hs as Hcall. apply spelled_app in Hs as [Hs1 Hs2]. fold (size f) in Hs2.
  assert (Hend : value (b + (size f + S (S n)) - 1) = lit ")").
  { change (sym "(" :: commas (map flatten l) ++ [sym ")"]) with ((sym "(" :: commas (map flatten l)) ++ [sym ")"]) in Hs2.
    apply spelled_last in Hs2. cbn [length p_lexeme sym] in Hs2. fold n in Hs2. by replace (b + (size f + S (S n)) - 1)%nat with (b + size f + S n)%nat by lia. }
  rewrite (read_postfix_syntax f b _ (lit ")")) by (done || lia). unfold read_postfix, value_is at 1. rewrite Hend, bool_decide_eq_true_2 by done.
  replace (find_open _ _ _ _ _ _ _) with (Some (b + size f)%nat).
  2: { symmetry. replace (b + (size f + S (S n)))%nat with (b + length (flatten f) + S (S n))%nat by (unfold size; lia). subst n.
    apply (find_open_found "(" ")" (flatten f)); [auto with parser|by eapply nested_balanced, flatten_nested|by apply list_balanced|done|unfold size in *; lia..]. }
  unfold read_call. rewrite (eff_bind_Ok _ _ _ _ _ (Hrf b Hs1 ltac:(lia))).
  apply spelled_cons in Hs2 as [_ Hs2]. apply spelled_app in Hs2 as [Hs2 _].
  destruct (list_read "Call argument is missing" "GNR1015" l (S (b + size f)) [expression_of f b] (b + (size f + S (S n)) - 1) Hl Hr Hs2
    ltac:(fold n; lia) ltac:(lia)) as (start & arguments & E & Hrest).
  rewrite (eff_bind_Ok _ _ _ _ _ E). destruct (start <? _)%nat eqn:Est; cbn [SyntaxTrees.expression_of]; rewrite call_size; fold n.
  - destruct Hrest as (e & He & Happ). cbv beta. rewrite (eff_bind_Ok _ _ p (arguments ++ [e]) p) by by rewrite (eff_bind_Ok _ _ _ _ _ He). rewrite Happ, Nat.add_1_r. done.
  - destruct Hrest as [-> ->]. rewrite Nat.ltb_irrefl. rewrite Nat.add_1_r. done.
Qed.

Lemma read_index_syntax a i b : fine (SIndex a i) -> well read a -> well read i -> spelled b (flatten (SIndex a i)) ->
  (b + size (SIndex a i) <= length sig)%nat -> read_unsplit tokens sig read b (b + size (SIndex a i)) p = (Ok (expression_of (SIndex a i) b), p).
Proof.
  intros (Ha & Hp & Hi) Hra Hri Hs Hlen. cbn [flatten] in Hs. rewrite index_size in *.
  pose proof (size_positive a Ha). pose proof (size_positive i Hi). pose proof Hs as Hall. apply spelled_app in Hs as [Hs1 Hs2]. fold (size a) in Hs2.
  assert (Hend : value (b + (size a + S (S (size i))) - 1) = lit "]").
  { change (sym "[" :: flatten i ++ [sym "]"]) with ((sym "[" :: flatten i) ++ [sym "]"]) in Hs2.
    apply spelled_last in Hs2. cbn [length p_lexeme sym] in Hs2. fold (size i) in Hs2.
    by replace (b + (size a + S (S (size i))) - 1)%nat with (b + size a + S (size i))%nat by lia. }
  rewrite (read_postfix_syntax a b _ (lit "]")) by (done || lia). unfold read_postfix, value_is at 1 2. rewrite Hend, bool_decide_eq_false_2, bool_decide_eq_true_2 by done.
  replace (find_open _ _ _ _ _ _ _) with (Some (b + size a)%nat).
  2: { symmetry. replace (b + (size a + S (S (size i))))%nat with (b + length (flatten a) + S (S (length (flatten i))))%nat by (unfold size; lia).
    apply (find_open_found "[" "]" (flatten a)); [auto with parser|by eapply nested_balanced, flatten_nested|by eapply nested_balanced, flatten_nested|done|unfold size in *; lia..]. }
  unfold read_subscript. rewrite (eff_bind_Ok _ _ _ _ _ (Hra b Hs1 ltac:(lia))).
  apply spelled_cons in Hs2 as [_ Hs2]. apply spelled_app in Hs2 as [Hs2 _]. rewrite (proj2 (Nat.ltb_lt _ _)) by lia.
  replace (b + (size a + S (S (size i))) - 1)%nat with (S (b + size a) + size i)%nat by lia.
  rewrite (eff_bind_Ok _ _ _ _ _ (Hri _ Hs2 ltac:(lia))). cbn [SyntaxTrees.expression_of]. by rewrite index_size, Nat.add_1_r.
Qed.

Lemma read_member_syntax a separator k name b : fine (SMember a separator k name) -> well read a -> well read (SLeaf k name) ->
  spelled b (flatten (SMember a separator k name)) -> (b + size (SMember a separator k name) <= length sig)%nat ->
  read_unsplit tokens sig read b (b + size (SMember a separator k name)) p = (Ok (expression_of (SMember a separator k name) b), p).
Proof.
  intros (Ha & Hp & Hsep & Hk & Ht) Hra Hrn Hs Hlen. pose proof (size_positive a Ha) as Hpos. cbn [SyntaxTrees.expression_of].
  rewrite member_size in * by done. cbn [flatten] in Hs. apply spelled_app in Hs as [Hs1 Hs2]. apply spelled_app in Hs2 as [Hs2 Hs3]. fold (size a) in *.
  destruct (operator_texts separator) as (_ & Hw & _); [apply elem_of_app; by right|]. rewrite Hw in Hs3.
  destruct (spelled_head _ _ _ _ _ Hs3) as (Hend & _). cbn [p_lexeme] in Hend. set (finish := (b + (size a + length separator + 1))%nat) in *.
  replace (b + size a + length separator)%nat with (finish - 1)%nat in Hend, Hs3 by (subst finish; lia).
  assert (Hn : forall x, x ∈ special_texts -> name <> x) by (intros x; by apply leaf_special).
  rewrite (read_postfix_syntax a b _ name) by (done || (apply Hn; by_decide) || (subst finish; lia)). unfold read_postfix, value_is at 1 2.
  rewrite Hend, !bool_decide_eq_false_2 by (apply Hn; by_decide).
  assert (Hmember : read_member tokens sig read b (b + size a) finish separator p = (Ok (make tokens sig b finish member separator
    [expression_of a b; make tokens sig (finish - 1) finish (leaf_expression_kind k name) name []]), p)).
  { unfold read_member. rewrite (eff_bind_Ok _ _ _ _ _ (Hra b Hs1 ltac:(lia))). specialize (Hrn (finish - 1)%nat Hs3).
    change (size (SLeaf k name)) with 1%nat in Hrn. replace (finish - 1 + 1)%nat with finish in Hrn by (subst finish; lia).
    rewrite (eff_bind_Ok _ _ _ _ _ (Hrn ltac:(subst finish; lia))). cbn [SyntaxTrees.expression_of].
    change (size (SLeaf k name)) with 1%nat. by replace (finish - 1 + 1)%nat with finish by (subst finish; lia). }
  rewrite <-Hmember. unfold value_is. subst finish. clear Hmember Hend Hs3 Hrn.
  apply elem_of_cons in Hsep as [->|Hsep]; [|apply elem_of_cons in Hsep as [->|Hsep]; [|apply elem_of_cons in Hsep as [->|Hsep]; [|by apply not_elem_of_nil in Hsep]]].
  - change (length (lit ".")) with 1%nat in *. destruct (spelled_head _ _ _ _ _ Hs2) as (Hv & _). cbn [p_lexeme] in Hv.
    replace (b + (size a + 1 + 1) - 2)%nat with (b + size a)%nat by lia. change (value (b + size a) = lit ".") in Hv. rewrite Hv.
    rewrite (bool_decide_eq_false_2 (lit "." = lit ">")), (bool_decide_eq_false_2 (lit "." = lit ":")), !andb_false_r by done.
    cbn [orb]. rewrite ?andb_false_r, (proj2 (Nat.leb_le _ _)) by lia. by rewrite bool_decide_eq_true_2 by done.
  - change (length (lit "->")) with 2%nat in *. destruct (spelled_head _ _ _ _ _ Hs2) as (Hv & _). apply spelled_cons in Hs2 as [_ Hs2].
    destruct (spelled_head _ _ _ _ _ Hs2) as (Hv2 & _). cbn [p_lexeme] in *.
    replace (b + (size a + 2 + 1) - 3)%nat with (b + size a)%nat by lia. replace (b + (size a + 2 + 1) - 2)%nat with (S (b + size a)) by lia.
    rewrite Hv, Hv2, (proj2 (Nat.leb_le _ _)) by lia. reflexivity.
  - change (length (lit "::")) with 2%nat in *. destruct (spelled_head _ _ _ _ _ Hs2) as (Hv & _). apply spelled_cons in Hs2 as [_ Hs2].
    destruct (spelled_head _ _ _ _ _ Hs2) as (Hv2 & _). cbn [p_lexeme] in *.
    replace (b + (size a + 2 + 1) - 3)%nat with (b + size a)%nat by lia. replace (b + (size a + 2 + 1) - 2)%nat with (S (b + size a)) by lia.
    rewrite Hv, Hv2, (proj2 (Nat.leb_le _ _)) by lia. reflexivity.
Qed.
End Reading.

(** *** Any tree *)

Section Expression.
Context (tokens : list Token) (first last : nat) (Hlast : (last < length tokens)%nat) (p : Parser).
Let sig := significant_between tokens first last.

Lemma fine_entry l : Forall (fun '(k, text, v) => leaf_kind k = true /\ leaf_text text = true /\ fine v) l -> Forall entry_fine l.
Proof. intros H. eapply Forall_impl; [exact H|]. by intros [[]]. Qed.

Lemma unsplit_reads fuel s : level s = 9 -> (1 < size s)%nat -> fine s ->
  (forall b, spelled tokens sig b (flatten s) -> (b + size s <= length sig)%nat ->
     read_unsplit tokens sig (parse_range tokens sig fuel) b (b + size s) p = (Ok (expression_of tokens sig s b), p)) ->
  reads tokens sig (parse_range tokens sig (S fuel)) p (length sig) s.
Proof.
  intros Hl Hn Hs Hread b Hsp Hb. cbn [parse_range]. rewrite (proj2 (Nat.eqb_neq _ _)) by lia. cbv zeta.
  unfold sig. rewrite find_split_none by done. by apply Hread.
Qed.

(** The parts of a list are no longer than it. *)
Lemma commas_part (l : list (list Piece)) x : x ∈ l -> (length x <= length (commas l))%nat.
Proof.
  induction l as [|y l IH]; [by intros ?%not_elem_of_nil|]. intros H. cbn [commas]. destruct l as [|z l].
  - apply list_elem_of_singleton in H as ->. done.
  - rewrite length_app. cbn [length]. apply elem_of_cons in H as [->|H]; [lia|]. specialize (IH H). lia.
Qed.

(** What induction gives for the elements of a list. *)
Lemma list_reads fuel l : (length (commas (map flatten l)) <= fuel)%nat -> Forall fine l ->
  Forall (fun s => forall fuel, (size s <= fuel)%nat -> fine s -> reads tokens sig (parse_range tokens sig fuel) p (length sig) s) l ->
  Forall (reads tokens sig (parse_range tokens sig fuel) p (length sig)) l.
Proof.
  intros Hf Hl Hr. apply Forall_forall. intros s Hs. rewrite Forall_forall in Hl, Hr. apply Hr; [done| |by apply Hl].
  unfold size. etransitivity; [|exact Hf]. apply commas_part, list_elem_of_fmap. by exists s.
Qed.

Lemma leaf_reads fuel k text : leaf_kind k = true -> reads tokens sig (parse_range tokens sig (S fuel)) p (length sig) (SLeaf k text).
Proof.
  intros Hk b Hs Hb. cbn [parse_range]. change (size (SLeaf k text)) with 1%nat. rewrite Nat.add_1_r, Nat.eqb_refl. by apply leaf_read.
Qed.

Lemma binary_reads fuel op l r : fine (SBinary op l r) -> reads tokens sig (parse_range tokens sig fuel) p (length sig) l ->
  reads tokens sig (parse_range tokens sig fuel) p (length sig) r ->
  reads tokens sig (parse_range tokens sig (S fuel)) p (length sig) (SBinary op l r).
Proof.
  intros Hfine Hrl Hrr b Hs Hb. pose proof Hfine as (Hop & Hl & Hr & _). destruct (operator_texts op) as (_ & Hw & Hw0); [apply elem_of_app; by left|].
  assert (Hsize : size (SBinary op l r) = (size l + length op + size r)%nat) by (unfold size; cbn [flatten]; rewrite !length_app, Hw; lia).
  pose proof (size_positive l Hl). pose proof (size_positive r Hr). cbn [parse_range]. rewrite (proj2 (Nat.eqb_neq _ _)) by lia. cbv zeta.
  rewrite find_split_binary by done. cbn [split_at split_width split_operator]. cbn [flatten] in Hs.
  apply spelled_app in Hs as [Hs1 Hs2]. apply spelled_app in Hs2 as [Hs2 Hs3]. fold (size l) in *. rewrite Hw in Hs3.
  rewrite (eff_bind_Ok _ _ _ _ _ (Hrl b Hs1 ltac:(lia))). specialize (Hrr _ Hs3).
  replace (b + size l + length op + size r)%nat with (b + size (SBinary op l r))%nat in Hrr by lia.
  by rewrite (eff_bind_Ok _ _ _ _ _ (Hrr ltac:(lia))).
Qed.

Lemma parse_range_reads s : forall fuel, (size s <= fuel)%nat -> fine s -> reads tokens sig (parse_range tokens sig fuel) p (length sig) s.
Proof.
  induction s as [k text|op l r IHl IHr|op e IH|e IH|f l IHf IHl|a i IHa IHi|a separator k name IH|l IHl|l IHl] using syntax_ind;
    intros fuel Hfuel Hfine; pose proof (size_positive _ Hfine) as Hpos; (destruct fuel as [|fuel]; [lia|]).
  - apply leaf_reads, Hfine.
  - pose proof Hfine as (Hop & Hl & Hr & _). destruct (operator_texts op) as (_ & Hw & Hw0); [apply elem_of_app; by left|].
    pose proof (size_positive l Hl). pose proof (size_positive r Hr).
    unfold size in Hfuel. cbn [flatten] in Hfuel. rewrite !length_app, Hw in Hfuel. fold (size l) (size r) in Hfuel.
    apply binary_reads; [done|apply IHl; (done || lia)|apply IHr; (done || lia)].
  - pose proof Hfine as (_ & He & _). pose proof (size_positive e He). change (size (SUnary op e)) with (S (size e)) in Hfuel.
    apply unsplit_reads; [done|change (size (SUnary op e)) with (S (size e)); lia|done|]. intros b Hs Hb. apply read_unary_syntax; try done. apply IH; (done || lia).
  - pose proof (size_positive e Hfine). assert (Hsize : size (SGroup e) = S (S (size e))) by (unfold size; cbn [flatten length]; rewrite length_app; cbn [length]; lia).
    apply unsplit_reads; [done|lia|done|]. intros b Hs Hb. apply read_group_syntax; try done. apply IH; (done || lia).
  - pose proof Hfine as (Hf & _ & Hl%fine_list). pose proof (size_positive f Hf). rewrite call_size in Hfuel.
    apply unsplit_reads; [done|rewrite call_size; lia|done|]. intros b Hs Hb.
    apply read_call_syntax; try done; [apply IHf; (done || lia)|apply list_reads; (done || lia)].
  - pose proof Hfine as (Ha & _ & Hi). pose proof (size_positive a Ha). rewrite index_size in Hfuel.
    apply unsplit_reads; [done|rewrite index_size; lia|done|]. intros b Hs Hb.
    apply read_index_syntax; try done; [apply IHa; (done || lia)|apply IHi; (done || lia)].
  - pose proof Hfine as (Ha & _ & Hsep & Hk & _). pose proof (size_positive a Ha). rewrite member_size in Hfuel by done.
    apply unsplit_reads; [done|rewrite member_size by done; lia|done|]. intros b Hs Hb. destruct fuel as [|fuel]; [lia|].
    apply read_member_syntax; try done; [apply IH; (done || lia)|by apply leaf_reads].
  - pose proof Hfine as Hl%fine_list. rewrite list_size in Hfuel.
    apply unsplit_reads; [done|rewrite list_size; lia|done|]. intros b Hs Hb. apply read_list_syntax; try done. apply list_reads; (done || lia).
  - pose proof Hfine as Hl%fine_entries%fine_entry.
    assert (Hsize : size (SObject l) = S (S (length (commas (map entry_pieces l))))).
    { unfold size. cbn [flatten length]. rewrite length_app. cbn [length]. rewrite Nat.add_1_r. done. }
    apply unsplit_reads; [done|lia|done|]. intros b Hs Hb. apply read_object_syntax; try done.
    apply Forall_forall. intros [[k text] v] Hx. rewrite Forall_forall in IHl, Hl. pose proof (Hl _ Hx) as (Hk & Ht & Hv).
    assert (Hlen : (length (entry_pieces (k, text, v)) <= length (commas (map entry_pieces l)))%nat) by (apply commas_part, list_elem_of_fmap; by eexists).
    cbn [entry_pieces length] in Hlen. fold (size v) in Hlen. destruct fuel as [|fuel]; [lia|]. split; [by apply leaf_reads|].
    apply (IHl _ Hx); [change (size v <= S fuel)%nat; lia|done].
Qed.

(** *** What is checked of the whole *)

Lemma last_piece s : fine s -> exists ps x, flatten s = ps ++ [x] /\ p_lexeme x ∉ map lit ["="; "+"; "-"; "*"; "/"; "%"; "&"; "|"; "!"].
Proof.
  assert (Hleaf : forall text, leaf_text text = true -> text ∉ map lit ["="; "+"; "-"; "*"; "/"; "%"; "&"; "|"; "!"]).
  { intros text Ht Hin. assert (Hn : forall x, x ∈ special_texts -> text <> x) by (intros x; by apply leaf_special).
    repeat (apply elem_of_cons in Hin as [Hin|Hin]; [by revert Hin; apply Hn; by_decide|]). by apply not_elem_of_nil in Hin. }
  assert (Happ : forall l (m : list Piece), (exists ps x, m = ps ++ [x] /\ p_lexeme x ∉ map lit ["="; "+"; "-"; "*"; "/"; "%"; "&"; "|"; "!"]) ->
    exists ps x, l ++ m = ps ++ [x] /\ p_lexeme x ∉ map lit ["="; "+"; "-"; "*"; "/"; "%"; "&"; "|"; "!"]).
  { intros l m (ps & x & -> & Hx). exists (l ++ ps), x. by rewrite app_assoc. }
  assert (Hclose : forall o m c, lit c ∉ map lit ["="; "+"; "-"; "*"; "/"; "%"; "&"; "|"; "!"] ->
    exists ps x, sym o :: m ++ [sym c] = ps ++ [x] /\ p_lexeme x ∉ map lit ["="; "+"; "-"; "*"; "/"; "%"; "&"; "|"; "!"]).
  { intros o m c Hc. by exists (sym o :: m), (sym c). }
  induction s as [k text|op l r _ IHr|op e IH|e _|f l _ _|a i _ _|a separator k name _|l _|l _] using syntax_ind; cbn [flatten].
  - intros [_ Ht]. exists [], (mkPiece k text false). split; [done|by apply Hleaf].
  - intros (_ & _ & Hr & _). by apply Happ, Happ, IHr.
  - intros (_ & He & _). by apply (Happ [_]), IH.
  - intros _. apply Hclose. by_decide.
  - intros _. apply Happ, Hclose. by_decide.
  - intros _. apply Happ, Hclose. by_decide.
  - intros (_ & _ & _ & _ & Ht). apply Happ, Happ. exists [], (mkPiece k name false). split; [done|by apply Hleaf].
  - intros _. apply Hclose. by_decide.
  - intros _. apply Hclose. by_decide.
Qed.

(** The tokens of the expression are those that spell the pieces. *)
Definition spells (ps : list Piece) : Prop := length sig = length ps /\ spelled tokens sig 0 ps.

Lemma spells_texts ps : spells ps -> map (fun i => lexeme (tok tokens i)) sig = map p_lexeme ps.
Proof.
  intros [Hn Hs]. apply list_eq. intros i. rewrite !list_lookup_fmap. destruct (ps !! i) as [x|] eqn:Ex.
  - destruct (Hs i x Ex) as (Hv & _). cbn [Nat.add] in Hv. destruct (lookup_lt_is_Some_2 sig i) as [j Hj]; [rewrite Hn; by eapply lookup_lt_Some|].
    rewrite Hj. cbn. rewrite <-Hv. unfold value, sig_tok, sig_at. by rewrite Hj.
  - apply lookup_ge_None in Ex. by rewrite lookup_ge_None_2 by by rewrite Hn.
Qed.

Lemma check_passes s : fine s -> spells (flatten s) -> check_expression tokens sig p = (Ok tt, p).
Proof.
  intros Hs Hsp. unfold check_expression. rewrite (spells_texts _ Hsp).
  assert (E : check_delimiters (map p_lexeme (flatten s)) 0 [] = ([], None)).
  { rewrite <-(app_nil_r (map p_lexeme (flatten s))), check_balanced; [done|]. by eapply nested_balanced, flatten_nested. }
  rewrite E. rewrite bool_decide_eq_true_2 by done.
  assert (Hd : dangling tokens sig (length sig - 1) = false).
  { destruct Hsp as [Hn Hsp]. destruct (last_piece s Hs) as (ps & x & El & Hx). rewrite El in *. apply spelled_last in Hsp. cbn [Nat.add] in Hsp.
    rewrite length_app in Hn. cbn [length] in Hn. unfold dangling. replace (length sig - 1)%nat with (length ps) by lia.
    cbv zeta. fold sig in Hsp. rewrite Hsp, (bool_decide_eq_false_2 (p_lexeme x ∈ _)) by done. apply andb_false_r. }
  rewrite Hd, andb_false_r. done.
Qed.
End Expression.

(** C10.  The tokens that spell an expression tree are read as that tree, with nothing
    reported: operators bind by their precedence, an assignment to the right and the others
    to the left, unary operators tighter, calls, subscripts and members tightest, and the
    text in brackets does not matter to what is around it.  The trees are the [fine] ones:
    an operand that starts with a sign ([-] or [+]) directly after an arithmetic operator or
    a unary one must be in brackets, because the parser takes the sign for the operator to
    split at (parser.cpp:424), and does not read [a * -b] or [- -a] as written. *)
Theorem expression_read (tokens : list Token) (first last : nat) (s : Syntax) (p : Parser) :
  fine s -> (last < length tokens)%nat -> spells tokens first last (flatten s) ->
  parse_expression tokens first last p = (Ok (expression_of tokens (significant_between tokens first last) s 0), p).
Proof.
  intros Hs Hlast Hsp. unfold parse_expression, parse_significant. rewrite (eff_bind_Ok _ _ _ _ _ (check_passes _ _ _ Hlast p s Hs Hsp)).
  destruct Hsp as [Hn Hsp]. fold (size s) in Hn. rewrite Hn.
  apply (parse_range_reads tokens first last Hlast p s (size s)); [lia|done|done|by rewrite Hn].
Qed.

(** *** A concrete expression *)

(** The condition of [spells], checked position by position. *)
Definition spells_check (tokens : list Token) (first last : nat) (ps : list Piece) : bool :=
  let sig := significant_between tokens first last in
  (length sig =? length ps)%nat &&
  forallb (fun i =>
    match ps !! i with
    | Some x =>
        bool_decide (value tokens sig i = p_lexeme x) && bool_decide (kind (sig_tok tokens sig i) = p_kind x) &&
        (negb (S i <? length sig)%nat ||
         eqb (touches tokens sig i && bool_decide (value tokens sig i ++ value tokens sig (S i) ∈ combined_operators)) (p_glued x))
    | None => true
    end) (seq 0 (length ps)).

Lemma spells_checked tokens first last ps : spells_check tokens first last ps = true -> spells tokens first last ps.
Proof.
  unfold spells_check. intros [Hn H]%andb_true_iff. apply Nat.eqb_eq in Hn. split; [done|]. intros i x Hx. cbn [Nat.add].
  rewrite forallb_forall in H. specialize (H i). rewrite Hx in H.
  assert (Hi : (i < length ps)%nat) by by eapply lookup_lt_Some. specialize (H ltac:(apply in_seq; lia)).
  apply andb_true_iff in H as [H Hg]. apply andb_true_iff in H as [Hv Hk]. apply bool_decide_eq_true in Hv, Hk. split_and!; [done|done|].
  intros Hlt. rewrite (proj2 (Nat.ltb_lt _ _)) in Hg by done. cbn [negb orb] in Hg. by apply eqb_prop.
Qed.

Definition name (s : string) : Syntax := SLeaf identifier (lit s).

(** [total = price * (1 + rate) - items[0].cost(x, [a, b]) < limit || !done->ok == { k: -v }] *)
Definition sample : Syntax :=
  SBinary (lit "=") (name "total")
    (SBinary (lit "||")
      (SBinary (lit "<")
        (SBinary (lit "-")
          (SBinary (lit "*") (name "price") (SGroup (SBinary (lit "+") (SLeaf number (lit "1")) (name "rate"))))
          (SCall (SMember (SIndex (name "items") (SLeaf number (lit "0"))) (lit ".") identifier (lit "cost"))
             [name "x"; SList [name "a"; name "b"]]))
        (name "limit"))
      (SBinary (lit "==") (SUnary (lit "!") (SMember (name "done") (lit "->") identifier (lit "ok")))
        (SObject [(identifier, lit "k", SUnary (lit "-") (name "v"))]))).

Definition sample_tokens : list Token :=
  match tokenize true (lit "total = price * (1 + rate) - items[0].cost(x, [a, b])<limit || !done->ok == { k: -v }") with
  | Ok (tokens, _) => tokens
  | _ => []
  end.

Lemma expression_read_witness :
  fine sample /\ (length sample_tokens = 60)%nat /\
  parse_expression sample_tokens 0 58 (mkParser [] [] [] ∅) =
  (Ok (expression_of sample_tokens (significant_between sample_tokens 0 58) sample 0), mkParser [] [] [] ∅).
Proof.
  assert (Hfine : fine sample).
  { cbn [fine sample name foldr]. split_and!; first [done | by_decide | vm_compute; congruence]. }
  split; [exact Hfine|]. assert (Hn : (length sample_tokens = 60)%nat) by (vm_compute; reflexivity). split; [exact Hn|].
  apply expression_read; [exact Hfine|rewrite Hn; lia|]. apply spells_checked. vm_compute. reflexivity.
Defined.

(** The expression of a whole source text, with the messages reported. *)
Definition read_text (source : string) : option (Expression * list bytes) :=
  match tokenize true (lit source) with
  | Ok (tokens, _) =>
      match parse_expression tokens 0 (length tokens - 2) (mkParser [] [] [] ∅) with
      | (Ok e, p) => Some (e, map diagnosis_message (diagnostics p))
      | _ => None
      end
  | _ => None
  end.

(** A sign after an arithmetic operator is taken for the operator to split at. *)
Example sign_is_split : exists span left right, read_text "a * -b" = Some (mkExpression span binary (lit "-") [left; right], []).
Proof. vm_compute. by do 3 eexists. Qed.

(** Two signs in a row are refused. *)
Example signs_refused : exists e, read_text "- -a" = Some (e, [lit "Expected an expression"]).
Proof. vm_compute. by eexists. Qed.
