(* ===== verification/CppIr.v ===== *)
(** * C++ IR, its verifier and its emitter ([include/gungnir/language/cpp_ir.hpp],
    [src/language/cpp_ir_verifier.cpp], [src/language/emitter.cpp])

    The compiler lowers a program to arenas of expressions and statements that refer to
    each other by index.  The verifier reports what is wrong with a project; the emitter
    prints the project as C++ and refuses one with errors. *)

From S2P Require Import Prelude Numeral.

(** ** The intermediate representation *)

(** Indices are [std::size_t]. *)
Abbreviation CppIrId := N.
Definition invalid_cpp_ir_id : CppIrId := 18446744073709551615.

(** A type is its spelling. *)
Record CppIrType := mkType { type_spelling : bytes }.

Definition type_valid (t : CppIrType) : bool := negb (bool_decide (type_spelling t = [])).

Record CppIrSource := mkSource { source_file : bytes; source_line : Z; source_column : Z }.

Inductive CppIrExpressionKind :=
| literal | name | member | call | unary | binary | subscript | list_ | object | lambda | await_ | conditional | conversion.

#[export] Instance CppIrExpressionKind_eq_dec : EqDecision CppIrExpressionKind.
Proof. solve_decision. Defined.

Record CppIrExpression := mkExpression {
  e_kind : CppIrExpressionKind;
  e_type : CppIrType;
  e_spelling : bytes;
  e_operands : list CppIrId;
  e_body : list CppIrId
}.

Inductive CppIrStatementKind :=
| binding | expression | return_ | co_return_ | throw_ | block | if_ | while_ | for_ | for_in | break_ | continue_
| route_registration | try_ | catch_ | rethrow_.

#[export] Instance CppIrStatementKind_eq_dec : EqDecision CppIrStatementKind.
Proof. solve_decision. Defined.

Record CppIrStatement := mkStatement {
  s_kind : CppIrStatementKind;
  s_source : CppIrSource;
  s_name : bytes;
  s_type : CppIrType;
  s_immutable : bool;
  s_expression : CppIrId;
  s_body : list CppIrId;
  s_alternative : list CppIrId;
  s_parts : list CppIrId;
  s_route : CppIrId;
  s_terminates : bool
}.

Inductive CppIrRouteMethod := get_ | post_ | put_ | patch_ | delete_ | options_ | head_ | fallback.

#[export] Instance CppIrRouteMethod_eq_dec : EqDecision CppIrRouteMethod.
Proof. solve_decision. Defined.

Inductive CppIrRouteBinding := request | scalar | model.

#[export] Instance CppIrRouteBinding_eq_dec : EqDecision CppIrRouteBinding.
Proof. solve_decision. Defined.

Record CppIrRouteParameter := mkRouteParameter { rp_type : CppIrType; rp_name : bytes; rp_binding : CppIrRouteBinding }.
Record CppIrRouteMiddleware := mkRouteMiddleware { rm_type : CppIrType; rm_alias : bytes }.
Record CppIrRouteConstraint := mkRouteConstraint { rc_parameter : bytes; rc_expression : bytes }.

Record CppIrRoute := mkRoute {
  r_method : CppIrRouteMethod;
  r_path : bytes; r_name : bytes; r_action : bytes;
  r_controller : CppIrType;
  r_parameters : list CppIrRouteParameter;
  r_middleware : list CppIrRouteMiddleware;
  r_constraints : list CppIrRouteConstraint
}.

Record CppIrParameter := mkParameter { p_type : CppIrType; p_name : bytes; p_by_reference : bool; p_default_value : CppIrId }.

Record CppIrFunction := mkFunction {
  f_module : bytes; f_owner : bytes; f_name : bytes;
  f_result : CppIrType;
  f_coroutine : bool; f_const_receiver : bool; f_line_directive : bool;
  f_source : CppIrSource;
  f_parameters : list CppIrParameter;
  f_body : list CppIrId
}.

Inductive CppIrDeclarationKind := preamble | function_forward | class_forward | class_definition | model_metadata.

#[export] Instance CppIrDeclarationKind_eq_dec : EqDecision CppIrDeclarationKind.
Proof. solve_decision. Defined.

Record CppIrDeclaration := mkDeclaration { d_kind : CppIrDeclarationKind; d_module : bytes; d_name : bytes; d_spelling : bytes }.

Record CppIrUnit := mkUnit { u_module : bytes; u_functions : list CppIrId }.

Record CppIrProject := mkProject {
  interface_declarations : list CppIrDeclaration;
  header_declarations : list CppIrDeclaration;
  expressions : list CppIrExpression;
  statements : list CppIrStatement;
  functions : list CppIrFunction;
  units : list CppIrUnit;
  routes : list CppIrRoute
}.

(** [id < v.size()] and [v[id]]. *)
Definition in_range {A} (l : list A) (id : N) : bool := (id <? N.of_nat (length l))%N.
Definition element {A} (l : list A) (id : N) : option A := if in_range l id then l !! N.to_nat id else None.

(** [v.at(id)]. *)
Definition at_ {A} (l : list A) (id : N) : result A :=
  match element l id with Some a => Ok a | None => Throw (out_of_range "vector::at") end.

(** [for (const auto& a : l) f(a);]. *)
Fixpoint for_each {S A} (f : A -> eff S unit) (l : list A) : eff S unit :=
  match l with
  | [] => mret ()
  | a :: l => _ ← f a; for_each f l
  end.

(** ** The verifier *)

(** The members of [Verifier] and the sets its callers hand down; the innermost of the
    scopes comes first. *)
Record Verifier := mkVerifier {
  errors_ : list bytes;
  exception_scopes_ : list bytes;
  handler_scopes_ : list CppIrId;
  active_expressions : gset CppIrId;
  active_statements : gset CppIrId
}.

Definition V := (eff Verifier).

Definition error (message : bytes) : V unit :=
  modify (fun v => mkVerifier (errors_ v ++ [message]) (exception_scopes_ v) (handler_scopes_ v) (active_expressions v) (active_statements v)).

(** [if (bad) error(message);]. *)
Definition error_if (bad : bool) (message : string) : V unit := if bad then error (lit message) else mret ().

Definition reading {A} (f : Verifier -> A) : V A := fun v => (Ok (f v), v).

Definition set_scopes (exceptions : list bytes) (handlers : list CppIrId) : V unit :=
  modify (fun v => mkVerifier (errors_ v) exceptions handlers (active_expressions v) (active_statements v)).

Definition set_expressions (f : gset CppIrId -> gset CppIrId) : V unit :=
  modify (fun v => mkVerifier (errors_ v) (exception_scopes_ v) (handler_scopes_ v) (f (active_expressions v)) (active_statements v)).

Definition set_statements (f : gset CppIrId -> gset CppIrId) : V unit :=
  modify (fun v => mkVerifier (errors_ v) (exception_scopes_ v) (handler_scopes_ v) (active_expressions v) (f (active_statements v))).

Section Project.
Context (project : CppIrProject).

Definition expression_id (id : CppIrId) : bool := negb ((id =? invalid_cpp_ir_id)%N || negb (in_range (expressions project) id)).
Definition statement_id (id : CppIrId) : bool := negb ((id =? invalid_cpp_ir_id)%N || negb (in_range (statements project) id)).

(** The checks of an expression that look at no other. *)
Definition expression_shape (coroutine : bool) (e : CppIrExpression) : V unit :=
  _ ← error_if (negb (type_valid (e_type e))) "C++ IR expression has no target type";
  _ ← error_if (bool_decide (e_spelling e = [])) "C++ IR expression has no target spelling";
  _ ← error_if (bool_decide (e_kind e = await_) && negb coroutine) "C++ IR await appears outside a coroutine";
  _ ← error_if (bool_decide (e_kind e = conversion) && negb (length (e_operands e) =? 1)%nat) "C++ IR conversion must have one operand";
  error_if (bool_decide (e_kind e = await_) && negb (length (e_operands e) =? 1)%nat) "C++ IR await must have one operand".

Definition is_named (id : CppIrId) (k : CppIrStatementKind) : bool :=
  match element (statements project) id with Some s => bool_decide (s_kind s = k) | None => false end.

(** The checks of a route ([verify_statement], [route_registration]). *)
Definition parameter_shape (p : CppIrRouteParameter) : V unit :=
  _ ← error_if (negb (type_valid (rp_type p)) || bool_decide (rp_name p = [])) "C++ IR route binding has no type or name";
  error_if (bool_decide (rp_binding p = request) && negb (bool_decide (type_spelling (rp_type p) = lit "gungnir::Request")))
    "C++ IR request binding has the wrong type".

Definition middleware_shape (m : CppIrRouteMiddleware) : V unit :=
  error_if (Bool.eqb (type_valid (rm_type m)) (negb (bool_decide (rm_alias m = [])))) "C++ IR route middleware needs one type or alias".

Definition route_shape (r : CppIrRoute) : V unit :=
  let is_fallback := bool_decide (r_method r = fallback) in
  _ ← error_if (negb (type_valid (r_controller r)) || bool_decide (r_action r = [])) "C++ IR route has no controller action";
  _ ← error_if (negb is_fallback && negb (bool_decide (head (r_path r) = Some "/"%byte))) "C++ IR route has no absolute path";
  _ ← for_each parameter_shape (r_parameters r);
  _ ← for_each middleware_shape (r_middleware r);
  error_if (is_fallback && negb (bool_decide (r_path r = []) && bool_decide (r_name r = []) && bool_decide (r_middleware r = []) &&
                                 bool_decide (r_constraints r = []))) "C++ IR fallback has route-only options".

Definition no_expression (s : CppIrStatement) : bool := (s_expression s =? invalid_cpp_ir_id)%N.

Definition invalid_statement : V unit := error (lit "invalid C++ IR statement id").

(** The switch of [verify_statement]; [expr] and [stmt] check the expressions and, at a loop
    depth, the statements the statement refers to. *)
Section Cases.
Context (expr : CppIrId -> V unit) (stmt : nat -> CppIrId -> V unit).

Definition verify_optional_expression (s : CppIrStatement) : V unit :=
  if no_expression s then mret () else expr (s_expression s).

Definition required_expression (s : CppIrStatement) (message : string) : V unit :=
  _ ← error_if (no_expression s) message;
  verify_optional_expression s.

Definition verify_body (depth : nat) (l : list CppIrId) : V unit := for_each (stmt depth) l.

(** A handler of a [try], checked with its exception slot in scope. *)
Definition verify_handler (depth : nat) (slot : bytes) (handler : CppIrId) : V unit :=
  if negb (statement_id handler) then invalid_statement
  else if negb (is_named handler catch_) then error (lit "C++ IR try contains a non-catch handler")
  else
    _ ← modify (fun v => mkVerifier (errors_ v) (slot :: exception_scopes_ v) (handler :: handler_scopes_ v) (active_expressions v) (active_statements v));
    _ ← stmt depth handler;
    modify (fun v => mkVerifier (errors_ v) (tail (exception_scopes_ v)) (tail (handler_scopes_ v)) (active_expressions v) (active_statements v)).

(** A step of a [for] loop. *)
Definition verify_step (depth : nat) (step : CppIrId) : V unit :=
  if negb (statement_id step) then invalid_statement
  else
    _ ← error_if (negb (is_named step expression)) "C++ IR for-loop step is not an expression statement";
    stmt depth step.

Definition verify_route (coroutine : bool) (s : CppIrStatement) : V unit :=
  _ ← error_if coroutine "C++ IR route registration appears in a coroutine";
  match element (routes project) (s_route s) with
  | None => error (lit "invalid C++ IR route id")
  | Some r => route_shape r
  end.

Definition statement_cases (coroutine : bool) (depth : nat) (id : CppIrId) (s : CppIrStatement) : V unit :=
  match s_kind s with
  | try_ =>
      _ ← error_if (bool_decide (s_name s = []) || bool_decide (s_alternative s = [])) "C++ IR try requires an exception slot and handlers";
      _ ← verify_body depth (s_body s);
      for_each (verify_handler depth (s_name s)) (s_alternative s)
  | catch_ =>
      handlers ← reading handler_scopes_;
      _ ← error_if (negb (bool_decide (head handlers = Some id)) || bool_decide (s_name s = []) || negb (type_valid (s_type s)))
        "C++ IR catch requires an owning try, a type and a binding";
      verify_body depth (s_body s)
  | rethrow_ =>
      exceptions ← reading exception_scopes_;
      error_if (negb (bool_decide (head exceptions = Some (s_name s)))) "C++ IR rethrow has no enclosing catch"
  | route_registration => verify_route coroutine s
  | binding =>
      _ ← error_if (bool_decide (s_name s = [])) "C++ IR binding has no name";
      _ ← error_if (negb (type_valid (s_type s))) "C++ IR binding has no target type";
      required_expression s "C++ IR binding has no initializer"
  | expression | throw_ => required_expression s "C++ IR statement is missing an expression"
  | return_ => _ ← error_if coroutine "normal return appears in a C++ IR coroutine"; verify_optional_expression s
  | co_return_ => _ ← error_if (negb coroutine) "co_return appears in a non-coroutine C++ IR function"; verify_optional_expression s
  | block => verify_body depth (s_body s)
  | if_ =>
      _ ← required_expression s "C++ IR if statement has no condition";
      _ ← verify_body depth (s_body s);
      verify_body depth (s_alternative s)
  | while_ => _ ← required_expression s "C++ IR while statement has no condition"; verify_body (S depth) (s_body s)
  | for_in =>
      _ ← error_if (bool_decide (s_name s = [])) "C++ IR range loop has no binding name";
      _ ← required_expression s "C++ IR range loop has no range expression";
      verify_body (S depth) (s_body s)
  | for_ =>
      _ ← required_expression s "C++ IR for loop has no condition";
      _ ← verify_body depth (s_parts s);
      _ ← for_each (verify_step (S depth)) (s_alternative s);
      verify_body (S depth) (s_body s)
  | break_ | continue_ => error_if (depth =? 0)%nat "C++ IR loop control appears outside a loop"
  end.
End Cases.

(** What a [lambda] owns is checked as a body of its own. *)
Definition verify_lambda (stmt : nat -> CppIrId -> V unit) (e : CppIrExpression) : V unit :=
  if bool_decide (e_kind e = lambda) then
    exceptions ← reading exception_scopes_;
    handlers ← reading handler_scopes_;
    _ ← set_scopes [] [];
    _ ← for_each (stmt 0%nat) (e_body e);
    set_scopes exceptions handlers
  else error_if (negb (bool_decide (e_body e = []))) "only lambda C++ IR expressions may own statements".

Fixpoint verify_expression (fuel : nat) (coroutine : bool) (id : CppIrId) : V unit :=
  match fuel with
  | O => fun v => (NoFuel, v)
  | S fuel =>
      if negb (expression_id id) then error (lit "invalid C++ IR expression id")
      else
        active ← reading (fun v => bool_decide (id ∈ active_expressions v));
        if (active : bool) then error (lit "cycle in C++ IR expression graph")
        else
          _ ← set_expressions (union {[id]});
          _ ← match element (expressions project) id with
              | None => mret ()
              | Some e =>
                  _ ← expression_shape coroutine e;
                  _ ← for_each (verify_expression fuel coroutine) (e_operands e);
                  verify_lambda (verify_statement fuel false) e
              end;
          set_expressions (fun active => active ∖ {[id]})
  end
with verify_statement (fuel : nat) (coroutine : bool) (depth : nat) (id : CppIrId) : V unit :=
  match fuel with
  | O => fun v => (NoFuel, v)
  | S fuel =>
      if negb (statement_id id) then invalid_statement
      else
        active ← reading (fun v => bool_decide (id ∈ active_statements v));
        if (active : bool) then error (lit "cycle in C++ IR statement graph")
        else
          _ ← set_statements (union {[id]});
          _ ← match element (statements project) id with
              | None => mret ()
              | Some s => statement_cases (verify_expression fuel coroutine) (verify_statement fuel coroutine) coroutine depth id s
              end;
          set_statements (fun active => active ∖ {[id]})
  end.

(** Every round enters an expression or a statement that is not active. *)
Definition verifier_fuel : nat := S (length (expressions project) + length (statements project)).

(** *** Declarations *)

Definition declaration_shape (label : string) (id : nat) (d : CppIrDeclaration) : V unit :=
  _ ← error_if (bool_decide (d_spelling d = [])) (String.append label " C++ IR declaration has no target spelling");
  if bool_decide (d_kind d = preamble)
  then error_if (negb (id =? 0)%nat) (String.append label " C++ IR preamble must be first")
  else error_if (bool_decide (d_name d = [])) (String.append label " C++ IR declaration has no name").

Definition verify_declaration_set (declarations : list CppIrDeclaration) (label : string) : V unit :=
  if bool_decide (declarations = []) then error (lit (String.append label " C++ IR declaration set is empty"))
  else
    _ ← for_each (fun '(id, d) => declaration_shape label id d) (imap pair declarations);
    error_if (negb (length (base.filter (fun d => d_kind d = preamble) declarations) =? 1)%nat)
      (String.append label " C++ IR must contain exactly one preamble").

Definition verify_declarations : V unit :=
  _ ← verify_declaration_set (interface_declarations project) "interface";
  _ ← verify_declaration_set (header_declarations project) "header";
  if negb (length (interface_declarations project) =? length (header_declarations project))%nat
  then error (lit "C++ IR interface/header declaration shape differs")
  else
    for_each (fun '(i, h) =>
      error_if (negb (bool_decide (d_kind i = d_kind h) && bool_decide (d_module i = d_module h) && bool_decide (d_name i = d_name h)))
        "C++ IR interface/header declaration identity differs")
      (zip (interface_declarations project) (header_declarations project)).

(** *** Arenas *)

Definition arena_expression (e : CppIrExpression) : V unit :=
  _ ← error_if (negb (type_valid (e_type e))) "C++ IR expression has no target type";
  _ ← error_if (bool_decide (e_spelling e = [])) "C++ IR expression has no target spelling";
  _ ← for_each (fun id => error_if (negb (expression_id id)) "C++ IR expression has an invalid operand") (e_operands e);
  _ ← error_if (bool_decide (e_kind e = conversion) && negb (length (e_operands e) =? 1)%nat) "C++ IR conversion must have one operand";
  _ ← error_if (bool_decide (e_kind e = await_) && negb (length (e_operands e) =? 1)%nat) "C++ IR await must have one operand";
  _ ← for_each (fun id => error_if (negb (statement_id id)) "C++ IR expression has an invalid body statement") (e_body e);
  error_if (negb (bool_decide (e_kind e = lambda)) && negb (bool_decide (e_body e = [])))
    "only lambda C++ IR expressions may own statements".

Definition arena_statement (s : CppIrStatement) : V unit :=
  let children := for_each (fun id => error_if (negb (statement_id id)) "C++ IR statement has an invalid child statement") in
  _ ← error_if (negb (no_expression s) && negb (in_range (expressions project) (s_expression s))) "C++ IR statement has an invalid expression";
  _ ← children (s_body s);
  _ ← children (s_alternative s);
  children (s_parts s).

Definition verify_arena_shapes : V unit :=
  _ ← for_each arena_expression (expressions project);
  for_each arena_statement (statements project).

(** *** Functions and units *)

(** The sets a caller hands down are new ones. *)
Definition fresh_sets (m : V unit) : V unit :=
  _ ← set_expressions (fun _ => ∅);
  _ ← set_statements (fun _ => ∅);
  m.

Definition verify_parameter (coroutine : bool) (p : CppIrParameter) : V unit :=
  _ ← error_if (bool_decide (p_name p = []) || negb (type_valid (p_type p))) "C++ IR function has an invalid parameter";
  if (p_default_value p =? invalid_cpp_ir_id)%N then mret ()
  else fresh_sets (verify_expression verifier_fuel coroutine (p_default_value p)).

Definition verify_function (f : CppIrFunction) : V unit :=
  _ ← error_if (bool_decide (f_name f = [])) "C++ IR function has no name";
  _ ← error_if (f_const_receiver f && bool_decide (f_owner f = [])) "C++ IR const receiver requires a member function";
  _ ← error_if (negb (type_valid (f_result f))) "C++ IR function has no result type";
  _ ← for_each (verify_parameter (f_coroutine f)) (f_parameters f);
  fresh_sets (for_each (verify_statement verifier_fuel (f_coroutine f) 0) (f_body f)).

Definition verify_functions : V unit := for_each verify_function (functions project).

(** A function listed in a unit. *)
Definition verify_member (module : bytes) (id : CppIrId) : V unit :=
  match element (functions project) id with
  | None => error (lit "C++ IR unit references an invalid function")
  | Some f => error_if (negb (bool_decide (f_module f = module))) "C++ IR function is assigned to the wrong module unit"
  end.

(** [membership[id]] when all units have been read. *)
Definition membership (id : nat) : nat := length (base.filter (fun i => i = N.of_nat id) (mjoin (map u_functions (units project)))).

Definition verify_units : V unit :=
  _ ← for_each (fun u => for_each (verify_member (u_module u)) (u_functions u)) (units project);
  for_each (fun id => error_if (negb (membership id =? 1)%nat) "C++ IR function must belong to exactly one module unit")
    (seq 0 (length (functions project))).

Definition run : V unit :=
  _ ← verify_declarations;
  _ ← verify_arena_shapes;
  _ ← verify_functions;
  verify_units.

(** [CppIrVerifier::verify]: the errors. *)
Definition verify : result (list bytes) :=
  match run (mkVerifier [] [] [] ∅ ∅) with
  | (Ok _, v) => Ok (errors_ v)
  | (Throw e, _) => Throw e
  | (NoFuel, _) => NoFuel
  end.

(** ** The emitter *)

Definition nl : bytes := [x0a].

(** [std::quoted]. *)
Definition quote (value : bytes) : bytes :=
  [x22] ++ mjoin (map (fun c => if (c =b? x22) || (c =b? x5c) then [x5c; c] else [c]) value) ++ [x22].

Definition cpp_namespace (module : bytes) : bytes :=
  if bool_decide (module = []) then []
  else lit "gnr::" ++ mjoin (map (fun c => if c =b? "." then lit "::" else [c]) module).

(** The texts with a comma between them. *)
Fixpoint separated (l : list bytes) : bytes :=
  match l with
  | [] => []
  | [a] => a
  | a :: l => a ++ lit "," ++ separated l
  end.

Definition line_text (s : CppIrSource) : bytes := lit "#line " ++ to_string_u (source_line s) ++ lit " " ++ quote (source_file s) ++ nl.

Definition source_directive (s : CppIrSource) (enabled : bool) : bytes :=
  if negb enabled || bool_decide (source_file s = []) then [] else line_text s.

Definition expression_text (id : CppIrId) : result bytes :=
  if (id =? invalid_cpp_ir_id)%N then Ok []
  else e ← at_ (expressions project) id; Ok (e_spelling e).

(** The text of a [return] or [co_return]. *)
Definition return_text (keyword : string) (s : CppIrStatement) : result bytes :=
  e ← expression_text (s_expression s);
  Ok (lit keyword ++ (if no_expression s then [] else lit " " ++ e) ++ lit ";" ++ nl).

Definition method_text (m : CppIrRouteMethod) : bytes :=
  match m with
  | get_ => lit "get" | post_ => lit "post" | put_ => lit "put" | patch_ => lit "patch"
  | delete_ => lit "delete_" | options_ => lit "options" | head_ => lit "head" | fallback => []
  end.

Definition route_text (r : CppIrRoute) : bytes :=
  let controller := type_spelling (r_controller r) in
  let handler :=
    lit "gungnir::routing::bind_controller<" ++ controller ++ lit ">(app.container(),&" ++ controller ++ lit "::" ++ r_action r ++ lit ",{" ++
    separated (map (fun p => quote (rp_name p)) (r_parameters r)) ++ lit "})" in
  match r_method r with
  | fallback => lit "app.router().fallback(" ++ handler ++ lit ");" ++ nl
  | m =>
      lit "{" ++ nl ++ lit "auto gnr_route = app.router().add(gungnir::http::Method::" ++ method_text m ++ lit "," ++ quote (r_path r) ++
      lit "," ++ handler ++ lit ");" ++ nl ++
      (if bool_decide (r_name r = []) then [] else lit "gnr_route.name(" ++ quote (r_name r) ++ lit ");" ++ nl) ++
      mjoin (map (fun m =>
        if type_valid (rm_type m)
        then lit "gnr_route.middleware(gungnir::http::make_middleware<" ++ type_spelling (rm_type m) ++ lit ">(app.container()));" ++ nl
        else lit "gnr_route.middleware(" ++ quote (rm_alias m) ++ lit ");" ++ nl) (r_middleware r)) ++
      mjoin (map (fun c => lit "gnr_route.where(" ++ quote (rc_parameter c) ++ lit "," ++ quote (rc_expression c) ++ lit ");" ++ nl)
        (r_constraints r)) ++
      lit "}" ++ nl
  end.

(** The switch of [statement]; [stmt] is the text of the statement with an index. *)
Section Texts.
Context (stmt : CppIrId -> result bytes).

Definition body_text (l : list CppIrId) : result bytes := mjoin <$> mapM stmt l.

Definition block_text (l : list CppIrId) : result bytes :=
  body ← body_text l; Ok (lit "{" ++ nl ++ body ++ lit "}" ++ nl).

Definition step_text (id : CppIrId) : result bytes :=
  s ← at_ (statements project) id;
  if bool_decide (s_kind s = expression) then expression_text (s_expression s)
  else Throw (logic_error "C++ IR for-loop step is not an expression").

Definition for_text (s : CppIrStatement) : result bytes :=
  parts ← body_text (s_parts s);
  condition ← expression_text (s_expression s);
  steps ← mapM step_text (s_alternative s);
  body ← block_text (s_body s);
  Ok (lit "{" ++ nl ++ parts ++ lit "for (;" ++ condition ++ lit ";" ++ separated steps ++ lit ") " ++ body ++ lit "}" ++ nl).

(** The handler with index [id], the [i]th of its [try]. *)
Definition handler_text (slot : bytes) (i : nat) (id : CppIrId) : result bytes :=
  handler ← at_ (statements project) id;
  let caught := lit "gnr_caught_" ++ to_string_u (Z.of_N id) in
  body ← body_text (s_body handler);
  Ok ((if (i =? 0)%nat then [] else lit "else ") ++ lit "if (auto " ++ caught ++ lit " = gungnir::language::runtime::catch_error<" ++
      type_spelling (s_type handler) ++ lit ">(" ++ slot ++ lit "); " ++ caught ++ lit ") {" ++ nl ++
      lit "const auto& " ++ s_name handler ++ lit " = *" ++ caught ++ lit ";" ++ nl ++ body ++ lit "}" ++ nl).

Definition try_text (s : CppIrStatement) : result bytes :=
  let done_ := s_name s ++ lit "_done" in
  body ← body_text (s_body s);
  handlers ← mapM (fun '(i, id) => handler_text (s_name s) i id) (imap pair (s_alternative s));
  Ok (lit "{" ++ nl ++ lit "std::exception_ptr " ++ s_name s ++ lit ";" ++ nl ++ lit "try {" ++ nl ++ body ++
      lit "goto " ++ done_ ++ lit ";" ++ nl ++ lit "} catch (...) { " ++ s_name s ++ lit " = std::current_exception(); }" ++ nl ++
      mjoin handlers ++ lit "else { std::rethrow_exception(" ++ s_name s ++ lit "); }" ++ nl ++ done_ ++ lit ":;" ++ nl ++
      (if s_terminates s then lit "std::terminate();" ++ nl else []) ++ lit "}" ++ nl).

Definition statement_text (s : CppIrStatement) : result bytes :=
  match s_kind s with
  | binding =>
      e ← expression_text (s_expression s);
      Ok ((if s_immutable s then lit "const " else []) ++ type_spelling (s_type s) ++ lit " " ++ s_name s ++ lit " = " ++ e ++ lit ";" ++ nl)
  | expression => e ← expression_text (s_expression s); Ok (e ++ lit ";" ++ nl)
  | return_ => return_text "return" s
  | co_return_ => return_text "co_return" s
  | throw_ =>
      e ← expression_text (s_expression s);
      Ok (lit "gungnir::language::runtime::raise_error(" ++ e ++ lit "," ++ quote (source_file (s_source s)) ++ lit "," ++
          to_string_u (source_line (s_source s)) ++ lit ");" ++ nl)
  | rethrow_ => Ok (lit "std::rethrow_exception(" ++ s_name s ++ lit ");" ++ nl)
  | try_ => try_text s
  | catch_ => Throw (logic_error "Catch outside try emission")
  | block => block_text (s_body s)
  | if_ =>
      condition ← expression_text (s_expression s);
      body ← block_text (s_body s);
      other ← (if bool_decide (s_alternative s = []) then Ok [] else b ← block_text (s_alternative s); Ok (lit "else " ++ b));
      Ok (lit "if (" ++ condition ++ lit ") " ++ body ++ other)
  | while_ =>
      condition ← expression_text (s_expression s);
      body ← block_text (s_body s);
      Ok (lit "while (" ++ condition ++ lit ") " ++ body)
  | for_in =>
      range ← expression_text (s_expression s);
      body ← block_text (s_body s);
      Ok (lit "for (const auto& " ++ s_name s ++ lit " : " ++ range ++ lit ") " ++ body)
  | for_ => for_text s
  | break_ => Ok (lit "break;" ++ nl)
  | continue_ => Ok (lit "continue;" ++ nl)
  | route_registration => r ← at_ (routes project) (s_route s); Ok (route_text r)
  end.
End Texts.

(** [StructuralEmitter::statement]. *)
Fixpoint emit_statement (fuel : nat) (lines : bool) (id : CppIrId) : result bytes :=
  match fuel with
  | O => NoFuel
  | S fuel =>
      s ← at_ (statements project) id;
      text ← statement_text (emit_statement fuel lines) s;
      Ok (source_directive (s_source s) lines ++ text)
  end.

Definition parameter_text (p : CppIrParameter) : bytes :=
  type_spelling (p_type p) ++ (if p_by_reference p then lit "& " else lit " ") ++ p_name p.

(** [StructuralEmitter::function]. *)
Definition emit_function (id : CppIrId) : result bytes :=
  f ← at_ (functions project) id;
  let ns := cpp_namespace (f_module f) in
  let in_namespace (text : bytes) := if bool_decide (ns = []) then [] else text in
  body ← mjoin <$> mapM (emit_statement verifier_fuel (f_line_directive f)) (f_body f);
  Ok (in_namespace (lit "namespace " ++ ns ++ lit " {" ++ nl) ++ source_directive (f_source f) (f_line_directive f) ++
      type_spelling (f_result f) ++ lit " " ++ (if bool_decide (f_owner f = []) then [] else f_owner f ++ lit "::") ++ f_name f ++ lit "(" ++
      separated (map parameter_text (f_parameters f)) ++ (if f_const_receiver f then lit ") const {" else lit ") {") ++ nl ++
      body ++ lit "}" ++ nl ++ in_namespace (lit "}" ++ nl)).

Definition enforce_valid_ir : result unit :=
  errors ← verify;
  if bool_decide (errors = []) then Ok ()
  else Throw (logic_error (message "Gungnir internal compiler error: invalid C++ IR" (mjoin (map (fun e => nl ++ lit " - " ++ e) errors)))).

(** [CppEmitter::emit]. *)
Definition emit : result bytes :=
  _ ← enforce_valid_ir;
  functions_ ← mapM emit_function (map N.of_nat (seq 0 (length (functions project))));
  Ok (mjoin (map d_spelling (interface_declarations project)) ++ mjoin functions_).

Record EmittedUnit := mkEmittedUnit { emitted_module : bytes; emitted_code : bytes }.
Record EmittedProject := mkEmittedProject { emitted_declarations : bytes; emitted_units : list EmittedUnit }.

Definition emit_unit (u : CppIrUnit) : result EmittedUnit :=
  functions_ ← mapM emit_function (u_functions u);
  Ok (mkEmittedUnit (u_module u) (lit "#include " ++ quote (lit "program.hpp") ++ nl ++ mjoin functions_)).

(** [CppEmitter::emit_units]. *)
Definition emit_units : result EmittedProject :=
  _ ← enforce_valid_ir;
  units_ ← mapM emit_unit (units project);
  Ok (mkEmittedProject (lit "#pragma once" ++ nl ++ mjoin (map d_spelling (header_declarations project))) units_).
End Project.
