(* ===== verification/CppIrFacts.v ===== *)
(** * The verifier of the C++ IR decides well-formedness, and what it accepts is emitted

    A project is well formed when every node has a finite derivation by the rules below;
    the verifier, which marks the nodes on its path, reports nothing exactly then.  Such
    a project is emitted without an error, every function in one unit. *)

From stdpp Require Import base list gmap.
From Stdlib Require Import ZArith Bool Lia.
From S2P Require Import Prelude Numeral CppIr.

(** ** Well-formed projects *)

(** The enclosing handler of a statement: the exception slot of its [try] and its index. *)
Record Ctx := mkCtx { coroutine : bool; depth : nat; scope : option (bytes * CppIrId) }.

Inductive Node := NE (id : CppIrId) | NS (id : CppIrId).

#[export] Instance Node_eq_dec : EqDecision Node.
Proof. solve_decision. Defined.

Section Rules.
Context (project : CppIrProject).

Definition spelled_out (t : CppIrType) : Prop := type_spelling t <> [].

(** A route that is emitted with a controller action; the fallback has nothing else. *)
Definition route_rules (r : CppIrRoute) : Prop :=
  spelled_out (r_controller r) /\ r_action r <> [] /\
  (r_method r <> fallback -> head (r_path r) = Some "/"%byte) /\
  Forall (fun p => spelled_out (rp_type p) /\ rp_name p <> [] /\
    (rp_binding p = request -> type_spelling (rp_type p) = lit "gungnir::Request")) (r_parameters r) /\
  Forall (fun m => spelled_out (rm_type m) <-> rm_alias m = []) (r_middleware r) /\
  (r_method r = fallback -> r_path r = [] /\ r_name r = [] /\ r_middleware r = [] /\ r_constraints r = []).

(** What a statement of a kind asks for, apart from the nodes it refers to. *)
Definition statement_rules (c : Ctx) (id : CppIrId) (s : CppIrStatement) : Prop :=
  match s_kind s with
  | try_ => s_name s <> [] /\ s_alternative s <> [] /\ Forall (fun h => is_named project h catch_ = true) (s_alternative s)
  | catch_ => snd <$> scope c = Some id /\ s_name s <> [] /\ spelled_out (s_type s)
  | rethrow_ => fst <$> scope c = Some (s_name s)
  | route_registration => coroutine c = false /\ exists r, element (routes project) (s_route s) = Some r /\ route_rules r
  | binding => s_name s <> [] /\ spelled_out (s_type s) /\ s_expression s <> invalid_cpp_ir_id
  | for_in => s_name s <> [] /\ s_expression s <> invalid_cpp_ir_id
  | expression | throw_ | if_ | while_ => s_expression s <> invalid_cpp_ir_id
  | for_ => s_expression s <> invalid_cpp_ir_id /\ Forall (fun i => is_named project i expression = true) (s_alternative s)
  | return_ => coroutine c = false
  | co_return_ => coroutine c = true
  | break_ | continue_ => (0 < depth c)%nat
  | block => True
  end.

Definition expression_rules (c : Ctx) (e : CppIrExpression) : Prop :=
  spelled_out (e_type e) /\ e_spelling e <> [] /\ (e_kind e = await_ -> coroutine c = true) /\
  (e_kind e = conversion \/ e_kind e = await_ -> length (e_operands e) = 1%nat) /\
  (e_kind e <> lambda -> e_body e = []).

Definition deeper (c : Ctx) : Ctx := mkCtx (coroutine c) (S (depth c)) (scope c).
Definition handling (c : Ctx) (slot : bytes) (id : CppIrId) : Ctx := mkCtx (coroutine c) (depth c) (Some (slot, id)).

(** The nodes that are part of a node, and the context each of them is in. *)
Definition statement_parts (c : Ctx) (s : CppIrStatement) : list (Ctx * Node) :=
  let expr := if no_expression s then [] else [(c, NE (s_expression s))] in
  let all c l := map (fun id => (c, NS id)) l in
  match s_kind s with
  | try_ => all c (s_body s) ++ map (fun id => (handling c (s_name s) id, NS id)) (s_alternative s)
  | catch_ | block => all c (s_body s)
  | rethrow_ | route_registration | break_ | continue_ => []
  | binding | expression | throw_ | return_ | co_return_ => expr
  | if_ => expr ++ all c (s_body s) ++ all c (s_alternative s)
  | while_ | for_in => expr ++ all (deeper c) (s_body s)
  | for_ => expr ++ all c (s_parts s) ++ all (deeper c) (s_alternative s) ++ all (deeper c) (s_body s)
  end.

Definition expression_parts (c : Ctx) (e : CppIrExpression) : list (Ctx * Node) :=
  map (fun id => (c, NE id)) (e_operands e) ++
  (if bool_decide (e_kind e = lambda) then map (fun id => (mkCtx false 0 None, NS id)) (e_body e) else []).

Definition local (c : Ctx) (x : Node) : Prop :=
  match x with
  | NE id => id <> invalid_cpp_ir_id /\ exists e, element (expressions project) id = Some e /\ expression_rules c e
  | NS id => id <> invalid_cpp_ir_id /\ exists s, element (statements project) id = Some s /\ statement_rules c id s
  end.

Definition parts (c : Ctx) (x : Node) : list (Ctx * Node) :=
  match x with
  | NE id => match element (expressions project) id with Some e => expression_parts c e | None => [] end
  | NS id => match element (statements project) id with Some s => statement_parts c s | None => [] end
  end.

(** A node that keeps the rules of its kind, as do its parts; derivations are finite, so
    no node is a part of itself. *)
Inductive WellFormed (c : Ctx) (x : Node) : Prop :=
| well_formed : local c x -> (forall c' y, (c', y) ∈ parts c x -> WellFormed c' y) -> WellFormed c x.

Definition declaration_rules (l : list CppIrDeclaration) : Prop :=
  exists first rest, l = first :: rest /\ d_kind first = preamble /\ d_spelling first <> [] /\
    Forall (fun d => d_kind d <> preamble /\ d_spelling d <> [] /\ d_name d <> []) rest.

Definition arena_rules : Prop :=
  Forall (fun e => spelled_out (e_type e) /\ e_spelling e <> [] /\ Forall (fun id => expression_id project id = true) (e_operands e) /\
    (e_kind e = conversion \/ e_kind e = await_ -> length (e_operands e) = 1%nat) /\
    Forall (fun id => statement_id project id = true) (e_body e) /\ (e_kind e <> lambda -> e_body e = [])) (expressions project) /\
  Forall (fun s => (s_expression s = invalid_cpp_ir_id \/ in_range (expressions project) (s_expression s) = true) /\
    Forall (fun id => statement_id project id = true) (s_body s ++ s_alternative s ++ s_parts s)) (statements project).

Definition function_rules (f : CppIrFunction) : Prop :=
  f_name f <> [] /\ (f_const_receiver f = true -> f_owner f <> []) /\ spelled_out (f_result f) /\
  Forall (fun p => p_name p <> [] /\ spelled_out (p_type p) /\
    (p_default_value p <> invalid_cpp_ir_id -> WellFormed (mkCtx (f_coroutine f) 0 None) (NE (p_default_value p)))) (f_parameters f) /\
  Forall (fun id => WellFormed (mkCtx (f_coroutine f) 0 None) (NS id)) (f_body f).

Definition unit_rules : Prop :=
  Forall (fun u => Forall (fun id => exists f, element (functions project) id = Some f /\ f_module f = u_module u) (u_functions u))
    (units project) /\
  mjoin (map u_functions (units project)) ≡ₚ map N.of_nat (seq 0 (length (functions project))).

Definition WellFormedProject : Prop :=
  declaration_rules (interface_declarations project) /\ declaration_rules (header_declarations project) /\
  Forall2 (fun i h => d_kind i = d_kind h /\ d_module i = d_module h /\ d_name i = d_name h)
    (interface_declarations project) (header_declarations project) /\
  arena_rules /\ Forall function_rules (functions project) /\ unit_rules.
End Rules.

(** ** Checks that report errors *)

(** The state with more errors. *)
Definition adds (v : Verifier) (l : list bytes) : Verifier :=
  mkVerifier (errors_ v ++ l) (exception_scopes_ v) (handler_scopes_ v) (active_expressions v) (active_statements v).

Lemma adds_adds v l k : adds (adds v l) k = adds v (l ++ k).
Proof. unfold adds. cbn. by rewrite <-app_assoc. Qed.

(** The check ends, leaves everything but the errors, and reports none exactly when [Q]
    holds. *)
Definition judges (Q : Prop) (m : V unit) (v : Verifier) : Prop :=
  exists l, m v = (Ok (), adds v l) /\ (l = [] <-> Q).

Lemma adds_nil v : adds v [] = v.
Proof. unfold adds. destruct v. cbn. by rewrite app_nil_r. Qed.

Lemma judges_iff Q R m v : (Q <-> R) -> judges Q m v -> judges R m v.
Proof. intros H (l & E & Hl). exists l. split; [done|by rewrite Hl]. Qed.

Lemma judges_ret v : judges True (mret ()) v.
Proof. exists []. split; [by rewrite adds_nil|done]. Qed.

Lemma judges_error message v : judges False (error message) v.
Proof. by exists [message]. Qed.

Lemma judges_error_if bad message v : judges (bad = false) (error_if bad message) v.
Proof. destruct bad; [eapply judges_iff, judges_error|eapply judges_iff, judges_ret]; done. Qed.

Lemma judges_bind Q R m (k : unit -> V unit) v : judges Q m v -> (forall l, judges R (k ()) (adds v l)) -> judges (Q /\ R) (m ≫= k) v.
Proof.
  intros (l & E & Hl) Hk. destruct (Hk l) as (l' & E' & Hl'). exists (l ++ l'). rewrite (eff_bind_Ok _ _ _ _ _ E), E', adds_adds.
  split; [done|]. rewrite <-Hl, <-Hl'. destruct l, l'; cbn; intuition congruence.
Qed.

Lemma judges_reading {A} (f : Verifier -> A) (k : A -> V unit) Q v : judges Q (k (f v)) v -> judges Q (reading f ≫= k) v.
Proof. intros (l & E & Hl). exists l. split; [|done]. by rewrite (eff_bind_Ok _ _ v (f v) v). Qed.

Lemma judges_for_each {A} (Q : A -> Prop) (f : A -> V unit) l v :
  (forall a k, a ∈ l -> judges (Q a) (f a) (adds v k)) -> judges (Forall Q l) (for_each f l) v.
Proof.
  revert v. induction l as [|a l IH]; intros v H; cbn [for_each].
  - eapply judges_iff, judges_ret. by split.
  - eapply judges_iff; [symmetry; apply Forall_cons|]. apply judges_bind.
    + rewrite <-(adds_nil v). apply H. constructor.
    + intros k. apply IH. intros b k' Hb. rewrite adds_adds. apply H. by constructor.
Qed.

(** A change of the state around a check that does not look at the errors. *)
Lemma judges_around Q (enter leave : V unit) m v w : enter v = (Ok (), w) -> judges Q m w ->
  (forall l, leave (adds w l) = (Ok (), adds v l)) -> judges Q (_ ← enter; _ ← m; leave) v.
Proof.
  intros Ew (l & E & Hl) Hleave. exists l. split; [|done].
  by rewrite (eff_bind_Ok _ _ _ _ _ Ew), (eff_bind_Ok _ _ _ _ _ E), Hleave.
Qed.

(** ** The checks of one node *)

Section Local.
Context (project : CppIrProject).

(** The scopes of the state are those of the context. *)
Definition scope_is (c : Ctx) (v : Verifier) : Prop :=
  head (exception_scopes_ v) = fst <$> scope c /\ head (handler_scopes_ v) = snd <$> scope c.

Definition same_active (v w : Verifier) : Prop :=
  active_expressions w = active_expressions v /\ active_statements w = active_statements v.

Lemma type_valid_iff t : type_valid t = true <-> spelled_out t.
Proof. unfold type_valid, spelled_out. rewrite negb_true_iff. apply bool_decide_eq_false. Qed.

Lemma no_expression_iff s : no_expression s = false <-> s_expression s <> invalid_cpp_ir_id.
Proof. unfold no_expression. apply N.eqb_neq. Qed.

Lemma head_slash (p : bytes) : negb (bool_decide (head p = Some "/"%byte)) = false <-> head p = Some "/"%byte.
Proof. rewrite negb_false_iff. apply bool_decide_eq_true. Qed.

Ltac decided := rewrite ?orb_false_iff, ?andb_false_iff, ?negb_false_iff, ?andb_true_iff, ?bool_decide_eq_false, ?bool_decide_eq_true,
  ?type_valid_iff, ?Nat.eqb_eq, ?eqb_true_iff, ?eqb_false_iff.

Lemma expression_shape_judges c e v :
  judges (spelled_out (e_type e) /\ e_spelling e <> [] /\ (e_kind e = await_ -> coroutine c = true) /\
    (e_kind e = conversion \/ e_kind e = await_ -> length (e_operands e) = 1%nat)) (expression_shape (coroutine c) e) v.
Proof.
  unfold expression_shape. eapply judges_iff.
  2: { apply judges_bind; [apply judges_error_if|intros ?]. apply judges_bind; [apply judges_error_if|intros ?].
    apply judges_bind; [apply judges_error_if|intros ?]. apply judges_bind; [apply judges_error_if|intros ?]. apply judges_error_if. }
  decided. destruct (decide (e_kind e = await_)), (decide (e_kind e = conversion)); tauto.
Qed.

Lemma parameter_shape_judges p v : judges (spelled_out (rp_type p) /\ rp_name p <> [] /\
    (rp_binding p = request -> type_spelling (rp_type p) = lit "gungnir::Request")) (parameter_shape p) v.
Proof.
  unfold parameter_shape. eapply judges_iff; [|apply judges_bind; [apply judges_error_if|intros ?; apply judges_error_if]].
  decided. destruct (decide (rp_binding p = request)); tauto.
Qed.

Lemma middleware_shape_judges m v : judges (spelled_out (rm_type m) <-> rm_alias m = []) (middleware_shape m) v.
Proof.
  unfold middleware_shape. eapply judges_iff; [|apply judges_error_if]. unfold type_valid, spelled_out.
  do 2 case_bool_decide; cbn; intuition congruence.
Qed.

Lemma route_shape_judges r v : judges (route_rules r) (route_shape r) v.
Proof.
  unfold route_shape, route_rules. eapply judges_iff.
  2: { apply judges_bind; [apply judges_error_if|intros ?]. apply judges_bind; [apply judges_error_if|intros ?].
    apply judges_bind; [apply judges_for_each; intros; apply parameter_shape_judges|intros ?].
    apply judges_bind; [apply judges_for_each; intros; apply middleware_shape_judges|intros ?]. apply judges_error_if. }
  decided. destruct (decide (r_method r = fallback)); tauto.
Qed.

(** The checks of a statement, given those of the nodes it refers to. *)
Section Cases.
Context (Q : Ctx -> Node -> Prop) (expr : CppIrId -> V unit) (stmt : nat -> CppIrId -> V unit) (co : bool) (base : Verifier).
Hypothesis Hexpr : forall c id w, coroutine c = co -> same_active base w -> scope_is c w -> judges (Q c (NE id)) (expr id) w.
Hypothesis Hstmt : forall c id w, coroutine c = co -> same_active base w -> scope_is c w -> judges (Q c (NS id)) (stmt (depth c) id) w.
Hypothesis HQ : forall c id, Q c (NS id) -> statement_id project id = true.

Local Abbreviation all_parts l := (Forall (uncurry Q) l).

Section Context_.
Context (c : Ctx) (Hco : coroutine c = co).

Local Abbreviation at_context w := (same_active base w /\ scope_is c w).

Lemma body_judges l w : at_context w -> judges (all_parts (map (fun id => (c, NS id)) l)) (verify_body stmt (depth c) l) w.
Proof. intros [Ha Hs]. eapply judges_iff; [symmetry; apply Forall_map|]. apply judges_for_each. intros id k _. by apply Hstmt. Qed.

Lemma optional_judges s w : at_context w ->
  judges (all_parts (if no_expression s then [] else [(c, NE (s_expression s))])) (verify_optional_expression expr s) w.
Proof.
  intros [Ha Hs]. unfold verify_optional_expression. destruct (no_expression s).
  - eapply judges_iff, judges_ret. by split.
  - eapply judges_iff; [|by apply Hexpr]. by rewrite Forall_singleton.
Qed.

Lemma required_judges s message w : at_context w ->
  judges (s_expression s <> invalid_cpp_ir_id /\ all_parts (if no_expression s then [] else [(c, NE (s_expression s))]))
    (required_expression expr s message) w.
Proof.
  intros Hw. eapply judges_iff; [|apply judges_bind; [apply judges_error_if|intros l; by apply optional_judges]]. by rewrite no_expression_iff.
Qed.

Lemma deeper_body_judges l w : at_context w -> judges (all_parts (map (fun id => (deeper c, NS id)) l)) (verify_body stmt (S (depth c)) l) w.
Proof.
  intros [Ha Hs]. eapply judges_iff; [symmetry; apply Forall_map|]. apply judges_for_each. intros id k _. by apply (Hstmt (deeper c)).
Qed.

Lemma handler_judges slot h w : at_context w ->
  judges (is_named project h catch_ = true /\ Q (handling c slot h) (NS h)) (verify_handler project stmt (depth c) slot h) w.
Proof.
  intros [Ha Hs]. unfold verify_handler. destruct (statement_id project h) eqn:Eid; cbn [negb].
  2: { eapply judges_iff, judges_error. split; [done|]. intros [_ HQh%HQ]. congruence. }
  destruct (is_named project h catch_); cbn [negb]; [|eapply judges_iff, judges_error; naive_solver].
  eapply judges_iff; [|eapply (judges_around (Q (handling c slot h) (NS h))); [reflexivity| |]]; [naive_solver| |].
  - by apply (Hstmt (handling c slot h)).
  - intros l. by destruct w.
Qed.

Lemma step_judges i w : at_context w ->
  judges (is_named project i expression = true /\ Q (deeper c) (NS i)) (verify_step project stmt (S (depth c)) i) w.
Proof.
  intros [Ha Hs]. unfold verify_step. destruct (statement_id project i) eqn:Eid; cbn [negb].
  2: { eapply judges_iff, judges_error. split; [done|]. intros [_ HQh%HQ]. congruence. }
  eapply judges_iff; [|apply judges_bind; [apply judges_error_if|intros l; by apply (Hstmt (deeper c))]]. by rewrite negb_false_iff.
Qed.

Lemma handlers_judges slot l w : at_context w ->
  judges (Forall (fun h => is_named project h catch_ = true) l /\ all_parts (map (fun id => (handling c slot id, NS id)) l))
    (for_each (verify_handler project stmt (depth c) slot) l) w.
Proof.
  intros Hw. eapply judges_iff; [|apply judges_for_each; intros h k _; by apply handler_judges].
  rewrite Forall_and. apply and_iff_compat_l. symmetry. apply Forall_map.
Qed.

Lemma steps_judges l w : at_context w ->
  judges (Forall (fun i => is_named project i expression = true) l /\ all_parts (map (fun id => (deeper c, NS id)) l))
    (for_each (verify_step project stmt (S (depth c))) l) w.
Proof.
  intros Hw. eapply judges_iff; [|apply judges_for_each; intros i k _; by apply step_judges].
  rewrite Forall_and. apply and_iff_compat_l. symmetry. apply Forall_map.
Qed.

Lemma route_judges s w : judges (co = false /\ exists r, element (routes project) (s_route s) = Some r /\ route_rules r)
  (verify_route project co s) w.
Proof.
  unfold verify_route. apply judges_bind; [apply judges_error_if|intros l]. destruct (element _ _) as [r|].
  - eapply judges_iff, route_shape_judges. naive_solver.
  - eapply judges_iff, judges_error. naive_solver.
Qed.

Lemma statement_cases_judges id s w : at_context w ->
  judges (statement_rules project c id s /\ all_parts (statement_parts c s)) (statement_cases project expr stmt co (depth c) id s) w.
Proof.
  intros Hw. assert (Hk : forall l, at_context (adds w l)) by done. unfold statement_cases, statement_rules, statement_parts.
  destruct (s_kind s); rewrite ?Hco.
  - eapply judges_iff; [|apply judges_bind; [apply judges_error_if|intros l]; apply judges_bind; [apply judges_error_if|intros l']; rewrite adds_adds; by apply required_judges].
    decided. tauto.
  - by apply required_judges.
  - apply judges_bind; [apply judges_error_if|intros l; by apply optional_judges].
  - eapply judges_iff; [|apply judges_bind; [apply judges_error_if|intros l; by apply optional_judges]]. by decided.
  - by apply required_judges.
  - eapply judges_iff; [|by apply body_judges]. tauto.
  - eapply judges_iff; [|apply judges_bind; [by apply required_judges|intros l]; apply judges_bind; [by apply body_judges|intros l']; rewrite adds_adds; by apply body_judges].
    rewrite !Forall_app. tauto.
  - eapply judges_iff; [|apply judges_bind; [by apply required_judges|intros l; by apply deeper_body_judges]]. rewrite !Forall_app. tauto.
  - eapply judges_iff; [|apply judges_bind; [by apply required_judges|intros l]; apply judges_bind; [by apply body_judges|intros l'];
      apply judges_bind; [rewrite !adds_adds; by apply steps_judges|intros l''; rewrite !adds_adds; by apply deeper_body_judges]].
    rewrite !Forall_app. tauto.
  - eapply judges_iff; [|apply judges_bind; [apply judges_error_if|intros l]; apply judges_bind; [by apply required_judges|intros l']; rewrite adds_adds; by apply deeper_body_judges].
    decided. rewrite !Forall_app. tauto.
  - eapply judges_iff, judges_error_if. rewrite Forall_nil, Nat.eqb_neq. intuition lia.
  - eapply judges_iff, judges_error_if. rewrite Forall_nil, Nat.eqb_neq. intuition lia.
  - eapply judges_iff, route_judges. rewrite Forall_nil. tauto.
  - eapply judges_iff; [|apply judges_bind; [apply judges_error_if|intros l]; apply judges_bind; [by apply body_judges|intros l'];
      rewrite !adds_adds; by apply handlers_judges].
    decided. rewrite Forall_app. tauto.
  - apply judges_reading. destruct Hw as [Ha [He Hh]]. rewrite Hh.
    eapply judges_iff; [|apply judges_bind; [apply judges_error_if|intros l; by apply body_judges]]. decided. tauto.
  - apply judges_reading. destruct Hw as [Ha [He Hh]]. rewrite He. eapply judges_iff, judges_error_if. decided. rewrite Forall_nil. tauto.
Qed.
End Context_.
End Cases.
End Local.

(** ** Parts of parts *)

Section Graph.
Context (project : CppIrProject).

Definition edge (x y : Node) : Prop := exists c c', (c', y) ∈ parts project c x.

Definition avoids (path : list Node) (x : Node) : Prop := forall y, rtc edge x y -> y ∉ path.

(** The context does not matter to which nodes are parts. *)
Lemma parts_nodes c c' x : map snd (parts project c x) = map snd (parts project c' x).
Proof.
  destruct x as [id|id]; cbn [parts].
  - destruct (element _ _) as [e|]; [|done]. unfold expression_parts. by rewrite !map_app, !map_map.
  - destruct (element _ _) as [s|]; [|done]. unfold statement_parts.
    destruct (s_kind s); rewrite ?map_app, ?map_map; cbn [snd]; destruct (no_expression s); reflexivity.
Qed.

Lemma edge_part c x y : edge x y <-> exists c', (c', y) ∈ parts project c x.
Proof.
  split; [|intros [c' H]; by exists c, c']. intros (d & d' & H).
  assert (Hin : y ∈ map snd (parts project c x)) by (rewrite (parts_nodes c d); apply list_elem_of_fmap; by exists (d', y)).
  apply list_elem_of_fmap in Hin as ([c' y'] & -> & Hin). by exists c'.
Qed.

(** A well-formed node is no part of itself. *)
Lemma well_formed_acyclic c x : WellFormed project c x -> ~ tc edge x x.
Proof.
  induction 1 as [c x Hl Hp IH]. intros Hxx. inversion Hxx as [? ? Hxy|? y ? Hxy Hyx]; subst.
  - apply (edge_part c) in Hxy as [c' Hin]. by eapply IH.
  - pose proof Hxy as Hedge. apply (edge_part c) in Hxy as [c' Hin]. eapply IH; [exact Hin|]. eapply tc_r; [exact Hyx|exact Hedge].
Qed.

(** A node not on the path is well formed and avoids the path exactly when it keeps the
    rules and so do its parts, with the node on the path. *)
Lemma well_formed_step c x path : x ∉ path ->
  (WellFormed project c x /\ avoids path x <->
   local project c x /\ Forall (uncurry (fun c' y => WellFormed project c' y /\ avoids (x :: path) y)) (parts project c x)).
Proof.
  intros Hx. rewrite Forall_forall. split.
  - intros [Hwf Ha]. inversion Hwf as [Hl Hp]. split; [done|]. intros [c' y] Hin. cbn. split; [by apply Hp|].
    assert (Hxy : edge x y) by by exists c, c'. intros z Hyz [->|Hz]%elem_of_cons.
    + eapply well_formed_acyclic; [exact Hwf|]. eapply tc_rtc_r; [by apply tc_once|done].
    + eapply Ha; [|exact Hz]. by eapply rtc_l.
  - intros [Hl Hp]. split.
    + constructor; [done|]. intros c' y Hin. by apply (Hp _ Hin).
    + intros z Hxz Hz. inversion Hxz as [|? y ? Hxy Hyz]; subst; [done|]. apply (edge_part c) in Hxy as [c' Hin].
      destruct (Hp _ Hin) as [_ Ha]. eapply Ha; [exact Hyz|]. by constructor.
Qed.

(** The nodes of the project. *)
Definition valid (x : Node) : Prop :=
  match x with NE id => expression_id project id = true | NS id => statement_id project id = true end.

Definition all_nodes : list Node :=
  map (fun i => NE (N.of_nat i)) (seq 0 (length (expressions project))) ++ map (fun i => NS (N.of_nat i)) (seq 0 (length (statements project))).

Lemma in_range_nat {A} (l : list A) id : in_range l id = true <-> (N.to_nat id < length l)%nat.
Proof. unfold in_range. rewrite N.ltb_lt. lia. Qed.

Lemma valid_node x : valid x -> x ∈ all_nodes.
Proof.
  unfold all_nodes, valid, expression_id, statement_id. destruct x as [id|id]; intros [_ H]%negb_true_iff%orb_false_iff;
    apply negb_false_iff, in_range_nat in H; apply elem_of_app; [left|right];
    apply list_elem_of_fmap; exists (N.to_nat id); (split; [by rewrite N2Nat.id|apply elem_of_seq; lia]).
Qed.

Lemma path_bound path : NoDup path -> Forall valid path -> (length path < verifier_fuel project)%nat.
Proof.
  intros Hn Hv. assert (Hsub : path ⊆+ all_nodes).
  { apply NoDup_submseteq; [done|]. intros x Hx. apply valid_node. rewrite Forall_forall in Hv. by apply Hv. }
  apply submseteq_length in Hsub. unfold all_nodes in Hsub. rewrite length_app, !length_map, !length_seq in Hsub. unfold verifier_fuel. lia.
Qed.

Lemma local_valid c x : local project c x -> valid x.
Proof.
  unfold local, valid, expression_id, statement_id, element. destruct x as [id|id]; intros (Hid & a & Ha & _);
    (destruct (in_range _ _); [|discriminate]); by rewrite (proj2 (N.eqb_neq _ _) Hid).
Qed.

Lemma valid_element_e id : valid (NE id) -> id <> invalid_cpp_ir_id /\ exists e, element (expressions project) id = Some e.
Proof.
  unfold valid, expression_id, element. intros [H1 H2]%negb_true_iff%orb_false_iff. apply N.eqb_neq in H1. apply negb_false_iff in H2. rewrite H2.
  split; [done|]. apply lookup_lt_is_Some. by apply in_range_nat.
Qed.

Lemma valid_element_s id : valid (NS id) -> id <> invalid_cpp_ir_id /\ exists s, element (statements project) id = Some s.
Proof.
  unfold valid, statement_id, element. intros [H1 H2]%negb_true_iff%orb_false_iff. apply N.eqb_neq in H1. apply negb_false_iff in H2. rewrite H2.
  split; [done|]. apply lookup_lt_is_Some. by apply in_range_nat.
Qed.

(** ** The verifier decides *)

(** The path the verifier has marked. *)
Definition on_path (path : list Node) (v : Verifier) : Prop := forall id,
  (id ∈ active_expressions v <-> NE id ∈ path) /\ (id ∈ active_statements v <-> NS id ∈ path).

Definition visit (fuel : nat) (c : Ctx) (x : Node) : V unit :=
  match x with
  | NE id => verify_expression project fuel (coroutine c) id
  | NS id => verify_statement project fuel (coroutine c) (depth c) id
  end.

Definition judged (fuel : nat) : Prop := forall path v c x, on_path path v -> NoDup path -> Forall valid path ->
  (verifier_fuel project <= length path + fuel)%nat -> scope_is c v ->
  judges (WellFormed project c x /\ avoids path x) (visit fuel c x) v.

Lemma lambda_judges (Q : Ctx -> Node -> Prop) stmt e v :
  (forall id k, judges (Q (mkCtx false 0 None) (NS id)) (stmt 0%nat id)
     (adds (mkVerifier (errors_ v) [] [] (active_expressions v) (active_statements v)) k)) ->
  judges ((e_kind e <> lambda -> e_body e = []) /\
    Forall (uncurry Q) (if bool_decide (e_kind e = lambda) then map (fun id => (mkCtx false 0 None, NS id)) (e_body e) else []))
    (verify_lambda stmt e) v.
Proof.
  intros Hstmt. unfold verify_lambda. case_bool_decide as Hk.
  - apply judges_reading, judges_reading. eapply judges_iff; [|eapply judges_around; [reflexivity| |]].
    2: { apply judges_for_each. intros id k _. apply Hstmt. }
    + rewrite Forall_map. unfold compose, uncurry. naive_solver.
    + intros l. by destruct v.
  - eapply judges_iff, judges_error_if. rewrite negb_false_iff, bool_decide_eq_true, Forall_nil. tauto.
Qed.

Lemma expression_judged fuel path v c id : judged fuel -> on_path path v -> NoDup path -> Forall valid path ->
  (verifier_fuel project <= length path + S fuel)%nat -> scope_is c v ->
  judges (WellFormed project c (NE id) /\ avoids path (NE id)) (verify_expression project (S fuel) (coroutine c) id) v.
Proof.
  intros IH Hpath Hnd Hvalid Hfuel Hscope. cbn [verify_expression].
  destruct (expression_id project id) eqn:Eid; cbn [negb].
  2: { eapply judges_iff, judges_error. split; [done|]. intros [Hwf _]. inversion Hwf as [Hl _]. apply local_valid in Hl. cbn in Hl. congruence. }
  apply judges_reading. case_bool_decide as Hact.
  { eapply judges_iff, judges_error. split; [done|]. intros [_ Ha]. destruct (Ha (NE id) (rtc_refl _ _)). by apply Hpath. }
  assert (Hx : NE id ∉ path) by by rewrite <-(proj1 (Hpath id)).
  destruct (valid_element_e id Eid) as [Hinv [e He]].
  eapply judges_around; [reflexivity| |].
  2: { intros l. destruct v as [es xs hs ae as_]. unfold set_expressions, modify, adds. cbn in *. f_equal. f_equal. set_solver. }
  rewrite He. set (w := mkVerifier _ _ _ _ _).
  assert (Hw : on_path (NE id :: path) w).
  { intros i. destruct (Hpath i) as [H1 H2]. cbn. rewrite !elem_of_cons, elem_of_union, elem_of_singleton, H1, H2. split; [|intuition congruence].
    split; (intros [Hi|Hi]; [left; congruence|by right]). }
  assert (Hnd' : NoDup (NE id :: path)) by by constructor. assert (Hvalid' : Forall valid (NE id :: path)) by by constructor.
  eapply judges_iff; [symmetry; by apply well_formed_step|]. cbn [local parts]. rewrite He. unfold expression_parts.
  eapply judges_iff.
  2: { apply judges_bind; [apply expression_shape_judges|intros l]. apply judges_bind.
    - apply judges_for_each. intros i k _. rewrite adds_adds. apply (IH (NE id :: path) _ c (NE i)); [exact Hw|done|done|cbn [length]; lia|exact Hscope].
    - intros l'. rewrite adds_adds. apply (lambda_judges (fun c' y => WellFormed project c' y /\ avoids (NE id :: path) y)). intros i k.
      apply (IH (NE id :: path) _ (mkCtx false 0 None) (NS i)); [exact Hw|done|done|cbn [length]; lia|done]. }
  rewrite Forall_app, Forall_map. unfold expression_rules.
  split; [|naive_solver].
  intros (Hs & Hops & Hb & Hbody). split; [split; [done|]; exists e; naive_solver|]. split; [exact Hops|exact Hbody].
Qed.

Lemma statement_judged fuel path v c id : judged fuel -> on_path path v -> NoDup path -> Forall valid path ->
  (verifier_fuel project <= length path + S fuel)%nat -> scope_is c v ->
  judges (WellFormed project c (NS id) /\ avoids path (NS id)) (verify_statement project (S fuel) (coroutine c) (depth c) id) v.
Proof.
  intros IH Hpath Hnd Hvalid Hfuel Hscope. cbn [verify_statement].
  destruct (statement_id project id) eqn:Eid; cbn [negb].
  2: { eapply judges_iff, judges_error. split; [done|]. intros [Hwf _]. inversion Hwf as [Hl _]. apply local_valid in Hl. cbn in Hl. congruence. }
  apply judges_reading. case_bool_decide as Hact.
  { eapply judges_iff, judges_error. split; [done|]. intros [_ Ha]. destruct (Ha (NS id) (rtc_refl _ _)). by apply Hpath. }
  assert (Hx : NS id ∉ path) by by rewrite <-(proj2 (Hpath id)).
  destruct (valid_element_s id Eid) as [Hinv [s Hs]].
  eapply judges_around; [reflexivity| |].
  2: { intros l. destruct v as [es xs hs ae as_]. unfold set_statements, modify, adds. cbn in *. f_equal. f_equal. set_solver. }
  rewrite Hs. set (w := mkVerifier _ _ _ _ _).
  assert (Hw : on_path (NS id :: path) w).
  { intros i. destruct (Hpath i) as [H1 H2]. cbn. rewrite !elem_of_cons, elem_of_union, elem_of_singleton, H1, H2. split; [intuition congruence|].
    split; (intros [Hi|Hi]; [left; congruence|by right]). }
  assert (Hnd' : NoDup (NS id :: path)) by by constructor. assert (Hvalid' : Forall valid (NS id :: path)) by by constructor.
  assert (Hpath' : forall u, same_active w u -> on_path (NS id :: path) u) by (intros u [E1 E2] i; rewrite E1, E2; apply Hw).
  eapply judges_iff; [symmetry; by apply well_formed_step|]. cbn [local parts]. rewrite Hs.
  eapply judges_iff.
  2: { apply (statement_cases_judges project (fun c' y => WellFormed project c' y /\ avoids (NS id :: path) y)
         (verify_expression project fuel (coroutine c)) (verify_statement project fuel (coroutine c)) (coroutine c) w) with (c := c).
    - intros d i u Hd Hu Hsc. rewrite <-Hd. apply (IH (NS id :: path) u d (NE i)); [by apply Hpath'|done|done|cbn [length]; lia|done].
    - intros d i u Hd Hu Hsc. rewrite <-Hd. apply (IH (NS id :: path) u d (NS i)); [by apply Hpath'|done|done|cbn [length]; lia|done].
    - intros d i [Hwf _]. inversion Hwf as [Hl _]. by apply local_valid in Hl.
    - done.
    - by split. }
  naive_solver.
Qed.

Lemma verify_judged fuel : judged fuel.
Proof.
  induction fuel as [|fuel IH].
  - intros path v c x _ Hnd Hvalid Hf _. pose proof (path_bound path Hnd Hvalid). lia.
  - intros path v c [id|id] Hpath Hnd Hvalid Hf Hs; [by apply expression_judged|by apply statement_judged].
Qed.
End Graph.

(** ** Whole projects *)

Section Whole.
Context (project : CppIrProject).

Ltac decided := rewrite ?orb_false_iff, ?andb_false_iff, ?negb_false_iff, ?andb_true_iff, ?bool_decide_eq_false, ?bool_decide_eq_true,
  ?type_valid_iff, ?Nat.eqb_eq, ?eqb_true_iff, ?eqb_false_iff.

Lemma declaration_shape_judges label i d v :
  judges (d_spelling d <> [] /\ (d_kind d = preamble -> i = 0%nat) /\ (d_kind d <> preamble -> d_name d <> []))
    (declaration_shape label i d) v.
Proof.
  unfold declaration_shape. eapply judges_iff.
  2: { apply judges_bind; [apply judges_error_if|intros l]. case_bool_decide as Hk.
    - eapply judges_iff with (Q := d_kind d = preamble -> i = 0%nat); [|eapply judges_iff, judges_error_if].
      + instantiate (1 := (d_kind d = preamble -> i = 0%nat) /\ (d_kind d <> preamble -> d_name d <> [])). tauto.
      + decided. tauto.
    - eapply judges_iff, judges_error_if. decided. tauto. }
  decided. tauto.
Qed.

Lemma filter_nothing {A} (P : A -> Prop) `{forall x, Decision (P x)} l : Forall (fun x => ~ P x) l -> base.filter P l = [].
Proof. induction 1 as [|x l Hx _ IH]; [done|]. by rewrite filter_cons_False. Qed.

Lemma declaration_set_judges l label v : judges (declaration_rules l) (verify_declaration_set l label) v.
Proof.
  unfold verify_declaration_set, declaration_rules. destruct l as [|first rest].
  { rewrite bool_decide_eq_true_2 by done. eapply judges_iff, judges_error. naive_solver. }
  rewrite bool_decide_eq_false_2 by done. eapply judges_iff.
  2: { apply judges_bind; [|intros k; apply judges_error_if].
    apply judges_for_each with (Q := fun '(i, d) => d_spelling d <> [] /\ (d_kind d = preamble -> i = 0%nat) /\ (d_kind d <> preamble -> d_name d <> [])).
    intros [i d] k _. apply declaration_shape_judges. }
  rewrite negb_false_iff, Nat.eqb_eq. cbn [imap]. rewrite Forall_cons, filter_cons. cbv beta iota.
  assert (Hrest : Forall (fun '(i, d) => d_spelling d <> [] /\ (d_kind d = preamble -> i = 0%nat) /\ (d_kind d <> preamble -> d_name d <> []))
    (imap (pair ∘ S) rest) <-> Forall (fun d => d_kind d <> preamble /\ d_spelling d <> [] /\ d_name d <> []) rest).
  { rewrite !Forall_lookup. split.
    - intros H j d Hd. specialize (H j (S j, d)). rewrite list_lookup_imap, Hd in H. specialize (H eq_refl) as (H1 & H2 & H3).
      assert (Hk : d_kind d <> preamble) by (intros Hk; specialize (H2 Hk); discriminate). by split_and!; [|done|apply H3].
    - intros H j [i d] Hd. rewrite list_lookup_imap in Hd. destruct (rest !! j) as [d'|] eqn:Ed; [|discriminate]. injection Hd as <- <-.
      destruct (H j d' Ed) as (H1 & H2 & H3). by split_and!. }
  rewrite Hrest. split.
  - intros [[(Hsp & Hz & Hn) Hr] Hc]. exists first, rest. destruct (decide (d_kind first = preamble)) as [Hk|Hk]; [by split_and!|exfalso].
    rewrite filter_nothing in Hc; [done|]. eapply Forall_impl; [exact Hr|]. by intros d (H & _).
  - intros (f & r & [= <- <-] & Hk & Hsp & Hr). split; [split; [by split_and!|done]|]. rewrite decide_True by done.
    rewrite filter_nothing; [done|]. eapply Forall_impl; [exact Hr|]. by intros d (H & _).
Qed.

Lemma declarations_judges v : judges (declaration_rules (interface_declarations project) /\ declaration_rules (header_declarations project) /\
  Forall2 (fun i h => d_kind i = d_kind h /\ d_module i = d_module h /\ d_name i = d_name h)
    (interface_declarations project) (header_declarations project)) (verify_declarations project) v.
Proof.
  unfold verify_declarations. apply judges_bind; [apply declaration_set_judges|intros l]. apply judges_bind; [apply declaration_set_judges|intros l'].
  destruct (Nat.eqb_spec (length (interface_declarations project)) (length (header_declarations project))) as [Hlen|Hlen]; cbn [negb].
  - eapply judges_iff.
    2: { apply judges_for_each with (Q := fun '(i, h) => d_kind i = d_kind h /\ d_module i = d_module h /\ d_name i = d_name h). intros [i h] k _.
      eapply judges_iff, judges_error_if. decided. tauto. }
    generalize dependent (header_declarations project). generalize (interface_declarations project) as l1. clear.
    induction l1 as [|i l1 IH]; intros [|h l2] Hlen; try discriminate; cbn [zip zip_with].
    + by split.
    + rewrite Forall_cons, Forall2_cons, IH by (injection Hlen as ->; done). done.
  - eapply judges_iff, judges_error. split; [done|]. by intros ?%Forall2_length.
Qed.

Lemma arenas_judges v : judges (arena_rules project) (verify_arena_shapes project) v.
Proof.
  unfold verify_arena_shapes. apply judges_bind.
  - apply judges_for_each. intros e k _. unfold arena_expression. eapply judges_iff.
    2: { apply judges_bind; [apply judges_error_if|intros ?]. apply judges_bind; [apply judges_error_if|intros ?].
      apply judges_bind; [apply judges_for_each; intros; apply judges_error_if|intros ?]. apply judges_bind; [apply judges_error_if|intros ?].
      apply judges_bind; [apply judges_error_if|intros ?]. apply judges_bind; [apply judges_for_each; intros; apply judges_error_if|intros ?].
      apply judges_error_if. }
    decided. setoid_rewrite negb_false_iff. destruct (decide (e_kind e = conversion)), (decide (e_kind e = await_)), (decide (e_kind e = lambda)); tauto.
  - intros l. apply judges_for_each. intros s k _. unfold arena_statement. eapply judges_iff.
    2: { apply judges_bind; [apply judges_error_if|intros ?]. apply judges_bind; [apply judges_for_each; intros; apply judges_error_if|intros ?].
      apply judges_bind; [apply judges_for_each; intros; apply judges_error_if|intros ?]. apply judges_for_each; intros; apply judges_error_if. }
    decided. setoid_rewrite negb_false_iff. rewrite !Forall_app. unfold no_expression. rewrite N.eqb_eq. tauto.
Qed.

(** A state in which nothing is marked, as the verifier is between functions. *)
Definition clear (v : Verifier) : Prop :=
  active_expressions v = ∅ /\ active_statements v = ∅ /\ exception_scopes_ v = [] /\ handler_scopes_ v = [].

Lemma fresh_judges Q m v : clear v -> judges Q m v -> judges Q (fresh_sets m) v.
Proof.
  intros (H1 & H2 & _) (l & E & Hl). exists l. split; [|done]. rewrite <-E. unfold fresh_sets, set_expressions, set_statements, mbind, eff_bind, modify.
  destruct v as [es xs hs ae as_]. cbn in *. by subst.
Qed.

Lemma visit_judges c x v : clear v -> scope c = None -> judges (WellFormed project c x) (visit project (verifier_fuel project) c x) v.
Proof.
  intros (H1 & H2 & H3 & H4) Hc. eapply judges_iff; [|eapply (verify_judged project _ []); [|constructor|constructor|cbn; lia|]].
  - split; [by intros [H _]|]. intros H. split; [done|]. by intros y _ ?%not_elem_of_nil.
  - intros id. rewrite H1, H2. set_solver.
  - split; [by rewrite H3, Hc|by rewrite H4, Hc].
Qed.

Lemma functions_judges v : clear v -> judges (Forall (function_rules project) (functions project)) (verify_functions project) v.
Proof.
  intros Hv. apply judges_for_each. intros f k _. unfold verify_function, function_rules. eapply judges_iff.
  2: { apply judges_bind; [apply judges_error_if|intros ?]. apply judges_bind; [apply judges_error_if|intros ?].
    apply judges_bind; [apply judges_error_if|intros ?]. apply judges_bind.
    - apply judges_for_each with (Q := fun p => p_name p <> [] /\ spelled_out (p_type p) /\
        (p_default_value p <> invalid_cpp_ir_id -> WellFormed project (mkCtx (f_coroutine f) 0 None) (NE (p_default_value p)))).
      intros p k' _. unfold verify_parameter. eapply judges_iff.
      2: { apply judges_bind; [apply judges_error_if|intros ?]. destruct (N.eqb_spec (p_default_value p) invalid_cpp_ir_id) as [Hp|Hp].
        - eapply judges_iff with (Q := True); [|apply judges_ret].
          instantiate (1 := (p_default_value p <> invalid_cpp_ir_id -> WellFormed project (mkCtx (f_coroutine f) 0 None) (NE (p_default_value p)))). tauto.
        - eapply judges_iff; [|apply fresh_judges; [done|apply (visit_judges (mkCtx (f_coroutine f) 0 None) (NE (p_default_value p))); done]]. tauto. }
      decided. tauto.
    - intros ?. apply fresh_judges; [done|]. apply judges_for_each. intros id k' _.
      by apply (visit_judges (mkCtx (f_coroutine f) 0 None) (NS id)). }
  decided. destruct (f_const_receiver f); cbn; intuition congruence.
Qed.

(** *** Every function in one unit *)

Lemma and_iff_compat_r_dep (A B C : Prop) : (A -> (B <-> C)) -> (A /\ B <-> A /\ C).
Proof. tauto. Qed.

Lemma count_one (l : list N) : (forall x, x ∈ l -> length (base.filter (fun i => i = x) l) = 1%nat) <-> NoDup l.
Proof.
  induction l as [|a l IH]; [split; [constructor|by intros _ x ?%not_elem_of_nil]|]. rewrite NoDup_cons. split.
  - intros H. assert (Ha : a ∉ l).
    { intros Hin. specialize (H a ltac:(by constructor)). rewrite filter_cons_True in H by done. cbn in H. injection H as H.
      apply length_zero_iff_nil in H. eapply filter_nil_not_elem_of; [exact H|reflexivity|exact Hin]. }
    split; [done|]. apply IH. intros x Hx. specialize (H x ltac:(by constructor)). rewrite filter_cons_False in H; [done|]. by intros ->.
  - intros [Ha Hn] x Hx. rewrite filter_cons. apply elem_of_cons in Hx as [->|Hx].
    + rewrite decide_True by done. cbn. f_equal. rewrite filter_nothing; [done|]. apply Forall_forall. by intros y Hy ->.
    + rewrite decide_False by by intros ->. by apply IH.
Qed.

Lemma one_unit (l : list N) n : (forall i, i ∈ l -> (N.to_nat i < n)%nat) ->
  (Forall (fun id => length (base.filter (fun i => i = N.of_nat id) l) = 1%nat) (seq 0 n) <-> l ≡ₚ map N.of_nat (seq 0 n)).
Proof.
  intros Hl. split.
  - intros H. rewrite Forall_forall in H.
    assert (Hc : forall i, (N.to_nat i < n)%nat -> length (base.filter (fun j => j = i) l) = 1%nat).
    { intros i Hi. specialize (H (N.to_nat i) ltac:(apply elem_of_seq; lia)). by rewrite N2Nat.id in H. }
    apply NoDup_Permutation.
    + apply count_one. intros x Hx. by apply Hc, Hl.
    + apply NoDup_fmap_2; [intros x y; apply Nat2N.inj|apply NoDup_seq].
    + intros i. rewrite list_elem_of_fmap. split.
      * intros Hi. exists (N.to_nat i). rewrite N2Nat.id, elem_of_seq. specialize (Hl i Hi). split; [done|lia].
      * intros (k & -> & Hk%elem_of_seq). specialize (Hc (N.of_nat k) ltac:(lia)).
        destruct (base.filter (fun j => j = N.of_nat k) l) as [|y rest] eqn:E; [done|].
        assert (Hy : y ∈ base.filter (fun j => j = N.of_nat k) l) by (rewrite E; constructor). by apply list_elem_of_filter in Hy as [-> Hy].
  - intros Hp. apply Forall_forall. intros id Hid. rewrite Hp. apply count_one.
    + apply NoDup_fmap_2; [intros x y; apply Nat2N.inj|apply NoDup_seq].
    + apply list_elem_of_fmap. by exists id.
Qed.

Lemma element_range {A} (l : list A) i a : element l i = Some a -> (N.to_nat i < length l)%nat.
Proof. unfold element. destruct (in_range l i) eqn:E; [|done]. intros _. by apply in_range_nat. Qed.

Lemma units_judges v : judges (unit_rules project) (verify_units project) v.
Proof.
  unfold verify_units. eapply judges_iff.
  2: { apply judges_bind.
    - apply judges_for_each with (Q := fun u => Forall (fun id => exists f, element (functions project) id = Some f /\ f_module f = u_module u) (u_functions u)).
      intros u k _. apply judges_for_each. intros id k' _. unfold verify_member. destruct (element _ _) as [f|].
      + eapply judges_iff, judges_error_if. decided. naive_solver.
      + eapply judges_iff, judges_error. naive_solver.
    - intros l. apply judges_for_each. intros id k _. apply judges_error_if. }
  unfold unit_rules. setoid_rewrite negb_false_iff. setoid_rewrite Nat.eqb_eq. apply and_iff_compat_r_dep. intros Hu. apply one_unit.
  intros i Hi. apply list_elem_of_join in Hi as (us & Hi & Hus). apply list_elem_of_fmap in Hus as (u & -> & Hus).
  rewrite Forall_forall in Hu. specialize (Hu u Hus). rewrite Forall_forall in Hu. destruct (Hu i Hi) as (f & Hf & _). by eapply element_range.
Qed.
End Whole.

Lemma verify_decides (project : CppIrProject) :
  exists errors, verify project = Ok errors /\ (errors = [] <-> WellFormedProject project).
Proof.
  assert (H : judges (WellFormedProject project) (run project) (mkVerifier [] [] [] ∅ ∅)).
  { unfold run. eapply judges_iff.
    2: { apply judges_bind; [apply declarations_judges|intros l]. apply judges_bind; [apply arenas_judges|intros l'].
      apply judges_bind; [by apply functions_judges|intros l'']. apply units_judges. }
    unfold WellFormedProject. tauto. }
  destruct H as (l & E & Hl). exists l. split; [|done]. unfold verify. by rewrite E.
Qed.

(** C28.  The verifier ends on every project, and reports nothing exactly when the project
    is well formed: every node has a finite derivation by the rules of its kind (no node is
    a part of itself, loop control is inside a loop, returns fit the function, catch and
    rethrow belong to a try), and every function is in exactly one unit. *)
Theorem verifier_exact (project : CppIrProject) :
  exists errors, verify project = Ok errors /\ (errors = [] <-> WellFormedProject project).
Proof. apply verify_decides. Qed.

(** ** Emission *)

Section Emission.
Context (project : CppIrProject).

(** The computation returns a value. *)
Local Abbreviation done_ r := (returns (fun _ => True) r).

Lemma done_mapM {A B} (f : A -> result B) l : (forall a, a ∈ l -> done_ (f a)) -> done_ (mapM f l).
Proof.
  induction l as [|a l IH]; intros H; [done|]. cbn [mapM]. eapply returns_bind; [apply H; constructor|intros b _].
  eapply returns_bind; [apply IH; intros x Hx; apply H; by constructor|done].
Qed.

Lemma done_at {A} (l : list A) id a : element l id = Some a -> at_ l id = Ok a.
Proof. unfold at_. by intros ->. Qed.

Section Statement.
Context (stmt : CppIrId -> result bytes).

Lemma body_done l : (forall i, i ∈ l -> done_ (stmt i)) -> done_ (body_text stmt l).
Proof. intros H. unfold body_text. pose proof (done_mapM _ _ H). by destruct (mapM stmt l). Qed.

Lemma block_done l : (forall i, i ∈ l -> done_ (stmt i)) -> done_ (block_text stmt l).
Proof. intros H. eapply returns_bind; [by apply body_done|done]. Qed.

Lemma expression_done c s : Forall (uncurry (WellFormed project)) (if no_expression s then [] else [(c, NE (s_expression s))]) ->
  done_ (expression_text project (s_expression s)).
Proof.
  unfold expression_text, no_expression. destruct (_ =? _)%N; [done|]. rewrite Forall_singleton. intros H. cbn in H. inversion H as [(_ & e & He & _) _].
  by rewrite (done_at _ _ _ He).
Qed.

(** A step of a loop is an expression statement. *)
Lemma step_done c i : WellFormed project c (NS i) -> is_named project i expression = true -> done_ (step_text project i).
Proof.
  intros Hwf Hn. unfold step_text. inversion Hwf as [(_ & s & Hs & _) Hp]. unfold is_named in Hn. rewrite Hs in Hn.
  rewrite (done_at _ _ _ Hs). cbn [mbind result_bind]. rewrite Hn. apply (expression_done c). apply Forall_forall. intros [c' y] Hy. apply Hp.
  cbn [parts]. rewrite Hs. unfold statement_parts. apply bool_decide_eq_true in Hn. by rewrite Hn.
Qed.

Lemma handlers_done slot l : (forall h, h ∈ l -> exists s, element (statements project) h = Some s /\ forall i, i ∈ s_body s -> done_ (stmt i)) ->
  done_ (mapM (fun '(i, id) => handler_text project stmt slot i id) (imap pair l)).
Proof.
  intros H. apply done_mapM. intros [i h] Hin. apply list_elem_of_lookup in Hin as [j Hj]. rewrite list_lookup_imap in Hj.
  destruct (l !! j) as [h'|] eqn:Eh; [|discriminate]. injection Hj as <- <-. destruct (H h' ltac:(by eapply list_elem_of_lookup_2)) as (s & Hs & Hb).
  unfold handler_text. rewrite (done_at _ _ _ Hs). cbn [mbind result_bind]. eapply returns_bind; [by apply body_done|done].
Qed.

(** A statement whose parts are emitted is emitted. *)
Lemma statement_done c id s : statement_rules project c id s -> s_kind s <> catch_ ->
  Forall (uncurry (WellFormed project)) (statement_parts c s) ->
  (forall c' i, c' = c \/ c' = deeper c -> (c', NS i) ∈ statement_parts c s -> done_ (stmt i)) ->
  (forall h, s_kind s = try_ -> h ∈ s_alternative s -> exists n, element (statements project) h = Some n /\ forall i, i ∈ s_body n -> done_ (stmt i)) ->
  done_ (statement_text project stmt s).
Proof.
  intros Hr Hk Hp Hs Hh. unfold statement_text, statement_parts, statement_rules, return_text in *.
  assert (Hmap : forall (c' : Ctx) i l, i ∈ l -> (c', NS i) ∈ map (fun id => (c', NS id)) l) by (intros c' i l Hi; apply list_elem_of_fmap; by exists i).
  destruct (s_kind s); try done.
  - eapply returns_bind; [by eapply expression_done|done].
  - eapply returns_bind; [by eapply expression_done|done].
  - eapply returns_bind; [by eapply expression_done|done].
  - eapply returns_bind; [by eapply expression_done|done].
  - eapply returns_bind; [by eapply expression_done|done].
  - apply block_done. intros i Hi. apply (Hs c); [by left|by apply Hmap].
  - apply Forall_app in Hp as [Hp _]. eapply returns_bind; [by eapply expression_done|intros ? _].
    eapply returns_bind; [apply block_done; intros i Hi; apply (Hs c); [by left|apply elem_of_app]; right; apply elem_of_app; left; by apply Hmap|intros ? _].
    eapply returns_bind with (P := fun _ => True); [|done]. case_bool_decide; [done|].
    eapply returns_bind; [apply block_done; intros i Hi; apply (Hs c); [by left|apply elem_of_app]; right; apply elem_of_app; right; by apply Hmap|done].
  - apply Forall_app in Hp as [Hp _]. eapply returns_bind; [by eapply expression_done|intros ? _].
    eapply returns_bind; [apply block_done; intros i Hi; apply (Hs (deeper c)); [by right|apply elem_of_app]; right; by apply Hmap|done].
  - rewrite !Forall_app in Hp. destruct Hp as (Hp & _ & Hsteps & _). unfold for_text.
    eapply returns_bind; [apply body_done; intros i Hi; apply (Hs c); [by left|apply elem_of_app]; right; apply elem_of_app; left; by apply Hmap|intros ? _].
    eapply returns_bind; [by eapply expression_done|intros ? _].
    eapply returns_bind with (P := fun _ => True); [|intros ? _; eapply returns_bind with (P := fun _ => True); [|done]].
    + destruct Hr as [_ Hnamed]. rewrite Forall_forall in Hnamed. rewrite Forall_forall in Hsteps. apply done_mapM. intros i Hi.
      apply (step_done (deeper c)); [|by apply Hnamed]. apply (Hsteps (deeper c, NS i)). by apply Hmap.
    + apply block_done. intros i Hi. apply (Hs (deeper c)); [by right|apply elem_of_app]. right. apply elem_of_app. right. apply elem_of_app. right. by apply Hmap.
  - apply Forall_app in Hp as [Hp _]. eapply returns_bind; [by eapply expression_done|intros ? _].
    eapply returns_bind; [apply block_done; intros i Hi; apply (Hs (deeper c)); [by right|apply elem_of_app]; right; by apply Hmap|done].
  - destruct Hr as (_ & r & E & _). by rewrite (done_at _ _ _ E).
  - unfold try_text. eapply returns_bind; [apply body_done; intros i Hi; apply (Hs c); [by left|apply elem_of_app]; left; by apply Hmap|intros ? _].
    eapply returns_bind; [|done]. apply handlers_done. intros h Hin. by apply Hh.
Qed.
End Statement.

(** A well-formed statement is emitted; a round of the emitter for every node is enough.
    The handler the statement is in is on the path. *)
Lemma emits fuel lines : forall path c id, NoDup path -> Forall (valid project) path -> (verifier_fuel project <= length path + fuel)%nat ->
  (forall h, snd <$> scope c = Some h -> NS h ∈ path) ->
  WellFormed project c (NS id) -> avoids project path (NS id) -> done_ (emit_statement project fuel lines id).
Proof.
  induction fuel as [|fuel IH]; intros path c id Hnd Hv Hf Hscope Hwf Ha.
  { pose proof (path_bound project path Hnd Hv). lia. }
  assert (Hx : NS id ∉ path) by (apply Ha; constructor).
  destruct (proj1 (well_formed_step project c (NS id) path Hx) (conj Hwf Ha)) as [Hl Hp].
  pose proof (local_valid project c (NS id) Hl) as Hvalid. destruct Hl as (_ & s & Hs & Hr). cbn [parts] in Hp. rewrite Hs in Hp.
  assert (Hnd' : NoDup (NS id :: path)) by by constructor. assert (Hv' : Forall (valid project) (NS id :: path)) by by constructor.
  rewrite Forall_forall in Hp. cbn [emit_statement]. rewrite (done_at _ _ _ Hs). cbn [mbind result_bind]. eapply returns_bind with (P := fun _ => True); [|done].
  apply (statement_done _ c id); [done| | | |].
  - intros Hk. unfold statement_rules in Hr. rewrite Hk in Hr. destruct Hr as [Hr _]. by apply Hx, Hscope.
  - apply Forall_forall. intros [c' y] Hy. by apply (Hp _ Hy).
  - intros c' i Hc' Hin. destruct (Hp _ Hin) as [Hwf' Ha']. apply (IH (NS id :: path) c'); [done|done|cbn; lia| |done|done].
    intros h Hh. apply elem_of_cons. right. apply Hscope. by destruct Hc' as [-> | ->].
  - intros h Hk Hin. assert (Hpart : (handling c (s_name s) h, NS h) ∈ statement_parts c s).
    { unfold statement_parts. rewrite Hk. apply elem_of_app. right. apply list_elem_of_fmap. by exists h. }
    destruct (Hp _ Hpart) as [Hwf' Ha']. assert (Hy : NS h ∉ NS id :: path) by (apply Ha'; constructor).
    destruct (proj1 (well_formed_step project _ (NS h) _ Hy) (conj Hwf' Ha')) as [Hl' Hp'].
    pose proof (local_valid project _ _ Hl') as Hvalid'. destruct Hl' as (_ & n & Hn & _). exists n. split; [done|]. intros i Hi.
    unfold statement_rules in Hr. rewrite Hk in Hr. destruct Hr as (_ & _ & Hr). rewrite Forall_forall in Hr. specialize (Hr h Hin).
    unfold is_named in Hr. rewrite Hn in Hr. apply bool_decide_eq_true in Hr. rewrite Forall_forall in Hp'. cbn [parts] in Hp'. rewrite Hn in Hp'.
    destruct (Hp' (handling c (s_name s) h, NS i)) as [Hwf'' Ha''].
    { unfold statement_parts. rewrite Hr. apply list_elem_of_fmap. by exists i. }
    apply (IH (NS h :: NS id :: path) (handling c (s_name s) h)); [by constructor|by constructor|cbn; lia| |done|done].
    intros h' [= <-]. constructor.
Qed.

(** The text of a function that is emitted. *)
Definition function_text (i : CppIrId) : bytes := match emit_function project i with Ok text => text | _ => [] end.

(** Every function of a well-formed project is emitted. *)
Lemma emits_function i f : Forall (function_rules project) (functions project) -> element (functions project) i = Some f ->
  emit_function project i = Ok (function_text i).
Proof.
  intros Hfs Hf. assert (H : done_ (emit_function project i)); [|unfold function_text; by destruct (emit_function project i)].
  assert (Hr : function_rules project f).
  { rewrite Forall_forall in Hfs. apply Hfs. unfold element in Hf. destruct (in_range _ _); [|done]. by eapply list_elem_of_lookup_2. }
  destruct Hr as (_ & _ & _ & _ & Hbody). rewrite Forall_forall in Hbody. unfold emit_function. rewrite (done_at _ _ _ Hf). cbn [mbind result_bind].
  eapply returns_bind with (P := fun _ => True); [|done].
  pose proof (done_mapM (emit_statement project (verifier_fuel project) (f_line_directive f)) (f_body f)) as Hm.
  destruct (mapM _ (f_body f)); [done|exfalso; apply Hm|exfalso; apply Hm];
    intros s Hs; (apply (emits _ _ [] (mkCtx (f_coroutine f) 0 None)); [constructor|constructor|done|done|by apply Hbody|by intros y _ ?%not_elem_of_nil]).
Qed.

Lemma mapM_ok {A B} (f : A -> result B) (g : A -> B) l : (forall a, a ∈ l -> f a = Ok (g a)) -> mapM f l = Ok (map g l).
Proof.
  induction l as [|a l IH]; intros H; [done|]. cbn [mapM map]. rewrite (H a) by constructor. cbn [mbind result_bind].
  rewrite IH; [done|]. intros x Hx. apply H. by constructor.
Qed.

Lemma emits_one i : WellFormedProject project -> (N.to_nat i < length (functions project))%nat -> emit_function project i = Ok (function_text i).
Proof.
  intros (_ & _ & _ & _ & Hfs & _) Hi. pose proof Hi as [f Hf]%lookup_lt_is_Some. apply (emits_function i f); [done|].
  unfold element. by rewrite (proj2 (in_range_nat _ i) Hi).
Qed.

Lemma emits_listed l : WellFormedProject project -> (forall i, i ∈ l -> (N.to_nat i < length (functions project))%nat) ->
  mapM (emit_function project) l = Ok (map function_text l).
Proof. intros Hp Hl. apply mapM_ok. intros i Hi. by apply emits_one, Hl. Qed.
End Emission.

(** The unit a unit of the project is printed as, from the texts of its functions. *)
Definition printed_unit (text : CppIrId -> bytes) (u : CppIrUnit) : EmittedUnit :=
  mkEmittedUnit (u_module u) (lit "#include " ++ quote (lit "program.hpp") ++ nl ++ mjoin (map text (u_functions u))).

(** C29.  A project is emitted exactly when the verifier reports nothing; else both emitters
    throw the same [logic_error].  The one text has the interface and then every function in
    order; the units have the same texts of the functions, and a function's is in one unit. *)
Theorem verified_emits (project : CppIrProject) :
  exists errors, verify project = Ok errors /\
    (errors <> [] -> exists what, emit project = Throw (logic_error what) /\ emit_units project = Throw (logic_error what)) /\
    (errors = [] -> exists text,
       (forall i, (i < length (functions project))%nat -> emit_function project (N.of_nat i) = Ok (text (N.of_nat i))) /\
       emit project = Ok (mjoin (map d_spelling (interface_declarations project)) ++
                          mjoin (map text (map N.of_nat (seq 0 (length (functions project)))))) /\
       emit_units project = Ok (mkEmittedProject (lit "#pragma once" ++ nl ++ mjoin (map d_spelling (header_declarations project)))
                                  (map (printed_unit text) (units project))) /\
       mjoin (map u_functions (units project)) ≡ₚ map N.of_nat (seq 0 (length (functions project)))).
Proof.
  destruct (verify_decides project) as (errors & Hv & Hwf). exists errors. split; [done|]. split.
  - intros He. unfold emit, emit_units, enforce_valid_ir. rewrite Hv. cbn [mbind result_bind]. rewrite bool_decide_eq_false_2 by done.
    eexists. split; reflexivity.
  - intros He. pose proof (proj1 Hwf He) as Hp. pose proof Hp as (_ & _ & _ & _ & _ & _ & Hperm).
    assert (Hall : forall i, i ∈ map N.of_nat (seq 0 (length (functions project))) -> (N.to_nat i < length (functions project))%nat).
    { intros i (k & -> & Hk%elem_of_seq)%list_elem_of_fmap. lia. }
    exists (function_text project). split; [intros i Hi; apply emits_one; [done|lia]|].
    unfold emit, emit_units, enforce_valid_ir. rewrite Hv. cbn [mbind result_bind]. rewrite bool_decide_eq_true_2 by done. cbn [mbind result_bind].
    rewrite (emits_listed _ _ Hp Hall). split; [done|]. split; [|done].
    rewrite (mapM_ok _ (printed_unit (function_text project))); [done|]. intros u Hu'. unfold emit_unit.
    rewrite (emits_listed _ _ Hp); [done|]. intros i Hi. apply Hall. rewrite <- Hperm. apply list_elem_of_join. exists (u_functions u). split; [done|].
    apply list_elem_of_fmap. by exists u.
Qed.
